(* ===== verification/_CoqProject ===== *)
-Q . S2P
Prelude.v
BigIntCore.v
BigIntMul.v
BigIntDiv.v
BigIntBits.v
BigIntRadix.v
Tagging.v
LargeInteger.v
Base64.v
RememberedSet.v
FreeList.v
HeapPage.v
Endian.v
Assembler.v
Bytecodes.v
Ppc64Asm.v
Ppc64Isa.v
Ppc64Code.v
X64Patch.v
Tokenizer.v
Lexemes.v
LexicalGrammar.v
TokenStream.v
RegisterAllocator.v
RegisterProofs.v
RegisterRanges.v
RegisterSound.v
ObjectMemory.v
Scavenger.v
ScavengerProofs.v
ScavengerRoots.v
ScavengerSound.v
Safepoint.v
SafepointLive.v
Probing.v
Dictionary.v
MethodLookup.v
Symbols.v
InlineCache.v
Collections.v
Json.v
JsonGrammar.v
JsonScan.v
JsonParse.v
JsonEncode.v
JsonExamples.v
Marking.v
Sweep.v
IntegerLiteral.v
Parser.v
AstShape.v
ParserTotal.v
ParserSound.v
ParserRound.v
