(* ===== verification/Prelude.v ===== *)
(** * A verification of the Smalltalk VM

    The repository is a Smalltalk virtual machine written in C: a compiler from
    source text to bytecodes (src/vm/compiler), a just-in-time compiler from
    bytecodes to x64 and POWER code (src/vm/jit), a generational heap with a
    copying young space and a mark-and-sweep old space (src/vm/memory), the
    object model (src/vm/core), the primitives and the runtime library
    (src/vm/runtime), and a scheduler of fibers over worker threads
    (src/vm/concurrency).  This library models the parts below and proves what
    makes them correct.

    ** How code is modelled

    C integers are [Z] with their wrap-around written out ([u8] .. [u64],
    [i32], [i64]); buffers are lists accessed through [put], [slice] and
    [memcpy], which fail outside the buffer; a failed ASSERT, a FAIL() and an
    out-of-bounds access are [None], so a theorem that says a function returns
    [Some] says that none of them happens.  Loops run with [for_up],
    [for_down] and [loop]; the fuel of [loop] is a bound from the source (the
    length of the input, the number of objects), and the theorems prove that it
    is enough, so none is about a run that was cut short.  The byte order is
    the class [Target], and the theorems hold for both orders.

    ** Files

    - Prelude: machine integers, buffers, loops, tactics, the [cint] hints.
    - BigIntCore, BigIntMul, BigIntDiv, BigIntBits, BigIntRadix: the magnitude
      kernels of runtime/BigInt.c.  Addition, subtraction, Karatsuba and
      schoolbook products, Knuth's division D, binary gcd, shifts, rounding to
      a double, printing and parsing in a radix, all against the values they
      stand for.
    - Tagging: the tagged words of core/Object.h; LargeInteger: the
      LargeInteger primitives of runtime/Primitives.c on top of both, refining
      exact integer arithmetic.
    - Base64: runtime/Base64.c, with the round trip.
    - FreeList, HeapPage, RememberedSet: memory/FreeList.c, memory/HeapPage.c
      and memory/RememberedSet.h, the old space's allocator, its pages and
      their index, and the log of old objects with young referents.
    - ObjectMemory: object headers, shapes and sizes, and the write barrier of
      core/Thread.h.  Scavenger, ScavengerProofs, ScavengerRoots,
      ScavengerSound: the young collector memory/Scavenger.c, its invariant
      through the roots and the scan, and the theorem that a collection copies
      the reachable graph and nothing else.
    - Safepoint, SafepointLive: memory/Safepoint.c and the parts of
      memory/Heap.c around it as interleaved steps of any number of threads:
      no mutator runs during a collection, and a collector that asks for a
      stop gets it.
    - Endian, Assembler, Bytecodes: core/Endian.h, the buffer, labels and
      fixups of jit/Assembler.h, and the bytecode format of
      compiler/Bytecodes.h, whose encoder and reader are inverse to each other.
    - Ppc64Asm, Ppc64Isa, Ppc64Code, X64Patch: the encoders of
      jit/ppc64/AssemblerPpc64.h, the part of the Power ISA they target, and
      the patching of code on both machines.  The disassembler that the encoders
      are compared with reads every bit of a word.
    - Tokenizer: compiler/Tokenizer.c.  LexicalGrammar: the lexical grammar as a
      relation, and the theorem that the tokenizer reads its tokens.  Lexemes,
      TokenStream: a lexer of lists that says what the tokenizer does on every
      source, and the ring of tokens as a cursor into the lexemes.
    - RegisterAllocator, RegisterProofs, RegisterRanges, RegisterSound: the
      linear scan of jit/RegisterAllocator.c, from the live ranges to the frame.
    - Probing, Dictionary: runtime/Dictionary.c.  Linear probing over any key
      type, then the dictionary objects as maps from symbols or strings.
    - MethodLookup: core/Lookup.c, the method dictionaries of core/Class.c and
      core/Namespace.c, and the per-thread cache, with collections that move
      classes.  Symbols: the symbol table and the globals of core/Smalltalk.c
      and runtime/String.c.
    - InlineCache: jit/InlineCache.c, the cells published by compare-and-swap
      under interleaving, their retirement and the sweep.
    - Collections: arrays, ordered collections and iterators of
      runtime/Collection.c and runtime/Iterator.c over a store of shared
      objects.  Json: runtime/Json.c over that store.  JsonGrammar: RFC 8259 as
      a relation between texts and values, and a reader of lists.  JsonScan,
      JsonParse: the parser accepts exactly the grammar, within its limits, and
      builds the value.  JsonEncode: the encoder, whose text the parser reads
      back.  JsonExamples: instances of the two theorems.
    - Marking, Sweep: memory/GarbageCollector.c and [markAndSweep] of
      memory/Heap.c.  The mark phase tags exactly the reachable objects and
      rebuilds the remembered set; the sweep keeps them and the dead objects
      with a finalizer, and makes a well-formed free list of the rest.
    - IntegerLiteral, Parser: the number literals and the recursive descent of
      compiler/Parser.c over the token cursor, with the nodes of compiler/Ast.h.
      AstShape: what a well-formed tree is.  ParserTotal, ParserSound: the parse
      functions end within their fuel on numbers of bounded scale, and answer a
      well-formed tree or report an error.  ParserRound: the token list of a
      class definition parses to that class.

    ** What the theorems assume of a heap

    Where the code is wrong on some inputs, the theorem says which ones it
    leaves out, and another theorem or example shows what happens on them.  The
    scavenger is correct on heaps in which a handler and its context are not
    both young, and the class of a young object and its metaclass are old, or
    at least not at the start of a semispace that ends where the other begins
    ([scavenge_drops_live_roots]); the old
    collector where the class of every old object, dead ones included, is live
    or outside old space, and live objects carry no mark ([dead_class_unmapped]);
    a finalizer may find its referents freed ([finalizer_dangles]); interning is
    unique unless the name SymbolTable itself makes the table grow
    ([asSymbol_duplicates]); the bytecode encoders stay in their buffer for
    instructions within the 64-byte gap ([bytecodeSend_bounds]).

    ** Interfaces and parameters

    [Target] is what the code knows of the byte order, [TargetCodePatch] what
    the collectors know of pointers in code, [OldSpace] what the scavenger
    knows of the old space, [backend_ok] what the register allocator needs of
    a backend, [KeyLaws] what a probed table needs of its keys; each has
    instances for the real targets or a witness.  Parameters stand for code
    outside the repository or for what a run decides: [osPageAlloc], the hash
    function CityHash64, [strtod] and the bytes of a double, the C library's
    number functions that JSON uses ([Libc], with [StrtodOk] and [FormatOk] for
    what is documented of them), whether an allocation collects and where it
    places an object.

    ** Fuel

    A copying collection has one unit of fuel per object that is left to copy,
    marking one per object, the sweep one per cell of a page, a probe one per slot, the parser one per token that is left (each call of a
    parse function that recurses has consumed a token), a limb loop the number
    of limbs, the JSON parser a fixed number per byte of its input, the encoder
    one per level down to the depth limit.  [parser_terminates], [findIndex_terminates] and the total
    correctness of the other theorems say that these are enough.

    ** Not modelled

    - The scope analysis, the bytecode compiler and the bytecode optimizer
      (compiler/Scope.c, Compiler.c, Optimizer.c): the trees they take and the
      bytecode format they write are modelled, the translation is not.
    - The instruction selection of the code generators, the stubs and the
      native primitives, and the x64 assembler: instruction sequences whose
      meaning needs a machine model with a heap.
    - [objectBecome], the allocation paths of memory/Heap.c that choose between
      the spaces and start a collection, and the code a finalizer runs.
    - The statistics of the inline caches, which jit/InlineCache.h declares
      inexact with several workers.
    - Tiering, fibers and the scheduler, streams, and the primitives outside the
      LargeInteger section.
    - Files, sockets, the operating-system layer, the build and project tools,
      the third-party code and the C tests: input and output, or not code of
      the virtual machine. *)
From stdpp Require Export base tactics option list numbers.
From Stdlib Require Export ZArith Lia Bool.
From Stdlib Require String Ascii.
Export String.StringSyntax.

#[global] Open Scope Z_scope.

(** ** Machine integers

    A C integer of width [w] is a [Z]; the wrap-around of an unsigned
    operation is written out with [u8] .. [u64], and a conversion to a signed
    64-bit type with [i64]. *)

Definition u8 (x : Z) : Z := x mod 2 ^ 8.
Definition u16 (x : Z) : Z := x mod 2 ^ 16.
Definition u32 (x : Z) : Z := x mod 2 ^ 32.
Definition u64 (x : Z) : Z := x mod 2 ^ 64.
Definition i32 (x : Z) : Z := (x + 2 ^ 31) mod 2 ^ 32 - 2 ^ 31.
Definition i64 (x : Z) : Z := (x + 2 ^ 63) mod 2 ^ 64 - 2 ^ 63.

Lemma u8_id x : 0 <= x < 2 ^ 8 -> u8 x = x.
Proof. intros; unfold u8; apply Z.mod_small; lia. Qed.
Lemma u16_id x : 0 <= x < 2 ^ 16 -> u16 x = x.
Proof. intros; unfold u16; apply Z.mod_small; lia. Qed.
Lemma u32_id x : 0 <= x < 2 ^ 32 -> u32 x = x.
Proof. intros; unfold u32; apply Z.mod_small; lia. Qed.
Lemma u64_id x : 0 <= x < 2 ^ 64 -> u64 x = x.
Proof. intros; unfold u64; apply Z.mod_small; lia. Qed.
Lemma i32_id x : - 2 ^ 31 <= x < 2 ^ 31 -> i32 x = x.
Proof. intros; unfold i32; rewrite Z.mod_small; lia. Qed.
Lemma i64_id x : - 2 ^ 63 <= x < 2 ^ 63 -> i64 x = x.
Proof. intros; unfold i64; rewrite Z.mod_small; lia. Qed.

Lemma u8_range x : 0 <= u8 x < 2 ^ 8.
Proof. apply Z.mod_pos_bound; lia. Qed.
Lemma u32_range x : 0 <= u32 x < 2 ^ 32.
Proof. apply Z.mod_pos_bound; lia. Qed.
Lemma u64_range x : 0 <= u64 x < 2 ^ 64.
Proof. apply Z.mod_pos_bound; lia. Qed.

(** The bytes of a C string literal, without its terminator. *)
Definition bytes_of_string (s : String.string) : list Z :=
  (fun c => Z.of_N (Ascii.N_of_ascii c)) <$> String.list_ascii_of_string s.

(** A character constant. *)
Definition chr (s : String.string) : Z := default 0 (head (bytes_of_string s)).

Arguments bytes_of_string _%_string_scope.
Arguments chr _%_string_scope.

(** ** Undefined behaviour and assertions

    [None] stands for a run the C program must not have: an access outside a
    buffer, a failed [ASSERT], a [FAIL()], or a loop that has not finished
    within its fuel.  Every theorem that says an operation returns [Some]
    therefore says that none of these happens. *)

Definition ASSERT (b : bool) : option unit := if b then Some tt else None.

(** Writing one element of a buffer. *)
Definition put {A} (l : list A) (i : nat) (v : A) : option (list A) :=
  if decide (i < length l)%nat then Some (<[i := v]> l) else None.

(** [slice src off n]: the [n] elements of [src] from [off]. *)
Definition slice {A} (src : list A) (off n : nat) : option (list A) :=
  if decide (off + n <= length src)%nat then Some (take n (drop off src)) else None.

(** [blit dst off src]: [src] copied over [dst] from [off]. *)
Definition blit {A} (dst : list A) (off : nat) (src : list A) : option (list A) :=
  if decide (off + length src <= length dst)%nat
  then Some (take off dst ++ src ++ drop (off + length src) dst) else None.

Definition memcpy {A} (dst : list A) (d : nat) (src : list A) (s n : nat) : option (list A) :=
  seg ← slice src s n; blit dst d seg.

Definition memset0 (dst : list Z) (n : nat) : option (list Z) := blit dst 0 (replicate n 0).

Lemma put_Some {A} (l : list A) i v : (i < length l)%nat -> put l i v = Some (<[i := v]> l).
Proof. intros; unfold put; by rewrite decide_True. Qed.

Lemma slice_Some {A} (l : list A) off n :
  (off + n <= length l)%nat -> slice l off n = Some (take n (drop off l)).
Proof. intros; unfold slice; by rewrite decide_True. Qed.

Lemma blit_Some {A} (dst src : list A) off :
  (off + length src <= length dst)%nat ->
  blit dst off src = Some (take off dst ++ src ++ drop (off + length src) dst).
Proof. intros; unfold blit; by rewrite decide_True. Qed.

Lemma lookup_Some_lt {A} (l : list A) i : (i < length l)%nat -> exists x, l !! i = Some x.
Proof. apply lookup_lt_is_Some_2. Qed.

(** ** Loops

    [for_up n i body s] is [for (k = i; k < i + n; k++) body];
    [for_down n body s] is [for (k = n; k > 0; k--) body];
    [loop] repeats a body that either continues ([inl]) or leaves ([inr]).
    The three rules below are rules of total correctness. *)

Section Loops.
Context {S R : Type}.

Fixpoint for_up (n i : nat) (body : nat -> S -> option S) (s : S) : option S :=
  match n with
  | O => Some s
  | Datatypes.S n' => s' ← body i s; for_up n' (Datatypes.S i) body s'
  end.

Fixpoint for_down (n : nat) (body : nat -> S -> option S) (s : S) : option S :=
  match n with
  | O => Some s
  | Datatypes.S n' => s' ← body n s; for_down n' body s'
  end.

Fixpoint loop (fuel : nat) (body : S -> option (S + R)) (s : S) : option R :=
  match fuel with
  | O => None
  | Datatypes.S f =>
      r ← body s;
      match r with
      | inl s' => loop f body s'
      | inr q => Some q
      end
  end.

Lemma for_up_rule (I : nat -> S -> Prop) n i body s :
  I i s ->
  (forall j t, (i <= j < i + n)%nat -> I j t ->
     exists t', body j t = Some t' /\ I (Datatypes.S j) t') ->
  exists s', for_up n i body s = Some s' /\ I (i + n)%nat s'.
Proof.
  revert i s; induction n as [|n IH]; intros i s Hi Hb; simpl.
  - exists s; split; [done|]. by replace (i + 0)%nat with i by lia.
  - destruct (Hb i s) as (t & Ht & HI); [lia|done|].
    rewrite Ht; simpl.
    destruct (IH (Datatypes.S i) t HI) as (s' & Hs & HI').
    + intros j u Hj. apply Hb; lia.
    + exists s'; split; [done|]. by replace (i + Datatypes.S n)%nat with (Datatypes.S i + n)%nat by lia.
Qed.

Lemma for_down_rule (I : nat -> S -> Prop) n body s :
  I n s ->
  (forall j t, (j < n)%nat -> I (Datatypes.S j) t ->
     exists t', body (Datatypes.S j) t = Some t' /\ I j t') ->
  exists s', for_down n body s = Some s' /\ I O s'.
Proof.
  revert s; induction n as [|n IH]; intros s Hi Hb; simpl; [eauto|].
  destruct (Hb n s) as (t & Ht & HI); [lia|done|].
  rewrite Ht; simpl. apply IH; [done|]. intros j u Hj; apply Hb; lia.
Qed.

Lemma loop_rule (I : S -> Prop) (Q : R -> Prop) (m : S -> nat) fuel body s :
  I s ->
  (forall t, I t -> exists r, body t = Some r /\
     match r with inl t' => I t' /\ (m t' < m t)%nat | inr q => Q q end) ->
  (m s < fuel)%nat ->
  exists q, loop fuel body s = Some q /\ Q q.
Proof.
  intros HI Hb; revert s HI; induction fuel as [|f IH]; intros s HI Hm; [lia|].
  simpl. destruct (Hb s HI) as ([t'|q] & Hr & HP); rewrite Hr; simpl.
  - destruct HP as [HI' Hm']. apply IH; [done|lia].
  - eauto.
Qed.
End Loops.

(** A loop that stores [f j] in every cell [j < n] of a buffer. *)
Lemma for_down_fill {A} n (f : nat -> A) (body : nat -> list A -> option (list A)) out0 :
  (forall j o, (j < n)%nat -> length o = length out0 -> body (S j) o = put o j (f j)) ->
  (n <= length out0)%nat ->
  exists out', for_down n body out0 = Some out' /\ length out' = length out0 /\
    (forall j, (j < n)%nat -> out' !! j = Some (f j)) /\
    (forall j, (n <= j)%nat -> out' !! j = out0 !! j).
Proof.
  intros Hb Hn.
  destruct (for_down_rule (fun k o => length o = length out0 /\
      (forall j, (k <= j < n)%nat -> o !! j = Some (f j)) /\
      (forall j, (n <= j)%nat -> o !! j = out0 !! j)) n body out0)
    as (o & Hf & Hl & Hi & Hr).
  - split; [done|]. split; [lia|done].
  - intros j o Hj (Hl & Hi & Hr). rewrite Hb, put_Some by (done || lia).
    eexists; split; [done|]. rewrite length_insert. split; [done|]. split.
    + intros k Hk. destruct (decide (k = j)) as [->|].
      * apply list_lookup_insert_eq; lia.
      * rewrite list_lookup_insert_ne by lia. apply Hi; lia.
    + intros k Hk. rewrite list_lookup_insert_ne by lia. by apply Hr.
  - exists o. split; [done|]. split; [done|]. split; [|done]. intros j Hj; apply Hi; lia.
Qed.

Lemma for_up_fill {A} n (f : nat -> A) (body : nat -> list A -> option (list A)) out0 :
  (forall j o, (j < n)%nat -> length o = length out0 -> body j o = put o j (f j)) ->
  (n <= length out0)%nat ->
  exists out', for_up n 0 body out0 = Some out' /\ length out' = length out0 /\
    (forall j, (j < n)%nat -> out' !! j = Some (f j)) /\
    (forall j, (n <= j)%nat -> out' !! j = out0 !! j).
Proof.
  intros Hb Hn.
  destruct (for_up_rule (fun k o => length o = length out0 /\
      (forall j, (j < k)%nat -> o !! j = Some (f j)) /\
      (forall j, (k <= j)%nat -> o !! j = out0 !! j)) n 0 body out0)
    as (o & Hf & Hl & Hi & Hr).
  - split; [done|]. split; [lia|done].
  - intros j o Hj (Hl & Hi & Hr). rewrite Hb, put_Some by (done || lia).
    eexists; split; [done|]. rewrite length_insert. split; [done|]. split.
    + intros k Hk. destruct (decide (k = j)) as [->|].
      * apply list_lookup_insert_eq; lia.
      * rewrite list_lookup_insert_ne by lia. apply Hi; lia.
    + intros k Hk. rewrite list_lookup_insert_ne by lia. apply Hr; lia.
  - exists o. eauto.
Qed.

(** ** Bit operations as arithmetic *)

Lemma lor_shiftl_add x y k :
  0 <= k -> 0 <= y < 2 ^ k -> Z.lor (Z.shiftl x k) y = x * 2 ^ k + y.
Proof.
  intros Hk Hy. rewrite <- Z.shiftl_mul_pow2 by lia.
  assert (Z.land (Z.shiftl x k) y = 0) as Hd.
  { apply Z.bits_inj'; intros i Hi. rewrite Z.land_spec, Z.bits_0.
    destruct (Z.ltb_spec i k).
    - rewrite Z.shiftl_spec_low by lia. done.
    - rewrite <- (Z.mod_small y (2 ^ k)), Z.mod_pow2_bits_high by lia. apply andb_false_r. }
  rewrite <- Z.lxor_lor by done. symmetry. by apply Z.add_nocarry_lxor.
Qed.

Lemma lor_mul_add x y k :
  0 <= k -> 0 <= y < 2 ^ k -> Z.lor (x * 2 ^ k) y = x * 2 ^ k + y.
Proof. intros. rewrite <- Z.shiftl_mul_pow2 at 1 by lia. by apply lor_shiftl_add. Qed.

Lemma testbit_lt x k : 0 <= k -> 0 <= x < 2 ^ (k + 1) -> Z.testbit x k = (2 ^ k <=? x).
Proof.
  intros Hk Hx. rewrite Z.testbit_eqb by lia. rewrite Z.pow_add_r, Z.pow_1_r in Hx by lia.
  destruct (Z.leb_spec (2 ^ k) x).
  - replace (x / 2 ^ k) with 1; [done|]. apply (Z.div_unique x (2 ^ k) 1 (x - 2 ^ k)); lia.
  - by rewrite Z.div_small by lia.
Qed.

Lemma land_pow2 x k : 0 <= k -> Z.land x (2 ^ k) = if Z.testbit x k then 2 ^ k else 0.
Proof.
  intros Hk. apply Z.bits_inj'; intros i Hi. rewrite Z.land_spec, Z.pow2_bits_eqb by lia.
  destruct (Z.eqb_spec k i) as [<-|Hne].
  - destruct (Z.testbit x k); [by rewrite Z.pow2_bits_true by lia|by rewrite Z.bits_0].
  - rewrite andb_false_r. destruct (Z.testbit x k); [|by rewrite Z.bits_0].
    by rewrite Z.pow2_bits_false by lia.
Qed.

(** ** Automation *)

(** Runs the monadic code in the goal one step, given the equation of the
    next call. *)
Ltac step H := rewrite H; cbn [mbind option_bind].

(** Takes a computation that returned apart: the values it bound, the branches
    it took. *)
Ltac unbind H := repeat match type of H with
  | mbind _ ?m = Some _ => let E := fresh "E" in destruct m eqn:E; cbn [mbind option_bind] in H; [|discriminate H]
  | (let '(_, _) := ?x in _) = Some _ => destruct x
  | (if ?b then _ else _) = Some _ => let E := fresh "E" in destruct b eqn:E
  end; simplify_eq.

(** Splits hypotheses made of conjunctions and existentials. *)
Ltac destr := repeat match goal with
  | H : _ /\ _ |- _ => destruct H
  | H : exists _, _ |- _ => destruct H
  end.

(** Destructs an outermost [if]/[match] on a boolean comparison, with its
    arithmetic meaning. *)
Ltac case_bool :=
  match goal with
  | |- context [ (?x <? ?y)%Z ] => destruct (Z.ltb_spec x y)
  | |- context [ (?x <=? ?y)%Z ] => destruct (Z.leb_spec x y)
  | |- context [ (?x =? ?y)%Z ] => destruct (Z.eqb_spec x y)
  | |- context [ (?x <? ?y)%nat ] => destruct (Nat.ltb_spec x y)
  | |- context [ (?x <=? ?y)%nat ] => destruct (Nat.leb_spec x y)
  | |- context [ (?x =? ?y)%nat ] => destruct (Nat.eqb_spec x y)
  end.

Create Rewrite HintDb cint.
#[export] Hint Rewrite u8_id u16_id u32_id u64_id i32_id i64_id using lia : cint.
