(* ===== verification/BigIntCore.v ===== *)
(** * Magnitudes: representation, comparison, addition, subtraction

    [src/vm/runtime/BigInt.c], first part.  A magnitude is a buffer of 32-bit
    limbs, least significant first, with the number of limbs in use.  Buffers
    are lists; an access outside one, and a failed [ASSERT], is [None]. *)
From S2P Require Import Prelude.

Definition LIMB_BITS : Z := 32.
Definition LIMB_MASK : Z := 0xFFFFFFFF.

(** ** The value of a limb array *)

Definition BASE : Z := 2 ^ 32.

(** The weight of limb [i]. *)
Definition Bp (i : nat) : Z := BASE ^ Z.of_nat i.

Fixpoint bval (l : list Z) : Z :=
  match l with
  | [] => 0
  | x :: t => x + BASE * bval t
  end.

(** The value of the first [i] limbs. *)
Definition pv (l : list Z) (i : nat) : Z := bval (take i l).

Definition limb_ok (x : Z) : Prop := 0 <= x < BASE.

(** The type of [uint32_t] buffers. *)
Definition u32buf (l : list Z) : Prop := Forall limb_ok l.

(** The top limb in use is not zero. *)
Definition norm (a : list Z) (n : nat) : Prop :=
  n = O \/ exists x, a !! pred n = Some x /\ x <> 0.

(** [(a, n)] holds the value [v]. *)
Definition mag (a : list Z) (n : nat) (v : Z) : Prop :=
  (n <= length a)%nat /\ u32buf a /\ pv a n = v.

Definition nmag (a : list Z) (n : nat) (v : Z) : Prop := mag a n v /\ norm a n.

Lemma nmag_intro a n v :
  (n <= length a)%nat -> u32buf a -> norm a n -> pv a n = v -> nmag a n v.
Proof. by repeat split. Qed.

Lemma BASE_pos : 0 < BASE.
Proof. reflexivity. Qed.

Lemma Bp_0 : Bp 0 = 1.
Proof. reflexivity. Qed.

Lemma Bp_S i : Bp (S i) = BASE * Bp i.
Proof. unfold Bp. rewrite Nat2Z.inj_succ, Z.pow_succ_r by lia. lia. Qed.

Lemma Bp_pos i : 0 < Bp i.
Proof. unfold Bp. apply Z.pow_pos_nonneg; unfold BASE; lia. Qed.

Lemma Bp_add i j : Bp (i + j) = Bp i * Bp j.
Proof. unfold Bp. rewrite Nat2Z.inj_add, Z.pow_add_r; lia. Qed.

Lemma Bp_mono i j : (i <= j)%nat -> Bp i <= Bp j.
Proof. intros; unfold Bp. apply Z.pow_le_mono_r; unfold BASE; lia. Qed.

Lemma Bp_pow2 i : Bp i = 2 ^ (32 * Z.of_nat i).
Proof. unfold Bp, BASE. rewrite <- Z.pow_mul_r by lia. done. Qed.

Lemma bval_app l k : bval (l ++ k) = bval l + Bp (length l) * bval k.
Proof.
  induction l as [|x l IH]; cbn [app bval length]; [rewrite Bp_0; lia|].
  rewrite IH, Bp_S. ring.
Qed.

Lemma bval_zeros n : bval (replicate n 0) = 0.
Proof. induction n; cbn [replicate bval]; lia. Qed.

Lemma bval_bound l : u32buf l -> 0 <= bval l < Bp (length l).
Proof.
  induction 1 as [|x l Hx Hl IH]; cbn [bval length]; [rewrite Bp_0; lia|].
  rewrite Bp_S. unfold limb_ok in Hx. nia.
Qed.

Lemma pv_0 l : pv l 0 = 0.
Proof. reflexivity. Qed.

Lemma pv_S l i x : l !! i = Some x -> pv l (S i) = pv l i + Bp i * x.
Proof.
  intros H. unfold pv. rewrite (take_S_r _ _ x), bval_app by done.
  rewrite length_take_le by (apply lookup_lt_Some in H; lia).
  cbn [bval]; lia.
Qed.

Lemma pv_ge l i : (length l <= i)%nat -> pv l i = bval l.
Proof. intros. unfold pv. by rewrite take_ge. Qed.

Lemma pv_insert_ge l i j v : (i <= j)%nat -> pv (<[j := v]> l) i = pv l i.
Proof. intros. unfold pv. by rewrite take_insert_ge. Qed.

Lemma pv_insert_S l i v : (i < length l)%nat -> pv (<[i := v]> l) (S i) = pv l i + Bp i * v.
Proof.
  intros. rewrite (pv_S _ i v) by (apply list_lookup_insert_eq; lia).
  by rewrite pv_insert_ge.
Qed.

Lemma pv_insert l i j x v :
  l !! j = Some x -> (j < i)%nat -> pv (<[j := v]> l) i = pv l i + Bp j * (v - x).
Proof.
  intros Hx Hj. pose proof (lookup_lt_Some _ _ _ Hx) as Hl.
  induction i as [|i IH]; [lia|].
  destruct (decide (i = j)) as [->|Hne].
  - rewrite pv_insert_S by done. rewrite (pv_S l j x) by done. ring.
  - destruct (l !! i) as [y|] eqn:Hy.
    + rewrite (pv_S (<[j := v]> l) i y) by (rewrite list_lookup_insert_ne by lia; done).
      rewrite (pv_S l i y), IH by (done || lia). ring.
    + apply lookup_ge_None in Hy. rewrite !pv_ge in * by (rewrite ?length_insert; lia).
      apply IH; lia.
Qed.

Lemma pv_drop l j k : (j <= length l)%nat -> pv l (j + k) = pv l j + Bp j * pv (drop j l) k.
Proof.
  intros Hj. unfold pv. rewrite take_drop_commute.
  rewrite <- (take_drop j (take (j + k) l)) at 1. rewrite bval_app, take_take.
  replace (j `min` (j + k))%nat with j by lia. by rewrite length_take_le.
Qed.

Lemma u32buf_take l i : u32buf l -> u32buf (take i l).
Proof. apply Forall_take. Qed.

Lemma pv_bound l i : u32buf l -> 0 <= pv l i < Bp i.
Proof.
  intros H. unfold pv. pose proof (bval_bound _ (u32buf_take _ i H)).
  pose proof (Bp_mono (length (take i l)) i). rewrite length_take in *. lia.
Qed.

Lemma pv_mono l i j : u32buf l -> (i <= j)%nat -> pv l i <= pv l j.
Proof.
  intros Hl Hij. unfold pv.
  rewrite <- (take_drop i (take j l)), take_take, bval_app.
  replace (i `min` j)%nat with i by lia.
  pose proof (bval_bound (drop i (take j l))) as Hb.
  assert (u32buf (drop i (take j l))) by (apply Forall_drop, u32buf_take, Hl).
  pose proof (Bp_pos (length (take i l))). specialize (Hb ltac:(done)). nia.
Qed.

Lemma u32buf_lookup l i x : u32buf l -> l !! i = Some x -> 0 <= x < BASE.
Proof. intros H; exact (Forall_lookup_1 limb_ok l i x H). Qed.

Lemma u32buf_insert l i v : u32buf l -> 0 <= v < BASE -> u32buf (<[i := v]> l).
Proof. intros; by apply (Forall_insert limb_ok). Qed.

Lemma u32buf_replicate n : u32buf (replicate n 0).
Proof. apply Forall_replicate. split; [done|reflexivity]. Qed.

Lemma norm_lower a n :
  u32buf a -> norm a n -> (0 < n)%nat -> (n <= length a)%nat -> Bp (pred n) <= pv a n.
Proof.
  intros Ha [->|(x & Hx & Hne)] Hn Hl; [lia|].
  destruct n as [|n]; [lia|]. simpl in *.
  rewrite (pv_S _ _ x) by done.
  pose proof (pv_bound a n Ha). pose proof (u32buf_lookup _ _ _ Ha Hx).
  pose proof (Bp_pos n). nia.
Qed.

Lemma nmag_zero a n v : nmag a n v -> (n = 0%nat <-> v = 0).
Proof.
  intros [(Hl & Ha & <-) Hn]. split; [intros ->; done|].
  intros Hv. destruct n as [|n]; [done|exfalso].
  pose proof (norm_lower _ _ Ha Hn ltac:(lia) Hl). pose proof (Bp_pos n). simpl in *. lia.
Qed.

Lemma mag_range a n v : mag a n v -> 0 <= v < Bp n.
Proof. intros (Hl & Ha & <-). by apply pv_bound. Qed.

(** ** The word arithmetic of one limb *)

Lemma land_mask x : Z.land x LIMB_MASK = x mod BASE.
Proof. unfold LIMB_MASK, BASE. change 0xFFFFFFFF with (Z.ones 32). apply Z.land_ones; lia. Qed.

Lemma shiftr_limb x : Z.shiftr x LIMB_BITS = x / BASE.
Proof. apply Z.shiftr_div_pow2. unfold LIMB_BITS; lia. Qed.

Lemma u32_land_mask x : u32 (Z.land x LIMB_MASK) = x mod BASE.
Proof. rewrite land_mask. unfold u32, BASE. by rewrite Z.mod_mod. Qed.

Lemma limb_split x : 0 <= x -> x = x mod BASE + BASE * (x / BASE) /\ 0 <= x mod BASE < BASE /\ 0 <= x / BASE.
Proof.
  intros. pose proof (Z.div_mod x BASE ltac:(done)). pose proof (Z.mod_pos_bound x BASE BASE_pos).
  pose proof (Z.div_pos x BASE). pose proof BASE_pos. lia.
Qed.

(** ** bigIntNormalize *)

Fixpoint bigIntNormalize (a : list Z) (n : nat) : option nat :=
  match n with
  | O => Some O
  | S m =>
      x ← a !! m;
      if x =? 0 then bigIntNormalize a m else Some (S m)
  end.

Lemma bigIntNormalize_spec a n :
  (n <= length a)%nat -> u32buf a ->
  exists m, bigIntNormalize a n = Some m /\ (m <= n)%nat /\ nmag a m (pv a n).
Proof.
  intros Hl Ha. induction n as [|n IH].
  - exists O. split; [done|]. split; [lia|]. apply nmag_intro; [lia|done|by left|done].
  - simpl. destruct (lookup_Some_lt a n) as [x Hx]; [lia|]. step Hx.
    destruct (Z.eqb_spec x 0) as [->|Hne].
    + destruct IH as (m & Hm & Hle & Hmag); [lia|].
      exists m. split; [done|]. split; [lia|].
      by rewrite (pv_S a n 0), Z.mul_0_r, Z.add_0_r by done.
    + exists (S n). split; [done|]. split; [lia|]. apply nmag_intro; auto. right; eauto.
Qed.

(** ** bigIntCompare *)

Fixpoint bigIntCompare_scan (a b : list Z) (i : nat) : option Z :=
  match i with
  | O => Some 0
  | S j =>
      x ← a !! j; y ← b !! j;
      if x =? y then bigIntCompare_scan a b j
      else Some (if x <? y then -1 else 1)
  end.

Definition bigIntCompare (a : list Z) (na : nat) (b : list Z) (nb : nat) : option Z :=
  if negb (na =? nb)%nat then Some (if (na <? nb)%nat then -1 else 1)
  else bigIntCompare_scan a b na.

(** The C convention for three-way comparison. *)
Definition sign_of_compare (c : comparison) : Z :=
  match c with Lt => -1 | Eq => 0 | Gt => 1 end.

Lemma compare_scan_spec a b n :
  (n <= length a)%nat -> (n <= length b)%nat -> u32buf a -> u32buf b ->
  bigIntCompare_scan a b n = Some (sign_of_compare (pv a n ?= pv b n)).
Proof.
  intros Hla Hlb Ha Hb. induction n as [|n IH]; [done|]. simpl.
  destruct (lookup_Some_lt a n) as [x Hx]; [lia|]. destruct (lookup_Some_lt b n) as [y Hy]; [lia|].
  step Hx. step Hy. rewrite (pv_S _ _ _ Hx), (pv_S _ _ _ Hy).
  pose proof (pv_bound a n Ha). pose proof (pv_bound b n Hb). pose proof (Bp_pos n).
  destruct (Z.eqb_spec x y) as [->|Hne].
  - rewrite IH by lia. do 2 f_equal. rewrite !(Z.add_comm _ (Bp n * y)). by rewrite Zcompare_plus_compat.
  - f_equal. destruct (Z.ltb_spec x y).
    + replace (_ ?= _) with Lt; [done|symmetry]. apply Z.compare_lt_iff. nia.
    + replace (_ ?= _) with Gt; [done|symmetry]. apply Z.compare_gt_iff. nia.
Qed.

Lemma norm_length_lt a na va b nb vb :
  nmag a na va -> nmag b nb vb -> (na < nb)%nat -> va < vb.
Proof.
  intros [(Hla & Ha & <-) Hna] [(Hlb & Hb & <-) Hnb] Hlt.
  pose proof (norm_lower b nb Hb Hnb ltac:(lia) Hlb).
  pose proof (pv_bound a na Ha). pose proof (Bp_mono na (pred nb) ltac:(lia)). lia.
Qed.

(** On normalized magnitudes [bigIntCompare] answers -1, 0 or 1 as the
    value of [a] is below, equal to or above that of [b], and reads neither
    array out of bounds. *)
Lemma bigIntCompare_spec a na va b nb vb :
  nmag a na va -> nmag b nb vb ->
  bigIntCompare a na b nb = Some (sign_of_compare (va ?= vb)).
Proof.
  intros HA HB. unfold bigIntCompare.
  destruct (Nat.eqb_spec na nb) as [<-|Hne]; simpl.
  - destruct HA as [(Hla & Ha & <-) _], HB as [(Hlb & Hb & <-) _].
    by apply compare_scan_spec.
  - f_equal. destruct (Nat.ltb_spec na nb) as [Hlt|Hge].
    + replace (va ?= vb) with Lt; [done|symmetry]. apply Z.compare_lt_iff, (norm_length_lt _ _ _ _ _ _ HA HB Hlt).
    + replace (va ?= vb) with Gt; [done|symmetry]. apply Z.compare_gt_iff, (norm_length_lt _ _ _ _ _ _ HB HA); lia.
Qed.

(** ** bigIntAdd *)

(** [i < n ? l[i] : 0] *)
Definition limb_or_0 (l : list Z) (n i : nat) : option Z :=
  if (i <? n)%nat then l !! i else Some 0.

Definition bigIntAdd_body (a b : list Z) (nb : nat) (i : nat) (st : list Z * Z) : option (list Z * Z) :=
  let '(out, carry) := st in
  ai ← a !! i;
  bi ← limb_or_0 b nb i;
  let sum := u64 (ai + carry + bi) in
  out ← put out i (u32 (Z.land sum LIMB_MASK));
  Some (out, Z.shiftr sum LIMB_BITS).

Definition bigIntAdd (a : list Z) (na : nat) (b : list Z) (nb : nat) (out : list Z)
    : option (list Z * nat) :=
  let '(a, na, b, nb) := if (na <? nb)%nat then (b, nb, a, na) else (a, na, b, nb) in
  '(out, carry) ← for_up na 0 (bigIntAdd_body a b nb) (out, 0);
  out ← put out na (u32 carry);
  n ← bigIntNormalize out (na + 1);
  Some (out, n).

Lemma limb_or_0_spec l n i :
  u32buf l -> (n <= length l)%nat ->
  exists x, limb_or_0 l n i = Some x /\ 0 <= x < BASE /\
    pv l (S i `min` n) = pv l (i `min` n) + Bp i * x.
Proof.
  intros Hb Hn. unfold limb_or_0. case_bool.
  - destruct (lookup_Some_lt l i) as [x Hx]; [lia|]. exists x.
    split; [done|]. split; [by eapply u32buf_lookup|].
    replace (S i `min` n)%nat with (S i) by lia. replace (i `min` n)%nat with i by lia.
    by apply pv_S.
  - exists 0. pose proof BASE_pos. split; [done|]. split; [lia|].
    replace (S i `min` n)%nat with n by lia. replace (i `min` n)%nat with n by lia. lia.
Qed.

Lemma put_limb out i v :
  u32buf out -> (i < length out)%nat -> 0 <= v < BASE ->
  exists out', put out i v = Some out' /\ u32buf out' /\ length out' = length out /\
    (forall k, (k <= i)%nat -> pv out' k = pv out k) /\
    pv out' (S i) = pv out i + Bp i * v /\ out' = <[i := v]> out.
Proof.
  intros Ho Hi Hv. exists (<[i := v]> out). rewrite put_Some by done.
  repeat split; auto using u32buf_insert, length_insert, pv_insert_ge, pv_insert_S.
Qed.

Section Add.
Context (a b : list Z) (na nb : nat).
Context (Ha : u32buf a) (Hb : u32buf b).
Context (Hna : (na <= length a)%nat) (Hnb : (nb <= length b)%nat).

Definition add_inv (L : nat) (i : nat) (st : list Z * Z) : Prop :=
  let '(out, carry) := st in
  length out = L /\ u32buf out /\ 0 <= carry <= 1 /\
  pv out i + Bp i * carry = pv a i + pv b (i `min` nb).

Lemma add_step L i st :
  (i < na)%nat -> (na < L)%nat -> add_inv L i st ->
  exists st', bigIntAdd_body a b nb i st = Some st' /\ add_inv L (S i) st'.
Proof.
  destruct st as [out carry]; intros Hi HL (Hlen & Ho & Hc & Hv). unfold bigIntAdd_body.
  destruct (lookup_Some_lt a i) as [x Hx]; [lia|]. step Hx.
  destruct (limb_or_0_spec b nb i Hb Hnb) as (y & Hy & Hyr & Hpv). step Hy.
  pose proof (u32buf_lookup _ _ _ Ha Hx). unfold BASE in *.
  rewrite u64_id by lia. rewrite u32_land_mask, shiftr_limb.
  destruct (limb_split (x + carry + y)) as (Hs & Hm & Hd); [lia|].
  set (lo := (x + carry + y) mod BASE) in *. set (hi := (x + carry + y) / BASE) in *.
  destruct (put_limb out i lo Ho ltac:(lia) Hm) as (out' & Hput & Ho' & Hlen' & _ & HpvS & _).
  step Hput. eexists; split; [done|]. unfold add_inv.
  split; [lia|]. split; [done|]. split; [unfold BASE in *; lia|].
  rewrite HpvS, Hpv, (pv_S _ _ _ Hx), Bp_S. nia.
Qed.
End Add.

Lemma add_ordered a na va b nb vb out :
  mag a na va -> mag b nb vb -> (nb <= na)%nat -> u32buf out -> (na < length out)%nat ->
  exists out' n,
    ('(out, carry) ← for_up na 0 (bigIntAdd_body a b nb) (out, 0);
     out ← put out na (u32 carry);
     n ← bigIntNormalize out (na + 1);
     Some (out, n)) = Some (out', n) /\
    nmag out' n (va + vb) /\ length out' = length out.
Proof.
  intros (Hla & Ha & <-) (Hlb & Hb & <-) Hle Ho HL.
  edestruct (for_up_rule (add_inv a b nb (length out)) na 0 (bigIntAdd_body a b nb) (out, 0))
    as ([o c] & Hf & Hlen & Ho' & Hc & Hv).
  { repeat split; try done; lia. }
  { intros j t Hj. apply (add_step a b na nb); auto; lia. }
  step Hf. simpl in Hv. replace (na `min` nb)%nat with nb in Hv by lia.
  rewrite u32_id by lia.
  destruct (put_limb o na c Ho' ltac:(lia) ltac:(unfold BASE; lia)) as (o' & Hput & Ho'' & Hlen' & _ & HpvS & _).
  step Hput.
  destruct (bigIntNormalize_spec o' (na + 1)) as (n & Hn & _ & Hmag); [lia|done|].
  step Hn. exists o', n. split; [done|]. split; [|lia].
  replace (na + 1)%nat with (S na) in Hmag by lia. rewrite HpvS in Hmag. by rewrite <- Hv.
Qed.

(** With room for [max(na, nb) + 1] limbs, [bigIntAdd] stays within its
    buffers and answers the normalized sum. *)
Lemma bigIntAdd_spec a na va b nb vb out :
  mag a na va -> mag b nb vb -> u32buf out -> (na `max` nb + 1 <= length out)%nat ->
  exists out' n, bigIntAdd a na b nb out = Some (out', n) /\
    nmag out' n (va + vb) /\ length out' = length out.
Proof.
  intros HA HB Ho HL. unfold bigIntAdd. destruct (Nat.ltb_spec na nb).
  - rewrite Z.add_comm. apply add_ordered; auto; lia.
  - apply add_ordered; auto; lia.
Qed.

(** ** bigIntSub *)

(** The borrow step of the subtraction loops: a signed 64-bit difference is
    brought back into a limb, answering the limb and the new borrow. *)
Definition borrow_step (diff : Z) : Z * Z :=
  if diff <? 0 then (i64 (diff + Z.shiftl 1 LIMB_BITS), 1) else (diff, 0).

Definition bigIntSub_body (a b : list Z) (nb : nat) (i : nat) (st : list Z * Z) : option (list Z * Z) :=
  let '(out, borrow) := st in
  ai ← a !! i;
  bi ← limb_or_0 b nb i;
  let '(diff, borrow) := borrow_step (i64 (i64 (ai - borrow) - bi)) in
  out ← put out i (u32 diff);
  Some (out, borrow).

Definition bigIntSub (a : list Z) (na : nat) (b : list Z) (nb : nat) (out : list Z)
    : option (list Z * nat) :=
  c ← bigIntCompare a na b nb;
  _ ← ASSERT (0 <=? c);
  '(out, borrow) ← for_up na 0 (bigIntSub_body a b nb) (out, 0);
  _ ← ASSERT (borrow =? 0);
  n ← bigIntNormalize out na;
  Some (out, n).

Lemma borrow_step_core d :
  - BASE <= d < BASE ->
  exists t c, borrow_step d = (t, c) /\ 0 <= t < BASE /\ 0 <= c <= 1 /\ t = d + BASE * c.
Proof.
  unfold BASE; intros. unfold borrow_step.
  change (Z.shiftl 1 LIMB_BITS) with (2 ^ 32). case_bool.
  - rewrite i64_id by lia. eexists _, _; split; [done|]. lia.
  - eexists _, _; split; [done|]. lia.
Qed.

Lemma borrow_step_spec x y c :
  0 <= x < BASE -> 0 <= y < BASE -> 0 <= c <= 1 ->
  exists d c', borrow_step (i64 (i64 (x - c) - y)) = (d, c') /\
    0 <= d < BASE /\ 0 <= c' <= 1 /\ d = x - y - c + BASE * c'.
Proof.
  intros Hx Hy Hc. rewrite !i64_id by (rewrite ?i64_id; unfold BASE in *; lia).
  destruct (borrow_step_core (x - c - y)) as (t & c' & -> & ?); [lia|].
  exists t, c'. split; [done|lia].
Qed.

Section Sub.
Context (a b : list Z) (na nb : nat).
Context (Ha : u32buf a) (Hb : u32buf b).
Context (Hna : (na <= length a)%nat) (Hnb : (nb <= length b)%nat).

Definition sub_inv (L : nat) (i : nat) (st : list Z * Z) : Prop :=
  let '(out, borrow) := st in
  length out = L /\ u32buf out /\ 0 <= borrow <= 1 /\
  pv out i = pv a i - pv b (i `min` nb) + Bp i * borrow.

Lemma sub_step L i st :
  (i < na)%nat -> (na <= L)%nat -> sub_inv L i st ->
  exists st', bigIntSub_body a b nb i st = Some st' /\ sub_inv L (S i) st'.
Proof.
  destruct st as [out c]; intros Hi HL (Hlen & Ho & Hc & Hv). unfold bigIntSub_body.
  destruct (lookup_Some_lt a i) as [x Hx]; [lia|]. step Hx.
  destruct (limb_or_0_spec b nb i Hb Hnb) as (y & Hy & Hyr & Hpv). step Hy.
  pose proof (u32buf_lookup _ _ _ Ha Hx).
  destruct (borrow_step_spec x y c) as (d & c' & -> & Hd & Hc' & Heq); [done..|].
  rewrite u32_id by (unfold BASE in *; lia).
  destruct (put_limb out i d Ho ltac:(lia) Hd) as (out' & Hput & Ho' & Hlen' & _ & HpvS & _).
  step Hput. eexists; split; [done|]. unfold sub_inv.
  split; [lia|]. split; [done|]. split; [done|].
  rewrite HpvS, Hpv, (pv_S _ _ _ Hx), Bp_S. nia.
Qed.
End Sub.

(** On normalized magnitudes with [a >= b] both assertions of [bigIntSub]
    hold, it stays within its buffers, and it answers the normalized
    difference. *)
Lemma bigIntSub_spec a na va b nb vb out :
  nmag a na va -> nmag b nb vb -> vb <= va -> u32buf out -> (na <= length out)%nat ->
  exists out' n, bigIntSub a na b nb out = Some (out', n) /\
    nmag out' n (va - vb) /\ length out' = length out.
Proof.
  intros HA HB Hge Ho HL. unfold bigIntSub. step (bigIntCompare_spec _ _ _ _ _ _ HA HB).
  replace (0 <=? _) with true.
  2: { destruct (Z.compare_spec va vb); simpl; lia. }
  assert (nb <= na)%nat as Hn.
  { destruct (decide (na < nb)%nat) as [Hlt|]; [|lia].
    pose proof (norm_length_lt _ _ _ _ _ _ HA HB Hlt). lia. }
  destruct HA as [(Hla & Ha & <-) _], HB as [(Hlb & Hb & <-) _]. simpl.
  edestruct (for_up_rule (sub_inv a b nb (length out)) na 0 (bigIntSub_body a b nb) (out, 0))
    as ([o c] & Hf & Hlen & Ho' & Hc & Hv).
  { repeat split; try done; lia. }
  { intros j t Hj. apply (sub_step a b na nb); auto; lia. }
  step Hf. simpl in Hv. replace (na `min` nb)%nat with nb in Hv by lia.
  assert (c = 0) as ->.
  { pose proof (pv_bound o na Ho'). pose proof (pv_bound b nb Hb). nia. }
  simpl. destruct (bigIntNormalize_spec o na) as (n & Hn' & _ & Hmag); [lia|done|].
  step Hn'. exists o, n. split; [done|]. split; [|lia].
  rewrite Hv in Hmag. by rewrite Z.mul_0_r, Z.add_0_r in Hmag.
Qed.

(** ** Properties *)

(** [bigIntAdd] on any two limb arrays writes, within [max(na, nb) + 1]
    limbs, a normalized array holding the exact sum of the two values. *)
Theorem bigIntAdd_sum a na va b nb vb out :
  mag a na va -> mag b nb vb -> u32buf out -> (na `max` nb + 1 <= length out)%nat ->
  exists out' n, bigIntAdd a na b nb out = Some (out', n) /\ nmag out' n (va + vb) /\ length out' = length out.
Proof. apply bigIntAdd_spec. Qed.

Lemma bigIntAdd_sum_witness :
  exists out' n, bigIntAdd [0xFFFFFFFF] 1 [1] 1 [0; 0] = Some (out', n) /\ nmag out' n 0x100000000.
Proof.
  destruct (bigIntAdd_sum [0xFFFFFFFF] 1 0xFFFFFFFF [1] 1 1 [0; 0]) as (o & n & H1 & H2 & _).
  1, 2: split; [done|]; split; [repeat constructor|]; done.
  - repeat constructor; done.
  - simpl. lia.
  - exists o, n. split; [exact H1|exact H2].
Defined.

(** [bigIntSub] on normalized operands with [a >= b] passes its
    assertions, never borrows out of the top limb, and writes the normalized
    exact difference; with [a < b] its assertion fails. *)
Theorem bigIntSub_difference a na va b nb vb out :
  nmag a na va -> nmag b nb vb -> u32buf out -> (na <= length out)%nat ->
  if vb <=? va then
    exists out' n, bigIntSub a na b nb out = Some (out', n) /\ nmag out' n (va - vb) /\ length out' = length out
  else bigIntSub a na b nb out = None.
Proof.
  intros HA HB Ho Hl. destruct (Z.leb_spec vb va) as [Hle|Hgt]; [by apply bigIntSub_spec|].
  unfold bigIntSub. step (bigIntCompare_spec _ _ _ _ _ _ HA HB). destruct (Z.compare_spec va vb); try lia. done.
Qed.

Lemma bigIntSub_difference_witness :
  exists out' n, bigIntSub [0; 1] 2 [1] 1 [0; 0] = Some (out', n) /\ nmag out' n 0xFFFFFFFF.
Proof.
  destruct (bigIntSub_difference [0; 1] 2 0x100000000 [1] 1 1 [0; 0]) as (o & n & H1 & H2 & _).
  1, 2: split; [split; [done|]; split; [repeat constructor|]; done|right; eexists; split; [reflexivity|discriminate]].
  - repeat constructor; done.
  - done.
  - exists o, n. split; [exact H1|exact H2].
Defined.
