(* ===== verification/BigIntMul.v ===== *)
(** * Magnitudes: multiplication

    [src/vm/runtime/BigInt.c]: the schoolbook product, the in-place carry and
    borrow ripples, Karatsuba's recursion and [bigIntMul] which chooses between
    them.  The main results: the two algorithms compute the product, every
    [ASSERT] on the way holds, no write leaves its buffer, and the recursion
    ends within the fuel [S (max na nb)]. *)
From S2P Require Import Prelude BigIntCore.

Definition KARATSUBA_THRESHOLD : nat := 40.

(** ** Carry and borrow ripples *)

(** [while (carry != 0) { out[k] += carry; ... k++ }] *)
Definition carry_ripple_body (st : list Z * nat * Z) : option (list Z * nat * Z + list Z) :=
  let '(out, k, carry) := st in
  if carry =? 0 then Some (inr out)
  else
    x ← out !! k;
    let cur := u64 (x + carry) in
    out ← put out k (u32 (Z.land cur LIMB_MASK));
    Some (inl (out, S k, Z.shiftr cur LIMB_BITS)).

Definition carry_ripple (out : list Z) (k : nat) (carry : Z) : option (list Z) :=
  loop (S (length out)) carry_ripple_body (out, k, carry).

(** [while (borrow != 0) { dst[k] -= borrow; ... k++ }] *)
Definition borrow_ripple_body (st : list Z * nat * Z) : option (list Z * nat * Z + list Z) :=
  let '(dst, k, borrow) := st in
  if borrow =? 0 then Some (inr dst)
  else
    x ← dst !! k;
    let '(diff, borrow) := borrow_step (i64 (x - borrow)) in
    dst ← put dst k (u32 diff);
    Some (inl (dst, S k, borrow)).

(** ** Schoolbook multiplication *)

Definition school_inner_body (ai : Z) (b : list Z) (i j : nat) (st : list Z * Z) : option (list Z * Z) :=
  let '(out, carry) := st in
  x ← out !! (i + j)%nat;
  bj ← b !! j;
  let cur := u64 (x + u64 (ai * bj) + carry) in
  out ← put out (i + j) (u32 (Z.land cur LIMB_MASK));
  Some (out, Z.shiftr cur LIMB_BITS).

Definition school_outer_body (a b : list Z) (nb i : nat) (out : list Z) : option (list Z) :=
  ai ← a !! i;
  if ai =? 0 then Some out
  else
    '(out, carry) ← for_up nb 0 (school_inner_body ai b i) (out, 0);
    carry_ripple out (i + nb) carry.

Definition bigIntMulSchoolbook (a : list Z) (na : nat) (b : list Z) (nb : nat) (out : list Z)
    : option (list Z) :=
  out ← memset0 out (na + nb);
  for_up na 0 (school_outer_body a b nb) out.

(** ** In-place accumulation *)

Definition addInto_body (ndst : nat) (src : list Z) (offset i : nat) (st : list Z * Z)
    : option (list Z * Z) :=
  let '(dst, carry) := st in
  _ ← ASSERT (offset + i <? ndst)%nat;
  x ← dst !! (offset + i)%nat;
  y ← src !! i;
  let cur := u64 (x + y + carry) in
  dst ← put dst (offset + i) (u32 (Z.land cur LIMB_MASK));
  Some (dst, Z.shiftr cur LIMB_BITS).

Definition addInto_ripple_body (ndst : nat) (st : list Z * nat * Z) : option (list Z * nat * Z + list Z) :=
  let '(dst, k, carry) := st in
  if carry =? 0 then Some (inr dst)
  else _ ← ASSERT (k <? ndst)%nat; carry_ripple_body st.

Definition bigIntAddInto (dst : list Z) (ndst : nat) (src : list Z) (nsrc offset : nat)
    : option (list Z) :=
  '(dst, carry) ← for_up nsrc 0 (addInto_body ndst src offset) (dst, 0);
  loop (S ndst) (addInto_ripple_body ndst) (dst, (offset + nsrc)%nat, carry).

Definition subFrom_body (ndst : nat) (src : list Z) (offset i : nat) (st : list Z * Z)
    : option (list Z * Z) :=
  let '(dst, borrow) := st in
  _ ← ASSERT (offset + i <? ndst)%nat;
  x ← dst !! (offset + i)%nat;
  y ← src !! i;
  let '(diff, borrow) := borrow_step (i64 (i64 (x - borrow) - y)) in
  dst ← put dst (offset + i) (u32 diff);
  Some (dst, borrow).

Definition subFrom_ripple_body (ndst : nat) (st : list Z * nat * Z) : option (list Z * nat * Z + list Z) :=
  let '(dst, k, borrow) := st in
  if borrow =? 0 then Some (inr dst)
  else _ ← ASSERT (k <? ndst)%nat; borrow_ripple_body st.

Definition bigIntSubFrom (dst : list Z) (ndst : nat) (src : list Z) (nsrc offset : nat)
    : option (list Z) :=
  '(dst, borrow) ← for_up nsrc 0 (subFrom_body ndst src offset) (dst, 0);
  loop (S ndst) (subFrom_ripple_body ndst) (dst, (offset + nsrc)%nat, borrow).

(** ** Karatsuba

    Pointers into an array ([a + na0]) are the array's tail; [calloc]'ed
    buffers are zero lists of the requested length (allocation failure, which
    ends the process through [FAIL()], is not modelled). *)

Definition calloc (n : nat) : list Z := replicate n 0.

Fixpoint bigIntMulKaratsuba (fuel : nat) (a : list Z) (na : nat) (b : list Z) (nb : nat)
    (out : list Z) {struct fuel} : option (list Z) :=
  match fuel with
  | O => None
  | S fuel =>
    let half := ((if (nb <? na)%nat then na else nb + 0) / 2)%nat in
    if (half =? 0)%nat || (na <=? KARATSUBA_THRESHOLD)%nat || (nb <=? KARATSUBA_THRESHOLD)%nat then
      bigIntMulSchoolbook a na b nb out
    else
      let na0 := (if na <? half then na else half)%nat in
      let na1 := (if half <? na then na - half else 0)%nat in
      let nb0 := (if nb <? half then nb else half)%nat in
      let nb1 := (if half <? nb then nb - half else 0)%nat in
      let a0 := a in let a1 := drop na0 a in
      let b0 := b in let b1 := drop nb0 b in
      na0 ← bigIntNormalize a0 na0;
      nb0 ← bigIntNormalize b0 nb0;
      na1 ← bigIntNormalize a1 na1;
      nb1 ← bigIntNormalize b1 nb1;
      let nsa := ((if na1 <? na0 then na0 else na1) + 1)%nat in
      let nsb := ((if nb1 <? nb0 then nb0 else nb1) + 1)%nat in
      '(sumA, nSumA) ← bigIntAdd a0 na0 a1 na1 (calloc nsa);
      '(sumB, nSumB) ← bigIntAdd b0 nb0 b1 nb1 (calloc nsb);
      out ← memset0 out (na + nb);
      if (0 <? na0)%nat && (0 <? nb0)%nat then
        z0 ← bigIntMulKaratsuba fuel a0 na0 b0 nb0 (calloc (na0 + nb0));
        nz0 ← bigIntNormalize z0 (na0 + nb0);
        out ← bigIntAddInto out (na + nb) z0 nz0 0;
        z1 ← bigIntMulKaratsuba fuel sumA nSumA sumB nSumB (calloc (nsa + nsb));
        nz1 ← bigIntNormalize z1 (nsa + nsb);
        tmp ← memcpy (calloc (nsa + nsb)) 0 z1 0 (nsa + nsb);
        tmp ← bigIntSubFrom tmp (nsa + nsb) z0 nz0 0;
        '(out, tmp) ←
          (if (0 <? na1)%nat && (0 <? nb1)%nat then
             z2 ← bigIntMulKaratsuba fuel a1 na1 b1 nb1 (calloc (na1 + nb1));
             nz2 ← bigIntNormalize z2 (na1 + nb1);
             out ← bigIntAddInto out (na + nb) z2 nz2 (2 * half);
             tmp ← bigIntSubFrom tmp (nsa + nsb) z2 nz2 0;
             Some (out, tmp)
           else Some (out, tmp));
        nTmp ← bigIntNormalize tmp (nsa + nsb);
        bigIntAddInto out (na + nb) tmp nTmp half
      else
        bigIntMulSchoolbook a na b nb out
  end.

Definition bigIntMul (a : list Z) (na : nat) (b : list Z) (nb : nat) (out : list Z)
    : option (list Z * nat) :=
  if (na =? 0)%nat || (nb =? 0)%nat then Some (out, O)
  else
    out ←
      (if (na <=? KARATSUBA_THRESHOLD)%nat || (nb <=? KARATSUBA_THRESHOLD)%nat
       then bigIntMulSchoolbook a na b nb out
       else bigIntMulKaratsuba (S (na `max` nb)) a na b nb out);
    n ← bigIntNormalize out (na + nb);
    Some (out, n).

(** ** Proofs *)

(** [out'] is [out] with the value of its first [N] limbs now [v]; nothing
    from limb [N] on has changed. *)
Definition written (N : nat) (out out' : list Z) (v : Z) : Prop :=
  length out' = length out /\ u32buf out' /\ pv out' N = v /\ drop N out' = drop N out.

Lemma written_refl N out : u32buf out -> written N out out (pv out N).
Proof. by repeat split. Qed.

Lemma written_trans N o1 o2 o3 v w : written N o1 o2 v -> written N o2 o3 w -> written N o1 o3 w.
Proof. intros (?&?&?&?) (?&?&?&?). split; [lia|]. split; [done|]. split; [done|congruence]. Qed.

Lemma put_at N out i x v :
  u32buf out -> out !! i = Some x -> (i < N)%nat -> 0 <= v < BASE ->
  exists out', put out i v = Some out' /\ written N out out' (pv out N + Bp i * (v - x)).
Proof.
  intros Ho Hx Hi Hv. pose proof (lookup_lt_Some _ _ _ Hx).
  exists (<[i := v]> out). rewrite put_Some by done. split; [done|].
  repeat split; [apply length_insert|by apply u32buf_insert|by apply pv_insert|].
  by apply drop_insert_lt.
Qed.

(** One carry step: the low limb is stored, the high part is the new carry. *)
Lemma carry_put N out i x s :
  u32buf out -> out !! i = Some x -> (i < N)%nat -> 0 <= s < BASE * BASE ->
  exists out', put out i (u32 (Z.land s LIMB_MASK)) = Some out' /\
    0 <= Z.shiftr s LIMB_BITS < BASE /\
    written N out out' (pv out N + Bp i * (s - x) - Bp (S i) * Z.shiftr s LIMB_BITS).
Proof.
  intros Ho Hx Hi Hs. rewrite u32_land_mask, shiftr_limb.
  destruct (limb_split s) as (Heq & Hm & Hd); [lia|].
  destruct (put_at N out i x (s mod BASE)) as (out' & Hp & Hw); [done..|].
  exists out'. split; [done|]. split; [nia|].
  rewrite Bp_S. replace (pv out N + _ - _) with (pv out N + Bp i * (s mod BASE - x)) by nia. done.
Qed.

(** The room left for a carry: a total below [Bp N] with a carry pending at
    [k] forces [k < N]. *)
Lemma carry_room out N k c :
  u32buf out -> 0 <= c -> pv out N + Bp k * c < Bp N -> c <> 0 -> (k < N)%nat.
Proof.
  intros Ho Hc Ht Hne. destruct (decide (k < N)%nat) as [|Hge]; [done|exfalso].
  pose proof (pv_bound out N Ho). pose proof (Bp_mono N k ltac:(lia)). pose proof (Bp_pos N). nia.
Qed.

Section CarryRipple.
Context (N : nat) (out0 : list Z) (T : Z).
Context (HN : (N <= length out0)%nat) (HT : T < Bp N).

Definition carry_inv (st : list Z * nat * Z) : Prop :=
  let '(out, k, c) := st in
  0 <= c < BASE /\ written N out0 out (T - Bp k * c).

Definition carry_measure (st : list Z * nat * Z) : nat := (N - st.1.2)%nat.

Lemma carry_inv_room out k c : carry_inv (out, k, c) -> c <> 0 -> (k < N)%nat.
Proof. intros (Hc & _ & Ho & Hv & _). apply (carry_room out); auto; lia. Qed.

Lemma carry_ripple_step st :
  carry_inv st -> exists r, carry_ripple_body st = Some r /\
    match r with
    | inl t' => carry_inv t' /\ (carry_measure t' < carry_measure st)%nat
    | inr q => written N out0 q T
    end.
Proof.
  destruct st as [[out k] c]; intros Hi. pose proof (carry_inv_room out k c Hi) as Hroom.
  destruct Hi as (Hc & Hw). unfold carry_ripple_body.
  destruct (Z.eqb_spec c 0) as [->|Hne].
  { exists (inr out). split; [done|]. by rewrite Z.mul_0_r, Z.sub_0_r in Hw. }
  specialize (Hroom Hne). destruct Hw as (Hl & Ho & Hv & Hd).
  destruct (lookup_Some_lt out k) as [x Hx]; [lia|]. step Hx.
  pose proof (u32buf_lookup _ _ _ Ho Hx). rewrite u64_id by (unfold BASE in *; lia).
  destruct (carry_put N out k x (x + c)) as (out' & Hp & Hr & Hw'); [done..|unfold BASE in *; lia|].
  step Hp. eexists; split; [done|]. unfold carry_inv, carry_measure; cbn [fst snd].
  split; [split; [done|]|lia]. eapply written_trans; [by split_and!|].
  replace (T - _) with (pv out N + Bp k * (x + c - x) - Bp (S k) * Z.shiftr (x + c) LIMB_BITS); [done|].
  rewrite Hv. ring.
Qed.

Lemma carry_ripple_spec fuel out k c :
  carry_inv (out, k, c) -> (N < fuel)%nat ->
  exists out', loop fuel carry_ripple_body (out, k, c) = Some out' /\ written N out0 out' T.
Proof.
  intros Hi Hf. apply (loop_rule carry_inv _ carry_measure); auto using carry_ripple_step.
  unfold carry_measure; simpl; lia.
Qed.

Lemma addInto_ripple_spec out k c :
  carry_inv (out, k, c) ->
  exists out', loop (S N) (addInto_ripple_body N) (out, k, c) = Some out' /\ written N out0 out' T.
Proof.
  intros Hi. apply (loop_rule carry_inv _ carry_measure); auto.
  - intros [[o j] d] Hj. destruct (carry_ripple_step _ Hj) as (r & Hr & HP).
    exists r; split; [|done]. unfold addInto_ripple_body.
    destruct (Z.eqb_spec d 0) as [->|Hne]; [exact Hr|].
    pose proof (carry_inv_room _ _ _ Hj Hne).
    replace (j <? N)%nat with true by (symmetry; apply Nat.ltb_lt; lia). exact Hr.
  - unfold carry_measure; simpl; lia.
Qed.
End CarryRipple.

Lemma borrow_step_0 x c :
  0 <= x < BASE -> 0 <= c <= 1 ->
  exists d c', borrow_step (i64 (x - c)) = (d, c') /\
    0 <= d < BASE /\ 0 <= c' <= 1 /\ d = x - c + BASE * c'.
Proof.
  intros Hx Hc. destruct (borrow_step_spec x 0 c) as (d & c' & Heq & ?); [done|by split|done|].
  exists d, c'. rewrite Z.sub_0_r in Heq.
  unfold BASE in *. rewrite (i64_id (i64 (x - c))) in Heq by (rewrite i64_id; lia). split; [done|lia].
Qed.

Section BorrowRipple.
Context (N : nat) (dst0 : list Z) (T : Z).
Context (HN : (N <= length dst0)%nat) (HT : 0 <= T).

Definition borrow_inv (st : list Z * nat * Z) : Prop :=
  let '(dst, k, c) := st in
  0 <= c <= 1 /\ written N dst0 dst (T + Bp k * c).

Lemma borrow_inv_room dst k c : borrow_inv (dst, k, c) -> c <> 0 -> (k < N)%nat.
Proof.
  intros (Hc & _ & Ho & Hv & _) Hne. destruct (decide (k < N)%nat) as [|Hge]; [done|exfalso].
  pose proof (pv_bound dst N Ho). pose proof (Bp_mono N k ltac:(lia)). nia.
Qed.

Lemma borrow_ripple_step st :
  borrow_inv st -> exists r, borrow_ripple_body st = Some r /\
    match r with
    | inl t' => borrow_inv t' /\ (N - t'.1.2 < N - st.1.2)%nat
    | inr q => written N dst0 q T
    end.
Proof.
  destruct st as [[dst k] c]; intros Hi. pose proof (borrow_inv_room dst k c Hi) as Hroom.
  destruct Hi as (Hc & Hw). unfold borrow_ripple_body.
  destruct (Z.eqb_spec c 0) as [->|Hne].
  { exists (inr dst). split; [done|]. by rewrite Z.mul_0_r, Z.add_0_r in Hw. }
  specialize (Hroom Hne). pose proof Hw as (Hl & Ho & Hv & Hd).
  destruct (lookup_Some_lt dst k) as [x Hx]; [lia|]. step Hx.
  destruct (borrow_step_0 x c) as (d & c' & -> & Hdr & Hcr & Heq); [by eapply u32buf_lookup|done|].
  rewrite u32_id by (unfold BASE in *; lia).
  destruct (put_at N dst k x d) as (dst' & Hp & Hw'); [done..|].
  step Hp. eexists; split; [done|]. cbn [fst snd]. split; [split; [done|]|lia].
  eapply written_trans; [done|]. rewrite Bp_S.
  replace (T + _) with (pv dst N + Bp k * (d - x)); [done|]. rewrite Hv, Heq. ring.
Qed.

Lemma subFrom_ripple_spec dst k c :
  borrow_inv (dst, k, c) ->
  exists dst', loop (S N) (subFrom_ripple_body N) (dst, k, c) = Some dst' /\ written N dst0 dst' T.
Proof.
  intros Hi. apply (loop_rule borrow_inv _ (fun st => N - st.1.2)%nat); auto; [|simpl; lia].
  intros [[o j] d] Hj. destruct (borrow_ripple_step _ Hj) as (r & Hr & HP).
  exists r; split; [|done]. unfold subFrom_ripple_body.
  destruct (Z.eqb_spec d 0) as [->|Hne]; [exact Hr|].
  pose proof (borrow_inv_room _ _ _ Hj Hne).
  replace (j <? N)%nat with true by (symmetry; apply Nat.ltb_lt; lia). exact Hr.
Qed.
End BorrowRipple.

Lemma memset0_spec out n :
  u32buf out -> (n <= length out)%nat ->
  exists out', memset0 out n = Some out' /\ written n out out' 0.
Proof.
  intros Ho Hn. unfold memset0. rewrite blit_Some by (rewrite length_replicate; lia).
  eexists; split; [done|]. rewrite length_replicate; simpl.
  assert (take n (replicate n 0 ++ drop n out) = replicate n 0) as Ht
    by (rewrite take_app_length'; [done|by rewrite length_replicate]).
  repeat split.
  - rewrite length_app, length_replicate, length_drop. lia.
  - apply Forall_app; split; [apply u32buf_replicate|by apply Forall_drop].
  - unfold pv. rewrite Ht. apply bval_zeros.
  - rewrite drop_app_length'; [done|by rewrite length_replicate].
Qed.

Lemma mul_bound va vb i j : 0 <= va < Bp i -> 0 <= vb < Bp j -> 0 <= va * vb < Bp (i + j).
Proof. intros. rewrite Bp_add. nia. Qed.

Section Schoolbook.
Context (a b out0 : list Z) (na nb : nat).
Context (Ha : u32buf a) (Hb : u32buf b).
Context (Hna : (na <= length a)%nat) (Hnb : (nb <= length b)%nat).
Context (HN : (na + nb <= length out0)%nat).

Lemma school_inner_spec i ai out V :
  (i < na)%nat -> 0 <= ai < BASE -> written (na + nb) out0 out V ->
  exists out' c, for_up nb 0 (school_inner_body ai b i) (out, 0) = Some (out', c) /\
    0 <= c < BASE /\
    written (na + nb) out0 out' (V + Bp i * ai * pv b nb - Bp (i + nb) * c).
Proof.
  intros Hi Hai Hw.
  edestruct (for_up_rule (fun j '(o, c) => 0 <= c < BASE /\
      written (na + nb) out0 o (V + Bp i * ai * pv b j - Bp (i + j) * c)) nb 0
      (school_inner_body ai b i) (out, 0)) as ([o c] & Hf & Hc & Hw').
  { split; [unfold BASE; lia|]. rewrite pv_0. by rewrite !Z.mul_0_r, Z.sub_0_r, Z.add_0_r. }
  2: { exists o, c. done. }
  intros j [o c] Hj (Hc & Hw'). pose proof Hw' as (Hl & Ho & Hv & _). unfold school_inner_body.
  destruct (lookup_Some_lt o (i + j)) as [x Hx]; [lia|]. step Hx.
  destruct (lookup_Some_lt b j) as [y Hy]; [lia|]. step Hy.
  pose proof (u32buf_lookup _ _ _ Ho Hx). pose proof (u32buf_lookup _ _ _ Hb Hy).
  assert (0 <= ai * y <= (BASE - 1) * (BASE - 1)) by nia.
  rewrite (u64_id (ai * y)) by (unfold BASE in *; lia).
  rewrite u64_id by (unfold BASE in *; lia).
  destruct (carry_put (na + nb) o (i + j) x (x + ai * y + c)) as (o' & Hp & Hr & Hw'');
    [done..|lia|unfold BASE in *; lia|].
  step Hp. eexists; split; [done|]. split; [done|]. eapply written_trans; [done|].
  replace (i + S j)%nat with (S (i + j)) by lia. rewrite (pv_S b j y) by done.
  replace (V + _ - _) with (pv o (na + nb) + Bp (i + j) * (x + ai * y + c - x)
    - Bp (S (i + j)) * Z.shiftr (x + ai * y + c) LIMB_BITS); [done|].
  rewrite Hv. rewrite (Bp_add i j). ring.
Qed.

Lemma school_outer_step i out :
  (i < na)%nat -> written (na + nb) out0 out (pv a i * pv b nb) ->
  exists out', school_outer_body a b nb i out = Some out' /\
    written (na + nb) out0 out' (pv a (S i) * pv b nb).
Proof.
  intros Hi Hw. unfold school_outer_body.
  destruct (lookup_Some_lt a i) as [x Hx]; [lia|]. step Hx. rewrite (pv_S _ _ _ Hx).
  destruct (Z.eqb_spec x 0) as [->|Hne].
  { exists out. split; [done|]. by rewrite Z.mul_0_r, Z.add_0_r. }
  destruct (school_inner_spec i x out _ Hi (u32buf_lookup _ _ _ Ha Hx) Hw) as (o & c & Hf & Hc & Hw').
  step Hf. pose proof Hw' as (Hl & _).
  apply (carry_ripple_spec (na + nb) out0); [done|..|lia].
  - rewrite <- (pv_S _ _ _ Hx).
    pose proof (mul_bound _ _ _ _ (pv_bound a (S i) Ha) (pv_bound b nb Hb)).
    pose proof (Bp_mono (S i + nb) (na + nb) ltac:(lia)). lia.
  - split; [done|].
    replace ((pv a i + Bp i * x) * pv b nb) with (pv a i * pv b nb + Bp i * x * pv b nb) by ring. done.
Qed.
End Schoolbook.

Lemma bigIntMulSchoolbook_spec a na va b nb vb out :
  mag a na va -> mag b nb vb -> u32buf out -> (na + nb <= length out)%nat ->
  exists out', bigIntMulSchoolbook a na b nb out = Some out' /\ written (na + nb) out out' (va * vb).
Proof.
  intros (Hla & Ha & <-) (Hlb & Hb & <-) Ho HN. unfold bigIntMulSchoolbook.
  destruct (memset0_spec out (na + nb) Ho HN) as (o & Hm & Hw). step Hm.
  apply (for_up_rule (fun i o => written (na + nb) out o (pv a i * pv b nb))).
  - by rewrite pv_0.
  - intros i t Hi Ht. apply (school_outer_step a b out na nb); auto; lia.
Qed.

Lemma ltb_true (m n : nat) : (m < n)%nat -> (m <? n)%nat = true.
Proof. apply Nat.ltb_lt. Qed.

Lemma bigIntAddInto_spec dst ndst src nsrc offset V W :
  u32buf dst -> (ndst <= length dst)%nat -> pv dst ndst = V ->
  mag src nsrc W -> (offset + nsrc <= ndst)%nat -> V + Bp offset * W < Bp ndst ->
  exists dst', bigIntAddInto dst ndst src nsrc offset = Some dst' /\
    written ndst dst dst' (V + Bp offset * W).
Proof.
  intros Hd Hl <- (Hls & Hs & <-) Hoff HT. unfold bigIntAddInto.
  edestruct (for_up_rule (fun i '(o, c) => 0 <= c < BASE /\
      written ndst dst o (pv dst ndst + Bp offset * pv src i - Bp (offset + i) * c)) nsrc 0
      (addInto_body ndst src offset) (dst, 0)) as ([o c] & Hf & Hc & Hw).
  { split; [unfold BASE; lia|]. rewrite pv_0, !Z.mul_0_r, Z.sub_0_r, Z.add_0_r. by apply written_refl. }
  2: { step Hf. by apply (addInto_ripple_spec ndst dst). }
  intros j [o c] Hj (Hc & Hw). pose proof Hw as (Hlo & Ho & Hv & _). unfold addInto_body.
  rewrite ltb_true by lia; simpl.
  destruct (lookup_Some_lt o (offset + j)) as [x Hx]; [lia|]. step Hx.
  destruct (lookup_Some_lt src j) as [y Hy]; [lia|]. step Hy.
  pose proof (u32buf_lookup _ _ _ Ho Hx). pose proof (u32buf_lookup _ _ _ Hs Hy).
  rewrite u64_id by (unfold BASE in *; lia).
  destruct (carry_put ndst o (offset + j) x (x + y + c)) as (o' & Hp & Hr & Hw');
    [done..|lia|unfold BASE in *; lia|].
  step Hp. eexists; split; [done|]. split; [done|]. eapply written_trans; [done|].
  replace (offset + S j)%nat with (S (offset + j)) by lia. rewrite (pv_S src j y) by done.
  replace (_ + _ - Bp (S (offset + j)) * _) with (pv o ndst + Bp (offset + j) * (x + y + c - x)
    - Bp (S (offset + j)) * Z.shiftr (x + y + c) LIMB_BITS); [done|].
  rewrite Hv, (Bp_add offset j). ring.
Qed.

Lemma bigIntSubFrom_spec dst ndst src nsrc offset V W :
  u32buf dst -> (ndst <= length dst)%nat -> pv dst ndst = V ->
  mag src nsrc W -> (offset + nsrc <= ndst)%nat -> 0 <= V - Bp offset * W ->
  exists dst', bigIntSubFrom dst ndst src nsrc offset = Some dst' /\
    written ndst dst dst' (V - Bp offset * W).
Proof.
  intros Hd Hl <- (Hls & Hs & <-) Hoff HT. unfold bigIntSubFrom.
  edestruct (for_up_rule (fun i '(o, c) => 0 <= c <= 1 /\
      written ndst dst o (pv dst ndst - Bp offset * pv src i + Bp (offset + i) * c)) nsrc 0
      (subFrom_body ndst src offset) (dst, 0)) as ([o c] & Hf & Hc & Hw).
  { split; [lia|]. rewrite pv_0, !Z.mul_0_r, Z.sub_0_r, Z.add_0_r. by apply written_refl. }
  2: { step Hf. by apply (subFrom_ripple_spec ndst dst). }
  intros j [o c] Hj (Hc & Hw). pose proof Hw as (Hlo & Ho & Hv & _). unfold subFrom_body.
  rewrite ltb_true by lia; simpl.
  destruct (lookup_Some_lt o (offset + j)) as [x Hx]; [lia|]. step Hx.
  destruct (lookup_Some_lt src j) as [y Hy]; [lia|]. step Hy.
  destruct (borrow_step_spec x y c) as (d & c' & -> & Hdr & Hcr & Heq);
    [exact (u32buf_lookup _ _ _ Ho Hx)|exact (u32buf_lookup _ _ _ Hs Hy)|done|].
  rewrite u32_id by (unfold BASE in *; lia).
  destruct (put_at ndst o (offset + j) x d) as (o' & Hp & Hw'); [done..|lia|done|].
  step Hp. eexists; split; [done|]. split; [done|]. eapply written_trans; [done|].
  replace (offset + S j)%nat with (S (offset + j)) by lia. rewrite (pv_S src j y), Bp_S by done.
  replace (_ - _ + _) with (pv o ndst + Bp (offset + j) * (d - x)); [done|].
  rewrite Hv, Heq, (Bp_add offset j). ring.
Qed.

(** Splitting an operand at [half]. *)
Lemma split_at a na va half :
  mag a na va ->
  let n0 := (if na <? half then na else half)%nat in
  let n1 := (if half <? na then na - half else 0)%nat in
  exists m0 m1 v0 v1,
    bigIntNormalize a n0 = Some m0 /\ bigIntNormalize (drop n0 a) n1 = Some m1 /\
    (m0 <= n0)%nat /\ (m1 <= n1)%nat /\
    nmag a m0 v0 /\ nmag (drop n0 a) m1 v1 /\ va = v0 + Bp half * v1.
Proof.
  intros (Hla & Ha & <-) n0 n1.
  assert (n0 <= na)%nat by (unfold n0; case_bool; lia).
  assert (n1 <= na - n0)%nat by (unfold n0, n1; repeat case_bool; lia).
  assert (u32buf (drop n0 a)) by by apply Forall_drop.
  destruct (bigIntNormalize_spec a n0) as (m0 & Hn0 & Hm0 & Hg0); [lia|done|].
  destruct (bigIntNormalize_spec (drop n0 a) n1) as (m1 & Hn1 & Hm1 & Hg1);
    [rewrite length_drop; lia|done|].
  exists m0, m1, (pv a n0), (pv (drop n0 a) n1). split_and!; try done.
  unfold n0, n1; destruct (Nat.ltb_spec na half); destruct (Nat.ltb_spec half na); try lia.
  - rewrite pv_0. lia.
  - unfold pv at 1. rewrite <- (take_drop half (take na a)), take_take, bval_app.
    replace (half `min` na)%nat with half by lia. rewrite length_take_le by lia.
    unfold pv. rewrite take_drop_commute. by replace (half + (na - half))%nat with na by lia.
  - replace half with na by lia. rewrite pv_0. lia.
Qed.

(** A nonnegative value below [Bp N] placed at [offset] leaves room for its
    own normalized limbs. *)
Lemma norm_room a n v offset N :
  nmag a n v -> Bp offset * v < Bp N -> (offset <= N)%nat -> (offset + n <= N)%nat.
Proof.
  intros [(Hl & Ha & <-) Hn] Hlt Hoff. destruct n as [|n]; [lia|].
  pose proof (norm_lower a (S n) Ha Hn ltac:(lia) Hl) as Hlow. simpl in Hlow.
  destruct (decide (offset + S n <= N)%nat) as [|Hgt]; [done|exfalso].
  pose proof (Bp_mono N (offset + n) ltac:(lia)). rewrite Bp_add in *.
  pose proof (Bp_pos offset). nia.
Qed.

Lemma written_zero_norm n v out' :
  written n (calloc n) out' v -> mag out' n v.
Proof.
  intros (Hl & Ho & Hv & _). unfold calloc in Hl. rewrite length_replicate in Hl.
  split; [lia|done].
Qed.

(** A product written at the start of a zeroed buffer is the value of the
    whole buffer. *)
Lemma written_calloc m n v out' :
  (m <= n)%nat -> written m (calloc n) out' v -> mag out' n v.
Proof.
  intros Hm (Hl & Ho & Hv & Hd). unfold calloc in *. rewrite length_replicate in Hl.
  split; [lia|]. split; [done|]. rewrite <- Hv. rewrite pv_ge by lia. unfold pv.
  rewrite <- (take_drop m out') at 1. rewrite bval_app, Hd, drop_replicate, bval_zeros. lia.
Qed.

Lemma u32buf_calloc n : u32buf (calloc n).
Proof. apply u32buf_replicate. Qed.

Lemma length_calloc n : length (calloc n) = n.
Proof. apply length_replicate. Qed.

(** What a multiplication routine promises to its callers; Karatsuba is
    proved against it for its recursive calls. *)
Definition mul_ok (size : nat)
    (f : list Z -> nat -> list Z -> nat -> list Z -> option (list Z)) : Prop :=
  forall a na va b nb vb out,
    (na `max` nb < size)%nat -> mag a na va -> mag b nb vb ->
    u32buf out -> (na + nb <= length out)%nat ->
    exists out', f a na b nb out = Some out' /\ written (na + nb) out out' (va * vb).

(** A recursive product into a fresh buffer, then normalized. *)
Lemma mul_fresh size f a na va b nb vb n :
  mul_ok size f -> (na `max` nb < size)%nat -> mag a na va -> mag b nb vb -> (na + nb <= n)%nat ->
  exists z nz, f a na b nb (calloc n) = Some z /\ bigIntNormalize z n = Some nz /\
    (nz <= n)%nat /\ length z = n /\ mag z n (va * vb) /\ nmag z nz (va * vb).
Proof.
  intros Hf Hs HA HB Hn.
  destruct (Hf a na va b nb vb (calloc n) Hs HA HB (u32buf_calloc n)) as (z & Hz & Hw);
    [rewrite length_calloc; lia|].
  pose proof (written_calloc _ _ _ _ Hn Hw) as HM. destruct Hw as (Hl & _).
  rewrite length_calloc in Hl. pose proof HM as (Hle & Hzb & Hv).
  destruct (bigIntNormalize_spec z n Hle Hzb) as (nz & Hnz & Hnle & Hmag). rewrite Hv in Hmag.
  exists z, nz. done.
Qed.

Lemma memcpy_calloc n z : length z = n -> memcpy (calloc n) 0 z 0 n = Some z.
Proof.
  intros Hl. unfold memcpy. rewrite slice_Some by lia. simpl.
  rewrite drop_0, take_ge by lia. rewrite blit_Some by (rewrite length_calloc; lia).
  simpl. rewrite drop_ge by (rewrite length_calloc; lia). by rewrite app_nil_r.
Qed.

(** The part of Karatsuba that accumulates [z2]: it runs only when both high
    halves are nonzero, and in both cases the accumulated values are those of
    [z2 = a1 * b1]. *)
Lemma karatsuba_z2 size f a1 na1 v1 b1 nb1 w1 out N half tmp nt V T :
  mul_ok size f -> (na1 `max` nb1 < size)%nat -> nmag a1 na1 v1 -> nmag b1 nb1 w1 ->
  u32buf out -> (N <= length out)%nat -> pv out N = V ->
  mag tmp nt T -> length tmp = nt ->
  ((0 < na1 -> 0 < nb1 -> 2 * half + (na1 + nb1) <= N)%nat) -> (na1 + nb1 <= nt)%nat ->
  V + Bp (2 * half) * (v1 * w1) < Bp N -> 0 <= T - v1 * w1 ->
  exists out' tmp',
    (if (0 <? na1)%nat && (0 <? nb1)%nat then
       z2 ← f a1 na1 b1 nb1 (calloc (na1 + nb1));
       nz2 ← bigIntNormalize z2 (na1 + nb1);
       out ← bigIntAddInto out N z2 nz2 (2 * half);
       tmp ← bigIntSubFrom tmp nt z2 nz2 0;
       Some (out, tmp)
     else Some (out, tmp)) = Some (out', tmp') /\
    written N out out' (V + Bp (2 * half) * (v1 * w1)) /\
    mag tmp' nt (T - v1 * w1) /\ length tmp' = nt.
Proof.
  intros Hf Hs [HA HAn] [HB HBn] Ho HN HV HT Hlt Hroom Hnt Hsum Hpos.
  destruct (Nat.ltb_spec 0 na1) as [H1|H1]; destruct (Nat.ltb_spec 0 nb1) as [H2|H2]; cbn [andb].
  2-4: assert (v1 * w1 = 0) as Hz by
    (destruct HA as (_ & _ & <-), HB as (_ & _ & <-);
     first [replace na1 with O by lia | replace nb1 with O by lia]; rewrite ?pv_0; lia);
     exists out, tmp; rewrite Hz, Z.mul_0_r, Z.add_0_r, Z.sub_0_r; split; [done|];
     split; [rewrite <- HV; by apply written_refl|done].
  destruct (mul_fresh size f a1 na1 v1 b1 nb1 w1 (na1 + nb1)) as (z & nz & Hz & Hnz & Hnle & _ & _ & Hmag); auto.
  step Hz. step Hnz. destruct Hmag as [Hm _].
  destruct (bigIntAddInto_spec out N z nz (2 * half) V (v1 * w1)) as (o & Hadd & Hw);
    auto; [specialize (Hroom H1 H2); lia|].
  step Hadd. destruct HT as (Htl & Htb & Htv).
  destruct (bigIntSubFrom_spec tmp nt z nz 0 T (v1 * w1)) as (t & Hsub & Hwt & Hut & Hvt & _);
    auto; [lia|rewrite Bp_0; lia|].
  step Hsub. exists o, t. split; [done|]. split; [done|]. rewrite Bp_0, Z.mul_1_l in Hvt.
  split; [split; [lia|done]|lia].
Qed.

Lemma half_max na nb :
  let m := (na `max` nb)%nat in
  ((if (nb <? na)%nat then na else nb + 0) / 2 = m / 2)%nat.
Proof. cbv zeta. case_bool; f_equal; lia. Qed.

Lemma half_facts m h :
  h = (m / 2)%nat -> (KARATSUBA_THRESHOLD < m)%nat -> (h + 2 < m /\ m <= 2 * h + 1 /\ 2 * h <= m)%nat.
Proof. unfold KARATSUBA_THRESHOLD. intros -> ?. pose proof (Nat.div_mod_eq m 2). pose proof (Nat.mod_upper_bound m 2). lia. Qed.

Lemma max_plus_1 (x y : nat) : ((if (y <? x)%nat then x else y) + 1 = x `max` y + 1)%nat.
Proof. case_bool; lia. Qed.

(** The identity behind the algorithm, with the bounds its in-place steps need. *)
Lemma karatsuba_identity v0 v1 w0 w1 H N :
  0 <= v0 -> 0 <= v1 -> 0 <= w0 -> 0 <= w1 -> 0 < H ->
  (v0 + H * v1) * (w0 + H * w1) < N ->
  let t := (v0 + v1) * (w0 + w1) - v0 * w0 in
  v0 * w0 < N /\ v0 * w0 + H * H * (v1 * w1) < N /\ 0 <= t - v1 * w1 /\ H * (t - v1 * w1) < N /\
  v0 * w0 + H * H * (v1 * w1) + H * (t - v1 * w1) = (v0 + H * v1) * (w0 + H * w1).
Proof.
  intros ????? HN t. unfold t.
  replace ((v0 + v1) * (w0 + w1) - v0 * w0 - v1 * w1) with (v0 * w1 + v1 * w0) by ring.
  replace ((v0 + H * v1) * (w0 + H * w1))
    with (v0 * w0 + H * H * (v1 * w1) + H * (v0 * w1 + v1 * w0)) in * by ring.
  assert (0 <= v0 * w0) by nia. assert (0 <= v0 * w1 + v1 * w0) by nia. assert (0 <= v1 * w1) by nia.
  assert (0 <= H * H * (v1 * w1)) by nia. assert (0 <= H * (v0 * w1 + v1 * w0)) by nia.
  repeat split; lia.
Qed.

Section KaratsubaStep.
Context (fuel : nat).
#[local] Abbreviation rec := (bigIntMulKaratsuba fuel).
Context (IH : mul_ok fuel rec).

(** The three recursive products and their accumulation, given the halves
    [v0 + B^h v1] and [w0 + B^h w1] and the two sums. *)
Lemma karatsuba_combine a na0 v0 a1 na1 v1 b nb0 w0 b1 nb1 w1 sA nSA sB nSB nsa nsb h N out :
  nmag a na0 v0 -> nmag a1 na1 v1 -> nmag b nb0 w0 -> nmag b1 nb1 w1 ->
  mag sA nSA (v0 + v1) -> mag sB nSB (w0 + w1) ->
  (na0 `max` nb0 < fuel /\ na1 `max` nb1 < fuel /\ nSA `max` nSB < fuel)%nat ->
  (nSA <= nsa /\ nSB <= nsb /\ na0 <= nsa /\ na1 <= nsa /\ nb0 <= nsb /\ nb1 <= nsb)%nat ->
  (na0 + nb0 <= N /\ h <= N /\ (0 < na1 -> 0 < nb1 -> 2 * h + (na1 + nb1) <= N))%nat ->
  u32buf out -> (N <= length out)%nat -> pv out N = 0 ->
  (v0 + Bp h * v1) * (w0 + Bp h * w1) < Bp N ->
  exists out',
    (z0 ← rec a na0 b nb0 (calloc (na0 + nb0));
     nz0 ← bigIntNormalize z0 (na0 + nb0);
     out ← bigIntAddInto out N z0 nz0 0;
     z1 ← rec sA nSA sB nSB (calloc (nsa + nsb));
     nz1 ← bigIntNormalize z1 (nsa + nsb);
     tmp ← memcpy (calloc (nsa + nsb)) 0 z1 0 (nsa + nsb);
     tmp ← bigIntSubFrom tmp (nsa + nsb) z0 nz0 0;
     '(out, tmp) ←
       (if (0 <? na1)%nat && (0 <? nb1)%nat then
          z2 ← rec a1 na1 b1 nb1 (calloc (na1 + nb1));
          nz2 ← bigIntNormalize z2 (na1 + nb1);
          out ← bigIntAddInto out N z2 nz2 (2 * h);
          tmp ← bigIntSubFrom tmp (nsa + nsb) z2 nz2 0;
          Some (out, tmp)
        else Some (out, tmp));
     nTmp ← bigIntNormalize tmp (nsa + nsb);
     bigIntAddInto out N tmp nTmp h) = Some out' /\
    written N out out' ((v0 + Bp h * v1) * (w0 + Bp h * w1)).
Proof.
  intros HA0 HA1 HB0 HB1 HSA HSB Hf Hns HN Ho HNo Hv0 Hprod.
  pose proof (mag_range _ _ _ (proj1 HA0)). pose proof (mag_range _ _ _ (proj1 HA1)).
  pose proof (mag_range _ _ _ (proj1 HB0)). pose proof (mag_range _ _ _ (proj1 HB1)).
  destruct (karatsuba_identity v0 v1 w0 w1 (Bp h) (Bp N)) as (Hk1 & Hk2 & Hk3 & Hk5 & Hk4);
    [lia..|apply Bp_pos|done|].
  rewrite <- Bp_add in Hk2, Hk4. replace (h + h)%nat with (2 * h)%nat in Hk2, Hk4 by lia.
  destruct (mul_fresh fuel rec a na0 v0 b nb0 w0 (na0 + nb0) IH)
    as (z0 & nz0 & Hz0 & Hnz0 & Hnz0l & _ & _ & [HZ0 _]); [lia|apply HA0|apply HB0|lia|].
  step Hz0. step Hnz0.
  destruct (bigIntAddInto_spec out N z0 nz0 0 0 (v0 * w0)) as (o1 & Ha1 & Hw1);
    auto; [lia|rewrite Bp_0; lia|]. step Ha1. rewrite Bp_0, Z.mul_1_l, Z.add_0_l in Hw1.
  destruct (mul_fresh fuel rec sA nSA (v0 + v1) sB nSB (w0 + w1) (nsa + nsb) IH)
    as (z1 & nz1 & Hz1 & Hnz1 & _ & Hlz1 & HZ1 & _); [lia|done|done|lia|]. step Hz1. step Hnz1.
  step (memcpy_calloc (nsa + nsb) z1 Hlz1). destruct HZ1 as (Hz1l & Hz1b & Hz1v).
  destruct (bigIntSubFrom_spec z1 (nsa + nsb) z0 nz0 0 _ (v0 * w0) Hz1b Hz1l Hz1v HZ0)
    as (t1 & Hs1 & Htl & Htb & Htv & _); [lia|rewrite Bp_0; lia|]. step Hs1.
  rewrite Bp_0, Z.mul_1_l in Htv. pose proof Hw1 as (Hl1 & Hb1 & Hv1 & _).
  destruct (karatsuba_z2 fuel rec a1 na1 v1 b1 nb1 w1 o1 N h t1 (nsa + nsb) (v0 * w0)
    ((v0 + v1) * (w0 + w1) - v0 * w0) IH) as (o2 & t2 & Hz2 & Hw2 & HT2 & Hlt2);
    [lia|done|done|done|lia|exact Hv1|split; [lia|done]|lia|lia|lia|exact Hk2|exact Hk3|].
  step Hz2. pose proof Hw2 as (Hl2 & Hb2 & Hv2 & _). destruct HT2 as (HT2l & HT2b & HT2v).
  destruct (bigIntNormalize_spec t2 (nsa + nsb) HT2l HT2b) as (nT & HnT & _ & HT). step HnT.
  rewrite HT2v in HT.
  destruct (bigIntAddInto_spec o2 N t2 nT h _ _ Hb2 ltac:(lia) Hv2 (proj1 HT)) as (o3 & Ha3 & Hw3).
  { apply (norm_room _ _ _ _ _ HT); [exact Hk5|lia]. }
  { rewrite Hk4. exact Hprod. }
  exists o3. split; [exact Ha3|]. rewrite Hk4 in Hw3. eauto using written_trans.
Qed.

Lemma karatsuba_step : mul_ok (S fuel) (bigIntMulKaratsuba (S fuel)).
Proof.
  intros a na va b nb vb out Hs HA HB Ho HN. cbn [bigIntMulKaratsuba].
  rewrite half_max. cbv zeta. remember ((na `max` nb) / 2)%nat as h eqn:Hh.
  destruct ((h =? 0)%nat || (na <=? KARATSUBA_THRESHOLD)%nat || (nb <=? KARATSUBA_THRESHOLD)%nat) eqn:Hc.
  { by apply bigIntMulSchoolbook_spec. }
  apply orb_false_iff in Hc as [[_ Ht1%Nat.leb_gt]%orb_false_iff Ht2%Nat.leb_gt].
  destruct (half_facts _ _ Hh ltac:(lia)) as (Hh1 & Hh2 & Hh3).
  destruct (split_at a na va h HA) as (na0 & na1 & v0 & v1 & Hn1 & Hn2 & Hl1 & Hl2 & HA0 & HA1 & Hva).
  destruct (split_at b nb vb h HB) as (nb0 & nb1 & w0 & w1 & Hn3 & Hn4 & Hl3 & Hl4 & HB0 & HB1 & Hvb).
  assert ((na0 <= h /\ na1 <= h + 1 /\ nb0 <= h /\ nb1 <= h + 1) /\
    (na0 <= na /\ nb0 <= nb /\ (0 < na1 -> na1 + h <= na) /\ (0 < nb1 -> nb1 + h <= nb)))%nat as Hsz
    by (repeat match goal with H : context [ (if ?c then _ else _) ] |- _ =>
          destruct c eqn:?; rewrite ?Nat.ltb_lt, ?Nat.ltb_ge in * end; lia).
  step Hn1. step Hn3. step Hn2. step Hn4. rewrite !max_plus_1.
  set (a1 := drop (if (na <? h)%nat then na else h) a) in *.
  set (b1 := drop (if (nb <? h)%nat then nb else h) b) in *.
  clearbody a1 b1. clear Hn1 Hn2 Hn3 Hn4 Hl1 Hl2 Hl3 Hl4.
  remember (na0 `max` na1 + 1)%nat as nsa eqn:Hnsa. remember (nb0 `max` nb1 + 1)%nat as nsb eqn:Hnsb.
  destruct (bigIntAdd_spec a na0 v0 a1 na1 v1 (calloc nsa) (proj1 HA0) (proj1 HA1) (u32buf_calloc _))
    as (sA & nSA & Hadd1 & [HSA _] & HlA); [rewrite length_calloc; lia|]. step Hadd1.
  destruct (bigIntAdd_spec b nb0 w0 b1 nb1 w1 (calloc nsb) (proj1 HB0) (proj1 HB1) (u32buf_calloc _))
    as (sB & nSB & Hadd2 & [HSB _] & HlB); [rewrite length_calloc; lia|]. step Hadd2.
  rewrite length_calloc in HlA, HlB.
  destruct (memset0_spec out (na + nb) Ho HN) as (o & Hms & Hw0). step Hms.
  pose proof Hw0 as (Hl0 & Hb0 & Hv0 & _).
  destruct ((0 <? na0)%nat && (0 <? nb0)%nat).
  2: { destruct (bigIntMulSchoolbook_spec a na va b nb vb o HA HB Hb0 ltac:(lia)) as (o' & Hf & Hw).
       eauto using written_trans. }
  pose proof (mul_bound _ _ _ _ (mag_range _ _ _ HA) (mag_range _ _ _ HB)) as [_ Hprod].
  rewrite Hva, Hvb in *. destruct HSA as (? & ?), HSB as (? & ?).
  destruct (karatsuba_combine a na0 v0 a1 na1 v1 b nb0 w0 b1 nb1 w1 sA nSA sB nSB nsa nsb h (na + nb) o)
    as (o' & Ho' & Hw'); try done; try lia; [by split..|].
  eauto using written_trans.
Qed.
End KaratsubaStep.

Lemma bigIntMulKaratsuba_spec fuel : mul_ok fuel (bigIntMulKaratsuba fuel).
Proof.
  induction fuel as [|fuel IH]; [intros a na va b nb vb out Hs; lia|].
  by apply karatsuba_step.
Qed.

Lemma bigIntMul_spec a na va b nb vb out :
  mag a na va -> mag b nb vb -> u32buf out -> (na + nb <= length out)%nat ->
  exists out' n, bigIntMul a na b nb out = Some (out', n) /\
    nmag out' n (va * vb) /\ length out' = length out /\ drop (na + nb) out' = drop (na + nb) out.
Proof.
  intros HA HB Ho HN. unfold bigIntMul.
  destruct ((na =? 0)%nat || (nb =? 0)%nat) eqn:Hz.
  { exists out, O. split; [done|]. split; [|done].
    assert (va * vb = 0) as ->.
    { destruct HA as (_ & _ & <-), HB as (_ & _ & <-).
      apply orb_true_iff in Hz as [->%Nat.eqb_eq| ->%Nat.eqb_eq]; rewrite pv_0; lia. }
    apply nmag_intro; [lia|done|by left|done]. }
  destruct (_ || (nb <=? _)%nat).
  - destruct (bigIntMulSchoolbook_spec a na va b nb vb out HA HB Ho HN) as (o & Hf & Hl & Hb & Hv & Hd).
    step Hf. destruct (bigIntNormalize_spec o (na + nb)) as (n & Hn & _ & Hm); [lia|done|].
    step Hn. rewrite Hv in Hm. eauto 10.
  - destruct (bigIntMulKaratsuba_spec (S (na `max` nb)) a na va b nb vb out ltac:(lia) HA HB Ho HN)
      as (o & Hf & Hl & Hb & Hv & Hd).
    step Hf. destruct (bigIntNormalize_spec o (na + nb)) as (n & Hn & _ & Hm); [lia|done|].
    step Hn. rewrite Hv in Hm. eauto 10.
Qed.

(** ** Properties *)

(** C25. [bigIntMul], schoolbook or Karatsuba, terminates and writes the
    normalized exact product within [na + nb] limbs, touching nothing beyond
    them; no assertion of its helpers fails and no read or write leaves a
    buffer at any level of the recursion. *)
Theorem bigIntMul_product a na va b nb vb out :
  mag a na va -> mag b nb vb -> u32buf out -> (na + nb <= length out)%nat ->
  exists out' n, bigIntMul a na b nb out = Some (out', n) /\
    nmag out' n (va * vb) /\ length out' = length out /\ drop (na + nb) out' = drop (na + nb) out.
Proof. apply bigIntMul_spec. Qed.

Lemma bigIntMul_product_witness :
  exists out' n, bigIntMul [0xFFFFFFFF] 1 [0xFFFFFFFF] 1 [7; 7; 7] = Some (out', n) /\ nmag out' n 0xFFFFFFFE00000001.
Proof.
  destruct (bigIntMul_product [0xFFFFFFFF] 1 0xFFFFFFFF [0xFFFFFFFF] 1 0xFFFFFFFF [7; 7; 7]) as (o & n & H1 & H2 & _).
  1, 2: split; [done|]; split; [repeat constructor|]; done.
  - repeat constructor; done.
  - simpl. lia.
  - exists o, n. split; [exact H1|exact H2].
Defined.
