(* ===== verification/BigIntDiv.v ===== *)
(** * Magnitudes: division

    [src/vm/runtime/BigInt.c]: [bigIntDivMod] with its three cases (dividend
    below divisor, one-limb divisor, Knuth's Algorithm D).  The main result:
    for normalized operands the quotient and remainder are those of Euclidean
    division, the quotient estimate is never more than one too large, and all
    intermediate words fit their C types. *)
From S2P Require Import Prelude BigIntCore BigIntMul.

(** ** Normalization shift *)

(** [while ((top & 0x80000000u) == 0) { top <<= 1; shift++; }] *)
Definition top_shift_body (st : Z * Z) : option (Z * Z + Z) :=
  let '(top, shift) := st in
  if Z.land top 0x80000000 =? 0
  then Some (inl (u32 (Z.shiftl top 1), shift + 1))
  else Some (inr shift).

Definition top_shift (top : Z) : option Z := loop 33 top_shift_body (top, 0).

(** [(x[i-1] << shift) | (i >= 2 ? x[i-2] >> (LIMB_BITS - shift) : 0)],
    stored in limb [i-1] of the scratch copy. *)
Definition shl_copy_body (x : list Z) (shift : Z) (i : nat) (dst : list Z) : option (list Z) :=
  hi ← x !! (i - 1)%nat;
  lo ← (if (2 <=? i)%nat then y ← x !! (i - 2)%nat; Some (u32 (Z.shiftr y (LIMB_BITS - shift)))
        else Some 0);
  put dst (i - 1) (Z.lor (u32 (Z.shiftl hi shift)) lo).

(** ** Algorithm D *)

(** The correction of the two-limb quotient estimate:
    [while (qhat >= base || (nb >= 2 && qhat * vn[nb-2] > ((rhat << 32) | un[jj+nb-2])))]
    with its [break] once [rhat >= base]. *)
Definition qhat_body (nb : nat) (vtop : Z) (vnext unext : option Z) (st : Z * Z)
    : option (Z * Z + Z * Z) :=
  let '(qhat, rhat) := st in
  too_big ←
    (if BASE <=? qhat then Some true
     else if (2 <=? nb)%nat then
       v ← vnext; u ← unext;
       Some (Z.lor (u64 (Z.shiftl rhat LIMB_BITS)) u <? u64 (qhat * v))
     else Some false);
  if (too_big : bool) then
    let qhat := u64 (qhat - 1) in
    let rhat := u64 (rhat + vtop) in
    if BASE <=? rhat then Some (inr (qhat, rhat)) else Some (inl (qhat, rhat))
  else Some (inr (qhat, rhat)).

(** Multiply and subtract, one limb. *)
Definition mulsub_body (qhat : Z) (vn : list Z) (jj i : nat) (st : list Z * Z * Z)
    : option (list Z * Z * Z) :=
  let '(un, carry, borrow) := st in
  v ← vn !! i;
  let p := u64 (u64 (qhat * v) + carry) in
  let carry := Z.shiftr p LIMB_BITS in
  u ← un !! (jj + i)%nat;
  let '(t, borrow) := borrow_step (i64 (i64 (u - Z.land p LIMB_MASK) - borrow)) in
  un ← put un (jj + i) (u32 t);
  Some (un, carry, borrow).

(** Adding the divisor back after an overshoot, one limb. *)
Definition addback_body (vn : list Z) (jj i : nat) (st : list Z * Z) : option (list Z * Z) :=
  let '(un, addCarry) := st in
  u ← un !! (jj + i)%nat;
  v ← vn !! i;
  let sum := u64 (u + v + addCarry) in
  un ← put un (jj + i) (u32 (Z.land sum LIMB_MASK));
  Some (un, Z.shiftr sum LIMB_BITS).

(** One digit of the quotient, [jj = j - 1]. *)
Definition knuth_digit (vn : list Z) (nb j : nat) (st : list Z * list Z) : option (list Z * list Z) :=
  let '(un, q) := st in
  let jj := (j - 1)%nat in
  u2 ← un !! (jj + nb)%nat;
  u1 ← un !! (jj + nb - 1)%nat;
  vtop ← vn !! (nb - 1)%nat;
  let numerator := Z.lor (u64 (Z.shiftl u2 LIMB_BITS)) u1 in
  '(qhat, rhat) ← loop 3 (qhat_body nb vtop (vn !! (nb - 2)%nat) (un !! (jj + nb - 2)%nat))
                    (numerator / vtop, numerator mod vtop);
  '(un, carry, borrow) ← for_up nb 0 (mulsub_body qhat vn jj) (un, 0, 0);
  u ← un !! (jj + nb)%nat;
  let '(t, borrow) := borrow_step (i64 (i64 (u - carry) - borrow)) in
  un ← put un (jj + nb) (u32 t);
  '(un, qhat) ←
    (if borrow =? 0 then Some (un, qhat)
     else
       '(un, addCarry) ← for_up nb 0 (addback_body vn jj) (un, 0);
       u ← un !! (jj + nb)%nat;
       un ← put un (jj + nb) (u32 (u + addCarry));
       Some (un, u64 (qhat - 1)));
  q ← put q jj (u32 qhat);
  Some (un, q).

(** Denormalization of the remainder, one limb. *)
Definition shr_copy_body (un : list Z) (shift : Z) (nb i : nat) (r : list Z) : option (list Z) :=
  lo ← un !! i;
  hi ← (if (i + 1 <? nb + 1)%nat
        then y ← un !! (i + 1)%nat; Some (u32 (Z.shiftl y (LIMB_BITS - shift))) else Some 0);
  put r i (Z.lor (Z.shiftr lo shift) hi).

Definition copy_body (un : list Z) (i : nat) (r : list Z) : option (list Z) :=
  x ← un !! i; put r i x.

(** The scratch copies [un], [vn] of the operands, shifted so that the top bit
    of the divisor's top limb is set. *)
Definition knuth_setup (a : list Z) (na : nat) (b : list Z) (nb : nat) (shift : Z)
    : option (list Z * list Z) :=
  let un := calloc (na + 1) in
  let vn := calloc nb in
  if shift =? 0 then
    un ← memcpy un 0 a 0 na;
    vn ← memcpy vn 0 b 0 nb;
    un ← put un na 0;
    Some (un, vn)
  else
    vn ← for_down nb (shl_copy_body b shift) vn;
    atop ← a !! (na - 1)%nat;
    un ← put un na (u32 (Z.shiftr atop (LIMB_BITS - shift)));
    un ← for_down na (shl_copy_body a shift) un;
    Some (un, vn).

Definition bigIntDivModKnuth (a : list Z) (na : nat) (b : list Z) (nb : nat) (q r : list Z)
    : option (list Z * nat * (list Z * nat)) :=
  top ← b !! (nb - 1)%nat;
  shift ← top_shift top;
  '(un, vn) ← knuth_setup a na b nb shift;
  '(un, q) ← for_down (na - nb + 1) (knuth_digit vn nb) (un, q);
  r ← (if shift =? 0 then for_up nb 0 (copy_body un) r
       else for_up nb 0 (shr_copy_body un shift nb) r);
  nq ← bigIntNormalize q (na - nb + 1);
  nr ← bigIntNormalize r nb;
  Some ((q, nq), (r, nr)).

(** Division by one limb, one step from the top:
    [cur = (rem << 32) | a[i-1]; q[i-1] = cur / divisor; rem = cur % divisor]. *)
Definition div_limb_body (a : list Z) (divisor : Z) (i : nat) (st : list Z * Z) : option (list Z * Z) :=
  let '(q, rem) := st in
  x ← a !! (i - 1)%nat;
  let cur := Z.lor (u64 (Z.shiftl rem LIMB_BITS)) x in
  q ← put q (i - 1) (u32 (cur / divisor));
  Some (q, cur mod divisor).

(** [bigIntDivMod] answers [Some None] for the C result 0 (division by zero,
    outputs untouched) and [Some (Some ((q, nq), (r, nr)))] for 1. *)
Definition bigIntDivMod (a : list Z) (na : nat) (b : list Z) (nb : nat) (q r : list Z)
    : option (option (list Z * nat * (list Z * nat))) :=
  if (nb =? 0)%nat then Some None
  else
    c ← bigIntCompare a na b nb;
    if c <? 0 then
      r ← memcpy r 0 a 0 na;
      Some (Some ((q, O), (r, na)))
    else if (nb =? 1)%nat then
      divisor ← b !! 0%nat;
      '(q, rem) ← for_down na (div_limb_body a divisor) (q, 0);
      nq ← bigIntNormalize q na;
      r ← put r 0 (u32 rem);
      Some (Some ((q, nq), (r, if rem =? 0 then 0%nat else 1%nat)))
    else
      res ← bigIntDivModKnuth a na b nb q r;
      Some (Some res).

(** ** Proofs *)

Lemma top_shift_spec top :
  0 < top < 2 ^ 32 ->
  exists s, top_shift top = Some s /\ 0 <= s <= 31 /\ 2 ^ 31 <= top * 2 ^ s < 2 ^ 32.
Proof.
  intros Ht. unfold top_shift.
  apply (loop_rule (fun '(t, s) => t = top * 2 ^ s /\ 0 <= s <= 31 /\ 0 < t < 2 ^ 32)
           (fun s => 0 <= s <= 31 /\ 2 ^ 31 <= top * 2 ^ s < 2 ^ 32)
           (fun st => Z.to_nat (32 - st.2))); [|intros [t s] (-> & Hs & Hr)|simpl; lia].
  - rewrite Z.pow_0_r. lia.
  - unfold top_shift_body. change 0x80000000 with (2 ^ 31).
    rewrite land_pow2, testbit_lt by lia. destruct (Z.leb_spec (2 ^ 31) (top * 2 ^ s)); simpl.
    + eexists; split; [done|]. simpl. lia.
    + eexists; split; [done|]. simpl. rewrite Z.shiftl_mul_pow2, u32_id by lia.
      rewrite Z.pow_add_r, Z.pow_1_r by lia.
      assert (s <> 31) by (intros ->; lia). split; [|lia]. lia.
Qed.

Lemma u32buf_by_lookup l : (forall i x, l !! i = Some x -> 0 <= x < BASE) -> u32buf l.
Proof. intros H. apply Forall_lookup_2. exact H. Qed.

(** The carry between two limbs of [x << s]. *)
Definition shl_hi (s : Z) (x : Z) : Z := x / 2 ^ (32 - s).

Definition shl_limb (s : Z) (l : list Z) (j : nat) : Z :=
  (nth j l 0 * 2 ^ s) mod BASE + (if (j =? 0)%nat then 0 else shl_hi s (nth (pred j) l 0)).

Lemma shl_hi_range s x : 0 < s < 32 -> 0 <= x < BASE -> 0 <= shl_hi s x < 2 ^ s.
Proof.
  intros Hs Hx. unfold shl_hi.
  assert (BASE = 2 ^ s * 2 ^ (32 - s)) as HB
    by (rewrite <- Z.pow_add_r by lia; by replace (s + (32 - s)) with 32 by lia).
  assert (0 < 2 ^ (32 - s)) by (apply Z.pow_pos_nonneg; lia).
  split; [apply Z.div_pos; lia|]. apply Z.div_lt_upper_bound; lia.
Qed.

Lemma shl_split s x : 0 < s < 32 -> 0 <= x < BASE ->
  x * 2 ^ s = (x * 2 ^ s) mod BASE + BASE * shl_hi s x /\ (x * 2 ^ s) mod BASE = 2 ^ s * (x mod 2 ^ (32 - s)).
Proof.
  intros Hs Hx. assert (BASE = 2 ^ s * 2 ^ (32 - s)) as HB
    by (rewrite <- Z.pow_add_r by lia; by replace (s + (32 - s)) with 32 by lia).
  assert (0 < 2 ^ s) by (apply Z.pow_pos_nonneg; lia).
  assert (0 < 2 ^ (32 - s)) by (apply Z.pow_pos_nonneg; lia).
  assert ((x * 2 ^ s) mod BASE = 2 ^ s * (x mod 2 ^ (32 - s))) as Hm.
  { rewrite (Z.mul_comm x), HB. by rewrite Z.mul_mod_distr_l by lia. }
  split; [|done]. rewrite Hm. unfold shl_hi. pose proof (Z.div_mod x (2 ^ (32 - s)) ltac:(lia)). nia.
Qed.

Lemma nth_lookup_Some (l : list Z) j x : l !! j = Some x -> nth j l 0 = x.
Proof. intros H. rewrite nth_lookup, H. done. Qed.

Lemma nth_limb l j : u32buf l -> 0 <= nth j l 0 < BASE.
Proof.
  intros Hl. rewrite nth_lookup. destruct (l !! j) eqn:E; simpl; [|by split].
  by apply (u32buf_lookup l j).
Qed.

Lemma shl_limb_range s l j : 0 < s < 32 -> u32buf l -> 0 <= shl_limb s l j < BASE.
Proof.
  intros Hs Hl. unfold shl_limb. destruct (shl_split s (nth j l 0) Hs (nth_limb l j Hl)) as [_ ->].
  pose proof (Z.mod_pos_bound (nth j l 0) (2 ^ (32 - s)) ltac:(apply Z.pow_pos_nonneg; lia)).
  assert (BASE = 2 ^ s * 2 ^ (32 - s)) as HB
    by (rewrite <- Z.pow_add_r by lia; by replace (s + (32 - s)) with 32 by lia).
  assert (0 < 2 ^ s) by (apply Z.pow_pos_nonneg; lia).
  case_bool; [nia|].
  pose proof (shl_hi_range s _ Hs (nth_limb l (pred j) Hl)). nia.
Qed.

Lemma shl_copy_put x s j o n :
  0 < s < 32 -> u32buf x -> (j < n)%nat -> (n <= length x)%nat ->
  shl_copy_body x s (S j) o = put o j (shl_limb s x j).
Proof.
  intros Hs Hx Hj Hn. unfold shl_copy_body. replace (S j - 1)%nat with j by lia.
  destruct (lookup_Some_lt x j) as [h Hh]; [lia|]. step Hh.
  pose proof (u32buf_lookup _ _ _ Hx Hh) as Hr.
  unfold shl_limb. rewrite (nth_lookup_Some _ _ _ Hh).
  rewrite Z.shiftl_mul_pow2 by lia. change (u32 (h * 2 ^ s)) with ((h * 2 ^ s) mod BASE).
  destruct (shl_split s h Hs Hr) as [_ Hm]. rewrite Hm, (Z.mul_comm (2 ^ s)).
  destruct j as [|j]; simpl.
  - by rewrite Z.lor_0_r, Z.add_0_r.
  - rewrite Nat.sub_0_r. destruct (lookup_Some_lt x j) as [l Hl]; [lia|]. step Hl.
    rewrite (nth_lookup_Some _ _ _ Hl).
    pose proof (shl_hi_range s l Hs (u32buf_lookup _ _ _ Hx Hl)) as Hhi.
    pose proof (Z.pow_lt_mono_r 2 s 32 ltac:(lia) ltac:(lia) ltac:(lia)).
    rewrite Z.shiftr_div_pow2 by (unfold LIMB_BITS; lia). change (l / 2 ^ (LIMB_BITS - s)) with (shl_hi s l).
    rewrite u32_id by lia. by rewrite lor_mul_add by lia.
Qed.

Lemma shl_value s x n :
  0 < s < 32 -> u32buf x -> forall dst, (n <= length x)%nat ->
  (forall j, (j < n)%nat -> dst !! j = Some (shl_limb s x j)) ->
  pv dst n + Bp n * (if (n =? 0)%nat then 0 else shl_hi s (nth (pred n) x 0)) = pv x n * 2 ^ s.
Proof.
  intros Hs Hx dst. induction n as [|n IH]; intros Hn Hd; [done|].
  rewrite (pv_S dst n _ (Hd n ltac:(lia))).
  destruct (lookup_Some_lt x n) as [y Hy]; [lia|]. rewrite (pv_S x n y Hy). simpl.
  specialize (IH ltac:(lia) ltac:(intros; apply Hd; lia)).
  rewrite (nth_lookup_Some _ _ _ Hy), Z.mul_add_distr_r, <- IH, Bp_S. unfold shl_limb.
  rewrite (nth_lookup_Some _ _ _ Hy).
  destruct (shl_split s y Hs (u32buf_lookup _ _ _ Hx Hy)) as [Hsp _].
  replace (Bp n * y * 2 ^ s) with (Bp n * ((y * 2 ^ s) mod BASE + BASE * shl_hi s y))
    by (rewrite <- Hsp; ring).
  destruct (n =? 0)%nat; ring.
Qed.

Lemma shl_copy_spec x n s dst :
  0 < s < 32 -> u32buf x -> (n <= length x)%nat -> (n <= length dst)%nat -> u32buf dst ->
  exists dst', for_down n (shl_copy_body x s) dst = Some dst' /\ length dst' = length dst /\
    u32buf dst' /\
    pv dst' n + Bp n * (if (n =? 0)%nat then 0 else shl_hi s (nth (pred n) x 0)) = pv x n * 2 ^ s /\
    (forall j, (n <= j)%nat -> dst' !! j = dst !! j).
Proof.
  intros Hs Hx Hn Hd Hdb.
  destruct (for_down_fill n (shl_limb s x) (shl_copy_body x s) dst) as (o & Hf & Hl & Hi & Hr); [|done|].
  { intros j o Hj _. by apply (shl_copy_put x s j o n). }
  exists o. split; [done|]. split; [done|]. split.
  { apply u32buf_by_lookup. intros i y Hy. destruct (decide (i < n)%nat) as [Hlt|].
    - rewrite Hi in Hy by done. simplify_eq. by apply shl_limb_range.
    - rewrite Hr in Hy by lia. by apply (u32buf_lookup dst i). }
  split; [|done]. by apply shl_value.
Qed.

(** ** The quotient estimate *)

Section Estimate.
(** [V] is the divisor with top limbs [vt], [vs]; [W] the current window of
    the dividend with top limbs [u2], [u1], [u0]; [P] the weight below them. *)
Context (V W vt vs vl u2 u1 u0 ul P : Z).
Context (HP : 0 < P).
Context (HV : V = (vt * BASE + vs) * P + vl) (HW : W = ((u2 * BASE + u1) * BASE + u0) * P + ul).
Context (Hvt : 2 ^ 31 <= vt < BASE) (Hvs : 0 <= vs < BASE) (Hvl : 0 <= vl < P).
Context (Hu2 : 0 <= u2 < BASE) (Hu1 : 0 <= u1 < BASE) (Hu0 : 0 <= u0 < BASE) (Hul : 0 <= ul < P).
Context (HWV : W < V * BASE).

Definition num : Z := u2 * BASE + u1.

Lemma est_V_pos : BASE * P <= V /\ 0 < V.
Proof. rewrite HV. unfold BASE in *. nia. Qed.

Lemma est_W : num * BASE * P <= W < (num + 1) * BASE * P.
Proof.
  assert (0 <= u0 * P) by nia.
  assert ((u0 + 1) * P <= BASE * P) by (apply Z.mul_le_mono_nonneg_r; lia).
  rewrite HW. fold num. lia.
Qed.

Lemma est_u2 : u2 <= vt.
Proof.
  destruct (Z.le_gt_cases u2 vt) as [|Hgt]; [done|exfalso].
  pose proof est_W as [HWl _].
  assert ((vs + 1) * P <= BASE * P) by (apply Z.mul_le_mono_nonneg_r; lia).
  assert (V < (vt + 1) * (BASE * P)) by (rewrite HV; lia).
  assert (V * BASE < (vt + 1) * (BASE * P) * BASE) by (apply Z.mul_lt_mono_pos_r; [done|lia]).
  assert ((vt + 1) * (BASE * BASE * P) <= u2 * (BASE * BASE * P))
    by (apply Z.mul_le_mono_nonneg_r; unfold BASE; lia).
  assert (0 <= u1 * (BASE * P)) by (apply Z.mul_nonneg_nonneg; unfold BASE; lia).
  unfold num in HWl. lia.
Qed.

Lemma est_num : 0 <= num <= vt * BASE + (BASE - 1).
Proof. pose proof est_u2. unfold num, BASE in *. nia. Qed.

(** An estimate whose three-limb test fails is too large. *)
Lemma est_too_big q r :
  num = q * vt + r -> r * BASE + u0 < q * vs -> 0 <= q -> W / V < q.
Proof.
  intros Hn Hlt Hq. pose proof est_V_pos. apply Z.div_lt_upper_bound; [lia|].
  assert ((num * BASE + u0) + 1 <= q * (vt * BASE + vs)) by (rewrite Hn; nia).
  assert (W < (num * BASE + u0 + 1) * P) by (rewrite HW; unfold num; nia).
  assert ((num * BASE + u0 + 1) * P <= q * (vt * BASE + vs) * P) by (apply Z.mul_le_mono_nonneg_r; lia).
  rewrite HV. nia.
Qed.

Lemma est_base_too_big q : BASE <= q -> W / V < q.
Proof.
  intros Hq. pose proof est_V_pos. assert (W / V < BASE); [|lia].
  apply Z.div_lt_upper_bound; lia.
Qed.

(** The initial estimate is not too small. *)
Lemma est_init : W / V <= num / vt.
Proof.
  pose proof est_V_pos. pose proof est_num.
  assert (num < vt * (num / vt + 1)) as Hd
    by (pose proof (Z.div_mod num vt ltac:(lia)); pose proof (Z.mod_pos_bound num vt ltac:(lia)); lia).
  assert (0 <= num / vt) by (apply Z.div_pos; lia).
  assert (W / V < num / vt + 1); [|lia]. apply Z.div_lt_upper_bound; [lia|].
  pose proof est_W as [_ HWu].
  assert ((num + 1) * (BASE * P) <= vt * (num / vt + 1) * (BASE * P))
    by (apply Z.mul_le_mono_nonneg_r; unfold BASE; lia).
  assert (0 <= vs * P) by nia.
  assert ((vt * (BASE * P)) * (num / vt + 1) <= V * (num / vt + 1))
    by (apply Z.mul_le_mono_nonneg_r; [lia|rewrite HV; lia]).
  lia.
Qed.

(** An estimate that passes the test, or whose remainder has left the limb,
    is at most one too large. *)
Lemma est_close q r :
  num = q * vt + r -> 0 <= q < BASE -> 0 <= r ->
  (q * vs <= r * BASE + u0 \/ BASE <= r) -> q <= W / V + 1.
Proof.
  intros Hn Hq Hr Hc. pose proof est_V_pos as [HVl HVp].
  assert (q * (vt * BASE + vs) <= num * BASE + u0) as Ht
    by (rewrite Hn; destruct Hc; [nia|unfold BASE in *; nia]).
  assert ((q - 1) * V <= W); [|apply Z.le_sub_le_add_r, Z.div_le_lower_bound; lia].
  assert (q * V <= q * (vt * BASE + vs) * P + q * P) by (rewrite HV; nia).
  assert (q * (vt * BASE + vs) * P <= (num * BASE + u0) * P) by (apply Z.mul_le_mono_nonneg_r; lia).
  assert ((num * BASE + u0) * P <= W) by (rewrite HW; unfold num; nia).
  assert (q * P <= BASE * P) by (apply Z.mul_le_mono_nonneg_r; lia). lia.
Qed.
Lemma est_W_nonneg : 0 <= W.
Proof. pose proof est_W. unfold num, BASE in *; nia. Qed.

(** What one run of the correction loop's body establishes. *)
Definition qhat_inv (qr : Z * Z) : Prop :=
  num = qr.1 * vt + qr.2 /\ W / V <= qr.1 /\ 0 <= qr.2 < BASE.
Definition qhat_post (qr : Z * Z) : Prop := W / V <= qr.1 <= W / V + 1 /\ 0 <= qr.1 < BASE.
Definition qhat_measure (qr : Z * Z) : nat := if qr.2 <? 2 ^ 31 then 1%nat else 0%nat.

Lemma qhat_decrement q r :
  qhat_inv (q, r) -> W / V < q ->
  exists res,
    (let qhat := u64 (q - 1) in let rhat := u64 (r + vt) in
     if BASE <=? rhat then Some (inr (qhat, rhat)) else Some (inl (qhat, rhat))) = Some res /\
    match res with
    | inl t' => qhat_inv t' /\ (qhat_measure t' < qhat_measure (q, r))%nat
    | inr qr => qhat_post qr
    end.
Proof.
  intros (Hn & Hq & Hr) Hlt; cbn [fst snd] in *. cbv zeta.
  pose proof est_num. pose proof est_W_nonneg. pose proof est_V_pos.
  assert (0 <= W / V) by (apply Z.div_pos; lia).
  assert (q <= BASE + 1).
  { apply Z.nlt_ge; intros ?. assert ((BASE + 2) * vt <= q * vt) by (apply Z.mul_le_mono_nonneg_r; lia).
    unfold BASE in *; lia. }
  rewrite !u64_id by (unfold BASE in *; lia). destruct (Z.leb_spec BASE (r + vt)).
  - eexists; split; [done|]. unfold qhat_post; cbn [fst].
    assert (q - 1 < BASE).
    { apply Z.nle_gt; intros ?. assert (BASE * vt <= (q - 1) * vt) by (apply Z.mul_le_mono_nonneg_r; lia). lia. }
    split; [split; [lia|]|lia]. apply (est_close (q - 1) (r + vt)); lia.
  - eexists; split; [done|]. unfold qhat_inv, qhat_measure; cbn [fst snd]. split; [lia|].
    destruct (Z.ltb_spec (r + vt) (2 ^ 31)); destruct (Z.ltb_spec r (2 ^ 31)); unfold BASE in *; lia.
Qed.

Lemma qhat_loop_spec nb :
  (2 <= nb)%nat ->
  exists qr, loop 3 (qhat_body nb vt (Some vs) (Some u0)) (num / vt, num mod vt) = Some qr /\ qhat_post qr.
Proof.
  intros Hnb. pose proof est_num. pose proof est_W_nonneg. pose proof est_V_pos.
  assert (0 <= W / V) by (apply Z.div_pos; lia).
  apply (loop_rule qhat_inv qhat_post qhat_measure).
  - pose proof (Z.div_mod num vt ltac:(lia)). pose proof (Z.mod_pos_bound num vt ltac:(lia)).
    pose proof est_init. unfold qhat_inv; cbn [fst snd]. lia.
  - intros [q r] Hi. pose proof Hi as (Hn & Hq & Hr); cbn [fst snd] in *. unfold qhat_body.
    destruct (Z.leb_spec BASE q) as [Hbig|Hsmall]; cbn [mbind option_bind].
    { by apply qhat_decrement, est_base_too_big. }
    replace (2 <=? nb)%nat with true by (symmetry; by apply Nat.leb_le). cbn [mbind option_bind].
    assert (0 <= q * vs <= (BASE - 1) * (BASE - 1))
      by (split; [apply Z.mul_nonneg_nonneg|apply Z.mul_le_mono_nonneg]; lia).
    rewrite (u64_id (q * vs)) by (unfold BASE in *; lia).
    rewrite u64_id by (unfold LIMB_BITS; rewrite Z.shiftl_mul_pow2; unfold BASE in *; lia).
    rewrite lor_shiftl_add by (unfold LIMB_BITS, BASE in *; lia). change (2 ^ LIMB_BITS) with BASE.
    destruct (Z.ltb_spec (r * BASE + u0) (q * vs)).
    + apply qhat_decrement; [done|]. by apply (est_too_big q r); [|lia..].
    + eexists; split; [done|]. unfold qhat_post; cbn [fst]. split; [|lia]. split; [lia|].
      apply (est_close q r); auto; lia.
  - unfold qhat_measure. case_bool; lia.
Qed.
End Estimate.

(** ** One digit *)

Section Digit.
Context (vn : list Z) (nb jj : nat) (un0 : list Z).
Context (Hvb : u32buf vn) (Hvl : (nb <= length vn)%nat).
Context (Hun0 : (jj + nb + 1 <= length un0)%nat).
#[local] Abbreviation N := (S (jj + nb)).
#[local] Abbreviation V := (pv vn nb).

Lemma mulsub_loop q T :
  0 <= q < BASE -> u32buf un0 -> pv un0 N = T ->
  exists un carry borrow, for_up nb 0 (mulsub_body q vn jj) (un0, 0, 0) = Some (un, carry, borrow) /\
    0 <= carry < BASE /\ 0 <= borrow <= 1 /\
    written N un0 un (T - Bp jj * q * V + Bp (jj + nb) * (carry + borrow)).
Proof.
  intros Hq Hub HT.
  edestruct (for_up_rule (fun i '(un, c, bo) => 0 <= c < BASE /\ 0 <= bo <= 1 /\
      written N un0 un (T - Bp jj * q * pv vn i + Bp (jj + i) * (c + bo))) nb 0
      (mulsub_body q vn jj) (un0, 0, 0)) as ([[un c] bo] & Hf & HI).
  { split; [unfold BASE; lia|]. split; [lia|]. rewrite pv_0, Z.mul_0_r, Z.mul_0_r, Z.sub_0_r, Z.add_0_r.
    rewrite <- HT. by apply written_refl. }
  2: { exists un, c, bo. done. }
  intros i [[un c] bo] Hi (Hc & Hbo & Hw). pose proof Hw as (Hl & Hb & Hv & _). unfold mulsub_body.
  destruct (lookup_Some_lt vn i) as [v Hvi]; [lia|]. step Hvi.
  destruct (lookup_Some_lt un (jj + i)) as [u Hui]; [lia|]. step Hui.
  pose proof (u32buf_lookup _ _ _ Hvb Hvi). pose proof (u32buf_lookup _ _ _ Hb Hui).
  assert (0 <= q * v <= (BASE - 1) * (BASE - 1))
    by (split; [apply Z.mul_nonneg_nonneg|apply Z.mul_le_mono_nonneg]; lia).
  rewrite (u64_id (q * v)), u64_id by (unfold BASE in *; lia).
  rewrite land_mask, shiftr_limb. destruct (limb_split (q * v + c)) as (Hs & Hm & Hd); [lia|].
  assert ((q * v + c) / BASE < BASE) by (apply Z.div_lt_upper_bound; lia).
  rewrite !i64_id by (rewrite ?i64_id; unfold BASE in *; lia).
  destruct (borrow_step_core (u - (q * v + c) mod BASE - bo)) as (t & bo' & -> & Ht & Hbo' & Heq); [lia|].
  rewrite u32_id by (unfold BASE in *; lia).
  destruct (put_at N un (jj + i) u t) as (un' & Hp & Hw'); [done|done|lia|done|].
  step Hp. eexists; split; [done|]. split; [lia|]. split; [done|].
  eapply written_trans; [done|]. rewrite Hv in Hw'.
  replace (jj + S i)%nat with (S (jj + i)) by lia. rewrite (pv_S _ _ _ Hvi), Bp_S.
  replace (T - _ + BASE * _ * _) with (T - Bp jj * q * pv vn i + Bp (jj + i) * (c + bo) + Bp (jj + i) * (t - u)); [done|].
  rewrite Heq, (Bp_add jj i). set (lo := (q * v + c) mod BASE) in *. set (hi := (q * v + c) / BASE) in *.
  replace c with (lo + BASE * hi - q * v) by lia. ring.
Qed.

Lemma addback_loop un T :
  u32buf un -> length un = length un0 -> pv un N = T ->
  exists un' carry, for_up nb 0 (addback_body vn jj) (un, 0) = Some (un', carry) /\
    0 <= carry < BASE /\ written N un un' (T + Bp jj * V - Bp (jj + nb) * carry).
Proof.
  intros Hub Hlen HT.
  edestruct (for_up_rule (fun i '(o, c) => 0 <= c < BASE /\
      written N un o (T + Bp jj * pv vn i - Bp (jj + i) * c)) nb 0
      (addback_body vn jj) (un, 0)) as ([o c] & Hf & HI).
  { split; [unfold BASE; lia|]. rewrite pv_0, !Z.mul_0_r, Z.add_0_r, Z.sub_0_r.
    rewrite <- HT. by apply written_refl. }
  2: { exists o, c. done. }
  intros i [o c] Hi (Hc & Hw). pose proof Hw as (Hl & Hb & Hv & _). unfold addback_body.
  destruct (lookup_Some_lt o (jj + i)) as [u Hui]; [lia|]. step Hui.
  destruct (lookup_Some_lt vn i) as [v Hvi]; [lia|]. step Hvi.
  pose proof (u32buf_lookup _ _ _ Hvb Hvi). pose proof (u32buf_lookup _ _ _ Hb Hui).
  rewrite u64_id by (unfold BASE in *; lia).
  destruct (carry_put N o (jj + i) u (u + v + c)) as (o' & Hp & Hr & Hw');
    [done|done|lia|unfold BASE in *; lia|].
  step Hp. eexists; split; [done|]. split; [done|]. eapply written_trans; [done|].
  replace (jj + S i)%nat with (S (jj + i)) by lia. rewrite (pv_S _ _ _ Hvi). rewrite Hv in Hw'.
  replace (T + _ - _) with (T + Bp jj * pv vn i - Bp (jj + i) * c + Bp (jj + i) * (u + v + c - u)
    - Bp (S (jj + i)) * Z.shiftr (u + v + c) LIMB_BITS); [done|].
  rewrite (Bp_add jj i). ring.
Qed.

(** The multiply-and-subtract step with its top limb: the window is reduced
    by [q * V] modulo [BASE ^ (nb + 1)], and the final borrow says whether
    that went below zero. *)
Lemma mulsub_spec q T :
  0 <= q < BASE -> u32buf un0 -> pv un0 N = T ->
  exists un carry borrow u t b',
    for_up nb 0 (mulsub_body q vn jj) (un0, 0, 0) = Some (un, carry, borrow) /\
    un !! (jj + nb)%nat = Some u /\ borrow_step (i64 (i64 (u - carry) - borrow)) = (t, b') /\
    (exists un', put un (jj + nb) (u32 t) = Some un' /\
       (b' = 0 \/ b' = 1) /\ written N un0 un' (T - Bp jj * q * V + Bp N * b')).
Proof.
  intros Hq Hub HT. destruct (mulsub_loop q T Hq Hub HT) as (un & c & bo & Hf & Hc & Hbo & Hw).
  pose proof Hw as (Hl & Hb & Hv & _). destruct (lookup_Some_lt un (jj + nb)) as [u Hu]; [lia|].
  pose proof (u32buf_lookup _ _ _ Hb Hu).
  destruct (borrow_step_core (u - c - bo)) as (t & b' & Hs & Ht & Hb' & Heq); [lia|].
  exists un, c, bo, u, t, b'. rewrite !i64_id by (rewrite ?i64_id; unfold BASE in *; lia).
  split_and!; [done..|]. rewrite u32_id by (unfold BASE in *; lia).
  destruct (put_at N un (jj + nb) u t) as (un' & Hp & Hw'); [done|done|lia|done|].
  exists un'. split; [done|]. split; [lia|]. eapply written_trans; [done|]. rewrite Hv in Hw'.
  replace (T - Bp jj * q * V + Bp N * b') with (T - Bp jj * q * V + Bp (jj + nb) * (c + bo) + Bp (jj + nb) * (t - u));
    [done|]. rewrite Heq, Bp_S. ring.
Qed.

Lemma addback_spec un T :
  u32buf un -> length un = length un0 -> pv un N = T ->
  exists un' u carry un'', for_up nb 0 (addback_body vn jj) (un, 0) = Some (un', carry) /\
    un' !! (jj + nb)%nat = Some u /\ put un' (jj + nb) (u32 (u + carry)) = Some un'' /\
    exists k, written N un un'' (T + Bp jj * V - Bp N * k).
Proof.
  intros Hub Hlen HT. destruct (addback_loop un T Hub Hlen HT) as (o & c & Hf & Hc & Hw).
  pose proof Hw as (Hl & Hb & Hv & _). destruct (lookup_Some_lt o (jj + nb)) as [u Hu]; [lia|].
  pose proof (u32buf_lookup _ _ _ Hb Hu).
  destruct (limb_split (u + c)) as (Hs & Hm & Hd); [lia|].
  destruct (put_at N o (jj + nb) u ((u + c) mod BASE)) as (o' & Hp & Hw'); [done|done|lia|done|].
  exists o, u, c, o'. split_and!; [done..|]. exists ((u + c) / BASE).
  eapply written_trans; [done|]. rewrite Hv in Hw'. rewrite Bp_S.
  replace (T + _ - BASE * _ * _) with (T + Bp jj * V - Bp (jj + nb) * c + Bp (jj + nb) * ((u + c) mod BASE - u));
    [done|]. nia.
Qed.
End Digit.

(** Three limbs of a window on top of the rest. *)
Lemma pv_top3 l m u0 u1 u2 :
  l !! m = Some u0 -> l !! S m = Some u1 -> l !! S (S m) = Some u2 ->
  pv l (S (S (S m))) = ((u2 * BASE + u1) * BASE + u0) * Bp m + pv l m.
Proof. intros H0 H1 H2. rewrite (pv_S _ _ _ H2), (pv_S _ _ _ H1), (pv_S _ _ _ H0), !Bp_S. ring. Qed.

Lemma pv_top2 l m v0 v1 :
  l !! m = Some v0 -> l !! S m = Some v1 ->
  pv l (S (S m)) = (v1 * BASE + v0) * Bp m + pv l m.
Proof. intros H0 H1. rewrite (pv_S _ _ _ H1), (pv_S _ _ _ H0), !Bp_S. ring. Qed.

(** Choosing the digit from the estimate and the borrow. *)
Lemma digit_arith R D W V q b r0 M x :
  0 < D -> 0 < V -> R = r0 + D * W -> 0 <= r0 < D -> 0 <= W / V ->
  W / V <= q <= W / V + 1 -> 0 <= R < M -> D * V <= M -> 0 <= x < M ->
  (b = 0 \/ b = 1) -> x = R - D * q * V + M * b ->
  (b = 0 -> q = W / V) /\ (b = 1 -> q = W / V + 1).
Proof.
  intros HD HV HR Hr0 HWp Hq HRM HDV Hx Hb Heq.
  pose proof (Z.div_mod W V ltac:(lia)) as HW. pose proof (Z.mod_pos_bound W V HV) as Hm.
  set (d := W / V) in *. set (r := W mod V) in *.
  assert (q = d \/ q = d + 1) as [->| ->] by lia.
  - assert (R - D * d * V = r0 + D * r) as E by (rewrite HR, HW; ring).
    assert (0 <= D * r) by nia. destruct Hb as [->| ->]; [lia|nia].
  - assert (R - D * (d + 1) * V = r0 + D * r - D * V) as E by (rewrite HR, HW; ring).
    assert (D * (r + 1) <= D * V) by (apply Z.mul_le_mono_nonneg_l; lia).
    destruct Hb as [->| ->]; [nia|lia].
Qed.

(** From the estimate on: subtract, correct an overshoot, store the digit. *)
Lemma knuth_reduce vn nb jj un q qh W :
  let V := pv vn nb in let R := pv un (S (jj + nb)) in
  u32buf vn -> (nb <= length vn)%nat -> u32buf un -> (jj + nb + 1 <= length un)%nat ->
  (jj < length q)%nat -> 0 < V -> 0 <= W -> R = pv un jj + Bp jj * W ->
  W / V <= qh <= W / V + 1 -> 0 <= qh < BASE ->
  exists un',
    ('(un, carry, borrow) ← for_up nb 0 (mulsub_body qh vn jj) (un, 0, 0);
     u ← un !! (jj + nb)%nat;
     let '(t, borrow) := borrow_step (i64 (i64 (u - carry) - borrow)) in
     un ← put un (jj + nb) (u32 t);
     '(un, qhat) ←
       (if borrow =? 0 then Some (un, qh)
        else
          '(un, addCarry) ← for_up nb 0 (addback_body vn jj) (un, 0);
          u ← un !! (jj + nb)%nat;
          un ← put un (jj + nb) (u32 (u + addCarry));
          Some (un, u64 (qh - 1)));
     q ← put q jj (u32 qhat);
     Some (un, q)) = Some (un', <[jj := W / V]> q) /\
    length un' = length un /\ u32buf un' /\
    pv un' (S (jj + nb)) = R - Bp jj * (W / V) * V /\ pv un' (S (jj + nb)) < V * Bp jj.
Proof.
  intros V R Hvb Hvl Hub Hul Hq HVp HWp Hwin Hq1 Hq2.
  destruct (mulsub_spec vn nb jj un Hvb Hvl ltac:(lia) qh _ Hq2 Hub eq_refl)
    as (o & c & bo & u & t & b & Hf & Hu & Hbs & o' & Hp & Hb & Hw).
  step Hf. step Hu. rewrite Hbs. step Hp. destruct Hw as (Hwl & Hwb & Hwv & _). fold V R in Hwv.
  assert (0 <= W / V) as HWd by (apply Z.div_pos; lia).
  pose proof (pv_bound un (S (jj + nb)) Hub) as HRb. pose proof (pv_bound o' (S (jj + nb)) Hwb) as Hob.
  pose proof (pv_bound un jj Hub) as Hlo. pose proof (Bp_pos jj) as HD.
  assert (Bp jj * V <= Bp (S (jj + nb))) as HDV.
  { replace (S (jj + nb)) with (jj + S nb)%nat by lia. rewrite Bp_add.
    apply Z.mul_le_mono_nonneg_l; [lia|]. pose proof (pv_bound vn nb Hvb) as HVb.
    pose proof (Bp_mono nb (S nb) ltac:(lia)). fold V in HVb. lia. }
  destruct (digit_arith _ _ W V qh b _ _ _ HD HVp Hwin Hlo HWd Hq1 HRb HDV Hob Hb Hwv) as [Hb0 Hb1].
  assert (R - Bp jj * (W / V) * V < V * Bp jj /\ 0 <= R - Bp jj * (W / V) * V) as [Hrem Hrem0].
  { rewrite Hwin. pose proof (Z.div_mod W V ltac:(lia)). pose proof (Z.mod_pos_bound W V HVp).
    replace (pv un jj + Bp jj * W - Bp jj * (W / V) * V) with (pv un jj + Bp jj * (W mod V)) by nia.
    assert (Bp jj * (W mod V + 1) <= Bp jj * V) by (apply Z.mul_le_mono_nonneg_l; lia). nia. }
  assert (W / V < BASE) by lia.
  destruct Hb as [->| ->]; cbn [Z.eqb mbind option_bind].
  - specialize (Hb0 eq_refl). subst qh. rewrite u32_id by (unfold BASE in *; lia).
    rewrite Z.mul_0_r, Z.add_0_r in Hwv. step (put_Some q jj (W / V) Hq).
    exists o'. split; [done|]. by rewrite Hwv.
  - specialize (Hb1 eq_refl). subst qh.
    destruct (addback_spec vn nb jj un Hvb Hvl ltac:(lia) o' _ Hwb Hwl eq_refl)
      as (p & y & ac & p' & Hf2 & Hy & Hp2 & k & Hl2 & Hb2 & Hv2 & _).
    step Hf2. step Hy. step Hp2. rewrite u64_id by (unfold BASE in *; lia).
    replace (W / V + 1 - 1) with (W / V) by lia. rewrite u32_id by (unfold BASE in *; lia).
    step (put_Some q jj (W / V) Hq). fold V in Hv2. pose proof (pv_bound p' (S (jj + nb)) Hb2) as Hpb.
    assert (k = 1) as -> by nia.
    exists p'. split; [done|]. split; [lia|]. split; [done|]. rewrite Hv2, Hwv. split; [ring|lia].
Qed.

Lemma knuth_digit_spec vn nb m jj un q vt :
  nb = S (S m) ->
  u32buf vn -> (nb <= length vn)%nat -> vn !! S m = Some vt -> 2 ^ 31 <= vt ->
  u32buf un -> (jj + nb + 1 <= length un)%nat -> (jj < length q)%nat ->
  pv un (S (jj + nb)) < pv vn nb * Bp (S jj) ->
  exists un' d, knuth_digit vn nb (S jj) (un, q) = Some (un', <[jj := d]> q) /\
    0 <= d < BASE /\ length un' = length un /\ u32buf un' /\
    pv un' (S (jj + nb)) = pv un (S (jj + nb)) - Bp jj * d * pv vn nb /\
    pv un' (S (jj + nb)) < pv vn nb * Bp jj.
Proof.
  intros Hnb Hvb Hvl Hvt Htop Hub Hul Hq HR. unfold knuth_digit.
  replace (S jj - 1)%nat with jj by lia.
  destruct (lookup_Some_lt un (jj + nb)) as [u2 Hu2]; [lia|].
  destruct (lookup_Some_lt un (jj + S m)) as [u1 Hu1]; [lia|].
  destruct (lookup_Some_lt un (jj + m)) as [u0 Hu0]; [lia|].
  destruct (lookup_Some_lt vn m) as [vs Hvs]; [lia|].
  step Hu2. replace (jj + nb - 1)%nat with (jj + S m)%nat by lia. step Hu1.
  replace (nb - 1)%nat with (S m) by lia. step Hvt.
  replace (nb - 2)%nat with m by lia. replace (jj + nb - 2)%nat with (jj + m)%nat by lia.
  rewrite Hvs, Hu0.
  pose proof (u32buf_lookup _ _ _ Hub Hu2) as R2. pose proof (u32buf_lookup _ _ _ Hub Hu1) as R1.
  pose proof (u32buf_lookup _ _ _ Hub Hu0) as R0. pose proof (u32buf_lookup _ _ _ Hvb Hvs) as Rs.
  pose proof (u32buf_lookup _ _ _ Hvb Hvt) as Rt.
  rewrite (u64_id (Z.shiftl u2 LIMB_BITS)) by (unfold LIMB_BITS; rewrite Z.shiftl_mul_pow2; unfold BASE in *; lia).
  rewrite lor_shiftl_add by (unfold LIMB_BITS, BASE in *; lia). change (2 ^ LIMB_BITS) with BASE.
  assert (pv un (S (jj + nb)) = pv un jj + Bp jj * pv (drop jj un) (S nb)) as Hwin
    by (rewrite <- pv_drop by lia; f_equal; lia).
  assert (pv (drop jj un) (S nb) = ((u2 * BASE + u1) * BASE + u0) * Bp m + pv (drop jj un) m) as HW
    by (rewrite Hnb in Hu2 |- *; apply pv_top3; by rewrite lookup_drop).
  assert (pv vn nb = (vt * BASE + vs) * Bp m + pv vn m) as HV by (rewrite Hnb; by apply pv_top2).
  assert (u32buf (drop jj un)) as Hdb by by apply Forall_drop.
  set (W := pv (drop jj un) (S nb)) in *. pose proof (Bp_pos m) as HPm. pose proof (pv_bound vn m Hvb).
  assert (W < pv vn nb * BASE) as HWV.
  { apply (Z.mul_lt_mono_pos_l (Bp jj)); [apply Bp_pos|]. pose proof (pv_bound un jj Hub).
    rewrite Bp_S in HR. lia. }
  destruct (qhat_loop_spec (pv vn nb) W vt vs (pv vn m) u2 u1 u0 (pv (drop jj un) m) (Bp m)
    HPm HV HW ltac:(lia) Rs (pv_bound _ _ Hvb) R2 R1 R0 (pv_bound _ _ Hdb) HWV nb) as ([qh rh] & Hl & Hq1 & Hq2);
    [lia|].
  cbn [fst] in *. unfold num in Hl. step Hl.
  assert (0 < pv vn nb) by (rewrite HV; unfold BASE in *; nia).
  destruct (knuth_reduce vn nb jj un q qh W) as (un' & Hred & Hrest); auto; [apply (pv_bound _ _ Hdb)|].
  exists un', (W / pv vn nb). split; [exact Hred|]. split; [|exact Hrest].
  split; [apply Z.div_pos; [apply (pv_bound _ _ Hdb)|done]|lia].
Qed.

(** ** The digit loop *)

Section DigitLoop.
Context (vn : list Z) (nb m : nat) (vt : Z) (n : nat) (U : Z) (lu lq : nat).
Context (Hnb : nb = S (S m)) (Hvb : u32buf vn) (Hvl : (nb <= length vn)%nat).
Context (Hvt : vn !! S m = Some vt) (Htop : 2 ^ 31 <= vt).
Context (Hlu : (n + nb <= lu)%nat) (Hlq : (n <= lq)%nat).

Definition digits_inv (j : nat) (st : list Z * list Z) : Prop :=
  let '(un, q) := st in
  length un = lu /\ length q = lq /\ u32buf un /\ u32buf q /\
  U = (pv q n - pv q j) * pv vn nb + pv un (j + nb) /\
  pv un (j + nb) < pv vn nb * Bp j /\
  ((j < n)%nat -> un !! (j + nb)%nat = Some 0).

Lemma digits_step j st :
  (j < n)%nat -> digits_inv (S j) st ->
  exists st', knuth_digit vn nb (S j) st = Some st' /\ digits_inv j st'.
Proof.
  destruct st as [un q]; intros Hj (Hl1 & Hl2 & Hub & Hqb & HU & Hlt & _).
  replace (S j + nb)%nat with (S (j + nb)) in * by lia.
  destruct (knuth_digit_spec vn nb m j un q vt) as (un' & d & Hd & Hdr & Hl' & Hub' & Hv' & Hlt');
    auto; try lia.
  eexists; split; [exact Hd|]. pose proof (pv_bound vn nb Hvb) as HVb. pose proof (Bp_pos j) as Hj0.
  destruct (lookup_Some_lt un' (j + nb)) as [x Hx]; [lia|].
  pose proof (u32buf_lookup _ _ _ Hub' Hx) as Hxr. pose proof (pv_bound un' (j + nb) Hub') as Hpb.
  assert (x = 0) as ->.
  { rewrite (pv_S _ _ _ Hx), Bp_add in Hlt'.
    assert (pv vn nb * Bp j < Bp nb * Bp j) by (apply Z.mul_lt_mono_pos_r; lia).
    assert (~ 1 <= x); [|lia]. intros Hx1.
    assert (Bp j * Bp nb * 1 <= Bp j * Bp nb * x)
      by (apply Z.mul_le_mono_nonneg_l; [pose proof (Bp_pos nb); nia|lia]). lia. }
  rewrite (pv_S _ _ _ Hx), Z.mul_0_r, Z.add_0_r in Hv', Hlt'.
  destruct (lookup_Some_lt q j) as [y Hy]; [lia|].
  unfold digits_inv. rewrite length_insert, Hv'. split; [lia|]. split; [lia|]. split; [done|].
  split; [by apply u32buf_insert|]. split; [|split; [lia|done]].
  rewrite (pv_insert q n j y) by (done || lia). rewrite pv_insert_ge by lia.
  rewrite HU. rewrite (pv_S _ _ _ Hy). ring.
Qed.

Lemma digits_loop un q :
  length un = lu -> length q = lq -> u32buf un -> u32buf q ->
  pv un (n + nb) = U -> U < pv vn nb * Bp n ->
  exists un' q', for_down n (knuth_digit vn nb) (un, q) = Some (un', q') /\
    length q' = lq /\ length un' = lu /\ u32buf q' /\ u32buf un' /\
    U = pv q' n * pv vn nb + pv un' nb /\ pv un' nb < pv vn nb /\
    ((0 < n)%nat -> un' !! nb = Some 0).
Proof.
  intros Hl1 Hl2 Hub Hqb HU Hlt.
  destruct (for_down_rule digits_inv n (knuth_digit vn nb) (un, q)) as ([un' q'] & Hf & HI).
  - repeat split; auto; lia.
  - intros j t Hj. by apply digits_step.
  - destruct HI as (H1 & H2 & H3 & H4 & H5 & H6 & H7). exists un', q'. simpl in *.
    rewrite pv_0, Z.sub_0_r in H5. rewrite Bp_0, Z.mul_1_r in H6. auto 10.
Qed.
End DigitLoop.

(** ** Shifting right across limbs *)

(** Limb [x] with next limb [y], after a right shift by [s]. *)
Definition shr_limb (s x y : Z) : Z := x / 2 ^ s + (y mod 2 ^ s) * 2 ^ (32 - s).

Lemma shr_limb_lor s x y :
  0 < s < 32 -> 0 <= x < BASE -> 0 <= y < BASE ->
  Z.lor (Z.shiftr x s) (u32 (Z.shiftl y (LIMB_BITS - s))) = shr_limb s x y /\ 0 <= shr_limb s x y < BASE.
Proof.
  intros Hs Hx Hy. unfold LIMB_BITS, shr_limb.
  assert (0 < 2 ^ s) by (apply Z.pow_pos_nonneg; lia).
  assert (0 < 2 ^ (32 - s)) by (apply Z.pow_pos_nonneg; lia).
  assert (BASE = 2 ^ s * 2 ^ (32 - s)) as HB
    by (rewrite <- Z.pow_add_r by lia; by replace (s + (32 - s)) with 32 by lia).
  assert (0 <= x / 2 ^ s < 2 ^ (32 - s))
    by (split; [apply Z.div_pos; lia|apply Z.div_lt_upper_bound; lia]).
  pose proof (Z.mod_pos_bound y (2 ^ s) ltac:(lia)).
  rewrite Z.shiftr_div_pow2, Z.shiftl_mul_pow2 by lia.
  replace (u32 (y * 2 ^ (32 - s))) with ((y mod 2 ^ s) * 2 ^ (32 - s)).
  - rewrite Z.lor_comm, lor_mul_add by lia. split; [lia|nia].
  - unfold u32. change (2 ^ 32) with BASE. rewrite HB. by rewrite Z.mul_mod_distr_r by lia.
Qed.

Lemma shr_value s (l r : list Z) n :
  0 < s < 32 -> u32buf l -> (n <= length l)%nat ->
  (forall j, (j < n)%nat -> r !! j = Some (shr_limb s (nth j l 0) (nth (S j) l 0))) ->
  2 ^ s * pv r n + nth 0 l 0 mod 2 ^ s = pv l n + Bp n * (nth n l 0 mod 2 ^ s).
Proof.
  intros Hs Hl. induction n as [|n IH]; intros Hn Hr.
  - rewrite !pv_0, Bp_0. lia.
  - rewrite (pv_S r n _ (Hr n ltac:(lia))).
    destruct (lookup_Some_lt l n) as [x Hx]; [lia|]. rewrite (pv_S l n x Hx), Bp_S.
    rewrite (nth_lookup_Some _ _ _ Hx) in *. specialize (IH ltac:(lia) ltac:(intros; apply Hr; lia)).
    unfold shr_limb. pose proof (Z.div_mod x (2 ^ s) ltac:(apply Z.pow_nonzero; lia)) as Hd.
    assert (BASE = 2 ^ s * 2 ^ (32 - s)) as HB
      by (rewrite <- Z.pow_add_r by lia; by replace (s + (32 - s)) with 32 by lia).
    rewrite HB. set (y := nth (S n) l 0 mod 2 ^ s) in *. set (x0 := x mod 2 ^ s) in *.
    replace (Bp n * x) with (Bp n * (2 ^ s * (x / 2 ^ s) + x0)) by (rewrite <- Hd; ring).
    assert (2 ^ s * pv r n = pv l n + Bp n * x0 - nth 0 l 0 mod 2 ^ s) as Hr' by lia.
    rewrite Z.mul_add_distr_l, Hr'. ring.
Qed.

(** ** Normalizing the operands *)

Lemma shl_hi_small s x : 0 < s < 32 -> 0 <= x -> x * 2 ^ s < 2 ^ 32 -> shl_hi s x = 0.
Proof.
  intros Hs Hx Hlt. apply Z.div_small. split; [done|].
  apply (Z.mul_lt_mono_pos_r (2 ^ s)); [apply Z.pow_pos_nonneg; lia|].
  rewrite <- Z.pow_add_r by lia. by replace (32 - s + s) with 32 by lia.
Qed.

Lemma memcpy_prefix (dst a : list Z) n :
  u32buf dst -> u32buf a -> (n <= length a)%nat -> (n <= length dst)%nat ->
  exists o, memcpy dst 0 a 0 n = Some o /\ length o = length dst /\ u32buf o /\ pv o n = pv a n /\
    (forall j, (j < n)%nat -> o !! j = a !! j).
Proof.
  intros Hd Ha Hla Hld. unfold memcpy. rewrite slice_Some by lia. simpl. rewrite drop_0.
  rewrite blit_Some by (rewrite length_take; lia). eexists; split; [done|]. simpl.
  assert (length (take n a) = n) as Hl by (rewrite length_take; lia). rewrite Hl. split_and!.
  - rewrite length_app, length_drop. lia.
  - apply Forall_app; split; [by apply u32buf_take|by apply Forall_drop].
  - unfold pv. by rewrite take_app_length' by lia.
  - intros j Hj. rewrite lookup_app_l by lia. by rewrite lookup_take_lt.
Qed.

Lemma knuth_setup_spec a na b nb s top :
  u32buf a -> u32buf b -> (0 < na)%nat -> (0 < nb)%nat -> (na <= length a)%nat -> (nb <= length b)%nat ->
  b !! pred nb = Some top -> 0 <= s <= 31 -> 2 ^ 31 <= top * 2 ^ s < 2 ^ 32 ->
  exists un vn, knuth_setup a na b nb s = Some (un, vn) /\
    u32buf un /\ u32buf vn /\ length un = S na /\ length vn = nb /\
    pv un (S na) = pv a na * 2 ^ s /\ pv vn nb = pv b nb * 2 ^ s.
Proof.
  intros Ha Hb Hna Hnb Hla Hlb Htop Hs Ht. unfold knuth_setup.
  pose proof (length_calloc (na + 1)) as Hlu. pose proof (length_calloc nb) as Hlv.
  pose proof (u32buf_calloc (na + 1)) as Hub. pose proof (u32buf_calloc nb) as Hvb.
  destruct (Z.eqb_spec s 0) as [->|Hne].
  - destruct (memcpy_prefix (calloc (na + 1)) a na) as (u & Hu & Hul & Hu2 & Hu3 & _); auto; [lia|].
    destruct (memcpy_prefix (calloc nb) b nb) as (v & Hv & Hvl & Hv2 & Hv3 & _); auto; [lia|].
    step Hu. step Hv. destruct (put_limb u na 0 Hu2) as (u' & Hp & Hu4 & Hu5 & _ & Hu6 & _);
      [lia|unfold BASE; lia|]. step Hp.
    exists u', v. rewrite Z.pow_0_r, !Z.mul_1_r, Hu6, Hu3. split_and!; try done; lia.
  - destruct (shl_copy_spec b nb s (calloc nb)) as (v & Hv & Hvl & Hv2 & Hv3 & _); [lia|done|lia|lia|done|].
    step Hv. replace (na - 1)%nat with (pred na) by lia.
    destruct (lookup_Some_lt a (pred na)) as [x Hx]; [lia|]. step Hx.
    pose proof (u32buf_lookup _ _ _ Ha Hx) as Hxr. pose proof (shl_hi_range s x ltac:(lia) Hxr) as Hhi.
    pose proof (Z.pow_lt_mono_r 2 s 32 ltac:(lia) ltac:(lia) ltac:(lia)).
    rewrite Z.shiftr_div_pow2 by (unfold LIMB_BITS; lia). change (x / 2 ^ (LIMB_BITS - s)) with (shl_hi s x).
    rewrite u32_id by lia.
    destruct (put_limb (calloc (na + 1)) na (shl_hi s x) Hub) as (u & Hp & Hu1 & Hu2 & _ & _ & Hu3);
      [lia|unfold BASE; lia|]. step Hp.
    destruct (shl_copy_spec a na s u) as (u' & Hf & Hl' & Hb' & Hv' & Hfr); [lia|done|lia|lia|done|].
    step Hf. exists u', v. split; [done|]. split_and!; try done; try lia.
    + assert (u' !! na = Some (shl_hi s x)) as Hna'.
      { rewrite Hfr by lia. rewrite Hu3. apply list_lookup_insert_eq; lia. }
      rewrite (pv_S _ _ _ Hna'). rewrite (nth_lookup_Some _ _ _ Hx) in Hv'.
      destruct (Nat.eqb_spec na 0); [lia|]. lia.
    + rewrite (nth_lookup_Some _ _ _ Htop), shl_hi_small in Hv3
        by (pose proof (u32buf_lookup _ _ _ Hb Htop); lia).
      destruct (nb =? 0)%nat; lia.
Qed.

(** Denormalizing the remainder. *)
Lemma remainder_copy_spec un nb r s X :
  u32buf un -> u32buf r -> (nb <= length r)%nat -> un !! nb = Some 0 -> 0 <= s <= 31 ->
  pv un nb = X * 2 ^ s -> (0 < nb)%nat ->
  exists r', (if s =? 0 then for_up nb 0 (copy_body un) r
              else for_up nb 0 (shr_copy_body un s nb) r) = Some r' /\
    length r' = length r /\ u32buf r' /\ pv r' nb = X.
Proof.
  intros Hub Hrb Hlr H0 Hs HX Hnb. pose proof (lookup_lt_Some _ _ _ H0) as Hlu.
  assert (forall i, 0 <= nth i un 0 < BASE) as Hnth by (intros; by apply nth_limb).
  assert (forall i, (i <= nb)%nat -> un !! i = Some (nth i un 0)) as Hget.
  { intros i Hi. destruct (lookup_Some_lt un i) as [x Hx]; [lia|]. by rewrite Hx, (nth_lookup_Some _ _ _ Hx). }
  assert (forall f r', (forall j, (j < nb)%nat -> r' !! j = Some (f j)) -> (forall j, (nb <= j)%nat -> r' !! j = r !! j) ->
    (forall j, 0 <= f j < BASE) -> u32buf r') as Hbuf.
  { intros f r' H1 H2 Hf. apply u32buf_by_lookup. intros i x Hx. destruct (decide (i < nb)%nat).
    - rewrite H1 in Hx by done. by simplify_eq.
    - rewrite H2 in Hx by lia. by apply (u32buf_lookup r i). }
  destruct (Z.eqb_spec s 0) as [->|Hne].
  - destruct (for_up_fill nb (fun j => nth j un 0) (copy_body un) r) as (r' & Hf & Hl & Hi & Hr); [|done|].
    { intros j o Hj _. unfold copy_body. by rewrite Hget by lia. }
    exists r'. split; [done|]. split; [done|]. split; [by apply (Hbuf (fun j => nth j un 0))|].
    rewrite Z.pow_0_r, Z.mul_1_r in HX. rewrite <- HX. unfold pv. f_equal.
    apply list_eq_same_length with nb; [by rewrite length_take; lia|by rewrite length_take; lia|].
    intros i x y Hi' Hx Hy. rewrite lookup_take_lt in Hx, Hy by done.
    rewrite Hi in Hx by done. rewrite Hget in Hy by lia. congruence.
  - destruct (for_up_fill nb (fun j => shr_limb s (nth j un 0) (nth (S j) un 0)) (shr_copy_body un s nb) r)
      as (r' & Hf & Hl & Hi & Hr); [|done|].
    { intros j o Hj _. unfold shr_copy_body. rewrite Hget by lia. cbn [mbind option_bind].
      rewrite ltb_true by lia. replace (j + 1)%nat with (S j) by lia. rewrite Hget by lia. cbn [mbind option_bind].
      by rewrite (proj1 (shr_limb_lor s _ _ ltac:(lia) (Hnth j) (Hnth (S j)))). }
    exists r'. split; [done|]. split; [done|]. split.
    { apply (Hbuf (fun j => shr_limb s (nth j un 0) (nth (S j) un 0))); [done|done|].
      intros j. apply shr_limb_lor; auto; lia. }
    pose proof (shr_value s un r' nb ltac:(lia) Hub ltac:(lia) Hi) as Hv.
    rewrite (nth_lookup_Some _ _ _ H0), Z.mod_0_l, Z.mul_0_r, Z.add_0_r, HX in Hv by (apply Z.pow_nonzero; lia).
    assert (0 < 2 ^ s) by (apply Z.pow_pos_nonneg; lia).
    pose proof (Z.mod_pos_bound (nth 0 un 0) (2 ^ s) ltac:(lia)). nia.
Qed.

Lemma nmag_top b nb vb :
  nmag b nb vb -> (0 < nb)%nat -> exists top, b !! pred nb = Some top /\ 0 < top < 2 ^ 32 /\ top * Bp (pred nb) <= vb.
Proof.
  intros [(Hl & Hb & <-) [->|(x & Hx & Hne)]] Hn; [lia|]. exists x. split; [done|].
  pose proof (u32buf_lookup _ _ _ Hb Hx). unfold BASE in *. split; [lia|].
  destruct nb as [|nb]; [lia|]. simpl in *. rewrite (pv_S _ _ _ Hx). pose proof (pv_bound b nb Hb). lia.
Qed.

(** After normalization the divisor's top limb has its high bit set ... *)
Lemma scaled_top b nb vn s top vt m :
  nb = S (S m) -> u32buf vn -> vn !! S m = Some vt -> pv vn nb = pv b nb * 2 ^ s -> 0 < 2 ^ s ->
  top * Bp (pred nb) <= pv b nb -> 2 ^ 31 <= top * 2 ^ s -> 2 ^ 31 <= vt.
Proof.
  intros Hm Hvb Hvt Hpv H2s Htv Hst. rewrite Hm in Hpv at 1. rewrite (pv_S _ _ _ Hvt) in Hpv.
  assert (top * Bp (S m) <= pv b nb) as Htv' by (by replace (S m) with (pred nb) by lia).
  pose proof (pv_bound vn (S m) Hvb). pose proof (Bp_pos (S m)).
  assert (top * Bp (S m) * 2 ^ s <= pv b nb * 2 ^ s) by (apply Z.mul_le_mono_nonneg_r; lia).
  assert (2 ^ 31 * Bp (S m) <= top * 2 ^ s * Bp (S m)) by (apply Z.mul_le_mono_nonneg_r; lia).
  assert (2 ^ 31 < vt + 1); [|lia]. apply (Z.mul_lt_mono_pos_r (Bp (S m))); lia.
Qed.

(** ... and the scaled dividend is below the divisor shifted past all digits. *)
Lemma scaled_bound va na vb nb s top :
  0 <= va < Bp na -> (0 < nb <= na)%nat -> 0 <= s <= 31 ->
  top * Bp (pred nb) <= vb -> 2 ^ 31 <= top * 2 ^ s ->
  va * 2 ^ s < vb * 2 ^ s * Bp (na - nb + 1).
Proof.
  intros Hva Hn Hs Htv Hst. assert (0 < 2 ^ s) by (apply Z.pow_pos_nonneg; lia).
  pose proof (Bp_pos (na - nb + 1)). pose proof (Bp_pos (pred nb)).
  assert (top * Bp (pred nb) * 2 ^ s <= vb * 2 ^ s) by (apply Z.mul_le_mono_nonneg_r; lia).
  assert (2 ^ 31 * Bp (pred nb) <= top * 2 ^ s * Bp (pred nb)) by (apply Z.mul_le_mono_nonneg_r; lia).
  assert (2 ^ 31 * Bp (pred nb) * Bp (na - nb + 1) <= vb * 2 ^ s * Bp (na - nb + 1))
    by (apply Z.mul_le_mono_nonneg_r; lia).
  assert (Bp na = Bp (pred nb) * Bp (na - nb + 1)) as E by (rewrite <- Bp_add; f_equal; lia).
  pose proof (Z.pow_le_mono_r 2 s 31 ltac:(lia) ltac:(lia)).
  assert (va * 2 ^ s < Bp na * 2 ^ s) by (apply Z.mul_lt_mono_pos_r; lia).
  assert (Bp na * 2 ^ s <= Bp na * 2 ^ 31) by (apply Z.mul_le_mono_nonneg_l; [pose proof (Bp_pos na)|]; lia). lia.
Qed.

Lemma bigIntDivModKnuth_spec a na va b nb vb q r :
  nmag a na va -> nmag b nb vb -> (2 <= nb)%nat -> vb <= va ->
  u32buf q -> (na <= length q)%nat -> u32buf r -> (nb <= length r)%nat ->
  exists q' nq r' nr, bigIntDivModKnuth a na b nb q r = Some ((q', nq), (r', nr)) /\
    nmag q' nq (va / vb) /\ nmag r' nr (va mod vb).
Proof.
  intros HA HB Hnb Hge Hqb Hlq Hrb Hlr. unfold bigIntDivModKnuth.
  assert (nb <= na)%nat as Hnn.
  { apply Nat.nlt_ge; intros Hlt. pose proof (norm_length_lt _ _ _ _ _ _ HA HB Hlt). lia. }
  destruct (nmag_top _ _ _ HB ltac:(lia)) as (top & Htop & Htr & Htv).
  destruct HA as [(Hla & Ha & <-) _], HB as [(Hlb & Hb & <-) _].
  replace (nb - 1)%nat with (pred nb) by lia. step Htop.
  destruct (top_shift_spec top Htr) as (s & Hs & Hsr & Hst). step Hs.
  destruct (knuth_setup_spec a na b nb s top) as (un & vn & Hset & Hub & Hvb & Hlu & Hlv & Hpu & Hpv);
    auto; try lia. step Hset.
  assert (0 < 2 ^ s) as H2s by (apply Z.pow_pos_nonneg; lia).
  assert (nb = S (S (nb - 2))) as Hm by lia. remember (nb - 2)%nat as m eqn:Hmeq. clear Hmeq.
  destruct (lookup_Some_lt vn (S m)) as [vt Hvt]; [lia|].
  assert (2 ^ 31 <= vt) as Hvtop by (eapply (scaled_top b nb vn s top vt m); eauto; lia).
  pose proof (scaled_bound (pv a na) na (pv b nb) nb s top (pv_bound a na Ha) ltac:(lia) Hsr Htv ltac:(lia)) as Hlt.
  destruct (digits_loop vn nb m vt (na - nb + 1) (pv un (S na)) (S na) (length q) Hm Hvb ltac:(lia) Hvt Hvtop ltac:(lia) ltac:(lia) un q)
    as (un' & q' & Hf & Hlq' & Hlu' & Hqb' & Hub' & HU & HR & H0); auto.
  { f_equal; lia. } { rewrite Hpu, Hpv. lia. }
  step Hf. specialize (H0 ltac:(lia)). rewrite Hpu, Hpv in HU. rewrite Hpv in HR.
  set (Q := pv q' (na - nb + 1)) in *.
  pose proof (pv_bound un' nb Hub') as HRb.
  destruct (remainder_copy_spec un' nb r s (pv a na - Q * pv b nb) Hub' Hrb Hlr H0 Hsr) as (r' & Hr & Hlr' & Hrb' & Hrv);
    [lia|lia|]. step Hr.
  destruct (bigIntNormalize_spec q' (na - nb + 1)) as (nq & Hnq & _ & Hmq); [lia|done|]. step Hnq.
  destruct (bigIntNormalize_spec r' nb) as (nr & Hnr & _ & Hmr); [lia|done|]. step Hnr.
  exists q', nq, r', nr. split; [done|].
  assert (0 <= pv a na - Q * pv b nb < pv b nb) as Hrng by nia.
  rewrite Hrv in Hmr. fold Q in Hmq.
  rewrite (Z.div_unique (pv a na) (pv b nb) Q (pv a na - Q * pv b nb)) in Hmq by lia.
  split; [done|]. rewrite (Z.mod_unique (pv a na) (pv b nb) Q (pv a na - Q * pv b nb)) in Hmr by lia. done.
Qed.

(** ** One-limb divisors *)

Lemma div_limb_loop a n d q :
  u32buf a -> (n <= length a)%nat -> 0 < d < BASE -> u32buf q -> (n <= length q)%nat ->
  exists q', for_down n (div_limb_body a d) (q, 0) = Some (q', pv a n mod d) /\
    length q' = length q /\ u32buf q' /\ pv q' n = pv a n / d.
Proof.
  intros Ha Hla Hd Hq Hlq.
  destruct (for_down_rule (fun k '(o, rem) => length o = length q /\ u32buf o /\ 0 <= rem < d /\
      pv a n - pv a k = d * (pv o n - pv o k) + Bp k * rem) n (div_limb_body a d) (q, 0))
    as ([q' rem] & Hf & Hl & Hb & Hr & Hv).
  - repeat split; auto; lia.
  - intros j [o rem] Hj (Hl & Hb & Hr & Hv). unfold div_limb_body. replace (S j - 1)%nat with j by lia.
    destruct (lookup_Some_lt a j) as [x Hx]; [lia|]. step Hx. pose proof (u32buf_lookup _ _ _ Ha Hx).
    rewrite u64_id by (unfold LIMB_BITS; rewrite Z.shiftl_mul_pow2; unfold BASE in *; lia).
    rewrite lor_shiftl_add by (unfold LIMB_BITS, BASE in *; lia). change (2 ^ LIMB_BITS) with BASE.
    set (cur := rem * BASE + x) in *. pose proof BASE_pos.
    assert (0 <= cur) by (unfold cur; nia).
    assert (cur < d * BASE).
    { assert ((rem + 1) * BASE <= d * BASE) by (apply Z.mul_le_mono_nonneg_r; lia). unfold cur. lia. }
    assert (0 <= cur / d < BASE) by (split; [apply Z.div_pos; lia|apply Z.div_lt_upper_bound; lia]).
    rewrite u32_id by (unfold BASE in *; lia). destruct (lookup_Some_lt o j) as [y Hy]; [lia|].
    step (put_Some o j (cur / d) ltac:(lia)). eexists; split; [done|].
    cbv beta iota. rewrite length_insert.
    split; [done|]. split; [by apply u32buf_insert|]. split; [apply Z.mod_pos_bound; lia|].
    rewrite (pv_insert o n j y), pv_insert_ge by (done || lia).
    rewrite (pv_S a j x), (pv_S o j y), Bp_S in Hv by done.
    pose proof (Z.div_mod cur d ltac:(lia)) as Hdm.
    assert (Bp j * cur = Bp j * (d * (cur / d) + cur mod d)) as E by (by rewrite <- Hdm).
    unfold cur in E at 1. lia.
  - rewrite !pv_0, Bp_0 in Hv. exists q'.
    assert (rem = pv a n mod d /\ pv q' n = pv a n / d) as [-> ->]; [|done].
    split; [apply (Z.mod_unique (pv a n) d (pv q' n)); lia|apply (Z.div_unique (pv a n) d (pv q' n) rem); lia].
Qed.

Lemma nmag_one r x : u32buf r -> (0 < length r)%nat -> 0 <= x < BASE ->
  nmag (<[0%nat := x]> r) (if x =? 0 then 0%nat else 1%nat) x.
Proof.
  intros Hr Hl Hx. assert (<[0%nat := x]> r !! 0%nat = Some x) as H0 by (apply list_lookup_insert_eq; lia).
  apply nmag_intro; [rewrite length_insert; case_bool; lia|by apply u32buf_insert|..].
  - destruct (Z.eqb_spec x 0); [by left|]. right. exists x. done.
  - destruct (Z.eqb_spec x 0) as [->|]; [done|]. rewrite (pv_S _ _ _ H0), pv_0, Bp_0. lia.
Qed.

(** The dividend is the remainder: it is copied, and stays normalized. *)
Lemma copy_norm a na va r :
  nmag a na va -> u32buf r -> (na <= length r)%nat ->
  exists r', memcpy r 0 a 0 na = Some r' /\ nmag r' na va /\ length r' = length r.
Proof.
  intros [(Hla & Ha & <-) Hna] Hr Hl.
  destruct (memcpy_prefix r a na) as (r' & Hm & Hl' & Hb' & Hv' & Hg); auto.
  exists r'. split; [done|]. split; [|done]. apply nmag_intro; [lia|done| |done].
  destruct Hna as [->|(x & Hx & Hne)]; [by left|].
  destruct na as [|n]; [by left|]. right. exists x. simpl in *. by rewrite Hg by lia.
Qed.

Lemma one_limb_divmod (a : list Z) na (b : list Z) d q r :
  u32buf a -> (na <= length a)%nat -> b !! 0%nat = Some d -> 0 < d < BASE ->
  u32buf q -> (na <= length q)%nat -> u32buf r -> (0 < length r)%nat ->
  exists q' nq r' nr,
    (divisor ← b !! 0%nat;
     '(q, rem) ← for_down na (div_limb_body a divisor) (q, 0);
     nq ← bigIntNormalize q na;
     r ← put r 0 (u32 rem);
     Some (Some ((q, nq), (r, if rem =? 0 then 0%nat else 1%nat)))) = Some (Some ((q', nq), (r', nr))) /\
    nmag q' nq (pv a na / d) /\ nmag r' nr (pv a na mod d).
Proof.
  intros Ha Hla Hd Hdr Hq Hlq Hr Hlr. step Hd.
  destruct (div_limb_loop a na d q) as (q' & Hf & Hlq' & Hqb' & Hqv); auto. step Hf.
  destruct (bigIntNormalize_spec q' na) as (nq & Hnq & _ & Hmq); [lia|done|]. step Hnq.
  pose proof (Z.mod_pos_bound (pv a na) d ltac:(lia)).
  rewrite u32_id by (unfold BASE in *; lia). step (put_Some r 0 (pv a na mod d) ltac:(lia)).
  rewrite Hqv in Hmq. eexists q', nq, _, _. split; [done|]. split; [done|]. apply nmag_one; auto; lia.
Qed.

Lemma bigIntDivMod_spec a na va b nb vb q r :
  nmag a na va -> nmag b nb vb -> vb <> 0 ->
  u32buf q -> (na <= length q)%nat -> u32buf r -> (nb <= length r)%nat ->
  exists q' nq r' nr, bigIntDivMod a na b nb q r = Some (Some ((q', nq), (r', nr))) /\
    nmag q' nq (va / vb) /\ nmag r' nr (va mod vb).
Proof.
  intros HA HB Hvb Hqb Hlq Hrb Hlr. unfold bigIntDivMod.
  assert (nb <> 0)%nat as Hnb by (intros H; by apply (nmag_zero _ _ _ HB) in H).
  destruct (Nat.eqb_spec nb 0); [done|].
  step (bigIntCompare_spec _ _ _ _ _ _ HA HB).
  pose proof (mag_range _ _ _ (proj1 HA)). pose proof (mag_range _ _ _ (proj1 HB)).
  replace (sign_of_compare (va ?= vb) <? 0) with (va <? vb)
    by (unfold Z.ltb; by destruct (va ?= vb)).
  destruct (Z.ltb_spec va vb) as [Hlt|Hge].
  - assert (na <= nb)%nat.
    { apply Nat.nlt_ge; intros Hn. pose proof (norm_length_lt _ _ _ _ _ _ HB HA Hn). lia. }
    destruct (copy_norm a na va r HA Hrb ltac:(lia)) as (r' & Hr & Hm & _). step Hr.
    exists q, O, r', na. split; [done|]. rewrite Z.div_small, Z.mod_small by lia.
    split; [apply nmag_intro; [lia|done|by left|done]|done].
  - destruct (Nat.eqb_spec nb 1) as [->|Hne].
    + destruct HA as [(Hla & Ha & <-) _], HB as [(Hlb & Hb & Hv) _].
      destruct (lookup_Some_lt b 0) as [d Hd]; [lia|]. pose proof (u32buf_lookup _ _ _ Hb Hd).
      rewrite (pv_S _ _ _ Hd), pv_0, Bp_0 in Hv. replace d with vb in * by lia.
      apply one_limb_divmod; auto; lia.
    + destruct (bigIntDivModKnuth_spec a na va b nb vb q r HA HB) as (q' & nq & r' & nr & Hk & Hm1 & Hm2);
        auto; try lia. step Hk. exists q', nq, r', nr. done.
Qed.

(** ** Properties *)

(** C11. Long division (the one-limb loop, the smaller-dividend case and
    Knuth's algorithm D with its estimate correction and add-back) gives the
    normalized Euclidean quotient and remainder for every pair of normalized
    operands with a nonzero divisor. *)
Theorem bigIntDivMod_euclid a na va b nb vb q r :
  nmag a na va -> nmag b nb vb -> vb <> 0 ->
  u32buf q -> (na <= length q)%nat -> u32buf r -> (nb <= length r)%nat ->
  exists q' nq r' nr, bigIntDivMod a na b nb q r = Some (Some ((q', nq), (r', nr))) /\
    nmag q' nq (va / vb) /\ nmag r' nr (va mod vb).
Proof. apply bigIntDivMod_spec. Qed.

Lemma bigIntDivMod_euclid_witness :
  exists q' nq r' nr, bigIntDivMod [0; 0; 1] 3 [1; 1] 2 [0; 0; 0] [0; 0] = Some (Some ((q', nq), (r', nr))) /\
    nmag q' nq 0xFFFFFFFF /\ nmag r' nr 1.
Proof.
  apply (bigIntDivMod_euclid [0; 0; 1] 3 (2 ^ 64) [1; 1] 2 (2 ^ 32 + 1) [0; 0; 0] [0; 0]).
  1, 2: split; [split; [done|]; split; [repeat constructor|]; done|right; eexists; split; [reflexivity|discriminate]].
  - discriminate.
  - repeat constructor; done.
  - done.
  - repeat constructor; done.
  - done.
Defined.
