(* ===== verification/BigIntBits.v ===== *)
(** * Magnitudes: shifts, bit queries, gcd and conversion to a double

    [src/vm/runtime/BigInt.c]: [bigIntShiftLeft], [bigIntShiftRight],
    [bigIntHighBit], [bigIntLowBit], [bigIntBitCount], [bigIntBitAt],
    [bigIntGcd] (Stein's algorithm) and [bigIntToDouble]. *)
From S2P Require Import Prelude BigIntCore BigIntMul BigIntDiv.

(** ** Shifts *)

Definition shiftLeft_body (a : list Z) (limbShift : nat) (bitShift : Z) (i : nat) (out : list Z)
    : option (list Z) :=
  x ← a !! i;
  o ← out !! (limbShift + i)%nat;
  out ← put out (limbShift + i) (Z.lor o (u32 (Z.shiftl x bitShift)));
  put out (limbShift + i + 1) (Z.shiftr x (LIMB_BITS - bitShift)).

Definition bigIntShiftLeft (a : list Z) (na bits : nat) (out : list Z) : option (list Z * nat) :=
  if (na =? 0)%nat then Some (out, O)
  else
    let limbShift := (bits / 32)%nat in
    let bitShift := (bits mod 32)%nat in
    let total := (na + limbShift + 1)%nat in
    out ← memset0 out total;
    out ← (if (bitShift =? 0)%nat then memcpy out limbShift a 0 na
           else for_up na 0 (shiftLeft_body a limbShift (Z.of_nat bitShift)) out);
    n ← bigIntNormalize out total;
    Some (out, n).

Definition shiftRight_body (a : list Z) (na limbShift : nat) (bitShift : Z) (i : nat) (out : list Z)
    : option (list Z) :=
  x ← a !! (limbShift + i)%nat;
  out ← put out i (Z.shiftr x bitShift);
  if (limbShift + i + 1 <? na)%nat then
    o ← out !! i;
    y ← a !! (limbShift + i + 1)%nat;
    put out i (Z.lor o (u32 (Z.shiftl y (LIMB_BITS - bitShift))))
  else Some out.

Definition bigIntShiftRight (a : list Z) (na bits : nat) (out : list Z) : option (list Z * nat) :=
  let limbShift := (bits / 32)%nat in
  if (na =? 0)%nat || (na <=? limbShift)%nat then Some (out, O)
  else
    let bitShift := (bits mod 32)%nat in
    let total := (na - limbShift)%nat in
    out ← (if (bitShift =? 0)%nat then memcpy out 0 a limbShift total
           else for_up total 0 (shiftRight_body a na limbShift (Z.of_nat bitShift)) out);
    n ← bigIntNormalize out total;
    Some (out, n).

(** ** Bit queries *)

(** [while (top != 0) { top >>= 1; bit++; }] *)
Definition highBit_body (st : Z * nat) : option (Z * nat + nat) :=
  let '(top, bit) := st in
  if top =? 0 then Some (inr bit) else Some (inl (Z.shiftr top 1, S bit)).

Definition bigIntHighBit (a : list Z) (na : nat) : option nat :=
  if (na =? 0)%nat then Some O
  else
    top ← a !! (na - 1)%nat;
    bit ← loop 33 highBit_body (top, O);
    Some ((na - 1) * 32 + bit)%nat.

(** [while ((limb & 1) == 0) { limb >>= 1; bit++; }] *)
Definition lowBit_limb_body (st : Z * nat) : option (Z * nat + nat) :=
  let '(limb, bit) := st in
  if Z.land limb 1 =? 0 then Some (inl (Z.shiftr limb 1, S bit)) else Some (inr bit).

(** The scan over the limbs; [k] limbs are left, the next is limb [i]. *)
Fixpoint lowBit_scan (a : list Z) (i k : nat) : option nat :=
  match k with
  | O => Some O
  | S k =>
      x ← a !! i;
      if x =? 0 then lowBit_scan a (S i) k
      else
        bit ← loop 33 lowBit_limb_body (x, 1%nat);
        Some (i * 32 + bit)%nat
  end.

Definition bigIntLowBit (a : list Z) (na : nat) : option nat := lowBit_scan a 0 na.

(** [while (limb != 0) { count += limb & 1; limb >>= 1; }] *)
Definition bitCount_limb_body (st : Z * Z) : option (Z * Z + Z) :=
  let '(limb, count) := st in
  if limb =? 0 then Some (inr count)
  else Some (inl (Z.shiftr limb 1, count + Z.land limb 1)).

Definition bitCount_body (a : list Z) (i : nat) (count : Z) : option Z :=
  x ← a !! i; loop 33 bitCount_limb_body (x, count).

Definition bigIntBitCount (a : list Z) (na : nat) : option Z := for_up na 0 (bitCount_body a) 0.

Definition bigIntBitAt (a : list Z) (na index : nat) : option Z :=
  let limb := (index / 32)%nat in
  if (na <=? limb)%nat then Some 0
  else
    x ← a !! limb;
    Some (Z.land (Z.shiftr x (Z.of_nat (index mod 32))) 1).

(** ** Stein's gcd *)

(** One round of the main loop; [u], [v], [t] are the three scratch buffers. *)
Definition gcd_body (st : list Z * nat * (list Z * nat) * list Z)
    : option (list Z * nat * (list Z * nat) * list Z + list Z * nat) :=
  let '((u, nu), (v, nv), t) := st in
  c ← bigIntCompare u nu v nv;
  let '((u, nu), (v, nv)) := if 0 <? c then ((v, nv), (u, nu)) else ((u, nu), (v, nv)) in
  '(t, nt) ← bigIntSub v nv u nu t;
  if (nt =? 0)%nat then Some (inr (u, nu))
  else
    low ← bigIntLowBit t nt;
    '(v, nv) ← bigIntShiftRight t nt (low - 1) v;
    Some (inl ((u, nu), (v, nv), t)).

Definition bigIntGcd (a : list Z) (na : nat) (b : list Z) (nb : nat) (out : list Z)
    : option (list Z * nat) :=
  if (na =? 0)%nat then out ← memcpy out 0 b 0 nb; Some (out, nb)
  else if (nb =? 0)%nat then out ← memcpy out 0 a 0 na; Some (out, na)
  else
    let cap := ((if (nb <? na)%nat then na else nb) + 1)%nat in
    u ← memcpy (calloc cap) 0 a 0 na;
    v ← memcpy (calloc cap) 0 b 0 nb;
    lowU ← bigIntLowBit u na;
    lowV ← bigIntLowBit v nb;
    let shiftU := (lowU - 1)%nat in
    let shiftV := (lowV - 1)%nat in
    let common := (if shiftU <? shiftV then shiftU else shiftV)%nat in
    '(t, nu) ← bigIntShiftRight u na shiftU (calloc cap);
    u ← memcpy u 0 t 0 nu;
    '(t, nv) ← bigIntShiftRight v nb shiftV t;
    v ← memcpy v 0 t 0 nv;
    '(u, nu) ← loop (64 * cap + 1) gcd_body ((u, nu), (v, nv), t);
    bigIntShiftLeft u nu common out.

(** ** Conversion to a double

    The C result is [ldexp((double) mantissa, exponent)], 0.0 or [HUGE_VAL].
    The model keeps the integer pair: [ldexp] of an integer below [2^53] is
    exact, so [DScaled m e] denotes [m * 2^e] (rounded to infinity by [ldexp]
    when that reaches [2^1024]). *)
Inductive double_result :=
| DZero
| DHuge
| DScaled (mantissa exponent : Z).

(** [while (taken < 54 && bit > 0)]: the top bits into [mantissa]. *)
Definition take_bits_body (a : list Z) (na : nat) (st : Z * nat * nat)
    : option (Z * nat * nat + Z * nat * nat) :=
  let '(mantissa, taken, bit) := st in
  if (taken <? 54)%nat && (0 <? bit)%nat then
    let bit := (bit - 1)%nat in
    x ← bigIntBitAt a na bit;
    Some (inl (Z.lor (u64 (Z.shiftl mantissa 1)) x, S taken, bit))
  else Some (inr (mantissa, taken, bit)).

(** [for (i = bit; i > 0; i--) if (bitAt(i - 1)) { sticky = 1; break; }] *)
Fixpoint sticky_scan (a : list Z) (na i : nat) : option bool :=
  match i with
  | O => Some false
  | S j => x ← bigIntBitAt a na j; if x =? 0 then sticky_scan a na j else Some true
  end.

Definition bigIntToDouble (a : list Z) (na : nat) : option double_result :=
  bits ← bigIntHighBit a na;
  if (bits =? 0)%nat then Some DZero
  else if (1024 <? bits)%nat then Some DHuge
  else
    '(mantissa, taken, bit) ← loop 55 (take_bits_body a na) (0, O, bits);
    sticky ← sticky_scan a na bit;
    let exponent := (bits - taken)%nat in
    if (taken =? 54)%nat then
      let roundBit := Z.land mantissa 1 in
      let mantissa := Z.shiftr mantissa 1 in
      let exponent := S exponent in
      if negb (roundBit =? 0) && (sticky || negb (Z.land mantissa 1 =? 0)) then
        let mantissa := u64 (mantissa + 1) in
        if mantissa =? Z.shiftl 1 53 then
          Some (DScaled (Z.shiftr mantissa 1) (Z.of_nat (S exponent)))
        else Some (DScaled mantissa (Z.of_nat exponent))
      else Some (DScaled mantissa (Z.of_nat exponent))
    else Some (DScaled mantissa (Z.of_nat exponent)).

(** ** Proofs: shifts *)

Lemma bits_split (bits : nat) :
  2 ^ Z.of_nat bits = Bp (bits / 32) * 2 ^ Z.of_nat (bits mod 32).
Proof.
  rewrite Bp_pow2, <- Z.pow_add_r by lia. f_equal.
  pose proof (Nat.div_mod_eq bits 32). lia.
Qed.

Section ShiftLeft.
Context (a : list Z) (na ls : nat) (s : Z) (out0 : list Z).
Context (Ha : u32buf a) (Hla : (na <= length a)%nat) (Hs : 0 < s < 32).
Context (Hlen : (na + ls + 1 <= length out0)%nat).

Definition shiftLeft_inv (i : nat) (out : list Z) : Prop :=
  length out = length out0 /\ u32buf out /\
  pv out (S (ls + i)) = Bp ls * (pv a i * 2 ^ s) /\
  exists h, out !! (ls + i)%nat = Some h /\ 0 <= h < 2 ^ s.

Lemma shiftLeft_step i out :
  (i < na)%nat -> shiftLeft_inv i out ->
  exists out', shiftLeft_body a ls s i out = Some out' /\ shiftLeft_inv (S i) out'.
Proof.
  intros Hi (Hl & Hb & Hv & h & Hh & Hhr). unfold shiftLeft_body.
  destruct (lookup_Some_lt a i) as [x Hx]; [lia|]. step Hx. step Hh.
  pose proof (u32buf_lookup _ _ _ Ha Hx) as Hxr. destruct (shl_split s x Hs Hxr) as [Hsp Hm].
  pose proof (shl_hi_range s x Hs Hxr) as Hhi. pose proof (Z.pow_lt_mono_r 2 s 32 ltac:(lia) ltac:(lia) ltac:(lia)).
  assert (0 < 2 ^ s) by (apply Z.pow_pos_nonneg; lia).
  assert (0 < 2 ^ (32 - s)) by (apply Z.pow_pos_nonneg; lia).
  pose proof (Z.mod_pos_bound x (2 ^ (32 - s)) ltac:(lia)) as Hxm.
  assert (BASE = 2 ^ s * 2 ^ (32 - s)) as HB
    by (rewrite <- Z.pow_add_r by lia; by replace (s + (32 - s)) with 32 by lia).
  assert (Z.lor h (u32 (Z.shiftl x s)) = h + (x * 2 ^ s) mod BASE) as ->.
  { rewrite Z.shiftl_mul_pow2 by lia. change (u32 (x * 2 ^ s)) with ((x * 2 ^ s) mod BASE).
    rewrite Hm, Z.lor_comm, (Z.mul_comm (2 ^ s)), lor_mul_add by lia. lia. }
  assert (0 <= h + (x * 2 ^ s) mod BASE < BASE) as Hr1.
  { rewrite Hm. assert (2 ^ s * (x mod 2 ^ (32 - s) + 1) <= 2 ^ s * 2 ^ (32 - s)) by (apply Z.mul_le_mono_nonneg_l; lia).
    lia. }
  destruct (put_limb out (ls + i) _ Hb ltac:(lia) Hr1) as (o1 & Hp1 & Hb1 & Hl1 & _ & Hv1 & Ho1). step Hp1.
  rewrite Z.shiftr_div_pow2 by (unfold LIMB_BITS; lia). change (x / 2 ^ (LIMB_BITS - s)) with (shl_hi s x).
  replace (ls + i + 1)%nat with (S (ls + i)) by lia.
  destruct (put_limb o1 (S (ls + i)) (shl_hi s x) Hb1 ltac:(lia) ltac:(unfold BASE; lia))
    as (o2 & Hp2 & Hb2 & Hl2 & _ & Hv2 & Ho2). rewrite Hp2.
  exists o2. split; [done|]. unfold shiftLeft_inv. replace (ls + S i)%nat with (S (ls + i)) by lia.
  split; [lia|]. split; [done|]. split.
  - rewrite Hv2, Hv1. rewrite (pv_S _ _ _ Hh) in Hv. rewrite (pv_S _ _ _ Hx), Bp_S.
    assert (Bp ls * (Bp i * x * 2 ^ s) = Bp (ls + i) * ((x * 2 ^ s) mod BASE + BASE * shl_hi s x)) as E
      by (rewrite <- Hsp, Bp_add; ring). nia.
  - exists (shl_hi s x). split; [|done]. rewrite Ho2. apply list_lookup_insert_eq. lia.
Qed.
End ShiftLeft.

Lemma memset0_zero out n i o : memset0 out n = Some o -> (i < n)%nat -> o !! i = Some 0.
Proof.
  unfold memset0, blit. intros H Hi. case_decide; [|done]. simplify_eq. simpl.
  rewrite lookup_app_l by (rewrite length_replicate; lia). by apply lookup_replicate_2.
Qed.

Lemma blit_value out off seg :
  u32buf out -> u32buf seg -> (off + length seg <= length out)%nat ->
  exists o, blit out off seg = Some o /\ length o = length out /\ u32buf o /\
    pv o (off + length seg) = pv out off + Bp off * bval seg /\
    (forall j, (off + length seg <= j)%nat -> o !! j = out !! j).
Proof.
  intros Ho Hs Hl. rewrite blit_Some by done. eexists; split; [done|].
  assert (length (take off out) = off) as Ht by (rewrite length_take; lia). split_and!.
  - rewrite !length_app, length_drop. lia.
  - apply Forall_app; split; [by apply u32buf_take|]. apply Forall_app; split; [done|by apply Forall_drop].
  - unfold pv. rewrite app_assoc, take_app_length' by (rewrite length_app; lia).
    by rewrite bval_app, Ht.
  - intros j Hj. rewrite app_assoc, lookup_app_r by (rewrite length_app; lia).
    rewrite lookup_drop, length_app, Ht. f_equal. lia.
Qed.

Lemma bigIntShiftLeft_spec a na va bits out :
  mag a na va -> u32buf out -> (na + bits / 32 + 1 <= length out)%nat ->
  exists out' n, bigIntShiftLeft a na bits out = Some (out', n) /\
    nmag out' n (va * 2 ^ Z.of_nat bits) /\ length out' = length out.
Proof.
  intros (Hla & Ha & <-) Ho HL. unfold bigIntShiftLeft.
  destruct (Nat.eqb_spec na 0) as [->|Hna].
  { exists out, O. split; [done|]. split; [|done]. rewrite pv_0. apply nmag_intro; [lia|done|by left|done]. }
  set (ls := (bits / 32)%nat) in *. set (total := (na + ls + 1)%nat).
  destruct (memset0_spec out total Ho ltac:(lia)) as (o & Hm & Hlo & Hbo & Hvo & _). step Hm.
  rewrite bits_split. fold ls.
  destruct (Nat.eqb_spec (bits mod 32) 0) as [->|Hb].
  - unfold memcpy. rewrite slice_Some by lia. simpl. rewrite drop_0.
    destruct (blit_value o ls (take na a)) as (o' & Hbl & Hl' & Hb' & Hv' & Hfr);
      [done|by apply u32buf_take|rewrite length_take; lia|].
    rewrite Hbl. cbn [mbind option_bind].
    destruct (bigIntNormalize_spec o' total) as (n & Hn & _ & Hmag); [lia|done|]. step Hn.
    exists o', n. split; [done|]. split; [|lia].
    rewrite length_take in *. replace (na `min` length a)%nat with na in * by lia.
    assert (o' !! (ls + na)%nat = Some 0) as H0.
    { rewrite Hfr by lia. apply (memset0_zero out total); [done|lia]. }
    replace total with (S (ls + na)) in Hmag by lia.
    rewrite (pv_S _ _ _ H0), Hv' in Hmag.
    assert (pv o ls = 0) as E.
    { pose proof (pv_mono o ls total Hbo ltac:(lia)). pose proof (pv_bound o ls Hbo). lia. }
    change (2 ^ Z.of_nat 0) with 1.
    replace (pv a na * (Bp ls * 1)) with (pv o ls + Bp ls * bval (take na a) + Bp (ls + na) * 0)
      by (rewrite E; unfold pv; ring). done.
  - pose proof (Nat.mod_upper_bound bits 32 ltac:(lia)).
    destruct (for_up_rule (shiftLeft_inv a ls (Z.of_nat (bits mod 32)) o) na 0
      (shiftLeft_body a ls (Z.of_nat (bits mod 32))) o) as (o' & Hf & Hl' & Hb' & Hv' & _).
    { split; [done|]. split; [done|]. rewrite Nat.add_0_r. split.
      - rewrite pv_0. pose proof (pv_mono o (S ls) total Hbo ltac:(lia)). pose proof (pv_bound o (S ls) Hbo). lia.
      - exists 0. split; [|split; [lia|apply Z.pow_pos_nonneg; lia]]. apply (memset0_zero out total); [done|lia]. }
    { intros j t Hj. apply (shiftLeft_step a na); auto; lia. }
    step Hf. destruct (bigIntNormalize_spec o' total) as (n & Hn & _ & Hmag); [lia|done|]. step Hn.
    exists o', n. split; [done|]. split; [|lia]. simpl in Hv'.
    replace total with (S (ls + na)) in Hmag by lia. rewrite Hv' in Hmag.
    replace (pv a na * _) with (Bp ls * (pv a na * 2 ^ Z.of_nat (bits mod 32))) by ring. done.
Qed.

Section ShiftRight.
Context (a : list Z) (na ls : nat) (s : Z).
Context (Ha : u32buf a) (Hla : (na <= length a)%nat) (Hs : 0 < s < 32).

(** The limbs that survive the limb shift. *)
Definition tail_limbs : list Z := drop ls (take na a).

Lemma tail_nth i : (ls + i < na)%nat -> exists x, a !! (ls + i)%nat = Some x /\ nth i tail_limbs 0 = x.
Proof.
  intros Hi. destruct (lookup_Some_lt a (ls + i)) as [x Hx]; [lia|]. exists x. split; [done|].
  apply nth_lookup_Some. unfold tail_limbs. by rewrite lookup_drop, lookup_take_lt by lia.
Qed.

Lemma tail_nth_out i : (na <= ls + i)%nat -> nth i tail_limbs 0 = 0.
Proof.
  intros Hi. apply nth_overflow. unfold tail_limbs. rewrite length_drop, length_take. lia.
Qed.

Lemma u32buf_tail : u32buf tail_limbs.
Proof. apply Forall_drop, u32buf_take, Ha. Qed.

Lemma shiftRight_put i out :
  (ls + i < na)%nat -> (i < length out)%nat ->
  shiftRight_body a na ls s i out = put out i (shr_limb s (nth i tail_limbs 0) (nth (S i) tail_limbs 0)).
Proof.
  intros Hi Hl. unfold shiftRight_body. destruct (tail_nth i Hi) as (x & Hx & ->). step Hx.
  pose proof (u32buf_lookup _ _ _ Ha Hx) as Hxr. step (put_Some out i (Z.shiftr x s) Hl).
  destruct (Nat.ltb_spec (ls + i + 1) na).
  - rewrite (list_lookup_insert_eq out i) by done. cbn [mbind option_bind].
    destruct (tail_nth (S i)) as (y & Hy & ->); [lia|].
    replace (ls + i + 1)%nat with (ls + S i)%nat by lia. step Hy.
    rewrite (proj1 (shr_limb_lor s x y Hs Hxr (u32buf_lookup _ _ _ Ha Hy))).
    rewrite !put_Some by (rewrite ?length_insert; lia). by rewrite list_insert_insert_eq.
  - rewrite tail_nth_out by lia. rewrite put_Some by lia. do 2 f_equal. unfold shr_limb.
    rewrite Z.mod_0_l, Z.shiftr_div_pow2 by (try apply Z.pow_nonzero; lia). lia.
Qed.
End ShiftRight.

Lemma pv_take_shift a na ls :
  u32buf a -> (na <= length a)%nat -> (ls < na)%nat ->
  pv (tail_limbs a na ls) (na - ls) = pv a na / Bp ls.
Proof.
  intros Ha Hla Hls. replace na with (ls + (na - ls))%nat at 3 by lia. rewrite pv_drop by lia.
  assert (pv (tail_limbs a na ls) (na - ls) = pv (drop ls a) (na - ls)) as ->.
  { unfold pv, tail_limbs. rewrite !take_drop_commute, take_take. do 3 f_equal. lia. }
  pose proof (pv_bound a ls Ha). apply (Z.div_unique _ _ _ (pv a ls)); lia.
Qed.

(** Buffers filled limb by limb are buffers of limbs. *)
Lemma u32buf_fill out out' n (f : nat -> Z) :
  u32buf out -> (forall j, (j < n)%nat -> out' !! j = Some (f j)) ->
  (forall j, (n <= j)%nat -> out' !! j = out !! j) -> (forall j, (j < n)%nat -> 0 <= f j < BASE) -> u32buf out'.
Proof.
  intros Ho H1 H2 Hf. apply u32buf_by_lookup. intros i x Hx. destruct (decide (i < n)%nat).
  - rewrite H1 in Hx by done. simplify_eq. by apply Hf.
  - rewrite H2 in Hx by lia. by apply (u32buf_lookup out i).
Qed.

(** The moved limbs, before normalization. *)
Lemma shiftRight_move a na ls b out :
  u32buf a -> (na <= length a)%nat -> (ls < na)%nat -> (b < 32)%nat -> u32buf out -> (na <= length out)%nat ->
  let total := (na - ls)%nat in
  exists o, (if (b =? 0)%nat then memcpy out 0 a ls total
             else for_up total 0 (shiftRight_body a na ls (Z.of_nat b)) out) = Some o /\
    length o = length out /\ u32buf o /\
    pv o total = pv (tail_limbs a na ls) total / 2 ^ Z.of_nat b.
Proof.
  intros Ha Hla Hls Hb32 Ho HL total. assert (0 < 2 ^ Z.of_nat b) by (apply Z.pow_pos_nonneg; lia).
  destruct (Nat.eqb_spec b 0) as [->|Hb].
  - unfold memcpy. rewrite slice_Some by lia. cbn [mbind option_bind].
    assert (u32buf (take total (drop ls a))) by (apply u32buf_take, Forall_drop, Ha).
    assert (length (take total (drop ls a)) = total) as Ht by (rewrite length_take, length_drop; lia).
    destruct (blit_value out 0 (take total (drop ls a))) as (o & Hbl & Hl & Hb & Hv & _); [done|done|lia|].
    exists o. split; [done|]. split; [done|]. split; [done|].
    rewrite Ht in Hv. simpl in Hv. rewrite Hv. change (2 ^ Z.of_nat 0) with 1. rewrite Z.div_1_r, pv_0, Bp_0.
    unfold pv, tail_limbs. rewrite !take_drop_commute, take_take.
    replace ((ls + total) `min` na)%nat with (ls + total)%nat by lia. lia.
  - set (s := Z.of_nat b) in *.
    assert (0 < s < 32) as Hs by lia. pose proof (u32buf_tail a na ls Ha) as Htb.
    destruct (for_up_fill total (fun j => shr_limb s (nth j (tail_limbs a na ls) 0) (nth (S j) (tail_limbs a na ls) 0))
      (shiftRight_body a na ls s) out) as (o & Hf & Hl & Hi & Hr); [|lia|].
    { intros j o Hj Hlo. apply shiftRight_put; auto; lia. }
    exists o. split; [done|]. split; [done|]. split.
    { apply (u32buf_fill out o total _ Ho Hi Hr). intros j _. apply shr_limb_lor; auto using nth_limb. }
    pose proof (shr_value s (tail_limbs a na ls) o total Hs Htb) as Hv.
    specialize (Hv ltac:(unfold tail_limbs; rewrite length_drop, length_take; lia) Hi).
    rewrite (tail_nth_out a na ls Hla total), Z.mod_0_l, Z.mul_0_r in Hv by (try apply Z.pow_nonzero; lia).
    pose proof (Z.mod_pos_bound (nth 0 (tail_limbs a na ls) 0) (2 ^ s) ltac:(lia)).
    apply (Z.div_unique _ _ _ (nth 0 (tail_limbs a na ls) 0 mod 2 ^ s)); lia.
Qed.

Lemma bigIntShiftRight_spec a na va bits out :
  mag a na va -> u32buf out -> (na <= length out)%nat ->
  exists out' n, bigIntShiftRight a na bits out = Some (out', n) /\
    nmag out' n (va / 2 ^ Z.of_nat bits) /\ length out' = length out.
Proof.
  intros HA Ho HL. pose proof HA as (Hla & Ha & <-). unfold bigIntShiftRight.
  rewrite bits_split. set (ls := (bits / 32)%nat) in *.
  assert (0 < 2 ^ Z.of_nat (bits mod 32)) by (apply Z.pow_pos_nonneg; lia).
  destruct ((na =? 0)%nat || (na <=? ls)%nat) eqn:Hc.
  { exists out, O. split; [done|]. split; [|done]. apply nmag_intro; [lia|done|by left|].
    assert (na <= ls)%nat by (apply orb_true_iff in Hc as [->%Nat.eqb_eq|?%Nat.leb_le]; lia).
    pose proof (pv_bound a na Ha). pose proof (Bp_mono na ls ltac:(lia)).
    rewrite pv_0, Z.div_small; [done|]. nia. }
  apply orb_false_iff in Hc as [?%Nat.eqb_neq ?%Nat.leb_gt].
  rewrite <- Z.div_div by (pose proof (Bp_pos ls); lia). rewrite <- pv_take_shift by (done || lia).
  set (total := (na - ls)%nat) in *.
  destruct (shiftRight_move a na ls (bits mod 32) out) as (o & Hf & Hl & Hb & Hv);
    auto; [apply Nat.mod_upper_bound; lia|]. fold total in Hf, Hv.
  rewrite Hf. cbn [mbind option_bind].
  destruct (bigIntNormalize_spec o total) as (n & Hn & _ & Hmag); [lia|done|]. step Hn.
  rewrite Hv in Hmag. eauto.
Qed.

(** ** Proofs: bit queries *)

Lemma pow2_pos n : 0 < 2 ^ Z.of_nat n.
Proof. apply Z.pow_pos_nonneg; lia. Qed.

Lemma pow2_S n : 2 ^ Z.of_nat (S n) = 2 * 2 ^ Z.of_nat n.
Proof. rewrite Nat2Z.inj_succ, Z.pow_succ_r; lia. Qed.

(** [b] is the number of bits of [v]: [2^(b-1) <= v < 2^b], and 0 for zero. *)
Definition bit_length (v : Z) (b : nat) : Prop :=
  v < 2 ^ Z.of_nat b /\ ((0 < b)%nat -> 2 ^ Z.of_nat (pred b) <= v).

Lemma highBit_loop top :
  0 <= top < BASE -> exists b, loop 33 highBit_body (top, O) = Some b /\ bit_length top b.
Proof.
  intros Ht.
  apply (loop_rule (fun '(t, b) => t = top / 2 ^ Z.of_nat b /\ (b <= 32)%nat /\
      ((0 < b)%nat -> 2 ^ Z.of_nat (pred b) <= top)) _ (fun st => (32 - st.2)%nat)); [| |simpl; lia].
  - change (2 ^ Z.of_nat 0) with 1. rewrite Z.div_1_r. lia.
  - intros [t b] (-> & Hb & Hlow). unfold highBit_body. pose proof (pow2_pos b).
    pose proof (Z.div_mod top (2 ^ Z.of_nat b) ltac:(lia)) as Hdm.
    pose proof (Z.mod_pos_bound top (2 ^ Z.of_nat b) ltac:(lia)).
    destruct (Z.eqb_spec (top / 2 ^ Z.of_nat b) 0) as [E|E].
    + eexists; split; [done|]. split; [rewrite E in Hdm; lia|done].
    + assert (1 <= top / 2 ^ Z.of_nat b) by (pose proof (Z.div_pos top (2 ^ Z.of_nat b)); lia).
      assert (2 ^ Z.of_nat b <= top) by nia.
      eexists; split; [done|]. simpl. split; [split_and!|].
      * rewrite Z.shiftr_div_pow2, Z.pow_1_r, Z.div_div by lia. f_equal.
        change (Z.pos (Pos.of_succ_nat b)) with (Z.of_nat (S b)). rewrite pow2_S. lia.
      * assert (b <> 32)%nat; [|lia]. intros ->. unfold BASE in *. simpl Z.of_nat in *. lia.
      * intros _. done.
      * assert (b <> 32)%nat; [|lia]. intros ->. unfold BASE in *. simpl Z.of_nat in *. lia.
Qed.

Lemma bigIntHighBit_spec a na va :
  nmag a na va -> exists b, bigIntHighBit a na = Some b /\ bit_length va b.
Proof.
  intros HA. unfold bigIntHighBit. destruct (Nat.eqb_spec na 0) as [->|Hna].
  { exists O. split; [done|]. destruct HA as [(_ & _ & <-) _]. split; [by rewrite pv_0|lia]. }
  destruct HA as [(Hla & Ha & <-) [?|(x & Hx & Hne)]]; [done|].
  replace (na - 1)%nat with (pred na) by lia. step Hx. pose proof (u32buf_lookup _ _ _ Ha Hx) as Hxr.
  destruct (highBit_loop x Hxr) as (b & Hb & Hlt & Hge). step Hb.
  eexists; split; [done|]. destruct na as [|n]; [done|]. simpl pred in *. rewrite (pv_S _ _ _ Hx).
  pose proof (pv_bound a n Ha) as Hpb. pose proof (Bp_pos n).
  assert (forall k, 2 ^ Z.of_nat (n * 32 + k) = Bp n * 2 ^ Z.of_nat k) as Hpow.
  { intros k. rewrite Bp_pow2, <- Z.pow_add_r by lia. f_equal. lia. }
  destruct b as [|b]; [simpl in Hlt; lia|]. split.
  - rewrite Hpow. assert (Bp n * (x + 1) <= Bp n * 2 ^ Z.of_nat (S b)) by (apply Z.mul_le_mono_nonneg_l; lia). lia.
  - intros _. replace (pred (n * 32 + S b)) with (n * 32 + b)%nat by lia. rewrite Hpow.
    specialize (Hge ltac:(lia)). simpl pred in Hge.
    assert (Bp n * 2 ^ Z.of_nat b <= Bp n * x) by (apply Z.mul_le_mono_nonneg_l; lia). lia.
Qed.

(** [k] is the 1-based position of the lowest set bit of [v]. *)
Definition low_bit (v : Z) (k : nat) : Prop :=
  (1 <= k)%nat /\ exists m, v = 2 ^ Z.of_nat (pred k) * m /\ Z.odd m = true.

Lemma land_1 x : Z.land x 1 = x mod 2.
Proof. change 1 with (Z.ones 1). by rewrite Z.land_ones. Qed.

Lemma lowBit_loop x :
  0 < x < BASE -> exists k, loop 33 lowBit_limb_body (x, 1%nat) = Some k /\ low_bit x k /\ (k <= 32)%nat.
Proof.
  intros Hx.
  apply (loop_rule (fun '(l, b) => (1 <= b <= 32)%nat /\ 0 < l /\ x = 2 ^ Z.of_nat (pred b) * l) _
           (fun st => (32 - st.2)%nat)); [| |simpl; lia].
  - simpl pred. change (2 ^ Z.of_nat 0) with 1. lia.
  - intros [l b] (Hb & Hl & He). unfold lowBit_limb_body. rewrite land_1, Zmod_odd.
    destruct (Z.odd l) eqn:Ho; simpl.
    + eexists; split; [done|]. simpl. split; [|lia]. split; [lia|]. exists l. done.
    + apply (f_equal negb) in Ho. rewrite Z.negb_odd in Ho. apply Z.even_spec in Ho as [h ->].
      eexists; split; [done|]. simpl. rewrite Z.shiftr_div_pow2, Z.pow_1_r, Z.mul_comm, Z.div_mul by lia.
      destruct b as [|b]; [lia|]. simpl pred in *. rewrite pow2_S.
      assert (b <> 31)%nat by (intros ->; unfold BASE in *; simpl Z.of_nat in *; lia).
      split; [|lia]. split; [lia|]. split; [lia|]. lia.
Qed.

Lemma lowBit_scan_spec a i k :
  u32buf a -> (i + k <= length a)%nat -> pv a i = 0 ->
  exists n, lowBit_scan a i k = Some n /\
    (pv a (i + k) = 0 -> n = 0%nat) /\ (pv a (i + k) <> 0 -> low_bit (pv a (i + k)) n).
Proof.
  intros Ha. revert i. induction k as [|k IH]; intros i Hl H0; cbn [lowBit_scan].
  { rewrite Nat.add_0_r, H0. exists O. naive_solver. }
  destruct (lookup_Some_lt a i) as [x Hx]; [lia|]. step Hx. pose proof (u32buf_lookup _ _ _ Ha Hx) as Hxr.
  replace (i + S k)%nat with (S i + k)%nat by lia.
  destruct (Z.eqb_spec x 0) as [->|Hne].
  { apply IH; [lia|]. rewrite (pv_S _ _ _ Hx). lia. }
  destruct (lowBit_loop x ltac:(lia)) as (b & Hb & (Hb1 & m & Hm & Ho) & Hb32). step Hb.
  rewrite pv_drop by lia. rewrite (pv_S _ _ _ Hx), H0, Bp_S.
  pose proof (pv_bound (drop (S i) a) k ltac:(by apply Forall_drop)) as Hr. set (r := pv (drop (S i) a) k) in *.
  pose proof (Bp_pos i). eexists; split; [done|]. split; [unfold BASE in *; nia|]. intros _. split; [lia|].
  exists (m + 2 ^ Z.of_nat (32 - pred b) * r). split.
  - replace (pred (i * 32 + b)) with (i * 32 + pred b)%nat by lia.
    rewrite Nat2Z.inj_add, Z.pow_add_r by lia. replace (2 ^ Z.of_nat (i * 32)) with (Bp i) by (rewrite Bp_pow2; f_equal; lia).
    assert (BASE = 2 ^ Z.of_nat (pred b) * 2 ^ Z.of_nat (32 - pred b)) as HB
      by (rewrite <- Z.pow_add_r by lia; unfold BASE; f_equal; lia).
    rewrite HB, Hm. ring.
  - destruct (32 - pred b)%nat as [|d] eqn:E; [lia|]. rewrite pow2_S.
    rewrite Z.odd_add, <- Z.mul_assoc, Z.odd_mul, Ho. done.
Qed.

Lemma bigIntLowBit_spec a na va :
  mag a na va -> exists n, bigIntLowBit a na = Some n /\ (va = 0 -> n = 0%nat) /\ (va <> 0 -> low_bit va n).
Proof. intros (Hl & Ha & <-). by apply (lowBit_scan_spec a 0 na). Qed.

(** ** Population count *)

(** The number of ones among the low [n] bits of [v]. *)
Fixpoint popcount (n : nat) (v : Z) : Z :=
  match n with
  | O => 0
  | S n => v mod 2 + popcount n (v / 2)
  end.

Lemma popcount_0 n : popcount n 0 = 0.
Proof. induction n; [done|]. simpl. by rewrite Z.mod_0_l, Z.div_0_l by lia. Qed.

Lemma popcount_app n m v w :
  0 <= v < 2 ^ Z.of_nat n -> popcount (n + m) (v + 2 ^ Z.of_nat n * w) = popcount n v + popcount m w.
Proof.
  revert v. induction n as [|n IH]; intros v Hv.
  - change (2 ^ Z.of_nat 0) with 1 in *. cbn [Nat.add popcount]. replace v with 0 by lia.
    by rewrite Z.mul_1_l, !Z.add_0_l.
  - cbn [Nat.add popcount]. rewrite pow2_S in *.
    replace (v + 2 * 2 ^ Z.of_nat n * w) with (v + (2 ^ Z.of_nat n * w) * 2) by ring.
    rewrite Z.mod_add, Z.div_add by lia. rewrite IH; [lia|].
    split; [apply Z.div_pos; lia|apply Z.div_lt_upper_bound; lia].
Qed.

Lemma bitCount_limb x c :
  0 <= x < BASE -> loop 33 bitCount_limb_body (x, c) = Some (c + popcount 32 x).
Proof.
  intros Hx. remember (c + popcount 32 x) as T eqn:HT.
  destruct (loop_rule (fun '(l, n) => exists k, (k <= 32)%nat /\ 0 <= l < 2 ^ Z.of_nat k /\ n + popcount k l = T)
    (fun n => n = T) (fun st => Z.to_nat (Z.log2 (2 * st.1))) 33 bitCount_limb_body (x, c)) as (n & Hl & ->); [| | |done].
  - exists 32%nat. done.
  - intros [l n] (k & Hk & Hl & Hp). unfold bitCount_limb_body. rewrite land_1.
    destruct (Z.eqb_spec l 0) as [->|Hne].
    + eexists; split; [done|]. rewrite popcount_0 in Hp. cbv beta iota. lia.
    + destruct k as [|k]; [change (2 ^ Z.of_nat 0) with 1 in Hl; lia|]. cbn [popcount] in Hp. rewrite pow2_S in Hl.
      eexists; split; [done|]. cbn [fst]. rewrite Z.shiftr_div_pow2, Z.pow_1_r by lia. split.
      * exists k. split; [lia|]. split; [|lia]. split; [apply Z.div_pos; lia|apply Z.div_lt_upper_bound; lia].
      * rewrite (Z.log2_double l) by lia. pose proof (Z.log2_nonneg l).
        destruct (Z.eq_dec l 1) as [->|]; [vm_compute; lia|].
        assert (1 <= l / 2) by (apply Z.div_le_lower_bound; lia).
        rewrite Z.log2_double by lia. rewrite <- Z.div2_div, Z.div2_spec, Z.log2_shiftr by lia.
        assert (1 <= Z.log2 l) by (change 1 with (Z.log2 2); apply Z.log2_le_mono; lia). lia.
  - cbn [fst]. destruct (Z.eq_dec x 0) as [->|]; [simpl; lia|]. rewrite Z.log2_double by lia.
    pose proof (Z.log2_lt_pow2 x 32 ltac:(lia)). pose proof (Z.log2_nonneg x). unfold BASE in *. lia.
Qed.

Lemma bigIntBitCount_spec a na va :
  mag a na va -> bigIntBitCount a na = Some (popcount (na * 32) va).
Proof.
  intros (Hl & Ha & <-). unfold bigIntBitCount.
  destruct (for_up_rule (fun i c => c = popcount (i * 32) (pv a i)) na 0 (bitCount_body a) 0) as (c & Hf & ->); [done| |done].
  intros i c Hi ->. unfold bitCount_body. destruct (lookup_Some_lt a i) as [x Hx]; [lia|]. step Hx.
  rewrite bitCount_limb by (by apply (u32buf_lookup a i)). eexists; split; [done|].
  rewrite (pv_S _ _ _ Hx). replace (S i * 32)%nat with (i * 32 + 32)%nat by lia.
  replace (Bp i) with (2 ^ Z.of_nat (i * 32)) by (rewrite Bp_pow2; f_equal; lia).
  rewrite popcount_app; [done|]. replace (2 ^ Z.of_nat (i * 32)) with (Bp i) by (rewrite Bp_pow2; f_equal; lia).
  by apply pv_bound.
Qed.

Lemma bigIntBitAt_spec a na va index :
  mag a na va -> bigIntBitAt a na index = Some (Z.b2z (Z.testbit va (Z.of_nat index))).
Proof.
  intros (Hl & Ha & <-). unfold bigIntBitAt. pose proof (Nat.div_mod_eq index 32) as Hdm.
  pose proof (Nat.mod_upper_bound index 32 ltac:(lia)) as Hmb.
  set (l := (index / 32)%nat) in *. set (j := (index mod 32)%nat) in *.
  replace (Z.of_nat index) with (Z.of_nat j + 32 * Z.of_nat l) by lia.
  rewrite <- Z.div_pow2_bits, <- Bp_pow2 by lia.
  destruct (Nat.leb_spec na l).
  - pose proof (pv_bound a na Ha). pose proof (Bp_mono na l ltac:(lia)).
    rewrite Z.div_small by lia. by rewrite Z.bits_0.
  - destruct (lookup_Some_lt a l) as [x Hx]; [lia|]. step Hx. pose proof (u32buf_lookup _ _ _ Ha Hx) as Hxr.
    replace na with (l + S (na - S l))%nat by lia. rewrite pv_drop by lia. pose proof (pv_bound a l Ha).
    rewrite (Z.mul_comm (Bp l)), Z.div_add, Z.div_small, Z.add_0_l by lia.
    rewrite (drop_S a x l Hx). unfold pv. cbn [take bval]. set (r := bval _).
    rewrite <- (Z.mod_pow2_bits_low (x + BASE * r) 32) by lia.
    replace ((x + BASE * r) mod 2 ^ 32) with x.
    + rewrite land_1, Z.shiftr_div_pow2 by lia. f_equal. by rewrite Z.testbit_spec' by lia.
    + rewrite (Z.mul_comm BASE). change BASE with (2 ^ 32). rewrite Z.mod_add, Z.mod_small by (unfold BASE in *; lia). done.
Qed.

(** ** Proofs: gcd *)

Lemma gcd_2_odd d : Z.odd d = true -> Z.gcd d 2 = 1.
Proof.
  intros Ho. apply Z.odd_spec in Ho as [k ->].
  rewrite Z.gcd_comm, Z.add_comm, (Z.mul_comm 2), Z.gcd_add_mult_diag_r. done.
Qed.

Lemma gcd_double_odd u x : Z.odd u = true -> Z.gcd u (2 * x) = Z.gcd u x.
Proof.
  intros Ho. apply Z.gcd_unique; [apply Z.gcd_nonneg|apply Z.gcd_divide_l|apply Z.divide_mul_r, Z.gcd_divide_r|].
  intros d Hd1 Hd2. apply Z.gcd_greatest; [done|]. apply (Z.gauss d 2); [done|]. apply gcd_2_odd.
  destruct Hd1 as [c ->]. rewrite Z.odd_mul in Ho. by apply andb_true_iff in Ho as [_ ?].
Qed.

Lemma gcd_pow2_odd u x n : Z.odd u = true -> Z.gcd u (2 ^ Z.of_nat n * x) = Z.gcd u x.
Proof.
  intros Ho. induction n as [|n IH]; [by rewrite Z.mul_1_l|].
  by rewrite pow2_S, <- Z.mul_assoc, gcd_double_odd.
Qed.

Lemma gcd_common_pow2 s t x y :
  Z.odd x = true -> Z.odd y = true ->
  Z.gcd (2 ^ Z.of_nat s * x) (2 ^ Z.of_nat t * y) = 2 ^ Z.of_nat (s `min` t) * Z.gcd x y.
Proof.
  intros Hx Hy. pose proof (pow2_pos s). pose proof (pow2_pos t). destruct (Nat.le_ge_cases s t).
  - replace (s `min` t)%nat with s by lia. replace t with (s + (t - s))%nat by lia.
    rewrite Nat2Z.inj_add, Z.pow_add_r, <- Z.mul_assoc, Z.gcd_mul_mono_l_nonneg by lia.
    by rewrite gcd_pow2_odd.
  - replace (s `min` t)%nat with t by lia. replace s with (t + (s - t))%nat by lia.
    rewrite Nat2Z.inj_add, Z.pow_add_r, <- Z.mul_assoc, Z.gcd_mul_mono_l_nonneg by lia.
    by rewrite Z.gcd_comm, gcd_pow2_odd, Z.gcd_comm.
Qed.

(** One subtraction round: [U <= V] odd, [V - U = 2^j * m] with [m] odd. *)
Lemma stein_round U V j m :
  0 < U -> U < V -> Z.odd U = true -> Z.odd V = true -> V - U = 2 ^ Z.of_nat j * m -> Z.odd m = true ->
  0 < m /\ Z.gcd U m = Z.gcd U V /\ Z.log2 m < Z.log2 V /\ (V - U) / 2 ^ Z.of_nat j = m.
Proof.
  intros HU Hlt Ho1 Ho2 Hd Hm. pose proof (pow2_pos j).
  assert (0 < m) by nia. split; [done|]. split; [|split].
  - rewrite <- (gcd_pow2_odd U m j Ho1), <- Hd. replace (V - U) with (V + (-1) * U) by lia.
    by rewrite Z.gcd_add_mult_diag_r.
  - destruct j as [|j].
    + exfalso. apply (f_equal Z.odd) in Hd. rewrite Z.odd_sub, Ho1, Ho2, Z.odd_mul, Hm in Hd. done.
    + assert (2 * m <= V). { rewrite pow2_S in *. pose proof (pow2_pos j). nia. }
      pose proof (Z.log2_le_mono (2 * m) V ltac:(lia)). rewrite Z.log2_double in * by lia. lia.
  - rewrite Hd, Z.mul_comm. apply Z.div_mul. lia.
Qed.

Section Stein.
Context (cap : nat) (G : Z).

(** The loop invariant of the C comment: [u] and [v] odd and nonzero, with
    the gcd unchanged. *)
Definition gcd_inv (st : list Z * nat * (list Z * nat) * list Z) : Prop :=
  let '((u, nu), (v, nv), t) := st in
  length u = cap /\ length v = cap /\ length t = cap /\ u32buf t /\
  exists U V, nmag u nu U /\ nmag v nv V /\ 0 < U /\ 0 < V /\
    Z.odd U = true /\ Z.odd V = true /\ Z.gcd U V = G.

Definition gcd_measure (st : list Z * nat * (list Z * nat) * list Z) : nat :=
  let '((u, nu), (v, nv), t) := st in Z.to_nat (Z.log2 (pv u nu) + Z.log2 (pv v nv)).

(** A round on operands already in order. *)
Lemma gcd_round u nu U v nv V t :
  length u = cap -> length v = cap -> length t = cap -> u32buf t ->
  nmag u nu U -> nmag v nv V -> 0 < U <= V -> Z.odd U = true -> Z.odd V = true -> Z.gcd U V = G ->
  exists r,
    ('(t, nt) ← bigIntSub v nv u nu t;
     if (nt =? 0)%nat then Some (inr (u, nu))
     else
       low ← bigIntLowBit t nt;
       '(v, nv) ← bigIntShiftRight t nt (low - 1) v;
       Some (inl ((u, nu), (v, nv), t))) = Some r /\
    match r with
    | inl t' => gcd_inv t' /\ (gcd_measure t' < Z.to_nat (Z.log2 U + Z.log2 V))%nat
    | inr (u', nu') => nmag u' nu' G /\ length u' = cap
    end.
Proof.
  intros Hlu Hlv Hlt Htb HU HV Hord HoU HoV HG.
  destruct (bigIntSub_spec v nv V u nu U t HV HU ltac:(lia) Htb) as (t' & nt & Hs & Ht & Hlt');
    [destruct HV as [(? & _) _]; lia|]. step Hs.
  destruct (Nat.eqb_spec nt 0) as [->|Hnt].
  - exists (inr (u, nu)). split; [done|]. split; [|done].
    assert (V - U = 0) by (by apply (nmag_zero _ _ _ Ht)). replace G with U; [done|].
    rewrite <- HG. replace V with U by lia. rewrite Z.gcd_diag. lia.
  - destruct (bigIntLowBit_spec t' nt (V - U) (proj1 Ht)) as (k & Hk & _ & Hlow). step Hk.
    assert (V - U <> 0) as Hd by (intros E; by apply (nmag_zero _ _ _ Ht) in E).
    destruct (Hlow Hd) as (Hk1 & m & Hm & Hmo).
    destruct (stein_round U V (pred k) m) as (Hmp & Hgm & Hlog & Hdiv); auto; try lia.
    destruct (bigIntShiftRight_spec t' nt (V - U) (k - 1) v (proj1 Ht)) as (v' & nv' & Hsr & Hv' & Hlv');
      [apply HV|destruct Ht as [(? & _) _]; lia|]. step Hsr.
    replace (k - 1)%nat with (pred k) in Hv' by lia. rewrite Hdiv in Hv'.
    eexists; split; [done|]. split.
    + split; [done|]. split; [lia|]. split; [lia|]. split; [apply Ht|].
      exists U, m. split_and!; auto; try lia.
    + unfold gcd_measure. destruct HU as [(_ & _ & ->) _], Hv' as [(_ & _ & ->) _].
      pose proof (Z.log2_nonneg U). pose proof (Z.log2_nonneg m). lia.
Qed.

Lemma gcd_step st :
  gcd_inv st -> exists r, gcd_body st = Some r /\
    match r with
    | inl t' => gcd_inv t' /\ (gcd_measure t' < gcd_measure st)%nat
    | inr (u', nu') => nmag u' nu' G /\ length u' = cap
    end.
Proof.
  destruct st as [[[u nu] [v nv]] t]. intros (Hlu & Hlv & Hlt & Htb & U & V & HU & HV & HUp & HVp & HoU & HoV & HG).
  unfold gcd_body. step (bigIntCompare_spec _ _ _ _ _ _ HU HV).
  replace (0 <? sign_of_compare (U ?= V)) with (V <? U)
    by (rewrite (Z.compare_antisym V U); unfold Z.ltb; by destruct (V ?= U)).
  assert (gcd_measure ((u, nu), (v, nv), t) = Z.to_nat (Z.log2 U + Z.log2 V)) as Hme
    by (unfold gcd_measure; by destruct HU as [(_ & _ & ->) _], HV as [(_ & _ & ->) _]).
  rewrite Hme. destruct (Z.ltb_spec V U).
  - rewrite (Z.add_comm (Z.log2 U)). apply gcd_round; auto; [lia|]. by rewrite Z.gcd_comm.
  - apply gcd_round; auto; lia.
Qed.
End Stein.

(** The room [bigIntGcd] needs in [out]; the header's [min(na, nb)] is one
    limb short (and too small when an operand is zero). *)
Definition gcd_capacity (na nb : nat) : nat :=
  if (na =? 0)%nat then nb else if (nb =? 0)%nat then na else (na `min` nb + 1)%nat.

(** An operand made odd: copied, its trailing zeros counted and shifted out
    through the scratch buffer [t], and copied back. *)
Lemma make_odd a na va t cap :
  nmag a na va -> 0 < va -> (na <= cap)%nat -> u32buf t -> length t = cap ->
  exists u low t' n u' m,
    memcpy (calloc cap) 0 a 0 na = Some u /\ bigIntLowBit u na = Some low /\
    bigIntShiftRight u na (low - 1) t = Some (t', n) /\ memcpy u 0 t' 0 n = Some u' /\
    length t' = cap /\ u32buf t' /\ length u' = cap /\
    nmag u' n m /\ 0 < m /\ Z.odd m = true /\ va = 2 ^ Z.of_nat (low - 1) * m.
Proof.
  intros HA Hva Hna Ht Hlt.
  destruct (copy_norm a na va (calloc cap) HA (u32buf_calloc cap)) as (u & Hc & HU & Hlu);
    [rewrite length_calloc; lia|]. rewrite length_calloc in Hlu.
  destruct (bigIntLowBit_spec u na va (proj1 HU)) as (low & Hlow & _ & Hlb).
  destruct (Hlb ltac:(lia)) as (Hl1 & m & Hm & Ho). pose proof (pow2_pos (pred low)).
  assert (0 < m) by nia.
  destruct (bigIntShiftRight_spec u na va (low - 1) t (proj1 HU) Ht ltac:(lia)) as (t' & n & Hsr & Ht' & Hlt').
  replace (va / 2 ^ Z.of_nat (low - 1)) with m in Ht'.
  2: { replace (low - 1)%nat with (pred low) by lia. rewrite Hm, Z.mul_comm, Z.div_mul; lia. }
  destruct (copy_norm t' n m u Ht' ltac:(apply HU)) as (u' & Hc2 & Hu' & Hlu');
    [destruct Ht' as [(? & _) _]; lia|].
  exists u, low, t', n, u', m. replace (low - 1)%nat with (pred low) in * by lia.
  split_and!; auto; try lia. apply Ht'.
Qed.

(** The limbs a left shift writes are bounded by its value. *)
Lemma shifted_room w nw g common N :
  nmag w nw g -> 0 < g -> g * 2 ^ Z.of_nat common < Bp N -> (nw + common / 32 <= N)%nat.
Proof.
  intros Hw Hg Hlt. rewrite bits_split in Hlt.
  pose proof (pow2_pos (common mod 32)) as Hp. pose proof (Bp_pos (common / 32)) as HB.
  assert (Bp (common / 32) * g * 1 <= Bp (common / 32) * g * 2 ^ Z.of_nat (common mod 32))
    by (apply Z.mul_le_mono_nonneg_l; nia).
  rewrite Nat.add_comm. apply (norm_room w nw g); [done|lia|].
  apply Nat.nlt_ge; intros Hlt'. pose proof (Bp_mono N (common / 32) ltac:(lia)).
  assert (Bp (common / 32) * 1 <= Bp (common / 32) * g) by (apply Z.mul_le_mono_nonneg_l; lia). lia.
Qed.

Lemma bigIntGcd_spec a na va b nb vb out :
  nmag a na va -> nmag b nb vb -> u32buf out -> (gcd_capacity na nb <= length out)%nat ->
  exists out' n, bigIntGcd a na b nb out = Some (out', n) /\
    nmag out' n (Z.gcd va vb) /\ length out' = length out.
Proof.
  intros HA HB Ho Hcap. unfold bigIntGcd, gcd_capacity in *.
  pose proof (mag_range _ _ _ (proj1 HA)) as HAr. pose proof (mag_range _ _ _ (proj1 HB)) as HBr.
  destruct (Nat.eqb_spec na 0) as [->|Hna].
  { destruct (copy_norm b nb vb out HB Ho Hcap) as (o & Hc & Hm & Hl). step Hc.
    exists o, nb. split; [done|]. split; [|done]. rewrite (proj1 (nmag_zero _ _ _ HA)) by done.
    rewrite Z.gcd_0_l, Z.abs_eq by lia. done. }
  destruct (Nat.eqb_spec nb 0) as [->|Hnb].
  { destruct (copy_norm a na va out HA Ho Hcap) as (o & Hc & Hm & Hl). step Hc.
    exists o, na. split; [done|]. split; [|done]. rewrite (proj1 (nmag_zero _ _ _ HB)) by done.
    rewrite Z.gcd_0_r, Z.abs_eq by lia. done. }
  replace (if (nb <? na)%nat then na else nb) with (na `max` nb)%nat by (case_bool; lia).
  set (cap := (na `max` nb + 1)%nat).
  assert (0 < va) by (assert (va <> 0); [|lia]; intros E; by apply (nmag_zero _ _ _ HA) in E).
  assert (0 < vb) by (assert (vb <> 0); [|lia]; intros E; by apply (nmag_zero _ _ _ HB) in E).
  destruct (make_odd a na va (calloc cap) cap HA) as (u & lu & t & nu & u' & mu & H1 & H2 & H3 & H4 & Hlt & Htb & Hlu & HU & HUp & HUo & HUv);
    auto using u32buf_calloc, length_calloc; [lia|].
  destruct (make_odd b nb vb t cap HB) as (v & lv & t' & nv & v' & mv & K1 & K2 & K3 & K4 & Klt & Ktb & Klu & HV & HVp & HVo & HVv);
    auto; [lia|].
  step H1. step K1. step H2. step K2. step H3. step H4. step K3. step K4.
  destruct (loop_rule (gcd_inv cap (Z.gcd mu mv)) (fun '(w, nw) => nmag w nw (Z.gcd mu mv) /\ length w = cap)
    gcd_measure (64 * cap + 1) gcd_body ((u', nu), (v', nv), t')) as ([w nw] & Hloop & Hw & Hlw).
  { split_and!; auto. exists mu, mv. auto 10. }
  { intros st Hst. destruct (gcd_step cap (Z.gcd mu mv) st Hst) as (r & Hr & HP). exists r. split; [done|].
    destruct r as [?|[? ?]]; done. }
  { unfold gcd_measure. pose proof HU as [(Hul & _ & ->) _]. pose proof HV as [(Hvl & _ & ->) _].
    pose proof (mag_range _ _ _ (proj1 HU)). pose proof (mag_range _ _ _ (proj1 HV)).
    pose proof (Bp_mono nu cap ltac:(lia)). pose proof (Bp_mono nv cap ltac:(lia)). rewrite (Bp_pow2 cap) in *.
    pose proof (Z.log2_lt_pow2 mu (32 * Z.of_nat cap) HUp). pose proof (Z.log2_lt_pow2 mv (32 * Z.of_nat cap) HVp). lia. }
  step Hloop.
  replace (if (lu - 1 <? lv - 1)%nat then (lu - 1)%nat else (lv - 1)%nat) with ((lu - 1) `min` (lv - 1))%nat
    by (case_bool; lia).
  set (common := ((lu - 1) `min` (lv - 1))%nat).
  assert (Z.gcd va vb = Z.gcd mu mv * 2 ^ Z.of_nat common) as HG
    by (rewrite HUv, HVv, gcd_common_pow2 by done; unfold common; ring).
  rewrite HG. apply bigIntShiftLeft_spec; [apply Hw|done|].
  assert (0 < Z.gcd mu mv) as Hgp by (pose proof (Z.gcd_nonneg mu mv); pose proof (Z.gcd_eq_0_l mu mv); lia).
  pose proof (shifted_room w nw (Z.gcd mu mv) common (na `min` nb) Hw Hgp) as Hroom.
  rewrite <- HG in Hroom. rewrite <- Nat.add_assoc, Nat.add_1_r, Nat.add_succ_r.
  assert (Z.gcd va vb <= va) by (apply Z.divide_pos_le; [lia|apply Z.gcd_divide_l]).
  assert (Z.gcd va vb <= vb) by (apply Z.divide_pos_le; [lia|apply Z.gcd_divide_r]).
  destruct (Nat.min_spec na nb) as [[_ E]|[_ E]]; rewrite E in *; specialize (Hroom ltac:(lia)); lia.
Qed.

(** The capacity written in the header ([min(na, nb)] limbs) is not
    enough for [bigIntGcd]: with it the final left shift clears a limb past
    the buffer, with one limb more the gcd is there. *)
Theorem gcd_min_capacity :
  bigIntGcd [3] 1 [3] 1 (calloc (1 `min` 1)) = None /\
  bigIntGcd [3] 1 [3] 1 (calloc (gcd_capacity 1 1)) = Some ([3; 0], 1%nat).
Proof. split; vm_compute; reflexivity. Qed.

(** ** Proofs: conversion to a double *)

(** [v / 2^e] rounded to the nearest integer, ties to even. *)
Definition round_half_even (v : Z) (e : nat) : Z :=
  let q := v / 2 ^ Z.of_nat e in
  match 2 * (v mod 2 ^ Z.of_nat e) ?= 2 ^ Z.of_nat e with
  | Lt => q
  | Gt => q + 1
  | Eq => if Z.even q then q else q + 1
  end.

Lemma div_pow2_step v k : 0 <= v ->
  v / 2 ^ Z.of_nat k = 2 * (v / 2 ^ Z.of_nat (S k)) + Z.b2z (Z.testbit v (Z.of_nat k)).
Proof.
  intros Hv. rewrite Z.testbit_spec', pow2_S by lia.
  rewrite (Z.mul_comm 2 (2 ^ _)), <- Z.div_div by (pose proof (pow2_pos k); lia).
  apply Z.div_mod; lia.
Qed.

Lemma mod_pow2_step v k : 0 <= v ->
  v mod 2 ^ Z.of_nat (S k) = v mod 2 ^ Z.of_nat k + 2 ^ Z.of_nat k * Z.b2z (Z.testbit v (Z.of_nat k)).
Proof.
  intros Hv. rewrite Z.testbit_spec', pow2_S by lia. rewrite (Z.mul_comm 2 (2 ^ _)).
  pose proof (pow2_pos k). rewrite Z.rem_mul_r by lia. done.
Qed.

Lemma sticky_scan_spec a na va i :
  mag a na va -> sticky_scan a na i = Some (negb (va mod 2 ^ Z.of_nat i =? 0)).
Proof.
  intros HA. pose proof (mag_range _ _ _ HA). induction i as [|i IH]; cbn [sticky_scan].
  - change (2 ^ Z.of_nat 0) with 1. by rewrite Z.mod_1_r.
  - rewrite (bigIntBitAt_spec a na va i HA). cbn [mbind option_bind]. rewrite mod_pow2_step by lia.
    pose proof (pow2_pos i). pose proof (Z.mod_pos_bound va (2 ^ Z.of_nat i) ltac:(lia)).
    destruct (Z.testbit va (Z.of_nat i)); simpl Z.b2z; cbn [Z.eqb].
    + f_equal. symmetry. apply negb_true_iff, Z.eqb_neq. lia.
    + by rewrite Z.mul_0_r, Z.add_0_r.
Qed.

Lemma take_bits_spec a na va b :
  mag a na va -> 0 <= va < 2 ^ Z.of_nat b ->
  exists taken, loop 55 (take_bits_body a na) (0, O, b) =
      Some (va / 2 ^ Z.of_nat (b - taken), taken, (b - taken)%nat) /\ taken = (54 `min` b)%nat.
Proof.
  intros HA Hv.
  destruct (loop_rule (fun '(m, t, k) => (t <= 54)%nat /\ (k + t = b)%nat /\ m = va / 2 ^ Z.of_nat k)
    (fun '(m, t, k) => t = (54 `min` b)%nat /\ k = (b - t)%nat /\ m = va / 2 ^ Z.of_nat k)
    (fun st => (54 - st.1.2)%nat) 55 (take_bits_body a na) (0, O, b)) as ([[m t] k] & Hl & -> & -> & ->); [| |simpl; lia|eauto].
  - rewrite Z.div_small by lia. lia.
  - intros [[m t] k] (Ht & Hk & ->). unfold take_bits_body.
    destruct (Nat.ltb_spec t 54); destruct (Nat.ltb_spec 0 k); cbn [andb].
    2-4: eexists; split; [done|]; cbv beta iota; lia.
    rewrite (bigIntBitAt_spec a na va (k - 1) HA). cbn [mbind option_bind].
    eexists; split; [done|]. cbn [fst snd]. split; [|lia]. split; [lia|]. split; [lia|].
    destruct k as [|k]; [lia|]. replace (S k - 1)%nat with k by lia. rewrite (div_pow2_step va k) by lia.
    assert (0 <= va / 2 ^ Z.of_nat (S k) < 2 ^ 54) as Hm.
    { pose proof (pow2_pos (S k)). split; [apply Z.div_pos; lia|]. apply Z.div_lt_upper_bound; [done|].
      rewrite <- Z.pow_add_r by lia. pose proof (Z.pow_le_mono_r 2 (Z.of_nat b) (Z.of_nat (S k) + 54) ltac:(lia) ltac:(lia)). lia. }
    rewrite u64_id by (rewrite Z.shiftl_mul_pow2; lia).
    rewrite lor_shiftl_add by (destruct (Z.testbit va (Z.of_nat k)); simpl; lia). lia.
Qed.

(** [round_half_even] in terms of the round bit and the sticky bits below it. *)
Lemma round_half_even_bits v e :
  0 <= v ->
  round_half_even v (S e) =
    v / 2 ^ Z.of_nat (S e) +
    (if Z.testbit v (Z.of_nat e) && (negb (v mod 2 ^ Z.of_nat e =? 0) || Z.odd (v / 2 ^ Z.of_nat (S e)))
     then 1 else 0).
Proof.
  intros Hv. unfold round_half_even. rewrite mod_pow2_step, pow2_S by lia.
  pose proof (pow2_pos e). pose proof (Z.mod_pos_bound v (2 ^ Z.of_nat e) ltac:(lia)).
  set (q := v / (2 * 2 ^ Z.of_nat e)). set (r := v mod 2 ^ Z.of_nat e) in *.
  destruct (Z.testbit v (Z.of_nat e)); simpl Z.b2z; cbn [andb].
  - destruct (Z.eqb_spec r 0) as [->|Hr]; cbn [negb orb].
    + replace (2 * (0 + 2 ^ Z.of_nat e * 1) ?= 2 * 2 ^ Z.of_nat e) with Eq by (symmetry; apply Z.compare_eq_iff; lia).
      rewrite <- Z.negb_odd. destruct (Z.odd q); simpl; lia.
    + replace (_ ?= _) with Gt by (symmetry; apply Z.compare_gt_iff; lia). lia.
  - replace (_ ?= _) with Lt by (symmetry; apply Z.compare_lt_iff; lia). lia.
Qed.

Lemma bigIntToDouble_spec a na va b :
  nmag a na va -> bit_length va b -> (0 < b <= 1024)%nat ->
  exists m e, bigIntToDouble a na = Some (DScaled m e) /\ 0 < m < 2 ^ 53 /\ 0 <= e /\
    m * 2 ^ e = round_half_even va (b - 53) * 2 ^ Z.of_nat (b - 53).
Proof.
  intros HA [Hlt Hge] Hb. specialize (Hge ltac:(lia)). pose proof (mag_range _ _ _ (proj1 HA)).
  unfold bigIntToDouble. destruct (bigIntHighBit_spec a na va HA) as (b' & Hh & Hlt' & Hge').
  assert (b' = b) as ->.
  { destruct (Nat.lt_trichotomy b' b) as [Hc|[?|Hc]]; [|done|].
    - pose proof (Z.pow_le_mono_r 2 (Z.of_nat b') (Z.of_nat (pred b)) ltac:(lia) ltac:(lia)). lia.
    - pose proof (Z.pow_le_mono_r 2 (Z.of_nat b) (Z.of_nat (pred b')) ltac:(lia) ltac:(lia)).
      specialize (Hge' ltac:(lia)). lia. }
  step Hh. destruct (Nat.eqb_spec b 0); [lia|]. destruct (Nat.ltb_spec 1024 b); [lia|].
  destruct (take_bits_spec a na va b (proj1 HA) ltac:(lia)) as (t & Hl & Ht). step Hl.
  rewrite (sticky_scan_spec a na va _ (proj1 HA)). cbn [mbind option_bind].
  destruct (Nat.eqb_spec t 54) as [Ht54|Ht54].
  2: { (* at most 53 bits: exact *)
    replace (b - t)%nat with O by lia. change (2 ^ Z.of_nat 0) with 1. rewrite Z.div_1_r.
    eexists _, _. split; [done|]. pose proof (Z.pow_le_mono_r 2 (Z.of_nat b) 53 ltac:(lia) ltac:(lia)).
    pose proof (pow2_pos (pred b)). split; [lia|]. split; [lia|].
    replace (b - 53)%nat with O by lia. unfold round_half_even. change (2 ^ Z.of_nat 0) with 1.
    rewrite Z.mod_1_r, Z.div_1_r. done. }
  subst t. assert (b - 53 = S (b - 54))%nat as E53 by lia. rewrite E53, Ht54. set (e := (b - 54)%nat) in *.
  set (M := va / 2 ^ Z.of_nat e).
  assert (M = 2 * (va / 2 ^ Z.of_nat (S e)) + Z.b2z (Z.testbit va (Z.of_nat e))) as HM by (apply div_pow2_step; lia).
  rewrite round_half_even_bits by lia. set (q := va / 2 ^ Z.of_nat (S e)) in *.
  assert (2 ^ 52 <= q < 2 ^ 53) as Hq.
  { pose proof (pow2_pos (S e)). split.
    - apply Z.div_le_lower_bound; [done|]. rewrite <- Z.pow_add_r by lia.
      replace (Z.of_nat (S e) + 52) with (Z.of_nat (pred b)) by lia. done.
    - apply Z.div_lt_upper_bound; [done|]. rewrite <- Z.pow_add_r by lia.
      replace (Z.of_nat (S e) + 53) with (Z.of_nat b) by lia. done. }
  rewrite !land_1, Z.shiftr_div_pow2, Z.pow_1_r by lia.
  assert (M / 2 = q) as -> by (rewrite HM; destruct (Z.testbit va (Z.of_nat e)); simpl Z.b2z;
    symmetry; [apply (Z.div_unique _ 2 q 1)|apply (Z.div_unique _ 2 q 0)]; lia).
  assert (negb (M mod 2 =? 0) = Z.testbit va (Z.of_nat e)) as ->.
  { rewrite HM, Z.add_comm, (Z.mul_comm 2), Z.mod_add by lia. by destruct (Z.testbit va (Z.of_nat e)). }
  assert (negb (q mod 2 =? 0) = Z.odd q) as -> by (rewrite Zmod_odd; by destruct (Z.odd q)).
  destruct (Z.testbit va (Z.of_nat e) && _).
  - rewrite u64_id by lia. change (Z.shiftl 1 53) with (2 ^ 53).
    destruct (Z.eqb_spec (q + 1) (2 ^ 53)) as [E|E].
    + eexists _, _. split; [done|]. rewrite E. change (Z.shiftr (2 ^ 53) 1) with (2 ^ 52).
      split; [lia|]. split; [lia|]. rewrite (pow2_S (S e)). change (2 ^ 53) with (2 ^ 52 * 2). ring.
    + eexists _, _. split; [done|]. split; [lia|]. split; [lia|]. done.
  - eexists _, _. split; [done|]. split; [lia|]. split; [lia|]. by rewrite Z.add_0_r.
Qed.

(** ** Properties *)

(** Binary GCD computes the greatest common divisor of the two values,
    given one limb more than the shorter operand (or the nonzero operand's
    length when one is zero); its loop always ends. *)
Theorem bigIntGcd_gcd a na va b nb vb out :
  nmag a na va -> nmag b nb vb -> u32buf out -> (gcd_capacity na nb <= length out)%nat ->
  exists out' n, bigIntGcd a na b nb out = Some (out', n) /\ nmag out' n (Z.gcd va vb) /\ length out' = length out.
Proof. apply bigIntGcd_spec. Qed.

Lemma bigIntGcd_gcd_witness :
  exists out' n, bigIntGcd [12] 1 [18] 1 [0; 0] = Some (out', n) /\ nmag out' n 6.
Proof.
  destruct (bigIntGcd_gcd [12] 1 12 [18] 1 18 [0; 0]) as (o & n & H1 & H2 & _).
  1, 2: split; [split; [done|]; split; [repeat constructor|]; done|right; eexists; split; [reflexivity|discriminate]].
  - repeat constructor; done.
  - unfold gcd_capacity. simpl. lia.
  - exists o, n. split; [exact H1|exact H2].
Defined.

(** The bit queries read the value, not its representation: the highest
    bit position is the bit length, the lowest is one more than the number of
    trailing zeros, the count is the number of one bits, and [bigIntBitAt]
    is [Z.testbit]. *)
Theorem bigInt_bit_queries a na va index :
  nmag a na va ->
  (exists b, bigIntHighBit a na = Some b /\ bit_length va b) /\
  (exists n, bigIntLowBit a na = Some n /\ (va = 0 -> n = 0%nat) /\ (va <> 0 -> low_bit va n)) /\
  bigIntBitCount a na = Some (popcount (na * 32) va) /\
  bigIntBitAt a na index = Some (Z.b2z (Z.testbit va (Z.of_nat index))).
Proof.
  intros Ha. split; [by apply bigIntHighBit_spec|]. split; [apply bigIntLowBit_spec, Ha|].
  split; [apply bigIntBitCount_spec, Ha|apply bigIntBitAt_spec, Ha].
Qed.

Lemma bigInt_bit_queries_witness : bigIntBitCount [0; 3] 2 = Some 2 /\ bigIntBitAt [0; 3] 2 33 = Some 1.
Proof.
  destruct (bigInt_bit_queries [0; 3] 2 0x300000000 33) as (_ & _ & H1 & H2).
  - split; [split; [done|]; split; [repeat constructor|]; done|right; eexists; split; [reflexivity|discriminate]].
  - split; [rewrite H1; vm_compute; reflexivity|exact H2].
Defined.

(** The conversion to a double rounds to nearest, ties to even: for a
    magnitude of [b <= 1024] bits the result is an integer below [2^53] scaled
    by a power of two, equal to the magnitude rounded at its 53rd bit. *)
Theorem bigIntToDouble_nearest a na va b :
  nmag a na va -> bit_length va b -> (0 < b <= 1024)%nat ->
  exists m e, bigIntToDouble a na = Some (DScaled m e) /\ 0 < m < 2 ^ 53 /\ 0 <= e /\
    m * 2 ^ e = round_half_even va (b - 53) * 2 ^ Z.of_nat (b - 53).
Proof. apply bigIntToDouble_spec. Qed.

(** [2^53 + 1] is a tie and goes to the even neighbour. *)
Lemma bigIntToDouble_nearest_witness :
  exists m e, bigIntToDouble [1; 0x200000] 2 = Some (DScaled m e) /\ m * 2 ^ e = 2 ^ 53.
Proof.
  destruct (bigIntToDouble_nearest [1; 0x200000] 2 (2 ^ 53 + 1) 54) as (m & e & H1 & _ & _ & H2).
  - split; [split; [done|]; split; [repeat constructor|]; done|right; eexists; split; [reflexivity|discriminate]].
  - split; [done|]. intros _. vm_compute. discriminate.
  - lia.
  - exists m, e. split; [exact H1|]. rewrite H2. vm_compute. reflexivity.
Defined.
