(* ===== verification/BigIntRadix.v ===== *)
(** * Magnitudes: radix conversion

    [src/vm/runtime/BigInt.c]: [bigIntToString], [bigIntFromString] and their
    size functions.  The main results: printing stays within
    [bigIntStringSize] characters and gives the canonical digit string,
    parsing stays within [bigIntFromStringSize] limbs (so its [ASSERT] holds)
    and gives the value of the digits, and parsing what was printed gives the
    magnitude back. *)
From S2P Require Import Prelude BigIntCore BigIntMul BigIntDiv BigIntBits.

Definition Digits : list Z := bytes_of_string "0123456789abcdefghijklmnopqrstuvwxyz".

Definition bigIntStringSize (na : nat) (base : Z) : nat := (na * 32 + 1)%nat.

(** The largest power of the base that fits a limb, with its exponent:
    [while (chunkBase * base <= 0xFFFFFFFF) { chunkBase *= base; chunkDigits++; }] *)
Definition chunk_body (base : Z) (st : Z * nat) : option (Z * nat + Z * nat) :=
  let '(chunkBase, chunkDigits) := st in
  if u64 (chunkBase * base) <=? 0xFFFFFFFF
  then Some (inl (u32 (chunkBase * base), S chunkDigits))
  else Some (inr (chunkBase, chunkDigits)).

Definition chunk_of (base : Z) : option (Z * nat) := loop 32 (chunk_body base) (base, 1%nat).

(** [out[written++] = Digits[rem % base]; rem /= base;] *)
Definition emit_digit (base : Z) (st : list Z * nat * Z) : option (list Z * nat * Z) :=
  let '(out, written, rem) := st in
  c ← Digits !! Z.to_nat (rem mod base);
  out ← put out written c;
  Some (out, S written, rem / base).

Definition emit_interior (base : Z) (chunkDigits : nat) (st : list Z * nat * Z)
    : option (list Z * nat * Z) :=
  for_up chunkDigits 0 (fun _ st => emit_digit base st) st.

Definition emit_final_body (base : Z) (st : list Z * nat * Z)
    : option (list Z * nat * Z + list Z * nat) :=
  let '(out, written, rem) := st in
  if rem =? 0 then Some (inr (out, written))
  else st ← emit_digit base st; Some (inl st).

(** One chunk: divide the working copy by [chunkBase], emit the remainder. *)
Definition toString_body (base chunkBase : Z) (chunkDigits : nat)
    (st : list Z * nat * list Z * (list Z * nat))
    : option (list Z * nat * list Z * (list Z * nat) + list Z * nat) :=
  let '(work, nw, quotient, (out, written)) := st in
  if (nw =? 0)%nat then Some (inr (out, written))
  else
    '(quotient, rem) ← for_down nw (div_limb_body work chunkBase) (quotient, 0);
    nq ← bigIntNormalize quotient nw;
    work ← memcpy work 0 quotient 0 nq;
    if negb (nq =? 0)%nat then
      '(out, written, _) ← emit_interior base chunkDigits (out, written, rem);
      Some (inl (work, nq, quotient, (out, written)))
    else
      '(out, written) ← loop 33 (emit_final_body base) (out, written, rem);
      Some (inl (work, nq, quotient, (out, written))).

(** Swap ends: [tmp = out[i]; out[i] = out[written-1-i]; out[written-1-i] = tmp]. *)
Definition swap_body (written i : nat) (out : list Z) : option (list Z) :=
  tmp ← out !! i;
  x ← out !! (written - 1 - i)%nat;
  out ← put out i x;
  put out (written - 1 - i) tmp.

(** The buffer [out] holds [outSize = length out] characters; answers it with
    the number of characters written. *)
Definition bigIntToString (a : list Z) (na : nat) (base : Z) (out : list Z) : option (list Z * nat) :=
  _ ← ASSERT ((2 <=? base) && (base <=? 36));
  if (na =? 0)%nat then
    if (length out <? 1)%nat then Some (out, O)
    else out ← put out 0 (chr "0"); Some (out, 1%nat)
  else if (length out <? bigIntStringSize na base)%nat then Some (out, O)
  else
    '(chunkBase, chunkDigits) ← chunk_of base;
    work ← memcpy (calloc na) 0 a 0 na;
    '(out, written) ← loop (na * 32 + 2) (toString_body base chunkBase chunkDigits)
                        (work, na, calloc na, (out, O));
    out ← for_up (written / 2) 0 (swap_body written) out;
    Some (out, written).

(** ** Parsing *)

(** [for (v = base - 1; v != 0; v >>= 1) bitsPerDigit++] *)
Definition bits_body (st : Z * nat) : option (Z * nat + nat) :=
  let '(v, bits) := st in
  if v =? 0 then Some (inr bits) else Some (inl (Z.shiftr v 1, S bits)).

Definition bigIntFromStringSize (len : nat) (base : Z) : option nat :=
  _ ← ASSERT ((2 <=? base) && (base <=? 36));
  bitsPerDigit ← loop 33 bits_body (base - 1, O);
  Some ((len * bitsPerDigit + 32 - 1) / 32 + 1)%nat.

(** The value of one digit character; anything else counts as 0. *)
Definition digit_value (c : Z) : Z :=
  if (chr "0" <=? c) && (c <=? chr "9") then c - chr "0"
  else if (chr "a" <=? c) && (c <=? chr "z") then c - chr "a" + 10
  else if (chr "A" <=? c) && (c <=? chr "Z") then c - chr "A" + 10
  else 0.

(** Folding the digits of one chunk. *)
Definition chunk_digit_body (digits : list Z) (base : Z) (pos i : nat) (st : Z * Z) : option (Z * Z) :=
  let '(chunk, scale) := st in
  c ← digits !! (pos + i)%nat;
  Some (u32 (u32 (chunk * base) + u32 (digit_value c)), u32 (scale * base)).

(** [cur = out[i] * scale + carry] over the limbs in use. *)
Definition scale_body (scale : Z) (i : nat) (st : list Z * Z) : option (list Z * Z) :=
  let '(out, carry) := st in
  x ← out !! i;
  let cur := u64 (u64 (x * scale) + carry) in
  out ← put out i (u32 (Z.land cur LIMB_MASK));
  Some (out, Z.shiftr cur LIMB_BITS).

(** [while (carry != 0) { ASSERT(n < cap); out[n++] = carry & MASK; carry >>= 32; }] *)
Definition append_carry_body (cap : nat) (st : list Z * nat * Z) : option (list Z * nat * Z + list Z * nat) :=
  let '(out, n, carry) := st in
  if carry =? 0 then Some (inr (out, n))
  else
    _ ← ASSERT (n <? cap)%nat;
    out ← put out n (u32 (Z.land carry LIMB_MASK));
    Some (inl (out, S n, Z.shiftr carry LIMB_BITS)).

Definition fromString_body (digits : list Z) (len : nat) (base : Z) (chunkDigits cap : nat)
    (st : list Z * nat * nat) : option (list Z * nat * nat + list Z * nat) :=
  let '(out, n, pos) := st in
  if (pos <? len)%nat then
    let take := (if len - pos <? chunkDigits then len - pos else chunkDigits)%nat in
    '(chunk, scale) ← for_up take 0 (chunk_digit_body digits base pos) (0, 1);
    let pos := (pos + take)%nat in
    '(out, carry) ← for_up n 0 (scale_body scale) (out, chunk);
    '(out, n) ← loop 3 (append_carry_body cap) (out, n, carry);
    Some (inl (out, n, pos))
  else Some (inr (out, n)).

Definition bigIntFromString (digits : list Z) (len : nat) (base : Z) (out : list Z)
    : option (list Z * nat) :=
  _ ← ASSERT ((2 <=? base) && (base <=? 36));
  cap ← bigIntFromStringSize len base;
  out ← memset0 out cap;
  '(chunkBase, chunkDigits) ← chunk_of base;
  '(out, n) ← loop (S len) (fromString_body digits len base chunkDigits cap) (out, O, O);
  n ← bigIntNormalize out n;
  Some (out, n).

(** ** Digit strings *)

(** The value of a digit string, least significant character first ... *)
Fixpoint rval (base : Z) (l : list Z) : Z :=
  match l with
  | [] => 0
  | c :: t => digit_value c + base * rval base t
  end.

(** ... and as written, most significant first. *)
Definition sval (base : Z) (l : list Z) : Z := rval base (reverse l).

(** [c] is the character [bigIntToString] uses for the digit [d]. *)
Definition is_digit (base d c : Z) : Prop := 0 <= d < base /\ Digits !! Z.to_nat d = Some c.

Definition digit_char (base c : Z) : Prop := exists d, is_digit base d c.

(** The canonical rendering: digits only, no leading zero, the right value. *)
Definition canonical (base : Z) (s : list Z) (v : Z) : Prop :=
  Forall (digit_char base) s /\ sval base s = v /\
  (v = 0 /\ s = [chr "0"] \/ exists c t, s = c :: t /\ digit_value c <> 0).

Lemma Digits_value i c : Digits !! i = Some c -> digit_value c = Z.of_nat i.
Proof.
  intros H. assert (Forall (fun p => digit_value (snd p) = Z.of_nat (fst p)) (imap pair Digits)) as HF
    by (repeat (constructor; [reflexivity|]); constructor).
  apply (Forall_lookup_1 _ _ i (i, c)) in HF; [done|]. by rewrite list_lookup_imap, H.
Qed.

Lemma is_digit_value base d c : is_digit base d c -> digit_value c = d.
Proof. intros [Hd Hc]. rewrite (Digits_value _ _ Hc). lia. Qed.

Lemma digit_exists base d : 2 <= base <= 36 -> 0 <= d < base -> exists c, is_digit base d c.
Proof.
  intros Hb Hd. destruct (lookup_Some_lt Digits (Z.to_nat d)) as [c Hc]; [change (length Digits) with 36%nat; lia|].
  exists c. done.
Qed.

Lemma rval_app base l k : 0 <= base -> rval base (l ++ k) = rval base l + base ^ Z.of_nat (length l) * rval base k.
Proof.
  intros Hb. induction l as [|c l IH]; [cbn [app rval length]; rewrite Z.pow_0_r; lia|].
  cbn [app rval length]. rewrite IH, Nat2Z.inj_succ, Z.pow_succ_r by lia. ring.
Qed.

Lemma sval_snoc base l c : 0 <= base -> sval base (l ++ [c]) = sval base l * base + digit_value c.
Proof. intros. unfold sval. rewrite reverse_snoc. cbn [rval]. lia. Qed.

(** ** The chunk *)

Lemma base_pow_pos base k : 2 <= base -> 0 < base ^ Z.of_nat k.
Proof. intros; apply Z.pow_pos_nonneg; lia. Qed.

Lemma base_pow_S base k : base ^ Z.of_nat (S k) = base * base ^ Z.of_nat k.
Proof. rewrite Nat2Z.inj_succ, Z.pow_succ_r; lia. Qed.

Lemma base_pow_ge2 base k : 2 <= base -> 2 ^ Z.of_nat k <= base ^ Z.of_nat k.
Proof. intros. apply Z.pow_le_mono_l; lia. Qed.

Lemma pow2_inv n m : 2 ^ Z.of_nat n < 2 ^ Z.of_nat m -> (n < m)%nat.
Proof. intros H. apply Z.pow_lt_mono_r_iff in H; lia. Qed.

Lemma chunk_of_spec base :
  2 <= base <= 36 ->
  exists cd, chunk_of base = Some (base ^ Z.of_nat cd, cd) /\ (1 <= cd)%nat /\ base ^ Z.of_nat cd < BASE.
Proof.
  intros Hb. unfold chunk_of.
  destruct (loop_rule (fun '(cb, cd) => cb = base ^ Z.of_nat cd /\ (1 <= cd < 32)%nat /\ cb < BASE)
    (fun '(cb, cd) => cb = base ^ Z.of_nat cd /\ (1 <= cd)%nat /\ cb < BASE)
    (fun st => (32 - st.2)%nat) 32 (chunk_body base) (base, 1%nat)) as ([cb cd] & Hl & -> & H1 & H2); [| |simpl; lia|eauto].
  - rewrite Z.pow_1_r. unfold BASE. lia.
  - intros [cb cd] (-> & Hcd & Hlt). unfold chunk_body. pose proof (base_pow_pos base cd ltac:(lia)).
    rewrite u64_id by (unfold BASE in *; nia). destruct (Z.leb_spec (base ^ Z.of_nat cd * base) 0xFFFFFFFF) as [Hle|Hgt].
    + rewrite u32_id by lia. eexists; split; [done|]. cbn [snd]. rewrite base_pow_S.
      assert (2 ^ Z.of_nat (S cd) < 2 ^ Z.of_nat 32) as Hcd'%pow2_inv
        by (pose proof (base_pow_ge2 base (S cd) ltac:(lia)) as Hp; rewrite (base_pow_S base) in Hp; change (2 ^ Z.of_nat 32) with (2 ^ 32); lia).
      split; [|lia]. split; [lia|]. split; [lia|]. unfold BASE. lia.
    + eexists; split; [done|]. split; [done|]. lia.
Qed.

(** ** Printing *)

Section Emit.
Context (base : Z) (Hb : 2 <= base <= 36).

(** [written] characters of [out] hold [D], least significant digit first. *)
Definition emitted (out : list Z) (w : nat) (D : Z) : Prop :=
  (w <= length out)%nat /\ Forall (digit_char base) (take w out) /\ rval base (take w out) = D.

(** The most significant character so far is not a zero. *)
Definition top_nonzero (out : list Z) (w : nat) : Prop :=
  exists c, (0 < w)%nat /\ out !! pred w = Some c /\ digit_value c <> 0.

Lemma emit_digit_spec out w rem D :
  emitted out w D -> (w < length out)%nat -> 0 <= rem ->
  exists out', emit_digit base (out, w, rem) = Some (out', S w, rem / base) /\
    length out' = length out /\ emitted out' (S w) (D + base ^ Z.of_nat w * (rem mod base)) /\
    (rem mod base <> 0 -> top_nonzero out' (S w)).
Proof.
  intros (Hw & Hd & HD) Hlt Hrem. unfold emit_digit.
  pose proof (Z.mod_pos_bound rem base ltac:(lia)) as Hm.
  destruct (digit_exists base (rem mod base) Hb Hm) as [c Hc]. pose proof Hc as [_ Hcl]. step Hcl.
  step (put_Some out w c Hlt). exists (<[w := c]> out). split; [done|]. rewrite length_insert. split; [done|].
  assert (<[w := c]> out !! w = Some c) as Hget by (apply list_lookup_insert_eq; lia).
  split.
  - split; [rewrite length_insert; lia|]. rewrite (take_S_r _ _ c Hget), take_insert_ge by lia. split.
    + apply Forall_app; split; [done|]. constructor; [by exists (rem mod base)|constructor].
    + rewrite rval_app, HD, length_take_le by lia. cbn [rval]. rewrite (is_digit_value _ _ _ Hc). lia.
  - intros Hne. exists c. split; [lia|]. split; [done|]. by rewrite (is_digit_value _ _ _ Hc).
Qed.

Lemma emit_interior_spec out w rem D cd :
  emitted out w D -> (w + cd <= length out)%nat -> 0 <= rem < base ^ Z.of_nat cd ->
  exists out' r, emit_interior base cd (out, w, rem) = Some (out', (w + cd)%nat, r) /\
    length out' = length out /\ emitted out' (w + cd) (D + base ^ Z.of_nat w * rem).
Proof.
  intros He Hl Hrem. unfold emit_interior.
  destruct (for_up_rule (fun i '(o, w', r) => length o = length out /\ w' = (w + i)%nat /\
      r = rem / base ^ Z.of_nat i /\ emitted o w' (D + base ^ Z.of_nat w * (rem - base ^ Z.of_nat i * r)))
    cd 0 (fun _ st => emit_digit base st) (out, w, rem)) as ([[o w'] r] & Hf & Hlo & -> & -> & He').
  - split; [done|]. split; [lia|]. rewrite Z.pow_0_r, Z.div_1_r. split; [done|].
    by replace (D + _) with D by ring.
  - intros i [[o w'] r] Hi (Hlo & -> & -> & He'). pose proof (base_pow_pos base i ltac:(lia)).
    destruct (emit_digit_spec o (w + i) (rem / base ^ Z.of_nat i) _ He') as (o' & Ho' & Hl' & He'' & _);
      [lia|apply Z.div_pos; lia|].
    eexists; split; [exact Ho'|]. split; [lia|]. split; [lia|]. split.
    { rewrite base_pow_S, Z.mul_comm, Z.div_div by lia. done. }
    replace (w + S i)%nat with (S (w + i)) by lia. rewrite base_pow_S.
    replace (D + base ^ Z.of_nat w * _) with
      (D + base ^ Z.of_nat w * (rem - base ^ Z.of_nat i * (rem / base ^ Z.of_nat i)) +
       base ^ Z.of_nat (w + i) * ((rem / base ^ Z.of_nat i) mod base)); [done|].
    rewrite Nat2Z.inj_add, Z.pow_add_r by lia.
    pose proof (Z.div_mod (rem / base ^ Z.of_nat i) base ltac:(lia)) as Hdm.
    set (x := rem / base ^ Z.of_nat i) in *. set (m := x mod base) in *. set (y := x / base) in *.
    replace x with (base * y + m) by lia. ring.
  - rewrite Nat.add_0_l in *. rewrite Z.div_small, Z.mul_0_r, Z.sub_0_r in He' by lia. eauto.
Qed.
End Emit.

(** Halving decreases the bit count. *)
Lemma half_measure x y : 0 < x -> 0 <= y -> 2 * y <= x ->
  (Z.to_nat (Z.log2 (2 * y)) < Z.to_nat (Z.log2 (2 * x)))%nat.
Proof.
  intros Hx Hy Hle. rewrite (Z.log2_double x) by lia. pose proof (Z.log2_nonneg x).
  pose proof (Z.log2_le_mono (2 * y) x ltac:(lia)). pose proof (Z.log2_nonneg (2 * y)). lia.
Qed.

Lemma log2_double_bound x n : 0 <= x < 2 ^ Z.of_nat n -> (Z.to_nat (Z.log2 (2 * x)) <= n)%nat.
Proof.
  intros Hx. destruct (Z.eq_dec x 0) as [->|]; [simpl; lia|]. rewrite Z.log2_double by lia.
  pose proof (Z.log2_lt_pow2 x (Z.of_nat n) ltac:(lia)). lia.
Qed.

Section Print.
Context (base : Z) (Hb : 2 <= base <= 36).
Lemma digit_char_nonneg c : digit_char base c -> 0 <= digit_value c.
Proof. intros [d Hd]. rewrite (is_digit_value _ _ _ Hd). destruct Hd; lia. Qed.

Lemma emitted_nonneg out w D : emitted base out w D -> 0 <= D.
Proof.
  intros (_ & Hd & <-). induction Hd as [|c l Hc Hl IH]; cbn [rval]; [done|].
  pose proof (digit_char_nonneg c Hc). nia.
Qed.

(** The number printed has at most [M] bits. *)
Context (T : Z) (M : nat) (HT : T < 2 ^ Z.of_nat M).

(** A digit still to come keeps the position in range. *)
Lemma room D w x : 0 <= D -> 0 < x -> D + base ^ Z.of_nat w * x = T -> (w < M)%nat.
Proof.
  intros HD Hx HE. apply pow2_inv. pose proof (base_pow_ge2 base w ltac:(lia)).
  assert (base ^ Z.of_nat w * 1 <= base ^ Z.of_nat w * x)
    by (apply Z.mul_le_mono_nonneg_l; [pose proof (base_pow_pos base w)|]; lia). lia.
Qed.

(** The buffer has more cells. *)
Context (L : nat) (HL : (M < L)%nat).

Lemma emit_final_spec out w rem D :
  emitted base out w D -> length out = L -> 0 < rem < BASE -> D + base ^ Z.of_nat w * rem = T ->
  exists out' w', loop 33 (emit_final_body base) (out, w, rem) = Some (out', w') /\
    length out' = L /\ emitted base out' w' T /\ top_nonzero out' w'.
Proof.
  intros He Hl Hrem HE.
  destruct (loop_rule (fun '(o, w', r) => length o = L /\ 0 <= r < BASE /\ (r <> 0 \/ top_nonzero o w') /\
      exists D', emitted base o w' D' /\ D' + base ^ Z.of_nat w' * r = T)
    (fun '(o, w') => length o = L /\ emitted base o w' T /\ top_nonzero o w')
    (fun st => Z.to_nat (Z.log2 (2 * st.2))) 33 (emit_final_body base) (out, w, rem)) as ([o w'] & Hf & H1 & H2 & H3).
  - split; [done|]. split; [lia|]. split; [left; lia|]. eauto.
  - intros [[o w'] r] (Hlo & Hr & Htop & D' & He' & HE'). unfold emit_final_body.
    destruct (Z.eqb_spec r 0) as [->|Hne].
    + eexists; split; [done|]. rewrite Z.mul_0_r, Z.add_0_r in HE'. subst D'.
      destruct Htop as [?|?]; [lia|]. done.
    + pose proof (room D' w' r (emitted_nonneg _ _ _ He') ltac:(lia) HE').
      destruct (emit_digit_spec base Hb o w' r D' He' ltac:(lia) ltac:(lia)) as (o' & Ho' & Hl' & He'' & Ht').
      step Ho'. eexists; split; [done|]. pose proof (Z.div_mod r base ltac:(lia)) as Hdm.
      pose proof (Z.mod_pos_bound r base ltac:(lia)). assert (0 <= r / base) by (apply Z.div_pos; lia).
      assert (2 * (r / base) <= r) by nia. cbn [snd]. split; [|apply half_measure; lia].
      split; [lia|]. split; [lia|]. split.
      { destruct (Z.eq_dec (r / base) 0) as [E|]; [right; apply Ht'; lia|by left]. }
      exists (D' + base ^ Z.of_nat w' * (r mod base)). split; [done|]. rewrite base_pow_S, <- HE'.
      replace r with (base * (r / base) + r mod base) at 3 by lia. ring.
  - cbn [snd]. pose proof (log2_double_bound rem 32 ltac:(unfold BASE in *; simpl Z.of_nat; lia)). lia.
  - eauto 10.
Qed.

Context (na cd : nat) (Hcd : (1 <= cd)%nat) (HcdB : base ^ Z.of_nat cd < BASE).

Definition print_inv (st : list Z * nat * list Z * (list Z * nat)) : Prop :=
  let '(work, nw, quotient, (out, w)) := st in
  length work = na /\ length quotient = na /\ u32buf quotient /\ length out = L /\
  (nw = 0%nat -> top_nonzero out w) /\
  exists W D, nmag work nw W /\ emitted base out w D /\ D + base ^ Z.of_nat w * W = T.

Definition print_measure (st : list Z * nat * list Z * (list Z * nat)) : nat :=
  let '(work, nw, _, _) := st in Z.to_nat (Z.log2 (2 * pv work nw)).

Lemma print_step st :
  print_inv st -> exists r, toString_body base (base ^ Z.of_nat cd) cd st = Some r /\
    match r with
    | inl t' => print_inv t' /\ (print_measure t' < print_measure st)%nat
    | inr (out, w) => length out = L /\ emitted base out w T /\ top_nonzero out w
    end.
Proof.
  destruct st as [[[work nw] quot] [out w]]. intros (Hlw & Hlq & Hqb & Hlo & Htop & W & D & HW & He & HE).
  unfold toString_body. destruct (Nat.eqb_spec nw 0) as [->|Hnw].
  { exists (inr (out, w)). split; [done|].
    rewrite (proj1 (nmag_zero _ _ _ HW)), Z.mul_0_r, Z.add_0_r in HE by done. subst D. auto. }
  pose proof (base_pow_pos base cd ltac:(lia)) as HCp. set (C := base ^ Z.of_nat cd) in *.
  assert (0 < W) as HWp.
  { pose proof (mag_range _ _ _ (proj1 HW)). assert (W <> 0); [|lia]. intros E. by apply (nmag_zero _ _ _ HW) in E. }
  pose proof HW as [(Hnl & Hwb & HpW) _].
  destruct (div_limb_loop work nw C quot) as (q & Hq & Hlq' & Hqb' & Hqv); [done|lia|lia|done|lia|].
  rewrite HpW in Hq, Hqv. step Hq.
  destruct (bigIntNormalize_spec q nw) as (nq & Hnq & Hnql & HQ); [lia|done|]. step Hnq. rewrite Hqv in HQ.
  destruct (copy_norm q nq (W / C) work HQ Hwb ltac:(lia)) as (work' & Hc & HW' & Hlw'). step Hc.
  pose proof (Z.div_mod W C ltac:(lia)) as Hdm. pose proof (Z.mod_pos_bound W C HCp) as Hmod.
  assert (0 <= W / C) as HWC by (apply Z.div_pos; lia).
  assert (2 <= C) as HC2.
  { unfold C. destruct cd as [|k]; [lia|]. rewrite base_pow_S. pose proof (base_pow_pos base k ltac:(lia)). nia. }
  assert (print_measure (work', nq, q, (out, w)) < print_measure (work, nw, quot, (out, w)))%nat as Hmeas.
  { unfold print_measure. rewrite HpW, (proj2 (proj2 (proj1 HW'))). apply half_measure; [done|done|nia]. }
  destruct (Nat.eqb_spec nq 0) as [->|Hnq0]; cbn [negb].
  - assert (W / C = 0) as E by (by apply (nmag_zero _ _ _ HW')).
    assert (W mod C = W) as Em by (apply Z.mod_small; nia).
    destruct (emit_final_spec out w (W mod C) D He Hlo ltac:(lia)) as (o' & w' & Hf & Hlo' & He' & Ht').
    { rewrite Em. done. }
    step Hf. eexists; split; [done|]. split; [|exact Hmeas].
    split_and!; auto; try lia. exists (W / C), T. split; [done|]. split; [done|]. rewrite E. lia.
  - assert (0 < W / C) as HWCp.
    { assert (W / C <> 0); [|lia]. intros E. by apply (nmag_zero _ _ _ HW') in E. }
    assert (D + base ^ Z.of_nat w * (W mod C) + base ^ Z.of_nat (w + cd) * (W / C) = T) as HE'.
    { rewrite <- HE, Nat2Z.inj_add, Z.pow_add_r by lia. fold C. rewrite Hdm at 3. ring. }
    pose proof (emitted_nonneg _ _ _ He). pose proof (base_pow_pos base w ltac:(lia)).
    assert (0 <= base ^ Z.of_nat w * (W mod C)) by (apply Z.mul_nonneg_nonneg; lia).
    assert (w + cd < M)%nat by (eapply room; [|exact HWCp|exact HE']; lia).
    destruct (emit_interior_spec base Hb out w (W mod C) D cd He ltac:(lia) Hmod) as (o' & r & Hf & Hlo' & He').
    step Hf. eexists; split; [done|]. split; [|exact Hmeas].
    split_and!; auto; try lia. exists (W / C); eexists. split; [done|]. split; [exact He'|done].
Qed.
End Print.

(** ** Reversal *)

(** After [i] swaps the first and last [i] cells are exchanged. *)
Definition swapped (o out : list Z) (w i : nat) : Prop :=
  length o = length out /\
  forall j, (j < w)%nat -> o !! j = (if (j <? i)%nat || (w - i <=? j)%nat then out !! (w - 1 - j)%nat else out !! j).

Lemma swap_step o out w i :
  (w <= length out)%nat -> (i < w / 2)%nat -> swapped o out w i ->
  exists o', swap_body w i o = Some o' /\ swapped o' out w (S i).
Proof.
  intros Hw Hi [Hl Ho]. pose proof (Nat.div_mod w 2 ltac:(lia)) as Hdm. unfold swap_body.
  destruct (lookup_Some_lt o i ltac:(lia)) as [x Hx]. step Hx.
  destruct (lookup_Some_lt o (w - 1 - i) ltac:(lia)) as [y Hy]. step Hy.
  step (put_Some o i y ltac:(lia)). rewrite put_Some by (rewrite length_insert; lia).
  eexists; split; [done|]. split; [by rewrite !length_insert|]. intros j Hj.
  pose proof (Ho i ltac:(lia)) as Hoi. pose proof (Ho (w - 1 - i)%nat ltac:(lia)) as Hoj.
  rewrite Hx in Hoi. rewrite Hy in Hoj.
  destruct (decide (j = w - 1 - i)%nat) as [->|].
  { rewrite list_lookup_insert_eq by (rewrite length_insert; lia).
    replace (w - 1 - (w - 1 - i))%nat with i by lia. revert Hoi. repeat case_bool; done || lia. }
  rewrite list_lookup_insert_ne by lia. destruct (decide (j = i)) as [->|].
  { rewrite list_lookup_insert_eq by lia. revert Hoj. repeat case_bool; done || lia. }
  rewrite list_lookup_insert_ne by lia. rewrite (Ho j Hj). repeat case_bool; done || lia.
Qed.

Lemma swap_spec out w :
  (w <= length out)%nat ->
  exists o, for_up (w / 2) 0 (swap_body w) out = Some o /\ length o = length out /\
    take w o = reverse (take w out).
Proof.
  intros Hw. destruct (for_up_rule (fun i o => swapped o out w i) (w / 2) 0 (swap_body w) out) as (o & Hf & Hl & Ho).
  - split; [done|]. intros j Hj. repeat case_bool; done || lia.
  - intros j t Hj. apply swap_step; lia.
  - exists o. split; [done|]. split; [done|]. rewrite Nat.add_0_l in Ho.
    pose proof (Nat.div_mod w 2 ltac:(lia)). pose proof (Nat.mod_upper_bound w 2 ltac:(lia)).
    apply list_eq. intros j. destruct (decide (j < w)%nat) as [Hj|Hj].
    + rewrite lookup_take_lt, reverse_lookup, length_take_le, lookup_take_lt, (Ho j Hj) by (rewrite ?length_take_le; lia).
      replace (w - S j)%nat with (w - 1 - j)%nat by lia. repeat case_bool; try done. f_equal; lia.
    + rewrite !lookup_ge_None_2; [done| |]; rewrite ?length_reverse, ?length_take; lia.
Qed.

(** ** The printed string *)

Lemma top_nonzero_reverse out w :
  (w <= length out)%nat -> top_nonzero out w ->
  exists c t, reverse (take w out) = c :: t /\ digit_value c <> 0.
Proof.
  intros Hw (c & Hp & Hc & Hd). exists c, (reverse (take (pred w) out)). split; [|done].
  rewrite <- reverse_snoc, <- (take_S_r _ _ c Hc). do 2 f_equal. lia.
Qed.

Lemma base_ok base : 2 <= base <= 36 -> ASSERT ((2 <=? base) && (base <=? 36)) = Some tt.
Proof. intros. unfold ASSERT. repeat case_bool; done || lia. Qed.

(** A leading digit bounds the number of characters. *)
Lemma top_room base out w T M :
  2 <= base <= 36 -> emitted base out w T -> top_nonzero out w -> T < 2 ^ Z.of_nat M -> (0 < w <= M)%nat.
Proof.
  intros Hb (Hw & Hd & HT) (c & Hp & Hc & Hne) HTM. split; [done|]. destruct w as [|w]; [lia|]. simpl in Hc.
  rewrite (take_S_r _ _ c Hc) in *. apply Forall_app in Hd as [Hd1 Hd2]. inversion_clear Hd2 as [|? ? Hdc _].
  rewrite rval_app, length_take_le in HT by lia. cbn [rval] in HT.
  pose proof (digit_char_nonneg base c Hdc) as Hcn.
  assert (0 <= rval base (take w out)) by (apply (emitted_nonneg base Hb out w); split_and!; [lia|exact Hd1|done]).
  apply (room base Hb T M HTM (rval base (take w out)) w (digit_value c)); lia.
Qed.

Lemma canonical_zero base out :
  2 <= base <= 36 -> (1 <= length out)%nat -> canonical base (take 1 (<[0%nat := chr "0"]> out)) 0.
Proof.
  intros Hb Hl. destruct out as [|x out]; [simpl in Hl; lia|]. split; [|split; [change (0 + base * 0 = 0); lia|by left]].
  repeat constructor. exists 0. split; [lia|done].
Qed.

Lemma print_start base a na va out :
  2 <= base <= 36 -> nmag a na va -> na <> 0%nat -> (na * 32 < length out)%nat ->
  exists work, memcpy (calloc na) 0 a 0 na = Some work /\
    print_inv base va (length out) na (work, na, calloc na, (out, O)) /\
    (print_measure (work, na, calloc na, (out, O)) <= na * 32)%nat.
Proof.
  intros Hb Ha Hna Hl. assert (length (calloc na) = na) as Hlc by apply length_replicate.
  destruct (copy_norm a na va (calloc na) Ha (u32buf_calloc na) ltac:(lia)) as (work & Hw & HW & Hlw).
  exists work. split; [done|]. split.
  - split_and!; [lia|done|apply u32buf_calloc|done|lia|]. exists va, 0. split; [done|]. split; [|simpl; lia].
    split_and!; [lia|constructor|done].
  - cbn [print_measure]. rewrite (proj2 (proj2 (proj1 HW))). apply log2_double_bound.
    pose proof (mag_range _ _ _ (proj1 HW)). rewrite Bp_pow2 in *. replace (Z.of_nat (na * 32)) with (32 * Z.of_nat na) by lia. done.
Qed.

Lemma bigIntToString_spec a na va base out :
  nmag a na va -> 2 <= base <= 36 -> (bigIntStringSize na base <= length out)%nat ->
  exists out' n, bigIntToString a na base out = Some (out', n) /\ length out' = length out /\
    (0 < n <= bigIntStringSize na base)%nat /\ canonical base (take n out') va.
Proof.
  intros Ha Hb Hl. unfold bigIntToString. step (base_ok base Hb).
  assert (bigIntStringSize na base = na * 32 + 1)%nat as Hsz by done.
  destruct (Nat.eqb_spec na 0) as [->|Hna].
  { rewrite (proj1 (nmag_zero _ _ _ Ha) eq_refl). destruct (Nat.ltb_spec (length out) 1); [lia|].
    step (put_Some out 0 (chr "0") ltac:(lia)). eexists _, _; split; [done|]. rewrite length_insert.
    split; [done|]. split; [lia|]. by apply canonical_zero; [|lia]. }
  destruct (Nat.ltb_spec (length out) (bigIntStringSize na base)); [lia|].
  destruct (chunk_of_spec base Hb) as (cd & Hcd & Hcd1 & HcdB). step Hcd.
  destruct (print_start base a na va out Hb Ha Hna ltac:(lia)) as (work & Hw & HI & Hms). step Hw.
  assert (va < 2 ^ Z.of_nat (na * 32)) as HT.
  { pose proof (mag_range _ _ _ (proj1 Ha)). rewrite Bp_pow2 in *. replace (Z.of_nat (na * 32)) with (32 * Z.of_nat na) by lia. lia. }
  destruct (loop_rule (print_inv base va (length out) na)
    (fun '(o, w) => length o = length out /\ emitted base o w va /\ top_nonzero o w)
    print_measure (na * 32 + 2) (toString_body base (base ^ Z.of_nat cd) cd) (work, na, calloc na, (out, O)))
    as ([o w] & Hf & Hlo & He & Ht); [done| |lia|].
  { apply (print_step base Hb va (na * 32)); [done|lia|done|done]. }
  step Hf. pose proof (top_room base o w va _ Hb He Ht HT) as Hw'.
  destruct (swap_spec o w ltac:(lia)) as (o' & Hs & Hlo' & Hrev). step Hs. exists o', w. split; [done|].
  split; [lia|]. split; [lia|]. pose proof He as (_ & Hd & Hv). rewrite Hrev. split; [by apply Forall_reverse|]. split.
  - unfold sval. by rewrite reverse_involutive.
  - right. apply top_nonzero_reverse; [lia|done].
Qed.

(** ** Parsing *)

Section Parse.
Context (base : Z) (Hb : 2 <= base <= 36).

(** Characters that are digits of the base, of either case. *)
Definition valid_digit (c : Z) : Prop := 0 <= digit_value c < base.

Lemma sval_bound l : Forall valid_digit l -> 0 <= sval base l < base ^ Z.of_nat (length l).
Proof.
  intros Hl. rewrite <- (length_reverse l). unfold sval. apply Forall_reverse in Hl.
  induction Hl as [|c k Hc Hk IH]; cbn [rval length]; [rewrite Z.pow_0_r; lia|].
  rewrite base_pow_S. unfold valid_digit in Hc. nia.
Qed.

Lemma sval_app l k : sval base (l ++ k) = sval base l * base ^ Z.of_nat (length k) + sval base k.
Proof. unfold sval. rewrite reverse_app, rval_app, length_reverse by lia. ring. Qed.

Lemma bigIntFromStringSize_spec len :
  exists bits, bigIntFromStringSize len base = Some ((len * bits + 32 - 1) / 32 + 1)%nat /\
    base <= 2 ^ Z.of_nat bits.
Proof.
  unfold bigIntFromStringSize. step (base_ok base Hb).
  destruct (loop_rule (fun '(v, bits) => v = (base - 1) / 2 ^ Z.of_nat bits) (fun bits => base <= 2 ^ Z.of_nat bits)
    (fun st => Z.to_nat (Z.log2 (2 * st.1))) 33 bits_body (base - 1, O)) as (bits & Hl & Hbits).
  - by rewrite Z.pow_0_r, Z.div_1_r.
  - intros [v bits] ->. unfold bits_body. pose proof (base_pow_pos 2 bits ltac:(lia)) as Hp.
    set (x := (base - 1) / 2 ^ Z.of_nat bits). assert (0 <= x) by (apply Z.div_pos; lia).
    destruct (Z.eqb_spec x 0) as [E|Hne].
    + eexists; split; [done|]. unfold x in E.
      apply Z.div_small_iff in E; [|lia].
      cbv beta iota. lia.
    + eexists; split; [done|]. cbn [fst]. rewrite Z.shiftr_div_pow2 by lia. change (2 ^ 1) with 2. split.
      * rewrite (base_pow_S 2), Z.mul_comm. unfold x. apply Z.div_div; lia.
      * apply half_measure; [lia|apply Z.div_pos; lia|]. pose proof (Z.mul_div_le x 2 ltac:(lia)). lia.
  - cbn [fst]. pose proof (log2_double_bound (base - 1) 6 ltac:(simpl; lia)). lia.
  - step Hl. eauto.
Qed.

(** The digits before position [pos] fit the limbs the size function asks for, with one to spare. *)
Lemma digits_fit len bits pos :
  base <= 2 ^ Z.of_nat bits -> (pos <= len)%nat ->
  base ^ Z.of_nat pos <= Bp ((len * bits + 32 - 1) / 32).
Proof.
  intros Hbits Hpos. rewrite Bp_pow2.
  transitivity ((2 ^ Z.of_nat bits) ^ Z.of_nat pos); [apply Z.pow_le_mono_l; lia|].
  rewrite <- Z.pow_mul_r by lia. apply Z.pow_le_mono_r; [lia|].
  pose proof (Nat.div_mod (len * bits + 32 - 1) 32 ltac:(lia)) as Hdm.
  pose proof (Nat.mod_upper_bound (len * bits + 32 - 1) 32 ltac:(lia)).
  pose proof (Nat.mul_le_mono_r pos len bits Hpos). lia.
Qed.

Lemma chunk_digits_spec digits pos k cd :
  (pos + k <= length digits)%nat -> Forall valid_digit (take k (drop pos digits)) ->
  (k <= cd)%nat -> base ^ Z.of_nat cd < BASE ->
  for_up k 0 (chunk_digit_body digits base pos) (0, 1) =
    Some (sval base (take k (drop pos digits)), base ^ Z.of_nat k).
Proof.
  intros Hl Hv Hk Hcd.
  destruct (for_up_rule (fun i '(chunk, scale) => chunk = sval base (take i (drop pos digits)) /\ scale = base ^ Z.of_nat i)
    k 0 (chunk_digit_body digits base pos) (0, 1)) as ([c s] & Hf & -> & ->); [done| |done].
  intros i [c s] Hi [-> ->]. unfold chunk_digit_body.
  destruct (lookup_Some_lt digits (pos + i)) as [x Hx]; [lia|]. step Hx.
  eexists; split; [done|]. rewrite <- lookup_drop in Hx. rewrite (take_S_r _ _ x Hx), sval_snoc by lia.
  assert (base ^ Z.of_nat (S i) <= base ^ Z.of_nat cd) by (apply Z.pow_le_mono_r; lia).
  assert (Forall valid_digit (take (S i) (drop pos digits))) as Hv'.
  { replace (take (S i) _) with (take (S i) (take k (drop pos digits))) by (rewrite take_take; f_equal; lia).
    by apply Forall_take. }
  rewrite (take_S_r _ _ x Hx) in Hv'. apply Forall_app in Hv' as [Hv1 Hvx]. inversion_clear Hvx as [|? ? Hvd _].
  pose proof (sval_bound _ Hv1) as Hs. rewrite length_take_le in Hs by (rewrite length_drop; lia).
  unfold valid_digit in Hvd. rewrite (base_pow_S base) in *. pose proof (base_pow_pos base i ltac:(lia)).
  set (C := sval base (take i (drop pos digits))) in *. set (P := base ^ Z.of_nat i) in *. unfold BASE in *.
  assert (C * base + base <= P * base) by (replace (C * base + base) with ((C + 1) * base) by ring; apply Z.mul_le_mono_nonneg_r; lia).
  assert (0 <= C * base) by (apply Z.mul_nonneg_nonneg; lia).
  rewrite (u32_id (C * base)), (u32_id (digit_value x)), (u32_id (P * base)), u32_id by lia. lia.
Qed.

(** Multiply-and-add over the limbs in use. *)
Lemma scale_spec out n scale chunk :
  u32buf out -> (n <= length out)%nat -> 0 <= scale < BASE -> 0 <= chunk < BASE ->
  exists o carry, for_up n 0 (scale_body scale) (out, chunk) = Some (o, carry) /\
    length o = length out /\ u32buf o /\ 0 <= carry < BASE /\
    pv o n + Bp n * carry = pv out n * scale + chunk.
Proof.
  intros Ho Hn Hs Hc.
  destruct (for_up_rule (fun i '(o, carry) => length o = length out /\ u32buf o /\ 0 <= carry < BASE /\
      (forall j, (i <= j)%nat -> o !! j = out !! j) /\ pv o i + Bp i * carry = pv out i * scale + chunk)
    n 0 (scale_body scale) (out, chunk)) as ([o c] & Hf & Hl & Hbo & Hcb & _ & Hv); [| |by exists o, c].
  - split_and!; try done; lia || rewrite !pv_0, Bp_0; lia.
  - intros i [o c] Hi (Hl & Hbo & Hcb & Hsame & Hv). unfold scale_body.
    destruct (lookup_Some_lt o i) as [x Hx]; [lia|]. step Hx. pose proof (u32buf_lookup _ _ _ Hbo Hx) as Hxb.
    assert (0 <= x * scale <= (BASE - 1) * (BASE - 1)).
    { split; [apply Z.mul_nonneg_nonneg; lia|]. apply Z.mul_le_mono_nonneg; lia. }
    rewrite (u64_id (x * scale)), u64_id by (unfold BASE in *; lia). rewrite u32_land_mask, shiftr_limb.
    destruct (limb_split (x * scale + c) ltac:(lia)) as (Hsp & Hm & Hd).
    destruct (put_limb o i ((x * scale + c) mod BASE) Hbo ltac:(lia) Hm) as (o' & Hp & Hbo' & Hl' & _ & HpS & ->).
    step Hp. eexists; split; [done|]. split_and!; [lia|done|lia| | |].
    + apply Z.div_lt_upper_bound; unfold BASE in *; lia.
    + intros j Hj. rewrite list_lookup_insert_ne by lia. apply Hsame. lia.
    + rewrite HpS, (pv_S out i x), Bp_S by (rewrite <- Hsame by lia; done).
      set (m := (x * scale + c) mod BASE) in *. set (q := (x * scale + c) / BASE) in *.
      transitivity (pv o i + Bp i * (m + BASE * q)); [ring|]. rewrite <- Hsp. lia.
Qed.

Lemma append_carry_spec cap out n carry :
  u32buf out -> (cap <= length out)%nat -> 0 <= carry < BASE -> (carry <> 0 -> (n < cap)%nat) ->
  exists o m, loop 3 (append_carry_body cap) (out, n, carry) = Some (o, m) /\
    length o = length out /\ u32buf o /\ (n <= m <= S n)%nat /\ (n <= cap -> m <= cap)%nat /\
    pv o m = pv out n + Bp n * carry.
Proof.
  intros Ho Hcap Hc Hn. destruct (Z.eqb_spec carry 0) as [->|Hne].
  { exists out, n. split_and!; try done; lia. }
  specialize (Hn Hne).
  destruct (put_limb out n carry Ho ltac:(lia) Hc) as (o & Hp & Hbo & Hl & _ & Hv & _).
  assert (append_carry_body cap (out, n, carry) = Some (inl (o, S n, 0))) as E1.
  { unfold append_carry_body. rewrite (proj2 (Z.eqb_neq carry 0) Hne), (ltb_true n cap Hn).
    cbn [ASSERT mbind option_bind]. by rewrite u32_land_mask, shiftr_limb, Z.mod_small, Z.div_small, Hp by lia. }
  exists o, (S n). split; [cbn [loop]; by rewrite E1|]. split_and!; try done; lia.
Qed.

Section ParseLoop.
Context (digits : list Z) (len : nat) (Hlen : (len <= length digits)%nat)
  (Hdig : Forall valid_digit (take len digits)).
Context (cd : nat) (Hcd : (1 <= cd)%nat) (HcdB : base ^ Z.of_nat cd < BASE).
Context (cap L : nat) (HcapL : (cap <= L)%nat)
  (Hfit : forall pos, (pos <= len)%nat -> base ^ Z.of_nat pos <= Bp (pred cap)).

Definition parse_inv (st : list Z * nat * nat) : Prop :=
  let '(out, n, pos) := st in
  length out = L /\ u32buf out /\ (n <= cap)%nat /\ (pos <= len)%nat /\ pv out n = sval base (take pos digits).

Lemma take_digits pos k : (pos + k <= len)%nat ->
  Forall valid_digit (take k (drop pos digits)) /\ Forall valid_digit (take (pos + k) digits) /\
  take (pos + k) digits = take pos digits ++ take k (drop pos digits).
Proof.
  intros Hk. assert (take (pos + k) digits = take pos digits ++ take k (drop pos digits)) as E.
  { rewrite <- (take_drop pos (take (pos + k) digits)), take_take, skipn_firstn_comm.
    do 2 f_equal; lia. }
  assert (Forall valid_digit (take (pos + k) digits)) as HF.
  { replace (take (pos + k) digits) with (take (pos + k) (take len digits)) by (rewrite take_take; f_equal; lia).
    by apply Forall_take. }
  split; [|done]. rewrite E in HF. by apply Forall_app in HF as [_ ?].
Qed.

Lemma parse_step st : parse_inv st ->
  exists r, fromString_body digits len base cd cap st = Some r /\
    match r with
    | inl t' => parse_inv t' /\ (len - t'.2 < len - st.2)%nat
    | inr (out, n) => parse_inv (out, n, len)
    end.
Proof.
  destruct st as [[out n] pos]. intros (Hl & Ho & Hn & Hpos & Hv). unfold fromString_body.
  destruct (Nat.ltb_spec pos len) as [Hlt|]; [|exists (inr (out, n)); replace len with pos by lia; split_and!; done || lia].
  set (k := (if len - pos <? cd then len - pos else cd)%nat).
  assert (1 <= k <= cd /\ pos + k <= len)%nat as [Hk Hpk] by (unfold k; case_bool; lia).
  destruct (take_digits pos k Hpk) as (HF & HF' & HE).
  step (chunk_digits_spec digits pos k cd ltac:(lia) HF ltac:(lia) HcdB).
  assert (length (take k (drop pos digits)) = k) as Hlk by (rewrite length_take_le; rewrite ?length_drop; lia).
  pose proof (sval_bound _ HF) as Hch. rewrite Hlk in Hch.
  assert (base ^ Z.of_nat k <= base ^ Z.of_nat cd) by (apply Z.pow_le_mono_r; lia).
  destruct (scale_spec out n (base ^ Z.of_nat k) (sval base (take k (drop pos digits))) Ho ltac:(lia) ltac:(lia) ltac:(lia))
    as (o & carry & Hf & Hlo & Hbo & Hcb & Hval). step Hf.
  rewrite Hv in Hval. replace (_ * _ + _) with (sval base (take (pos + k) digits)) in Hval
    by (rewrite HE, sval_app, Hlk; done).
  pose proof (sval_bound _ HF') as Hub. rewrite length_take_le in Hub by lia.
  specialize (Hfit (pos + k) Hpk). pose proof (pv_bound o n Hbo).
  destruct (append_carry_spec cap o n carry Hbo ltac:(lia) Hcb) as (o' & m & Ha & Hlo' & Hbo' & _ & Hm & Hval').
  { intros Hne. destruct (Nat.lt_ge_cases n cap) as [|Hge]; [done|exfalso].
    pose proof (Bp_mono (pred cap) n ltac:(lia)). pose proof (Bp_pos n).
    assert (Bp n * 1 <= Bp n * carry) by (apply Z.mul_le_mono_nonneg_l; lia). lia. }
  step Ha. eexists; split; [done|]. cbn [snd]. split; [|lia]. split_and!; [lia|done|auto|lia|congruence].
Qed.
End ParseLoop.

Lemma bigIntFromString_spec digits len out cap :
  bigIntFromStringSize len base = Some cap -> (len <= length digits)%nat ->
  Forall valid_digit (take len digits) -> u32buf out -> (cap <= length out)%nat ->
  exists out' n, bigIntFromString digits len base out = Some (out', n) /\
    length out' = length out /\ (n <= cap)%nat /\ nmag out' n (sval base (take len digits)).
Proof.
  intros Hcap Hlen Hdig Ho Hl. unfold bigIntFromString. step (base_ok base Hb). step Hcap.
  destruct (bigIntFromStringSize_spec len) as (bits & Hbs & Hbits). rewrite Hcap in Hbs. injection Hbs as Hc.
  destruct (memset0_spec out cap Ho Hl) as (o & Hms & Hlo & Hbo & _ & _). step Hms.
  destruct (chunk_of_spec base Hb) as (cd & Hcd & Hcd1 & HcdB). step Hcd.
  destruct (loop_rule (parse_inv digits len cap (length out)) (fun '(o, n) => parse_inv digits len cap (length out) (o, n, len))
    (fun st => len - st.2)%nat (S len) (fromString_body digits len base cd cap) (o, O, O)) as ([o' n] & Hf & Hlo' & Hbo' & Hn & _ & Hv).
  - split_and!; try done; lia.
  - apply parse_step; try done. intros pos Hpos. rewrite Hc, Nat.add_1_r, Nat.pred_succ. by apply digits_fit.
  - cbn [snd]. lia.
  - step Hf. destruct (bigIntNormalize_spec o' n ltac:(lia) Hbo') as (m & Hm & Hmn & Hnm). step Hm.
    exists o', m. split; [done|]. split; [done|]. split; [lia|]. by rewrite Hv in Hnm.
Qed.
End Parse.

(** ** Properties *)

(** C35. Printing in any base from 2 to 36 stays within [bigIntStringSize]
    characters and writes the canonical digit string of the value: digits of
    the base only, most significant first, no leading zero (a single 0 for
    zero), although interior chunks are padded. *)
Theorem bigIntToString_canonical a na va base out :
  nmag a na va -> 2 <= base <= 36 -> (bigIntStringSize na base <= length out)%nat ->
  exists out' n, bigIntToString a na base out = Some (out', n) /\ length out' = length out /\
    (0 < n <= bigIntStringSize na base)%nat /\ canonical base (take n out') va.
Proof. apply bigIntToString_spec. Qed.

Lemma bigIntToString_canonical_witness :
  exists out' n, bigIntToString [0; 1] 2 16 (calloc 65) = Some (out', n) /\ canonical 16 (take n out') (2 ^ 32).
Proof.
  destruct (bigIntToString_canonical [0; 1] 2 (2 ^ 32) 16 (calloc 65)) as (o & n & H1 & _ & _ & H2).
  - split; [split; [done|]; split; [repeat constructor|]; done|right; eexists; split; [reflexivity|discriminate]].
  - lia.
  - apply Nat.leb_le. reflexivity.
  - exists o, n. split; [exact H1|exact H2].
Defined.

(** Parsing [len] digits of the base, of either case, needs at most
    [bigIntFromStringSize] limbs (its capacity assertion never fails) and
    gives the normalized value of the digit string. *)
Theorem bigIntFromString_value base digits len out cap :
  2 <= base <= 36 -> bigIntFromStringSize len base = Some cap -> (len <= length digits)%nat ->
  Forall (valid_digit base) (take len digits) -> u32buf out -> (cap <= length out)%nat ->
  exists out' n, bigIntFromString digits len base out = Some (out', n) /\
    length out' = length out /\ (n <= cap)%nat /\ nmag out' n (sval base (take len digits)).
Proof. intros Hb. by apply bigIntFromString_spec. Qed.

Lemma bigIntFromString_value_witness :
  exists out' n, bigIntFromString (bytes_of_string "Ff") 2 16 [0; 0] = Some (out', n) /\ nmag out' n 255.
Proof.
  destruct (bigIntFromString_value 16 (bytes_of_string "Ff") 2 [0; 0] 2) as (o & n & H1 & _ & _ & H2).
  - lia.
  - reflexivity.
  - done.
  - repeat constructor; vm_compute; congruence.
  - repeat constructor; done.
  - done.
  - exists o, n. split; [exact H1|exact H2].
Defined.
