(* ===== verification/Tagging.v ===== *)
(** * Tagged values

    [src/vm/core/Object.h]: the 64-bit [Value] word.  The low two bits say
    what it holds: a 62-bit SmallInteger, a pointer to a heap object, a
    Character, or a SmallFloat64.  Words are [Z] in [0, 2^64); a double is the
    word of its IEEE-754 bits, which is all [doubleToBits] and [bitsToDouble]
    exchange.  The main results: each tagging is undone by its reader, the
    four kinds never share a word, tagged floats are a bijection with the
    doubles [smallFloatFits] accepts, and those are exactly the zeros and the
    biased exponents 768..1279 but for the two values the code reserves. *)
From S2P Require Import Prelude.

(** ** The code *)

Definition HEADER_SIZE : Z := 16.
Definition SPACE_TAG : Z := 8.
Definition NEW_SPACE_TAG : Z := SPACE_TAG.
Definition OLD_SPACE_TAG : Z := 0.
Definition HEAP_OBJECT_ALIGN : Z := 16.

Definition TAG_FREESPACE : Z := 1.
Definition TAG_MARKED : Z := 4.
Definition TAG_FORWARDED : Z := 8.
Definition TAG_FINALIZED : Z := 16.
Definition TAG_REMEMBERED : Z := 32.

Inductive ValueType := VALUE_INT | VALUE_POINTER | VALUE_CHAR | VALUE_FLOAT.

Definition type_code (t : ValueType) : Z :=
  match t with VALUE_INT => 0 | VALUE_POINTER => 1 | VALUE_CHAR => 2 | VALUE_FLOAT => 3 end.

#[export] Instance ValueType_eq_dec : EqDecision ValueType.
Proof. solve_decision. Defined.

Definition valueTypeOf (value : Z) (type : ValueType) : bool := Z.land value 3 =? type_code type.

Record InstanceShape := {
  tag : Z;
  payloadSize : Z;
  varsSize : Z;
  isIndexed : bool;
  isBytes : bool;
  valueType : Z;
  size : Z;
}.

Definition computeInstanceSize (shape : InstanceShape) (n : Z) : Z :=
  let varSize := if isBytes shape then 1 else 8 in
  u64 (size shape + n * varSize).

(** The address of the first named variable, and of the first indexed one, of
    an object at [object]. *)
Definition getRawObjectVarsFromShape (object : Z) (shape : InstanceShape) : Z :=
  object + HEADER_SIZE + (Z.b2z (isIndexed shape) + payloadSize shape) * 8.

Definition getRawObjectIndexedVarsFromShape (object : Z) (shape : InstanceShape) : Z :=
  getRawObjectVarsFromShape object shape + varsSize shape * 8.

Definition isNewObject (object : Z) : bool := Z.land object SPACE_TAG =? NEW_SPACE_TAG.
Definition isOldObject (object : Z) : bool := Z.land object SPACE_TAG =? OLD_SPACE_TAG.

Definition asCInt (value : Z) : option Z :=
  _ ← ASSERT (Z.land value 3 =? type_code VALUE_INT);
  Some (Z.shiftr (i64 value) 2).

Definition tagInt (i : Z) : option Z :=
  let max := Z.shiftl 1 61 - 1 in
  let min := - Z.shiftl 1 61 in
  _ ← ASSERT ((min <=? i) && (i <=? max));
  Some (u64 (Z.shiftl i 2)).

(** A plain [char] is signed on some targets and unsigned on others. *)
Definition char_of (signed : bool) (x : Z) : Z :=
  if signed then (u8 x + 2 ^ 7) mod 2 ^ 8 - 2 ^ 7 else u8 x.

Definition char_range (signed : bool) (c : Z) : Prop :=
  if signed then - 2 ^ 7 <= c < 2 ^ 7 else 0 <= c < 2 ^ 8.

Definition asCChar (signed : bool) (value : Z) : option Z :=
  _ ← ASSERT (Z.land value 3 =? type_code VALUE_CHAR);
  Some (char_of signed (u8 (Z.shiftr value 2))).

Definition tagChar (ch : Z) : Z := u64 (u64 (Z.shiftl (u8 ch) 2) + type_code VALUE_CHAR).

Definition asObject (value : Z) : option Z :=
  _ ← ASSERT (Z.land value 3 =? type_code VALUE_POINTER);
  Some (u64 (value - 1)).

Definition tagPtr (object : Z) : Z := u64 (object + type_code VALUE_POINTER).

Definition SMALLFLOAT_OFFSET : Z := Z.shiftl 768 53.

(** [((bits << 1) | (bits >> 63)) - SMALLFLOAT_OFFSET] *)
Definition float_payload (bits : Z) : Z :=
  u64 (Z.lor (u64 (Z.shiftl bits 1)) (Z.shiftr bits 63) - SMALLFLOAT_OFFSET).

Definition float_is_zero (bits : Z) : bool := Z.land bits (Z.lxor (Z.ones 64) (Z.shiftl 1 63)) =? 0.

Definition payload_ok (payload : Z) : bool := (2 <=? payload) && (payload <? Z.shiftl 1 62).

Definition smallFloatFits (bits : Z) : bool :=
  if float_is_zero bits then true else payload_ok (float_payload bits).

Definition tagFloat (bits : Z) : option Z :=
  payload ← (if float_is_zero bits then Some (Z.shiftr bits 63)
             else _ ← ASSERT (payload_ok (float_payload bits)); Some (float_payload bits));
  Some (Z.lor (u64 (Z.shiftl payload 2)) (type_code VALUE_FLOAT)).

Definition floatValueOf (value : Z) : option Z :=
  _ ← ASSERT (Z.land value 3 =? type_code VALUE_FLOAT);
  let payload := Z.shiftr value 2 in
  let bits := if payload <=? 1 then payload else u64 (payload + SMALLFLOAT_OFFSET) in
  Some (Z.lor (Z.shiftr bits 1) (u64 (Z.shiftl bits 63))).

(** ** Words *)

Lemma type_code_range t : 0 <= type_code t < 4.
Proof. destruct t; simpl; lia. Qed.

Lemma type_code_inj t u : type_code t = type_code u -> t = u.
Proof. destruct t, u; done. Qed.

Lemma land3 x : Z.land x 3 = x mod 4.
Proof. change 3 with (Z.ones 2). by rewrite Z.land_ones by lia. Qed.

(** The low bits of a word built from a payload and a type. *)
Lemma low_bits x t : (x * 4 + type_code t) mod 4 = type_code t.
Proof. rewrite Z.add_comm, Z.mod_add by lia. apply Z.mod_small, type_code_range. Qed.

Lemma valueTypeOf_iff x t : valueTypeOf x t = true <-> x mod 4 = type_code t.
Proof. unfold valueTypeOf. rewrite land3. apply Z.eqb_eq. Qed.

Lemma ASSERT_eqb x y : x = y -> ASSERT (x =? y) = Some tt.
Proof. intros ->. unfold ASSERT. by rewrite Z.eqb_refl. Qed.

(** What the word of a type and a 62-bit payload is. *)
Definition word (payload : Z) (t : ValueType) : Z := payload * 4 + type_code t.

Lemma word_range p t : 0 <= p < 2 ^ 62 -> 0 <= word p t < 2 ^ 64.
Proof. pose proof (type_code_range t). unfold word. lia. Qed.

Lemma word_low p t : Z.land (word p t) 3 = type_code t.
Proof. unfold word. by rewrite land3, low_bits. Qed.

Lemma word_payload p t : Z.shiftr (word p t) 2 = p.
Proof.
  rewrite Z.shiftr_div_pow2 by lia. change (2 ^ 2) with 4. unfold word.
  rewrite Z.add_comm, Z.div_add, Z.div_small by (lia || apply type_code_range). done.
Qed.

Lemma word_inj p t q u : word p t = word q u -> p = q /\ t = u.
Proof.
  unfold word. intros E. pose proof (type_code_range t). pose proof (type_code_range u).
  assert (type_code t = type_code u) by lia. split; [lia|by apply type_code_inj].
Qed.

Lemma word_of w : 0 <= w < 2 ^ 64 -> forall t, Z.land w 3 = type_code t -> exists p, 0 <= p < 2 ^ 62 /\ w = word p t.
Proof.
  intros Hw t Ht. exists (w / 4). rewrite land3 in Ht. pose proof (Z.div_mod w 4 ltac:(lia)).
  unfold word. split; [|lia]. split; [apply Z.div_pos; lia|apply Z.div_lt_upper_bound; lia].
Qed.

(** ** SmallIntegers *)

Definition small (i : Z) : Prop := - 2 ^ 61 <= i < 2 ^ 61.

#[export] Instance small_dec i : Decision (small i).
Proof. unfold small. apply _. Defined.

Lemma tagInt_word i : small i -> tagInt i = Some (word (i mod 2 ^ 62) VALUE_INT).
Proof.
  intros Hi. unfold small in Hi. unfold tagInt. rewrite !Z.shiftl_mul_pow2 by lia. unfold ASSERT.
  destruct (Z.leb_spec (- (1 * 2 ^ 61)) i); [|lia]. destruct (Z.leb_spec i (1 * 2 ^ 61 - 1)); [|lia].
  cbn [andb mbind option_bind]. f_equal. unfold word, u64. cbn [type_code].
  change (2 ^ 64) with (2 ^ 62 * 2 ^ 2). rewrite Z.mul_mod_distr_r by lia. lia.
Qed.

Lemma asCInt_word i : small i -> asCInt (word (i mod 2 ^ 62) VALUE_INT) = Some i.
Proof.
  intros Hi. unfold small in Hi. unfold asCInt. rewrite ASSERT_eqb by apply word_low. cbn [mbind option_bind]. f_equal.
  rewrite Z.shiftr_div_pow2 by lia. unfold word, i64. cbn [type_code]. rewrite Z.add_0_r.
  destruct (Z.le_gt_cases 0 i).
  - rewrite (Z.mod_small i), Z.mod_small by lia. rewrite Z.add_simpl_r. by apply (Z.div_mul i 4).
  - replace (i mod 2 ^ 62) with (i + 2 ^ 62) by (symmetry; rewrite <- (Z.mod_add i 1 (2 ^ 62)), Z.mod_small by lia; lia).
    replace ((i + 2 ^ 62) * 4 + 2 ^ 63) with (i * 4 + 2 ^ 63 + 1 * 2 ^ 64) by lia.
    rewrite Z.mod_add, Z.mod_small by lia. rewrite Z.add_simpl_r. by apply (Z.div_mul i 4).
Qed.

(** ** Characters *)

Lemma u8_char signed c : char_range signed c -> char_of signed (u8 c) = c.
Proof.
  unfold char_range, char_of. rewrite (u8_id (u8 c)) by apply u8_range. destruct signed; [|apply u8_id].
  intros Hc. unfold u8. destruct (Z.le_gt_cases 0 c); [rewrite (Z.mod_small c), Z.mod_small by lia; lia|].
  replace (c mod 2 ^ 8) with (c + 2 ^ 8) by (symmetry; rewrite <- (Z.mod_add c 1 (2 ^ 8)), Z.mod_small by lia; lia).
  replace (c + 2 ^ 8 + 2 ^ 7) with (c + 2 ^ 7 + 1 * 2 ^ 8) by lia. rewrite Z.mod_add, Z.mod_small by lia. lia.
Qed.

Lemma tagChar_word c : tagChar c = word (u8 c) VALUE_CHAR.
Proof.
  pose proof (u8_range c). unfold tagChar, word. rewrite Z.shiftl_mul_pow2 by lia. change (2 ^ 2) with 4.
  cbn [type_code]. rewrite !u64_id; lia || rewrite ?u64_id; lia.
Qed.

Lemma asCChar_word signed p : 0 <= p < 2 ^ 8 -> asCChar signed (word p VALUE_CHAR) = Some (char_of signed p).
Proof.
  intros Hp. unfold asCChar. rewrite ASSERT_eqb by apply word_low. cbn [mbind option_bind].
  by rewrite word_payload, (u8_id p).
Qed.

(** ** Floats *)

(** The rotation by one, as arithmetic. *)
Definition rotl (bits : Z) : Z := 2 * (bits mod 2 ^ 63) + bits / 2 ^ 63.
Definition rotr (x : Z) : Z := x / 2 + 2 ^ 63 * (x mod 2).

Lemma rotl_range bits : 0 <= bits < 2 ^ 64 -> 0 <= rotl bits < 2 ^ 64.
Proof.
  intros Hb. unfold rotl. pose proof (Z.mod_pos_bound bits (2 ^ 63) ltac:(lia)).
  pose proof (Z.div_mod bits (2 ^ 63) ltac:(lia)). lia.
Qed.

Lemma rotr_rotl bits : 0 <= bits < 2 ^ 64 -> rotr (rotl bits) = bits.
Proof.
  intros Hb. unfold rotr, rotl. pose proof (Z.mod_pos_bound bits (2 ^ 63) ltac:(lia)).
  pose proof (Z.div_mod bits (2 ^ 63) ltac:(lia)) as Hd. set (m := bits mod 2 ^ 63) in *. set (s := bits / 2 ^ 63) in *.
  assert (0 <= s < 2) by lia.
  rewrite (Z.mul_comm 2 m), (Z.add_comm (m * 2) s), Z.div_add, Z.mod_add, Z.div_small, Z.mod_small by lia. lia.
Qed.

Lemma rotl_rotr x : 0 <= x < 2 ^ 64 -> rotl (rotr x) = x.
Proof.
  intros Hx. unfold rotr, rotl. pose proof (Z.mod_pos_bound x 2 ltac:(lia)).
  pose proof (Z.div_mod x 2 ltac:(lia)) as Hd. set (q := x / 2) in *. set (s := x mod 2) in *.
  rewrite (Z.mul_comm (2 ^ 63) s), Z.div_add, Z.mod_add, Z.div_small, Z.mod_small by lia. lia.
Qed.

Lemma rotr_range x : 0 <= x < 2 ^ 64 -> 0 <= rotr x < 2 ^ 64.
Proof.
  intros Hx. unfold rotr. pose proof (Z.mod_pos_bound x 2 ltac:(lia)). pose proof (Z.div_mod x 2 ltac:(lia)). lia.
Qed.

Lemma rotl_bits bits : 0 <= bits < 2 ^ 64 -> Z.lor (u64 (Z.shiftl bits 1)) (Z.shiftr bits 63) = rotl bits.
Proof.
  intros Hb. unfold u64. rewrite Z.shiftl_mul_pow2, Z.shiftr_div_pow2 by lia.
  change (2 ^ 64) with (2 ^ 63 * 2 ^ 1). rewrite Z.mul_mod_distr_r by lia. rewrite lor_mul_add; [unfold rotl; lia|lia|].
  split; [apply Z.div_pos|apply Z.div_lt_upper_bound]; lia.
Qed.

Lemma rotr_bits x : 0 <= x < 2 ^ 64 -> Z.lor (Z.shiftr x 1) (u64 (Z.shiftl x 63)) = rotr x.
Proof.
  intros Hb. unfold u64. rewrite Z.shiftl_mul_pow2, Z.shiftr_div_pow2 by lia.
  change (2 ^ 64) with (2 ^ 1 * 2 ^ 63). rewrite Z.mul_mod_distr_r by lia.
  rewrite Z.lor_comm, lor_mul_add; [unfold rotr; change (2 ^ 1) with 2; lia|lia|].
  split; [apply Z.div_pos|apply Z.div_lt_upper_bound]; lia.
Qed.

Lemma float_is_zero_iff bits : float_is_zero bits = true <-> bits mod 2 ^ 63 = 0.
Proof.
  unfold float_is_zero. replace (Z.lxor _ _) with (Z.ones 63) by reflexivity.
  rewrite Z.land_ones by lia. apply Z.eqb_eq.
Qed.

Lemma payload_ok_iff p : payload_ok p = true <-> 2 <= p < 2 ^ 62.
Proof.
  unfold payload_ok. rewrite Z.shiftl_mul_pow2 by lia. rewrite andb_true_iff, Z.leb_le, Z.ltb_lt. lia.
Qed.

(** An accepted payload is the exact distance of the rotated word from the offset. *)
Lemma payload_rot bits p :
  0 <= bits < 2 ^ 64 -> 2 <= p < 2 ^ 62 -> (float_payload bits = p <-> rotl bits = p + SMALLFLOAT_OFFSET).
Proof.
  intros Hb Hp. unfold float_payload. rewrite (rotl_bits _ Hb). pose proof (rotl_range _ Hb) as Hr.
  set (r := rotl bits) in *. change SMALLFLOAT_OFFSET with (768 * 2 ^ 53). unfold u64. split; [|intros ->; rewrite Z.mod_small; lia].
  destruct (Z.le_gt_cases (768 * 2 ^ 53) r); [rewrite Z.mod_small by lia; lia|].
  rewrite <- (Z.mod_add _ 1), Z.mod_small by lia. lia.
Qed.

(** The payload [tagFloat] stores. *)
Definition float_code (bits : Z) : Z := if float_is_zero bits then bits / 2 ^ 63 else float_payload bits.

Lemma float_code_range bits : 0 <= bits < 2 ^ 64 -> smallFloatFits bits = true -> 0 <= float_code bits < 2 ^ 62.
Proof.
  unfold smallFloatFits, float_code. intros Hb Hf. destruct (float_is_zero bits).
  - split; [apply Z.div_pos|apply Z.div_lt_upper_bound]; lia.
  - apply payload_ok_iff in Hf. lia.
Qed.

Lemma tagFloat_word bits :
  0 <= bits < 2 ^ 64 -> smallFloatFits bits = true -> tagFloat bits = Some (word (float_code bits) VALUE_FLOAT).
Proof.
  intros Hb Hf. pose proof (float_code_range _ Hb Hf) as Hc. unfold tagFloat, smallFloatFits, float_code, word in *.
  assert (forall p, 0 <= p < 2 ^ 62 -> Z.lor (u64 (Z.shiftl p 2)) (type_code VALUE_FLOAT) = p * 4 + type_code VALUE_FLOAT) as Hlor.
  { intros p Hp. rewrite Z.shiftl_mul_pow2, u64_id by lia. by apply lor_mul_add. }
  destruct (float_is_zero bits); cbn [mbind option_bind].
  - rewrite Z.shiftr_div_pow2 by lia. by rewrite Hlor.
  - rewrite Hf. cbn [ASSERT mbind option_bind]. by rewrite Hlor.
Qed.

Lemma floatValueOf_word p : 0 <= p < 2 ^ 62 ->
  floatValueOf (word p VALUE_FLOAT) = Some (rotr (if p <=? 1 then p else p + SMALLFLOAT_OFFSET)).
Proof.
  intros Hp. unfold floatValueOf. rewrite ASSERT_eqb by apply word_low. cbn [mbind option_bind].
  rewrite word_payload. change SMALLFLOAT_OFFSET with (768 * 2 ^ 53). f_equal.
  destruct (Z.leb_spec p 1); rewrite ?(u64_id (p + _)) by lia; apply rotr_bits; lia.
Qed.

Lemma float_decode bits :
  0 <= bits < 2 ^ 64 -> smallFloatFits bits = true ->
  rotr (if float_code bits <=? 1 then float_code bits else float_code bits + SMALLFLOAT_OFFSET) = bits.
Proof.
  intros Hb Hf. unfold smallFloatFits, float_code in *. destruct (float_is_zero bits) eqn:Hz.
  - apply float_is_zero_iff in Hz. pose proof (Z.div_mod bits (2 ^ 63) ltac:(lia)).
    set (s := bits / 2 ^ 63) in *. assert (s = 0 \/ s = 1) as [E|E] by lia; rewrite E;
      [change (0 = bits)|change (2 ^ 63 = bits)]; lia.
  - pose proof (proj1 (payload_ok_iff _) Hf) as Hp.
    pose proof (proj1 (payload_rot bits _ Hb Hp) eq_refl) as <-.
    destruct (Z.leb_spec (float_payload bits) 1); [lia|]. by apply rotr_rotl.
Qed.

Lemma float_encode p :
  0 <= p < 2 ^ 62 -> let bits := rotr (if p <=? 1 then p else p + SMALLFLOAT_OFFSET) in
  0 <= bits < 2 ^ 64 /\ smallFloatFits bits = true /\ float_code bits = p.
Proof.
  intros Hp bits. assert (0 <= bits < 2 ^ 64) as Hb.
  { apply rotr_range. change SMALLFLOAT_OFFSET with (768 * 2 ^ 53). case_bool; lia. }
  split; [done|]. unfold smallFloatFits, float_code. destruct (Z.leb_spec p 1) as [H1|H1].
  - assert (p = 0 \/ p = 1) as [E|E] by lia; unfold bits; rewrite E; done.
  - assert (float_payload bits = p) as Hpay.
    { apply payload_rot; [done|lia|]. apply rotl_rotr. change SMALLFLOAT_OFFSET with (768 * 2 ^ 53). lia. }
    destruct (float_is_zero bits) eqn:Hz; [exfalso|rewrite Hpay; split; [apply payload_ok_iff; lia|done]].
    apply float_is_zero_iff in Hz. pose proof (proj1 (payload_rot bits p Hb ltac:(lia)) Hpay) as Hr.
    unfold rotl in Hr. rewrite Hz in Hr. change SMALLFLOAT_OFFSET with (768 * 2 ^ 53) in Hr.
    assert (bits / 2 ^ 63 < 2) by (apply Z.div_lt_upper_bound; lia). lia.
Qed.

(** Biased exponent and mantissa of an IEEE-754 double. *)
Definition exponent (bits : Z) : Z := bits / 2 ^ 52 mod 2 ^ 11.
Definition mantissa (bits : Z) : Z := bits mod 2 ^ 52.

Lemma rotl_fields bits : 0 <= bits < 2 ^ 64 ->
  rotl bits = exponent bits * 2 ^ 53 + 2 * mantissa bits + bits / 2 ^ 63 /\
  bits mod 2 ^ 63 = exponent bits * 2 ^ 52 + mantissa bits /\
  0 <= exponent bits < 2 ^ 11 /\ 0 <= mantissa bits < 2 ^ 52 /\ 0 <= bits / 2 ^ 63 < 2.
Proof.
  intros Hb. assert (bits mod 2 ^ 63 = exponent bits * 2 ^ 52 + mantissa bits) as E.
  { unfold exponent, mantissa. change (2 ^ 63) with (2 ^ 52 * 2 ^ 11). rewrite Z.rem_mul_r by lia. lia. }
  unfold rotl. rewrite E. split; [lia|]. split; [done|].
  split; [apply Z.mod_pos_bound; lia|]. split; [apply Z.mod_pos_bound; lia|].
  split; [apply Z.div_pos|apply Z.div_lt_upper_bound]; lia.
Qed.

Lemma smallFloatFits_spec bits : 0 <= bits < 2 ^ 64 ->
  smallFloatFits bits = true <->
    (exponent bits = 0 /\ mantissa bits = 0) \/
    (768 <= exponent bits <= 1279 /\ ~ (exponent bits = 768 /\ mantissa bits = 0)).
Proof.
  intros Hb. destruct (rotl_fields bits Hb) as (Hr & Hm & He & Hma & Hs). unfold smallFloatFits.
  destruct (float_is_zero bits) eqn:Hz.
  { apply float_is_zero_iff in Hz. split; [intros _; left; lia|done]. }
  assert (bits mod 2 ^ 63 <> 0) as Hnz by (intros E; apply float_is_zero_iff in E; congruence).
  rewrite payload_ok_iff. split.
  - intros Hp. pose proof (proj1 (payload_rot bits _ Hb Hp) eq_refl) as E. rewrite Hr in E.
    change SMALLFLOAT_OFFSET with (768 * 2 ^ 53) in E. right. lia.
  - intros [?|?]; [lia|]. rewrite (proj2 (payload_rot bits (rotl bits - 768 * 2 ^ 53) Hb ltac:(lia))); [lia|].
    change SMALLFLOAT_OFFSET with (768 * 2 ^ 53). lia.
Qed.

(** ** Properties *)

(** Tagging an integer succeeds exactly on the signed 62-bit range: then
    the word has the integer type and [asCInt] reads the integer back; outside
    the range the assertion of [tagInt] fails. *)
Theorem tagInt_asCInt i :
  match tagInt i with
  | Some w => small i /\ 0 <= w < 2 ^ 64 /\ valueTypeOf w VALUE_INT = true /\ asCInt w = Some i
  | None => ~ small i
  end.
Proof.
  destruct (decide (small i)) as [Hs|Hs].
  - rewrite (tagInt_word i Hs). pose proof (Z.mod_pos_bound i (2 ^ 62) ltac:(lia)).
    split; [done|]. split; [by apply word_range|]. split; [|by apply asCInt_word].
    apply valueTypeOf_iff, low_bits.
  - unfold tagInt. rewrite !Z.shiftl_mul_pow2 by lia. unfold small in Hs.
    destruct (Z.leb_spec (- (1 * 2 ^ 61)) i); [|done]. destruct (Z.leb_spec i (1 * 2 ^ 61 - 1)); [lia|done].
Qed.

(** A character survives tagging whether plain [char] is signed or not,
    the word has the character type, and it only depends on the byte: bytes
    128..255 tag to the same word on both kinds of target. *)
Theorem tagChar_asCChar signed c :
  char_range signed c ->
  asCChar signed (tagChar c) = Some c /\ valueTypeOf (tagChar c) VALUE_CHAR = true /\
  tagChar (char_of (negb signed) c) = tagChar c.
Proof.
  intros Hc. pose proof (u8_range c). rewrite !tagChar_word, asCChar_word, u8_char by done.
  split; [done|]. split; [apply valueTypeOf_iff, low_bits|]. f_equal.
  destruct signed; cbn [negb char_of]; [apply u8_id, u8_range|]. unfold char_range in Hc.
  rewrite (u8_id c) by done. unfold u8. rewrite Zminus_mod, Z.mod_mod, <- Zminus_mod by lia.
  rewrite Z.add_simpl_r. by apply Z.mod_small.
Qed.

Lemma tagChar_asCChar_witness : asCChar true (tagChar (-2)) = Some (-2) /\ tagChar 254 = tagChar (-2).
Proof. destruct (tagChar_asCChar true (-2)) as (H1 & _ & H2); [simpl; lia|]. split; [exact H1|exact H2]. Defined.

(** C33. Encoding a double that [smallFloatFits] accepts succeeds, gives a
    word of the float type, and [floatValueOf] returns the same 64 bits; and
    every 64-bit word of the float type decodes to such a double, whose
    encoding is that word again. *)
Theorem smallFloat_bijection x :
  0 <= x < 2 ^ 64 ->
  (smallFloatFits x = true ->
     exists w, tagFloat x = Some w /\ 0 <= w < 2 ^ 64 /\ valueTypeOf w VALUE_FLOAT = true /\ floatValueOf w = Some x) /\
  (valueTypeOf x VALUE_FLOAT = true ->
     exists bits, floatValueOf x = Some bits /\ 0 <= bits < 2 ^ 64 /\ smallFloatFits bits = true /\ tagFloat bits = Some x).
Proof.
  intros Hx. split.
  - intros Hf. pose proof (float_code_range x Hx Hf) as Hc. eexists; split; [by apply tagFloat_word|].
    split; [by apply word_range|]. split; [apply valueTypeOf_iff, low_bits|].
    rewrite floatValueOf_word by done. by rewrite float_decode.
  - intros Ht%Z.eqb_eq. destruct (word_of x Hx _ Ht) as (p & Hp & ->).
    destruct (float_encode p Hp) as (Hb & Hf & Hc). eexists; split; [by apply floatValueOf_word|].
    split; [done|]. split; [done|]. rewrite tagFloat_word by done. by rewrite Hc.
Qed.

(** 1.0 is 0x3FF0000000000000. *)
Lemma smallFloat_bijection_witness : exists w, tagFloat 0x3FF0000000000000 = Some w /\ floatValueOf w = Some 0x3FF0000000000000.
Proof.
  destruct (proj1 (smallFloat_bijection 0x3FF0000000000000 ltac:(lia)) ltac:(reflexivity)) as (w & H1 & _ & _ & H2).
  exists w. split; [exact H1|exact H2].
Defined.

(** The doubles that become immediates are the two zeros and those with
    biased exponent 768..1279, except the two powers +-2^-255 whose payload
    would collide with the zeros'. *)
Theorem smallFloatFits_exact bits :
  0 <= bits < 2 ^ 64 ->
  smallFloatFits bits = true <->
    (exponent bits = 0 /\ mantissa bits = 0) \/
    (768 <= exponent bits <= 1279 /\ ~ (exponent bits = 768 /\ mantissa bits = 0)).
Proof. apply smallFloatFits_spec. Qed.

Lemma smallFloatFits_exact_witness : smallFloatFits 0x3FF0000000000000 = true.
Proof. apply (smallFloatFits_exact 0x3FF0000000000000); [lia|]. right. vm_compute. split; [split; discriminate|]. intros [? _]; discriminate. Defined.
