(* ===== verification/LargeInteger.v ===== *)
(** * LargeInteger primitives

    [src/vm/runtime/Primitives.c], the LargeInteger section: signed integers
    of any size over the magnitude kernels.  A LargeInteger is a byte-shaped
    object whose payload is the magnitude's limbs in native order and whose
    sign is its class; every result that fits 62 signed bits comes back as a
    SmallInteger instead.  The main result is a refinement: on operands that
    denote two integers, each primitive answers the one well-formed object
    that denotes the mathematical result (or fails exactly on a zero
    divisor or a bad argument). *)
From S2P Require Import Prelude BigIntCore BigIntMul BigIntDiv BigIntBits BigIntRadix Tagging.

(** ** Byte order

    [(const uint32_t * ) getRawObjectIndexedVars(object)] reads limbs in the
    machine's own order; the primitives rely on nothing but that reading a
    limb undoes writing it. *)

Definition byte (b : Z) : Prop := 0 <= b < 2 ^ 8.

Class NativeOrder := {
  limb_of : list Z -> Z;
  bytes_of : Z -> list Z;
  bytes_of_length : forall x, length (bytes_of x) = 4%nat;
  bytes_of_byte : forall x, Forall byte (bytes_of x);
  limb_of_bytes : forall x, 0 <= x < BASE -> limb_of (bytes_of x) = x;
  limb_of_range : forall l, Forall byte l -> length l = 4%nat -> 0 <= limb_of l < BASE;
}.

Definition le_bytes (x : Z) : list Z := [u8 x; u8 (Z.shiftr x 8); u8 (Z.shiftr x 16); u8 (Z.shiftr x 24)].

Definition le_limb (l : list Z) : Z :=
  match l with
  | [a; b; c; d] => a + 2 ^ 8 * (b + 2 ^ 8 * (c + 2 ^ 8 * d))
  | _ => 0
  end.

Lemma le_limb_bytes x : 0 <= x < BASE -> le_limb (le_bytes x) = x.
Proof.
  intros Hx. unfold BASE in Hx. unfold le_limb, le_bytes, u8. rewrite !Z.shiftr_div_pow2 by lia.
  change (2 ^ 16) with (2 ^ 8 * 2 ^ 8). change (2 ^ 24) with (2 ^ 8 * 2 ^ 8 * 2 ^ 8). rewrite <- !Z.div_div by lia.
  pose proof (Z.div_mod x (2 ^ 8) ltac:(lia)). set (y := x / 2 ^ 8) in *.
  pose proof (Z.mod_pos_bound x (2 ^ 8) ltac:(lia)).
  pose proof (Z.div_mod y (2 ^ 8) ltac:(lia)). set (z := y / 2 ^ 8) in *.
  pose proof (Z.mod_pos_bound y (2 ^ 8) ltac:(lia)).
  pose proof (Z.div_mod z (2 ^ 8) ltac:(lia)). pose proof (Z.mod_pos_bound z (2 ^ 8) ltac:(lia)).
  rewrite (Z.mod_small (z / 2 ^ 8)) by lia. lia.
Qed.

Lemma le_bytes_byte x : Forall byte (le_bytes x).
Proof. unfold le_bytes. repeat constructor; apply u8_range. Qed.

Lemma le_limb_range l : Forall byte l -> length l = 4%nat -> 0 <= le_limb l < BASE.
Proof.
  intros Hl Hn. destruct l as [|a [|b [|c [|d [|]]]]]; simplify_eq/=. unfold BASE, byte in *.
  repeat match goal with H : Forall _ (_ :: _) |- _ => inversion_clear H end. lia.
Qed.

#[export] Program Instance little_endian : NativeOrder := {| limb_of := le_limb; bytes_of := le_bytes |}.
Next Obligation. done. Qed.
Next Obligation. apply le_bytes_byte. Qed.
Next Obligation. apply le_limb_bytes. Qed.
Next Obligation. apply le_limb_range. Qed.

Program Definition big_endian : NativeOrder := {| limb_of := fun l => le_limb (reverse l); bytes_of := fun x => reverse (le_bytes x) |}.
Next Obligation. done. Qed.
Next Obligation. intros x. apply Forall_reverse, le_bytes_byte. Qed.
Next Obligation. intros x Hx. cbv beta. rewrite reverse_involutive. by apply le_limb_bytes. Qed.
Next Obligation. intros l Hl Hn. apply le_limb_range; [by apply Forall_reverse|by rewrite length_reverse]. Qed.

(** ** Objects

    A value as the primitives see it.  [VInt i] is the word [tagInt i];
    pointers are followed to the object's class and contents. *)

Record RawClass := { class_id : Z; instanceShape : InstanceShape }.

Inductive Value :=
  | VInt (i : Z)
  | VPointer (o : RawObject)
  | VChar (c : Z)
  | VFloat (bits : Z)
with RawObject :=
  | mkObject (class : RawClass) (body : Body)
with Body :=
  | BBytes (bytes : list Z)
  | BVars (vars : list Value)
  | BClass (c : RawClass).

Definition class_of (o : RawObject) : RawClass := let 'mkObject c _ := o in c.

Definition body_bytes (o : RawObject) : option (list Z) :=
  let 'mkObject _ b := o in match b with BBytes l => Some l | _ => None end.

Definition body_vars (o : RawObject) : option (list Value) :=
  let 'mkObject _ b := o in match b with BVars l => Some l | _ => None end.

(** A pointer cast to a class. *)
Definition body_class (o : RawObject) : option RawClass :=
  let 'mkObject _ b := o in match b with BClass c => Some c | _ => None end.

(** [asObject(v)] asserts the pointer tag. *)
Definition object_of (v : Value) : option RawObject :=
  match v with VPointer o => Some o | _ => None end.

(** [asCInt(v)] asserts the integer tag. *)
Definition int_of (v : Value) : option Z :=
  match v with VInt i => Some i | _ => None end.

Definition is_int (v : Value) : bool := match v with VInt _ => true | _ => false end.
Definition is_pointer (v : Value) : bool := match v with VPointer _ => true | _ => false end.

Inductive PrimitiveResult := primSuccess (v : Value) | primFailed.

Section Primitives.
Context `{NativeOrder}.

(** The limbs of a payload, four bytes each. *)
Fixpoint limbs_of_bytes (l : list Z) : list Z :=
  match l with
  | a :: b :: c :: d :: t => limb_of [a; b; c; d] :: limbs_of_bytes t
  | _ => []
  end.

Definition bytes_of_limbs (l : list Z) : list Z := concat (bytes_of <$> l).

(** The scratch limbs of a SmallInteger. *)
Definition scratch_limbs (i : Z) : list Z :=
  let magnitude := if i <? 0 then u64 (- i) else u64 i in
  [u32 (Z.land magnitude 0xFFFFFFFF); u32 (Z.shiftr magnitude 32)].

(** [Some None] is the answer 0 (not an operand); otherwise the limbs, their
    count and the sign, which is only set for a SmallInteger. *)
Definition largeIntOperand (v : Value) : option (option (list Z * nat * bool)) :=
  match v with
  | VInt i =>
      let scratch := scratch_limbs i in
      count ← bigIntNormalize scratch 2;
      Some (Some (scratch, count, i <? 0))
  | VPointer object =>
      let shape := instanceShape (class_of object) in
      if negb (isIndexed shape) || negb (isBytes shape) then Some None
      else
        bytes ← body_bytes object;
        if negb (Z.of_nat (length bytes) mod 4 =? 0) then Some None
        else
          let limbs := limbs_of_bytes bytes in
          count ← bigIntNormalize limbs (length bytes / 4);
          Some (Some (limbs, count, false))
  | _ => Some None
  end.

Definition largeIntIsNegative (v : Value) (negativeClass : RawClass) : option bool :=
  match v with
  | VInt i => Some (i <? 0)
  | _ => o ← object_of v; Some (class_id (class_of o) =? class_id negativeClass)
  end.

Definition largeIntFitsSmall (limbs : list Z) (n : nat) (negative : bool) : option bool :=
  if (2 <? n)%nat then Some false
  else
    magnitude ← (if (1 <=? n)%nat then l0 ← limbs !! 0%nat; Some (Z.lor 0 l0) else Some 0);
    magnitude ← (if (n =? 2)%nat then l1 ← limbs !! 1%nat; Some (Z.lor magnitude (u64 (Z.shiftl l1 32)))
                 else Some magnitude);
    let limit := Z.shiftl 1 61 in
    Some (if negative then magnitude <=? limit else magnitude <? limit).

(** [tagInt] asserts the range of its argument. *)
Definition tag_small (i : Z) : option Value := _ ← tagInt i; Some (VInt i).

(** [asObject(classes->vars[i])] with [classes = asObject(vClasses)]. *)
Definition class_at (vClasses : Value) (i : nat) : option RawClass :=
  classes ← object_of vClasses;
  vars ← body_vars classes;
  v ← vars !! i;
  o ← object_of v;
  body_class o.

(** A SmallInteger when it fits, else a fresh object of the sign's class:
    [newObject] followed by the [memcpy] of the limbs. *)
Definition largeIntResult (limbs : list Z) (n : nat) (negative : bool) (vClasses : Value) : option Value :=
  n ← bigIntNormalize limbs n;
  if (n =? 0)%nat then tag_small 0
  else
    fits ← largeIntFitsSmall limbs n negative;
    if (fits : bool) then
      l0 ← limbs !! 0%nat;
      magnitude ← (if (n =? 2)%nat then l1 ← limbs !! 1%nat; Some (Z.lor l0 (u64 (Z.shiftl l1 32))) else Some l0);
      tag_small (if negative then - i64 magnitude else i64 magnitude)
    else
      class ← class_at vClasses (if negative then 1 else 0)%nat;
      seg ← slice limbs 0 n;
      Some (VPointer (mkObject class (BBytes (bytes_of_limbs seg)))).

Definition LARGE_OP_ADD : Z := 1.
Definition LARGE_OP_SUB : Z := 2.
Definition LARGE_OP_MUL : Z := 3.
Definition LARGE_OP_QUO : Z := 4.
Definition LARGE_OP_REM : Z := 5.
Definition LARGE_OP_DIV : Z := 6.
Definition LARGE_OP_MOD : Z := 7.
Definition LARGE_OP_GCD : Z := 8.

(** The [case]s of the switch: the limbs in [out], their count and the sign. *)
Definition large_add_sub (op : Z) (a : list Z) (na : nat) (negA : bool) (b : list Z) (nb : nat) (negB : bool)
    (out : list Z) : option (list Z * nat * bool) :=
  let effB := if op =? LARGE_OP_SUB then negb negB else negB in
  if Bool.eqb negA effB then
    '(out, nOut) ← bigIntAdd a na b nb out; Some (out, nOut, negA)
  else
    c ← bigIntCompare a na b nb;
    if 0 <=? c then '(out, nOut) ← bigIntSub a na b nb out; Some (out, nOut, negA)
    else '(out, nOut) ← bigIntSub b nb a na out; Some (out, nOut, effB).

Definition large_div (op : Z) (a : list Z) (na : nat) (negA : bool) (b : list Z) (nb : nat) (negB : bool)
    (out : list Z) : option (option (list Z * nat * bool)) :=
  if (nb =? 0)%nat then Some None
  else
    res ← bigIntDivMod a na b nb (calloc (na + 1)) (calloc (nb + 1));
    '((q, nq), (r, nr)) ← res;
    let negQ := xorb negA negB in
    if op =? LARGE_OP_QUO then
      out ← memcpy out 0 q 0 nq; Some (Some (out, nq, negQ))
    else if op =? LARGE_OP_REM then
      out ← memcpy out 0 r 0 nr; Some (Some (out, nr, negA))
    else
      let adjust := negQ && negb (nr =? 0)%nat in
      if op =? LARGE_OP_DIV then
        '(out, nOut) ← (if adjust then bigIntAdd q nq [1] 1 out
                        else out ← memcpy out 0 q 0 nq; Some (out, nq));
        Some (Some (out, nOut, negQ))
      else
        '(out, nOut) ← (if adjust then bigIntSub b nb r nr out
                        else out ← memcpy out 0 r 0 nr; Some (out, nr));
        Some (Some (out, nOut, negB)).

Definition large_switch (op : Z) (a : list Z) (na : nat) (negA : bool) (b : list Z) (nb : nat) (negB : bool)
    (out : list Z) : option (option (list Z * nat * bool)) :=
  if (op =? LARGE_OP_ADD) || (op =? LARGE_OP_SUB) then
    r ← large_add_sub op a na negA b nb negB out; Some (Some r)
  else if op =? LARGE_OP_MUL then
    '(out, nOut) ← bigIntMul a na b nb out; Some (Some (out, nOut, xorb negA negB))
  else if (op =? LARGE_OP_QUO) || (op =? LARGE_OP_REM) || (op =? LARGE_OP_DIV) || (op =? LARGE_OP_MOD) then
    large_div op a na negA b nb negB out
  else if op =? LARGE_OP_GCD then
    '(out, nOut) ← bigIntGcd a na b nb out; Some (Some (out, nOut, false))
  else Some None.

Definition largeIntBinaryPrimitive (vSelf vOther vOp vClasses : Value) : option PrimitiveResult :=
  if negb (is_int vOp) || negb (is_pointer vClasses) then Some primFailed
  else
    ra ← largeIntOperand vSelf;
    match ra with
    | None => Some primFailed
    | Some (a, na, _) =>
        rb ← largeIntOperand vOther;
        match rb with
        | None => Some primFailed
        | Some (b, nb, _) =>
            negativeClass ← class_at vClasses 1;
            negA ← largeIntIsNegative vSelf negativeClass;
            negB ← largeIntIsNegative vOther negativeClass;
            op ← int_of vOp;
            res ← large_switch op a na negA b nb negB (calloc (na + nb + 4));
            match res with
            | Some (out, nOut, negOut) =>
                v ← largeIntResult out nOut negOut vClasses; Some (primSuccess v)
            | None => Some primFailed
            end
        end
    end.

Definition largeIntComparePrimitive (vSelf vOther vClasses : Value) : option PrimitiveResult :=
  if negb (is_pointer vClasses) then Some primFailed
  else
    ra ← largeIntOperand vSelf;
    match ra with
    | None => Some primFailed
    | Some (a, na, _) =>
        rb ← largeIntOperand vOther;
        match rb with
        | None => Some primFailed
        | Some (b, nb, _) =>
            negativeClass ← class_at vClasses 1;
            negA ← largeIntIsNegative vSelf negativeClass;
            negB ← largeIntIsNegative vOther negativeClass;
            let negA := if (na =? 0)%nat then false else negA in
            let negB := if (nb =? 0)%nat then false else negB in
            result ← (if xorb negA negB then Some (if negA then -1 else 1)
                      else c ← bigIntCompare a na b nb; Some (if negA then - c else c));
            v ← tag_small result; Some (primSuccess v)
        end
    end.

(** [for (bit = 0; bit < amount && bit < na * 32; bit++) if (bigIntBitAt(..)) { lost = 1; break; }] *)
Fixpoint lost_scan (a : list Z) (na n bit : nat) : option bool :=
  match n with
  | O => Some false
  | S n => x ← bigIntBitAt a na bit; if x =? 0 then lost_scan a na n (S bit) else Some true
  end.

(** The right shift of a negative number floors. *)
Definition large_shift_right (a : list Z) (na amount : nat) (negative : bool) (out : list Z)
    : option (list Z * nat) :=
  '(out, nOut) ← bigIntShiftRight a na amount out;
  if negative then
    lost ← lost_scan a na (amount `min` (na * 32)) 0;
    if (lost : bool) then
      '(bumped, nBumped) ← bigIntAdd out nOut [1] 1 (calloc (nOut + 2));
      out ← memcpy out 0 bumped 0 nBumped;
      Some (out, nBumped)
    else Some (out, nOut)
  else Some (out, nOut).

Definition largeIntShiftPrimitive (vSelf vShift vClasses : Value) : option PrimitiveResult :=
  if negb (is_int vShift) || negb (is_pointer vClasses) then Some primFailed
  else
    ra ← largeIntOperand vSelf;
    match ra with
    | None => Some primFailed
    | Some (a, na, _) =>
        negativeClass ← class_at vClasses 1;
        negative ← largeIntIsNegative vSelf negativeClass;
        shift ← int_of vShift;
        let cap := (na + (if (0 <? shift)%Z then Z.to_nat shift / 32 else 0) + 4)%nat in
        '(out, nOut) ← (if 0 <=? shift then bigIntShiftLeft a na (Z.to_nat shift) (calloc cap)
                        else large_shift_right a na (Z.to_nat (- shift)) negative (calloc cap));
        v ← largeIntResult out nOut negative vClasses;
        Some (primSuccess v)
    end.

(** Digits only, without a sign, as a new String. *)
Definition largeIntPrintStringPrimitive (StringClass : RawClass) (vSelf vBase : Value) : option PrimitiveResult :=
  if negb (is_int vBase) then Some primFailed
  else
    base ← int_of vBase;
    if (base <? 2) || (36 <? base) then Some primFailed
    else
      ra ← largeIntOperand vSelf;
      match ra with
      | None => Some primFailed
      | Some (a, na, _) =>
          '(buffer, len) ← bigIntToString a na base (calloc (bigIntStringSize na base));
          contents ← slice buffer 0 len;
          Some (primSuccess (VPointer (mkObject StringClass (BBytes contents))))
      end.

(** [isTrue] is the comparison with the tagged pointer of [Handles.true]. *)
Definition largeIntFromStringPrimitive (isTrue : Value -> bool) (vDigits vBase vNegative vClasses : Value)
    : option PrimitiveResult :=
  if negb (is_pointer vDigits) || negb (is_int vBase) || negb (is_pointer vClasses) then Some primFailed
  else
    base ← int_of vBase;
    if (base <? 2) || (36 <? base) then Some primFailed
    else
      digits ← object_of vDigits;
      let shape := instanceShape (class_of digits) in
      if negb (isBytes shape) then Some primFailed
      else
        bytes ← body_bytes digits;
        let len := if isIndexed shape then length bytes else O in
        cap ← bigIntFromStringSize len base;
        '(out, n) ← bigIntFromString bytes len base (calloc cap);
        v ← largeIntResult out n (isTrue vNegative) vClasses;
        Some (primSuccess v).

(** The double the primitive boxes: its sign and the magnitude's double. *)
Definition largeIntAsFloatPrimitive (vSelf vClasses : Value) : option (option (bool * double_result)) :=
  if negb (is_pointer vClasses) then Some None
  else
    ra ← largeIntOperand vSelf;
    match ra with
    | None => Some None
    | Some (a, na, _) =>
        negativeClass ← class_at vClasses 1;
        negative ← largeIntIsNegative vSelf negativeClass;
        d ← bigIntToDouble a na;
        Some (Some (negative, d))
    end.
End Primitives.

(** ** Canonical limbs *)

Fixpoint to_limbs (n : nat) (v : Z) : list Z :=
  match n with
  | O => []
  | S n => v mod BASE :: to_limbs n (v / BASE)
  end.

Definition limb_count (v : Z) : nat := if v =? 0 then O else S (Z.to_nat (Z.log2 v / 32)).

Lemma to_limbs_bval l : u32buf l -> to_limbs (length l) (bval l) = l.
Proof.
  induction l as [|x l IH]; intros Hl; [done|]. inversion_clear Hl as [|? ? Hx Hl']. cbn [length to_limbs bval].
  unfold limb_ok in Hx. rewrite Z.add_comm, Z.mul_comm, Z.div_add_l, Z.div_small, Z.add_0_r by lia.
  rewrite Z.add_comm, Z.mod_add, Z.mod_small by lia. by rewrite IH.
Qed.

Lemma limb_count_nmag a n v : nmag a n v -> n = limb_count v.
Proof.
  intros HA. pose proof (mag_range _ _ _ (proj1 HA)) as Hr. unfold limb_count.
  destruct (Z.eqb_spec v 0) as [E|Hne]; [by apply (nmag_zero _ _ _ HA)|].
  destruct n as [|n]; [destruct Hne; by apply (nmag_zero _ _ _ HA)|]. f_equal.
  destruct HA as [(Hl & Ha & <-) Hn]. pose proof (norm_lower _ _ Ha Hn ltac:(lia) Hl) as Hlo. simpl in Hlo.
  rewrite Bp_pow2 in *. assert (Z.log2 (pv a (S n)) / 32 = Z.of_nat n) as ->; [|lia].
  pose proof (Z.log2_le_pow2 (pv a (S n)) (32 * Z.of_nat n) ltac:(lia)).
  pose proof (Z.log2_lt_pow2 (pv a (S n)) (32 * Z.of_nat (S n)) ltac:(lia)).
  symmetry. apply (Z.div_unique _ 32 _ (Z.log2 (pv a (S n)) - 32 * Z.of_nat n)); lia.
Qed.

(** The limbs in use are determined by the value. *)
Lemma nmag_limbs a n v : nmag a n v -> take n a = to_limbs (limb_count v) v.
Proof.
  intros HA. rewrite <- (limb_count_nmag _ _ _ HA). destruct HA as [(Hl & Ha & <-) _]. unfold pv.
  rewrite <- (to_limbs_bval (take n a)) at 1 by (by apply u32buf_take). by rewrite length_take_le.
Qed.

(** ** What a value denotes *)

Definition byte_shaped (c : RawClass) : Prop := isIndexed (instanceShape c) = true /\ isBytes (instanceShape c) = true.

(** The pair of concrete classes the image passes. *)
Definition classes_ok (vClasses : Value) (pos neg : RawClass) : Prop :=
  is_pointer vClasses = true /\ class_at vClasses 0 = Some pos /\ class_at vClasses 1 = Some neg /\
  class_id pos <> class_id neg /\ byte_shaped pos /\ byte_shaped neg.

Definition signed (negative : bool) (m : Z) : Z := if negative then - m else m.

Section Denotation.
Context `{NativeOrder} (pos neg : RawClass).

Definition sign_class (negative : bool) : RawClass := if negative then neg else pos.

(** [v] is an integer operand of value [z]; leading zero limbs, and a
    negative zero, are allowed. *)
Definition denotes (v : Value) (z : Z) : Prop :=
  match v with
  | VInt i => small i /\ z = i
  | VPointer (mkObject c (BBytes bytes)) =>
      exists negative, c = sign_class negative /\ Forall byte bytes /\ (length bytes mod 4 = 0)%nat /\
        z = signed negative (bval (limbs_of_bytes bytes))
  | _ => False
  end.

(** The one object the primitives answer for [z]. *)
Definition integer_object (z : Z) : Value :=
  if decide (small z) then VInt z
  else VPointer (mkObject (sign_class (z <? 0)) (BBytes (bytes_of_limbs (to_limbs (limb_count (Z.abs z)) (Z.abs z))))).

Lemma limbs_of_bytes_bytes l : u32buf l -> limbs_of_bytes (bytes_of_limbs l) = l.
Proof.
  induction l as [|x l IH]; intros Hl; [done|]. inversion_clear Hl as [|? ? Hx Hl'].
  unfold bytes_of_limbs. cbn [fmap list_fmap concat]. pose proof (limb_of_bytes x Hx) as Hb.
  pose proof (bytes_of_length x) as Hn. destruct (bytes_of x) as [|a [|b [|c [|d [|]]]]]; simplify_eq/=.
  f_equal. by apply IH.
Qed.

Lemma bytes_of_limbs_ok l : Forall byte (bytes_of_limbs l) /\ (length (bytes_of_limbs l) = 4 * length l)%nat.
Proof.
  induction l as [|x l [IH1 IH2]]; [split; [constructor|done]|]. unfold bytes_of_limbs in *. cbn [fmap list_fmap concat length].
  rewrite Forall_app, length_app, bytes_of_length. split; [split; [apply bytes_of_byte|done]|lia].
Qed.

(** Induction over a payload, four bytes at a time. *)
Lemma payload_ind (P : list Z -> Prop) :
  P [] -> (forall a b c d l, P l -> P (a :: b :: c :: d :: l)) -> forall l, (length l mod 4 = 0)%nat -> P l.
Proof.
  intros H0 HS l Hl. apply Nat.Lcm0.mod_divide in Hl as [k Hk]. revert l Hk.
  induction k as [|k IH]; intros l Hk; [by destruct l|].
  destruct l as [|a [|b [|c [|d l]]]]; simpl in Hk; try lia. apply HS, IH. lia.
Qed.

Lemma limbs_of_bytes_ok bytes : (length bytes mod 4 = 0)%nat -> Forall byte bytes ->
  u32buf (limbs_of_bytes bytes) /\ (4 * length (limbs_of_bytes bytes) = length bytes)%nat.
Proof.
  intros Hn. pattern bytes. apply payload_ind; [split; [constructor|done]| |done].
  intros a b c d l IH Hf. cbn [limbs_of_bytes length].
  assert (Forall byte l /\ Forall byte [a; b; c; d]) as [Hl H4].
  { repeat match goal with F : Forall _ (_ :: _) |- _ => inversion_clear F end. split; [done|]. repeat (apply List.Forall_cons; [done|]). constructor. }
  destruct (IH Hl) as [H1 H2]. split; [|lia]. constructor; [by apply limb_of_range|done].
Qed.

Lemma scratch_ok i : small i -> u32buf (scratch_limbs i) /\ pv (scratch_limbs i) 2 = Z.abs i.
Proof.
  intros Hi. unfold small in Hi. unfold scratch_limbs.
  replace (if i <? 0 then u64 (- i) else u64 i) with (Z.abs i) by (case_bool; rewrite u64_id; lia).
  rewrite u32_land_mask. change 32 with LIMB_BITS. rewrite shiftr_limb.
  destruct (limb_split (Z.abs i)) as (Hs & Hm & Hd); [lia|].
  assert (Z.abs i / BASE < BASE) by (apply Z.div_lt_upper_bound; unfold BASE in *; lia).
  rewrite u32_id by (unfold BASE in *; lia). split; [repeat constructor; unfold limb_ok in *; lia|].
  unfold pv. cbn [take bval]. lia.
Qed.

(** What every primitive learns of an operand. *)
Lemma operand_spec v z :
  denotes v z -> class_id pos <> class_id neg -> byte_shaped pos -> byte_shaped neg ->
  exists limbs n b s, largeIntOperand v = Some (Some (limbs, n, b)) /\
    largeIntIsNegative v neg = Some s /\ nmag limbs n (Z.abs z) /\ z = signed s (Z.abs z).
Proof.
  intros Hv Hid Hsp Hsn. destruct v as [i|[c [bytes| |]]| |]; try done.
  - destruct Hv as [Hi ->]. destruct (scratch_ok i Hi) as [Hb Hp].
    cbn [largeIntOperand]. destruct (bigIntNormalize_spec (scratch_limbs i) 2 ltac:(done) Hb) as (m & Hm & _ & Hn). step Hm.
    rewrite Hp in Hn. eexists _, _, _, _. split; [done|]. split; [done|]. split; [done|]. unfold signed. case_bool; lia.
  - destruct Hv as (s & -> & Hf & Hl & ->). destruct (limbs_of_bytes_ok bytes Hl Hf) as [Hb Hlen].
    cbn [largeIntOperand class_of body_bytes].
    assert (byte_shaped (sign_class s)) as [-> ->] by (by destruct s). cbn [negb orb mbind option_bind].
    replace (Z.of_nat (length bytes) mod 4) with 0 by (rewrite <- (Nat2Z.inj_mod _ 4); lia). cbn [Z.eqb negb].
    replace (length bytes / 4)%nat with (length (limbs_of_bytes bytes)) by (rewrite <- Hlen, Nat.mul_comm, Nat.div_mul; lia).
    destruct (bigIntNormalize_spec (limbs_of_bytes bytes) (length (limbs_of_bytes bytes)) ltac:(done) Hb) as (m & Hm & _ & Hn).
    step Hm. unfold pv in Hn. rewrite take_ge in Hn by lia. pose proof (mag_range _ _ _ (proj1 Hn)).
    set (B := bval (limbs_of_bytes bytes)) in *.
    replace (Z.abs (signed s B)) with B by (unfold signed; destruct s; lia).
    eexists _, _, _, s. split; [done|]. split; [|done]. unfold largeIntIsNegative, object_of. cbn [mbind option_bind class_of].
    f_equal. destruct s; cbn [sign_class]; [apply Z.eqb_refl|by apply Z.eqb_neq].
Qed.

(** One or two limbs as a [uint64_t]. *)
Lemma low_limbs (a : list Z) n m : nmag a n m -> (1 <= n <= 2)%nat ->
  exists l0, a !! 0%nat = Some l0 /\
    if (n =? 2)%nat then exists l1, a !! 1%nat = Some l1 /\ Z.lor l0 (u64 (Z.shiftl l1 32)) = m else l0 = m.
Proof.
  intros [(Hl & Ha & <-) _] Hn. destruct (lookup_Some_lt a 0) as [l0 L0]; [lia|]. exists l0. split; [done|].
  pose proof (u32buf_lookup _ _ _ Ha L0). assert (pv a 1 = l0) as Hp by (rewrite (pv_S _ _ _ L0), pv_0, Bp_0; lia).
  destruct (Nat.eqb_spec n 2) as [->|]; [|by replace n with 1%nat by lia].
  destruct (lookup_Some_lt a 1) as [l1 L1]; [lia|]. exists l1. split; [done|]. pose proof (u32buf_lookup _ _ _ Ha L1).
  rewrite (pv_S _ _ _ L1), Hp, Bp_S, Bp_0. unfold BASE in *. rewrite u64_id by (rewrite Z.shiftl_mul_pow2; lia).
  rewrite Z.lor_comm, lor_shiftl_add; lia.
Qed.

Lemma fits_spec a n m s : nmag a n m -> largeIntFitsSmall a n s = Some (bool_decide (small (signed s m))).
Proof.
  intros Ha. pose proof (mag_range _ _ _ (proj1 Ha)) as Hr. unfold largeIntFitsSmall.
  assert (forall x : bool, (x = true <-> small (signed s m)) -> Some x = Some (bool_decide (small (signed s m)))) as Hb.
  { intros x Hx. f_equal. destruct x; symmetry; [apply bool_decide_eq_true_2; tauto|apply bool_decide_eq_false_2].
    intros Hs. by apply Hx in Hs. }
  destruct (Nat.ltb_spec 2 n) as [Hn|Hn].
  { apply Hb. split; [done|]. intros Hs. destruct Ha as [(Hl & Hu & <-) Hno].
    pose proof (norm_lower _ _ Hu Hno ltac:(lia) Hl) as Hlo. pose proof (Bp_mono 2 (pred n) ltac:(lia)) as Hmo.
    change (Bp 2) with (2 ^ 64) in Hmo. unfold small, signed in Hs. destruct s; lia. }
  assert ((if s then m <=? Z.shiftl 1 61 else m <? Z.shiftl 1 61) = true <-> small (signed s m)) as Hlim.
  { rewrite Z.shiftl_mul_pow2 by lia. unfold small, signed. destruct s; [rewrite Z.leb_le|rewrite Z.ltb_lt]; lia. }
  destruct (Nat.eqb_spec n 0) as [->|Hn0].
  { rewrite (proj1 (nmag_zero _ _ _ Ha) eq_refl) in *. cbn [Nat.leb Nat.eqb mbind option_bind]. by apply Hb. }
  destruct (low_limbs a n m Ha ltac:(lia)) as (l0 & L0 & Hm). destruct (Nat.leb_spec 1 n); [|lia].
  step L0. destruct (n =? 2)%nat.
  - destruct Hm as (l1 & L1 & Hm). step L1. rewrite Z.lor_0_l, Hm. by apply Hb.
  - rewrite Z.lor_0_l, Hm. by apply Hb.
Qed.

Lemma tag_small_spec i : small i -> tag_small i = Some (VInt i).
Proof. intros Hi. unfold tag_small. by rewrite (tagInt_word i Hi). Qed.

Lemma result_spec vClasses out n s m :
  classes_ok vClasses pos neg -> mag out n m ->
  largeIntResult out n s vClasses = Some (integer_object (signed s m)).
Proof.
  intros (_ & Hp & Hn & _) (Hl & Hu & Hv). unfold largeIntResult, integer_object.
  destruct (bigIntNormalize_spec out n Hl Hu) as (k & Hk & _ & Ha). step Hk. rewrite Hv in Ha. clear Hl Hv n Hk.
  pose proof (mag_range _ _ _ (proj1 Ha)) as Hr. destruct (Nat.eqb_spec k 0) as [->|Hk].
  { rewrite (proj1 (nmag_zero _ _ _ Ha) eq_refl). unfold signed. replace (if s then _ else _) with 0 by (by destruct s).
    rewrite decide_True; [apply tag_small_spec|]; unfold small; lia. }
  step (fits_spec out k m s Ha). case_decide as Hs.
  - rewrite bool_decide_eq_true_2 by done. assert (k <= 2)%nat as Hk2.
    { pose proof (fits_spec out k m s Ha) as Hf. rewrite bool_decide_eq_true_2 in Hf by done.
      unfold largeIntFitsSmall in Hf. destruct (Nat.ltb_spec 2 k); [done|lia]. }
    destruct (low_limbs out k m Ha ltac:(lia)) as (l0 & L0 & Hm). step L0.
    assert (tag_small (if s then - i64 m else i64 m) = Some (VInt (signed s m))) as Ht.
    { rewrite i64_id by (unfold small, signed in Hs; destruct s; lia). by apply tag_small_spec. }
    destruct (k =? 2)%nat; [destruct Hm as (l1 & L1 & Hm); step L1|]; by rewrite Hm.
  - rewrite bool_decide_eq_false_2 by done. assert (0 < m) as Hm0.
    { assert (m <> 0); [|lia]. intros E. by apply (nmag_zero _ _ _ Ha) in E. }
    replace (class_at vClasses (if s then 1 else 0)%nat) with (Some (sign_class s)) by (by destruct s).
    cbn [mbind option_bind]. pose proof Ha as [(Hl & _) _]. step (slice_Some out 0 k ltac:(lia)).
    rewrite drop_0, (nmag_limbs _ _ _ Ha). replace (Z.abs (signed s m)) with m by (unfold signed; destruct s; lia).
    by replace (signed s m <? 0) with s by (unfold signed; destruct s; case_bool; lia || done).
Qed.

(** The answered object denotes its integer. *)
Lemma to_limbs_value v n : 0 <= v < Bp n -> bval (to_limbs n v) = v /\ u32buf (to_limbs n v).
Proof.
  revert v. induction n as [|n IH]; intros v Hv; cbn [to_limbs bval]; [rewrite Bp_0 in Hv; split; [lia|constructor]|].
  rewrite Bp_S in Hv. destruct (limb_split v ltac:(lia)) as (Hs & Hm & Hd).
  destruct (IH (v / BASE)) as [IH1 IH2]; [split; [lia|apply Z.div_lt_upper_bound; lia]|].
  rewrite IH1. split; [lia|by constructor].
Qed.

Lemma limb_count_bound v : 0 <= v -> v < Bp (limb_count v).
Proof.
  intros Hv. unfold limb_count. destruct (Z.eqb_spec v 0) as [->|]; [done|]. rewrite Bp_pow2.
  pose proof (Z.log2_spec v ltac:(lia)) as [_ Hlt]. eapply Z.lt_le_trans; [exact Hlt|]. apply Z.pow_le_mono_r; [lia|].
  pose proof (Z.div_mod (Z.log2 v) 32 ltac:(lia)). pose proof (Z.mod_pos_bound (Z.log2 v) 32 ltac:(lia)).
  pose proof (Z.log2_nonneg v). lia.
Qed.

Lemma integer_object_spec z : denotes (integer_object z) z.
Proof.
  unfold integer_object. case_decide; [done|]. cbn [denotes]. exists (z <? 0). split; [done|].
  destruct (bytes_of_limbs_ok (to_limbs (limb_count (Z.abs z)) (Z.abs z))) as [Hb Hl].
  split; [done|]. split; [rewrite Hl, Nat.mul_comm; apply Nat.Div0.mod_mul|].
  destruct (to_limbs_value (Z.abs z) (limb_count (Z.abs z))) as [Hv Hu]; [pose proof (limb_count_bound (Z.abs z)); lia|].
  rewrite limbs_of_bytes_bytes by done. rewrite Hv. unfold signed. case_bool; lia.
Qed.
End Denotation.

(** ** Signed division from magnitudes *)

Lemma quot_signed sa sb A B : 0 <= A -> 0 < B ->
  signed (xorb sa sb) (A / B) = Z.quot (signed sa A) (signed sb B).
Proof.
  intros HA HB. rewrite <- Z.quot_div_nonneg by lia.
  destruct sa, sb; cbn [signed xorb]; rewrite ?Z.quot_opp_l, ?Z.quot_opp_r by lia; lia.
Qed.

Lemma rem_signed sa sb A B : 0 <= A -> 0 < B -> signed sa (A mod B) = Z.rem (signed sa A) (signed sb B).
Proof.
  intros HA HB. rewrite <- Z.rem_mod_nonneg by lia.
  destruct sa, sb; cbn [signed]; rewrite ?Z.rem_opp_l, ?Z.rem_opp_r by lia; lia.
Qed.

(** The floored quotient goes one further from zero when the signs differ and
    the division is not exact; the remainder then moves to the divisor's side. *)
Lemma div_mod_signed sa sb A B : 0 <= A -> 0 < B ->
  let adjust := xorb sa sb && negb (A mod B =? 0) in
  signed (xorb sa sb) (if adjust then A / B + 1 else A / B) = signed sa A / signed sb B /\
  signed sb (if adjust then B - A mod B else A mod B) = signed sa A mod signed sb B.
Proof.
  intros HA HB. pose proof (Z.div_mod A B ltac:(lia)) as Hd. pose proof (Z.mod_pos_bound A B HB).
  set (q := A / B) in *. set (r := A mod B) in *. cbv zeta.
  assert (forall a b Q R, (0 <= R < b \/ b < R <= 0) -> a = b * Q + R -> Q = a / b /\ R = a mod b) as Hu
    by (intros a b Q R HR HE; split; [by apply (Z.div_unique a b Q R)|by apply (Z.mod_unique a b Q R)]).
  destruct (Z.eqb_spec r 0), sa, sb; cbn [signed xorb andb negb]; apply Hu; try lia;
    rewrite Hd; ring_simplify; lia.
Qed.

(** The mathematical operation of each opcode; [None] where the primitive
    fails. *)
Definition large_op (op a b : Z) : option Z :=
  if op =? LARGE_OP_ADD then Some (a + b)
  else if op =? LARGE_OP_SUB then Some (a - b)
  else if op =? LARGE_OP_MUL then Some (a * b)
  else if op =? LARGE_OP_GCD then Some (Z.gcd a b)
  else if (op <? LARGE_OP_QUO) || (LARGE_OP_MOD <? op) || (b =? 0) then None
  else if op =? LARGE_OP_QUO then Some (Z.quot a b)
  else if op =? LARGE_OP_REM then Some (Z.rem a b)
  else if op =? LARGE_OP_DIV then Some (a / b)
  else Some (a mod b).

(** A smaller number has no more limbs. *)
Lemma shorter c nc C d nd D : nmag c nc C -> nmag d nd D -> C <= D -> (nc <= nd)%nat.
Proof.
  intros Hc Hd Hle. destruct (Nat.lt_ge_cases nd nc) as [Hlt|]; [|done].
  pose proof (norm_length_lt _ _ _ _ _ _ Hd Hc Hlt). lia.
Qed.

Section Switch.
Context (a : list Z) (na : nat) (A : Z) (sa : bool) (b : list Z) (nb : nat) (B : Z) (sb : bool).
Context (Ha : nmag a na A) (Hb : nmag b nb B) (out : list Z).
Context (Ho : u32buf out) (Hl : (na + nb + 4 <= length out)%nat).

Definition answers (r : list Z * nat * bool) (z : Z) : Prop :=
  let '(o, n, s) := r in exists m, mag o n m /\ signed s m = z.

Lemma add_sub_spec op : op = LARGE_OP_ADD \/ op = LARGE_OP_SUB ->
  exists r, large_add_sub op a na sa b nb sb out = Some r /\
    answers r (if op =? LARGE_OP_SUB then signed sa A - signed sb B else signed sa A + signed sb B).
Proof.
  intros Hop. unfold large_add_sub. set (sub := op =? LARGE_OP_SUB).
  set (eff := if sub then negb sb else sb).
  replace (if sub then _ - _ else _ + _) with (signed sa A + signed eff B)
    by (unfold eff; destruct sub, sb; cbn [signed negb]; lia).
  pose proof (mag_range _ _ _ (proj1 Ha)). pose proof (mag_range _ _ _ (proj1 Hb)).
  destruct (Bool.eqb sa eff) eqn:E.
  { apply eqb_prop in E. destruct (bigIntAdd_spec a na A b nb B out (proj1 Ha) (proj1 Hb) Ho ltac:(lia)) as (o & n & Hf & [Hm _] & _).
    step Hf. eexists; split; [done|]. exists (A + B). split; [done|]. rewrite <- E. destruct sa; cbn [signed]; lia. }
  apply eqb_false_iff in E. step (bigIntCompare_spec a na A b nb B Ha Hb).
  destruct (Z.compare_spec A B) as [Hc|Hc|Hc]; cbn [sign_of_compare Z.leb Z.compare].
  2: { destruct (bigIntSub_spec b nb B a na A out Hb Ha ltac:(lia) Ho ltac:(lia)) as (o & n & Hf & [Hm _] & _).
       step Hf. eexists; split; [done|]. exists (B - A). split; [done|]. destruct sa, eff; try done; cbn [signed]; lia. }
  all: destruct (bigIntSub_spec a na A b nb B out Ha Hb ltac:(lia) Ho ltac:(lia)) as (o & n & Hf & [Hm _] & _);
    step Hf; eexists; split; [done|]; exists (A - B); split; [done|]; destruct sa, eff; try done; cbn [signed]; lia.
Qed.

Lemma large_div_zero op : nb = 0%nat -> large_div op a na sa b nb sb out = Some None.
Proof. intros ->. done. Qed.

Lemma large_div_spec op : nb <> 0%nat -> 4 <= op <= 7 ->
  exists r z, large_div op a na sa b nb sb out = Some (Some r) /\ answers r z /\
    large_op op (signed sa A) (signed sb B) = Some z.
Proof.
  intros Hnb Hop. unfold large_div. destruct (Nat.eqb_spec nb 0); [done|].
  assert (0 < B) as HB.
  { pose proof (mag_range _ _ _ (proj1 Hb)). assert (B <> 0); [|lia]. intros E. by apply (nmag_zero _ _ _ Hb) in E. }
  assert (signed sb B <> 0) as HsB by (destruct sb; cbn [signed]; lia).
  pose proof (mag_range _ _ _ (proj1 Ha)) as HA.
  destruct (bigIntDivMod_spec a na A b nb B (calloc (na + 1)) (calloc (nb + 1)) Ha Hb ltac:(lia)
    (u32buf_calloc _) ltac:(rewrite length_calloc; lia) (u32buf_calloc _) ltac:(rewrite length_calloc; lia))
    as (q & nq & r & nr & Hdm & Hq & Hr). step Hdm.
  pose proof (Z.mod_pos_bound A B HB) as Hmr.
  assert (A / B <= A) as HqA by (apply Z.div_le_upper_bound; nia).
  pose proof (shorter _ _ _ _ _ _ Hq Ha HqA) as Hnq. pose proof (shorter _ _ _ _ _ _ Hr Hb ltac:(lia)) as Hnr.
  destruct (copy_norm q nq _ out Hq Ho ltac:(lia)) as (oq & Hcq & [Hmq _] & _).
  destruct (copy_norm r nr _ out Hr Ho ltac:(lia)) as (or & Hcr & [Hmr' _] & _).
  destruct (bigIntAdd_spec q nq (A / B) [1] 1 1 out (proj1 Hq)) as (o1 & n1 & H1 & [Hm1 _] & _);
    [split; [done|]; split; [repeat constructor|]; done|done|lia|].
  destruct (bigIntSub_spec b nb B r nr (A mod B) out Hb Hr ltac:(lia) Ho ltac:(lia)) as (o2 & n2 & H2 & [Hm2 _] & _).
  destruct (div_mod_signed sa sb A B ltac:(lia) HB) as [Hdv Hmd]. cbv zeta in Hdv, Hmd.
  assert (negb (nr =? 0)%nat = negb (A mod B =? 0)) as Hadj.
  { f_equal. apply eq_true_iff_eq. rewrite Nat.eqb_eq, Z.eqb_eq. apply (nmag_zero _ _ _ Hr). }
  rewrite Hadj. set (adj := xorb sa sb && negb (A mod B =? 0)) in *.
  assert (op = 4 \/ op = 5 \/ op = 6 \/ op = 7) as [E|[E|[E|E]]] by lia; rewrite E;
    cbn [Z.eqb Pos.eqb LARGE_OP_QUO LARGE_OP_REM LARGE_OP_DIV LARGE_OP_MOD];
    unfold large_op; rewrite (proj2 (Z.eqb_neq _ 0) HsB); cbn [Z.eqb Z.ltb Z.compare Pos.eqb Pos.compare Pos.compare_cont orb].
  - step Hcq. eexists _, _. split; [done|]. split; [|done]. eexists; split; [done|]. by apply quot_signed; lia.
  - step Hcr. eexists _, _. split; [done|]. split; [|done]. eexists; split; [done|]. by apply rem_signed; lia.
  - destruct adj; [step H1|step Hcq]; (eexists _, _; split; [done|]; split; [|done]; eexists; split; done).
  - destruct adj; [step H2|step Hcr]; (eexists _, _; split; [done|]; split; [|done]; eexists; split; done).
Qed.

Lemma switch_spec op :
  match large_op op (signed sa A) (signed sb B) with
  | Some z => exists r, large_switch op a na sa b nb sb out = Some (Some r) /\ answers r z
  | None => large_switch op a na sa b nb sb out = Some None
  end.
Proof.
  destruct (decide (op = 1)) as [->|Hn1]; [|destruct (decide (op = 2)) as [->|Hn2]].
  1, 2: match goal with |- context [large_op ?o] => destruct (add_sub_spec o) as (r & Hr & Ha') end;
    [by (left + right)|]; exists r; split; [unfold large_switch; cbn; by rewrite Hr|exact Ha'].
  destruct (decide (op = 3)) as [->|Hn3].
  { destruct (bigIntMul_spec a na A b nb B out (proj1 Ha) (proj1 Hb) Ho ltac:(lia)) as (o & n & Hf & [Hm _] & _).
    cbn. rewrite Hf. eexists; split; [done|]. eexists; split; [done|]. destruct sa, sb; cbn [signed xorb]; lia. }
  destruct (decide (op = 8)) as [->|Hn8].
  { destruct (bigIntGcd_spec a na A b nb B out Ha Hb Ho) as (o & n & Hf & [Hm _] & _).
    { unfold gcd_capacity. repeat case_bool; lia. }
    cbn. rewrite Hf. eexists; split; [done|]. eexists; split; [done|].
    destruct sa, sb; cbn [signed]; by rewrite ?Z.gcd_opp_l, ?Z.gcd_opp_r. }
  assert (large_switch op a na sa b nb sb out =
    if (op <? 4) || (7 <? op) then Some None else large_div op a na sa b nb sb out) as ->.
  { unfold large_switch, LARGE_OP_ADD, LARGE_OP_SUB, LARGE_OP_MUL, LARGE_OP_QUO, LARGE_OP_REM, LARGE_OP_DIV, LARGE_OP_MOD, LARGE_OP_GCD.
    repeat case_bool; try done; lia. }
  assert (nb = 0%nat <-> signed sb B = 0) as Hz.
  { rewrite (nmag_zero _ _ _ Hb). destruct sb; cbn [signed]; lia. }
  destruct ((op <? 4) || (7 <? op)) eqn:Hr.
  { replace (large_op op (signed sa A) (signed sb B)) with (@None Z); [done|]. symmetry.
    unfold large_op, LARGE_OP_ADD, LARGE_OP_SUB, LARGE_OP_MUL, LARGE_OP_GCD, LARGE_OP_QUO, LARGE_OP_MOD.
    rewrite Hr. repeat case_bool; try done; lia. }
  assert (4 <= op <= 7) as Hop by (revert Hr; repeat case_bool; done || lia).
  destruct (decide (nb = 0%nat)) as [Hnb|Hnb].
  - rewrite large_div_zero by done. rewrite (proj1 Hz Hnb). unfold large_op. rewrite Z.eqb_refl, !orb_true_r.
    unfold LARGE_OP_ADD, LARGE_OP_SUB, LARGE_OP_MUL, LARGE_OP_GCD. repeat case_bool; try done; lia.
  - destruct (large_div_spec op Hnb Hop) as (r & z & Hd & Hans & ->). exists r. done.
Qed.
End Switch.

(** ** Shifts *)

Lemma lost_scan_spec a na A n bit :
  mag a na A -> lost_scan a na n bit = Some (negb ((A / 2 ^ Z.of_nat bit) mod 2 ^ Z.of_nat n =? 0)).
Proof.
  intros Ha. revert bit. induction n as [|n IH]; intros bit; cbn [lost_scan].
  { change (2 ^ Z.of_nat 0) with 1. by rewrite Z.mod_1_r. }
  step (bigIntBitAt_spec a na A bit Ha). rewrite IH, Z.testbit_eqb by lia.
  rewrite !(base_pow_S 2). pose proof (base_pow_pos 2 bit ltac:(lia)). pose proof (base_pow_pos 2 n ltac:(lia)).
  rewrite Z.rem_mul_r by lia. rewrite (Z.mul_comm 2 (2 ^ Z.of_nat bit)), <- Z.div_div by lia.
  set (x := A / 2 ^ Z.of_nat bit). pose proof (Z.mod_pos_bound x 2 ltac:(lia)).
  pose proof (Z.mod_pos_bound (x / 2) (2 ^ Z.of_nat n) ltac:(lia)).
  destruct (Z.eqb_spec (x mod 2) 1) as [E|E]; cbn [Z.b2z].
  - destruct (Z.eqb_spec 1 0); [lia|]. destruct (Z.eqb_spec (x mod 2 + 2 * ((x / 2) mod 2 ^ Z.of_nat n)) 0); [lia|done].
  - cbn [Z.eqb]. do 2 f_equal. destruct (Z.eqb_spec ((x / 2) mod 2 ^ Z.of_nat n) 0), (Z.eqb_spec (x mod 2 + 2 * ((x / 2) mod 2 ^ Z.of_nat n)) 0); lia || done.
Qed.

Lemma shift_right_spec a na A amount s out :
  nmag a na A -> u32buf out -> (na + 4 <= length out)%nat ->
  exists o n m, large_shift_right a na amount s out = Some (o, n) /\ mag o n m /\
    signed s m = signed s A / 2 ^ Z.of_nat amount.
Proof.
  intros Ha Ho Hl. pose proof (mag_range _ _ _ (proj1 Ha)) as Hr. unfold large_shift_right.
  destruct (bigIntShiftRight_spec a na A amount out (proj1 Ha) Ho ltac:(lia)) as (o & n & Hf & Hn & Hlo). step Hf.
  destruct s; [|exists o, n; eexists; split; [done|]; split; [apply Hn|done]]. cbn [signed].
  step (lost_scan_spec a na A (amount `min` (na * 32)) 0 (proj1 Ha)). change (2 ^ Z.of_nat 0) with 1. rewrite Z.div_1_r.
  set (P := 2 ^ Z.of_nat amount). assert (0 < P) as HP by (apply base_pow_pos; lia).
  replace (A mod 2 ^ Z.of_nat (amount `min` (na * 32))) with (A mod P).
  2: { destruct (Nat.le_ge_cases amount (na * 32)) as [Hle|Hge]; [by rewrite Nat.min_l|]. rewrite Nat.min_r by done.
       rewrite Bp_pow2 in Hr. replace (Z.of_nat (na * 32)) with (32 * Z.of_nat na) by lia. unfold P.
       assert (2 ^ (32 * Z.of_nat na) <= 2 ^ Z.of_nat amount) by (apply Z.pow_le_mono_r; lia). by rewrite !Z.mod_small by lia. }
  destruct (div_mod_signed true false A P ltac:(lia) HP) as [Hd _]. cbv zeta in Hd. cbn [xorb signed andb] in Hd.
  destruct (negb (A mod P =? 0)); [|exists o, n; eexists; split; [done|]; split; [apply Hn|done]].
  assert (n <= na)%nat as Hna.
  { eapply shorter; [exact Hn|exact Ha|]. apply Z.div_le_upper_bound; nia. }
  destruct (bigIntAdd_spec o n (A / P) [1] 1 1 (calloc (n + 2)) (proj1 Hn)) as (o1 & n1 & H1 & Hm1 & Hl1);
    [split; [done|]; split; [repeat constructor|]; done|apply u32buf_calloc|rewrite length_calloc; lia|]. step H1.
  rewrite length_calloc in Hl1. assert (n1 <= n + 2)%nat by (destruct Hm1 as [(? & _) _]; lia).
  destruct (copy_norm o1 n1 _ o Hm1) as (o2 & Hc & [Hm2 _] & _); [apply Hn|lia|]. step Hc.
  exists o2, n1; eexists; split; [done|]. split; [done|done].
Qed.

Lemma shift_op_spec a na A sh s :
  nmag a na A -> exists o n m,
    (if 0 <=? sh then bigIntShiftLeft a na (Z.to_nat sh) (calloc (na + (if 0 <? sh then Z.to_nat sh / 32 else 0) + 4))
     else large_shift_right a na (Z.to_nat (- sh)) s (calloc (na + (if 0 <? sh then Z.to_nat sh / 32 else 0) + 4)))
      = Some (o, n) /\ mag o n m /\ signed s m = Z.shiftl (signed s A) sh.
Proof.
  intros Ha. destruct (Z.leb_spec 0 sh) as [Hsh|Hsh].
  - set (cap := (_ + 4)%nat). assert (na + Z.to_nat sh / 32 + 1 <= cap)%nat as Hcap.
    { unfold cap. destruct (Z.ltb_spec 0 sh) as [|Hz]; [lia|]. replace (Z.to_nat sh) with O by lia. simpl. lia. }
    destruct (bigIntShiftLeft_spec a na A (Z.to_nat sh) (calloc cap) (proj1 Ha) (u32buf_calloc _) ltac:(rewrite length_calloc; lia))
      as (o & n & Hf & [Hm _] & _).
    exists o, n; eexists; split; [done|]. split; [done|]. rewrite Z2Nat.id, Z.shiftl_mul_pow2 by lia.
    destruct s; cbn [signed]; lia.
  - set (cap := (_ + 4)%nat).
    destruct (shift_right_spec a na A (Z.to_nat (- sh)) s (calloc cap) Ha (u32buf_calloc _)) as (o & n & m & Hf & Hm & Hs);
      [rewrite length_calloc; unfold cap; lia|].
    exists o, n, m. split; [done|]. split; [done|]. rewrite Hs, Z2Nat.id by lia.
    replace sh with (- - sh) at 2 by lia. by rewrite Z.shiftl_opp_r, Z.shiftr_div_pow2 by lia.
Qed.

(** ** The primitives *)

Section Refinement.
Context `{NativeOrder} (vClasses : Value) (pos neg : RawClass) (Hcl : classes_ok vClasses pos neg).

Lemma operands v z : denotes pos neg v z ->
  exists limbs n b s, largeIntOperand v = Some (Some (limbs, n, b)) /\
    largeIntIsNegative v neg = Some s /\ nmag limbs n (Z.abs z) /\ z = signed s (Z.abs z).
Proof. destruct Hcl as (_ & _ & _ & Hid & Hp & Hn). intros Hv. by apply operand_spec with pos. Qed.

Lemma binary_spec vSelf vOther x y op :
  denotes pos neg vSelf x -> denotes pos neg vOther y ->
  largeIntBinaryPrimitive vSelf vOther (VInt op) vClasses =
    Some (match large_op op x y with Some z => primSuccess (integer_object pos neg z) | None => primFailed end).
Proof.
  intros Hx Hy. pose proof Hcl as (Hpt & _ & Hneg & _). unfold largeIntBinaryPrimitive. rewrite Hpt. cbn [is_int negb orb].
  destruct (operands _ _ Hx) as (a & na & ba & sa & Ha & Hsa & Hma & Ex).
  destruct (operands _ _ Hy) as (b & nb & bb & sb & Hb & Hsb & Hmb & Ey).
  step Ha. step Hb. step Hneg. step Hsa. step Hsb. cbn [int_of mbind option_bind].
  pose proof (switch_spec a na (Z.abs x) sa b nb (Z.abs y) sb Hma Hmb (calloc (na + nb + 4)) (u32buf_calloc _)
    ltac:(rewrite length_calloc; lia) op) as Hsw. rewrite <- Ex, <- Ey in Hsw.
  destruct (large_op op x y) as [z|]; [|by step Hsw].
  destruct Hsw as ([[o n] s] & Hf & m & Hm & <-). step Hf. by step (result_spec pos neg vClasses o n s m Hcl Hm).
Qed.

Lemma shift_spec vSelf x sh :
  denotes pos neg vSelf x ->
  largeIntShiftPrimitive vSelf (VInt sh) vClasses = Some (primSuccess (integer_object pos neg (Z.shiftl x sh))).
Proof.
  intros Hx. pose proof Hcl as (Hpt & _ & Hneg & _). unfold largeIntShiftPrimitive. rewrite Hpt. cbn [is_int negb orb].
  destruct (operands _ _ Hx) as (a & na & ba & sa & Ha & Hsa & Hma & Ex).
  step Ha. step Hneg. step Hsa. cbn [int_of mbind option_bind]. cbv zeta.
  destruct (shift_op_spec a na (Z.abs x) sh sa Hma) as (o & n & m & Hf & Hm & Hs). step Hf.
  step (result_spec pos neg vClasses o n sa m Hcl Hm). by rewrite Hs, <- Ex.
Qed.

(** A zero loses its sign. *)
Lemma zero_unsigned a n x s : nmag a n (Z.abs x) -> x = signed s (Z.abs x) ->
  (if (n =? 0)%nat then false else s) = (x <? 0).
Proof.
  intros Ha Ex. symmetry. destruct (Nat.eqb_spec n 0) as [E|E].
  - apply (nmag_zero _ _ _ Ha) in E. apply Z.ltb_ge; lia.
  - assert (Z.abs x <> 0) by (intros E'; by apply (nmag_zero _ _ _ Ha) in E').
    unfold signed in Ex. destruct s; [apply Z.ltb_lt|apply Z.ltb_ge]; lia.
Qed.

Lemma compare_spec vSelf vOther x y :
  denotes pos neg vSelf x -> denotes pos neg vOther y ->
  largeIntComparePrimitive vSelf vOther vClasses = Some (primSuccess (VInt (sign_of_compare (x ?= y)))).
Proof.
  intros Hx Hy. pose proof Hcl as (Hpt & _ & Hneg & _). unfold largeIntComparePrimitive. rewrite Hpt. cbn [negb].
  destruct (operands _ _ Hx) as (a & na & ba & sa & Ha & Hsa & Hma & Ex).
  destruct (operands _ _ Hy) as (b & nb & bb & sb & Hb & Hsb & Hmb & Ey).
  step Ha. step Hb. step Hneg. step Hsa. step Hsb. cbv zeta.
  rewrite (zero_unsigned a na x sa Hma Ex), (zero_unsigned b nb y sb Hmb Ey).
  rewrite (bigIntCompare_spec a na _ b nb _ Hma Hmb).
  assert (forall c, tag_small (sign_of_compare c) = Some (VInt (sign_of_compare c))) as Ht
    by (intros c; apply tag_small_spec; unfold small; destruct c; simpl; lia).
  assert (forall c d, sign_of_compare c = d -> (v ← tag_small d; Some (primSuccess v)) = Some (primSuccess (VInt (sign_of_compare c)))) as Hfin
    by (intros c d <-; by rewrite Ht).
  destruct (Z.ltb_spec x 0), (Z.ltb_spec y 0); cbn [xorb mbind option_bind]; apply Hfin;
    destruct (Z.compare_spec x y); try (destruct (Z.compare_spec (Z.abs x) (Z.abs y))); simpl; lia.
Qed.

(** Printing and parsing. *)
Lemma print_spec StringClass vSelf x base :
  denotes pos neg vSelf x -> 2 <= base <= 36 ->
  exists s, largeIntPrintStringPrimitive StringClass vSelf (VInt base) =
      Some (primSuccess (VPointer (mkObject StringClass (BBytes s)))) /\ canonical base s (Z.abs x).
Proof.
  intros Hx Hb. unfold largeIntPrintStringPrimitive. cbn [is_int int_of negb mbind option_bind].
  destruct (Z.ltb_spec base 2); [lia|]. destruct (Z.ltb_spec 36 base); [lia|]. cbn [orb].
  destruct (operands _ _ Hx) as (a & na & ba & sa & Ha & Hsa & Hma & Ex). step Ha.
  destruct (bigIntToString_spec a na (Z.abs x) base (calloc (bigIntStringSize na base)) Hma Hb) as (o & n & Hf & Hlo & Hn & Hc);
    [by rewrite length_calloc|]. rewrite length_calloc in Hlo. step Hf. step (slice_Some o 0 n ltac:(lia)). rewrite drop_0. eauto.
Qed.

Lemma parse_spec isTrue c s base vNegative :
  byte_shaped c -> 2 <= base <= 36 -> Forall (valid_digit base) s ->
  largeIntFromStringPrimitive isTrue (VPointer (mkObject c (BBytes s))) (VInt base) vNegative vClasses =
    Some (primSuccess (integer_object pos neg (signed (isTrue vNegative) (sval base s)))).
Proof.
  intros [Hi Hby] Hb Hs. pose proof Hcl as (Hpt & _). unfold largeIntFromStringPrimitive. rewrite Hpt.
  cbn [is_int is_pointer int_of object_of negb mbind option_bind class_of body_bytes orb].
  destruct (Z.ltb_spec base 2); [lia|]. destruct (Z.ltb_spec 36 base); [lia|]. cbn [orb]. rewrite Hi, Hby. cbn [negb].
  destruct (bigIntFromStringSize_spec base Hb (length s)) as (bits & Hcap & _). step Hcap. set (cap := (_ / 32 + 1)%nat) in *.
  destruct (bigIntFromString_spec base Hb s (length s) (calloc cap) cap Hcap) as (o & n & Hf & _ & _ & [Hm _]);
    [done|by rewrite take_ge|apply u32buf_calloc|by rewrite length_calloc|].
  step Hf. rewrite take_ge in Hm by done. by step (result_spec pos neg vClasses o n (isTrue vNegative) _ Hcl Hm).
Qed.
End Refinement.

(** ** Properties *)

(** C3. The arithmetic primitive refines the integers: on operands that
    denote [x] and [y] (SmallIntegers or LargeIntegers of either sign, mixed
    freely), each opcode answers the canonical object of the mathematical
    sum, difference, product, truncated quotient and remainder, floored
    quotient and modulus, or gcd, and fails exactly for a zero divisor or an
    unknown opcode. The object answered denotes the result. *)
Theorem largeIntBinary_refines `{NativeOrder} vClasses pos neg vSelf vOther x y op :
  classes_ok vClasses pos neg -> denotes pos neg vSelf x -> denotes pos neg vOther y ->
  match large_op op x y with
  | Some z => exists v, largeIntBinaryPrimitive vSelf vOther (VInt op) vClasses = Some (primSuccess v) /\
                v = integer_object pos neg z /\ denotes pos neg v z
  | None => largeIntBinaryPrimitive vSelf vOther (VInt op) vClasses = Some primFailed
  end.
Proof.
  intros Hcl Hx Hy. rewrite (binary_spec vClasses pos neg Hcl vSelf vOther x y op Hx Hy).
  destruct (large_op op x y) as [z|]; [|done]. eexists; split; [done|]. split; [done|]. apply integer_object_spec.
Qed.

Definition byte_class (id : Z) : RawClass :=
  {| class_id := id; instanceShape :=
     {| tag := 0; payloadSize := 0; varsSize := 0; isIndexed := true; isBytes := true; valueType := 1; size := 24 |} |}.

Definition class_pair (pos neg : RawClass) : Value :=
  VPointer (mkObject (byte_class 3) (BVars [VPointer (mkObject (byte_class 4) (BClass pos));
                                            VPointer (mkObject (byte_class 4) (BClass neg))])).

Lemma class_pair_ok : classes_ok (class_pair (byte_class 1) (byte_class 2)) (byte_class 1) (byte_class 2).
Proof. unfold classes_ok, byte_shaped. simpl. repeat split; done. Qed.

(** [-7 // 2] is [-4]. *)
Lemma largeIntBinary_refines_witness :
  largeIntBinaryPrimitive (VInt (-7)) (VInt 2) (VInt LARGE_OP_DIV) (class_pair (byte_class 1) (byte_class 2)) =
    Some (primSuccess (VInt (-4))).
Proof.
  destruct (largeIntBinary_refines (class_pair (byte_class 1) (byte_class 2)) (byte_class 1) (byte_class 2)
    (VInt (-7)) (VInt 2) (-7) 2 LARGE_OP_DIV class_pair_ok) as (v & Hv & -> & _);
    [unfold denotes, small; lia|unfold denotes, small; lia|]. exact Hv.
Defined.

(** Shifting by any SmallInteger is the arithmetic shift of the integer:
    left multiplies by a power of two, right rounds toward minus infinity for
    either sign. *)
Theorem largeIntShift_floors `{NativeOrder} vClasses pos neg vSelf x sh :
  classes_ok vClasses pos neg -> denotes pos neg vSelf x ->
  largeIntShiftPrimitive vSelf (VInt sh) vClasses =
    Some (primSuccess (integer_object pos neg (if 0 <=? sh then x * 2 ^ sh else x / 2 ^ (- sh)))).
Proof.
  intros Hcl Hx. rewrite (shift_spec vClasses pos neg Hcl vSelf x sh Hx). do 3 f_equal.
  destruct (Z.leb_spec 0 sh); [by apply Z.shiftl_mul_pow2|].
  replace sh with (- - sh) at 1 by lia. by rewrite Z.shiftl_opp_r, Z.shiftr_div_pow2 by lia.
Qed.

Lemma largeIntShift_floors_witness :
  largeIntShiftPrimitive (VInt (-5)) (VInt (-1)) (class_pair (byte_class 1) (byte_class 2)) = Some (primSuccess (VInt (-3))).
Proof.
  apply (largeIntShift_floors (class_pair (byte_class 1) (byte_class 2)) (byte_class 1) (byte_class 2) (VInt (-5)) (-5) (-1));
    [apply class_pair_ok|unfold denotes, small; lia].
Defined.

(** The comparison primitive answers -1, 0 or 1 as the integers compare;
    a zero compares as zero whatever the class of its object. *)
Theorem largeIntCompare_orders `{NativeOrder} vClasses pos neg vSelf vOther x y :
  classes_ok vClasses pos neg -> denotes pos neg vSelf x -> denotes pos neg vOther y ->
  largeIntComparePrimitive vSelf vOther vClasses = Some (primSuccess (VInt (sign_of_compare (x ?= y)))).
Proof. intros Hcl. by apply compare_spec. Qed.

Lemma largeIntCompare_orders_witness :
  largeIntComparePrimitive (VInt (-5)) (VInt 3) (class_pair (byte_class 1) (byte_class 2)) = Some (primSuccess (VInt (-1))).
Proof.
  apply (largeIntCompare_orders (class_pair (byte_class 1) (byte_class 2)) (byte_class 1) (byte_class 2) (VInt (-5)) (VInt 3) (-5) 3);
    [apply class_pair_ok|unfold denotes, small; lia..].
Defined.

Lemma digit_char_valid base c : digit_char base c -> valid_digit base c.
Proof. intros [d Hd]. unfold valid_digit. rewrite (is_digit_value _ _ _ Hd). apply Hd. Qed.

(** C21. Round trip: printing an integer in any base from 2 to 36 gives its
    canonical digits (no leading zero, no sign), and parsing those digits with
    the sign of the number gives the number's canonical object back. *)
Theorem largeInt_print_parse `{NativeOrder} vClasses pos neg StringClass isTrue vNegative vSelf x base :
  classes_ok vClasses pos neg -> byte_shaped StringClass -> denotes pos neg vSelf x -> 2 <= base <= 36 ->
  isTrue vNegative = (x <? 0) ->
  exists s, largeIntPrintStringPrimitive StringClass vSelf (VInt base) = Some (primSuccess s) /\
    largeIntFromStringPrimitive isTrue s (VInt base) vNegative vClasses = Some (primSuccess (integer_object pos neg x)).
Proof.
  intros Hcl Hsc Hx Hb Ht. destruct (print_spec vClasses pos neg Hcl StringClass vSelf x base Hx Hb) as (s & Hp & Hd & Hv & _).
  eexists; split; [exact Hp|]. rewrite (parse_spec vClasses pos neg Hcl isTrue StringClass s base vNegative Hsc Hb).
  - rewrite Hv, Ht. do 3 f_equal. unfold signed. case_bool; lia.
  - eapply Forall_impl; [intros c; apply digit_char_valid|exact Hd].
Qed.

Lemma largeInt_print_parse_witness :
  exists s, largeIntPrintStringPrimitive (byte_class 5) (VInt 255) (VInt 16) = Some (primSuccess s) /\
    largeIntFromStringPrimitive (fun _ => false) s (VInt 16) (VInt 0) (class_pair (byte_class 1) (byte_class 2)) = Some (primSuccess (VInt 255)).
Proof.
  apply (largeInt_print_parse (class_pair (byte_class 1) (byte_class 2)) (byte_class 1) (byte_class 2) (byte_class 5)
    (fun _ => false) (VInt 0) (VInt 255) 255 16 class_pair_ok); [done|unfold denotes, small; lia|lia|reflexivity].
Defined.
