(* ===== verification/Base64.v ===== *)
(** * Base64

    [src/vm/runtime/Base64.c]: RFC 4648 encoding and decoding over the
    standard alphabet.  The two routines run on byte buffers; the object
    allocated for the result is a zeroed buffer of the size the code asks
    for.  Both are specified by the number their text denotes: read as
    big-endian digit strings, the sextets of the encoding and the bytes of
    the input are the same number up to the padding bits.  Round trip, bounds
    and the exact acceptance condition of the decoder follow. *)
From S2P Require Import Prelude.

(** ** The code *)

Definition base64Alphabet : list Z :=
  bytes_of_string "ABCDEFGHIJKLMNOPQRSTUVWXYZabcdefghijklmnopqrstuvwxyz0123456789+/".

Definition base64Value (c : Z) : Z :=
  if (chr "A" <=? c) && (c <=? chr "Z") then c - chr "A"
  else if (chr "a" <=? c) && (c <=? chr "z") then c - chr "a" + 26
  else if (chr "0" <=? c) && (c <=? chr "9") then c - chr "0" + 52
  else if c =? chr "+" then 62
  else if c =? chr "/" then 63
  else -1.

(** [dst[o++] = base64Alphabet[x]] *)
Definition emit (x : Z) (st : list Z * nat) : option (list Z * nat) :=
  let '(dst, o) := st in
  c ← base64Alphabet !! Z.to_nat x;
  dst ← put dst o c;
  Some (dst, S o).

(** [dst[o++] = '='] *)
Definition emit_pad (st : list Z * nat) : option (list Z * nat) :=
  let '(dst, o) := st in
  dst ← put dst o (chr "=");
  Some (dst, S o).

(** [while (i + 3 <= n)]: three bytes to four characters. *)
Definition encode_body (src : list Z) (n : nat) (st : nat * (list Z * nat))
    : option (nat * (list Z * nat) + nat * (list Z * nat)) :=
  let '(i, out) := st in
  if (i + 3 <=? n)%nat then
    b0 ← src !! i;
    b1 ← src !! (i + 1)%nat;
    b2 ← src !! (i + 2)%nat;
    out ← emit (Z.shiftr b0 2) out;
    out ← emit (Z.lor (Z.shiftl (Z.land b0 3) 4) (Z.shiftr b1 4)) out;
    out ← emit (Z.lor (Z.shiftl (Z.land b1 15) 2) (Z.shiftr b2 6)) out;
    out ← emit (Z.land b2 63) out;
    Some (inl ((i + 3)%nat, out))
  else Some (inr (i, out)).

(** The one or two bytes left over. *)
Definition encode_tail (src : list Z) (n i : nat) (out : list Z * nat) : option (list Z * nat) :=
  if (i <? n)%nat then
    b0 ← src !! i;
    out ← emit (Z.shiftr b0 2) out;
    out ← (if (i + 1 <? n)%nat then
             b1 ← src !! (i + 1)%nat;
             out ← emit (Z.lor (Z.shiftl (Z.land b0 3) 4) (Z.shiftr b1 4)) out;
             emit (Z.shiftl (Z.land b1 15) 2) out
           else
             out ← emit (Z.shiftl (Z.land b0 3) 4) out;
             emit_pad out);
    emit_pad out
  else Some out.

Definition base64Encode (src : list Z) : option (list Z) :=
  let n := length src in
  '(i, out) ← loop (S n) (encode_body src n) (O, (replicate ((n + 2) / 3 * 4) 0, O));
  '(dst, _) ← encode_tail src n i out;
  Some dst.

(** [for (i = 0; i < n - pad; i++) if (base64Value(s[i]) < 0) return 0;] *)
Fixpoint alphabet_scan (s : list Z) (i k : nat) : option bool :=
  match k with
  | O => Some true
  | S k => c ← s !! i; if base64Value c <? 0 then Some false else alphabet_scan s (S i) k
  end.

Definition decode_body (s : list Z) (i : nat) (st : list Z * nat * Z * Z) : option (list Z * nat * Z * Z) :=
  let '(d, o, accum, bits) := st in
  c ← s !! i;
  let accum := Z.lor (u32 (Z.shiftl accum 6)) (u32 (base64Value c)) in
  let bits := bits + 6 in
  if 8 <=? bits then
    let bits := bits - 8 in
    d ← put d o (u8 (Z.land (Z.shiftr accum bits) 255));
    Some (d, S o, accum, bits)
  else Some (d, o, accum, bits).

(** [pad = s[n - 2] == '=' ? 2 : 1] when the last character is a pad. *)
Definition padding (s : list Z) : option nat :=
  let n := length s in
  if (0 <? n)%nat then
    c ← s !! (n - 1)%nat;
    if c =? chr "=" then
      c2 ← s !! (n - 2)%nat; Some (if c2 =? chr "=" then 2%nat else 1%nat)
    else Some O
  else Some O.

(** [Some None] is the answer 0, [Some (Some d)] the answer 1 with the
    result's bytes. *)
Definition base64Decode (s : list Z) : option (option (list Z)) :=
  let n := length s in
  if negb (n mod 4 =? 0)%nat then Some None
  else
    pad ← padding s;
    ok ← alphabet_scan s 0 (n - pad);
    if negb ok then Some None
    else
      '(d, _, _, _) ← for_up (n - pad) 0 (decode_body s) (replicate (n / 4 * 3 - pad) 0, O, 0, 0);
      Some (Some d).

(** ** Digit strings *)

(** The number a digit string denotes, most significant digit first. *)
Definition dval (b : Z) (l : list Z) : Z := foldl (fun acc x => acc * b + x) 0 l.

Definition digits (b : Z) (l : list Z) : Prop := Forall (fun x => 0 <= x < b) l.

Lemma dval_snoc b l x : dval b (l ++ [x]) = dval b l * b + x.
Proof. unfold dval. by rewrite foldl_app. Qed.

Lemma dval_bound b l : 0 < b -> digits b l -> 0 <= dval b l < b ^ Z.of_nat (length l).
Proof.
  intros Hb. induction l as [|x l IH] using rev_ind; intros Hl; [done|].
  apply Forall_app in Hl as [Hl Hx]. inversion_clear Hx as [|? ? Hx' _]. specialize (IH Hl).
  rewrite dval_snoc, length_app, Nat.add_1_r, Nat2Z.inj_succ, Z.pow_succ_r by lia. nia.
Qed.

Lemma dval_inj b l k : 0 < b -> digits b l -> digits b k -> length l = length k -> dval b l = dval b k -> l = k.
Proof.
  intros Hb. revert k. induction l as [|x l IH] using rev_ind; intros k Hl Hk Hn Hv.
  { by destruct k. }
  rewrite length_app in Hn. destruct k as [|y k _] using rev_ind; [simpl in Hn; lia|]. rewrite length_app in Hn. simpl in Hn.
  apply Forall_app in Hl as [Hl Hx]. inversion_clear Hx as [|? ? Hx' _].
  apply Forall_app in Hk as [Hk Hy]. inversion_clear Hy as [|? ? Hy' _]. rewrite !dval_snoc in Hv.
  assert (dval b l = dval b k) as E by nia. rewrite (IH k); [|done|done|lia|done]. do 2 f_equal. lia.
Qed.

(** ** Encoding *)

Lemma alphabet_value x : 0 <= x < 64 -> exists c, base64Alphabet !! Z.to_nat x = Some c /\ base64Value c = x.
Proof.
  intros Hx. destruct (lookup_Some_lt base64Alphabet (Z.to_nat x)) as [c Hc];
    [change (length base64Alphabet) with 64%nat; lia|]. exists c. split; [done|].
  assert (Forall (fun p => base64Value (snd p) = Z.of_nat (fst p)) (imap pair base64Alphabet)) as HF
    by (repeat (constructor; [reflexivity|]); constructor).
  apply (Forall_lookup_1 _ _ (Z.to_nat x) (Z.to_nat x, c)) in HF; [simpl in HF; lia|]. by rewrite list_lookup_imap, Hc.
Qed.

(** The characters written so far are sextets that denote [V]. *)
Definition sextets (V : Z) (st : list Z * nat) : Prop :=
  let '(dst, o) := st in
  (o <= length dst)%nat /\ digits 64 (base64Value <$> take o dst) /\ dval 64 (base64Value <$> take o dst) = V.

Lemma emit_spec x V dst o : sextets V (dst, o) -> 0 <= x < 64 -> (o < length dst)%nat ->
  exists dst', emit x (dst, o) = Some (dst', S o) /\ length dst' = length dst /\ sextets (V * 64 + x) (dst', S o).
Proof.
  intros (Hl & Hd & <-) Hx Ho. destruct (alphabet_value x Hx) as (c & Hc & Hv). unfold emit. step Hc. step (put_Some dst o c Ho).
  exists (<[o := c]> dst). split; [done|]. rewrite length_insert. split; [done|]. unfold sextets. rewrite length_insert. split; [lia|].
  rewrite (take_S_r _ o c) by (apply list_lookup_insert_eq; lia). rewrite take_insert_ge by lia.
  rewrite fmap_app. cbn [fmap list_fmap]. rewrite dval_snoc, Hv. split; [|done]. apply Forall_app; split; [done|]. by constructor.
Qed.

Lemma byte_split b k : 0 <= k <= 8 -> 0 <= b < 256 ->
  Z.shiftr b k = b / 2 ^ k /\ Z.land b (Z.ones k) = b mod 2 ^ k /\ b = 2 ^ k * (b / 2 ^ k) + b mod 2 ^ k /\
  0 <= b mod 2 ^ k < 2 ^ k /\ 0 <= b / 2 ^ k < 2 ^ (8 - k).
Proof.
  intros Hk Hb. rewrite Z.shiftr_div_pow2, Z.land_ones by lia. assert (0 < 2 ^ k) by (apply Z.pow_pos_nonneg; lia).
  pose proof (Z.div_mod b (2 ^ k) ltac:(lia)). pose proof (Z.mod_pos_bound b (2 ^ k) ltac:(lia)).
  split_and!; try done; try lia; [apply Z.div_pos; lia|apply Z.div_lt_upper_bound; [lia|]].
  rewrite <- Z.pow_add_r by lia. replace (k + (8 - k)) with 8 by lia. lia.
Qed.

Lemma join_bits x y k : 0 <= k -> 0 <= y < 2 ^ k -> Z.lor (Z.shiftl x k) y = x * 2 ^ k + y.
Proof. intros. by apply lor_shiftl_add. Qed.

Section Encode.
Context (src : list Z) (Hsrc : digits 256 src).
#[local] Abbreviation n := (length src).

Lemma src_lookup i : (i < n)%nat -> exists b, src !! i = Some b /\ 0 <= b < 256 /\ dval 256 (take (S i) src) = dval 256 (take i src) * 256 + b.
Proof.
  intros Hi. destruct (lookup_Some_lt src i Hi) as [b Hb]. exists b. split; [done|].
  split; [exact (Forall_lookup_1 _ _ _ _ Hsrc Hb)|]. by rewrite (take_S_r _ _ _ Hb), dval_snoc.
Qed.

Definition encode_inv (st : nat * (list Z * nat)) : Prop :=
  let '(i, (dst, o)) := st in
  (length dst = (n + 2) / 3 * 4)%nat /\ (i <= n)%nat /\ (exists k, i = 3 * k /\ o = 4 * k)%nat /\
  sextets (dval 256 (take i src)) (dst, o).

Lemma encode_step st : encode_inv st ->
  exists r, encode_body src n st = Some r /\
    match r with
    | inl t' => encode_inv t' /\ (n - t'.1 < n - st.1)%nat
    | inr q => encode_inv q /\ (n < q.1 + 3)%nat
    end.
Proof.
  destruct st as [i [dst o]]. intros (Hl & Hi & (k & -> & ->) & Hs). unfold encode_body.
  destruct (Nat.leb_spec (3 * k + 3) n) as [Hle|Hgt].
  2: { eexists; split; [done|]. split; [|simpl; lia]. split_and!; try done. by exists k. }
  pose proof (Nat.div_mod (n + 2) 3 ltac:(lia)). pose proof (Nat.mod_upper_bound (n + 2) 3 ltac:(lia)).
  assert (4 * k + 4 <= length dst)%nat as Hroom by lia.
  destruct (src_lookup (3 * k)) as (b0 & L0 & B0 & V0); [lia|]. destruct (src_lookup (3 * k + 1)) as (b1 & L1 & B1 & V1); [lia|].
  destruct (src_lookup (3 * k + 2)) as (b2 & L2 & B2 & V2); [lia|]. step L0. step L1. step L2.
  replace (S (3 * k)) with (3 * k + 1)%nat in V0 by lia. replace (S (3 * k + 1)) with (3 * k + 2)%nat in V1 by lia.
  replace (S (3 * k + 2)) with (3 * k + 3)%nat in V2 by lia.
  destruct (byte_split b0 2 ltac:(lia) B0) as (R0 & A0 & E0 & M0 & D0). destruct (byte_split b1 4 ltac:(lia) B1) as (R1 & A1 & E1 & M1 & D1).
  destruct (byte_split b2 6 ltac:(lia) B2) as (R2 & A2 & E2 & M2 & D2).
  change (Z.ones 2) with 3 in A0. change (Z.ones 4) with 15 in A1. change (Z.ones 6) with 63 in A2.
  rewrite R0, A0, R1, A1, R2, A2, !join_bits by lia.
  destruct (emit_spec (b0 / 2 ^ 2) _ dst (4 * k) Hs) as (d1 & F1 & G1 & S1); [lia|lia|]. step F1.
  destruct (emit_spec (b0 mod 2 ^ 2 * 2 ^ 4 + b1 / 2 ^ 4) _ _ _ S1) as (d2 & F2 & G2 & S2); [lia|lia|]. step F2.
  destruct (emit_spec (b1 mod 2 ^ 4 * 2 ^ 2 + b2 / 2 ^ 6) _ _ _ S2) as (d3 & F3 & G3 & S3); [lia|lia|]. step F3.
  destruct (emit_spec (b2 mod 2 ^ 6) _ _ _ S3) as (d4 & F4 & G4 & S4); [lia|lia|]. step F4.
  eexists; split; [done|]. cbn [fst]. split; [|lia]. split; [lia|]. split; [lia|]. split; [exists (S k); lia|].
  rewrite V2, V1, V0. replace (_ * 256 + b2) with
    ((((dval 256 (take (3 * k) src) * 64 + b0 / 2 ^ 2) * 64 + (b0 mod 2 ^ 2 * 2 ^ 4 + b1 / 2 ^ 4)) * 64 +
     (b1 mod 2 ^ 4 * 2 ^ 2 + b2 / 2 ^ 6)) * 64 + b2 mod 2 ^ 6) by lia.
  exact S4.
Qed.

(** The text [s] is the padded encoding of [src]: its sextets denote the
    number of the input's bytes, shifted left by the unused bits. *)
Definition encodes (s : list Z) : Prop :=
  exists chars pad, s = chars ++ replicate pad (chr "=") /\ (pad <= 2)%nat /\
    (3 * length s = 4 * (n + pad))%nat /\ digits 64 (base64Value <$> chars) /\
    dval 64 (base64Value <$> chars) = dval 256 src * 4 ^ Z.of_nat pad.

Lemma last_insert (d : list Z) o e : length d = S o -> <[o := e]> d = take o d ++ [e].
Proof. intros Hl. rewrite insert_take_drop by lia. by rewrite drop_ge by lia. Qed.

Lemma emit_pad_spec dst o : (o < length dst)%nat -> emit_pad (dst, o) = Some (<[o := chr "="]> dst, S o).
Proof. intros Ho. unfold emit_pad. by step (put_Some dst o (chr "=") Ho). Qed.

Lemma encode_tail_spec i out :
  encode_inv (i, out) -> (n < i + 3)%nat ->
  exists s o, encode_tail src n i out = Some (s, o) /\ encodes s.
Proof.
  destruct out as [dst o]. intros (Hl & Hi & (k & -> & ->) & Hs) Hn. unfold encode_tail.
  pose proof (Nat.div_mod (n + 2) 3 ltac:(lia)) as Hdm. pose proof (Nat.mod_upper_bound (n + 2) 3 ltac:(lia)).
  destruct (Nat.ltb_spec (3 * k) n) as [Hlt|].
  2: { exists dst, (4 * k)%nat. split; [done|]. assert (length dst = 4 * k)%nat as Hk by lia.
       destruct Hs as (_ & Hd & Hv). rewrite !take_ge in * by lia. exists dst, O.
       split_and!; [by rewrite app_nil_r|lia|lia|done|]. change (4 ^ Z.of_nat 0) with 1. lia. }
  assert (length dst = 4 * k + 4)%nat as Hroom by lia.
  destruct (src_lookup (3 * k)) as (b0 & L0 & B0 & V0); [lia|]. step L0. rewrite Nat.add_1_r.
  destruct (byte_split b0 2 ltac:(lia) B0) as (R0 & A0 & E0 & M0 & D0). change (Z.ones 2) with 3 in A0. rewrite R0, A0.
  destruct (emit_spec (b0 / 2 ^ 2) _ dst (4 * k) Hs) as (d1 & F1 & G1 & S1); [lia|lia|]. step F1.
  destruct (Nat.ltb_spec (S (3 * k)) n) as [Hlt2|].
  - destruct (src_lookup (S (3 * k))) as (b1 & L1 & B1 & V1); [lia|]. step L1.
    destruct (byte_split b1 4 ltac:(lia) B1) as (R1 & A1 & E1 & M1 & D1). change (Z.ones 4) with 15 in A1.
    rewrite R1, A1, !join_bits by lia. rewrite !Z.shiftl_mul_pow2 by lia.
    destruct (emit_spec (b0 mod 2 ^ 2 * 2 ^ 4 + b1 / 2 ^ 4) _ _ _ S1) as (d2 & F2 & G2 & S2); [lia|lia|]. step F2.
    destruct (emit_spec (b1 mod 2 ^ 4 * 2 ^ 2) _ _ _ S2) as (d3 & F3 & G3 & S3); [lia|lia|]. step F3.
    rewrite emit_pad_spec by lia. eexists _, _; split; [done|]. rewrite (last_insert d3) by lia.
    destruct S3 as (_ & Hd & Hv). eexists _, 1%nat. split; [done|]. split; [lia|].
    split; [rewrite length_app, length_take_le; simpl; lia|]. split; [done|]. rewrite Hv.
    replace (S (S (3 * k))) with n in V1 by lia. rewrite take_ge in V1 by lia. rewrite V1, V0. change (4 ^ Z.of_nat 1) with 4. lia.
  - rewrite Z.shiftl_mul_pow2 by lia.
    destruct (emit_spec (b0 mod 2 ^ 2 * 2 ^ 4) _ _ _ S1) as (d2 & F2 & G2 & S2); [lia|lia|]. step F2.
    rewrite emit_pad_spec by lia. cbn [mbind option_bind]. rewrite emit_pad_spec by (rewrite length_insert; lia).
    eexists _, _; split; [done|]. rewrite last_insert by (rewrite length_insert; lia).
    rewrite (take_S_r _ _ (chr "=")) by (apply list_lookup_insert_eq; lia). rewrite take_insert_ge by lia.
    destruct S2 as (_ & Hd & Hv). eexists _, 2%nat. split; [by rewrite <- app_assoc|]. split; [lia|].
    split; [rewrite !length_app, length_take_le; simpl; lia|]. split; [done|]. rewrite Hv.
    replace (S (3 * k)) with n in V0 by lia. rewrite take_ge in V0 by lia. rewrite V0. change (4 ^ Z.of_nat 2) with 16. lia.
Qed.

Lemma encode_spec : exists s, base64Encode src = Some s /\ encodes s.
Proof.
  unfold base64Encode.
  destruct (loop_rule encode_inv (fun q => encode_inv q /\ (n < q.1 + 3)%nat) (fun st => n - st.1)%nat (S n) (encode_body src n)
    (O, (replicate ((n + 2) / 3 * 4) 0, O))) as ([i out] & Hf & Hinv & Hn); [|by apply encode_step|simpl; lia|].
  - split; [by rewrite length_replicate|]. split; [lia|]. split; [by exists O|]. split; [lia|]. split; [constructor|done].
  - step Hf. destruct (encode_tail_spec i out Hinv Hn) as (s & o & Ht & He). step Ht. eauto.
Qed.
End Encode.

(** ** Decoding *)

Lemma base64Value_range c : -1 <= base64Value c < 64.
Proof. unfold base64Value. repeat (case_bool; cbn [andb]); cbn in *; lia. Qed.

Definition in_alphabet (c : Z) : Prop := 0 <= base64Value c.

Lemma alphabet_digits l : Forall in_alphabet l <-> digits 64 (base64Value <$> l).
Proof.
  unfold digits. rewrite Forall_fmap. apply Forall_iff. intros c. unfold in_alphabet. simpl.
  pose proof (base64Value_range c). lia.
Qed.

Lemma alphabet_scan_spec s i k : (i + k <= length s)%nat ->
  exists b, alphabet_scan s i k = Some b /\ (b = true <-> Forall in_alphabet (take k (drop i s))).
Proof.
  revert i. induction k as [|k IH]; intros i Hk; cbn [alphabet_scan]; [by exists true|].
  destruct (lookup_Some_lt s i) as [c Hc]; [lia|]. step Hc. rewrite (drop_S _ _ _ Hc). cbn [take].
  destruct (Z.ltb_spec (base64Value c) 0) as [Hlt|Hge].
  - exists false. split; [done|]. split; [done|]. intros HF. inversion_clear HF as [|? ? Hin _]. unfold in_alphabet in Hin. lia.
  - destruct (IH (S i) ltac:(lia)) as (b & Hb & Hiff). exists b. split; [done|]. rewrite Hiff. split.
    + intros HF. by constructor.
    + intros HF. by inversion_clear HF.
Qed.

Section Decode.
Context (s : list Z) (m L pad : nat).
Context (Hm : (m <= length s)%nat) (Hpad : (pad <= 2)%nat) (HL : (6 * m = 8 * L + 2 * pad)%nat).
Context (Halpha : Forall in_alphabet (take m s)).

(** The sextets read so far. *)
Definition V (i : nat) : Z := dval 64 (base64Value <$> take i s).

Definition decode_inv (i : nat) (st : list Z * nat * Z * Z) : Prop :=
  let '(d, o, accum, bits) := st in
  length d = L /\ 0 <= bits < 8 /\ 8 * Z.of_nat o + bits = 6 * Z.of_nat i /\ accum = V i mod 2 ^ 32 /\
  digits 256 (take o d) /\ dval 256 (take o d) = V i / 2 ^ bits.

Lemma V_S i c : s !! i = Some c -> V (S i) = V i * 64 + base64Value c.
Proof. intros Hc. unfold V. rewrite (take_S_r _ _ _ Hc), fmap_app. apply dval_snoc. Qed.

Lemma accum_step v x : 0 <= x < 64 ->
  Z.lor (u32 (Z.shiftl (v mod 2 ^ 32) 6)) (u32 x) = (v * 64 + x) mod 2 ^ 32.
Proof.
  intros Hx. rewrite (u32_id x) by lia. rewrite Z.shiftl_mul_pow2 by lia. unfold u32. rewrite Z.mul_mod_idemp_l by lia.
  change (2 ^ 32) with (2 ^ 26 * 2 ^ 6) at 1. rewrite Z.mul_mod_distr_r, lor_mul_add by lia.
  pose proof (Z.div_mod v (2 ^ 26) ltac:(lia)). pose proof (Z.mod_pos_bound v (2 ^ 26) ltac:(lia)).
  apply (Z.mod_unique _ _ (v / 2 ^ 26)); lia.
Qed.

Lemma byte_of v bits : 0 <= bits <= 5 -> u8 (Z.land (Z.shiftr (v mod 2 ^ 32) bits) 255) = (v / 2 ^ bits) mod 256.
Proof.
  intros Hb. rewrite Z.shiftr_div_pow2 by lia. change 255 with (Z.ones 8). rewrite Z.land_ones by lia.
  unfold u8. rewrite Z.mod_mod by lia. change 256 with (2 ^ 8). assert (0 < 2 ^ bits) by (apply Z.pow_pos_nonneg; lia).
  replace (2 ^ 32) with (2 ^ bits * 2 ^ (32 - bits)) by (rewrite <- Z.pow_add_r by lia; f_equal; lia).
  assert (0 < 2 ^ (32 - bits)) by (apply Z.pow_pos_nonneg; lia).
  rewrite Z.rem_mul_r by lia. rewrite (Z.add_comm (v mod _)), Z.mul_comm, Z.div_add_l by lia.
  rewrite (Z.div_small (v mod 2 ^ bits)) by (apply Z.mod_pos_bound; lia). rewrite Z.add_0_r.
  replace (2 ^ (32 - bits)) with (2 ^ 8 * 2 ^ (24 - bits)) by (rewrite <- Z.pow_add_r by lia; f_equal; lia).
  assert (0 < 2 ^ (24 - bits)) by (apply Z.pow_pos_nonneg; lia).
  by rewrite Z.rem_mul_r, Z.mul_comm, Z.mod_add, Z.mod_mod by lia.
Qed.

Lemma shift_sextet v x bits : 0 <= bits -> 0 <= x < 64 -> (v * 64 + x) / 2 ^ (bits + 6) = v / 2 ^ bits.
Proof.
  intros Hb Hx. rewrite Z.add_comm, Z.pow_add_r by lia. assert (0 < 2 ^ bits) by (apply Z.pow_pos_nonneg; lia).
  rewrite (Z.mul_comm (2 ^ bits)), <- Z.div_div by lia. change (2 ^ 6) with 64. by rewrite Z.div_add, (Z.div_small x 64) by lia.
Qed.

Lemma decode_step i st : (i < m)%nat -> decode_inv i st ->
  exists st', decode_body s i st = Some st' /\ decode_inv (S i) st'.
Proof.
  destruct st as [[[d o] accum] bits]. intros Hi (Hl & Hb & Ho & -> & Hd & Hv). unfold decode_body.
  destruct (lookup_Some_lt s i) as [c Hc]; [lia|]. step Hc.
  assert (0 <= base64Value c < 64) as Hx.
  { pose proof (base64Value_range c). split; [|lia]. apply (Forall_lookup_1 in_alphabet (take m s) i c Halpha). by rewrite lookup_take_lt. }
  rewrite accum_step by done. rewrite <- (V_S i c Hc). pose proof (shift_sextet (V i) (base64Value c) bits ltac:(lia) Hx) as Hsh.
  rewrite <- (V_S i c Hc) in Hsh. destruct (Z.leb_spec 8 (bits + 6)) as [Hge|Hlt].
  - assert (o < length d)%nat as Hroom by lia. rewrite byte_of by lia. step (put_Some d o ((V (S i) / 2 ^ (bits + 6 - 8)) mod 256) Hroom).
    eexists; split; [done|]. set (v := V (S i)) in *. split; [by rewrite length_insert|]. split; [lia|]. split; [lia|]. split; [done|].
    pose proof (Z.mod_pos_bound (v / 2 ^ (bits + 6 - 8)) 256 ltac:(lia)).
    set (x := (v / 2 ^ (bits + 6 - 8)) mod 256) in *.
    rewrite (take_S_r _ o x) by (apply list_lookup_insert_eq; lia). rewrite take_insert_ge by lia.
    split; [apply Forall_app; split; [done|by constructor]|]. rewrite dval_snoc, Hv, <- Hsh.
    replace (2 ^ (bits + 6)) with (2 ^ (bits + 6 - 8) * 2 ^ 8) by (rewrite <- Z.pow_add_r by lia; f_equal; lia).
    assert (0 < 2 ^ (bits + 6 - 8)) by (apply Z.pow_pos_nonneg; lia).
    rewrite <- Z.div_div by lia. change (2 ^ 8) with 256. unfold x. fold v.
    pose proof (Z.div_mod (v / 2 ^ (bits + 6 - 8)) 256 ltac:(lia)). lia.
  - eexists; split; [done|]. split; [done|]. split; [lia|]. split; [lia|]. split; [done|]. split; [done|]. by rewrite Hsh.
Qed.

Lemma decode_loop : exists d o accum bits,
  for_up m 0 (decode_body s) (replicate L 0, O, 0, 0) = Some (d, o, accum, bits) /\
  length d = L /\ digits 256 d /\ dval 256 d = V m / 4 ^ Z.of_nat pad.
Proof.
  destruct (for_up_rule decode_inv m 0 (decode_body s) (replicate L 0, O, 0, 0)) as ([[[d o] a] b] & Hf & Hl & Hb & Ho & _ & Hd & Hv).
  - split; [by rewrite length_replicate|]. split; [lia|]. split; [lia|]. split; [done|]. split; [constructor|done].
  - intros i st Hi. apply decode_step. lia.
  - exists d, o, a, b. split; [done|]. rewrite Nat.add_0_l in *. assert (o = L /\ b = 2 * Z.of_nat pad) as [-> ->] by lia.
    rewrite take_ge in * by lia. split; [done|]. split; [done|]. rewrite Hv, Z.pow_mul_r by lia. done.
Qed.
End Decode.

Lemma padding_total s : (length s mod 4 = 0)%nat -> exists pad, padding s = Some pad /\ (pad <= 2)%nat /\ (pad <= length s)%nat.
Proof.
  intros Hn. unfold padding. pose proof (Nat.div_mod (length s) 4 ltac:(lia)).
  destruct (Nat.ltb_spec 0 (length s)); [|exists O; split_and!; done || lia].
  destruct (lookup_Some_lt s (length s - 1)) as [c Hc]; [lia|]. step Hc.
  destruct (c =? chr "="); [|exists O; split_and!; done || lia].
  destruct (lookup_Some_lt s (length s - 2)) as [c2 Hc2]; [lia|]. step Hc2.
  destruct (c2 =? chr "="); eexists; split_and!; done || lia.
Qed.

Lemma decode_spec s pad : (length s mod 4 = 0)%nat -> padding s = Some pad ->
  let body := take (length s - pad) s in
  (Forall in_alphabet body -> exists d, base64Decode s = Some (Some d) /\ (length d = length s / 4 * 3 - pad)%nat /\
     digits 256 d /\ dval 256 d = dval 64 (base64Value <$> body) / 4 ^ Z.of_nat pad) /\
  (~ Forall in_alphabet body -> base64Decode s = Some None).
Proof.
  intros Hn Hp body. destruct (padding_total s Hn) as (pad' & Hp' & Hp2 & Hpn). rewrite Hp in Hp'. injection Hp' as <-.
  destruct (alphabet_scan_spec s 0 (length s - pad) ltac:(lia)) as (b & Hb & Hiff). rewrite drop_0 in Hiff. fold body in Hiff.
  unfold base64Decode. rewrite Hn. cbn [Nat.eqb negb]. step Hp. step Hb. pose proof (Nat.div_mod (length s) 4 ltac:(lia)).
  split; intros HF.
  - rewrite (proj2 Hiff HF). cbn [negb].
    destruct (decode_loop s (length s - pad) (length s / 4 * 3 - pad) pad) as (d & o & a & bits & Hf & Hl & Hd & Hv);
      [lia|lia|lia|done|]. step Hf. exists d. done.
  - destruct b; [by destruct HF; apply Hiff|done].
Qed.

(** A pad is no alphabet character, so the padding is found. *)
Lemma padding_encoded chars pad : (pad <= 2)%nat -> ((length chars + pad) mod 4 = 0)%nat -> Forall in_alphabet chars ->
  padding (chars ++ replicate pad (chr "=")) = Some pad.
Proof.
  intros Hp Hn Hc. assert (forall l c, l ++ [c] = chars -> c <> chr "=") as Hlast.
  { intros l c E ->. rewrite <- E in Hc. apply Forall_app in Hc as [_ Hc]. inversion_clear Hc as [|? ? Hin _]. by destruct Hin. }
  pose proof (Nat.div_mod (length chars + pad) 4 ltac:(lia)). unfold padding.
  rewrite length_app, length_replicate.
  destruct chars as [|c chars _] using rev_ind.
  { simpl in *. assert (pad = 0)%nat as -> by lia. done. }
  rewrite length_app in *. cbn [length] in *. destruct (Nat.ltb_spec 0 (length chars + 1 + pad)); [|lia].
  specialize (Hlast _ _ eq_refl). apply Z.eqb_neq in Hlast.
  assert (forall k, (chars ++ [c]) ++ k = chars ++ c :: k) as Happ by (intros; by rewrite <- app_assoc). rewrite Happ.
  assert (pad = 0 \/ pad = 1 \/ pad = 2)%nat as [E|[E|E]] by lia; rewrite E; cbn [replicate].
  all: assert (forall l i j, i = (length chars + j)%nat -> (chars ++ l) !! i = l !! j) as Hat
    by (intros l i j ->; rewrite lookup_app_r by lia; f_equal; lia).
  - rewrite (Hat _ (length chars + 1 + 0 - 1)%nat 0%nat) by lia. cbn [lookup list_lookup mbind option_bind]. by rewrite Hlast.
  - rewrite (Hat _ (length chars + 1 + 1 - 1)%nat 1%nat), (Hat _ (length chars + 1 + 1 - 2)%nat 0%nat) by lia.
    cbn [lookup list_lookup mbind option_bind]. rewrite Z.eqb_refl. cbn [mbind option_bind]. by rewrite Hlast.
  - by rewrite (Hat _ (length chars + 1 + 2 - 1)%nat 2%nat), (Hat _ (length chars + 1 + 2 - 2)%nat 1%nat) by lia.
Qed.

(** ** Properties *)

(** C29. Encoding any byte string succeeds, never writes outside the
    [((n + 2) / 3) * 4] characters allocated, and gives a text whose sextets
    denote the number of the input's bytes, padded as RFC 4648 says; decoding
    that text gives the input back. *)
Theorem base64_roundtrip src :
  digits 256 src -> exists s, base64Encode src = Some s /\ encodes src s /\ base64Decode s = Some (Some src).
Proof.
  intros Hsrc. destruct (encode_spec src Hsrc) as (s & He & Hs). exists s. split; [done|]. split; [done|].
  destruct Hs as (chars & pad & -> & Hp & Hn & Hd & Hv). rewrite length_app, length_replicate in Hn.
  assert ((length chars + pad) mod 4 = 0)%nat as Hm4.
  { apply Nat.Lcm0.mod_divide. exists ((length src + pad) / 3)%nat. pose proof (Nat.div_mod (length src + pad) 3 ltac:(lia)). 
    pose proof (Nat.mod_upper_bound (length src + pad) 3 ltac:(lia)). lia. }
  apply alphabet_digits in Hd as Ha. pose proof (padding_encoded chars pad Hp Hm4 Ha) as Hpad.
  destruct (decode_spec (chars ++ replicate pad (chr "=")) pad) as [Hok _]; [by rewrite length_app, length_replicate|done|].
  rewrite length_app, length_replicate, take_app_length' in Hok by lia.
  destruct (Hok Ha) as (d & Hdec & Hl & Hdd & Hdv). rewrite Hdec. do 2 f_equal. apply (dval_inj 256); try done.
  - pose proof (Nat.div_mod (length chars + pad) 4 ltac:(lia)). lia.
  - rewrite Hdv, Hv. apply Z.div_mul. pose proof (Z.pow_pos_nonneg 4 (Z.of_nat pad) ltac:(lia) ltac:(lia)). lia.
Qed.

Lemma base64_roundtrip_witness :
  exists s, base64Encode [0; 255; 16; 1] = Some s /\ base64Decode s = Some (Some [0; 255; 16; 1]).
Proof.
  destruct (base64_roundtrip [0; 255; 16; 1]) as (s & H1 & _ & H2); [repeat constructor; done|].
  exists s. split; [exact H1|exact H2].
Defined.

(** The decoder answers on every input without leaving a buffer: it
    rejects a length that is no multiple of four and any non-alphabet
    character before the padding, and otherwise fills exactly the
    [n / 4 * 3 - pad] bytes it allocated with the number of the sextets, the
    unused low bits dropped. *)
Theorem base64Decode_total s :
  match padding s with
  | None => (length s mod 4 <> 0)%nat /\ base64Decode s = Some None
  | Some pad =>
      exists r, base64Decode s = Some r /\
        match r with
        | None => (length s mod 4 <> 0)%nat \/ ~ Forall in_alphabet (take (length s - pad) s)
        | Some d => (length s mod 4 = 0)%nat /\ Forall in_alphabet (take (length s - pad) s) /\
            (length d = length s / 4 * 3 - pad)%nat /\ digits 256 d /\
            dval 256 d = dval 64 (base64Value <$> take (length s - pad) s) / 4 ^ Z.of_nat pad
        end
  end.
Proof.
  destruct (decide (length s mod 4 = 0)%nat) as [Hn|Hn].
  - destruct (padding_total s Hn) as (pad & Hp & _). rewrite Hp. destruct (decode_spec s pad Hn Hp) as [H1 H2].
    assert (Decision (Forall in_alphabet (take (length s - pad) s))) as Hdec by (apply Forall_dec; intros c; apply Z_le_dec).
    destruct Hdec as [HF|HF].
    + destruct (H1 HF) as (d & Hd & ?). exists (Some d). done.
    + exists None. split; [by apply H2|by right].
  - assert (base64Decode s = Some None) as E by (unfold base64Decode; by rewrite (proj2 (Nat.eqb_neq _ _) Hn)).
    destruct (padding s); [|done]. exists None. split; [done|by left].
Qed.
