(* ===== verification/RememberedSet.v ===== *)
(** * The remembered set

    [src/vm/memory/RememberedSet.h]: old objects that may point into the
    young space, kept in a chain of fixed-size blocks.  A block chain is the
    list of its blocks, newest first, so that [block->prev] is the tail;
    [current] is the index of the next free slot of [objects].  The header
    byte [tags] of each object lives in a map from addresses.

    A dying thread's chain is spliced in front of the heap's
    ([heapEndMutator] of [src/vm/memory/Heap.c]), so a block in the middle of
    a chain need not be full; what iteration relies on is that none but the
    oldest is empty.  The main results: every operation keeps that invariant,
    stores only within blocks, marks exactly the objects added, and an
    iteration yields each member once. *)
From S2P Require Import Prelude Tagging.
From stdpp Require Import gmap.
#[local] Open Scope Z_scope.

Definition REMEMBERED_SET_BLOCK_SIZE : nat := 1024.

(** ** The code *)

Record RememberedSetBlock := {
  current : nat;
  objects : list Z;
}.

(** The end pointer is [objects + REMEMBERED_SET_BLOCK_SIZE]. *)
Definition block_end (b : RememberedSetBlock) : nat := length (objects b).

Definition createRememberedSetBlock (prev : list RememberedSetBlock) : list RememberedSetBlock :=
  {| current := 0; objects := replicate REMEMBERED_SET_BLOCK_SIZE 0%Z |} :: prev.

Record RememberedSet := { blocks : list RememberedSetBlock }.

Definition initRememberedSet : RememberedSet := {| blocks := createRememberedSetBlock [] |}.

Definition rememberedSetGrow (s : RememberedSet) : RememberedSet := {| blocks := createRememberedSetBlock (blocks s) |}.

(** The state is the set with the tags of the objects. *)
Definition rememberedSetAdd (s : RememberedSet) (tags : gmap Z Z) (object : Z) : option (RememberedSet * gmap Z Z) :=
  block ← head (blocks s);
  let s := if (block_end block <=? current block)%nat then rememberedSetGrow s else s in
  match blocks s with
  | [] => None
  | block :: prev =>
      t ← tags !! object;
      _ ← ASSERT (Z.land t TAG_REMEMBERED =? 0);
      objs ← put (objects block) (current block) (tagPtr object);
      Some ({| blocks := {| current := S (current block); objects := objs |} :: prev |},
            <[object := Z.lor t TAG_REMEMBERED]> tags)
  end.

(** Keeps the newest block and frees the others. *)
Definition rememberedSetReset (s : RememberedSet) : option RememberedSet :=
  block ← head (blocks s);
  Some {| blocks := [{| current := 0; objects := objects block |}] |}.

Definition rememberedSetCount (s : RememberedSet) : nat :=
  foldl (fun total b => total + current b)%nat O (blocks s).

(** The splice of [heapEndMutator]: the thread's chain goes in front of the
    heap's unless it is one empty block. *)
Definition spliceRememberedSet (heapSet : RememberedSet) (front : list RememberedSetBlock) : RememberedSet :=
  match front with
  | [] => heapSet
  | b :: prev =>
      let empty := (match prev with [] => true | _ => false end) && (current b =? 0)%nat in
      if empty then heapSet else {| blocks := front ++ blocks heapSet |}
  end.

(** A pointer to a block of the chain is the sub-chain that starts there;
    two such pointers are equal when the sub-chains have the same length. *)
Record RememberedSetIterator := {
  it_block : list RememberedSetBlock;
  blockEnd : nat;
  firstBlock : list RememberedSetBlock;
  hasPrevBlock : bool;
  next : option nat;
}.

Definition same_block (b c : list RememberedSetBlock) : bool := (length b =? length c)%nat.

Fixpoint rememberedSetBlockFirst (block : list RememberedSetBlock) : list RememberedSetBlock :=
  match block with
  | [] => []
  | b :: prev => match prev with [] => block | _ => rememberedSetBlockFirst prev end
  end.

Definition rememberedSetIteratorSetBlock (first block : list RememberedSetBlock) : option RememberedSetIterator :=
  b ← head block;
  Some {| it_block := block;
          blockEnd := current b;
          firstBlock := first;
          hasPrevBlock := negb (same_block block first);
          next := if (0 <? current b)%nat then Some O else None |}.

Definition initRememberedSetIterator (s : RememberedSet) : option RememberedSetIterator :=
  let block := blocks s in
  let first := rememberedSetBlockFirst block in
  it ← rememberedSetIteratorSetBlock first block;
  if (match next it with None => true | _ => false end) && negb (same_block block first)
  then rememberedSetIteratorSetBlock first (tail block)
  else Some it.

Definition rememberedSetIteratorHasNext (it : RememberedSetIterator) : bool :=
  match next it with None => false | _ => true end.

Definition rememberedSetIteratorNext (it : RememberedSetIterator) : option (Z * RememberedSetIterator) :=
  n ← next it;
  b ← head (it_block it);
  v ← objects b !! n;
  object ← asObject v;
  if (S n <? blockEnd it)%nat then
    Some (object, {| it_block := it_block it; blockEnd := blockEnd it; firstBlock := firstBlock it;
                     hasPrevBlock := hasPrevBlock it; next := Some (S n) |})
  else if hasPrevBlock it then
    it ← rememberedSetIteratorSetBlock (firstBlock it) (tail (it_block it)); Some (object, it)
  else
    Some (object, {| it_block := it_block it; blockEnd := blockEnd it; firstBlock := firstBlock it;
                     hasPrevBlock := hasPrevBlock it; next := None |}).

(** The loop of every client: collect while [HasNext]. *)
Fixpoint iterate (fuel : nat) (it : RememberedSetIterator) : option (list Z) :=
  match fuel with
  | O => None
  | S fuel =>
      if rememberedSetIteratorHasNext it then
        '(object, it) ← rememberedSetIteratorNext it;
        rest ← iterate fuel it;
        Some (object :: rest)
      else Some []
  end.

(** ** The invariant *)

Definition block_ok (b : RememberedSetBlock) : Prop :=
  length (objects b) = REMEMBERED_SET_BLOCK_SIZE /\ (current b <= REMEMBERED_SET_BLOCK_SIZE)%nat.

Definition entries (b : RememberedSetBlock) : list Z := take (current b) (objects b).

(** All blocks but the oldest hold something. *)
Fixpoint chain_ok (l : list RememberedSetBlock) : Prop :=
  match l with
  | [] => True
  | b :: prev => block_ok b /\ (prev = [] \/ (0 < current b)%nat) /\ chain_ok prev
  end.

(** A chain only ever added to has no empty block, unless it is the initial
    one. *)
Definition dense (l : list RememberedSetBlock) : Prop :=
  (exists b, l = [b]) \/ Forall (fun b => 0 < current b)%nat l.

Definition chain_entries (l : list RememberedSetBlock) : list Z := concat (entries <$> l).

(** The set [s] holds the objects [l], in the order an iteration meets them. *)
Definition holds (s : RememberedSet) (l : list Z) : Prop :=
  blocks s <> [] /\ chain_ok (blocks s) /\ chain_entries (blocks s) = tagPtr <$> l.

(** An object address: aligned, and clear of the top of the address space. *)
Definition object_ptr (o : Z) : Prop := 0 <= o < 2 ^ 64 - 4 /\ o mod 4 = 0.

Lemma asObject_tagPtr o : object_ptr o -> asObject (tagPtr o) = Some o.
Proof.
  intros [Ho Hm]. unfold asObject, tagPtr. cbn [type_code]. rewrite (u64_id (o + 1)) by lia. rewrite u64_id by lia.
  rewrite ASSERT_eqb; [simpl; f_equal; lia|]. rewrite land3. rewrite Z.add_mod, Hm by lia. done.
Qed.

Lemma tagPtr_inj o o' : object_ptr o -> object_ptr o' -> tagPtr o = tagPtr o' -> o = o'.
Proof. intros H1%asObject_tagPtr H2%asObject_tagPtr E. congruence. Qed.

Lemma init_holds : holds initRememberedSet [].
Proof. split; [done|]. split; [|done]. split; [|split; [by left|done]]. split; [done|cbn [current]; lia]. Qed.

Lemma fresh_ok prev : chain_ok prev -> block_ok {| current := 0; objects := replicate REMEMBERED_SET_BLOCK_SIZE 0%Z |}.
Proof. intros _. split; [apply length_replicate|cbn [current]; lia]. Qed.

(** Writing the next slot of a block that has room. *)
Lemma push_block b v prev : block_ok b -> (current b < REMEMBERED_SET_BLOCK_SIZE)%nat ->
  exists objs, put (objects b) (current b) v = Some objs /\
    let b' := {| current := S (current b); objects := objs |} in
    block_ok b' /\ chain_entries (b' :: prev) = entries b ++ v :: chain_entries prev.
Proof.
  intros [Hl Hc] Hlt. exists (<[current b := v]> (objects b)). split; [apply put_Some; lia|]. cbv zeta. split.
  - split; [cbn [objects]; by rewrite length_insert|cbn [current]; lia].
  - unfold chain_entries. cbn [fmap list_fmap concat]. unfold entries at 1. cbn [current objects].
    rewrite (take_S_r _ _ v) by (apply list_lookup_insert_eq; lia). rewrite take_insert_ge by lia. by rewrite <- app_assoc.
Qed.

Lemma add_holds s l tags o t :
  holds s l -> tags !! o = Some t -> Z.land t TAG_REMEMBERED = 0 ->
  exists s' l', rememberedSetAdd s tags o = Some (s', <[o := Z.lor t TAG_REMEMBERED]> tags) /\
    holds s' l' /\ (dense (blocks s) -> dense (blocks s')) /\ exists l1 l2, l = l1 ++ l2 /\ l' = l1 ++ o :: l2.
Proof.
  intros (Hne & Hc & He) Ht Hz. unfold rememberedSetAdd. destruct (blocks s) as [|b prev] eqn:Hb; [done|].
  cbn [head mbind option_bind]. destruct Hc as (Hbo & Hnz & Hcp).
  assert (exists b' prev', blocks (if (block_end b <=? current b)%nat then rememberedSetGrow s else s) = b' :: prev' /\
    block_ok b' /\ (current b' < REMEMBERED_SET_BLOCK_SIZE)%nat /\ chain_ok prev' /\ entries b' ++ chain_entries prev' = tagPtr <$> l /\
    (dense (b :: prev) -> Forall (fun b => 0 < current b)%nat prev'))
    as (b' & prev' & -> & Hbo' & Hlt & Hcp' & He' & Hde).
  { destruct Hbo as [Hbl Hbc]. unfold block_end. destruct (Nat.leb_spec (length (objects b)) (current b)).
    - exists {| current := 0; objects := replicate REMEMBERED_SET_BLOCK_SIZE 0%Z |}, (b :: prev).
      cbn [rememberedSetGrow blocks createRememberedSetBlock]. unfold createRememberedSetBlock. rewrite Hb.
      split; [done|]. split; [by apply (fresh_ok prev)|]. split; [cbn [current]; unfold REMEMBERED_SET_BLOCK_SIZE; lia|]. 
      assert (0 < current b)%nat as Hpos by (rewrite Hbl in *; unfold REMEMBERED_SET_BLOCK_SIZE in *; lia).
      split; [split; [done|]; split; [by right|done]|]. split; [exact He|].
      intros [[c [= -> ->]]|Hd]; [|done]. by constructor.
    - exists b, prev. split; [done|]. split; [done|]. split; [lia|]. split; [done|]. split; [exact He|].
      intros [[c [= -> ->]]|Hd]; [constructor|]. by inversion_clear Hd. }
  rewrite Ht. cbn [mbind option_bind]. rewrite Hz. cbn [Z.eqb ASSERT mbind option_bind].
  destruct (push_block b' (tagPtr o) prev' Hbo' Hlt) as (objs & Hp & Hbo'' & He''). rewrite Hp. cbn [mbind option_bind].
  apply symmetry, fmap_app_inv in He' as (l1 & l2 & E1 & E2 & ->).
  exists {| blocks := {| current := S (current b'); objects := objs |} :: prev' |}, (l1 ++ o :: l2).
  split; [done|]. split; [split; [done|]; split|].
  - split; [done|]. split; [right; cbn [current]; lia|done].
  - cbn [blocks]. rewrite He'', fmap_app, fmap_cons. by rewrite E1, E2.
  - split; [|by exists l1, l2]. intros Hd. right. constructor; [cbn [current]; lia|by apply Hde].
Qed.

(** ** Splicing and resetting *)

Lemma chain_ok_app l k : chain_ok l -> chain_ok k -> Forall (fun b => 0 < current b)%nat l -> chain_ok (l ++ k).
Proof.
  intros Hl Hk Hd. induction Hd as [|b l Hb Hd IH]; [done|]. destruct Hl as (Hbo & _ & Hl). cbn [app chain_ok].
  split; [done|]. split; [by right|]. by apply IH.
Qed.

Lemma splice_holds heapSet l front m :
  holds heapSet l -> holds {| blocks := front |} m ->
  dense front -> holds (spliceRememberedSet heapSet front) (m ++ l).
Proof.
  intros (Hne & Hc & He) (Hnf & Hcf & Hef) Hd. cbn [blocks] in *. unfold spliceRememberedSet. destruct front as [|b prev]; [done|].
  destruct ((match prev with [] => true | _ => false end) && (current b =? 0)%nat) eqn:Hempty.
  - destruct prev; [|done]. apply Nat.eqb_eq in Hempty. unfold chain_entries, entries in Hef. cbn in Hef. rewrite Hempty in Hef.
    destruct m; [|done]. done.
  - split; [done|]. split.
    + apply (chain_ok_app (b :: prev)); [done|done|]. destruct Hd as [[c [= -> ->]]|Hd]; [|done].
      constructor; [|constructor]. apply Nat.eqb_neq in Hempty. lia.
    + cbn [blocks]. unfold chain_entries in *. by rewrite fmap_app, concat_app, Hef, He, fmap_app.
Qed.

Lemma reset_holds s l : holds s l -> exists s', rememberedSetReset s = Some s' /\ holds s' [].
Proof.
  intros (Hne & Hc & _). unfold rememberedSetReset. destruct (blocks s) as [|b prev]; [done|]. eexists; split; [done|].
  split; [done|]. split; [|done]. destruct Hc as ([Hl _] & _). split; [|split; [by left|done]].
  split; [done|cbn [current]; lia].
Qed.

Lemma foldl_count l k : foldl (fun total b => total + current b)%nat k l = (k + foldl (fun total b => total + current b)%nat 0 l)%nat.
Proof.
  revert k. induction l as [|b l IH]; intros k; cbn [foldl]; [lia|]. rewrite IH, (IH (0 + current b)%nat). lia.
Qed.

Lemma count_holds s l : holds s l -> rememberedSetCount s = length l.
Proof.
  intros (_ & Hc & He). apply (f_equal length) in He. rewrite length_fmap in He. rewrite <- He. unfold rememberedSetCount.
  clear He. induction (blocks s) as [|b prev IH]; [done|]. destruct Hc as ([Hl Hb] & _ & Hc). cbn [foldl].
  rewrite foldl_count. unfold chain_entries. cbn [fmap list_fmap concat]. rewrite length_app. unfold entries at 1.
  rewrite length_take_le by lia. fold (chain_entries prev). rewrite <- (IH Hc). lia.
Qed.

(** ** Iteration *)

(** The first block is the last of the chain: the only one with no tail. *)
Lemma block_first l : l <> [] -> length (rememberedSetBlockFirst l) = 1%nat.
Proof. induction l as [|b [|c l] IH]; intros Hne; [done|done|]. cbn [rememberedSetBlockFirst]. by apply IH. Qed.

(** An iterator at slot [n] of the newest block of [chain]. *)
Definition at_slot (first chain : list RememberedSetBlock) (n : option nat) (it : RememberedSetIterator) : Prop :=
  exists b prev, chain = b :: prev /\ it_block it = chain /\ blockEnd it = current b /\ firstBlock it = first /\
    hasPrevBlock it = negb (same_block chain first) /\ next it = n.

Lemma set_block first b prev :
  exists it, rememberedSetIteratorSetBlock first (b :: prev) = Some it /\
    at_slot first (b :: prev) (if (0 <? current b)%nat then Some O else None) it.
Proof. eexists; split; [done|]. exists b, prev. done. Qed.

Section Iterate.
Context (first : list RememberedSetBlock) (Hfirst : length first = 1%nat).

Lemma not_first b c prev : same_block (b :: c :: prev) first = false.
Proof. unfold same_block. rewrite Hfirst. done. Qed.

Lemma is_first b : same_block [b] first = true.
Proof. unfold same_block. by rewrite Hfirst. Qed.

(** What is left to visit. *)
Lemma iterate_spec l : Forall object_ptr l -> forall b prev n it fuel,
  chain_ok (b :: prev) -> (n < current b)%nat -> at_slot first (b :: prev) (Some n) it ->
  drop n (entries b) ++ chain_entries prev = tagPtr <$> l -> (length l < fuel)%nat ->
  iterate fuel it = Some l.
Proof.
  induction l as [|o l IH]; intros Hl b prev n it fuel Hck Hn Hat He Hf; destruct Hck as ([Hbl Hbc] & Hnz & Hcp);
    (destruct (lookup_Some_lt (objects b) n) as [v Hv]; [lia|]);
    (assert (entries b !! n = Some v) as Hev by (unfold entries; by rewrite lookup_take_lt));
    rewrite (drop_S _ _ _ Hev) in He; [done|].
  cbn [fmap list_fmap app] in He. injection He as Hvo He. inversion_clear Hl as [|? ? Ho Hl']. specialize (IH Hl').
  destruct fuel as [|fuel]; [simpl in Hf; lia|]. simpl in Hf. cbn [iterate].
  destruct Hat as (b' & prev' & [= <- <-] & Hib & Hbe & Hfb & Hhp & Hnx).
  unfold rememberedSetIteratorHasNext, rememberedSetIteratorNext. rewrite Hnx, Hib. cbn [mbind option_bind head].
  rewrite Hv. cbn [mbind option_bind]. rewrite Hvo, asObject_tagPtr by done. cbn [mbind option_bind]. rewrite Hbe, Hhp, Hfb.
  destruct (Nat.ltb_spec (S n) (current b)) as [Hlt|Hge].
  { cbn [mbind option_bind]. erewrite (IH b prev (S n)); [done|..|exact He|lia]; [|lia|].
    - split; [done|]. by split.
    - exists b, prev. done. }
  assert (drop (S n) (entries b) = []) as Hd by (apply drop_ge; unfold entries; rewrite length_take; lia). rewrite Hd in He. cbn [app] in He.
  destruct prev as [|c prev].
  - rewrite is_first. cbn [negb mbind option_bind]. destruct l; [|done]. by destruct fuel; [simpl in Hf; lia|].
  - rewrite not_first. cbn [negb mbind option_bind tail].
    destruct (set_block first c prev) as (it' & Hs & Hat'). rewrite Hs. cbn [mbind option_bind].
    destruct (Nat.ltb_spec 0 (current c)) as [Hc0|Hc0].
    + erewrite (IH c prev O); [done|done|done|exact Hat'|by rewrite drop_0|lia].
    + destruct Hcp as ([Hcl Hcc] & [->|Hbad] & _); [|lia]. assert (l = []) as ->.
      { unfold chain_entries, entries in He. cbn in He. replace (current c) with O in He by lia. by destruct l. }
      destruct fuel; [lia|]. cbn [iterate]. unfold rememberedSetIteratorHasNext.
      destruct Hat' as (? & ? & _ & _ & _ & _ & _ & ->). done.
Qed.
End Iterate.

Lemma iterate_holds s l fuel : holds s l -> Forall object_ptr l -> (length l < fuel)%nat ->
  exists it, initRememberedSetIterator s = Some it /\ iterate fuel it = Some l.
Proof.
  intros (Hne & Hc & He) Hl Hf. unfold initRememberedSetIterator. destruct (blocks s) as [|b prev] eqn:Hb; [done|].
  set (first := rememberedSetBlockFirst (b :: prev)). assert (length first = 1%nat) as Hfirst by (by apply block_first).
  destruct (set_block first b prev) as (it & Hs & Hat). rewrite Hs. cbn [mbind option_bind].
  pose proof Hat as (? & ? & _ & _ & _ & _ & _ & Hnx). rewrite Hnx. pose proof Hc as (Hbo & Hnz & _).
  destruct (Nat.ltb_spec 0 (current b)) as [Hb0|Hb0]; cbn [andb].
  - exists it. split; [done|]. apply (iterate_spec first Hfirst l Hl b prev 0); [done|done|done|by rewrite drop_0|done].
  - destruct Hnz as [->|]; [|lia]. rewrite (is_first first Hfirst). cbn [negb]. exists it. split; [done|].
    assert (l = []) as ->.
    { unfold chain_entries, entries in He. cbn in He. replace (current b) with O in He by lia. by destruct l. }
    destruct fuel; [simpl in Hf; lia|]. cbn [iterate]. unfold rememberedSetIteratorHasNext. by rewrite Hnx.
Qed.

(** ** Properties *)

(** A run of the write barrier: one object after another. *)
Fixpoint add_all (s : RememberedSet) (tags : gmap Z Z) (os : list Z) : option (RememberedSet * gmap Z Z) :=
  match os with
  | [] => Some (s, tags)
  | o :: os => '(s, tags) ← rememberedSetAdd s tags o; add_all s tags os
  end.

(** The object is known and not remembered yet. *)
Definition unmarked (tags : gmap Z Z) (o : Z) : Prop := exists t, tags !! o = Some t /\ Z.land t TAG_REMEMBERED = 0.

Definition marked (tags : gmap Z Z) (o : Z) : Prop := exists t, tags !! o = Some t /\ Z.land t TAG_REMEMBERED = TAG_REMEMBERED.

Lemma add_all_holds os : forall s l tags,
  holds s l -> dense (blocks s) -> NoDup os -> Forall (unmarked tags) os ->
  exists s' tags' l', add_all s tags os = Some (s', tags') /\ holds s' l' /\ dense (blocks s') /\ Permutation l' (os ++ l) /\
    Forall (marked tags') os /\ (forall o, o ∉ os -> tags' !! o = tags !! o).
Proof.
  induction os as [|o os IH]; intros s l tags Hh Hd Hn Hu; cbn [add_all].
  { exists s, tags, l. split_and!; try done; constructor. }
  inversion_clear Hn as [|? ? Hni Hn']. inversion_clear Hu as [|? ? (t & Ht & Hz) Hu'].
  destruct (add_holds s l tags o t Hh Ht Hz) as (s1 & l1 & Ha & Hh1 & Hd1 & la & lb & -> & ->). rewrite Ha. cbn [mbind option_bind].
  destruct (IH s1 _ (<[o := Z.lor t TAG_REMEMBERED]> tags) Hh1 (Hd1 Hd) Hn') as (s2 & tags2 & l2 & Ha2 & Hh2 & Hd2 & Hp & Hm & Hs).
  { apply Forall_forall. intros y Hy. pose proof (proj1 (Forall_forall _ _) Hu' y Hy) as (tx & Htx & Hzx).
    exists tx. split; [|done]. rewrite lookup_insert_ne; [done|]. intros ->. done. }
  exists s2, tags2, l2. split; [done|]. split; [done|]. split; [done|]. split; [|split].
  - rewrite Hp. cbn [app]. rewrite <- !Permutation_middle, app_assoc. done.
  - constructor; [|done]. exists (Z.lor t TAG_REMEMBERED). rewrite Hs by done. rewrite lookup_insert_eq. split; [done|].
    rewrite Z.land_lor_distr_l, Hz. done.
  - intros y Hy. apply not_elem_of_cons in Hy as [Hyo Hy]. rewrite Hs by done. by rewrite lookup_insert_ne.
Qed.

(** From the empty set, remembering any number of distinct unmarked
    objects never stores outside a block, marks exactly those objects, counts
    them, and an iteration then visits each of them exactly once, across
    however many blocks the set has grown to. *)
Theorem remember_then_iterate tags os :
  NoDup os -> Forall object_ptr os -> Forall (unmarked tags) os ->
  exists s' tags' it l, add_all initRememberedSet tags os = Some (s', tags') /\
    initRememberedSetIterator s' = Some it /\ iterate (S (length os)) it = Some l /\ Permutation l os /\
    rememberedSetCount s' = length os /\ Forall (marked tags') os /\ (forall o, o ∉ os -> tags' !! o = tags !! o).
Proof.
  intros Hn Ho Hu. assert (dense (blocks initRememberedSet)) as Hd by (left; by eexists).
  destruct (add_all_holds os initRememberedSet [] tags init_holds Hd Hn Hu) as (s' & tags' & l & Ha & Hh & _ & Hp & Hm & Hs).
  rewrite app_nil_r in Hp. assert (Forall object_ptr l) as Hl by (by rewrite Hp).
  destruct (iterate_holds s' l (S (length os)) Hh Hl) as (it & Hi & Hit); [rewrite Hp; lia|].
  exists s', tags', it, l. split_and!; try done. rewrite (count_holds s' l Hh). by rewrite Hp.
Qed.

Lemma remember_then_iterate_witness :
  exists s' tags' it l, add_all initRememberedSet {[16 := 0; 32 := 2]} [16; 32] = Some (s', tags') /\
    initRememberedSetIterator s' = Some it /\ iterate 3 it = Some l /\ Permutation l [16; 32].
Proof.
  destruct (remember_then_iterate {[16 := 0; 32 := 2]} [16; 32]) as (s' & tags' & it & l & H1 & H2 & H3 & H4 & _).
  - apply (bool_decide_unpack _). reflexivity.
  - repeat constructor; unfold object_ptr; done.
  - constructor; [exists 0|constructor; [exists 2|constructor]]; split; reflexivity.
  - exists s', tags', it, l. split; [exact H1|]. split; [exact H2|]. split; [exact H3|exact H4].
Defined.

(** When a worker thread ends, splicing its chain in front of the heap's
    loses nothing: an iteration over the heap's set then visits the thread's
    objects followed by the heap's, even when the heap's newest block, now in
    the middle of the chain, is partly filled, or its only block is empty; the
    count is the sum. *)
Theorem splice_then_iterate heapSet l front m :
  holds heapSet l -> holds {| blocks := front |} m -> dense front -> Forall object_ptr (m ++ l) ->
  let s := spliceRememberedSet heapSet front in
  exists it, initRememberedSetIterator s = Some it /\ iterate (S (length (m ++ l))) it = Some (m ++ l) /\
    rememberedSetCount s = (length m + length l)%nat.
Proof.
  intros Hh Hf Hd Ho s. pose proof (splice_holds heapSet l front m Hh Hf Hd) as Hs.
  destruct (iterate_holds s (m ++ l) (S (length (m ++ l))) Hs Ho ltac:(lia)) as (it & Hi & Hit).
  exists it. split; [done|]. split; [done|]. rewrite <- length_app. by apply count_holds.
Qed.

Lemma splice_then_iterate_witness :
  exists it, initRememberedSetIterator (spliceRememberedSet initRememberedSet
      [{| current := 1; objects := tagPtr 48 :: replicate 1023 0%Z |}]) = Some it /\ iterate 2 it = Some [48].
Proof.
  destruct (splice_then_iterate initRememberedSet [] [{| current := 1; objects := tagPtr 48 :: replicate 1023 0%Z |}] [48]) as (it & H1 & H2 & _).
  - split; [discriminate|]. split; [|reflexivity]. split; [split; [reflexivity|cbn [current]; lia]|]. split; [left; reflexivity|exact I].
  - split; [discriminate|]. split; [|reflexivity].
    split; [split; [reflexivity|cbn [current]; unfold REMEMBERED_SET_BLOCK_SIZE; lia]|]. split; [left; reflexivity|exact I].
  - left. eexists. reflexivity.
  - repeat constructor; unfold object_ptr; done.
  - exists it. split; [exact H1|exact H2].
Defined.
