(* ===== verification/FreeList.v ===== *)
(** * The old-space free list

    [src/vm/memory/FreeList.c]: segregated bins of free chunks with a bitmap
    of the nonempty ones.  Bin [i < 128] holds chunks of exactly [16 * i]
    bytes, bin 128 everything larger.  The header a free chunk starts with
    ([FreeSpace]) lives in a map from addresses; a pointer is its address and
    [NULL] is 0.  The debugging self-check ([gFreeListDebug], off by default)
    is not modelled: it only aborts.

    The main results: the bitmap agrees with the bins, allocation returns a
    chunk of the size asked for carved out of a free one and gives the rest
    back, fails only when no free chunk is large enough, writes headers only
    inside free memory, and never loses or duplicates a byte. *)
From S2P Require Import Prelude Tagging.
From stdpp Require Import gmap.
#[local] Open Scope Z_scope.

Definition FREE_LIST_SIZE : nat := 128.
Definition FREE_MAP_SIZE : nat := (FREE_LIST_SIZE / 8 + 1)%nat.

(** ** The code *)

Record FreeSpace := { fs_next : Z; fs_size : Z; fs_tags : Z }.

Record FreeList := { freeSpaces : list Z; freeMap : list Z }.

(** The memory of chunk headers. *)
#[local] Abbreviation Mem := (gmap Z FreeSpace).

Definition indexForSize (size : Z) : nat :=
  let index := Z.to_nat (size / HEAP_OBJECT_ALIGN) in
  if (FREE_LIST_SIZE <? index)%nat then FREE_LIST_SIZE else index.

(** [size:56] is a bit-field. *)
Definition createFreeSpace (mem : Mem) (p size : Z) : option Mem :=
  _ ← ASSERT (p mod HEAP_OBJECT_ALIGN =? 0);
  _ ← ASSERT (size mod HEAP_OBJECT_ALIGN =? 0);
  _ ← ASSERT (HEAP_OBJECT_ALIGN <=? size);
  Some (<[p := {| fs_next := 0; fs_size := size mod 2 ^ 56; fs_tags := TAG_FREESPACE |}]> mem).

(** [freeMap[index / 8] |= 1 << (index % 8)] *)
Definition set_map_bit (fm : list Z) (index : nat) : option (list Z) :=
  b ← fm !! (index / 8)%nat;
  put fm (index / 8) (u8 (Z.lor b (Z.shiftl 1 (Z.of_nat (index mod 8))))).

(** [freeMap[index / 8] &= ~(1 << (index % 8))] *)
Definition clear_map_bit (fm : list Z) (index : nat) : option (list Z) :=
  b ← fm !! (index / 8)%nat;
  put fm (index / 8) (u8 (Z.land b (Z.lnot (Z.shiftl 1 (Z.of_nat (index mod 8)))))).

Definition freeListAddFreeSpace (mem : Mem) (fl : FreeList) (freeSpace : Z) : option (Mem * FreeList) :=
  fs ← mem !! freeSpace;
  let index := indexForSize (fs_size fs) in
  h ← freeSpaces fl !! index;
  let mem := <[freeSpace := {| fs_next := h; fs_size := fs_size fs; fs_tags := fs_tags fs |}]> mem in
  spaces ← put (freeSpaces fl) index freeSpace;
  fm ← set_map_bit (freeMap fl) index;
  Some (mem, {| freeSpaces := spaces; freeMap := fm |}).

Definition popFreeSpace (mem : Mem) (fl : FreeList) (index : nat) : option (FreeList * Z) :=
  result ← freeSpaces fl !! index;
  fs ← mem !! result;
  let next := fs_next fs in
  fm ← (if next =? 0 then clear_map_bit (freeMap fl) index else Some (freeMap fl));
  spaces ← put (freeSpaces fl) index next;
  Some ({| freeSpaces := spaces; freeMap := fm |}, result).

Definition splitFreeSpace (mem : Mem) (fl : FreeList) (freeSpace size : Z) : option (Mem * FreeList * Z) :=
  fs ← mem !! freeSpace;
  _ ← ASSERT (size <=? fs_size fs);
  let newSize := fs_size fs - size in
  if newSize =? 0 then Some (mem, fl, freeSpace)
  else
    mem ← createFreeSpace mem (freeSpace + size) newSize;
    '(mem, fl) ← freeListAddFreeSpace mem fl (freeSpace + size);
    Some (mem, fl, freeSpace).

Definition popAndSplitFreeSpace (mem : Mem) (fl : FreeList) (index : nat) (size : Z) : option (Mem * FreeList * Z) :=
  '(fl, freeSpace) ← popFreeSpace mem fl index;
  splitFreeSpace mem fl freeSpace size.

(** [__builtin_ctz] of a nonzero value. *)
Fixpoint ctz_pos (p : positive) : nat :=
  match p with
  | xO p => S (ctz_pos p)
  | _ => O
  end.

Definition ctz (v : Z) : nat := match v with Zpos p => ctz_pos p | _ => O end.

(** [for (element++; element < FREE_MAP_SIZE; element++)]; [None] inside is -1. *)
Fixpoint map_scan (fm : list Z) (n element : nat) : option (option nat) :=
  match n with
  | O => Some None
  | S n =>
      v ← fm !! element;
      if negb (v =? 0) then
        let nextIndex := (element * 8 + ctz v)%nat in
        Some (if (FREE_LIST_SIZE <=? nextIndex)%nat then None else Some nextIndex)
      else map_scan fm n (S element)
  end.

Definition freeMapNext (fm : list Z) (index : nat) : option (option nat) :=
  _ ← ASSERT (index <? FREE_LIST_SIZE)%nat;
  let element := (index / 8)%nat in
  b ← fm !! element;
  let v := Z.land b (u8 (Z.lnot (Z.shiftl 1 (Z.of_nat (index mod 8)) - 1))) in
  if negb (v =? 0) then
    let nextIndex := (element * 8 + ctz v)%nat in
    _ ← ASSERT (nextIndex <? FREE_LIST_SIZE)%nat;
    Some (Some nextIndex)
  else map_scan fm (FREE_MAP_SIZE - S element) (S element).

(** The first fit in the oversized bin: the chunk found is unlinked from its
    predecessor and split.  [Some None] is the answer [NULL]. *)
Fixpoint scan_oversized (fuel : nat) (mem : Mem) (fl : FreeList) (prev freeSpace size : Z)
    : option (option (Mem * FreeList * Z)) :=
  match fuel with
  | O => None
  | S fuel =>
      if freeSpace =? 0 then Some None
      else
        fs ← mem !! freeSpace;
        if size <=? fs_size fs then
          '(mem, fl) ←
            (if prev =? 0 then
               spaces ← put (freeSpaces fl) FREE_LIST_SIZE (fs_next fs);
               Some (mem, {| freeSpaces := spaces; freeMap := freeMap fl |})
             else
               pfs ← mem !! prev;
               Some (<[prev := {| fs_next := fs_next fs; fs_size := fs_size pfs; fs_tags := fs_tags pfs |}]> mem, fl));
          h ← freeSpaces fl !! FREE_LIST_SIZE;
          fm ← (if h =? 0 then clear_map_bit (freeMap fl) FREE_LIST_SIZE else Some (freeMap fl));
          r ← splitFreeSpace mem {| freeSpaces := freeSpaces fl; freeMap := fm |} freeSpace size;
          Some (Some r)
        else scan_oversized fuel mem fl freeSpace (fs_next fs) size
  end.

Definition try_oversized (mem : Mem) (fl : FreeList) (size : Z) : option (Mem * FreeList * Z) :=
  h ← freeSpaces fl !! FREE_LIST_SIZE;
  r ← scan_oversized (S (base.size mem)) mem fl 0 h size;
  Some (match r with Some r => r | None => (mem, fl, 0) end).

Definition freeListTryAllocate (mem : Mem) (fl : FreeList) (size : Z) : option (Mem * FreeList * Z) :=
  let index := indexForSize size in
  b ← freeMap fl !! (index / 8)%nat;
  if negb (index =? FREE_LIST_SIZE)%nat && negb (Z.land b (Z.shiftl 1 (Z.of_nat (index mod 8))) =? 0) then
    '(fl, p) ← popFreeSpace mem fl index;
    Some (mem, fl, p)
  else
    if (index + 1 <? FREE_LIST_SIZE)%nat then
      nextIndex ← freeMapNext (freeMap fl) (index + 1);
      match nextIndex with
      | Some nextIndex =>
          _ ← ASSERT (index <? nextIndex)%nat;
          popAndSplitFreeSpace mem fl nextIndex size
      | None => try_oversized mem fl size
      end
    else try_oversized mem fl size.

(** ** The bitmap *)

Definition map_bit (fm : list Z) (i : nat) : bool :=
  match fm !! (i / 8)%nat with Some b => Z.testbit b (Z.of_nat (i mod 8)) | None => false end.

Definition map_ok (fm : list Z) : Prop := length fm = FREE_MAP_SIZE /\ Forall (fun b => 0 <= b < 2 ^ 8) fm.

Lemma map_lookup fm i : map_ok fm -> (i <= FREE_LIST_SIZE)%nat -> exists b, fm !! (i / 8)%nat = Some b /\ 0 <= b < 2 ^ 8.
Proof.
  intros [Hl Hf] Hi. destruct (lookup_Some_lt fm (i / 8)) as [b Hb].
  { rewrite Hl. unfold FREE_MAP_SIZE, FREE_LIST_SIZE in *. change (128 / 8 + 1)%nat with 17%nat.
    apply Nat.Div0.div_lt_upper_bound. lia. }
  exists b. split; [done|]. exact (Forall_lookup_1 _ _ _ _ Hf Hb).
Qed.

Lemma mod8 i : (i mod 8 < 8)%nat.
Proof. apply Nat.mod_upper_bound. lia. Qed.

Lemma same_bit i j : (i / 8 = j / 8)%nat -> (i mod 8 = j mod 8)%nat -> i = j.
Proof. intros E1 E2. rewrite (Nat.div_mod i 8), (Nat.div_mod j 8) by lia. congruence. Qed.

Lemma byte_testbit_high b k : 0 <= b < 2 ^ 8 -> 8 <= k -> Z.testbit b k = false.
Proof.
  intros Hb Hk. destruct (Z.eq_dec b 0) as [->|]; [apply Z.bits_0|]. apply Z.bits_above_log2; [lia|].
  apply Z.log2_lt_pow2; [lia|]. pose proof (Z.pow_le_mono_r 2 8 k). lia.
Qed.

Lemma byte_land b x : 0 <= b < 2 ^ 8 -> 0 <= Z.land b x < 2 ^ 8.
Proof.
  intros Hb. assert (Z.land b x = Z.land (Z.land b x) (Z.ones 8)) as ->.
  { rewrite <- Z.land_assoc, (Z.land_comm x), Z.land_assoc. f_equal. rewrite Z.land_ones, Z.mod_small by lia. done. }
  rewrite Z.land_ones by lia. apply Z.mod_pos_bound. lia.
Qed.

Lemma byte_set_bit b k : 0 <= b < 2 ^ 8 -> 0 <= k < 8 -> 0 <= Z.lor b (Z.shiftl 1 k) < 2 ^ 8.
Proof.
  intros Hb Hk. assert (0 <= Z.lor b (Z.shiftl 1 k)) as Hn by (apply Z.lor_nonneg; split; [lia|apply Z.shiftl_nonneg; lia]).
  split; [done|]. destruct (Z.eq_dec (Z.lor b (Z.shiftl 1 k)) 0) as [->|]; [lia|].
  apply Z.log2_lt_pow2; [lia|]. rewrite Z.log2_lor by (lia || apply Z.shiftl_nonneg; lia).
  rewrite Z.log2_shiftl by lia. change (Z.log2 1) with 0.
  assert (Z.log2 b < 8); [|lia]. destruct (Z.eq_dec b 0) as [->|]; [simpl; lia|]. apply Z.log2_lt_pow2; lia.
Qed.

Lemma update_bit fm i v b :
  map_ok fm -> fm !! (i / 8)%nat = Some b -> 0 <= v < 2 ^ 8 ->
  (forall k, 0 <= k < 8 -> k <> Z.of_nat (i mod 8) -> Z.testbit v k = Z.testbit b k) ->
  exists fm', put fm (i / 8) (u8 v) = Some fm' /\ map_ok fm' /\ map_bit fm' i = Z.testbit v (Z.of_nat (i mod 8)) /\
    forall j, j <> i -> map_bit fm' j = map_bit fm j.
Proof.
  intros [Hl Hf] Hb Hv Hk. pose proof (lookup_lt_Some _ _ _ Hb) as Hlt. rewrite (u8_id v Hv).
  exists (<[(i / 8)%nat := v]> fm). split; [by apply put_Some|]. split; [|split].
  - split; [by rewrite length_insert|]. by apply (Forall_insert _ fm).
  - unfold map_bit. by rewrite list_lookup_insert_eq by done.
  - intros j Hne. unfold map_bit. destruct (decide (i / 8 = j / 8)%nat) as [E|E].
    + rewrite <- E, list_lookup_insert_eq, Hb by done. apply Hk; [pose proof (mod8 j); lia|].
      intros E2. apply Hne, same_bit; [done|lia].
    + by rewrite list_lookup_insert_ne.
Qed.

Lemma set_map_bit_spec fm i : map_ok fm -> (i <= FREE_LIST_SIZE)%nat ->
  exists fm', set_map_bit fm i = Some fm' /\ map_ok fm' /\ map_bit fm' i = true /\ forall j, j <> i -> map_bit fm' j = map_bit fm j.
Proof.
  intros Hm Hi. destruct (map_lookup fm i Hm Hi) as (b & Hb & Hbb). unfold set_map_bit. step Hb. pose proof (mod8 i).
  destruct (update_bit fm i (Z.lor b (Z.shiftl 1 (Z.of_nat (i mod 8)))) b Hm Hb) as (fm' & Hp & Hm' & Hbi & Hj).
  - apply byte_set_bit; lia.
  - intros k Hk Hne. rewrite Z.lor_spec, Z.shiftl_1_l, Z.pow2_bits_eqb by lia.
    destruct (Z.eqb_spec (Z.of_nat (i mod 8)) k); [lia|]. by rewrite orb_false_r.
  - exists fm'. split_and!; try done. rewrite Hbi, Z.lor_spec, Z.shiftl_1_l, Z.pow2_bits_true by lia. apply orb_true_r.
Qed.

Lemma clear_map_bit_spec fm i : map_ok fm -> (i <= FREE_LIST_SIZE)%nat ->
  exists fm', clear_map_bit fm i = Some fm' /\ map_ok fm' /\ map_bit fm' i = false /\ forall j, j <> i -> map_bit fm' j = map_bit fm j.
Proof.
  intros Hm Hi. destruct (map_lookup fm i Hm Hi) as (b & Hb & Hbb). unfold clear_map_bit. step Hb. pose proof (mod8 i).
  destruct (update_bit fm i (Z.land b (Z.lnot (Z.shiftl 1 (Z.of_nat (i mod 8))))) b Hm Hb) as (fm' & Hp & Hm' & Hbi & Hj).
  - by apply byte_land.
  - intros k Hk Hne. rewrite Z.land_spec, Z.lnot_spec, Z.shiftl_1_l, Z.pow2_bits_eqb by lia.
    destruct (Z.eqb_spec (Z.of_nat (i mod 8)) k); [lia|]. by rewrite andb_true_r.
  - exists fm'. split_and!; try done. rewrite Hbi, Z.land_spec, Z.lnot_spec, Z.shiftl_1_l, Z.pow2_bits_true by lia. apply andb_false_r.
Qed.

(** The mask test of [freeListTryAllocate]. *)
Lemma test_map_bit fm i b : fm !! (i / 8)%nat = Some b ->
  negb (Z.land b (Z.shiftl 1 (Z.of_nat (i mod 8))) =? 0) = map_bit fm i.
Proof.
  intros Hb. unfold map_bit. rewrite Hb, Z.shiftl_1_l, land_pow2 by lia. destruct (Z.testbit b (Z.of_nat (i mod 8))); [|done].
  pose proof (Z.pow_pos_nonneg 2 (Z.of_nat (i mod 8)) ltac:(lia) ltac:(lia)). destruct (Z.eqb_spec (2 ^ Z.of_nat (i mod 8)) 0); [lia|done].
Qed.

(** ** Finding the next bin *)

Lemma ctz_spec v : 0 < v -> Z.testbit v (Z.of_nat (ctz v)) = true /\ forall k, 0 <= k < Z.of_nat (ctz v) -> Z.testbit v k = false.
Proof.
  intros Hv. destruct v as [|p|p]; try lia. clear Hv. cbn [ctz]. induction p as [p IH|p IH|]; cbn [ctz_pos]; [split; [done|lia]| |split; [done|lia]].
  destruct IH as [H1 H2]. change (Zpos (xO p)) with (2 * Zpos p). split.
  - rewrite Nat2Z.inj_succ, Z.double_bits_succ. done.
  - intros k Hk. destruct (Z.eq_dec k 0) as [->|]; [apply Z.testbit_even_0|]. replace k with (Z.succ (k - 1)) by lia.
    rewrite Z.double_bits_succ. apply H2. lia.
Qed.

Lemma ctz_byte v : 0 < v < 2 ^ 8 -> (ctz v < 8)%nat.
Proof.
  intros Hv. destruct (ctz_spec v ltac:(lia)) as [H1 _]. destruct (Nat.lt_ge_cases (ctz v) 8) as [|Hge]; [done|].
  rewrite byte_testbit_high in H1; [done|lia|lia].
Qed.

Lemma bit_at fm e v k : fm !! e = Some v -> (k < 8)%nat -> map_bit fm (e * 8 + k) = Z.testbit v (Z.of_nat k).
Proof.
  intros Hv Hk. unfold map_bit. rewrite Nat.add_comm, Nat.div_add, Nat.div_small by lia.
  rewrite Nat.Div0.mod_add, Nat.mod_small by lia. by rewrite Nat.add_0_l, Hv.
Qed.

(** The answer of a search from bin [i]. *)
Definition next_bin (fm : list Z) (i : nat) (r : option nat) : Prop :=
  match r with
  | Some j => (i <= j < FREE_LIST_SIZE)%nat /\ map_bit fm j = true /\ (forall k, (i <= k < j)%nat -> map_bit fm k = false)
  | None => forall k, (i <= k < FREE_LIST_SIZE)%nat -> map_bit fm k = false
  end.

(** Bits of a byte of the map, by position. *)
Lemma split_index k e : (e * 8 <= k < e * 8 + 8)%nat -> exists j, (j < 8)%nat /\ k = (e * 8 + j)%nat.
Proof. intros Hk. exists (k - e * 8)%nat. lia. Qed.

Lemma map_scan_spec fm n e : map_ok fm -> (e + n = FREE_MAP_SIZE)%nat ->
  exists r, map_scan fm n e = Some r /\ next_bin fm (e * 8) r.
Proof.
  intros Hm. revert e. induction n as [|n IH]; intros e He; cbn [map_scan].
  { exists None. split; [done|]. intros k Hk. unfold FREE_MAP_SIZE, FREE_LIST_SIZE in *. change (128 / 8 + 1)%nat with 17%nat in He. lia. }
  destruct Hm as [Hl Hf]. destruct (lookup_Some_lt fm e) as [v Hv]; [lia|]. step Hv. pose proof (Forall_lookup_1 _ _ _ _ Hf Hv) as Hvb. cbn beta in Hvb.
  destruct (Z.eqb_spec v 0) as [->|Hne]; cbn [negb].
  - destruct (IH (S e) ltac:(lia)) as (r & Hr & Hn). exists r. split; [done|].
    assert (forall k, (e * 8 <= k < S e * 8)%nat -> map_bit fm k = false) as Hz.
    { intros k Hk. destruct (split_index k e ltac:(lia)) as (j & Hj & ->). by rewrite (bit_at fm e 0 j Hv Hj), Z.bits_0. }
    destruct r as [j|]; cbn [next_bin] in *.
    + destruct Hn as (Hj & Hb & Hk). split; [lia|]. split; [done|]. intros k Hk'.
      destruct (Nat.lt_ge_cases k (S e * 8)); [apply Hz; lia|apply Hk; lia].
    + intros k Hk. destruct (Nat.lt_ge_cases k (S e * 8)); [apply Hz; lia|apply Hn; lia].
  - pose proof (ctz_byte v ltac:(lia)) as Hc8. destruct (ctz_spec v ltac:(lia)) as [H1 H2].
    assert (forall k, (e * 8 <= k < e * 8 + ctz v)%nat -> map_bit fm k = false) as Hlow.
    { intros k Hk. destruct (split_index k e ltac:(lia)) as (j & Hj & ->). rewrite (bit_at fm e v j Hv Hj). apply H2. lia. }
    destruct (Nat.leb_spec FREE_LIST_SIZE (e * 8 + ctz v)); eexists; (split; [done|]); cbn [next_bin].
    + intros k Hk. apply Hlow. lia.
    + split; [lia|]. split; [by rewrite (bit_at fm e v _ Hv Hc8)|done].
Qed.

Lemma freeMapNext_spec fm i : map_ok fm -> (i < FREE_LIST_SIZE)%nat ->
  exists r, freeMapNext fm i = Some r /\ next_bin fm i r.
Proof.
  intros Hm Hi. unfold freeMapNext. destruct (Nat.ltb_spec i FREE_LIST_SIZE) as [_|]; [|lia]. cbn [ASSERT mbind option_bind].
  destruct (map_lookup fm i Hm ltac:(lia)) as (b & Hb & Hbb). step Hb. set (e := (i / 8)%nat) in *.
  pose proof (Nat.div_mod i 8 ltac:(lia)) as Hdm. pose proof (mod8 i) as Hm8. fold e in Hdm. set (s := (i mod 8)%nat) in *.
  set (v := Z.land b _). assert (forall k, 0 <= k < 8 -> Z.testbit v k = (Z.of_nat s <=? k) && Z.testbit b k) as Hvb.
  { intros k Hk. unfold v. rewrite Z.land_spec, andb_comm. f_equal. unfold u8. rewrite Z.mod_pow2_bits_low by lia.
    rewrite Z.lnot_spec by lia. rewrite Z.shiftl_1_l. replace (2 ^ Z.of_nat s - 1) with (Z.ones (Z.of_nat s)) by (rewrite Z.ones_equiv; lia).
    rewrite Z.testbit_ones_nonneg by lia. destruct (Z.ltb_spec k (Z.of_nat s)), (Z.leb_spec (Z.of_nat s) k); done || lia. }
  pose proof (byte_land b (u8 (Z.lnot (Z.shiftl 1 (Z.of_nat s) - 1))) Hbb) as Hvr. fold v in Hvr.
  assert (forall k, (e * 8 <= k < e * 8 + 8)%nat -> (i <= k)%nat -> map_bit fm k = Z.testbit v (Z.of_nat (k - e * 8))) as Hbits.
  { intros k Hk Hik. destruct (split_index k e Hk) as (j & Hj & ->). rewrite (bit_at fm e b j Hb Hj).
    replace (e * 8 + j - e * 8)%nat with j by lia. rewrite Hvb by lia. destruct (Z.leb_spec (Z.of_nat s) (Z.of_nat j)); [done|lia]. }
  destruct (Z.eqb_spec v 0) as [Ez|Hne]; cbn [negb].
  - assert (e < FREE_MAP_SIZE)%nat by (destruct Hm as [<- _]; by apply lookup_lt_Some in Hb).
    destruct (map_scan_spec fm (FREE_MAP_SIZE - S e) (S e) Hm ltac:(lia)) as (r & Hr & Hn). exists r. split; [done|].
    assert (forall k, (i <= k < S e * 8)%nat -> map_bit fm k = false) as Hz.
    { intros k Hk. rewrite Hbits by lia. by rewrite Ez, Z.bits_0. }
    destruct r as [j|]; cbn [next_bin] in *.
    + destruct Hn as (Hj & Hbj & Hk). split; [lia|]. split; [done|]. intros k Hk'.
      destruct (Nat.lt_ge_cases k (S e * 8)); [apply Hz; lia|apply Hk; lia].
    + intros k Hk. destruct (Nat.lt_ge_cases k (S e * 8)); [apply Hz; lia|apply Hn; lia].
  - pose proof (ctz_byte v ltac:(lia)) as Hc8. destruct (ctz_spec v ltac:(lia)) as [H1 H2].
    assert (s <= ctz v)%nat as Hsc.
    { rewrite Hvb in H1 by lia. apply andb_true_iff in H1 as [H1%Z.leb_le _]. lia. }
    assert (e * 8 + ctz v < FREE_LIST_SIZE)%nat as Hlt.
    { assert (e < 16)%nat; [|unfold FREE_LIST_SIZE; lia]. apply Nat.Div0.div_lt_upper_bound. unfold FREE_LIST_SIZE in Hi. lia. }
    destruct (Nat.ltb_spec (e * 8 + ctz v) FREE_LIST_SIZE); [|lia]. cbn [ASSERT mbind option_bind].
    eexists; split; [done|]. cbn [next_bin]. split; [lia|]. split.
    + rewrite Hbits by lia. replace (e * 8 + ctz v - e * 8)%nat with (ctz v) by lia. done.
    + intros k Hk. rewrite Hbits by lia. apply H2. lia.
Qed.

(** ** Chunks *)

(** A free chunk: its address and its size. *)
#[local] Abbreviation chunk := (Z * Z)%type.

Definition disj (x y : chunk) : Prop := x.1 + x.2 <= y.1 \/ y.1 + y.2 <= x.1.

(** Pairwise disjoint. *)
Fixpoint apart (l : list chunk) : Prop :=
  match l with
  | [] => True
  | x :: t => Forall (disj x) t /\ apart t
  end.

Definition chunk_ok (i : nat) (x : chunk) : Prop :=
  0 < x.1 /\ x.1 mod HEAP_OBJECT_ALIGN = 0 /\ x.2 mod HEAP_OBJECT_ALIGN = 0 /\ 16 <= x.2 < 2 ^ 56 /\ indexForSize x.2 = i.

Lemma disj_sym x y : disj x y -> disj y x.
Proof. unfold disj. tauto. Qed.

#[export] Instance apart_proper : Proper ((≡ₚ) ==> iff) apart.
Proof.
  intros l k Hp. induction Hp as [|x l k Hp IH|x y l|l k m _ IH1 _ IH2]; cbn [apart].
  - done.
  - rewrite IH; by rewrite Hp.
  - rewrite !Forall_cons. split; intros ((Hxy & Hx) & Hy & Ha); (split; [split; [by apply disj_sym|done]|split; done]).
  - by rewrite IH1.
Qed.

Lemma apart_app l k : apart (l ++ k) -> apart k.
Proof. induction l as [|x l IH]; [done|]. intros [_ H]. by apply IH. Qed.

(** The chain of headers from [p]. *)
Fixpoint chain (mem : Mem) (p : Z) (l : list chunk) : Prop :=
  match l with
  | [] => p = 0
  | (a, s) :: t => p = a /\ exists next, mem !! a = Some {| fs_next := next; fs_size := s; fs_tags := TAG_FREESPACE |} /\ chain mem next t
  end.

Lemma chain_insert mem p l a x : chain mem p l -> a ∉ l.*1 -> chain (<[a := x]> mem) p l.
Proof.
  revert p. induction l as [|[b s] l IH]; intros p Hc Hn; [done|]. destruct Hc as (-> & next & Hb & Hc).
  cbn [fmap list_fmap fst] in Hn. apply not_elem_of_cons in Hn as [Hne Hn]. split; [done|]. exists next. split; [by rewrite lookup_insert_ne|by apply IH].
Qed.

(** Taking the chunk after [(pa, ps)] out of a chain. *)
Lemma chain_unlink mem l1 : forall p pa ps a s l2 next,
  chain mem p (l1 ++ (pa, ps) :: (a, s) :: l2) -> NoDup (l1 ++ (pa, ps) :: l2).*1 ->
  mem !! a = Some {| fs_next := next; fs_size := s; fs_tags := TAG_FREESPACE |} ->
  chain (<[pa := {| fs_next := next; fs_size := ps; fs_tags := TAG_FREESPACE |}]> mem) p (l1 ++ (pa, ps) :: l2).
Proof.
  induction l1 as [|[b t] l1 IH]; intros p pa ps a s l2 next Hc Hnd Ha; cbn [app chain] in *.
  - destruct Hc as (-> & n1 & _ & -> & n2 & Ha' & Hc). rewrite Ha in Ha'. injection Ha' as <-. split; [done|].
    exists next. rewrite lookup_insert_eq. split; [done|]. apply chain_insert; [done|].
    cbn [fmap list_fmap fst] in Hnd. by inversion_clear Hnd.
  - destruct Hc as (-> & n & Hb & Hc). split; [done|]. cbn [fmap list_fmap fst] in Hnd. inversion_clear Hnd as [|? ? Hni Hnd'].
    exists n. split; [|by apply (IH n pa ps a s l2 next)]. rewrite lookup_insert_ne; [done|]. intros ->. apply Hni.
    rewrite fmap_app. apply elem_of_app. right. left.
Qed.

(** What is in bin [i], and the rest. *)
Lemma bins_split {A} (bins : list (list A)) i l : bins !! i = Some l ->
  exists rest, concat bins ≡ₚ l ++ rest /\ forall l', concat (<[i := l']> bins) ≡ₚ l' ++ rest.
Proof.
  intros Hi. exists (concat (take i bins) ++ concat (drop (S i) bins)). split.
  - rewrite <- (take_drop_middle bins i l Hi) at 1. rewrite concat_app. cbn [concat]. by rewrite !app_assoc, (Permutation_app_comm _ l).
  - intros l'. pose proof (lookup_lt_Some _ _ _ Hi). rewrite insert_take_drop by done. rewrite concat_app. cbn [concat].
    by rewrite !app_assoc, (Permutation_app_comm _ l').
Qed.

Record free_inv (mem : Mem) (fl : FreeList) (bins : list (list chunk)) : Prop := {
  inv_spaces : length (freeSpaces fl) = S FREE_LIST_SIZE;
  inv_bins : length bins = S FREE_LIST_SIZE;
  inv_map : map_ok (freeMap fl);
  inv_chain : forall i l, bins !! i = Some l -> exists p, freeSpaces fl !! i = Some p /\ chain mem p l;
  inv_chunk : forall i l, bins !! i = Some l -> Forall (chunk_ok i) l;
  inv_apart : apart (concat bins);
  inv_bit : forall i l, (i < FREE_LIST_SIZE)%nat -> bins !! i = Some l -> map_bit (freeMap fl) i = negb (bool_decide (l = []));
}.

Lemma inv_sizes mem fl bins x : free_inv mem fl bins -> x ∈ concat bins -> exists i, chunk_ok i x.
Proof.
  intros Hi Hx. apply list_elem_of_In, List.in_concat in Hx as (l & Hl & Hxl). apply list_elem_of_In in Hl, Hxl.
  apply list_elem_of_lookup in Hl as [i Hl].
  exists i. pose proof (inv_chunk _ _ _ Hi i l Hl) as HF. rewrite Forall_forall in HF. by apply HF.
Qed.

(** Chunks that do not overlap start at different addresses. *)
Lemma apart_fresh a s l : 0 < s -> (forall x, x ∈ l -> 0 < x.2) -> Forall (disj (a, s)) l -> a ∉ l.*1.
Proof.
  intros Hs Hl HF Hin. apply list_elem_of_fmap in Hin as ([b t] & -> & Hin). rewrite Forall_forall in HF. specialize (HF _ Hin).
  specialize (Hl _ Hin). unfold disj in HF. simpl in *. lia.
Qed.

Lemma apart_nodup l : apart l -> (forall x, x ∈ l -> 0 < x.2) -> NoDup l.*1.
Proof.
  induction l as [|[a s] l IH]; intros Ha Hl; [constructor|]. destruct Ha as [HF Ha]. cbn [fmap list_fmap fst]. constructor.
  - apply (apart_fresh a s); [|intros x Hx; apply Hl; by right|done]. apply (Hl (a, s)). by left.
  - apply IH; [done|]. intros x Hx. apply Hl. by right.
Qed.

Lemma inv_nodup mem fl bins : free_inv mem fl bins -> NoDup (concat bins).*1.
Proof.
  intros Hi. apply apart_nodup; [apply Hi|]. intros x Hx. destruct (inv_sizes _ _ _ x Hi Hx) as (i & _ & _ & _ & Hs & _). lia.
Qed.

(** ** Operations on the bins *)

Lemma indexForSize_bound s : (indexForSize s <= FREE_LIST_SIZE)%nat.
Proof. unfold indexForSize. case_bool; lia. Qed.

Lemma bin_exists mem fl bins i : free_inv mem fl bins -> (i <= FREE_LIST_SIZE)%nat -> exists l, bins !! i = Some l.
Proof. intros Hi Hl. apply lookup_Some_lt. rewrite (inv_bins _ _ _ Hi). lia. Qed.

(** The chains of the other bins. *)
Lemma concat_lookup {A} (bins : list (list A)) i l x : bins !! i = Some l -> x ∈ l -> x ∈ concat bins.
Proof.
  intros Hi Hx. apply list_elem_of_In, List.in_concat. exists l. rewrite <- !list_elem_of_In. split; [|done].
  by apply list_elem_of_lookup_2 in Hi.
Qed.

Lemma chains_insert mem fl bins a x i l :
  (forall i l, bins !! i = Some l -> exists p, freeSpaces fl !! i = Some p /\ chain mem p l) ->
  a ∉ (concat bins).*1 -> bins !! i = Some l -> exists p, freeSpaces fl !! i = Some p /\ chain (<[a := x]> mem) p l.
Proof.
  intros Hc Ha Hi. destruct (Hc i l Hi) as (p & Hp & Hch). exists p. split; [done|]. apply chain_insert; [done|].
  intros Hin. apply Ha. apply list_elem_of_fmap in Hin as (y & -> & Hy). apply list_elem_of_fmap. exists y. split; [done|].
  by apply (concat_lookup bins i l).
Qed.

Lemma lookup_insert_cases {A} (l : list A) i j x y : <[i := x]> l !! j = Some y -> (i < length l)%nat ->
  (j = i /\ y = x) \/ (j <> i /\ l !! j = Some y).
Proof.
  intros H Hi. destruct (decide (j = i)) as [->|Hne].
  - rewrite list_lookup_insert_eq in H by done. left. by injection H as ->.
  - rewrite list_lookup_insert_ne in H by done. by right.
Qed.

(** Adding a chunk whose header is in place and which overlaps no other. *)
Lemma add_spec mem fl bins a s next i :
  free_inv mem fl bins -> mem !! a = Some {| fs_next := next; fs_size := s; fs_tags := TAG_FREESPACE |} ->
  chunk_ok i (a, s) -> Forall (disj (a, s)) (concat bins) ->
  exists mem' fl' bins', freeListAddFreeSpace mem fl a = Some (mem', fl') /\ free_inv mem' fl' bins' /\
    concat bins' ≡ₚ (a, s) :: concat bins /\ (forall p, p <> a -> mem' !! p = mem !! p).
Proof.
  intros Hi Ha Hck HF. pose proof Hck as (Hpos & Hal & Hsal & Hs & Hidx). cbn [fst snd] in *.
  unfold freeListAddFreeSpace. rewrite Ha. cbn [mbind option_bind fs_size fs_next fs_tags]. rewrite Hidx.
  assert (i <= FREE_LIST_SIZE)%nat as Hle by (rewrite <- Hidx; apply indexForSize_bound).
  destruct (bin_exists _ _ _ i Hi Hle) as (l & Hl). destruct (inv_chain _ _ _ Hi i l Hl) as (h & Hh & Hch).
  rewrite Hh. cbn [mbind option_bind]. pose proof (inv_spaces _ _ _ Hi) as Hls. pose proof (inv_bins _ _ _ Hi) as Hlb.
  rewrite put_Some by lia. cbn [mbind option_bind].
  destruct (set_map_bit_spec (freeMap fl) i (inv_map _ _ _ Hi) Hle) as (fm & Hfm & Hmo & Hbi & Hbj). rewrite Hfm. cbn [mbind option_bind].
  destruct (bins_split bins i l Hl) as (rest & Hr1 & Hr2). specialize (Hr2 ((a, s) :: l)).
  assert (a ∉ (concat bins).*1) as Hfresh.
  { apply (apart_fresh a s); [lia| |done]. intros x Hx. destruct (inv_sizes _ _ _ x Hi Hx) as (k & _ & _ & _ & Hk & _). lia. }
  eexists _, _, (<[i := (a, s) :: l]> bins). split; [done|]. split; [|split].
  - split; cbn [freeSpaces freeMap].
    + by rewrite length_insert.
    + by rewrite length_insert.
    + done.
    + intros j k Hk. destruct (lookup_insert_cases _ _ _ _ _ Hk ltac:(lia)) as [[-> ->]|[Hne Hk']].
      * exists a. split; [by rewrite list_lookup_insert_eq by lia|]. split; [done|]. exists h. rewrite lookup_insert_eq. split; [done|].
        destruct (chains_insert mem fl bins a {| fs_next := h; fs_size := s; fs_tags := TAG_FREESPACE |} i l (inv_chain _ _ _ Hi) Hfresh Hl)
          as (h' & Hh' & Hc'). congruence.
      * rewrite list_lookup_insert_ne by done. by apply (chains_insert mem fl bins a _ j k (inv_chain _ _ _ Hi)).
    + intros j k Hk. destruct (lookup_insert_cases _ _ _ _ _ Hk ltac:(lia)) as [[-> ->]|[Hne Hk']]; [|by apply (inv_chunk _ _ _ Hi)].
      constructor; [done|]. by apply (inv_chunk _ _ _ Hi).
    + rewrite Hr2. cbn [app apart]. rewrite <- Hr1. split; [done|apply Hi].
    + intros j k Hj Hk. destruct (lookup_insert_cases _ _ _ _ _ Hk ltac:(lia)) as [[-> ->]|[Hne Hk']].
      * by rewrite Hbi.
      * rewrite Hbj by done. by apply (inv_bit _ _ _ Hi).
  - by rewrite Hr2, Hr1.
  - intros p Hp. by rewrite lookup_insert_ne.
Qed.

(** Taking the first chunk of a nonempty bin. *)
Lemma pop_spec mem fl bins i a s l :
  free_inv mem fl bins -> bins !! i = Some ((a, s) :: l) ->
  exists fl' next, popFreeSpace mem fl i = Some (fl', a) /\ free_inv mem fl' (<[i := l]> bins) /\
    concat bins ≡ₚ (a, s) :: concat (<[i := l]> bins) /\
    mem !! a = Some {| fs_next := next; fs_size := s; fs_tags := TAG_FREESPACE |}.
Proof.
  intros Hi Hl. pose proof (lookup_lt_Some _ _ _ Hl) as Hlt. pose proof (inv_bins _ _ _ Hi) as Hlb. pose proof (inv_spaces _ _ _ Hi) as Hls.
  destruct (inv_chain _ _ _ Hi i _ Hl) as (p & Hp & -> & next & Ha & Hch). unfold popFreeSpace. rewrite Hp. cbn [mbind option_bind].
  rewrite Ha. cbn [mbind option_bind fs_next].
  destruct (bins_split bins i _ Hl) as (rest & Hr1 & Hr2). specialize (Hr2 l).
  pose proof (inv_chunk _ _ _ Hi i _ Hl) as HF. apply Forall_cons_1 in HF as [_ HF].
  assert (next = 0 <-> l = []) as Hnil.
  { destruct l as [|[b t] l]; [done|]. destruct Hch as (-> & _). apply Forall_cons_1 in HF as [(Hb & _) _]. simpl in Hb. split; [lia|done]. }
  assert (exists fm, (if next =? 0 then clear_map_bit (freeMap fl) i else Some (freeMap fl)) = Some fm /\ map_ok fm /\
     ((i < FREE_LIST_SIZE)%nat -> map_bit fm i = negb (bool_decide (l = []))) /\ forall j, j <> i -> map_bit fm j = map_bit (freeMap fl) j) as (fm & Hfm & Hmo & Hbi & Hbj).
  { destruct (Z.eqb_spec next 0) as [E|E].
    - destruct (clear_map_bit_spec (freeMap fl) i (inv_map _ _ _ Hi) ltac:(lia)) as (fm & Hfm & Hmo & Hbi & Hbj).
      exists fm. split_and!; try done. intros _. rewrite Hbi, bool_decide_eq_true_2; [done|]. by apply Hnil.
    - exists (freeMap fl). split; [done|]. split; [apply Hi|]. split; [|done]. intros Hlt'.
      rewrite (inv_bit _ _ _ Hi i _ Hlt' Hl). rewrite !bool_decide_eq_false_2; [done| |done]. intros E'. by apply E, Hnil. }
  rewrite Hfm. cbn [mbind option_bind]. rewrite put_Some by lia. eexists _, next. split; [done|]. split; [|split; [|done]].
  - split; cbn [freeSpaces freeMap].
    + by rewrite length_insert.
    + by rewrite length_insert.
    + done.
    + intros j k Hk. destruct (lookup_insert_cases _ _ _ _ _ Hk Hlt) as [[-> ->]|[Hne Hk']].
      * exists next. split; [by rewrite list_lookup_insert_eq by lia|done].
      * rewrite list_lookup_insert_ne by done. by apply (inv_chain _ _ _ Hi).
    + intros j k Hk. destruct (lookup_insert_cases _ _ _ _ _ Hk Hlt) as [[-> ->]|[Hne Hk']]; [done|]. by apply (inv_chunk _ _ _ Hi).
    + pose proof (inv_apart _ _ _ Hi) as Hap. rewrite Hr1 in Hap. rewrite Hr2. by destruct Hap.
    + intros j k Hj Hk. destruct (lookup_insert_cases _ _ _ _ _ Hk Hlt) as [[-> ->]|[Hne Hk']]; [by apply Hbi|].
      rewrite Hbj by done. by apply (inv_bit _ _ _ Hi).
  - by rewrite Hr1, Hr2.
Qed.

(** ** Splitting *)

(** What is given back of a chunk of [s] bytes when [size] are taken. *)
Definition remainder (a s size : Z) : list chunk := if s =? size then [] else [(a + size, s - size)].

Definition request_ok (size : Z) : Prop := 16 <= size < 2 ^ 56 /\ size mod HEAP_OBJECT_ALIGN = 0.

(** Memory other than the headers inside [[a, a + s)] is unchanged. *)
Definition same_outside (mem mem' : Mem) (a s : Z) : Prop := forall p, p < a \/ a + s <= p -> mem' !! p = mem !! p.

Lemma split_spec mem fl bins a s next i size :
  free_inv mem fl bins -> mem !! a = Some {| fs_next := next; fs_size := s; fs_tags := TAG_FREESPACE |} ->
  chunk_ok i (a, s) -> Forall (disj (a, s)) (concat bins) -> request_ok size -> size <= s ->
  exists mem' fl' bins', splitFreeSpace mem fl a size = Some (mem', fl', a) /\ free_inv mem' fl' bins' /\
    concat bins' ≡ₚ remainder a s size ++ concat bins /\ same_outside mem mem' a s.
Proof.
  intros Hi Ha (Hpos & Hal & Hsal & Hs & _) HF (Hsz & Hszal) Hle. cbn [fst snd] in *. unfold splitFreeSpace, HEAP_OBJECT_ALIGN in *.
  rewrite Ha. cbn [mbind option_bind fs_size]. destruct (Z.leb_spec size s); [|lia]. cbn [ASSERT mbind option_bind]. unfold remainder.
  destruct (Z.eqb_spec s size) as [->|Hne].
  { replace (size - size =? 0) with true by (symmetry; apply Z.eqb_eq; lia). exists mem, fl, bins. done. }
  destruct (Z.eqb_spec (s - size) 0); [lia|].
  assert ((a + size) mod 16 = 0) as E1 by (rewrite Z.add_mod, Hal, Hszal by lia; done).
  assert ((s - size) mod 16 = 0) as E2 by (rewrite Zminus_mod, Hsal, Hszal; done).
  assert (16 <= s - size) as Hrem by (pose proof (Z.div_mod (s - size) 16 ltac:(lia)); lia).
  unfold createFreeSpace, HEAP_OBJECT_ALIGN. rewrite E1, E2. cbn [Z.eqb ASSERT mbind option_bind].
  destruct (Z.leb_spec 16 (s - size)); [|lia]. cbn [ASSERT mbind option_bind]. rewrite (Z.mod_small (s - size)) by lia.
  set (h := {| fs_next := 0; fs_size := s - size; fs_tags := TAG_FREESPACE |}).
  assert (Forall (disj (a + size, s - size)) (concat bins)) as HF'.
  { eapply Forall_impl; [exact HF|]. intros [b t] Hd. unfold disj in *. simpl in *. lia. }
  assert (a + size ∉ (concat bins).*1) as Hfresh.
  { apply (apart_fresh _ (s - size)); [lia| |done]. intros x Hx. destruct (inv_sizes _ _ _ x Hi Hx) as (k & _ & _ & _ & Hk & _). lia. }
  assert (free_inv (<[a + size := h]> mem) fl bins) as Hi'.
  { destruct Hi as [I1 I2 I3 I4 I5 I6 I7]. split; try done. intros j l Hj. by apply (chains_insert mem fl bins (a + size) h j l). }
  destruct (add_spec (<[a + size := h]> mem) fl bins (a + size) (s - size) 0 (indexForSize (s - size)) Hi') as (mem' & fl' & bins' & Hadd & Hinv & Hp & Hsame).
  - by rewrite lookup_insert_eq.
  - split_and!; simpl; unfold HEAP_OBJECT_ALIGN; done || lia.
  - done.
  - rewrite Hadd. cbn [mbind option_bind]. exists mem', fl', bins'. split; [done|]. split; [done|]. split; [exact Hp|].
    intros p Hout. rewrite Hsame by lia. by rewrite lookup_insert_ne by lia.
Qed.

(** The chunk a bin hands out, split. *)
Lemma pop_split_spec mem fl bins i a s l size :
  free_inv mem fl bins -> bins !! i = Some ((a, s) :: l) -> request_ok size -> size <= s ->
  exists mem' fl' bins' rest, popAndSplitFreeSpace mem fl i size = Some (mem', fl', a) /\ free_inv mem' fl' bins' /\
    concat bins ≡ₚ (a, s) :: rest /\ concat bins' ≡ₚ remainder a s size ++ rest /\ same_outside mem mem' a s.
Proof.
  intros Hi Hl Hsz Hle. destruct (pop_spec mem fl bins i a s l Hi Hl) as (fl1 & next & Hpop & Hi1 & Hp & Ha).
  unfold popAndSplitFreeSpace. rewrite Hpop. cbn [mbind option_bind]. pose proof (inv_apart _ _ _ Hi) as Hap. rewrite Hp in Hap.
  pose proof (inv_chunk _ _ _ Hi i _ Hl) as HF. apply Forall_cons_1 in HF as [Hck _].
  destruct (split_spec mem fl1 _ a s next i size Hi1 Ha Hck (proj1 Hap) Hsz Hle) as (mem' & fl' & bins' & Hs & Hi' & Hp' & Hsame).
  exists mem', fl', bins', (concat (<[i := l]> bins)). done.
Qed.

(** ** The oversized bin *)

(** No address is in two bins. *)
Lemma bins_disjoint (bins : list (list chunk)) i j l k x :
  NoDup (concat bins).*1 -> bins !! i = Some l -> bins !! j = Some k -> i <> j -> x ∈ l.*1 -> x ∉ k.*1.
Proof.
  revert i j. induction bins as [|b bins IH]; intros i j Hnd Hi Hj Hne Hx Hk; [done|].
  cbn [concat] in Hnd. rewrite fmap_app in Hnd. apply NoDup_app in Hnd as (Hb & Hd & Hnd).
  assert (forall i l, bins !! i = Some l -> x ∈ l.*1 -> x ∈ (concat bins).*1) as Hin.
  { intros i' l' Hi' Hx'. apply list_elem_of_fmap in Hx' as (y & -> & Hy). apply list_elem_of_fmap. exists y. split; [done|]. by apply (concat_lookup bins i' l'). }
  destruct i as [|i], j as [|j]; simplify_eq/=.
  - by apply (Hd x Hx), (Hin j k).
  - by apply (Hd x Hk), (Hin i l).
  - apply (IH i j Hnd Hi Hj); [congruence|done|done].
Qed.

Lemma bin_nodup (bins : list (list chunk)) i l : NoDup (concat bins).*1 -> bins !! i = Some l -> NoDup l.*1.
Proof.
  intros Hnd Hi. destruct (bins_split bins i l Hi) as (rest & Hr & _). rewrite Hr, fmap_app in Hnd. by apply NoDup_app in Hnd as (? & _).
Qed.

Lemma chain_app mem l1 : forall p l2, chain mem p (l1 ++ l2) -> exists q, chain mem q l2.
Proof. induction l1 as [|[b t] l1 IH]; intros p l2 Hc; [by exists p|]. destruct Hc as (_ & n & _ & Hc). by apply (IH n). Qed.

(** Unlinking the chunk after [l1] from bin 128. *)
Lemma unlink_spec mem fl bins l1 a s l2 next :
  free_inv mem fl bins -> bins !! FREE_LIST_SIZE = Some (l1 ++ (a, s) :: l2) ->
  mem !! a = Some {| fs_next := next; fs_size := s; fs_tags := TAG_FREESPACE |} -> chain mem next l2 ->
  exists mem1 fl1, (if (match last l1 with Some x => x.1 | None => 0 end) =? 0
     then spaces ← put (freeSpaces fl) FREE_LIST_SIZE next; Some (mem, {| freeSpaces := spaces; freeMap := freeMap fl |})
     else pfs ← mem !! (match last l1 with Some x => x.1 | None => 0 end);
          Some (<[(match last l1 with Some x => x.1 | None => 0 end) := {| fs_next := next; fs_size := fs_size pfs; fs_tags := fs_tags pfs |}]> mem, fl))
    = Some (mem1, fl1) /\ free_inv mem1 fl1 (<[FREE_LIST_SIZE := l1 ++ l2]> bins) /\ mem1 !! a = mem !! a /\
    (forall p, p ∉ l1.*1 -> mem1 !! p = mem !! p).
Proof.
  intros Hi Hl Ha Hch. pose proof (inv_bins _ _ _ Hi) as Hlb. pose proof (inv_spaces _ _ _ Hi) as Hls.
  pose proof (inv_chunk _ _ _ Hi _ _ Hl) as HF. apply Forall_app in HF as [HF1 HF2]. apply Forall_cons_1 in HF2 as [_ HF2].
  destruct (bins_split bins _ _ Hl) as (rest & Hr1 & Hr2). specialize (Hr2 (l1 ++ l2)).
  pose proof (inv_nodup _ _ _ Hi) as Hnd. rewrite Hr1 in Hnd. pose proof (inv_apart _ _ _ Hi) as Hap. rewrite Hr1 in Hap.
  rewrite <- Permutation_middle in Hap. cbn [app apart] in Hap. destruct Hap as [_ Hap]. rewrite <- Hr2 in Hap.
  rewrite <- Permutation_middle in Hnd. cbn [app fmap list_fmap fst] in Hnd. inversion_clear Hnd as [|? ? Hna Hnd'].
  assert (forall x, x ∈ (l1 ++ l2).*1 -> 0 < x) as Hpos.
  { intros x Hx. apply list_elem_of_fmap in Hx as (y & -> & Hy). assert (chunk_ok FREE_LIST_SIZE y) as (Hy1 & _); [|lia].
    apply (proj1 (Forall_forall _ (l1 ++ l2))); [|done]. by apply Forall_app. }
  destruct (inv_chain _ _ _ Hi _ _ Hl) as (h & Hh & Hchain).
  destruct l1 as [|[pa ps] l1 _] using rev_ind.
  - cbn [last Z.eqb]. rewrite put_Some by lia. eexists _, _. split; [done|]. split; [|done].
    destruct Hi as [I1 I2 I3 I4 I5 I6 I7]. split; cbn [freeSpaces freeMap]; try done; try (by rewrite length_insert).
    + intros j k Hk. destruct (lookup_insert_cases _ _ _ _ _ Hk ltac:(lia)) as [[-> ->]|[Hne Hk']].
      * exists next. split; [by rewrite list_lookup_insert_eq by lia|done].
      * rewrite list_lookup_insert_ne by done. by apply I4.
    + intros j k Hk. destruct (lookup_insert_cases _ _ _ _ _ Hk ltac:(lia)) as [[-> ->]|[Hne Hk']]; [by apply Forall_app|by apply I5].
    + intros j k Hj Hk. rewrite list_lookup_insert_ne in Hk by (unfold FREE_LIST_SIZE in *; lia). by apply I7.
  - rewrite last_snoc. cbn [fst]. assert (0 < pa) as Hpa.
    { apply Hpos. rewrite !fmap_app. apply elem_of_app. left. apply elem_of_app. right. left. }
    destruct (Z.eqb_spec pa 0); [lia|]. rewrite <- app_assoc in Hchain. cbn [app] in Hchain.
    destruct (chain_app mem l1 h _ Hchain) as (q & Hq). destruct Hq as (-> & n1 & Hpm & _). rewrite Hpm. cbn [mbind option_bind fs_size fs_tags].
    assert (pa <> a) as Hne.
    { intros ->. apply Hna. rewrite !fmap_app. apply elem_of_app. left. apply elem_of_app. left. apply elem_of_app. right. left. }
    eexists _, fl. split; [done|]. split; [|split].
    + rewrite <- Hr2 in Hnd'. destruct Hi as [I1 I2 I3 I4 I5 I6 I7]. split; try done; try (by rewrite length_insert).
      * intros j k Hk. pose proof Hk as Hk0. destruct (lookup_insert_cases _ _ _ _ _ Hk ltac:(lia)) as [[-> ->]|[Hnj Hk']].
        -- exists h. split; [done|]. rewrite <- app_assoc. cbn [app]. apply (chain_unlink mem l1 h pa ps a s l2 next); [done| |done].
           pose proof (bin_nodup _ _ _ Hnd' Hk0) as Hb. by rewrite <- app_assoc in Hb.
        -- destruct (I4 j k Hk') as (q & Hq & Hc). exists q. split; [done|]. apply chain_insert; [done|]. intros Hin.
           apply (bins_disjoint _ j FREE_LIST_SIZE k ((l1 ++ [(pa, ps)]) ++ l2) pa Hnd' Hk0); [by rewrite list_lookup_insert_eq by lia|done|done|].
           rewrite !fmap_app. apply elem_of_app. left. apply elem_of_app. right. left.
      * intros j k Hk. destruct (lookup_insert_cases _ _ _ _ _ Hk ltac:(lia)) as [[-> ->]|[Hnj Hk']]; [by apply Forall_app|by apply I5].
      * intros j k Hj Hk. rewrite list_lookup_insert_ne in Hk by (unfold FREE_LIST_SIZE in *; lia). by apply I7.
    + by rewrite lookup_insert_ne.
    + intros p Hp. rewrite lookup_insert_ne; [done|]. intros ->. apply Hp. rewrite fmap_app. apply elem_of_app. right. left.
Qed.

(** The outcome of a successful allocation of [size] bytes at [r]. *)
Definition carved (mem : Mem) (bins : list (list chunk)) (size : Z) (mem' : Mem) (fl' : FreeList) (r : Z) : Prop :=
  exists bins' s rest, 0 < r /\ size <= s /\ concat bins ≡ₚ (r, s) :: rest /\ free_inv mem' fl' bins' /\
    concat bins' ≡ₚ remainder r s size ++ rest /\
    forall p, (forall x, x ∈ concat bins -> p < x.1 \/ x.1 + x.2 <= p) -> mem' !! p = mem !! p.

Lemma chain_in mem p l : chain mem p l -> forall x, x ∈ l.*1 -> x ∈ dom mem.
Proof.
  revert p. induction l as [|[a s] l IH]; intros p Hc x Hx; [by apply not_elem_of_nil in Hx|].
  destruct Hc as (_ & n & Ha & Hc). cbn [fmap list_fmap fst] in Hx. apply elem_of_cons in Hx as [->|Hx]; [by apply elem_of_dom_2 in Ha|by apply (IH n)].
Qed.

Lemma chain_size (mem : Mem) p l : chain mem p l -> NoDup l.*1 -> (length l <= base.size mem)%nat.
Proof.
  intros Hc Hnd. rewrite <- (length_fmap fst l), <- (size_list_to_set (C := gset Z) l.*1 Hnd), <- size_dom.
  apply subseteq_size. intros x Hx. apply elem_of_list_to_set in Hx. by apply (chain_in mem p l).
Qed.

Lemma scan_spec mem fl bins size l2 : free_inv mem fl bins -> request_ok size -> forall l1 fuel cur,
  bins !! FREE_LIST_SIZE = Some (l1 ++ l2) -> chain mem cur l2 -> (length l2 < fuel)%nat ->
  (Forall (fun x => x.2 < size) l2 /\
     scan_oversized fuel mem fl (match last l1 with Some x => x.1 | None => 0 end) cur size = Some None) \/
  (exists mem' fl' r, scan_oversized fuel mem fl (match last l1 with Some x => x.1 | None => 0 end) cur size = Some (Some (mem', fl', r)) /\
     carved mem bins size mem' fl' r).
Proof.
  intros Hi Hreq. induction l2 as [|[a s] l2 IH]; intros l1 fuel cur Hl Hc Hf; (destruct fuel as [|fuel]; [simpl in Hf; lia|]); cbn [scan_oversized].
  { cbn [chain] in Hc. subst cur. left. split; [constructor|done]. }
  destruct Hc as (-> & next & Ha & Hc). pose proof (inv_chunk _ _ _ Hi _ _ Hl) as HF. apply Forall_app in HF as [HF1 HF2].
  apply Forall_cons_1 in HF2 as [Hck HF2]. pose proof Hck as (Hpos & _ & _ & Hs & _). cbn [fst snd] in *.
  destruct (Z.eqb_spec a 0); [lia|]. rewrite Ha. cbn [mbind option_bind fs_size fs_next].
  destruct (Z.leb_spec size s) as [Hle|Hgt].
  2: { specialize (IH (l1 ++ [(a, s)]) fuel next). rewrite last_snoc in IH. cbn [fst] in IH.
       destruct IH as [[HFs Hsc]|Hyes]; [by rewrite <- app_assoc|done|simpl in Hf; lia| |by right].
       left. split; [|done]. constructor; [done|done]. }
  right. destruct (unlink_spec mem fl bins l1 a s l2 next Hi Hl Ha Hc) as (mem1 & fl1 & Hu & Hi1 & Ha1 & Hsame1). rewrite Hu. cbn [mbind option_bind].
  destruct (bins_split bins _ _ Hl) as (rest & Hr1 & Hr2). specialize (Hr2 (l1 ++ l2)).
  assert (concat bins ≡ₚ (a, s) :: concat (<[FREE_LIST_SIZE := l1 ++ l2]> bins)) as Hperm.
  { rewrite Hr1, Hr2. rewrite <- Permutation_middle. done. }
  destruct (lookup_Some_lt (freeSpaces fl1) FREE_LIST_SIZE) as [h Hh]; [rewrite (inv_spaces _ _ _ Hi1); lia|]. rewrite Hh. cbn [mbind option_bind].
  assert (exists fm, (if h =? 0 then clear_map_bit (freeMap fl1) FREE_LIST_SIZE else Some (freeMap fl1)) = Some fm /\ map_ok fm /\
     forall j, (j < FREE_LIST_SIZE)%nat -> map_bit fm j = map_bit (freeMap fl1) j) as (fm & Hfm & Hmo & Hbj).
  { destruct (h =? 0); [|exists (freeMap fl1); split; [done|]; split; [apply Hi1|done]].
    destruct (clear_map_bit_spec (freeMap fl1) FREE_LIST_SIZE (inv_map _ _ _ Hi1) ltac:(lia)) as (fm & Hfm & Hmo & _ & Hbj).
    exists fm. split; [done|]. split; [done|]. intros j Hj. apply Hbj. lia. }
  rewrite Hfm. cbn [mbind option_bind].
  assert (free_inv mem1 {| freeSpaces := freeSpaces fl1; freeMap := fm |} (<[FREE_LIST_SIZE := l1 ++ l2]> bins)) as Hi2.
  { destruct Hi1 as [I1 I2 I3 I4 I5 I6 I7]. split; cbn [freeSpaces freeMap]; try done. intros j k Hj Hk. rewrite Hbj by done. by apply I7. }
  pose proof (inv_apart _ _ _ Hi) as Hap. rewrite Hperm in Hap.
  destruct (split_spec mem1 _ _ a s next FREE_LIST_SIZE size Hi2 ltac:(by rewrite Ha1) Hck (proj1 Hap) Hreq Hle) as (mem' & fl' & bins' & Hsp & Hi' & Hp' & Hsame).
  rewrite Hsp. cbn [mbind option_bind]. exists mem', fl', a. split; [done|].
  exists bins', s, (concat (<[FREE_LIST_SIZE := l1 ++ l2]> bins)). split; [lia|]. split; [done|]. split; [done|]. split; [done|]. split; [done|].
  intros p Hp. assert (forall x, x ∈ l1 ++ (a, s) :: l2 -> p < x.1 \/ x.1 + x.2 <= p) as Hp2.
  { intros x Hx. apply Hp. by apply (concat_lookup bins FREE_LIST_SIZE _ x Hl). }
  rewrite Hsame by (apply (Hp2 (a, s)), elem_of_app; right; left). apply Hsame1. intros Hin.
  apply list_elem_of_fmap in Hin as (x & -> & Hx). pose proof (Hp2 x ltac:(apply elem_of_app; by left)) as Hd.
  rewrite Forall_forall in HF1. destruct (HF1 x Hx) as (_ & _ & _ & Hxs & _). lia.
Qed.

Lemma try_oversized_spec mem fl bins size l : free_inv mem fl bins -> request_ok size -> bins !! FREE_LIST_SIZE = Some l ->
  (Forall (fun x => x.2 < size) l /\ try_oversized mem fl size = Some (mem, fl, 0)) \/
  (exists mem' fl' r, try_oversized mem fl size = Some (mem', fl', r) /\ carved mem bins size mem' fl' r).
Proof.
  intros Hi Hreq Hl. destruct (inv_chain _ _ _ Hi _ _ Hl) as (h & Hh & Hc). unfold try_oversized. rewrite Hh. cbn [mbind option_bind].
  pose proof (chain_size mem h l Hc (bin_nodup _ _ _ (inv_nodup _ _ _ Hi) Hl)) as Hsz.
  destruct (scan_spec mem fl bins size l Hi Hreq [] (S (base.size mem)) h Hl Hc ltac:(lia)) as [[HF Hs]|(mem' & fl' & r & Hs & Hcv)];
    cbn [last] in Hs; rewrite Hs; cbn [mbind option_bind]; [by left|right]. exists mem', fl', r. done.
Qed.

(** ** Allocation *)

(** The sizes of a bin. *)
Lemma index_size s : 0 <= s -> s mod HEAP_OBJECT_ALIGN = 0 ->
  if (indexForSize s <? FREE_LIST_SIZE)%nat then s = 16 * Z.of_nat (indexForSize s) else 16 * Z.of_nat FREE_LIST_SIZE <= s.
Proof.
  unfold indexForSize, HEAP_OBJECT_ALIGN, FREE_LIST_SIZE. intros Hs Hm. pose proof (Z.div_mod s 16 ltac:(lia)) as Hd.
  pose proof (Z.div_pos s 16 Hs ltac:(lia)). destruct (Nat.ltb_spec 128 (Z.to_nat (s / 16))).
  - rewrite Nat.ltb_irrefl. lia.
  - destruct (Nat.ltb_spec (Z.to_nat (s / 16)) 128); lia.
Qed.

Lemma bin_smaller size i x : request_ok size -> chunk_ok i x -> (i < indexForSize size)%nat -> x.2 < size.
Proof.
  intros (Hs & Hm) (_ & _ & Hxm & Hxs & Hxi) Hlt. pose proof (index_size size ltac:(lia) Hm) as H1. pose proof (index_size x.2 ltac:(lia) Hxm) as H2.
  rewrite Hxi in H2. pose proof (indexForSize_bound size). destruct (Nat.ltb_spec i FREE_LIST_SIZE); [|lia].
  destruct (Nat.ltb_spec (indexForSize size) FREE_LIST_SIZE); lia.
Qed.

Lemma bin_larger size i x : request_ok size -> chunk_ok i x -> (indexForSize size <= i)%nat -> (indexForSize size < FREE_LIST_SIZE)%nat -> size <= x.2.
Proof.
  intros (Hs & Hm) (_ & _ & Hxm & Hxs & Hxi) Hle Hlt. pose proof (index_size size ltac:(lia) Hm) as H1. pose proof (index_size x.2 ltac:(lia) Hxm) as H2.
  rewrite Hxi in H2. destruct (Nat.ltb_spec (indexForSize size) FREE_LIST_SIZE); [|lia]. destruct (Nat.ltb_spec i FREE_LIST_SIZE); lia.
Qed.

Lemma bit_nonempty mem fl bins i : free_inv mem fl bins -> (i < FREE_LIST_SIZE)%nat -> map_bit (freeMap fl) i = true ->
  exists a s l, bins !! i = Some ((a, s) :: l) /\ chunk_ok i (a, s).
Proof.
  intros Hi Hlt Hb. destruct (bin_exists _ _ _ i Hi ltac:(lia)) as (l & Hl). rewrite (inv_bit _ _ _ Hi i l Hlt Hl) in Hb.
  destruct l as [|[a s] l]; [by rewrite bool_decide_eq_true_2 in Hb|]. exists a, s, l. split; [done|].
  pose proof (inv_chunk _ _ _ Hi i _ Hl) as HF. by apply Forall_cons_1 in HF as [? _].
Qed.

Lemma bit_empty mem fl bins i l : free_inv mem fl bins -> (i < FREE_LIST_SIZE)%nat -> map_bit (freeMap fl) i = false ->
  bins !! i = Some l -> l = [].
Proof.
  intros Hi Hlt Hb Hl. rewrite (inv_bit _ _ _ Hi i l Hlt Hl) in Hb. destruct l; [done|by rewrite bool_decide_eq_false_2 in Hb].
Qed.

Lemma carved_pop mem fl bins size i a s l :
  free_inv mem fl bins -> bins !! i = Some ((a, s) :: l) -> request_ok size -> size <= s ->
  exists mem' fl', popAndSplitFreeSpace mem fl i size = Some (mem', fl', a) /\ carved mem bins size mem' fl' a.
Proof.
  intros Hi Hl Hreq Hle. destruct (pop_split_spec mem fl bins i a s l size Hi Hl Hreq Hle) as (mem' & fl' & bins' & rest & Hp & Hi' & Hb & Hb' & Hsame).
  exists mem', fl'. split; [done|]. assert ((a, s) ∈ concat bins) as Hin by (rewrite Hb; left).
  destruct (inv_sizes _ _ _ _ Hi Hin) as (k & Hpos & _). cbn [fst] in Hpos.
  exists bins', s, rest. split_and!; try done. intros p Hp'. apply Hsame. exact (Hp' (a, s) Hin).
Qed.

Lemma allocate_spec mem fl bins size : free_inv mem fl bins -> request_ok size ->
  ((forall x, x ∈ concat bins -> x.2 < size) /\ freeListTryAllocate mem fl size = Some (mem, fl, 0)) \/
  (exists mem' fl' r, freeListTryAllocate mem fl size = Some (mem', fl', r) /\ carved mem bins size mem' fl' r).
Proof.
  intros Hi Hreq. unfold freeListTryAllocate. set (index := indexForSize size).
  pose proof (indexForSize_bound size) as Hib. fold index in Hib.
  destruct (map_lookup (freeMap fl) index (inv_map _ _ _ Hi) Hib) as (b & Hb & _). rewrite Hb. cbn [mbind option_bind].
  rewrite (test_map_bit (freeMap fl) index b Hb).
  destruct (negb (index =? FREE_LIST_SIZE)%nat && map_bit (freeMap fl) index) eqn:Hexact.
  { apply andb_true_iff in Hexact as [Hne%negb_true_iff%Nat.eqb_neq Hbit]. assert (index < FREE_LIST_SIZE)%nat as Hlt by lia.
    destruct (bit_nonempty _ _ _ index Hi Hlt Hbit) as (a & s & l & Hl & Hck). pose proof Hck as (Hpos & _ & Hsm & Hs & Hsi). cbn [fst snd] in *.
    destruct (pop_spec mem fl bins index a s l Hi Hl) as (fl' & next & Hpop & Hi' & Hp & _). rewrite Hpop. cbn [mbind option_bind].
    right. exists mem, fl', a. split; [done|]. exists (<[index := l]> bins), s, (concat (<[index := l]> bins)).
    assert (s = size) as ->.
    { destruct Hreq as [Hr Hrm]. pose proof (index_size size ltac:(lia) Hrm) as H1. pose proof (index_size s ltac:(lia) Hsm) as H2.
      rewrite Hsi in H2. fold index in H1. destruct (Nat.ltb_spec index FREE_LIST_SIZE); lia. }
    split_and!; try done; try lia. unfold remainder. by rewrite Z.eqb_refl. }
  assert ((index < FREE_LIST_SIZE)%nat -> map_bit (freeMap fl) index = false) as Hidx.
  { intros Hlt. apply andb_false_iff in Hexact as [H%negb_false_iff%Nat.eqb_eq|]; [lia|done]. }
  destruct (bin_exists _ _ _ FREE_LIST_SIZE Hi ltac:(lia)) as (lo & Hlo).
  assert ((forall i, (index < i < FREE_LIST_SIZE)%nat -> map_bit (freeMap fl) i = false) ->
    ((forall x, x ∈ concat bins -> x.2 < size) /\ try_oversized mem fl size = Some (mem, fl, 0)) \/
    (exists mem' fl' r, try_oversized mem fl size = Some (mem', fl', r) /\ carved mem bins size mem' fl' r)) as Hover.
  { intros Hnone. destruct (try_oversized_spec mem fl bins size lo Hi Hreq Hlo) as [[HF Ht]|Hyes]; [left|by right].
    split; [|done]. intros x Hx. apply list_elem_of_In, List.in_concat in Hx as (l & Hl & Hxl). apply list_elem_of_In in Hl, Hxl.
    apply list_elem_of_lookup in Hl as [i Hl]. pose proof (inv_chunk _ _ _ Hi i l Hl) as HFi. rewrite Forall_forall in HFi.
    destruct (Nat.lt_ge_cases i index) as [Hlt|Hge]; [by apply (bin_smaller size i x Hreq (HFi x Hxl))|].
    destruct (Nat.lt_ge_cases i FREE_LIST_SIZE) as [Hlt|Hge2].
    - exfalso. assert (map_bit (freeMap fl) i = false) as Hbi.
      { destruct (decide (i = index)) as [->|]; [by apply Hidx|apply Hnone; lia]. }
      rewrite (bit_empty _ _ _ i l Hi Hlt Hbi Hl) in Hxl. by apply not_elem_of_nil in Hxl.
    - apply lookup_lt_Some in Hl as Hli. rewrite (inv_bins _ _ _ Hi) in Hli. assert (i = FREE_LIST_SIZE) as -> by lia.
      rewrite Hl in Hlo. injection Hlo as ->. rewrite Forall_forall in HF. by apply HF. }
  destruct (Nat.ltb_spec (index + 1) FREE_LIST_SIZE) as [Hlt|Hge]; [|apply Hover; intros i Hii; lia].
  destruct (freeMapNext_spec (freeMap fl) (index + 1) (inv_map _ _ _ Hi) Hlt) as (r & Hr & Hn). rewrite Hr. cbn [mbind option_bind].
  destruct r as [j|]; [|apply Hover; intros i Hii; apply Hn; lia].
  destruct Hn as (Hj & Hbj & _). destruct (Nat.ltb_spec index j); [|lia]. cbn [ASSERT mbind option_bind]. right.
  destruct (bit_nonempty _ _ _ j Hi ltac:(lia) Hbj) as (a & s & l & Hl & Hck).
  pose proof (bin_larger size j (a, s) Hreq Hck ltac:(lia) ltac:(lia)) as Hle. cbn [snd] in Hle.
  destruct (carved_pop mem fl bins size j a s l Hi Hl Hreq Hle) as (mem' & fl' & Hp & Hc). exists mem', fl', a. done.
Qed.

(** ** Initial state *)

(** [(v + (align - 1)) & -align] *)
Definition align (v a : Z) : Z := Z.land (u64 (v + (a - 1))) (u64 (- a)).

Lemma align_pow2 v k : 0 <= k < 64 -> 0 <= v -> v + 2 ^ k - 1 < 2 ^ 64 -> align v (2 ^ k) = (v + 2 ^ k - 1) / 2 ^ k * 2 ^ k.
Proof.
  intros Hk Hv Hlt. assert (0 < 2 ^ k) by (apply Z.pow_pos_nonneg; lia). assert (2 ^ k <= 2 ^ 63) by (apply Z.pow_le_mono_r; lia).
  unfold align. rewrite (u64_id (v + _)) by lia.
  replace (u64 (- 2 ^ k)) with (Z.ldiff (Z.ones 64) (Z.ones k)).
  2: { rewrite <- Z.sub_nocarry_ldiff.
       - rewrite !Z.ones_equiv. unfold u64. rewrite <- (Z.mod_add _ 1), Z.mod_small by lia. lia.
       - apply Z.bits_inj'. intros i Hi. rewrite Z.ldiff_spec, Z.bits_0, !Z.testbit_ones_nonneg by lia.
         destruct (Z.ltb_spec i k), (Z.ltb_spec i 64); lia || done. }
  set (x := v + (2 ^ k - 1)). replace (v + 2 ^ k - 1) with x by (unfold x; lia).
  transitivity (Z.ldiff x (Z.ones k)).
  - apply Z.bits_inj'. intros i Hi. rewrite Z.land_spec, !Z.ldiff_spec, !Z.testbit_ones_nonneg by lia.
    destruct (Z.ltb_spec i 64); [done|]. assert (Z.testbit x i = false) as ->; [|done].
    destruct (Z.eq_dec x 0) as [->|]; [apply Z.bits_0|]. apply Z.bits_above_log2; [lia|]. apply Z.log2_lt_pow2; [lia|].
    pose proof (Z.pow_le_mono_r 2 64 i). lia.
  - by rewrite Z.ldiff_ones_r, Z.shiftl_mul_pow2, Z.shiftr_div_pow2 by lia.
Qed.

(** The page's body, as one chunk. *)
Definition createInitialFreeSpace (mem : Mem) (body bodySize : Z) : option (Mem * Z) :=
  let start := align body HEAP_OBJECT_ALIGN in
  mem ← createFreeSpace mem start (align (bodySize - HEAP_OBJECT_ALIGN / 2) HEAP_OBJECT_ALIGN);
  Some (mem, start).

Definition initFreeList (mem : Mem) (body bodySize : Z) : option (Mem * FreeList) :=
  '(mem, p) ← createInitialFreeSpace mem body bodySize;
  Some (mem, {| freeSpaces := replicate FREE_LIST_SIZE 0 ++ [p]; freeMap := replicate FREE_MAP_SIZE 0 |}).

Definition expandFreeList (mem : Mem) (fl : FreeList) (body bodySize : Z) : option (Mem * FreeList) :=
  '(mem, p) ← createInitialFreeSpace mem body bodySize;
  freeListAddFreeSpace mem fl p.

(** The chunk made of a body. *)
Definition body_chunk (body bodySize : Z) : chunk := ((body + 15) / 16 * 16, (bodySize + 7) / 16 * 16).

(** A body large enough for the oversized bin, within the address space. *)
Definition body_ok (body bodySize : Z) : Prop := 0 < body /\ 2056 <= bodySize < 2 ^ 55 /\ body + bodySize < 2 ^ 63.

Lemma body_chunk_ok body bodySize : body_ok body bodySize -> chunk_ok FREE_LIST_SIZE (body_chunk body bodySize).
Proof.
  intros (Hb & Hs & Hlt). unfold chunk_ok, body_chunk, HEAP_OBJECT_ALIGN, indexForSize, FREE_LIST_SIZE. cbn [fst snd].
  pose proof (Z.div_mod (body + 15) 16 ltac:(lia)). pose proof (Z.mod_pos_bound (body + 15) 16 ltac:(lia)).
  pose proof (Z.div_mod (bodySize + 7) 16 ltac:(lia)). pose proof (Z.mod_pos_bound (bodySize + 7) 16 ltac:(lia)).
  rewrite !Z.mod_mul by lia. split_and!; try lia. unfold HEAP_OBJECT_ALIGN. rewrite Z.div_mul by lia. case_bool; lia.
Qed.

Lemma initial_space mem body bodySize : body_ok body bodySize ->
  createInitialFreeSpace mem body bodySize =
    Some (<[(body_chunk body bodySize).1 := {| fs_next := 0; fs_size := (body_chunk body bodySize).2; fs_tags := TAG_FREESPACE |}]> mem,
          (body_chunk body bodySize).1).
Proof.
  intros Hok. pose proof (body_chunk_ok _ _ Hok) as (Hp & Hm & Hsm & Hs & _). destruct Hok as (Hb & Hsz & Hlt).
  unfold createInitialFreeSpace. change (HEAP_OBJECT_ALIGN / 2) with 8. change HEAP_OBJECT_ALIGN with (2 ^ 4).
  rewrite !align_pow2 by lia. change (2 ^ 4) with 16. replace (body + 16 - 1) with (body + 15) by lia.
  replace (bodySize - 8 + 16 - 1) with (bodySize + 7) by lia. cbn [fst snd body_chunk] in *.
  unfold createFreeSpace. rewrite Hm, Hsm. cbn [Z.eqb ASSERT mbind option_bind]. unfold HEAP_OBJECT_ALIGN.
  destruct (Z.leb_spec 16 ((bodySize + 7) / 16 * 16)); [|lia]. cbn [ASSERT mbind option_bind]. by rewrite (Z.mod_small ((bodySize + 7) / 16 * 16)) by lia.
Qed.

Lemma concat_nils {A} n : concat (replicate n (@nil A)) = [].
Proof. by induction n. Qed.

Lemma init_spec mem body bodySize : body_ok body bodySize ->
  exists mem' fl bins, initFreeList mem body bodySize = Some (mem', fl) /\ free_inv mem' fl bins /\
    concat bins = [body_chunk body bodySize] /\ (forall p, p <> (body_chunk body bodySize).1 -> mem' !! p = mem !! p).
Proof.
  intros Hok. unfold initFreeList. rewrite initial_space by done. cbn [mbind option_bind].
  set (c := body_chunk body bodySize). pose proof (body_chunk_ok _ _ Hok) as Hck. fold c in Hck. destruct c as [a s]. cbn [fst snd].
  eexists _, _, (replicate FREE_LIST_SIZE [] ++ [[(a, s)]]). split; [done|]. split; [|split].
  2: { by rewrite concat_app, concat_nils. }
  2: { intros p Hp. by rewrite lookup_insert_ne. }
  assert (forall (i : nat) (l : list chunk), (replicate FREE_LIST_SIZE [] ++ [[(a, s)]]) !! i = Some l ->
    (i < FREE_LIST_SIZE)%nat /\ l = [] \/ i = FREE_LIST_SIZE /\ l = [(a, s)]) as Hcases.
  { intros i l Hi. apply lookup_app_Some in Hi as [Hi|[Hlen Hi]].
    - apply lookup_replicate in Hi as [-> Hlt]. by left.
    - rewrite length_replicate in *. destruct (i - FREE_LIST_SIZE)%nat as [|n] eqn:E; [|by destruct n]. injection Hi as <-. right. split; [lia|done]. }
  split; cbn [freeSpaces freeMap].
  - by rewrite length_app, length_replicate.
  - by rewrite length_app, length_replicate.
  - split; [apply length_replicate|]. apply Forall_replicate. lia.
  - intros i l Hi. destruct (Hcases i l Hi) as [[Hlt ->]|[-> ->]].
    + exists 0. split; [|done]. rewrite lookup_app_l by (rewrite length_replicate; lia). by apply lookup_replicate_2.
    + exists a. split; [by rewrite lookup_app_r by (by rewrite length_replicate)|]. split; [done|]. exists 0. by rewrite lookup_insert_eq.
  - intros i l Hi. destruct (Hcases i l Hi) as [[Hlt ->]|[-> ->]]; [constructor|]. by constructor.
  - rewrite concat_app, concat_nils. split; [constructor|done].
  - intros i l Hlt Hi. destruct (Hcases i l Hi) as [[_ ->]|[-> _]]; [|lia]. unfold map_bit.
    destruct (replicate FREE_MAP_SIZE 0 !! (i / 8)%nat) eqn:E; [|done]. apply lookup_replicate in E as [-> _]. by rewrite Z.bits_0.
Qed.

(** ** Properties *)

Definition total (l : list chunk) : Z := foldr (fun x acc => x.2 + acc) 0 l.

Lemma total_perm l k : l ≡ₚ k -> total l = total k.
Proof. induction 1; cbn [total foldr] in *; unfold total in *; lia. Qed.

(** C4. Allocating from a well-formed free list never fails an assertion or
    touches a bin outside the list. It answers [NULL], changing nothing, only
    when every free chunk is too small; otherwise it answers the start of a
    chunk of at least the size asked for, gives the rest of the chunk back as
    a free chunk, leaves the other free chunks alone, keeps the free list
    well formed (so no two free chunks ever overlap each other or the block
    answered), and changes no header outside free memory; the free bytes drop
    by exactly the size. *)
Theorem freeListTryAllocate_correct mem fl bins size :
  free_inv mem fl bins -> request_ok size ->
  exists mem' fl' r, freeListTryAllocate mem fl size = Some (mem', fl', r) /\
    if r =? 0 then mem' = mem /\ fl' = fl /\ (forall x, x ∈ concat bins -> x.2 < size)
    else exists bins' s rest, size <= s /\ concat bins ≡ₚ (r, s) :: rest /\
      free_inv mem' fl' bins' /\ concat bins' ≡ₚ remainder r s size ++ rest /\
      total (concat bins') = total (concat bins) - size /\
      forall p, (forall x, x ∈ concat bins -> p < x.1 \/ x.1 + x.2 <= p) -> mem' !! p = mem !! p.
Proof.
  intros Hi Hreq. destruct (allocate_spec mem fl bins size Hi Hreq) as [[Hsmall Ha]|(mem' & fl' & r & Ha & bins' & s & rest & Hr & Hle & Hp & Hi' & Hp' & Hout)].
  - exists mem, fl, 0. done.
  - exists mem', fl', r. split; [done|]. destruct (Z.eqb_spec r 0); [lia|]. exists bins', s, rest. split_and!; try done.
    rewrite (total_perm _ _ Hp), (total_perm _ _ Hp'). unfold remainder. destruct (Z.eqb_spec s size); cbn [app total foldr]; simpl; lia.
Qed.

Lemma freeListTryAllocate_correct_witness :
  exists mem fl mem' fl' r, initFreeList ∅ 0x10028 4040 = Some (mem, fl) /\ freeListTryAllocate mem fl 64 = Some (mem', fl', r).
Proof.
  destruct (init_spec ∅ 0x10028 4040) as (mem & fl & bins & Hf & Hi & _ & _); [unfold body_ok; lia|].
  destruct (freeListTryAllocate_correct mem fl bins 64) as (mem' & fl' & r & H1 & _); [exact Hi|unfold request_ok; split; [lia|reflexivity]|].
  exists mem, fl, mem', fl', r. split; [exact Hf|exact H1].
Defined.

(** Returning a chunk (by the sweep, a split or a new page) whose header
    is in place and which overlaps no free chunk adds exactly that chunk and
    keeps the free list well formed; only the chunk's own header is written. *)
Theorem freeListAddFreeSpace_adds mem fl bins a s next :
  free_inv mem fl bins -> mem !! a = Some {| fs_next := next; fs_size := s; fs_tags := TAG_FREESPACE |} ->
  chunk_ok (indexForSize s) (a, s) -> Forall (disj (a, s)) (concat bins) ->
  exists mem' fl' bins', freeListAddFreeSpace mem fl a = Some (mem', fl') /\ free_inv mem' fl' bins' /\
    concat bins' ≡ₚ (a, s) :: concat bins /\ total (concat bins') = total (concat bins) + s /\
    (forall p, p <> a -> mem' !! p = mem !! p).
Proof.
  intros Hi Ha Hck HF. destruct (add_spec mem fl bins a s next _ Hi Ha Hck HF) as (mem' & fl' & bins' & H1 & H2 & H3 & H4).
  exists mem', fl', bins'. split_and!; try done. rewrite (total_perm _ _ H3). unfold total. cbn [foldr snd]. lia.
Qed.

Lemma freeListAddFreeSpace_adds_witness :
  exists mem fl mem' fl', initFreeList (<[0x20000 := {| fs_next := 0; fs_size := 32; fs_tags := 1 |}]> ∅) 0x10028 4040 = Some (mem, fl) /\
    freeListAddFreeSpace mem fl 0x20000 = Some (mem', fl').
Proof.
  destruct (init_spec (<[0x20000 := {| fs_next := 0; fs_size := 32; fs_tags := 1 |}]> ∅) 0x10028 4040) as (mem & fl & bins & Hf & Hi & Hb & Hs); [unfold body_ok; lia|].
  destruct (freeListAddFreeSpace_adds mem fl bins 0x20000 32 0) as (mem' & fl' & bins' & H1 & _).
  - exact Hi.
  - rewrite Hs by (vm_compute; discriminate). reflexivity.
  - split; [reflexivity|]. split; [reflexivity|]. split; [reflexivity|]. split; [simpl; lia|reflexivity].
  - rewrite Hb. constructor; [|constructor]. right. vm_compute. discriminate.
  - exists mem, fl, mem', fl'. split; [exact Hf|exact H1].
Defined.

(** The bitmap search answers the first nonempty bin at or above the
    start, and none only when there is none: no candidate is skipped, no bin
    beyond the last exact one is invented, and it never reads outside the
    map. *)
Theorem freeMapNext_first fm i :
  map_ok fm -> (i < FREE_LIST_SIZE)%nat ->
  exists r, freeMapNext fm i = Some r /\
    match r with
    | Some j => (i <= j < FREE_LIST_SIZE)%nat /\ map_bit fm j = true /\ (forall k, (i <= k < j)%nat -> map_bit fm k = false)
    | None => forall k, (i <= k < FREE_LIST_SIZE)%nat -> map_bit fm k = false
    end.
Proof. apply freeMapNext_spec. Qed.

Lemma freeMapNext_first_witness : exists r, freeMapNext ([0; 0x20] ++ replicate 15 0) 9 = Some r /\ r = Some 13%nat.
Proof.
  destruct (freeMapNext_first ([0; 0x20] ++ replicate 15 0) 9) as (r & H1 & _).
  - split; [reflexivity|]. apply Forall_app; split; [repeat constructor; done|apply Forall_replicate; lia].
  - unfold FREE_LIST_SIZE. lia.
  - exists r. split; [exact H1|]. vm_compute in H1. congruence.
Defined.
