(* ===== verification/HeapPage.v ===== *)
(** * Page spaces

    [src/vm/memory/HeapPage.c]: the pages a space has mapped, the sorted index
    of their body ranges behind the O(log P) membership test, and the walk
    over the cells of a space.  The page list is a list of pages; the range
    index is the array the code keeps, with its count and capacity.
    [osPageAlloc] is a parameter: the address it answers.

    The main results: adding and removing pages keeps the index sorted and in
    step with the page list, the binary-search membership test agrees with the
    linear walk over the pages, a fresh page's first free chunk fills the rest
    of its mapping exactly, and the iterator visits every cell of every page
    once. *)
From S2P Require Import Prelude Tagging FreeList.
From stdpp Require Import gmap.
#[local] Open Scope Z_scope.

(** ** The code *)

Record HeapPage := {
  pg_addr : Z;
  isExecutable : bool;
  pg_size : Z;
  bodySize : Z;
  body : Z;
}.

(** [sizeof(HeapPage)]. *)
Definition HEAP_PAGE_HEADER : Z := 40.

Record PageRange := { rbase : Z; rend : Z }.

Record PageSpace := {
  pages : list HeapPage;
  ranges : list PageRange;  (* as long as [rangeCap] *)
  rangeCount : nat;
  totalBytes : Z;
}.

Definition rangeCap (ps : PageSpace) : nat := length (ranges ps).

Definition no_range : PageRange := {| rbase := 0; rend := 0 |}.

(** [while (lo < hi)]: the first index whose base does not satisfy [below]. *)
Definition search_body (rs : list PageRange) (below : PageRange -> bool) (st : nat * nat) : option (nat * nat + nat) :=
  let '(lo, hi) := st in
  if (lo <? hi)%nat then
    let mid := ((lo + hi) / 2)%nat in
    r ← rs !! mid;
    if below r then Some (inl ((mid + 1)%nat, hi)) else Some (inl (lo, mid))
  else Some (inr lo).

Definition range_search (rs : list PageRange) (count : nat) (below : PageRange -> bool) : option nat :=
  loop (S count) (search_body rs below) (O, count).

Definition page_range (page : HeapPage) : PageRange := {| rbase := body page; rend := body page + bodySize page |}.

Definition pageSpaceIndexAdd (ps : PageSpace) (page : HeapPage) : option PageSpace :=
  let cap := if (rangeCount ps =? rangeCap ps)%nat
             then (if (rangeCap ps =? 0)%nat then 16 else rangeCap ps * 2)%nat else rangeCap ps in
  let rs := ranges ps ++ replicate (cap - rangeCap ps) no_range in
  lo ← range_search rs (rangeCount ps) (fun r => rbase r <? body page);
  rs ← memcpy rs (lo + 1) rs lo (rangeCount ps - lo);
  rs ← put rs lo (page_range page);
  Some {| pages := pages ps; ranges := rs; rangeCount := S (rangeCount ps); totalBytes := u64 (totalBytes ps + bodySize page) |}.

Definition pageSpaceIndexRemove (ps : PageSpace) (page : HeapPage) : option PageSpace :=
  lo ← range_search (ranges ps) (rangeCount ps) (fun r => rbase r <? body page);
  found ← (if (lo <? rangeCount ps)%nat then r ← ranges ps !! lo; Some (rbase r =? body page) else Some false);
  if (found : bool) then
    rs ← memcpy (ranges ps) lo (ranges ps) (lo + 1) (rangeCount ps - lo - 1);
    Some {| pages := pages ps; ranges := rs; rangeCount := (rangeCount ps - 1)%nat; totalBytes := u64 (totalBytes ps - bodySize page) |}
  else Some ps.

Definition heapPageIncludes (page : HeapPage) (addr : Z) : bool := (body page <=? addr) && (addr <? body page + bodySize page).

(** The linear walk over the page list. *)
Fixpoint find_page (l : list HeapPage) (addr : Z) : option HeapPage :=
  match l with
  | [] => None
  | page :: next => if (body page <=? addr) && (addr <? body page + bodySize page) then Some page else find_page next addr
  end.

Definition pageSpaceFindPage (ps : PageSpace) (addr : Z) : option HeapPage := find_page (pages ps) addr.

Definition pageSpaceIncludes (ps : PageSpace) (addr : Z) : option bool :=
  lo ← range_search (ranges ps) (rangeCount ps) (fun r => rbase r <=? addr);
  if (lo =? 0)%nat then Some false
  else r ← ranges ps !! (lo - 1)%nat; Some (addr <? rend r).

(** [page] is the address [osPageAlloc] answered; [None] for [NULL], where
    the code fails. *)
Definition mapHeapPage (osPageSize : Z) (page : option Z) (size : Z) (executable : bool) : option HeapPage :=
  let alignedSize := align size osPageSize in
  p ← page;
  let bs := u64 (alignedSize - HEAP_PAGE_HEADER) in
  Some {| pg_addr := p; isExecutable := executable; pg_size := alignedSize;
          bodySize := bs - bs mod HEAP_OBJECT_ALIGN; body := p + HEAP_PAGE_HEADER |}.

Definition initPageSpace (osPageSize : Z) (page : option Z) (mem : gmap Z FreeSpace) (size : Z) (executable : bool)
    : option (gmap Z FreeSpace * FreeList * PageSpace) :=
  page ← mapHeapPage osPageSize page size executable;
  '(mem, fl) ← initFreeList mem (body page) (bodySize page);
  ps ← pageSpaceIndexAdd {| pages := [page]; ranges := []; rangeCount := 0; totalBytes := 0 |} page;
  Some (mem, fl, ps).

Definition pageSpaceTryAllocate (mem : gmap Z FreeSpace) (fl : FreeList) (ps : PageSpace) (size : Z)
    : option (gmap Z FreeSpace * FreeList * Z) :=
  _ ← ASSERT (size mod HEAP_OBJECT_ALIGN =? 0);
  '(mem, fl, p) ← freeListTryAllocate mem fl size;
  inc ← (if p =? 0 then Some true else pageSpaceIncludes ps p);
  _ ← ASSERT inc;
  Some (mem, fl, p).

Section Walk.
(** What the walk reads of the cell at an address: its tags, the size field
    of a free chunk, and the sizes computed for code and for objects. *)
Variable tags_at free_size computeNativeCodeSize computeRawObjectSize : Z -> Z.

(** The iterator: the current page with those after it, and the address of
    the next cell. *)
Definition pageSpaceIteratorInit (l : list HeapPage) : option (list HeapPage * Z) :=
  page ← head l; Some (l, align (body page) HEAP_OBJECT_ALIGN).

Definition cell_size (page : HeapPage) (object : Z) : Z :=
  if negb (Z.land (tags_at object) TAG_FREESPACE =? 0) then free_size object
  else if isExecutable page then computeNativeCodeSize object
  else computeRawObjectSize object.

(** [Some None] is the answer [NULL]. *)
Definition pageSpaceIteratorNext (it : list HeapPage * Z) : option (option (Z * (list HeapPage * Z))) :=
  let '(l, object) := it in
  page ← head l;
  if body page + bodySize page <=? object then
    match tail l with
    | [] => Some None
    | (page :: _) as l =>
        let object := align (body page) HEAP_OBJECT_ALIGN in
        Some (Some (object, (l, object + align (cell_size page object) HEAP_OBJECT_ALIGN)))
    end
  else Some (Some (object, (l, object + align (cell_size page object) HEAP_OBJECT_ALIGN))).

(** Walking until the answer is [NULL]. *)
Fixpoint walk (fuel : nat) (it : list HeapPage * Z) : option (list Z) :=
  match fuel with
  | O => None
  | S fuel =>
      r ← pageSpaceIteratorNext it;
      match r with
      | None => Some []
      | Some (object, it) => rest ← walk fuel it; Some (object :: rest)
      end
  end.
End Walk.

(** ** The range index *)

(** Ranges in order, none overlapping. *)
Fixpoint ranges_sorted (l : list PageRange) : Prop :=
  match l with
  | [] => True
  | r :: t => rbase r < rend r /\ Forall (fun r' => rend r <= rbase r') t /\ ranges_sorted t
  end.

Lemma sorted_lookup l i j r r' : ranges_sorted l -> l !! i = Some r -> l !! j = Some r' -> (i < j)%nat -> rend r <= rbase r'.
Proof.
  revert i j. induction l as [|x l IH]; intros i j Hs Hi Hj Hlt; [done|]. destruct Hs as (_ & HF & Hs).
  destruct j as [|j]; [lia|]. destruct i as [|i]; simpl in *.
  - injection Hi as ->. exact (Forall_lookup_1 _ _ _ _ HF Hj).
  - apply (IH i j); done || lia.
Qed.

Lemma sorted_range l i r : ranges_sorted l -> l !! i = Some r -> rbase r < rend r.
Proof. revert i. induction l as [|x l IH]; intros [|i] Hs Hi; simplify_eq/=; [apply Hs|]. by apply (IH i); [apply Hs|]. Qed.

(** A predicate that holds on a prefix. *)
Definition prefix_pred (l : list PageRange) (below : PageRange -> bool) : Prop :=
  forall i j r r', l !! i = Some r -> l !! j = Some r' -> (i < j)%nat -> below r' = true -> below r = true.

Lemma range_search_spec rs count below : (count <= length rs)%nat -> prefix_pred (take count rs) below ->
  exists lo, range_search rs count below = Some lo /\ (lo <= count)%nat /\
    (forall i r, (i < lo)%nat -> rs !! i = Some r -> below r = true) /\
    (forall i r, (lo <= i < count)%nat -> rs !! i = Some r -> below r = false).
Proof.
  intros Hc Hp. unfold range_search.
  destruct (loop_rule (fun '(lo, hi) => (lo <= hi <= count)%nat /\ (forall i r, (i < lo)%nat -> rs !! i = Some r -> below r = true) /\
      (forall i r, (hi <= i < count)%nat -> rs !! i = Some r -> below r = false))
    (fun lo => (lo <= count)%nat /\ (forall i r, (i < lo)%nat -> rs !! i = Some r -> below r = true) /\
      (forall i r, (lo <= i < count)%nat -> rs !! i = Some r -> below r = false))
    (fun st => st.2 - st.1)%nat (S count) (search_body rs below) (O, count)) as (lo & Hl & HQ); [| | |by exists lo].
  - split; [lia|]. split; lia.
  - intros [lo hi] (Hb & H1 & H2). unfold search_body. destruct (Nat.ltb_spec lo hi) as [Hlt|Hge].
    2: { eexists; split; [done|]. cbv beta iota. replace hi with lo in H2 by lia. split; [lia|done]. }
    assert (lo <= (lo + hi) / 2 < hi)%nat as Hmid.
    { split; [apply Nat.div_le_lower_bound; lia|apply Nat.Div0.div_lt_upper_bound; lia]. }
    set (mid := ((lo + hi) / 2)%nat) in *. destruct (lookup_Some_lt rs mid) as [r Hr]; [lia|]. rewrite Hr. cbn [mbind option_bind].
    assert (forall i x, (i < count)%nat -> rs !! i = Some x -> take count rs !! i = Some x) as Htk by (intros; by rewrite lookup_take_lt).
    destruct (below r) eqn:Hbr; (eexists; split; [done|]); cbn [fst snd].
    + split; [|lia]. split; [lia|]. split; [|done]. intros i x Hi Hx. destruct (Nat.lt_trichotomy i mid) as [Hlt'|[->|]]; [|congruence|lia].
      apply (Hp i mid x r); [by apply Htk; [lia|]|by apply Htk; [lia|]|done|done].
    + split; [|lia]. split; [lia|]. split; [done|]. intros i x Hi Hx. destruct (Nat.lt_trichotomy i mid) as [|[->|Hgt]]; [lia|congruence|].
      destruct (below x) eqn:Hbx; [|done]. rewrite (Hp mid i r x) in Hbr; [done|by apply Htk; [lia|]|by apply Htk; [lia|]|done|done].
  - cbn [fst snd]. lia.
Qed.

Lemma prefix_lt l b : ranges_sorted l -> prefix_pred l (fun r => rbase r <? b).
Proof.
  intros Hs i j r r' Hi Hj Hlt Hb. apply Z.ltb_lt in Hb. apply Z.ltb_lt. pose proof (sorted_lookup l i j r r' Hs Hi Hj Hlt).
  pose proof (sorted_range l i r Hs Hi). lia.
Qed.

Lemma prefix_le l b : ranges_sorted l -> prefix_pred l (fun r => rbase r <=? b).
Proof.
  intros Hs i j r r' Hi Hj Hlt Hb. apply Z.leb_le in Hb. apply Z.leb_le. pose proof (sorted_lookup l i j r r' Hs Hi Hj Hlt).
  pose proof (sorted_range l i r Hs Hi). lia.
Qed.

(** The live part of the array holds [l], in order. *)
Definition index_holds (ps : PageSpace) (l : list PageRange) : Prop :=
  (rangeCount ps <= rangeCap ps)%nat /\ take (rangeCount ps) (ranges ps) = l /\ ranges_sorted l.

Lemma sorted_app l k : ranges_sorted l -> ranges_sorted k -> (forall r r', r ∈ l -> r' ∈ k -> rend r <= rbase r') -> ranges_sorted (l ++ k).
Proof.
  induction l as [|r l IH]; intros Hl Hk Hlk; [done|]. destruct Hl as (Hr & HF & Hl). cbn [app ranges_sorted]. split; [done|]. split.
  - apply Forall_app. split; [done|]. apply Forall_forall. intros x Hx. apply Hlk; [left|done].
  - apply IH; [done|done|]. intros a b Ha Hb. apply Hlk; [by right|done].
Qed.

Lemma sorted_split l k : ranges_sorted (l ++ k) -> ranges_sorted l /\ ranges_sorted k /\ (forall r r', r ∈ l -> r' ∈ k -> rend r <= rbase r').
Proof.
  induction l as [|x l IH]; intros Hs; [split_and!; [done|done|]; intros r r' Hr; by apply not_elem_of_nil in Hr|].
  destruct Hs as (Hr & HF & Hs). apply Forall_app in HF as [HF1 HF2]. destruct (IH Hs) as (H1 & H2 & H3).
  split; [done|]. split; [done|]. intros r r' Hin Hr'. apply elem_of_cons in Hin as [->|Hin]; [|by apply H3].
  rewrite Forall_forall in HF2. by apply HF2.
Qed.

(** Shifting the tail up by one and writing the gap. *)
Lemma insert_at {A} (rs : list A) lo count x : (lo <= count < length rs)%nat ->
  exists rs', (rs1 ← memcpy rs (lo + 1) rs lo (count - lo); put rs1 lo x) = Some rs' /\ length rs' = length rs /\
    take (S count) rs' = take lo rs ++ x :: take (count - lo) (drop lo rs).
Proof.
  intros Hlo. unfold memcpy. rewrite slice_Some by lia. cbn [mbind option_bind].
  assert (length (take (count - lo) (drop lo rs)) = count - lo)%nat as Hlb by (rewrite length_take_le; rewrite ?length_drop; lia).
  unfold blit. rewrite decide_True by (rewrite Hlb; lia). cbn [mbind option_bind]. rewrite Hlb.
  set (B := take (count - lo) (drop lo rs)) in *. set (T := drop (lo + 1 + (count - lo)) rs).
  assert (length T = length rs - S count)%nat as Hlt by (unfold T; rewrite length_drop; lia).
  destruct (lookup_Some_lt rs lo) as [y Hy]; [lia|]. replace (take (lo + 1) rs) with (take lo rs ++ [y]) by (rewrite Nat.add_1_r; by rewrite (take_S_r _ _ _ Hy)).
  assert (length (take lo rs) = lo) as Hla by (rewrite length_take_le; lia).
  rewrite put_Some by (rewrite !length_app, Hla, Hlb; simpl; lia). eexists; split; [done|]. split.
  - rewrite length_insert, !length_app, Hla, Hlb, Hlt. simpl. lia.
  - rewrite <- app_assoc. rewrite insert_app_r_alt by lia. replace (lo - length (take lo rs))%nat with O by lia. cbn [app insert list_insert].
    replace (take lo rs ++ x :: B ++ T) with ((take lo rs ++ x :: B) ++ T) by (by rewrite <- app_assoc).
    apply take_app_length'. rewrite length_app, Hla. cbn [length]. lia.
Qed.

Lemma take_split {A} (rs : list A) lo count : (lo <= count)%nat -> take count rs = take lo rs ++ take (count - lo) (drop lo rs).
Proof.
  intros Hle. rewrite <- (take_drop lo (take count rs)), take_take, skipn_firstn_comm. by rewrite Nat.min_l by lia.
Qed.

Lemma index_add ps l page : index_holds ps l -> 0 < bodySize page ->
  (forall r, r ∈ l -> rend r <= body page \/ body page + bodySize page <= rbase r) ->
  exists ps' l', pageSpaceIndexAdd ps page = Some ps' /\ index_holds ps' l' /\ l' ≡ₚ page_range page :: l /\
    pages ps' = pages ps /\ totalBytes ps' = u64 (totalBytes ps + bodySize page).
Proof.
  intros (Hc & Hl & Hs) Hbs Hd. unfold pageSpaceIndexAdd. set (cap := if (rangeCount ps =? rangeCap ps)%nat then _ else _).
  set (rs := ranges ps ++ replicate (cap - rangeCap ps) no_range). unfold rangeCap in *.
  assert (rangeCount ps < length rs)%nat as Hroom.
  { unfold rs. rewrite length_app, length_replicate. unfold cap. destruct (Nat.eqb_spec (rangeCount ps) (length (ranges ps))); [|lia].
    destruct (Nat.eqb_spec (length (ranges ps)) 0); lia. }
  assert (take (rangeCount ps) rs = l) as Hl' by (unfold rs; rewrite take_app_le by lia; done).
  destruct (range_search_spec rs (rangeCount ps) (fun r => rbase r <? body page)) as (lo & Hlo & Hle & Hbelow & Habove);
    [lia|rewrite Hl'; by apply prefix_lt|]. rewrite Hlo. cbn [mbind option_bind].
  destruct (insert_at rs lo (rangeCount ps) (page_range page) ltac:(lia)) as (rs' & Hm & Hlr & Htk).
  destruct (memcpy rs (lo + 1) rs lo (rangeCount ps - lo)) as [rs1|]; [|done]. cbn [mbind option_bind] in Hm. cbn [mbind option_bind]. rewrite Hm. cbn [mbind option_bind].
  rewrite (take_split rs lo (rangeCount ps) Hle) in Hl'. set (A := take lo rs) in *. set (B := take (rangeCount ps - lo) (drop lo rs)) in *.
  eexists _, (A ++ page_range page :: B). split; [done|]. split; [|split; [|done]].
  - split; [unfold rangeCap; cbn [rangeCount ranges]; lia|]. split; [exact Htk|]. rewrite <- Hl' in Hs, Hd. apply sorted_split in Hs as (HA & HB & HAB).
    assert (forall r, r ∈ A -> rend r <= body page) as HA1.
    { intros r Hr. pose proof Hr as Hin. apply list_elem_of_lookup in Hr as [i Hi]. pose proof (lookup_lt_Some _ _ _ Hi) as Hil.
      unfold A in Hi, Hil. rewrite length_take in Hil. rewrite lookup_take_lt in Hi by lia.
      pose proof (Hbelow i r ltac:(lia) Hi) as Hb%Z.ltb_lt. destruct (Hd r) as [|]; [apply elem_of_app; by left|done|lia]. }
    assert (forall r, r ∈ B -> body page + bodySize page <= rbase r) as HB1.
    { intros r Hr. pose proof Hr as Hin. apply list_elem_of_lookup in Hr as [i Hi]. pose proof (lookup_lt_Some _ _ _ Hi) as Hil.
      unfold B in Hi, Hil. rewrite length_take in Hil. rewrite lookup_take_lt, lookup_drop in Hi by lia.
      pose proof (Habove (lo + i)%nat r ltac:(lia) Hi) as Hb%Z.ltb_ge. destruct (Hd r) as [Hle'|]; [apply elem_of_app; by right| |done].
      exfalso. pose proof (list_elem_of_lookup_2 B i r) as _. apply list_elem_of_lookup in Hin as [k Hk]. pose proof (sorted_range B k r HB Hk). lia. }
    apply sorted_app; [done| |].
    + split; [simpl; lia|]. split; [|done]. apply Forall_forall. exact HB1.
    + intros r r' Hr Hr'. apply elem_of_cons in Hr' as [->|Hr']; [by apply HA1|by apply HAB].
  - rewrite <- Hl'. by rewrite Permutation_middle.
Qed.

(** Shifting the tail down over one element. *)
Lemma delete_at {A} (rs : list A) lo count : (lo < count <= length rs)%nat ->
  exists rs', memcpy rs lo rs (lo + 1) (count - lo - 1) = Some rs' /\ length rs' = length rs /\
    take (count - 1) rs' = take lo rs ++ take (count - S lo) (drop (S lo) rs).
Proof.
  intros Hlo. unfold memcpy. rewrite slice_Some by lia. cbn [mbind option_bind].
  replace (count - lo - 1)%nat with (count - S lo)%nat by lia. rewrite Nat.add_1_r.
  assert (length (take (count - S lo) (drop (S lo) rs)) = count - S lo)%nat as Hlb by (rewrite length_take_le; rewrite ?length_drop; lia).
  unfold blit. rewrite decide_True by (rewrite Hlb; lia). set (B := take (count - S lo) (drop (S lo) rs)) in *. rewrite Hlb.
  assert (length (take lo rs) = lo) as Hla by (rewrite length_take_le; lia). eexists; split; [done|]. split.
  - rewrite !length_app, Hla, Hlb, length_drop. lia.
  - rewrite app_assoc. apply take_app_length'. rewrite length_app, Hla, Hlb. lia.
Qed.

Lemma index_remove ps l page : index_holds ps l ->
  exists ps' l', pageSpaceIndexRemove ps page = Some ps' /\ index_holds ps' l' /\ pages ps' = pages ps /\
    ((exists r, rbase r = body page /\ l ≡ₚ r :: l' /\ totalBytes ps' = u64 (totalBytes ps - bodySize page)) \/
     ((forall r, r ∈ l -> rbase r <> body page) /\ ps' = ps)).
Proof.
  intros (Hc & Hl & Hs). unfold pageSpaceIndexRemove, rangeCap in *.
  destruct (range_search_spec (ranges ps) (rangeCount ps) (fun r => rbase r <? body page)) as (lo & Hlo & Hle & Hbelow & Habove);
    [lia|rewrite Hl; by apply prefix_lt|]. rewrite Hlo. cbn [mbind option_bind].
  assert (forall r, r ∈ l -> exists i, (i < rangeCount ps)%nat /\ ranges ps !! i = Some r) as Hin.
  { intros r Hr. rewrite <- Hl in Hr. apply list_elem_of_lookup in Hr as [i Hi]. pose proof (lookup_lt_Some _ _ _ Hi) as Hil.
    rewrite length_take in Hil. rewrite lookup_take_lt in Hi by lia. exists i. split; [lia|done]. }
  assert (forall r, r ∈ l -> rbase r = body page -> ranges ps !! lo = Some r /\ (lo < rangeCount ps)%nat) as Hfound.
  { intros r Hr Hb. destruct (Hin r Hr) as (i & Hi & Hri). destruct (Nat.lt_trichotomy i lo) as [Hlt|[->|Hgt]]; [|done|].
    - pose proof (Hbelow i r Hlt Hri) as H1%Z.ltb_lt. lia.
    - destruct (lookup_Some_lt (ranges ps) lo) as [q Hq]; [lia|]. pose proof (Habove lo q ltac:(lia) Hq) as H1%Z.ltb_ge.
      assert (forall j x, (j < rangeCount ps)%nat -> ranges ps !! j = Some x -> l !! j = Some x) as Htk by (intros; rewrite <- Hl; by rewrite lookup_take_lt).
      pose proof (sorted_lookup l lo i q r Hs ltac:(by apply Htk; [lia|]) ltac:(by apply Htk; [lia|]) Hgt).
      pose proof (sorted_range l lo q Hs ltac:(by apply Htk; [lia|])). lia. }
  destruct (Nat.ltb_spec lo (rangeCount ps)) as [Hlt|Hge].
  2: { cbn [mbind option_bind]. exists ps, l. split; [done|]. split; [done|]. split; [done|]. right. split; [|done].
       intros r Hr Hb. destruct (Hfound r Hr Hb). lia. }
  destruct (lookup_Some_lt (ranges ps) lo) as [q Hq]; [lia|]. rewrite Hq. cbn [mbind option_bind].
  destruct (Z.eqb_spec (rbase q) (body page)) as [Eq|Nq].
  2: { exists ps, l. split; [done|]. split; [done|]. split; [done|]. right. split; [|done].
       intros r Hr Hb. destruct (Hfound r Hr Hb) as [Hr' _]. congruence. }
  destruct (delete_at (ranges ps) lo (rangeCount ps) ltac:(lia)) as (rs' & Hm & Hlr & Htk). rewrite Hm. cbn [mbind option_bind].
  set (A := take lo (ranges ps)) in *. set (B := take (rangeCount ps - S lo) (drop (S lo) (ranges ps))) in *.
  assert (l = A ++ q :: B) as El.
  { rewrite <- Hl, (take_split _ lo) by lia. fold A. f_equal. rewrite (drop_S _ _ _ Hq).
    replace (rangeCount ps - lo)%nat with (S (rangeCount ps - S lo)) by lia. done. }
  eexists _, (A ++ B). split; [done|]. split; [|split; [done|left]].
  - split; [unfold rangeCap; cbn [rangeCount ranges]; lia|]. split; [exact Htk|]. rewrite El in Hs. apply sorted_split in Hs as (HA & (Hq1 & HqB & HB) & HAB).
    apply sorted_app; [done|done|]. intros r r' Hr Hr'. apply HAB; [done|by right].
  - exists q. split; [done|]. split; [|done]. by rewrite El, Permutation_middle.
Qed.

(** The membership test. *)
Lemma includes_spec ps l addr : index_holds ps l ->
  exists b, pageSpaceIncludes ps addr = Some b /\ (b = true <-> exists r, r ∈ l /\ rbase r <= addr < rend r).
Proof.
  intros (Hc & Hl & Hs). unfold pageSpaceIncludes, rangeCap in *.
  destruct (range_search_spec (ranges ps) (rangeCount ps) (fun r => rbase r <=? addr)) as (lo & Hlo & Hle & Hbelow & Habove);
    [lia|rewrite Hl; by apply prefix_le|]. rewrite Hlo. cbn [mbind option_bind].
  assert (forall i r, (i < rangeCount ps)%nat -> ranges ps !! i = Some r -> l !! i = Some r) as Htk by (intros; rewrite <- Hl; by rewrite lookup_take_lt).
  assert (forall r, r ∈ l -> rbase r <= addr -> exists i, (i < lo)%nat /\ ranges ps !! i = Some r) as Hin.
  { intros r Hr Hb. rewrite <- Hl in Hr. apply list_elem_of_lookup in Hr as [i Hi]. pose proof (lookup_lt_Some _ _ _ Hi) as Hil.
    rewrite length_take in Hil. rewrite lookup_take_lt in Hi by lia. exists i. split; [|done].
    destruct (Nat.lt_ge_cases i lo); [done|]. pose proof (Habove i r ltac:(lia) Hi) as H1%Z.leb_gt. lia. }
  destruct (Nat.eqb_spec lo 0) as [->|Hne].
  { exists false. split; [done|]. split; [done|]. intros (r & Hr & Hb). destruct (Hin r Hr ltac:(lia)) as (i & Hi & _). lia. }
  destruct (lookup_Some_lt (ranges ps) (lo - 1)) as [q Hq]; [lia|]. rewrite Hq. cbn [mbind option_bind]. eexists; split; [done|].
  rewrite Z.ltb_lt. pose proof (Hbelow (lo - 1)%nat q ltac:(lia) Hq) as Hqb%Z.leb_le. split.
  - intros Hlt. exists q. split; [|lia]. apply (list_elem_of_lookup_2 l (lo - 1)). apply Htk; [lia|done].
  - intros (r & Hr & Hb). destruct (Hin r Hr ltac:(lia)) as (i & Hi & Hri). destruct (decide (i = lo - 1)%nat) as [->|Hn]; [rewrite Hq in Hri; injection Hri as ->; lia|].
    pose proof (sorted_lookup l i (lo - 1) r q Hs ltac:(by apply Htk; [lia|]) ltac:(by apply Htk; [lia|]) ltac:(lia)). lia.
Qed.

Lemma find_page_spec l addr :
  match find_page l addr with
  | Some page => page ∈ l /\ heapPageIncludes page addr = true
  | None => forall page, page ∈ l -> heapPageIncludes page addr = false
  end.
Proof.
  induction l as [|p l IH]; cbn [find_page]; [intros page Hp; by apply not_elem_of_nil in Hp|]. fold (heapPageIncludes p addr).
  destruct (heapPageIncludes p addr) eqn:E; [split; [left|done]|]. destruct (find_page l addr).
  - destruct IH as [H1 H2]. split; [by right|done].
  - intros page Hp. apply elem_of_cons in Hp as [->|Hp]; [done|by apply IH].
Qed.

Lemma heapPageIncludes_iff page addr : heapPageIncludes page addr = true <-> rbase (page_range page) <= addr < rend (page_range page).
Proof. unfold heapPageIncludes. rewrite andb_true_iff, Z.leb_le, Z.ltb_lt. done. Qed.

(** The index describes the pages. *)
Definition index_ok (ps : PageSpace) : Prop :=
  exists l, index_holds ps l /\ l ≡ₚ page_range <$> pages ps.

Lemma includes_find ps addr : index_ok ps ->
  pageSpaceIncludes ps addr = Some (match pageSpaceFindPage ps addr with Some _ => true | None => false end).
Proof.
  intros (l & Hh & Hp). destruct (includes_spec ps l addr Hh) as (b & -> & Hb). f_equal.
  pose proof (find_page_spec (pages ps) addr) as Hf. unfold pageSpaceFindPage. destruct (find_page (pages ps) addr) as [page|].
  - destruct Hf as [Hin Hinc]. apply Hb. exists (page_range page). rewrite Hp. split; [by apply list_elem_of_fmap_2|by apply heapPageIncludes_iff].
  - destruct b; [|done]. destruct (proj1 Hb eq_refl) as (r & Hr & Hbr). rewrite Hp in Hr. apply list_elem_of_fmap in Hr as (page & -> & Hin).
    apply heapPageIncludes_iff in Hbr. by rewrite (Hf page Hin) in Hbr.
Qed.

(** ** A fresh page *)

(** The layout [mapHeapPage] gives a page of [N] bytes. *)
Definition page_ok (page : HeapPage) : Prop :=
  0 < pg_addr page /\ pg_addr page mod 16 = 0 /\ pg_size page mod 16 = 0 /\ 4096 <= pg_size page < 2 ^ 54 /\
  pg_addr page + pg_size page < 2 ^ 63 /\ body page = pg_addr page + 40 /\ bodySize page = pg_size page - 48.

Lemma mapHeapPage_spec k p size executable :
  12 <= k < 54 -> 0 < p -> p mod 2 ^ k = 0 -> 0 < size <= 2 ^ 53 -> p + size + 2 ^ k < 2 ^ 63 ->
  exists page, mapHeapPage (2 ^ k) (Some p) size executable = Some page /\ page_ok page /\
    pg_addr page = p /\ size <= pg_size page < size + 2 ^ k /\ isExecutable page = executable.
Proof.
  intros Hk Hp Hpm Hs Hlt. assert (2 ^ k = 16 * 2 ^ (k - 4)) as H16 by (change 16 with (2 ^ 4); rewrite <- Z.pow_add_r by lia; f_equal; lia).
  assert (2 ^ 8 <= 2 ^ (k - 4)) by (apply Z.pow_le_mono_r; lia). assert (2 ^ k <= 2 ^ 53) by (apply Z.pow_le_mono_r; lia).
  unfold mapHeapPage. rewrite align_pow2 by lia. cbn [mbind option_bind]. eexists; split; [done|].
  pose proof (Z.div_mod (size + 2 ^ k - 1) (2 ^ k) ltac:(lia)). pose proof (Z.mod_pos_bound (size + 2 ^ k - 1) (2 ^ k) ltac:(lia)).
  set (q := (size + 2 ^ k - 1) / 2 ^ k) in *. assert (1 <= q) by nia. set (N := q * 2 ^ k) in *. assert (size <= N < size + 2 ^ k) as HN by (unfold N; lia).
  assert (2 ^ k <= N) as HNk by (unfold N; nia). assert (N mod 16 = 0) as HN16.
  { unfold N. rewrite H16. replace (q * (16 * 2 ^ (k - 4))) with (q * 2 ^ (k - 4) * 16) by ring. by apply Z.mod_mul. }
  assert (p mod 16 = 0) as Hp16.
  { pose proof (Z.div_mod p (2 ^ k) ltac:(lia)) as Hd. rewrite Hpm, H16 in Hd. rewrite Hd.
    replace (16 * 2 ^ (k - 4) * (p / (16 * 2 ^ (k - 4))) + 0) with (2 ^ (k - 4) * (p / (16 * 2 ^ (k - 4))) * 16) by ring. by apply Z.mod_mul. }
  unfold page_ok, HEAP_PAGE_HEADER, HEAP_OBJECT_ALIGN. cbn [pg_addr pg_size body bodySize isExecutable]. rewrite (u64_id (N - 40)) by lia.
  replace ((N - 40) mod 16) with 8 by (rewrite <- Zminus_mod_idemp_l, HN16; done).
  split_and!; try done; try lia.
Qed.

(** The first free chunk of a page runs from the aligned body to the very end
    of the mapping. *)
Lemma page_chunk page : page_ok page ->
  body_ok (body page) (bodySize page) /\ body_chunk (body page) (bodySize page) = (pg_addr page + 48, pg_size page - 48).
Proof.
  intros (Hp & Hpm & Hsm & Hs & Hlt & -> & ->). split; [unfold body_ok; lia|]. unfold body_chunk.
  pose proof (Z.div_mod (pg_addr page) 16 ltac:(lia)) as H1. rewrite Hpm in H1. pose proof (Z.div_mod (pg_size page) 16 ltac:(lia)) as H2. rewrite Hsm in H2.
  set (a := pg_addr page / 16) in *. set (b := pg_size page / 16) in *. rewrite H1, H2.
  replace (16 * a + 0 + 40 + 15) with (7 + (a + 3) * 16) by ring. replace (16 * b + 0 - 48 + 7) with (7 + (b - 3) * 16) by ring.
  rewrite !Z.div_add by lia. change (7 / 16) with 0. f_equal; lia.
Qed.

(** Every free chunk lies in the mapping of one of the pages. *)
Definition covered (ps : PageSpace) (x : Z * Z) : Prop :=
  exists page, page ∈ pages ps /\ pg_addr page + 48 <= x.1 /\ x.1 + x.2 <= pg_addr page + pg_size page.

Definition space_ok (mem : gmap Z FreeSpace) (fl : FreeList) (ps : PageSpace) (bins : list (list (Z * Z))) : Prop :=
  free_inv mem fl bins /\ index_ok ps /\ Forall page_ok (pages ps) /\ Forall (covered ps) (concat bins).

Lemma covered_includes ps x : index_ok ps -> Forall page_ok (pages ps) -> covered ps x -> 16 <= x.2 -> pageSpaceIncludes ps x.1 = Some true.
Proof.
  intros Hix Hpg (page & Hin & Hlo & Hhi) Hs. rewrite includes_find by done. f_equal. pose proof (find_page_spec (pages ps) x.1) as Hf.
  unfold pageSpaceFindPage. destruct (find_page (pages ps) x.1); [done|]. specialize (Hf page Hin).
  rewrite Forall_forall in Hpg. destruct (Hpg page Hin) as (_ & _ & _ & _ & _ & Hb & Hbs).
  assert (heapPageIncludes page x.1 = true); [|congruence]. apply heapPageIncludes_iff. cbn [rbase rend page_range]. lia.
Qed.

Lemma init_space k p mem size executable :
  12 <= k < 54 -> 0 < p -> p mod 2 ^ k = 0 -> 0 < size <= 2 ^ 53 -> p + size + 2 ^ k < 2 ^ 63 ->
  exists mem' fl ps bins, initPageSpace (2 ^ k) (Some p) mem size executable = Some (mem', fl, ps) /\ space_ok mem' fl ps bins /\
    exists page, pages ps = [page] /\ pg_addr page = p /\ concat bins = [(p + 48, pg_size page - 48)] /\ totalBytes ps = bodySize page.
Proof.
  intros Hk Hp Hpm Hs Hlt. destruct (mapHeapPage_spec k p size executable Hk Hp Hpm Hs Hlt) as (page & Hmap & Hok & Hpa & Hsz & _).
  unfold initPageSpace. rewrite Hmap. cbn [mbind option_bind]. destruct (page_chunk page Hok) as (Hbo & Hbc).
  destruct (init_spec mem _ _ Hbo) as (mem' & fl & bins & Hinit & Hi & Hcb & _). rewrite Hinit. cbn [mbind option_bind].
  pose proof Hok as (_ & _ & _ & Hsz2 & _ & _ & Hbs).
  destruct (index_add {| pages := [page]; ranges := []; rangeCount := 0; totalBytes := 0 |} [] page) as (ps & l & Hadd & Hh & Hl & Hpg & Htot).
  { split; [done|]. done. }
  { lia. }
  { intros r Hr. by apply not_elem_of_nil in Hr. }
  rewrite Hadd. cbn [mbind option_bind]. exists mem', fl, ps, bins. split; [done|]. rewrite Hbc in Hcb. cbn [pages totalBytes] in *. split.
  - split; [done|]. rewrite Hpg, Hcb. split; [exists l; split; [done|]; by rewrite Hpg|]. split; [by constructor|].
    constructor; [|constructor]. exists page. rewrite Hpg. split; [left|]. cbn [fst snd]. lia.
  - exists page. rewrite Hcb, Htot, Hpa. split; [done|]. split; [done|]. split; [done|]. rewrite u64_id; lia.
Qed.

Lemma allocate_in_space mem fl ps bins size : space_ok mem fl ps bins -> request_ok size ->
  exists mem' fl' r, pageSpaceTryAllocate mem fl ps size = Some (mem', fl', r) /\
    (r = 0 /\ (forall x, x ∈ concat bins -> x.2 < size) \/
     0 < r /\ (exists bins', space_ok mem' fl' ps bins' /\ Forall (disj (r, size)) (concat bins')) /\
       (exists page, page ∈ pages ps /\ pg_addr page + 48 <= r /\ r + size <= pg_addr page + pg_size page)).
Proof.
  intros (Hi & Hix & Hpg & Hcov) Hreq. unfold pageSpaceTryAllocate. pose proof Hreq as [Hsz Hal]. rewrite Hal. cbn [Z.eqb ASSERT mbind option_bind].
  destruct (allocate_spec mem fl bins size Hi Hreq) as [[Hsm Ha]|(mem' & fl' & r & Ha & bins' & s & rest & Hr & Hle & Hp & Hi' & Hp' & _)];
    rewrite Ha; cbn [mbind option_bind].
  { cbn [Z.eqb mbind option_bind ASSERT]. exists mem, fl, 0. split; [done|]. by left. }
  destruct (Z.eqb_spec r 0); [lia|]. rewrite Hp in Hcov. apply Forall_cons_1 in Hcov as [Hcr Hcrest].
  pose proof (covered_includes ps (r, s) Hix Hpg Hcr ltac:(cbn [snd]; lia)) as Hinc. cbn [fst] in Hinc. rewrite Hinc. cbn [mbind option_bind ASSERT]. exists mem', fl', r. split; [done|]. right. split; [done|].
  pose proof (inv_apart _ _ _ Hi) as Hap. rewrite Hp in Hap. destruct Hap as [Hdr _].
  destruct Hcr as (page & Hin & Hlo & Hhi). cbn [fst snd] in Hlo, Hhi. split; [|exists page; split; [done|lia]].
  exists bins'. split.
  - split; [done|]. split; [done|]. split; [done|]. rewrite Hp'. apply Forall_app. split; [|done]. unfold remainder.
    destruct (Z.eqb_spec s size); [constructor|]. constructor; [|constructor]. exists page. split; [done|]. cbn [fst snd]. lia.
  - rewrite Hp'. apply Forall_app. split.
    + unfold remainder. destruct (Z.eqb_spec s size); [constructor|]. constructor; [|constructor]. left. simpl. lia.
    + eapply Forall_impl; [exact Hdr|]. intros [b t] Hd. unfold disj in *. simpl in *. lia.
Qed.

(** ** Walking a space *)

Section WalkSpec.
Variable tags_at free_size computeNativeCodeSize computeRawObjectSize : Z -> Z.
#[local] Abbreviation csize := (cell_size tags_at free_size computeNativeCodeSize computeRawObjectSize).

(** The cells of a page from address [p] on: back to back until the end. *)
Fixpoint tiled (page : HeapPage) (p : Z) (cells : list Z) : Prop :=
  match cells with
  | [] => body page + bodySize page <= p
  | c :: t => c = p /\ c < body page + bodySize page /\ tiled page (c + align (csize page c) HEAP_OBJECT_ALIGN) t
  end.

Definition page_tiled (page : HeapPage) (cells : list Z) : Prop :=
  cells <> [] /\ tiled page (align (body page) HEAP_OBJECT_ALIGN) cells.

Lemma walk_page cells : forall page rest p tl fuel, tiled page p cells -> Forall2 page_tiled rest tl ->
  (length cells + length (concat tl) < fuel)%nat ->
  walk tags_at free_size computeNativeCodeSize computeRawObjectSize fuel (page :: rest, p) = Some (cells ++ concat tl).
Proof.
  intros page rest p tl fuel Hc Ht. revert cells page p fuel Hc.
  induction Ht as [|next cells' rest tl (Hne & Htn) Ht IH]; intros cells;
    (induction cells as [|c cells IHc]; intros page p fuel Hc Hf; (destruct fuel as [|fuel]; [simpl in Hf; lia|]); cbn [walk]).
  - cbn [tiled] in Hc. unfold pageSpaceIteratorNext. cbn [head mbind option_bind tail]. destruct (Z.leb_spec (body page + bodySize page) p); [done|lia].
  - destruct Hc as (-> & Hlt & Hc). unfold pageSpaceIteratorNext. cbn [head mbind option_bind]. destruct (Z.leb_spec (body page + bodySize page) p); [lia|].
    cbn [mbind option_bind]. rewrite (IHc page _ fuel Hc) by (simpl in *; lia). done.
  - cbn [tiled] in Hc. unfold pageSpaceIteratorNext. cbn [head mbind option_bind tail]. destruct (Z.leb_spec (body page + bodySize page) p); [|lia].
    destruct cells' as [|c cells']; [done|]. destruct Htn as (-> & Hlt & Htn). cbn [mbind option_bind].
    rewrite (IH cells' next _ fuel Htn) by (cbn [concat length] in Hf; rewrite length_app in Hf; simpl in *; lia). done.
  - destruct Hc as (-> & Hlt & Hc). unfold pageSpaceIteratorNext. cbn [head mbind option_bind]. destruct (Z.leb_spec (body page + bodySize page) p); [lia|].
    cbn [mbind option_bind]. rewrite (IHc page _ fuel Hc) by (cbn [length] in *; lia). done.
Qed.

Lemma walk_space l tl fuel : l <> [] -> Forall2 page_tiled l tl -> (length (concat tl) < fuel)%nat ->
  exists it, pageSpaceIteratorInit l = Some it /\
    walk tags_at free_size computeNativeCodeSize computeRawObjectSize fuel it = Some (concat tl).
Proof.
  intros Hne Ht Hf. destruct Ht as [|page cells l tl (_ & Htp) Ht]; [done|]. eexists; split; [done|]. cbn [concat] in *. rewrite length_app in Hf.
  apply walk_page; done.
Qed.
End WalkSpec.

(** ** Properties *)

Definition with_pages (ps : PageSpace) (l : list HeapPage) : PageSpace :=
  {| pages := l; ranges := ranges ps; rangeCount := rangeCount ps; totalBytes := totalBytes ps |}.

(** C26. The binary search over the sorted range index answers exactly what
    the linear walk over the page list does, for every address (never
    dereferenced), whenever the index describes the pages. *)
Theorem pageSpaceIncludes_agrees ps addr :
  index_ok ps -> pageSpaceIncludes ps addr = Some (match pageSpaceFindPage ps addr with Some _ => true | None => false end).
Proof. apply includes_find. Qed.

Definition demo_page : HeapPage := {| pg_addr := 4096; isExecutable := false; pg_size := 4096; bodySize := 4048; body := 4136 |}.
Definition demo_space : PageSpace :=
  {| pages := [demo_page]; ranges := [{| rbase := 4136; rend := 8184 |}; no_range]; rangeCount := 1; totalBytes := 4048 |}.

Lemma demo_space_ok : index_ok demo_space.
Proof.
  exists [{| rbase := 4136; rend := 8184 |}]. split; [|done]. split; [unfold rangeCap; cbn; lia|]. split; [done|]. simpl. split; [lia|]. split; [constructor|done].
Qed.

Lemma pageSpaceIncludes_agrees_witness : pageSpaceIncludes demo_space 5000 = Some true /\ pageSpaceIncludes demo_space 8184 = Some false.
Proof.
  split; [rewrite (pageSpaceIncludes_agrees demo_space 5000 demo_space_ok)|rewrite (pageSpaceIncludes_agrees demo_space 8184 demo_space_ok)]; reflexivity.
Defined.

(** Linking a page that overlaps no other and adding it to the index,
    growing the array when it is full, keeps the index sorted and describing
    exactly the pages; removing it from the index again (before it is
    unlinked) restores an index of the other pages, the byte total included. *)
Theorem pageSpace_index_add_remove ps page :
  index_ok ps -> 0 < bodySize page -> 0 <= totalBytes ps -> totalBytes ps + bodySize page < 2 ^ 64 ->
  (forall q, q ∈ pages ps -> body q + bodySize q <= body page \/ body page + bodySize page <= body q) ->
  Forall (fun q => 0 < bodySize q) (pages ps) ->
  exists ps' ps'', pageSpaceIndexAdd (with_pages ps (page :: pages ps)) page = Some ps' /\ index_ok ps' /\
    totalBytes ps' = totalBytes ps + bodySize page /\
    pageSpaceIndexRemove ps' page = Some ps'' /\ index_ok (with_pages ps'' (pages ps)) /\ totalBytes ps'' = totalBytes ps.
Proof.
  intros (l & Hh & Hp) Hbs Ht0 Ht Hd Hpos.
  destruct (index_add (with_pages ps (page :: pages ps)) l page) as (ps' & l' & Ha & Hh' & Hl' & Hpg & Htot); [done|done| |].
  { intros r Hr. rewrite Hp in Hr. apply list_elem_of_fmap in Hr as (q & -> & Hq). apply (Hd q Hq). }
  cbn [with_pages pages totalBytes] in Hpg, Htot. rewrite u64_id in Htot by lia.
  destruct (index_remove ps' l' page Hh') as (ps'' & l'' & Hr & Hh'' & _ & Hcase).
  assert (exists r, rbase r = body page /\ l' ≡ₚ r :: l'' /\ totalBytes ps'' = u64 (totalBytes ps' - bodySize page)) as (r & Hrb & Hrl & Htot').
  { destruct Hcase as [Hc|[Hno _]]; [done|]. exfalso. apply (Hno (page_range page)); [rewrite Hl'; left|done]. }
  exists ps', ps''. split; [done|]. split; [exists l'; split; [done|]; by rewrite Hpg, Hl', Hp|]. split; [done|]. split; [done|]. split.
  - exists l''. split; [done|]. cbn [with_pages pages]. rewrite <- Hp. assert (r = page_range page) as ->.
    { assert (r ∈ page_range page :: l) as Hin by (rewrite <- Hl', Hrl; left). apply elem_of_cons in Hin as [|Hin]; [done|exfalso].
      rewrite Hp in Hin. apply list_elem_of_fmap in Hin as (q & -> & Hq). cbn [page_range rbase] in Hrb.
      rewrite Forall_forall in Hpos. specialize (Hpos q Hq). destruct (Hd q Hq); lia. }
    apply (Permutation_cons_inv (a := page_range page)). by rewrite <- Hrl, Hl'.
  - rewrite Htot', Htot, u64_id by lia. lia.
Qed.

Lemma pageSpace_index_add_remove_witness :
  exists ps' ps'', pageSpaceIndexAdd (with_pages demo_space
      [{| pg_addr := 65536; isExecutable := true; pg_size := 4096; bodySize := 4048; body := 65576 |}; demo_page])
      {| pg_addr := 65536; isExecutable := true; pg_size := 4096; bodySize := 4048; body := 65576 |} = Some ps' /\
    pageSpaceIndexRemove ps' {| pg_addr := 65536; isExecutable := true; pg_size := 4096; bodySize := 4048; body := 65576 |} = Some ps''.
Proof.
  destruct (pageSpace_index_add_remove demo_space {| pg_addr := 65536; isExecutable := true; pg_size := 4096; bodySize := 4048; body := 65576 |})
    as (ps' & ps'' & H1 & _ & _ & H2 & _ & _).
  - exact demo_space_ok.
  - reflexivity.
  - discriminate.
  - reflexivity.
  - intros q Hq. apply list_elem_of_singleton in Hq as ->. left. discriminate.
  - constructor; [reflexivity|constructor].
  - exists ps', ps''. split; [exact H1|exact H2].
Defined.

(** Starting from a fresh space (whose first free chunk runs from the
    aligned body to the very end of the mapping), every allocation passes its
    assertions and answers either [NULL] because no free chunk is large
    enough, or a block that lies inside the mapping of one of the space's
    pages, clear of the page header and of every remaining free chunk. *)
Theorem pageSpace_allocates k p mem0 psize executable size :
  12 <= k < 54 -> 0 < p -> p mod 2 ^ k = 0 -> 0 < psize <= 2 ^ 53 -> p + psize + 2 ^ k < 2 ^ 63 -> request_ok size ->
  exists mem fl ps, initPageSpace (2 ^ k) (Some p) mem0 psize executable = Some (mem, fl, ps) /\
    (exists bins, space_ok mem fl ps bins) /\
    forall mem fl bins, space_ok mem fl ps bins ->
      exists mem' fl' r, pageSpaceTryAllocate mem fl ps size = Some (mem', fl', r) /\
        (r = 0 /\ (forall x, x ∈ concat bins -> x.2 < size) \/
         0 < r /\ (exists bins', space_ok mem' fl' ps bins' /\ Forall (disj (r, size)) (concat bins')) /\
           (exists page, page ∈ pages ps /\ pg_addr page + 48 <= r /\ r + size <= pg_addr page + pg_size page)).
Proof.
  intros Hk Hp Hpm Hs Hlt Hreq. destruct (init_space k p mem0 psize executable Hk Hp Hpm Hs Hlt) as (mem & fl & ps & bins & Hinit & Hok & _).
  exists mem, fl, ps. split; [done|]. split; [by exists bins|]. intros mem' fl' bins' Hok'. by apply allocate_in_space.
Qed.

Lemma pageSpace_allocates_witness :
  exists mem fl ps, initPageSpace (2 ^ 12) (Some 4096) ∅ 4096 false = Some (mem, fl, ps) /\
    exists mem' fl' r, pageSpaceTryAllocate mem fl ps 48 = Some (mem', fl', r).
Proof.
  destruct (pageSpace_allocates 12 4096 ∅ 4096 false 48) as (mem & fl & ps & H1 & (bins & H2) & H3);
    [lia|lia|reflexivity|lia|lia|split; [lia|reflexivity]|].
  destruct (H3 mem fl bins H2) as (mem' & fl' & r & H4 & _). exists mem, fl, ps. split; [exact H1|]. exists mem', fl', r. exact H4.
Defined.

(** The iterator over a space whose pages are filled by cells back to
    back visits every cell of every page exactly once, in address order page
    by page, and then answers [NULL]. *)
Theorem pageSpace_walk_visits_all tags_at free_size native_size raw_size l cells :
  l <> [] -> Forall2 (page_tiled tags_at free_size native_size raw_size) l cells ->
  exists it, pageSpaceIteratorInit l = Some it /\
    walk tags_at free_size native_size raw_size (S (length (concat cells))) it = Some (concat cells).
Proof. intros Hne Ht. apply walk_space; [done|done|lia]. Qed.

Lemma pageSpace_walk_visits_all_witness :
  exists it, pageSpaceIteratorInit [demo_page] = Some it /\
    walk (fun _ => 1) (fun p => if p =? 4144 then 64 else 3984) (fun _ => 0) (fun _ => 0) 3 it = Some [4144; 4208].
Proof.
  apply (pageSpace_walk_visits_all (fun _ => 1) (fun p => if p =? 4144 then 64 else 3984) (fun _ => 0) (fun _ => 0) [demo_page] [[4144; 4208]]).
  - discriminate.
  - constructor; [|constructor]. split; [discriminate|]. repeat split; vm_compute; discriminate || reflexivity.
Defined.
