(* ===== verification/Endian.v ===== *)
(** * Byte order and multi-byte accesses

    The accessors of [src/vm/core/Endian.h].  The host is the target, so a
    word in a byte buffer is in native order; [Target] says which order that
    is, and every definition and theorem that stores or loads a word is
    stated for both. *)
From S2P Require Import Prelude.
From stdpp Require Import list_numbers.
#[local] Open Scope Z_scope.

(** [TARGET_BIG_ENDIAN] of the header. *)
Class Target := TARGET_BIG_ENDIAN : bool.

Definition byte (x : Z) : Prop := 0 <= x < 2 ^ 8.

Section Accessors.
Context `{Target}.

(** The [n] bytes of the object representation of [v], as [memcpy] from the
    variable copies them. *)
Definition store (n : nat) (v : Z) : list Z :=
  let le := Z_to_little_endian (Z.of_nat n) 8 v in
  if TARGET_BIG_ENDIAN then reverse le else le.

(** The unsigned value of the bytes [l], as [memcpy] to a variable reads it. *)
Definition load (l : list Z) : Z :=
  little_endian_to_Z 8 (if TARGET_BIG_ENDIAN then reverse l else l).

Definition storeU16 (v : Z) : list Z := store 2 v.
Definition storeU32 (v : Z) : list Z := store 4 v.
Definition storeI32 (v : Z) : list Z := store 4 v.
Definition storeU64 (v : Z) : list Z := store 8 v.

Definition loadU16 (l : list Z) : Z := load l.
Definition loadU32 (l : list Z) : Z := load l.
Definition loadI32 (l : list Z) : Z := i32 (load l).
Definition loadU64 (l : list Z) : Z := load l.

Lemma length_store n v : length (store n v) = n.
Proof.
  assert (length (Z_to_little_endian (Z.of_nat n) 8 v) = n) as Hl.
  { apply Nat2Z.inj. rewrite length_Z_to_little_endian; lia. }
  unfold store. destruct TARGET_BIG_ENDIAN; by rewrite ?length_reverse.
Qed.

Lemma length_storeU16 v : length (storeU16 v) = 2%nat.
Proof. apply length_store. Qed.
Lemma length_storeU32 v : length (storeU32 v) = 4%nat.
Proof. apply length_store. Qed.
Lemma length_storeI32 v : length (storeI32 v) = 4%nat.
Proof. apply length_store. Qed.
Lemma length_storeU64 v : length (storeU64 v) = 8%nat.
Proof. apply length_store. Qed.

Lemma store_byte n v : Forall byte (store n v).
Proof.
  assert (Forall byte (Z_to_little_endian (Z.of_nat n) 8 v)) by (apply Z_to_little_endian_bound; lia).
  unfold store. destruct TARGET_BIG_ENDIAN; by rewrite ?Forall_reverse.
Qed.

Lemma load_store n v : load (store n v) = v mod 2 ^ (8 * Z.of_nat n).
Proof.
  unfold load, store. replace (8 * Z.of_nat n) with (Z.of_nat n * 8) by lia.
  destruct TARGET_BIG_ENDIAN; rewrite ?reverse_involutive;
    apply little_endian_to_Z_to_little_endian; lia.
Qed.

Lemma loadU16_store v : 0 <= v < 2 ^ 16 -> loadU16 (storeU16 v) = v.
Proof. intros. unfold loadU16, storeU16. rewrite load_store. apply Z.mod_small. lia. Qed.

Lemma loadU64_store v : 0 <= v < 2 ^ 64 -> loadU64 (storeU64 v) = v.
Proof. intros. unfold loadU64, storeU64. rewrite load_store. apply Z.mod_small. lia. Qed.

Lemma loadI32_store v : - 2 ^ 31 <= v < 2 ^ 31 -> loadI32 (storeI32 v) = v.
Proof.
  intros. unfold loadI32, storeI32. rewrite load_store. unfold i32. change (8 * Z.of_nat 4) with 32.
  rewrite Zplus_mod_idemp_l, Z.mod_small; lia.
Qed.

(** Only the low 32 bits of a value matter to a 32-bit store. *)
Lemma storeU32_i32 v : storeU32 (u32 v) = storeI32 v.
Proof.
  unfold storeU32, storeI32, store.
  assert (forall x, Z_to_little_endian (Z.of_nat 4) 8 (u32 x) = Z_to_little_endian (Z.of_nat 4) 8 x) as Hx.
  { intros x. rewrite <- (Z_to_little_endian_to_Z (Z.of_nat 4) 8 (Z_to_little_endian (Z.of_nat 4) 8 x)).
    - rewrite little_endian_to_Z_to_little_endian by lia. done.
    - rewrite length_Z_to_little_endian; lia.
    - lia.
    - apply Z_to_little_endian_bound; lia. }
  by rewrite Hx.
Qed.
End Accessors.

#[export] Hint Rewrite @length_storeU16 @length_storeU32 @length_storeI32 @length_storeU64 : cint.

Definition target_le : Target := false.
Definition target_be : Target := true.
