(* ===== verification/Assembler.v ===== *)
(** * The assembler buffer

    [src/vm/jit/Assembler.h]: a growable byte buffer with one-reference
    labels, address fixups and three growable tables of code sites.  The
    bytecode compiler, the optimizer and both native backends emit through
    it.

    A pointer into the malloc'ed block is its offset from the block's start.
    The block itself is a [list (option Z)]: a byte that was allocated and
    never written is [None].  Running out of memory calls FAIL() and is not
    modelled; a write outside the block, and a failed ASSERT, is [None] of
    the operation. *)
From S2P Require Import Prelude Endian.

Definition ASM_BUFFER_GAP : nat := 64.
Definition ASM_FIXUP_SIZE_CODE_POINTER : Z := 20.
Definition ASM_POINTERS_OFFSETS_INITIAL : nat := 64.
Definition ASM_IC_SITES_INITIAL : nat := 32.
Definition ASM_SPEC_SITES_INITIAL : nat := 16.

Record AssemblerLabel := mkLabel { isBound : bool; isResolved : bool; l_offset : Z; l_size : Z }.

Inductive AssemblerFixupType := ASM_FIXUP_IP.

Record AssemblerFixup := mkFixup { f_offset : Z; f_size : Z; f_type : AssemblerFixupType; f_value : Z }.

Record SpecSite := mkSpecSite { patchOffset : Z; auxOffset : Z; kind : Z }.

(** A heap array grown by doubling: the elements in use and the capacity. *)
Record Table (A : Type) := mkTable { elems : list A; capacity : nat }.
Arguments mkTable {A}.
Arguments elems {A}.
Arguments capacity {A}.

Record AssemblerBuffer := mkBuffer {
  block : list (option Z);
  bend : nat;
  p : nat;
  instOffset : Z;
  fixups : list AssemblerFixup;
  pointersOffsets : Table Z;
  icSites : Table Z;
  specSites : Table SpecSite;
}.

Definition set_block (b : AssemblerBuffer) (x : list (option Z)) : AssemblerBuffer :=
  mkBuffer x (bend b) (p b) (instOffset b) (fixups b) (pointersOffsets b) (icSites b) (specSites b).
Definition set_p (b : AssemblerBuffer) (x : nat) : AssemblerBuffer :=
  mkBuffer (block b) (bend b) x (instOffset b) (fixups b) (pointersOffsets b) (icSites b) (specSites b).
Definition next_inst (b : AssemblerBuffer) : AssemblerBuffer :=
  mkBuffer (block b) (bend b) (p b) (instOffset b + 1) (fixups b) (pointersOffsets b) (icSites b) (specSites b).
Definition set_fixups (b : AssemblerBuffer) (x : list AssemblerFixup) : AssemblerBuffer :=
  mkBuffer (block b) (bend b) (p b) (instOffset b) x (pointersOffsets b) (icSites b) (specSites b).

(** ** The in-flight list

    [CurrentThread.codegenSites]: the buffers under construction, by the
    address of their node, the most recent first. *)

Definition asmInitBuffer (node size : nat) (codegenSites : list nat) : AssemblerBuffer * list nat :=
  (mkBuffer (replicate (size + ASM_BUFFER_GAP) None) size 0 0 []
     (mkTable [] ASM_POINTERS_OFFSETS_INITIAL) (mkTable [] ASM_IC_SITES_INITIAL)
     (mkTable [] ASM_SPEC_SITES_INITIAL),
   node :: codegenSites).

(** The list after [asmFreeBuffer] of the buffer whose node is at [node]. *)
Fixpoint asmFreeBuffer (node : nat) (codegenSites : list nat) : list nat :=
  match codegenSites with
  | [] => []
  | link :: next => if decide (link = node) then next else link :: asmFreeBuffer node next
  end.

(** ** Emission *)

Definition asmEnsureCapacity (b : AssemblerBuffer) : AssemblerBuffer :=
  if (bend b <=? p b)%nat then
    let size := ((bend b + ASM_BUFFER_GAP) * 2)%nat in
    mkBuffer (take size (block b) ++ replicate (size - length (block b)) None) (size - ASM_BUFFER_GAP)
      (p b) (instOffset b) (fixups b) (pointersOffsets b) (icSites b) (specSites b)
  else b.

(** Storing the bytes [l] at offset [off]. *)
Definition write (b : AssemblerBuffer) (off : nat) (l : list Z) : option AssemblerBuffer :=
  set_block b <$> blit (block b) off (Some <$> l).

(** Storing at [buffer->p] and advancing it. *)
Definition emit (b : AssemblerBuffer) (l : list Z) : option AssemblerBuffer :=
  b' ← write b (p b) l; Some (set_p b' (p b + length l)).

Definition asmOffset (b : AssemblerBuffer) : Z := Z.of_nat (p b).

(** The bytes [asmCopyBuffer] copies; [None] when one of them was never
    written. *)
Definition asmCopyBuffer (b : AssemblerBuffer) (size : nat) : option (list Z) :=
  l ← slice (block b) 0 size; mapM id l.

Section Emission.
Context `{Target}.

Definition asmEmitInt8 (b : AssemblerBuffer) (v : Z) : option AssemblerBuffer := emit b [u8 v].
Definition asmEmitUint8 (b : AssemblerBuffer) (v : Z) : option AssemblerBuffer := emit b [u8 v].
Definition asmEmitUint16 (b : AssemblerBuffer) (v : Z) : option AssemblerBuffer := emit b (storeU16 v).
Definition asmEmitInt32 (b : AssemblerBuffer) (v : Z) : option AssemblerBuffer := emit b (storeI32 v).
Definition asmEmitUint64 (b : AssemblerBuffer) (v : Z) : option AssemblerBuffer := emit b (storeU64 v).

(** ** Labels *)

Definition asmInitLabel (label : AssemblerLabel) : AssemblerLabel :=
  mkLabel false false (l_offset label) (l_size label).

Definition asmEmitLabel32 (b : AssemblerBuffer) (label : AssemblerLabel) : option (AssemblerBuffer * AssemblerLabel) :=
  _ ← ASSERT (negb (isResolved label));
  let b := asmEnsureCapacity b in
  if isBound label then
    b' ← asmEmitInt32 b (l_offset label - asmOffset b - 4);
    Some (b', mkLabel true true (l_offset label) (l_size label))
  else
    b' ← asmEmitInt32 b 0;
    Some (b', mkLabel false true (asmOffset b) 4).

Definition asmLabelBind (b : AssemblerBuffer) (label : AssemblerLabel) (offset : Z) : option (AssemblerBuffer * AssemblerLabel) :=
  _ ← ASSERT (negb (isBound label));
  if isResolved label then
    let displacement := offset - l_offset label - l_size label in
    l ← match l_size label with
        | 1 => Some [u8 displacement]
        | 4 => Some (storeU32 (u32 displacement))
        | 8 => Some (storeU64 (u64 displacement))
        | _ => None
        end;
    b' ← write b (Z.to_nat (l_offset label)) l;
    Some (b', mkLabel true true (l_offset label) (l_size label))
  else Some (b, mkLabel true false offset (l_size label)).
End Emission.

(** ** Baked pointers

    What a backend promises of the code it emits for a 64-bit immediate
    ([src/vm/jit/TargetCodePatch.h]): a baked pointer can be rewritten in
    place and read back, without moving a byte. *)
Class TargetCodePatch := {
  targetReadCodePointer : list (option Z) -> nat -> option Z;
  targetWriteCodePointer : list (option Z) -> nat -> Z -> option (list (option Z));
  targetWrite_length : forall m site v m', targetWriteCodePointer m site v = Some m' -> length m' = length m;
  targetRead_write : forall m site v m', 0 <= v < 2 ^ 64 ->
    targetWriteCodePointer m site v = Some m' -> targetReadCodePointer m' site = Some v;
}.

Section Fixups.
Context `{Target} `{TargetCodePatch}.

(** Answers the buffer and the index of the fixup; [value] is what its
    callers store in the fixup through the returned pointer. *)
Definition asmEmitFixup (b : AssemblerBuffer) (type : AssemblerFixupType) (size offset value : Z) : option (AssemblerBuffer * nat) :=
  _ ← ASSERT (length (fixups b) <? 8)%nat;
  Some (set_fixups b (fixups b ++ [mkFixup offset size type value]), length (fixups b)).

Definition asmBindFixup (b : AssemblerBuffer) (fixup : AssemblerFixup) (value : Z) : option AssemblerBuffer :=
  let off := Z.to_nat (f_offset fixup) in
  match f_size fixup with
  | 1 =>
      _ ← ASSERT ((- 2 ^ 7 <=? value) && (value <=? 2 ^ 7 - 1));
      old ← block b !! off; v ← old;
      write b off [u8 (v + value)]
  | 4 =>
      _ ← ASSERT ((- 2 ^ 31 <=? value) && (value <=? 2 ^ 31 - 1));
      write b off (storeI32 value)
  | 8 => write b off (storeU64 (u64 value))
  | 20 => set_block b <$> targetWriteCodePointer (block b) off (u64 value)
  | _ => None
  end.

(** [base] is the address the code will run at. *)
Definition asmBindFixups (b : AssemblerBuffer) (base : Z) : option AssemblerBuffer :=
  for_up (length (fixups b)) 0 (fun i b =>
    fixup ← fixups b !! i;
    match f_type fixup with
    | ASM_FIXUP_IP => asmBindFixup b fixup (i64 (base + f_offset fixup + f_value fixup))
    end) b.
End Fixups.

(** ** Site tables *)

Section Tables.
Context {A : Type}.

(** [array[size++] = x] after the doubling. *)
Definition table_add (t : Table A) (x : A) : option (Table A) :=
  let cap := if (length (elems t) =? capacity t)%nat then (capacity t * 2)%nat else capacity t in
  _ ← ASSERT (length (elems t) <? cap)%nat;
  Some (mkTable (elems t ++ [x]) cap).

Definition table_wf (t : Table A) : Prop := (length (elems t) <= capacity t /\ 0 < capacity t)%nat.
End Tables.

Definition fits_u32 (offset : Z) : bool := (0 <=? offset) && (offset <=? 2 ^ 32 - 1).

Definition asmAddPointerOffset (b : AssemblerBuffer) (offset : Z) : option AssemblerBuffer :=
  _ ← ASSERT (fits_u32 offset);
  t ← table_add (pointersOffsets b) (u32 offset);
  Some (mkBuffer (block b) (bend b) (p b) (instOffset b) (fixups b) t (icSites b) (specSites b)).

Definition asmCopyPointersOffsets (b : AssemblerBuffer) : list Z := elems (pointersOffsets b).

Definition asmAddIcSite (b : AssemblerBuffer) (offset : Z) : option AssemblerBuffer :=
  _ ← ASSERT (fits_u32 offset);
  t ← table_add (icSites b) (u32 offset);
  Some (mkBuffer (block b) (bend b) (p b) (instOffset b) (fixups b) (pointersOffsets b) t (specSites b)).

Definition asmAddSpecSite (b : AssemblerBuffer) (k patchOff auxOff : Z) : option AssemblerBuffer :=
  _ ← ASSERT (fits_u32 patchOff);
  _ ← ASSERT (fits_u32 auxOff);
  t ← table_add (specSites b) (mkSpecSite (u32 patchOff) (u32 auxOff) k);
  Some (mkBuffer (block b) (bend b) (p b) (instOffset b) (fixups b) (pointersOffsets b) (icSites b) t).

(** ** The emitted code

    [holds b code]: the block has its gap, and the bytes emitted so far are
    [code]. *)
Record holds (b : AssemblerBuffer) (code : list Z) : Prop := {
  holds_gap : length (block b) = (bend b + ASM_BUFFER_GAP)%nat;
  holds_p : p b = length code;
  holds_code : take (length code) (block b) = Some <$> code;
}.

(** The fields emission leaves alone. *)
Definition same_sites (b b' : AssemblerBuffer) : Prop :=
  fixups b' = fixups b /\ pointersOffsets b' = pointersOffsets b /\ icSites b' = icSites b /\ specSites b' = specSites b.

Definition room (b : AssemblerBuffer) (n : nat) : Prop := (p b + n <= length (block b))%nat.

Lemma same_sites_refl b : same_sites b b.
Proof. done. Qed.

Lemma same_sites_trans a b c : same_sites a b -> same_sites b c -> same_sites a c.
Proof. unfold same_sites. intuition congruence. Qed.

#[export] Instance same_sites_preorder : PreOrder same_sites.
Proof. split; [exact same_sites_refl|exact same_sites_trans]. Qed.

Lemma holds_length b code : holds b code -> (length code <= length (block b))%nat.
Proof.
  intros [_ _ Hc]. apply (f_equal length) in Hc. rewrite length_take, length_fmap in Hc. lia.
Qed.

Lemma asm_init_holds node size sites : holds (asmInitBuffer node size sites).1 [].
Proof. split; simpl; [by rewrite length_replicate|done|done]. Qed.

(** The guarantee of one [asmEnsureCapacity]: at least the gap is free, and
    nothing emitted is lost. *)
Lemma asmEnsureCapacity_spec b code :
  holds b code ->
  holds (asmEnsureCapacity b) code /\ room (asmEnsureCapacity b) ASM_BUFFER_GAP /\
  same_sites b (asmEnsureCapacity b) /\ instOffset (asmEnsureCapacity b) = instOffset b /\
  p (asmEnsureCapacity b) = p b.
Proof.
  intros Hh. pose proof (holds_length _ _ Hh) as Hl. destruct Hh as [Hg Hp Hc].
  unfold asmEnsureCapacity, room. destruct (Nat.leb_spec (bend b) (p b)) as [Hle|Hgt];
    cbn [p block bend instOffset]; [|unfold ASM_BUFFER_GAP in *; repeat split; (done || lia)].
  rewrite take_ge by (unfold ASM_BUFFER_GAP in *; lia).
  rewrite length_app, length_replicate. unfold ASM_BUFFER_GAP in *.
  split; [|split; [lia|done]].
  split; cbn [p block bend]; [rewrite length_app, length_replicate; unfold ASM_BUFFER_GAP; lia|done|].
  by rewrite take_app_le by lia.
Qed.

Lemma length_blit {A} (m m' : list A) off l : blit m off l = Some m' -> length m' = length m.
Proof.
  unfold blit. case_decide; [|done]. intros [= <-].
  rewrite !length_app, length_take, length_drop. lia.
Qed.

Lemma write_Some b off l :
  (off + length l <= length (block b))%nat ->
  write b off l = Some (set_block b (take off (block b) ++ (Some <$> l) ++ drop (off + length l) (block b))).
Proof. intros. unfold write. rewrite blit_Some by (by rewrite length_fmap). by rewrite length_fmap. Qed.

Lemma asm_emit_spec b code l :
  holds b code -> room b (length l) ->
  exists b', emit b l = Some b' /\ holds b' (code ++ l) /\ same_sites b b' /\
    length (block b') = length (block b) /\ instOffset b' = instOffset b /\ bend b' = bend b.
Proof.
  intros Hh Hr. pose proof (holds_length _ _ Hh) as Hl. destruct Hh as [Hg Hp Hc].
  unfold room in Hr. unfold emit. rewrite write_Some by lia. cbn [mbind option_bind].
  eexists; split; [done|].
  assert (length (take (p b) (block b) ++ (Some <$> l) ++ drop (p b + length l) (block b)) = length (block b)) as Hlen.
  { rewrite !length_app, length_take, length_fmap, length_drop. lia. }
  split; [|by repeat split].
  split; cbn [set_p set_block block bend p]; [by rewrite Hlen|rewrite length_app; lia|].
  rewrite length_app, fmap_app, <- Hc, Hp, app_assoc.
  rewrite take_app_length'; [done|]. rewrite length_app, length_take, length_fmap. lia.
Qed.

(** Overwriting a part of the emitted code. *)
Lemma write_spec b code off l :
  holds b code -> (off + length l <= length code)%nat ->
  exists b', write b off l = Some b' /\ holds b' (take off code ++ l ++ drop (off + length l) code) /\
    same_sites b b' /\ instOffset b' = instOffset b /\ length (block b') = length (block b).
Proof.
  intros Hh Ho. pose proof (holds_length _ _ Hh) as Hl. destruct Hh as [Hg Hp Hc].
  rewrite write_Some by lia. eexists; split; [done|].
  assert (length (take off (block b) ++ (Some <$> l) ++ drop (off + length l) (block b)) = length (block b)) as Hlen.
  { rewrite !length_app, length_take, length_fmap, length_drop. lia. }
  split; [|by repeat split].
  split; cbn [set_block block bend p]; [by rewrite Hlen| |].
  - rewrite !length_app, length_take, length_drop. lia.
  - rewrite !length_app, length_take, length_drop.
    replace (off `min` length code + (length l + (length code - (off + length l))))%nat with (length code) by lia.
    rewrite !fmap_app, fmap_take, fmap_drop, <- Hc, take_take, Nat.min_l by lia.
    rewrite app_assoc, take_app, app_assoc. f_equal.
    { rewrite take_ge; [done|]. rewrite length_app, length_take, length_fmap. lia. }
    rewrite length_app, length_take, length_fmap, Nat.min_l by lia.
    rewrite skipn_firstn_comm. done.
Qed.

(** Emission is concatenation. *)
Lemma emit_None b l : (length (block b) < p b + length l)%nat -> emit b l = None.
Proof. intros. unfold emit, write, blit. rewrite decide_False; [done|]. rewrite length_fmap. lia. Qed.

Lemma emit_Some b l :
  room b (length l) ->
  emit b l = Some (set_p (set_block b (take (p b) (block b) ++ (Some <$> l) ++ drop (p b + length l) (block b))) (p b + length l)).
Proof. intros. unfold emit. by rewrite write_Some. Qed.

Lemma emit_app b l1 l2 : emit b (l1 ++ l2) = b' ← emit b l1; emit b' l2.
Proof.
  destruct (decide (p b + length l1 <= length (block b))%nat) as [H1|H1].
  - rewrite (emit_Some b l1) by done. cbn [mbind option_bind].
    set (b1 := set_p _ _).
    assert (length (block b1) = length (block b)) as Hb1.
    { unfold b1; cbn [set_p set_block block]. rewrite !length_app, length_take, length_fmap, length_drop. lia. }
    destruct (decide (p b + length (l1 ++ l2) <= length (block b))%nat) as [H2|H2]; rewrite length_app in H2.
    + rewrite emit_Some by (unfold room; by rewrite length_app).
      rewrite emit_Some by (unfold room; rewrite Hb1; cbn; lia). f_equal.
      unfold b1, set_p, set_block; cbn [block p bend instOffset fixups pointersOffsets icSites specSites].
      rewrite !length_app, Nat.add_assoc. f_equal. rewrite fmap_app.
      set (pre := take (p b) (block b) ++ (Some <$> l1)).
      assert (length pre = p b + length l1)%nat as Hpre.
      { unfold pre. rewrite length_app, length_take, length_fmap. lia. }
      rewrite <- (app_assoc (Some <$> l1)), !(app_assoc (take (p b) (block b)) (Some <$> l1)). fold pre.
      rewrite take_app_length' by lia. do 2 f_equal.
      rewrite drop_app_ge by lia. rewrite drop_drop. f_equal. lia.
    + rewrite emit_None by (rewrite length_app; lia). rewrite emit_None; [done|]. rewrite Hb1. cbn. lia.
  - rewrite (emit_None b l1) by lia. apply emit_None. rewrite length_app. lia.
Qed.

Lemma emit_nil b : (p b <= length (block b))%nat -> emit b [] = Some b.
Proof.
  intros. rewrite emit_Some by (unfold room; simpl; lia). simpl length. rewrite Nat.add_0_r.
  cbn [fmap list_fmap app]. rewrite take_drop. by destruct b.
Qed.

Lemma emit_cons b x l : emit b (x :: l) = b' ← emit b [x]; emit b' l.
Proof. exact (emit_app b [x] l). Qed.

Lemma emit_bounded b l b' : emit b l = Some b' -> (p b' <= length (block b'))%nat.
Proof.
  unfold emit, write, blit. case_decide as Hd; [|done]. cbn. intros [= <-].
  cbn. rewrite !length_app, length_take, length_drop, length_fmap. rewrite length_fmap in Hd. lia.
Qed.

Lemma copy_holds b code : holds b code -> asmCopyBuffer b (p b) = Some code.
Proof.
  intros Hh. pose proof (holds_length _ _ Hh). destruct Hh as [Hg Hp Hc].
  unfold asmCopyBuffer. rewrite slice_Some by lia. cbn [mbind option_bind].
  rewrite drop_0, Hp, Hc. clear. induction code as [|x l IH]; [done|].
  cbn [fmap list_fmap mapM id mbind option_bind]. by rewrite IH.
Qed.

(** ** Tables *)

Lemma table_add_spec {A} (t : Table A) x :
  table_wf t -> exists t', table_add t x = Some t' /\ table_wf t' /\ elems t' = elems t ++ [x].
Proof.
  intros [Hl Hc]. unfold table_add, table_wf.
  destruct (Nat.eqb_spec (length (elems t)) (capacity t)) as [He|Hne].
  - destruct (Nat.ltb_spec (length (elems t)) (capacity t * 2)); [|lia].
    eexists; split; [done|]. cbn [elems capacity]. rewrite length_app. simpl length. split; [lia|done].
  - destruct (Nat.ltb_spec (length (elems t)) (capacity t)); [|lia].
    eexists; split; [done|]. cbn [elems capacity]. rewrite length_app. simpl length. split; [lia|done].
Qed.

(** ** The in-flight list *)

Lemma free_init node size sites : asmFreeBuffer node (asmInitBuffer node size sites).2 = sites.
Proof. simpl. by rewrite decide_True. Qed.

Lemma free_other node other sites : other <> node -> In other sites -> In other (asmFreeBuffer node sites).
Proof.
  intros Hne. induction sites as [|s t IH]; [done|]; simpl. intros [->|Hin]; case_decide; subst; simpl; auto; done.
Qed.

Lemma free_gone node sites : NoDup sites -> ~ In node (asmFreeBuffer node sites).
Proof.
  induction sites as [|s t IH]; simpl; [tauto|]. intros Hn. inversion_clear Hn as [|? ? Hs Ht]. case_decide.
  - subst. by rewrite <- list_elem_of_In.
  - simpl. intros [->|Hin]; [done|]. by apply IH.
Qed.
