(* ===== verification/Bytecodes.v ===== *)
(** * The bytecode format

    [src/vm/compiler/Bytecodes.h]: the encoders the compiler and the optimizer
    emit bytecodes with, and the iterator every consumer (both code
    generators, the optimizer, the printer) decodes them with.

    The compiler emits in one pass and patches the displacement of a forward
    jump when its label is bound.  [layout] is the two-pass assembler this has
    to agree with, [listing] what a consumer has to read back. *)
From S2P Require Import Prelude Endian Assembler.

Inductive Bytecode :=
  | BYTECODE_COPY | BYTECODE_SEND | BYTECODE_SEND_WITH_STORE | BYTECODE_RETURN
  | BYTECODE_OUTER_RETURN | BYTECODE_JUMP | BYTECODE_JUMP_NOT_MEMBER_OF.

Inductive OperandType :=
  | OPERAND_VALUE | OPERAND_NIL | OPERAND_TRUE | OPERAND_FALSE | OPERAND_THIS_CONTEXT
  | OPERAND_TEMP_VAR | OPERAND_ARG_VAR | OPERAND_SUPER | OPERAND_CONTEXT_VAR | OPERAND_INST_VAR
  | OPERAND_INST_VAR_OF | OPERAND_LITERAL | OPERAND_ASSOC | OPERAND_BLOCK.

#[export] Instance Bytecode_eq_dec : EqDecision Bytecode.
Proof. solve_decision. Defined.
#[export] Instance OperandType_eq_dec : EqDecision OperandType.
Proof. solve_decision. Defined.

(** The enumerators in order: a constructor's number is its position. *)
Definition bytecodes : list Bytecode :=
  [BYTECODE_COPY; BYTECODE_SEND; BYTECODE_SEND_WITH_STORE; BYTECODE_RETURN;
   BYTECODE_OUTER_RETURN; BYTECODE_JUMP; BYTECODE_JUMP_NOT_MEMBER_OF].
Definition operandTypes : list OperandType :=
  [OPERAND_VALUE; OPERAND_NIL; OPERAND_TRUE; OPERAND_FALSE; OPERAND_THIS_CONTEXT;
   OPERAND_TEMP_VAR; OPERAND_ARG_VAR; OPERAND_SUPER; OPERAND_CONTEXT_VAR; OPERAND_INST_VAR;
   OPERAND_INST_VAR_OF; OPERAND_LITERAL; OPERAND_ASSOC; OPERAND_BLOCK].

Definition bytecode_number (c : Bytecode) : Z :=
  match c with
  | BYTECODE_COPY => 0 | BYTECODE_SEND => 1 | BYTECODE_SEND_WITH_STORE => 2 | BYTECODE_RETURN => 3
  | BYTECODE_OUTER_RETURN => 4 | BYTECODE_JUMP => 5 | BYTECODE_JUMP_NOT_MEMBER_OF => 6
  end.
Definition type_number (t : OperandType) : Z :=
  match t with
  | OPERAND_VALUE => 0 | OPERAND_NIL => 1 | OPERAND_TRUE => 2 | OPERAND_FALSE => 3
  | OPERAND_THIS_CONTEXT => 4 | OPERAND_TEMP_VAR => 5 | OPERAND_ARG_VAR => 6 | OPERAND_SUPER => 7
  | OPERAND_CONTEXT_VAR => 8 | OPERAND_INST_VAR => 9 | OPERAND_INST_VAR_OF => 10
  | OPERAND_LITERAL => 11 | OPERAND_ASSOC => 12 | OPERAND_BLOCK => 13
  end.

(** The nested struct of an instance-variable operand. *)
Record Instance_ := mkInstance { i_type : OperandType; i_index : Z; i_level : Z }.

(** The members of the union side by side; [type] says which are live. *)
Record Operand := mkOperand {
  isValid : bool;
  type : OperandType;
  index : Z;
  level : Z;
  instance : Instance_;
  value : Z;
}.

Definition no_instance : Instance_ := mkInstance OPERAND_VALUE 0 0.

(** [{ .isValid = 1, .type = t }]: the members not named are zero. *)
Definition operand_of_type (t : OperandType) : Operand := mkOperand true t 0 0 no_instance 0.

Section Encoding.
Context `{Target}.

(** The assertions on [instance.type]. *)
Definition instance_type_ok (t : OperandType) : bool :=
  negb (bool_decide (t = OPERAND_VALUE)) && negb (bool_decide (t = OPERAND_INST_VAR))
  && negb (bool_decide (t = OPERAND_INST_VAR_OF)).

(** The recursion stops after one level, by the assertions: [depth] is 2. *)
Fixpoint operand_emit (depth : nat) (b : AssemblerBuffer) (o : Operand) : option AssemblerBuffer :=
  match depth with
  | O => None
  | S depth =>
      b ← asmEmitUint8 b (type_number (type o));
      match type o with
      | OPERAND_VALUE => emit b (storeU64 (value o))
      | OPERAND_TEMP_VAR | OPERAND_ARG_VAR | OPERAND_INST_VAR
      | OPERAND_LITERAL | OPERAND_ASSOC | OPERAND_BLOCK => asmEmitUint16 b (index o)
      | OPERAND_INST_VAR_OF =>
          b ← asmEmitUint16 b (index o);
          _ ← ASSERT (instance_type_ok (i_type (instance o)));
          operand_emit depth b
            (mkOperand true (i_type (instance o)) (i_index (instance o)) (i_level (instance o)) no_instance 0)
      | OPERAND_CONTEXT_VAR => b ← asmEmitUint16 b (index o); asmEmitUint8 b (level o)
      | _ => Some b
      end
  end.

Definition bytecodeOperand (b : AssemblerBuffer) (o : Operand) : option AssemblerBuffer := operand_emit 2 b o.

Definition copy_dest_ok (t : OperandType) : bool :=
  bool_decide (t = OPERAND_TEMP_VAR) || bool_decide (t = OPERAND_CONTEXT_VAR)
  || bool_decide (t = OPERAND_INST_VAR) || bool_decide (t = OPERAND_ASSOC)
  || bool_decide (t = OPERAND_INST_VAR_OF).

Definition bytecodeCopy (b : AssemblerBuffer) (source dest : Operand) : option AssemblerBuffer :=
  let b := asmEnsureCapacity b in
  b ← asmEmitUint8 b (bytecode_number BYTECODE_COPY);
  b ← bytecodeOperand b source;
  _ ← ASSERT (copy_dest_ok (type dest));
  b ← bytecodeOperand b dest;
  Some (next_inst b).

(** [for (i = numArgs - 1; i >= 0; i--) bytecodeOperand(buffer, args + i)] *)
Definition emit_args (b : AssemblerBuffer) (args : list Operand) (numArgs : nat) : option AssemblerBuffer :=
  for_down numArgs (fun i b => a ← args !! (i - 1)%nat; bytecodeOperand b a) b.

Definition bytecodeSend (b : AssemblerBuffer) (selector : Z) (receiver : Operand) (args : list Operand) (numArgs : nat) : option AssemblerBuffer :=
  let b := asmEnsureCapacity b in
  b ← asmEmitUint8 b (bytecode_number BYTECODE_SEND);
  b ← asmEmitUint16 b selector;
  b ← asmEmitUint8 b (Z.of_nat numArgs);
  b ← bytecodeOperand b receiver;
  b ← emit_args b args numArgs;
  Some (next_inst b).

Definition bytecodeSendWithStore (b : AssemblerBuffer) (selector : Z) (receiver result : Operand) (args : list Operand) (numArgs : nat) : option AssemblerBuffer :=
  let b := asmEnsureCapacity b in
  b ← asmEmitUint8 b (bytecode_number BYTECODE_SEND_WITH_STORE);
  b ← asmEmitUint16 b selector;
  b ← asmEmitUint8 b (Z.of_nat numArgs);
  b ← bytecodeOperand b receiver;
  b ← emit_args b args numArgs;
  b ← bytecodeOperand b result;
  Some (next_inst b).

Definition bytecodeReturn (b : AssemblerBuffer) (operand : Operand) (outer : bool) : option AssemblerBuffer :=
  let b := asmEnsureCapacity b in
  b ← asmEmitUint8 b (bytecode_number (if outer then BYTECODE_OUTER_RETURN else BYTECODE_RETURN));
  b ← bytecodeOperand b operand;
  Some (next_inst b).

Definition bytecodeJump (b : AssemblerBuffer) (label : AssemblerLabel) : option (AssemblerBuffer * AssemblerLabel) :=
  let b := asmEnsureCapacity b in
  b ← asmEmitUint8 b (bytecode_number BYTECODE_JUMP);
  '(b, label) ← asmEmitLabel32 b label;
  Some (next_inst b, label).

Definition bytecodeJumpNotMemberOf (b : AssemblerBuffer) (operand : Operand) (class : Z) (label : AssemblerLabel) : option (AssemblerBuffer * AssemblerLabel) :=
  let b := asmEnsureCapacity b in
  b ← asmEmitUint8 b (bytecode_number BYTECODE_JUMP_NOT_MEMBER_OF);
  b ← asmEmitUint16 b class;
  b ← bytecodeOperand b operand;
  '(b, label) ← asmEmitLabel32 b label;
  Some (next_inst b, label).
End Encoding.

(** ** The iterator *)

Record BytecodesIterator := mkIterator { stream : list Z; ip : nat; iend : nat; number : Z }.

Definition bytecodeInitIterator (stream : list Z) (size : nat) : BytecodesIterator := mkIterator stream 0 size (-1).
Definition bytecodeNumber (it : BytecodesIterator) : Z := number it.
Definition bytecodeOffset (it : BytecodesIterator) : Z := Z.of_nat (ip it).
Definition bytecodeHasNext (it : BytecodesIterator) : bool := (ip it <? iend it)%nat.

Definition advance (it : BytecodesIterator) (n : nat) : BytecodesIterator :=
  mkIterator (stream it) (ip it + n) (iend it) (number it).

Definition bytecodeNextByte (it : BytecodesIterator) : option (Z * BytecodesIterator) :=
  v ← stream it !! ip it; Some (v, advance it 1).

(** An [n]-byte field. *)
Definition next_field (it : BytecodesIterator) (n : nat) : option (list Z * BytecodesIterator) :=
  l ← slice (stream it) (ip it) n; Some (l, advance it n).

Section Decoding.
Context `{Target}.

Definition bytecodeNextUint16 (it : BytecodesIterator) : option (Z * BytecodesIterator) :=
  '(l, it) ← next_field it 2; Some (loadU16 l, it).

Definition bytecodeNextInt32 (it : BytecodesIterator) : option (Z * BytecodesIterator) :=
  '(l, it) ← next_field it 4; Some (loadI32 l, it).

(** The conversions of a byte to the enumerations; a number that is no
    enumerator is not a stream the encoders make. *)
Definition bytecodeNext (it : BytecodesIterator) : option (Bytecode * BytecodesIterator) :=
  '(v, it) ← bytecodeNextByte (mkIterator (stream it) (ip it) (iend it) (number it + 1));
  c ← bytecodes !! Z.to_nat v;
  Some (c, it).

Fixpoint operand_next (depth : nat) (it : BytecodesIterator) : option (Operand * BytecodesIterator) :=
  match depth with
  | O => None
  | S depth =>
      '(v, it) ← bytecodeNextByte it;
      t ← operandTypes !! Z.to_nat v;
      match t with
      | OPERAND_VALUE =>
          '(l, it) ← next_field it 8;
          Some (mkOperand true t 0 0 no_instance (loadU64 l), it)
      | OPERAND_TEMP_VAR | OPERAND_ARG_VAR | OPERAND_INST_VAR
      | OPERAND_LITERAL | OPERAND_ASSOC | OPERAND_BLOCK =>
          '(i, it) ← bytecodeNextUint16 it;
          Some (mkOperand true t i 0 no_instance 0, it)
      | OPERAND_INST_VAR_OF =>
          '(i, it) ← bytecodeNextUint16 it;
          '(o, it) ← operand_next depth it;
          _ ← ASSERT (instance_type_ok (type o));
          Some (mkOperand true t i 0 (mkInstance (type o) (index o) (level o)) 0, it)
      | OPERAND_CONTEXT_VAR =>
          '(i, it) ← bytecodeNextUint16 it;
          '(lv, it) ← bytecodeNextByte it;
          Some (mkOperand true t i lv no_instance 0, it)
      | _ => Some (operand_of_type t, it)
      end
  end.

Definition bytecodeNextOperand (it : BytecodesIterator) : option (Operand * BytecodesIterator) := operand_next 2 it.

Fixpoint next_operands (n : nat) (it : BytecodesIterator) : option (list Operand * BytecodesIterator) :=
  match n with
  | O => Some ([], it)
  | S n => '(o, it) ← bytecodeNextOperand it; '(l, it) ← next_operands n it; Some (o :: l, it)
  end.

(** What one turn of the loop of [printBytecodes] reads; the operands of a
    send in the order of the stream. *)
Inductive Instruction :=
  | ICopy (source dest : Operand)
  | ISend (selector : Z) (receiver : Operand) (args : list Operand)
  | ISendWithStore (selector : Z) (receiver : Operand) (args : list Operand) (result : Operand)
  | IReturn (outer : bool) (operand : Operand)
  | IJump (displacement : Z)
  | IJumpNotMemberOf (class : Z) (operand : Operand) (displacement : Z).

Definition read_instruction (it : BytecodesIterator) : option (Instruction * BytecodesIterator) :=
  '(c, it) ← bytecodeNext it;
  match c with
  | BYTECODE_COPY =>
      '(s, it) ← bytecodeNextOperand it; '(d, it) ← bytecodeNextOperand it; Some (ICopy s d, it)
  | BYTECODE_SEND | BYTECODE_SEND_WITH_STORE =>
      '(selector, it) ← bytecodeNextUint16 it;
      '(argsSize, it) ← bytecodeNextByte it;
      '(receiver, it) ← bytecodeNextOperand it;
      '(args, it) ← next_operands (Z.to_nat argsSize) it;
      if decide (c = BYTECODE_SEND_WITH_STORE) then
        '(result, it) ← bytecodeNextOperand it; Some (ISendWithStore selector receiver args result, it)
      else Some (ISend selector receiver args, it)
  | BYTECODE_RETURN => '(o, it) ← bytecodeNextOperand it; Some (IReturn false o, it)
  | BYTECODE_OUTER_RETURN => '(o, it) ← bytecodeNextOperand it; Some (IReturn true o, it)
  | BYTECODE_JUMP => '(d, it) ← bytecodeNextInt32 it; Some (IJump d, it)
  | BYTECODE_JUMP_NOT_MEMBER_OF =>
      '(class, it) ← bytecodeNextUint16 it;
      '(o, it) ← bytecodeNextOperand it;
      '(d, it) ← bytecodeNextInt32 it;
      Some (IJumpNotMemberOf class o d, it)
  end.

(** The instructions [printBytecodes] prints, each with its number and the
    offset it starts at.  A turn consumes at least one byte, so [size + 1]
    turns are enough. *)
Definition printBytecodes (stream : list Z) (size : nat) : option (list (Z * nat * Instruction)) :=
  loop (S size) (fun '(acc, it) =>
    if bytecodeHasNext it then
      let start := ip it in
      '(i, it) ← read_instruction it;
      Some (inl (acc ++ [(bytecodeNumber it, start, i)], it))
    else Some (inr acc)) ([], bytecodeInitIterator stream size).
End Decoding.

(** ** Operands as bytes *)

Section Bytes.
Context `{Target}.

(** The operand is one the compiler makes: its live members are in the range
    of their C types, and the assertion on the instance holds. *)
Definition plain_ok (t : OperandType) (i lv : Z) : Prop :=
  match t with
  | OPERAND_TEMP_VAR | OPERAND_ARG_VAR | OPERAND_INST_VAR
  | OPERAND_LITERAL | OPERAND_ASSOC | OPERAND_BLOCK => 0 <= i < 2 ^ 16
  | OPERAND_CONTEXT_VAR => 0 <= i < 2 ^ 16 /\ 0 <= lv < 2 ^ 8
  | _ => True
  end.

Definition operand_ok (o : Operand) : Prop :=
  match type o with
  | OPERAND_VALUE => 0 <= value o < 2 ^ 64
  | OPERAND_INST_VAR_OF =>
      0 <= index o < 2 ^ 16 /\ instance_type_ok (i_type (instance o)) = true /\
      plain_ok (i_type (instance o)) (i_index (instance o)) (i_level (instance o))
  | t => plain_ok t (index o) (level o)
  end.

(** The operand with its dead members zero, as the decoder builds it. *)
Definition plain_canon (t : OperandType) (i lv : Z) : Z * Z :=
  match t with
  | OPERAND_TEMP_VAR | OPERAND_ARG_VAR | OPERAND_INST_VAR
  | OPERAND_LITERAL | OPERAND_ASSOC | OPERAND_BLOCK => (i, 0)
  | OPERAND_CONTEXT_VAR => (i, lv)
  | _ => (0, 0)
  end.

Definition canonical (o : Operand) : Operand :=
  match type o with
  | OPERAND_VALUE => mkOperand true OPERAND_VALUE 0 0 no_instance (value o)
  | OPERAND_INST_VAR_OF =>
      let '(i, lv) := plain_canon (i_type (instance o)) (i_index (instance o)) (i_level (instance o)) in
      mkOperand true OPERAND_INST_VAR_OF (index o) 0 (mkInstance (i_type (instance o)) i lv) 0
  | t => let '(i, lv) := plain_canon t (index o) (level o) in mkOperand true t i lv no_instance 0
  end.

Definition plain_bytes (t : OperandType) (i lv : Z) : list Z :=
  type_number t ::
  match t with
  | OPERAND_TEMP_VAR | OPERAND_ARG_VAR | OPERAND_INST_VAR
  | OPERAND_LITERAL | OPERAND_ASSOC | OPERAND_BLOCK => storeU16 i
  | OPERAND_CONTEXT_VAR => storeU16 i ++ [u8 lv]
  | _ => []
  end.

Definition operand_bytes (o : Operand) : list Z :=
  match type o with
  | OPERAND_VALUE => type_number OPERAND_VALUE :: storeU64 (value o)
  | OPERAND_INST_VAR_OF =>
      type_number OPERAND_INST_VAR_OF :: storeU16 (index o) ++
        plain_bytes (i_type (instance o)) (i_index (instance o)) (i_level (instance o))
  | t => plain_bytes t (index o) (level o)
  end.

Lemma u8_type_number t : u8 (type_number t) = type_number t.
Proof. by destruct t. Qed.

Lemma u8_bytecode_number c : u8 (bytecode_number c) = bytecode_number c.
Proof. by destruct c. Qed.

(** An operand that is not a value or a nested one. *)
Lemma operand_emit_plain depth b o :
  instance_type_ok (type o) = true \/ type o = OPERAND_INST_VAR ->
  operand_emit (S depth) b o = emit b (plain_bytes (type o) (index o) (level o)).
Proof.
  intros Ht. cbn [operand_emit]. unfold asmEmitUint8, asmEmitUint16. rewrite u8_type_number.
  unfold plain_bytes. symmetry. rewrite emit_cons.
  destruct (emit b _) as [b'|] eqn:He; [|done]. cbn [mbind option_bind].
  apply emit_bounded in He.
  destruct (type o); try done; try (by rewrite emit_nil).
  - by destruct Ht.
  - by rewrite emit_app.
  - by destruct Ht.
Qed.

Lemma bytecodeOperand_emit b o : operand_ok o -> bytecodeOperand b o = emit b (operand_bytes o).
Proof.
  intros Hok. unfold bytecodeOperand, operand_bytes. unfold operand_ok in Hok.
  destruct (type o) eqn:Ht;
    try (rewrite operand_emit_plain by (rewrite Ht; auto); rewrite Ht; done).
  - cbn [operand_emit]. unfold asmEmitUint8. rewrite u8_type_number, Ht. symmetry. by rewrite emit_cons.
  - destruct Hok as (Hi & Hi' & _). remember 1%nat as d eqn:Hd. cbn [operand_emit].
    rewrite Ht. unfold asmEmitUint8, asmEmitUint16. rewrite u8_type_number.
    symmetry. rewrite emit_cons. destruct (emit b _) as [b'|]; [|done]. cbn [mbind option_bind].
    rewrite emit_app. destruct (emit b' _) as [b''|]; [|done]. cbn [mbind option_bind].
    rewrite Hi'. cbn [ASSERT mbind option_bind]. subst d. rewrite operand_emit_plain; [done|]. cbn [type]. auto.
Qed.

Lemma for_down_emit b args n :
  Forall operand_ok args -> (n <= length args)%nat -> (p b <= length (block b))%nat ->
  emit_args b args n = emit b (concat (operand_bytes <$> reverse (take n args))).
Proof.
  intros Hok. unfold emit_args. revert b. induction n as [|n IH]; intros b Hn Hp.
  - simpl. by rewrite emit_nil.
  - cbn [for_down]. replace (S n - 1)%nat with n by lia.
    destruct (lookup_Some_lt args n) as [a Ha]; [lia|]. rewrite Ha. cbn [mbind option_bind].
    erewrite take_S_r by done. rewrite reverse_app, fmap_app, concat_app. simpl. rewrite app_nil_r.
    rewrite bytecodeOperand_emit by (by eapply Forall_lookup_1). rewrite emit_app.
    destruct (emit b _) as [b'|] eqn:He; [|done]. cbn [mbind option_bind]. apply IH; [lia|].
    by eapply emit_bounded.
Qed.

(** *** Decoding

    [ahead it l]: the unread bytes are [l]. *)
Definition ahead (it : BytecodesIterator) (l : list Z) : Prop := drop (ip it) (stream it) = l.

Lemma ahead_advance it l r n : ahead it (l ++ r) -> n = length l -> ahead (advance it n) r.
Proof. unfold ahead, advance; simpl. intros Ha ->. rewrite <- drop_drop, Ha. by rewrite drop_app_length. Qed.

Lemma ahead_cons it x r : ahead it (x :: r) -> ahead (advance it 1) r.
Proof. intros Ha. by apply (ahead_advance it [x] r). Qed.

Lemma advance_advance it m n : advance (advance it m) n = advance it (m + n).
Proof. unfold advance; simpl. by rewrite Nat.add_assoc. Qed.

Lemma next_byte_spec it x r : ahead it (x :: r) -> bytecodeNextByte it = Some (x, advance it 1).
Proof.
  unfold ahead, bytecodeNextByte. intros Ha.
  assert (stream it !! ip it = Some x) as ->; [|done].
  rewrite <- (Nat.add_0_r (ip it)), <- lookup_drop, Ha. done.
Qed.

Lemma next_field_spec it l r n :
  ahead it (l ++ r) -> n = length l -> (0 < n)%nat -> next_field it n = Some (l, advance it n).
Proof.
  unfold ahead, next_field, slice. intros Ha -> Hn.
  assert (length (drop (ip it) (stream it)) = length l + length r)%nat as Hl by (by rewrite Ha, length_app).
  rewrite length_drop in Hl. rewrite decide_True by lia. rewrite Ha. cbn [mbind option_bind].
  by rewrite take_app_length.
Qed.

Lemma next_uint16_spec it v r :
  0 <= v < 2 ^ 16 -> ahead it (storeU16 v ++ r) -> bytecodeNextUint16 it = Some (v, advance it 2).
Proof.
  intros Hv Ha. unfold bytecodeNextUint16.
  rewrite (next_field_spec it (storeU16 v) r) by (done || lia || by autorewrite with cint).
  cbn [mbind option_bind]. by rewrite loadU16_store.
Qed.

Lemma next_int32_spec it v r :
  - 2 ^ 31 <= v < 2 ^ 31 -> ahead it (storeI32 v ++ r) -> bytecodeNextInt32 it = Some (v, advance it 4).
Proof.
  intros Hv Ha. unfold bytecodeNextInt32.
  rewrite (next_field_spec it (storeI32 v) r) by (done || lia || by autorewrite with cint).
  cbn [mbind option_bind]. by rewrite loadI32_store.
Qed.

Lemma operandTypes_number t : operandTypes !! Z.to_nat (type_number t) = Some t.
Proof. by destruct t. Qed.

Lemma bytecodes_number c : bytecodes !! Z.to_nat (bytecode_number c) = Some c.
Proof. by destruct c. Qed.

Lemma operand_next_plain depth it t i lv r :
  instance_type_ok t = true \/ t = OPERAND_INST_VAR -> plain_ok t i lv ->
  ahead it (plain_bytes t i lv ++ r) ->
  operand_next (S depth) it =
    Some (mkOperand true t (plain_canon t i lv).1 (plain_canon t i lv).2 no_instance 0,
          advance it (length (plain_bytes t i lv))).
Proof.
  intros Ht Hok Ha. unfold plain_bytes in *. cbn [operand_next].
  rewrite <- app_comm_cons in Ha. rewrite (next_byte_spec _ _ _ Ha). cbn [mbind option_bind]. rewrite operandTypes_number.
  cbn [mbind option_bind]. apply ahead_cons in Ha.
  assert (forall r', 0 <= i < 2 ^ 16 -> ahead (advance it 1) (storeU16 i ++ r') ->
     bytecodeNextUint16 (advance it 1) = Some (i, advance it 3)) as Hu.
  { intros r' Hi Ha'. rewrite (next_uint16_spec _ _ _ Hi Ha'). by rewrite advance_advance. }
  destruct t; try (by destruct Ht); unfold plain_ok, plain_canon in *; cbn [length fst snd];
    try done; try (rewrite (Hu _ Hok Ha); simpl; by autorewrite with cint).
  destruct Hok as [Hi Hlv]. rewrite <- app_assoc in Ha. rewrite (Hu _ Hi Ha). simpl.
  apply (ahead_advance _ _ _ 2) in Ha; [|by autorewrite with cint]. rewrite advance_advance in Ha.
  simpl in Ha. rewrite (next_byte_spec _ _ _ Ha). simpl.
  rewrite length_app, length_storeU16, advance_advance, u8_id by lia. done.
Qed.

Lemma bytecodeNextOperand_spec it o r :
  operand_ok o -> ahead it (operand_bytes o ++ r) ->
  bytecodeNextOperand it = Some (canonical o, advance it (length (operand_bytes o))).
Proof.
  intros Hok Ha. unfold bytecodeNextOperand, canonical, operand_ok, operand_bytes in *.
  destruct (type o) eqn:Ht;
    try (rewrite (fun Hi => operand_next_plain 1 _ _ _ _ r Hi Hok Ha) by (first [by left | by right]);
         by destruct (plain_canon _ _ _)).
  - cbn [operand_next]. rewrite <- app_comm_cons in Ha. rewrite (next_byte_spec _ _ _ Ha). cbn [mbind option_bind].
    rewrite operandTypes_number. cbn [mbind option_bind].
    apply ahead_cons in Ha.
    rewrite (next_field_spec _ _ _ 8 Ha) by (lia || by autorewrite with cint). cbn [mbind option_bind].
    rewrite loadU64_store by done. cbn [length]. by rewrite length_storeU64, advance_advance.
  - destruct Hok as (Hi & Hi' & Hok). remember 1%nat as d eqn:Hd. cbn [operand_next].
    rewrite <- app_comm_cons in Ha. rewrite (next_byte_spec _ _ _ Ha). cbn [mbind option_bind].
    rewrite operandTypes_number. cbn [mbind option_bind].
    apply ahead_cons in Ha. rewrite <- app_assoc in Ha.
    subst d. rewrite (next_uint16_spec _ _ _ Hi Ha). cbn [mbind option_bind].
    apply (ahead_advance _ _ _ 2) in Ha; [|by autorewrite with cint]. rewrite advance_advance in Ha.
    rewrite advance_advance, (operand_next_plain 0 _ _ _ _ r (or_introl Hi') Hok Ha). cbn [mbind option_bind type index level].
    rewrite Hi'. cbn [ASSERT mbind option_bind]. destruct (plain_canon _ _ _). cbn [fst snd length].
    rewrite length_app, length_storeU16, advance_advance. do 2 f_equal.
Qed.

(** ** Assembling a method

    What the compiler does with a buffer: it calls the encoders, and binds
    labels at the current offset.  Labels are the compiler's local variables,
    named by a number. *)
Inductive Command :=
  | CCopy (source dest : Operand)
  | CSend (selector : Z) (receiver : Operand) (args : list Operand)
  | CSendWithStore (selector : Z) (receiver result : Operand) (args : list Operand)
  | CReturn (outer : bool) (operand : Operand)
  | CJump (label : nat)
  | CJumpNotMemberOf (operand : Operand) (class : Z) (label : nat)
  | CBind (label : nat).

Definition Labels := nat -> AssemblerLabel.

Definition set_label (ls : Labels) (l : nat) (x : AssemblerLabel) : Labels :=
  fun l' => if decide (l' = l) then x else ls l'.

Definition run_command (c : Command) (s : AssemblerBuffer * Labels) : option (AssemblerBuffer * Labels) :=
  let '(b, ls) := s in
  match c with
  | CCopy source dest => b' ← bytecodeCopy b source dest; Some (b', ls)
  | CSend selector receiver args => b' ← bytecodeSend b selector receiver args (length args); Some (b', ls)
  | CSendWithStore selector receiver result args =>
      b' ← bytecodeSendWithStore b selector receiver result args (length args); Some (b', ls)
  | CReturn outer operand => b' ← bytecodeReturn b operand outer; Some (b', ls)
  | CJump l => '(b', x) ← bytecodeJump b (ls l); Some (b', set_label ls l x)
  | CJumpNotMemberOf operand class l =>
      '(b', x) ← bytecodeJumpNotMemberOf b operand class (ls l); Some (b', set_label ls l x)
  | CBind l => '(b', x) ← asmLabelBind b (ls l) (asmOffset b); Some (b', set_label ls l x)
  end.

Fixpoint assemble (cs : list Command) (s : AssemblerBuffer * Labels) : option (AssemblerBuffer * Labels) :=
  match cs with
  | [] => Some s
  | c :: cs => s' ← run_command c s; assemble cs s'
  end.

(** *** The two-pass reference *)

(** The bytes of a command up to its jump field. *)
Definition send_bytes (c : Bytecode) (selector : Z) (receiver : Operand) (args : list Operand) : list Z :=
  bytecode_number c :: storeU16 selector ++ [u8 (Z.of_nat (length args))] ++ operand_bytes receiver ++
    concat (operand_bytes <$> reverse args).

Definition head_bytes (c : Command) : list Z :=
  match c with
  | CCopy s d => bytecode_number BYTECODE_COPY :: operand_bytes s ++ operand_bytes d
  | CSend selector receiver args => send_bytes BYTECODE_SEND selector receiver args
  | CSendWithStore selector receiver result args =>
      send_bytes BYTECODE_SEND_WITH_STORE selector receiver args ++ operand_bytes result
  | CReturn outer o => bytecode_number (if outer then BYTECODE_OUTER_RETURN else BYTECODE_RETURN) :: operand_bytes o
  | CJump _ => [bytecode_number BYTECODE_JUMP]
  | CJumpNotMemberOf o class _ => bytecode_number BYTECODE_JUMP_NOT_MEMBER_OF :: storeU16 class ++ operand_bytes o
  | CBind _ => []
  end.

Definition jump_label (c : Command) : option nat :=
  match c with CJump l | CJumpNotMemberOf _ _ l => Some l | _ => None end.

Definition command_size (c : Command) : nat :=
  length (head_bytes c) + match jump_label c with Some _ => 4 | None => 0 end.

(** First pass: where each label is bound. *)
Fixpoint targets (pos : nat) (cs : list Command) (l : nat) : option Z :=
  match cs with
  | [] => None
  | CBind l' :: t => if decide (l = l') then Some (Z.of_nat pos) else targets pos t l
  | c :: t => targets (pos + command_size c) t l
  end.

(** The displacement of a jump whose field is at [field]: from the end of the
    field to the target, and 0 while there is none. *)
Definition displacement (tgt : nat -> option Z) (l field : nat) : Z :=
  match tgt l with Some t => t - Z.of_nat field - 4 | None => 0 end.

Definition command_bytes (tgt : nat -> option Z) (pos : nat) (c : Command) : list Z :=
  head_bytes c ++
  match jump_label c with
  | Some l => storeI32 (displacement tgt l (pos + length (head_bytes c)))
  | None => []
  end.

(** Second pass. *)
Fixpoint layout (tgt : nat -> option Z) (pos : nat) (cs : list Command) : list Z :=
  match cs with
  | [] => []
  | c :: t => command_bytes tgt pos c ++ layout tgt (pos + command_size c) t
  end.

Definition assembled (cs : list Command) : list Z := layout (targets 0 cs) 0 cs.

(** *** What the compiler guarantees *)

Definition command_ok (c : Command) : Prop :=
  match c with
  | CCopy s d => operand_ok s /\ operand_ok d /\ copy_dest_ok (type d) = true
  | CSend selector receiver args =>
      0 <= selector < 2 ^ 16 /\ operand_ok receiver /\ Forall operand_ok args /\ (length args <= 255)%nat
  | CSendWithStore selector receiver result args =>
      0 <= selector < 2 ^ 16 /\ operand_ok receiver /\ operand_ok result /\ Forall operand_ok args /\ (length args <= 255)%nat
  | CReturn _ o => operand_ok o
  | CJumpNotMemberOf o class _ => operand_ok o /\ 0 <= class < 2 ^ 16
  | CJump _ | CBind _ => True
  end.

Definition jumps (cs : list Command) : list nat := omap jump_label cs.
Definition binds (cs : list Command) : list nat := omap (fun c => match c with CBind l => Some l | _ => None end) cs.

(** Every instruction fits the gap, and each label has at most one jump and
    one binding. *)
Record method_ok (cs : list Command) : Prop := {
  ok_commands : Forall command_ok cs;
  ok_fits : Forall (fun c => (length (head_bytes c) <= ASM_BUFFER_GAP)%nat) cs;
  ok_jumps : NoDup (jumps cs);
  ok_binds : NoDup (binds cs);
}.

(** *** The encoders emit the bytes of the reference *)

(** Matches the next emission of an encoder with the next part of the bytes. *)
Ltac emit_step :=
  rewrite emit_app;
  match goal with
  | |- context [emit ?b ?l] =>
      let He := fresh "He" in let b' := fresh "b'" in
      destruct (emit b l) as [b'|] eqn:He; [apply emit_bounded in He; cbn [mbind option_bind] | done]
  end.

Lemma bytecodeCopy_emit b s d :
  command_ok (CCopy s d) ->
  bytecodeCopy b s d = next_inst <$> emit (asmEnsureCapacity b) (head_bytes (CCopy s d)).
Proof.
  intros (Hs & Hd & Ht). unfold bytecodeCopy, asmEmitUint8. rewrite u8_bytecode_number.
  change (head_bytes (CCopy s d)) with ([bytecode_number BYTECODE_COPY] ++ operand_bytes s ++ operand_bytes d).
  emit_step. rewrite bytecodeOperand_emit by done. emit_step.
  rewrite Ht. cbn [ASSERT mbind option_bind]. rewrite bytecodeOperand_emit by done. by destruct (emit _ _).
Qed.

Lemma bytecodeSend_emit b selector receiver args :
  command_ok (CSend selector receiver args) ->
  bytecodeSend b selector receiver args (length args) =
    next_inst <$> emit (asmEnsureCapacity b) (head_bytes (CSend selector receiver args)).
Proof.
  intros (Hs & Hr & Ha & Hl). unfold bytecodeSend, asmEmitUint8, asmEmitUint16. rewrite u8_bytecode_number.
  change (head_bytes (CSend selector receiver args)) with
    ([bytecode_number BYTECODE_SEND] ++ storeU16 selector ++ [u8 (Z.of_nat (length args))] ++
     operand_bytes receiver ++ concat (operand_bytes <$> reverse args)).
  do 3 emit_step. rewrite bytecodeOperand_emit by done. emit_step.
  rewrite for_down_emit by (done || lia). rewrite firstn_all. by destruct (emit _ _).
Qed.

Lemma bytecodeSendWithStore_emit b selector receiver result args :
  command_ok (CSendWithStore selector receiver result args) ->
  bytecodeSendWithStore b selector receiver result args (length args) =
    next_inst <$> emit (asmEnsureCapacity b) (head_bytes (CSendWithStore selector receiver result args)).
Proof.
  intros (Hs & Hr & Hres & Ha & Hl). unfold bytecodeSendWithStore, asmEmitUint8, asmEmitUint16.
  rewrite u8_bytecode_number.
  assert (head_bytes (CSendWithStore selector receiver result args) =
    [bytecode_number BYTECODE_SEND_WITH_STORE] ++ storeU16 selector ++ [u8 (Z.of_nat (length args))] ++
     operand_bytes receiver ++ concat (operand_bytes <$> reverse args) ++ operand_bytes result) as ->.
  { cbn [head_bytes]. unfold send_bytes. by list_simplifier. }
  do 3 emit_step. rewrite bytecodeOperand_emit by done. emit_step.
  rewrite for_down_emit by (done || lia). rewrite firstn_all. emit_step.
  rewrite bytecodeOperand_emit by done. by destruct (emit _ _).
Qed.

Lemma bytecodeReturn_emit b o outer :
  command_ok (CReturn outer o) ->
  bytecodeReturn b o outer = next_inst <$> emit (asmEnsureCapacity b) (head_bytes (CReturn outer o)).
Proof.
  intros Ho. unfold bytecodeReturn, asmEmitUint8. rewrite u8_bytecode_number.
  change (head_bytes (CReturn outer o)) with
    ([bytecode_number (if outer then BYTECODE_OUTER_RETURN else BYTECODE_RETURN)] ++ operand_bytes o).
  emit_step. rewrite bytecodeOperand_emit by done. by destruct (emit _ _).
Qed.

Lemma bytecodeJump_emit b label :
  bytecodeJump b label =
    b' ← emit (asmEnsureCapacity b) (head_bytes (CJump 0));
    '(b', label) ← asmEmitLabel32 b' label; Some (next_inst b', label).
Proof. unfold bytecodeJump, asmEmitUint8. by rewrite u8_bytecode_number. Qed.

Lemma bytecodeJumpNotMemberOf_emit b o class label l :
  command_ok (CJumpNotMemberOf o class l) ->
  bytecodeJumpNotMemberOf b o class label =
    b' ← emit (asmEnsureCapacity b) (head_bytes (CJumpNotMemberOf o class l));
    '(b', label) ← asmEmitLabel32 b' label; Some (next_inst b', label).
Proof.
  intros (Ho & Hc). unfold bytecodeJumpNotMemberOf, asmEmitUint8, asmEmitUint16. rewrite u8_bytecode_number.
  change (head_bytes (CJumpNotMemberOf o class l)) with
    ([bytecode_number BYTECODE_JUMP_NOT_MEMBER_OF] ++ storeU16 class ++ operand_bytes o).
  do 2 emit_step. by rewrite bytecodeOperand_emit by done.
Qed.

(** *** The reference, by prefixes *)

Fixpoint code_size (cs : list Command) : nat :=
  match cs with [] => 0 | c :: t => command_size c + code_size t end.

(** Where the jump field of a label is. *)
Fixpoint field (pos : nat) (cs : list Command) (l : nat) : option nat :=
  match cs with
  | [] => None
  | c :: t => if decide (jump_label c = Some l) then Some (pos + length (head_bytes c))%nat
              else field (pos + command_size c) t l
  end.

Lemma code_size_app a b : code_size (a ++ b) = (code_size a + code_size b)%nat.
Proof. induction a as [|c a IH]; simpl; [done|]. rewrite IH. lia. Qed.

Lemma length_command_bytes tgt pos c : length (command_bytes tgt pos c) = command_size c.
Proof.
  unfold command_bytes, command_size. rewrite length_app.
  destruct (jump_label c); by autorewrite with cint.
Qed.

Lemma length_layout tgt pos cs : length (layout tgt pos cs) = code_size cs.
Proof.
  revert pos. induction cs as [|c t IH]; intros pos; simpl; [done|].
  by rewrite length_app, length_command_bytes, IH.
Qed.

Lemma layout_app tgt pos a b :
  layout tgt pos (a ++ b) = layout tgt pos a ++ layout tgt (pos + code_size a) b.
Proof.
  revert pos. induction a as [|c a IH]; intros pos; simpl; [by rewrite Nat.add_0_r|].
  by rewrite IH, <- app_assoc, Nat.add_assoc.
Qed.

Lemma targets_app pos a b l :
  targets pos (a ++ b) l = match targets pos a l with Some t => Some t | None => targets (pos + code_size a) b l end.
Proof.
  revert pos. induction a as [|c a IH]; intros pos; simpl; [by rewrite Nat.add_0_r|].
  destruct c; rewrite ?IH, ?Nat.add_assoc; try done. case_decide; [done|].
  by replace (pos + command_size (CBind label))%nat with pos by (unfold command_size; simpl; lia).
Qed.

Lemma targets_binds pos cs l : is_Some (targets pos cs l) <-> In l (binds cs).
Proof.
  revert pos. induction cs as [|c t IH]; intros pos; simpl.
  - split; [by intros [? ?]|done].
  - unfold binds in *. destruct c; simpl; try apply IH. case_decide; subst.
    + split; [by left|by eexists].
    + rewrite IH. split; [by right|]. by intros [->|].
Qed.

Lemma targets_bound pos cs l t : targets pos cs l = Some t -> Z.of_nat pos <= t <= Z.of_nat (pos + code_size cs).
Proof.
  revert pos. induction cs as [|c cs IH]; intros pos; simpl; [done|].
  destruct c; intros Ht; try (specialize (IH _ Ht); lia).
  case_decide; [injection Ht as <-; lia|]. specialize (IH _ Ht). lia.
Qed.

Lemma jumps_app a b : jumps (a ++ b) = jumps a ++ jumps b.
Proof. apply omap_app. Qed.

Lemma binds_app a b : binds (a ++ b) = binds a ++ binds b.
Proof. apply omap_app. Qed.

Lemma jumps_cons c t : jumps (c :: t) = match jump_label c with Some l => l :: jumps t | None => jumps t end.
Proof. unfold jumps. simpl. by destruct (jump_label c). Qed.

Lemma field_jumps pos cs l : is_Some (field pos cs l) <-> In l (jumps cs).
Proof.
  revert pos. induction cs as [|c t IH]; intros pos; cbn [field].
  - split; [by intros [? ?]|done].
  - rewrite jumps_cons. case_decide as Hd.
    + rewrite Hd. split; [by left|by eexists].
    + rewrite IH. destruct (jump_label c) as [l'|]; simpl; [|done].
      split; [by right|]. intros [->|]; done.
Qed.

Lemma field_app pos a b l :
  field pos (a ++ b) l = match field pos a l with Some f => Some f | None => field (pos + code_size a) b l end.
Proof.
  revert pos. induction a as [|c a IH]; intros pos; simpl; [by rewrite Nat.add_0_r|].
  case_decide; [done|]. by rewrite IH, Nat.add_assoc.
Qed.

Lemma field_bound pos cs l f : field pos cs l = Some f -> (pos <= f /\ f + 4 <= pos + code_size cs)%nat.
Proof.
  revert pos. induction cs as [|c t IH]; intros pos; simpl; [done|].
  case_decide as Hd; intros Hf.
  - injection Hf as <-. unfold command_size. rewrite Hd. lia.
  - specialize (IH _ Hf). lia.
Qed.

Lemma layout_ext tgt tgt' pos cs :
  (forall l, In l (jumps cs) -> tgt l = tgt' l) -> layout tgt pos cs = layout tgt' pos cs.
Proof.
  revert pos. induction cs as [|c t IH]; intros pos Hl; simpl; [done|].
  rewrite jumps_cons in Hl. rewrite (IH _); [|intros l Hin; apply Hl; destruct (jump_label c); [by right|done]].
  f_equal. unfold command_bytes. destruct (jump_label c) as [l|]; [|done].
  unfold displacement. by rewrite (Hl l (or_introl eq_refl)).
Qed.

(** Binding a label changes the four bytes of its field. *)
Lemma layout_patch tgt tgt' pos cs l f t :
  NoDup (jumps cs) -> field pos cs l = Some f ->
  (forall l', l' <> l -> tgt' l' = tgt l') -> tgt' l = Some t ->
  layout tgt' pos cs =
    take (f - pos) (layout tgt pos cs) ++ storeI32 (t - Z.of_nat f - 4) ++ drop (f - pos + 4) (layout tgt pos cs).
Proof.
  intros Hnd Hf Hne Ht. revert pos Hf. induction cs as [|c cs IH]; intros pos Hf; cbn [field layout] in *; [done|].
  rewrite jumps_cons in Hnd. case_decide as Hd.
  - injection Hf as <-. rewrite Hd in Hnd. inversion_clear Hnd as [|? ? Hn Hnd'].
    replace (pos + length (head_bytes c) - pos)%nat with (length (head_bytes c)) by lia.
    unfold command_bytes. rewrite Hd. unfold displacement at 1. rewrite Ht, <- !app_assoc.
    rewrite take_app_length. f_equal. f_equal.
    rewrite drop_app_ge by lia.
    replace (length (head_bytes c) + 4 - length (head_bytes c))%nat with 4%nat by lia.
    rewrite drop_app_length' by (by autorewrite with cint).
    apply layout_ext. intros l' Hin. apply Hne. intros ->. apply Hn. by apply list_elem_of_In.
  - destruct (field_bound _ _ _ _ Hf) as [Hb _].
    assert (NoDup (jumps cs)) as Hnd' by (destruct (jump_label c); [by inversion_clear Hnd|done]).
    rewrite (IH Hnd' _ Hf).
    assert (command_bytes tgt' pos c = command_bytes tgt pos c) as ->.
    { unfold command_bytes, displacement. destruct (jump_label c) as [l'|]; [|done].
      rewrite Hne; [done|]. intros ->. done. }
    rewrite take_app_ge, drop_app_ge, length_command_bytes by (rewrite length_command_bytes; lia).
    rewrite <- app_assoc. do 2 f_equal; [f_equal; lia|]. do 2 f_equal. lia.
Qed.

(** *** The one-pass assembler keeps to the reference *)

Definition is_instruction (c : Command) : bool := match c with CBind _ => false | _ => true end.

Record inv (done : list Command) (b : AssemblerBuffer) (ls : Labels) : Prop := {
  inv_code : holds b (layout (targets 0 done) 0 done);
  inv_inst : instOffset b = Z.of_nat (length (List.filter is_instruction done));
  inv_bound : forall l, isBound (ls l) = true <-> In l (binds done);
  inv_resolved : forall l, isResolved (ls l) = true <-> In l (jumps done);
  inv_target : forall l t, targets 0 done l = Some t -> ~ In l (jumps done) -> l_offset (ls l) = t;
  inv_field : forall l f, field 0 done l = Some f -> ~ In l (binds done) ->
    l_offset (ls l) = Z.of_nat f /\ l_size (ls l) = 4;
}.

Lemma inv_p done b ls : inv done b ls -> p b = code_size done.
Proof. intros Hi. rewrite (holds_p _ _ (inv_code _ _ _ Hi)). apply length_layout. Qed.

(** An instruction leaves the targets alone. *)
Lemma targets_snoc done c l : is_instruction c = true -> targets 0 (done ++ [c]) l = targets 0 done l.
Proof. intros Hc. rewrite targets_app. destruct (targets 0 done l); [done|]. by destruct c. Qed.

Lemma layout_snoc done c :
  is_instruction c = true ->
  layout (targets 0 (done ++ [c])) 0 (done ++ [c]) =
    layout (targets 0 done) 0 done ++ command_bytes (targets 0 done) (code_size done) c.
Proof.
  intros Hc. rewrite (layout_ext _ (targets 0 done)) by (intros; by apply targets_snoc).
  rewrite layout_app. simpl. by rewrite app_nil_r.
Qed.

Lemma binds_snoc done c : is_instruction c = true -> binds (done ++ [c]) = binds done.
Proof. intros Hc. rewrite binds_app. destruct c; try done; by rewrite app_nil_r. Qed.

Lemma jumps_snoc done c : jumps (done ++ [c]) = jumps done ++ option_list (jump_label c).
Proof. by rewrite jumps_app. Qed.

Lemma inst_snoc done c : is_instruction c = true ->
  length (List.filter is_instruction (done ++ [c])) =
  S (length (List.filter is_instruction done)).
Proof.
  intros Hc. rewrite List.filter_app, length_app. cbn [List.filter]. rewrite Hc. simpl. lia.
Qed.

(** The head of an instruction is emitted whole. *)
Lemma emit_head b code l :
  holds b code -> (length l <= ASM_BUFFER_GAP)%nat ->
  exists b', emit (asmEnsureCapacity b) l = Some b' /\ holds b' (code ++ l) /\ instOffset b' = instOffset b.
Proof.
  intros Hh Hl. destruct (asmEnsureCapacity_spec b code Hh) as (Hh' & Hr & _ & Hi & _).
  destruct (asm_emit_spec _ _ l Hh') as (b' & He & Hb & _ & _ & Hi' & _); [unfold room in *; lia|].
  exists b'. by rewrite Hi', Hi.
Qed.

Lemma holds_next_inst b code : holds b code -> holds (next_inst b) code.
Proof. by intros []. Qed.

Lemma inv_plain done b ls b' c :
  inv done b ls -> is_instruction c = true -> jump_label c = None ->
  holds b' (layout (targets 0 done) 0 done ++ head_bytes c) -> instOffset b' = instOffset b ->
  inv (done ++ [c]) (next_inst b') ls.
Proof.
  intros [Hc Hi Hb Hr Ht Hf] Hins Hj Hh Hio. split.
  - apply holds_next_inst. rewrite layout_snoc by done. unfold command_bytes. rewrite Hj. by rewrite app_nil_r.
  - simpl. rewrite inst_snoc by done. lia.
  - intros l. by rewrite binds_snoc.
  - intros l. rewrite jumps_snoc, Hj. simpl. by rewrite app_nil_r.
  - intros l t. rewrite targets_snoc, jumps_snoc, Hj by done. simpl. rewrite app_nil_r. apply Ht.
  - intros l f. rewrite field_app, binds_snoc by done. simpl. rewrite Hj, decide_False by done.
    destruct (field 0 done l) eqn:Hfl; [|done]. intros [= <-]. by apply Hf.
Qed.

Lemma inv_jump done b ls b1 c l :
  inv done b ls -> is_instruction c = true -> jump_label c = Some l -> ~ In l (jumps done) ->
  holds b1 (layout (targets 0 done) 0 done ++ head_bytes c) -> instOffset b1 = instOffset b ->
  exists b2 x, asmEmitLabel32 b1 (ls l) = Some (b2, x) /\ inv (done ++ [c]) (next_inst b2) (set_label ls l x).
Proof.
  intros [Hc Hi Hb Hr Ht Hf] Hins Hj Hfresh Hh Hio. unfold asmEmitLabel32.
  assert (isResolved (ls l) = false) as Hres.
  { apply not_true_iff_false. rewrite Hr. done. }
  rewrite Hres. cbn [negb ASSERT mbind option_bind].
  destruct (asmEnsureCapacity_spec b1 _ Hh) as (Hh1 & Hroom & _ & Hi1 & Hp1).
  set (d := displacement (targets 0 done) l (code_size done + length (head_bytes c))).
  assert (p b1 = code_size done + length (head_bytes c))%nat as Hpb.
  { rewrite (holds_p _ _ Hh), length_app, length_layout. done. }
  destruct (asm_emit_spec _ _ (storeI32 d) Hh1) as (b2 & He & Hh2 & _ & _ & Hi2 & _).
  { unfold room, ASM_BUFFER_GAP in *. autorewrite with cint. lia. }
  assert (forall off sz bd, (bd = true <-> In l (binds done)) ->
    (forall t, targets 0 done l = Some t -> off = t) ->
    (~ In l (binds done) -> off = Z.of_nat (p b1) /\ sz = 4) ->
    inv (done ++ [c]) (next_inst b2) (set_label ls l (mkLabel bd true off sz))) as Hinv.
  { intros off sz bd Hbd Hoff Hsz. split.
    - apply holds_next_inst. rewrite layout_snoc by done. unfold command_bytes. rewrite Hj, app_assoc. done.
    - simpl. rewrite inst_snoc by done. lia.
    - intros l'. rewrite binds_snoc by done. unfold set_label. case_decide; [by subst|apply Hb].
    - intros l'. rewrite jumps_snoc, Hj, in_app_iff. simpl. unfold set_label. case_decide; subst; simpl.
      + split; auto.
      + rewrite Hr. split; [by left|]. by intros [|[->|[]]].
    - intros l' t. rewrite targets_snoc, jumps_snoc, Hj, in_app_iff by done. simpl. intros Htl Hn.
      unfold set_label. rewrite decide_False by (intros ->; apply Hn; auto). apply Ht; [done|]. intros ?; apply Hn; auto.
    - intros l' f. rewrite field_app, binds_snoc by done. simpl. rewrite Hj. unfold set_label.
      destruct (decide (l' = l)) as [->|Hne].
      + destruct (field 0 done l) eqn:Hfl; [by destruct Hfresh; apply (field_jumps 0); eexists|].
        rewrite decide_True by done. intros [= <-] Hnb. simpl. rewrite <- Hpb. by apply Hsz.
      + destruct (field 0 done l') eqn:Hfl; [intros [= <-]; by apply Hf|].
        rewrite decide_False by congruence. done. }
  destruct (isBound (ls l)) eqn:Hbd.
  - assert (is_Some (targets 0 done l)) as [t Htl] by (apply targets_binds, Hb; done).
    unfold asmEmitInt32.
    assert (l_offset (ls l) - asmOffset (asmEnsureCapacity b1) - 4 = d) as ->.
    { unfold d, displacement, asmOffset. rewrite Htl, (Ht l t), Hp1, Hpb by done. done. }
    rewrite He. cbn [mbind option_bind]. eexists _, _. split; [done|]. apply Hinv.
    + apply Hb in Hbd. done.
    + intros t' Ht'. apply Ht; [|done]. congruence.
    + intros Hn. destruct Hn. by apply Hb.
  - assert (targets 0 done l = None) as Htl.
    { destruct (targets 0 done l) eqn:Hx; [|done]. exfalso. enough (isBound (ls l) = true) by congruence.
      apply Hb, (targets_binds 0). by eexists. }
    assert (d = 0) as Hd by (unfold d, displacement; by rewrite Htl). rewrite Hd in *.
    unfold asmEmitInt32. rewrite He. cbn [mbind option_bind]. eexists _, _. split; [done|]. apply Hinv.
    + rewrite <- Hb. by rewrite Hbd.
    + intros t'. by rewrite Htl.
    + intros _. unfold asmOffset. by rewrite Hp1.
Qed.

Lemma targets_bind done l l' :
  ~ In l (binds done) ->
  targets 0 (done ++ [CBind l]) l' = if decide (l' = l) then Some (Z.of_nat (code_size done)) else targets 0 done l'.
Proof.
  intros Hn. rewrite targets_app. simpl. destruct (targets 0 done l') eqn:Ht; case_decide; subst; try done.
  exfalso. apply Hn, (targets_binds 0). by eexists.
Qed.

Lemma binds_bind done l : binds (done ++ [CBind l]) = binds done ++ [l].
Proof. by rewrite binds_app. Qed.

Lemma jumps_bind done l : jumps (done ++ [CBind l]) = jumps done.
Proof. rewrite jumps_app. apply app_nil_r. Qed.

Lemma field_bind done l l' : field 0 (done ++ [CBind l]) l' = field 0 done l'.
Proof. rewrite field_app. simpl. by destruct (field 0 done l'). Qed.

Lemma layout_bind done l :
  NoDup (jumps done) -> ~ In l (binds done) ->
  layout (targets 0 (done ++ [CBind l])) 0 (done ++ [CBind l]) =
    match field 0 done l with
    | Some f =>
        take f (layout (targets 0 done) 0 done) ++ storeI32 (Z.of_nat (code_size done) - Z.of_nat f - 4) ++
        drop (f + 4) (layout (targets 0 done) 0 done)
    | None => layout (targets 0 done) 0 done
    end.
Proof.
  intros Hnd Hn. rewrite layout_app. cbn [layout command_bytes head_bytes jump_label app]. rewrite app_nil_r.
  destruct (field 0 done l) as [f|] eqn:Hf.
  - rewrite (layout_patch (targets 0 done) _ 0 done l f (Z.of_nat (code_size done))); try done.
    + by rewrite Nat.sub_0_r.
    + intros l' Hne. rewrite targets_bind by done. by rewrite decide_False.
    + rewrite targets_bind by done. by rewrite decide_True.
  - apply layout_ext. intros l' Hin. rewrite targets_bind by done. rewrite decide_False; [done|].
    intros ->. destruct (field_jumps 0 done l) as [_ Hx]. destruct (Hx Hin) as [? ?]. congruence.
Qed.

Lemma inv_bind done b ls l :
  inv done b ls -> NoDup (jumps done) -> ~ In l (binds done) ->
  exists b' x, asmLabelBind b (ls l) (asmOffset b) = Some (b', x) /\ inv (done ++ [CBind l]) b' (set_label ls l x).
Proof.
  intros Hinv Hnd Hfresh. pose proof (inv_p _ _ _ Hinv) as Hp. destruct Hinv as [Hc Hi Hb Hr Ht Hf].
  unfold asmLabelBind, asmOffset. rewrite Hp.
  assert (isBound (ls l) = false) as -> by (apply not_true_iff_false; by rewrite Hb).
  cbn [negb ASSERT mbind option_bind].
  assert (forall b' off sz re, holds b' (layout (targets 0 (done ++ [CBind l])) 0 (done ++ [CBind l])) ->
    instOffset b' = instOffset b -> (re = true <-> In l (jumps done)) ->
    (~ In l (jumps done) -> off = Z.of_nat (code_size done)) ->
    inv (done ++ [CBind l]) b' (set_label ls l (mkLabel true re off sz))) as Hk.
  { intros b' off sz re Hh Hio Hre Hoff. split.
    - done.
    - rewrite List.filter_app, length_app. simpl. lia.
    - intros l'. rewrite binds_bind, in_app_iff. simpl. unfold set_label. case_decide; subst; simpl.
      + split; auto.
      + rewrite Hb. split; [by left|]. by intros [|[->|[]]].
    - intros l'. rewrite jumps_bind. unfold set_label. case_decide; subst; [done|apply Hr].
    - intros l' t. rewrite targets_bind, jumps_bind by done. unfold set_label. case_decide; subst.
      + intros [= <-] Hnj. simpl. by apply Hoff.
      + apply Ht.
    - intros l' f. rewrite field_bind, binds_bind, in_app_iff. intros Hfl Hnb. unfold set_label.
      rewrite decide_False by (intros ->; apply Hnb; simpl; auto). apply Hf; [done|]. intros ?; apply Hnb; auto. }
  pose proof (layout_bind done l Hnd Hfresh) as Hlay.
  destruct (isResolved (ls l)) eqn:Hres.
  - assert (is_Some (field 0 done l)) as [f Hfl] by (apply field_jumps, Hr; done).
    destruct (Hf l f Hfl Hfresh) as [-> ->]. rewrite Hfl in Hlay.
    destruct (field_bound _ _ _ _ Hfl) as [_ Hfb]. rewrite storeU32_i32, Nat2Z.id.
    destruct (write_spec b _ f (storeI32 (Z.of_nat (code_size done) - Z.of_nat f - 4)) Hc) as (b' & Hw & Hh & _ & Hio & _).
    { autorewrite with cint. rewrite length_layout. lia. }
    rewrite length_storeI32, <- Hlay in Hh. cbn [mbind option_bind]. rewrite Hw. cbn [mbind option_bind].
    eexists _, _. split; [done|]. apply Hk; try done; rewrite <- Hr, Hres; done.
  - assert (field 0 done l = None) as Hfl.
    { destruct (field 0 done l) eqn:Hx; [|done]. exfalso. enough (isResolved (ls l) = true) by congruence.
      apply Hr, (field_jumps 0). by eexists. }
    rewrite Hfl in Hlay. eexists _, _. split; [done|]. apply Hk; try done.
    + by rewrite Hlay.
    + by rewrite <- Hr, Hres.
Qed.

Lemma NoDup_app_l {A} (a b : list A) : NoDup (a ++ b) -> NoDup a.
Proof. intros Hn. by apply list.NoDup_app in Hn as [? _]. Qed.

Lemma NoDup_snoc {A} (a : list A) x : NoDup (a ++ [x]) -> ~ In x a.
Proof.
  intros (_ & Hx & _)%list.NoDup_app Hin. apply (Hx x); [by apply list_elem_of_In|]. by apply list_elem_of_singleton.
Qed.

Lemma run_command_spec done c b ls :
  inv done b ls -> method_ok (done ++ [c]) ->
  exists s', run_command c (b, ls) = Some s' /\ inv (done ++ [c]) s'.1 s'.2.
Proof.
  intros Hinv [Hok Hfit Hj Hb].
  apply Forall_app in Hok as [_ Hok%Forall_cons_1]. destruct Hok as [Hok _].
  apply Forall_app in Hfit as [_ Hfit%Forall_cons_1]. destruct Hfit as [Hfit _].
  destruct (emit_head b _ (head_bytes c) (inv_code _ _ _ Hinv) Hfit) as (b1 & He & Hh & Hio).
  assert (forall l, jump_label c = Some l -> ~ In l (jumps done)) as Hfresh.
  { intros l Hl. rewrite jumps_snoc, Hl in Hj. by apply NoDup_snoc in Hj. }
  destruct (is_instruction c) eqn:Hins; [destruct (jump_label c) as [l|] eqn:Hjl|].
  - destruct (inv_jump _ _ _ b1 c l Hinv Hins Hjl (Hfresh l eq_refl) Hh Hio) as (b2 & x & Hl & Hi').
    exists (next_inst b2, set_label ls l x). split; [|done]. destruct c; try done; injection Hjl as ->; cbn [run_command].
    + rewrite bytecodeJump_emit. change (head_bytes (CJump 0)) with (head_bytes (CJump l)).
      rewrite He. cbn [mbind option_bind]. by rewrite Hl.
    + rewrite (bytecodeJumpNotMemberOf_emit _ _ _ _ l) by done. rewrite He. cbn [mbind option_bind]. by rewrite Hl.
  - exists (next_inst b1, ls). split; [|by apply (inv_plain _ b)].
    destruct c; try done; cbn [run_command].
    + by rewrite bytecodeCopy_emit, He by done.
    + by rewrite bytecodeSend_emit, He by done.
    + by rewrite bytecodeSendWithStore_emit, He by done.
    + by rewrite bytecodeReturn_emit, He by done.
  - destruct c as [| | | | | |l]; try done. rewrite jumps_bind in Hj. rewrite binds_bind in Hb. apply NoDup_snoc in Hb.
    destruct (inv_bind _ _ _ l Hinv Hj Hb) as (b' & x & Hbind & Hi'). exists (b', set_label ls l x).
    split; [|done]. cbn [run_command]. by rewrite Hbind.
Qed.

Lemma method_ok_prefix a b : method_ok (a ++ b) -> method_ok a.
Proof.
  intros [Ho Hf Hj Hb]. rewrite jumps_app in Hj. rewrite binds_app in Hb.
  split; [by apply Forall_app in Ho as [? _]|by apply Forall_app in Hf as [? _]|by eapply NoDup_app_l|by eapply NoDup_app_l].
Qed.

Lemma assemble_spec cs : forall done b ls,
  inv done b ls -> method_ok (done ++ cs) ->
  exists s', assemble cs (b, ls) = Some s' /\ inv (done ++ cs) s'.1 s'.2.
Proof.
  induction cs as [|c cs IH]; intros done b ls Hinv Hok; cbn [assemble].
  - rewrite app_nil_r. by exists (b, ls).
  - change (c :: cs) with ([c] ++ cs) in *. rewrite app_assoc in *.
    destruct (run_command_spec done c b ls Hinv) as ([b' ls'] & Hr & Hi); [by apply method_ok_prefix in Hok|].
    rewrite Hr. cbn [mbind option_bind]. by apply IH.
Qed.

Lemma inv_start node size sites (labels : Labels) :
  inv [] (asmInitBuffer node size sites).1 (fun l => asmInitLabel (labels l)).
Proof. by split; [apply asm_init_holds|..]. Qed.

(** *** What a consumer reads *)

Definition instruction_of (tgt : nat -> option Z) (pos : nat) (c : Command) : option Instruction :=
  match c with
  | CCopy s d => Some (ICopy (canonical s) (canonical d))
  | CSend selector receiver args => Some (ISend selector (canonical receiver) (canonical <$> reverse args))
  | CSendWithStore selector receiver result args =>
      Some (ISendWithStore selector (canonical receiver) (canonical <$> reverse args) (canonical result))
  | CReturn outer o => Some (IReturn outer (canonical o))
  | CJump l => Some (IJump (displacement tgt l (pos + length (head_bytes c))))
  | CJumpNotMemberOf o class l =>
      Some (IJumpNotMemberOf class (canonical o) (displacement tgt l (pos + length (head_bytes c))))
  | CBind _ => None
  end.

(** Each instruction with its number and its offset. *)
Fixpoint listing (tgt : nat -> option Z) (num : Z) (pos : nat) (cs : list Command) : list (Z * nat * Instruction) :=
  match cs with
  | [] => []
  | c :: t =>
      match instruction_of tgt pos c with
      | Some i => (num, pos, i) :: listing tgt (num + 1) (pos + command_size c) t
      | None => listing tgt num pos t
      end
  end.

Lemma next_operands_spec it os r :
  Forall operand_ok os -> ahead it (concat (operand_bytes <$> os) ++ r) ->
  next_operands (length os) it = Some (canonical <$> os, advance it (length (concat (operand_bytes <$> os)))).
Proof.
  revert it. induction os as [|o os IH]; intros it Hok Ha; simpl in *.
  - unfold advance. rewrite Nat.add_0_r. by destruct it.
  - apply Forall_cons_1 in Hok as [Ho Hok]. rewrite <- app_assoc in Ha.
    rewrite (bytecodeNextOperand_spec _ _ _ Ho Ha). simpl.
    apply (ahead_advance _ _ _ (length (operand_bytes o))) in Ha; [|done].
    rewrite (IH _ Hok Ha). simpl. by rewrite advance_advance, length_app.
Qed.

Lemma ahead_number it l n : ahead it l -> ahead (mkIterator (stream it) (ip it) (iend it) n) l.
Proof. done. Qed.

Lemma bytecodeNext_spec it c r :
  ahead it (bytecode_number c :: r) ->
  bytecodeNext it = Some (c, mkIterator (stream it) (ip it + 1) (iend it) (number it + 1)).
Proof.
  intros Ha. unfold bytecodeNext. rewrite (next_byte_spec _ _ r) by (by apply ahead_number).
  cbn [mbind option_bind]. by rewrite bytecodes_number.
Qed.

Lemma advance_0 it : advance it 0 = it.
Proof. unfold advance. rewrite Nat.add_0_r. by destruct it. Qed.

Lemma read_send it c selector receiver args r k :
  0 <= selector < 2 ^ 16 -> operand_ok receiver -> Forall operand_ok args -> (length args <= 255)%nat ->
  ahead it (storeU16 selector ++ [u8 (Z.of_nat (length args))] ++ operand_bytes receiver ++
    concat (operand_bytes <$> reverse args) ++ r) ->
  (forall n, n = length (concat (operand_bytes <$> reverse args)) ->
     ahead (advance it (3 + length (operand_bytes receiver) + n)) r ->
     (if decide (c = BYTECODE_SEND_WITH_STORE) then
        '(result, it) ← bytecodeNextOperand (advance it (3 + length (operand_bytes receiver) + n));
        Some (ISendWithStore selector (canonical receiver) (canonical <$> reverse args) result, it)
      else Some (ISend selector (canonical receiver) (canonical <$> reverse args),
                 advance it (3 + length (operand_bytes receiver) + n))) = k) ->
  ('(selector, it) ← bytecodeNextUint16 it;
   '(argsSize, it) ← bytecodeNextByte it;
   '(receiver, it) ← bytecodeNextOperand it;
   '(args, it) ← next_operands (Z.to_nat argsSize) it;
   if decide (c = BYTECODE_SEND_WITH_STORE) then
     '(result, it) ← bytecodeNextOperand it; Some (ISendWithStore selector receiver args result, it)
   else Some (ISend selector receiver args, it)) = k.
Proof.
  intros Hs Hr Hok Hl Ha Hk.
  rewrite (next_uint16_spec _ _ _ Hs Ha). cbn [mbind option_bind].
  apply (ahead_advance _ _ _ 2) in Ha; [|by autorewrite with cint]. simpl app in Ha.
  rewrite (next_byte_spec _ _ _ Ha). cbn [mbind option_bind]. apply ahead_cons in Ha.
  rewrite advance_advance in *. rewrite (bytecodeNextOperand_spec _ _ _ Hr Ha). cbn [mbind option_bind].
  apply (ahead_advance _ _ _ (length (operand_bytes receiver))) in Ha; [|done]. rewrite advance_advance in *.
  rewrite u8_id by lia. rewrite Nat2Z.id, <- (length_reverse args).
  rewrite (next_operands_spec _ (reverse args) r) by (by rewrite ?Forall_reverse). cbn [mbind option_bind].
  rewrite advance_advance. apply Hk; [done|]. rewrite <- advance_advance.
  by apply (ahead_advance _ (concat (operand_bytes <$> reverse args))).
Qed.

Definition numbered (it : BytecodesIterator) (n : nat) : BytecodesIterator :=
  mkIterator (stream it) (ip it + n) (iend it) (number it + 1).

Lemma numbered_advance it m n : advance (numbered it m) n = numbered it (m + n).
Proof. unfold advance, numbered; simpl. by rewrite Nat.add_assoc. Qed.

(** Two readings that end at the same place. *)
Ltac same_end :=
  match goal with |- Some (_, numbered _ ?a) = Some (_, numbered _ ?b) => replace b with a; [done|] end.

Lemma read_instruction_spec tgt pos c i it r :
  command_ok c -> instruction_of tgt pos c = Some i ->
  (forall l, jump_label c = Some l -> - 2 ^ 31 <= displacement tgt l (pos + length (head_bytes c)) < 2 ^ 31) ->
  ahead it (command_bytes tgt pos c ++ r) ->
  read_instruction it = Some (i, numbered it (command_size c)).
Proof.
  intros Hok Hi Hd Ha. unfold command_bytes in Ha. rewrite <- app_assoc in Ha.
  unfold command_size. unfold read_instruction.
  assert (forall code body, ahead it (bytecode_number code :: body) ->
    bytecodeNext it = Some (code, numbered it 1) /\ ahead (numbered it 1) body) as Hnext.
  { intros code body Hb. split; [by apply (bytecodeNext_spec _ _ body)|]. by apply ahead_cons in Hb. }
  destruct c; cbn [head_bytes jump_label instruction_of length] in *; try done;
    rewrite ?Nat.add_0_r; injection Hi as <-; unfold send_bytes in *;
    rewrite <- ?app_comm_cons in Ha; destruct (Hnext _ _ Ha) as [-> Ha']; clear Ha Hnext;
    cbn [mbind option_bind].
  - destruct Hok as (Hs & Hdst & _). rewrite <- !app_assoc in Ha'.
    rewrite (bytecodeNextOperand_spec _ _ _ Hs Ha'). cbn [mbind option_bind].
    apply (ahead_advance _ _ _ (length (operand_bytes source))) in Ha'; [|done].
    rewrite (bytecodeNextOperand_spec _ _ _ Hdst Ha'). cbn [mbind option_bind].
    rewrite !numbered_advance, length_app. done.
  - destruct Hok as (Hs & Hr & Hargs & Hl). rewrite <- !app_assoc in Ha'. cbn [app] in Ha'. rewrite <- !app_assoc in Ha'.
    apply (read_send _ _ _ _ _ _ _ Hs Hr Hargs Hl Ha'). intros n -> _.
    rewrite decide_False by done. rewrite numbered_advance. same_end.
    cbn [length]. rewrite !length_app, length_storeU16. cbn [length]. lia.
  - destruct Hok as (Hs & Hr & Hres & Hargs & Hl). rewrite <- !app_assoc in Ha'. cbn [app] in Ha'. rewrite <- !app_assoc in Ha'.
    apply (read_send _ _ _ _ _ _ _ Hs Hr Hargs Hl Ha'). intros n -> Ha2.
    rewrite decide_True by done. rewrite (bytecodeNextOperand_spec _ _ _ Hres Ha2). cbn [mbind option_bind].
    rewrite !numbered_advance. same_end.
    rewrite !length_app. cbn [length]. rewrite !length_app, length_storeU16. cbn [length]. lia.
  - destruct outer; cbn [mbind option_bind]; rewrite (bytecodeNextOperand_spec _ _ _ Hok Ha'); cbn [mbind option_bind];
      rewrite numbered_advance; done.
  - rewrite (next_int32_spec _ _ _ (Hd label eq_refl) Ha'). cbn [mbind option_bind]. by rewrite numbered_advance.
  - destruct Hok as (Ho & Hc). rewrite <- !app_assoc in Ha'. rewrite (next_uint16_spec _ _ _ Hc Ha').
    cbn [mbind option_bind]. apply (ahead_advance _ _ _ 2) in Ha'; [|by autorewrite with cint].
    rewrite (bytecodeNextOperand_spec _ _ _ Ho Ha'). cbn [mbind option_bind].
    apply (ahead_advance _ _ _ (length (operand_bytes operand))) in Ha'; [|done].
    rewrite (next_int32_spec _ _ _ (Hd label eq_refl) Ha'). cbn [mbind option_bind]. rewrite !numbered_advance.
    same_end. cbn [length]. rewrite length_app, length_storeU16. lia.
Qed.

Lemma command_size_pos c : is_instruction c = true -> (0 < command_size c)%nat.
Proof. destruct c; try done; unfold command_size; simpl; lia. Qed.

Lemma instruction_of_Some tgt pos c : is_instruction c = true -> exists i, instruction_of tgt pos c = Some i.
Proof. destruct c; try done; simpl; eauto. Qed.

(** The displacements are in the range the compiler's size limit gives. *)
Definition in_reach (tgt : nat -> option Z) (pos : nat) (cs : list Command) : Prop :=
  forall l f, field pos cs l = Some f -> - 2 ^ 31 <= displacement tgt l f < 2 ^ 31.

Lemma in_reach_cons tgt pos c cs :
  NoDup (jumps (c :: cs)) -> in_reach tgt pos (c :: cs) ->
  (forall l, jump_label c = Some l -> - 2 ^ 31 <= displacement tgt l (pos + length (head_bytes c)) < 2 ^ 31) /\
  in_reach tgt (pos + command_size c) cs.
Proof.
  intros Hnd Hr. rewrite jumps_cons in Hnd. split.
  - intros l Hl. apply (Hr l). simpl. by rewrite decide_True.
  - intros l f Hf. apply (Hr l). simpl. rewrite decide_False; [done|]. intros Hl. rewrite Hl in Hnd.
    inversion_clear Hnd as [|? ? Hn _]. apply Hn, list_elem_of_In, (field_jumps (pos + command_size c)).
    by eexists.
Qed.

Lemma printBytecodes_loop tgt cs : forall fuel acc it num pos,
  Forall command_ok cs -> NoDup (jumps cs) -> in_reach tgt pos cs ->
  ahead it (layout tgt pos cs) -> ip it = pos -> iend it = (pos + code_size cs)%nat -> number it = num - 1 ->
  (code_size cs < fuel)%nat ->
  loop fuel (fun '(acc, it) =>
    if bytecodeHasNext it then
      let start := ip it in
      '(i, it) ← read_instruction it;
      Some (inl (acc ++ [(bytecodeNumber it, start, i)], it))
    else Some (inr acc)) (acc, it) = Some (acc ++ listing tgt num pos cs).
Proof.
  induction cs as [|c cs IH]; intros fuel acc it num pos Hok Hnd Hr Ha Hip Hend Hnum Hfuel; (destruct fuel as [|fuel]; [lia|]).
  - cbn [loop listing]. simpl in Hend.
    assert (bytecodeHasNext it = false) as -> by (unfold bytecodeHasNext; apply Nat.ltb_ge; lia).
    simpl. by rewrite app_nil_r.
  - apply Forall_cons_1 in Hok as [Hc Hok]. destruct (in_reach_cons _ _ _ _ Hnd Hr) as [Hd Hr'].
    rewrite jumps_cons in Hnd. cbn [layout code_size] in *.
    assert (NoDup (jumps cs)) as Hnd' by (destruct (jump_label c); [by inversion_clear Hnd|done]).
    destruct (is_instruction c) eqn:Hins.
    + pose proof (command_size_pos c Hins) as Hpos. destruct (instruction_of_Some tgt pos c Hins) as [i Hi].
      pose proof (read_instruction_spec _ _ _ _ _ _ Hc Hi Hd Ha) as Hread.
      cbn [loop listing].
      assert (bytecodeHasNext it = true) as -> by (unfold bytecodeHasNext; apply Nat.ltb_lt; lia).
      rewrite Hread, Hi, Hip. cbn [mbind option_bind].
      rewrite (IH fuel _ _ (num + 1) (pos + command_size c)%nat); try done.
      * rewrite <- app_assoc. unfold bytecodeNumber, numbered. cbn [number app]. repeat f_equal. lia.
      * apply (ahead_advance _ _ _ (command_size c)) in Ha; [|by rewrite length_command_bytes]. done.
      * cbn. lia.
      * cbn. lia.
      * cbn. lia.
      * lia.
    + destruct c as [| | | | | |l]; try done. unfold command_size in *. cbn [head_bytes jump_label length app command_bytes layout listing instruction_of Nat.add] in *.
      apply IH; try done. by rewrite Nat.add_0_r in Hr'. by rewrite Nat.add_0_r in Ha.
Qed.

Lemma targets_in_reach cs : Z.of_nat (code_size cs) < 2 ^ 31 -> in_reach (targets 0 cs) 0 cs.
Proof.
  intros Hs l f Hf. apply field_bound in Hf as [_ Hf]. unfold displacement.
  destruct (targets 0 cs l) as [t|] eqn:Ht; [|lia]. apply targets_bound in Ht. lia.
Qed.

Lemma printBytecodes_spec cs :
  method_ok cs -> Z.of_nat (code_size cs) < 2 ^ 31 ->
  printBytecodes (assembled cs) (length (assembled cs)) = Some (listing (targets 0 cs) 0 0 cs).
Proof.
  intros [Hok _ Hj _] Hs. unfold printBytecodes, assembled.
  rewrite (printBytecodes_loop (targets 0 cs) cs _ [] _ 0 0); try done.
  - by apply targets_in_reach.
  - cbn. apply length_layout.
  - rewrite length_layout. lia.
Qed.
End Bytes.

(** ** Properties *)

Section Properties.
Context `{Target}.


(** C15. The iterator reads back what the encoders wrote: walking the emitted
    bytes gives, in order and with their numbers and offsets, exactly the
    instructions that were emitted, with the arguments of a send reversed and
    every jump's displacement leading from the end of the instruction to the
    place its label was bound. *)
Theorem bytecodes_roundtrip node size sites (labels : Labels) cs :
  method_ok cs -> Z.of_nat (code_size cs) < 2 ^ 31 ->
  exists b ls code, assemble cs ((asmInitBuffer node size sites).1, fun l => asmInitLabel (labels l)) = Some (b, ls) /\
    asmCopyBuffer b (p b) = Some code /\
    printBytecodes code (length code) = Some (listing (targets 0 cs) 0 0 cs).
Proof.
  intros Hok Hs. destruct (assemble_spec cs [] _ _ (inv_start node size sites labels) Hok) as ([b ls] & Ha & Hi).
  simpl in Hi. exists b, ls, (assembled cs). split; [done|].
  split; [apply copy_holds, Hi|by apply printBytecodes_spec].
Qed.

(** The gap does not cover every send: [bytecodeSend] asks for capacity
    once, and a send longer than what is then free writes past the end of the
    block.  The bound is exact. *)
Theorem bytecodeSend_bounds b selector receiver args :
  command_ok (CSend selector receiver args) ->
  is_Some (bytecodeSend b selector receiver args (length args)) <->
  room (asmEnsureCapacity b) (length (send_bytes BYTECODE_SEND selector receiver args)).
Proof.
  intros Hok. rewrite bytecodeSend_emit by done. cbn [head_bytes]. rewrite fmap_is_Some. split.
  - intros [b' He]. unfold room. apply dec_stable. intros Hr. rewrite emit_None in He; [done|lia].
  - intros Hr. rewrite emit_Some by done. by eexists.
Qed.
End Properties.

(** *** Witnesses *)

Module Examples.
#[local] Existing Instance target_le.

Definition temp (i : Z) : Operand := mkOperand true OPERAND_TEMP_VAR i 0 no_instance 0.
Definition self : Operand := mkOperand true OPERAND_ARG_VAR 1 0 no_instance 0.
Definition small (v : Z) : Operand := mkOperand true OPERAND_VALUE 0 0 no_instance v.

(** [1 to: 10 do: [...]], as compileInlinedLoop emits it. *)
Definition loop_method : list Command :=
  [CCopy (small 40) (temp 4); CCopy (small 4) (temp 3); CBind 0;
   CSendWithStore 0 (temp 3) (temp 5) [temp 4]; CJumpNotMemberOf (temp 5) 2 1;
   CSendWithStore 1 (temp 3) (temp 3) [small 4]; CJump 0; CBind 1; CReturn false self].

Lemma loop_method_ok : method_ok loop_method.
Proof.
  split.
  - repeat constructor; simpl; lia.
  - repeat constructor; vm_compute; lia.
  - apply (bool_decide_unpack _). by vm_compute.
  - apply (bool_decide_unpack _). by vm_compute.
Defined.


Lemma bytecodes_roundtrip_witness :
  exists b ls code, assemble loop_method ((asmInitBuffer 0 16 []).1, fun _ => asmInitLabel (mkLabel true true 0 0)) = Some (b, ls) /\
    asmCopyBuffer b (p b) = Some code /\
    printBytecodes code (length code) = Some (listing (targets 0 loop_method) 0 0 loop_method).
Proof.
  apply (bytecodes_roundtrip 0 16 [] (fun _ => mkLabel true true 0 0) loop_method).
  - exact loop_method_ok.
  - vm_compute. done.
Defined.

(** 51 assignments of nil leave the offset at 255 of 256; a send with seven
    integer literals then has 65 bytes free and needs 70. *)
Definition nearly_full : AssemblerBuffer :=
  match assemble (replicate 51 (CCopy (operand_of_type OPERAND_NIL) (temp 3))) ((asmInitBuffer 0 256 []).1, fun _ => mkLabel false false 0 0) with
  | Some (b, _) => b
  | None => (asmInitBuffer 0 256 []).1
  end.

Lemma bytecodeSend_bounds_witness :
  is_Some (bytecodeSend nearly_full 0 self (replicate 7 (small 4)) 7) <-> False.
Proof.
  assert (command_ok (CSend 0 self (replicate 7 (small 4)))) as Hok by (repeat constructor; simpl; lia).
  pose proof (bytecodeSend_bounds nearly_full 0 self (replicate 7 (small 4)) Hok) as Hb.
  assert (room (asmEnsureCapacity nearly_full) (length (send_bytes BYTECODE_SEND 0 self (replicate 7 (small 4)))) <-> False) as Hr.
  { split; [|done]. unfold room. vm_compute. lia. }
  exact (iff_trans Hb Hr).
Defined.
End Examples.
