(* ===== verification/Ppc64Asm.v ===== *)
(** * The POWER assembler

    [src/vm/jit/ppc64/AssemblerPpc64.h] and the two word headers
    [WordBe.h] and [WordLe.h]: the instruction encoders, the ppc64 labels, and
    the patchable five-instruction sequence that loads a 64-bit immediate.

    Each encoder keeps its name; one that emits a single instruction answers
    the buffer after [asmPpcEmitWord].  A [Register] is its number. *)
From S2P Require Import Prelude Endian Assembler.

(** ** Words in memory *)

Section Words.
Context `{Target}.

Definition ppcLoadWord_be (b0 b1 b2 b3 : Z) : Z :=
  Z.lor (Z.lor (Z.lor (Z.shiftl b0 24) (Z.shiftl b1 16)) (Z.shiftl b2 8)) b3.
Definition ppcLoadWord_le (b0 b1 b2 b3 : Z) : Z :=
  Z.lor (Z.lor (Z.lor b0 (Z.shiftl b1 8)) (Z.shiftl b2 16)) (Z.shiftl b3 24).

Definition ppcStoreWord_be (word : Z) : list Z :=
  [u8 (Z.shiftr word 24); u8 (Z.shiftr word 16); u8 (Z.shiftr word 8); u8 word].
Definition ppcStoreWord_le (word : Z) : list Z :=
  [u8 word; u8 (Z.shiftr word 8); u8 (Z.shiftr word 16); u8 (Z.shiftr word 24)].

Definition ppcLoadWord (l : list Z) : option Z :=
  match l with
  | [b0; b1; b2; b3] => Some (if TARGET_BIG_ENDIAN then ppcLoadWord_be b0 b1 b2 b3 else ppcLoadWord_le b0 b1 b2 b3)
  | _ => None
  end.

Definition ppcStoreWord (word : Z) : list Z :=
  if TARGET_BIG_ENDIAN then ppcStoreWord_be word else ppcStoreWord_le word.

Definition asmPpcEmitWord (b : AssemblerBuffer) (word : Z) : option AssemblerBuffer :=
  emit (asmEnsureCapacity b) (ppcStoreWord word).

(** ** Registers and condition bits *)

Definition R0 : Z := 0.
Definition R1 : Z := 1.
Definition NO_REGISTER : Z := -2.
Definition TMP2 : Z := 10.
Definition CR_LT : Z := 0.
Definition CR_GT : Z := 1.
Definition CR_EQ : Z := 2.
Definition CR_SO : Z := 3.
Definition BO_IF_FALSE : Z := 4.
Definition BO_IF_TRUE : Z := 12.
Definition BO_ALWAYS : Z := 20.
Definition SPR_XER : Z := 1.
Definition SPR_LR : Z := 8.
Definition SPR_CTR : Z := 9.

(** [(uint32_t) (r & 31) << k] *)
Definition reg_at (r k : Z) : Z := u32 (Z.shiftl (Z.land r 31) k).

(** ** Instruction forms *)

Definition between (lo x hi : Z) : bool := (lo <=? x) && (x <=? hi).

Definition ppcDsForm (opcd rt disp ra xo : Z) : option Z :=
  _ ← ASSERT ((0 <=? rt) && (0 <=? ra));
  _ ← ASSERT ((Z.land disp 3 =? 0) && between (-32768) disp 32764);
  Some (Z.lor (Z.lor (Z.lor (Z.lor (u32 (Z.shiftl opcd 26)) (reg_at rt 21)) (reg_at ra 16))
          (Z.land (u32 disp) 0xFFFC)) xo).

(** Register arguments arrive as [uint8_t]. *)
Definition ppcDForm (opcd rt ra d : Z) : option Z :=
  _ ← ASSERT ((u8 rt <=? 31) && (u8 ra <=? 31));
  _ ← ASSERT (between (-32768) d 32767);
  Some (Z.lor (Z.lor (Z.lor (u32 (Z.shiftl opcd 26)) (reg_at (u8 rt) 21)) (reg_at (u8 ra) 16))
          (Z.land (u32 d) 0xFFFF)).

Definition ppcOriForm (opcd ra rs ui : Z) : option Z :=
  _ ← ASSERT (ui <=? 0xFFFF);
  Some (Z.lor (Z.lor (Z.lor (u32 (Z.shiftl opcd 26)) (reg_at rs 21)) (reg_at ra 16)) ui).

(** [(31u << 26) | rs << 21 | ra << 16 | rb << 11 | xo << 1], the expression
    the logical and shift emitters write out. *)
Definition ppcLogical (rs ra rb xo : Z) : Z :=
  Z.lor (Z.lor (Z.lor (Z.lor (Z.shiftl 31 26) (reg_at rs 21)) (reg_at ra 16)) (reg_at rb 11)) (Z.shiftl xo 1).

Definition ppcXForm (rt ra rb xo : Z) : option Z :=
  _ ← ASSERT ((0 <=? rt) && (0 <=? ra) && (0 <=? rb));
  Some (ppcLogical rt ra rb xo).

Definition ppcXoForm (rt ra rb xo : Z) (oe rc : bool) : Z :=
  Z.lor (Z.lor (Z.lor (Z.lor (Z.lor (Z.lor (Z.shiftl 31 26) (reg_at rt 21)) (reg_at ra 16)) (reg_at rb 11))
    (Z.shiftl (Z.b2z oe) 10)) (Z.shiftl xo 1)) (Z.b2z rc).

Definition ppcAForm (frt fra frb frc xo : Z) : Z :=
  Z.lor (Z.lor (Z.lor (Z.lor (Z.lor (Z.shiftl 63 26) (reg_at frt 21)) (reg_at fra 16)) (reg_at frb 11))
    (reg_at frc 6)) (Z.shiftl xo 1).

(** The MD-form of the doubleword rotates; [xo] is the sub-opcode at bit 2. *)
Definition ppcMdForm (ra rs sh mask xo : Z) : Z :=
  Z.lor (Z.lor (Z.lor (Z.lor (Z.lor (Z.lor (Z.shiftl 30 26) (reg_at rs 21)) (reg_at ra 16)) (reg_at sh 11))
    (Z.shiftl (Z.lor (Z.shiftl (Z.land (u32 mask) 31) 1) (Z.shiftr (u32 mask) 5)) 5))
    (Z.shiftl xo 2)) (Z.shiftl (Z.shiftr (u32 sh) 5) 1).

Definition ppcSprField (spr : Z) : option Z :=
  _ ← ASSERT (between 0 spr 1023);
  Some (Z.shiftl (Z.lor (Z.shiftl (Z.land (u32 spr) 31) 5) (Z.shiftr (u32 spr) 5)) 11).

(** [(opcd << 26) | crf << 23 | (1u << 21) | ra << 16 | low] of the compares. *)
Definition ppcCompare (opcd crf ra low : Z) : Z :=
  Z.lor (Z.lor (Z.lor (Z.lor (Z.shiftl opcd 26) (Z.shiftl crf 23)) (Z.shiftl 1 21)) (reg_at ra 16)) low.

(** ** Loads and stores *)


Definition asmLd (b : AssemblerBuffer) (rt disp ra : Z) : option AssemblerBuffer :=
  w ← ppcDsForm 58 rt disp ra 0; asmPpcEmitWord b w.

Definition asmStd (b : AssemblerBuffer) (rs disp ra : Z) : option AssemblerBuffer :=
  w ← ppcDsForm 62 rs disp ra 0; asmPpcEmitWord b w.

Definition asmStdu (b : AssemblerBuffer) (rs disp ra : Z) : option AssemblerBuffer :=
  w ← ppcDsForm 62 rs disp ra 1; asmPpcEmitWord b w.

Definition asmLwz (b : AssemblerBuffer) (rt disp ra : Z) : option AssemblerBuffer :=
  w ← ppcDForm 32 rt ra disp; asmPpcEmitWord b w.

Definition asmStw (b : AssemblerBuffer) (rs disp ra : Z) : option AssemblerBuffer :=
  w ← ppcDForm 36 rs ra disp; asmPpcEmitWord b w.

Definition asmLbz (b : AssemblerBuffer) (rt disp ra : Z) : option AssemblerBuffer :=
  w ← ppcDForm 34 rt ra disp; asmPpcEmitWord b w.

Definition asmStb (b : AssemblerBuffer) (rs disp ra : Z) : option AssemblerBuffer :=
  w ← ppcDForm 38 rs ra disp; asmPpcEmitWord b w.

Definition asmLhz (b : AssemblerBuffer) (rt disp ra : Z) : option AssemblerBuffer :=
  w ← ppcDForm 40 rt ra disp; asmPpcEmitWord b w.

Definition asmSth (b : AssemblerBuffer) (rs disp ra : Z) : option AssemblerBuffer :=
  w ← ppcDForm 44 rs ra disp; asmPpcEmitWord b w.

Definition asmLfd (b : AssemblerBuffer) (frt disp ra : Z) : option AssemblerBuffer :=
  _ ← ASSERT (between 0 frt 31); w ← ppcDForm 50 frt ra disp; asmPpcEmitWord b w.

Definition asmStfd (b : AssemblerBuffer) (frs disp ra : Z) : option AssemblerBuffer :=
  _ ← ASSERT (between 0 frs 31); w ← ppcDForm 54 frs ra disp; asmPpcEmitWord b w.

Definition asmLdx (b : AssemblerBuffer) (rt ra rb : Z) : option AssemblerBuffer :=
  w ← ppcXForm rt ra rb 21; asmPpcEmitWord b w.

Definition asmStdx (b : AssemblerBuffer) (rs ra rb : Z) : option AssemblerBuffer :=
  w ← ppcXForm rs ra rb 149; asmPpcEmitWord b w.

Definition asmLbzx (b : AssemblerBuffer) (rt ra rb : Z) : option AssemblerBuffer :=
  w ← ppcXForm rt ra rb 87; asmPpcEmitWord b w.

Definition asmStbx (b : AssemblerBuffer) (rs ra rb : Z) : option AssemblerBuffer :=
  w ← ppcXForm rs ra rb 215; asmPpcEmitWord b w.

(** ** Arithmetic, logic and moves *)


Definition asmAddi (b : AssemblerBuffer) (rt ra si : Z) : option AssemblerBuffer :=
  _ ← ASSERT (negb (ra =? R0)); w ← ppcDForm 14 rt ra si; asmPpcEmitWord b w.

Definition asmAddis (b : AssemblerBuffer) (rt ra si : Z) : option AssemblerBuffer :=
  _ ← ASSERT (negb (ra =? R0)); w ← ppcDForm 15 rt ra si; asmPpcEmitWord b w.

Definition asmLi (b : AssemblerBuffer) (rt si : Z) : option AssemblerBuffer :=
  w ← ppcDForm 14 rt 0 si; asmPpcEmitWord b w.

Definition asmLis (b : AssemblerBuffer) (rt si : Z) : option AssemblerBuffer :=
  w ← ppcDForm 15 rt 0 si; asmPpcEmitWord b w.

Definition asmAddicDot (b : AssemblerBuffer) (rt ra si : Z) : option AssemblerBuffer :=
  w ← ppcDForm 13 rt ra si; asmPpcEmitWord b w.

Definition asmOri (b : AssemblerBuffer) (ra rs ui : Z) : option AssemblerBuffer :=
  w ← ppcOriForm 24 ra rs ui; asmPpcEmitWord b w.

Definition asmOris (b : AssemblerBuffer) (ra rs ui : Z) : option AssemblerBuffer :=
  w ← ppcOriForm 25 ra rs ui; asmPpcEmitWord b w.

Definition asmAndiDot (b : AssemblerBuffer) (ra rs ui : Z) : option AssemblerBuffer :=
  _ ← ASSERT (ui <=? 0xFFFF); asmPpcEmitWord b (Z.lor (Z.lor (Z.lor (Z.shiftl 28 26) (reg_at rs 21)) (reg_at ra 16)) ui).

Definition asmNop (b : AssemblerBuffer) : option AssemblerBuffer :=
  asmPpcEmitWord b (0x60000000).

Definition asmOr (b : AssemblerBuffer) (ra rs rb : Z) : option AssemblerBuffer :=
  asmPpcEmitWord b (ppcLogical rs ra rb 444).

Definition asmAnd (b : AssemblerBuffer) (ra rs rb : Z) : option AssemblerBuffer :=
  asmPpcEmitWord b (ppcLogical rs ra rb 28).

Definition asmXor (b : AssemblerBuffer) (ra rs rb : Z) : option AssemblerBuffer :=
  asmPpcEmitWord b (ppcLogical rs ra rb 316).

Definition asmSld (b : AssemblerBuffer) (ra rs rb : Z) : option AssemblerBuffer :=
  asmPpcEmitWord b (ppcLogical rs ra rb 27).

Definition asmSrd (b : AssemblerBuffer) (ra rs rb : Z) : option AssemblerBuffer :=
  asmPpcEmitWord b (ppcLogical rs ra rb 539).

Definition asmSrad (b : AssemblerBuffer) (ra rs rb : Z) : option AssemblerBuffer :=
  asmPpcEmitWord b (ppcLogical rs ra rb 794).

Definition asmMr (b : AssemblerBuffer) (ra rs : Z) : option AssemblerBuffer :=
  asmOr b ra rs rs.

Definition asmAdd (b : AssemblerBuffer) (rt ra rb : Z) : option AssemblerBuffer :=
  asmPpcEmitWord b (ppcXoForm rt ra rb 266 false false).

Definition asmAddoDot (b : AssemblerBuffer) (rt ra rb : Z) : option AssemblerBuffer :=
  asmPpcEmitWord b (ppcXoForm rt ra rb 266 true true).

Definition asmSubf (b : AssemblerBuffer) (rt ra rb : Z) : option AssemblerBuffer :=
  asmPpcEmitWord b (ppcXoForm rt ra rb 40 false false).

Definition asmSubfoDot (b : AssemblerBuffer) (rt ra rb : Z) : option AssemblerBuffer :=
  asmPpcEmitWord b (ppcXoForm rt ra rb 40 true true).

Definition asmMulld (b : AssemblerBuffer) (rt ra rb : Z) : option AssemblerBuffer :=
  asmPpcEmitWord b (ppcXoForm rt ra rb 233 false false).

Definition asmMulldoDot (b : AssemblerBuffer) (rt ra rb : Z) : option AssemblerBuffer :=
  asmPpcEmitWord b (ppcXoForm rt ra rb 233 true true).

Definition asmDivd (b : AssemblerBuffer) (rt ra rb : Z) : option AssemblerBuffer :=
  asmPpcEmitWord b (ppcXoForm rt ra rb 489 false false).

Definition asmNeg (b : AssemblerBuffer) (rt ra : Z) : option AssemblerBuffer :=
  asmPpcEmitWord b (ppcXoForm rt ra 0 104 false false).

Definition asmNegoDot (b : AssemblerBuffer) (rt ra : Z) : option AssemblerBuffer :=
  asmPpcEmitWord b (ppcXoForm rt ra 0 104 true true).

(** ** Rotates and shifts *)


Definition asmRldicr (b : AssemblerBuffer) (ra rs sh me : Z) : option AssemblerBuffer :=
  _ ← ASSERT (between 0 sh 63 && between 0 me 63); asmPpcEmitWord b (ppcMdForm ra rs sh me 1).

Definition asmRldicl (b : AssemblerBuffer) (ra rs sh mb : Z) : option AssemblerBuffer :=
  _ ← ASSERT (between 0 sh 63 && between 0 mb 63); asmPpcEmitWord b (ppcMdForm ra rs sh mb 0).

Definition asmSldi (b : AssemblerBuffer) (ra rs n : Z) : option AssemblerBuffer :=
  asmRldicr b ra rs n (63 - n).

Definition asmSrdi (b : AssemblerBuffer) (ra rs n : Z) : option AssemblerBuffer :=
  asmRldicl b ra rs (Z.land (64 - n) 63) n.

Definition asmClrldi (b : AssemblerBuffer) (ra rs n : Z) : option AssemblerBuffer :=
  asmRldicl b ra rs 0 n.

Definition asmRotldi (b : AssemblerBuffer) (ra rs n : Z) : option AssemblerBuffer :=
  asmRldicl b ra rs (Z.land n 63) 0.

Definition asmRotrdi (b : AssemblerBuffer) (ra rs n : Z) : option AssemblerBuffer :=
  asmRldicl b ra rs (Z.land (64 - n) 63) 0.

Definition asmSradi (b : AssemblerBuffer) (ra rs sh : Z) : option AssemblerBuffer :=
  _ ← ASSERT (between 0 sh 63); asmPpcEmitWord b (Z.lor (Z.lor (Z.lor (Z.lor (Z.lor (Z.shiftl 31 26) (reg_at rs 21)) (reg_at ra 16)) (reg_at sh 11)) (Z.shiftl 413 2)) (Z.shiftl (Z.shiftr (u32 sh) 5) 1)).

(** ** Compares *)


Definition asmCmpdi (b : AssemblerBuffer) (crf ra si : Z) : option AssemblerBuffer :=
  _ ← ASSERT (between 0 crf 7); _ ← ASSERT (between (-32768) si 32767); asmPpcEmitWord b (ppcCompare 11 crf ra (Z.land (u32 si) 0xFFFF)).

Definition asmCmpldi (b : AssemblerBuffer) (crf ra ui : Z) : option AssemblerBuffer :=
  _ ← ASSERT (between 0 crf 7); _ ← ASSERT (ui <=? 0xFFFF); asmPpcEmitWord b (ppcCompare 10 crf ra ui).

Definition asmCmpd (b : AssemblerBuffer) (crf ra rb : Z) : option AssemblerBuffer :=
  _ ← ASSERT (between 0 crf 7); asmPpcEmitWord b (ppcCompare 31 crf ra (reg_at rb 11)).

Definition asmCmpld (b : AssemblerBuffer) (crf ra rb : Z) : option AssemblerBuffer :=
  _ ← ASSERT (between 0 crf 7); asmPpcEmitWord b (Z.lor (ppcCompare 31 crf ra (reg_at rb 11)) (Z.shiftl 32 1)).

(** ** 64-bit immediates *)


(** [(int16_t) x] *)
Definition i16 (x : Z) : Z := (x + 2 ^ 15) mod 2 ^ 16 - 2 ^ 15.

Definition asmLi64 (b : AssemblerBuffer) (rt imm : Z) : option AssemblerBuffer :=
  b ← asmLis b rt (i16 (Z.shiftr imm 48));
  b ← asmOri b rt rt (Z.land (Z.shiftr imm 32) 0xFFFF);
  b ← asmSldi b rt rt 32;
  b ← asmOris b rt rt (Z.land (Z.shiftr imm 16) 0xFFFF);
  asmOri b rt rt (Z.land imm 0xFFFF).

(** ** Special-purpose registers *)


Definition asmMtspr (b : AssemblerBuffer) (spr rs : Z) : option AssemblerBuffer :=
  f ← ppcSprField spr;
  asmPpcEmitWord b (Z.lor (Z.lor (Z.lor (Z.shiftl 31 26) (reg_at rs 21)) f) (Z.shiftl 467 1)).

Definition asmMfspr (b : AssemblerBuffer) (rt spr : Z) : option AssemblerBuffer :=
  f ← ppcSprField spr;
  asmPpcEmitWord b (Z.lor (Z.lor (Z.lor (Z.shiftl 31 26) (reg_at rt 21)) f) (Z.shiftl 339 1)).

Definition asmMtlr (b : AssemblerBuffer) (rs : Z) : option AssemblerBuffer :=
  asmMtspr b SPR_LR rs.

Definition asmMflr (b : AssemblerBuffer) (rt : Z) : option AssemblerBuffer :=
  asmMfspr b rt SPR_LR.

Definition asmMtctr (b : AssemblerBuffer) (rs : Z) : option AssemblerBuffer :=
  asmMtspr b SPR_CTR rs.

Definition asmMfcr (b : AssemblerBuffer) (rt : Z) : option AssemblerBuffer :=
  asmPpcEmitWord b (Z.lor (Z.lor (Z.shiftl 31 26) (reg_at rt 21)) (Z.shiftl 19 1)).

Definition asmMtcrf (b : AssemblerBuffer) (fxm rs : Z) : option AssemblerBuffer :=
  _ ← ASSERT (fxm <=? 0xFF); asmPpcEmitWord b (Z.lor (Z.lor (Z.lor (Z.shiftl 31 26) (reg_at rs 21)) (Z.shiftl fxm 12)) (Z.shiftl 144 1)).

Definition asmClearXerSo (b : AssemblerBuffer) : option AssemblerBuffer :=
  b ← asmLi b R0 0; asmMtspr b SPR_XER R0.

(** ** Floating point and moves between the files *)


Definition asmFadd (b : AssemblerBuffer) (frt fra frb : Z) : option AssemblerBuffer :=
  asmPpcEmitWord b (ppcAForm frt fra frb 0 21).

Definition asmFsub (b : AssemblerBuffer) (frt fra frb : Z) : option AssemblerBuffer :=
  asmPpcEmitWord b (ppcAForm frt fra frb 0 20).

Definition asmFdiv (b : AssemblerBuffer) (frt fra frb : Z) : option AssemblerBuffer :=
  asmPpcEmitWord b (ppcAForm frt fra frb 0 18).

Definition asmFmul (b : AssemblerBuffer) (frt fra frc : Z) : option AssemblerBuffer :=
  asmPpcEmitWord b (ppcAForm frt fra 0 frc 25).

Definition asmFcfid (b : AssemblerBuffer) (frt frb : Z) : option AssemblerBuffer :=
  asmPpcEmitWord b (Z.lor (Z.lor (Z.lor (Z.shiftl 63 26) (reg_at frt 21)) (reg_at frb 11)) (Z.shiftl 846 1)).

Definition asmFcmpu (b : AssemblerBuffer) (crf fra frb : Z) : option AssemblerBuffer :=
  _ ← ASSERT (between 0 crf 7); asmPpcEmitWord b (Z.lor (Z.lor (Z.lor (Z.shiftl 63 26) (Z.shiftl crf 23)) (reg_at fra 16)) (reg_at frb 11)).

Definition asmMtvsrd (b : AssemblerBuffer) (frt ra : Z) : option AssemblerBuffer :=
  w ← ppcXForm frt ra 0 179; asmPpcEmitWord b w.

Definition asmMfvsrd (b : AssemblerBuffer) (ra frs : Z) : option AssemblerBuffer :=
  w ← ppcXForm frs ra 0 51; asmPpcEmitWord b w.

(** ** Branches *)


Definition asmBlr (b : AssemblerBuffer) : option AssemblerBuffer :=
  asmPpcEmitWord b (0x4E800020).

Definition asmBctr (b : AssemblerBuffer) : option AssemblerBuffer :=
  asmPpcEmitWord b (0x4E800420).

Definition asmBctrl (b : AssemblerBuffer) : option AssemblerBuffer :=
  asmPpcEmitWord b (0x4E800421).

Definition asmBclNext (b : AssemblerBuffer) : option AssemblerBuffer :=
  asmPpcEmitWord b (Z.lor (Z.lor (Z.lor (Z.lor (Z.shiftl 16 26) (Z.shiftl 20 21)) (Z.shiftl 31 16)) 4) 1).

Definition asmTrap (b : AssemblerBuffer) : option AssemblerBuffer :=
  asmPpcEmitWord b (0x7FE00008).

Definition ppcCheckBranchDisp26 (disp : Z) : option unit :=
  ASSERT ((Z.land disp 3 =? 0) && between (- 0x2000000) disp 0x1FFFFFC).
Definition ppcCheckBranchDisp16 (disp : Z) : option unit :=
  ASSERT ((Z.land disp 3 =? 0) && between (- 0x8000) disp 0x7FFC).

Definition asmB (b : AssemblerBuffer) (label : AssemblerLabel) : option (AssemblerBuffer * AssemblerLabel) :=
  if isBound label then
    let disp := l_offset label - asmOffset b in
    _ ← ppcCheckBranchDisp26 disp;
    b' ← asmPpcEmitWord b (Z.lor (Z.shiftl 18 26) (Z.land (u32 disp) 0x03FFFFFC));
    Some (b', label)
  else
    _ ← ASSERT (negb (isResolved label));
    b' ← asmPpcEmitWord b (Z.shiftl 18 26);
    Some (b', mkLabel false true (asmOffset b) 4).

Definition bc_word (bo bi : Z) : Z := Z.lor (Z.lor (Z.shiftl 16 26) (reg_at bo 21)) (reg_at bi 16).

Definition asmBc (b : AssemblerBuffer) (bo bi : Z) (label : AssemblerLabel) : option (AssemblerBuffer * AssemblerLabel) :=
  let word := bc_word bo bi in
  if isBound label then
    let disp := l_offset label - asmOffset b in
    _ ← ppcCheckBranchDisp16 disp;
    b' ← asmPpcEmitWord b (Z.lor word (Z.land (u32 disp) 0xFFFC));
    Some (b', label)
  else
    _ ← ASSERT (negb (isResolved label));
    b' ← asmPpcEmitWord b word;
    Some (b', mkLabel false true (asmOffset b) 4).

(** The word at an offset of a piece of memory, and of the block. *)
Definition mem_word (m : list (option Z)) (off : nat) : option Z :=
  l ← slice m off 4; l ← mapM id l; ppcLoadWord l.

Definition load_word (b : AssemblerBuffer) (off : nat) : option Z := mem_word (block b) off.

Definition asmPpcLabelBind (b : AssemblerBuffer) (label : AssemblerLabel) (offset : Z) : option (AssemblerBuffer * AssemblerLabel) :=
  _ ← ASSERT (negb (isBound label));
  b' ← (if isResolved label then
          word ← load_word b (Z.to_nat (l_offset label));
          let disp := offset - l_offset label in
          word ← match Z.shiftr word 26 with
                 | 18 => _ ← ppcCheckBranchDisp26 disp; Some (Z.lor word (Z.land (u32 disp) 0x03FFFFFC))
                 | 16 => _ ← ppcCheckBranchDisp16 disp; Some (Z.lor word (Z.land (u32 disp) 0xFFFC))
                 | _ => None
                 end;
          write b (Z.to_nat (l_offset label)) (ppcStoreWord word)
        else Some b);
  Some (b', mkLabel true (isResolved label) offset (l_size label)).


Definition asmBeq (b : AssemblerBuffer) (label : AssemblerLabel) : option (AssemblerBuffer * AssemblerLabel) :=
  asmBc b BO_IF_TRUE CR_EQ label.

Definition asmBne (b : AssemblerBuffer) (label : AssemblerLabel) : option (AssemblerBuffer * AssemblerLabel) :=
  asmBc b BO_IF_FALSE CR_EQ label.

Definition asmBlt (b : AssemblerBuffer) (label : AssemblerLabel) : option (AssemblerBuffer * AssemblerLabel) :=
  asmBc b BO_IF_TRUE CR_LT label.

Definition asmBge (b : AssemblerBuffer) (label : AssemblerLabel) : option (AssemblerBuffer * AssemblerLabel) :=
  asmBc b BO_IF_FALSE CR_LT label.

Definition asmBgt (b : AssemblerBuffer) (label : AssemblerLabel) : option (AssemblerBuffer * AssemblerLabel) :=
  asmBc b BO_IF_TRUE CR_GT label.

Definition asmBle (b : AssemblerBuffer) (label : AssemblerLabel) : option (AssemblerBuffer * AssemblerLabel) :=
  asmBc b BO_IF_FALSE CR_GT label.

Definition asmBso (b : AssemblerBuffer) (label : AssemblerLabel) : option (AssemblerBuffer * AssemblerLabel) :=
  asmBc b BO_IF_TRUE CR_SO label.

Definition asmBns (b : AssemblerBuffer) (label : AssemblerLabel) : option (AssemblerBuffer * AssemblerLabel) :=
  asmBc b BO_IF_FALSE CR_SO label.

(** ** Tagged-base accesses and composite helpers *)


Definition asmLdT (b : AssemblerBuffer) (dst disp base : Z) : option AssemblerBuffer :=
  if Z.land disp 3 =? 0 then asmLd b dst disp base
  else
    _ ← ASSERT (Z.land disp 3 =? 3);
    b ← asmAddi b TMP2 base (-1);
    asmLd b dst (disp + 1) TMP2.

Definition asmStdT (b : AssemblerBuffer) (src disp base : Z) : option AssemblerBuffer :=
  if Z.land disp 3 =? 0 then asmStd b src disp base
  else
    _ ← ASSERT (Z.land disp 3 =? 3);
    _ ← ASSERT (negb (src =? TMP2));
    b ← asmAddi b TMP2 base (-1);
    asmStd b src (disp + 1) TMP2.

Definition asmPush (b : AssemblerBuffer) (src : Z) : option AssemblerBuffer := asmStdu b src (-8) R1.
Definition asmPop (b : AssemblerBuffer) (dst : Z) : option AssemblerBuffer :=
  b ← asmLd b dst 0 R1; asmAddi b R1 R1 8.
Definition asmDropStack (b : AssemblerBuffer) (slots : Z) : option AssemblerBuffer :=
  asmAddi b R1 R1 (slots * 8).
Definition asmCallReg (b : AssemblerBuffer) (target : Z) : option AssemblerBuffer :=
  b ← asmMtctr b target; asmBctrl b.
Definition asmJumpReg (b : AssemblerBuffer) (target : Z) : option AssemblerBuffer :=
  b ← asmMtctr b target; asmBctr b.
End Words.
