(* ===== verification/Ppc64Isa.v ===== *)
(** * The POWER instruction set, as far as the backend uses it

    The encoders of [Ppc64Asm] against the Power ISA: [disassemble] reads a
    word the way the ISA's instruction formats lay it out (bit 0 here is the
    least significant bit, the ISA's bit 31), and [exec] gives the effect of
    the instructions the address and immediate helpers are made of.  Neither
    is code of the repository: they are the specification the encoders are
    proved against. *)
From S2P Require Import Prelude Endian Assembler Ppc64Asm.

(** One constructor per instruction the header has an encoder for, with the
    operands in the order of the mnemonic. *)
Inductive Instr :=
  | Ld (rt disp ra : Z)
  | Std (rt disp ra : Z)
  | Stdu (rt disp ra : Z)
  | Lwz (rt disp ra : Z)
  | Stw (rt disp ra : Z)
  | Lbz (rt disp ra : Z)
  | Stb (rt disp ra : Z)
  | Lhz (rt disp ra : Z)
  | Sth (rt disp ra : Z)
  | Lfd (rt disp ra : Z)
  | Stfd (rt disp ra : Z)
  | Ldx (rt ra rb : Z)
  | Stdx (rt ra rb : Z)
  | Lbzx (rt ra rb : Z)
  | Stbx (rt ra rb : Z)
  | Addi (rt ra si : Z)
  | Addis (rt ra si : Z)
  | AddicDot (rt ra si : Z)
  | Ori (ra rs ui : Z)
  | Oris (ra rs ui : Z)
  | AndiDot (ra rs ui : Z)
  | Or (ra rs rb : Z)
  | And (ra rs rb : Z)
  | Xor (ra rs rb : Z)
  | Sld (ra rs rb : Z)
  | Srd (ra rs rb : Z)
  | Srad (ra rs rb : Z)
  | Add (rt ra rb : Z)
  | AddoDot (rt ra rb : Z)
  | Subf (rt ra rb : Z)
  | SubfoDot (rt ra rb : Z)
  | Mulld (rt ra rb : Z)
  | MulldoDot (rt ra rb : Z)
  | Divd (rt ra rb : Z)
  | Neg (rt ra : Z)
  | NegoDot (rt ra : Z)
  | Rldicr (ra rs sh me : Z)
  | Rldicl (ra rs sh mb : Z)
  | Sradi (ra rs sh : Z)
  | Cmpdi (crf ra si : Z)
  | Cmpldi (crf ra ui : Z)
  | Cmpd (crf ra rb : Z)
  | Cmpld (crf ra rb : Z)
  | Mtspr (spr rs : Z)
  | Mfspr (rt spr : Z)
  | Mfcr (rt : Z)
  | Mtcrf (fxm rs : Z)
  | Fadd (frt fra frb : Z)
  | Fsub (frt fra frb : Z)
  | Fdiv (frt fra frb : Z)
  | Fmul (frt fra frb : Z)
  | Fcfid (frt frb : Z)
  | Fcmpu (crf fra frb : Z)
  | Mtvsrd (frt ra : Z)
  | Mfvsrd (ra frs : Z)
  | Blr
  | Bctr
  | Bctrl
  | BclNext
  | Trap
  | B (disp : Z)
  | Bc (bo bi disp : Z).

(** The operands the ISA can encode; a register is a number below 32. *)
Definition reg (r : Z) : bool := between 0 r 31.

Definition operands_ok (i : Instr) : bool :=
  match i with
  | Ld rt disp ra => reg rt && reg ra && (Z.land disp 3 =? 0) && between (-32768) disp 32764
  | Std rt disp ra => reg rt && reg ra && (Z.land disp 3 =? 0) && between (-32768) disp 32764
  | Stdu rt disp ra => reg rt && reg ra && (Z.land disp 3 =? 0) && between (-32768) disp 32764
  | Lwz rt disp ra => reg rt && reg ra && between (-32768) disp 32767
  | Stw rt disp ra => reg rt && reg ra && between (-32768) disp 32767
  | Lbz rt disp ra => reg rt && reg ra && between (-32768) disp 32767
  | Stb rt disp ra => reg rt && reg ra && between (-32768) disp 32767
  | Lhz rt disp ra => reg rt && reg ra && between (-32768) disp 32767
  | Sth rt disp ra => reg rt && reg ra && between (-32768) disp 32767
  | Lfd rt disp ra => reg rt && reg ra && between (-32768) disp 32767
  | Stfd rt disp ra => reg rt && reg ra && between (-32768) disp 32767
  | Ldx rt ra rb => reg rt && reg ra && reg rb
  | Stdx rt ra rb => reg rt && reg ra && reg rb
  | Lbzx rt ra rb => reg rt && reg ra && reg rb
  | Stbx rt ra rb => reg rt && reg ra && reg rb
  | Addi rt ra si => reg rt && reg ra && between (-32768) si 32767
  | Addis rt ra si => reg rt && reg ra && between (-32768) si 32767
  | AddicDot rt ra si => reg rt && reg ra && between (-32768) si 32767
  | Ori ra rs ui => reg ra && reg rs && between 0 ui 65535
  | Oris ra rs ui => reg ra && reg rs && between 0 ui 65535
  | AndiDot ra rs ui => reg ra && reg rs && between 0 ui 65535
  | Or ra rs rb => reg ra && reg rs && reg rb
  | And ra rs rb => reg ra && reg rs && reg rb
  | Xor ra rs rb => reg ra && reg rs && reg rb
  | Sld ra rs rb => reg ra && reg rs && reg rb
  | Srd ra rs rb => reg ra && reg rs && reg rb
  | Srad ra rs rb => reg ra && reg rs && reg rb
  | Add rt ra rb => reg rt && reg ra && reg rb
  | AddoDot rt ra rb => reg rt && reg ra && reg rb
  | Subf rt ra rb => reg rt && reg ra && reg rb
  | SubfoDot rt ra rb => reg rt && reg ra && reg rb
  | Mulld rt ra rb => reg rt && reg ra && reg rb
  | MulldoDot rt ra rb => reg rt && reg ra && reg rb
  | Divd rt ra rb => reg rt && reg ra && reg rb
  | Neg rt ra => reg rt && reg ra
  | NegoDot rt ra => reg rt && reg ra
  | Rldicr ra rs sh me => reg ra && reg rs && between 0 sh 63 && between 0 me 63
  | Rldicl ra rs sh mb => reg ra && reg rs && between 0 sh 63 && between 0 mb 63
  | Sradi ra rs sh => reg ra && reg rs && between 0 sh 63
  | Cmpdi crf ra si => between 0 crf 7 && reg ra && between (-32768) si 32767
  | Cmpldi crf ra ui => between 0 crf 7 && reg ra && between 0 ui 65535
  | Cmpd crf ra rb => between 0 crf 7 && reg ra && reg rb
  | Cmpld crf ra rb => between 0 crf 7 && reg ra && reg rb
  | Mtspr spr rs => between 0 spr 1023 && reg rs
  | Mfspr rt spr => reg rt && between 0 spr 1023
  | Mfcr rt => reg rt
  | Mtcrf fxm rs => between 0 fxm 255 && reg rs
  | Fadd frt fra frb => reg frt && reg fra && reg frb
  | Fsub frt fra frb => reg frt && reg fra && reg frb
  | Fdiv frt fra frb => reg frt && reg fra && reg frb
  | Fmul frt fra frb => reg frt && reg fra && reg frb
  | Fcfid frt frb => reg frt && reg frb
  | Fcmpu crf fra frb => between 0 crf 7 && reg fra && reg frb
  | Mtvsrd frt ra => reg frt && reg ra
  | Mfvsrd ra frs => reg ra && reg frs
  | Blr => true
  | Bctr => true
  | Bctrl => true
  | BclNext => true
  | Trap => true
  | B disp => (Z.land disp 3 =? 0) && between (- 0x2000000) disp 0x1FFFFFC
  | Bc bo bi disp => reg bo && reg bi && (Z.land disp 3 =? 0) && between (- 0x8000) disp 0x7FFC
  end.

Section Emit.
Context `{Target}.

(** The encoder of each instruction.  [addi] and [addis] with a zero base are
    [li] and [lis]; a branch is to a label bound [disp] bytes away. *)
Definition emit_instr (b : AssemblerBuffer) (i : Instr) : option AssemblerBuffer :=
  match i with
  | Ld rt disp ra => asmLd b rt disp ra
  | Std rt disp ra => asmStd b rt disp ra
  | Stdu rt disp ra => asmStdu b rt disp ra
  | Lwz rt disp ra => asmLwz b rt disp ra
  | Stw rt disp ra => asmStw b rt disp ra
  | Lbz rt disp ra => asmLbz b rt disp ra
  | Stb rt disp ra => asmStb b rt disp ra
  | Lhz rt disp ra => asmLhz b rt disp ra
  | Sth rt disp ra => asmSth b rt disp ra
  | Lfd rt disp ra => asmLfd b rt disp ra
  | Stfd rt disp ra => asmStfd b rt disp ra
  | Ldx rt ra rb => asmLdx b rt ra rb
  | Stdx rt ra rb => asmStdx b rt ra rb
  | Lbzx rt ra rb => asmLbzx b rt ra rb
  | Stbx rt ra rb => asmStbx b rt ra rb
  | Addi rt ra si => (if ra =? 0 then asmLi b rt si else asmAddi b rt ra si)
  | Addis rt ra si => (if ra =? 0 then asmLis b rt si else asmAddis b rt ra si)
  | AddicDot rt ra si => asmAddicDot b rt ra si
  | Ori ra rs ui => asmOri b ra rs ui
  | Oris ra rs ui => asmOris b ra rs ui
  | AndiDot ra rs ui => asmAndiDot b ra rs ui
  | Or ra rs rb => asmOr b ra rs rb
  | And ra rs rb => asmAnd b ra rs rb
  | Xor ra rs rb => asmXor b ra rs rb
  | Sld ra rs rb => asmSld b ra rs rb
  | Srd ra rs rb => asmSrd b ra rs rb
  | Srad ra rs rb => asmSrad b ra rs rb
  | Add rt ra rb => asmAdd b rt ra rb
  | AddoDot rt ra rb => asmAddoDot b rt ra rb
  | Subf rt ra rb => asmSubf b rt ra rb
  | SubfoDot rt ra rb => asmSubfoDot b rt ra rb
  | Mulld rt ra rb => asmMulld b rt ra rb
  | MulldoDot rt ra rb => asmMulldoDot b rt ra rb
  | Divd rt ra rb => asmDivd b rt ra rb
  | Neg rt ra => asmNeg b rt ra
  | NegoDot rt ra => asmNegoDot b rt ra
  | Rldicr ra rs sh me => asmRldicr b ra rs sh me
  | Rldicl ra rs sh mb => asmRldicl b ra rs sh mb
  | Sradi ra rs sh => asmSradi b ra rs sh
  | Cmpdi crf ra si => asmCmpdi b crf ra si
  | Cmpldi crf ra ui => asmCmpldi b crf ra ui
  | Cmpd crf ra rb => asmCmpd b crf ra rb
  | Cmpld crf ra rb => asmCmpld b crf ra rb
  | Mtspr spr rs => asmMtspr b spr rs
  | Mfspr rt spr => asmMfspr b rt spr
  | Mfcr rt => asmMfcr b rt
  | Mtcrf fxm rs => asmMtcrf b fxm rs
  | Fadd frt fra frb => asmFadd b frt fra frb
  | Fsub frt fra frb => asmFsub b frt fra frb
  | Fdiv frt fra frb => asmFdiv b frt fra frb
  | Fmul frt fra frb => asmFmul b frt fra frb
  | Fcfid frt frb => asmFcfid b frt frb
  | Fcmpu crf fra frb => asmFcmpu b crf fra frb
  | Mtvsrd frt ra => asmMtvsrd b frt ra
  | Mfvsrd ra frs => asmMfvsrd b ra frs
  | Blr => asmBlr b
  | Bctr => asmBctr b
  | Bctrl => asmBctrl b
  | BclNext => asmBclNext b
  | Trap => asmTrap b
  | B disp => fst <$> asmB b (mkLabel true false (asmOffset b + disp) 0)
  | Bc bo bi disp => fst <$> asmBc b bo bi (mkLabel true false (asmOffset b + disp) 0)
  end.
End Emit.

(** ** Reading a word *)

(** [n] bits from bit [lo]. *)
Definition bits (w lo n : Z) : Z := (w / 2 ^ lo) mod 2 ^ n.

(** A two's complement field of [n] bits. *)
Definition sext (n x : Z) : Z := if x <? 2 ^ (n - 1) then x else x - 2 ^ n.

(** Every bit of a word is read: [Rc] and [OE], the [L] bit of a compare, [AA]
    and [LK], the whole extended opcode, and the bits an instruction reserves,
    which are zero. *)
Definition disassemble_31 (w : Z) : option Instr :=
  let rt := bits w 21 5 in let ra := bits w 16 5 in let rb := bits w 11 5 in
  let spr := bits w 11 5 * 32 + bits w 16 5 in
  match bits w 1 10, bits w 0 1 with
  | 21, 0 => Some (Ldx rt ra rb) | 149, 0 => Some (Stdx rt ra rb) | 87, 0 => Some (Lbzx rt ra rb) | 215, 0 => Some (Stbx rt ra rb)
  | 444, 0 => Some (Or ra rt rb) | 28, 0 => Some (And ra rt rb) | 316, 0 => Some (Xor ra rt rb)
  | 27, 0 => Some (Sld ra rt rb) | 539, 0 => Some (Srd ra rt rb) | 794, 0 => Some (Srad ra rt rb)
  | 266, 0 => Some (Add rt ra rb) | 778, 1 => Some (AddoDot rt ra rb)
  | 40, 0 => Some (Subf rt ra rb) | 552, 1 => Some (SubfoDot rt ra rb)
  | 233, 0 => Some (Mulld rt ra rb) | 745, 1 => Some (MulldoDot rt ra rb) | 489, 0 => Some (Divd rt ra rb)
  | 104, 0 => if rb =? 0 then Some (Neg rt ra) else None
  | 616, 1 => if rb =? 0 then Some (NegoDot rt ra) else None
  | 826, 0 => Some (Sradi ra rt rb) | 827, 0 => Some (Sradi ra rt (32 + rb))
  | 0, 0 => if bits w 21 2 =? 1 then Some (Cmpd (bits w 23 3) ra rb) else None
  | 32, 0 => if bits w 21 2 =? 1 then Some (Cmpld (bits w 23 3) ra rb) else None
  | 467, 0 => Some (Mtspr spr rt) | 339, 0 => Some (Mfspr rt spr)
  | 19, 0 => if (ra =? 0) && (rb =? 0) then Some (Mfcr rt) else None
  | 144, 0 => if (bits w 20 1 =? 0) && (bits w 11 1 =? 0) then Some (Mtcrf (bits w 12 8) rt) else None
  | 179, 0 => if rb =? 0 then Some (Mtvsrd rt ra) else None
  | 51, 0 => if rb =? 0 then Some (Mfvsrd ra rt) else None
  | 4, 0 => if (rt =? 31) && (ra =? 0) && (rb =? 0) then Some Trap else None
  | _, _ => None
  end.

(** An A-form instruction has a register where the others have the high half of
    the extended opcode. *)
Definition disassemble_63 (w : Z) : option Instr :=
  let frt := bits w 21 5 in let fra := bits w 16 5 in let frb := bits w 11 5 in let frc := bits w 6 5 in
  match bits w 1 5, bits w 0 1 with
  | 21, 0 => if frc =? 0 then Some (Fadd frt fra frb) else None
  | 20, 0 => if frc =? 0 then Some (Fsub frt fra frb) else None
  | 18, 0 => if frc =? 0 then Some (Fdiv frt fra frb) else None
  | 25, 0 => if frb =? 0 then Some (Fmul frt fra frc) else None
  | 14, 0 => if (frc =? 26) && (fra =? 0) then Some (Fcfid frt frb) else None
  | 0, 0 => if (frc =? 0) && (bits w 21 2 =? 0) then Some (Fcmpu (bits w 23 3) fra frb) else None
  | _, _ => None
  end.

(** Branches to a register are always taken: [BO] is 20, and [BI] and [BH] 0. *)
Definition disassemble_19 (w : Z) : option Instr :=
  if (bits w 21 5 =? 20) && (bits w 11 10 =? 0) then
    match bits w 1 10, bits w 0 1 with
    | 16, 0 => Some Blr | 528, 0 => Some Bctr | 528, 1 => Some Bctrl
    | _, _ => None
    end
  else None.

Definition disassemble (w : Z) : option Instr :=
  let rt := bits w 21 5 in let ra := bits w 16 5 in
  let si := sext 16 (bits w 0 16) in let ui := bits w 0 16 in
  let ds := sext 16 (bits w 2 14 * 4) in
  let sh := bits w 1 1 * 32 + bits w 11 5 in let mask := bits w 5 1 * 32 + bits w 6 5 in
  match w / 2 ^ 26 with
  | 58 => match bits w 0 2 with 0 => Some (Ld rt ds ra) | _ => None end
  | 62 => match bits w 0 2 with 0 => Some (Std rt ds ra) | 1 => Some (Stdu rt ds ra) | _ => None end
  | 32 => Some (Lwz rt si ra) | 36 => Some (Stw rt si ra) | 34 => Some (Lbz rt si ra) | 38 => Some (Stb rt si ra)
  | 40 => Some (Lhz rt si ra) | 44 => Some (Sth rt si ra) | 50 => Some (Lfd rt si ra) | 54 => Some (Stfd rt si ra)
  | 14 => Some (Addi rt ra si) | 15 => Some (Addis rt ra si) | 13 => Some (AddicDot rt ra si)
  | 24 => Some (Ori ra rt ui) | 25 => Some (Oris ra rt ui) | 28 => Some (AndiDot ra rt ui)
  | 30 => match bits w 2 3, bits w 0 1 with
          | 0, 0 => Some (Rldicl ra rt sh mask) | 1, 0 => Some (Rldicr ra rt sh mask) | _, _ => None
          end
  | 11 => if bits w 21 2 =? 1 then Some (Cmpdi (bits w 23 3) ra si) else None
  | 10 => if bits w 21 2 =? 1 then Some (Cmpldi (bits w 23 3) ra ui) else None
  | 18 => match bits w 0 2 with 0 => Some (B (sext 26 (bits w 2 24 * 4))) | _ => None end
  | 16 => match bits w 0 2 with
          | 0 => Some (Bc rt ra ds)
          | 1 => if (rt =? 20) && (ra =? 31) && (ds =? 4) then Some BclNext else None
          | _ => None
          end
  | 19 => disassemble_19 w
  | 31 => disassemble_31 w
  | 63 => disassemble_63 w
  | _ => None
  end.

(** ** Words as sums of fields *)

(** Primary opcode, two five-bit fields, and sixteen bits. *)
Definition word (op a b c : Z) : Z := op * 2 ^ 26 + a * 2 ^ 21 + b * 2 ^ 16 + c.

Definition word_ok (op a b c : Z) : Prop := 0 <= op < 2 ^ 6 /\ 0 <= a < 2 ^ 5 /\ 0 <= b < 2 ^ 5 /\ 0 <= c < 2 ^ 16.

Lemma ppc_word_range op a b c : word_ok op a b c -> 0 <= word op a b c < 2 ^ 32.
Proof. unfold word_ok, word. lia. Qed.

Lemma word_op op a b c : word_ok op a b c -> word op a b c / 2 ^ 26 = op.
Proof. unfold word_ok, word. intros. symmetry. apply (Z.div_unique _ _ op (a * 2 ^ 21 + b * 2 ^ 16 + c)); lia. Qed.

Lemma bits_unique w lo n x hi r :
  0 <= lo -> 0 <= n -> w = hi * 2 ^ (lo + n) + x * 2 ^ lo + r -> 0 <= x < 2 ^ n -> 0 <= r < 2 ^ lo -> bits w lo n = x.
Proof.
  intros Hlo Hn -> Hx Hr. unfold bits. rewrite Z.pow_add_r by lia.
  replace (hi * (2 ^ lo * 2 ^ n) + x * 2 ^ lo + r) with (r + (hi * 2 ^ n + x) * 2 ^ lo) by ring.
  rewrite Z.div_add by lia. rewrite (Z.div_small r) by lia.
  replace (0 + (hi * 2 ^ n + x)) with (x + hi * 2 ^ n) by ring.
  rewrite Z.mod_add by lia. by apply Z.mod_small.
Qed.

Lemma word_a op a b c : word_ok op a b c -> bits (word op a b c) 21 5 = a.
Proof. unfold word_ok, word. intros. apply (bits_unique _ 21 5 a op (b * 2 ^ 16 + c)); lia. Qed.

Lemma word_b op a b c : word_ok op a b c -> bits (word op a b c) 16 5 = b.
Proof. unfold word_ok, word. intros. apply (bits_unique _ 16 5 b (op * 2 ^ 5 + a) c); lia. Qed.

Lemma word_crf op crf l b c : word_ok op (crf * 4 + l) b c -> 0 <= l < 4 -> bits (word op (crf * 4 + l) b c) 23 3 = crf.
Proof. unfold word_ok, word. intros. apply (bits_unique _ 23 3 crf op (l * 2 ^ 21 + b * 2 ^ 16 + c)); lia. Qed.

Lemma word_l op crf l b c : word_ok op (crf * 4 + l) b c -> 0 <= l < 4 -> bits (word op (crf * 4 + l) b c) 21 2 = l.
Proof. unfold word_ok, word. intros. apply (bits_unique _ 21 2 l (op * 8 + crf) (b * 2 ^ 16 + c)); lia. Qed.

(** The low fields are fields of the low sixteen bits. *)
Lemma ppc_word_low op a b c lo n :
  word_ok op a b c -> 0 <= lo -> 0 <= n -> lo + n <= 16 -> bits (word op a b c) lo n = bits c lo n.
Proof.
  intros Hw Hlo Hn Hs. unfold bits, word.
  replace (op * 2 ^ 26 + a * 2 ^ 21 + b * 2 ^ 16 + c) with (c + ((op * 2 ^ 10 + a * 2 ^ 5 + b) * 2 ^ (16 - lo - n) * 2 ^ n) * 2 ^ lo).
  - rewrite Z.div_add by lia. by rewrite Z.mod_add by lia.
  - rewrite <- !Z.mul_assoc, <- !Z.pow_add_r by lia. replace (16 - lo - n + (n + lo)) with 16 by lia. ring.
Qed.

(** Sixteen bits as a register and eleven bits. *)
Definition half (rb low : Z) : Z := rb * 2 ^ 11 + low.

Lemma half_b rb low : 0 <= rb < 2 ^ 5 -> 0 <= low < 2 ^ 11 -> bits (half rb low) 11 5 = rb.
Proof. unfold half. intros. apply (bits_unique _ 11 5 rb 0 low); lia. Qed.

Lemma half_low rb low lo n : 0 <= lo -> 0 <= n -> lo + n <= 11 -> bits (half rb low) lo n = bits low lo n.
Proof.
  intros Hlo Hn Hs. unfold bits, half.
  replace (rb * 2 ^ 11 + low) with (low + (rb * 2 ^ (11 - lo - n) * 2 ^ n) * 2 ^ lo).
  - rewrite Z.div_add by lia. by rewrite Z.mod_add by lia.
  - rewrite <- !Z.mul_assoc, <- !Z.pow_add_r by lia. replace (11 - lo - n + (n + lo)) with 11 by lia. ring.
Qed.

Lemma reg_at_spec r k : 0 <= r < 32 -> 0 <= k <= 27 -> reg_at r k = r * 2 ^ k.
Proof.
  intros Hr Hk. unfold reg_at. change 31 with (Z.ones 5). rewrite Z.land_ones, Z.mod_small by lia.
  rewrite Z.shiftl_mul_pow2 by lia. apply u32_id. split; [lia|].
  apply Z.lt_le_trans with (2 ^ 5 * 2 ^ k); [nia|]. rewrite <- Z.pow_add_r by lia. apply Z.pow_le_mono_r; lia.
Qed.

Lemma word_lor op a b c1 c2 k :
  0 <= k <= 16 -> 0 <= c2 < 2 ^ k -> Z.lor (word op a b (c1 * 2 ^ k)) c2 = word op a b (c1 * 2 ^ k + c2).
Proof.
  intros Hk Hc. unfold word.
  assert (2 ^ 16 = 2 ^ (16 - k) * 2 ^ k) as E by (rewrite <- Z.pow_add_r by lia; f_equal; lia).
  replace (op * 2 ^ 26 + a * 2 ^ 21 + b * 2 ^ 16 + c1 * 2 ^ k)
    with (((op * 2 ^ 10 + a * 2 ^ 5 + b) * 2 ^ (16 - k) + c1) * 2 ^ k).
  - rewrite lor_mul_add by lia. rewrite Z.mul_add_distr_r, <- Z.mul_assoc, <- E. ring.
  - rewrite Z.mul_add_distr_r, <- Z.mul_assoc, <- E. ring.
Qed.

Lemma word_intro op a b : 0 <= a < 2 ^ 5 -> 0 <= b < 2 ^ 5 ->
  Z.lor (Z.lor (Z.shiftl op 26) (a * 2 ^ 21)) (b * 2 ^ 16) = word op a b 0.
Proof.
  intros Ha Hb. rewrite lor_shiftl_add by lia.
  replace (op * 2 ^ 26 + a * 2 ^ 21) with ((op * 2 ^ 5 + a) * 2 ^ 21) by ring.
  rewrite lor_mul_add by lia. unfold word. ring.
Qed.

Lemma word_imm op a b c : 0 <= c < 2 ^ 16 -> Z.lor (word op a b 0) c = word op a b c.
Proof. intros. exact (word_lor op a b 0 c 16 ltac:(lia) ltac:(lia)). Qed.

Lemma land_u32 x m k : 0 <= k <= 32 -> m = Z.ones k -> Z.land (u32 x) m = x mod 2 ^ k.
Proof.
  intros Hk ->. rewrite Z.land_ones by lia. unfold u32. apply Z.mod_mod_divide.
  exists (2 ^ (32 - k)). rewrite <- Z.pow_add_r by lia. f_equal. lia.
Qed.

Lemma sext_mod n x : 1 <= n -> - 2 ^ (n - 1) <= x < 2 ^ (n - 1) -> sext n (x mod 2 ^ n) = x.
Proof.
  intros Hn Hx. unfold sext. assert (2 ^ n = 2 * 2 ^ (n - 1)) as E.
  { rewrite <- Z.pow_succ_r by lia. f_equal. lia. }
  destruct (Z.ltb_spec x 0).
  - rewrite <- (Z.mod_unique x (2 ^ n) (-1) (x + 2 ^ n)) by lia.
    destruct (Z.ltb_spec (x + 2 ^ n) (2 ^ (n - 1))); lia.
  - rewrite Z.mod_small by lia. destruct (Z.ltb_spec x (2 ^ (n - 1))); lia.
Qed.

Lemma land_3 x : Z.land x 3 = x mod 4.
Proof. exact (Z.land_ones x 2 ltac:(lia)). Qed.

(** Masking a 4-aligned displacement. *)
Lemma land_aligned x m k : 2 <= k <= 32 -> x mod 4 = 0 -> m = 4 * Z.ones (k - 2) -> Z.land (u32 x) m = x mod 2 ^ k.
Proof.
  intros Hk Hx ->. rewrite <- (land_u32 x (Z.ones k) k) by (done || lia).
  apply Z.bits_inj'; intros i Hi. rewrite !Z.land_spec.
  replace (4 * Z.ones (k - 2)) with (Z.shiftl (Z.ones (k - 2)) 2) by (rewrite Z.shiftl_mul_pow2 by lia; lia).
  rewrite Z.shiftl_spec by lia. destruct (Z.ltb_spec i 2).
  - assert (Z.testbit (u32 x) i = false) as ->; [|done].
    unfold u32. rewrite Z.mod_pow2_bits_low by lia.
    rewrite <- (Z.mod_pow2_bits_low x 2 i) by lia. change (2 ^ 2) with 4. rewrite Hx. apply Z.bits_0.
  - rewrite !Z.testbit_ones_nonneg by lia. f_equal.
    destruct (Z.ltb_spec (i - 2) (k - 2)), (Z.ltb_spec i k); (done || lia).
Qed.

Lemma between_true lo x hi : between lo x hi = true <-> lo <= x <= hi.
Proof. unfold between. rewrite andb_true_iff, !Z.leb_le. done. Qed.

Lemma between_bool lo x hi : lo <= x <= hi -> between lo x hi = true.
Proof. apply between_true. Qed.

Section Forms.
Context (rt ra : Z) (Hrt : 0 <= rt < 32) (Hra : 0 <= ra < 32).

Lemma ppcDForm_word op d : 0 <= op < 64 -> -32768 <= d <= 32767 -> ppcDForm op rt ra d = Some (word op rt ra (d mod 2 ^ 16)).
Proof.
  intros Hop Hd. unfold ppcDForm. rewrite !u8_id by lia.
  rewrite (proj2 (Z.leb_le rt 31)), (proj2 (Z.leb_le ra 31)), between_bool by lia. cbn [andb ASSERT mbind option_bind].
  rewrite !reg_at_spec, u32_id by (rewrite ?Z.shiftl_mul_pow2 by lia; lia).
  rewrite word_intro, (land_u32 d 0xFFFF 16) by (done || lia). rewrite word_imm; [done|]. apply Z.mod_pos_bound. lia.
Qed.

Lemma ppcDsForm_word op disp xo :
  0 <= op < 64 -> disp mod 4 = 0 -> -32768 <= disp <= 32764 -> 0 <= xo < 4 ->
  ppcDsForm op rt disp ra xo = Some (word op rt ra (disp mod 2 ^ 16 + xo)).
Proof.
  intros Hop Ha Hd Hxo. unfold ppcDsForm. rewrite land_3, Ha.
  rewrite (proj2 (Z.leb_le 0 rt)), (proj2 (Z.leb_le 0 ra)), between_bool by lia. cbn [andb Z.eqb ASSERT mbind option_bind].
  rewrite !reg_at_spec, u32_id by (rewrite ?Z.shiftl_mul_pow2 by lia; lia).
  pose proof (Z.mod_pos_bound disp (2 ^ 16) ltac:(lia)).
  rewrite word_intro, (land_aligned disp 0xFFFC 16), word_imm by (done || lia).
  assert (disp mod 2 ^ 16 = (disp mod 2 ^ 16 / 4) * 2 ^ 2) as E.
  { change (2 ^ 2) with 4. pose proof (Z.div_mod (disp mod 2 ^ 16) 4 ltac:(lia)) as E.
    rewrite (Z.mod_mod_divide disp (2 ^ 16) 4), Ha in E by (by exists (2 ^ 14)). lia. }
  rewrite E, word_lor by lia. done.
Qed.

Lemma ppcOriForm_word op ui : 0 <= op < 64 -> 0 <= ui < 2 ^ 16 -> ppcOriForm op ra rt ui = Some (word op rt ra ui).
Proof.
  intros Hop Hui. unfold ppcOriForm. rewrite (proj2 (Z.leb_le ui 0xFFFF)) by lia. cbn [ASSERT mbind option_bind].
  rewrite !reg_at_spec, u32_id by (rewrite ?Z.shiftl_mul_pow2 by lia; lia).
  by rewrite word_intro, word_imm by lia.
Qed.

Lemma lor_word op low : 0 <= low < 2 ^ 16 ->
  Z.lor (Z.lor (Z.lor (Z.shiftl op 26) (reg_at rt 21)) (reg_at ra 16)) low = word op rt ra low.
Proof. intros. rewrite !reg_at_spec by lia. by rewrite word_intro, word_imm by lia. Qed.

Lemma lor_half op rb low : 0 <= rb < 32 -> 0 <= low < 2 ^ 11 ->
  Z.lor (Z.lor (Z.lor (Z.lor (Z.shiftl op 26) (reg_at rt 21)) (reg_at ra 16)) (reg_at rb 11)) low = word op rt ra (half rb low).
Proof.
  intros Hrb Hlow. rewrite (reg_at_spec rb) by lia. rewrite lor_word by lia.
  rewrite word_lor by lia. done.
Qed.

Lemma lor_low op rb low k x :
  0 <= k <= 11 -> low mod 2 ^ k = 0 -> 0 <= x < 2 ^ k ->
  Z.lor (word op rt ra (half rb low)) x = word op rt ra (half rb (low + x)).
Proof.
  intros Hk Hlow Hx. unfold half.
  assert (low = low / 2 ^ k * 2 ^ k) as E by (pose proof (Z.div_mod low (2 ^ k) ltac:(lia)); lia).
  assert (2 ^ 11 = 2 ^ (11 - k) * 2 ^ k) as E' by (rewrite <- Z.pow_add_r by lia; f_equal; lia).
  assert (rb * 2 ^ 11 + low = (rb * 2 ^ (11 - k) + low / 2 ^ k) * 2 ^ k) as -> by (rewrite E'; lia).
  rewrite word_lor by lia. f_equal. rewrite E'. lia.
Qed.
End Forms.

(** ** Every encoder's word disassembles to its instruction *)

Section Encodings.
Context `{Target}.

Definition encodes (i : Instr) (w : Z) : Prop :=
  (forall b, emit_instr b i = asmPpcEmitWord b w) /\ 0 <= w < 2 ^ 32 /\ disassemble w = Some i.

Lemma bits_0 x n : 0 <= x < 2 ^ n -> bits x 0 n = x.
Proof. intros. unfold bits. rewrite Z.div_1_r. by apply Z.mod_small. Qed.

Lemma bits_ds c x : 0 <= x < 4 -> c mod 4 = 0 -> 0 <= c < 2 ^ 16 -> bits (c + x) 2 14 * 4 = c /\ bits (c + x) 0 2 = x.
Proof.
  intros Hx Hc Hr. pose proof (Z.div_mod c 4 ltac:(lia)). split.
  - rewrite (bits_unique _ 2 14 (c / 4) 0 x) by lia. lia.
  - apply (bits_unique _ 0 2 x (c / 4) 0); lia.
Qed.

Lemma mod_aligned x k : 2 <= k -> x mod 4 = 0 -> (x mod 2 ^ k) mod 4 = 0.
Proof.
  intros Hk Hx. rewrite Z.mod_mod_divide; [done|]. exists (2 ^ (k - 2)). change 4 with (2 ^ 2).
  rewrite <- Z.pow_add_r by lia. f_equal. lia.
Qed.

(** Splits the operand conditions into arithmetic. *)
Ltac operands H :=
  cbn [operands_ok] in H; unfold reg in H;
  repeat rewrite andb_true_iff in H; rewrite ?between_true, ?land_3, ?Z.eqb_eq in H;
  repeat match type of H with _ /\ _ => let H' := fresh "Hop" in destruct H as [H H'] end.

(** Reads the fields of a word made by [word]; [ok] is its well-formedness. *)
Ltac read_word ok :=
  unfold disassemble; cbv zeta;
  rewrite (word_op _ _ _ _ ok), ?(word_a _ _ _ _ ok), ?(word_b _ _ _ _ ok);
  repeat match goal with
  | |- context [bits (word ?o ?x ?y ?z) ?lo ?n] => rewrite (ppc_word_low o x y z lo n ok) by lia
  end.

Lemma encodes_d op i rt ra d :
  0 <= op < 64 -> 0 <= rt < 32 -> 0 <= ra < 32 -> -32768 <= d <= 32767 ->
  (forall b, emit_instr b i = w ← ppcDForm op rt ra d; asmPpcEmitWord b w) ->
  (forall w, w / 2 ^ 26 = op -> bits w 21 5 = rt -> bits w 16 5 = ra -> sext 16 (bits w 0 16) = d -> disassemble w = Some i) ->
  exists w, encodes i w.
Proof.
  intros Hop Hrt Hra Hd He Hdis. pose proof (Z.mod_pos_bound d (2 ^ 16) ltac:(lia)) as Hm.
  assert (word_ok op rt ra (d mod 2 ^ 16)) as ok by (unfold word_ok; lia).
  exists (word op rt ra (d mod 2 ^ 16)). split; [|split; [by apply ppc_word_range|]].
  - intros b. rewrite He, ppcDForm_word by lia. done.
  - apply Hdis; [by apply word_op|by apply word_a|by apply word_b|].
    rewrite ppc_word_low, bits_0 by (done || lia). apply sext_mod; lia.
Qed.

Lemma encodes_ds op xo i rt ra disp :
  0 <= op < 64 -> 0 <= rt < 32 -> 0 <= ra < 32 -> disp mod 4 = 0 -> -32768 <= disp <= 32764 -> 0 <= xo < 4 ->
  (forall b, emit_instr b i = w ← ppcDsForm op rt disp ra xo; asmPpcEmitWord b w) ->
  (forall w, w / 2 ^ 26 = op -> bits w 21 5 = rt -> bits w 16 5 = ra -> sext 16 (bits w 2 14 * 4) = disp -> bits w 0 2 = xo ->
     disassemble w = Some i) ->
  exists w, encodes i w.
Proof.
  intros Hop Hrt Hra Ha Hd Hxo He Hdis. pose proof (Z.mod_pos_bound disp (2 ^ 16) ltac:(lia)) as Hm.
  pose proof (mod_aligned disp 16 ltac:(lia) Ha) as Hma.
  assert (disp mod 2 ^ 16 + xo < 2 ^ 16).
  { pose proof (Z.div_mod (disp mod 2 ^ 16) 4 ltac:(lia)). lia. }
  assert (word_ok op rt ra (disp mod 2 ^ 16 + xo)) as ok by (unfold word_ok; lia).
  exists (word op rt ra (disp mod 2 ^ 16 + xo)). split; [|split; [by apply ppc_word_range|]].
  - intros b. rewrite He, ppcDsForm_word by lia. done.
  - destruct (bits_ds (disp mod 2 ^ 16) xo Hxo Hma Hm) as [E1 E2].
    apply Hdis; [by apply word_op|by apply word_a|by apply word_b| |]; rewrite ppc_word_low by (done || lia).
    + rewrite E1. apply sext_mod; lia.
    + done.
Qed.

(** The forms with a third register and an extended opcode. *)
Lemma encodes_half op i rt ra rb low :
  0 <= op < 64 -> 0 <= rt < 32 -> 0 <= ra < 32 -> 0 <= rb < 32 -> 0 <= low < 2 ^ 11 ->
  (forall b, emit_instr b i = asmPpcEmitWord b (word op rt ra (half rb low))) ->
  (forall w, w / 2 ^ 26 = op -> bits w 21 5 = rt -> bits w 16 5 = ra -> bits w 11 5 = rb ->
     bits w 23 3 = rt / 4 -> bits w 21 2 = rt mod 4 -> (forall lo n, 0 <= lo -> 0 <= n -> lo + n <= 11 -> bits w lo n = bits low lo n) -> disassemble w = Some i) ->
  exists w, encodes i w.
Proof.
  intros Hop Hrt Hra Hrb Hlow He Hdis.
  assert (word_ok op rt ra (half rb low)) as ok by (unfold word_ok, half; lia).
  exists (word op rt ra (half rb low)). split; [done|]. split; [by apply ppc_word_range|].
  assert (rt = rt / 4 * 4 + rt mod 4) as E by (pose proof (Z.div_mod rt 4); lia). pose proof (Z.mod_pos_bound rt 4 ltac:(lia)).
  apply Hdis; [by apply word_op|by apply word_a|by apply word_b| | | |].
  - rewrite ppc_word_low, half_b by (done || lia). done.
  - rewrite E at 1. apply word_crf; [by rewrite <- E|lia].
  - rewrite E at 1. apply word_l; [by rewrite <- E|lia].
  - intros lo n Hlo Hn Hs. rewrite ppc_word_low, half_low by (done || lia). done.
Qed.

(** Uses what is known of the fields of [w]. *)
Ltac dis :=
  intros; unfold disassemble, disassemble_31, disassemble_63; cbv zeta;
  repeat match goal with
  | E : ?w / 2 ^ 26 = _ |- context [?w / 2 ^ 26] => rewrite E
  | E : bits ?w ?lo ?n = _ |- context [bits ?w ?lo ?n] => rewrite E
  | E : sext _ _ = _ |- _ => rewrite E
  | E : forall lo n, 0 <= lo -> 0 <= n -> lo + n <= 11 -> bits ?w lo n = _ |- context [bits ?w ?lo ?n] => rewrite (E lo n) by lia
  end.

Ltac d_case := eapply encodes_d; [..|intros b; reflexivity|dis; reflexivity]; lia.
Ltac ds_case := eapply encodes_ds; [..|intros b; reflexivity|dis; reflexivity]; lia.

(** A word whose low eleven bits are a constant. *)
Ltac half_case op rt ra rb low :=
  apply (encodes_half op _ rt ra rb low);
    [lia|lia|lia|lia|lia|intros b; cbn [emit_instr]|dis; reflexivity].

Lemma encode_loads i :
  operands_ok i = true ->
  match i with
  | Ld _ _ _ | Std _ _ _ | Stdu _ _ _ | Lwz _ _ _ | Stw _ _ _ | Lbz _ _ _ | Stb _ _ _ | Lhz _ _ _ | Sth _ _ _
  | AddicDot _ _ _ => exists w, encodes i w
  | _ => True
  end.
Proof. destruct i; intros Hok; try exact I; operands Hok; first [ds_case | d_case]. Qed.

Lemma encode_fp_loads i :
  operands_ok i = true ->
  match i with Lfd _ _ _ | Stfd _ _ _ => exists w, encodes i w | _ => True end.
Proof.
  destruct i; intros Hok; try exact I; operands Hok;
    (eapply encodes_d; [..|intros b; cbn [emit_instr]; unfold asmLfd, asmStfd; rewrite between_bool by lia; reflexivity|dis; reflexivity]; lia).
Qed.

Lemma encode_addi i :
  operands_ok i = true ->
  match i with Addi _ _ _ | Addis _ _ _ => exists w, encodes i w | _ => True end.
Proof.
  destruct i; intros Hok; try exact I; operands Hok.
  all: destruct (Z.eqb_spec ra 0) as [->|Hne];
    [eapply encodes_d; [..|intros b; reflexivity|dis; reflexivity]; lia|].
  all: eapply encodes_d; [..|intros b; cbn [emit_instr]; unfold asmAddi, asmAddis, R0;
    rewrite (proj2 (Z.eqb_neq ra 0) Hne); reflexivity|dis; reflexivity]; lia.
Qed.

Lemma encode_indexed i :
  operands_ok i = true ->
  match i with
  | Ldx _ _ _ | Stdx _ _ _ | Lbzx _ _ _ | Stbx _ _ _ | Mtvsrd _ _ | Mfvsrd _ _ => exists w, encodes i w
  | _ => True
  end.
Proof.
  assert (forall rt ra rb xo, 0 <= rt < 32 -> 0 <= ra < 32 -> 0 <= rb < 32 -> 0 <= xo < 2 ^ 10 ->
    ppcXForm rt ra rb xo = Some (word 31 rt ra (half rb (xo * 2)))) as Hx.
  { intros rt ra rb xo ? ? ? ?. unfold ppcXForm, ppcLogical.
    rewrite (proj2 (Z.leb_le 0 rt)), (proj2 (Z.leb_le 0 ra)), (proj2 (Z.leb_le 0 rb)) by lia.
    cbn [andb ASSERT mbind option_bind]. rewrite (Z.shiftl_mul_pow2 xo 1) by lia. rewrite lor_half by lia. done. }
  destruct i; intros Hok; try exact I; operands Hok.
  - half_case 31 rt ra rb 42. unfold asmLdx. by rewrite Hx by lia.
  - half_case 31 rt ra rb 298. unfold asmStdx. by rewrite Hx by lia.
  - half_case 31 rt ra rb 174. unfold asmLbzx. by rewrite Hx by lia.
  - half_case 31 rt ra rb 430. unfold asmStbx. by rewrite Hx by lia.
  - half_case 31 frt ra 0 358. unfold asmMtvsrd. by rewrite Hx by lia.
  - half_case 31 frs ra 0 102. unfold asmMfvsrd. by rewrite Hx by lia.
Qed.

Lemma encode_logical_imm i :
  operands_ok i = true ->
  match i with Ori _ _ _ | Oris _ _ _ | AndiDot _ _ _ => exists w, encodes i w | _ => True end.
Proof.
  assert (forall op i ra rs ui, 0 <= op < 64 -> 0 <= rs < 32 -> 0 <= ra < 32 -> 0 <= ui < 2 ^ 16 ->
    (forall b, emit_instr b i = asmPpcEmitWord b (word op rs ra ui)) ->
    (forall w, w / 2 ^ 26 = op -> bits w 21 5 = rs -> bits w 16 5 = ra -> bits w 0 16 = ui -> disassemble w = Some i) ->
    exists w, encodes i w) as Hk.
  { intros op j ra rs ui ? ? ? ? He Hd. assert (word_ok op rs ra ui) as ok by (unfold word_ok; lia).
    exists (word op rs ra ui). split; [done|]. split; [by apply ppc_word_range|].
    apply Hd; [by apply word_op|by apply word_a|by apply word_b|]. rewrite ppc_word_low, bits_0 by (done || lia). done. }
  destruct i; intros Hok; try exact I; operands Hok.
  - apply (Hk 24 _ ra rs ui); [lia..|intros b; cbn [emit_instr]|dis; reflexivity].
    unfold asmOri. by rewrite ppcOriForm_word by lia.
  - apply (Hk 25 _ ra rs ui); [lia..|intros b; cbn [emit_instr]|dis; reflexivity].
    unfold asmOris. by rewrite ppcOriForm_word by lia.
  - apply (Hk 28 _ ra rs ui); [lia..|intros b; cbn [emit_instr]|dis; reflexivity].
    unfold asmAndiDot. rewrite (proj2 (Z.leb_le ui 0xFFFF)) by lia. cbn [ASSERT mbind option_bind].
    by rewrite lor_word by lia.
Qed.

Lemma encode_logical i :
  operands_ok i = true ->
  match i with
  | Or _ _ _ | And _ _ _ | Xor _ _ _ | Sld _ _ _ | Srd _ _ _ | Srad _ _ _ => exists w, encodes i w
  | _ => True
  end.
Proof.
  assert (forall rs ra rb xo, 0 <= rs < 32 -> 0 <= ra < 32 -> 0 <= rb < 32 -> 0 <= xo < 2 ^ 10 ->
    ppcLogical rs ra rb xo = word 31 rs ra (half rb (xo * 2))) as Hx.
  { intros rs ra rb xo ? ? ? ?. unfold ppcLogical. rewrite (Z.shiftl_mul_pow2 xo 1) by lia. by rewrite lor_half by lia. }
  destruct i; intros Hok; try exact I; operands Hok.
  - half_case 31 rs ra rb 888. unfold asmOr. by rewrite Hx by lia.
  - half_case 31 rs ra rb 56. unfold asmAnd. by rewrite Hx by lia.
  - half_case 31 rs ra rb 632. unfold asmXor. by rewrite Hx by lia.
  - half_case 31 rs ra rb 54. unfold asmSld. by rewrite Hx by lia.
  - half_case 31 rs ra rb 1078. unfold asmSrd. by rewrite Hx by lia.
  - half_case 31 rs ra rb 1588. unfold asmSrad. by rewrite Hx by lia.
Qed.

Lemma encode_arithmetic i :
  operands_ok i = true ->
  match i with
  | Add _ _ _ | AddoDot _ _ _ | Subf _ _ _ | SubfoDot _ _ _ | Mulld _ _ _ | MulldoDot _ _ _ | Divd _ _ _
  | Neg _ _ | NegoDot _ _ => exists w, encodes i w
  | _ => True
  end.
Proof.
  assert (forall rt ra rb xo oe rc, 0 <= rt < 32 -> 0 <= ra < 32 -> 0 <= rb < 32 -> 0 <= xo < 2 ^ 9 ->
    ppcXoForm rt ra rb xo oe rc = word 31 rt ra (half rb (Z.b2z oe * 2 ^ 10 + xo * 2 + Z.b2z rc))) as Hx.
  { intros rt ra rb xo oe rc ? ? ? ?. unfold ppcXoForm.
    rewrite (Z.shiftl_mul_pow2 xo 1), (Z.shiftl_mul_pow2 (Z.b2z oe) 10) by lia.
    assert (0 <= Z.b2z oe <= 1) by (destruct oe; simpl; lia). assert (0 <= Z.b2z rc <= 1) by (destruct rc; simpl; lia).
    rewrite lor_half by lia. rewrite (lor_low _ _ _ _ _ 10) by (lia || by apply Z.mod_mul).
    rewrite (lor_low _ _ _ _ _ 1); [done|lia| |lia].
    change (2 ^ 10) with (2 ^ 9 * 2 ^ 1). rewrite Z.mul_assoc, <- Z.mul_add_distr_r. by apply Z.mod_mul. }
  destruct i; intros Hok; try exact I; operands Hok.
  - half_case 31 rt ra rb 532. unfold asmAdd. by rewrite Hx by lia.
  - half_case 31 rt ra rb 1557. unfold asmAddoDot. by rewrite Hx by lia.
  - half_case 31 rt ra rb 80. unfold asmSubf. by rewrite Hx by lia.
  - half_case 31 rt ra rb 1105. unfold asmSubfoDot. by rewrite Hx by lia.
  - half_case 31 rt ra rb 466. unfold asmMulld. by rewrite Hx by lia.
  - half_case 31 rt ra rb 1491. unfold asmMulldoDot. by rewrite Hx by lia.
  - half_case 31 rt ra rb 978. unfold asmDivd. by rewrite Hx by lia.
  - half_case 31 rt ra 0 208. unfold asmNeg. by rewrite Hx by lia.
  - half_case 31 rt ra 0 1233. unfold asmNegoDot. by rewrite Hx by lia.
Qed.

Lemma reg_at_mod r k : 0 <= k <= 27 -> reg_at r k = (r mod 32) * 2 ^ k.
Proof.
  intros Hk. rewrite <- (reg_at_spec (r mod 32) k) by (lia || apply Z.mod_pos_bound; lia).
  unfold reg_at. change 31 with (Z.ones 5). rewrite !Z.land_ones by lia. by rewrite Z.mod_mod by lia.
Qed.

(** A six-bit number split as the rotates split it. *)
Lemma six_bits x : 0 <= x <= 63 -> 0 <= x / 32 < 2 /\ 0 <= x mod 32 < 32 /\ x / 32 * 32 + x mod 32 = x.
Proof. intros. pose proof (Z.div_mod x 32 ltac:(lia)). pose proof (Z.mod_pos_bound x 32 ltac:(lia)). lia. Qed.

Definition md_low (sh mask xo : Z) : Z := ((mask mod 32) * 2 + mask / 32) * 32 + xo * 4 + (sh / 32) * 2.

Lemma ppcMdForm_word ra rs sh mask xo :
  0 <= rs < 32 -> 0 <= ra < 32 -> 0 <= sh <= 63 -> 0 <= mask <= 63 -> 0 <= xo < 8 ->
  ppcMdForm ra rs sh mask xo = word 30 rs ra (half (sh mod 32) (md_low sh mask xo)).
Proof.
  intros Hrs Hra Hsh Hm Hxo. destruct (six_bits sh Hsh) as (Hs1 & Hs2 & _). destruct (six_bits mask Hm) as (Hm1 & Hm2 & _).
  unfold ppcMdForm, md_low. rewrite !u32_id by lia. change (Z.land mask 31) with (Z.land mask (Z.ones 5)). rewrite Z.land_ones by lia.
  rewrite !(Z.shiftr_div_pow2 _ 5) by lia. change (2 ^ 5) with 32.
  rewrite (lor_shiftl_add _ _ 1) by lia. change (2 ^ 1) with 2.
  rewrite (Z.shiftl_mul_pow2 _ 5), (Z.shiftl_mul_pow2 xo 2), (Z.shiftl_mul_pow2 (sh / 32) 1) by lia.
  rewrite (reg_at_mod sh) by lia. rewrite <- (reg_at_spec (sh mod 32) 11) by lia.
  rewrite lor_half by lia. rewrite (lor_low _ _ _ _ _ 5) by (lia || by apply Z.mod_mul).
  rewrite (lor_low _ _ _ _ _ 2); [done|lia| |lia].
  change (2 ^ 5) with (8 * 2 ^ 2). rewrite Z.mul_assoc, <- Z.mul_add_distr_r. by apply Z.mod_mul.
Qed.

Lemma md_low_fields sh mask xo :
  0 <= sh <= 63 -> 0 <= mask <= 63 -> 0 <= xo < 8 ->
  0 <= md_low sh mask xo < 2 ^ 11 /\ bits (md_low sh mask xo) 1 1 = sh / 32 /\ bits (md_low sh mask xo) 2 3 = xo /\
  bits (md_low sh mask xo) 5 1 = mask / 32 /\ bits (md_low sh mask xo) 6 5 = mask mod 32 /\ bits (md_low sh mask xo) 0 1 = 0.
Proof.
  intros Hsh Hm Hxo. destruct (six_bits sh Hsh) as (Hs1 & Hs2 & _). destruct (six_bits mask Hm) as (Hm1 & Hm2 & _).
  unfold md_low. split; [lia|]. split_and!.
  - apply (bits_unique _ 1 1 _ (((mask mod 32) * 2 + mask / 32) * 8 + xo) 0); lia.
  - apply (bits_unique _ 2 3 _ ((mask mod 32) * 2 + mask / 32) (sh / 32 * 2)); lia.
  - apply (bits_unique _ 5 1 _ (mask mod 32) (xo * 4 + sh / 32 * 2)); lia.
  - apply (bits_unique _ 6 5 _ 0 (mask / 32 * 32 + xo * 4 + sh / 32 * 2)); lia.
  - apply (bits_unique _ 0 1 0 (((mask mod 32) * 2 + mask / 32) * 16 + xo * 2 + sh / 32) 0); lia.
Qed.

Lemma encode_rotates i :
  operands_ok i = true ->
  match i with Rldicr _ _ _ _ | Rldicl _ _ _ _ => exists w, encodes i w | _ => True end.
Proof.
  destruct i; intros Hok; try exact I; operands Hok; destruct (six_bits sh ltac:(lia)) as (_ & Hs2 & Hs).
  - destruct (md_low_fields sh me 1) as (Hl & E1 & E2 & E3 & E4 & E5); [lia..|].
    apply (encodes_half 30 _ rs ra (sh mod 32) (md_low sh me 1)); [lia|lia|lia|lia|lia|intros b; cbn [emit_instr]|].
    + unfold asmRldicr. rewrite !between_bool by lia. cbn [andb ASSERT mbind option_bind]. by rewrite ppcMdForm_word by lia.
    + dis. by rewrite Hs, (proj2 (proj2 (six_bits me ltac:(lia)))).
  - destruct (md_low_fields sh mb 0) as (Hl & E1 & E2 & E3 & E4 & E5); [lia..|].
    apply (encodes_half 30 _ rs ra (sh mod 32) (md_low sh mb 0)); [lia|lia|lia|lia|lia|intros b; cbn [emit_instr]|].
    + unfold asmRldicl. rewrite !between_bool by lia. cbn [andb ASSERT mbind option_bind]. by rewrite ppcMdForm_word by lia.
    + dis. by rewrite Hs, (proj2 (proj2 (six_bits mb ltac:(lia)))).
Qed.

Lemma encode_sradi ra rs sh : operands_ok (Sradi ra rs sh) = true -> exists w, encodes (Sradi ra rs sh) w.
Proof.
  intros Hok. operands Hok. destruct (six_bits sh ltac:(lia)) as (Hs1 & Hs2 & Hs).
  assert (forall b, emit_instr b (Sradi ra rs sh) =
    asmPpcEmitWord b (word 31 rs ra (half (sh mod 32) (1652 + sh / 32 * 2)))) as He.
  { intros b. cbn [emit_instr]. unfold asmSradi. rewrite between_bool by lia. cbn [ASSERT mbind option_bind].
    rewrite (reg_at_mod sh) by lia. rewrite <- (reg_at_spec (sh mod 32) 11) by lia.
    rewrite (Z.shiftl_mul_pow2 413 2), u32_id, (Z.shiftr_div_pow2 _ 5), (Z.shiftl_mul_pow2 _ 1) by lia.
    rewrite lor_half by lia. change (2 ^ 5) with 32. by rewrite (lor_low _ _ _ _ _ 2) by (lia || done). }
  apply (encodes_half 31 _ rs ra (sh mod 32) (1652 + sh / 32 * 2)); [lia..|done|].
  assert (bits (1652 + sh / 32 * 2) 1 10 = 826 + sh / 32) as E10 by (apply (bits_unique _ 1 10 _ 0 0); lia).
  assert (bits (1652 + sh / 32 * 2) 0 1 = 0) as E0 by (apply (bits_unique _ 0 1 0 (826 + sh / 32) 0); lia).
  dis. destruct (Z.eqb_spec (sh / 32) 0) as [E|E].
  - rewrite E. simpl. do 2 f_equal. lia.
  - assert (sh / 32 = 1) as -> by lia. simpl. do 2 f_equal. lia.
Qed.

Lemma ppcCompare_word op crf ra low :
  0 <= crf <= 7 -> 0 <= ra < 32 -> 0 <= low < 2 ^ 16 -> ppcCompare op crf ra low = word op (crf * 4 + 1) ra low.
Proof.
  intros Hc Hr Hl. unfold ppcCompare. rewrite (Z.shiftl_mul_pow2 crf) by lia. rewrite (lor_shiftl_add op) by lia. replace (op * 2 ^ 26 + crf * 2 ^ 23) with ((op * 8 + crf) * 2 ^ 23) by ring.
  change (Z.shiftl 1 21) with (2 ^ 21). rewrite lor_mul_add by lia.
  replace ((op * 8 + crf) * 2 ^ 23 + 2 ^ 21) with (Z.lor (Z.shiftl op 26) ((crf * 4 + 1) * 2 ^ 21)).
  - rewrite reg_at_spec, word_intro, word_imm by lia. done.
  - rewrite lor_shiftl_add by lia. ring.
Qed.

Lemma crf_half crf l : 0 <= l < 4 -> (crf * 4 + l) / 4 = crf.
Proof. intros. rewrite Z.add_comm, Z.div_add by lia. rewrite Z.div_small by lia. lia. Qed.

Lemma crf_rest crf l : 0 <= l < 4 -> (crf * 4 + l) mod 4 = l.
Proof. intros. rewrite Z.add_comm, Z.mod_add by lia. by apply Z.mod_small. Qed.

Lemma encode_compares i :
  operands_ok i = true ->
  match i with Cmpdi _ _ _ | Cmpldi _ _ _ | Cmpd _ _ _ | Cmpld _ _ _ | Fcmpu _ _ _ => exists w, encodes i w | _ => True end.
Proof.
  assert (forall op j crf ra low, 0 <= op < 64 -> 0 <= crf <= 7 -> 0 <= ra < 32 -> 0 <= low < 2 ^ 16 ->
    (forall b, emit_instr b j = asmPpcEmitWord b (word op (crf * 4 + 1) ra low)) ->
    (forall w, w / 2 ^ 26 = op -> bits w 23 3 = crf -> bits w 21 2 = 1 -> bits w 16 5 = ra -> bits w 0 16 = low -> disassemble w = Some j) ->
    exists w, encodes j w) as Hk.
  { intros op j crf ra low ? ? ? ? He Hd. assert (word_ok op (crf * 4 + 1) ra low) as ok by (unfold word_ok; lia).
    exists (word op (crf * 4 + 1) ra low). split; [done|]. split; [by apply ppc_word_range|].
    apply Hd; [by apply word_op|by apply word_crf|by apply word_l|by apply word_b|]. rewrite ppc_word_low, bits_0 by (done || lia). done. }
  destruct i; intros Hok; try exact I; operands Hok.
  - pose proof (Z.mod_pos_bound si (2 ^ 16) ltac:(lia)). pose proof (sext_mod 16 si ltac:(lia) ltac:(lia)) as Hse.
    apply (Hk 11 _ crf ra (si mod 2 ^ 16)); [lia..|intros b; cbn [emit_instr]|].
    + unfold asmCmpdi. rewrite !between_bool by lia. cbn [ASSERT mbind option_bind].
      rewrite (land_u32 si 0xFFFF 16) by (done || lia). by rewrite ppcCompare_word by lia.
    + intros w E1 E2 E3 E4 E5. unfold disassemble. rewrite E1, E2, E3, E4, E5, Hse. reflexivity.
  - apply (Hk 10 _ crf ra ui); [lia..|intros b; cbn [emit_instr]|dis; reflexivity].
    unfold asmCmpldi. rewrite between_bool by lia. rewrite (proj2 (Z.leb_le ui 0xFFFF)) by lia.
    cbn [ASSERT mbind option_bind]. by rewrite ppcCompare_word by lia.
  - apply (encodes_half 31 _ (crf * 4 + 1) ra rb 0); [lia..|intros b; cbn [emit_instr]|].
    + unfold asmCmpd. rewrite between_bool by lia. cbn [ASSERT mbind option_bind].
      rewrite (reg_at_spec rb) by lia. rewrite ppcCompare_word by lia. unfold half. by rewrite Z.add_0_r.
    + rewrite crf_half, crf_rest by lia. dis. reflexivity.
  - apply (encodes_half 31 _ (crf * 4 + 1) ra rb 64); [lia..|intros b; cbn [emit_instr]|].
    + unfold asmCmpld. rewrite between_bool by lia. cbn [ASSERT mbind option_bind].
      rewrite (reg_at_spec rb) by lia. rewrite ppcCompare_word by lia.
      replace (rb * 2 ^ 11) with (half rb 0) by (unfold half; lia).
      change (Z.shiftl 32 1) with 64. by rewrite (lor_low _ _ _ _ _ 11) by (lia || done).
    + rewrite crf_half, crf_rest by lia. dis. reflexivity.
  - apply (encodes_half 63 _ (crf * 4 + 0) fra frb 0); [lia..|intros b; cbn [emit_instr]|].
    + unfold asmFcmpu. rewrite between_bool by lia. cbn [ASSERT mbind option_bind].
      rewrite (Z.shiftl_mul_pow2 crf) by lia. replace (crf * 2 ^ 23) with (reg_at (crf * 4 + 0) 21) by (rewrite reg_at_spec by lia; ring).
      rewrite (reg_at_spec frb) by lia. rewrite lor_word by lia. unfold half. by rewrite !Z.add_0_r.
    + rewrite crf_half, crf_rest by lia. dis. reflexivity.
Qed.

Lemma encode_spr i :
  operands_ok i = true ->
  match i with Mtspr _ _ | Mfspr _ _ | Mfcr _ | Mtcrf _ _ => exists w, encodes i w | _ => True end.
Proof.
  assert (forall rs spr xo, 0 <= rs < 32 -> 0 <= spr <= 1023 -> 0 <= xo < 2 ^ 10 ->
    exists f, ppcSprField spr = Some f /\
      Z.lor (Z.lor (Z.lor (Z.shiftl 31 26) (reg_at rs 21)) f) (Z.shiftl xo 1) =
        word 31 rs (spr mod 32) (half (spr / 32) (xo * 2))) as Hx.
  { intros rs spr xo ? Hs ?. pose proof (Z.mod_pos_bound spr 32 ltac:(lia)). pose proof (Z.div_mod spr 32 ltac:(lia)).
    unfold ppcSprField. rewrite between_bool by lia. cbn [ASSERT mbind option_bind]. eexists; split; [done|].
    rewrite u32_id by lia. change 31 with (Z.ones 5) at 2. rewrite Z.land_ones, (Z.shiftr_div_pow2 _ 5) by lia.
    change (2 ^ 5) with 32. rewrite (lor_shiftl_add _ _ 5), (Z.shiftl_mul_pow2 _ 11), (Z.shiftl_mul_pow2 xo 1) by lia.
    replace ((spr mod 32 * 2 ^ 5 + spr / 32) * 2 ^ 11) with (Z.lor (reg_at (spr mod 32) 16) (reg_at (spr / 32) 11)).
    - rewrite Z.lor_assoc. by rewrite lor_half by lia.
    - rewrite !reg_at_spec, lor_mul_add by lia. ring. }
  destruct i; intros Hok; try exact I; operands Hok.
  - pose proof (Z.mod_pos_bound spr 32 ltac:(lia)). pose proof (Z.div_mod spr 32 ltac:(lia)).
    apply (encodes_half 31 _ rs (spr mod 32) (spr / 32) 934); [lia..|intros b; cbn [emit_instr]|].
    + unfold asmMtspr. destruct (Hx rs spr 467) as (f & -> & E); [lia..|]. cbn [mbind option_bind]. by rewrite E.
    + dis. simpl. do 2 f_equal. lia.
  - pose proof (Z.mod_pos_bound spr 32 ltac:(lia)). pose proof (Z.div_mod spr 32 ltac:(lia)).
    apply (encodes_half 31 _ rt (spr mod 32) (spr / 32) 678); [lia..|intros b; cbn [emit_instr]|].
    + unfold asmMfspr. destruct (Hx rt spr 339) as (f & -> & E); [lia..|]. cbn [mbind option_bind]. by rewrite E.
    + dis. simpl. do 2 f_equal. lia.
  - apply (encodes_half 31 _ rt 0 0 38); [lia..|intros b; cbn [emit_instr]|dis; reflexivity].
    unfold asmMfcr. rewrite <- (lor_half rt 0) by lia. by rewrite !Z.lor_0_r.
  - pose proof (Z.mod_pos_bound fxm 16 ltac:(lia)) as Hm. pose proof (Z.div_mod fxm 16 ltac:(lia)) as Hd.
    assert (word_ok 31 rs (fxm / 16) (fxm mod 16 * 2 ^ 12 + 288)) as ok by (unfold word_ok; lia).
    exists (word 31 rs (fxm / 16) (fxm mod 16 * 2 ^ 12 + 288)). split; [|split; [by apply ppc_word_range|]].
    + intros b. cbn [emit_instr]. unfold asmMtcrf. rewrite (proj2 (Z.leb_le fxm 0xFF)) by lia. cbn [ASSERT mbind option_bind].
      f_equal. rewrite (Z.shiftl_mul_pow2 fxm) by lia.
      replace (fxm * 2 ^ 12) with (Z.lor (reg_at (fxm / 16) 16) (fxm mod 16 * 2 ^ 12)).
      * rewrite Z.lor_assoc, lor_word by lia. change (Z.shiftl 144 1) with 288. by rewrite word_lor by lia.
      * rewrite reg_at_spec, lor_mul_add by lia. lia.
    + assert (bits (word 31 rs (fxm / 16) (fxm mod 16 * 2 ^ 12 + 288)) 12 8 = fxm) as E12.
      { unfold word. apply (bits_unique _ 12 8 fxm (31 * 2 ^ 6 + rs * 2) 288); lia. }
      assert (bits (word 31 rs (fxm / 16) (fxm mod 16 * 2 ^ 12 + 288)) 1 10 = 144) as E1.
      { rewrite ppc_word_low by (done || lia). apply (bits_unique _ 1 10 144 (fxm mod 16 * 2) 0); lia. }
      assert (bits (word 31 rs (fxm / 16) (fxm mod 16 * 2 ^ 12 + 288)) 0 1 = 0) as E0.
      { rewrite ppc_word_low by (done || lia). apply (bits_unique _ 0 1 0 (fxm mod 16 * 2 ^ 11 + 144) 0); lia. }
      assert (bits (word 31 rs (fxm / 16) (fxm mod 16 * 2 ^ 12 + 288)) 11 1 = 0) as E11.
      { rewrite ppc_word_low by (done || lia). apply (bits_unique _ 11 1 0 (fxm mod 16) 288); lia. }
      assert (bits (word 31 rs (fxm / 16) (fxm mod 16 * 2 ^ 12 + 288)) 20 1 = 0) as E20.
      { unfold word. apply (bits_unique _ 20 1 0 (31 * 2 ^ 5 + rs) (fxm * 2 ^ 12 + 288)); lia. }
      unfold disassemble, disassemble_31. rewrite (word_op _ _ _ _ ok), E12, E1, E0, E11, E20, (word_a _ _ _ _ ok). reflexivity.
Qed.

Lemma encode_float i :
  operands_ok i = true ->
  match i with Fadd _ _ _ | Fsub _ _ _ | Fdiv _ _ _ | Fmul _ _ _ | Fcfid _ _ => exists w, encodes i w | _ => True end.
Proof.
  assert (forall frt fra frb frc xo, 0 <= frt < 32 -> 0 <= fra < 32 -> 0 <= frb < 32 -> 0 <= frc < 32 -> 0 <= xo < 32 ->
    ppcAForm frt fra frb frc xo = word 63 frt fra (half frb (frc * 2 ^ 6 + xo * 2))) as Hx.
  { intros frt fra frb frc xo ? ? ? ? ?. unfold ppcAForm. rewrite (reg_at_spec frc), (Z.shiftl_mul_pow2 xo) by lia.
    rewrite lor_half by lia. by rewrite (lor_low _ _ _ _ _ 6) by (lia || by apply Z.mod_mul). }
  destruct i; intros Hok; try exact I; operands Hok.
  - half_case 63 frt fra frb 42. unfold asmFadd. by rewrite Hx by lia.
  - half_case 63 frt fra frb 40. unfold asmFsub. by rewrite Hx by lia.
  - half_case 63 frt fra frb 36. unfold asmFdiv. by rewrite Hx by lia.
  - apply (encodes_half 63 _ frt fra 0 (frb * 2 ^ 6 + 50)); [lia..|intros b; cbn [emit_instr]|].
    + unfold asmFmul. by rewrite Hx by lia.
    + assert (bits (frb * 2 ^ 6 + 50) 1 5 = 25) as E1 by (apply (bits_unique _ 1 5 25 frb 0); lia).
      assert (bits (frb * 2 ^ 6 + 50) 6 5 = frb) as E6 by (apply (bits_unique _ 6 5 frb 0 50); lia).
      assert (bits (frb * 2 ^ 6 + 50) 0 1 = 0) as E0 by (apply (bits_unique _ 0 1 0 (frb * 2 ^ 5 + 25) 0); lia).
      dis. reflexivity.
  - half_case 63 frt 0 frb 1692. unfold asmFcfid. rewrite <- lor_half by lia.
    change (reg_at 0 16) with 0. by rewrite Z.lor_0_r.
Qed.

Lemma encode_constants i :
  match i with Blr | Bctr | Bctrl | BclNext | Trap => exists w, encodes i w | _ => True end.
Proof. destruct i; try exact I; (eexists; split; [intros b; reflexivity|]; split; [vm_compute; split; congruence|reflexivity]). Qed.

(** The words of the two branches, as a bound label or a later patch makes
    them. *)
Lemma b_word_spec disp :
  operands_ok (B disp) = true ->
  let w := Z.lor (Z.shiftl 18 26) (Z.land (u32 disp) 0x03FFFFFC) in 0 <= w < 2 ^ 32 /\ disassemble w = Some (B disp).
Proof.
  intros Hok w. operands Hok. subst w.
  pose proof (mod_aligned disp 26 ltac:(lia) Hok) as Ha. pose proof (Z.mod_pos_bound disp (2 ^ 26) ltac:(lia)) as Hm.
  pose proof (Z.div_mod (disp mod 2 ^ 26) 4 ltac:(lia)) as Hd.
  rewrite (land_aligned disp 0x03FFFFFC 26) by (done || lia). rewrite lor_shiftl_add by lia. split; [lia|].
  unfold disassemble. assert ((18 * 2 ^ 26 + disp mod 2 ^ 26) / 2 ^ 26 = 18) as ->.
  { rewrite Z.add_comm, Z.div_add by lia. rewrite Z.div_small; lia. }
  rewrite (bits_unique _ 2 24 (disp mod 2 ^ 26 / 4) 18 0), (bits_unique _ 0 2 0 (18 * 2 ^ 24 + disp mod 2 ^ 26 / 4) 0) by lia.
  replace (disp mod 2 ^ 26 / 4 * 4) with (disp mod 2 ^ 26) by lia. by rewrite sext_mod by lia.
Qed.

Lemma bc_word_spec bo bi disp :
  operands_ok (Bc bo bi disp) = true ->
  let w := Z.lor (bc_word bo bi) (Z.land (u32 disp) 0xFFFC) in 0 <= w < 2 ^ 32 /\ disassemble w = Some (Bc bo bi disp).
Proof.
  intros Hok w. operands Hok. subst w.
  pose proof (mod_aligned disp 16 ltac:(lia) Hop0) as Ha. pose proof (Z.mod_pos_bound disp (2 ^ 16) ltac:(lia)) as Hm.
  assert (word_ok 16 bo bi (disp mod 2 ^ 16)) as ok by (unfold word_ok; lia).
  unfold bc_word. rewrite (land_aligned disp 0xFFFC 16) by (done || lia). rewrite lor_word by lia. split; [by apply ppc_word_range|].
  destruct (bits_ds (disp mod 2 ^ 16) 0 ltac:(lia) Ha Hm) as [E1 E2]. rewrite Z.add_0_r in E1, E2.
  read_word ok. by rewrite E1, E2, sext_mod by lia.
Qed.

Lemma check26 disp : operands_ok (B disp) = true -> ppcCheckBranchDisp26 disp = Some tt.
Proof. intros Hok. unfold ppcCheckBranchDisp26. cbn [operands_ok] in Hok. by rewrite Hok. Qed.

Lemma check16 bo bi disp : operands_ok (Bc bo bi disp) = true -> ppcCheckBranchDisp16 disp = Some tt.
Proof.
  intros Hok. unfold ppcCheckBranchDisp16. cbn [operands_ok] in Hok.
  rewrite <- andb_assoc, andb_true_iff in Hok. destruct Hok as [_ ->]. done.
Qed.

Lemma encode_branches i :
  operands_ok i = true ->
  match i with B _ | Bc _ _ _ => exists w, encodes i w | _ => True end.
Proof.
  destruct i; intros Hok; try exact I.
  - destruct (b_word_spec disp Hok) as [Hw Hd]. eexists. split; [|split; [exact Hw|exact Hd]].
    intros b. cbn [emit_instr]. unfold asmB. cbn [isBound l_offset].
    replace (asmOffset b + disp - asmOffset b) with disp by lia. rewrite (check26 _ Hok). cbn [mbind option_bind].
    by destruct (asmPpcEmitWord b _).
  - destruct (bc_word_spec bo bi disp Hok) as [Hw Hd]. eexists. split; [|split; [exact Hw|exact Hd]].
    intros b. cbn [emit_instr]. unfold asmBc. cbn [isBound l_offset].
    replace (asmOffset b + disp - asmOffset b) with disp by lia. rewrite (check16 _ _ _ Hok). cbn [mbind option_bind].
    by destruct (asmPpcEmitWord b _).
Qed.

Lemma encoding_exists i : operands_ok i = true -> exists w, encodes i w.
Proof.
  intros Hok. pose proof (encode_loads i Hok). pose proof (encode_fp_loads i Hok). pose proof (encode_addi i Hok).
  pose proof (encode_indexed i Hok). pose proof (encode_logical_imm i Hok). pose proof (encode_logical i Hok).
  pose proof (encode_arithmetic i Hok). pose proof (encode_rotates i Hok). pose proof (encode_compares i Hok).
  pose proof (encode_spr i Hok). pose proof (encode_float i Hok). pose proof (encode_constants i).
  pose proof (encode_branches i Hok).
  destruct i; try assumption. by apply encode_sradi.
Qed.
End Encodings.

(** Words that differ from an encoder's in one of the small fields: [addo]
    without the dot, a 32-bit compare, [lwa], [fctid], [fctiw], [bla] and a
    conditional branch to [CTR]. *)
Example other_words : Forall (fun w => disassemble w = None)
  [word 31 3 4 (half 5 (778 * 2)); word 31 4 4 (half 5 0); word 11 4 4 7; word 58 3 4 (8 + 2);
   word 63 3 0 (half 5 (814 * 2)); word 63 3 0 (half 5 (14 * 2)); 18 * 2 ^ 26 + 8 + 3; word 19 12 2 (528 * 2)].
Proof. repeat constructor. Qed.
