(* ===== verification/Ppc64Code.v ===== *)
(** * What emitted POWER code does

    Executes the words the encoders emit, by the Power ISA, and proves the
    helpers of [AssemblerPpc64.h] correct at that level: the patchable 64-bit
    immediate, the shift aliases, the tagged-base loads and the stack
    helpers; then the ppc64 half of the code-patching contract
    ([targetReadCodePointer] and its relatives in
    [src/vm/jit/ppc64/CodeGeneratorPpc64.c]), and the branch labels. *)
From S2P Require Import Prelude Endian Assembler Ppc64Asm Ppc64Isa.

(** ** Words in memory *)

Section Memory.
Context `{Target}.

Lemma length_ppcStoreWord w : length (ppcStoreWord w) = 4%nat.
Proof. unfold ppcStoreWord. by destruct TARGET_BIG_ENDIAN. Qed.

Lemma u8_shiftr w k : 0 <= k -> u8 (Z.shiftr w k) = bits w k 8.
Proof. intros. unfold u8, bits. by rewrite Z.shiftr_div_pow2. Qed.

Lemma u8_bits w : u8 w = bits w 0 8.
Proof. unfold u8, bits. by rewrite Z.div_1_r. Qed.

Lemma join_bytes w :
  0 <= w < 2 ^ 32 -> bits w 24 8 * 2 ^ 24 + bits w 16 8 * 2 ^ 16 + bits w 8 8 * 2 ^ 8 + bits w 0 8 = w.
Proof.
  intros Hw. unfold bits. rewrite Z.div_1_r, (Z.mod_small (w / 2 ^ 24)) by
    (split; [apply Z.div_pos; lia|apply Z.div_lt_upper_bound; lia]).
  pose proof (Z.div_mod w (2 ^ 8) ltac:(lia)). pose proof (Z.div_mod (w / 2 ^ 8) (2 ^ 8) ltac:(lia)).
  pose proof (Z.div_mod (w / 2 ^ 8 / 2 ^ 8) (2 ^ 8) ltac:(lia)).
  rewrite !Z.div_div in * by lia. change (2 ^ 8 * 2 ^ 8) with (2 ^ 16) in *. change (2 ^ 16 * 2 ^ 8) with (2 ^ 24) in *. lia.
Qed.

Lemma bits_range w lo n : 0 <= n -> 0 <= bits w lo n < 2 ^ n.
Proof. intros. apply Z.mod_pos_bound. apply Z.pow_pos_nonneg; lia. Qed.

Lemma ppcLoadWord_be_sum b0 b1 b2 b3 :
  byte b1 -> byte b2 -> byte b3 -> ppcLoadWord_be b0 b1 b2 b3 = b0 * 2 ^ 24 + b1 * 2 ^ 16 + b2 * 2 ^ 8 + b3.
Proof.
  unfold byte. intros. unfold ppcLoadWord_be. rewrite <- !Z.lor_assoc.
  rewrite (lor_shiftl_add b2), (lor_shiftl_add b1), (lor_shiftl_add b0) by lia. lia.
Qed.

Lemma ppcLoadWord_store w : 0 <= w < 2 ^ 32 -> ppcLoadWord (ppcStoreWord w) = Some w.
Proof.
  intros Hw. pose proof (join_bytes w Hw) as Hj.
  pose proof (bits_range w 24 8 ltac:(lia)). pose proof (bits_range w 16 8 ltac:(lia)).
  pose proof (bits_range w 8 8 ltac:(lia)). pose proof (bits_range w 0 8 ltac:(lia)).
  unfold ppcLoadWord, ppcStoreWord, ppcStoreWord_be, ppcStoreWord_le.
  destruct TARGET_BIG_ENDIAN; rewrite !u8_shiftr, u8_bits by lia; f_equal.
  - rewrite ppcLoadWord_be_sum by done. exact Hj.
  - assert (forall b0 b1 b2 b3, ppcLoadWord_le b0 b1 b2 b3 = ppcLoadWord_be b3 b2 b1 b0) as ->.
    { intros b0 b1 b2 b3. unfold ppcLoadWord_le, ppcLoadWord_be.
      rewrite (Z.lor_comm _ (Z.shiftl b3 24)), (Z.lor_comm _ (Z.shiftl b2 16)), (Z.lor_comm b0), !Z.lor_assoc. done. }
    rewrite ppcLoadWord_be_sum by done. exact Hj.
Qed.

(** ** Execution *)

(** The general-purpose registers, and memory by doubleword address. *)
Record machine := mkMachine { gpr : Z -> Z; mem : Z -> Z }.

Definition set_gpr (m : machine) (r v : Z) : machine :=
  mkMachine (fun r' => if r' =? r then v else gpr m r') (mem m).
Definition set_mem (m : machine) (a v : Z) : machine :=
  mkMachine (gpr m) (fun a' => if a' =? a then v else mem m a').

(** A base register in a D-form or DS-form address; number 0 is the literal
    zero. *)
Definition base (m : machine) (ra : Z) : Z := if ra =? 0 then 0 else gpr m ra.

Definition rotl64 (x n : Z) : Z := (x * 2 ^ n) mod 2 ^ 64 + x * 2 ^ n / 2 ^ 64.

Definition exec (i : Instr) (m : machine) : option machine :=
  match i with
  | Addi rt ra si => Some (set_gpr m rt (u64 (base m ra + si)))
  | Addis rt ra si => Some (set_gpr m rt (u64 (base m ra + si * 2 ^ 16)))
  | Ori ra rs ui => Some (set_gpr m ra (Z.lor (gpr m rs) ui))
  | Oris ra rs ui => Some (set_gpr m ra (Z.lor (gpr m rs) (ui * 2 ^ 16)))
  | Or ra rs rb => Some (set_gpr m ra (Z.lor (gpr m rs) (gpr m rb)))
  | Rldicr ra rs sh me => Some (set_gpr m ra (Z.land (rotl64 (gpr m rs) sh) (2 ^ 64 - 2 ^ (63 - me))))
  | Rldicl ra rs sh mb => Some (set_gpr m ra (Z.land (rotl64 (gpr m rs) sh) (2 ^ (64 - mb) - 1)))
  | Ld rt disp ra => Some (set_gpr m rt (mem m (u64 (base m ra + disp))))
  | Std rs disp ra => Some (set_mem m (u64 (base m ra + disp)) (gpr m rs))
  | Stdu rs disp ra =>
      let ea := u64 (gpr m ra + disp) in Some (set_gpr (set_mem m ea (gpr m rs)) ra ea)
  | _ => None
  end.

(** Straight-line code. *)
Fixpoint run (code : list Z) (m : machine) : option machine :=
  match code with
  | [] => Some m
  | b0 :: b1 :: b2 :: b3 :: t =>
      w ← ppcLoadWord [b0; b1; b2; b3]; i ← disassemble w; m' ← exec i m; run t m'
  | _ => None
  end.

Definition machine_ok (m : machine) : Prop := forall r, 0 <= gpr m r < 2 ^ 64.

Lemma run_word w i t m :
  encodes i w -> run (ppcStoreWord w ++ t) m = m' ← exec i m; run t m'.
Proof.
  intros (_ & Hw & Hd). pose proof (ppcLoadWord_store w Hw) as Hl.
  unfold ppcStoreWord in *. destruct TARGET_BIG_ENDIAN; cbn [ppcStoreWord_be ppcStoreWord_le app run] in *;
    unfold ppcStoreWord_be, ppcStoreWord_le in *; cbn [app run]; rewrite Hl; cbn [mbind option_bind];
    rewrite Hd; reflexivity.
Qed.

(** Emission of a list of instructions, and what running it does. *)
Fixpoint emit_list (b : AssemblerBuffer) (l : list Instr) : option AssemblerBuffer :=
  match l with [] => Some b | i :: t => b' ← emit_instr b i; emit_list b' t end.

Fixpoint exec_list (l : list Instr) (m : machine) : option machine :=
  match l with [] => Some m | i :: t => m' ← exec i m; exec_list t m' end.

(** A listing of straight-line code. *)
Fixpoint disassemble_code (code : list Z) : option (list Instr) :=
  match code with
  | [] => Some []
  | b0 :: b1 :: b2 :: b3 :: t =>
      w ← ppcLoadWord [b0; b1; b2; b3]; i ← disassemble w; l ← disassemble_code t; Some (i :: l)
  | _ => None
  end.

Lemma disassemble_code_word w i t :
  encodes i w -> disassemble_code (ppcStoreWord w ++ t) = l ← disassemble_code t; Some (i :: l).
Proof.
  intros (_ & Hw & Hd). pose proof (ppcLoadWord_store w Hw) as Hl.
  unfold ppcStoreWord in *. destruct TARGET_BIG_ENDIAN;
    unfold ppcStoreWord_be, ppcStoreWord_le in *; cbn [app disassemble_code]; rewrite Hl; cbn [mbind option_bind];
    rewrite Hd; reflexivity.
Qed.

Lemma emit_word b code w :
  holds b code -> exists b', asmPpcEmitWord b w = Some b' /\ holds b' (code ++ ppcStoreWord w) /\ same_sites b b' /\ instOffset b' = instOffset b.
Proof.
  intros Hh. destruct (asmEnsureCapacity_spec b code Hh) as (Hh' & Hr & Hs & Hi & _).
  destruct (asm_emit_spec _ _ (ppcStoreWord w) Hh') as (b' & He & Hb & Hs' & _ & Hi' & _).
  { unfold room, ASM_BUFFER_GAP in *. rewrite length_ppcStoreWord. lia. }
  exists b'. split; [exact He|]. split; [done|]. split; [by transitivity (asmEnsureCapacity b)|congruence].
Qed.

Lemma emit_list_spec l : forall b code,
  holds b code -> Forall (fun i => operands_ok i = true) l ->
  exists b' bytes, emit_list b l = Some b' /\ holds b' (code ++ bytes) /\ length bytes = (4 * length l)%nat /\
    disassemble_code bytes = Some l /\ forall m, run bytes m = exec_list l m.
Proof.
  induction l as [|i t IH]; intros b code Hh Hok.
  - exists b, []. rewrite app_nil_r. done.
  - apply Forall_cons_1 in Hok as [Hi Ht]. destruct (encoding_exists i Hi) as (w & He).
    destruct (emit_word b code w Hh) as (b1 & Hb1 & Hh1 & _).
    destruct (IH b1 _ Hh1 Ht) as (b2 & bytes & Hb2 & Hh2 & Hl & Hdis & Hrun).
    exists b2, (ppcStoreWord w ++ bytes). cbn [emit_list exec_list]. rewrite (proj1 He), Hb1. cbn [mbind option_bind].
    split; [done|]. split; [by rewrite app_assoc|]. split; [rewrite length_app, length_ppcStoreWord, Hl; simpl; lia|].
    split; [by rewrite (disassemble_code_word _ _ _ He), Hdis|].
    intros m. rewrite (run_word _ _ _ _ He). destruct (exec i m); [apply Hrun|done].
Qed.

Lemma bind_ret {A} (o : option A) : (x ← o; Some x) = o.
Proof. by destruct o. Qed.

Lemma gpr_set m r v r' : gpr (set_gpr m r v) r' = if r' =? r then v else gpr m r'.
Proof. done. Qed.

Lemma gpr_same m r v : gpr (set_gpr m r v) r = v.
Proof. rewrite gpr_set. by rewrite Z.eqb_refl. Qed.

Lemma gpr_other m r v r' : r' <> r -> gpr (set_gpr m r v) r' = gpr m r'.
Proof. intros. rewrite gpr_set. by rewrite (proj2 (Z.eqb_neq r' r)). Qed.

(** ** Rotates as shifts *)

Lemma rotl64_range x n : 0 <= x < 2 ^ 64 -> 0 <= n <= 63 -> 0 <= rotl64 x n < 2 ^ 64.
Proof.
  intros Hx Hn. unfold rotl64. assert (2 ^ 64 = 2 ^ (64 - n) * 2 ^ n) as E by (rewrite <- Z.pow_add_r by lia; f_equal; lia).
  assert (0 < 2 ^ n) by lia. assert (0 < 2 ^ (64 - n)) by lia.
  rewrite E, Z.mul_mod_distr_r, Z.div_mul_cancel_r by lia.
  pose proof (Z.mod_pos_bound x (2 ^ (64 - n)) ltac:(lia)).
  assert (0 <= x / 2 ^ (64 - n) < 2 ^ n).
  { split; [apply Z.div_pos; lia|]. apply Z.div_lt_upper_bound; [lia|]. rewrite <- E. lia. }
  nia.
Qed.

(** Keeping the high bits of a rotate is a left shift. *)
Lemma rotl64_high x n : 0 <= x < 2 ^ 64 -> 0 <= n <= 63 -> Z.land (rotl64 x n) (2 ^ 64 - 2 ^ n) = (x * 2 ^ n) mod 2 ^ 64.
Proof.
  intros Hx Hn. pose proof (rotl64_range x n Hx Hn) as Hr.
  assert (2 ^ 64 = 2 ^ (64 - n) * 2 ^ n) as E by (rewrite <- Z.pow_add_r by lia; f_equal; lia).
  assert (Z.land (rotl64 x n) (2 ^ 64 - 2 ^ n) = Z.shiftl (Z.shiftr (rotl64 x n) n) n) as ->.
  { replace (2 ^ 64 - 2 ^ n) with (Z.shiftl (Z.ones (64 - n)) n).
    - apply Z.bits_inj'; intros i Hi. rewrite Z.land_spec, !Z.shiftl_spec by lia.
      destruct (Z.ltb_spec i n).
      + rewrite !(Z.testbit_neg_r _ (i - n)) by lia. apply andb_false_r.
      + rewrite Z.shiftr_spec, Z.testbit_ones_nonneg by lia. replace (i - n + n) with i by lia.
        destruct (Z.ltb_spec (i - n) (64 - n)); [apply andb_true_r|].
        rewrite andb_false_r. symmetry. rewrite <- (Z.mod_small _ _ Hr). apply Z.mod_pow2_bits_high. lia.
    - rewrite Z.shiftl_mul_pow2, Z.ones_equiv by lia. rewrite E. lia. }
  rewrite Z.shiftr_div_pow2, Z.shiftl_mul_pow2 by lia. unfold rotl64.
  rewrite E, Z.mul_mod_distr_r, Z.div_mul_cancel_r by lia.
  assert (0 <= x / 2 ^ (64 - n) < 2 ^ n).
  { split; [apply Z.div_pos; lia|]. apply Z.div_lt_upper_bound; [lia|]. rewrite <- E. lia. }
  rewrite Z.add_comm, Z.div_add by lia. rewrite Z.div_small by lia. lia.
Qed.

(** Keeping the low bits of a rotate by [64 - n] is a right shift. *)
Lemma rotl64_low x n : 0 <= x < 2 ^ 64 -> 1 <= n <= 63 -> Z.land (rotl64 x (64 - n)) (2 ^ (64 - n) - 1) = x / 2 ^ n.
Proof.
  intros Hx Hn. replace (2 ^ (64 - n) - 1) with (Z.ones (64 - n)) by (rewrite Z.ones_equiv; lia).
  rewrite Z.land_ones by lia. unfold rotl64.
  assert (2 ^ 64 = 2 ^ n * 2 ^ (64 - n)) as E by (rewrite <- Z.pow_add_r by lia; f_equal; lia).
  rewrite E, Z.mul_mod_distr_r, Z.div_mul_cancel_r by lia.
  rewrite Z.add_comm, Z.mod_add by lia. apply Z.mod_small.
  split; [apply Z.div_pos; lia|]. apply Z.div_lt_upper_bound; lia.
Qed.

Lemma land_63 n : 0 <= n -> Z.land n 63 = n mod 64.
Proof. intros. exact (Z.land_ones n 6 ltac:(lia)). Qed.

(** ** The 64-bit immediate *)

Definition li64 (rt imm : Z) : list Instr :=
  [Addis rt 0 (i16 (Z.shiftr imm 48)); Ori rt rt (bits imm 32 16); Rldicr rt rt 32 31;
   Oris rt rt (bits imm 16 16); Ori rt rt (bits imm 0 16)].

Lemma land_half imm k : 0 <= k -> Z.land (Z.shiftr imm k) 0xFFFF = bits imm k 16.
Proof. intros. change 0xFFFF with (Z.ones 16). rewrite Z.land_ones, Z.shiftr_div_pow2 by lia. done. Qed.

Lemma asmLi64_list b rt imm : asmLi64 b rt imm = emit_list b (li64 rt imm).
Proof.
  unfold asmLi64, li64. cbn [emit_list emit_instr]. change (0 =? 0) with true. cbn [andb].
  rewrite !land_half by lia.
  assert (Z.land imm 0xFFFF = bits imm 0 16) as ->.
  { pose proof (land_half imm 0 ltac:(lia)) as E. by rewrite Z.shiftr_0_r in E. }
  destruct (asmLis _ _ _); [|done]. cbn [mbind option_bind].
  destruct (asmOri _ _ _ _); [|done]. cbn [mbind option_bind]. unfold asmSldi. change (63 - 32) with 31.
  destruct (asmRldicr _ _ _ _ _); [|done]. cbn [mbind option_bind].
  destruct (asmOris _ _ _ _); [|done]. cbn [mbind option_bind]. by rewrite bind_ret.
Qed.

Lemma i16_range x : -32768 <= i16 x <= 32767.
Proof. unfold i16. pose proof (Z.mod_pos_bound (x + 2 ^ 15) (2 ^ 16) ltac:(lia)). lia. Qed.

Lemma li64_ok rt imm : 0 <= rt < 32 -> Forall (fun i => operands_ok i = true) (li64 rt imm).
Proof.
  intros Hrt. pose proof (i16_range (Z.shiftr imm 48)).
  pose proof (bits_range imm 32 16 ltac:(lia)). pose proof (bits_range imm 16 16 ltac:(lia)). pose proof (bits_range imm 0 16 ltac:(lia)).
  unfold li64. repeat constructor; cbn [operands_ok]; unfold reg; rewrite !between_bool by lia; done.
Qed.

(** The halves of the immediate. *)
Lemma halves imm : 0 <= imm < 2 ^ 64 ->
  imm = bits imm 48 16 * 2 ^ 48 + bits imm 32 16 * 2 ^ 32 + bits imm 16 16 * 2 ^ 16 + bits imm 0 16.
Proof.
  intros Hi. unfold bits. rewrite Z.div_1_r, (Z.mod_small (imm / 2 ^ 48)) by
    (split; [apply Z.div_pos; lia|apply Z.div_lt_upper_bound; lia]).
  pose proof (Z.div_mod imm (2 ^ 16) ltac:(lia)). pose proof (Z.div_mod (imm / 2 ^ 16) (2 ^ 16) ltac:(lia)).
  pose proof (Z.div_mod (imm / 2 ^ 16 / 2 ^ 16) (2 ^ 16) ltac:(lia)).
  rewrite !Z.div_div in * by lia. change (2 ^ 16 * 2 ^ 16) with (2 ^ 32) in *. change (2 ^ 32 * 2 ^ 16) with (2 ^ 48) in *. lia.
Qed.

(** [lis] and [ori] leave the two high halves in the low word, under sign
    bits that the shift removes. *)
Lemma li64_high imm :
  0 <= imm < 2 ^ 64 ->
  exists junk, 0 <= junk < 2 ^ 32 /\
    Z.lor (u64 (i16 (Z.shiftr imm 48) * 2 ^ 16)) (bits imm 32 16) = junk * 2 ^ 32 + bits imm 48 16 * 2 ^ 16 + bits imm 32 16.
Proof.
  intros Hi. pose proof (bits_range imm 32 16 ltac:(lia)) as H2. pose proof (bits_range imm 48 16 ltac:(lia)) as H3.
  assert (Z.shiftr imm 48 = bits imm 48 16) as ->.
  { rewrite Z.shiftr_div_pow2 by lia. unfold bits. rewrite Z.mod_small; [done|].
    split; [apply Z.div_pos; lia|apply Z.div_lt_upper_bound; lia]. }
  set (h := bits imm 48 16) in *. unfold i16, u64. destruct (Z.ltb_spec h (2 ^ 15)).
  - exists 0. split; [lia|]. rewrite (Z.mod_small (h + 2 ^ 15)) by lia. replace (h + 2 ^ 15 - 2 ^ 15) with h by lia.
    rewrite Z.mod_small by lia. rewrite lor_mul_add by lia. lia.
  - exists (2 ^ 32 - 1). split; [lia|].
    rewrite <- (Z.mod_unique (h + 2 ^ 15) (2 ^ 16) 1 (h - 2 ^ 15)) by lia.
    rewrite <- (Z.mod_unique ((h - 2 ^ 15 - 2 ^ 15) * 2 ^ 16) (2 ^ 64) (-1) ((2 ^ 48 + h - 2 ^ 16) * 2 ^ 16)) by lia.
    rewrite lor_mul_add by lia. lia.
Qed.

Lemma li64_exec rt imm m :
  0 <= imm < 2 ^ 64 ->
  exists m', exec_list (li64 rt imm) m = Some m' /\ gpr m' rt = imm /\
    (forall r, r <> rt -> gpr m' r = gpr m r) /\ mem m' = mem m.
Proof.
  intros Hi. cbn [exec_list li64 exec mbind option_bind]. eexists; split; [reflexivity|].
  split; [|split; [intros r Hr; by rewrite !gpr_other|done]].
  rewrite !gpr_same. unfold base. change (0 =? 0) with true. rewrite Z.add_0_l.
  destruct (li64_high imm Hi) as (junk & Hj & ->).
  pose proof (bits_range imm 48 16 ltac:(lia)) as H3. pose proof (bits_range imm 32 16 ltac:(lia)) as H2.
  pose proof (bits_range imm 16 16 ltac:(lia)) as H1. pose proof (bits_range imm 0 16 ltac:(lia)) as H0.
  change (63 - 31) with 32. rewrite rotl64_high by lia.
  replace ((junk * 2 ^ 32 + bits imm 48 16 * 2 ^ 16 + bits imm 32 16) * 2 ^ 32)
    with ((bits imm 48 16 * 2 ^ 16 + bits imm 32 16) * 2 ^ 32 + junk * 2 ^ 64) by ring.
  rewrite Z.mod_add, Z.mod_small by lia.
  rewrite lor_mul_add by lia.
  replace ((bits imm 48 16 * 2 ^ 16 + bits imm 32 16) * 2 ^ 32 + bits imm 16 16 * 2 ^ 16)
    with (((bits imm 48 16 * 2 ^ 16 + bits imm 32 16) * 2 ^ 16 + bits imm 16 16) * 2 ^ 16) by ring.
  rewrite lor_mul_add by lia. rewrite (halves imm Hi) at 5. ring.
Qed.

(** ** Shift aliases *)

(** The instruction of each alias, and its value. *)
Lemma sldi_exec ra rs n m :
  machine_ok m -> 0 <= n <= 63 ->
  exec (Rldicr ra rs n (63 - n)) m = Some (set_gpr m ra (u64 (gpr m rs * 2 ^ n))).
Proof. intros Hm Hn. cbn [exec]. replace (63 - (63 - n)) with n by lia. by rewrite rotl64_high. Qed.

Lemma srdi_exec ra rs n m :
  machine_ok m -> 0 <= n <= 63 ->
  exec (Rldicl ra rs (Z.land (64 - n) 63) n) m = Some (set_gpr m ra (gpr m rs / 2 ^ n)).
Proof.
  intros Hm Hn. cbn [exec]. rewrite land_63 by lia. pose proof (Hm rs) as Hx. destruct (decide (n = 0)) as [->|Hne].
  - change ((64 - 0) mod 64) with 0. unfold rotl64. rewrite Z.pow_0_r, Z.mul_1_r, Z.mod_small, Z.div_small, Z.add_0_r, Z.div_1_r by lia.
    change (2 ^ (64 - 0) - 1) with (Z.ones 64). rewrite Z.land_ones, Z.mod_small by lia. done.
  - rewrite Z.mod_small by lia. by rewrite rotl64_low by lia.
Qed.

Lemma clrldi_exec ra rs n m :
  machine_ok m -> 0 <= n <= 63 ->
  exec (Rldicl ra rs 0 n) m = Some (set_gpr m ra (gpr m rs mod 2 ^ (64 - n))).
Proof.
  intros Hm Hn. cbn [exec]. pose proof (Hm rs) as Hx. unfold rotl64.
  rewrite Z.pow_0_r, Z.mul_1_r, Z.mod_small, Z.div_small, Z.add_0_r by lia.
  replace (2 ^ (64 - n) - 1) with (Z.ones (64 - n)) by (rewrite Z.ones_equiv; lia). by rewrite Z.land_ones by lia.
Qed.

Lemma rotldi_exec ra rs n m :
  machine_ok m -> 0 <= n <= 63 ->
  exec (Rldicl ra rs (Z.land n 63) 0) m = Some (set_gpr m ra (rotl64 (gpr m rs) n)).
Proof.
  intros Hm Hn. cbn [exec]. rewrite land_63, Z.mod_small by lia. change (2 ^ (64 - 0) - 1) with (Z.ones 64).
  rewrite Z.land_ones, Z.mod_small by (first [lia | apply rotl64_range; [apply Hm|lia]]). done.
Qed.

(** ** Tagged bases and the stack *)

Definition ldT (dst disp bs : Z) : list Instr :=
  if Z.land disp 3 =? 0 then [Ld dst disp bs] else [Addi TMP2 bs (-1); Ld dst (disp + 1) TMP2].
Definition stdT (src disp bs : Z) : list Instr :=
  if Z.land disp 3 =? 0 then [Std src disp bs] else [Addi TMP2 bs (-1); Std src (disp + 1) TMP2].

(** A displacement off an untagged or a tagged pointer. *)
Definition tagged_disp (disp : Z) : Prop := (disp mod 4 = 0 \/ disp mod 4 = 3) /\ -32768 <= disp <= 32764.

Lemma tagged_cases disp : tagged_disp disp ->
  (Z.land disp 3 =? 0) = true /\ disp mod 4 = 0 /\ disp <= 32764 /\ -32768 <= disp \/
  (Z.land disp 3 =? 0) = false /\ (Z.land disp 3 =? 3) = true /\ (disp + 1) mod 4 = 0 /\ -32768 <= disp + 1 <= 32764.
Proof.
  intros [[Hd|Hd] Hr]; rewrite land_3, Hd; [left; repeat split; lia|right].
  pose proof (Z.div_mod disp 4 ltac:(lia)). assert ((disp + 1) mod 4 = 0) by (rewrite Z.add_mod, Hd by lia; done). repeat split; lia.
Qed.

Lemma asmLdT_list b dst disp bs : tagged_disp disp -> bs <> 0 -> asmLdT b dst disp bs = emit_list b (ldT dst disp bs).
Proof.
  intros Hd Hb. unfold asmLdT, ldT. destruct (tagged_cases disp Hd) as [(-> & _)|(-> & -> & _)]; cbn [ASSERT mbind option_bind emit_list emit_instr].
  - by rewrite bind_ret.
  - rewrite (proj2 (Z.eqb_neq bs 0) Hb). destruct (asmAddi _ _ _ _); [|done]. cbn [mbind option_bind]. by rewrite bind_ret.
Qed.

Lemma asmStdT_list b src disp bs : tagged_disp disp -> bs <> 0 -> src <> TMP2 -> asmStdT b src disp bs = emit_list b (stdT src disp bs).
Proof.
  intros Hd Hb Hs. unfold asmStdT, stdT. rewrite (proj2 (Z.eqb_neq src TMP2) Hs).
  destruct (tagged_cases disp Hd) as [(-> & _)|(-> & -> & _)]; cbn [negb ASSERT mbind option_bind emit_list emit_instr].
  - by rewrite bind_ret.
  - rewrite (proj2 (Z.eqb_neq bs 0) Hb). destruct (asmAddi _ _ _ _); [|done]. cbn [mbind option_bind]. by rewrite bind_ret.
Qed.

Lemma ldT_ok dst disp bs : tagged_disp disp -> 0 <= dst < 32 -> 0 < bs < 32 -> Forall (fun i => operands_ok i = true) (ldT dst disp bs ++ stdT dst disp bs).
Proof.
  intros Hd Hdst Hb. unfold ldT, stdT, TMP2.
  destruct (tagged_cases disp Hd) as [(-> & E & Hr)|(-> & _ & E & Hr)]; repeat constructor; cbn [operands_ok]; unfold reg;
    rewrite !between_bool, ?land_3, ?E by (unfold tagged_disp in Hd; lia); done.
Qed.

Lemma u64_retag x disp : u64 (u64 (x + -1) + (disp + 1)) = u64 (x + disp).
Proof. unfold u64. rewrite Zplus_mod_idemp_l. f_equal. lia. Qed.

Lemma ldT_exec dst disp bs m :
  tagged_disp disp -> 0 < bs < 32 ->
  exists m', exec_list (ldT dst disp bs) m = Some m' /\ gpr m' dst = mem m (u64 (gpr m bs + disp)) /\
    mem m' = mem m /\ forall r, r <> dst -> r <> TMP2 -> gpr m' r = gpr m r.
Proof.
  intros Hd Hb. unfold ldT.
  destruct (tagged_cases disp Hd) as [(-> & _)|(-> & _)]; cbn [exec_list exec mbind option_bind]; (eexists; split; [reflexivity|]).
  - rewrite gpr_same. unfold base. rewrite (proj2 (Z.eqb_neq bs 0)) by lia.
    split; [done|]. split; [done|]. intros r Hr _. by apply gpr_other.
  - rewrite gpr_same. unfold base. rewrite (proj2 (Z.eqb_neq bs 0)) by lia. change (TMP2 =? 0) with false. cbv iota.
    rewrite gpr_same. cbn [set_gpr mem]. rewrite u64_retag.
    split; [done|]. split; [done|]. intros r Hr Hr'. by rewrite !gpr_other.
Qed.

Lemma stdT_exec src disp bs m :
  tagged_disp disp -> 0 < bs < 32 -> src <> TMP2 ->
  exists m', exec_list (stdT src disp bs) m = Some m' /\ mem m' (u64 (gpr m bs + disp)) = gpr m src /\
    (forall a, a <> u64 (gpr m bs + disp) -> mem m' a = mem m a) /\ forall r, r <> TMP2 -> gpr m' r = gpr m r.
Proof.
  intros Hd Hb Hs. unfold stdT.
  destruct (tagged_cases disp Hd) as [(-> & _)|(-> & _)]; cbn [exec_list exec mbind option_bind]; (eexists; split; [reflexivity|]).
  - cbn [set_mem mem gpr]. unfold base. rewrite (proj2 (Z.eqb_neq bs 0)) by lia. rewrite Z.eqb_refl.
    split; [done|]. split; [|done]. intros a Ha. by rewrite (proj2 (Z.eqb_neq _ _) Ha).
  - cbn [set_mem mem gpr]. unfold base. rewrite (proj2 (Z.eqb_neq bs 0)) by lia. change (TMP2 =? 0) with false. cbv iota.
    rewrite gpr_same, u64_retag, Z.eqb_refl, gpr_other by done.
    split; [done|]. split; [|intros r Hr; by apply gpr_other]. intros a Ha. by rewrite (proj2 (Z.eqb_neq _ _) Ha).
Qed.

(** ** Patching a baked immediate *)

(** [seq[k]]; [None] outside the block or never written. *)
Definition peek (m : list (option Z)) (seq k : nat) : option Z := x ← m !! (seq + k)%nat; x.

(** [seq[k] = v] for each pair of the list, in order. *)
Fixpoint poke (m : list (option Z)) (seq : nat) (l : list (nat * Z)) : option (list (option Z)) :=
  match l with
  | [] => Some m
  | (k, v) :: t => m' ← put m (seq + k) (Some v); poke m' seq t
  end.

(** The assertion on the primary opcodes; [o] is where a word keeps them. *)
Definition check_opcodes (m : list (option Z)) (seq o : nat) : option unit :=
  a ← peek m seq o; b ← peek m seq (4 + o); c ← peek m seq (8 + o); d ← peek m seq (12 + o); e ← peek m seq (16 + o);
  ASSERT ((Z.shiftr a 2 =? 15) && (Z.shiftr b 2 =? 24) && (Z.shiftr c 2 =? 30) && (Z.shiftr d 2 =? 25) && (Z.shiftr e 2 =? 24)).

Definition join64 (b7 b6 b5 b4 b3 b2 b1 b0 : Z) : Z :=
  Z.lor (Z.lor (Z.lor (Z.lor (Z.lor (Z.lor (Z.lor (Z.shiftl b7 56) (Z.shiftl b6 48)) (Z.shiftl b5 40)) (Z.shiftl b4 32))
    (Z.shiftl b3 24)) (Z.shiftl b2 16)) (Z.shiftl b1 8)) b0.

Definition asmLi64Read_be (m : list (option Z)) (seq : nat) : option Z :=
  _ ← check_opcodes m seq 0;
  b7 ← peek m seq 2; b6 ← peek m seq 3; b5 ← peek m seq 6; b4 ← peek m seq 7;
  b3 ← peek m seq 14; b2 ← peek m seq 15; b1 ← peek m seq 18; b0 ← peek m seq 19;
  Some (join64 b7 b6 b5 b4 b3 b2 b1 b0).

Definition asmLi64Read_le (m : list (option Z)) (seq : nat) : option Z :=
  _ ← check_opcodes m seq 3;
  b7 ← peek m seq 1; b6 ← peek m seq 0; b5 ← peek m seq 5; b4 ← peek m seq 4;
  b3 ← peek m seq 13; b2 ← peek m seq 12; b1 ← peek m seq 17; b0 ← peek m seq 16;
  Some (join64 b7 b6 b5 b4 b3 b2 b1 b0).

Definition asmLi64Patch_be (m : list (option Z)) (seq : nat) (imm : Z) : option (list (option Z)) :=
  _ ← check_opcodes m seq 0;
  poke m seq [(2, u8 (Z.shiftr imm 56)); (3, u8 (Z.shiftr imm 48)); (6, u8 (Z.shiftr imm 40)); (7, u8 (Z.shiftr imm 32));
    (14, u8 (Z.shiftr imm 24)); (15, u8 (Z.shiftr imm 16)); (18, u8 (Z.shiftr imm 8)); (19, u8 imm)]%nat.

Definition asmLi64Patch_le (m : list (option Z)) (seq : nat) (imm : Z) : option (list (option Z)) :=
  _ ← check_opcodes m seq 3;
  poke m seq [(1, u8 (Z.shiftr imm 56)); (0, u8 (Z.shiftr imm 48)); (5, u8 (Z.shiftr imm 40)); (4, u8 (Z.shiftr imm 32));
    (13, u8 (Z.shiftr imm 24)); (12, u8 (Z.shiftr imm 16)); (17, u8 (Z.shiftr imm 8)); (16, u8 imm)]%nat.

Definition asmLi64Read (m : list (option Z)) (seq : nat) : option Z :=
  if TARGET_BIG_ENDIAN then asmLi64Read_be m seq else asmLi64Read_le m seq.
Definition asmLi64Patch (m : list (option Z)) (seq : nat) (imm : Z) : option (list (option Z)) :=
  if TARGET_BIG_ENDIAN then asmLi64Patch_be m seq imm else asmLi64Patch_le m seq imm.

Lemma peek_put m m' seq k v j :
  put m (seq + k) (Some v) = Some m' -> peek m' seq j = if decide (j = k) then Some v else peek m seq j.
Proof.
  unfold put, peek. case_decide as Hd; [|done]. intros [= <-]. case_decide as Hj.
  - subst. by rewrite list_lookup_insert_eq by lia.
  - by rewrite list_lookup_insert_ne by lia.
Qed.

(** The last value a list of writes leaves at [j]. *)
Fixpoint written (l : list (nat * Z)) (j : nat) : option Z :=
  match l with
  | [] => None
  | (k, v) :: t => match written t j with Some x => Some x | None => if decide (j = k) then Some v else None end
  end.

Lemma peek_poke m m' seq l j :
  poke m seq l = Some m' -> peek m' seq j = match written l j with Some v => Some v | None => peek m seq j end.
Proof.
  revert m. induction l as [|[k v] t IH]; intros m Hp; cbn [poke written] in *.
  - by injection Hp as ->.
  - apply bind_Some in Hp as (m1 & Hm1 & Hp). rewrite (IH _ Hp), (peek_put _ _ _ _ _ _ Hm1).
    destruct (written t j); [done|]. by case_decide.
Qed.

Lemma length_poke m m' seq l : poke m seq l = Some m' -> length m' = length m.
Proof.
  revert m. induction l as [|[k v] t IH]; intros m Hp; cbn [poke] in Hp; [by injection Hp as ->|].
  apply bind_Some in Hp as (m1 & Hm1 & Hp). rewrite (IH _ Hp).
  unfold put in Hm1. case_decide; [|done]. injection Hm1 as <-. by rewrite length_insert.
Qed.

(** The writes leave the opcode bytes alone. *)
Lemma check_poke m m' seq o l :
  poke m seq l = Some m' -> (forall k, (k < 5)%nat -> written l (4 * k + o) = None) ->
  check_opcodes m' seq o = check_opcodes m seq o.
Proof.
  intros Hp Hl. unfold check_opcodes.
  assert (forall k, (k < 5)%nat -> peek m' seq (4 * k + o) = peek m seq (4 * k + o)) as Hk.
  { intros k Hk. rewrite (peek_poke _ _ _ _ _ Hp). by rewrite Hl. }
  pose proof (Hk 0%nat ltac:(lia)) as E0. pose proof (Hk 1%nat ltac:(lia)) as E1. pose proof (Hk 2%nat ltac:(lia)) as E2.
  pose proof (Hk 3%nat ltac:(lia)) as E3. pose proof (Hk 4%nat ltac:(lia)) as E4.
  simpl Nat.mul in *. simpl Nat.add in *. by rewrite E0, E1, E2, E3, E4.
Qed.

Lemma join64_bytes v : 0 <= v < 2 ^ 64 ->
  join64 (u8 (Z.shiftr v 56)) (u8 (Z.shiftr v 48)) (u8 (Z.shiftr v 40)) (u8 (Z.shiftr v 32))
    (u8 (Z.shiftr v 24)) (u8 (Z.shiftr v 16)) (u8 (Z.shiftr v 8)) (u8 v) = v.
Proof.
  intros Hv. rewrite !u8_shiftr, u8_bits by lia. unfold join64. rewrite <- !Z.lor_assoc.
  pose proof (bits_range v 56 8 ltac:(lia)). pose proof (bits_range v 48 8 ltac:(lia)). pose proof (bits_range v 40 8 ltac:(lia)).
  pose proof (bits_range v 32 8 ltac:(lia)). pose proof (bits_range v 24 8 ltac:(lia)). pose proof (bits_range v 16 8 ltac:(lia)).
  pose proof (bits_range v 8 8 ltac:(lia)). pose proof (bits_range v 0 8 ltac:(lia)).
  rewrite (lor_shiftl_add (bits v 8 8)), (lor_shiftl_add (bits v 16 8)), (lor_shiftl_add (bits v 24 8)), (lor_shiftl_add (bits v 32 8)),
    (lor_shiftl_add (bits v 40 8)), (lor_shiftl_add (bits v 48 8)), (lor_shiftl_add (bits v 56 8)) by lia.
  pose proof (join_bytes (v mod 2 ^ 32) (Z.mod_pos_bound v (2 ^ 32) ltac:(lia))) as Hlo.
  assert (0 <= v / 2 ^ 32 < 2 ^ 32) as Hh by (split; [apply Z.div_pos; lia|apply Z.div_lt_upper_bound; lia]).
  pose proof (join_bytes (v / 2 ^ 32) Hh) as Hhi. pose proof (Z.div_mod v (2 ^ 32) ltac:(lia)) as Hdm.
  assert (forall lo, 0 <= lo -> bits (v / 2 ^ 32) lo 8 = bits v (32 + lo) 8) as Eh.
  { intros lo Hlo'. unfold bits. rewrite Z.div_div, <- Z.pow_add_r by lia. done. }
  assert (forall lo, 0 <= lo -> lo + 8 <= 32 -> bits (v mod 2 ^ 32) lo 8 = bits v lo 8) as El.
  { intros lo Hl1 Hl2. unfold bits. rewrite <- !(Z.shiftr_div_pow2 _ lo) by lia. rewrite <- !(Z.land_ones _ 8) by lia.
    apply Z.bits_inj'; intros i Hi. rewrite !Z.land_spec, !Z.shiftr_spec, Z.testbit_ones_nonneg by lia.
    destruct (Z.ltb_spec i 8); [|by rewrite !andb_false_r]. by rewrite Z.mod_pow2_bits_low by lia. }
  rewrite !Eh in Hhi by lia. rewrite !El in Hlo by lia. change (32 + 24) with 56 in Hhi. change (32 + 16) with 48 in Hhi. change (32 + 8) with 40 in Hhi. change (32 + 0) with 32 in Hhi. lia.
Qed.

Lemma li64_patch_length m site v m' : asmLi64Patch m site v = Some m' -> length m' = length m.
Proof.
  unfold asmLi64Patch. destruct TARGET_BIG_ENDIAN; intros (_ & _ & Hp)%bind_Some; by apply length_poke in Hp.
Qed.

Lemma li64_patch_read m site v m' :
  0 <= v < 2 ^ 64 -> asmLi64Patch m site v = Some m' -> asmLi64Read m' site = Some v.
Proof.
  intros Hv. unfold asmLi64Patch, asmLi64Read.
  destruct TARGET_BIG_ENDIAN; intros ([] & Hc & Hp)%bind_Some.
  - unfold asmLi64Read_be. rewrite (check_poke _ _ _ _ _ Hp), Hc by (intros [|[|[|[|[|k]]]]] Hk; (lia || reflexivity)).
    cbn [mbind option_bind]. rewrite !(peek_poke _ _ _ _ _ Hp). simpl. by rewrite join64_bytes.
  - unfold asmLi64Read_le. rewrite (check_poke _ _ _ _ _ Hp), Hc by (intros [|[|[|[|[|k]]]]] Hk; (lia || reflexivity)).
    cbn [mbind option_bind]. rewrite !(peek_poke _ _ _ _ _ Hp). simpl. by rewrite join64_bytes.
Qed.

#[export] Instance ppc64_code_patch : TargetCodePatch := {|
  targetReadCodePointer := asmLi64Read;
  targetWriteCodePointer := asmLi64Patch;
  targetWrite_length := li64_patch_length;
  targetRead_write := li64_patch_read;
|}.

(** *** Patching is re-emitting *)

Definition li64_words (rt imm : Z) : list Z :=
  [word 15 rt 0 (bits imm 48 16); word 24 rt rt (bits imm 32 16); word 30 rt rt (half 0 (md_low 32 31 1));
   word 25 rt rt (bits imm 16 16); word 24 rt rt (bits imm 0 16)].

Definition li64_bytes (rt imm : Z) : list Z := concat (ppcStoreWord <$> li64_words rt imm).

Fixpoint emit_words (b : AssemblerBuffer) (l : list Z) : option AssemblerBuffer :=
  match l with [] => Some b | w :: t => b' ← asmPpcEmitWord b w; emit_words b' t end.

Lemma emit_words_spec l : forall b code, holds b code ->
  exists b', emit_words b l = Some b' /\ holds b' (code ++ concat (ppcStoreWord <$> l)).
Proof.
  induction l as [|w t IH]; intros b code Hh; cbn [emit_words fmap list_fmap concat].
  - exists b. by rewrite app_nil_r.
  - destruct (emit_word b code w Hh) as (b1 & -> & Hh1 & _). cbn [mbind option_bind].
    destruct (IH b1 _ Hh1) as (b2 & He & Hh2). exists b2. split; [done|]. by rewrite app_assoc.
Qed.

Lemma i16_mod imm : 0 <= imm < 2 ^ 64 -> i16 (Z.shiftr imm 48) mod 2 ^ 16 = bits imm 48 16.
Proof.
  intros Hi. rewrite Z.shiftr_div_pow2 by lia. unfold i16, bits.
  rewrite Zminus_mod_idemp_l. f_equal. lia.
Qed.

Lemma asmLi64_words b rt imm : 0 <= rt < 32 -> 0 <= imm < 2 ^ 64 -> asmLi64 b rt imm = emit_words b (li64_words rt imm).
Proof.
  intros Hrt Hi. pose proof (bits_range imm 32 16 ltac:(lia)). pose proof (bits_range imm 16 16 ltac:(lia)). pose proof (bits_range imm 0 16 ltac:(lia)).
  pose proof (i16_range (Z.shiftr imm 48)). unfold asmLi64, li64_words. cbn [emit_words].
  unfold asmLis. rewrite ppcDForm_word, i16_mod by lia. cbn [mbind option_bind].
  destruct (asmPpcEmitWord b _) as [b1|]; [|done]. cbn [mbind option_bind].
  assert (forall b' ui, 0 <= ui < 2 ^ 16 -> asmOri b' rt rt ui = asmPpcEmitWord b' (word 24 rt rt ui)) as Ho.
  { intros b' ui Hui. unfold asmOri. by rewrite ppcOriForm_word by lia. }
  rewrite (land_half imm 32), (Ho b1) by lia.
  destruct (asmPpcEmitWord b1 _) as [b2|]; [|done]. cbn [mbind option_bind].
  unfold asmSldi, asmRldicr. rewrite !between_bool by lia. cbn [andb ASSERT mbind option_bind].
  rewrite ppcMdForm_word by lia. change (32 mod 32) with 0. change (63 - 32) with 31.
  destruct (asmPpcEmitWord b2 _) as [b3|]; [|done]. cbn [mbind option_bind].
  unfold asmOris. rewrite (land_half imm 16), ppcOriForm_word by lia. cbn [mbind option_bind].
  destruct (asmPpcEmitWord b3 _) as [b4|]; [|done]. cbn [mbind option_bind].
  assert (Z.land imm 0xFFFF = bits imm 0 16) as ->.
  { pose proof (land_half imm 0 ltac:(lia)) as E. by rewrite Z.shiftr_0_r in E. }
  rewrite (Ho b4) by lia. by destruct (asmPpcEmitWord b4 _).
Qed.

Lemma holds_inj b c1 c2 : holds b c1 -> holds b c2 -> c1 = c2.
Proof.
  intros [_ Hp1 Hc1] [_ Hp2 Hc2]. rewrite <- Hp1 in Hc1. rewrite <- Hp2 in Hc2. rewrite Hc1 in Hc2.
  by apply (inj (fmap Some)) in Hc2.
Qed.

(** Emission and execution of the sequence. *)
Lemma asmLi64_spec b code rt imm :
  holds b code -> 0 <= rt < 32 -> 0 <= imm < 2 ^ 64 ->
  exists b', asmLi64 b rt imm = Some b' /\ holds b' (code ++ li64_bytes rt imm) /\
    forall m, exists m', run (li64_bytes rt imm) m = Some m' /\ gpr m' rt = imm /\
      (forall r, r <> rt -> gpr m' r = gpr m r) /\ mem m' = mem m.
Proof.
  intros Hh Hrt Hi. destruct (emit_words_spec (li64_words rt imm) b code Hh) as (b' & He & Hh').
  destruct (emit_list_spec (li64 rt imm) b code Hh (li64_ok rt imm Hrt)) as (b2 & bytes & He2 & Hh2 & _ & _ & Hrun).
  rewrite <- asmLi64_words in He by done. rewrite <- asmLi64_list in He2. rewrite He in He2. injection He2 as <-.
  pose proof (holds_inj _ _ _ Hh' Hh2) as E. apply app_inv_head in E.
  exists b'. split; [done|]. split; [done|]. intros m. unfold li64_bytes. rewrite E, Hrun. by apply li64_exec.
Qed.

Lemma word_bytes op a b c : word_ok op a b c ->
  bits (word op a b c) 24 8 = op * 4 + a / 8 /\ bits (word op a b c) 16 8 = (a mod 8) * 32 + b /\
  bits (word op a b c) 8 8 = bits c 8 8 /\ bits (word op a b c) 0 8 = bits c 0 8.
Proof.
  intros ok. pose proof ok as (Ho & Ha & Hb & Hc). pose proof (Z.div_mod a 8 ltac:(lia)). pose proof (Z.mod_pos_bound a 8 ltac:(lia)).
  split; [|split; [|split; by rewrite ppc_word_low by (done || lia)]].
  - apply (bits_unique _ 24 8 _ 0 ((a mod 8) * 2 ^ 21 + b * 2 ^ 16 + c)); unfold word; lia.
  - apply (bits_unique _ 16 8 _ (op * 4 + a / 8) c); unfold word; lia.
Qed.

Lemma bits_bits x k lo : 0 <= k -> 0 <= lo -> lo + 8 <= 16 -> bits (bits x k 16) lo 8 = bits x (k + lo) 8.
Proof.
  intros Hk Hlo Hs. unfold bits. rewrite <- !(Z.shiftr_div_pow2 _ lo), <- !(Z.shiftr_div_pow2 x) by lia.
  rewrite <- !Z.land_ones by lia. apply Z.bits_inj'; intros i Hi.
  rewrite !Z.land_spec, !Z.shiftr_spec, Z.land_spec, Z.shiftr_spec, !Z.testbit_ones_nonneg by lia.
  destruct (Z.ltb_spec i 8); [|by rewrite !andb_false_r]. destruct (Z.ltb_spec (i + lo) 16); [|lia].
  rewrite !andb_true_r. f_equal. lia.
Qed.

Lemma store_word_bytes op a b c : word_ok op a b c ->
  ppcStoreWord (word op a b c) =
    (if TARGET_BIG_ENDIAN then [op * 4 + a / 8; (a mod 8) * 32 + b; bits c 8 8; bits c 0 8]
     else [bits c 0 8; bits c 8 8; (a mod 8) * 32 + b; op * 4 + a / 8]).
Proof.
  intros ok. destruct (word_bytes op a b c ok) as (E3 & E2 & E1 & E0).
  unfold ppcStoreWord, ppcStoreWord_be, ppcStoreWord_le. rewrite !u8_shiftr, u8_bits, E3, E2, E1, E0 by lia. done.
Qed.

Lemma put_mid {A} (pre l post : list A) k v :
  (k < length l)%nat -> put (pre ++ l ++ post) (length pre + k) v = Some (pre ++ <[k := v]> l ++ post).
Proof.
  intros Hk. rewrite put_Some by (rewrite !length_app; lia). f_equal.
  rewrite insert_app_r, insert_app_l by done. done.
Qed.

(** Writes inside the middle part stay there. *)
Lemma poke_mid pre post l ws :
  Forall (fun kv => (fst kv < length l)%nat) ws ->
  poke (pre ++ l ++ post) (length pre) ws = Some (pre ++ foldl (fun l kv => <[fst kv := Some (snd kv)]> l) l ws ++ post).
Proof.
  revert l. induction ws as [|[k v] t IH]; intros l Hw; cbn [poke foldl]; [done|].
  apply Forall_cons_1 in Hw as [Hk Hw]. cbn [fst snd] in *. rewrite put_mid by done. cbn [mbind option_bind].
  apply IH. by rewrite length_insert.
Qed.

Lemma peek_mid pre post l k : (k < length l)%nat -> peek (pre ++ l ++ post) (length pre) k = (x ← l !! k; x).
Proof. intros Hk. unfold peek. by rewrite lookup_app_r, Nat.add_comm, Nat.add_sub, lookup_app_l by lia. Qed.

Lemma opcode_byte op a : 0 <= a < 32 -> (Z.shiftr (op * 4 + a / 8) 2 =? op) = true.
Proof.
  intros Ha. assert (0 <= a / 8 < 4) by (split; [apply Z.div_pos; lia|apply Z.div_lt_upper_bound; lia]).
  apply Z.eqb_eq. rewrite Z.shiftr_div_pow2 by lia. change (2 ^ 2) with 4. rewrite Z.add_comm, Z.div_add by lia.
  rewrite Z.div_small by lia. lia.
Qed.

Lemma li64_words_ok rt imm : 0 <= rt < 32 ->
  word_ok 15 rt 0 (bits imm 48 16) /\ word_ok 24 rt rt (bits imm 32 16) /\ word_ok 30 rt rt (half 0 (md_low 32 31 1)) /\
  word_ok 25 rt rt (bits imm 16 16) /\ word_ok 24 rt rt (bits imm 0 16).
Proof.
  intros Hrt. unfold word_ok. pose proof (bits_range imm 48 16 ltac:(lia)). pose proof (bits_range imm 32 16 ltac:(lia)).
  pose proof (bits_range imm 16 16 ltac:(lia)). pose proof (bits_range imm 0 16 ltac:(lia)).
  assert (0 <= half 0 (md_low 32 31 1) < 2 ^ 16) by (vm_compute; split; congruence). lia.
Qed.

(** The sequence, byte by byte. *)
Lemma li64_bytes_explicit rt imm : 0 <= rt < 32 ->
  li64_bytes rt imm =
    let r1 := rt / 8 in let r2 := rt mod 8 * 32 in let s := half 0 (md_low 32 31 1) in
    if TARGET_BIG_ENDIAN then
      [15 * 4 + r1; r2 + 0; bits imm 56 8; bits imm 48 8; 24 * 4 + r1; r2 + rt; bits imm 40 8; bits imm 32 8;
       30 * 4 + r1; r2 + rt; bits s 8 8; bits s 0 8; 25 * 4 + r1; r2 + rt; bits imm 24 8; bits imm 16 8;
       24 * 4 + r1; r2 + rt; bits imm 8 8; bits imm 0 8]
    else
      [bits imm 48 8; bits imm 56 8; r2 + 0; 15 * 4 + r1; bits imm 32 8; bits imm 40 8; r2 + rt; 24 * 4 + r1;
       bits s 0 8; bits s 8 8; r2 + rt; 30 * 4 + r1; bits imm 16 8; bits imm 24 8; r2 + rt; 25 * 4 + r1;
       bits imm 0 8; bits imm 8 8; r2 + rt; 24 * 4 + r1].
Proof.
  intros Hrt. destruct (li64_words_ok rt imm Hrt) as (W1 & W2 & W3 & W4 & W5).
  unfold li64_bytes, li64_words. cbn [fmap list_fmap concat app].
  rewrite !store_word_bytes by done. rewrite !bits_bits by lia. cbv zeta.
  change (48 + 8) with 56. change (48 + 0) with 48. change (32 + 8) with 40. change (32 + 0) with 32.
  change (16 + 8) with 24. change (16 + 0) with 16. change (0 + 8) with 8. change (0 + 0) with 0.
  by destruct TARGET_BIG_ENDIAN.
Qed.

Lemma li64_patch_spec pre post rt imm0 imm :
  0 <= rt < 32 ->
  asmLi64Patch (pre ++ (Some <$> li64_bytes rt imm0) ++ post) (length pre) imm =
    Some (pre ++ (Some <$> li64_bytes rt imm) ++ post).
Proof.
  intros Hrt. rewrite !li64_bytes_explicit by done. cbv zeta. unfold asmLi64Patch.
  destruct TARGET_BIG_ENDIAN; cbn [fmap list_fmap].
  - unfold asmLi64Patch_be, check_opcodes. rewrite !peek_mid by (simpl; lia). cbn [Nat.add lookup list_lookup mbind option_bind].
    rewrite !opcode_byte by lia. cbn [andb ASSERT mbind option_bind].
    rewrite poke_mid by (repeat constructor; simpl; lia). cbn [foldl fst snd insert list_insert].
    rewrite !u8_shiftr, u8_bits by lia. done.
  - unfold asmLi64Patch_le, check_opcodes. rewrite !peek_mid by (simpl; lia). cbn [Nat.add lookup list_lookup mbind option_bind].
    rewrite !opcode_byte by lia. cbn [andb ASSERT mbind option_bind].
    rewrite poke_mid by (repeat constructor; simpl; lia). cbn [foldl fst snd insert list_insert].
    rewrite !u8_shiftr, u8_bits by lia. done.
Qed.

(** ** Branches and labels *)

(** The unconditional branch, or the conditional one on a bit. *)
Inductive Branch := BrAlways | BrIf (bo bi : Z).

Definition asm_branch (br : Branch) (b : AssemblerBuffer) (label : AssemblerLabel) : option (AssemblerBuffer * AssemblerLabel) :=
  match br with BrAlways => asmB b label | BrIf bo bi => asmBc b bo bi label end.

Definition branch_instr (br : Branch) (disp : Z) : Instr :=
  match br with BrAlways => B disp | BrIf bo bi => Bc bo bi disp end.

(** The word with a zero displacement. *)
Definition branch_word (br : Branch) : Z :=
  match br with BrAlways => Z.shiftl 18 26 | BrIf bo bi => bc_word bo bi end.

Lemma branch_word_range br disp : operands_ok (branch_instr br disp) = true ->
  0 <= branch_word br < 2 ^ 32 /\ Z.shiftr (branch_word br) 26 = match br with BrAlways => 18 | BrIf _ _ => 16 end.
Proof.
  destruct br as [|bo bi]; intros Hok; [vm_compute; split; [split; congruence|done]|].
  cbn [branch_instr operands_ok] in Hok. unfold reg in Hok. rewrite !andb_true_iff, !between_true in Hok.
  destruct Hok as (((Hbo & Hbi) & _) & _). unfold branch_word, bc_word. rewrite !reg_at_spec, word_intro by lia.
  assert (word_ok 16 bo bi 0) as ok by (unfold word_ok; lia).
  split; [by apply ppc_word_range|]. rewrite Z.shiftr_div_pow2 by lia. by apply word_op.
Qed.

Lemma mapM_Some_id (l : list Z) : mapM id (Some <$> l) = Some l.
Proof. induction l as [|x l IH]; [done|]. cbn [fmap list_fmap mapM id mbind option_bind]. by rewrite IH. Qed.

Lemma load_word_mid b code w more :
  holds b (code ++ ppcStoreWord w ++ more) -> 0 <= w < 2 ^ 32 -> load_word b (length code) = Some w.
Proof.
  intros Hh Hw. pose proof (holds_length _ _ Hh) as Hl. destruct Hh as [_ _ Hc].
  rewrite !length_app, length_ppcStoreWord in Hl. unfold load_word, mem_word. rewrite slice_Some by lia. cbn [mbind option_bind].
  assert (take 4 (drop (length code) (block b)) = Some <$> ppcStoreWord w) as ->.
  { rewrite <- (take_drop (length (code ++ ppcStoreWord w ++ more)) (block b)), Hc, fmap_app, <- app_assoc.
    rewrite drop_app_length' by (by rewrite length_fmap). rewrite fmap_app, <- app_assoc, take_app_length'; [done|].
    by rewrite length_fmap, length_ppcStoreWord. }
  rewrite mapM_Some_id. by apply ppcLoadWord_store.
Qed.

Lemma branch_forward br b code label :
  holds b code -> isBound label = false -> isResolved label = false ->
  exists b1 x, asm_branch br b label = Some (b1, x) /\ holds b1 (code ++ ppcStoreWord (branch_word br)) /\
    x = mkLabel false true (Z.of_nat (length code)) 4.
Proof.
  intros Hh Hb Hr. destruct (emit_word b code (branch_word br) Hh) as (b1 & He & Hh1 & _).
  exists b1, (mkLabel false true (Z.of_nat (length code)) 4). split; [|done].
  destruct br; cbn [asm_branch branch_word] in *; unfold asmB, asmBc, asmOffset; rewrite Hb, Hr, (holds_p _ _ Hh);
    cbn [negb ASSERT mbind option_bind]; by rewrite He.
Qed.

Lemma branch_bind br b code more t :
  holds b (code ++ ppcStoreWord (branch_word br) ++ more) ->
  operands_ok (branch_instr br (t - Z.of_nat (length code))) = true ->
  exists b' w, asmPpcLabelBind b (mkLabel false true (Z.of_nat (length code)) 4) t = Some (b', mkLabel true true t 4) /\
    holds b' (code ++ ppcStoreWord w ++ more) /\ 0 <= w < 2 ^ 32 /\
    disassemble w = Some (branch_instr br (t - Z.of_nat (length code))).
Proof.
  intros Hh Hok. set (disp := t - Z.of_nat (length code)) in *.
  destruct (branch_word_range br disp Hok) as [Hw Hop]. pose proof (load_word_mid _ _ _ _ Hh Hw) as Hl.
  set (w := Z.lor (branch_word br) (Z.land (u32 disp) (match br with BrAlways => 0x03FFFFFC | BrIf _ _ => 0xFFFC end))).
  assert (0 <= w < 2 ^ 32 /\ disassemble w = Some (branch_instr br disp)) as [Hw' Hd].
  { destruct br; [by apply b_word_spec|by apply bc_word_spec]. }
  destruct (write_spec b _ (length code) (ppcStoreWord w) Hh) as (b' & Hwr & Hh' & _).
  { rewrite !length_app, !length_ppcStoreWord. lia. }
  exists b', w. split; [|split; [|done]].
  - unfold asmPpcLabelBind. cbn [isBound isResolved l_offset l_size negb ASSERT mbind option_bind]. rewrite Nat2Z.id, Hl.
    cbn [mbind option_bind]. fold disp. rewrite Hop.
    destruct br; [rewrite (check26 _ Hok)|rewrite (check16 _ _ _ Hok)]; cbn [mbind option_bind]; fold w; by rewrite Hwr.
  - rewrite take_app_length in Hh'. rewrite length_ppcStoreWord, drop_app_ge in Hh' by lia.
    replace (length code + 4 - length code)%nat with 4%nat in Hh' by lia.
    by rewrite drop_app_length' in Hh' by (by rewrite length_ppcStoreWord).
Qed.

(** ** Poisoning speculation sites *)

(** [(int16_t) (word & 0xFFFC)] widened to the I-form field. *)
Definition poison_word (word : Z) : Z :=
  Z.lor (Z.shiftl 18 26) (Z.land (u32 (i16 (Z.land word 0xFFFC))) 0x03FFFFFC).

(** On the memory of the published code; the instruction cache is not
    modelled. *)
Definition targetPoisonGuardBranch (m : list (option Z)) (site : nat) : option (list (option Z)) :=
  word ← mem_word m site;
  if Z.shiftr word 26 =? 18 then Some m
  else
    _ ← ASSERT (Z.shiftr word 26 =? 16);
    blit m site (Some <$> ppcStoreWord (poison_word word)).

Definition targetPoisonStaticSkip (m : list (option Z)) (site : nat) : option (list (option Z)) :=
  word ← mem_word m site;
  _ ← ASSERT (Z.shiftr word 26 =? 18);
  blit m site (Some <$> ppcStoreWord (Z.lor (Z.shiftl 18 26) (Z.land 4 0x03FFFFFC))).

Lemma mem_word_mid pre w post :
  0 <= w < 2 ^ 32 -> mem_word (pre ++ (Some <$> ppcStoreWord w) ++ post) (length pre) = Some w.
Proof.
  intros Hw. unfold mem_word. rewrite slice_Some by (rewrite !length_app, length_fmap, length_ppcStoreWord; lia).
  cbn [mbind option_bind]. rewrite drop_app_length, take_app_length' by (by rewrite length_fmap, length_ppcStoreWord).
  rewrite mapM_Some_id. cbn [mbind option_bind]. by apply ppcLoadWord_store.
Qed.

Lemma blit_mid {A} (pre l l' post : list A) :
  length l' = length l -> blit (pre ++ l ++ post) (length pre) l' = Some (pre ++ l' ++ post).
Proof.
  intros Hl. rewrite blit_Some by (rewrite !length_app; lia). f_equal. rewrite take_app_length. f_equal. f_equal.
  rewrite drop_app_ge by lia. rewrite drop_app_length'; [done|lia].
Qed.

Lemma land_bd w : 0 <= w -> Z.land w 0xFFFC = bits w 2 14 * 4.
Proof.
  intros Hw. change 0xFFFC with (Z.shiftl (Z.ones 14) 2). unfold bits. rewrite <- Z.shiftr_div_pow2 by lia.
  rewrite <- (Z.land_ones _ 14) by lia. change 4 with (2 ^ 2). rewrite <- Z.shiftl_mul_pow2 by lia.
  apply Z.bits_inj'; intros i Hi. rewrite Z.land_spec, !Z.shiftl_spec by lia. rewrite Z.land_spec.
  destruct (Z.ltb_spec i 2).
  - rewrite !(Z.testbit_neg_r _ (i - 2)) by lia. apply andb_false_r.
  - rewrite Z.shiftr_spec by lia. do 2 f_equal. lia.
Qed.

Lemma i16_sext x : 0 <= x < 2 ^ 16 -> i16 x = sext 16 x.
Proof.
  intros Hx. unfold i16, sext. change (2 ^ (16 - 1)) with (2 ^ 15). destruct (Z.ltb_spec x (2 ^ 15)).
  - rewrite Z.mod_small; lia.
  - rewrite <- (Z.mod_unique (x + 2 ^ 15) (2 ^ 16) 1 (x - 2 ^ 15)); lia.
Qed.

(** What a word that disassembles to a branch looks like. *)
Lemma disassemble_bc w bo bi disp :
  disassemble w = Some (Bc bo bi disp) -> w / 2 ^ 26 = 16 /\ disp = sext 16 (bits w 2 14 * 4).
Proof.
  unfold disassemble, disassemble_19, disassemble_31, disassemble_63. intros Hd.
  repeat (case_match; try done). simplify_eq. auto.
Qed.

Lemma disassemble_b w disp : disassemble w = Some (B disp) -> w / 2 ^ 26 = 18.
Proof.
  unfold disassemble, disassemble_19, disassemble_31, disassemble_63. intros Hd. repeat (case_match; try done).
Qed.

Lemma poison_spec w bo bi disp :
  0 <= w < 2 ^ 32 -> disassemble w = Some (Bc bo bi disp) ->
  Z.shiftr w 26 = 16 /\ 0 <= poison_word w < 2 ^ 32 /\ disassemble (poison_word w) = Some (B disp).
Proof.
  intros Hw Hd. destruct (disassemble_bc _ _ _ _ Hd) as [Hop ->]. pose proof (bits_range w 2 14 ltac:(lia)) as Hb.
  split; [by rewrite Z.shiftr_div_pow2 by lia|]. unfold poison_word. rewrite land_bd, i16_sext by lia.
  apply b_word_spec. cbn [operands_ok]. rewrite land_3, andb_true_iff, between_true, Z.eqb_eq.
  unfold sext. change (2 ^ (16 - 1)) with (2 ^ 15). destruct (Z.ltb_spec (bits w 2 14 * 4) (2 ^ 15)).
  - split; [by apply Z.mod_mul|lia].
  - split; [|lia]. change (2 ^ 16) with (2 ^ 14 * 4). rewrite <- Z.mul_sub_distr_r. by apply Z.mod_mul.
Qed.
End Memory.

(** ** Properties *)

Section Properties.
Context `{Target}.

(** C28. Every encoder of the POWER assembler writes the instruction it is
    named for: with operands the ISA can encode, any sequence of encoder calls
    appends one word each, in either byte order and through any growth of the
    buffer, and the bytes disassemble to the same mnemonics and operands. *)
Theorem ppc_encoders_disassemble b code l :
  holds b code -> Forall (fun i => operands_ok i = true) l ->
  exists b' bytes, emit_list b l = Some b' /\ holds b' (code ++ bytes) /\ length bytes = (4 * length l)%nat /\
    disassemble_code bytes = Some l.
Proof. intros Hh Hok. destruct (emit_list_spec l b code Hh Hok) as (b' & bytes & He & Hh' & Hl & Hd & _). eauto 6. Qed.

(** C27. [asmLi64] materializes every 64-bit immediate: the twenty bytes it
    emits, executed, leave the immediate in the register and touch nothing
    else; rewriting the immediate in place ([asmLi64Patch], the collector's
    way of updating a baked pointer) turns them into exactly the bytes
    [asmLi64] would have emitted for the new value, and [asmLi64Read] reads
    that value back. *)
Theorem asmLi64_materializes_and_patches b code rt imm0 imm pre post :
  holds b code -> 0 <= rt < 32 -> 0 <= imm0 < 2 ^ 64 -> 0 <= imm < 2 ^ 64 ->
  exists b' bytes bytes', asmLi64 b rt imm0 = Some b' /\ holds b' (code ++ bytes) /\ length bytes = 20%nat /\
    asmLi64Patch (pre ++ (Some <$> bytes) ++ post) (length pre) imm = Some (pre ++ (Some <$> bytes') ++ post) /\
    asmLi64Read (pre ++ (Some <$> bytes') ++ post) (length pre) = Some imm /\
    (exists b'', asmLi64 b rt imm = Some b'' /\ holds b'' (code ++ bytes')) /\
    forall m, exists m', run bytes' m = Some m' /\ gpr m' rt = imm /\ (forall r, r <> rt -> gpr m' r = gpr m r) /\ mem m' = mem m.
Proof.
  intros Hh Hrt H0 Hi. destruct (asmLi64_spec b code rt imm0 Hh Hrt H0) as (b' & He & Hh' & _).
  destruct (asmLi64_spec b code rt imm Hh Hrt Hi) as (b2 & He2 & Hh2 & Hrun).
  pose proof (li64_patch_spec pre post rt imm0 imm Hrt) as Hp.
  exists b', (li64_bytes rt imm0), (li64_bytes rt imm). split; [done|]. split; [done|].
  split; [rewrite li64_bytes_explicit by done; by destruct TARGET_BIG_ENDIAN|]. split; [done|].
  split; [by eapply li64_patch_read|]. split; [by exists b2|done].
Qed.

(** C34. A branch to a label that is bound later reaches it: whatever code is
    emitted in between, binding the label rewrites the branch word so that it
    disassembles to the same branch with the displacement from the branch
    itself to the label, and changes no other byte. *)
Theorem ppc_branch_reaches_label br b code label more t :
  holds b code -> isBound label = false -> isResolved label = false ->
  operands_ok (branch_instr br (t - Z.of_nat (length code))) = true ->
  exists b1 x, asm_branch br b label = Some (b1, x) /\ holds b1 (code ++ ppcStoreWord (branch_word br)) /\
    forall b2, holds b2 (code ++ ppcStoreWord (branch_word br) ++ more) ->
    exists b3 w, asmPpcLabelBind b2 x t = Some (b3, mkLabel true true t 4) /\ holds b3 (code ++ ppcStoreWord w ++ more) /\
      disassemble w = Some (branch_instr br (t - Z.of_nat (length code))).
Proof.
  intros Hh Hb Hr Hok. destruct (branch_forward br b code label Hh Hb Hr) as (b1 & x & He & Hh1 & ->).
  eexists _, _. split; [done|]. split; [done|]. intros b2 Hh2.
  destruct (branch_bind br b2 code more t Hh2 Hok) as (b3 & w & Hbind & Hh3 & _ & Hd). eauto.
Qed.

(** Poisoning a POWER speculation guard makes its fallback unconditional:
    the conditional branch becomes an unconditional one with the same
    displacement, no other byte changes, and poisoning again changes nothing.
    Poisoning a devirtualized send makes its skip branch fall through to the
    next word. *)
Theorem ppc_poison_keeps_target pre w post bo bi disp :
  0 <= w < 2 ^ 32 -> disassemble w = Some (Bc bo bi disp) ->
  exists w', targetPoisonGuardBranch (pre ++ (Some <$> ppcStoreWord w) ++ post) (length pre) =
      Some (pre ++ (Some <$> ppcStoreWord w') ++ post) /\
    disassemble w' = Some (B disp) /\
    targetPoisonGuardBranch (pre ++ (Some <$> ppcStoreWord w') ++ post) (length pre) =
      Some (pre ++ (Some <$> ppcStoreWord w') ++ post) /\
    exists w2, targetPoisonStaticSkip (pre ++ (Some <$> ppcStoreWord w') ++ post) (length pre) =
      Some (pre ++ (Some <$> ppcStoreWord w2) ++ post) /\ disassemble w2 = Some (B 4).
Proof.
  intros Hw Hd. destruct (poison_spec w bo bi disp Hw Hd) as (Hop & Hw' & Hd').
  assert (Z.shiftr (poison_word w) 26 = 18) as Hop' by (rewrite Z.shiftr_div_pow2 by lia; by eapply disassemble_b).
  exists (poison_word w). unfold targetPoisonGuardBranch, targetPoisonStaticSkip.
  rewrite !mem_word_mid by done. cbn [mbind option_bind]. rewrite Hop, Hop'. cbn [Z.eqb Pos.eqb ASSERT mbind option_bind].
  split; [apply blit_mid; by rewrite !length_fmap, !length_ppcStoreWord|]. split; [done|]. split; [done|].
  eexists; split; [apply blit_mid; by rewrite !length_fmap, !length_ppcStoreWord|]. by vm_compute.
Qed.

(** The addressing helpers address what they say: [asmLdT] and [asmStdT]
    load and store the doubleword at base plus displacement for aligned and
    for tag-folded displacements alike, clobbering only TMP2. *)
Theorem ppc_tagged_access b code reg_ disp bs :
  holds b code -> tagged_disp disp -> 0 <= reg_ < 32 -> reg_ <> TMP2 -> 0 < bs < 32 ->
  (exists b' bytes, asmLdT b reg_ disp bs = Some b' /\ holds b' (code ++ bytes) /\
     forall m, exists m', run bytes m = Some m' /\ gpr m' reg_ = mem m (u64 (gpr m bs + disp)) /\
       mem m' = mem m /\ forall r, r <> reg_ -> r <> TMP2 -> gpr m' r = gpr m r) /\
  (exists b' bytes, asmStdT b reg_ disp bs = Some b' /\ holds b' (code ++ bytes) /\
     forall m, exists m', run bytes m = Some m' /\ mem m' (u64 (gpr m bs + disp)) = gpr m reg_ /\
       (forall a, a <> u64 (gpr m bs + disp) -> mem m' a = mem m a) /\ forall r, r <> TMP2 -> gpr m' r = gpr m r).
Proof.
  intros Hh Hd Hr Hne Hb. pose proof (ldT_ok reg_ disp bs Hd Hr Hb) as Hok. apply Forall_app in Hok as [Hl Hs]. split.
  - destruct (emit_list_spec _ b code Hh Hl) as (b' & bytes & He & Hh' & _ & _ & Hrun). exists b', bytes.
    rewrite asmLdT_list by (done || lia). split; [done|]. split; [done|]. intros m. rewrite Hrun. by apply ldT_exec.
  - destruct (emit_list_spec _ b code Hh Hs) as (b' & bytes & He & Hh' & _ & _ & Hrun). exists b', bytes.
    rewrite asmStdT_list by (done || lia). split; [done|]. split; [done|]. intros m. rewrite Hrun. by apply stdT_exec.
Qed.
End Properties.

(** *** Witnesses *)

Definition fresh_code : AssemblerBuffer := (asmInitBuffer 0 8 []).1.

Lemma ppc_encoders_disassemble_witness :
  exists b' bytes, emit_list (H := target_be) fresh_code [Rldicr 3 4 32 31; Bc 12 2 (-4); Mtspr 8 0] = Some b' /\
    holds b' ([] ++ bytes) /\ length bytes = 12%nat /\
    disassemble_code (H := target_be) bytes = Some [Rldicr 3 4 32 31; Bc 12 2 (-4); Mtspr 8 0].
Proof. apply (ppc_encoders_disassemble (H := target_be) fresh_code []); [apply asm_init_holds|repeat constructor]. Defined.

Lemma asmLi64_materializes_and_patches_witness :
  exists b' bytes bytes', asmLi64 (H := target_le) fresh_code 3 0xFEDCBA9876543210 = Some b' /\ holds b' ([] ++ bytes) /\ length bytes = 20%nat /\
    asmLi64Patch (H := target_le) ([] ++ (Some <$> bytes) ++ []) 0 0x7000FFFF80001 = Some ([] ++ (Some <$> bytes') ++ []) /\
    asmLi64Read (H := target_le) ([] ++ (Some <$> bytes') ++ []) 0 = Some 0x7000FFFF80001 /\
    (exists b'', asmLi64 (H := target_le) fresh_code 3 0x7000FFFF80001 = Some b'' /\ holds b'' ([] ++ bytes')) /\
    forall m, exists m', run (H := target_le) bytes' m = Some m' /\ gpr m' 3 = 0x7000FFFF80001 /\
      (forall r, r <> 3 -> gpr m' r = gpr m r) /\ mem m' = mem m.
Proof.
  apply (asmLi64_materializes_and_patches (H := target_le) fresh_code [] 3 0xFEDCBA9876543210 0x7000FFFF80001 [] []);
    [apply asm_init_holds|lia|lia|lia].
Defined.

Lemma ppc_branch_reaches_label_witness :
  exists b1 x, asm_branch (H := target_be) (BrIf 12 2) fresh_code (mkLabel false false 0 0) = Some (b1, x) /\
    holds b1 ([] ++ ppcStoreWord (H := target_be) (branch_word (BrIf 12 2))) /\
    forall b2, holds b2 ([] ++ ppcStoreWord (H := target_be) (branch_word (BrIf 12 2)) ++ [0; 0; 0; 0]) ->
    exists b3 w, asmPpcLabelBind (H := target_be) b2 x 8 = Some (b3, mkLabel true true 8 4) /\
      holds b3 ([] ++ ppcStoreWord (H := target_be) w ++ [0; 0; 0; 0]) /\ disassemble w = Some (branch_instr (BrIf 12 2) (8 - Z.of_nat (length (@nil Z)))).
Proof.
  apply (ppc_branch_reaches_label (H := target_be) (BrIf 12 2) fresh_code [] (mkLabel false false 0 0) [0; 0; 0; 0] 8);
    [apply asm_init_holds|reflexivity|reflexivity|reflexivity].
Defined.

(** [beq] 64 bytes back. *)
Lemma ppc_poison_keeps_target_witness :
  exists w', targetPoisonGuardBranch (H := target_le) ([] ++ (Some <$> ppcStoreWord (H := target_le) 0x4182FFC0) ++ []) 0 =
      Some ([] ++ (Some <$> ppcStoreWord (H := target_le) w') ++ []) /\
    disassemble w' = Some (B (-64)) /\
    targetPoisonGuardBranch (H := target_le) ([] ++ (Some <$> ppcStoreWord (H := target_le) w') ++ []) 0 =
      Some ([] ++ (Some <$> ppcStoreWord (H := target_le) w') ++ []) /\
    exists w2, targetPoisonStaticSkip (H := target_le) ([] ++ (Some <$> ppcStoreWord (H := target_le) w') ++ []) 0 =
      Some ([] ++ (Some <$> ppcStoreWord (H := target_le) w2) ++ []) /\ disassemble w2 = Some (B 4).
Proof. apply (ppc_poison_keeps_target (H := target_le) [] 0x4182FFC0 [] 12 2 (-64)); [lia|reflexivity]. Defined.

Lemma ppc_tagged_access_witness :
  (exists b' bytes, asmLdT (H := target_be) fresh_code 3 7 4 = Some b' /\ holds b' ([] ++ bytes) /\
     forall m, exists m', run (H := target_be) bytes m = Some m' /\ gpr m' 3 = mem m (u64 (gpr m 4 + 7)) /\
       mem m' = mem m /\ forall r, r <> 3 -> r <> TMP2 -> gpr m' r = gpr m r) /\
  (exists b' bytes, asmStdT (H := target_be) fresh_code 3 7 4 = Some b' /\ holds b' ([] ++ bytes) /\
     forall m, exists m', run (H := target_be) bytes m = Some m' /\ mem m' (u64 (gpr m 4 + 7)) = gpr m 3 /\
       (forall a, a <> u64 (gpr m 4 + 7) -> mem m' a = mem m a) /\ forall r, r <> TMP2 -> gpr m' r = gpr m r).
Proof.
  apply (ppc_tagged_access (H := target_be) fresh_code [] 3 7 4); [apply asm_init_holds|split; [right; reflexivity|lia]|lia|discriminate|lia].
Defined.
