(* ===== verification/X64Patch.v ===== *)
(** * Patching x64 code

    The x64 half of the code-patching contract, in [src/vm/jit/x64/Abi.c]: a
    baked pointer is the contiguous imm64 of a movabs, and a speculation site
    is a near branch with a 32-bit displacement. *)
From S2P Require Import Prelude Endian Assembler.

#[local] Existing Instance target_le.

Definition memory := list (option Z).

(** [n] bytes at an offset. *)
Definition read_bytes (m : memory) (off n : nat) : option (list Z) := l ← slice m off n; mapM id l.
Definition write_bytes (m : memory) (off : nat) (l : list Z) : option memory := blit m off (Some <$> l).

Definition read_code_pointer (m : memory) (site : nat) : option Z :=
  l ← read_bytes m site 8; Some (loadU64 l).
Definition write_code_pointer (m : memory) (site : nat) (value : Z) : option memory :=
  write_bytes m site (storeU64 value).

(** [targetPoisonGuardBranch]; [rel + 1] is an int addition, which must not
    overflow. *)
Definition poison_guard_branch (m : memory) (site : nat) : option memory :=
  s0 ← read_bytes m site 1;
  if decide (s0 = [0xE9]) then Some m
  else
    s1 ← read_bytes m (site + 1) 1;
    _ ← ASSERT (bool_decide (s0 = [0x0F]) && bool_decide ((fun x => Z.land x 0xF0) <$> s1 = [0x80]));
    l ← read_bytes m (site + 2) 4;
    let rel := i32 (loadU32 l) in
    m ← write_bytes m site [0xE9];
    _ ← ASSERT (rel <? 2 ^ 31 - 1);
    m ← write_bytes m (site + 1) (storeU32 (u32 (rel + 1)));
    write_bytes m (site + 5) [0x90].

Definition poison_static_skip (m : memory) (site : nat) : option memory :=
  s0 ← read_bytes m site 1;
  _ ← ASSERT (bool_decide (s0 = [0xE9]));
  write_bytes m (site + 1) (storeU32 0).

(** ** The branches, as the processor reads them *)

Inductive Jump :=
  | Jcc (cc : Z) (target : Z)    (* 0F 8x rel32, measured from its end *)
  | Jmp (target : Z).            (* E9 rel32, measured from its end *)

Definition decode_jump (site : Z) (l : list Z) : option Jump :=
  match l with
  | 0x0F :: c :: t =>
      if Z.land c 0xF0 =? 0x80 then Some (Jcc (Z.land c 0x0F) (site + 6 + loadI32 (take 4 t))) else None
  | 0xE9 :: t => Some (Jmp (site + 5 + loadI32 (take 4 t)))
  | _ => None
  end.

(** ** Lemmas *)

Lemma mapM_id_Some (l : list Z) : mapM id (Some <$> l) = Some l.
Proof. induction l as [|x l IH]; [done|]. cbn [fmap list_fmap mapM id mbind option_bind]. by rewrite IH. Qed.

(** A site in the middle of the memory. *)
Definition site_at (pre : memory) (code : list Z) (post : memory) : memory := pre ++ (Some <$> code) ++ post.

Lemma read_site pre code post k n :
  (k + n <= length code)%nat -> read_bytes (site_at pre code post) (length pre + k) n = Some (take n (drop k code)).
Proof.
  intros Hk. unfold read_bytes, site_at. rewrite slice_Some by (rewrite !length_app, length_fmap; lia).
  cbn [mbind option_bind]. rewrite drop_app_add', drop_app_le by (rewrite ?length_fmap; lia).
  rewrite <- fmap_drop, take_app_le, <- fmap_take by (rewrite length_fmap, length_drop; lia). apply mapM_id_Some.
Qed.

Lemma write_site pre code post k l :
  (k + length l <= length code)%nat ->
  write_bytes (site_at pre code post) (length pre + k) l = Some (site_at pre (take k code ++ l ++ drop (k + length l) code) post).
Proof.
  intros Hk. unfold write_bytes, site_at. rewrite blit_Some by (rewrite !length_app, !length_fmap; lia). f_equal.
  rewrite length_fmap, take_app_add', take_app_le by (rewrite ?length_fmap; lia).
  rewrite <- Nat.add_assoc, drop_app_add', drop_app_le by (rewrite ?length_fmap; lia).
  rewrite !fmap_app, fmap_take, fmap_drop, <- !app_assoc. done.
Qed.

Lemma i32_load l : i32 (loadU32 l) = loadI32 l.
Proof. done. Qed.

Lemma loadI32_range l : - 2 ^ 31 <= loadI32 l < 2 ^ 31.
Proof. unfold loadI32, i32. pose proof (Z.mod_pos_bound (load l + 2 ^ 31) (2 ^ 32) ltac:(lia)). lia. Qed.

(** A six-byte conditional branch. *)
Definition jcc (c : Z) (rel : list Z) : list Z := 0x0F :: c :: rel.

Lemma poison_jcc pre post c rel :
  Z.land c 0xF0 = 0x80 -> length rel = 4%nat -> loadI32 rel < 2 ^ 31 - 1 ->
  poison_guard_branch (site_at pre (jcc c rel) post) (length pre) =
    Some (site_at pre (0xE9 :: storeU32 (u32 (loadI32 rel + 1)) ++ [0x90]) post).
Proof.
  intros Hc Hl Hr. unfold poison_guard_branch.
  assert (length (jcc c rel) = 6%nat) as Hj by (simpl; lia).
  pose proof (read_site pre (jcc c rel) post 0 1 ltac:(lia)) as E0. rewrite Nat.add_0_r in E0.
  rewrite E0. cbn [mbind option_bind]. rewrite decide_False by done.
  rewrite (read_site _ _ _ 1 1) by lia. cbn [mbind option_bind]. simpl take. simpl drop. cbn [fmap list_fmap].
  rewrite Hc. cbn [bool_decide andb decide ASSERT]. rewrite !bool_decide_true by done. cbn [andb ASSERT mbind option_bind].
  rewrite (read_site _ _ _ 2 4) by lia. cbn [mbind option_bind]. rewrite i32_load.
  replace (take 4 (drop 2 (jcc c rel))) with rel by (change (drop 2 (jcc c rel)) with rel; rewrite take_ge; [done|lia]).
  pose proof (write_site pre (jcc c rel) post 0 [0xE9] ltac:(simpl; lia)) as E1. rewrite Nat.add_0_r in E1.
  rewrite E1. cbn [mbind option_bind]. rewrite (proj2 (Z.ltb_lt _ _) Hr). cbn [ASSERT mbind option_bind].
  assert (length (storeU32 (u32 (loadI32 rel + 1))) = 4%nat) as Hs by apply length_storeU32.
  destruct (storeU32 _) as [|s0 [|s1 [|s2 [|s3 [|]]]]]; try done.
  destruct rel as [|r0 [|r1 [|r2 [|r3 [|]]]]]; try done.
  rewrite write_site by (simpl; lia). cbn [mbind option_bind].
  rewrite write_site by (simpl; lia). done.
Qed.

Lemma decode_jmp site rel :
  - 2 ^ 31 <= rel < 2 ^ 31 -> decode_jump site (0xE9 :: storeU32 (u32 rel) ++ [0x90]) = Some (Jmp (site + 5 + rel)).
Proof.
  intros Hr. cbn [decode_jump]. rewrite take_app_length' by (by rewrite length_storeU32).
  rewrite storeU32_i32, loadI32_store by done. done.
Qed.

(** ** Properties *)

(** Poisoning an x64 speculation guard keeps its target: the six-byte
    conditional branch becomes an unconditional one to the same address,
    followed by a NOP; nothing else changes, and poisoning again changes
    nothing. *)
Theorem x64_poison_keeps_target pre code post site cc target :
  length code = 6%nat -> Forall byte code -> decode_jump site code = Some (Jcc cc target) -> target - site - 6 < 2 ^ 31 - 1 ->
  exists code', poison_guard_branch (site_at pre code post) (length pre) = Some (site_at pre code' post) /\
    length code' = 6%nat /\ decode_jump site code' = Some (Jmp target) /\ code' !! 5%nat = Some 0x90 /\
    poison_guard_branch (site_at pre code' post) (length pre) = Some (site_at pre code' post).
Proof.
  intros Hl _ Hd Hr. destruct code as [|a [|c rel]]; try done.
  assert (a = 0x0F /\ Z.land c 0xF0 = 0x80 /\ target = site + 6 + loadI32 (take 4 rel)) as (-> & Hc & ->).
  { unfold decode_jump in Hd. repeat (case_match; try done). simplify_eq.
    by match goal with H : (_ =? _) = true |- _ => apply Z.eqb_eq in H end. }
  rewrite take_ge in Hr |- * by (simpl in Hl; lia). pose proof (loadI32_range rel).
  exists (0xE9 :: storeU32 (u32 (loadI32 rel + 1)) ++ [0x90]).
  assert (length (storeU32 (u32 (loadI32 rel + 1))) = 4%nat) as Hs by apply length_storeU32.
  split; [apply poison_jcc; [done|simpl in Hl; lia|lia]|]. split; [cbn [length]; rewrite length_app, Hs; done|].
  split; [rewrite decode_jmp by lia; do 2 f_equal; lia|].
  split; [rewrite lookup_cons_ne_0 by lia; by rewrite lookup_app_r, Hs by lia|]. unfold poison_guard_branch.
  pose proof (read_site pre (0xE9 :: storeU32 (u32 (loadI32 rel + 1)) ++ [0x90]) post 0 1 ltac:(cbn [length]; lia)) as E0.
  rewrite Nat.add_0_r in E0. rewrite E0. cbn [mbind option_bind]. by rewrite decide_True.
Qed.

Lemma x64_poison_keeps_target_witness :
  exists code', poison_guard_branch (site_at [] [0x0F; 0x84; 0x10; 0xFF; 0xFF; 0xFF] []) (length (@nil (option Z))) = Some (site_at [] code' []) /\
    length code' = 6%nat /\ decode_jump 4096 code' = Some (Jmp 3862) /\ code' !! 5%nat = Some 0x90 /\
    poison_guard_branch (site_at [] code' []) (length (@nil (option Z))) = Some (site_at [] code' []).
Proof.
  apply (x64_poison_keeps_target [] [0x0F; 0x84; 0x10; 0xFF; 0xFF; 0xFF] [] 4096 4 3862);
    [reflexivity|repeat constructor; unfold byte; lia|reflexivity|lia].
Defined.

(** The contract of [TargetCodePatch.h]. *)
Lemma x64_write_length m site v m' : write_code_pointer m site v = Some m' -> length m' = length m.
Proof. apply length_blit. Qed.

Lemma x64_read_write m site v m' :
  0 <= v < 2 ^ 64 -> write_code_pointer m site v = Some m' -> read_code_pointer m' site = Some v.
Proof.
  intros Hv. unfold write_code_pointer, write_bytes, read_code_pointer, blit.
  rewrite length_fmap, length_storeU64. case_decide as Hd; [|done]. intros Hm. apply (inj Some) in Hm. subst m'.
  pose proof (read_site (take site m) (storeU64 v) (drop (site + 8) m) 0 8 ltac:(rewrite length_storeU64; lia)) as E.
  unfold site_at in E. rewrite Nat.add_0_r, length_take, Nat.min_l in E by lia. rewrite E. cbn [mbind option_bind].
  rewrite drop_0, take_ge by (rewrite length_storeU64; lia). by rewrite loadU64_store.
Qed.

#[export] Instance x64_code_patch : TargetCodePatch := {|
  targetReadCodePointer := read_code_pointer;
  targetWriteCodePointer := write_code_pointer;
  targetWrite_length := x64_write_length;
  targetRead_write := x64_read_write;
|}.
