(* ===== verification/Tokenizer.v ===== *)
(** * Tokenizer

    The lexer of the compiler (src/vm/compiler/Tokenizer.c) over a source held
    in memory: the three character tables, the reading cursor, the token
    buffers with their growth, the whole of [readToken], and the window of
    [MAX_TOKENS] tokens behind [nextToken], [peekToken], [skipToken],
    [prevToken], [peekNthToken] and [peekForToken].

    Reading outside the source, writing outside a token's buffer and the
    undefined overflow of [atoi] are the value [Fault]; a loop that has not
    finished within its fuel is the value [NoFuel], which the refinement
    theorem excludes for every source.  Characters are the bytes 0 .. 255. *)
From S2P Require Import Prelude.
From stdpp Require Import list.
#[local] Open Scope Z_scope.

(** ** Runs *)

Inductive Run (A : Type) : Type :=
| Done (a : A)
| Fault
| NoFuel.
Arguments Done {A} a.
Arguments Fault {A}.
Arguments NoFuel {A}.

#[global] Instance run_ret : MRet Run := fun A a => Done a.
#[global] Instance run_bind : MBind Run := fun A B k m =>
  match m with
  | Done a => k a
  | Fault => Fault
  | NoFuel => NoFuel
  end.

(** An access the C code makes without a check. *)
Definition unchecked {A} (o : option A) : Run A :=
  match o with Some a => Done a | None => Fault end.

(** ** Characters *)

Definition SEP := 1.
Definition SPEC := 2.
Definition NUM := 3.
Definition LET := 4.
Definition IDENT_BEGIN := 5.
Definition IDENT := 6.

Definition Characters : list Z := [
  0; 0; 0; 0; 0; 0; 0; 0;
  0; SEP; SEP; 0; 0; SEP; 0; 0;
  0; 0; 0; 0; 0; 0; 0; 0;
  0; 0; 0; 0; 0; 0; 0; 0;
  SEP; SPEC; 0; 0; 0; SPEC; SPEC; 0;
  0; 0; SPEC; SPEC; SPEC; SPEC; 0; SPEC;
  NUM; NUM; NUM; NUM; NUM; NUM; NUM; NUM;
  NUM; NUM; 0; 0; SPEC; SPEC; SPEC; SPEC;
  SPEC; LET; LET; LET; LET; LET; LET; LET;
  LET; LET; LET; LET; LET; LET; LET; LET;
  LET; LET; LET; LET; LET; LET; LET; LET;
  LET; LET; LET; 0; SPEC; 0; 0; 0;
  0; LET; LET; LET; LET; LET; LET; LET;
  LET; LET; LET; LET; LET; LET; LET; LET;
  LET; LET; LET; LET; LET; LET; LET; LET;
  LET; LET; LET; 0; SPEC; 0; SPEC; 0;
  0; 0; 0; 0; 0; 0; 0; 0;
  0; 0; 0; 0; 0; 0; 0; 0;
  0; 0; 0; 0; 0; 0; 0; 0;
  0; 0; 0; 0; 0; 0; 0; 0;
  0; 0; 0; 0; 0; 0; 0; 0;
  0; 0; 0; 0; 0; 0; 0; 0;
  0; 0; 0; 0; 0; 0; 0; 0;
  0; 0; 0; 0; 0; 0; 0; 0;
  0; 0; 0; 0; 0; 0; 0; 0;
  0; 0; 0; 0; 0; 0; 0; 0;
  0; 0; 0; 0; 0; 0; 0; 0;
  0; 0; 0; 0; 0; 0; 0; 0;
  0; 0; 0; 0; 0; 0; 0; 0;
  0; 0; 0; 0; 0; 0; 0; 0;
  0; 0; 0; 0; 0; 0; 0; 0;
  0; 0; 0; 0; 0; 0; 0; 0].

Definition CharacterClasses : list Z := [
  0; 0; 0; 0; 0; 0; 0; 0;
  0; 0; 0; 0; 0; 0; 0; 0;
  0; 0; 0; 0; 0; 0; 0; 0;
  0; 0; 0; 0; 0; 0; 0; 0;
  0; 0; 0; 0; 0; 0; 0; 0;
  0; 0; 0; 0; 0; 0; 0; 0;
  IDENT; IDENT; IDENT; IDENT; IDENT; IDENT; IDENT; IDENT;
  IDENT; IDENT; 0; 0; 0; 0; 0; 0;
  0; IDENT_BEGIN; IDENT_BEGIN; IDENT_BEGIN; IDENT_BEGIN; IDENT_BEGIN; IDENT_BEGIN; IDENT_BEGIN;
  IDENT_BEGIN; IDENT_BEGIN; IDENT_BEGIN; IDENT_BEGIN; IDENT_BEGIN; IDENT_BEGIN; IDENT_BEGIN; IDENT_BEGIN;
  IDENT_BEGIN; IDENT_BEGIN; IDENT_BEGIN; IDENT_BEGIN; IDENT_BEGIN; IDENT_BEGIN; IDENT_BEGIN; IDENT_BEGIN;
  IDENT_BEGIN; IDENT_BEGIN; IDENT_BEGIN; 0; 0; 0; 0; IDENT_BEGIN;
  0; IDENT_BEGIN; IDENT_BEGIN; IDENT_BEGIN; IDENT_BEGIN; IDENT_BEGIN; IDENT_BEGIN; IDENT_BEGIN;
  IDENT_BEGIN; IDENT_BEGIN; IDENT_BEGIN; IDENT_BEGIN; IDENT_BEGIN; IDENT_BEGIN; IDENT_BEGIN; IDENT_BEGIN;
  IDENT_BEGIN; IDENT_BEGIN; IDENT_BEGIN; IDENT_BEGIN; IDENT_BEGIN; IDENT_BEGIN; IDENT_BEGIN; IDENT_BEGIN;
  IDENT_BEGIN; IDENT_BEGIN; IDENT_BEGIN; 0; 0; 0; 0; 0;
  0; 0; 0; 0; 0; 0; 0; 0;
  0; 0; 0; 0; 0; 0; 0; 0;
  0; 0; 0; 0; 0; 0; 0; 0;
  0; 0; 0; 0; 0; 0; 0; 0;
  0; 0; 0; 0; 0; 0; 0; 0;
  0; 0; 0; 0; 0; 0; 0; 0;
  0; 0; 0; 0; 0; 0; 0; 0;
  0; 0; 0; 0; 0; 0; 0; 0;
  0; 0; 0; 0; 0; 0; 0; 0;
  0; 0; 0; 0; 0; 0; 0; 0;
  0; 0; 0; 0; 0; 0; 0; 0;
  0; 0; 0; 0; 0; 0; 0; 0;
  0; 0; 0; 0; 0; 0; 0; 0;
  0; 0; 0; 0; 0; 0; 0; 0;
  0; 0; 0; 0; 0; 0; 0; 0;
  0; 0; 0; 0; 0; 0; 0; 0].

Definition CharacterDigitValues : list Z := [
  36; 36; 36; 36; 36; 36; 36; 36;
  36; 36; 36; 36; 36; 36; 36; 36;
  36; 36; 36; 36; 36; 36; 36; 36;
  36; 36; 36; 36; 36; 36; 36; 36;
  36; 36; 36; 36; 36; 36; 36; 36;
  36; 36; 36; 36; 36; 36; 36; 36;
  0; 1; 2; 3; 4; 5; 6; 7;
  8; 9; 36; 36; 36; 36; 36; 36;
  36; 10; 11; 12; 13; 14; 15; 16;
  17; 18; 19; 20; 21; 22; 23; 24;
  25; 26; 27; 28; 29; 30; 31; 32;
  33; 34; 35; 36; 36; 36; 36; 36;
  36; 36; 36; 36; 36; 36; 36; 36;
  36; 36; 36; 36; 36; 36; 36; 36;
  36; 36; 36; 36; 36; 36; 36; 36;
  36; 36; 36; 36; 36; 36; 36; 36;
  36; 36; 36; 36; 36; 36; 36; 36;
  36; 36; 36; 36; 36; 36; 36; 36;
  36; 36; 36; 36; 36; 36; 36; 36;
  36; 36; 36; 36; 36; 36; 36; 36;
  36; 36; 36; 36; 36; 36; 36; 36;
  36; 36; 36; 36; 36; 36; 36; 36;
  36; 36; 36; 36; 36; 36; 36; 36;
  36; 36; 36; 36; 36; 36; 36; 36;
  36; 36; 36; 36; 36; 36; 36; 36;
  36; 36; 36; 36; 36; 36; 36; 36;
  36; 36; 36; 36; 36; 36; 36; 36;
  36; 36; 36; 36; 36; 36; 36; 36;
  36; 36; 36; 36; 36; 36; 36; 36;
  36; 36; 36; 36; 36; 36; 36; 36;
  36; 36; 36; 36; 36; 36; 36; 36;
  36; 36; 36; 36; 36; 36; 36; 36].

Definition isNumeric (ch : Z) : bool := nth (Z.to_nat ch) Characters 0 =? NUM.
Definition isDigit (ch base : Z) : bool := nth (Z.to_nat ch) CharacterDigitValues 0 <? base.
Definition isLetter (ch : Z) : bool := nth (Z.to_nat ch) Characters 0 =? LET.
Definition isSeparator (ch : Z) : bool := nth (Z.to_nat ch) Characters 0 =? SEP.
Definition isSpecial (ch : Z) : bool := nth (Z.to_nat ch) Characters 0 =? SPEC.
Definition isIdentifier (ch : Z) : bool := IDENT_BEGIN <=? nth (Z.to_nat ch) CharacterClasses 0.
Definition isIdentifierBegining (ch : Z) : bool :=
  nth (Z.to_nat ch) CharacterClasses 0 =? IDENT_BEGIN.

(** The double quote, which opens and closes a comment. *)
Definition dquote : Z := 34.

(** ** Tokens *)

Definition MAX_TOKENS : nat := 6.
Definition TOKEN_BUFFER_SIZE : nat := 64.

Inductive TokenType :=
| TOKEN_NONE
| TOKEN_UNKNOWN
| TOKEN_DIGIT
| TOKEN_IDENTIFIER
| TOKEN_SYMBOL_START
| TOKEN_CHAR
| TOKEN_STRING
| TOKEN_COMMENT
| TOKEN_SPECIAL_CHARS
| TOKEN_KEYWORD
| TOKEN_ASSIGN
| TOKEN_RETURN
| TOKEN_DOT
| TOKEN_ARRAY_OPEN_BRACKET
| TOKEN_OPEN_BRACKET
| TOKEN_CLOSE_BRACKET
| TOKEN_OPEN_SQUARE_BRACKET
| TOKEN_CLOSE_SQUARE_BRACKET
| TOKEN_END_OF_INPUT
| TOKEN_COLON
| TOKEN_SEMICOLON
| TOKEN_VERTICAL_BAR
| TOKEN_LESS_THAN
| TOKEN_GREATER_THAN
| TOKEN_MINUS
| TOKEN_UNCLOSED_STRING
| TOKEN_UNCLOSED_COMMENT.

#[global] Instance TokenType_eq_dec : EqDecision TokenType.
Proof. solve_decision. Defined.

(** [heap] is the block [content] points to once it no longer points to
    [buffer]; a byte nobody has written is [None]. *)
Record Token := mkToken {
  type : TokenType;
  contentSize : nat;
  heap : option (list (option Z));
  buffer : list (option Z);
  position : nat;
  line : nat;
  column : nat;
  isSeparated : bool }.

Definition content (t : Token) : list (option Z) := default (buffer t) (heap t).

(** Stores through [token->content]. *)
Definition set_content (bs : list (option Z)) (t : Token) : Token :=
  match heap t with
  | None => mkToken (type t) (contentSize t) None bs (position t) (line t) (column t) (isSeparated t)
  | Some _ => mkToken (type t) (contentSize t) (Some bs) (buffer t) (position t) (line t) (column t)
                (isSeparated t)
  end.

(** [token->contentSize = size; token->content = bs], a fresh block. *)
Definition set_heap (size : nat) (bs : list (option Z)) (t : Token) : Token :=
  mkToken (type t) size (Some bs) (buffer t) (position t) (line t) (column t) (isSeparated t).

Definition set_type (ty : TokenType) (t : Token) : Token :=
  mkToken ty (contentSize t) (heap t) (buffer t) (position t) (line t) (column t) (isSeparated t).

Definition set_separated (b : bool) (t : Token) : Token :=
  mkToken (type t) (contentSize t) (heap t) (buffer t) (position t) (line t) (column t) b.

Definition set_place (p l c : nat) (t : Token) : Token :=
  mkToken (type t) (contentSize t) (heap t) (buffer t) p l c (isSeparated t).

(** The growth of a full buffer, the first half of appendChar. *)
Definition growContent (token : Token) (pos : nat) : Run Token :=
  if (pos =? contentSize token)%nat then
    let size := (contentSize token * 2)%nat in
    if (pos =? TOKEN_BUFFER_SIZE)%nat then
      block ← unchecked (memcpy (replicate size None) 0 (buffer token) 0 pos);
      Done (set_heap size block token)
    else
      match heap token with
      | None => Fault
      | Some block =>
          Done (set_heap size (take size block ++ replicate (size - length block) None) token)
      end
  else Done token.

(** [token->content[pos] = ch] *)
Definition storeContent (token : Token) (pos : nat) (ch : Z) : Run Token :=
  bytes ← unchecked (put (content token) pos (Some ch));
  Done (set_content bytes token).

Definition appendChar (token : Token) (pos : nat) (ch : Z) : Run Token :=
  token ← growContent token pos;
  storeContent token pos ch.

(** ** The reading cursor *)

Record Cursor := mkCursor {
  memory : list Z;
  current : nat;
  ch : Z;
  cline : nat;
  ccolumn : nat }.

Definition peekChar (c : Cursor) : Run Z := unchecked (memory c !! current c).

Definition nextChar (c : Cursor) : Run Cursor :=
  x ← unchecked (memory c !! current c);
  if x =? 10 then Done (mkCursor (memory c) (S (current c)) x (S (cline c)) 1)
  else Done (mkCursor (memory c) (S (current c)) x (cline c) (S (ccolumn c))).

Definition getPosition (c : Cursor) : nat := current c.

(** Enough fuel for any loop that advances the cursor. *)
Definition room (c : Cursor) : nat := S (length (memory c)).

(** ** The macros of readToken

    The state they work on: the cursor, [token] and [i]. *)
Record Lex := mkLex { lx_cur : Cursor; lx_token : Token; lx_i : nat }.

Definition APPEND (s : Lex) : Run Lex :=
  t ← appendChar (lx_token s) (lx_i s) (ch (lx_cur s));
  c ← nextChar (lx_cur s);
  Done (mkLex c t (S (lx_i s))).

Fixpoint while_append (fuel : nat) (cond : Z -> bool) (s : Lex) : Run Lex :=
  match fuel with
  | O => NoFuel
  | S f => if cond (ch (lx_cur s)) then s ← APPEND s; while_append f cond s else Done s
  end.

Definition APPEND_WHILE (cond : Z -> bool) (s : Lex) : Run Lex :=
  s ← APPEND s; while_append (room (lx_cur s)) cond s.

Fixpoint skip_while (fuel : nat) (cond : Z -> bool) (c : Cursor) : Run Cursor :=
  match fuel with
  | O => NoFuel
  | S f => if cond (ch c) then c ← nextChar c; skip_while f cond c else Done c
  end.

Definition SKIP_WHILE (cond : Z -> bool) (c : Cursor) : Run Cursor := skip_while (room c) cond c.

(** [while (ch != 0 && (ch != quote || nextChar() == quote)) APPEND();] *)
Fixpoint quoted_loop (fuel : nat) (quote : Z) (s : Lex) : Run Lex :=
  match fuel with
  | O => NoFuel
  | S f =>
      if ch (lx_cur s) =? 0 then Done s
      else if negb (ch (lx_cur s) =? quote) then s ← APPEND s; quoted_loop f quote s
      else
        c ← nextChar (lx_cur s);
        let s := mkLex c (lx_token s) (lx_i s) in
        if ch c =? quote then s ← APPEND s; quoted_loop f quote s else Done s
  end.

(** The C string at the start of a buffer. *)
Fixpoint cstring (bs : list (option Z)) : Run (list Z) :=
  match bs with
  | Some b :: bs => if b =? 0 then Done [] else s ← cstring bs; Done (b :: s)
  | _ => Fault
  end.

(** [atoi] of a string of decimal digits; a value outside [int] is undefined. *)
Definition decimal (ds : list Z) : Z := fold_left (fun n d => 10 * n + (d - 48)) ds 0.

Definition atoi (s : list Z) : Run Z :=
  if decimal s <? 2 ^ 31 then Done (decimal s) else Fault.

(** The rest of a literal with a base, at its [r]. *)
Definition readRadix (s : Lex) : Run Lex :=
  terminated ← storeContent (lx_token s) (lx_i s) 0;
  let s := mkLex (lx_cur s) terminated (lx_i s) in
  digits ← cstring (content (lx_token s));
  n ← atoi digits;
  let base := u8 n in
  s ← APPEND s;
  s ← (if ch (lx_cur s) =? chr "-" then APPEND s else Done s);
  while_append (room (lx_cur s)) (fun c => isDigit c base) s.

(** A fraction, where a digit follows the point. *)
Definition readFraction (s : Lex) : Run Lex :=
  if ch (lx_cur s) =? chr "." then
    p ← peekChar (lx_cur s);
    if isNumeric p then s ← APPEND s; APPEND_WHILE isNumeric s else Done s
  else Done s.

(** An exponent or the suffix of a scaled decimal. *)
Definition readSuffix (s : Lex) : Run Lex :=
  exponent ← (if (ch (lx_cur s) =? chr "e") || (ch (lx_cur s) =? chr "E") then
                p ← peekChar (lx_cur s);
                Done (isNumeric p || (p =? chr "+") || (p =? chr "-"))
              else Done false);
  if exponent : bool then
    s ← APPEND s;
    s ← (if (ch (lx_cur s) =? chr "+") || (ch (lx_cur s) =? chr "-") then APPEND s else Done s);
    APPEND_WHILE isNumeric s
  else
    scaled ← (if ch (lx_cur s) =? chr "s" then
                p ← peekChar (lx_cur s); Done (negb (isIdentifierBegining p))
              else Done false);
    if scaled : bool then
      s ← APPEND s;
      if isNumeric (ch (lx_cur s)) then APPEND_WHILE isNumeric s else Done s
    else Done s.

(** The branch of a numeric literal, after [token->type = TOKEN_DIGIT]. *)
Definition readNumber (s : Lex) : Run Lex :=
  s ← APPEND_WHILE isNumeric s;
  if ch (lx_cur s) =? chr "r" then readRadix s
  else s ← readFraction s; readSuffix s.

(** ** readToken

    [readTokenInto] is its body for the token slot [token] and the comment
    slot; [readToken] runs it on a slot of the window and counts the token. *)

Definition typed (ty : TokenType) (s : Lex) : Lex :=
  mkLex (lx_cur s) (set_type ty (lx_token s)) (lx_i s).

(** Every branch but that of a comment, from the first character of the token
    on; [comment] is only passed through. *)
Definition readPlain (c : Cursor) (comment token : Token) : Run (Cursor * Token * Token) :=
  let s := mkLex c token 0 in
  let finish (r : Run Lex) :=
    s ← r;
    t ← appendChar (lx_token s) (lx_i s) 0;
    Done (lx_cur s, comment, t) in
  let special := p ← peekChar c; Done (isSpecial p) in
  let followed_by (x : Z) := p ← peekChar c; Done (p =? x) in
  if ch c =? chr "[" then finish (APPEND (typed TOKEN_OPEN_SQUARE_BRACKET s))
  else if ch c =? chr "]" then finish (APPEND (typed TOKEN_CLOSE_SQUARE_BRACKET s))
  else if ch c =? chr "(" then finish (APPEND (typed TOKEN_OPEN_BRACKET s))
  else if ch c =? chr ")" then finish (APPEND (typed TOKEN_CLOSE_BRACKET s))
  else if ch c =? chr "." then finish (APPEND (typed TOKEN_DOT s))
  else
  minus ← (if ch c =? chr "-" then sp ← special; Done (negb sp) else Done false);
  if minus : bool then finish (APPEND (typed TOKEN_MINUS s))
  else
  less ← (if ch c =? chr "<" then sp ← special; Done (negb sp) else Done false);
  if less : bool then finish (APPEND (typed TOKEN_LESS_THAN s))
  else
  greater ← (if ch c =? chr ">" then sp ← special; Done (negb sp) else Done false);
  if greater : bool then finish (APPEND (typed TOKEN_GREATER_THAN s))
  else
  assign ← (if ch c =? chr ":" then followed_by (chr "=") else Done false);
  if assign : bool then finish (s ← APPEND (typed TOKEN_ASSIGN s); APPEND s)
  else
  bar ← (if ch c =? chr "|" then b ← followed_by (chr "|"); Done (negb b) else Done false);
  if bar : bool then finish (APPEND (typed TOKEN_VERTICAL_BAR s))
  else if ch c =? chr ":" then finish (APPEND (typed TOKEN_COLON s))
  else if ch c =? chr ";" then finish (APPEND (typed TOKEN_SEMICOLON s))
  else if ch c =? chr "^" then finish (APPEND (typed TOKEN_RETURN s))
  else if ch c =? chr "$" then finish (s ← APPEND (typed TOKEN_CHAR s); APPEND s)
  else
  array ← (if ch c =? chr "#" then followed_by (chr "(") else Done false);
  if array : bool then finish (s ← APPEND (typed TOKEN_ARRAY_OPEN_BRACKET s); APPEND s)
  else if ch c =? chr "#" then finish (APPEND (typed TOKEN_SYMBOL_START s))
  else if ch c =? chr "'" then
    finish (c ← nextChar c;
            s ← quoted_loop (room c) (chr "'") (mkLex c token 0);
            Done (typed (if ch (lx_cur s) =? 0 then TOKEN_UNCLOSED_STRING else TOKEN_STRING) s))
  else if ch c =? 0 then finish (Done (typed TOKEN_END_OF_INPUT s))
  else if isNumeric (ch c) then finish (readNumber (typed TOKEN_DIGIT s))
  else if isIdentifierBegining (ch c) then
    finish (s ← APPEND_WHILE isIdentifier s;
            keyword ← (if ch (lx_cur s) =? chr ":" then
                         p ← peekChar (lx_cur s); Done (negb (p =? chr "="))
                       else Done false);
            if keyword : bool then APPEND (typed TOKEN_KEYWORD s)
            else Done (typed TOKEN_IDENTIFIER s))
  else if isSpecial (ch c) then finish (APPEND_WHILE isSpecial (typed TOKEN_SPECIAL_CHARS s))
  else finish (APPEND (typed TOKEN_UNKNOWN s)).

(** The test for a comment is made first here: no other branch of the chain
    accepts a double quote. *)
Fixpoint readTokenInto (fuel : nat) (c : Cursor) (comment token : Token) (separated : bool)
    : Run (Cursor * Token * Token) :=
  match fuel with
  | O => NoFuel
  | S f =>
      let comment := set_type TOKEN_UNKNOWN comment in
      let token := set_separated (separated || isSeparator (ch c)) token in
      c ← SKIP_WHILE isSeparator c;
      let token := set_place (getPosition c) (cline c) (ccolumn c - 1) token in
      if ch c =? dquote then
        c ← nextChar c;
        s ← quoted_loop (room c) dquote (mkLex c comment 0);
        if ch (lx_cur s) =? 0 then
          bytes ← unchecked (memcpy (content token) 0 (content (lx_token s)) 0 (lx_i s));
          t ← appendChar (set_content bytes (set_type TOKEN_UNCLOSED_COMMENT token)) (lx_i s) 0;
          Done (lx_cur s, lx_token s, t)
        else
          comment ← appendChar
            (set_place (position token) (line token) (column token)
               (set_type TOKEN_COMMENT (lx_token s))) (lx_i s) 0;
          readTokenInto f (lx_cur s) comment token true
      else readPlain c comment token
  end.

(** ** The window of tokens

    [tokenIndex] and [tokenized] are [size_t]; a token pointer is the index of
    its slot. *)
Record Tokenizer := mkTokenizer {
  source : Cursor;
  tokens : list Token;
  tokenIndex : Z;
  tokenized : Z;
  comment : Token }.

(** [tokens + (n % MAX_TOKENS)] *)
Definition slot (n : Z) : nat := Z.to_nat (u64 n mod Z.of_nat MAX_TOKENS).

Definition set_tokenIndex (n : Z) (t : Tokenizer) : Tokenizer :=
  mkTokenizer (source t) (tokens t) (u64 n) (tokenized t) (comment t).

Definition readToken (t : Tokenizer) (k : nat) (separated : bool) : Run Tokenizer :=
  token ← unchecked (tokens t !! k);
  '(c, comment, token) ← readTokenInto (room (source t)) (source t) (comment t) token separated;
  Done (mkTokenizer c (<[k := token]> (tokens t)) (tokenIndex t) (u64 (tokenized t + 1)) comment).

Definition currentToken (t : Tokenizer) : nat := slot (tokenIndex t - 1).

Definition prevToken (t : Tokenizer) : nat := slot (tokenIndex t - 2).

Definition peekToken (t : Tokenizer) : Run (nat * Tokenizer) :=
  let k := slot (tokenIndex t) in
  if tokenized t <=? tokenIndex t then t ← readToken t k false; Done (k, t)
  else Done (k, t).

Definition nextToken (t : Tokenizer) : Run (nat * Tokenizer) :=
  '(k, t) ← peekToken t;
  Done (k, set_tokenIndex (tokenIndex t + 1) t).

(** [for (i = steps; i > 0; i--) token = nextToken(tokenizer);] *)
Fixpoint next_times (n : nat) (k : option nat) (t : Tokenizer) : Run (option nat * Tokenizer) :=
  match n with
  | O => Done (k, t)
  | S n => '(k, t) ← nextToken t; next_times n (Some k) t
  end.

Definition skipToken (t : Tokenizer) (steps : Z) : Run (option nat * Tokenizer) :=
  _ ← unchecked (ASSERT ((steps <? Z.of_nat MAX_TOKENS) && (- Z.of_nat MAX_TOKENS <? steps)));
  if 0 <? steps then next_times (Z.to_nat steps) None t
  else if i64 (tokenized t) - Z.of_nat MAX_TOKENS <=? i64 (tokenIndex t) + steps then
    let t := set_tokenIndex (tokenIndex t + steps) t in
    Done (Some (slot (tokenIndex t - 1)), t)
  else Done (None, t).

Definition peekNthToken (t : Tokenizer) (steps : Z) : Run (option nat * Tokenizer) :=
  '(k, t) ← skipToken t steps;
  '(_, t) ← skipToken t (- steps);
  Done (k, t).

Definition peekForToken (t : Tokenizer) (ty : TokenType) : Run (option nat * Tokenizer) :=
  '(k, t) ← peekToken t;
  token ← unchecked (tokens t !! k);
  if decide (type token = ty) then Done (Some k, set_tokenIndex (tokenIndex t + 1) t)
  else Done (None, t).

(** A token of a fresh tokenizer: the fields initBaseTokenizer leaves alone
    have whatever the storage of the tokenizer holds. *)
Definition initToken (t : Token) : Token :=
  mkToken (type t) TOKEN_BUFFER_SIZE None (buffer t) (position t) (line t) (column t) (isSeparated t).

Definition initBaseTokenizer (t : Tokenizer) (memory : list Z) : Tokenizer :=
  mkTokenizer (mkCursor memory 0 (ch (source t)) 1 1) (initToken <$> tokens t) 0 0
    (initToken (comment t)).

Definition initTokenizer (t : Tokenizer) (memory : list Z) : Run Tokenizer :=
  let t := initBaseTokenizer t memory in
  c ← nextChar (source t);
  '(_, t) ← nextToken (mkTokenizer c (tokens t) (tokenIndex t) (tokenized t) (comment t));
  Done t.

(** The blocks freeTokenizer passes to [free]. *)
Definition freeToken (t : Token) : list (list (option Z)) :=
  if (TOKEN_BUFFER_SIZE <? contentSize t)%nat then [content t] else [].

Definition freeTokenizer (t : Tokenizer) : list (list (option Z)) :=
  (tokens t ≫= freeToken) ++ freeToken (comment t).
