(* ===== verification/Lexemes.v ===== *)
(** * Lexemes

    A reference lexer on strings and the refinement theorem that relates it to
    [readToken]: the reference takes the text still to be read and cuts one
    lexeme off it with [run_of], [quoted] and list operations, with no cursor,
    no buffer and no loop counter.  The theorem covers every source: where the
    reference says the C code leaves its buffers, [readToken] does. *)
From S2P Require Import Prelude Tokenizer.
From stdpp Require Import list.
#[local] Open Scope Z_scope.

(** ** The reference lexer *)

Definition first (s : list Z) : Z := hd 0 s.
Definition second (s : list Z) : Z := hd 0 (tl s).

(** The longest prefix whose characters satisfy [p], and the rest. *)
Fixpoint run_of (p : Z -> bool) (s : list Z) : list Z * list Z :=
  match s with
  | [] => ([], [])
  | c :: s' => if p c then let '(a, b) := run_of p s' in (c :: a, b) else ([], s)
  end.

(** The text up to the closing quote, doubled quotes reduced to one. *)
Fixpoint quoted (q : Z) (s : list Z) : list Z * list Z :=
  match s with
  | [] => ([], [])
  | c :: s' =>
      if c =? q then
        match s' with
        | [] => ([], [])
        | d :: s'' => if d =? q then let '(a, b) := quoted q s'' in (q :: a, b) else ([], s')
        end
      else let '(a, b) := quoted q s' in (c :: a, b)
  end.

(** The size of a token buffer of [cap] bytes after [n] characters. *)
Fixpoint grown (cap n : nat) : nat :=
  match n with
  | O => cap
  | S n => let g := grown cap n in if (n =? g)%nat then (g * 2)%nat else g
  end.

(** The rest of a number of base [base], after its [r]. *)
Definition lex_radix (base : Z) (s : list Z) : list Z * list Z :=
  let minus := first s =? chr "-" in
  let '(digits, r) := run_of (fun c => isDigit c base) (if minus then tl s else s) in
  ((if minus then [first s] else []) ++ digits, r).

Definition lex_fraction (s : list Z) : list Z * list Z :=
  if (first s =? chr ".") && isNumeric (second s)
  then let '(fs, r) := run_of isNumeric (tl s) in (first s :: fs, r) else ([], s).

Definition isSign (c : Z) : bool := (c =? chr "+") || (c =? chr "-").

(** An exponent takes its first character whatever it is; [None] is an input
    that ends there. *)
Definition lex_suffix (s : list Z) : option (list Z * list Z) :=
  if ((first s =? chr "e") || (first s =? chr "E")) && (isNumeric (second s) || isSign (second s)) then
    let sign := if isSign (second s) then [second s] else [] in
    match (if isSign (second s) then tl (tl s) else tl s) with
    | [] => None
    | c :: r =>
        let '(es, r) := run_of isNumeric r in
        Some ([first s] ++ sign ++ c :: es, r)
    end
  else if (first s =? chr "s") && negb (isIdentifierBegining (second s)) then
    let '(scale, r) := run_of isNumeric (tl s) in Some (first s :: scale, r)
  else Some ([], s).

(** A number: its text and the rest, or [None] where the C code overruns: the
    digits before the [r] fill the buffer exactly, their value is no [int], no
    character ends a run of digits of the base, or the input ends where the
    first digit of an exponent should be. *)
Definition lex_number (cap : nat) (s : list Z) : option (list Z * list Z) :=
  let '(ds, s) := run_of isNumeric s in
  if first s =? chr "r" then
    if (length ds =? grown cap (length ds))%nat || (2 ^ 31 <=? decimal ds)
       || (36 <? u8 (decimal ds)) then None
    else let '(txt, r) := lex_radix (u8 (decimal ds)) (tl s) in Some (ds ++ first s :: txt, r)
  else
    let '(fraction, s) := lex_fraction s in
    '(txt, r) ← lex_suffix s; Some (ds ++ fraction ++ txt, r).

(** One token at the start of a text that begins with neither a separator nor
    a comment: its type, its content and the rest. *)
Definition lex_token (cap : nat) (s : list Z) : option (TokenType * list Z * list Z) :=
  let one ty := Some (ty, [first s], tl s) in
  let two ty := Some (ty, [first s; second s], tl (tl s)) in
  match s with
  | [] => Some (TOKEN_END_OF_INPUT, [], [])
  | c :: s' =>
      if c =? chr "[" then one TOKEN_OPEN_SQUARE_BRACKET
      else if c =? chr "]" then one TOKEN_CLOSE_SQUARE_BRACKET
      else if c =? chr "(" then one TOKEN_OPEN_BRACKET
      else if c =? chr ")" then one TOKEN_CLOSE_BRACKET
      else if c =? chr "." then one TOKEN_DOT
      else if (c =? chr "-") && negb (isSpecial (first s')) then one TOKEN_MINUS
      else if (c =? chr "<") && negb (isSpecial (first s')) then one TOKEN_LESS_THAN
      else if (c =? chr ">") && negb (isSpecial (first s')) then one TOKEN_GREATER_THAN
      else if (c =? chr ":") && (first s' =? chr "=") then two TOKEN_ASSIGN
      else if (c =? chr "|") && negb (first s' =? chr "|") then one TOKEN_VERTICAL_BAR
      else if c =? chr ":" then one TOKEN_COLON
      else if c =? chr ";" then one TOKEN_SEMICOLON
      else if c =? chr "^" then one TOKEN_RETURN
      else if c =? chr "$" then match s' with [] => None | _ => two TOKEN_CHAR end
      else if (c =? chr "#") && (first s' =? chr "(") then two TOKEN_ARRAY_OPEN_BRACKET
      else if c =? chr "#" then one TOKEN_SYMBOL_START
      else if c =? chr "'" then
        let '(text, r) := quoted (chr "'") s' in
        Some (match r with [] => TOKEN_UNCLOSED_STRING | _ => TOKEN_STRING end, text, r)
      else if isNumeric c then
        '(text, r) ← lex_number cap s; Some (TOKEN_DIGIT, text, r)
      else if isIdentifierBegining c then
        let '(name, r) := run_of isIdentifier s' in
        if (first r =? chr ":") && negb (second r =? chr "=")
        then Some (TOKEN_KEYWORD, c :: name ++ [chr ":"], tl r)
        else Some (TOKEN_IDENTIFIER, c :: name, r)
      else if isSpecial c then
        let '(op, r) := run_of isSpecial s' in Some (TOKEN_SPECIAL_CHARS, c :: op, r)
      else one TOKEN_UNKNOWN
  end.

Record Lexeme := mkLexeme {
  lx_type : TokenType;
  lx_text : list Z;
  lx_start : list Z;
  lx_rest : list Z;
  lx_separated : bool }.

(** The next lexeme of a text: separators and comments skipped, [lx_start] the
    text from its first character on. *)
Fixpoint lexeme (fuel cap : nat) (separated : bool) (s : list Z) : Run Lexeme :=
  match fuel with
  | O => NoFuel
  | S f =>
      let separated := separated || isSeparator (first s) in
      let s := snd (run_of isSeparator s) in
      if first s =? dquote then
        let '(text, r) := quoted dquote (tl s) in
        match r with
        | [] => if (length text <=? cap)%nat
                then Done (mkLexeme TOKEN_UNCLOSED_COMMENT text s [] separated) else Fault
        | _ => lexeme f cap true r
        end
      else
        '(ty, text, r) ← unchecked (lex_token cap s);
        Done (mkLexeme ty text s r separated)
  end.

(** ** Character facts *)

Lemma isSeparator_nul : isSeparator 0 = false.
Proof. reflexivity. Qed.
Lemma isNumeric_nul : isNumeric 0 = false.
Proof. reflexivity. Qed.
Lemma isIdentifier_nul : isIdentifier 0 = false.
Proof. reflexivity. Qed.
Lemma isSpecial_nul : isSpecial 0 = false.
Proof. reflexivity. Qed.

Lemma digit_values_le c : nth (Z.to_nat c) CharacterDigitValues 0 <= 36.
Proof.
  assert (Forall (fun v => v <= 36) CharacterDigitValues) as HF.
  { unfold CharacterDigitValues. repeat (apply Forall_cons; split; [lia|]). constructor. }
  destruct (nth_in_or_default (Z.to_nat c) CharacterDigitValues 0) as [Hin|Hd]; [|lia].
  by apply (proj1 (List.Forall_forall _ _) HF).
Qed.

(** A base above 36 makes every character a digit, the terminator included. *)
Lemma isDigit_above base c : 36 < base -> isDigit c base = true.
Proof. intros; unfold isDigit. pose proof (digit_values_le c). apply Z.ltb_lt; lia. Qed.

Lemma isDigit_nul base : base <= 36 -> isDigit 0 base = false.
Proof. intros; unfold isDigit; apply Z.ltb_ge. exact H. Qed.

Arguments isNumeric : simpl never.
Arguments isDigit : simpl never.
Arguments isSeparator : simpl never.
Arguments isSpecial : simpl never.
Arguments isIdentifier : simpl never.
Arguments isIdentifierBegining : simpl never.
Arguments chr : simpl never.

(** ** The cursor over a text

    [cursor pre s]: [pre] has been read, [s] has not, and the first character
    of [s] (the terminator when there is none) is the current one. *)

Definition advance (p : nat * nat) (c : Z) : nat * nat :=
  if c =? 10 then (S p.1, 1%nat) else (p.1, S p.2).

(** The line and column counters after the characters [l]. *)
Definition place (l : list Z) : nat * nat := fold_left advance l (1%nat, 1%nat).

Definition cursor (pre s : list Z) : Cursor :=
  mkCursor (pre ++ s ++ [0]) (S (length pre)) (first s)
    (place (pre ++ [first s])).1 (place (pre ++ [first s])).2.

Lemma cursor_lookup pre c s : (pre ++ (c :: s) ++ [0]) !! S (length pre) = Some (first s).
Proof.
  rewrite lookup_app_r by lia. replace (S (length pre) - length pre)%nat with 1%nat by lia.
  by destruct s.
Qed.

Lemma place_snoc l c : place (l ++ [c]) = advance (place l) c.
Proof. unfold place. by rewrite fold_left_app. Qed.

Lemma peekChar_cursor pre c s : peekChar (cursor pre (c :: s)) = Done (first s).
Proof. unfold peekChar, cursor; cbn [memory current]. by rewrite cursor_lookup. Qed.

Lemma nextChar_cursor pre c s : nextChar (cursor pre (c :: s)) = Done (cursor (pre ++ [c]) s).
Proof.
  unfold nextChar, cursor; cbn [memory current cline ccolumn]. rewrite cursor_lookup.
  cbn [unchecked mbind run_bind first hd]. rewrite !(place_snoc (pre ++ [c])).
  rewrite length_app, <- app_assoc; cbn [length app]. rewrite Nat.add_1_r.
  unfold advance. case_bool; reflexivity.
Qed.

Lemma nextChar_end pre : nextChar (cursor pre []) = Fault.
Proof.
  unfold nextChar, cursor; cbn [memory current]. rewrite lookup_ge_None_2; [done|].
  rewrite !length_app; simpl; lia.
Qed.

Lemma ch_cursor pre s : ch (cursor pre s) = first s.
Proof. done. Qed.

Lemma room_cursor pre s : (length s < room (cursor pre s))%nat.
Proof. unfold room, cursor; cbn [memory]. rewrite !length_app; simpl; lia. Qed.

(** ** Token buffers *)

(** The buffer a token writes to: its own 64 bytes, or a block whose size is a
    larger power of two. *)
Definition token_wf (t : Token) : Prop :=
  length (buffer t) = TOKEN_BUFFER_SIZE /\ length (content t) = contentSize t /\
  exists k, contentSize t = (TOKEN_BUFFER_SIZE * 2 ^ k)%nat /\ (heap t = None <-> k = O).

Lemma grown_ge cap n : (0 < cap)%nat -> (n <= grown cap n /\ cap <= grown cap n)%nat.
Proof.
  intros Hc. induction n as [|n [IH1 IH2]]; simpl; [lia|]. case_bool; lia.
Qed.

(** Everything of a token but its content. *)
Definition labels (t : Token) := (type t, position t, line t, column t, isSeparated t).

Lemma token_wf_pos t : token_wf t -> (0 < contentSize t)%nat.
Proof.
  intros (_ & _ & k & -> & _). pose proof (Nat.pow_nonzero 2 k). unfold TOKEN_BUFFER_SIZE; lia.
Qed.

Lemma growContent_wf t pos :
  token_wf t -> (pos <= contentSize t)%nat ->
  exists t', growContent t pos = Done t' /\ token_wf t' /\ labels t' = labels t /\
    contentSize t' = (if (pos =? contentSize t)%nat then contentSize t * 2 else contentSize t)%nat /\
    take pos (content t') = take pos (content t).
Proof.
  intros (Hb & Hc & k & Hk & Hh) Hp. unfold growContent.
  destruct (Nat.eqb_spec pos (contentSize t)) as [->|Hne].
  2:{ exists t. split; [done|]. split; [|done]. split; [done|]. split; [done|]. by exists k. }
  assert (2 ^ k <> 0)%nat as Hz by (apply Nat.pow_nonzero; lia).
  destruct (Nat.eqb_spec (contentSize t) TOKEN_BUFFER_SIZE) as [He|He].
  - assert (k = O) as ->.
    { destruct k; [done|]. rewrite Nat.pow_succ_r' in *. unfold TOKEN_BUFFER_SIZE in *. nia. }
    assert (heap t = None) as Hn by by apply Hh.
    assert (content t = buffer t) as Hcb by (unfold content; by rewrite Hn).
    unfold memcpy. rewrite slice_Some by lia. cbn [mbind option_bind].
    rewrite blit_Some by (rewrite length_take, length_drop, length_replicate; lia).
    cbn [unchecked mbind run_bind]. rewrite drop_0, (take_ge (buffer t)), take_0, drop_replicate by lia.
    eexists; split; [done|]. split; [|split; [done|]; split; [done|]].
    + split; [done|]. split.
      * unfold content; cbn. rewrite length_app, length_replicate. lia.
      * exists 1%nat. split; [cbn [contentSize set_heap]; by rewrite He|]. done.
    + unfold content at 1; cbn. by rewrite Hcb, take_app_le by lia.
  - destruct (heap t) as [h|] eqn:Hn.
    2:{ exfalso. apply He. rewrite Hk. replace k with O by (symmetry; by apply Hh). done. }
    assert (content t = h) as Hcb by (unfold content; by rewrite Hn). rewrite Hcb in Hc.
    eexists; split; [done|]. split; [|split; [done|]; split; [done|]].
    + split; [done|]. split.
      * unfold content; cbn. rewrite length_app, length_take, length_replicate. lia.
      * exists (S k). split; [cbn [contentSize set_heap]; rewrite Nat.pow_succ_r'; lia|]. done.
    + unfold content at 1; cbn. by rewrite Hcb, (take_ge h), take_app_le by lia.
Qed.

Lemma storeContent_wf t pos c :
  token_wf t -> (pos < contentSize t)%nat ->
  exists t', storeContent t pos c = Done t' /\ token_wf t' /\ labels t' = labels t /\
    contentSize t' = contentSize t /\ content t' = <[pos := Some c]> (content t).
Proof.
  intros (Hb & Hc & k & Hk & Hh) Hp. unfold storeContent.
  rewrite put_Some by lia. cbn [unchecked mbind run_bind]. eexists; split; [done|].
  unfold set_content, token_wf, content in *. destruct (heap t) as [h|] eqn:Hn; cbn in *;
    (split; [|done]); rewrite ?length_insert; (split; [done|]; split; [done|]);
    exists k; (split; [done|]).
  - rewrite <- Hh. done.
  - done.
Qed.

Lemma appendChar_wf t pos c :
  token_wf t -> (pos <= contentSize t)%nat ->
  exists t', appendChar t pos c = Done t' /\ token_wf t' /\ labels t' = labels t /\
    contentSize t' = (if (pos =? contentSize t)%nat then contentSize t * 2 else contentSize t)%nat /\
    take (S pos) (content t') = take pos (content t) ++ [Some c].
Proof.
  intros Hwf Hp. destruct (growContent_wf t pos Hwf Hp) as (t1 & E1 & W1 & L1 & S1 & T1).
  assert (pos < contentSize t1)%nat.
  { rewrite S1. pose proof (token_wf_pos t Hwf). case_bool; lia. }
  destruct (storeContent_wf t1 pos c W1) as (t2 & E2 & W2 & L2 & S2 & T2); [done|].
  exists t2. unfold appendChar. rewrite E1; cbn [mbind run_bind]. split; [done|].
  split; [done|]. split; [congruence|]. split; [congruence|].
  rewrite T2, <- T1. destruct W1 as (_ & Hl & _).
  rewrite (take_S_r _ _ (Some c)) by (apply list_lookup_insert_eq; lia).
  by rewrite take_insert_ge by lia.
Qed.

(** [written t txt]: the token after the characters [txt] have been appended
    from position 0 on. *)
Definition write1 (p : Token * nat) (c : Z) : Token * nat :=
  (match appendChar p.1 p.2 c with Done t => t | _ => p.1 end, S p.2).
Definition written (t : Token) (txt : list Z) : Token := (fold_left write1 txt (t, O)).1.

Lemma write1_count txt p : (fold_left write1 txt p).2 = (p.2 + length txt)%nat.
Proof. revert p; induction txt as [|c txt IH]; intros p; simpl; [lia|]. rewrite IH; simpl; lia. Qed.

Lemma written_step t txt c :
  written t (txt ++ [c]) =
  match appendChar (written t txt) (length txt) c with Done t' => t' | _ => written t txt end.
Proof.
  unfold written. rewrite fold_left_app. cbn [fold_left]. unfold write1 at 1. cbn [fst].
  by rewrite write1_count.
Qed.

Lemma written_spec t txt :
  token_wf t ->
  token_wf (written t txt) /\ labels (written t txt) = labels t /\
  contentSize (written t txt) = grown (contentSize t) (length txt) /\
  take (length txt) (content (written t txt)) = Some <$> txt.
Proof.
  intros Hwf. induction txt as [|c txt (W & L & Sz & T)] using rev_ind.
  - done.
  - assert (0 < contentSize t)%nat as Hpos.
    { destruct Hwf as (_ & _ & k & -> & _). pose proof (Nat.pow_nonzero 2 k).
      unfold TOKEN_BUFFER_SIZE; lia. }
    destruct (appendChar_wf (written t txt) (length txt) c W) as (t' & E & W' & L' & S' & T').
    { rewrite Sz. by apply grown_ge. }
    rewrite written_step, E. split; [done|]. split; [congruence|].
    rewrite length_app; cbn [length]. rewrite Nat.add_1_r. split.
    + cbn [grown]. by rewrite S', Sz.
    + by rewrite T', T, fmap_app.
Qed.

Lemma written_snoc t txt c :
  token_wf t ->
  appendChar (written t txt) (length txt) c = Done (written t (txt ++ [c])).
Proof.
  intros Hwf. pose proof (written_spec t txt Hwf) as (W & L & Sz & T).
  pose proof (token_wf_pos t Hwf).
  destruct (appendChar_wf (written t txt) (length txt) c W) as (t' & E & _).
  { rewrite Sz. by apply grown_ge. }
  by rewrite written_step, E.
Qed.

Lemma appendChar_set_type ty t pos c :
  appendChar (set_type ty t) pos c = t' ← appendChar t pos c; Done (set_type ty t').
Proof.
  unfold appendChar, growContent, storeContent. cbn [contentSize set_type buffer heap].
  repeat (case_bool; cbn [mbind run_bind]); unfold set_content, content;
    cbn [heap set_type set_heap buffer].
  - destruct (memcpy _ _ _ _ _) as [b|]; cbn [unchecked mbind run_bind]; [|done].
    cbn [heap set_type set_heap buffer]. by destruct (put _ _ _).
  - destruct (heap t) as [b|] eqn:E; cbn [mbind run_bind]; [|done].
    cbn [heap set_type set_heap buffer]. by destruct (put _ _ _).
  - destruct (put _ _ _); cbn [unchecked mbind run_bind]; [|done]. by destruct (heap t).
Qed.

Lemma written_set_type ty t txt : written (set_type ty t) txt = set_type ty (written t txt).
Proof.
  induction txt as [|c txt IH] using rev_ind; [done|].
  rewrite !written_step, IH, appendChar_set_type. by destruct (appendChar _ _ _).
Qed.

Lemma cstring_written bs txt rest :
  Forall (.≠ 0) txt ->
  take (length txt) bs = Some <$> txt -> bs !! length txt = Some (Some 0) ->
  rest = txt -> cstring bs = Done rest.
Proof.
  intros HF; revert bs rest; induction HF as [|c txt Hc HF IH]; intros bs rest Ht H0 ->.
  - destruct bs as [|b bs]; [done|]. injection H0 as ->. done.
  - destruct bs as [|b bs]; [done|]. simpl in Ht. injection Ht as -> Ht. simpl in H0.
    simpl. rewrite (proj2 (Z.eqb_neq _ _) Hc). by rewrite (IH bs txt Ht H0 eq_refl).
Qed.

(** ** Suffixes of the source

    [cursor_at text s]: the cursor of the source [text] when [s], a suffix of
    it, is still to be read.  [lex_at] adds the token being filled. *)
Definition cursor_at (text s : list Z) : Cursor := cursor (take (length text - length s) text) s.

Definition lex_at (text s : list Z) (t : Token) (txt : list Z) : Lex :=
  mkLex (cursor_at text s) (written t txt) (length txt).

Create HintDb suffix.
#[export] Hint Extern 0 (@suffix _ ?s ?s) => reflexivity : suffix.

Lemma suffix_tail_of (c : Z) s text : suffix (c :: s) text -> suffix s text.
Proof. intros [k ->]. exists (k ++ [c]). by rewrite <- app_assoc. Qed.
Lemma suffix_tl (s text : list Z) : suffix s text -> suffix (tl s) text.
Proof. destruct s; [done|apply suffix_tail_of]. Qed.

Lemma run_of_app p s a b : run_of p s = (a, b) -> s = a ++ b.
Proof.
  revert a b; induction s as [|c s IH]; intros a b; simpl; [by intros [= <- <-]|].
  destruct (p c); [|by intros [= <- <-]].
  destruct (run_of p s) as [a' b']. intros [= <- <-]. simpl. f_equal. by apply IH.
Qed.

Lemma run_of_suffix p s a b text : run_of p s = (a, b) -> suffix s text -> suffix b text.
Proof. intros ->%run_of_app [k ->]. exists (k ++ a). by rewrite <- app_assoc. Qed.

Lemma quoted_suffix q s a b text : quoted q s = (a, b) -> suffix s text -> suffix b text.
Proof.
  intros H Hs. etrans; [|exact Hs]. clear Hs. revert a b H.
  remember (length s) as n eqn:Hn. revert s Hn.
  induction n as [n IH] using (well_founded_induction lt_wf). intros s -> a b.
  destruct s as [|c s]; simpl; [by intros [= <- <-]|].
  destruct (c =? q).
  - destruct s as [|d s]; [intros [= <- <-]; apply suffix_nil|].
    destruct (d =? q); [|intros [= <- <-]; by apply suffix_cons_r].
    destruct (quoted q s) as [a' b'] eqn:E. intros [= <- <-].
    do 2 apply suffix_cons_r. eapply (IH (length s)); [simpl; lia|done|done].
  - destruct (quoted q s) as [a' b'] eqn:E. intros [= <- <-].
    apply suffix_cons_r. eapply (IH (length s)); [simpl; lia|done|done].
Qed.

#[export] Hint Resolve suffix_tail_of suffix_tl run_of_suffix quoted_suffix : suffix.

Lemma cursor_at_pre pre s : cursor_at (pre ++ s) s = cursor pre s.
Proof.
  unfold cursor_at. f_equal. rewrite length_app.
  replace (length pre + length s - length s)%nat with (length pre) by lia. by rewrite take_app_length.
Qed.

Lemma ch_cursor_at text s : ch (cursor_at text s) = first s.
Proof. done. Qed.

Lemma nextChar_at text c s :
  suffix (c :: s) text -> nextChar (cursor_at text (c :: s)) = Done (cursor_at text s).
Proof.
  intros [k ->]. rewrite cursor_at_pre, nextChar_cursor.
  replace (k ++ c :: s) with ((k ++ [c]) ++ s) by by rewrite <- app_assoc.
  by rewrite cursor_at_pre.
Qed.

Lemma nextChar_at_end text : nextChar (cursor_at text []) = Fault.
Proof. apply nextChar_end. Qed.

Lemma peekChar_at text c s :
  suffix (c :: s) text -> peekChar (cursor_at text (c :: s)) = Done (first s).
Proof. intros [k ->]. rewrite cursor_at_pre. apply peekChar_cursor. Qed.

Lemma room_at text s : (length s < room (cursor_at text s))%nat.
Proof. apply room_cursor. Qed.

(** ** The macros over a text *)

Section Macros.
Context (text : list Z) (t : Token) (Hwf : token_wf t).

Lemma APPEND_at c s txt :
  suffix (c :: s) text -> APPEND (lex_at text (c :: s) t txt) = Done (lex_at text s t (txt ++ [c])).
Proof.
  intros Hs. unfold APPEND, lex_at. cbn [lx_token lx_i lx_cur]. rewrite ch_cursor_at; cbn [first hd].
  rewrite written_snoc by done. cbn [mbind run_bind]. rewrite nextChar_at by done.
  cbn [mbind run_bind]. by rewrite length_app, Nat.add_1_r.
Qed.

Lemma APPEND_at_end txt : APPEND (lex_at text [] t txt) = Fault.
Proof.
  unfold APPEND, lex_at. cbn [lx_token lx_i lx_cur]. rewrite written_snoc by done.
  cbn [mbind run_bind]. by rewrite nextChar_at_end.
Qed.

Lemma while_append_at fuel cond s txt a b :
  cond 0 = false -> suffix s text -> (length s < fuel)%nat -> run_of cond s = (a, b) ->
  while_append fuel cond (lex_at text s t txt) = Done (lex_at text b t (txt ++ a)).
Proof.
  intros H0. revert s txt a b; induction fuel as [|f IH]; intros s txt a b Hs Hf Hr; [lia|].
  cbn [while_append]. unfold lex_at at 1; cbn [lx_cur]. rewrite ch_cursor_at.
  destruct s as [|c s]; cbn [first hd]; simpl in Hr.
  - injection Hr as <- <-. by rewrite H0, app_nil_r.
  - destruct (cond c).
    + destruct (run_of cond s) as [a' b'] eqn:E. injection Hr as <- <-.
      rewrite APPEND_at by done. cbn [mbind run_bind].
      rewrite (IH s _ a' b'); eauto with suffix; [|simpl in Hf; lia]. by rewrite <- app_assoc.
    + injection Hr as <- <-. by rewrite app_nil_r.
Qed.

(** A loop no character stops runs past the terminator. *)
Lemma while_append_overrun fuel cond s txt :
  (forall c, cond c = true) -> suffix s text -> (length s < fuel)%nat ->
  while_append fuel cond (lex_at text s t txt) = Fault.
Proof.
  intros Hc. revert s txt; induction fuel as [|f IH]; intros s txt Hs Hf; [lia|].
  cbn [while_append]. rewrite Hc. destruct s as [|c s].
  - by rewrite APPEND_at_end.
  - rewrite APPEND_at by done. cbn [mbind run_bind]. apply IH; eauto with suffix. simpl in Hf; lia.
Qed.

Lemma APPEND_WHILE_at cond c s txt a b :
  cond 0 = false -> suffix (c :: s) text -> run_of cond s = (a, b) ->
  APPEND_WHILE cond (lex_at text (c :: s) t txt) = Done (lex_at text b t (txt ++ c :: a)).
Proof.
  intros H0 Hs Hr. unfold APPEND_WHILE. rewrite APPEND_at by done. cbn [mbind run_bind].
  rewrite (while_append_at _ _ s _ a b); eauto with suffix; [|apply room_at].
  by rewrite <- app_assoc.
Qed.

Lemma quoted_loop_at fuel q s txt a b :
  q <> 0 -> Forall (.≠ 0) s -> suffix s text -> (length s < fuel)%nat -> quoted q s = (a, b) ->
  quoted_loop fuel q (lex_at text s t txt) = Done (lex_at text b t (txt ++ a)).
Proof.
  intros Hq. revert s txt a b; induction fuel as [|f IH]; intros s txt a b HF Hs Hf Hr; [lia|].
  cbn [quoted_loop]. change (lx_cur (lex_at text s t txt)) with (cursor_at text s). rewrite ch_cursor_at.
  destruct s as [|c s]; cbn [first hd]; simpl in Hr, Hf.
  - injection Hr as <- <-. by rewrite app_nil_r.
  - apply Forall_cons_1 in HF as [Hc HF]. rewrite (proj2 (Z.eqb_neq _ _) Hc).
    destruct (Z.eqb_spec c q) as [->|Hne]; cbn [negb].
    + rewrite nextChar_at by done. cbn [mbind run_bind]. rewrite ch_cursor_at.
      destruct s as [|d s]; cbn [first hd].
      * injection Hr as <- <-. rewrite (proj2 (Z.eqb_neq 0 q)) by done.
        by rewrite app_nil_r.
      * destruct (Z.eqb_spec d q) as [->|Hd].
        -- destruct (quoted q s) as [a' b'] eqn:E. injection Hr as <- <-.
           change (mkLex _ _ _) with (lex_at text (q :: s) t txt).
           rewrite APPEND_at by eauto with suffix. cbn [mbind run_bind].
           apply Forall_cons_1 in HF as [_ HF]. simpl in Hf.
           rewrite (IH s _ a' b'); eauto with suffix; [|lia]. by rewrite <- app_assoc.
        -- injection Hr as <- <-. by rewrite app_nil_r.
    + destruct (quoted q s) as [a' b'] eqn:E. injection Hr as <- <-.
      rewrite APPEND_at by done. cbn [mbind run_bind].
      rewrite (IH s _ a' b'); eauto with suffix; [|lia]. by rewrite <- app_assoc.
Qed.
End Macros.

Lemma skip_while_at text fuel cond s a b :
  cond 0 = false -> suffix s text -> (length s < fuel)%nat -> run_of cond s = (a, b) ->
  skip_while fuel cond (cursor_at text s) = Done (cursor_at text b).
Proof.
  intros H0. revert s a b; induction fuel as [|f IH]; intros s a b Hs Hf Hr; [lia|].
  cbn [skip_while]. rewrite ch_cursor_at. destruct s as [|c s]; cbn [first hd]; simpl in Hr.
  - injection Hr as <- <-. by rewrite H0.
  - destruct (cond c); [|by injection Hr as <- <-].
    destruct (run_of cond s) as [a' b'] eqn:E. injection Hr as <- <-.
    rewrite nextChar_at by done. cbn [mbind run_bind].
    apply (IH s a' b'); eauto with suffix. simpl in Hf; lia.
Qed.

(** ** Numbers *)

Lemma storeContent_twice t t1 pos a b :
  storeContent t pos a = Done t1 -> storeContent t1 pos b = storeContent t pos b.
Proof.
  unfold storeContent. destruct (put (content t) pos (Some a)) as [l|] eqn:E; [|done].
  cbn [unchecked mbind run_bind]. intros [= <-]. unfold put in *.
  destruct (decide (pos < length (content t))%nat); [|done]. injection E as <-.
  assert (content (set_content (<[pos:=Some a]> (content t)) t) = <[pos:=Some a]> (content t)) as ->.
  { unfold set_content, content. by destruct (heap t) eqn:E. }
  rewrite length_insert, decide_True by done. cbn [unchecked mbind run_bind].
  rewrite list_insert_insert_eq. unfold set_content. by destruct (heap t) eqn:E; cbn; rewrite ?E.
Qed.

Lemma storeContent_full t : token_wf t -> storeContent t (contentSize t) 0 = Fault.
Proof.
  intros (_ & Hl & _). unfold storeContent, put. by rewrite decide_False by lia.
Qed.

(** The terminator written after the digits of a base, and its overwriting. *)
Lemma radix_terminator t ds :
  token_wf t -> Forall (.≠ 0) ds -> (length ds <> grown (contentSize t) (length ds))%nat ->
  exists t1, storeContent (written t ds) (length ds) 0 = Done t1 /\
    cstring (content t1) = Done ds /\
    forall c, appendChar t1 (length ds) c = Done (written t (ds ++ [c])).
Proof.
  intros Hwf HF Hne. pose proof (written_spec t ds Hwf) as (W & L & Sz & T).
  assert (length ds < contentSize (written t ds))%nat as Hlt.
  { destruct (written_spec t (ds ++ [0]) Hwf) as (_ & _ & _ & T').
    rewrite Sz in *. pose proof W as (_ & Hl & _).
    apply (f_equal length) in T. rewrite length_take, length_fmap in T. lia. }
  destruct (storeContent_wf _ (length ds) 0 W Hlt) as (t1 & E & W1 & L1 & S1 & C1).
  exists t1. split; [done|]. split.
  - apply (cstring_written _ ds); [done| | |done].
    + rewrite C1, take_insert_ge by lia. done.
    + rewrite C1. apply list_lookup_insert_eq. by destruct W as (_ & -> & _).
  - intros c. rewrite <- written_snoc by done. unfold appendChar, growContent.
    rewrite S1. rewrite (proj2 (Nat.eqb_neq _ _)) by lia. cbn [mbind run_bind].
    by apply (storeContent_twice _ _ _ 0).
Qed.

(** One character tested and appended when it is there. *)
Lemma optional_sign_at text t s txt (p : Z -> bool) :
  token_wf t -> suffix s text -> p 0 = false ->
  (if p (first s) then APPEND (lex_at text s t txt) else Done (lex_at text s t txt)) =
  Done (lex_at text (if p (first s) then tl s else s) t (txt ++ if p (first s) then [first s] else [])).
Proof.
  intros Hwf Hs H0. destruct s as [|c s]; cbn [first hd tl].
  - by rewrite H0, app_nil_r.
  - destruct (p c); [by apply APPEND_at|by rewrite app_nil_r].
Qed.

Section Numbers.
Context (text : list Z) (t : Token) (Hwf : token_wf t).

Lemma readRadix_at s ds :
  Forall (.≠ 0) ds -> suffix s text -> first s = chr "r" ->
  readRadix (lex_at text s t ds) =
  if (length ds =? grown (contentSize t) (length ds))%nat || (2 ^ 31 <=? decimal ds)
     || (36 <? u8 (decimal ds)) then Fault
  else let '(txt, r) := lex_radix (u8 (decimal ds)) (tl s) in
       Done (lex_at text r t (ds ++ first s :: txt)).
Proof.
  intros HF Hs Hr. destruct s as [|c s]; [done|]. cbn [first hd tl] in *.
  unfold readRadix. cbn [lex_at lx_token lx_i lx_cur].
  pose proof (written_spec t ds Hwf) as (W & _ & Sz & _).
  destruct (Nat.eqb_spec (length ds) (grown (contentSize t) (length ds))) as [He|Hne]; cbn [orb].
  { rewrite He at 1. by rewrite <- Sz, storeContent_full. }
  destruct (radix_terminator t ds Hwf HF Hne) as (t1 & E & Ec & Ea).
  rewrite E; cbn [mbind run_bind lx_token]. rewrite Ec; cbn [mbind run_bind]. unfold atoi.
  destruct (Z.leb_spec (2 ^ 31) (decimal ds)) as [Hbig|Hfit]; cbn [orb].
  { by rewrite (proj2 (Z.ltb_ge _ _)) by done. }
  rewrite (proj2 (Z.ltb_lt _ _)) by done. cbn [mbind run_bind].
  assert (APPEND (mkLex (cursor_at text (c :: s)) t1 (length ds)) =
          Done (lex_at text s t (ds ++ [c]))) as Happ.
  { unfold APPEND. cbn [lx_token lx_i lx_cur]. rewrite Ea; cbn [mbind run_bind first hd].
    rewrite nextChar_at by done; cbn [mbind run_bind]. unfold lex_at.
    by rewrite length_app, Nat.add_1_r. }
  rewrite Happ; cbn [mbind run_bind].
  change (ch (lx_cur (lex_at text s t (ds ++ [c])))) with (first s).
  rewrite (optional_sign_at _ _ _ _ (fun x => x =? chr "-")) by eauto with suffix.
  cbn [mbind run_bind]. unfold lex_radix.
  set (s' := if first s =? chr "-" then tl s else s).
  assert (suffix s' text) by (subst s'; destruct (first s =? chr "-"); eauto with suffix).
  destruct (Z.ltb_spec 36 (u8 (decimal ds))) as [H36|H36].
  - apply while_append_overrun; [done|intros; by apply isDigit_above|done|apply room_at].
  - destruct (run_of (fun c0 => isDigit c0 (u8 (decimal ds))) s') as [digits r] eqn:Er.
    rewrite (while_append_at _ _ Hwf _ _ _ _ digits r); eauto using isDigit_nul; [|apply room_at].
    by rewrite <- !app_assoc.
Qed.

Lemma readFraction_at s ds :
  suffix s text ->
  readFraction (lex_at text s t ds) =
  let '(txt, r) := lex_fraction s in Done (lex_at text r t (ds ++ txt)).
Proof.
  intros Hs. unfold readFraction, lex_fraction.
  change (lx_cur (lex_at text s t ds)) with (cursor_at text s). rewrite ch_cursor_at.
  destruct (first s =? chr ".") eqn:Hd; cbn [andb]; [|by rewrite app_nil_r].
  destruct s as [|c s]; [done|]. rewrite peekChar_at by done. cbn [mbind run_bind].
  change (second (c :: s)) with (first s). cbn [first hd tl].
  destruct (isNumeric (first s)) eqn:Hn; [|by rewrite app_nil_r].
  rewrite APPEND_at by done; cbn [mbind run_bind].
  destruct s as [|d s]; [done|]. cbn [first hd] in Hn.
  cbn [run_of]. rewrite Hn. destruct (run_of isNumeric s) as [fs r] eqn:Er.
  rewrite (APPEND_WHILE_at _ _ Hwf _ _ _ _ fs r) by eauto with suffix.
  by rewrite <- app_assoc.
Qed.

Lemma readSuffix_at s ds :
  suffix s text ->
  readSuffix (lex_at text s t ds) =
  match lex_suffix s with
  | None => Fault
  | Some (txt, r) => Done (lex_at text r t (ds ++ txt))
  end.
Proof.
  intros Hs. unfold readSuffix, lex_suffix.
  change (lx_cur (lex_at text s t ds)) with (cursor_at text s). rewrite ch_cursor_at.
  destruct s as [|c s].
  { change (first [] =? chr "e") with false. change (first [] =? chr "E") with false.
    change (first [] =? chr "s") with false. cbn [orb andb mbind run_bind]. by rewrite app_nil_r. }
  rewrite peekChar_at by done. change (second (c :: s)) with (first s). cbn [first hd tl].
  replace (if (c =? chr "e") || (c =? chr "E") then _ else Done false)
    with (Done (((c =? chr "e") || (c =? chr "E")) && (isNumeric (first s) || isSign (first s))))
    by (unfold isSign; destruct ((c =? chr "e") || (c =? chr "E")); cbn [andb mbind run_bind];
        rewrite <- ?orb_assoc; done).
  cbn [mbind run_bind].
  destruct (((c =? chr "e") || (c =? chr "E")) && (isNumeric (first s) || isSign (first s))).
  - rewrite APPEND_at by done; cbn [mbind run_bind].
    change (lx_cur (lex_at text s t (ds ++ [c]))) with (cursor_at text s). rewrite ch_cursor_at.
    change ((first s =? chr "+") || (first s =? chr "-")) with (isSign (first s)).
    rewrite (optional_sign_at _ _ _ _ isSign) by eauto with suffix.
    cbn [mbind run_bind]. change (hd 0 s) with (first s).
    assert (suffix (if isSign (first s) then tl s else s) text) as Hs'
      by (destruct (isSign (first s)); eauto with suffix).
    destruct (if isSign (first s) then tl s else s) as [|d r].
    + unfold APPEND_WHILE. by rewrite APPEND_at_end.
    + destruct (run_of isNumeric r) as [es r'] eqn:Er.
      rewrite (APPEND_WHILE_at _ _ Hwf _ _ _ _ es r') by eauto with suffix.
      by rewrite <- !app_assoc.
  - replace (if c =? chr "s" then _ else Done false)
      with (Done ((c =? chr "s") && negb (isIdentifierBegining (first s))))
      by by destruct (c =? chr "s").
    cbn [mbind run_bind]. change (hd 0 s) with (first s).
    destruct ((c =? chr "s") && negb (isIdentifierBegining (first s))); [|by rewrite app_nil_r].
    rewrite APPEND_at by done; cbn [mbind run_bind].
    change (lx_cur (lex_at text s t (ds ++ [c]))) with (cursor_at text s). rewrite ch_cursor_at.
    destruct s as [|d s]; [done|]. cbn [first hd run_of].
    destruct (isNumeric d); [|done].
    destruct (run_of isNumeric s) as [es r'] eqn:Er.
    rewrite (APPEND_WHILE_at _ _ Hwf _ _ _ _ es r') by eauto with suffix.
    by rewrite <- !app_assoc.
Qed.

Lemma readNumber_at c s :
  Forall (.≠ 0) (c :: s) -> suffix (c :: s) text -> isNumeric c = true ->
  readNumber (lex_at text (c :: s) t []) =
  match lex_number (contentSize t) (c :: s) with
  | None => Fault
  | Some (txt, r) => Done (lex_at text r t txt)
  end.
Proof.
  intros HF Hs Hc. unfold readNumber, lex_number. cbn [run_of]. rewrite Hc.
  destruct (run_of isNumeric s) as [ds r] eqn:Er.
  rewrite (APPEND_WHILE_at _ _ Hwf _ _ _ _ ds r) by done. cbn [mbind run_bind app].
  change (ch (lx_cur (lex_at text r t (c :: ds)))) with (first r).
  assert (suffix r text) as Hr by eauto with suffix.
  destruct (Z.eqb_spec (first r) (chr "r")) as [H|H].
  - rewrite readRadix_at; [|apply run_of_app in Er as ->|done|done].
    + destruct (_ || _); [done|]. by destruct (lex_radix _ _).
    + apply Forall_cons_1 in HF as [? HF]. apply Forall_cons; split; [done|].
      by apply Forall_app in HF as [? _].
  - rewrite readFraction_at by done.
    destruct (lex_fraction r) as [fs r1] eqn:Ef. cbn [mbind run_bind].
    assert (suffix r1 text).
    { unfold lex_fraction in Ef. destruct ((first r =? chr ".") && isNumeric (second r)).
      - destruct (run_of isNumeric (tl r)) eqn:E2. injection Ef as <- <-. eauto with suffix.
      - by injection Ef as <- <-. }
    rewrite readSuffix_at by done. destruct (lex_suffix r1) as [[txt r2]|]; [|done].
    cbn [mbind option_bind]. by rewrite <- app_assoc.
Qed.
End Numbers.

(** ** Single tokens *)

(** Evaluates the comparisons of closed characters. *)
Ltac eval_chars :=
  repeat match goal with
  | |- context [ ?a =? chr ?b ] =>
      let v := eval vm_compute in (a =? chr b) in
      match v with true => idtac | false => idtac end; change (a =? chr b) with v
  end.

Lemma guard_bind {A} (b : bool) (x : bool) (k : bool -> Run A) :
  (if b then Done x else Done false) ≫= k = k (b && x).
Proof. by destruct b. Qed.

Lemma typed_lex_at ty text s t txt :
  typed ty (lex_at text s t txt) = lex_at text s (set_type ty t) txt.
Proof. unfold typed, lex_at; cbn [lx_cur lx_token lx_i]. by rewrite written_set_type. Qed.

Lemma set_type_wf ty t : token_wf t -> token_wf (set_type ty t).
Proof. done. Qed.
#[export] Hint Resolve set_type_wf : suffix.

Section Plain.
Context (text : list Z) (tok comment : Token) (Hwf : token_wf tok).

(** A lexeme of two characters, the second of them the one looked ahead at. *)
Lemma second_there y (s : list Z) b :
  b && (first s =? chr y) = true -> chr y <> 0 -> exists d r, s = d :: r.
Proof.
  intros [_ H%Z.eqb_eq]%andb_prop Hy. destruct s as [|d r]; [|eauto]. by destruct Hy.
Qed.

(** The end of readToken: the terminator. *)
Definition finish (r : Run Lex) : Run (Cursor * Token * Token) :=
  s ← r; t ← appendChar (lx_token s) (lx_i s) 0; Done (lx_cur s, comment, t).

Definition finished (ty : TokenType) (txt r : list Z) : Run (Cursor * Token * Token) :=
  Done (cursor_at text r, comment, written (set_type ty tok) (txt ++ [0])).

Lemma finish_at ty r txt : finish (Done (lex_at text r (set_type ty tok) txt)) = finished ty txt r.
Proof.
  unfold finish, lex_at. cbn [mbind run_bind lx_token lx_i lx_cur].
  by rewrite written_snoc by done.
Qed.

Lemma finish_one ty c s :
  suffix (c :: s) text ->
  finish (APPEND (lex_at text (c :: s) (set_type ty tok) [])) = finished ty [c] s.
Proof. intros. rewrite APPEND_at by done. apply finish_at. Qed.

Lemma finish_two ty c d s :
  suffix (c :: d :: s) text ->
  finish (s ← APPEND (lex_at text (c :: d :: s) (set_type ty tok) []); APPEND s) =
  finished ty [c; d] s.
Proof.
  intros. rewrite APPEND_at by done. cbn [mbind run_bind].
  rewrite APPEND_at by eauto with suffix. apply finish_at.
Qed.

Lemma finish_two_end ty c :
  suffix [c] text ->
  finish (s ← APPEND (lex_at text [c] (set_type ty tok) []); APPEND s) = Fault.
Proof. intros. rewrite APPEND_at by done. cbn [mbind run_bind]. by rewrite APPEND_at_end. Qed.

Lemma finish_pair ty y b c s :
  suffix (c :: s) text -> chr y <> 0 -> b && (first s =? chr y) = true ->
  finish (s ← APPEND (lex_at text (c :: s) (set_type ty tok) []); APPEND s) =
  finished ty [c; first s] (tl s).
Proof. intros Hs Hy (d & r & ->)%second_there; [|done]. by apply finish_two. Qed.

Lemma finish_string c s :
  Forall (.≠ 0) (c :: s) -> suffix (c :: s) text ->
  finish (c ← nextChar (cursor_at text (c :: s));
          s ← quoted_loop (room c) (chr "'") (mkLex c tok 0);
          Done (typed (if ch (lx_cur s) =? 0 then TOKEN_UNCLOSED_STRING else TOKEN_STRING) s)) =
  let '(txt, r) := quoted (chr "'") s in
  finished (match r with [] => TOKEN_UNCLOSED_STRING | _ => TOKEN_STRING end) txt r.
Proof.
  intros HF Hs. rewrite nextChar_at by done. cbn [mbind run_bind].
  change (mkLex (cursor_at text s) tok 0) with (lex_at text s tok []).
  apply Forall_cons_1 in HF as [_ HF].
  destruct (quoted (chr "'") s) as [txt r] eqn:Eq.
  rewrite (quoted_loop_at _ _ Hwf _ _ _ _ txt r); eauto with suffix; [|apply room_at].
  cbn [mbind run_bind app]. change (ch (lx_cur (lex_at text r tok txt))) with (first r).
  assert ((first r =? 0) = match r with [] => true | _ => false end) as ->.
  { destruct r as [|d r]; [done|]. apply Z.eqb_neq.
    apply quoted_suffix with (text := s) in Eq as [k ->]; [|done].
    apply Forall_app in HF as [_ HF]. by inversion HF. }
  rewrite typed_lex_at. by destruct r; apply finish_at.
Qed.

Lemma finish_number c s :
  Forall (.≠ 0) (c :: s) -> suffix (c :: s) text -> isNumeric c = true ->
  finish (readNumber (lex_at text (c :: s) (set_type TOKEN_DIGIT tok) [])) =
  match lex_number (contentSize tok) (c :: s) with
  | None => Fault
  | Some (txt, r) => finished TOKEN_DIGIT txt r
  end.
Proof.
  intros HF Hs Hc. rewrite readNumber_at by done. cbn [contentSize set_type].
  destruct (lex_number _ _) as [[txt r]|]; [|done]. apply finish_at.
Qed.

Lemma finish_word c s :
  suffix (c :: s) text ->
  finish (s ← APPEND_WHILE isIdentifier (lex_at text (c :: s) tok []);
          keyword ← (if ch (lx_cur s) =? chr ":" then
                       p ← peekChar (lx_cur s); Done (negb (p =? chr "="))
                     else Done false);
          if keyword : bool then APPEND (typed TOKEN_KEYWORD s)
          else Done (typed TOKEN_IDENTIFIER s)) =
  let '(name, r) := run_of isIdentifier s in
  if (first r =? chr ":") && negb (second r =? chr "=")
  then finished TOKEN_KEYWORD (c :: name ++ [chr ":"]) (tl r)
  else finished TOKEN_IDENTIFIER (c :: name) r.
Proof.
  intros Hs. destruct (run_of isIdentifier s) as [name r] eqn:Er.
  rewrite (APPEND_WHILE_at _ _ Hwf _ _ _ _ name r) by done. cbn [mbind run_bind app].
  change (lx_cur (lex_at text r tok (c :: name))) with (cursor_at text r). rewrite ch_cursor_at.
  rewrite !typed_lex_at. assert (suffix r text) as Hr by eauto with suffix.
  destruct (Z.eqb_spec (first r) (chr ":")) as [Hc|]; cbn [andb mbind run_bind]; [|apply finish_at].
  destruct r as [|d r]; [done|]. rewrite peekChar_at by done. cbn [mbind run_bind].
  change (second (d :: r)) with (first r). cbn [first hd tl] in *.
  destruct (negb _); [|apply finish_at].
  rewrite APPEND_at by done. rewrite finish_at. by rewrite Hc.
Qed.

Lemma finish_special c s :
  suffix (c :: s) text ->
  finish (APPEND_WHILE isSpecial (lex_at text (c :: s) (set_type TOKEN_SPECIAL_CHARS tok) [])) =
  let '(op, r) := run_of isSpecial s in finished TOKEN_SPECIAL_CHARS (c :: op) r.
Proof.
  intros Hs. destruct (run_of isSpecial s) as [op r] eqn:Er.
  rewrite (APPEND_WHILE_at _ _ (set_type_wf _ _ Hwf) _ _ _ _ op r) by done. apply finish_at.
Qed.

(** Splits on the test both sides make next. *)
Local Ltac branch := match goal with |- (if ?b then _ else _) = _ => destruct b eqn:? end.

Lemma readPlain_at s :
  Forall (.≠ 0) s -> suffix s text -> first s <> dquote ->
  readPlain (cursor_at text s) comment tok =
  match lex_token (contentSize tok) s with
  | None => Fault
  | Some (ty, txt, r) => finished ty txt r
  end.
Proof.
  intros HF Hs Hq. unfold readPlain.
  change (mkLex (cursor_at text s) tok 0) with (lex_at text s tok []).
  rewrite ?typed_lex_at. rewrite !ch_cursor_at. unfold lex_token.
  change (fun r : Run Lex => s0 ← r; t ← appendChar (lx_token s0) (lx_i s0) 0;
                             Done (lx_cur s0, comment, t)) with finish.
  destruct s as [|c s].
  - cbn [first hd]. eval_chars. cbn [andb mbind run_bind].
    change (0 =? 0) with true. cbv iota. apply (finish_at TOKEN_END_OF_INPUT [] []).
  - rewrite peekChar_at by done. cbn [mbind run_bind first hd]. rewrite !guard_bind.
    cbn [tl second hd].
    do 8 (branch; [by apply finish_one|]).
    branch; [by eapply finish_pair; [done| |eassumption]|]. do 4 (branch; [by apply finish_one|]).
    branch; [by destruct s; [apply finish_two_end|apply finish_two]|].
    branch; [by eapply finish_pair; [done| |eassumption]|]. branch; [by apply finish_one|].
    branch; [etrans; [by apply finish_string|by destruct (quoted _ _)]|].
    rewrite (proj2 (Z.eqb_neq c 0)) by by inversion HF.
    branch; [etrans; [by apply finish_number|by destruct (lex_number _ _) as [[]|]]|].
    branch; [etrans; [by apply finish_word|destruct (run_of _ _); by case_match]|].
    branch; [etrans; [by apply finish_special|by destruct (run_of _ _)]|by apply finish_one].
Qed.
End Plain.

(** ** What a lexeme takes from the text *)

Lemma lex_radix_app base s txt r : lex_radix base s = (txt, r) -> s = txt ++ r.
Proof.
  unfold lex_radix. destruct (run_of _ _) as [ds r'] eqn:E. apply run_of_app in E.
  intros [= <- <-]. rewrite <- app_assoc, <- E. destruct s as [|c s]; [done|]. by case_match.
Qed.

Lemma lex_fraction_app s txt r : lex_fraction s = (txt, r) -> s = txt ++ r.
Proof.
  unfold lex_fraction. destruct s as [|c s]; [by intros [= <- <-]|].
  case_match; [|by intros [= <- <-]]. destruct (run_of _ _) as [fs r'] eqn:E.
  apply run_of_app in E. intros [= <- <-]. simpl in E |- *. by rewrite E.
Qed.

Lemma lex_suffix_app s txt r : lex_suffix s = Some (txt, r) -> s = txt ++ r.
Proof.
  unfold lex_suffix. destruct s as [|c s]; [by intros [= <- <-]|].
  change (second (c :: s)) with (first s). cbn [first hd tl].
  case_match.
  - destruct s as [|d s]; [done|]. cbn [first hd tl]. destruct (isSign d).
    + destruct s as [|e s]; [done|]. destruct (run_of isNumeric s) as [es r'] eqn:E.
      apply run_of_app in E as ->. by intros [= <- <-].
    + destruct (run_of isNumeric s) as [es r'] eqn:E. apply run_of_app in E as ->.
      by intros [= <- <-].
  - case_match; [|by intros [= <- <-]]. destruct (run_of isNumeric s) as [es r'] eqn:E.
    apply run_of_app in E as ->. by intros [= <- <-].
Qed.

Lemma lex_number_app cap s txt r : lex_number cap s = Some (txt, r) -> s = txt ++ r.
Proof.
  unfold lex_number. destruct (run_of isNumeric s) as [ds s1] eqn:E. apply run_of_app in E as ->.
  destruct (Z.eqb_spec (first s1) (chr "r")) as [Hr|].
  - case_match; [done|]. destruct (lex_radix _ _) as [tx r'] eqn:E.
    apply lex_radix_app in E. intros [= <- <-]. destruct s1 as [|c s1]; [done|].
    cbn [first hd tl] in *. by rewrite <- app_assoc, E.
  - destruct (lex_fraction s1) as [fs s2] eqn:E. apply lex_fraction_app in E as ->.
    destruct (lex_suffix s2) as [[tx r']|] eqn:E; [|done]. apply lex_suffix_app in E as ->.
    cbn [mbind option_bind]. intros [= <- <-]. by rewrite <- !app_assoc.
Qed.

Definition is_string (ty : TokenType) : bool :=
  match ty with TOKEN_STRING | TOKEN_UNCLOSED_STRING => true | _ => false end.

(** Every token but a string is the text it was read from. *)
Lemma lex_token_app cap s ty txt r :
  lex_token cap s = Some (ty, txt, r) -> is_string ty = false -> s = txt ++ r.
Proof.
  unfold lex_token. destruct s as [|c s]; [by intros [= <- <- <-]|]. cbn [first hd tl].
  change (second (c :: s)) with (first s). intros H Hty.
  repeat match type of H with
  | (if ?b && (first s =? chr ?y) then _ else _) = _ =>
      destruct (b && (first s =? chr y)) eqn:E;
      [apply second_there in E as (d & r' & ->); [|done]; injection H as <- <- <-; done|clear E]
  | (if ?b then Some (?ty', [c], s) else _) = _ =>
      destruct b; [injection H as <- <- <-; done|]
  | (if ?c =? chr "$" then _ else _) = _ =>
      destruct (c =? chr "$"); [destruct s; [done|]; injection H as <- <- <-; done|]
  end.
  case_match.
  { destruct (quoted _ _) as [q r']. injection H as <- <- <-. by destruct r'. }
  case_match.
  { destruct (lex_number cap (c :: s)) as [[tx r']|] eqn:E; [|done].
    apply lex_number_app in E as ->. injection H as <- <- <-. done. }
  case_match.
  { destruct (run_of isIdentifier s) as [name r'] eqn:E. apply run_of_app in E as ->.
    destruct (_ && _) eqn:Ek in H; injection H as <- <- <-; [|done].
    apply andb_prop in Ek as [Ek%Z.eqb_eq _]. destruct r' as [|d r']; [done|]. cbn [first hd tl] in *.
    simpl. by rewrite <- app_assoc, <- Ek. }
  case_match; [|injection H as <- <- <-; done].
  destruct (run_of isSpecial s) as [op r'] eqn:E. apply run_of_app in E as ->.
  injection H as <- <- <-. done.
Qed.

Lemma lex_token_string cap s ty txt r :
  lex_token cap s = Some (ty, txt, r) -> is_string ty = true ->
  quoted (chr "'") (tl s) = (txt, r).
Proof.
  unfold lex_token. destruct s as [|c s]; [by intros [= <- <- <-]|]. cbn [tl]. intros H Hty.
  repeat match type of H with
  | (if ?b then Some (_, _, _) else _) = _ => destruct b; [by injection H as <- <- <-|]
  | (if c =? chr "$" then _ else _) = _ => destruct (c =? chr "$"); [destruct s; by simplify_eq|]
  end.
  case_match; [destruct (quoted _ _); by injection H as <- <- <-|].
  case_match; [destruct (lex_number _ _) as [[]|]; by simplify_eq/=|].
  case_match; [destruct (run_of isIdentifier s); destruct (_ && _) in H; by injection H as <- <- <-|].
  case_match; [destruct (run_of isSpecial s)|]; by injection H as <- <- <-.
Qed.

Lemma quoted_chars q s a b :
  q <> 0 -> quoted q s = (a, b) -> Forall (.≠ 0) s -> Forall (.≠ 0) a.
Proof.
  intros Hq. remember (length s) as n eqn:Hn. revert s Hn a b.
  induction n as [n IH] using (well_founded_induction lt_wf). intros s -> a b.
  destruct s as [|c s]; simpl; [by intros [= <- <-]|]. intros H [Hc HF]%Forall_cons_1.
  destruct (c =? q).
  - destruct s as [|d s]; [injection H as <- <-; constructor|].
    apply Forall_cons_1 in HF as [_ HF].
    destruct (d =? q); [|injection H as <- <-; constructor].
    destruct (quoted q s) as [a' b'] eqn:E. injection H as <- <-.
    apply Forall_cons; split; [done|]. eapply (IH (length s)); eauto. simpl; lia.
  - destruct (quoted q s) as [a' b'] eqn:E. injection H as <- <-.
    apply Forall_cons; split; [done|]. eapply (IH (length s)); eauto.
Qed.

Lemma lex_token_chars cap s ty txt r :
  lex_token cap s = Some (ty, txt, r) -> Forall (.≠ 0) s -> Forall (.≠ 0) txt /\ suffix r s.
Proof.
  intros H HF. destruct (is_string ty) eqn:Hty.
  - apply lex_token_string in H; [|done]. destruct s as [|c s].
    { injection H as <- <-. split; [constructor|done]. }
    apply Forall_cons_1 in HF as [_ HF]. cbn [tl] in H. split.
    + by apply (quoted_chars (chr "'") s txt r).
    + apply suffix_cons_r. by eapply quoted_suffix.
  - apply lex_token_app in H as ->; [|done]. apply Forall_app in HF as [HF _].
    split; [done|]. by exists txt.
Qed.

(** ** Refinement *)

(** The token [t] shows the lexeme [l] of the source [text]. *)
Definition shows (text : list Z) (l : Lexeme) (t : Token) : Prop :=
  let offset := (length text - length (lx_start l))%nat in
  type t = lx_type l /\ cstring (content t) = Done (lx_text l) /\
  isSeparated t = lx_separated l /\ position t = S offset /\
  line t = (place (take (S offset) (text ++ [0]))).1 /\
  S (column t) = (place (take (S offset) (text ++ [0]))).2.

Lemma place_column l : (1 <= (place l).2)%nat.
Proof.
  induction l as [|c l IH] using rev_ind; [done|]. rewrite place_snoc. unfold advance.
  case_bool; simpl; lia.
Qed.

Lemma cursor_at_place text s :
  suffix s text ->
  let p := place (take (S (length text - length s)) (text ++ [0])) in
  (current (cursor_at text s), cline (cursor_at text s), ccolumn (cursor_at text s)) =
  (S (length text - length s), p.1, p.2).
Proof.
  intros [k ->]. rewrite cursor_at_pre. rewrite length_app.
  replace (length k + length s - length s)%nat with (length k) by lia. cbn zeta.
  rewrite <- app_assoc. rewrite (take_S_r _ _ (first s)).
  - by rewrite take_app_length.
  - rewrite lookup_app_r, Nat.sub_diag by lia. by destruct s.
Qed.

(** The slot a read starts to fill: the labels of the first character. *)
Definition started (text s : list Z) (separated : bool) (tok : Token) : Token :=
  let c := cursor_at text s in
  set_place (getPosition c) (cline c) (ccolumn c - 1) (set_separated separated tok).

Lemma started_wf text s separated tok : token_wf tok -> token_wf (started text s separated tok).
Proof. done. Qed.

(** The token a read leaves: the labels of its start and the terminated text. *)
Lemma shows_intro text s ty txt tok separated r t :
  suffix s text -> Forall (.≠ 0) txt ->
  labels t = labels (set_type ty (started text s separated tok)) ->
  take (S (length txt)) (content t) = (Some <$> txt) ++ [Some 0] ->
  shows text (mkLexeme ty txt s r separated) t.
Proof.
  intros Hs HF L T.
  pose proof (cursor_at_place text s Hs) as Hp. cbn zeta in Hp. injection Hp as Hc Hl Hcol.
  unfold labels in L. injection L as L1 L2 L3 L4 L5.
  pose proof (place_column (take (S (length text - length s)) (text ++ [0]))).
  unfold shows. cbn [lx_start lx_type lx_text lx_separated].
  split; [done|]. split; [|repeat split; [done|lia|congruence|lia]].
  apply (cstring_written _ txt); [done| | |done].
  - apply (f_equal (take (length txt))) in T. rewrite take_take in T.
    replace (length txt `min` S (length txt))%nat with (length txt) in T by lia.
    rewrite T, take_app_le by (by rewrite length_fmap). apply take_ge. by rewrite length_fmap.
  - apply (f_equal (fun l => l !! length txt)) in T. rewrite lookup_take_lt in T by lia.
    rewrite T, lookup_app_r by (rewrite length_fmap; lia). by rewrite length_fmap, Nat.sub_diag.
Qed.

(** What a read of a lexeme leaves. *)
Definition read_ok (text : list Z) (tok : Token) (l : Lexeme)
    (res : Run (Cursor * Token * Token)) : Prop :=
  exists comment' tok',
    res = Done (cursor_at text (lx_rest l), comment', tok') /\
    shows text l tok' /\ suffix (lx_rest l) text /\
    token_wf comment' /\ type comment' = TOKEN_UNKNOWN /\
    token_wf tok' /\ (contentSize tok <= contentSize tok')%nat.

Lemma written_size t txt : token_wf t -> (contentSize t <= contentSize (written t txt))%nat.
Proof.
  intros Hwf. destruct (written_spec t txt Hwf) as (_ & _ & -> & _). by apply grown_ge, token_wf_pos.
Qed.

Lemma read_plain text s tok comment separated :
  Forall (.≠ 0) text -> suffix s text -> first s <> dquote -> token_wf tok -> token_wf comment ->
  type comment = TOKEN_UNKNOWN ->
  let res := readPlain (cursor_at text s) comment (started text s separated tok) in
  match lex_token (contentSize tok) s with
  | None => res = Fault
  | Some (ty, txt, r) => read_ok text tok (mkLexeme ty txt s r separated) res
  end.
Proof.
  intros HF Hs Hq Hwf Hwc Hc. cbn zeta.
  assert (Forall (.≠ 0) s) as HFs by (destruct Hs as [k ->]; by apply Forall_app in HF as [_ HF]).
  rewrite readPlain_at by done. cbn [contentSize started set_place set_separated].
  destruct (lex_token (contentSize tok) s) as [[[ty txt] r]|] eqn:E; [|done].
  apply lex_token_chars in E as [Ht Hr]; [|done].
  destruct (written_spec (set_type ty (started text s separated tok)) (txt ++ [0])) as (W & L & _ & T);
    [done|].
  eexists _, _. split; [done|]. split; [|split; [by etrans|]; split; [done|]; split; [done|]].
  - apply (shows_intro _ _ _ _ tok); [done..|]. rewrite <- fmap_snoc, <- T. by rewrite length_app, Nat.add_1_r.
  - split; [done|]. by apply (written_size (set_type ty (started text s separated tok))).
Qed.

Lemma set_content_wf t bs :
  token_wf t -> length bs = contentSize t ->
  token_wf (set_content bs t) /\ content (set_content bs t) = bs /\
  labels (set_content bs t) = labels t /\ contentSize (set_content bs t) = contentSize t.
Proof.
  intros (Hb & Hc & k & Hk & Hh) Hl. unfold token_wf, set_content, content in *.
  destruct (heap t) as [h|] eqn:E; cbn [heap buffer contentSize] in *.
  - repeat split; try done. exists k. split; [done|]. rewrite <- Hh. done.
  - change (default (buffer t) None) with (buffer t) in Hc.
    repeat split; try done; [cbn; lia|]. exists k. done.
Qed.

(** A comment that is not closed is copied over the token. *)
Lemma read_unclosed text s txt tok comment separated :
  Forall (.≠ 0) txt -> suffix s text -> token_wf tok -> token_wf comment ->
  type comment = TOKEN_UNKNOWN ->
  let token := started text s separated tok in
  let res :=
    bytes ← unchecked (memcpy (content token) 0 (content (written comment txt)) 0 (length txt));
    t ← appendChar (set_content bytes (set_type TOKEN_UNCLOSED_COMMENT token)) (length txt) 0;
    Done (cursor_at text [], written comment txt, t) in
  if (length txt <=? contentSize tok)%nat
  then read_ok text tok (mkLexeme TOKEN_UNCLOSED_COMMENT txt s [] separated) res
  else res = Fault.
Proof.
  intros HF Hs Hwf Hwc Hty token. cbn zeta.
  destruct (written_spec comment txt Hwc) as (W & L & Sz & T).
  assert (length txt <= length (content (written comment txt)))%nat.
  { apply (f_equal length) in T. rewrite length_take, length_fmap in T. lia. }
  unfold memcpy. rewrite slice_Some by lia. cbn [mbind option_bind]. rewrite drop_0, T.
  pose proof Hwf as (_ & Hl & _). unfold blit. rewrite length_fmap.
  change (content token) with (content tok).
  destruct (Nat.leb_spec (length txt) (contentSize tok)) as [Hle|Hgt].
  - rewrite decide_True by lia. cbn [unchecked mbind run_bind take app]. rewrite take_0. cbn [app Nat.add].
    destruct (set_content_wf (set_type TOKEN_UNCLOSED_COMMENT token)
                ((Some <$> txt) ++ drop (length txt) (content tok))) as (W1 & C1 & L1 & S1).
    { by apply set_type_wf, started_wf. }
    { rewrite length_app, length_fmap, length_drop. cbn. lia. }
    destruct (appendChar_wf _ (length txt) 0 W1) as (t & E & W2 & L2 & S2 & T2);
      [rewrite S1; cbn; lia|].
    rewrite E. cbn [mbind run_bind]. eexists _, _. split; [done|]. split; [|split].
    + apply (shows_intro _ _ _ _ tok); [done..|by rewrite L2, L1|].
      rewrite T2, C1, take_app_le, take_ge by (rewrite length_fmap; lia). done.
    + apply suffix_nil.
    + split; [done|]. split; [by injection L as ->|]. split; [done|].
      rewrite S2, S1. cbn [contentSize set_type token started set_place set_separated].
      case_bool; lia.
  - by rewrite decide_False by lia.
Qed.

Lemma read_lexeme text f1 f2 s comment tok separated :
  Forall (.≠ 0) text -> suffix s text -> token_wf comment -> token_wf tok ->
  (length s < f1)%nat -> (length s < f2)%nat ->
  let res := readTokenInto f1 (cursor_at text s) comment tok separated in
  match lexeme f2 (contentSize tok) separated s with
  | Done l => read_ok text tok l res
  | Fault => res = Fault
  | NoFuel => False
  end.
Proof.
  intros HF. revert f2 s comment tok separated.
  induction f1 as [|f1 IH]; intros f2 s comment tok separated Hs Hwc Hwt Hf1 Hf2; [lia|].
  destruct f2 as [|f2]; [lia|]. cbn zeta. cbn [readTokenInto lexeme]. rewrite ch_cursor_at.
  destruct (run_of isSeparator s) as [a s1] eqn:Er. cbn [snd].
  unfold SKIP_WHILE. rewrite (skip_while_at _ _ _ _ a s1) by (done || apply room_at).
  cbn [mbind run_bind]. rewrite ch_cursor_at.
  set (sep := separated || isSeparator (first s)).
  change (set_place (getPosition (cursor_at text s1)) (cline (cursor_at text s1))
            (ccolumn (cursor_at text s1) - 1) (set_separated sep tok)) with (started text s1 sep tok).
  assert (suffix s1 text) as Hs1 by eauto with suffix.
  destruct (Z.eqb_spec (first s1) dquote) as [Hq|Hq].
  - destruct s1 as [|c s2]; [done|]. cbn [tl]. rewrite nextChar_at by done. cbn [mbind run_bind].
    destruct (quoted dquote s2) as [txt r] eqn:Eq.
    assert (Forall (.≠ 0) s2) as HF2.
    { destruct Hs1 as [k ->]. apply Forall_app in HF as [_ HF]. by apply Forall_cons_1 in HF as [_ HF]. }
    change (mkLex (cursor_at text s2) ?cm 0) with (lex_at text s2 cm []).
    set (cm := set_type TOKEN_UNKNOWN comment).
    assert (token_wf cm) as Hcm by done.
    rewrite (quoted_loop_at _ cm Hcm _ _ s2 _ txt r); [|done|done|by eauto with suffix|apply room_at|done].
    cbn [mbind run_bind app]. unfold lex_at; cbn [lx_cur lx_token lx_i]. rewrite ch_cursor_at.
    assert (suffix r s2) as Hr by by eapply quoted_suffix.
    destruct r as [|d r].
    + cbn [first hd]. change (0 =? 0) with true. cbv iota.
      pose proof (read_unclosed text (c :: s2) txt tok cm sep) as HU. cbn zeta in HU.
      assert (Forall (.≠ 0) txt) by by apply (quoted_chars dquote s2 txt []).
      destruct (length txt <=? contentSize tok)%nat; by apply HU.
    + assert (Forall (.≠ 0) (d :: r)) as HFr.
      { destruct Hr as [k ->]. by apply Forall_app in HF2 as [_ HF2]. }
      cbn [first hd]. rewrite (proj2 (Z.eqb_neq d 0)) by by inversion HFr.
      destruct (written_spec cm txt Hcm) as (W & L & Sz & T).
      destruct (appendChar_wf (set_place (position (started text (c :: s2) sep tok))
          (line (started text (c :: s2) sep tok)) (column (started text (c :: s2) sep tok))
          (set_type TOKEN_COMMENT (written cm txt))) (length txt) 0) as (t & E & Wt & _).
      { done. }
      { cbn [contentSize set_place set_type]. rewrite Sz. by apply grown_ge, (token_wf_pos cm). }
      rewrite E. cbn [mbind run_bind].
      assert (length (d :: r) <= length s2 /\ S (length s2) <= length s)%nat as [].
      { apply suffix_length in Hr. apply run_of_app in Er as ->. rewrite length_app. simpl in *. lia. }
      apply (IH f2 (d :: r) t (started text (c :: s2) sep tok) true); [|done|done|lia|lia].
      by etrans; [exact Hr|eauto with suffix].
  - pose proof (read_plain text s1 tok (set_type TOKEN_UNKNOWN comment) sep) as HP.
    cbn zeta in HP. destruct (lex_token (contentSize tok) s1) as [[[ty txt] r]|];
      cbn [unchecked mbind run_bind]; by apply HP.
Qed.

(** For every source without a NUL and every position in it, [readToken]
    terminates and does what the reference lexer says of the text still to be
    read: where the reference finds a lexeme, the slot shows its type, its
    text as a C string, its offset, line and column and whether it was
    separated, the cursor stands right after it, the buffers of the slot and of
    the comment are consistent and no smaller than before; where the reference
    reports an overrun, the C code leaves its buffers. *)
Theorem readToken_refines text s comment tok separated :
  Forall (.≠ 0) text -> suffix s text -> token_wf comment -> token_wf tok ->
  let res := readTokenInto (room (cursor_at text s)) (cursor_at text s) comment tok separated in
  match lexeme (S (length s)) (contentSize tok) separated s with
  | Done l => read_ok text tok l res
  | Fault => res = Fault
  | NoFuel => False
  end.
Proof. intros. apply read_lexeme; auto using room_at. Qed.

(** ** String literals *)

(** The body of a literal: every quote doubled. *)
Definition double_quotes (q : Z) (str : list Z) : list Z :=
  str ≫= fun c => if c =? q then [q; q] else [c].

Lemma quoted_double q str rest :
  first rest <> q -> quoted q (double_quotes q str ++ q :: rest) = (str, rest).
Proof.
  intros Hr. unfold double_quotes. induction str as [|c str IH]; cbn [mbind list_bind app].
  - cbn [quoted]. rewrite Z.eqb_refl. destruct rest as [|d rest]; [done|].
    by rewrite (proj2 (Z.eqb_neq d q)).
  - destruct (Z.eqb_spec c q) as [->|Hne]; cbn [app quoted].
    + by rewrite Z.eqb_refl, IH.
    + by rewrite (proj2 (Z.eqb_neq c q)), IH.
Qed.

(** A string literal reads back: whatever the string, the token of its
    literal (quotes doubled, between quotes) has the string as its content and
    the cursor stands after the closing quote.  The type is [TOKEN_STRING]
    where any character follows the literal, but [TOKEN_UNCLOSED_STRING] where
    the closing quote is the last character of the source. *)
Theorem string_literal_reads_back text str rest comment tok :
  Forall (.≠ 0) text -> token_wf comment -> token_wf tok -> first rest <> chr "'" ->
  let s := chr "'" :: double_quotes (chr "'") str ++ chr "'" :: rest in
  suffix s text ->
  exists comment' tok',
    readTokenInto (room (cursor_at text s)) (cursor_at text s) comment tok false =
      Done (cursor_at text rest, comment', tok') /\
    cstring (content tok') = Done str /\
    type tok' = match rest with [] => TOKEN_UNCLOSED_STRING | _ => TOKEN_STRING end.
Proof.
  intros HF Hc Ht Hr s Hs.
  pose proof (read_lexeme text (room (cursor_at text s)) (S (length s)) s comment tok false HF Hs Hc Ht
                (room_at _ _) (Nat.lt_succ_diag_r _)) as H.
  cbn zeta in H. cbn [lexeme] in H.
  replace (lex_token (contentSize tok) (run_of isSeparator s).2) with
    (Some (match rest with [] => TOKEN_UNCLOSED_STRING | _ => TOKEN_STRING end, str, rest)) in H.
  - destruct H as (comment' & tok' & E & (Hty & Htx & _) & _). exists comment', tok'. done.
  - subst s. cbn [run_of]. change (isSeparator (chr "'")) with false. cbn [snd].
    unfold lex_token. eval_chars. cbn [andb]. by rewrite quoted_double by done.
Qed.

(** ** Witnesses *)

Definition fresh_token : Token :=
  mkToken TOKEN_NONE TOKEN_BUFFER_SIZE None (replicate 64 None) 0 0 0 false.

Lemma fresh_token_wf : token_wf fresh_token.
Proof. split; [done|]. split; [done|]. by exists O. Qed.

Lemma readToken_refines_witness :
  let text := bytes_of_string "x := 16r2F." in
  match lexeme 8 64 false (drop 4 text) with
  | Done l => lx_type l = TOKEN_DIGIT /\
      read_ok text fresh_token l
        (readTokenInto (room (cursor_at text (drop 4 text))) (cursor_at text (drop 4 text))
           fresh_token fresh_token false)
  | _ => False
  end.
Proof.
  split; [vm_compute; reflexivity|].
  refine (readToken_refines (bytes_of_string "x := 16r2F.") (drop 4 (bytes_of_string "x := 16r2F."))
            fresh_token fresh_token false _ _ fresh_token_wf fresh_token_wf).
  - vm_compute. repeat (constructor; [done|]). constructor.
  - exists (take 4 (bytes_of_string "x := 16r2F.")). reflexivity.
Defined.

Lemma string_literal_reads_back_witness :
  let text := bytes_of_string "'it''s'." in
  exists comment' tok',
    readTokenInto (room (cursor_at text text)) (cursor_at text text) fresh_token fresh_token false =
      Done (cursor_at text (bytes_of_string "."), comment', tok') /\
    cstring (content tok') = Done (bytes_of_string "it's") /\ type tok' = TOKEN_STRING.
Proof.
  refine (string_literal_reads_back (bytes_of_string "'it''s'.") (bytes_of_string "it's")
            (bytes_of_string ".") fresh_token fresh_token _ fresh_token_wf fresh_token_wf _ _).
  - vm_compute. repeat (constructor; [done|]). constructor.
  - vm_compute. done.
  - exists []. reflexivity.
Defined.
