(* ===== verification/LexicalGrammar.v ===== *)
(** * LexicalGrammar

    The lexical grammar of the language as a relation, with its character
    classes given by ranges, and the theorem that the tokenizer reads it:
    whatever blanks and comments come first, [readToken] stores the token the
    grammar finds at that place.

    Three things a source may hold are left out because the tokenizer does not
    read them as the language has them: a string or comment that closes with the
    last character of the source, which it takes to be unclosed; an [e] and a
    sign after a number without a digit after them, which it takes into the
    number; and a radix written with 64 digits or more, or above 36, on which it
    leaves its buffers. *)
From S2P Require Import Prelude Tokenizer Lexemes.
From stdpp Require Import list.
#[local] Open Scope Z_scope.

(** ** Character classes *)

Definition in_range (lo hi c : Z) : bool := (lo <=? c) && (c <=? hi).
Definition a_digit (c : Z) : bool := in_range 48 57 c.
Definition a_letter (c : Z) : bool := in_range 65 90 c || in_range 97 122 c || (c =? chr "_").
Definition a_separator (c : Z) : bool := bool_decide (c ∈ [9; 10; 13; 32]).
Definition an_operator (c : Z) : bool := bool_decide (c ∈ bytes_of_string "!%&*+,-/<=>?@\|~").

(** The value of a digit in a base of up to 36; letters are upper case. *)
Definition value_of (c : Z) : option Z :=
  if in_range 48 57 c then Some (c - 48) else if in_range 65 90 c then Some (c - 55) else None.
Definition digit_of (base c : Z) : bool := match value_of c with Some v => v <? base | None => false end.

Definition byte_char (c : Z) : Prop := 0 < c < 256.

(** What follows does not begin with a character of the class. *)
Definition stops (p : Z -> bool) (rest : list Z) : Prop := match rest with [] => True | c :: _ => p c = false end.
Definition next_is (c : Z) (rest : list Z) : bool := match rest with [] => false | d :: _ => d =? c end.

(** ** Tokens *)

(** The tokens of one character that stand by themselves. *)
Definition punctuation : list (Z * TokenType) :=
  [(chr "[", TOKEN_OPEN_SQUARE_BRACKET); (chr "]", TOKEN_CLOSE_SQUARE_BRACKET); (chr "(", TOKEN_OPEN_BRACKET);
   (chr ")", TOKEN_CLOSE_BRACKET); (chr ".", TOKEN_DOT); (chr ";", TOKEN_SEMICOLON); (chr "^", TOKEN_RETURN)].

(** The operators that are tokens of their own when alone. *)
Definition lone : list (Z * TokenType) := [(chr "-", TOKEN_MINUS); (chr "<", TOKEN_LESS_THAN); (chr ">", TOKEN_GREATER_THAN)].

Definition digits1 (p : Z -> bool) (ds : list Z) : Prop := ds <> [] /\ Forall (fun c => p c = true) ds.

(** The fraction and the suffix of a number. *)
Definition fraction (f : list Z) : Prop := f = [] \/ exists ds, f = chr "." :: ds /\ digits1 a_digit ds.
Definition exponent (x : list Z) : Prop :=
  exists e sign ds, x = e :: sign ++ ds /\ (e = chr "e" \/ e = chr "E") /\ (sign = [] \/ sign = [chr "+"] \/ sign = [chr "-"]) /\ digits1 a_digit ds.
Definition scale (x : list Z) : Prop := exists ds, x = chr "s" :: ds /\ Forall (fun c => a_digit c = true) ds.

(** A number without a suffix ends before [rest]. *)
Definition plain_end (f rest : list Z) : Prop :=
  (f = [] -> next_is (chr "r") rest = false /\ (next_is (chr ".") rest = true -> stops a_digit (tl rest))) /\
  (next_is (chr "e") rest || next_is (chr "E") rest = true -> stops (fun c => a_digit c || (c =? chr "+") || (c =? chr "-")) (tl rest)) /\
  (next_is (chr "s") rest = true -> exists c r, tl rest = c :: r /\ a_letter c = true).

(** [token_of ty content t rest]: the text [t], with [rest] after it, is a token
    of this type and content. *)
Inductive token_of : TokenType -> list Z -> list Z -> list Z -> Prop :=
| tk_punctuation c ty rest : (c, ty) ∈ punctuation -> token_of ty [c] [c] rest
| tk_lone c ty rest : (c, ty) ∈ lone -> stops an_operator rest -> token_of ty [c] [c] rest
| tk_bar rest : next_is (chr "|") rest = false -> token_of TOKEN_VERTICAL_BAR [chr "|"] [chr "|"] rest
| tk_assign rest : token_of TOKEN_ASSIGN [chr ":"; chr "="] [chr ":"; chr "="] rest
| tk_colon rest : next_is (chr "=") rest = false -> token_of TOKEN_COLON [chr ":"] [chr ":"] rest
| tk_char c rest : token_of TOKEN_CHAR [chr "$"; c] [chr "$"; c] rest
| tk_array rest : token_of TOKEN_ARRAY_OPEN_BRACKET [chr "#"; chr "("] [chr "#"; chr "("] rest
| tk_symbol rest : next_is (chr "(") rest = false -> token_of TOKEN_SYMBOL_START [chr "#"] [chr "#"] rest
| tk_string str rest : rest <> [] -> next_is (chr "'") rest = false ->
    token_of TOKEN_STRING str (chr "'" :: double_quotes (chr "'") str ++ [chr "'"]) rest
| tk_unclosed str : token_of TOKEN_UNCLOSED_STRING str (chr "'" :: double_quotes (chr "'") str) []
| tk_number ds f rest : digits1 a_digit ds -> fraction f -> stops a_digit rest -> plain_end f rest ->
    token_of TOKEN_DIGIT (ds ++ f) (ds ++ f) rest
| tk_float ds f x rest : digits1 a_digit ds -> fraction f -> exponent x -> stops a_digit rest ->
    token_of TOKEN_DIGIT (ds ++ f ++ x) (ds ++ f ++ x) rest
| tk_scaled ds f x rest : digits1 a_digit ds -> fraction f -> scale x -> stops a_digit rest -> (x = [chr "s"] -> stops a_letter rest) ->
    token_of TOKEN_DIGIT (ds ++ f ++ x) (ds ++ f ++ x) rest
| tk_radix bs sign ds rest : digits1 a_digit bs -> (length bs < 64)%nat -> 2 <= decimal bs <= 36 -> (sign = [] \/ sign = [chr "-"]) ->
    digits1 (digit_of (decimal bs)) ds -> stops (digit_of (decimal bs)) rest ->
    token_of TOKEN_DIGIT (bs ++ chr "r" :: sign ++ ds) (bs ++ chr "r" :: sign ++ ds) rest
| tk_identifier c name rest : a_letter c = true -> Forall (fun c => a_letter c || a_digit c = true) name ->
    stops (fun c => a_letter c || a_digit c) rest -> (next_is (chr ":") rest = true -> next_is (chr "=") (tl rest) = true) ->
    token_of TOKEN_IDENTIFIER (c :: name) (c :: name) rest
| tk_keyword c name rest : a_letter c = true -> Forall (fun c => a_letter c || a_digit c = true) name -> next_is (chr "=") rest = false ->
    token_of TOKEN_KEYWORD (c :: name ++ [chr ":"]) (c :: name ++ [chr ":"]) rest
| tk_operator c op rest : an_operator c = true -> Forall (fun c => an_operator c = true) op -> stops an_operator rest ->
    (c ∈ map fst lone -> op <> []) -> (c = chr "|" -> next_is (chr "|") op = true) ->
    token_of TOKEN_SPECIAL_CHARS (c :: op) (c :: op) rest
| tk_unknown c rest : byte_char c -> a_digit c = false -> a_letter c = false -> an_operator c = false -> a_separator c = false ->
    c ∉ [34] ++ bytes_of_string "[]().:;^$#'" -> token_of TOKEN_UNKNOWN [c] [c] rest
| tk_end : token_of TOKEN_END_OF_INPUT [] [] [].

(** Separators and comments before [rest]. *)
Inductive blanks : list Z -> list Z -> Prop :=
| bl_none rest : blanks [] rest
| bl_separator c b rest : a_separator c = true -> blanks b rest -> blanks (c :: b) rest
| bl_comment str b rest : b ++ rest <> [] -> next_is dquote (b ++ rest) = false -> blanks b rest ->
    blanks (dquote :: double_quotes dquote str ++ dquote :: b) rest.

(** ** The tables hold these classes *)

Lemma byte_cases (P : Z -> bool) : forallb (fun n => P (Z.of_nat n)) (seq 0 256) = true -> forall c, 0 <= c < 256 -> P c = true.
Proof.
  intros H c Hc. rewrite forallb_forall in H. specialize (H (Z.to_nat c)). rewrite Z2Nat.id in H by lia. apply H, in_seq. lia.
Qed.

Ltac by_table :=
  let c := fresh "c" in let Hc := fresh "Hc" in
  intros c Hc; apply Bool.eqb_prop;
  match goal with |- eqb ?l ?r = true =>
    let f := eval pattern c in (eqb l r) in match f with ?g _ => apply (byte_cases g); [vm_compute; reflexivity|unfold byte_char in Hc; lia] end end.

Lemma numeric_class : forall c, byte_char c -> isNumeric c = a_digit c.
Proof. by_table. Qed.
Lemma separator_class : forall c, byte_char c -> isSeparator c = a_separator c.
Proof. by_table. Qed.
Lemma special_class : forall c, byte_char c -> isSpecial c = an_operator c.
Proof. by_table. Qed.
Lemma begining_class : forall c, byte_char c -> isIdentifierBegining c = a_letter c.
Proof. by_table. Qed.
Lemma identifier_class : forall c, byte_char c -> isIdentifier c = a_letter c || a_digit c.
Proof. by_table. Qed.

Lemma digit_class base c : byte_char c -> 2 <= base <= 36 -> isDigit c base = digit_of base c.
Proof.
  intros Hc Hb. assert (forall b, (2 <= b <= 36)%nat -> isDigit c (Z.of_nat b) = digit_of (Z.of_nat b) c) as H.
  { intros b Hb'. apply Bool.eqb_prop.
    assert (forallb (fun b => eqb (isDigit c (Z.of_nat b)) (digit_of (Z.of_nat b) c)) (seq 2 35) = true) as Hf.
    { revert Hc. generalize c. clear. intros c Hc.
      apply (byte_cases (fun c => forallb (fun b => eqb (isDigit c (Z.of_nat b)) (digit_of (Z.of_nat b) c)) (seq 2 35))); [vm_compute; reflexivity|].
      unfold byte_char in Hc. lia. }
    rewrite forallb_forall in Hf. apply Hf, in_seq. lia. }
  specialize (H (Z.to_nat base) ltac:(lia)). by rewrite Z2Nat.id in H by lia.
Qed.

(** ** The reference lexer reads the grammar *)

Section Reading.
Context (cap : nat) (Hcap : (64 <= cap)%nat).

Abbreviation bytes := (Forall byte_char).

Lemma run_class q p a rest : (forall c, byte_char c -> q c = p c) -> bytes (a ++ rest) -> Forall (fun c => p c = true) a -> stops p rest ->
  run_of q (a ++ rest) = (a, rest).
Proof.
  intros Hq Hb Ha Hs. induction a as [|c a IH]; cbn [app run_of] in *.
  - destruct rest as [|c r]; [done|]. cbn [run_of]. apply Forall_cons in Hb as [Hc _]. by rewrite Hq, Hs.
  - apply Forall_cons in Hb as [Hc Hb], Ha as [Hp Ha]. by rewrite Hq, Hp, IH.
Qed.

Lemma stop_first q p rest : (forall c, byte_char c -> q c = p c) -> q 0 = false -> bytes rest -> stops p rest -> q (first rest) = false.
Proof. intros Hq H0 Hb Hs. destruct rest as [|c r]; [done|]. apply Forall_cons in Hb as [Hc _]. cbn. by rewrite Hq. Qed.

Lemma first_next c rest : c <> 0 -> (first rest =? c) = next_is c rest.
Proof. intros Hc. destruct rest as [|d r]; [|done]. apply Z.eqb_neq. cbn. congruence. Qed.

(** The tests of [lex_token] on a first character that is none of these. *)
Ltac other c H := rewrite ?(proj2 (Z.eqb_neq c _)) by (let E := fresh in intros E; rewrite E in H; vm_compute in H; discriminate H).

Lemma lex_quoted str rest : rest <> [] -> next_is (chr "'") rest = false ->
  lex_token cap (chr "'" :: double_quotes (chr "'") str ++ [chr "'"] ++ rest) = Some (TOKEN_STRING, str, rest).
Proof.
  intros Hr Hq. unfold lex_token. eval_chars. cbn [andb app]. rewrite quoted_double.
  - by destruct rest.
  - intros E. destruct rest as [|c r]; [done|]. cbn in E, Hq. by rewrite E in Hq.
Qed.

Lemma quoted_open q str : quoted q (double_quotes q str) = (str, []).
Proof.
  unfold double_quotes. induction str as [|c str IH]; cbn [mbind list_bind app]; [done|].
  destruct (Z.eqb_spec c q) as [->|Hne]; cbn [app quoted].
  - by rewrite Z.eqb_refl, IH.
  - by rewrite (proj2 (Z.eqb_neq c q)), IH.
Qed.

Lemma lex_punctuation c ty rest : (c, ty) ∈ punctuation -> lex_token cap (c :: rest) = Some (ty, [c], rest).
Proof.
  unfold punctuation. rewrite !list.elem_of_cons, elem_of_nil.
  intros [E|[E|[E|[E|[E|[E|[E|[]]]]]]]]; injection E as -> ->; reflexivity.
Qed.

Lemma lex_lone c ty rest : (c, ty) ∈ lone -> bytes rest -> stops an_operator rest -> lex_token cap (c :: rest) = Some (ty, [c], rest).
Proof.
  intros Hc Hb Hs. pose proof (stop_first _ _ rest special_class eq_refl Hb Hs) as Hn. revert Hc. unfold lone. rewrite !list.elem_of_cons, elem_of_nil.
  intros [E|[E|[E|[]]]]; injection E as -> ->; unfold lex_token; eval_chars; cbn [andb]; rewrite Hn; reflexivity.
Qed.

Lemma lex_word_token c name rest : a_letter c = true -> bytes (c :: name ++ rest) -> Forall (fun c => a_letter c || a_digit c = true) name ->
  stops (fun c => a_letter c || a_digit c) rest ->
  lex_token cap (c :: name ++ rest) =
    if next_is (chr ":") rest && negb (next_is (chr "=") (tl rest)) then Some (TOKEN_KEYWORD, c :: name ++ [chr ":"], tl rest)
    else Some (TOKEN_IDENTIFIER, c :: name, rest).
Proof.
  intros Hc Hb Hn Hs. apply Forall_cons in Hb as [Hbc Hb]. unfold lex_token. cbn [first hd]. pose proof (begining_class c Hbc) as Hl. rewrite Hc in Hl.
  assert (isNumeric c = false) as Hd.
  { destruct (isNumeric c) eqn:E; [|done]. exfalso. rewrite numeric_class in E by done. revert Hc E. unfold a_letter, a_digit, in_range. vm_compute (chr "_").
    rewrite !orb_true_iff, !andb_true_iff, !Z.leb_le, Z.eqb_eq. lia. }
  other c Hl. cbn [andb]. rewrite Hd, Hl, (run_class _ _ name rest identifier_class Hb Hn Hs).
  unfold second. fold (first (tl rest)). by rewrite !first_next by done.
Qed.

Lemma lex_operator c op rest : an_operator c = true -> bytes (c :: op ++ rest) -> Forall (fun c => an_operator c = true) op -> stops an_operator rest ->
  (c ∈ map fst lone -> op <> []) -> (c = chr "|" -> next_is (chr "|") op = true) ->
  lex_token cap (c :: op ++ rest) = Some (TOKEN_SPECIAL_CHARS, c :: op, rest).
Proof.
  intros Hc Hb Hop Hs Hl Hbar. apply Forall_cons in Hb as [Hbc Hb]. pose proof (special_class c Hbc) as Hsp. rewrite Hc in Hsp.
  pose proof (numeric_class c Hbc) as Hd. pose proof (begining_class c Hbc) as Hi.
  assert (a_digit c = false /\ a_letter c = false) as [Hd' Hi'].
  { split; [destruct (a_digit c) eqn:E|destruct (a_letter c) eqn:E]; try done; exfalso; revert Hc E;
      unfold an_operator, a_digit, a_letter, in_range; rewrite bool_decide_eq_true; vm_compute (bytes_of_string _); vm_compute (chr "_");
      rewrite ?orb_true_iff, ?andb_true_iff, ?Z.leb_le, ?Z.eqb_eq, !list.elem_of_cons, elem_of_nil; lia. }
  rewrite Hd' in Hd. rewrite Hi' in Hi.
  assert ((c =? chr "|") && negb (first (op ++ rest) =? chr "|") = false) as Eb.
  { destruct (Z.eqb_spec c (chr "|")) as [E|]; [|done]. specialize (Hbar E). destruct op as [|d op]; [done|]. cbn in Hbar |- *. by rewrite Hbar. }
  assert (forall x ty, (x, ty) ∈ lone -> (c =? x) && negb (isSpecial (first (op ++ rest))) = false) as El.
  { intros x ty Hx. destruct (Z.eqb_spec c x) as [E|]; [|done]. subst x. destruct op as [|d op].
    - exfalso. apply Hl; [|done]. apply list_elem_of_fmap. by exists (c, ty).
    - cbn [app first hd]. apply Forall_cons in Hop as [Hd1 _]. apply Forall_cons in Hb as [Hbd _]. by rewrite special_class, Hd1. }
  unfold lex_token. cbn [first hd]. fold (first (op ++ rest)). rewrite (El (chr "-") TOKEN_MINUS), (El (chr "<") TOKEN_LESS_THAN), (El (chr ">") TOKEN_GREATER_THAN), Eb by (unfold lone; rewrite !list.elem_of_cons; auto).
  other c Hsp. cbn [andb]. rewrite Hd, Hi, Hsp, (run_class _ _ op rest special_class Hb Hop Hs). done.
Qed.

(** ** Numbers *)

Lemma lex_fraction_ok f rest : fraction f -> bytes (f ++ rest) -> stops a_digit rest ->
  (f = [] -> next_is (chr ".") rest = true -> stops a_digit (tl rest)) -> lex_fraction (f ++ rest) = (f, rest).
Proof.
  intros [->|(ds & -> & Hne & Hds)] Hb Hs Hdot; unfold lex_fraction.
  - cbn [app] in *. rewrite first_next by done. destruct (next_is (chr ".") rest); [|done]. specialize (Hdot eq_refl eq_refl).
    destruct rest as [|c r]; [done|]. apply Forall_cons in Hb as [_ Hb]. cbn [tl] in Hdot.
    unfold second. cbn [tl]. fold (first r). by rewrite (stop_first _ _ r numeric_class eq_refl Hb Hdot).
  - apply Forall_cons in Hb as [_ Hb]. fold (app ds rest) in Hb. cbn [app first hd tl]. unfold second. cbn [tl]. destruct ds as [|d ds]; [done|].
    pose proof Hds as Hds'. apply Forall_cons in Hds' as [Hd _]. pose proof Hb as Hb'. apply Forall_cons in Hb' as [Hbd _]. cbn [app hd].
    rewrite (numeric_class d Hbd), Hd. rewrite (proj2 (Z.eqb_eq _ _)) by done. cbn [andb].
    pose proof (run_class _ _ (d :: ds) rest numeric_class Hb Hds Hs) as Er. cbn [app] in Er. by rewrite Er.
Qed.

Lemma lex_number_ok ds f tail x rest : digits1 a_digit ds -> fraction f -> bytes (ds ++ f ++ tail) -> stops a_digit tail ->
  (f = [] -> next_is (chr "r") tail = false /\ (next_is (chr ".") tail = true -> stops a_digit (tl tail))) ->
  lex_suffix tail = Some (x, rest) -> lex_number cap (ds ++ f ++ tail) = Some (ds ++ f ++ x, rest).
Proof.
  intros [_ Hds] Hf Hb Hs Hplain Hx. unfold lex_number. assert (stops a_digit (f ++ tail)) as Hs'.
  { destruct Hf as [->|(fs & -> & _)]; [done|by vm_compute]. }
  rewrite (run_class _ _ ds (f ++ tail) numeric_class Hb Hds Hs'). apply Forall_app in Hb as [_ Hb].
  assert ((first (f ++ tail) =? chr "r") = false) as ->.
  { destruct Hf as [->|(fs & -> & _)]; [|done]. rewrite first_next by done. by apply Hplain. }
  rewrite lex_fraction_ok by (done || (intros ->; by apply Hplain)). by rewrite Hx.
Qed.

Lemma suffix_none f rest : bytes rest -> plain_end f rest -> lex_suffix rest = Some ([], rest).
Proof.
  intros Hb (_ & He & Hs). unfold lex_suffix. rewrite !first_next by done.
  assert (second rest = first (tl rest)) as -> by done.
  destruct (next_is (chr "e") rest || next_is (chr "E") rest) eqn:E; cbn [andb].
  - specialize (He eq_refl). assert (isNumeric (first (tl rest)) || isSign (first (tl rest)) = false) as ->.
    { destruct rest as [|c [|d r]]; [done..|]. apply Forall_cons in Hb as [_ Hb]. apply Forall_cons in Hb as [Hd _]. cbn in He |- *.
      rewrite numeric_class by done. unfold isSign. by rewrite orb_assoc. }
    cbn [andb]. destruct rest as [|c r]; [done|]. cbn [next_is] in *.
    destruct (Z.eqb_spec c (chr "s")) as [->|]; [by vm_compute in E|done].
  - destruct (next_is (chr "s") rest) eqn:E'; [|done]. destruct (Hs eq_refl) as (c & r & Et & Hl). rewrite Et. cbn [first hd].
    destruct rest as [|s0 rest]; [done|]. cbn in Et. subst rest. apply Forall_cons in Hb as [_ Hb]. apply Forall_cons in Hb as [Hc _].
    by rewrite begining_class, Hl.
Qed.

Lemma suffix_exponent x rest : exponent x -> bytes (x ++ rest) -> stops a_digit rest -> lex_suffix (x ++ rest) = Some (x, rest).
Proof.
  intros (e & sign & ds & -> & He & Hsign & Hne & Hds) Hb Hs. destruct ds as [|d ds]; [done|]. apply Forall_cons in Hds as [Hd Hds].
  apply Forall_cons in Hb as [_ Hb]. fold (app (sign ++ d :: ds) rest) in Hb. rewrite <- app_assoc in Hb. apply Forall_app in Hb as [_ Hb]. cbn [app] in Hb.
  apply Forall_cons in Hb as [Hbd Hb]. pose proof (run_class _ _ ds rest numeric_class Hb Hds Hs) as Er.
  pose proof (numeric_class d Hbd) as Hn. rewrite Hd in Hn. unfold lex_suffix. cbn [app first hd].
  assert ((e =? chr "e") || (e =? chr "E") = true) as -> by (destruct He as [-> | ->]; done).
  destruct Hsign as [->|[-> | ->]]; cbn [app second tl hd].
  - rewrite Hn. cbn [orb andb]. assert (isSign d = false) as ->.
    { unfold isSign. apply orb_false_iff. split; apply Z.eqb_neq; intros ->; by vm_compute in Hd. }
    fold (app ds rest). rewrite Er. done.
  - change (isSign (chr "+")) with true. rewrite orb_true_r. cbn [andb]. fold (app ds rest). rewrite Er. done.
  - change (isSign (chr "-")) with true. rewrite orb_true_r. cbn [andb]. fold (app ds rest). rewrite Er. done.
Qed.

Lemma suffix_scale x rest : scale x -> bytes (x ++ rest) -> stops a_digit rest -> (x = [chr "s"] -> stops a_letter rest) ->
  lex_suffix (x ++ rest) = Some (x, rest).
Proof.
  intros (ds & -> & Hds) Hb Hs Hl. apply Forall_cons in Hb as [_ Hb]. fold (app ds rest) in Hb.
  pose proof (run_class _ _ ds rest numeric_class Hb Hds Hs) as Er. unfold lex_suffix. cbn [app first hd]. eval_chars. cbn [andb orb tl]. unfold second. cbn [tl].
  assert (isIdentifierBegining (hd 0 (ds ++ rest)) = false) as ->.
  { destruct ds as [|d ds].
    - apply (stop_first _ _ rest begining_class eq_refl Hb). by apply Hl.
    - cbn [app hd]. apply Forall_cons in Hds as [Hd _], Hb as [Hbd _]. rewrite begining_class by done.
      destruct (a_letter d) eqn:E; [|done]. exfalso. revert Hd E. unfold a_letter, a_digit, in_range. vm_compute (chr "_").
      rewrite !orb_true_iff, !andb_true_iff, !Z.leb_le, Z.eqb_eq. lia. }
  cbn [negb]. fold (app ds rest). by rewrite Er.
Qed.

Lemma lex_radix_number bs sign ds rest : digits1 a_digit bs -> (length bs < 64)%nat -> 2 <= decimal bs <= 36 -> (sign = [] \/ sign = [chr "-"]) ->
  digits1 (digit_of (decimal bs)) ds -> stops (digit_of (decimal bs)) rest -> bytes (bs ++ chr "r" :: sign ++ ds ++ rest) ->
  lex_number cap (bs ++ chr "r" :: sign ++ ds ++ rest) = Some (bs ++ chr "r" :: sign ++ ds, rest).
Proof.
  intros [_ Hbs] Hl Hbase Hsign [Hne Hds] Hs Hb. unfold lex_number.
  rewrite (run_class _ _ bs _ numeric_class Hb Hbs) by (by vm_compute). cbn [first hd]. rewrite (proj2 (Z.eqb_eq _ _)) by done.
  assert ((length bs =? grown cap (length bs))%nat = false) as ->.
  { apply Nat.eqb_neq. pose proof (proj2 (grown_ge cap (length bs) ltac:(lia))). lia. }
  rewrite (proj2 (Z.leb_gt _ _)) by lia. rewrite u8_id by lia. rewrite (proj2 (Z.ltb_ge _ _)) by lia. cbn [orb tl].
  apply Forall_app in Hb as [_ Hb]. apply Forall_cons in Hb as [_ Hb]. apply Forall_app in Hb as [_ Hb].
  assert (run_of (fun c => isDigit c (decimal bs)) (ds ++ rest) = (ds, rest)) as Er by (by apply (run_class _ (digit_of (decimal bs))); [intros c Hc; by apply digit_class|..]).
  unfold lex_radix. destruct Hsign as [-> | ->]; cbn [app].
  - assert ((first (ds ++ rest) =? chr "-") = false) as ->.
    { destruct ds as [|d ds]; [done|]. apply Z.eqb_neq. cbn. intros ->. apply Forall_cons in Hds as [Hd _]. by vm_compute in Hd. }
    by rewrite Er.
  - cbn [first hd tl]. rewrite (proj2 (Z.eqb_eq (chr "-") (chr "-"))) by done. by rewrite Er.
Qed.

Lemma lex_digits ds tail : digits1 a_digit ds -> bytes (ds ++ tail) ->
  lex_token cap (ds ++ tail) = '(text, r) ← lex_number cap (ds ++ tail); Some (TOKEN_DIGIT, text, r).
Proof.
  intros [Hne Hds] Hb. destruct ds as [|c ds]; [done|]. apply Forall_cons in Hds as [Hc _], Hb as [Hbc _].
  pose proof (numeric_class c Hbc) as Hn. rewrite Hc in Hn. cbn [app]. unfold lex_token at 1. cbn [first hd]. other c Hn. cbn [andb]. by rewrite Hn.
Qed.

Lemma lex_token_grammar ty content t rest : token_of ty content t rest -> bytes (t ++ rest) -> lex_token cap (t ++ rest) = Some (ty, content, rest).
Proof.
  intros T Hb. destruct T as [c ty rest H|c ty rest H Hs|rest H|rest|rest H|c rest|rest|rest H|str rest Hr H|str|ds f rest Hd Hf Hs Hp|ds f x rest Hd Hf Hx Hs
    |ds f x rest Hd Hf Hx Hs Hl|bs sign ds rest Hbs Hlen Hbase Hsign Hds Hs|c name rest Hc Hn Hs Hk|c name rest Hc Hn Hk|c op rest Hc Ho Hs Hl Hbar|c rest Hbc H1 H2 H3 H4 H5|];
    cbn [app] in *.
  - by apply lex_punctuation.
  - apply Forall_cons in Hb as [_ Hb]. by apply lex_lone.
  - unfold lex_token. eval_chars. cbn [andb first hd]. fold (first rest). by rewrite first_next, H by done.
  - reflexivity.
  - unfold lex_token. eval_chars. cbn [andb first hd]. fold (first rest). by rewrite first_next, H by done.
  - reflexivity.
  - reflexivity.
  - unfold lex_token. eval_chars. cbn [andb first hd]. fold (first rest). by rewrite first_next, H by done.
  - rewrite <- app_assoc. by apply lex_quoted.
  - rewrite app_nil_r. unfold lex_token. eval_chars. cbn [andb]. by rewrite quoted_open.
  - rewrite <- app_assoc in *. rewrite lex_digits by done. assert (bytes rest) as Hr by (apply Forall_app in Hb as [_ Hb]; by apply Forall_app in Hb as [_ Hb]).
    rewrite (lex_number_ok ds f rest [] rest Hd Hf Hb Hs (proj1 Hp) (suffix_none f rest Hr Hp)). cbn. by rewrite app_nil_r.
  - rewrite <- !app_assoc in *. rewrite lex_digits by done. assert (bytes (x ++ rest)) as Hr by (apply Forall_app in Hb as [_ Hb]; by apply Forall_app in Hb as [_ Hb]).
    rewrite (lex_number_ok ds f (x ++ rest) x rest Hd Hf Hb); [done| | |by apply suffix_exponent];
      destruct Hx as (e & sign & es & -> & [-> | ->] & _); done.
  - rewrite <- !app_assoc in *. rewrite lex_digits by done. assert (bytes (x ++ rest)) as Hr by (apply Forall_app in Hb as [_ Hb]; by apply Forall_app in Hb as [_ Hb]).
    rewrite (lex_number_ok ds f (x ++ rest) x rest Hd Hf Hb); [done| | |by apply suffix_scale]; destruct Hx as (es & -> & _); done.
  - rewrite <- app_assoc in *. cbn [app] in *. rewrite <- app_assoc in *. rewrite lex_digits, lex_radix_number by done. done.
  - rewrite lex_word_token by done. destruct (next_is (chr ":") rest) eqn:E; [|done]. by rewrite Hk.
  - rewrite <- app_assoc in *. rewrite lex_word_token by done. cbn. by rewrite Hk.
  - by apply lex_operator.
  - unfold lex_token. cbn [first hd].
    assert (forall x, chr x ∈ [34] ++ bytes_of_string "[]().:;^$#'" -> (c =? chr x) = false) as Hx by (intros x Hx; apply Z.eqb_neq; by intros ->).
    assert (forall x, an_operator (chr x) = true -> (c =? chr x) = false) as Ho by (intros x Hx'; apply Z.eqb_neq; intros ->; congruence).
    repeat match goal with |- context [c =? chr ?x] => first [rewrite (Ho x) by done|rewrite (Hx x) by (apply (bool_decide_unpack _); vm_compute; exact I)] end. cbn [andb].
    by rewrite numeric_class, H1, begining_class, H2, special_class, H3 by done.
  - reflexivity.
Qed.

(** What a token begins with is neither a separator nor the quote of a comment. *)
Lemma token_begins ty content t rest : token_of ty content t rest -> bytes (t ++ rest) ->
  isSeparator (first (t ++ rest)) = false /\ (first (t ++ rest) =? dquote) = false.
Proof.
  intros T Hb. assert (forall c, first (t ++ rest) = c -> byte_char c -> a_separator c = false -> c <> dquote -> isSeparator (first (t ++ rest)) = false /\ (first (t ++ rest) =? dquote) = false) as Hk.
  { intros c -> Hc Hs Hq. rewrite separator_class by done. split; [done|]. by apply Z.eqb_neq. }
  assert (forall c r, t ++ rest = c :: r -> a_digit c || a_letter c || an_operator c || bool_decide (c ∈ bytes_of_string "[]().:;^$#'") = true -> isSeparator (first (t ++ rest)) = false /\ (first (t ++ rest) =? dquote) = false) as Hc.
  { intros c r E H. rewrite E in *. apply Forall_cons in Hb as [Hbc _]. apply (Hk c); [done|done| |].
    - destruct (a_separator c) eqn:Es; [|done]. unfold a_separator in Es. apply bool_decide_eq_true in Es. rewrite !list.elem_of_cons, elem_of_nil in Es.
      by destruct Es as [->|[->|[->|[->|[]]]]]; vm_compute in H.
    - intros ->. by vm_compute in H. }
  destruct T as [c ty rest H|c ty rest H Hs|rest H|rest|rest H|c rest|rest|rest H|str rest Hr H|str|ds f rest Hd Hf Hs Hp|ds f x rest Hd Hf Hx Hs
    |ds f x rest Hd Hf Hx Hs Hl|bs sign ds rest Hbs Hlen Hbase Hsign Hds Hs|c name rest Hl Hn Hs Hkw|c name rest Hl Hn Hkw|c op rest Ho Hop Hs Hl Hbar|c rest Hbc H1 H2 H3 H4 H5|].
  1,2: (eapply Hc; [reflexivity|]); revert H; unfold punctuation, lone; rewrite !list.elem_of_cons, elem_of_nil; intros H; repeat (destruct H as [[= -> _]|H]; [by vm_compute|]); done.
  1-8: (eapply Hc; [reflexivity|]); by vm_compute.
  1-3: destruct ds as [|c ds]; [by destruct Hd|]; apply (Hc c _ eq_refl); destruct Hd as [_ Hd]; apply Forall_cons in Hd as [-> _]; done.
  - destruct bs as [|c bs]; [by destruct Hbs|]. apply (Hc c _ eq_refl). destruct Hbs as [_ Hd]. by apply Forall_cons in Hd as [-> _].
  - apply (Hc c _ eq_refl). by rewrite Hl, orb_true_r.
  - apply (Hc c _ eq_refl). by rewrite Hl, orb_true_r.
  - apply (Hc c _ eq_refl). by rewrite Ho, orb_true_r.
  - apply (Hk c); [done..|]. intros ->. apply H5. by left.
  - done.
Qed.

(** ** Blanks *)

Lemma lexeme_separator f separated c s : isSeparator c = true -> lexeme (S f) cap separated (c :: s) = lexeme (S f) cap true s.
Proof.
  intros Hc. cbn [lexeme]. cbn [first hd]. rewrite Hc, orb_true_r. cbn [orb run_of]. rewrite Hc. by destruct (run_of isSeparator s).
Qed.

Lemma lexeme_comment f separated str s : s <> [] -> next_is dquote s = false ->
  lexeme (S f) cap separated (dquote :: double_quotes dquote str ++ dquote :: s) = lexeme f cap true s.
Proof.
  intros Hs Hq. cbn [lexeme run_of first hd]. change (isSeparator dquote) with false. cbn [snd first hd tl]. rewrite Z.eqb_refl, quoted_double.
  - by destruct s.
  - intros E. destruct s as [|c r]; [done|]. cbn in E, Hq. by rewrite E, Z.eqb_refl in Hq.
Qed.

Lemma lexeme_token f separated ty content t rest : token_of ty content t rest -> bytes (t ++ rest) ->
  lexeme (S f) cap separated (t ++ rest) = Done (mkLexeme ty content (t ++ rest) rest separated).
Proof.
  intros T Hb. destruct (token_begins ty content t rest T Hb) as [Hs Hq]. cbn [lexeme]. rewrite Hs, orb_false_r.
  assert (snd (run_of isSeparator (t ++ rest)) = t ++ rest) as ->.
  { destruct (t ++ rest) as [|c s]; [done|]. cbn in Hs |- *. by rewrite Hs. }
  rewrite Hq, (lex_token_grammar ty content t rest T Hb). done.
Qed.

Lemma lexeme_grammar f separated b ty content t rest : blanks b (t ++ rest) -> token_of ty content t rest -> bytes (b ++ t ++ rest) ->
  (length (b ++ t ++ rest) < f)%nat ->
  lexeme f cap separated (b ++ t ++ rest) = Done (mkLexeme ty content (t ++ rest) rest (separated || bool_decide (b <> []))).
Proof.
  intros B T. remember (t ++ rest) as s eqn:Es. revert f separated. induction B as [s|c b s Hc B IH|str b s Hne Hq B IH]; intros f separated Hb Hf.
  - destruct f as [|f]; [lia|]. cbn [app]. subst s. rewrite (lexeme_token f separated ty content t rest T Hb). by rewrite orb_false_r.
  - cbn [app] in *. apply Forall_cons in Hb as [Hbc Hb]. destruct f as [|f]; [lia|]. rewrite lexeme_separator by (by rewrite separator_class).
    rewrite IH by (done || cbn in Hf; lia). by rewrite orb_true_r.
  - destruct f as [|f]; [lia|]. cbn [app] in *. rewrite <- app_assoc in *. cbn [app] in *. rewrite lexeme_comment by done.
    apply Forall_cons in Hb as [_ Hb]. apply Forall_app in Hb as [_ Hb]. apply Forall_cons in Hb as [_ Hb].
    cbn [length] in Hf. rewrite length_app in Hf. cbn [length] in Hf. rewrite IH by (done || lia). by rewrite orb_true_r.
Qed.
End Reading.

(** C17. The tokenizer reads the lexical grammar: at every position of a source,
    when the text there is any number of separators and comments followed by a
    token of the grammar, [readToken] ends and the slot shows the token: its
    type, its content as a C string (doubled quotes reduced to one), the offset,
    line and column of its first character, and whether anything separated it
    from what came before; the cursor stands right after it, and the buffers of
    the slot and of the comment are consistent and no smaller than before.  The
    grammar leaves out strings and comments closed by the last character of the
    source, an exponent with a sign and no digit, and radixes above 36 or of 64
    digits, which the tokenizer reads otherwise. *)
Theorem readToken_reads_grammar text b t rest ty content comment tok separated :
  Forall byte_char text -> suffix (b ++ t ++ rest) text -> blanks b (t ++ rest) -> token_of ty content t rest -> token_wf comment -> token_wf tok ->
  read_ok text tok (mkLexeme ty content (t ++ rest) rest (separated || bool_decide (b <> [])))
    (readTokenInto (room (cursor_at text (b ++ t ++ rest))) (cursor_at text (b ++ t ++ rest)) comment tok separated).
Proof.
  intros Hb Hs B T Wc Wt. set (s := b ++ t ++ rest) in *.
  assert (Forall (.≠ 0) text) as Hn by (eapply list.Forall_impl; [exact Hb|]; unfold byte_char; intros; cbn; lia).
  assert (Forall byte_char s) as Hbs by (destruct Hs as [k ->]; by apply Forall_app in Hb as [_ Hb]).
  pose proof (read_lexeme text (room (cursor_at text s)) (S (length s)) s comment tok separated Hn Hs Wc Wt (room_at _ _) (Nat.lt_succ_diag_r _)) as R.
  cbn zeta in R. assert (64 <= contentSize tok)%nat as Hcap.
  { destruct Wt as (_ & _ & k & -> & _). unfold TOKEN_BUFFER_SIZE. pose proof (Nat.pow_nonzero 2 k). lia. }
  pose proof (lexeme_grammar _ Hcap (S (length s)) separated b ty content t rest B T Hbs (Nat.lt_succ_diag_r _)) as E. fold s in E. by rewrite E in R.
Qed.

(** A comment, a blank and a number of base 16 before a full stop. *)
Lemma readToken_reads_grammar_witness :
  let text := bytes_of_string "x := " ++ [dquote; 97; dquote; 32] ++ bytes_of_string "16r2F" ++ bytes_of_string "." in
  let s := [dquote; 97; dquote; 32] ++ bytes_of_string "16r2F" ++ bytes_of_string "." in
  read_ok text fresh_token (mkLexeme TOKEN_DIGIT (bytes_of_string "16r2F") (bytes_of_string "16r2F" ++ bytes_of_string ".") (bytes_of_string ".") true)
    (readTokenInto (room (cursor_at text s)) (cursor_at text s) fresh_token fresh_token false).
Proof.
  intros text s.
  refine (readToken_reads_grammar text [dquote; 97; dquote; 32] (bytes_of_string "16r2F") (bytes_of_string ".") TOKEN_DIGIT (bytes_of_string "16r2F")
    fresh_token fresh_token false _ _ _ _ fresh_token_wf fresh_token_wf).
  - vm_compute. repeat (constructor; [done|]). constructor.
  - exists (bytes_of_string "x := "). reflexivity.
  - apply (bl_comment [97] [32]); [done|done|]. apply bl_separator; [done|constructor].
  - apply (tk_radix (bytes_of_string "16") [] (bytes_of_string "2F")); [split; [done|by repeat constructor]|cbn; lia|vm_compute; split; discriminate|by left|split; [done|by repeat constructor]|done].
Defined.
