(* ===== verification/TokenStream.v ===== *)
(** * TokenStream

    The window of the tokenizer: [nextToken], [peekToken], [skipToken],
    [prevToken], [currentToken], [peekNthToken] and [peekForToken] keep the
    last [MAX_TOKENS] tokens in a ring.  Seen from the parser they are a cursor
    into the sequence of the lexemes of the source; this file states that
    abstract cursor and proves that the ring implements it. *)
From S2P Require Import Prelude Tokenizer Lexemes.
From stdpp Require Import list.
#[local] Open Scope Z_scope.

(** ** The sequence of lexemes *)

(** The text left after [k] lexemes. *)
Fixpoint after (k : nat) (s : list Z) : Run (list Z) :=
  match k with
  | O => Done s
  | S k => s ← after k s; l ← lexeme (S (length s)) TOKEN_BUFFER_SIZE false s; Done (lx_rest l)
  end.

(** Lexeme number [k] of a source. *)
Definition lexeme_no (text : list Z) (k : nat) : Run Lexeme :=
  s ← after k text; lexeme (S (length s)) TOKEN_BUFFER_SIZE false s.

(** Every lexeme can be read; [END_OF_INPUT] follows the last one for ever. *)
Definition lexable (text : list Z) : Prop := forall k, exists l, lexeme_no text k = Done l.

(** The same, decided: reading up to the end of the text succeeds. *)
Fixpoint lexes (fuel : nat) (s : list Z) : bool :=
  match fuel with
  | O => false
  | S f =>
      match lexeme (S (length s)) TOKEN_BUFFER_SIZE false s with
      | Done l => match lx_rest l with [] => true | _ => lexes f (lx_rest l) end
      | _ => false
      end
  end.

(** ** The abstract cursor

    What the parser may ask, the cursor's position [i], the number [n] of
    lexemes read so far, and the number of the lexeme each call returns
    ([None] for a NULL pointer).  An outer [None] is a call outside the
    contract: one that would need a lexeme no longer among the last
    [MAX_TOKENS]. *)
Inductive Op :=
| Current
| Prev
| Peek
| Next
| Skip (steps : Z)
| PeekNth (steps : Z)
| PeekFor (ty : TokenType).

Definition abs_op (text : list Z) (op : Op) (st : nat * nat) : option (option nat * (nat * nat)) :=
  let '(i, n) := st in
  match op with
  | Current => if (1 <=? i)%nat && (n <? i + MAX_TOKENS)%nat then Some (Some (i - 1)%nat, st) else None
  | Prev => if (2 <=? i)%nat && (n <? i - 1 + MAX_TOKENS)%nat then Some (Some (i - 2)%nat, st) else None
  | Peek => Some (Some i, (i, Nat.max n (S i)))
  | Next => Some (Some i, (S i, Nat.max n (S i)))
  | Skip z =>
      let k := Z.to_nat (- z) in
      let m := Z.to_nat z in
      if (0 <? z) && (z <? Z.of_nat MAX_TOKENS)
      then Some (Some (i + m - 1)%nat, ((i + m)%nat, Nat.max n (i + m)))
      else if (z <=? 0) && (- Z.of_nat MAX_TOKENS <? z) && (k <? i)%nat then
        if (n <? i - k + MAX_TOKENS)%nat then Some (Some (i - k - 1)%nat, ((i - k)%nat, n))
        else if (i - k + MAX_TOKENS <? n)%nat then Some (None, st)
        else None
      else None
  | PeekNth z =>
      let m := Z.to_nat z in
      if (0 <? z) && (z <? Z.of_nat MAX_TOKENS)
      then Some (Some (i + m - 1)%nat, (i, Nat.max n (i + m))) else None
  | PeekFor ty =>
      match lexeme_no text i with
      | Done l => if decide (lx_type l = ty) then Some (Some i, (S i, Nat.max n (S i)))
                  else Some (None, (i, Nat.max n (S i)))
      | _ => None
      end
  end.

(** A sequence of calls, as long as the counters stay far from overflow. *)
Fixpoint abs_ops (text : list Z) (ops : list Op) (st : nat * nat)
    : option (list (option nat) * (nat * nat)) :=
  match ops with
  | [] => Some ([], st)
  | op :: ops =>
      '(r, st) ← abs_op text op st;
      if Z.of_nat (snd st) <? 2 ^ 62 then '(rs, st) ← abs_ops text ops st; Some (r :: rs, st) else None
  end.

(** ** The calls themselves *)

Definition exec_op (op : Op) (t : Tokenizer) : Run (option nat * Tokenizer) :=
  match op with
  | Current => Done (Some (currentToken t), t)
  | Prev => Done (Some (prevToken t), t)
  | Peek => '(k, t) ← peekToken t; Done (Some k, t)
  | Next => '(k, t) ← nextToken t; Done (Some k, t)
  | Skip z => skipToken t z
  | PeekNth z => peekNthToken t z
  | PeekFor ty => peekForToken t ty
  end.

(** The token behind each pointer, at the time the call returns. *)
Fixpoint exec_ops (ops : list Op) (t : Tokenizer) : Run (list (option Token) * Tokenizer) :=
  match ops with
  | [] => Done ([], t)
  | op :: ops =>
      '(k, t) ← exec_op op t;
      '(rs, t') ← exec_ops ops t;
      Done ((k ≫= fun k => tokens t !! k) :: rs, t')
  end.

(** ** A larger buffer reads no less *)

Lemma pow_double_le j k : (2 ^ j < 2 ^ k -> 2 ^ j * 2 <= 2 ^ k)%nat.
Proof.
  intros H. assert (j < k)%nat as Hlt.
  { destruct (Nat.lt_ge_cases j k); [done|]. pose proof (Nat.pow_le_mono_r 2 k j). lia. }
  pose proof (Nat.pow_le_mono_r 2 (S j) k). rewrite Nat.pow_succ_r' in *. lia.
Qed.

Lemma grown_max k n :
  (exists j, grown TOKEN_BUFFER_SIZE n = TOKEN_BUFFER_SIZE * 2 ^ j)%nat /\
  grown (TOKEN_BUFFER_SIZE * 2 ^ k) n = Nat.max (TOKEN_BUFFER_SIZE * 2 ^ k) (grown TOKEN_BUFFER_SIZE n).
Proof.
  pose proof (Nat.pow_nonzero 2 k ltac:(lia)) as Hk. unfold TOKEN_BUFFER_SIZE.
  induction n as [|n [[j Hj] IH]].
  - split; [by exists O|]. cbn [grown]. lia.
  - cbn [grown]. rewrite IH. destruct (grown_ge 64 n) as [Hn _]; [lia|]. rewrite Hj in *.
    pose proof (pow_double_le j k). split.
    + case_bool; [exists (S j); rewrite Nat.pow_succ_r'; lia|by exists j].
    + repeat case_bool; lia.
Qed.

Definition capacity (cap : nat) : Prop := exists k, cap = (TOKEN_BUFFER_SIZE * 2 ^ k)%nat.

Lemma grown_full cap n :
  capacity cap -> (n =? grown TOKEN_BUFFER_SIZE n)%nat = false -> (n =? grown cap n)%nat = false.
Proof.
  intros [k ->] H%Nat.eqb_neq. apply Nat.eqb_neq. destruct (grown_max k n) as [_ ->].
  destruct (grown_ge TOKEN_BUFFER_SIZE n) as [? _]; [unfold TOKEN_BUFFER_SIZE|]; lia.
Qed.

Lemma capacity_ge cap : capacity cap -> (TOKEN_BUFFER_SIZE <= cap)%nat.
Proof. intros [k ->]. pose proof (Nat.pow_nonzero 2 k). nia. Qed.

Lemma lex_number_cap cap s x :
  capacity cap -> lex_number TOKEN_BUFFER_SIZE s = Some x -> lex_number cap s = Some x.
Proof.
  intros Hc. unfold lex_number. destruct (run_of isNumeric s) as [ds s1]. case_match; [|done].
  destruct (length ds =? grown TOKEN_BUFFER_SIZE (length ds))%nat eqn:E; [done|].
  by rewrite (grown_full _ _ Hc E).
Qed.

Lemma lex_token_cap cap s x :
  capacity cap -> lex_token TOKEN_BUFFER_SIZE s = Some x -> lex_token cap s = Some x.
Proof.
  intros Hc. unfold lex_token. destruct s as [|c s]; [done|].
  repeat (case_match; [done|]). case_match; [|done].
  destruct (lex_number TOKEN_BUFFER_SIZE (c :: s)) as [y|] eqn:E; [|done].
  by rewrite (lex_number_cap _ _ _ Hc E).
Qed.

Lemma lexeme_cap cap f separated s l :
  capacity cap -> lexeme f TOKEN_BUFFER_SIZE separated s = Done l -> lexeme f cap separated s = Done l.
Proof.
  intros Hc. revert separated s. induction f as [|f IH]; intros separated s; [done|].
  cbn [lexeme]. case_match.
  - destruct (quoted _ _) as [txt r]. destruct r; [|apply IH].
    pose proof (capacity_ge cap Hc). repeat case_bool; done || lia.
  - destruct (lex_token TOKEN_BUFFER_SIZE _) as [x|] eqn:E; [|done]. by rewrite (lex_token_cap _ _ _ Hc E).
Qed.

(** ** The ring *)

(** Slot [k] shows lexeme number [j]. *)
Definition slot_shows (text : list Z) (t : Tokenizer) (k j : nat) : Prop :=
  exists tok l, tokens t !! k = Some tok /\ lexeme_no text j = Done l /\ shows text l tok.

(** The tokenizer of [text] at token [i], after [n] tokens have been read. *)
Record window (text : list Z) (i n : nat) (t : Tokenizer) : Prop := {
  w_index : tokenIndex t = Z.of_nat i;
  w_count : tokenized t = Z.of_nat n;
  w_behind : (i <= n <= i + MAX_TOKENS)%nat;
  w_fits : Z.of_nat n < 2 ^ 62;
  w_source : exists s, after n text = Done s /\ suffix s text /\ source t = cursor_at text s;
  w_length : length (tokens t) = MAX_TOKENS;
  w_wf : Forall token_wf (tokens t);
  w_comment : token_wf (comment t);
  w_shows : forall j, (n - MAX_TOKENS <= j < n)%nat -> slot_shows text t (j mod MAX_TOKENS) j }.

Lemma slot_of_nat j : Z.of_nat j < 2 ^ 64 -> slot (Z.of_nat j) = (j mod MAX_TOKENS)%nat.
Proof.
  intros H. unfold slot. rewrite u64_id by lia. rewrite <- Nat2Z.inj_mod. apply Nat2Z.id.
Qed.

Lemma mod_ring j m : (j < m)%nat -> (m < j + MAX_TOKENS)%nat -> (j mod MAX_TOKENS <> m mod MAX_TOKENS)%nat.
Proof.
  unfold MAX_TOKENS. intros H1 H2 He.
  rewrite (Nat.div_mod_eq j 6), (Nat.div_mod_eq m 6) in H1, H2. rewrite He in *. lia.
Qed.

Lemma token_wf_capacity t : token_wf t -> capacity (contentSize t).
Proof. intros (_ & _ & k & Hk & _). by exists k. Qed.

(** Linear arithmetic over the size of the ring. *)
Ltac ring_lia := unfold MAX_TOKENS in *; lia.

(** Reading the next token fills the slot of the oldest one. *)
Lemma readToken_window text n t :
  Forall (.≠ 0) text -> lexable text -> Z.of_nat (S n) < 2 ^ 62 -> window text n n t ->
  exists t', readToken t (n mod MAX_TOKENS) false = Done t' /\ window text n (S n) t'.
Proof.
  intros HF HL Hfit W. destruct (w_source _ _ _ _ W) as (s & Es & Hs & Hsrc).
  destruct (HL n) as [l El]. assert (Hl := El). unfold lexeme_no in Hl. rewrite Es in Hl; cbn [mbind run_bind] in Hl.
  assert (n mod MAX_TOKENS < MAX_TOKENS)%nat as Hk by (apply Nat.mod_upper_bound; done).
  destruct (lookup_Some_lt (tokens t) (n mod MAX_TOKENS)) as [tok Etok]; [by rewrite (w_length _ _ _ _ W)|].
  assert (token_wf tok) as Hwf by (eapply Forall_lookup_1; [apply (w_wf _ _ _ _ W)|done]).
  pose proof (read_lexeme text (room (cursor_at text s)) (S (length s)) s (comment t) tok false
                HF Hs (w_comment _ _ _ _ W) Hwf (room_at _ _) (Nat.lt_succ_diag_r _)) as H.
  cbn zeta in H. rewrite (lexeme_cap _ _ _ _ l (token_wf_capacity _ Hwf) Hl) in H.
  destruct H as (cm & tok' & E & Hsh & Hsuf & Hcm & _ & Hwf' & _).
  unfold readToken. rewrite Etok. cbn [unchecked mbind run_bind]. rewrite Hsrc, E. cbn [mbind run_bind].
  eexists; split; [done|]. constructor; cbn [tokenIndex tokenized source tokens comment].
  - apply (w_index _ _ _ _ W).
  - rewrite (w_count _ _ _ _ W), u64_id by lia. lia.
  - ring_lia.
  - done.
  - exists (lx_rest l). split; [|done]. cbn [after]. rewrite Es; cbn [mbind run_bind]. by rewrite Hl.
  - by rewrite length_insert, (w_length _ _ _ _ W).
  - apply Forall_insert; [apply (w_wf _ _ _ _ W)|done].
  - done.
  - intros j Hj. unfold slot_shows; cbn [tokens]. destruct (decide (j = n)) as [->|Hne].
    + exists tok', l. split; [|done]. apply list_lookup_insert_eq. by rewrite (w_length _ _ _ _ W).
    + destruct (w_shows _ _ _ _ W j) as (u & m & ? & ? & ?); [lia|]. exists u, m. split; [|done].
      rewrite list_lookup_insert_ne; [done|]. symmetry. apply mod_ring; ring_lia.
Qed.

(** Moving the index inside the window. *)
Lemma set_tokenIndex_window text i i' n t :
  window text i n t -> (i' <= n <= i' + MAX_TOKENS)%nat ->
  window text i' n (set_tokenIndex (Z.of_nat i') t).
Proof.
  intros W H. pose proof (w_fits _ _ _ _ W). destruct W.
  constructor; cbn [tokenIndex tokenized source tokens comment set_tokenIndex]; auto.
  rewrite u64_id; lia.
Qed.

Section Window.
Context (text : list Z) (HF : Forall (.≠ 0) text) (HL : lexable text).

Lemma peekToken_window i n t :
  Z.of_nat (S i) < 2 ^ 62 -> window text i n t ->
  exists t', peekToken t = Done (i mod MAX_TOKENS, t')%nat /\ window text i (Nat.max n (S i)) t' /\
    slot_shows text t' (i mod MAX_TOKENS) i.
Proof using HF HL.
  intros Hi W. pose proof (w_behind _ _ _ _ W). pose proof (w_fits _ _ _ _ W).
  unfold peekToken. rewrite (w_index _ _ _ _ W), (w_count _ _ _ _ W), slot_of_nat by lia.
  destruct (Z.leb_spec (Z.of_nat n) (Z.of_nat i)).
  - assert (n = i) as -> by lia. destruct (readToken_window text i t) as (t' & E & W'); [done..|].
    rewrite E. cbn [mbind run_bind]. exists t'. split; [done|].
    replace (i `max` S i)%nat with (S i) by lia. split; [done|].
    apply (w_shows _ _ _ _ W'). ring_lia.
  - exists t. split; [done|]. replace (n `max` S i)%nat with n by lia. split; [done|].
    apply (w_shows _ _ _ _ W). ring_lia.
Qed.

Lemma slot_shows_index k j z t : slot_shows text t k j -> slot_shows text (set_tokenIndex z t) k j.
Proof. done. Qed.

Lemma nextToken_window i n t :
  Z.of_nat (S i) < 2 ^ 62 -> window text i n t ->
  exists t', nextToken t = Done (i mod MAX_TOKENS, t')%nat /\ window text (S i) (Nat.max n (S i)) t' /\
    slot_shows text t' (i mod MAX_TOKENS) i.
Proof using HF HL.
  intros Hi W. destruct (peekToken_window i n t Hi W) as (t' & E & W' & Hs).
  unfold nextToken. rewrite E. cbn [mbind run_bind]. eexists; split; [done|].
  rewrite (w_index _ _ _ _ W'). replace (Z.of_nat i + 1) with (Z.of_nat (S i)) by lia.
  split; [|done]. apply (set_tokenIndex_window _ i); [done|]. pose proof (w_behind _ _ _ _ W). ring_lia.
Qed.

Lemma next_times_window m k i n t :
  Z.of_nat (i + m) < 2 ^ 62 -> window text i n t -> (0 < m)%nat ->
  exists t', next_times m k t = Done (Some ((i + m - 1) mod MAX_TOKENS)%nat, t') /\
    window text (i + m) (Nat.max n (i + m)) t' /\
    slot_shows text t' ((i + m - 1) mod MAX_TOKENS) (i + m - 1).
Proof using HF HL.
  revert k i n t. induction m as [|m IH]; intros k i n t Hi W Hm; [lia|].
  cbn [next_times]. destruct (nextToken_window i n t) as (t' & E & W' & Hs); [lia|done|].
  rewrite E. cbn [mbind run_bind]. destruct m as [|m].
  - exists t'. replace (i + 1 - 1)%nat with i by lia. by rewrite Nat.add_1_r.
  - destruct (IH (Some (i mod MAX_TOKENS)%nat) (S i) (n `max` S i)%nat t') as (t2 & E2 & W2 & H2); [lia|done|lia|].
    exists t2. replace (i + S (S m))%nat with (S i + S m)%nat by lia. split; [done|]. split; [|done].
    by replace (n `max` (S i + S m))%nat with ((n `max` S i) `max` (S i + S m))%nat by lia.
Qed.

(** Skipping back: the index moves unless the slot's age rules it out. *)
Lemma skipToken_back i n t k :
  (k < MAX_TOKENS)%nat -> (k <= i)%nat -> window text i n t ->
  skipToken t (- Z.of_nat k) =
  if (n <=? i - k + MAX_TOKENS)%nat
  then Done (Some (slot (Z.of_nat (i - k) - 1)), set_tokenIndex (Z.of_nat (i - k)) t)
  else Done (None, t).
Proof.
  intros Hk Hki W. pose proof (w_behind _ _ _ _ W). pose proof (w_fits _ _ _ _ W).
  unfold skipToken, ASSERT, MAX_TOKENS in *.
  replace (- Z.of_nat k <? Z.of_nat 6) with true by (symmetry; apply Z.ltb_lt; lia).
  replace (- Z.of_nat 6 <? - Z.of_nat k) with true by (symmetry; apply Z.ltb_lt; lia).
  cbn [andb unchecked mbind run_bind].
  replace (0 <? - Z.of_nat k) with false by (symmetry; apply Z.ltb_ge; lia).
  rewrite (w_index _ _ _ _ W), (w_count _ _ _ _ W), !i64_id by lia.
  cbn [tokenIndex set_tokenIndex].
  replace (Z.of_nat i + - Z.of_nat k) with (Z.of_nat (i - k)) by lia.
  replace (Z.of_nat n - Z.of_nat 6 <=? Z.of_nat (i - k)) with (n <=? i - k + 6)%nat
    by (repeat case_bool; done || lia).
  by rewrite u64_id by lia.
Qed.

(** The pointer [k] returned for lexeme number [j]. *)
Definition points (t : Tokenizer) (k j : option nat) : Prop :=
  match j with
  | Some j => exists k', k = Some k' /\ slot_shows text t k' j
  | None => k = None
  end.

Lemma slot_pred i d n t :
  (0 < d <= i)%nat -> (n < i - d + 1 + MAX_TOKENS)%nat -> window text i n t ->
  slot_shows text t (slot (Z.of_nat i - Z.of_nat d)) (i - d).
Proof.
  intros Hd Hn W. pose proof (w_fits _ _ _ _ W). pose proof (w_behind _ _ _ _ W).
  replace (Z.of_nat i - Z.of_nat d) with (Z.of_nat (i - d)) by lia.
  rewrite slot_of_nat by lia. apply (w_shows _ _ _ _ W). ring_lia.
Qed.

Lemma skipToken_forward m i n t :
  (0 < m < MAX_TOKENS)%nat -> Z.of_nat (i + m) < 2 ^ 62 -> window text i n t ->
  exists t', skipToken t (Z.of_nat m) = Done (Some ((i + m - 1) mod MAX_TOKENS)%nat, t') /\
    window text (i + m) (Nat.max n (i + m)) t' /\
    slot_shows text t' ((i + m - 1) mod MAX_TOKENS) (i + m - 1).
Proof using HF HL.
  intros Hm Hi W. unfold skipToken, ASSERT.
  rewrite (proj2 (Z.ltb_lt (Z.of_nat m) _)) by ring_lia.
  rewrite (proj2 (Z.ltb_lt (- _) _)) by ring_lia.
  cbn [andb unchecked mbind run_bind]. rewrite (proj2 (Z.ltb_lt 0 _)) by lia.
  rewrite Nat2Z.id. apply (next_times_window m); lia || done.
Qed.

Lemma peekNthToken_window m i n t :
  (0 < m < MAX_TOKENS)%nat -> Z.of_nat (Nat.max n (i + m)) < 2 ^ 62 -> window text i n t ->
  exists t', peekNthToken t (Z.of_nat m) = Done (Some ((i + m - 1) mod MAX_TOKENS)%nat, t') /\
    window text i (Nat.max n (i + m)) t' /\
    slot_shows text t' ((i + m - 1) mod MAX_TOKENS) (i + m - 1).
Proof using HF HL.
  intros Hm Hi W. pose proof (w_behind _ _ _ _ W).
  destruct (skipToken_forward m i n t) as (t1 & E1 & W1 & S1); [done|lia|done|].
  unfold peekNthToken. rewrite E1. cbn [mbind run_bind].
  rewrite (skipToken_back (i + m) (n `max` (i + m)) t1 m) by (ring_lia || done).
  replace (i + m - m)%nat with i by lia.
  rewrite (proj2 (Nat.leb_le _ _)) by ring_lia. cbn [mbind run_bind].
  eexists; split; [done|]. split; [|done]. apply (set_tokenIndex_window _ (i + m)); [done|ring_lia].
Qed.

Lemma peekForToken_window ty i n t l :
  Z.of_nat (S i) < 2 ^ 62 -> window text i n t -> lexeme_no text i = Done l ->
  exists k t', peekForToken t ty = Done (k, t') /\
    window text (if decide (lx_type l = ty) then S i else i) (Nat.max n (S i)) t' /\
    points t' k (if decide (lx_type l = ty) then Some i else None).
Proof using HF HL.
  intros Hi W El. destruct (peekToken_window i n t Hi W) as (t1 & E1 & W1 & S1).
  pose proof (w_behind _ _ _ _ W).
  destruct S1 as (tok & l' & Etok & El' & Hsh). rewrite El in El'. injection El' as <-.
  unfold peekForToken. rewrite E1. cbn [mbind run_bind]. rewrite Etok. cbn [unchecked mbind run_bind].
  rewrite (proj1 Hsh). destruct (decide (lx_type l = ty)).
  - eexists _, _. split; [done|]. rewrite (w_index _ _ _ _ W1).
    replace (Z.of_nat i + 1) with (Z.of_nat (S i)) by lia. split.
    + apply (set_tokenIndex_window _ i); [done|ring_lia].
    + eexists; split; [done|]. by exists tok, l.
  - by eexists _, _.
Qed.

Lemma op_window op i n t r st :
  window text i n t -> abs_op text op (i, n) = Some (r, st) -> Z.of_nat (snd st) < 2 ^ 62 ->
  exists k t', exec_op op t = Done (k, t') /\ window text (fst st) (snd st) t' /\ points t' k r.
Proof using HF HL.
  intros W Ha Hfit. pose proof (w_behind _ _ _ _ W). destruct op; cbn [exec_op abs_op] in *.
  - destruct (_ && _) eqn:E in Ha; [|done]. apply andb_prop in E as [E1%Nat.leb_le E2%Nat.ltb_lt].
    injection Ha as <- <-. eexists _, _. split; [done|]. split; [done|]. eexists; split; [done|].
    unfold currentToken. rewrite (w_index _ _ _ _ W). apply (slot_pred i 1 n); ring_lia || done.
  - destruct (_ && _) eqn:E in Ha; [|done]. apply andb_prop in E as [E1%Nat.leb_le E2%Nat.ltb_lt].
    injection Ha as <- <-. eexists _, _. split; [done|]. split; [done|]. eexists; split; [done|].
    unfold prevToken. rewrite (w_index _ _ _ _ W). apply (slot_pred i 2 n); ring_lia || done.
  - injection Ha as <- <-. cbn [fst snd] in *.
    destruct (peekToken_window i n t) as (t' & E & W' & Hs); [lia|done|]. rewrite E.
    eexists _, _. split; [done|]. split; [done|]. by eexists.
  - injection Ha as <- <-. cbn [fst snd] in *.
    destruct (nextToken_window i n t) as (t' & E & W' & Hs); [lia|done|]. rewrite E.
    eexists _, _. split; [done|]. split; [done|]. by eexists.
  - destruct ((0 <? steps) && (steps <? Z.of_nat MAX_TOKENS)) eqn:E.
    + apply andb_prop in E as [E1%Z.ltb_lt E2%Z.ltb_lt]. injection Ha as <- <-. cbn [fst snd] in *.
      destruct (skipToken_forward (Z.to_nat steps) i n t) as (t' & E & W' & Hs); [ring_lia|lia|done|].
      rewrite Z2Nat.id in E by lia. rewrite E.
      eexists _, _. split; [done|]. split; [done|]. by eexists.
    + destruct (_ && _ && _) eqn:E' in Ha; [|done].
      apply andb_prop in E' as [[E1%Z.leb_le E2%Z.ltb_lt]%andb_prop E3%Nat.ltb_lt].
      assert (steps = - Z.of_nat (Z.to_nat (- steps))) as Hst by lia.
      rewrite Hst, (skipToken_back i n t) by (ring_lia || done).
      destruct (Nat.ltb_spec n (i - Z.to_nat (- steps) + MAX_TOKENS)).
      * injection Ha as <- <-. cbn [fst snd] in *. rewrite (proj2 (Nat.leb_le _ _)) by lia.
        assert (window text (i - Z.to_nat (- steps)) n
                  (set_tokenIndex (Z.of_nat (i - Z.to_nat (- steps))) t)) as W'
          by (apply (set_tokenIndex_window _ i); [done|ring_lia]).
        eexists _, _. split; [done|]. split; [done|]. eexists; split; [done|].
        apply (slot_pred (i - Z.to_nat (- steps)) 1 n); [lia|lia|done].
      * destruct (Nat.ltb_spec (i - Z.to_nat (- steps) + MAX_TOKENS) n); [|done].
        injection Ha as <- <-. rewrite (proj2 (Nat.leb_gt _ _)) by lia.
        eexists _, _. done.
  - destruct (_ && _) eqn:E in Ha; [|done]. apply andb_prop in E as [E1%Z.ltb_lt E2%Z.ltb_lt].
    injection Ha as <- <-. cbn [fst snd] in *.
    destruct (peekNthToken_window (Z.to_nat steps) i n t) as (t' & E & W' & Hs); [ring_lia|lia|done|].
    rewrite Z2Nat.id in E by lia. rewrite E.
    eexists _, _. split; [done|]. split; [done|]. by eexists.
  - destruct (lexeme_no text i) as [l| |] eqn:El; [|done..].
    assert (snd st = n `max` S i)%nat as Hn by (by case_decide; injection Ha as <- <-).
    destruct (peekForToken_window ty i n t l) as (k & t' & E & W' & Hp); [lia|done|done|].
    exists k, t'. split; [done|]. by case_decide; injection Ha as <- <-.
Qed.

(** The token behind a returned pointer shows the lexeme the cursor returns. *)
Definition agrees (tok : option Token) (j : option nat) : Prop :=
  match tok, j with
  | Some tok, Some j => exists l, lexeme_no text j = Done l /\ shows text l tok
  | None, None => True
  | _, _ => False
  end.

Lemma ops_window ops i n t rs st :
  window text i n t -> abs_ops text ops (i, n) = Some (rs, st) ->
  exists toks t', exec_ops ops t = Done (toks, t') /\ window text (fst st) (snd st) t' /\
    Forall2 agrees toks rs.
Proof using HF HL.
  revert i n t rs. induction ops as [|op ops IH]; intros i n t rs W Ha; cbn [abs_ops exec_ops] in *.
  - injection Ha as <- <-. eexists _, _. split; [done|]. split; [done|constructor].
  - destruct (abs_op text op (i, n)) as [[r [i1 n1]]|] eqn:E1; [|done]. cbn [mbind option_bind] in Ha.
    destruct (Z.ltb_spec (Z.of_nat (snd (i1, n1))) (2 ^ 62)) as [Hfit|]; [|done].
    destruct (abs_ops text ops (i1, n1)) as [[rs' st']|] eqn:E2; [|done]. injection Ha as <- <-.
    destruct (op_window op i n t r (i1, n1) W E1 Hfit) as (k & t1 & Ek & W1 & Hp).
    destruct (IH i1 n1 t1 rs' W1 E2) as (toks & t2 & Et & W2 & HA).
    rewrite Ek. cbn [mbind run_bind]. rewrite Et. cbn [mbind run_bind].
    eexists _, _. split; [done|]. split; [done|]. constructor; [|done].
    destruct r as [j|]; cbn [points] in Hp; [|by subst k].
    destruct Hp as (k' & -> & tok & l & Etok & El & Hsh). cbn [mbind option_bind]. rewrite Etok.
    by exists l.
Qed.
End Window.

(** ** Initialisation *)

(** The storage of a tokenizer before it is initialised. *)
Definition storage (t : Tokenizer) : Prop :=
  length (tokens t) = MAX_TOKENS /\
  Forall (fun tok => length (buffer tok) = TOKEN_BUFFER_SIZE) (tokens t) /\
  length (buffer (comment t)) = TOKEN_BUFFER_SIZE.

Lemma initToken_wf tok : length (buffer tok) = TOKEN_BUFFER_SIZE -> token_wf (initToken tok).
Proof. intros H. split; [done|]. split; [done|]. exists O. done. Qed.

Lemma first_nextChar text c0 :
  nextChar (mkCursor (text ++ [0]) 0 c0 1 1) = Done (cursor_at text text).
Proof.
  unfold nextChar, cursor_at, cursor. rewrite Nat.sub_diag, take_0.
  cbn [memory current cline ccolumn app length].
  assert ((text ++ [0]) !! 0%nat = Some (first text)) as -> by by destruct text.
  cbn [unchecked mbind run_bind]. unfold place, advance. cbn [fold_left fst snd]. by case_bool.
Qed.

Lemma initTokenizer_window text t :
  Forall (.≠ 0) text -> lexable text -> storage t ->
  exists t', initTokenizer t (text ++ [0]) = Done t' /\ window text 1 1 t'.
Proof.
  intros HF HL (Hl & Hb & Hc). unfold initTokenizer, initBaseTokenizer. cbn [source tokens comment].
  rewrite first_nextChar. cbn [mbind run_bind tokenIndex tokenized].
  destruct (nextToken_window text HF HL 0 0
    (mkTokenizer (cursor_at text text) (initToken <$> tokens t) 0 0 (initToken (comment t))))
    as (t' & E & W & _).
  - lia.
  - constructor; cbn [tokenIndex tokenized source tokens comment]; try done; try lia.
    + by exists text.
    + by rewrite length_fmap.
    + apply Forall_fmap. eapply Forall_impl; [exact Hb|]. apply initToken_wf.
    + by apply initToken_wf.
  - rewrite E. by exists t'.
Qed.

(** What freeTokenizer releases: exactly the blocks that were allocated. *)
Definition block (t : Token) : list (list (option Z)) := match heap t with Some b => [b] | None => [] end.

Lemma freeToken_block t : token_wf t -> freeToken t = block t.
Proof.
  intros (_ & _ & k & Hk & Hh). unfold freeToken, block, content.
  destruct (heap t) as [b|] eqn:E.
  - assert (k <> O) as Hk0 by (intros H0; by apply Hh in H0).
    destruct k as [|k]; [done|]. rewrite Hk, Nat.pow_succ_r'. pose proof (Nat.pow_nonzero 2 k).
    rewrite (proj2 (Nat.ltb_lt _ _)) by (unfold TOKEN_BUFFER_SIZE; lia). done.
  - rewrite (proj1 Hh eq_refl) in Hk. by rewrite Hk.
Qed.

Lemma freeTokenizer_blocks text i n t :
  window text i n t -> freeTokenizer t = (tokens t ≫= block) ++ block (comment t).
Proof.
  intros W. unfold freeTokenizer. rewrite (freeToken_block _ (w_comment _ _ _ _ W)). f_equal.
  pose proof (w_wf _ _ _ _ W) as HW. induction HW as [|tok toks Ht _ IH]; [done|].
  cbn [mbind list_bind]. by rewrite (freeToken_block _ Ht), IH.
Qed.

(** ** The theorems *)

(** C18. A tokenizer on a source is a cursor into the sequence of its lexemes:
    after initTokenizer, any sequence of calls of currentToken, prevToken,
    peekToken, nextToken, skipToken, peekNthToken and peekForToken that stays
    within the contract of the abstract cursor terminates without leaving a
    buffer, and each pointer returned holds, when the call returns, the token
    of the lexeme the abstract cursor names (NULL where it names none).
    freeTokenizer then frees exactly the blocks that were allocated. *)
Theorem tokenizer_is_cursor text t ops rs st :
  Forall (.≠ 0) text -> lexable text -> storage t ->
  abs_ops text ops (1, 1)%nat = Some (rs, st) ->
  exists t0 toks t',
    initTokenizer t (text ++ [0]) = Done t0 /\ exec_ops ops t0 = Done (toks, t') /\
    Forall2 (agrees text) toks rs /\
    freeTokenizer t' = (tokens t' ≫= block) ++ block (comment t').
Proof.
  intros HF HL Hst Ha. destruct (initTokenizer_window text t HF HL Hst) as (t0 & E0 & W0).
  destruct (ops_window text HF HL ops 1 1 t0 rs st W0 Ha) as (toks & t' & Et & W' & HA).
  exists t0, toks, t'. repeat split; try done. by eapply freeTokenizer_blocks.
Qed.

(** The bound skipToken checks when it steps back admits one position too
    many: where the position asked for is exactly [MAX_TOKENS] behind the
    tokens read, it returns a pointer whose slot holds the newest lexeme read
    instead of the one before that position. *)
Theorem skipToken_edge text i n t k :
  window text i n t -> (k < MAX_TOKENS)%nat -> (0 < i - k)%nat -> n = (i - k + MAX_TOKENS)%nat ->
  exists s t', skipToken t (- Z.of_nat k) = Done (Some s, t') /\ slot_shows text t' s (n - 1).
Proof.
  intros W Hk Hi Hn. pose proof (w_fits _ _ _ _ W).
  rewrite (skipToken_back text i n t k) by (lia || done).
  rewrite (proj2 (Nat.leb_le _ _)) by lia.
  eexists _, _. split; [done|]. apply slot_shows_index.
  replace (Z.of_nat (i - k) - 1) with (Z.of_nat (i - k - 1)) by lia. rewrite slot_of_nat by ring_lia.
  replace ((i - k - 1) mod MAX_TOKENS)%nat with ((n - 1) mod MAX_TOKENS)%nat.
  - apply (w_shows _ _ _ _ W). ring_lia.
  - replace (n - 1)%nat with (i - k - 1 + 1 * MAX_TOKENS)%nat by lia. apply Nat.Div0.mod_add.
Qed.

(** ** Deciding lexability, and the witnesses *)

Lemma lexeme_end f : lexeme (S f) TOKEN_BUFFER_SIZE false [] =
  Done (mkLexeme TOKEN_END_OF_INPUT [] [] [] false).
Proof. reflexivity. Qed.

Lemma after_plus a b s : after (a + b) s = (r ← after b s; after a r).
Proof.
  induction a as [|a IH]; cbn [after Nat.add]; [by destruct (after b s)|].
  rewrite IH. by destruct (after b s).
Qed.

Lemma lexes_lexable f text : lexes f text = true -> lexable text.
Proof.
  revert text. induction f as [|f IH]; intros s; [done|]. cbn [lexes].
  destruct (lexeme (S (length s)) TOKEN_BUFFER_SIZE false s) as [l| |] eqn:E; [|done..]. intros H k.
  destruct k as [|k]; [exists l; unfold lexeme_no; cbn [after mbind run_bind]; done|].
  assert (lexable (lx_rest l)) as HL.
  { destruct (lx_rest l) as [|c r] eqn:Er; [|by apply IH].
    assert (forall k, after k [] = Done []) as Hend.
    { intros j. induction j as [|j IHj]; [done|]. cbn [after]. by rewrite IHj. }
    intros j. unfold lexeme_no. rewrite Hend. eexists; cbn [mbind run_bind]. apply lexeme_end. }
  destruct (HL k) as [l' El]. exists l'. rewrite <- El. unfold lexeme_no.
  replace (S k) with (k + 1)%nat by lia. rewrite after_plus. cbn [after mbind run_bind]. by rewrite E.
Qed.

Definition blank : Tokenizer :=
  mkTokenizer (mkCursor [] 0 0 0 0) (replicate MAX_TOKENS fresh_token) 0 0 fresh_token.

Lemma blank_storage : storage blank.
Proof. split; [done|]. split; [|done]. repeat (constructor; [done|]). constructor. Qed.

Definition sample : list Z := bytes_of_string "a foo: 12 bar. ^'x'; $c".

Lemma sample_chars : Forall (.≠ 0) sample.
Proof. vm_compute. repeat (constructor; [done|]). constructor. Qed.

Lemma sample_lexable : lexable sample.
Proof. apply (lexes_lexable 30). vm_compute. reflexivity. Qed.

Definition sample_ops : list Op :=
  [Current; Next; PeekNth 3; Prev; Skip 4; Skip (-2); PeekFor TOKEN_RETURN; PeekFor TOKEN_DOT; Peek].

Lemma tokenizer_is_cursor_witness :
  exists t0 toks t',
    initTokenizer blank (sample ++ [0]) = Done t0 /\ exec_ops sample_ops t0 = Done (toks, t') /\
    Forall2 (agrees sample) toks
      [Some 0; Some 1; Some 4; Some 0; Some 5; Some 3; None; Some 4; Some 5]%nat /\
    freeTokenizer t' = (tokens t' ≫= block) ++ block (comment t').
Proof.
  apply (tokenizer_is_cursor sample blank sample_ops _ (5, 6)%nat sample_chars sample_lexable blank_storage).
  vm_compute. reflexivity.
Defined.

(** The state of the edge: seven tokens read, the index at the sixth. *)
Lemma edge_window : exists t, window sample 6 7 t.
Proof.
  destruct (initTokenizer_window sample blank sample_chars sample_lexable blank_storage) as (t0 & _ & W0).
  destruct (ops_window sample sample_chars sample_lexable [Skip 5; Peek] 1 1 t0
              [Some 5; Some 6]%nat (6, 7)%nat W0) as (_ & t & _ & W & _); [vm_compute; reflexivity|].
  by exists t.
Qed.

Lemma skipToken_edge_witness :
  exists t s t', window sample 6 7 t /\
    skipToken t (-5) = Done (Some s, t') /\ slot_shows sample t' s 6.
Proof.
  destruct edge_window as [t W].
  destruct (skipToken_edge sample 6 7 t 5 W) as (s & t' & H); [unfold MAX_TOKENS; lia..|].
  exists t, s, t'. exact (conj W H).
Defined.

(** Sources on which the tokenizer runs past the terminator: a [$] or the sign
    of an exponent at the end of the source, and a base above 36. *)
Lemma source_overruns :
  initTokenizer blank (bytes_of_string "$" ++ [0]) = Fault /\
  initTokenizer blank (bytes_of_string "1e+" ++ [0]) = Fault /\
  initTokenizer blank (bytes_of_string "37r10 printNl." ++ [0]) = Fault.
Proof. vm_compute. done. Qed.

(** Tokens that run past their own buffer: 64 digits before the [r] of a base,
    and an unclosed comment longer than the slot. *)
Lemma buffer_overruns :
  initTokenizer blank (replicate 64 48 ++ bytes_of_string "r1 " ++ [0]) = Fault /\
  initTokenizer blank (dquote :: replicate 65 120 ++ [0]) = Fault.
Proof. vm_compute. done. Qed.
