(* ===== verification/RegisterAllocator.v ===== *)
(** * RegisterAllocator

    The linear-scan register allocator (src/vm/jit/RegisterAllocator.c): the
    scan of the bytecodes that computes the live ranges, the scan of the
    ranges that hands out the registers, and the frame layout.

    A [Variable *] is an index into [alloc->vars]; [NULL] is [None].  The
    worklist and the register pool are the arrays of the source with their
    cursors as indices.  The bytecodes are read with the iterator of the
    bytecode format. *)
From S2P Require Import Prelude Endian Bytecodes.
From stdpp Require Import list sorting.
#[local] Open Scope Z_scope.

(** ** Data *)

Definition SPILLED_REG : Z := -1.
Definition CONTEXT_INDEX : nat := 0.
Definition SELF_INDEX : nat := 1.
Definition SUPER_INDEX : nat := 1.

Inductive VariableType := VAR_CONTEXT | VAR_ASSOC | VAR_TMP.

Definition VAR_DEFINED : Z := 1.
Definition VAR_IN_REG : Z := 2.
Definition VAR_ON_STACK : Z := 4.

Record Variable_ := mkVariable {
  v_index : Z;
  v_flags : Z;
  v_reg : Z;
  v_start : Z;
  v_end : Z;
  v_gcEnd : Z;
  v_frameOffset : Z }.

(** A variable of the cleared array. *)
Definition cleared : Variable_ := mkVariable 0 0 0 0 0 0 0.

Definition REGS_ALLOC_CONTEXT_LEVELS : nat := 256.
Definition UINT16_MAX : Z := 65535.

(** The backend's registers: the pool, and the register of the context. *)
Record Backend := mkBackend { available : list Z; CTX : Z }.

(** R11, R13, R14, R15, RBX, R9, R8, RCX, RDX; R12. *)
Definition X64AvailableRegs : Backend := mkBackend [11; 13; 14; 15; 3; 9; 8; 1; 2] 12.

(** R16 to R24 and R9; R30. *)
Definition Ppc64AvailableRegs : Backend := mkBackend [16; 17; 18; 19; 20; 21; 22; 23; 24; 9] 30.

(** What the allocator uses of a CompiledCode; the sizes are bytes of its
    header. *)
Record CompiledCode := mkCode {
  argsSize : nat;
  tempsSize : nat;
  literalsCount : nat;
  code_bytes : list Z }.

Record Vars := mkVars {
  varsSize : nat;
  capacity : nat;
  vars : list Variable_;
  contexts : list (option nat);   (* specialVars[VAR_CONTEXT] *)
  assocs : list (option nat);     (* specialVars[VAR_ASSOC] *)
  order : list nat;
  maxOffset : Z;
  frameLess : bool;
  frameSize : Z }.

Definition set_vars (l : list Variable_) (s : Vars) : Vars :=
  mkVars (varsSize s) (capacity s) l (contexts s) (assocs s) (order s) (maxOffset s) (frameLess s) (frameSize s).

Definition set_frameLess (b : bool) (s : Vars) : Vars :=
  mkVars (varsSize s) (capacity s) (vars s) (contexts s) (assocs s) (order s) (maxOffset s) b (frameSize s).

Definition set_frameSize (z : Z) (s : Vars) : Vars :=
  mkVars (varsSize s) (capacity s) (vars s) (contexts s) (assocs s) (order s) (maxOffset s) (frameLess s) z.

Definition set_varsSize (n : nat) (s : Vars) : Vars :=
  mkVars n (capacity s) (vars s) (contexts s) (assocs s) (order s) (maxOffset s) (frameLess s) (frameSize s).

(** [if (offset > vars->maxOffset) vars->maxOffset = offset;] *)
Definition noteOffset (offset : Z) (s : Vars) : Vars :=
  mkVars (varsSize s) (capacity s) (vars s) (contexts s) (assocs s) (order s)
    (if maxOffset s <? offset then offset else maxOffset s) (frameLess s) (frameSize s).

(** ** Live ranges *)

(** [var->end = offset; if (offset > var->gcEnd) var->gcEnd = offset;] *)
Definition extend (offset : Z) (v : Variable_) : Variable_ :=
  mkVariable (v_index v) (v_flags v) (v_reg v) (v_start v) offset
    (if v_gcEnd v <? offset then offset else v_gcEnd v) (v_frameOffset v).

(** Applies [f] to the variable [i] of the array. *)
Definition update (i : nat) (f : Variable_ -> Variable_) (s : Vars) : option Vars :=
  v ← vars s !! i;
  Some (set_vars (<[i := f v]> (vars s)) s).

Definition defineVar (s : Vars) (type : VariableType) (index : nat) (offset : Z) : option Vars :=
  _ ← ASSERT (index <? capacity s)%nat;
  v ← vars s !! index;
  let framed := match type with VAR_ASSOC => false | _ => true end in
  let v := mkVariable (u16 (Z.of_nat index)) VAR_DEFINED SPILLED_REG offset offset offset
             (if framed then frameSize s else v_frameOffset v) in
  _ ← ASSERT (length (order s) <? capacity s)%nat;
  Some (mkVars (varsSize s) (capacity s) (<[index := v]> (vars s)) (contexts s) (assocs s)
          (order s ++ [index]) (maxOffset s) (frameLess s)
          (if framed then frameSize s - 1 else frameSize s)).

Definition defineTmpVar (s : Vars) (index : nat) (offset : Z) : option Vars :=
  v ← vars s !! index;
  s ← (if Z.land (v_flags v) VAR_DEFINED =? 0 then defineVar s VAR_TMP index offset
       else update index (extend offset) s);
  Some (noteOffset offset s).

Definition specialVars (s : Vars) (type : VariableType) : list (option nat) :=
  match type with VAR_CONTEXT => contexts s | _ => assocs s end.

Definition set_special (s : Vars) (type : VariableType) (index : nat) (i : nat) : option Vars :=
  row ← put (specialVars s type) index (Some i);
  Some (match type with
        | VAR_CONTEXT => mkVars (varsSize s) (capacity s) (vars s) row (assocs s) (order s)
                           (maxOffset s) (frameLess s) (frameSize s)
        | _ => mkVars (varsSize s) (capacity s) (vars s) (contexts s) row (order s)
                 (maxOffset s) (frameLess s) (frameSize s)
        end).

Definition defineSpecialVar (s : Vars) (type : VariableType) (index : nat) (offset : Z) : option Vars :=
  entry ← specialVars s type !! index;
  s ← match entry with
      | None =>
          s ← match type with
              | VAR_CONTEXT => update CONTEXT_INDEX (extend offset) s
              | _ => Some s
              end;
          let i := varsSize s in
          s ← defineVar (set_varsSize (S i) s) type i offset;
          set_special s type index i
      | Some i => update i (extend offset) s
      end;
  Some (noteOffset offset s).

Definition examineOperand (s : Vars) (operand : Operand) (offset : Z) : option Vars :=
  match Bytecodes.type operand with
  | OPERAND_TEMP_VAR | OPERAND_ARG_VAR => defineTmpVar s (Z.to_nat (index operand)) offset
  | OPERAND_SUPER => defineTmpVar s SUPER_INDEX offset
  | OPERAND_CONTEXT_VAR =>
      defineSpecialVar (set_frameLess false s) VAR_CONTEXT (Z.to_nat (level operand)) offset
  | OPERAND_ASSOC => defineSpecialVar s VAR_ASSOC (Z.to_nat (index operand)) offset
  | OPERAND_BLOCK =>
      s ← defineTmpVar (set_frameLess false s) SELF_INDEX offset;
      defineSpecialVar s VAR_CONTEXT 0 offset
  | OPERAND_INST_VAR => defineTmpVar s SELF_INDEX offset
  | OPERAND_INST_VAR_OF => defineTmpVar s (Z.to_nat (i_index (instance operand))) offset
  | _ => Some s
  end.

Definition examineCopyOperands (s : Vars) (src dst : Operand) (offset : Z) : option Vars :=
  s ← examineOperand s src offset; examineOperand s dst offset.

(** [for (i = 0; i < argsSize; i++) examineOperand(...)] *)
Fixpoint examineOperands (s : Vars) (operands : list Operand) (offset : Z) : option Vars :=
  match operands with
  | [] => Some s
  | o :: l => s ← examineOperand s o offset; examineOperands s l offset
  end.

Definition widen (target jump : Z) (v : Variable_) : Variable_ :=
  if (v_start v <=? jump) && (target <=? v_end v) && (v_gcEnd v <? jump)
  then mkVariable (v_index v) (v_flags v) (v_reg v) (v_start v) (v_end v) jump (v_frameOffset v)
  else v.

Fixpoint extendLoopVarRanges (s : Vars) (l : list nat) (target jump : Z) : option Vars :=
  match l with
  | [] => Some s
  | i :: l => s ← update i (widen target jump) s; extendLoopVarRanges s l target jump
  end.

(** The state of scanCode's loop; [bnAtByte] is its table. *)
Record Scan := mkScan { sc_vars : Vars; bnAtByte : list Z; returns : bool }.

(** A jump: a backward one widens the ranges the loop overlaps. *)
Definition scanJump (s : Vars) (bn : list Z) (offset number disp : Z) : option Vars :=
  if disp <? 0 then
    _ ← ASSERT (0 <=? offset + disp);
    target ← bn !! Z.to_nat (offset + disp);
    extendLoopVarRanges s (order s) target number
  else Some s.

(** One turn: the instruction [i] with its number, its first byte and the
    position after it. *)
Definition scanInstruction (sc : Scan) (number : Z) (startByte endByte : nat) (i : Instruction)
    : option Scan :=
  let s := sc_vars sc in
  bn ← put (bnAtByte sc) startByte number;
  match i with
  | ICopy src dst => s ← examineCopyOperands s src dst number; Some (mkScan s bn (returns sc))
  | ISend _ receiver args =>
      s ← examineOperand (set_frameLess false s) receiver number;
      s ← examineOperands s args number;
      Some (mkScan s bn (returns sc))
  | ISendWithStore _ receiver args result =>
      s ← examineOperand (set_frameLess false s) receiver number;
      s ← examineOperands s args number;
      s ← examineOperand s result (number + 1);
      Some (mkScan s bn (returns sc))
  | IReturn outer operand =>
      let s := if outer : bool then set_frameLess false s else s in
      s ← examineOperand s operand number; Some (mkScan s bn true)
  | IJump disp =>
      s ← scanJump s bn (Z.of_nat endByte) number disp; Some (mkScan s bn (returns sc))
  | IJumpNotMemberOf _ operand disp =>
      s ← examineOperand s operand number;
      s ← scanJump s bn (Z.of_nat endByte) number disp; Some (mkScan s bn (returns sc))
  end.

Section ScanCode.
Context `{Target}.

Definition scanCode (s : Vars) (code : list Z) : option Vars :=
  let size := length code in
  '(sc, it) ← loop (S size) (fun '(sc, it) =>
      if bytecodeHasNext it then
        let startByte := ip it in
        '(i, it) ← read_instruction it;
        sc ← scanInstruction sc (bytecodeNumber it) startByte (ip it) i;
        Some (inl (sc, it))
      else Some (inr (sc, it)))
    (mkScan s (replicate (S size) 0) false, bytecodeInitIterator code size);
  if returns sc then Some (sc_vars sc)
  else
    let offset := bytecodeNumber it in
    defineTmpVar (sc_vars sc) SELF_INDEX (if offset =? -1 then 0 else offset).
End ScanCode.

(** ** Registers *)

Definition i8 (x : Z) : Z := (x + 2 ^ 7) mod 2 ^ 8 - 2 ^ 7.

Record SortedVars := mkSorted { sv_vars : list (option nat); sv_first : nat; sv_last : nat }.

Definition initSortedVars (capacity : nat) : SortedVars :=
  mkSorted (replicate (2 * capacity) None) capacity capacity.

Definition getFirstVar (sv : SortedVars) : option (option nat) := sv_vars sv !! sv_first sv.

Definition addFirstVar (sv : SortedVars) (var : nat) : option SortedVars :=
  _ ← ASSERT (0 <? sv_first sv)%nat;
  l ← put (sv_vars sv) (sv_first sv - 1) (Some var);
  Some (mkSorted l (sv_first sv - 1) (sv_last sv)).

Definition addLastVar (sv : SortedVars) (var : nat) : option SortedVars :=
  _ ← ASSERT (sv_last sv <? length (sv_vars sv))%nat;
  l ← put (sv_vars sv) (sv_last sv) (Some var);
  Some (mkSorted l (sv_first sv) (S (sv_last sv))).

Definition removeVar (sv : SortedVars) (pos : nat) : option SortedVars :=
  tail ← slice (sv_vars sv) (S pos) (sv_last sv - S pos);
  l ← blit (sv_vars sv) pos tail;
  Some (mkSorted l (sv_first sv) (sv_last sv - 1)).

Definition removeFirstVar (sv : SortedVars) : option (nat * SortedVars) :=
  entry ← sv_vars sv !! sv_first sv;
  var ← entry;
  sv ← removeVar sv (sv_first sv);
  Some (var, sv).

Record RegsPool := mkPool { pool_regs : list Z; pool_tmp : nat; pool_end : nat }.

(** [limit] is the value of the test knob ST_JIT_REGS, 0 when there is none. *)
Definition availableRegsSize (limit : Z) (regs : list Z) : nat :=
  let limit := if limit <? 1 then 0 else limit in
  if (0 <? limit) && (limit <? Z.of_nat (length regs)) then Z.to_nat (u8 limit) else length regs.

(** The 512 bytes beyond the registers copied are not read. *)
Definition initRegsPool (limit : Z) (regs : list Z) : option RegsPool :=
  let size := availableRegsSize limit regs in
  l ← memcpy (replicate 512 0) 0 regs 0 size;
  Some (mkPool l 0 size).

Definition nextReg (pool : RegsPool) : option (Z * RegsPool) :=
  if (pool_tmp pool <? pool_end pool)%nat then
    r ← pool_regs pool !! pool_tmp pool;
    Some (u8 (i8 r), mkPool (pool_regs pool) (S (pool_tmp pool)) (pool_end pool))
  else Some (u8 SPILLED_REG, pool).

Definition reuseVarReg (pool : RegsPool) (v : Variable_) : option RegsPool :=
  if v_reg v =? SPILLED_REG then Some pool
  else
    _ ← ASSERT (0 <? pool_tmp pool)%nat;
    l ← put (pool_regs pool) (pool_tmp pool - 1) (v_reg v);
    Some (mkPool l (pool_tmp pool - 1) (pool_end pool)).

(** The loop over the worklist from [pos] on; each turn removes an entry or
    passes one. *)
Fixpoint removeDead (fuel : nat) (vs : list Variable_) (sv : SortedVars) (pool : RegsPool) (pos : nat)
    (offset : Z) : option (SortedVars * RegsPool) :=
  match fuel with
  | O => None
  | S fuel =>
      if (pos <? sv_last sv)%nat then
        entry ← sv_vars sv !! pos;
        i ← entry;
        v ← vs !! i;
        if v_end v <? offset then
          pool ← reuseVarReg pool v;
          sv ← removeVar sv pos;
          removeDead fuel vs sv pool pos offset
        else removeDead fuel vs sv pool (S pos) offset
      else Some (sv, pool)
  end.

Definition removeDeadVars (vs : list Variable_) (sv : SortedVars) (pool : RegsPool) (offset : Z)
    : option (SortedVars * RegsPool) :=
  removeDead (S (length (sv_vars sv))) vs sv pool (sv_first sv) offset.

Definition set_reg (r : Z) (v : Variable_) : Variable_ :=
  mkVariable (v_index v) (v_flags v) (i8 r) (v_start v) (v_end v) (v_gcEnd v) (v_frameOffset v).

Record Alloc := mkAlloc { al_vars : list Variable_; al_sorted : SortedVars; al_pool : RegsPool }.

(** The new variable goes to the front of the worklist unless its range ends
    before that of the variable there. *)
Definition insertVar (vs : list Variable_) (sv : SortedVars) (i : nat) (v : Variable_) : option SortedVars :=
  top ← getFirstVar sv;
  match top with
  | None => addFirstVar sv i
  | Some j => w ← vs !! j; if v_end w <=? v_end v then addFirstVar sv i else addLastVar sv i
  end.

(** One turn of scanRegisters. *)
Definition allocateVar (a : Alloc) (i : nat) : option Alloc :=
  let vs := al_vars a in
  v ← vs !! i;
  if negb (v_reg v =? SPILLED_REG) then Some a
  else
    '(sv, pool) ← removeDeadVars vs (al_sorted a) (al_pool a) (v_start v);
    sv ← insertVar vs sv i v;
    '(r, pool) ← nextReg pool;
    let vs := <[i := set_reg r v]> vs in
    if i8 r =? SPILLED_REG then
      '(j, sv) ← removeFirstVar sv;
      spilled ← vs !! j;
      v ← vs !! i;
      let vs := <[i := set_reg (v_reg spilled) v]> vs in
      spilled ← vs !! j;
      Some (mkAlloc (<[j := set_reg SPILLED_REG spilled]> vs) sv pool)
    else Some (mkAlloc vs sv pool).

Fixpoint allocateVars (a : Alloc) (l : list nat) : option Alloc :=
  match l with
  | [] => Some a
  | i :: l => a ← allocateVar a i; allocateVars a l
  end.

Definition scanRegisters (s : Vars) (regs : Backend) (limit : Z) : option Vars :=
  let sv := initSortedVars (capacity s) in
  pool ← initRegsPool limit (available regs);
  entry ← contexts s !! 0%nat;
  c ← entry;
  v ← vars s !! c;
  a ← allocateVars (mkAlloc (<[c := set_reg (CTX regs) v]> (vars s)) sv pool) (order s);
  Some (set_vars (al_vars a) s).

(** ** The allocation of a method *)

Record RegsAlloc := mkRegsAlloc {
  ra_varsSize : nat;
  ra_vars : list Variable_;
  ra_contexts : list (option nat);
  ra_assocs : list (option nat);
  ra_frameSize : Z;
  ra_frameLess : bool }.

(** The arrays after regsAllocEnsure and the clearing; memory regsAllocEnsure
    kept from an earlier method may be larger, [spare] entries here. *)
Definition regsAllocEnsure (varsCapacity assocCapacity spare : nat) : list Variable_ * list (option nat) :=
  (replicate (varsCapacity + spare) cleared, replicate (assocCapacity + spare) None).

(** [for (i = argsSize; i >= 0; i--) defineVar(VAR_TMP, i + 1, 0)->flags |= VAR_ON_STACK;] *)
Definition defineArg (s : Vars) (i : nat) : option Vars :=
  s ← defineVar s VAR_TMP (S i) 0;
  update (S i) (fun v => mkVariable (v_index v) (Z.lor (v_flags v) VAR_ON_STACK) (v_reg v) (v_start v)
                           (v_end v) (v_gcEnd v) (v_frameOffset v)) s.

Fixpoint defineArgs (s : Vars) (n : nat) : option Vars :=
  s ← defineArg s n;
  match n with
  | O => Some s
  | S n => defineArgs s n
  end.

(** [for (i = argsSize; i >= 0; i--) alloc->vars[i + 1].frameOffset += delta;] *)
Fixpoint shiftArgs (vs : list Variable_) (n : nat) (delta : Z) : option (list Variable_) :=
  v ← vs !! S n;
  let vs := <[S n := mkVariable (v_index v) (v_flags v) (v_reg v) (v_start v) (v_end v) (v_gcEnd v)
                       (v_frameOffset v + delta)]> vs in
  match n with
  | O => Some vs
  | S n => shiftArgs vs n delta
  end.

Definition spilled (vs : list Variable_) (i : nat) : bool :=
  match vs !! i with Some v => v_reg v =? SPILLED_REG | None => false end.

(** The state the scans start from. *)
Definition initialVars (code : CompiledCode) (spare : nat) : option Vars :=
  let tempSpace := (argsSize code + tempsSize code + 2)%nat in
  let cap := (tempSpace + REGS_ALLOC_CONTEXT_LEVELS + literalsCount code)%nat in
  _ ← ASSERT (negb (UINT16_MAX <? Z.of_nat cap));
  let '(vs, row) := regsAllocEnsure cap (literalsCount code) spare in
  s ← defineArgs (mkVars tempSpace cap vs (replicate REGS_ALLOC_CONTEXT_LEVELS None) row []
                    0 true (Z.of_nat (argsSize code))) (argsSize code);
  s ← defineVar (set_frameSize (frameSize s - 1) s) VAR_CONTEXT CONTEXT_INDEX 0;
  set_special s VAR_CONTEXT 0 CONTEXT_INDEX.

Definition computeRegsAlloc `{Target} (code : CompiledCode) (regs : Backend) (limit : Z) (spare : nat)
    : option RegsAlloc :=
  s ← initialVars code spare;
  s ← scanCode s (code_bytes code);
  s ← scanRegisters s regs limit;
  let frameLess := frameLess s && negb (existsb (spilled (vars s)) (order s)) in
  vs ← shiftArgs (vars s) (argsSize code) ((if frameLess then 0 else 1) + 1);
  Some (mkRegsAlloc (varsSize s) vs (contexts s) (assocs s) (- frameSize s - 1) frameLess).

Definition invalidateRegs (a : RegsAlloc) : RegsAlloc :=
  mkRegsAlloc (ra_varsSize a)
    (imap (fun i v => if (i <? ra_varsSize a)%nat
                      then mkVariable (v_index v) (Z.land (v_flags v) (Z.lnot VAR_IN_REG)) (v_reg v)
                             (v_start v) (v_end v) (v_gcEnd v) (v_frameOffset v)
                      else v) (ra_vars a))
    (ra_contexts a) (ra_assocs a) (ra_frameSize a) (ra_frameLess a).
