(* ===== verification/RegisterProofs.v ===== *)
(** * RegisterProofs

    The assignment of registers to live ranges: the linear scan never gives
    one register to two variables whose ranges meet, gives only registers of
    the pool, and spills only where more variables are live than the pool has
    registers. *)
From S2P Require Import Prelude Endian Bytecodes.
From stdpp Require Import list sorting.
From S2P Require Import RegisterAllocator.
#[local] Open Scope Z_scope.

Definition reg_of (vs : list Variable_) (i : nat) : Z := default SPILLED_REG (v_reg <$> vs !! i).
Definition start_of (vs : list Variable_) (i : nat) : Z := default 0 (v_start <$> vs !! i).
Definition end_of (vs : list Variable_) (i : nat) : Z := default 0 (v_end <$> vs !! i).

(** ** The worklist *)

(** The entries between the cursors are [act]; what lies outside is stale. *)
Definition worklist (sv : SortedVars) (act : list nat) : Prop :=
  exists pre post, sv_vars sv = pre ++ (Some <$> act) ++ post /\
    sv_first sv = length pre /\ sv_last sv = (length pre + length act)%nat.

(** Every entry, a stale one too, is a variable of the array. *)
Definition entries_ok (n : nat) (sv : SortedVars) : Prop :=
  Forall (fun e => match e with Some i => (i < n)%nat | None => True end) (sv_vars sv).

Lemma worklist_init c : worklist (initSortedVars c) [].
Proof.
  exists (replicate c None), (replicate c None). cbn [fmap list_fmap app sv_vars initSortedVars sv_first sv_last].
  rewrite length_replicate. split; [|simpl; lia]. replace (2 * c)%nat with (c + c)%nat by lia. apply replicate_add.
Qed.

Lemma addFirstVar_work n sv act i :
  worklist sv act -> entries_ok n sv -> (0 < sv_first sv)%nat -> (i < n)%nat ->
  exists sv', addFirstVar sv i = Some sv' /\ worklist sv' (i :: act) /\ entries_ok n sv' /\
    length (sv_vars sv') = length (sv_vars sv) /\
    (sv_first sv' = sv_first sv - 1)%nat /\ sv_last sv' = sv_last sv.
Proof.
  intros (pre & post & Hv & Hf & Hl) He H0 Hi. unfold addFirstVar, ASSERT.
  rewrite (proj2 (Nat.ltb_lt _ _)) by done. cbn [mbind option_bind].
  destruct pre as [|x pre _] using rev_ind; [simpl in Hf; lia|]. rewrite length_app in Hf, Hl. simpl in Hf, Hl.
  rewrite put_Some by (rewrite Hv, !length_app; simpl; lia). cbn [mbind option_bind].
  eexists; split; [done|]. cbn [sv_vars sv_first sv_last]. split; [|split; [|split; [apply length_insert|lia]]].
  - exists pre, post. cbn [sv_vars sv_first sv_last]. rewrite Hv, <- app_assoc.
    rewrite insert_app_r_alt by lia. replace (sv_first sv - 1 - length pre)%nat with O by lia.
    split; [done|]. simpl. lia.
  - apply Forall_insert; done.
Qed.

Lemma addLastVar_work n sv act i :
  worklist sv act -> entries_ok n sv -> (sv_last sv < length (sv_vars sv))%nat -> (i < n)%nat ->
  exists sv', addLastVar sv i = Some sv' /\ worklist sv' (act ++ [i]) /\ entries_ok n sv' /\
    length (sv_vars sv') = length (sv_vars sv) /\
    sv_first sv' = sv_first sv /\ sv_last sv' = S (sv_last sv).
Proof.
  intros (pre & post & Hv & Hf & Hl) He H0 Hi. unfold addLastVar, ASSERT.
  rewrite (proj2 (Nat.ltb_lt _ _)) by done. cbn [mbind option_bind].
  rewrite put_Some by done. cbn [mbind option_bind].
  eexists; split; [done|]. cbn [sv_vars sv_first sv_last]. split; [|split; [|split; [apply length_insert|done]]].
  - rewrite Hv, !length_app, length_fmap in H0. destruct post as [|x post]; [simpl in H0; lia|].
    exists pre, post. cbn [sv_vars sv_first sv_last]. rewrite Hv, fmap_app, <- app_assoc.
    rewrite insert_app_r_alt by lia. rewrite insert_app_r_alt by (rewrite length_fmap; lia).
    rewrite length_fmap. replace (sv_last sv - length pre - length act)%nat with O by lia.
    rewrite length_app. split; [done|]. simpl. lia.
  - apply Forall_insert; done.
Qed.

Lemma removeVar_work n sv a1 x a2 :
  worklist sv (a1 ++ x :: a2) -> entries_ok n sv ->
  exists sv', removeVar sv (sv_first sv + length a1) = Some sv' /\ worklist sv' (a1 ++ a2) /\
    entries_ok n sv' /\ length (sv_vars sv') = length (sv_vars sv) /\
    sv_first sv' = sv_first sv /\ (sv_last sv' = sv_last sv - 1)%nat.
Proof.
  intros (pre & post & Hv & Hf & Hl) He. unfold removeVar. rewrite length_app in Hl. cbn [length] in Hl.
  set (pos := (sv_first sv + length a1)%nat).
  assert (drop (S pos) (sv_vars sv) = (Some <$> a2) ++ post) as Hd.
  { rewrite Hv, fmap_app. cbn [fmap list_fmap]. rewrite <- app_assoc. cbn [app].
    replace (S pos) with (length (pre ++ (Some <$> a1) ++ [Some x])) by (rewrite !length_app, length_fmap; subst pos; simpl; lia).
    replace (pre ++ (Some <$> a1) ++ Some x :: (Some <$> a2) ++ post) with
      ((pre ++ (Some <$> a1) ++ [Some x]) ++ (Some <$> a2) ++ post) by by rewrite <- !app_assoc.
    apply drop_app_length. }
  assert (length (sv_vars sv) = length pre + length a1 + S (length a2) + length post)%nat as Hlen
    by (rewrite Hv, !length_app, length_fmap, length_app; simpl; lia).
  rewrite slice_Some by (subst pos; lia). cbn [mbind option_bind]. rewrite Hd.
  replace (sv_last sv - S pos)%nat with (length (Some <$> a2)) by (rewrite length_fmap; subst pos; lia).
  rewrite take_app_length, blit_Some by (rewrite length_fmap; subst pos; lia). cbn [mbind option_bind].
  assert (take pos (sv_vars sv) = pre ++ (Some <$> a1)) as Ht.
  { rewrite Hv, fmap_app, <- app_assoc. rewrite app_assoc.
    replace pos with (length (pre ++ (Some <$> a1))) by (rewrite length_app, length_fmap; subst pos; lia).
    apply take_app_length. }
  rewrite Ht. eexists; split; [done|]. cbn [sv_vars sv_first sv_last].
  assert (forall l, length ((pre ++ (Some <$> a1)) ++ (Some <$> a2) ++ l) = (length pre + length a1 + length a2 + length l)%nat) as HL.
  { intros l. rewrite !length_app, !length_fmap. lia. }
  split; [|split; [|split; [|done]]].
  - exists pre, (drop (pos + length (Some <$> a2)) (sv_vars sv)).
    cbn [sv_vars sv_first sv_last]. rewrite fmap_app, <- !app_assoc, length_app. split; [done|]. lia.
  - unfold entries_ok in *; cbn [sv_vars]. rewrite <- Ht.
    apply Forall_app; split; [by apply Forall_take|]. apply Forall_app; split; [|by apply Forall_drop].
    apply (Forall_drop _ (S pos)) in He. rewrite Hd in He. by apply Forall_app in He as [He _].
  - rewrite HL, length_drop, Hlen, length_fmap. subst pos. lia.
Qed.

Lemma worklist_lookup sv a1 x a2 :
  worklist sv (a1 ++ x :: a2) -> sv_vars sv !! (sv_first sv + length a1)%nat = Some (Some x).
Proof.
  intros (pre & post & Hv & Hf & Hl). rewrite Hv, Hf, lookup_app_r by lia.
  rewrite lookup_app_l by (rewrite length_fmap, length_app; simpl; lia).
  rewrite list_lookup_fmap, lookup_app_r by lia.
  by replace (length pre + length a1 - length pre - length a1)%nat with O by lia.
Qed.

(** ** The pool *)

(** The free registers are [free]; [used] counts those handed out. *)
Definition pool_has (pool : RegsPool) (used : nat) (free : list Z) : Prop :=
  exists u rest, pool_regs pool = u ++ free ++ rest /\ length u = used /\
    pool_tmp pool = used /\ pool_end pool = (used + length free)%nat.

Lemma nextReg_some pool used r free :
  pool_has pool used (r :: free) ->
  exists pool', nextReg pool = Some (u8 (i8 r), pool') /\ pool_has pool' (S used) free.
Proof.
  intros (u & rest & Hr & Hu & Ht & He). unfold nextReg. simpl in He.
  rewrite (proj2 (Nat.ltb_lt _ _)) by lia.
  assert (pool_regs pool !! pool_tmp pool = Some r) as ->.
  { rewrite Hr, lookup_app_r by lia. by replace (pool_tmp pool - length u)%nat with O by lia. }
  cbn [mbind option_bind]. eexists; split; [done|]. exists (u ++ [r]), rest. cbn [pool_regs pool_tmp pool_end].
  rewrite Hr, <- app_assoc, length_app. split; [done|]. simpl; lia.
Qed.

Lemma nextReg_none pool used :
  pool_has pool used [] -> nextReg pool = Some (u8 SPILLED_REG, pool).
Proof.
  intros (u & rest & Hr & Hu & Ht & He). unfold nextReg. simpl in He.
  by rewrite (proj2 (Nat.ltb_ge _ _)) by lia.
Qed.

Lemma reuseVarReg_pool pool used free v :
  pool_has pool (S used) free -> v_reg v <> SPILLED_REG ->
  exists pool', reuseVarReg pool v = Some pool' /\ pool_has pool' used (v_reg v :: free).
Proof.
  intros (u & rest & Hr & Hu & Ht & He) Hv. unfold reuseVarReg, ASSERT.
  rewrite (proj2 (Z.eqb_neq _ _)) by done. rewrite (proj2 (Nat.ltb_lt _ _)) by lia. cbn [mbind option_bind].
  destruct u as [|x u _] using rev_ind; [done|]. rewrite length_app in Hu; simpl in Hu.
  rewrite put_Some by (rewrite Hr, !length_app; simpl; lia). cbn [mbind option_bind].
  eexists; split; [done|]. exists u, rest. cbn [pool_regs pool_tmp pool_end].
  rewrite Hr, <- app_assoc, insert_app_r_alt by lia.
  replace (pool_tmp pool - 1 - length u)%nat with O by lia. split; [done|]. simpl; lia.
Qed.

(** ** Returning the registers of dead variables *)

Definition is_dead (vs : list Variable_) (offset : Z) (i : nat) : bool := end_of vs i <? offset.
Definition alive (vs : list Variable_) (offset : Z) (l : list nat) : list nat :=
  List.filter (fun i => negb (is_dead vs offset i)) l.
Definition dead (vs : list Variable_) (offset : Z) (l : list nat) : list nat :=
  List.filter (is_dead vs offset) l.

Lemma alive_cons vs offset i l :
  alive vs offset (i :: l) = if is_dead vs offset i then alive vs offset l else i :: alive vs offset l.
Proof. unfold alive; cbn [List.filter]. by destruct (is_dead vs offset i). Qed.
Lemma dead_cons vs offset i l :
  dead vs offset (i :: l) = if is_dead vs offset i then i :: dead vs offset l else dead vs offset l.
Proof. done. Qed.

Lemma alive_dead vs offset l : alive vs offset l ++ dead vs offset l ≡ₚ l.
Proof.
  induction l as [|i l IH]; [done|]. rewrite alive_cons, dead_cons.
  destruct (is_dead vs offset i); cbn [app].
  - rewrite <- Permutation_middle. by rewrite IH.
  - by rewrite IH.
Qed.

(** A variable of the array that holds a register. *)
Definition holds_reg (vs : list Variable_) (i : nat) : Prop :=
  (i < length vs)%nat /\ reg_of vs i <> SPILLED_REG.

Lemma removeDead_spec vs n offset : forall fuel sv pool a1 a2 free,
  worklist sv (a1 ++ a2) -> entries_ok n sv -> Forall (holds_reg vs) a2 ->
  pool_has pool (length a1 + length a2) free -> (length a2 < fuel)%nat ->
  exists sv' pool' free',
    removeDead fuel vs sv pool (sv_first sv + length a1) offset = Some (sv', pool') /\
    worklist sv' (a1 ++ alive vs offset a2) /\ entries_ok n sv' /\
    length (sv_vars sv') = length (sv_vars sv) /\
    sv_first sv' = sv_first sv /\ (sv_last sv' <= sv_last sv)%nat /\
    pool_has pool' (length a1 + length (alive vs offset a2)) free' /\
    free' ≡ₚ (reg_of vs <$> dead vs offset a2) ++ free.
Proof.
  induction fuel as [|fuel IH]; intros sv pool a1 a2 free W E H P Hf; [lia|].
  cbn [removeDead]. destruct a2 as [|i a2].
  - exists sv, pool, free. rewrite app_nil_r in W. destruct W as (pre & post & Hv & Hfi & Hla).
    rewrite (proj2 (Nat.ltb_ge _ _)) by lia. repeat split; try done. cbn. rewrite app_nil_r.
    by exists pre, post.
  - destruct (proj1 (Forall_cons _ _ _) H) as [[Hi Hr] H'].
    assert (sv_first sv + length a1 < sv_last sv)%nat as Hlt.
    { destruct W as (pre & post & Hv & Hfi & Hla). rewrite length_app in Hla. simpl in Hla. lia. }
    rewrite (proj2 (Nat.ltb_lt _ _)) by done. rewrite (worklist_lookup sv a1 i a2) by done.
    cbn [mbind option_bind]. destruct (lookup_Some_lt vs i Hi) as [v Ev]. rewrite Ev. cbn [mbind option_bind].
    assert (reg_of vs i = v_reg v) as Er by (unfold reg_of; by rewrite Ev).
    assert ((v_end v <? offset) = is_dead vs offset i) as -> by (unfold is_dead, end_of; by rewrite Ev).
    rewrite alive_cons, dead_cons. destruct (is_dead vs offset i).
    + cbn [length] in P. rewrite <- plus_n_Sm in P.
      destruct (reuseVarReg_pool pool _ free v P) as (pool1 & Ep & P1); [by rewrite <- Er|].
      rewrite Ep. cbn [mbind option_bind].
      destruct (removeVar_work n sv a1 i a2 W E) as (sv1 & Es & W1 & E1 & L1 & F1 & La1).
      rewrite Es. cbn [mbind option_bind]. rewrite <- F1.
      destruct (IH sv1 pool1 a1 a2 (v_reg v :: free)) as (sv2 & pool2 & free2 & R & W2 & E2 & L2 & F2 & La2 & P2 & Q2);
        [done..|simpl in Hf; lia|].
      exists sv2, pool2, free2. repeat split; try done; try congruence; [lia|].
      rewrite Q2. cbn [fmap list_fmap app]. rewrite Er. symmetry. apply Permutation_middle.
    + replace (S (sv_first sv + length a1)) with (sv_first sv + length (a1 ++ [i]))%nat by (rewrite length_app; simpl; lia).
      assert (a1 ++ i :: a2 = (a1 ++ [i]) ++ a2) as Ha by by rewrite <- app_assoc.
      assert (length (a1 ++ [i]) + length a2 = length a1 + length (i :: a2))%nat as Hlen
        by (rewrite length_app; simpl; lia).
      destruct (IH sv pool (a1 ++ [i]) a2 free) as (sv2 & pool2 & free2 & R & W2 & E2 & L2 & F2 & La2 & P2 & Q2);
        [by rewrite <- Ha|done|done|by rewrite Hlen|simpl in Hf; lia|].
      exists sv2, pool2, free2. repeat split; try done.
      * by rewrite <- app_assoc in W2.
      * rewrite length_app in P2. cbn [length] in P2 |- *. by replace (length a1 + S (length (alive vs offset a2)))%nat with (length a1 + 1 + length (alive vs offset a2))%nat by lia.
Qed.

Lemma removeDeadVars_spec vs n offset sv pool act free :
  worklist sv act -> entries_ok n sv -> Forall (holds_reg vs) act -> pool_has pool (length act) free ->
  exists sv' pool' free',
    removeDeadVars vs sv pool offset = Some (sv', pool') /\
    worklist sv' (alive vs offset act) /\ entries_ok n sv' /\
    length (sv_vars sv') = length (sv_vars sv) /\
    sv_first sv' = sv_first sv /\ (sv_last sv' <= sv_last sv)%nat /\
    pool_has pool' (length (alive vs offset act)) free' /\
    free' ≡ₚ (reg_of vs <$> dead vs offset act) ++ free.
Proof.
  intros W E H P. unfold removeDeadVars.
  pose proof (removeDead_spec vs n offset (S (length (sv_vars sv))) sv pool [] act free) as HR.
  cbn [app length Nat.add] in HR. rewrite Nat.add_0_r in HR. apply HR; try done.
  destruct W as (pre & post & Hv & _). rewrite Hv, !length_app, length_fmap. lia.
Qed.

(** ** One variable after the other *)

Lemma i8_id r : -128 <= r < 128 -> i8 r = r.
Proof. intros; unfold i8. rewrite Z.mod_small; lia. Qed.

Lemma i8_u8 r : i8 (u8 r) = i8 r.
Proof. unfold i8, u8. by rewrite Zplus_mod_idemp_l. Qed.

(** The fields scanRegisters leaves alone. *)
Definition unassigned (vs : list Variable_) : list Variable_ := set_reg 0 <$> vs.

Lemma unassigned_insert vs i r v :
  vs !! i = Some v -> unassigned (<[i := set_reg r v]> vs) = unassigned vs.
Proof.
  intros E. unfold unassigned. rewrite list_fmap_insert. apply list_insert_id.
  by rewrite list_lookup_fmap, E.
Qed.

Lemma unassigned_lookup vs ws i :
  unassigned vs = unassigned ws -> set_reg 0 <$> vs !! i = set_reg 0 <$> ws !! i.
Proof. intros H. rewrite <- !list_lookup_fmap. by unfold unassigned in H; rewrite H. Qed.

Lemma unassigned_range vs ws i :
  unassigned vs = unassigned ws -> start_of vs i = start_of ws i /\ end_of vs i = end_of ws i.
Proof.
  intros H%(unassigned_lookup _ _ i). unfold start_of, end_of.
  destruct (vs !! i), (ws !! i); try done. injection H as E1 E2 E3 E4 E5 E6. cbn. by rewrite E3, E4.
Qed.

Lemma unassigned_length vs ws : unassigned vs = unassigned ws -> length vs = length ws.
Proof. intros H%(f_equal length). unfold unassigned in H. by rewrite !length_fmap in H. Qed.

Lemma reg_of_insert vs i r v k :
  vs !! i = Some v -> reg_of (<[i := set_reg r v]> vs) k = if decide (k = i) then i8 r else reg_of vs k.
Proof.
  intros E. unfold reg_of. destruct (decide (k = i)) as [->|Hne].
  - rewrite list_lookup_insert_eq; [done|]. by eapply lookup_lt_Some.
  - by rewrite list_lookup_insert_ne by done.
Qed.

Lemma reg_of_fmap vs ws l :
  (forall k, In k l -> reg_of vs k = reg_of ws k) -> reg_of vs <$> l = reg_of ws <$> l.
Proof. intros H. apply list_fmap_ext. intros n k Hk%list_elem_of_lookup_2. by apply H, list_elem_of_In. Qed.

(** The four stores of a spill: [i] takes the register of [j]. *)
Lemma spill_stores vs i j v :
  vs !! i = Some v -> v_reg v = SPILLED_REG -> (j < length vs)%nat -> i8 (reg_of vs j) = reg_of vs j ->
  exists w vs1,
    <[i := set_reg (u8 SPILLED_REG) v]> vs !! j = Some w /\
    vs1 = <[i := set_reg (v_reg w) (set_reg (u8 SPILLED_REG) v)]> (<[i := set_reg (u8 SPILLED_REG) v]> vs) /\
    exists w2, vs1 !! j = Some w2 /\
      unassigned (<[j := set_reg SPILLED_REG w2]> vs1) = unassigned vs /\
      forall k, reg_of (<[j := set_reg SPILLED_REG w2]> vs1) k =
        if decide (k = j) then SPILLED_REG else if decide (k = i) then reg_of vs j else reg_of vs k.
Proof.
  intros Ev Hv Hj Hj8. pose proof (lookup_lt_Some _ _ _ Ev) as Hi.
  set (vs' := <[i := set_reg (u8 SPILLED_REG) v]> vs).
  assert (vs' !! i = Some (set_reg (u8 SPILLED_REG) v)) as Ei by by apply list_lookup_insert_eq.
  destruct (lookup_Some_lt vs' j) as [w Ew]; [by unfold vs'; rewrite length_insert|].
  exists w, (<[i := set_reg (v_reg w) (set_reg (u8 SPILLED_REG) v)]> vs'). split; [done|]. split; [done|].
  set (vs1 := <[i := set_reg (v_reg w) _]> vs').
  destruct (lookup_Some_lt vs1 j) as [w2 Ew2]; [by unfold vs1, vs'; rewrite !length_insert|].
  assert (v_reg w = reg_of vs' j) as Hw by (unfold reg_of; by rewrite Ew).
  exists w2. split; [done|]. split.
  - rewrite unassigned_insert by done. unfold vs1. rewrite unassigned_insert by done.
    unfold vs'. by rewrite unassigned_insert by done.
  - intros k. rewrite reg_of_insert by done. destruct (decide (k = j)) as [->|Hkj]; [done|].
    unfold vs1. rewrite reg_of_insert by done. unfold vs' in *. destruct (decide (k = i)) as [->|Hki].
    + rewrite Hw, reg_of_insert, decide_False by done. done.
    + by rewrite reg_of_insert, decide_False by done.
Qed.

Section Scan.
Context (vs0 : list Variable_) (R : list Z) (ord : list nat) (c : nat) (cap : nat).

(** More variables live at one point than there are registers. *)
Definition pressure : Prop :=
  exists s l, NoDup l /\ length l = S (length R) /\
    forall i, In i l -> In i ord /\ i <> c /\ start_of vs0 i <= s <= end_of vs0 i.

(** After the variables [P], the last one starting at [now]: [act] are those
    whose range has not ended, [free] the registers nobody holds. *)
Record scan_inv (P : list nat) (now : Z) (a : Alloc) (act : list nat) (free : list Z) : Prop := {
  si_vars : unassigned (al_vars a) = unassigned vs0;
  si_work : worklist (al_sorted a) act;
  si_entries : entries_ok (length vs0) (al_sorted a);
  si_length : length (sv_vars (al_sorted a)) = (2 * cap)%nat;
  si_first : (sv_first (al_sorted a) <= cap <= sv_first (al_sorted a) + length P)%nat;
  si_last : (sv_last (al_sorted a) <= cap + length P)%nat;
  si_pool : pool_has (al_pool a) (length act) free;
  si_regs : (reg_of (al_vars a) <$> act) ++ free ≡ₚ R;
  si_act : NoDup act /\ forall i, In i act -> In i P /\ i <> c;
  si_now : forall i, In i P -> start_of vs0 i <= now;
  si_done : forall i, In i P -> i <> c ->
    In i act \/ reg_of (al_vars a) i = SPILLED_REG \/ (In (reg_of (al_vars a) i) R /\ end_of vs0 i < now);
  si_todo : forall i, ~ In i P -> i <> c -> In i ord -> reg_of (al_vars a) i = SPILLED_REG;
  si_ctx : ~ In (reg_of (al_vars a) c) R /\ reg_of (al_vars a) c <> SPILLED_REG;
  si_ctx_reg : reg_of (al_vars a) c = reg_of vs0 c;
  si_disjoint : forall i j, In i P -> In j P -> i <> j ->
    reg_of (al_vars a) i = reg_of (al_vars a) j -> reg_of (al_vars a) i <> SPILLED_REG ->
    end_of vs0 i < start_of vs0 j \/ end_of vs0 j < start_of vs0 i;
  si_spill : forall i, In i P -> reg_of (al_vars a) i = SPILLED_REG -> pressure }.

Context (HR : NoDup R) (HRb : Forall (fun r => 0 <= r < 128) R).

Lemma reg_inj vs act free i j :
  (reg_of vs <$> act) ++ free ≡ₚ R -> In i act -> In j act -> reg_of vs i = reg_of vs j -> i = j.
Proof using HR.
  intros HP Hi Hj E. rewrite <- HP in HR. apply list.NoDup_app in HR as [HN _].
  apply list_elem_of_In in Hi, Hj. apply list_elem_of_lookup in Hi as [m Hm], Hj as [n Hn].
  assert (m = n) as ->.
  { eapply (NoDup_lookup (reg_of vs <$> act)); [done|by rewrite list_lookup_fmap, Hm|].
    by rewrite list_lookup_fmap, Hn, E. }
  congruence.
Qed.

Lemma act_regs vs act free i : (reg_of vs <$> act) ++ free ≡ₚ R -> In i act -> In (reg_of vs i) R.
Proof.
  intros HP Hi. apply (Permutation_in _ HP), in_or_app. left.
  change (In (reg_of vs i) (map (reg_of vs) act)). by apply in_map.
Qed.

Lemma R_not_spilled r : In r R -> r <> SPILLED_REG /\ i8 r = r.
Proof using HRb.
  intros Hr. rewrite List.Forall_forall in HRb. apply HRb in Hr. unfold SPILLED_REG.
  rewrite i8_id; lia.
Qed.

(** What a turn has to leave for the invariant to hold again. *)
Lemma scan_step P now a act free i vs' sv' pool' act' free' :
  scan_inv P now a act free -> In i ord -> ~ In i P -> i <> c -> now <= start_of vs0 i ->
  start_of vs0 i <= end_of vs0 i ->
  unassigned vs' = unassigned vs0 -> worklist sv' act' -> entries_ok (length vs0) sv' ->
  length (sv_vars sv') = (2 * cap)%nat ->
  (sv_first sv' <= cap <= sv_first sv' + S (length P))%nat -> (sv_last sv' <= cap + S (length P))%nat ->
  pool_has pool' (length act') free' -> (reg_of vs' <$> act') ++ free' ≡ₚ R -> NoDup act' ->
  (forall k, In k act' -> k = i \/ In k act) ->
  (forall k, k = i \/ (In k act /\ start_of vs0 i <= end_of vs0 k) ->
     In k act' \/ reg_of vs' k = SPILLED_REG) ->
  (forall k, k <> i -> reg_of vs' k = reg_of (al_vars a) k \/ (reg_of vs' k = SPILLED_REG /\ In k act)) ->
  (forall k, k = i \/ In k act -> reg_of vs' k = SPILLED_REG -> pressure) ->
  scan_inv (P ++ [i]) (start_of vs0 i) (mkAlloc vs' sv' pool') act' free'.
Proof using HR.
  intros I Hio HiP Hic Hnow Hse Hvs Hw He Hlen Hf Hl Hp Hr Hnd Hsub Hsup Hkeep Hpr.
  destruct (si_act _ _ _ _ _ I) as [Hand Hact].
  assert (forall k, In k P -> k <> c -> In k act' \/ reg_of vs' k = SPILLED_REG \/
            (In (reg_of vs' k) R /\ end_of vs0 k < start_of vs0 i)) as Hdone.
  { intros k Hk Hkc. assert (k <> i) as Hki by (intros ->; done).
    destruct (si_done _ _ _ _ _ I k Hk Hkc) as [Ha|[Hs|[HR1 Hd]]].
    - destruct (Z.le_gt_cases (start_of vs0 i) (end_of vs0 k)) as [Hle|Hgt].
      + destruct (Hsup k) as [|]; auto.
      + destruct (Hkeep k Hki) as [->|[-> _]]; [|auto]. right; right. split; [|lia].
        by eapply act_regs; [apply (si_regs _ _ _ _ _ I)|].
    - destruct (Hkeep k Hki) as [->|[-> _]]; auto.
    - destruct (Hkeep k Hki) as [->|[-> _]]; [|auto]. right; right. split; [done|lia]. }
  assert (reg_of vs' c = reg_of (al_vars a) c) as Hc.
  { destruct (Hkeep c) as [|[_ Hca]]; auto. by apply Hact in Hca as [_ ?]. }
  assert (forall k, In k P -> reg_of vs' k = reg_of vs' i -> reg_of vs' i <> SPILLED_REG ->
            end_of vs0 k < start_of vs0 i) as Hnew.
  { intros k Hk Heq Hns. destruct (Hsup i) as [Hia|]; [by left| |done].
    destruct (decide (k = c)) as [->|Hkc].
    - exfalso. apply (proj1 (si_ctx _ _ _ _ _ I)). rewrite <- Hc, Heq. by eapply act_regs.
    - destruct (Hdone k Hk Hkc) as [Hka|[Hs|[_ Hd]]]; [|congruence|done].
      exfalso. apply HiP. by rewrite <- (reg_inj vs' act' free' k i Hr Hka Hia Heq). }
  constructor; cbn [al_vars al_sorted al_pool]; try done.
  - rewrite length_app; simpl. lia.
  - rewrite length_app; simpl. lia.
  - split; [done|]. intros k Hk. destruct (Hsub k Hk) as [->|Ha].
    + split; [apply in_or_app; right; by left|done].
    + apply Hact in Ha as [? ?]. split; [|done]. apply in_or_app. by left.
  - intros k [Hk|[<-|[]]]%in_app_or; [|lia]. pose proof (si_now _ _ _ _ _ I k Hk). lia.
  - intros k [Hk|[<-|[]]]%in_app_or Hkc; [auto|]. destruct (Hsup i); auto.
  - intros k Hk Hkc Hko. rewrite in_app_iff in Hk. simpl in Hk.
    destruct (Hkeep k) as [->|[-> _]]; [intros ->; tauto| |done]. apply (si_todo _ _ _ _ _ I); tauto.
  - rewrite Hc. apply (si_ctx _ _ _ _ _ I).
  - rewrite Hc. apply (si_ctx_reg _ _ _ _ _ I).
  - assert (forall m, In m (P ++ [i]) -> m <> i -> In m P) as Hin
      by (intros m [?|[<-|[]]]%in_app_or; done).
    intros j k Hj Hk Hjk Heq Hns.
    destruct (decide (j = i)) as [->|Hji], (decide (k = i)) as [->|Hki]; [done|..].
    + right. apply Hnew; auto.
    + left. apply Hnew; auto. by rewrite <- Heq.
    + destruct (Hkeep j Hji) as [Ej|[Ej _]]; [|congruence].
      destruct (Hkeep k Hki) as [Ek|[Ek _]]; [|congruence].
      apply (si_disjoint _ _ _ _ _ I); auto; congruence.
  - intros k [Hk|[<-|[]]]%in_app_or Hs; [|by apply (Hpr i); auto].
    destruct (decide (k = i)) as [->|Hki]; [by apply (Hpr i); auto|].
    destruct (Hkeep k Hki) as [Ek|[_ Ha]]; [|by apply (Hpr k); auto].
    apply (si_spill _ _ _ _ _ I k Hk). congruence.
Qed.

(** The new variable joins the worklist at one of its ends. *)
Lemma insertVar_work vs sv act i v :
  worklist sv act -> entries_ok (length vs) sv -> (i < length vs)%nat ->
  (0 < sv_first sv < length (sv_vars sv))%nat -> (sv_last sv < length (sv_vars sv))%nat ->
  exists sv' act',
    insertVar vs sv i v = Some sv' /\
    worklist sv' act' /\ entries_ok (length vs) sv' /\ act' ≡ₚ i :: act /\
    (exists j act'', act' = j :: act'' /\ (j = i \/ act' = act ++ [i])) /\
    length (sv_vars sv') = length (sv_vars sv) /\
    (sv_first sv - 1 <= sv_first sv' <= sv_first sv)%nat /\ (sv_last sv' <= S (sv_last sv))%nat.
Proof.
  intros W E Hi Hf Hl.
  destruct (addFirstVar_work (length vs) sv act i W E) as (sf & Ef & Wf & Of & Lf & Ff & Lf'); [lia|done|].
  destruct (addLastVar_work (length vs) sv act i W E) as (sl & El & Wl & Ol & Ll & Fl & Ll'); [lia|done|].
  assert (exists sv' act', addFirstVar sv i = Some sv' /\ worklist sv' act' /\ entries_ok (length vs) sv' /\
      act' ≡ₚ i :: act /\ (exists j act'', act' = j :: act'' /\ (j = i \/ act' = act ++ [i])) /\
      length (sv_vars sv') = length (sv_vars sv) /\
      (sv_first sv - 1 <= sv_first sv' <= sv_first sv)%nat /\ (sv_last sv' <= S (sv_last sv))%nat) as HF.
  { exists sf, (i :: act). split; [done|]. do 3 (split; [done|]). split; [by eauto|]. lia. }
  unfold insertVar, getFirstVar. destruct (lookup_Some_lt (sv_vars sv) (sv_first sv)) as [e Ee]; [lia|].
  rewrite Ee. cbn [mbind option_bind]. destruct e as [j|]; [|exact HF].
  assert (j < length vs)%nat as Hj.
  { unfold entries_ok in E. rewrite Forall_lookup in E. exact (E _ _ Ee). }
  destruct (lookup_Some_lt vs j Hj) as [w Ew]. rewrite Ew. cbn [mbind option_bind].
  destruct (v_end w <=? v_end v); [exact HF|].
  exists sl, (act ++ [i]). split; [done|]. do 2 (split; [done|]).
  split; [symmetry; apply Permutation_cons_append|]. split; [|lia].
  destruct act as [|j' act'']; [exists i, []; auto|]. exists j', (act'' ++ [i]). auto.
Qed.

Lemma spill_pressure P now a act free i act1 :
  scan_inv P now a act free -> (forall k, In k P -> In k ord) -> In i ord -> ~ In i P -> i <> c ->
  now <= start_of vs0 i -> start_of vs0 i <= end_of vs0 i ->
  act1 = alive (al_vars a) (start_of vs0 i) act -> length act1 = length R -> pressure.
Proof.
  intros I HPo Hio HiP Hic Hnow Hse -> Hlen. destruct (si_act _ _ _ _ _ I) as [Hnd Hact].
  exists (start_of vs0 i), (i :: alive (al_vars a) (start_of vs0 i) act). split; [|split].
  - rewrite <- (alive_dead (al_vars a) (start_of vs0 i) act) in Hnd. apply list.NoDup_app in Hnd as [Hnd _].
    apply list.NoDup_cons. split; [|done]. rewrite list_elem_of_In. intros [Hin _]%List.filter_In.
    by apply Hact in Hin as [? _].
  - simpl. by rewrite Hlen.
  - intros k [<-|[Hin Hal]%List.filter_In]; [by repeat split|].
    apply Hact in Hin as [Hk Hkc]. split; [auto|]. split; [done|].
    unfold is_dead in Hal. rewrite (proj2 (unassigned_range _ _ k (si_vars _ _ _ _ _ I))) in Hal.
    pose proof (si_now _ _ _ _ _ I k Hk). apply negb_true_iff, Z.ltb_ge in Hal. lia.
Qed.

(** The variable [i], about to be given a register: [act1] are the variables
    still live at its start, [act2] those and [i], [free1] the free registers. *)
Record ready (P : list nat) (a : Alloc) (act : list nat) (i : nat)
    (sv2 : SortedVars) (pool1 : RegsPool) (act1 act2 : list nat) (free1 : list Z) : Prop := {
  rd_work : worklist sv2 act2;
  rd_entries : entries_ok (length vs0) sv2;
  rd_perm : act2 ≡ₚ i :: act1;
  rd_top : exists j act3, act2 = j :: act3 /\ (j = i \/ act2 = act1 ++ [i]);
  rd_length : length (sv_vars sv2) = (2 * cap)%nat;
  rd_first : (sv_first sv2 <= cap <= sv_first sv2 + S (length P))%nat;
  rd_last : (sv_last sv2 <= cap + S (length P))%nat;
  rd_pool : pool_has pool1 (length act1) free1;
  rd_regs : (reg_of (al_vars a) <$> act1) ++ free1 ≡ₚ R;
  rd_nodup : NoDup (i :: act1);
  rd_act1 : forall k, In k act1 <-> In k act /\ start_of vs0 i <= end_of vs0 k }.

Section Turn.
Context (P : list nat) (now : Z) (a : Alloc) (act : list nat) (free : list Z) (i : nat).
Context (I : scan_inv P now a act free) (HPo : forall k, In k P -> In k ord).
Context (Hio : In i ord) (HiP : ~ In i P) (Hic : i <> c).
Context (Hnow : now <= start_of vs0 i) (Hse : start_of vs0 i <= end_of vs0 i).
Context (v : Variable_) (Ev : al_vars a !! i = Some v).

Lemma act_hold : Forall (holds_reg (al_vars a)) act.
Proof using HRb I Hic.
  apply List.Forall_forall. intros k Hk.
  apply (act_regs (al_vars a) act free k (si_regs _ _ _ _ _ I)), R_not_spilled in Hk as [Hk _].
  split; [|done]. destruct (decide (k < length (al_vars a))%nat); [done|]. exfalso.
  apply Hk. unfold reg_of. by rewrite lookup_ge_None_2 by lia.
Qed.

Lemma prepare_var :
  (length P < cap)%nat ->
  exists sv1 pool1 sv2 act2 free1,
    removeDeadVars (al_vars a) (al_sorted a) (al_pool a) (start_of vs0 i) = Some (sv1, pool1) /\
    insertVar (al_vars a) sv1 i v = Some sv2 /\
    ready P a act i sv2 pool1 (alive (al_vars a) (start_of vs0 i) act) act2 free1.
Proof using HRb I HiP Hic Ev.
  intros HPc. pose proof (si_vars _ _ _ _ _ I) as Hvs.
  pose proof (unassigned_length _ _ Hvs) as Hlen. destruct (si_act _ _ _ _ _ I) as [Hnd Hact].
  pose proof (si_first _ _ _ _ _ I). pose proof (si_last _ _ _ _ _ I). pose proof (si_length _ _ _ _ _ I) as HL.
  pose proof (si_entries _ _ _ _ _ I) as He. rewrite <- Hlen in He.
  pose proof (lookup_lt_Some _ _ _ Ev) as Hi.
  destruct (removeDeadVars_spec (al_vars a) (length (al_vars a)) (start_of vs0 i) (al_sorted a) (al_pool a) act free)
    as (sv1 & pool1 & free1 & E1 & W1 & O1 & L1 & F1 & La1 & P1 & Q1); [apply I|done|apply act_hold|apply I|].
  set (act1 := alive (al_vars a) (start_of vs0 i) act) in *.
  destruct (insertVar_work (al_vars a) sv1 act1 i v W1 O1 Hi) as (sv2 & act2 & E2 & W2 & O2 & Pm2 & Top & L2 & F2 & La2);
    [lia..|].
  exists sv1, pool1, sv2, act2, free1. split; [done|]. split; [done|].
  constructor; try done; try lia; try congruence.
  - rewrite Q1, app_assoc, <- fmap_app. subst act1. rewrite alive_dead. apply (si_regs _ _ _ _ _ I).
  - apply list.NoDup_cons. rewrite list_elem_of_In. split.
    + intros [Hin _]%List.filter_In. by apply Hact in Hin as [? _].
    + rewrite <- (alive_dead (al_vars a) (start_of vs0 i) act) in Hnd. by apply list.NoDup_app in Hnd as [Hnd _].
  - intros k. unfold act1, alive. rewrite List.filter_In. unfold is_dead.
    by rewrite (proj2 (unassigned_range _ _ k Hvs)), negb_true_iff, Z.ltb_ge.
Qed.

Context (sv2 : SortedVars) (pool1 : RegsPool) (act2 : list nat) (free1 : list Z).
Let act1 := alive (al_vars a) (start_of vs0 i) act.
Context (D : ready P a act i sv2 pool1 act1 act2 free1).

(** A free register is left. *)
Lemma take_register r free2 pool2 :
  free1 = r :: free2 -> pool_has pool2 (S (length act1)) free2 ->
  scan_inv (P ++ [i]) (start_of vs0 i)
    (mkAlloc (<[i := set_reg (u8 (i8 r)) v]> (al_vars a)) sv2 pool2) act2 free2.
Proof using All.
  intros Hf HP2. destruct D as [W E Pm Top Le Fi La Po Rg Nd A1]. rewrite Hf in Rg.
  assert (In r R) as [Hr1 Hr2]%R_not_spilled by (rewrite <- Rg; apply in_or_app; right; by left).
  assert (forall k, reg_of (<[i := set_reg (u8 (i8 r)) v]> (al_vars a)) k =
            if decide (k = i) then r else reg_of (al_vars a) k) as Hreg.
  { intros k. rewrite reg_of_insert by done. by rewrite i8_u8, !Hr2. }
  assert (forall k, In k act1 -> reg_of (al_vars a) k <> SPILLED_REG) as Hns.
  { intros k Hk. eapply act_regs in Hk; [|exact Rg]. by apply R_not_spilled in Hk as [? _]. }
  apply (scan_step P now a act free); try done.
  - rewrite unassigned_insert by done. apply (si_vars _ _ _ _ _ I).
  - by rewrite Pm.
  - rewrite <- Rg, Pm. cbn [fmap list_fmap]. rewrite Hreg, decide_True by done.
    rewrite <- Permutation_middle. rewrite (reg_of_fmap (<[i:=_]> (al_vars a)) (al_vars a)); [done|].
    intros k Hk. rewrite Hreg, decide_False; [done|].
    intros ->. apply list.NoDup_cons in Nd as [Nd _]. by rewrite list_elem_of_In in Nd.
  - by rewrite Pm.
  - intros k Hk. apply (Permutation_in _ Pm) in Hk as [<-|Hk]; [by left|]. right. by apply A1.
  - intros k Hk. left. apply (Permutation_in _ (symmetry Pm)).
    destruct Hk as [->|Hk]; [by left|]. right. by apply A1.
  - intros k Hk. left. by rewrite Hreg, decide_False.
  - intros k Hk. rewrite Hreg. case_decide; [done|]. intros Hs. exfalso.
    destruct Hk as [->|Hk]; [done|].
    eapply act_regs in Hk; [|apply (si_regs _ _ _ _ _ I)]. by apply R_not_spilled in Hk as [? _].
Qed.

(** The registers after [j] has given its own up to [i]. *)
Definition handed_over (vs : list Variable_) (j k : nat) : Z :=
  if decide (k = j) then SPILLED_REG else if decide (k = i) then reg_of vs j else reg_of vs k.

(** The registers in use stay the same. *)
Lemma handed_regs j act3 vs' :
  act2 = j :: act3 -> free1 = [] -> (forall k, reg_of vs' k = handed_over (al_vars a) j k) ->
  (reg_of vs' <$> act3) ++ [] ≡ₚ R.
Proof using D.
  intros H2 Hf Hreg. destruct D as [W E Pm Top Le Fi La Po Rg Nd A1]. rewrite Hf in Rg. rewrite app_nil_r in *.
  subst act2. rewrite <- Rg. apply list.NoDup_cons in Nd as [Ni Nd].
  destruct (decide (j = i)) as [->|Hji].
  - apply Permutation_cons_inv in Pm. rewrite <- Pm.
    rewrite (reg_of_fmap vs' (al_vars a)); [done|]. intros k Hk. rewrite Hreg. unfold handed_over.
    rewrite decide_False, decide_False; [done|..]; intros ->; apply Ni; rewrite <- Pm; by apply list_elem_of_In.
  - assert (i ∈ act3) as [l Hl]%elem_of_Permutation.
    { assert (In i (j :: act3)) as [|] by (rewrite Pm; by left); [congruence|by apply list_elem_of_In]. }
    rewrite Hl in Pm. assert (act1 ≡ₚ j :: l) as Ha.
    { apply (Permutation_cons_inv (a := i)). rewrite <- Pm. constructor. }
    rewrite Ha in Ni, Nd. apply list.NoDup_cons in Nd as [Nj _]. rewrite Hl, Ha. cbn [fmap list_fmap].
    rewrite Hreg. unfold handed_over at 1. rewrite decide_False, decide_True by done.
    rewrite (reg_of_fmap vs' (al_vars a)); [done|]. intros k Hk%list_elem_of_In. rewrite Hreg. unfold handed_over.
    rewrite decide_False, decide_False; [done|..]; intros ->; [apply Ni; by right|done].
Qed.

(** No register is left: the variable at the front of the worklist loses its own. *)
Lemma spill_register vs' sv3 j act3 :
  free1 = [] -> act2 = j :: act3 -> unassigned vs' = unassigned vs0 ->
  (forall k, reg_of vs' k = handed_over (al_vars a) j k) ->
  worklist sv3 act3 -> entries_ok (length vs0) sv3 -> length (sv_vars sv3) = length (sv_vars sv2) ->
  sv_first sv3 = sv_first sv2 -> (sv_last sv3 <= sv_last sv2)%nat ->
  scan_inv (P ++ [i]) (start_of vs0 i) (mkAlloc vs' sv3 pool1) act3 [].
Proof using All.
  intros Hf H2 Hvs Hreg W3 E3 L3 F3 La3.
  pose proof (handed_regs j act3 vs' H2 Hf Hreg) as HR3.
  destruct D as [W E Pm Top Le Fi La Po Rg Nd A1]. rewrite Hf in Rg, Po. subst act2.
  assert (NoDup (j :: act3)) as Nd3 by by rewrite Pm.
  assert (length act3 = length act1) as Hl3 by (apply Permutation_length in Pm; simpl in Pm; lia).
  apply (scan_step P now a act free); try done; try lia; try congruence.
  - by apply list.NoDup_cons in Nd3 as [_ ?].
  - intros k Hk. assert (In k (i :: act1)) as [<-|Hk'] by (apply (Permutation_in _ Pm); by right); [by left|].
    right. by apply A1.
  - intros k Hk. assert (In k (j :: act3)) as [<-|Hk'].
    { apply (Permutation_in _ (symmetry Pm)). destruct Hk as [->|Hk]; [by left|]. right. by apply A1. }
    + right. rewrite Hreg. unfold handed_over. by rewrite decide_True.
    + by left.
  - intros k Hk. rewrite Hreg. unfold handed_over. destruct (decide (k = j)) as [->|Hkj].
    + right. split; [done|]. assert (In j (i :: act1)) as [|Hj] by (apply (Permutation_in _ Pm); by left);
        [congruence|]. by apply A1.
    + left. by rewrite decide_False.
  - intros k Hk Hs. apply (spill_pressure P now a act free i act1); try done.
    apply Permutation_length in Rg. rewrite app_nil_r, length_fmap in Rg. done.
Qed.

(** A variable of the worklist, or the new one, is in the array and its
    register fits a byte. *)
Lemma worklist_reg (Hv : v_reg v = SPILLED_REG) j :
  In j (i :: act1) -> (j < length (al_vars a))%nat /\ i8 (reg_of (al_vars a) j) = reg_of (al_vars a) j.
Proof using HRb I Hic Ev.
  intros [<-|[Hj _]%List.filter_In].
  - split; [by eapply lookup_lt_Some|]. unfold reg_of. rewrite Ev. cbn. by rewrite Hv.
  - pose proof act_hold as Hh. rewrite List.Forall_forall in Hh. destruct (Hh j Hj) as [Hl _]. split; [done|].
    eapply act_regs in Hj; [|apply (si_regs _ _ _ _ _ I)]. by apply R_not_spilled in Hj as [_ ?].
Qed.
End Turn.

Lemma allocateVar_inv P now a act free i :
  scan_inv P now a act free -> (forall k, In k P -> In k ord) -> In i ord -> ~ In i P -> i <> c ->
  now <= start_of vs0 i -> start_of vs0 i <= end_of vs0 i -> (i < length vs0)%nat ->
  (length P < cap)%nat ->
  exists a' act' free', allocateVar a i = Some a' /\ scan_inv (P ++ [i]) (start_of vs0 i) a' act' free'.
Proof using HR HRb.
  intros I HPo Hio HiP Hic Hnow Hse Hi HPc. pose proof (si_vars _ _ _ _ _ I) as Hvs.
  pose proof (unassigned_length _ _ Hvs) as Hlen.
  destruct (lookup_Some_lt (al_vars a) i) as [v Ev]; [lia|].
  assert (v_reg v = SPILLED_REG) as Hv.
  { pose proof (si_todo _ _ _ _ _ I i HiP Hic Hio) as Hr. unfold reg_of in Hr. by rewrite Ev in Hr. }
  assert (v_start v = start_of vs0 i) as Hst.
  { rewrite <- (proj1 (unassigned_range _ _ i Hvs)). unfold start_of. by rewrite Ev. }
  unfold allocateVar. rewrite Ev. cbn [mbind option_bind]. rewrite Hv, Z.eqb_refl. cbn [negb]. rewrite Hst.
  destruct (prepare_var P now a act free i I HiP Hic v Ev HPc) as (sv1 & pool1 & sv2 & act2 & free1 & E1 & E2 & D).
  rewrite E1. cbn [mbind option_bind]. rewrite E2. cbn [mbind option_bind].
  pose proof (rd_pool _ _ _ _ _ _ _ _ _ D) as HP1.
  destruct free1 as [|r free2].
  - rewrite (nextReg_none _ _ HP1). cbn [mbind option_bind].
    change (i8 (u8 SPILLED_REG) =? SPILLED_REG) with true. cbv iota.
    destruct (rd_top _ _ _ _ _ _ _ _ _ D) as (j & act3 & Ha2 & _).
    pose proof (rd_work _ _ _ _ _ _ _ _ _ D) as W2. rewrite Ha2 in W2.
    assert (In j (i :: alive (al_vars a) (start_of vs0 i) act)) as Hj
      by (apply (Permutation_in _ (rd_perm _ _ _ _ _ _ _ _ _ D)); rewrite Ha2; by left).
    destruct (worklist_reg P now a act free i I Hic v Ev Hv j Hj) as [Hjl Hj8].
    destruct (spill_stores (al_vars a) i j v Ev Hv Hjl Hj8) as (w & vs1 & Ew & Evs1 & w2 & Ew2 & Hun & Hreg).
    destruct (removeVar_work (length vs0) sv2 [] j act3 W2 (rd_entries _ _ _ _ _ _ _ _ _ D))
      as (sv3 & E3 & W3 & O3 & L3 & F3 & La3). rewrite Nat.add_0_r in E3.
    pose proof (worklist_lookup sv2 [] j act3 W2) as El. rewrite Nat.add_0_r in El.
    unfold removeFirstVar. rewrite El. cbn [mbind option_bind]. rewrite E3. cbn [mbind option_bind].
    rewrite Ew. cbn [mbind option_bind].
    rewrite (list_lookup_insert_eq (al_vars a)) by lia. cbn [mbind option_bind]. rewrite <- Evs1, Ew2.
    cbn [mbind option_bind]. eexists _, act3, []. split; [done|].
    apply (spill_register P now a act free i I HPo Hio HiP Hic Hnow Hse v Ev sv2 pool1 act2 [] D _ sv3 j act3); try done; try lia.
    by rewrite Hun.
  - destruct (nextReg_some _ _ r free2 HP1) as (pool2 & E3 & P3). rewrite E3. cbn [mbind option_bind].
    assert (In r R) as [Hr1 Hr2]%R_not_spilled
      by (rewrite <- (rd_regs _ _ _ _ _ _ _ _ _ D); apply in_or_app; right; by left).
    rewrite i8_u8, Hr2. rewrite (proj2 (Z.eqb_neq (i8 r) _)) by by rewrite Hr2.
    eexists _, act2, free2. split; [done|]. rewrite <- Hr2 at 1. by eapply take_register.
Qed.

(** The pinned context variable is passed over. *)
Lemma scan_skip P now a act free :
  scan_inv P now a act free -> ~ In c P -> now <= start_of vs0 c ->
  scan_inv (P ++ [c]) (start_of vs0 c) a act free.
Proof using HR.
  intros I HcP Hnow. destruct (si_act _ _ _ _ _ I) as [Hnd Hact]. destruct (si_ctx _ _ _ _ _ I) as [Hc1 Hc2].
  pose proof (si_first _ _ _ _ _ I). pose proof (si_last _ _ _ _ _ I).
  assert (forall k, In k P -> reg_of (al_vars a) k = reg_of (al_vars a) c -> False) as Hne.
  { intros k Hk Heq. destruct (si_done _ _ _ _ _ I k Hk) as [Ha|[Hs|[HRk _]]]; [intros ->; done|..].
    - apply Hc1. rewrite <- Heq. eapply act_regs; [apply (si_regs _ _ _ _ _ I)|done].
    - congruence.
    - by rewrite Heq in HRk. }
  constructor; try apply I; try (rewrite length_app; simpl; lia).
  - split; [done|]. intros k [Hk ?]%Hact. split; [|done]. apply in_or_app. by left.
  - intros k [Hk|[<-|[]]]%in_app_or; [|lia]. pose proof (si_now _ _ _ _ _ I k Hk). lia.
  - intros k [Hk|[<-|[]]]%in_app_or Hkc; [|done].
    destruct (si_done _ _ _ _ _ I k Hk Hkc) as [|[|[? ?]]]; auto. right; right. split; [done|lia].
  - intros k Hk Hkc. apply (si_todo _ _ _ _ _ I); [|done]. intros ?; apply Hk, in_or_app. by left.
  - intros j k [Hj|[<-|[]]]%in_app_or [Hk|[<-|[]]]%in_app_or Hjk Heq Hns; [| | |done].
    + by apply (si_disjoint _ _ _ _ _ I).
    + by destruct (Hne j Hj).
    + by destruct (Hne k Hk).
  - intros k [Hk|[<-|[]]]%in_app_or Hs; [|done]. by apply (si_spill _ _ _ _ _ I k).
Qed.

Context (Hord : NoDup ord) (Hcap : (length ord <= cap)%nat).
Context (Hin : forall i, In i ord -> (i < length vs0)%nat /\ start_of vs0 i <= end_of vs0 i).
Context (Hsort : StronglySorted (fun i j => start_of vs0 i <= start_of vs0 j) ord).

Lemma allocateVars_inv : forall l P now a act free,
  ord = P ++ l -> scan_inv P now a act free ->
  (forall i, In i l -> now <= start_of vs0 i) ->
  exists a' now' act' free', allocateVars a l = Some a' /\ scan_inv ord now' a' act' free'.
Proof using HR HRb Hord Hcap Hin Hsort.
  induction l as [|i l IH]; intros P now a act free Ho I Hnow.
  - rewrite app_nil_r in Ho. subst P. exists a, now, act, free. done.
  - assert (In i ord) as Hio by (rewrite Ho; apply in_or_app; right; by left).
    assert (~ In i P) as HiP.
    { rewrite Ho in Hord. apply list.NoDup_app in Hord as (_ & Hd & _). intros Hi%list_elem_of_In.
      apply (Hd i Hi). left. }
    assert (length P < cap)%nat by (rewrite Ho, length_app in Hcap; simpl in Hcap; lia).
    assert (forall k, In k l -> start_of vs0 i <= start_of vs0 k) as Hnext.
    { rewrite Ho in Hsort. apply StronglySorted_app_1_r in Hsort.
      apply StronglySorted_inv in Hsort as [_ Hf]. by rewrite List.Forall_forall in Hf. }
    cbn [allocateVars].
    assert (exists a1 act1 free1, allocateVar a i = Some a1 /\
              scan_inv (P ++ [i]) (start_of vs0 i) a1 act1 free1) as (a1 & act1 & free1 & E & I1).
    { destruct (decide (i = c)) as [->|Hic].
      - destruct (lookup_Some_lt (al_vars a) c) as [v Ev].
        { rewrite (unassigned_length _ _ (si_vars _ _ _ _ _ I)). by apply Hin. }
        exists a, act, free. split.
        + unfold allocateVar. rewrite Ev. cbn [mbind option_bind].
          pose proof (proj2 (si_ctx _ _ _ _ _ I)) as Hc. unfold reg_of in Hc. rewrite Ev in Hc.
          by rewrite (proj2 (Z.eqb_neq (v_reg v) SPILLED_REG)).
        + apply (scan_skip P now); [done|done|]. apply Hnow. by left.
      - apply (allocateVar_inv P now a act free i); try done.
        + intros k Hk. rewrite Ho. apply in_or_app. by left.
        + apply Hnow. by left.
        + by apply Hin.
        + by apply Hin. }
    rewrite E. cbn [mbind option_bind].
    apply (IH (P ++ [i]) (start_of vs0 i) a1 act1 free1); [by rewrite <- app_assoc|done|done].
Qed.
End Scan.

(** ** The scan of the registers *)

(** What the scan of the code leaves: variables in the order of their starts,
    none with a register yet. *)
Record ranges_ok (s : Vars) (c : nat) : Prop := {
  rg_ctx : contexts s !! 0%nat = Some (Some c);
  rg_ctx_in : (c < length (vars s))%nat;
  rg_nodup : NoDup (order s);
  rg_cap : (length (order s) <= capacity s)%nat;
  rg_in : forall i, In i (order s) -> (i < length (vars s))%nat /\
    start_of (vars s) i <= end_of (vars s) i /\ reg_of (vars s) i = SPILLED_REG;
  rg_sorted : StronglySorted (fun i j => start_of (vars s) i <= start_of (vars s) j) (order s);
  rg_nonneg : forall i, In i (order s) -> 0 <= start_of (vars s) i }.

(** A backend's registers are distinct bytes, and the one of the context is
    not in the pool. *)
Record backend_ok (regs : Backend) : Prop := {
  bk_nodup : NoDup (available regs);
  bk_range : Forall (fun r => 0 <= r < 128) (available regs);
  bk_size : (length (available regs) <= 255)%nat;
  bk_ctx : ~ In (CTX regs) (available regs);
  bk_ctx_range : 0 <= CTX regs < 128 }.

Existing Class backend_ok.

#[export] Instance x64_backend_ok : backend_ok X64AvailableRegs.
Proof. split; try (apply (bool_decide_unpack _); by vm_compute); vm_compute; lia || intuition lia. Qed.

#[export] Instance ppc64_backend_ok : backend_ok Ppc64AvailableRegs.
Proof. split; try (apply (bool_decide_unpack _); by vm_compute); vm_compute; lia || intuition lia. Qed.

(** The registers the allocator may use. *)
Definition pool_of (regs : Backend) (limit : Z) : list Z :=
  take (availableRegsSize limit (available regs)) (available regs).

Lemma availableRegsSize_le limit regs :
  (length regs <= 255)%nat -> (availableRegsSize limit regs <= length regs)%nat.
Proof.
  intros H. unfold availableRegsSize. destruct (_ && _) eqn:E; [|done].
  apply andb_prop in E as [E1%Z.ltb_lt E2%Z.ltb_lt]. rewrite u8_id by lia. lia.
Qed.

Lemma initRegsPool_pool regs limit :
  backend_ok regs ->
  exists pool, initRegsPool limit (available regs) = Some pool /\ pool_has pool 0 (pool_of regs limit).
Proof.
  intros [_ _ Hs _ _]. pose proof (availableRegsSize_le limit _ Hs) as Hle.
  unfold initRegsPool, memcpy. rewrite slice_Some by lia. cbn [mbind option_bind].
  rewrite blit_Some by (rewrite length_take, length_drop, length_replicate; lia). cbn [mbind option_bind].
  eexists; split; [done|]. exists [], (drop (availableRegsSize limit (available regs)) (replicate 512 0)).
  cbn [pool_regs pool_tmp pool_end]. rewrite drop_0, take_0. unfold pool_of.
  rewrite length_take, Nat.min_l by done. done.
Qed.

Lemma sorted_impl {A} (P Q : A -> A -> Prop) l :
  (forall x y, P x y -> Q x y) -> StronglySorted P l -> StronglySorted Q l.
Proof. intros H. induction 1; constructor; [done|]. eapply Forall_impl; [done|]. intros y. apply H. Qed.

Definition live_at (s : Vars) (p : Z) (i : nat) : Prop :=
  start_of (vars s) i <= p <= end_of (vars s) i.

(** What an allocation of the variables of [s] has to satisfy, with the
    registers [R] and the context variable [c]. *)
Record assignment_ok (s : Vars) (c : nat) (R : list Z) (ctx : Z) (vs : list Variable_) : Prop := {
  as_ranges : unassigned vs = unassigned (vars s);
  as_ctx : reg_of vs c = ctx;
  as_regs : forall i, In i (order s) -> i <> c -> reg_of vs i = SPILLED_REG \/ In (reg_of vs i) R;
  as_disjoint : forall i j p, In i (order s) -> In j (order s) -> live_at s p i -> live_at s p j ->
    reg_of vs i = reg_of vs j -> reg_of vs i <> SPILLED_REG -> i = j;
  as_spills : forall i, In i (order s) -> reg_of vs i = SPILLED_REG ->
    exists p l, NoDup l /\ length l = S (length R) /\
      forall k, In k l -> In k (order s) /\ k <> c /\ live_at s p k }.

Lemma scanRegisters_assigns s regs limit c :
  ranges_ok s c -> backend_ok regs ->
  exists vs, scanRegisters s regs limit = Some (set_vars vs s) /\
    assignment_ok s c (pool_of regs limit) (CTX regs) vs.
Proof.
  intros G B. unfold scanRegisters.
  destruct (initRegsPool_pool regs limit B) as (pool & Ep & HP). rewrite Ep. cbn [mbind option_bind].
  rewrite (rg_ctx _ _ G). cbn [mbind option_bind].
  destruct (lookup_Some_lt (vars s) c (rg_ctx_in _ _ G)) as [v Ev]. rewrite Ev. cbn [mbind option_bind].
  set (vs0 := <[c := set_reg (CTX regs) v]> (vars s)). set (R := pool_of regs limit) in *.
  assert (unassigned vs0 = unassigned (vars s)) as Hun by by apply unassigned_insert.
  assert (forall i, start_of vs0 i = start_of (vars s) i /\ end_of vs0 i = end_of (vars s) i) as Hrange
    by (intros; by apply unassigned_range).
  assert (forall i, reg_of vs0 i = if decide (i = c) then CTX regs else reg_of (vars s) i) as Hreg.
  { intros i. unfold vs0. rewrite reg_of_insert by done. rewrite i8_id; [done|]. pose proof (bk_ctx_range _ B). lia. }
  assert (~ In (CTX regs) R /\ CTX regs <> SPILLED_REG) as [HcR HcS].
  { split; [|pose proof (bk_ctx_range _ B); unfold SPILLED_REG; lia].
    intros Hc. apply (bk_ctx _ B). unfold R, pool_of in Hc. apply list_elem_of_In in Hc.
    apply list_elem_of_In. apply elem_of_take in Hc as (n & Hn & _). by eapply list_elem_of_lookup_2. }
  destruct (allocateVars_inv vs0 R (order s) c (capacity s)) with (l := order s) (P := @nil nat) (now := 0)
    (a := mkAlloc vs0 (initSortedVars (capacity s)) pool) (act := @nil nat) (free := R)
    as (a' & now & act & free & Ea & I).
  - unfold R, pool_of. apply (sublist_NoDup _ (available regs)); [apply B|apply sublist_take].
  - unfold R, pool_of. apply Forall_take, B.
  - apply G.
  - apply G.
  - intros i Hi. destruct (rg_in _ _ G i Hi) as (? & ? & _). destruct (Hrange i) as [-> ->].
    split; [|done]. unfold vs0. by rewrite length_insert.
  - eapply sorted_impl; [|exact (rg_sorted _ _ G)]. intros i j. cbn.
    by rewrite (proj1 (Hrange i)), (proj1 (Hrange j)).
  - done.
  - constructor; cbn [al_vars al_sorted al_pool length]; try done; try lia.
    + apply worklist_init.
    + apply Forall_replicate. done.
    + cbn. by rewrite length_replicate.
    + cbn. lia.
    + cbn. lia.
    + split; [constructor|done].
    + intros i _ Hic Hi. rewrite Hreg, decide_False by done. by apply G.
    + rewrite Hreg, decide_True by done. done.
  - intros i Hi. rewrite (proj1 (Hrange i)). by apply G.
  - rewrite Ea. cbn [mbind option_bind]. eexists; split; [done|].
    constructor.
    + by rewrite (si_vars _ _ _ _ _ _ _ _ _ _ I).
    + rewrite (si_ctx_reg _ _ _ _ _ _ _ _ _ _ I), Hreg. by rewrite decide_True.
    + intros i Hi Hic. destruct (si_done _ _ _ _ _ _ _ _ _ _ I i Hi Hic) as [Ha|[|[? _]]]; auto.
      right. eapply act_regs; [apply (si_regs _ _ _ _ _ _ _ _ _ _ I)|done].
    + intros i j p Hi Hj Li Lj Heq Hns. destruct (decide (i = j)); [done|]. exfalso. unfold live_at in *.
      pose proof (si_disjoint _ _ _ _ _ _ _ _ _ _ I i j Hi Hj n Heq Hns) as Hd.
      destruct (Hrange i) as [E1 E2], (Hrange j) as [E3 E4]. rewrite E1, E2, E3, E4 in Hd. lia.
    + intros i Hi Hs. destruct (si_spill _ _ _ _ _ _ _ _ _ _ I i Hi Hs) as (p & l & Hl1 & Hl2 & Hl3).
      exists p, l. split; [done|]. split; [done|]. intros k Hk. destruct (Hl3 k Hk) as (? & ? & ?).
      unfold live_at. by destruct (Hrange k) as [<- <-].
Qed.
