(* ===== verification/RegisterRanges.v ===== *)
(** * RegisterRanges

    The scan of the bytecodes: the live ranges it computes cover every use of
    every variable, the ranges the collector sees reach the end of the loops
    they are used in, every variable is defined once and in the order of the
    starts, and no two variables with a place in the frame have the same one. *)
From S2P Require Import Prelude Endian Bytecodes.
From stdpp Require Import list sorting.
From S2P Require Import RegisterAllocator RegisterProofs.
#[local] Open Scope Z_scope.

Definition gcEnd_of (vs : list Variable_) (i : nat) : Z := default 0 (v_gcEnd <$> vs !! i).
Definition offset_of (vs : list Variable_) (i : nat) : Z := default 0 (v_frameOffset <$> vs !! i).

(** ** The invariant of the scan

    [top] is the highest place in the frame, that of the last argument; the
    place -1 is reserved. *)
Section Frame.
Context (top : Z).

(** What holds of a defined variable when the scan has reached [now]. *)
Definition var_ok (now : Z) (v : Variable_) : Prop :=
  v_reg v = SPILLED_REG /\ 0 <= v_start v <= v_end v /\ v_end v <= v_gcEnd v <= now.

Definition is_defined (v : Variable_) : Prop := (Z.land (v_flags v) VAR_DEFINED =? 0) = false.

(** [framed] are the variables with a place in the frame. *)
Record core (s : Vars) (now : Z) (framed : list nat) : Prop := {
  c_len : (capacity s <= length (vars s))%nat;
  c_size : (varsSize s <= capacity s)%nat;
  c_nodup : NoDup (order s);
  c_in : forall i, In i (order s) -> (i < varsSize s)%nat;
  c_flag : forall i v, vars s !! i = Some v -> is_defined v <-> In i (order s);
  c_var : forall i v, In i (order s) -> vars s !! i = Some v -> var_ok now v;
  c_sorted : StronglySorted (fun i j => start_of (vars s) i <= start_of (vars s) j) (order s);
  c_rows : forall ty k i, specialVars s ty !! k = Some (Some i) -> In i (order s);
  c_framed : forall i, In i framed -> In i (order s) /\
    frameSize s < offset_of (vars s) i <= top /\ offset_of (vars s) i <> -1;
  c_distinct : forall i j, In i framed -> In j framed ->
    offset_of (vars s) i = offset_of (vars s) j -> i = j }.

(** What later steps keep of the state. *)
Record grows (s s' : Vars) : Prop := {
  g_cap : capacity s' = capacity s;
  g_size : (varsSize s <= varsSize s')%nat;
  g_order : forall i, In i (order s) -> In i (order s');
  g_start : forall i, In i (order s) -> start_of (vars s') i = start_of (vars s) i;
  g_end : forall i, In i (order s) -> end_of (vars s) i <= end_of (vars s') i;
  g_gcEnd : forall i, In i (order s) -> gcEnd_of (vars s) i <= gcEnd_of (vars s') i;
  g_offset : forall i, In i (order s) -> offset_of (vars s') i = offset_of (vars s) i;
  g_rows : forall ty k i, specialVars s ty !! k = Some (Some i) -> specialVars s' ty !! k = Some (Some i);
  g_frame : frameSize s' <= frameSize s }.

Lemma grows_refl s : grows s s.
Proof. constructor; intros; done || lia. Qed.

Lemma grows_trans s1 s2 s3 : grows s1 s2 -> grows s2 s3 -> grows s1 s3.
Proof.
  intros A B. constructor; intros.
  - by rewrite (g_cap _ _ B), (g_cap _ _ A).
  - pose proof (g_size _ _ A). pose proof (g_size _ _ B). lia.
  - by apply (g_order _ _ B), (g_order _ _ A).
  - rewrite (g_start _ _ B), (g_start _ _ A); [done..|by apply (g_order _ _ A)].
  - etrans; [by apply (g_end _ _ A)|]. by apply (g_end _ _ B), (g_order _ _ A).
  - etrans; [by apply (g_gcEnd _ _ A)|]. by apply (g_gcEnd _ _ B), (g_order _ _ A).
  - rewrite (g_offset _ _ B), (g_offset _ _ A); [done..|by apply (g_order _ _ A)].
  - by apply (g_rows _ _ B), (g_rows _ _ A).
  - pose proof (g_frame _ _ A). pose proof (g_frame _ _ B). lia.
Qed.

(** The variable [i] is live at [p], for the registers and for the collector. *)
Definition covers (s : Vars) (i : nat) (p : Z) : Prop :=
  In i (order s) /\ start_of (vars s) i <= p /\ p <= end_of (vars s) i /\
  end_of (vars s) i <= gcEnd_of (vars s) i.

Lemma core_lookup s now fr i :
  core s now fr -> In i (order s) -> exists v, vars s !! i = Some v /\ var_ok now v.
Proof.
  intros C Hi. destruct (lookup_Some_lt (vars s) i) as [v Ev].
  - pose proof (c_in _ _ _ C i Hi). pose proof (c_size _ _ _ C). pose proof (c_len _ _ _ C). lia.
  - exists v. split; [done|]. by apply (c_var _ _ _ C i).
Qed.

Lemma core_range s now fr i :
  core s now fr -> In i (order s) ->
  0 <= start_of (vars s) i <= end_of (vars s) i /\ end_of (vars s) i <= gcEnd_of (vars s) i <= now /\
  reg_of (vars s) i = SPILLED_REG.
Proof.
  intros C Hi. destruct (core_lookup s now fr i C Hi) as (v & Ev & Hr & H1 & H2).
  unfold start_of, end_of, gcEnd_of, reg_of. rewrite Ev. done.
Qed.

Lemma covers_grows s s' now fr i p : core s' now fr -> grows s s' -> covers s i p -> covers s' i p.
Proof.
  intros C G (Hi & H1 & H2 & H3). pose proof (g_order _ _ G i Hi) as Hi'.
  pose proof (core_range _ _ _ _ C Hi') as (? & ? & _). split; [done|].
  rewrite (g_start _ _ G) by done. pose proof (g_end _ _ G i Hi). lia.
Qed.

(** Time passes. *)
Lemma core_later s now now' fr : core s now fr -> now <= now' -> core s now' fr.
Proof.
  intros C H. constructor; try apply C.
  intros i v Hi Ev. destruct (c_var _ _ _ C i v Hi Ev) as (? & ? & ?). repeat split; done || lia.
Qed.

(** Fields the invariant does not look at. *)
Lemma core_same s s' now fr :
  core s now fr -> capacity s' = capacity s -> varsSize s' = varsSize s -> vars s' = vars s ->
  order s' = order s -> contexts s' = contexts s -> assocs s' = assocs s -> frameSize s' = frameSize s ->
  core s' now fr /\ grows s s'.
Proof.
  intros C E1 E2 E3 E4 E5 E6 E7. split.
  - constructor; rewrite ?E1, ?E2, ?E3, ?E4, ?E7; try apply C.
    intros ty k i. unfold specialVars. rewrite E5, E6. apply (c_rows _ _ _ C).
  - constructor; intros; rewrite ?E1, ?E2, ?E3, ?E4, ?E7; try done; try lia.
    unfold specialVars in *. by rewrite E5, E6.
Qed.

Lemma frameLess_ok b s now fr :
  core s now fr -> core (set_frameLess b s) now fr /\ grows s (set_frameLess b s).
Proof. intros C. by apply core_same. Qed.

Lemma noteOffset_ok o s now fr :
  core s now fr -> core (noteOffset o s) now fr /\ grows s (noteOffset o s).
Proof. intros C. by apply core_same. Qed.

(** ** The steps *)

(** A change of a variable that only lengthens its ranges. *)
Definition lengthens (now : Z) (v w : Variable_) : Prop :=
  (is_defined w <-> is_defined v) /\ v_reg w = v_reg v /\ v_start w = v_start v /\ v_frameOffset w = v_frameOffset v /\
  v_end v <= v_end w /\ v_gcEnd v <= v_gcEnd w /\ v_end w <= v_gcEnd w <= now.

Lemma lookup_update {B} (g : Variable_ -> B) (d : B) vs i w k :
  (i < length vs)%nat ->
  default d (g <$> <[i := w]> vs !! k) = if decide (k = i) then g w else default d (g <$> vs !! k).
Proof.
  intros Hi. destruct (decide (k = i)) as [->|Hne].
  - by rewrite list_lookup_insert_eq.
  - by rewrite list_lookup_insert_ne by done.
Qed.

(** A variable is changed in place. *)
Lemma update_core s now now' fr i f v :
  core s now fr -> In i (order s) -> now <= now' -> vars s !! i = Some v ->
  (is_defined (f v) <-> is_defined v) -> v_start (f v) = v_start v ->
  v_frameOffset (f v) = v_frameOffset v -> var_ok now' (f v) ->
  update i f s = Some (set_vars (<[i := f v]> (vars s)) s) /\
  core (set_vars (<[i := f v]> (vars s)) s) now' fr.
Proof.
  intros C Hi Hn Ev F1 F3 F4 Hv. pose proof (lookup_lt_Some _ _ _ Ev) as Hl.
  split; [unfold update; by rewrite Ev|].
  assert (forall k, start_of (<[i := f v]> (vars s)) k = start_of (vars s) k) as Hst.
  { intros k. unfold start_of. rewrite lookup_update by done. case_decide as E; [|done]. subst k. by rewrite Ev. }
  assert (forall k, offset_of (<[i := f v]> (vars s)) k = offset_of (vars s) k) as Hoff.
  { intros k. unfold offset_of. rewrite lookup_update by done. case_decide as E; [|done]. subst k. by rewrite Ev. }
  constructor; cbn [set_vars capacity vars varsSize order frameSize]; try apply C.
  - rewrite length_insert. apply C.
  - intros k w Ew. destruct (decide (k = i)) as [->|Hne].
    + rewrite list_lookup_insert_eq in Ew by done. injection Ew as <-. rewrite F1.
      by apply (c_flag _ _ _ C i v).
    + rewrite list_lookup_insert_ne in Ew by done. by apply (c_flag _ _ _ C).
  - intros k w Hk Ew. destruct (decide (k = i)) as [->|Hne].
    + rewrite list_lookup_insert_eq in Ew by done. by injection Ew as <-.
    + rewrite list_lookup_insert_ne in Ew by done. destruct (c_var _ _ _ C k w Hk Ew) as (? & ? & ?).
      repeat split; done || lia.
  - eapply sorted_impl; [|apply (c_sorted _ _ _ C)]. intros j k. cbn. by rewrite !Hst.
  - intros k Hk. rewrite Hoff. by apply C.
  - intros j k Hj Hk. rewrite !Hoff. by apply C.
Qed.

Lemma update_ok s now now' fr i f :
  core s now fr -> In i (order s) -> now <= now' ->
  (forall v, vars s !! i = Some v -> var_ok now v -> lengthens now' v (f v)) ->
  exists v, vars s !! i = Some v /\
    update i f s = Some (set_vars (<[i := f v]> (vars s)) s) /\
    core (set_vars (<[i := f v]> (vars s)) s) now' fr /\ grows s (set_vars (<[i := f v]> (vars s)) s).
Proof.
  intros C Hi Hn Hf. destruct (core_lookup s now fr i C Hi) as (v & Ev & Hv).
  destruct (Hf v Ev Hv) as (F1 & F2 & F3 & F4 & F5 & F6 & F7).
  pose proof (lookup_lt_Some _ _ _ Ev) as Hl.
  destruct (update_core s now now' fr i f v C Hi Hn Ev F1 F3 F4) as [E C'].
  { destruct Hv as (V1 & V2 & V3). repeat split; try congruence; lia. }
  exists v. do 3 (split; [done|]).
  constructor; cbn [set_vars capacity vars varsSize order frameSize]; try done; try lia.
  - intros k _. unfold start_of. rewrite lookup_update by done. case_decide as Ek; [|done]. subst k. by rewrite Ev.
  - intros k _. unfold end_of. rewrite lookup_update by done. case_decide as Ek; [|lia]. subst k. by rewrite Ev.
  - intros k _. unfold gcEnd_of. rewrite lookup_update by done. case_decide as Ek; [|lia]. subst k. by rewrite Ev.
  - intros k _. unfold offset_of. rewrite lookup_update by done. case_decide as Ek; [|done]. subst k. by rewrite Ev.
Qed.

Lemma nodup_bound (l : list nat) n : NoDup l -> (forall x, In x l -> (x < n)%nat) -> (length l <= n)%nat.
Proof.
  intros Hn H. rewrite <- (length_seq n 0). apply submseteq_length, NoDup_submseteq; [done|].
  intros x Hx%list_elem_of_In. apply elem_of_seq. specialize (H x Hx). lia.
Qed.

Lemma sorted_ext (f g : nat -> Z) l :
  (forall x, In x l -> f x = g x) ->
  StronglySorted (fun i j => f i <= f j) l -> StronglySorted (fun i j => g i <= g j) l.
Proof.
  intros H S. induction S as [|x l S IH HF]; constructor.
  - apply IH. intros y Hy. apply H. by right.
  - rewrite List.Forall_forall in *. intros y Hy. rewrite <- (H x), <- (H y) by (simpl; auto). by apply HF.
Qed.

(** A new variable, whose index is below [varsSize]. *)
Lemma defineVar_ok s now offset fr ty i :
  core s now fr -> ~ In i (order s) -> (i < varsSize s)%nat -> 0 <= now <= offset ->
  (forall j, In j (order s) -> start_of (vars s) j <= offset) ->
  (ty <> VAR_ASSOC -> frameSize s <= top /\ frameSize s <> -1) ->
  let fr' := match ty with VAR_ASSOC => fr | _ => i :: fr end in
  exists s', defineVar s ty i offset = Some s' /\ core s' offset fr' /\ grows s s' /\ covers s' i offset /\
    varsSize s' = varsSize s /\ contexts s' = contexts s /\ assocs s' = assocs s /\
    order s' = order s ++ [i] /\ frameSize s' = (match ty with VAR_ASSOC => frameSize s | _ => frameSize s - 1 end) /\
    (ty <> VAR_ASSOC -> offset_of (vars s') i = frameSize s).
Proof.
  intros C Hi Hs Ho Hst Hfs fr'. pose proof (c_size _ _ _ C). pose proof (c_len _ _ _ C).
  assert (NoDup (order s ++ [i])) as Hnd.
  { apply list.NoDup_app. split; [apply C|]. split; [|apply NoDup_singleton].
    intros x Hx ->%list_elem_of_singleton. by apply Hi, list_elem_of_In. }
  assert (forall x, In x (order s ++ [i]) -> (x < varsSize s)%nat) as Hin
    by (intros x [Hx|[<-|[]]]%in_app_or; [by apply (c_in _ _ _ C)|done]).
  pose proof (nodup_bound _ _ Hnd Hin) as Hlen. rewrite length_app in Hlen. cbn [length] in Hlen.
  unfold defineVar, ASSERT. rewrite (proj2 (Nat.ltb_lt i _)) by lia. cbn [mbind option_bind].
  destruct (lookup_Some_lt (vars s) i) as [v0 Ev0]; [lia|]. rewrite Ev0. cbn [mbind option_bind].
  rewrite (proj2 (Nat.ltb_lt (length (order s)) _)) by lia. cbn [mbind option_bind].
  eexists; split; [done|].
  set (v := mkVariable _ _ _ _ _ _ _).
  assert (forall k, In k (order s) -> <[i := v]> (vars s) !! k = vars s !! k) as Hk
    by (intros k Hk; apply list_lookup_insert_ne; intros ->; done).
  assert (<[i := v]> (vars s) !! i = Some v) as Hv by (apply list_lookup_insert_eq; lia).
  split; [|split; [|split; [|do 4 (split; [done|]); split; [by destruct ty|]]]].
  4:{ intros Hty. unfold offset_of; cbn [vars]. rewrite Hv. by destruct ty. }
  - constructor; cbn [capacity vars varsSize order frameSize]; try done; try apply C.
    + by rewrite length_insert.
    + intros k w Ew. rewrite in_app_iff. destruct (decide (k = i)) as [->|Hne].
      * rewrite Hv in Ew. injection Ew as <-. split; [right; by left|done].
      * rewrite list_lookup_insert_ne in Ew by done. rewrite (c_flag _ _ _ C k w Ew). simpl. split; [tauto|]. by intros [?|[->|[]]].
    + intros k w [Hkk|[<-|[]]]%in_app_or Ew.
      * rewrite Hk in Ew by done. destruct (c_var _ _ _ C k w Hkk Ew) as (? & ? & ?). repeat split; done || lia.
      * rewrite Hv in Ew. injection Ew as <-. repeat split; cbn; lia.
    + apply StronglySorted_app_2.
      * intros j k Hj ->%list_elem_of_singleton. unfold start_of at 2. rewrite Hv. cbn.
        unfold start_of. rewrite Hk by by apply list_elem_of_In. by apply Hst, list_elem_of_In.
      * eapply sorted_ext; [|apply (c_sorted _ _ _ C)]. intros k Hkk. unfold start_of. by rewrite Hk.
      * repeat constructor.
    + intros ty' k j Hr. apply in_or_app. left. by apply (c_rows _ _ _ C ty' k).
    + intros k Hfr. assert (k = i /\ ty <> VAR_ASSOC \/ In k fr) as [[-> Hty]|Hfr']
        by (destruct ty; [destruct Hfr as [<-|]; [left; done|by right]|by right|destruct Hfr as [<-|]; [left; done|by right]]).
      * split; [apply in_or_app; right; by left|]. unfold offset_of. rewrite Hv. cbn. specialize (Hfs Hty).
        destruct ty; done || lia.
      * destruct (c_framed _ _ _ C k Hfr') as [Hko Hkf]. split; [apply in_or_app; by left|].
        unfold offset_of. rewrite Hk by done. unfold offset_of in Hkf. destruct ty; lia.
    + assert (forall k, In k fr' -> k = i /\ offset_of (<[i := v]> (vars s)) k = frameSize s \/
                In k fr /\ offset_of (<[i := v]> (vars s)) k = offset_of (vars s) k) as Hfr.
      { intros k Hf. assert (k = i /\ ty <> VAR_ASSOC \/ In k fr) as [[-> Hty]|Hfr']
          by (destruct ty; [destruct Hf as [<-|]; [left; done|by right]|by right|destruct Hf as [<-|]; [left; done|by right]]).
        - left. split; [done|]. unfold offset_of. rewrite Hv. by destruct ty.
        - right. split; [done|]. unfold offset_of. rewrite Hk; [done|]. by apply (c_framed _ _ _ C). }
      intros j k [[-> Ej]|[Hj Ej]]%Hfr [[-> Ek]|[Hk' Ek]]%Hfr; [done|..]; rewrite Ej, Ek; intros E.
      * pose proof (proj2 (c_framed _ _ _ C k Hk')). lia.
      * pose proof (proj2 (c_framed _ _ _ C j Hj)). lia.
      * by apply (c_distinct _ _ _ C).
  - constructor; cbn [capacity vars varsSize order frameSize]; try done.
    + intros k Hkk. apply in_or_app. by left.
    + intros k Hkk. unfold start_of. by rewrite Hk.
    + intros k Hkk. unfold end_of. by rewrite Hk.
    + intros k Hkk. unfold gcEnd_of. by rewrite Hk.
    + intros k Hkk. unfold offset_of. by rewrite Hk.
    + destruct ty; lia.
  - unfold covers, start_of, end_of, gcEnd_of; cbn [vars order]. rewrite Hv. cbn.
    split; [apply in_or_app; right; by left|]. lia.
Qed.

(** ** The tables of special variables *)

(** The entries in use. *)
Fixpoint filled (l : list (option nat)) : nat :=
  match l with
  | [] => O
  | Some _ :: l => S (filled l)
  | None :: l => filled l
  end.

Lemma filled_le l : (filled l <= length l)%nat.
Proof. induction l as [|[x|] l IH]; simpl; lia. Qed.

Lemma filled_insert l i x :
  l !! i = Some None -> filled (<[i := Some x]> l) = S (filled l) /\ (filled l < length l)%nat.
Proof.
  revert i. induction l as [|e l IH]; intros [|i] H; simpl in *; try done.
  - injection H as ->. pose proof (filled_le l). lia.
  - destruct (IH i H) as [-> ?]. destruct e; simpl; lia.
Qed.

Lemma filled_pos l i x : l !! i = Some (Some x) -> (0 < filled l)%nat.
Proof.
  revert i. induction l as [|e l IH]; intros [|i] H; simpl in *; try done.
  - injection H as ->. lia.
  - apply IH in H. destruct e; lia.
Qed.

(** The state of the scan of a method with [T] temporaries and [L] literals. *)
Record scan_ok (T L : nat) (s : Vars) (now : Z) (framed : list nat) : Prop := {
  k_core : core s now framed;
  k_now : 0 <= now;
  k_frame : frameSize s <= -2 /\ -1 <= top;
  k_capacity : capacity s = (T + REGS_ALLOC_CONTEXT_LEVELS + L)%nat;
  k_temps : (2 <= T)%nat;
  k_ctx0 : contexts s !! 0%nat = Some (Some CONTEXT_INDEX);
  k_contexts : length (contexts s) = REGS_ALLOC_CONTEXT_LEVELS;
  k_assocs : (L <= length (assocs s))%nat;
  k_count : (varsSize s + 1 = T + filled (contexts s) + filled (take L (assocs s)))%nat;
  k_self : In SELF_INDEX (order s);
  k_framed : forall i, In i (order s) -> In i framed \/ exists k, assocs s !! k = Some (Some i);
  k_high : forall k i, assocs s !! k = Some (Some i) -> (T <= i)%nat }.

Lemma scan_ok_same T L s s' now fr :
  scan_ok T L s now fr -> capacity s' = capacity s -> varsSize s' = varsSize s -> vars s' = vars s ->
  order s' = order s -> contexts s' = contexts s -> assocs s' = assocs s -> frameSize s' = frameSize s ->
  scan_ok T L s' now fr /\ grows s s'.
Proof.
  intros K E1 E2 E3 E4 E5 E6 E7. destruct (core_same s s' now fr) as [C G]; [apply K|done..|].
  split; [|done]. constructor; rewrite ?E1, ?E2, ?E4, ?E5, ?E6, ?E7; by destruct K.
Qed.

Lemma varsSize_temps T L s now fr : scan_ok T L s now fr -> (T <= varsSize s)%nat.
Proof. intros K. pose proof (filled_pos _ _ _ (k_ctx0 _ _ _ _ _ K)). pose proof (k_count _ _ _ _ _ K). lia. Qed.

(** A variable known to the scan is used again. *)
Lemma extend_ok T L s now offset fr i :
  scan_ok T L s now fr -> In i (order s) -> now <= offset ->
  exists s', update i (extend offset) s = Some s' /\ scan_ok T L s' offset fr /\ grows s s' /\
    covers s' i offset /\ varsSize s' = varsSize s /\ contexts s' = contexts s /\ assocs s' = assocs s /\
    order s' = order s.
Proof.
  intros K Hi Ho. destruct (update_ok s now offset fr i (extend offset) (k_core _ _ _ _ _ K) Hi Ho) as (v & Ev & E & C & G).
  { intros v _ (_ & H1 & H2). unfold lengthens. split; [done|]. unfold extend; cbn. repeat split; try lia; case_bool; lia. }
  eexists; split; [done|]. split; [|split; [done|split; [|done]]].
  - destruct K. constructor; cbn [set_vars capacity vars varsSize order contexts assocs]; done || lia.
  - pose proof (core_range _ _ _ i C Hi) as (H1 & H2 & _). split; [done|].
    destruct (c_var _ _ _ (k_core _ _ _ _ _ K) i v Hi Ev) as (_ & ? & ?).
    unfold start_of, end_of, gcEnd_of. cbn [set_vars vars].
    rewrite !lookup_update by by eapply lookup_lt_Some. rewrite !decide_True by done.
    cbn [extend v_start v_end v_gcEnd]. repeat split; try lia. case_bool; lia.
Qed.

Lemma defineTmpVar_ok T L s now offset fr i :
  scan_ok T L s now fr -> (i < T)%nat -> now <= offset ->
  exists s' fr', defineTmpVar s i offset = Some s' /\ scan_ok T L s' offset fr' /\ grows s s' /\
    covers s' i offset.
Proof.
  intros K Hi Ho. pose proof (varsSize_temps _ _ _ _ _ K). pose proof (k_core _ _ _ _ _ K) as C.
  pose proof (c_size _ _ _ C). pose proof (c_len _ _ _ C). unfold defineTmpVar.
  destruct (lookup_Some_lt (vars s) i) as [v Ev]; [lia|]. rewrite Ev. cbn [mbind option_bind].
  pose proof (c_flag _ _ _ C i v Ev) as Hd. unfold is_defined in Hd.
  destruct (Z.land (v_flags v) VAR_DEFINED =? 0).
  - assert (~ In i (order s)) as Hn by (intros Hin; by apply Hd in Hin).
    destruct (defineVar_ok s now offset fr VAR_TMP i C Hn) as (s' & E & C' & G & Cv & E1 & E2 & E3 & E4 & _);
      [lia|pose proof (k_now _ _ _ _ _ K); lia|intros j Hj; pose proof (core_range _ _ _ _ C Hj); lia|
       pose proof (k_frame _ _ _ _ _ K); lia|].
    rewrite E. cbn [mbind option_bind]. exists (noteOffset offset s'), (i :: fr). split; [done|].
    assert (scan_ok T L s' offset (i :: fr)) as K'.
    { constructor; rewrite ?E1, ?E2, ?E3, ?(g_cap _ _ G); try (by destruct K).
      - pose proof (k_now _ _ _ _ _ K). lia.
      - pose proof (k_frame _ _ _ _ _ K). pose proof (g_frame _ _ G). lia.
      - apply (g_order _ _ G), (k_self _ _ _ _ _ K).
      - intros k. rewrite E4. intros [Hk|[<-|[]]]%in_app_or; [|left; by left].
        destruct (k_framed _ _ _ _ _ K k Hk) as [|]; [left; by right|by right]. }
    destruct (scan_ok_same T L s' (noteOffset offset s') offset (i :: fr) K') as [K'' G'']; [done..|].
    split; [done|]. split; [by eapply grows_trans|]. eapply covers_grows; [apply K''|exact G''|done].
  - assert (In i (order s)) as Hin by by apply Hd.
    destruct (extend_ok T L s now offset fr i K Hin Ho) as (s' & E & K' & G & Cv & _).
    rewrite E. cbn [mbind option_bind]. exists (noteOffset offset s'), fr. split; [done|].
    destruct (scan_ok_same T L s' (noteOffset offset s') offset fr K') as [K'' G'']; [done..|].
    split; [done|]. split; [by eapply grows_trans|]. eapply covers_grows; [apply K''|exact G''|done].
Qed.

Lemma scan_ok_later T L s now now' fr : scan_ok T L s now fr -> now <= now' -> scan_ok T L s now' fr.
Proof.
  intros K H. pose proof (core_later _ _ now' _ (k_core _ _ _ _ _ K) H). destruct K. constructor; done || lia.
Qed.

(** The rows, and how far a method may index them. *)
Definition row_bound (L : nat) (ty : VariableType) : nat :=
  match ty with VAR_CONTEXT => REGS_ALLOC_CONTEXT_LEVELS | _ => L end.

Lemma row_free T L s now fr ty k :
  scan_ok T L s now fr -> (k < row_bound L ty)%nat -> specialVars s ty !! k = Some None ->
  (S (varsSize s) <= capacity s)%nat.
Proof.
  intros K Hk Hr. rewrite (k_capacity _ _ _ _ _ K). pose proof (k_count _ _ _ _ _ K).
  pose proof (filled_le (contexts s)). pose proof (filled_le (take L (assocs s))).
  pose proof (k_contexts _ _ _ _ _ K). pose proof (k_assocs _ _ _ _ _ K).
  rewrite length_take in *. destruct ty; cbn [specialVars row_bound] in *.
  - destruct (filled_insert _ _ O Hr). lia.
  - destruct (filled_insert (take L (assocs s)) k O) as [_ Hl]; [by rewrite lookup_take_lt|].
    rewrite length_take in Hl. lia.
  - destruct (filled_insert (take L (assocs s)) k O) as [_ Hl]; [by rewrite lookup_take_lt|].
    rewrite length_take in Hl. lia.
Qed.

Lemma core_row s s' now fr :
  core s now fr -> capacity s' = capacity s -> varsSize s' = varsSize s -> vars s' = vars s ->
  order s' = order s -> frameSize s' = frameSize s ->
  (forall ty k i, specialVars s' ty !! k = Some (Some i) -> In i (order s)) -> core s' now fr.
Proof. intros C E1 E2 E3 E4 E5 H. destruct C. constructor; rewrite ?E1, ?E2, ?E3, ?E4, ?E5; done. Qed.

(** The entries of a row one of which is new. *)
Lemma row_insert (row : list (option nat)) k i j x :
  <[k := Some i]> row !! j = Some (Some x) -> x = i \/ row !! j = Some (Some x).
Proof.
  intros H. destruct (decide (j = k)) as [->|Hne].
  - destruct (decide (k < length row)%nat).
    + rewrite list_lookup_insert_eq in H by done. injection H as <-. by left.
    + rewrite list_insert_ge in H by lia. by right.
  - rewrite list_lookup_insert_ne in H by done. by right.
Qed.

Lemma row_keep (row : list (option nat)) k i j x :
  row !! k = Some None -> row !! j = Some (Some x) -> <[k := Some i]> row !! j = Some (Some x).
Proof. intros H1 H2. rewrite list_lookup_insert_ne; [done|]. intros ->. by rewrite H1 in H2. Qed.

(** A row gets its entry, once the variable is defined. *)
Lemma set_special_ok T L s s2 now fr ty k i :
  scan_ok T L s now fr -> (k < row_bound L ty)%nat -> ty <> VAR_TMP -> specialVars s ty !! k = Some None ->
  (T <= i)%nat -> core s2 now (match ty with VAR_ASSOC => fr | _ => i :: fr end) -> grows s s2 ->
  varsSize s2 = S (varsSize s) -> contexts s2 = contexts s -> assocs s2 = assocs s -> order s2 = order s ++ [i] ->
  exists s3, set_special s2 ty k i = Some s3 /\
    scan_ok T L s3 now (match ty with VAR_ASSOC => fr | _ => i :: fr end) /\ grows s s3 /\
    specialVars s3 ty !! k = Some (Some i) /\ vars s3 = vars s2 /\ order s3 = order s2.
Proof.
  intros K Hk Hty Hr HiT C2 G E1 E2 E3 E4. unfold set_special.
  assert (specialVars s2 ty = specialVars s ty) as Hrow by (unfold specialVars; by destruct ty).
  assert (k < length (specialVars s2 ty))%nat as Hkl by (rewrite Hrow; by eapply lookup_lt_Some).
  rewrite put_Some by done. cbn [mbind option_bind]. eexists; split; [done|].
  assert (In i (order s2)) as Hi by (rewrite E4; apply in_or_app; right; by left).
  assert (forall x, In x (order s) -> In x (order s2)) as Hsub by apply (g_order _ _ G).
  assert (forall s3, capacity s3 = capacity s2 -> varsSize s3 = varsSize s2 -> vars s3 = vars s2 ->
            order s3 = order s2 -> frameSize s3 = frameSize s2 ->
            (forall ty' j x, specialVars s3 ty' !! j = Some (Some x) ->
               x = i \/ specialVars s2 ty' !! j = Some (Some x)) ->
            core s3 now (match ty with VAR_ASSOC => fr | _ => i :: fr end)) as Hcore.
  { intros s3 Q1 Q2 Q3 Q4 Q5 Q6. apply (core_row s2); try done.
    intros ty' j x [->|Hx]%Q6; [done|]. by apply (c_rows _ _ _ C2 ty' j). }
  assert (forall s3, capacity s3 = capacity s2 -> varsSize s3 = varsSize s2 -> vars s3 = vars s2 ->
            order s3 = order s2 -> frameSize s3 = frameSize s2 ->
            (forall ty' j x, specialVars s ty' !! j = Some (Some x) ->
               specialVars s3 ty' !! j = Some (Some x)) -> grows s s3) as Hgrow.
  { intros s3 Q1 Q2 Q3 Q4 Q5 Q6. destruct G. constructor; rewrite ?Q1, ?Q2, ?Q3, ?Q4, ?Q5; done. }
  destruct ty; [| |done]; cbn [specialVars row_bound] in *;
    (split; [|split; [|split; [by apply list_lookup_insert_eq|done]]]).
  - rewrite E2 in *. destruct (filled_insert _ _ i Hr) as [Hf _].
    constructor; cbn [capacity varsSize contexts assocs order]; rewrite ?E1, ?E3, ?(g_cap _ _ G); try (by destruct K).
    + apply Hcore; try (cbn; by rewrite ?E1, ?(g_cap _ _ G)).
      intros [] j x; cbn [specialVars contexts assocs]; rewrite ?E2, ?E3; [apply row_insert|by right..].
    + pose proof (k_frame _ _ _ _ _ K). pose proof (g_frame _ _ G). cbn. lia.
    + apply row_keep; [done|apply (k_ctx0 _ _ _ _ _ K)].
    + rewrite length_insert. apply (k_contexts _ _ _ _ _ K).
    + pose proof (k_count _ _ _ _ _ K). lia.
    + apply Hsub, (k_self _ _ _ _ _ K).
    + intros x. rewrite E4. intros [Hx|[<-|[]]]%in_app_or; [|left; by left].
      destruct (k_framed _ _ _ _ _ K x Hx); [left; by right|by right].
  - apply Hgrow; try done. intros [] j x; cbn [specialVars contexts assocs]; [|by rewrite E3..].
    rewrite E2. by apply row_keep.
  - rewrite E3 in *. pose proof (lookup_lt_Some _ _ _ Hr) as Hl.
    destruct (filled_insert (take L (assocs s)) k i) as [Hf _]; [by rewrite lookup_take_lt|].
    constructor; cbn [capacity varsSize contexts assocs order]; rewrite ?E1, ?E2, ?(g_cap _ _ G); try (by destruct K).
    + apply Hcore; try (cbn; by rewrite ?E1, ?(g_cap _ _ G)).
      intros [] j x; cbn [specialVars contexts assocs]; rewrite ?E2, ?E3; [by right|apply row_insert..].
    + pose proof (k_frame _ _ _ _ _ K). pose proof (g_frame _ _ G). cbn. lia.
    + rewrite length_insert. apply (k_assocs _ _ _ _ _ K).
    + rewrite take_insert_lt by done. pose proof (k_count _ _ _ _ _ K). lia.
    + apply Hsub, (k_self _ _ _ _ _ K).
    + intros x. rewrite E4. intros [Hx|[<-|[]]]%in_app_or.
      * destruct (k_framed _ _ _ _ _ K x Hx) as [|[j Hj]]; [by left|]. right. exists j. by apply row_keep.
      * right. exists k. by apply list_lookup_insert_eq.
    + intros j x [->|Hx]%row_insert; [done|]. by apply (k_high _ _ _ _ _ K j).
  - apply Hgrow; try done. intros [] j x; cbn [specialVars contexts assocs]; [by rewrite E2|..];
      rewrite E3; by apply row_keep.
Qed.

Lemma varsSize_ok s now fr n :
  core s now fr -> (varsSize s <= n <= capacity s)%nat ->
  core (set_varsSize n s) now fr /\ grows s (set_varsSize n s).
Proof.
  intros C H. split.
  - destruct C. constructor; cbn [set_varsSize capacity varsSize order vars]; try done; try lia.
    intros i Hi. specialize (c_in0 i Hi). lia.
  - constructor; intros; cbn; done || lia.
Qed.

(** What a step of the scan leaves. *)
Definition step_ok (T L : nat) (s : Vars) (offset : Z) (s' : Vars) : Prop :=
  grows s s' /\ exists fr', scan_ok T L s' offset fr'.

Lemma defineSpecialVar_ok T L s now offset fr ty k :
  scan_ok T L s now fr -> (k < row_bound L ty)%nat -> ty <> VAR_TMP -> now <= offset ->
  exists s' i, defineSpecialVar s ty k offset = Some s' /\ step_ok T L s offset s' /\
    specialVars s' ty !! k = Some (Some i) /\ covers s' i offset.
Proof.
  intros K Hk Hty Ho. unfold defineSpecialVar.
  assert (k < length (specialVars s ty))%nat as Hkl.
  { pose proof (k_contexts _ _ _ _ _ K). pose proof (k_assocs _ _ _ _ _ K). destruct ty; cbn in *; lia. }
  destruct (lookup_Some_lt _ _ Hkl) as [[i|] Er]; rewrite Er; cbn [mbind option_bind].
  - pose proof (c_rows _ _ _ (k_core _ _ _ _ _ K) _ _ _ Er) as Hi.
    destruct (extend_ok T L s now offset fr i K Hi Ho) as (s' & E & K' & G & Cv & E1 & E2 & E3 & E4).
    rewrite E. cbn [mbind option_bind]. exists (noteOffset offset s'), i. split; [done|].
    destruct (scan_ok_same T L s' (noteOffset offset s') offset fr K') as [K'' G'']; [done..|].
    split; [split; [by eapply grows_trans|by exists fr]|]. split.
    + destruct ty; cbn in *; by rewrite ?E2, ?E3.
    + eapply covers_grows; [apply (k_core _ _ _ _ _ K'')|exact G''|done].
  - assert (exists s1, (match ty with VAR_CONTEXT => update CONTEXT_INDEX (extend offset) s | _ => Some s end) = Some s1 /\
              scan_ok T L s1 offset fr /\ grows s s1 /\ varsSize s1 = varsSize s /\
              contexts s1 = contexts s /\ assocs s1 = assocs s) as (s1 & E1 & K1 & G1 & V1 & R1 & R2).
    { pose proof (c_rows _ _ _ (k_core _ _ _ _ _ K) VAR_CONTEXT _ _ (k_ctx0 _ _ _ _ _ K)) as H0.
      destruct (extend_ok T L s now offset fr CONTEXT_INDEX K H0 Ho) as (s' & E & K' & G & _ & ? & ? & ? & _).
      destruct ty; [by exists s'|exists s; split; [done|]..];
        (split; [by eapply scan_ok_later|split; [apply grows_refl|done]]). }
    rewrite E1. cbn [mbind option_bind].
    assert (specialVars s1 ty !! k = Some None) as Er1 by (destruct ty; cbn in *; by rewrite ?R1, ?R2).
    pose proof (row_free T L s1 offset fr ty k K1 Hk Er1) as Hroom.
    pose proof (k_core _ _ _ _ _ K1) as C1.
    destruct (varsSize_ok s1 offset fr (S (varsSize s1)) C1) as [C2 G2]; [lia|].
    destruct (defineVar_ok (set_varsSize (S (varsSize s1)) s1) offset offset fr ty (varsSize s1) C2)
      as (s3 & E3 & C3 & G3 & Cv & V3 & Q1 & Q2 & Q3 & _).
    { intros Hin. apply (c_in _ _ _ C1) in Hin. lia. }
    { cbn. lia. }
    { pose proof (k_now _ _ _ _ _ K1). lia. }
    { intros j Hj. pose proof (core_range _ _ _ j C1 Hj). cbn. lia. }
    { pose proof (k_frame _ _ _ _ _ K1). cbn. lia. }
    cbn zeta in E3. rewrite E3. cbn [mbind option_bind].
    destruct (set_special_ok T L s1 s3 offset fr ty k (varsSize s1) K1 Hk Hty Er1 (varsSize_temps _ _ _ _ _ K1) C3) as (s4 & E4 & K4 & G4 & Row & Vs & Os);
      [by eapply grows_trans|done..|].
    rewrite E4. cbn [mbind option_bind]. exists (noteOffset offset s4), (varsSize s1). split; [done|].
    destruct (scan_ok_same T L s4 (noteOffset offset s4) offset _ K4) as [K5 G5]; [done..|].
    split; [split; [|by eexists]|split].
    + eapply grows_trans; [exact G1|]. by eapply grows_trans.
    + by destruct ty.
    + eapply covers_grows; [apply (k_core _ _ _ _ _ K5)|exact G5|]. unfold covers. by rewrite Vs, Os.
Qed.

(** ** Operands *)

(** The variables an operand uses, by the tables of the scan. *)
Definition vars_of (ctxs ascs : list (option nat)) (o : Operand) : list nat :=
  let special row k := match row !! k with Some (Some i) => [i] | _ => [] end in
  match Bytecodes.type o with
  | OPERAND_TEMP_VAR | OPERAND_ARG_VAR => [Z.to_nat (index o)]
  | OPERAND_SUPER | OPERAND_INST_VAR => [SELF_INDEX]
  | OPERAND_CONTEXT_VAR => special ctxs (Z.to_nat (level o))
  | OPERAND_ASSOC => special ascs (Z.to_nat (index o))
  | OPERAND_BLOCK => SELF_INDEX :: special ctxs 0%nat
  | OPERAND_INST_VAR_OF => [Z.to_nat (i_index (instance o))]
  | _ => []
  end.
Definition operand_vars (s : Vars) (o : Operand) : list nat := vars_of (contexts s) (assocs s) o.

(** An operand the compiler may emit for a method of these sizes. *)
Definition operand_fits (T L : nat) (o : Operand) : Prop :=
  match Bytecodes.type o with
  | OPERAND_TEMP_VAR | OPERAND_ARG_VAR => (Z.to_nat (index o) < T)%nat
  | OPERAND_CONTEXT_VAR => (Z.to_nat (level o) < REGS_ALLOC_CONTEXT_LEVELS)%nat
  | OPERAND_ASSOC => (Z.to_nat (index o) < L)%nat
  | OPERAND_INST_VAR_OF => (Z.to_nat (i_index (instance o)) < T)%nat
  | _ => True
  end.

(** Every use of [o] at [offset] is in the range of the variable it uses. *)
Definition covered (s : Vars) (o : Operand) (offset : Z) : Prop :=
  forall i, In i (operand_vars s o) -> covers s i offset.

(** A table entry that is there stays; one the scan needs is there. *)
Definition resolved (s : Vars) (o : Operand) : Prop :=
  match Bytecodes.type o with
  | OPERAND_CONTEXT_VAR => exists i, contexts s !! Z.to_nat (level o) = Some (Some i)
  | OPERAND_ASSOC => exists i, assocs s !! Z.to_nat (index o) = Some (Some i)
  | OPERAND_BLOCK => exists i, contexts s !! 0%nat = Some (Some i)
  | _ => True
  end.

Lemma covered_grows s s' now fr o offset :
  core s' now fr -> grows s s' -> resolved s o -> covered s o offset ->
  resolved s' o /\ covered s' o offset.
Proof.
  intros C G R Hc.
  assert (resolved s' o /\ operand_vars s' o = operand_vars s o) as [R' Hv].
  { pose proof (g_rows _ _ G VAR_CONTEXT) as H1. pose proof (g_rows _ _ G VAR_ASSOC) as H2.
    unfold resolved, operand_vars, vars_of in *. cbn [specialVars] in *.
    destruct (Bytecodes.type o); try done; destruct R as [i Hi];
      (split; [eauto|]); rewrite Hi; (rewrite (H1 _ _ Hi) || rewrite (H2 _ _ Hi)); done. }
  split; [done|]. intros i. rewrite Hv. intros Hi. by eapply covers_grows; [..|apply Hc].
Qed.

Lemma examineOperand_ok T L s now offset fr o :
  scan_ok T L s now fr -> operand_fits T L o -> now <= offset ->
  exists s', examineOperand s o offset = Some s' /\ step_ok T L s offset s' /\ resolved s' o /\
    covered s' o offset.
Proof.
  intros K Hf Ho. pose proof (k_temps _ _ _ _ _ K) as HT.
  assert (forall i, (i < T)%nat -> exists s', defineTmpVar s i offset = Some s' /\ step_ok T L s offset s' /\ covers s' i offset) as Htmp.
  { intros i Hi. destruct (defineTmpVar_ok T L s now offset fr i K Hi Ho) as (s' & fr' & E & K' & G & Cv).
    exists s'. split; [done|]. split; [|done]. split; [done|by eexists]. }
  assert (scan_ok T L (set_frameLess false s) now fr) as KF by by apply (scan_ok_same T L s).
  assert (grows s (set_frameLess false s)) as GF by by apply (frameLess_ok false s now fr), K.
  unfold examineOperand, resolved, covered, operand_vars, vars_of, operand_fits in *.
  destruct (Bytecodes.type o); try (
    exists s; split; [done|]; split; [|done]; split; [apply grows_refl|exists fr; by eapply scan_ok_later]).
  all: try (destruct (Htmp SELF_INDEX) as (s' & E & St & Cv); [unfold SELF_INDEX; lia|];
            exists s'; (do 3 (split; [done|])); by intros i [<-|[]]).
  all: try (destruct (Htmp _ Hf) as (s' & E & St & Cv);
            exists s'; (do 3 (split; [done|])); by intros i [<-|[]]).
  - destruct (defineSpecialVar_ok T L _ now offset fr VAR_CONTEXT _ KF Hf) as (s' & i & E & [G [fr' K']] & Row & Cv); [done..|].
    exists s'. split; [done|]. split; [split; [by eapply grows_trans|by exists fr']|]. split; [by exists i|].
    cbn [specialVars] in Row. rewrite Row. by intros j [<-|[]].
  - destruct (defineSpecialVar_ok T L s now offset fr VAR_ASSOC _ K Hf) as (s' & i & E & St & Row & Cv); [done..|].
    exists s'. split; [done|]. split; [done|]. split; [by exists i|]. cbn [specialVars] in Row. rewrite Row. by intros j [<-|[]].
  - destruct (defineTmpVar_ok T L _ now offset fr SELF_INDEX KF) as (s1 & fr1 & E1 & K1 & G1 & Cv1); [unfold SELF_INDEX; lia|done|].
    rewrite E1. cbn [mbind option_bind].
    destruct (defineSpecialVar_ok T L s1 offset offset fr1 VAR_CONTEXT 0%nat K1) as (s' & i & E & [G [fr' K']] & Row & Cv);
      [unfold row_bound, REGS_ALLOC_CONTEXT_LEVELS; lia|done|lia|].
    exists s'. split; [done|]. split; [split; [|by exists fr']|].
    { eapply grows_trans; [exact GF|]. by eapply grows_trans. }
    split; [by exists i|]. cbn [specialVars] in Row. rewrite Row. intros j [<-|[<-|[]]]; [|done].
    by eapply covers_grows; [apply (k_core _ _ _ _ _ K')|exact G|].
Qed.

(** Several operands in a row. *)
Definition uses_ok (s : Vars) (uses : list (Operand * Z)) : Prop :=
  forall o p, In (o, p) uses -> resolved s o /\ covered s o p.

Lemma uses_grows s s' now fr uses : core s' now fr -> grows s s' -> uses_ok s uses -> uses_ok s' uses.
Proof. intros C G H o p Hu. destruct (H o p Hu). by eapply covered_grows. Qed.

Lemma step_trans T L s1 s2 s3 o2 o3 : step_ok T L s1 o2 s2 -> step_ok T L s2 o3 s3 -> step_ok T L s1 o3 s3.
Proof. intros [G1 _] [G2 H]. split; [by eapply grows_trans|done]. Qed.

Lemma examineOperands_ok T L offset : forall os s now fr,
  scan_ok T L s now fr -> Forall (operand_fits T L) os -> now <= offset ->
  exists s', examineOperands s os offset = Some s' /\ step_ok T L s offset s' /\
    uses_ok s' ((fun o => (o, offset)) <$> os).
Proof.
  induction os as [|o os IH]; intros s now fr K HF Ho.
  - exists s. split; [done|]. split; [|done]. split; [apply grows_refl|]. exists fr. by eapply scan_ok_later.
  - apply Forall_cons_1 in HF as [Hf HF]. cbn [examineOperands].
    destruct (examineOperand_ok T L s now offset fr o K Hf Ho) as (s1 & E1 & [G1 [fr1 K1]] & R1 & C1).
    rewrite E1. cbn [mbind option_bind].
    destruct (IH s1 offset fr1 K1 HF) as (s2 & E2 & [G2 [fr2 K2]] & U2); [lia|].
    exists s2. split; [done|]. split; [split; [by eapply grows_trans|by exists fr2]|].
    intros o' p [[= <- <-]|Hin].
    + by eapply covered_grows; [apply (k_core _ _ _ _ _ K2)|exact G2|..].
    + by apply U2.
Qed.

(** ** Loops *)

Lemma widen_lengthens target jump now v :
  var_ok now v -> now <= jump -> lengthens jump v (widen target jump v).
Proof.
  intros (_ & H1 & H2) Hn. unfold lengthens, widen. destruct (_ && _) eqn:E; (split; [done|]); [|repeat split; lia].
  apply andb_prop in E as [_ E%Z.ltb_lt]. cbn. repeat split; lia.
Qed.

(** The ranges a loop overlaps reach its back-edge. *)
Definition loop_covered (s : Vars) (target jump : Z) (i : nat) : Prop :=
  start_of (vars s) i <= jump -> target <= end_of (vars s) i -> jump <= gcEnd_of (vars s) i.

Lemma extendLoopVarRanges_ok T L target jump : forall l s now fr,
  scan_ok T L s now fr -> now <= jump -> (forall i, In i l -> In i (order s)) -> NoDup l ->
  exists s', extendLoopVarRanges s l target jump = Some s' /\ step_ok T L s jump s' /\
    order s' = order s /\ (forall i, end_of (vars s') i = end_of (vars s) i) /\
    forall i, In i l -> loop_covered s' target jump i.
Proof.
  induction l as [|i l IH]; intros s now fr K Hn Hin Hnd.
  - exists s. split; [done|]. split; [|done]. split; [apply grows_refl|]. exists fr. by eapply scan_ok_later.
  - cbn [extendLoopVarRanges]. assert (In i (order s)) as Hi by (apply Hin; by left).
    destruct (update_ok s now jump fr i (widen target jump) (k_core _ _ _ _ _ K) Hi Hn) as (v & Ev & E & C & G).
    { intros v _ Hv. by eapply widen_lengthens. }
    rewrite E. cbn [mbind option_bind]. set (s1 := set_vars _ s) in *.
    assert (scan_ok T L s1 jump fr) as K1 by (destruct K; constructor; done || lia).
    apply list.NoDup_cons in Hnd as [Hni Hnd].
    destruct (IH s1 jump fr K1) as (s2 & E2 & [G2 [fr2 K2]] & O2 & En & H2); [lia|intros; apply Hin; by right|done|].
    exists s2. split; [done|]. split; [split; [by eapply grows_trans|by exists fr2]|]. split; [done|].
    assert (forall k, end_of (vars s1) k = end_of (vars s) k) as En1.
    { intros k. unfold end_of. cbn [s1 set_vars vars]. rewrite lookup_update by by eapply lookup_lt_Some.
      case_decide as Ek; [|done]. subst k. rewrite Ev. unfold widen. by destruct (_ && _). }
    split; [intros k; by rewrite En, En1|]. intros k [<-|Hk]; [|by apply H2].
    intros Hs He. rewrite (g_start _ _ G2) in Hs by done. rewrite En in He.
    etrans; [|by apply (g_gcEnd _ _ G2)]. revert Hs He. unfold start_of, end_of, gcEnd_of.
    cbn [s1 set_vars vars]. rewrite !lookup_update by by eapply lookup_lt_Some. rewrite !decide_True by done.
    unfold widen. destruct (_ && _) eqn:Ew; [cbn; lia|].
    intros Hs He. destruct (Z.ltb_spec (v_gcEnd v) jump); [|lia].
    rewrite (proj2 (Z.leb_le _ _)), (proj2 (Z.leb_le _ _)) in Ew by done. done.
Qed.

(** ** The instructions of a method *)

(** The reader only moves forward. *)
Definition forward (it it' : BytecodesIterator) : Prop :=
  stream it' = stream it /\ iend it' = iend it /\ number it' = number it /\ (ip it <= ip it')%nat.

Lemma forward_refl it : forward it it.
Proof. by repeat split. Qed.
Lemma forward_trans a b c : forward a b -> forward b c -> forward a c.
Proof. intros (? & ? & ? & ?) (? & ? & ? & ?). repeat split; congruence || lia. Qed.

Section Reading.
Context `{Target}.

Lemma next_byte_forward it v it' : bytecodeNextByte it = Some (v, it') -> forward it it' /\ (ip it < ip it')%nat.
Proof.
  unfold bytecodeNextByte. destruct (stream it !! ip it); [|done]. intros [= <- <-].
  split; [split_and!; cbn; done || lia|cbn; lia].
Qed.

Lemma next_field_forward it n v it' : next_field it n = Some (v, it') -> forward it it'.
Proof.
  unfold next_field. destruct (slice _ _ _); [|done]. intros [= <- <-]. split_and!; cbn; done || lia.
Qed.

Lemma next_uint16_forward it v it' : bytecodeNextUint16 it = Some (v, it') -> forward it it'.
Proof.
  unfold bytecodeNextUint16. destruct (next_field it 2) as [[l it1]|] eqn:E; [|done].
  intros [= _ <-]. by eapply next_field_forward.
Qed.

Lemma next_int32_forward it v it' : bytecodeNextInt32 it = Some (v, it') -> forward it it'.
Proof.
  unfold bytecodeNextInt32. destruct (next_field it 4) as [[l it1]|] eqn:E; [|done].
  intros [= _ <-]. by eapply next_field_forward.
Qed.

(** Runs the reads of a hypothesis and collects how far they moved. *)
Local Ltac reads H :=
  repeat (cbn [mbind option_bind] in H;
    match type of H with
    | ?x ≫= _ = Some _ => let E := fresh "E" in destruct x as [[? ?]|] eqn:E; [|done]
    end); cbn [mbind option_bind] in H.

Lemma operand_next_forward depth it o it' : operand_next depth it = Some (o, it') -> forward it it'.
Proof.
  revert it o it'. induction depth as [|depth IH]; intros it o it' HH; [done|]. cbn [operand_next] in HH.
  destruct (bytecodeNextByte it) as [[v it1]|] eqn:E1; [|done]. cbn [mbind option_bind] in HH.
  apply next_byte_forward in E1 as [F1 _].
  destruct (operandTypes !! Z.to_nat v) as [t|]; [|done]. cbn [mbind option_bind] in HH.
  eapply forward_trans; [exact F1|]. clear F1.
  destruct t; try (injection HH as <- <-; apply forward_refl).
  - destruct (next_field it1 8) as [[l it2]|] eqn:E; [|done]. injection HH as <- <-. by eapply next_field_forward.
  - destruct (bytecodeNextUint16 it1) as [[l it2]|] eqn:E; [|done]. injection HH as <- <-. by eapply next_uint16_forward.
  - destruct (bytecodeNextUint16 it1) as [[l it2]|] eqn:E; [|done]. injection HH as <- <-. by eapply next_uint16_forward.
  - destruct (bytecodeNextUint16 it1) as [[l it2]|] eqn:E; [|done]. cbn [mbind option_bind] in HH.
    destruct (bytecodeNextByte it2) as [[l2 it3]|] eqn:E2; [|done]. injection HH as <- <-.
    eapply forward_trans; [by eapply next_uint16_forward|]. by apply next_byte_forward in E2 as [? _].
  - destruct (bytecodeNextUint16 it1) as [[l it2]|] eqn:E; [|done]. injection HH as <- <-. by eapply next_uint16_forward.
  - destruct (bytecodeNextUint16 it1) as [[l it2]|] eqn:E; [|done]. cbn [mbind option_bind] in HH.
    destruct (operand_next depth it2) as [[o2 it3]|] eqn:E2; [|done]. cbn [mbind option_bind] in HH.
    destruct (ASSERT _); [|done]. injection HH as <- <-.
    eapply forward_trans; [by eapply next_uint16_forward|]. by eapply IH.
  - destruct (bytecodeNextUint16 it1) as [[l it2]|] eqn:E; [|done]. injection HH as <- <-. by eapply next_uint16_forward.
  - destruct (bytecodeNextUint16 it1) as [[l it2]|] eqn:E; [|done]. injection HH as <- <-. by eapply next_uint16_forward.
  - destruct (bytecodeNextUint16 it1) as [[l it2]|] eqn:E; [|done]. injection HH as <- <-. by eapply next_uint16_forward.
Qed.

Lemma next_operand_forward it o it' : bytecodeNextOperand it = Some (o, it') -> forward it it'.
Proof. apply operand_next_forward. Qed.

Lemma next_operands_forward n it os it' : next_operands n it = Some (os, it') -> forward it it'.
Proof.
  revert it os. induction n as [|n IH]; intros it os HH; [injection HH as _ <-; apply forward_refl|].
  cbn [next_operands] in HH. reads HH. injection HH as _ <-.
  eapply forward_trans; [by eapply next_operand_forward|]. by eapply IH.
Qed.

Lemma read_instruction_forward it i it' :
  read_instruction it = Some (i, it') ->
  stream it' = stream it /\ iend it' = iend it /\ number it' = number it + 1 /\ (ip it < ip it')%nat.
Proof.
  unfold read_instruction, bytecodeNext. intros HH.
  destruct (bytecodeNextByte _) as [[v it1]|] eqn:E1; [|done]. cbn [mbind option_bind] in HH.
  apply next_byte_forward in E1 as ((F1 & F2 & F3 & _) & F4). cbn [stream iend number ip] in *.
  destruct (bytecodes !! Z.to_nat v) as [c|]; [|done]. cbn [mbind option_bind] in HH.
  assert (forward it1 it') as (G1 & G2 & G3 & G4); [|repeat split; congruence || lia].
  destruct c; reads HH; try (destruct (decide _) in HH; reads HH); injection HH as <- <-;
    repeat match goal with
    | E : bytecodeNextByte _ = Some _ |- _ => apply next_byte_forward in E as [E _]
    | E : bytecodeNextUint16 _ = Some _ |- _ => apply next_uint16_forward in E
    | E : bytecodeNextInt32 _ = Some _ |- _ => apply next_int32_forward in E
    | E : bytecodeNextOperand _ = Some _ |- _ => apply next_operand_forward in E
    | E : next_operands _ _ = Some _ |- _ => apply next_operands_forward in E
    end; repeat (first [eassumption | eapply forward_trans; [eassumption|]]).
Qed.
End Reading.

(** ** The scan of a method *)

(** An instruction with its number, its first byte and the byte after it. *)
Record Step := mkStep { st_number : Z; st_start : nat; st_end : nat; st_instr : Instruction }.

(** The operands of a step, each with the point it is used at: the result of a
    send is written after it. *)
Definition uses (st : Step) : list (Operand * Z) :=
  let n := st_number st in
  match st_instr st with
  | ICopy src dst => [(src, n); (dst, n)]
  | ISend _ receiver args => (receiver, n) :: ((fun o => (o, n)) <$> args)
  | ISendWithStore _ receiver args result =>
      ((receiver, n) :: ((fun o => (o, n)) <$> args)) ++ [(result, n + 1)]
  | IReturn _ o => [(o, n)]
  | IJump _ => []
  | IJumpNotMemberOf _ o _ => [(o, n)]
  end.

Definition jump_of (st : Step) : option Z :=
  match st_instr st with
  | IJump d => Some d
  | IJumpNotMemberOf _ _ d => Some d
  | _ => None
  end.

(** A backward jump and the instruction it leads to. *)
Definition back_edge (st head : Step) : Prop :=
  exists d, jump_of st = Some d /\ d < 0 /\ Z.of_nat (st_start head) = Z.of_nat (st_end st) + d.

Section Walk.
Context `{Target}.

Fixpoint walk (fuel : nat) (it : BytecodesIterator) : option (list Step * BytecodesIterator) :=
  match fuel with
  | O => None
  | S fuel =>
      if bytecodeHasNext it then
        '(i, it') ← read_instruction it;
        '(l, it'') ← walk fuel it';
        Some (mkStep (bytecodeNumber it') (ip it) (ip it') i :: l, it'')
      else Some ([], it)
  end.

(** The steps of a method. *)
Definition steps (code : list Z) : option (list Step) :=
  fst <$> walk (S (length code)) (bytecodeInitIterator code (length code)).

(** Consecutive numbers, adjacent bytes. *)
Fixpoint chained (size : nat) (n : Z) (p : nat) (l : list Step) : Prop :=
  match l with
  | [] => True
  | st :: l => st_number st = n /\ st_start st = p /\ (p < st_end st)%nat /\ (p < size)%nat /\
      chained size (n + 1) (st_end st) l
  end.

Lemma walk_chained fuel it l it' :
  walk fuel it = Some (l, it') ->
  chained (iend it) (number it + 1) (ip it) l /\ number it' = number it + Z.of_nat (length l).
Proof.
  revert it l it'. induction fuel as [|fuel IH]; intros it l it' HH; [done|]. cbn [walk] in HH.
  unfold bytecodeHasNext in HH. destruct (Nat.ltb_spec (ip it) (iend it)).
  - destruct (read_instruction it) as [[i it1]|] eqn:E1; [|done]. cbn [mbind option_bind] in HH.
    destruct (walk fuel it1) as [[l1 it2]|] eqn:E2; [|done]. injection HH as <- <-.
    apply read_instruction_forward in E1 as (_ & F2 & F3 & F4). apply IH in E2 as [C N].
    rewrite F2, F3 in C. cbn [chained st_number st_start st_end length]. unfold bytecodeNumber. split; [|lia].
    repeat split; try done; lia.
  - injection HH as <- <-. split; [done|]. simpl. lia.
Qed.

Fixpoint scanSteps (sc : Scan) (l : list Step) : option Scan :=
  match l with
  | [] => Some sc
  | st :: l =>
      sc ← scanInstruction sc (st_number st) (st_start st) (st_end st) (st_instr st);
      scanSteps sc l
  end.

(** scanCode's loop reads the steps one by one. *)
Lemma scan_loop fuel sc it l it' :
  walk fuel it = Some (l, it') ->
  loop fuel (fun '(sc, it) =>
      if bytecodeHasNext it then
        let startByte := ip it in
        '(i, it) ← read_instruction it;
        sc ← scanInstruction sc (bytecodeNumber it) startByte (ip it) i;
        Some (inl (sc, it))
      else Some (inr (sc, it))) (sc, it) =
  (sc' ← scanSteps sc l; Some (sc', it')).
Proof.
  revert sc it l it'. induction fuel as [|fuel IH]; intros sc it l it' HH; [done|]. cbn [walk loop] in *.
  destruct (bytecodeHasNext it).
  - destruct (read_instruction it) as [[i it1]|]; [|done]. cbn [mbind option_bind] in *.
    destruct (walk fuel it1) as [[l1 it2]|] eqn:E2; [|done]. injection HH as <- <-.
    cbn [scanSteps st_number st_start st_end st_instr].
    destruct (scanInstruction sc _ _ _ i) as [sc1|]; [|done]. cbn [mbind option_bind].
    by apply IH.
  - by injection HH as <- <-.
Qed.

Lemma scanCode_steps s code l :
  steps code = Some l ->
  scanCode s code =
  (sc ← scanSteps (mkScan s (replicate (S (length code)) 0) false) l;
   if returns sc then Some (sc_vars sc)
   else defineTmpVar (sc_vars sc) SELF_INDEX (Z.max 0 (Z.of_nat (length l) - 1))) /\
  chained (length code) 0 0 l.
Proof.
  unfold steps, scanCode. destruct (walk _ _) as [[l' it']|] eqn:E; [|done].
  cbn [fmap option_fmap option_map fst]. intros [= <-].
  pose proof (walk_chained _ _ _ _ E) as [C N]. cbn in C, N. split; [|done].
  cbn zeta. rewrite (scan_loop _ _ _ _ _ E).
  destruct (scanSteps _ l') as [sc|]; [|done]. cbn [mbind option_bind].
  destruct (returns sc); [done|]. unfold bytecodeNumber. rewrite N.
  f_equal. case_bool; lia.
Qed.
End Walk.

(** ** One step of the scan *)

Lemma uses_app s a b : uses_ok s a -> uses_ok s b -> uses_ok s (a ++ b).
Proof. intros Ha Hb o p [|]%in_app_or; auto. Qed.

Lemma uses_one s o p : resolved s o -> covered s o p -> uses_ok s [(o, p)].
Proof. by intros R C o' p' [[= <- <-]|[]]. Qed.

(** The point the scan has reached after a step. *)
Definition st_time (st : Step) : Z :=
  match st_instr st with ISendWithStore _ _ _ _ => st_number st + 1 | _ => st_number st end.

(** What a step does, jumps apart, to a scan that has reached it. *)
Definition examineStep (s : Vars) (st : Step) : option Vars :=
  let n := st_number st in
  match st_instr st with
  | ICopy src dst => examineCopyOperands s src dst n
  | ISend _ receiver args =>
      s ← examineOperand (set_frameLess false s) receiver n; examineOperands s args n
  | ISendWithStore _ receiver args result =>
      s ← examineOperand (set_frameLess false s) receiver n;
      s ← examineOperands s args n; examineOperand s result (n + 1)
  | IReturn outer operand => examineOperand (if outer : bool then set_frameLess false s else s) operand n
  | IJump _ => Some s
  | IJumpNotMemberOf _ operand _ => examineOperand s operand n
  end.

Definition step_returns (st : Step) : bool := match st_instr st with IReturn _ _ => true | _ => false end.

Lemma scanInstruction_split sc st :
  scanInstruction sc (st_number st) (st_start st) (st_end st) (st_instr st) =
  (bn ← put (bnAtByte sc) (st_start st) (st_number st);
   s ← examineStep (sc_vars sc) st;
   s ← match jump_of st with
       | Some d => scanJump s bn (Z.of_nat (st_end st)) (st_number st) d
       | None => Some s
       end;
   Some (mkScan s bn (step_returns st || returns sc))).
Proof.
  destruct st as [n p q i]. unfold scanInstruction, examineStep, jump_of, step_returns.
  cbn [st_number st_start st_end st_instr]. destruct (put _ _ _) as [bn|]; [|done]. cbn [mbind option_bind].
  destruct i; cbn [orb].
  - by destruct (examineCopyOperands _ _ _ _).
  - destruct (examineOperand _ _ _) as [s1|]; [|done]. cbn [mbind option_bind]. by destruct (examineOperands _ _ _).
  - destruct (examineOperand _ _ _) as [s1|]; [|done]. cbn [mbind option_bind].
    destruct (examineOperands _ _ _) as [s2|]; [|done]. cbn [mbind option_bind]. by destruct (examineOperand _ _ _).
  - by destruct (examineOperand _ _ _).
  - done.
  - by destruct (examineOperand _ _ _).
Qed.

Section Steps.
Context (T L : nat).

Lemma examineStep_ok s now fr st :
  scan_ok T L s now fr -> now <= st_number st -> (forall o p, In (o, p) (uses st) -> operand_fits T L o) ->
  exists s', examineStep s st = Some s' /\ step_ok T L s (st_time st) s' /\ uses_ok s' (uses st).
Proof.
  intros K Hn Hu. set (n := st_number st).
  destruct (scan_ok_same T L s (set_frameLess false s) now fr K) as [KF GF]; [done..|].
  assert (forall s0 o, scan_ok T L s0 now fr -> grows s s0 -> operand_fits T L o ->
            exists s', examineOperand s0 o n = Some s' /\ step_ok T L s n s' /\ uses_ok s' [(o, n)]) as Hone.
  { intros s0 o K0 G0 Hf. destruct (examineOperand_ok T L s0 now n fr o K0 Hf Hn) as (s' & E & [G X] & R & C).
    exists s'. split; [done|]. split; [split; [by eapply grows_trans|done]|by apply uses_one]. }
  unfold examineStep, uses, st_time in *. fold n in Hu |- *.
  destruct (st_instr st) as [src dst|sel rc args|sel rc args res|outer o|d|cl o d].
  - destruct (Hone s src K (grows_refl s)) as (s1 & E1 & [G1 [fr1 K1]] & U1); [by eapply Hu; left|].
    unfold examineCopyOperands. rewrite E1. cbn [mbind option_bind].
    destruct (examineOperand_ok T L s1 n n fr1 dst K1) as (s2 & E2 & [G2 [fr2 K2]] & R2 & C2);
      [by eapply Hu; right; left|lia|].
    exists s2. split; [done|]. split; [split; [by eapply grows_trans|by exists fr2]|].
    apply (uses_app s2 [_] [_]); [|by apply uses_one].
    by eapply uses_grows; [apply (k_core _ _ _ _ _ K2)|exact G2|].
  - destruct (Hone _ rc KF GF) as (s1 & E1 & [G1 [fr1 K1]] & U1); [by eapply Hu; left|].
    rewrite E1. cbn [mbind option_bind].
    destruct (examineOperands_ok T L n args s1 n fr1 K1) as (s2 & E2 & [G2 [fr2 K2]] & U2).
    { apply List.Forall_forall. intros o Ho. eapply Hu. right. by apply (in_map (fun o => (o, n))). }
    { lia. }
    exists s2. split; [done|]. split; [split; [by eapply grows_trans|by exists fr2]|].
    apply (uses_app s2 [_]); [|done]. by eapply uses_grows; [apply (k_core _ _ _ _ _ K2)|exact G2|].
  - destruct (Hone _ rc KF GF) as (s1 & E1 & [G1 [fr1 K1]] & U1); [by eapply Hu; left|].
    rewrite E1. cbn [mbind option_bind].
    destruct (examineOperands_ok T L n args s1 n fr1 K1) as (s2 & E2 & [G2 [fr2 K2]] & U2).
    { apply List.Forall_forall. intros o Ho. eapply Hu. right. apply in_or_app. left. by apply (in_map (fun o => (o, n))). }
    { lia. }
    rewrite E2. cbn [mbind option_bind].
    destruct (examineOperand_ok T L s2 n (n + 1) fr2 res K2) as (s3 & E3 & [G3 [fr3 K3]] & R3 & C3);
      [by eapply Hu; right; apply in_or_app; right; left|lia|].
    exists s3. split; [done|]. split; [split; [|by exists fr3]|].
    { eapply grows_trans; [exact G1|]. by eapply grows_trans. }
    apply uses_app; [|by apply uses_one]. eapply uses_grows; [apply (k_core _ _ _ _ _ K3)|exact G3|].
    apply (uses_app s2 [_]); [|done]. by eapply uses_grows; [apply (k_core _ _ _ _ _ K2)|exact G2|].
  - destruct outer; apply Hone; try done; try apply grows_refl; by eapply Hu; left.
  - exists s. split; [done|]. split; [|done]. split; [apply grows_refl|]. exists fr. by eapply scan_ok_later.
  - apply Hone; try done; try apply grows_refl; by eapply Hu; left.
Qed.
End Steps.

(** ** All the steps *)

Lemma chained_ge size n p l e : chained size n p l -> In e l -> n <= st_number e /\ (p <= st_start e)%nat.
Proof.
  revert n p. induction l as [|st l IH]; intros n p HC He; [done|].
  destruct HC as (H1 & H2 & H3 & H4 & H5). destruct He as [<-|He]; [lia|].
  destruct (IH _ _ H5 He). lia.
Qed.

Lemma chained_split size n p a st b :
  chained size n p (a ++ st :: b) ->
  st_number st = n + Z.of_nat (length a) /\ (st_start st < size)%nat /\
  (forall e, In e a -> st_number e < st_number st /\ (st_start e < st_start st)%nat) /\
  (forall e, In e b -> st_number st < st_number e).
Proof.
  revert n p. induction a as [|x a IH]; intros n p; cbn [app chained].
  - intros (H1 & H2 & H3 & H4 & H5). split; [simpl; lia|]. split; [lia|]. split; [done|].
    intros e He. destruct (chained_ge _ _ _ _ _ H5 He). lia.
  - intros (H1 & H2 & H3 & H4 & H5). destruct (IH _ _ H5) as (N & S & A & B).
    split; [simpl length; lia|]. split; [done|]. split; [|done].
    intros e [<-|He]; [|by apply A]. split; [lia|].
    destruct (chained_ge size (n + 1) (st_end x) (a ++ st :: b) st H5); [apply in_or_app; right; by left|lia].
Qed.

(** A method for which the operands index the tables the header announces and
    every backward jump leads to the start of an instruction. *)
Record method_fits (T L : nat) (l : list Step) : Prop := {
  mf_operands : forall st o p, In st l -> In (o, p) (uses st) -> operand_fits T L o;
  mf_jumps : forall st d, In st l -> jump_of st = Some d -> d < 0 ->
    exists head, In head l /\ back_edge st head /\ st_number head <= st_number st }.

(** A variable used in a loop is visible to the collector up to the back-edge. *)
Definition loops_ok (s : Vars) (l : list Step) : Prop :=
  forall st head st' o p i, In st l -> In head l -> back_edge st head ->
    In st' l -> In (o, p) (uses st') -> st_number head <= p <= st_number st ->
    In i (operand_vars s o) -> st_number st <= gcEnd_of (vars s) i.

Definition all_uses (l : list Step) : list (Operand * Z) := l ≫= uses.

Lemma all_uses_in l st o p : In st l -> In (o, p) (uses st) -> In (o, p) (all_uses l).
Proof. intros. apply in_flat_map. by exists st. Qed.

Lemma uses_time st o p : In (o, p) (uses st) -> st_number st <= p.
Proof.
  unfold uses. destruct (st_instr st) as [src dst|sel rc args|sel rc args res|outer o'|d|cl o' d]; cbn [In].
  - intros [[= _ <-]|[[= _ <-]|[]]]; lia.
  - intros [[= _ <-]|[x [[= _ <-] _]]%in_map_iff]; lia.
  - intros [[[= _ <-]|[x [[= _ <-] _]]%in_map_iff]|[[= _ <-]|[]]]%in_app_or; lia.
  - intros [[= _ <-]|[]]; lia.
  - done.
  - intros [[= _ <-]|[]]; lia.
Qed.

Lemma resolved_vars s s' o : grows s s' -> resolved s o -> operand_vars s' o = operand_vars s o.
Proof.
  intros G R. pose proof (g_rows _ _ G VAR_CONTEXT) as H1. pose proof (g_rows _ _ G VAR_ASSOC) as H2.
  unfold resolved, operand_vars, vars_of in *. cbn [specialVars] in *.
  destruct (Bytecodes.type o); try done; destruct R as [i Hi];
    rewrite Hi; (rewrite (H1 _ _ Hi) || rewrite (H2 _ _ Hi)); done.
Qed.

(** After the steps [l]. *)
Record scanned (T L size : nat) (l : list Step) (sc : Scan) : Prop := {
  sn_ok : exists now fr, scan_ok T L (sc_vars sc) now fr /\ now <= Z.of_nat (length l);
  sn_table : length (bnAtByte sc) = S size;
  sn_numbers : forall st, In st l -> bnAtByte sc !! st_start st = Some (st_number st);
  sn_uses : uses_ok (sc_vars sc) (all_uses l);
  sn_loops : loops_ok (sc_vars sc) l }.

Lemma loops_grow s s' now fr l :
  core s' now fr -> grows s s' -> uses_ok s (all_uses l) -> loops_ok s l -> loops_ok s' l.
Proof.
  intros C G U HL st head st' o p i H1 H2 H3 H4 H5 H6 Hi.
  destruct (U o p) as [R Cv]; [by eapply all_uses_in|].
  rewrite (resolved_vars s s' o G R) in Hi. destruct (Cv i Hi) as (Ho & _).
  etrans; [by apply (HL st head st' o p i)|]. by apply (g_gcEnd _ _ G).
Qed.

(** A jump leaves the ranges of its loop reaching it. *)
Lemma scanJump_ok T L s now fr bn st D d :
  scan_ok T L s now fr -> now <= st_number st ->
  uses_ok s (all_uses (D ++ [st])) ->
  (forall e, In e (D ++ [st]) -> bn !! st_start e = Some (st_number e)) ->
  (d < 0 -> exists head, In head (D ++ [st]) /\ back_edge st head) -> jump_of st = Some d ->
  exists s', scanJump s bn (Z.of_nat (st_end st)) (st_number st) d = Some s' /\
    step_ok T L s (st_number st) s' /\
    forall head st' o p i, In head (D ++ [st]) -> back_edge st head -> In st' (D ++ [st]) ->
      In (o, p) (uses st') -> st_number head <= p <= st_number st -> In i (operand_vars s' o) ->
      st_number st <= gcEnd_of (vars s') i.
Proof.
  intros K Hn U Hbn Hback Hj. unfold scanJump, ASSERT. destruct (Z.ltb_spec d 0) as [Hd|Hd].
  - destruct (Hback Hd) as (head & Hh & d' & Hj' & _ & Ht). rewrite Hj in Hj'. injection Hj' as <-.
    rewrite <- Ht. rewrite (proj2 (Z.leb_le _ _)) by lia. cbn [mbind option_bind].
    rewrite Nat2Z.id, (Hbn head Hh). cbn [mbind option_bind].
    destruct (extendLoopVarRanges_ok T L (st_number head) (st_number st) (order s) s now fr K Hn)
      as (s' & E & St & O & En & HL); [done|apply (c_nodup _ _ _ (k_core _ _ _ _ _ K))|].
    exists s'. split; [done|]. split; [done|]. destruct St as [G [fr' K']].
    intros head' st' o p i Hh' (d' & Hj' & _ & Ht') Hst' Hu Hp Hi. rewrite Hj in Hj'. injection Hj' as <-.
    assert (st_number head' = st_number head) as Hnum.
    { assert (st_start head' = st_start head) as Hs by lia.
      pose proof (Hbn head Hh) as B1. pose proof (Hbn head' Hh') as B2. rewrite Hs in B2. congruence. }
    destruct (U o p) as [R Cv]; [by eapply all_uses_in|].
    rewrite (resolved_vars s s' o G R) in Hi. destruct (Cv i Hi) as (Ho & C1 & C2 & _).
    apply (HL i Ho).
    + rewrite (g_start _ _ G) by done. lia.
    + rewrite En. lia.
  - exists s. split; [done|]. split; [split; [apply grows_refl|exists fr; by eapply scan_ok_later]|].
    intros head' st' o p i _ (d' & Hj' & Hneg & _). rewrite Hj in Hj'. injection Hj' as <-. lia.
Qed.

Lemma scanStep_ok T L size D st rest sc :
  scanned T L size D sc -> method_fits T L (D ++ st :: rest) -> chained size 0 0 (D ++ st :: rest) ->
  exists sc', scanInstruction sc (st_number st) (st_start st) (st_end st) (st_instr st) = Some sc' /\
    scanned T L size (D ++ [st]) sc' /\ grows (sc_vars sc) (sc_vars sc').
Proof.
  intros SN MF HC. destruct (chained_split _ _ _ _ _ _ HC) as (Hnum & Hstart & Hbefore & Hafter).
  destruct (sn_ok _ _ _ _ _ SN) as (now & fr & K & Hnow).
  assert (In st (D ++ st :: rest)) as Hin by (apply in_or_app; right; by left).
  rewrite scanInstruction_split. rewrite put_Some by (rewrite (sn_table _ _ _ _ _ SN); lia). cbn [mbind option_bind].
  set (bn := <[st_start st := st_number st]> (bnAtByte sc)).
  assert (forall e, In e (D ++ [st]) -> bn !! st_start e = Some (st_number e)) as Hbn.
  { intros e [He|[<-|[]]]%in_app_or.
    - unfold bn. rewrite list_lookup_insert_ne by (destruct (Hbefore e He); lia). by apply (sn_numbers _ _ _ _ _ SN).
    - apply list_lookup_insert_eq. rewrite (sn_table _ _ _ _ _ SN). lia. }
  destruct (examineStep_ok T L (sc_vars sc) now fr st K) as (s1 & E1 & [G1 [fr1 K1]] & U1);
    [lia|intros o p; by apply (mf_operands _ _ _ MF)|].
  rewrite E1. cbn [mbind option_bind].
  assert (uses_ok s1 (all_uses (D ++ [st]))) as U.
  { unfold all_uses. rewrite bind_app. cbn [mbind list_bind]. rewrite app_nil_r. apply uses_app; [|done].
    eapply uses_grows; [apply (k_core _ _ _ _ _ K1)|exact G1|]. apply (sn_uses _ _ _ _ _ SN). }
  assert (exists s2, (match jump_of st with
            | Some d => scanJump s1 bn (Z.of_nat (st_end st)) (st_number st) d
            | None => Some s1 end) = Some s2 /\ step_ok T L s1 (st_time st) s2 /\
          forall head st' o p i, In head (D ++ [st]) -> back_edge st head -> In st' (D ++ [st]) ->
            In (o, p) (uses st') -> st_number head <= p <= st_number st -> In i (operand_vars s2 o) ->
            st_number st <= gcEnd_of (vars s2) i) as (s2 & E2 & [G2 [fr2 K2]] & HJ).
  { destruct (jump_of st) as [d|] eqn:Hj.
    - assert (st_time st = st_number st) as Ht.
      { unfold st_time, jump_of in *. by destruct (st_instr st). }
      rewrite Ht in K1 |- *. apply (scanJump_ok T L s1 (st_number st) fr1 bn st D d K1); try done.
      intros Hd. destruct (mf_jumps _ _ _ MF st d Hin Hj Hd) as (head & Hh & Hb & Hle).
      exists head. split; [|done]. apply in_or_app. apply in_app_or in Hh as [Hh|[<-|Hh]]; [by left|right; by left|].
      apply Hafter in Hh. lia.
    - exists s1. split; [done|]. split; [split; [apply grows_refl|by exists fr1]|].
      intros head st' o p i _ (d & Hd & _). by rewrite Hj in Hd. }
  rewrite E2. cbn [mbind option_bind]. eexists; split; [done|]. split; [|by eapply grows_trans].
  constructor; cbn [sc_vars bnAtByte].
  - exists (st_time st), fr2. split; [done|]. rewrite length_app. cbn [length].
    unfold st_time. destruct (st_instr st); lia.
  - unfold bn. rewrite length_insert. apply (sn_table _ _ _ _ _ SN).
  - done.
  - by eapply uses_grows; [apply (k_core _ _ _ _ _ K2)|exact G2|].
  - intros st1 head st' o p i Hst1 Hh Hb Hst' Hu Hp Hi.
    apply in_app_or in Hst1 as [Hst1|[<-|[]]]; [|exact (HJ head st' o p i Hh Hb Hst' Hu Hp Hi)].
    apply in_app_or in Hst' as [Hst'|[<-|[]]].
    2:{ apply uses_time in Hu. destruct (Hbefore st1 Hst1). lia. }
    assert (In head D) as HhD.
    { apply in_app_or in Hh as [|[<-|[]]]; [done|]. destruct (Hbefore st1 Hst1). lia. }
    eapply (loops_grow (sc_vars sc) s2 _ _ D); [apply (k_core _ _ _ _ _ K2)| |apply (sn_uses _ _ _ _ _ SN)|
      apply (sn_loops _ _ _ _ _ SN)|exact Hst1|exact HhD|exact Hb|exact Hst'|exact Hu|exact Hp|exact Hi].
    by eapply grows_trans.
Qed.

Lemma scanSteps_ok T L size : forall rest D sc,
  scanned T L size D sc -> method_fits T L (D ++ rest) -> chained size 0 0 (D ++ rest) ->
  exists sc', scanSteps sc rest = Some sc' /\ scanned T L size (D ++ rest) sc' /\
    grows (sc_vars sc) (sc_vars sc').
Proof.
  induction rest as [|st rest IH]; intros D sc SN MF HC.
  - rewrite app_nil_r. exists sc. split; [done|]. split; [done|apply grows_refl].
  - destruct (scanStep_ok T L size D st rest sc SN MF HC) as (sc1 & E1 & SN1 & G1).
    cbn [scanSteps]. rewrite E1. cbn [mbind option_bind].
    replace (D ++ st :: rest) with ((D ++ [st]) ++ rest) in * by by rewrite <- app_assoc.
    destruct (IH (D ++ [st]) sc1 SN1 MF HC) as (sc2 & E2 & SN2 & G2).
    exists sc2. split; [done|]. split; [done|]. by eapply grows_trans.
Qed.
End Frame.
