(* ===== verification/RegisterSound.v ===== *)
(** * RegisterSound

    The allocation of a whole method: computeRegsAlloc sets up the arguments
    and the context, scans the bytecodes, hands out the registers and lays out
    the frame.  The theorem at the end says what the code generators rely on. *)
From S2P Require Import Prelude Endian Bytecodes.
From stdpp Require Import list sorting.
From S2P Require Import RegisterAllocator RegisterProofs RegisterRanges.
#[local] Open Scope Z_scope.

(** ** The state the scan starts from *)

Lemma on_stack_defined v : is_defined (mkVariable (v_index v) (Z.lor (v_flags v) VAR_ON_STACK) (v_reg v)
    (v_start v) (v_end v) (v_gcEnd v) (v_frameOffset v)) <-> is_defined v.
Proof.
  unfold is_defined; cbn [v_flags]. unfold VAR_DEFINED, VAR_ON_STACK.
  rewrite Z.land_lor_distr_l. change (Z.land 4 1) with 0. by rewrite Z.lor_0_r.
Qed.

Section Initial.
Context (top : Z).

(** An argument: its index is one above its place in the frame. *)
Lemma defineArg_ok s fr n :
  core top s 0 fr -> ~ In (S n) (order s) -> (S n < varsSize s)%nat -> frameSize s = Z.of_nat n -> Z.of_nat n <= top ->
  exists s', defineArg s n = Some s' /\ core top s' 0 (S n :: fr) /\ grows s s' /\
    varsSize s' = varsSize s /\ contexts s' = contexts s /\ assocs s' = assocs s /\
    order s' = order s ++ [S n] /\ frameSize s' = Z.of_nat n - 1 /\ offset_of (vars s') (S n) = Z.of_nat n /\
    start_of (vars s') (S n) = 0.
Proof.
  intros C Hi Hs Hf Ht. unfold defineArg.
  destruct (defineVar_ok top s 0 0 fr VAR_TMP (S n) C Hi Hs) as (s1 & E & C1 & G1 & Cv & E1 & E2 & E3 & E4 & E5 & E6);
    [lia|intros j Hj; pose proof (core_range _ _ _ _ _ C Hj); lia|lia|].
  rewrite E. cbn [mbind option_bind].
  assert (In (S n) (order s1)) as Hin by apply Cv.
  destruct (update_ok top s1 0 0 (S n :: fr) (S n) (fun v => mkVariable (v_index v) (Z.lor (v_flags v) VAR_ON_STACK)
      (v_reg v) (v_start v) (v_end v) (v_gcEnd v) (v_frameOffset v)) C1 Hin) as (v & Ev & Eu & C2 & G2); [lia| |].
  { intros v _ (V1 & V2 & V3). split; [apply on_stack_defined|]. cbn. repeat split; lia. }
  rewrite Eu. eexists; split; [done|]. split; [done|]. split; [by eapply grows_trans|].
  cbn [set_vars varsSize contexts assocs order frameSize vars]. do 4 (split; [done|]).
  split; [rewrite E5, Hf; done|]. split.
  - rewrite <- Hf, <- E6 by done. apply (g_offset _ _ G2). done.
  - destruct (core_range _ _ _ _ _ C2 (g_order _ _ G2 _ Hin)) as (? & ? & _). cbn in *. lia.
Qed.

Lemma defineArgs_ok : forall n s fr,
  core top s 0 fr -> (forall i, In i (order s) -> (S n < i)%nat) -> (S n < varsSize s)%nat ->
  frameSize s = Z.of_nat n -> Z.of_nat n <= top ->
  exists s' fr', defineArgs s n = Some s' /\ core top s' 0 fr' /\ grows s s' /\
    varsSize s' = varsSize s /\ contexts s' = contexts s /\ assocs s' = assocs s /\ frameSize s' = -1 /\
    (forall i, In i (order s') <-> In i (order s) \/ (1 <= i <= S n)%nat) /\
    (forall i, In i fr' <-> In i fr \/ (1 <= i <= S n)%nat) /\
    (forall a, (a <= n)%nat -> offset_of (vars s') (S a) = Z.of_nat a).
Proof.
  induction n as [|n IH]; intros s fr C Hgt Hs Hf Ht; cbn [defineArgs].
  - destruct (defineArg_ok s fr 0 C) as (s1 & E & C1 & G1 & V & X1 & X2 & O & F & Of & _); try done.
    { intros Hin. apply Hgt in Hin. lia. }
    rewrite E. cbn [mbind option_bind]. exists s1, (1%nat :: fr). do 6 (split; [done|]).
    split; [done|]. split; [|split].
    + intros i. rewrite O, in_app_iff. cbn [In]. intuition lia.
    + intros i. cbn [In]. intuition lia.
    + intros a Ha. by replace a with 0%nat by lia.
  - destruct (defineArg_ok s fr (S n) C) as (s1 & E & C1 & G1 & V & X1 & X2 & O & F & Of & _); try done.
    { intros Hin. apply Hgt in Hin. lia. }
    rewrite E. cbn [mbind option_bind].
    destruct (IH s1 (S (S n) :: fr) C1) as (s2 & fr2 & E2 & C2 & G2 & V2 & Y1 & Y2 & F2 & O2 & Fr2 & Of2).
    { intros i. rewrite O. intros [Hin|[<-|[]]]%in_app_or; [|lia]. apply Hgt in Hin. lia. }
    { lia. }
    { rewrite F. lia. }
    { lia. }
    exists s2, fr2. split; [done|]. split; [done|]. split; [by eapply grows_trans|].
    do 3 (split; [congruence|]). split; [done|]. split; [|split].
    + intros i. rewrite O2, O, in_app_iff. cbn [In]. intuition lia.
    + intros i. rewrite Fr2. cbn [In]. intuition lia.
    + intros a Ha. destruct (decide (a = S n)) as [->|].
      * rewrite (g_offset _ _ G2); [done|]. rewrite O. apply in_or_app. right. by left.
      * apply Of2. lia.
Qed.
End Initial.

Definition temp_space (code : CompiledCode) : nat := (argsSize code + tempsSize code + 2)%nat.
Definition capacity_of (code : CompiledCode) : nat :=
  (temp_space code + REGS_ALLOC_CONTEXT_LEVELS + literalsCount code)%nat.

(** The state before the first argument. *)
Definition emptyVars (code : CompiledCode) (spare : nat) : Vars :=
  mkVars (temp_space code) (capacity_of code) (replicate (capacity_of code + spare) cleared)
    (replicate REGS_ALLOC_CONTEXT_LEVELS None) (replicate (literalsCount code + spare) None) [] 0 true
    (Z.of_nat (argsSize code)).

Lemma levels_pos : (0 < REGS_ALLOC_CONTEXT_LEVELS)%nat.
Proof. unfold REGS_ALLOC_CONTEXT_LEVELS. lia. Qed.

Lemma filled_none n : filled (replicate n None) = 0%nat.
Proof. by induction n. Qed.

#[local] Opaque REGS_ALLOC_CONTEXT_LEVELS.

Lemma emptyVars_core code spare : core (Z.of_nat (argsSize code)) (emptyVars code spare) 0 [].
Proof.
  constructor; cbn [emptyVars capacity vars varsSize order frameSize]; try done.
  - rewrite length_replicate. lia.
  - unfold capacity_of. lia.
  - constructor.
  - intros i v Ev. apply lookup_replicate in Ev as [-> _]. done.
  - constructor.
  - intros ty k i Hk. exfalso. destruct ty; cbn [specialVars contexts assocs emptyVars] in Hk; apply lookup_replicate in Hk as [? _]; done.
Qed.

Lemma set_frameSize_core top s now fr z :
  core top s now fr -> z <= frameSize s -> core top (set_frameSize z s) now fr /\ grows s (set_frameSize z s).
Proof.
  intros C Hz. split.
  - pose proof (c_framed _ _ _ _ C) as HF. destruct C.
    constructor; cbn [set_frameSize capacity vars varsSize order frameSize]; try done.
    intros i Hi. destruct (HF i Hi) as (? & ? & ?). split; [done|]. lia.
  - constructor; intros; cbn; done || lia.
Qed.

Lemma initialVars_ok code spare :
  Z.of_nat (capacity_of code) <= UINT16_MAX ->
  exists s fr, initialVars code spare = Some s /\
    scan_ok (Z.of_nat (argsSize code)) (temp_space code) (literalsCount code) s 0 fr /\
    (forall a, (a <= argsSize code)%nat -> In (S a) (order s) /\ In (S a) fr /\
       offset_of (vars s) (S a) = Z.of_nat a).
Proof.
  intros Hcap. unfold initialVars. change (argsSize code + tempsSize code + 2)%nat with (temp_space code).
  change (temp_space code + REGS_ALLOC_CONTEXT_LEVELS + literalsCount code)%nat with (capacity_of code).
  unfold ASSERT. rewrite (proj2 (Z.ltb_ge _ _)) by done. cbn [negb mbind option_bind regsAllocEnsure].
  change (mkVars _ _ _ _ _ _ _ _ _) with (emptyVars code spare).
  destruct (defineArgs_ok (Z.of_nat (argsSize code)) (argsSize code) (emptyVars code spare) [])
    as (s1 & fr1 & E1 & C1 & G1 & V1 & X1 & X2 & F1 & O1 & Fr1 & Of1);
    [apply emptyVars_core|done|cbn; unfold temp_space; lia|done|lia|].
  rewrite E1. cbn [mbind option_bind]. rewrite F1.
  destruct (set_frameSize_core _ s1 0 fr1 (-1 - 1) C1) as [C2 G2]; [lia|].
  assert (~ In CONTEXT_INDEX (order s1)) as Hn.
  { rewrite O1. cbn. unfold CONTEXT_INDEX. lia. }
  destruct (defineVar_ok _ (set_frameSize (-1 - 1) s1) 0 0 fr1 VAR_CONTEXT CONTEXT_INDEX C2)
    as (s3 & E3 & C3 & G3 & Cv & V3 & Y1 & Y2 & O3 & F3 & _).
  { done. }
  { cbn. rewrite V1. cbn. unfold temp_space, CONTEXT_INDEX. lia. }
  { lia. }
  { intros j Hj. pose proof (core_range _ _ _ _ _ C1 Hj). cbn. lia. }
  { cbn. lia. }
  rewrite E3. cbn [mbind option_bind]. unfold set_special. cbn [specialVars]. cbn in Y1, Y2, V3.
  rewrite Y1, X1. cbn [emptyVars contexts]. pose proof levels_pos as HP.
  rewrite put_Some by by rewrite length_replicate. cbn [mbind option_bind].
  assert (forall i, In i (order s3) <-> i = CONTEXT_INDEX \/ (1 <= i <= S (argsSize code))%nat) as HO.
  { intros i. rewrite O3, in_app_iff. cbn [set_frameSize order]. rewrite O1. cbn. intuition lia. }
  eexists _, (CONTEXT_INDEX :: fr1). split; [done|]. split.
  - constructor; cbn [capacity varsSize contexts assocs order frameSize];
      rewrite ?V3, ?V1, ?Y2, ?X2, ?(g_cap _ _ G3), ?(g_cap _ _ G2), ?(g_cap _ _ G1); cbn [emptyVars capacity varsSize assocs]; try done.
    + eapply core_row; [exact C3|cbn; rewrite ?V3, ?V1, ?(g_cap _ _ G3), ?(g_cap _ _ G2), ?(g_cap _ _ G1); done..|].
      intros [] k i; cbn [specialVars contexts assocs].
      * intros [->|Hk]%row_insert; [apply HO; by left|]. by apply lookup_replicate in Hk as [? _].
      * by intros [? _]%lookup_replicate.
      * by intros [? _]%lookup_replicate.
    + rewrite F3. cbn. lia.
    + unfold temp_space. lia.
    + rewrite length_replicate. lia.
    + destruct (filled_insert (replicate REGS_ALLOC_CONTEXT_LEVELS None) 0 CONTEXT_INDEX) as [-> _].
      { by apply lookup_replicate. }
      rewrite take_replicate, !filled_none. lia.
    + apply HO. right. unfold SELF_INDEX. lia.
    + intros i [->|Hi]%HO; left; [by left|right]. apply Fr1. by right.
    + by intros k i [? _]%lookup_replicate.
  - intros a Ha. cbn [order vars]. split; [apply HO; right; lia|]. split; [right; apply Fr1; right; lia|].
    rewrite (g_offset _ _ G3), (g_offset _ _ G2); [by apply Of1|apply O1; right; lia|].
    cbn [set_frameSize order]. apply O1. right. lia.
Qed.

(** ** The scan of the code *)

(** The ranges after the scan of a method of [n] instructions: every use is in
    the range of its variable, for the collector and, up to the last
    instruction, for the registers. *)
Definition live_ok (ctxs ascs : list (option nat)) (vs : list Variable_) (n : nat) (l : list Step) : Prop :=
  forall st o p i, In st l -> In (o, p) (uses st) -> In i (vars_of ctxs ascs o) ->
    start_of vs i <= p <= gcEnd_of vs i /\ (p < Z.of_nat n -> p <= end_of vs i).

(** The back-edge of a loop is in the collector's range of every variable the
    loop uses. *)
Definition loop_ok (ctxs ascs : list (option nat)) (vs : list Variable_) (l : list Step) : Prop :=
  forall st head st' o p i, In st l -> In head l -> back_edge st head ->
    In st' l -> In (o, p) (uses st') -> st_number head <= p <= st_number st ->
    In i (vars_of ctxs ascs o) -> st_number st <= gcEnd_of vs i.

Section Code.
Context (top : Z) (T L : nat).

(** The implicit return: self is used once more. *)
Lemma return_self s now fr offset :
  scan_ok top T L s now fr -> start_of (vars s) SELF_INDEX = 0 -> 0 <= offset <= now ->
  exists s', defineTmpVar s SELF_INDEX offset = Some s' /\ core top s' now fr /\
    capacity s' = capacity s /\ order s' = order s /\ contexts s' = contexts s /\ assocs s' = assocs s /\
    frameSize s' = frameSize s /\ end_of (vars s') SELF_INDEX = offset /\
    forall i, start_of (vars s') i = start_of (vars s) i /\ gcEnd_of (vars s) i <= gcEnd_of (vars s') i /\
      offset_of (vars s') i = offset_of (vars s) i /\
      (i <> SELF_INDEX -> end_of (vars s') i = end_of (vars s) i).
Proof.
  intros K H0 Ho. pose proof (k_core _ _ _ _ _ _ K) as C. pose proof (k_self _ _ _ _ _ _ K) as Hs.
  destruct (core_lookup _ _ _ _ _ C Hs) as (v & Ev & V1 & V2 & V3). pose proof (lookup_lt_Some _ _ _ Ev) as Hl.
  assert (v_start v = 0) as Hv0 by (unfold start_of in H0; by rewrite Ev in H0).
  unfold defineTmpVar. rewrite Ev. cbn [mbind option_bind].
  rewrite (proj2 (c_flag _ _ _ _ C _ _ Ev) Hs).
  destruct (update_core top s now now fr SELF_INDEX (extend offset) v C Hs) as [E C']; try done; try lia.
  { split; [done|]. unfold extend; cbn [v_start v_end v_gcEnd]. case_bool; lia. }
  rewrite E. cbn [mbind option_bind]. eexists; split; [done|].
  split; [by eapply core_same; [exact C'|..]|]. do 5 (split; [done|]).
  cbn [noteOffset set_vars vars]. unfold start_of, end_of, gcEnd_of, offset_of. split.
  - rewrite lookup_update, decide_True by done. done.
  - intros i. rewrite !lookup_update by done. destruct (decide (i = SELF_INDEX)) as [->|]; [|done].
    rewrite Ev. unfold extend; cbn. repeat split; try done. case_bool; lia.
Qed.

Lemma scanCode_ok `{Target} s fr code l :
  scan_ok top T L s 0 fr -> start_of (vars s) SELF_INDEX = 0 -> steps code = Some l -> method_fits T L l ->
  exists s' now fr', scanCode s code = Some s' /\ core top s' now fr' /\ capacity s' = capacity s /\
    contexts s' !! 0%nat = Some (Some CONTEXT_INDEX) /\
    (forall k i, assocs s' !! k = Some (Some i) -> (T <= i)%nat) /\
    (forall i, In i (order s') -> In i fr' \/ exists k, assocs s' !! k = Some (Some i)) /\
    (forall i, In i (order s) -> In i (order s') /\ offset_of (vars s') i = offset_of (vars s) i) /\
    live_ok (contexts s') (assocs s') (vars s') (length l) l /\
    loop_ok (contexts s') (assocs s') (vars s') l.
Proof.
  intros K H0 Hst MF. destruct (scanCode_steps s code l Hst) as [-> HC].
  destruct (scanSteps_ok top T L (length code) l [] (mkScan s (replicate (S (length code)) 0) false))
    as (sc & E & SN).
  { constructor; cbn [sc_vars bnAtByte]; [by exists 0, fr|by rewrite length_replicate|done|by intros ? ? []|by intros ? ? ? ? ? ? []]. }
  { done. }
  { done. }
  destruct SN as [SN G]. cbn [sc_vars] in G.
  rewrite E. cbn [mbind option_bind]. destruct (sn_ok _ _ _ _ _ _ SN) as (now & fr' & K' & Hnow).
  pose proof (k_core _ _ _ _ _ _ K') as C'. cbn [app] in *.
  assert (start_of (vars (sc_vars sc)) SELF_INDEX = 0) as H0'.
  { rewrite (g_start _ _ G); [done|]. apply (k_self _ _ _ _ _ _ K). }
  destruct (returns sc).
  - exists (sc_vars sc), now, fr'. split; [done|]. split; [done|]. split; [apply (g_cap _ _ G)|].
    split; [apply (k_ctx0 _ _ _ _ _ _ K')|]. split; [apply (k_high _ _ _ _ _ _ K')|]. split; [apply (k_framed _ _ _ _ _ _ K')|].
    split; [intros i Hi; split; [by apply (g_order _ _ G)|by apply (g_offset _ _ G)]|]. split.
    + intros st o p i H1 H2 Hi. destruct (sn_uses _ _ _ _ _ _ SN o p) as [_ Cv]; [by eapply all_uses_in|].
      destruct (Cv i Hi) as (_ & ? & ? & ?). lia.
    + apply (sn_loops _ _ _ _ _ _ SN).
  - destruct (return_self (sc_vars sc) (Z.max now (Z.of_nat (length l))) fr' (Z.max 0 (Z.of_nat (length l) - 1)))
      as (s2 & E2 & C2 & Q1 & Q2 & Q3 & Q4 & Q5 & Q6 & Q7); [by eapply scan_ok_later; [exact K'|lia]|done|lia|].
    exists s2, (Z.max now (Z.of_nat (length l))), fr'. split; [done|]. split; [done|].
    split; [rewrite Q1; apply (g_cap _ _ G)|]. rewrite Q3, Q4, Q2.
    split; [apply (k_ctx0 _ _ _ _ _ _ K')|]. split; [apply (k_high _ _ _ _ _ _ K')|]. split; [apply (k_framed _ _ _ _ _ _ K')|].
    split; [intros i Hi; split; [by apply (g_order _ _ G)|]|split].
    + destruct (Q7 i) as (_ & _ & -> & _). by apply (g_offset _ _ G).
    + intros st o p i H1 H2 Hi. destruct (sn_uses _ _ _ _ _ _ SN o p) as [_ Cv]; [by eapply all_uses_in|].
      destruct (Cv i Hi) as (_ & ? & ? & ?). destruct (Q7 i) as (-> & ? & _ & He). split; [lia|].
      destruct (decide (i = SELF_INDEX)) as [->|Hne]; [rewrite Q6; lia|]. rewrite He by done. lia.
    + intros st head st' o p i H1 H2 H3 H4 H5 H6 Hi. destruct (Q7 i) as (_ & ? & _).
      etrans; [exact (sn_loops _ _ _ _ _ _ SN st head st' o p i H1 H2 H3 H4 H5 H6 Hi)|done].
Qed.
End Code.


(** ** The whole allocation *)

Definition shift (delta : Z) (v : Variable_) : Variable_ :=
  mkVariable (v_index v) (v_flags v) (v_reg v) (v_start v) (v_end v) (v_gcEnd v) (v_frameOffset v + delta).

Definition is_arg (n i : nat) : Prop := (1 <= i <= S n)%nat.
#[local] Instance is_arg_dec n i : Decision (is_arg n i).
Proof. unfold is_arg. apply _. Defined.

Lemma shiftArgs_ok delta : forall n vs, (S n < length vs)%nat ->
  exists vs', shiftArgs vs n delta = Some vs' /\
    forall i, vs' !! i = if decide (is_arg n i) then shift delta <$> vs !! i else vs !! i.
Proof.
  induction n as [|n IH]; intros vs Hl; cbn [shiftArgs];
    (destruct (lookup_Some_lt vs _ Hl) as [v Ev]; rewrite Ev; cbn [mbind option_bind]; fold (shift delta v)).
  - eexists; split; [done|]. intros i. destruct (decide (i = 1%nat)) as [->|Hne].
    + rewrite decide_True by (unfold is_arg; lia). by rewrite list_lookup_insert_eq, Ev.
    + rewrite decide_False by (unfold is_arg; lia). by rewrite list_lookup_insert_ne.
  - destruct (IH (<[S (S n) := shift delta v]> vs)) as (vs' & E & H); [rewrite length_insert; lia|].
    exists vs'. split; [done|]. intros i. rewrite H. destruct (decide (i = S (S n))) as [->|Hne].
    + rewrite decide_False, decide_True by (unfold is_arg; lia). by rewrite list_lookup_insert_eq, Ev.
    + rewrite list_lookup_insert_ne by done. by repeat case_decide; unfold is_arg in *; try lia.
Qed.

(** The variable [i] of the array is one of the method's. *)
Definition defined_in (vs : list Variable_) (i : nat) : Prop := exists v, vs !! i = Some v /\ is_defined v.

(** The variable [i] holds a value at the instruction [p]. *)
Definition live_in (vs : list Variable_) (p : Z) (i : nat) : Prop :=
  defined_in vs i /\ start_of vs i <= p <= end_of vs i.

(** A variable with a place in the frame: all but the associations. *)
Definition framed_in (a : RegsAlloc) (i : nat) : Prop :=
  defined_in (ra_vars a) i /\ forall k, ra_assocs a !! k <> Some (Some i).

(** The registers: the pool [R] for the variables, [ctx] for the context. *)
Record registers_ok (R : list Z) (ctx : Z) (vs : list Variable_) : Prop := {
  ro_ctx : defined_in vs CONTEXT_INDEX /\ reg_of vs CONTEXT_INDEX = ctx;
  ro_regs : forall i, defined_in vs i -> i <> CONTEXT_INDEX -> reg_of vs i = SPILLED_REG \/ In (reg_of vs i) R;
  ro_disjoint : forall i j p, live_in vs p i -> live_in vs p j ->
    reg_of vs i = reg_of vs j -> reg_of vs i <> SPILLED_REG -> i = j;
  ro_spills : forall i, defined_in vs i -> reg_of vs i = SPILLED_REG ->
    exists p l, NoDup l /\ length l = S (length R) /\ forall k, In k l -> k <> CONTEXT_INDEX /\ live_in vs p k }.

(** The frame: the arguments above the return address (and the saved frame
    pointer, when there is a frame), the others below the reserved place. *)
Record frame_ok (argsSize : nat) (a : RegsAlloc) : Prop := {
  fo_args : forall n, (n <= argsSize)%nat ->
    offset_of (ra_vars a) (S n) = Z.of_nat n + (if ra_frameLess a then 1 else 2);
  fo_locals : forall i, framed_in a i -> ~ is_arg argsSize i -> - ra_frameSize a <= offset_of (ra_vars a) i <= -2;
  fo_distinct : forall i j, framed_in a i -> framed_in a j ->
    offset_of (ra_vars a) i = offset_of (ra_vars a) j -> i = j;
  fo_frameLess : ra_frameLess a = true -> forall i, defined_in (ra_vars a) i -> reg_of (ra_vars a) i <> SPILLED_REG }.

Lemma core_ranges_ok top s now fr :
  core top s now fr -> contexts s !! 0%nat = Some (Some CONTEXT_INDEX) -> ranges_ok s CONTEXT_INDEX.
Proof.
  intros C Hc. pose proof (c_len _ _ _ _ C). pose proof (c_size _ _ _ _ C).
  assert (forall i, In i (order s) -> (i < length (vars s))%nat) as Hl
    by (intros i Hi; pose proof (c_in _ _ _ _ C i Hi); lia).
  constructor; try done; try apply C.
  - apply Hl. by apply (c_rows _ _ _ _ C VAR_CONTEXT 0).
  - etrans; [|done]. apply nodup_bound; apply C.
  - intros i Hi. pose proof (core_range _ _ _ _ _ C Hi) as (? & ? & ?). split; [by apply Hl|]. split; [lia|done].
  - intros i Hi. pose proof (core_range _ _ _ _ _ C Hi). lia.
Qed.

(** What the register assignment and the shift of the arguments leave of the
    scanned variables. *)
Definition laid_out (argsSize : nat) (delta : Z) (s : Vars) (vs vs' : list Variable_) : Prop :=
  unassigned vs = unassigned (vars s) /\
  forall i, vs' !! i = if decide (is_arg argsSize i) then shift delta <$> vs !! i else vs !! i.

Section LaidOut.
Context (argsSize : nat) (delta : Z) (s : Vars) (vs vs' : list Variable_).
Hypothesis HL : laid_out argsSize delta s vs vs'.

Lemma laid_field {B} (g : Variable_ -> B) d i :
  (forall v, g (shift delta v) = g v) -> default d (g <$> vs' !! i) = default d (g <$> vs !! i).
Proof. intros Hg. rewrite (proj2 HL). case_decide; [|done]. destruct (vs !! i); [|done]. cbn. apply Hg. Qed.

Lemma assigned_field {B} (g : Variable_ -> B) d i :
  (forall v, g (set_reg 0 v) = g v) -> default d (g <$> vs !! i) = default d (g <$> vars s !! i).
Proof.
  intros Hg. pose proof (unassigned_lookup _ _ i (proj1 HL)) as E.
  destruct (vs !! i) as [v|], (vars s !! i) as [w|]; cbn in *; try done. injection E as E.
  rewrite <- (Hg v), <- (Hg w). unfold set_reg. congruence.
Qed.

Lemma laid_ranges i :
  start_of vs' i = start_of (vars s) i /\ end_of vs' i = end_of (vars s) i /\
  gcEnd_of vs' i = gcEnd_of (vars s) i /\ reg_of vs' i = reg_of vs i.
Proof.
  unfold start_of, end_of, gcEnd_of, reg_of.
  rewrite !(laid_field v_start), !(laid_field v_end), !(laid_field v_gcEnd), !(laid_field v_reg) by done.
  by rewrite !(assigned_field v_start), !(assigned_field v_end), !(assigned_field v_gcEnd).
Qed.

Lemma laid_defined top now fr i : core top s now fr -> defined_in vs' i <-> In i (order s).
Proof.
  intros C. pose proof (laid_field v_flags 0 i) as E1. pose proof (assigned_field v_flags 0 i) as E2.
  specialize (E1 ltac:(done)). specialize (E2 ltac:(done)). unfold defined_in, is_defined. split.
  - intros (v & Ev & Hd). rewrite Ev in E1. cbn in E1.
    destruct (vars s !! i) as [w|] eqn:Ew; cbn in E2.
    + apply (c_flag _ _ _ _ C i w Ew). unfold is_defined. by rewrite <- E2, <- E1.
    + rewrite E1, E2 in Hd. done.
  - intros Hi. destruct (core_lookup _ _ _ _ _ C Hi) as (w & Ew & _).
    pose proof (proj2 (c_flag _ _ _ _ C i w Ew) Hi) as Hd. unfold is_defined in Hd.
    rewrite Ew in E2. cbn in E2. destruct (vs' !! i) as [v|]; cbn in E1.
    + exists v. split; [done|]. by rewrite E1, E2.
    + rewrite <- E2, <- E1 in Hd. done.
Qed.

Lemma laid_offset i : (i < length (vars s))%nat ->
  offset_of vs' i = offset_of (vars s) i + if decide (is_arg argsSize i) then delta else 0.
Proof.
  intros Hi. unfold offset_of. rewrite <- (assigned_field v_frameOffset 0 i) by done.
  rewrite (proj2 HL). pose proof (unassigned_lookup _ _ i (proj1 HL)) as E.
  destruct (lookup_Some_lt _ _ Hi) as [w Ew]. rewrite Ew in E.
  destruct (vs !! i) as [v|]; [|done]. case_decide; cbn; lia.
Qed.

Lemma laid_registers top now fr R ctx :
  core top s now fr -> contexts s !! 0%nat = Some (Some CONTEXT_INDEX) ->
  assignment_ok s CONTEXT_INDEX R ctx vs -> registers_ok R ctx vs'.
Proof.
  intros C Hc A.
  assert (forall i, defined_in vs' i <-> In i (order s)) as HD by (intros i; by eapply laid_defined).
  assert (forall i, reg_of vs' i = reg_of vs i) as HR by (intros i; apply (laid_ranges i)).
  assert (forall p i, live_in vs' p i <-> In i (order s) /\ live_at s p i) as HLv.
  { intros p i. unfold live_in, live_at. rewrite HD. by destruct (laid_ranges i) as (-> & -> & _). }
  constructor.
  - split; [apply HD; by apply (c_rows _ _ _ _ C VAR_CONTEXT 0)|]. rewrite HR. apply A.
  - intros i Hi%HD Hne. rewrite HR. by apply (as_regs _ _ _ _ _ A).
  - intros i j p [Hi Li]%HLv [Hj Lj]%HLv. rewrite !HR. by apply (as_disjoint _ _ _ _ _ A i j p).
  - intros i Hi%HD. rewrite HR. intros E. destruct (as_spills _ _ _ _ _ A i Hi E) as (p & l & ? & ? & H).
    exists p, l. split; [done|]. split; [done|]. intros k Hk. destruct (H k Hk) as (? & ? & ?).
    split; [done|]. by apply HLv.
Qed.

Lemma laid_uses n l :
  live_ok (contexts s) (assocs s) (vars s) n l -> live_ok (contexts s) (assocs s) vs' n l.
Proof.
  intros HH st o p i H1 H2 H3. destruct (laid_ranges i) as (-> & -> & -> & _). exact (HH st o p i H1 H2 H3).
Qed.

Lemma laid_loops l : loop_ok (contexts s) (assocs s) (vars s) l -> loop_ok (contexts s) (assocs s) vs' l.
Proof.
  intros HH st head st' o p i H1 H2 H3 H4 H5 H6 H7. destruct (laid_ranges i) as (_ & _ & -> & _).
  exact (HH st head st' o p i H1 H2 H3 H4 H5 H6 H7).
Qed.
End LaidOut.

(** The places: [k_framed] is what the scan says of the variables without one. *)
Lemma laid_frame argsSize frameLess s vs vs' now fr :
  let a := mkRegsAlloc (varsSize s) vs' (contexts s) (assocs s) (- frameSize s - 1) frameLess in
  laid_out argsSize ((if frameLess then 0 else 1) + 1) s vs vs' ->
  core (Z.of_nat argsSize) s now fr ->
  (forall i, In i (order s) -> In i fr \/ exists k, assocs s !! k = Some (Some i)) ->
  (forall n, (n <= argsSize)%nat -> In (S n) fr /\ offset_of (vars s) (S n) = Z.of_nat n) ->
  (frameLess = true -> existsb (spilled vs) (order s) = false) ->
  frame_ok argsSize a.
Proof.
  intros a HL C Hfr Hargs Hless.
  assert (forall i, defined_in vs' i <-> In i (order s)) as HD by (intros i; by eapply laid_defined).
  assert (forall i, framed_in a i -> In i fr /\ (i < length (vars s))%nat) as HF.
  { intros i [Hi%HD Hn]. destruct (Hfr i Hi) as [|[k Hk]]; [|by destruct (Hn k)]. split; [done|].
    pose proof (c_in _ _ _ _ C i Hi). pose proof (c_size _ _ _ _ C). pose proof (c_len _ _ _ _ C). lia. }
  assert (forall i, framed_in a i -> ~ is_arg argsSize i ->
            offset_of vs' i = offset_of (vars s) i /\ frameSize s < offset_of vs' i <= -2) as Hloc.
  { intros i Hi Hna. destruct (HF i Hi) as [Hif Hl]. rewrite (laid_offset _ _ _ _ _ HL i Hl), decide_False by done.
    destruct (c_framed _ _ _ _ C i Hif) as (_ & Hb & Hne). split; [lia|].
    destruct (decide (0 <= offset_of (vars s) i)) as [Hp|]; [|lia]. exfalso. apply Hna.
    destruct (Hargs (Z.to_nat (offset_of (vars s) i))) as [Hf Ho]; [lia|].
    assert (i = S (Z.to_nat (offset_of (vars s) i))) as ->; [|unfold is_arg; lia].
    apply (c_distinct _ _ _ _ C); [done..|]. rewrite Ho. lia. }
  assert (forall n, (n <= argsSize)%nat -> offset_of vs' (S n) = Z.of_nat n + (if frameLess then 1 else 2)) as Harg.
  { intros n Hn. destruct (Hargs n Hn) as [Hf Ho]. destruct (c_framed _ _ _ _ C _ Hf) as (Hi & _).
    pose proof (c_in _ _ _ _ C _ Hi). pose proof (c_size _ _ _ _ C). pose proof (c_len _ _ _ _ C).
    rewrite (laid_offset _ _ _ _ _ HL) by lia. rewrite Ho, decide_True by (unfold is_arg; lia).
    destruct frameLess; lia. }
  constructor; cbn [a ra_vars ra_frameSize ra_frameLess].
  - done.
  - intros i Hi Hna. destruct (Hloc i Hi Hna). lia.
  - intros i j Hi Hj. destruct (decide (is_arg argsSize i)) as [Ai|Ai], (decide (is_arg argsSize j)) as [Aj|Aj].
    + destruct i as [|i], j as [|j]; unfold is_arg in *; try lia. rewrite !Harg by lia. lia.
    + destruct (Hloc j Hj Aj). destruct i as [|i]; unfold is_arg in *; [lia|]. rewrite Harg by lia. destruct frameLess; lia.
    + destruct (Hloc i Hi Ai). destruct j as [|j]; unfold is_arg in *; [lia|]. rewrite Harg by lia. destruct frameLess; lia.
    + destruct (Hloc i Hi Ai) as [-> _], (Hloc j Hj Aj) as [-> _]. apply (c_distinct _ _ _ _ C); by apply HF.
  - intros Hl i Hi%HD E. pose proof (Hless Hl) as Hx. destruct (laid_ranges _ _ _ _ _ HL i) as (_ & _ & _ & Er).
    rewrite Er in E. assert (existsb (spilled vs) (order s) = true); [|congruence].
    apply existsb_exists. exists i. split; [done|]. unfold spilled. unfold reg_of in E.
    destruct (vs !! i) as [v|] eqn:Ev; cbn in E; [by apply Z.eqb_eq|].
    destruct (core_lookup _ _ _ _ _ C Hi) as (w & Ew & _).
    pose proof (unassigned_lookup _ _ i (proj1 HL)) as Eu. by rewrite Ev, Ew in Eu.
Qed.

(** What the code generators rely on. *)
Record allocation_ok (code : CompiledCode) (R : list Z) (ctx : Z) (l : list Step) (a : RegsAlloc) : Prop := {
  ao_live : live_ok (ra_contexts a) (ra_assocs a) (ra_vars a) (length l) l;
  ao_loops : loop_ok (ra_contexts a) (ra_assocs a) (ra_vars a) l;
  ao_registers : registers_ok R ctx (ra_vars a);
  ao_frame : frame_ok (argsSize code) a }.

(** C6. computeRegsAlloc succeeds on every method whose operands are in range
    and that has at most 65535 variables, with any backend whose registers are
    distinct, and its result is one the code generators can use.  Every use of
    a variable is in its live range; a loop's variables stay live for the
    collector up to the back-edge; two variables live at one instruction never
    have the same register; the context has the backend's context register and
    the others one of the pool; a variable is spilled only when more variables
    than registers are live at some instruction; the arguments are at their
    places above the frame, every other variable with a place has one of its
    own inside the frame; and a method is frameless only when nothing was
    spilled. *)
Theorem computeRegsAlloc_sound `{Target} (code : CompiledCode) (regs : Backend) (limit : Z) (spare : nat)
    (l : list Step) :
  backend_ok regs -> steps (code_bytes code) = Some l ->
  method_fits (temp_space code) (literalsCount code) l ->
  Z.of_nat (capacity_of code) <= UINT16_MAX ->
  exists a, computeRegsAlloc code regs limit spare = Some a /\
    allocation_ok code (pool_of regs limit) (CTX regs) l a.
Proof.
  intros HB Hst MF Hcap. unfold computeRegsAlloc.
  destruct (initialVars_ok code spare Hcap) as (s0 & fr0 & E0 & K0 & Hargs). rewrite E0. cbn [mbind option_bind].
  assert (start_of (vars s0) SELF_INDEX = 0) as Hz.
  { pose proof (core_range _ _ _ _ _ (k_core _ _ _ _ _ _ K0) (k_self _ _ _ _ _ _ K0)). lia. }
  destruct (scanCode_ok _ _ _ s0 fr0 (code_bytes code) l K0 Hz Hst MF)
    as (s1 & now & fr & E1 & C1 & Hc1 & Hctx & Hhigh & Hfr & Hgr & Hlive & Hloop).
  rewrite E1. cbn [mbind option_bind].
  destruct (scanRegisters_assigns s1 regs limit CONTEXT_INDEX) as (vs & E2 & A);
    [by eapply core_ranges_ok|done|].
  rewrite E2. cbn [mbind option_bind]. cbn [set_vars frameLess vars order frameSize varsSize contexts assocs].
  set (fl := frameLess s1 && _).
  assert (length vs = length (vars s1)) as Hlen.
  { rewrite <- (length_fmap (set_reg 0) vs), <- (length_fmap (set_reg 0) (vars s1)). f_equal. apply A. }
  destruct (shiftArgs_ok ((if fl then 0 else 1) + 1) (argsSize code) vs) as (vs' & E3 & H3).
  { rewrite Hlen. destruct (Hgr (S (argsSize code))) as [Hin _]; [by apply Hargs|].
    pose proof (c_in _ _ _ _ C1 _ Hin). pose proof (c_size _ _ _ _ C1). pose proof (c_len _ _ _ _ C1). lia. }
  rewrite E3. cbn [mbind option_bind]. eexists; split; [done|].
  assert (laid_out (argsSize code) ((if fl then 0 else 1) + 1) s1 vs vs') as HL by (split; [apply A|done]).
  constructor; cbn [ra_vars ra_contexts ra_assocs].
  - by eapply laid_uses.
  - by eapply laid_loops.
  - by eapply laid_registers.
  - eapply laid_frame; [done|done|done| |].
    + intros n Hn. destruct (Hargs n Hn) as (Hi & Hf & Ho). destruct (Hgr _ Hi) as [Hi' Ho']. rewrite Ho'.
      split; [|done]. destruct (Hfr _ Hi') as [|[k Hk]]; [done|]. apply Hhigh in Hk. unfold temp_space in Hk. lia.
    + intros Hfl. unfold fl in Hfl. apply andb_prop in Hfl as [_ Hfl]. by destruct (existsb _ _).
Qed.

Module RegisterExamples.
#[local] Existing Instance target_le.

(** The loop of the bytecode examples, as a method of no arguments. *)
Definition counting : CompiledCode := mkCode 0 6 2 (assembled Bytecodes.Examples.loop_method).
Definition counting_steps : list Step := default [] (steps (code_bytes counting)).

Lemma counting_fits : method_fits (temp_space counting) (literalsCount counting) counting_steps.
Proof.
  constructor.
  - assert (Forall (fun st => Forall (fun u => operand_fits 8 2 u.1) (uses st)) counting_steps) as HF.
    { vm_compute. repeat constructor. }
    intros st o p H1 H2. rewrite List.Forall_forall in HF. specialize (HF st H1).
    rewrite List.Forall_forall in HF. exact (HF (o, p) H2).
  - intros st d Hin Hj Hd. exists (nth 2 counting_steps st).
    vm_compute in Hin. repeat (destruct Hin as [<-|Hin]; [vm_compute in Hj; try done; injection Hj as <-; try done|]); [|done].
    split; [vm_compute; tauto|]. split; [|vm_compute; done]. eexists. split; [reflexivity|]. split; [done|]. reflexivity.
Defined.

Lemma computeRegsAlloc_sound_witness :
  exists a, computeRegsAlloc counting X64AvailableRegs 2 0 = Some a /\
    allocation_ok counting [11; 13] 12 counting_steps a.
Proof.
  apply (computeRegsAlloc_sound counting X64AvailableRegs 2 0 counting_steps).
  - apply _.
  - vm_compute. reflexivity.
  - exact counting_fits.
  - vm_compute. done.
Defined.
End RegisterExamples.
