(* ===== verification/ObjectMemory.v ===== *)
(** * Object memory

    The heap as the collectors and the write barrier see it
    ([src/vm/core/Object.h], [src/vm/core/Thread.h]): objects at their
    addresses, each with its header and the words of its body up to its
    aligned end.  A young object's address has bit 3 set.

    The shape of an object is read from its class: [instanceShape] is the
    fourth word of a [RawClass]'s body.  The main result is that the write
    barrier keeps every old object with a young referent in the remembered
    set. *)
From S2P Require Import Prelude Endian Tagging.
From stdpp Require Import gmap.
#[local] Open Scope Z_scope.

(** ** The code *)

Record RawObject := mkObject {
  o_class : Z;
  o_hash : Z;
  o_payloadSize : Z;
  o_varsSize : Z;
  o_tags : Z;
  o_body : list Z }.

Abbreviation Memory := (gmap Z RawObject).

Definition set_class (c : Z) (o : RawObject) : RawObject :=
  mkObject c (o_hash o) (o_payloadSize o) (o_varsSize o) (o_tags o) (o_body o).
Definition set_tags (t : Z) (o : RawObject) : RawObject :=
  mkObject (o_class o) (o_hash o) (o_payloadSize o) (o_varsSize o) t (o_body o).
Definition set_body (b : list Z) (o : RawObject) : RawObject :=
  mkObject (o_class o) (o_hash o) (o_payloadSize o) (o_varsSize o) (o_tags o) b.

(** [object->tags & t] *)
Definition has_tag (t : Z) (o : RawObject) : bool := negb (Z.land (o_tags o) t =? 0).

(** [object->tags &= ~t] for a byte of tags. *)
Definition clear_tag (t : Z) (o : RawObject) : RawObject := set_tags (Z.land (o_tags o) (Z.lxor 255 t)) o.
Definition add_tag (t : Z) (o : RawObject) : RawObject := set_tags (Z.lor (o_tags o) t) o.

(** A place that holds a pointer: the class word of an object, a word of its
    body, or a cell outside the heap (a handle, a stack slot, a field of a
    thread, a site in native code). *)
Inductive Slot := ClassOf (object : Z) | Var (object : Z) (i : nat) | Cell (n : nat).

#[export] Instance Slot_eq_dec : EqDecision Slot.
Proof. solve_decision. Defined.

(** Where [instanceShape] is in the body of a [RawClass]. *)
Definition SHAPE_WORD : nat := 3.

Section Shapes.
Context `{Target}.

(** The fields of the struct, in the order of its bytes. *)
Definition shape_of_word (w : Z) : option InstanceShape :=
  match storeU64 w with
  | [tag; payloadSize; varsSize; isIndexed; isBytes; valueType; size0; size1] =>
      Some {| tag := tag; payloadSize := payloadSize; varsSize := varsSize;
              isIndexed := negb (isIndexed =? 0); isBytes := negb (isBytes =? 0);
              valueType := valueType; Tagging.size := loadU16 [size0; size1] |}
  | _ => None
  end.

Definition instanceShape (m : Memory) (class : Z) : option InstanceShape :=
  c ← m !! class;
  w ← o_body c !! SHAPE_WORD;
  shape_of_word w.

(** [rawObjectSize], with the class at hand. *)
Definition rawObjectSize (shape : InstanceShape) (o : RawObject) : option Z :=
  if isIndexed shape then o_body o !! 0%nat else Some 0.

Definition computeRawObjectSize (m : Memory) (o : RawObject) : option Z :=
  shape ← instanceShape m (o_class o);
  n ← rawObjectSize shape o;
  Some (computeInstanceSize shape n).

(** The word of the body the variables start at. *)
Definition getRawObjectVars (shape : InstanceShape) : nat := Z.to_nat (Z.b2z (isIndexed shape) + payloadSize shape).

(** How many variables the collectors visit. *)
Definition varsCount (shape : InstanceShape) (o : RawObject) : option nat :=
  n ← (if isIndexed shape && negb (isBytes shape) then rawObjectSize shape o else Some 0);
  Some (Z.to_nat (varsSize shape + n)).
End Shapes.

(** ** The write barrier *)

(** Puts [object] in a remembered set, given as the list of its entries. *)
Definition rememberObject (m : Memory) (set : list Z) (object : Z) : option (Memory * list Z) :=
  o ← m !! object;
  _ ← ASSERT (negb (has_tag TAG_REMEMBERED o));
  Some (<[object := add_tag TAG_REMEMBERED o]> m, set ++ [object]).

Definition rawObjectStorePtr (m : Memory) (set : list Z) (object : Z) (field : nat) (value : Z)
    : option (Memory * list Z) :=
  o ← m !! object;
  '(m, set) ← (if isOldObject object && isNewObject value && negb (has_tag TAG_REMEMBERED o)
               then rememberObject m set object else Some (m, set));
  o ← m !! object;
  body ← put (o_body o) field (tagPtr value);
  Some (<[object := set_body body o]> m, set).

(** ** Addresses *)

(** Object addresses are multiples of 8 (16, but for the space bit). *)
Definition addr_ok (a : Z) : Prop := 0 < a < 2 ^ 63 /\ a mod 8 = 0.

Lemma isOld_negb a : isOldObject a = negb (isNewObject a).
Proof.
  unfold isOldObject, isNewObject, OLD_SPACE_TAG, NEW_SPACE_TAG, SPACE_TAG. change 8 with (2 ^ 3).
  rewrite land_pow2 by lia. by destruct (Z.testbit a 3).
Qed.

Lemma isNew_mod a : addr_ok a -> isNewObject a = (a mod 16 =? 8).
Proof.
  intros [Ha Hm]. unfold isNewObject, NEW_SPACE_TAG, SPACE_TAG. change 8 with (2 ^ 3) at 1 2. rewrite land_pow2 by lia.
  assert (a mod 16 = a mod 8 + 8 * (a / 8 mod 2)) as E by (rewrite <- (Z.rem_mul_r a 8 2) by lia; done).
  pose proof (Z.testbit_spec' a 3 ltac:(lia)) as Hb. change (2 ^ 3) with 8 in *.
  rewrite E, Hm, <- Hb. by destruct (Z.testbit a 3).
Qed.

(** The first place in a semispace that starts at [x]. *)
Lemma lor_new x : Z.lor x NEW_SPACE_TAG = if isNewObject x then x else x + 8.
Proof.
  unfold isNewObject, NEW_SPACE_TAG, SPACE_TAG. destruct (Z.eqb_spec (Z.land x 8) 8) as [E|E].
  - pose proof (Z.add_lor_land x 8). lia.
  - change 8 with (2 ^ 3) in E. rewrite land_pow2 in E by lia. pose proof (Z.add_lor_land x 8) as Hl.
    change 8 with (2 ^ 3) in Hl. rewrite land_pow2 in Hl by lia. change (2 ^ 3) with 8 in *. destruct (Z.testbit x 3); lia.
Qed.

Lemma lor_new_le x : x <= Z.lor x NEW_SPACE_TAG <= x + 8.
Proof. rewrite lor_new. destruct (isNewObject x); lia. Qed.

Lemma lor_new_mod x : addr_ok x -> Z.lor x NEW_SPACE_TAG mod 16 = 8.
Proof.
  intros Ha. rewrite lor_new. pose proof (isNew_mod x Ha) as E. destruct Ha as [_ Hm].
  destruct (isNewObject x); symmetry in E; [by apply Z.eqb_eq in E|]. apply Z.eqb_neq in E.
  pose proof (Z.div_mod x 8). pose proof (Z.div_mod x 16). pose proof (Z.mod_pos_bound x 16).
  assert (x mod 16 = 0) as E0 by lia. rewrite Z.add_mod, E0 by lia. done.
Qed.

Lemma tagPtr_addr a : addr_ok a -> tagPtr a = a + 1.
Proof. intros [Ha _]. unfold tagPtr. cbn [type_code]. apply u64_id. lia. Qed.

Lemma pointer_addr a : addr_ok a -> valueTypeOf (a + 1) VALUE_POINTER = true.
Proof.
  intros [_ Hm]. apply valueTypeOf_iff. cbn [type_code].
  rewrite (Z.div_mod a 8), Hm by lia. replace (8 * (a / 8) + 0 + 1) with (1 + (2 * (a / 8)) * 4) by lia.
  by rewrite Z.mod_add by lia.
Qed.

Lemma asObject_addr a : addr_ok a -> asObject (a + 1) = Some a.
Proof.
  intros Ha. pose proof (pointer_addr a Ha) as E. unfold valueTypeOf in E. unfold asObject, ASSERT. rewrite E.
  cbn [mbind option_bind]. f_equal. destruct Ha. rewrite u64_id; lia.
Qed.

(** ** Tags *)

Lemma has_tag_bit k o : 0 <= k -> has_tag (2 ^ k) o = Z.testbit (o_tags o) k.
Proof.
  intros Hk. unfold has_tag. rewrite land_pow2 by done. pose proof (Z.pow_pos_nonneg 2 k).
  destruct (Z.testbit (o_tags o) k); [|done]. destruct (Z.eqb_spec (2 ^ k) 0); [lia|done].
Qed.

Lemma add_tag_bit j k o : 0 <= j -> 0 <= k -> has_tag (2 ^ k) (add_tag (2 ^ j) o) = (k =? j) || has_tag (2 ^ k) o.
Proof.
  intros Hj Hk. rewrite !has_tag_bit by done. unfold add_tag, set_tags; cbn [o_tags].
  rewrite Z.lor_spec, Z.pow2_bits_eqb by done. rewrite Z.eqb_sym. apply orb_comm.
Qed.

Lemma clear_tag_bit j k o : 0 <= j < 8 -> 0 <= k < 8 ->
  has_tag (2 ^ k) (clear_tag (2 ^ j) o) = negb (k =? j) && has_tag (2 ^ k) o.
Proof.
  intros Hj Hk. rewrite !has_tag_bit by lia. unfold clear_tag, set_tags; cbn [o_tags].
  rewrite Z.land_spec, Z.lxor_spec, Z.pow2_bits_eqb by lia. change 255 with (Z.ones 8).
  rewrite Z.testbit_ones_nonneg by lia. destruct (Z.ltb_spec k 8); [|lia]. rewrite Z.eqb_sym.
  destruct (k =? j), (Z.testbit (o_tags o) k); done.
Qed.

(** ** The write barrier keeps the remembered set complete *)

Section Barrier.
(** Which words of which objects are variables. *)
Context (var : Z -> nat -> bool).

(** Every old object with a variable that leads to a young object is tagged
    and in the set, and only tagged objects are in it. *)
Record remembered (m : Memory) (set : list Z) : Prop := {
  rm_covers : forall a o i v, m !! a = Some o -> isOldObject a = true -> var a i = true -> o_body o !! i = Some v ->
    valueTypeOf v VALUE_POINTER = true -> isNewObject (v - 1) = true -> has_tag TAG_REMEMBERED o = true /\ a ∈ set;
  rm_once : NoDup set;
  rm_tagged : forall a, a ∈ set <-> exists o, m !! a = Some o /\ has_tag TAG_REMEMBERED o = true }.

Lemma rememberObject_keeps m set a o :
  m !! a = Some o -> has_tag TAG_REMEMBERED o = false -> remembered m set ->
  exists m' set', rememberObject m set a = Some (m', set') /\ remembered m' set' /\ a ∈ set' /\
    m' = <[a := add_tag TAG_REMEMBERED o]> m.
Proof.
  intros Ha Ht [HC HN HT]. unfold rememberObject. rewrite Ha. cbn [mbind option_bind]. unfold ASSERT. rewrite Ht. cbn [negb mbind option_bind].
  assert (has_tag TAG_REMEMBERED (add_tag TAG_REMEMBERED o) = true) as Ht'.
  { change (has_tag (2 ^ 5) (add_tag (2 ^ 5) o) = true). by rewrite add_tag_bit by lia. }
  eexists _, _. split; [done|]. split; [|split; [apply elem_of_app; right; by left|done]]. constructor.
  - intros b ob i v Hb Ho Hi Hv Hp Hn. destruct (decide (b = a)) as [->|Hne].
    + rewrite lookup_insert_eq in Hb. injection Hb as <-. split; [done|]. apply elem_of_app. right. by left.
    + rewrite lookup_insert_ne in Hb by done. destruct (HC b ob i v Hb Ho Hi Hv Hp Hn). split; [done|]. apply elem_of_app. by left.
  - apply NoDup_app. split; [done|]. split; [|apply NoDup_singleton]. intros b Hb ->%list_elem_of_singleton.
    apply HT in Hb as (ob & Hb & Hg). congruence.
  - intros b. rewrite elem_of_app, HT, list_elem_of_singleton. destruct (decide (b = a)) as [->|Hne].
    + rewrite lookup_insert_eq. split; [intros _; by eexists|by right].
    + rewrite lookup_insert_ne by done. split; [by intros [|]|by left].
Qed.

(** Storing [value] in an object that is remembered if it has to be. *)
Lemma store_keeps m set object field value o : remembered m set -> m !! object = Some o -> (field < length (o_body o))%nat -> addr_ok value ->
  (isOldObject object = true -> isNewObject value = true -> has_tag TAG_REMEMBERED o = true) ->
  remembered (<[object := set_body (<[field := tagPtr value]> (o_body o)) o]> m) set.
Proof.
  intros [HC HN HT] Ho Hf Hv Hg. constructor; [|done|].
  - intros a oa i v Ha Hoa Hi Hvi Hp Hn. destruct (decide (a = object)) as [->|Hne].
    + rewrite lookup_insert_eq in Ha. injection Ha as <-. cbn [set_body o_body] in Hvi.
      assert (has_tag TAG_REMEMBERED o = true) as Hg1.
      { destruct (decide (i = field)) as [->|Hne].
        - rewrite list_lookup_insert_eq in Hvi by done. injection Hvi as <-. rewrite tagPtr_addr in Hn by done.
          replace (value + 1 - 1) with value in Hn by lia. by apply Hg.
        - rewrite list_lookup_insert_ne in Hvi by done. by apply (HC object o i v). }
      split; [exact Hg1|]. apply HT. by exists o.
    + rewrite lookup_insert_ne in Ha by done. by apply (HC a oa i v).
  - intros a. rewrite HT. destruct (decide (a = object)) as [->|Hne]; [|by rewrite lookup_insert_ne].
    rewrite lookup_insert_eq, Ho. split; intros (o' & E & Ht); injection E as <-; by eexists.
Qed.
End Barrier.

(** A store that makes an old object refer to a young one for the first time:
    old objects are at multiples of 16, young ones 8 past one. *)
Definition must_remember (set : list Z) (object value : Z) : Prop := object mod 16 = 0 /\ value mod 16 = 8 /\ object ∉ set.

Lemma barrier_guard var m set object value o : remembered var m set -> m !! object = Some o -> addr_ok object -> addr_ok value ->
  isOldObject object && isNewObject value && negb (has_tag TAG_REMEMBERED o) = bool_decide (must_remember set object value).
Proof.
  intros HR Ho Ha Hv. rewrite isOld_negb, !isNew_mod by done. symmetry. unfold must_remember.
  assert (object ∈ set <-> has_tag TAG_REMEMBERED o = true) as E.
  { rewrite (rm_tagged _ _ _ HR). rewrite Ho. split; [by intros (? & [= <-] & ?)|by eexists]. }
  assert (object mod 16 = 0 <-> negb (object mod 16 =? 8) = true) as E0.
  { destruct Ha as [_ Ha]. pose proof (Z.div_mod object 8). pose proof (Z.div_mod object 16). pose proof (Z.mod_pos_bound object 16).
    rewrite negb_true_iff, Z.eqb_neq. lia. }
  rewrite !bool_decide_and, andb_assoc. f_equal; [f_equal|]; apply eq_true_iff_eq; rewrite bool_decide_eq_true; [by rewrite E0|by rewrite Z.eqb_eq|].
  rewrite negb_true_iff, E. by destruct (has_tag _ _).
Qed.

(** C30. The write barrier: storing a pointer in a variable of an object
    succeeds; that variable is the tagged pointer, and the other words and
    header fields of the object and all other objects are as they were.  If the
    object is old, the pointer young and the object not yet remembered, it gets
    the tag and is appended to the remembered set; otherwise tags and set are
    as they were.  The set then again has every old object with a young
    referent, each once, and exactly the objects that carry the tag. *)
Theorem rawObjectStorePtr_remembers var m set object field value o :
  remembered var m set -> m !! object = Some o -> (field < length (o_body o))%nat -> addr_ok object -> addr_ok value ->
  exists m' set', rawObjectStorePtr m set object field value = Some (m', set') /\ remembered var m' set' /\
    m' = <[object := mkObject (o_class o) (o_hash o) (o_payloadSize o) (o_varsSize o)
             (if decide (must_remember set object value) then Z.lor (o_tags o) 32 else o_tags o) (<[field := tagPtr value]> (o_body o))]> m /\
    set' = if decide (must_remember set object value) then set ++ [object] else set.
Proof.
  intros HR Ho Hf Ha Hv. unfold rawObjectStorePtr. rewrite Ho. cbn [mbind option_bind]. rewrite (barrier_guard var m set object value o HR Ho Ha Hv).
  pose proof (barrier_guard var m set object value o HR Ho Ha Hv) as G. destruct (decide (must_remember set object value)) as [D|D].
  - rewrite bool_decide_true in * by done. apply andb_true_iff in G as [_ Ht%negb_true_iff].
    destruct (rememberObject_keeps var m set object o Ho Ht HR) as (m1 & set1 & E & HR1 & _ & ->). rewrite E.
    unfold rememberObject in E. rewrite Ho in E. cbn [mbind option_bind] in E. unfold ASSERT in E. rewrite Ht in E. injection E as <-.
    cbn [mbind option_bind]. rewrite lookup_insert_eq. cbn [mbind option_bind add_tag set_tags o_body]. rewrite put_Some by done. cbn [mbind option_bind].
    eexists _, _. split; [done|]. split; [|by rewrite insert_insert_eq]. apply (store_keeps var _ _ object field value (add_tag TAG_REMEMBERED o)); [done|apply lookup_insert_eq|done|done|].
    intros _ _. change (has_tag (2 ^ 5) (add_tag (2 ^ 5) o) = true). by rewrite add_tag_bit by lia.
  - rewrite bool_decide_false in * by done. cbn [mbind option_bind]. rewrite Ho. cbn [mbind option_bind]. rewrite put_Some by done. cbn [mbind option_bind].
    eexists _, _. split; [done|]. split; [|done]. apply store_keeps; [done..|]. intros H1 H2. rewrite H1, H2 in G. by apply negb_false_iff in G.
Qed.

Lemma rawObjectStorePtr_remembers_witness :
  let m : Memory := {[16 := mkObject 16 5 0 0 1 [0]]} in
  remembered (fun _ _ => true) m [] /\
  exists m' set', rawObjectStorePtr m [] 16 0 24 = Some (m', set') /\ remembered (fun _ _ => true) m' set' /\
    m' = <[16 := mkObject 16 5 0 0 (if decide (must_remember [] 16 24) then Z.lor 1 32 else 1) [25]]> m /\
    set' = if decide (must_remember [] 16 24) then [16] else [].
Proof.
  intros m. assert (remembered (fun _ _ => true) m []) as HR.
  { constructor.
    - intros a o i v Ha _ _ Hv Hp. apply lookup_singleton_Some in Ha as [<- <-]. destruct i as [|i]; [|done]. by injection Hv as <-.
    - constructor.
    - intros a. split; [by intros ?%elem_of_nil|]. intros (o & Ha & Hg). by apply lookup_singleton_Some in Ha as [<- <-]. }
  split; [exact HR|].
  exact (rawObjectStorePtr_remembers (fun _ _ => true) m [] 16 0 24 (mkObject 16 5 0 0 1 [0]) HR eq_refl ltac:(cbn; lia) ltac:(by split) ltac:(by split)).
Defined.
