(* ===== verification/Scavenger.v ===== *)
(** * Scavenger

    The young collector ([src/vm/memory/Scavenger.c]).  The survivors of the
    source semispace are copied, depth first, to the other semispace or to old
    space, and every slot that led to them is redirected; the roots are the
    remembered old objects, the handles, the frames and fields of the mutators
    and fibers, and the pointers in native code.

    A [RawObject **] or [Value *] is a [Slot].  Roots outside the heap are
    cells: the records below give the cell of each field, so that what the C
    code reaches by address is shared here as it is there.  [None] is a failed
    assertion, an access to something that is not an object, or a recursion
    deeper than the fuel. *)
From S2P Require Import Prelude Endian Tagging.
From stdpp Require Import gmap.
From S2P Require Import FreeList HeapPage ObjectMemory.
#[local] Open Scope Z_scope.

(** ** The old space, as the scavenger uses it

    [tryAllocateOld st size grow] is 0 for [NULL] and fails when the operating
    system has no page left.  [old_room st n] says that [n] bytes more can be
    had by growing. *)
Class OldSpace := {
  old_state : Type;
  tryAllocateOld : old_state -> Z -> bool -> option (Z * old_state);
  old_includes : old_state -> Z -> bool;
  old_objects : old_state -> gset Z;
  old_room : old_state -> Z -> Prop;
  old_alloc_ok : forall st n size grow, old_room st n -> 0 < size <= n -> size mod HEAP_OBJECT_ALIGN = 0 ->
    exists p st', tryAllocateOld st size grow = Some (p, st') /\
      ((p = 0 /\ grow = false /\ old_objects st' = old_objects st /\ old_room st' n) \/
       (0 < p < 2 ^ 63 /\ p mod HEAP_OBJECT_ALIGN = 0 /\ (p ∉ old_objects st) /\
        old_objects st' = ({[p]} ∪ old_objects st) /\ old_room st' (n - size)));
  old_includes_ok : forall st a, a ∈ old_objects st -> old_includes st a = true }.

(** ** State *)

Section Code.
Context `{Target} `{OldSpace}.

Record Scavenger := mkScavenger {
  s_mem : Memory;
  s_cells : list Z;
  s_size : Z;
  s_hasPromotionFailure : bool;
  s_fromSpace : Z;
  s_toSpace : Z;
  s_top : Z;
  s_end : Z;
  s_survivorEnd : Z;
  s_fiberHasYoungRoot : bool;
  s_old : old_state;
  s_remembered : list Z           (* heap->rememberedSet *)
}.

Definition set_mem (m : Memory) (s : Scavenger) : Scavenger :=
  mkScavenger m (s_cells s) (s_size s) (s_hasPromotionFailure s) (s_fromSpace s) (s_toSpace s) (s_top s)
    (s_end s) (s_survivorEnd s) (s_fiberHasYoungRoot s) (s_old s) (s_remembered s).
Definition set_cells (c : list Z) (s : Scavenger) : Scavenger :=
  mkScavenger (s_mem s) c (s_size s) (s_hasPromotionFailure s) (s_fromSpace s) (s_toSpace s) (s_top s)
    (s_end s) (s_survivorEnd s) (s_fiberHasYoungRoot s) (s_old s) (s_remembered s).
Definition set_failure (b : bool) (s : Scavenger) : Scavenger :=
  mkScavenger (s_mem s) (s_cells s) (s_size s) b (s_fromSpace s) (s_toSpace s) (s_top s)
    (s_end s) (s_survivorEnd s) (s_fiberHasYoungRoot s) (s_old s) (s_remembered s).
Definition set_top (t : Z) (s : Scavenger) : Scavenger :=
  mkScavenger (s_mem s) (s_cells s) (s_size s) (s_hasPromotionFailure s) (s_fromSpace s) (s_toSpace s) t
    (s_end s) (s_survivorEnd s) (s_fiberHasYoungRoot s) (s_old s) (s_remembered s).
Definition set_survivorEnd (t : Z) (s : Scavenger) : Scavenger :=
  mkScavenger (s_mem s) (s_cells s) (s_size s) (s_hasPromotionFailure s) (s_fromSpace s) (s_toSpace s) (s_top s)
    (s_end s) t (s_fiberHasYoungRoot s) (s_old s) (s_remembered s).
Definition set_young (b : bool) (s : Scavenger) : Scavenger :=
  mkScavenger (s_mem s) (s_cells s) (s_size s) (s_hasPromotionFailure s) (s_fromSpace s) (s_toSpace s) (s_top s)
    (s_end s) (s_survivorEnd s) b (s_old s) (s_remembered s).
Definition set_old (o : old_state) (s : Scavenger) : Scavenger :=
  mkScavenger (s_mem s) (s_cells s) (s_size s) (s_hasPromotionFailure s) (s_fromSpace s) (s_toSpace s) (s_top s)
    (s_end s) (s_survivorEnd s) (s_fiberHasYoungRoot s) o (s_remembered s).
Definition set_remembered (l : list Z) (s : Scavenger) : Scavenger :=
  mkScavenger (s_mem s) (s_cells s) (s_size s) (s_hasPromotionFailure s) (s_fromSpace s) (s_toSpace s) (s_top s)
    (s_end s) (s_survivorEnd s) (s_fiberHasYoungRoot s) (s_old s) l.

(** [*p] *)
Definition read_slot (s : Scavenger) (p : Slot) : option Z :=
  match p with
  | ClassOf a => o_class <$> s_mem s !! a
  | Var a i => o ← s_mem s !! a; o_body o !! i
  | Cell n => s_cells s !! n
  end.

(** [*p = v] *)
Definition write_slot (s : Scavenger) (p : Slot) (v : Z) : option Scavenger :=
  match p with
  | ClassOf a => o ← s_mem s !! a; Some (set_mem (<[a := set_class v o]> (s_mem s)) s)
  | Var a i =>
      o ← s_mem s !! a;
      body ← put (o_body o) i v;
      Some (set_mem (<[a := set_body body o]> (s_mem s)) s)
  | Cell n => cells ← put (s_cells s) n v; Some (set_cells cells s)
  end.

(** ** Allocation *)

Definition initScavenger (page : HeapPage) (failure : bool) (m : Memory) (cells : list Z) (old : old_state) : Scavenger :=
  let semiSpaceSize := bodySize page / 2 in
  let start := body page in
  let top := Z.lor start NEW_SPACE_TAG in
  mkScavenger m cells semiSpaceSize failure start (start + semiSpaceSize) top (start + semiSpaceSize) top false old [].

Definition scavengerTryAllocate (s : Scavenger) (size : Z) : option (Z * Scavenger) :=
  _ ← ASSERT (size mod HEAP_OBJECT_ALIGN =? 0);
  let available := u64 (s_end s - s_top s) in
  if available <? size then Some (0, s)
  else
    let result := s_top s in
    _ ← ASSERT (Z.land result SPACE_TAG =? NEW_SPACE_TAG);
    _ ← ASSERT ((s_fromSpace s <=? result) && (result <=? s_fromSpace s + s_size s));
    Some (result, set_top (s_top s + size) s).

Definition scavengerIncludes (s : Scavenger) (addr : Z) : bool :=
  (Z.lor (s_fromSpace s) NEW_SPACE_TAG <=? addr) && (addr <? s_top s).

(** ** Evacuation *)

(** The two attempts at a place in old space. *)
Definition promote (s : Scavenger) (size : Z) : option (Z * Scavenger) :=
  '(newObject, old) ← tryAllocateOld (s_old s) size (s_hasPromotionFailure s);
  let s := set_old old s in
  if newObject =? 0 then
    let s := set_failure true s in
    '(newObject, old) ← tryAllocateOld (s_old s) size true;
    Some (newObject, set_old old s)
  else Some (newObject, s).

Definition forwardObject (s : Scavenger) (object : Z) : option Scavenger :=
  o ← s_mem s !! object;
  _ ← ASSERT (negb (has_tag TAG_FORWARDED o));
  _ ← ASSERT ((s_toSpace s <=? object) && (object <=? s_toSpace s + s_size s));
  size ← computeRawObjectSize (s_mem s) o;
  let size := align size HEAP_OBJECT_ALIGN in
  let o := clear_tag TAG_MARKED o in
  '(newObject, s) ←
    (if object <? s_survivorEnd s then promote s size
     else
       '(newObject, s) ← scavengerTryAllocate s size;
       _ ← ASSERT ((s_fromSpace s <=? newObject) && (newObject <=? s_fromSpace s + s_size s));
       Some (newObject, s));
  _ ← ASSERT (negb (newObject =? 0));
  (* memcpy: the body holds the words up to the aligned end *)
  _ ← ASSERT (size =? HEADER_SIZE + 8 * Z.of_nat (length (o_body o)));
  Some (set_mem (<[object := set_class newObject (add_tag TAG_FORWARDED o)]> (<[newObject := o]> (s_mem s))) s).

(** The recursion is bounded by [fuel]: each level below an object that is
    copied. *)
Fixpoint processPointer (fuel : nat) (s : Scavenger) (p : Slot) : option (Z * Scavenger) :=
  match fuel with
  | O => None
  | S fuel =>
      object ← read_slot s p;
      if Z.land object SPACE_TAG =? OLD_SPACE_TAG then Some (object, s)
      else
        o ← s_mem s !! object;
        if has_tag TAG_FORWARDED o then
          _ ← ASSERT (isOldObject (o_class o) || ((s_fromSpace s <=? o_class o) && (o_class o <=? s_top s)));
          c ← s_mem s !! o_class o;
          _ ← ASSERT (negb (has_tag TAG_FORWARDED c));
          s ← write_slot s p (o_class o);
          Some (o_class o, s)
        else if scavengerIncludes s object then Some (object, s)
        else
          s ← forwardObject s object;
          o ← s_mem s !! object;
          c ← s_mem s !! o_class o;
          _ ← ASSERT (negb (has_tag TAG_FORWARDED c));
          let object := o_class o in
          s ← write_slot s p object;
          s ← iterateObject fuel s object;
          Some (object, s)
  end
with processTaggedPointer (fuel : nat) (s : Scavenger) (p : Slot) : option (Z * Scavenger) :=
  match fuel with
  | O => None
  | S fuel =>
      v ← read_slot s p;
      object ← asObject v;
      if Z.land object SPACE_TAG =? OLD_SPACE_TAG then Some (object, s)
      else
        o ← s_mem s !! object;
        if has_tag TAG_FORWARDED o then
          _ ← ASSERT (isOldObject (o_class o) || ((s_fromSpace s <=? o_class o) && (o_class o <? s_top s)));
          s ← write_slot s p (tagPtr (o_class o));
          Some (o_class o, s)
        else if scavengerIncludes s object then Some (object, s)
        else
          s ← forwardObject s object;
          o ← s_mem s !! object;
          let object := o_class o in
          s ← write_slot s p (tagPtr object);
          s ← iterateObject fuel s object;
          Some (object, s)
  end
with iterateObject (fuel : nat) (s : Scavenger) (root : Z) : option Scavenger :=
  match fuel with
  | O => None
  | S fuel =>
      '(object, s) ← processPointer fuel s (ClassOf root);
      let remember := isNewObject object in
      o ← s_mem s !! root;
      shape ← instanceShape (s_mem s) (o_class o);
      size ← varsCount shape o;
      '(s, remember) ← for_up size 0 (fun i '(s, remember) =>
          let p := Var root (getRawObjectVars shape + i) in
          v ← read_slot s p;
          if valueTypeOf v VALUE_POINTER then
            '(object, s) ← processTaggedPointer fuel s p;
            Some (s, remember || isNewObject object)
          else Some (s, remember)) (s, remember);
      o ← s_mem s !! root;
      if remember && isOldObject root && negb (has_tag TAG_REMEMBERED o) then
        '(m, set) ← rememberObject (s_mem s) (s_remembered s) root;
        Some (set_remembered set (set_mem m s))
      else Some s
  end.

(** Enough for the whole heap: every level copies another object. *)
Definition depth (s : Scavenger) : nat := (2 * base.size (s_mem s) + 2)%nat.
Definition visit (s : Scavenger) (p : Slot) : option (Z * Scavenger) := processPointer (depth s) s p.
Definition visitTagged (s : Scavenger) (p : Slot) : option (Z * Scavenger) := processTaggedPointer (depth s) s p.

(** ** Stack slots *)

(** The stack frames and the cells of their arguments and slots; [fr_map] is
    the stackmap at the frame's return address. *)
Record StackFrame := mkFrame { fr_args : list nat; fr_slots : list nat; fr_map : list bool }.
Record EntryStackFrame := mkEntry { ef_exit : StackFrame; ef_frames : list StackFrame }.

(** What the walk reads and never changes: the handle of nil, and the frames
    by address. *)
Record Env := mkEnv { e_nil : nat; e_frames : gmap Z StackFrame }.
Context (env : Env).

Definition ptrInHeap (s : Scavenger) (addr : Z) : bool :=
  old_includes (s_old s) addr || scavengerIncludes s addr ||
  ((s_toSpace s <=? addr) && (addr <=? s_toSpace s + s_size s)).

(** [addr & ~SPACE_TAG] is aligned and in the heap. *)
Definition plausibleClass (s : Scavenger) (addr : Z) : bool :=
  let class := Z.ldiff addr SPACE_TAG in
  (Z.land class (HEAP_OBJECT_ALIGN - 1) =? 0) && ptrInHeap s class.

Definition plausibleObject (s : Scavenger) (object : Z) : option bool :=
  if negb (Z.land (Z.ldiff object SPACE_TAG) (HEAP_OBJECT_ALIGN - 1) =? 0) then Some false
  else
    o ← s_mem s !! object;
    if negb (plausibleClass s (o_class o)) then Some false
    else
      c ← s_mem s !! o_class o;
      if negb (plausibleClass s (o_class c)) then Some false
      else
        size ← computeRawObjectSize (s_mem s) o;
        Some ((0 <? size) && (size <=? s_size s)).

Definition noteYoungRoot (s : Scavenger) (v : Z) : option Scavenger :=
  if valueTypeOf v VALUE_POINTER then
    object ← asObject v;
    Some (if isNewObject object then set_young true s else s)
  else Some s.

Definition store_nil (s : Scavenger) (n : nat) : option Scavenger :=
  nil ← s_cells s !! e_nil env;
  write_slot s (Cell n) (tagPtr nil).

Definition scavengeStackSlot (s : Scavenger) (n : nat) : option Scavenger :=
  v ← s_cells s !! n;
  object ← asObject v;
  let young := negb (Z.land object SPACE_TAG =? OLD_SPACE_TAG) in
  if young && negb ((s_toSpace s <=? object) && (object <=? s_toSpace s + s_size s)) then
    s ← store_nil s n;
    '(_, s) ← visitTagged s (Cell n);
    Some s
  else
    s ← (if young then
           o ← s_mem s !! object;
           if has_tag TAG_FORWARDED o then
             let target := o_class o in
             if negb (isOldObject target || ((s_fromSpace s <=? target) && (target <? s_top s)))
             then store_nil s n else Some s
           else
             ok ← plausibleObject s object;
             if negb ok then store_nil s n else Some s
         else Some s);
    '(_, s) ← visitTagged s (Cell n);
    v ← s_cells s !! n;
    noteYoungRoot s v.

(** [if (valueTypeOf(value, VALUE_POINTER)) scavengeStackSlot(...)] *)
Definition visitStackCell (s : Scavenger) (n : nat) : option Scavenger :=
  v ← s_cells s !! n;
  if valueTypeOf v VALUE_POINTER then scavengeStackSlot s n else Some s.

Fixpoint fold_cells {A} (f : Scavenger -> A -> option Scavenger) (s : Scavenger) (l : list A) : option Scavenger :=
  match l with
  | [] => Some s
  | x :: l => s ← f s x; fold_cells f s l
  end.

(** The slots the stackmap includes. *)
Definition mapped_slots (fr : StackFrame) : option (list nat) :=
  mapM (fun i => fr_slots fr !! i) (List.filter (fun i => default false (fr_map fr !! i)) (seq 0 (length (fr_map fr)))).

Definition iterateFrame (s : Scavenger) (fr : StackFrame) : option Scavenger :=
  s ← fold_cells visitStackCell s (fr_args fr);
  slots ← mapped_slots fr;
  fold_cells visitStackCell s slots.

Definition iterateEntryFrame (s : Scavenger) (e : EntryStackFrame) : option Scavenger :=
  slot0 ← fr_slots (ef_exit e) !! 0%nat;
  '(_, s) ← visitTagged s (Cell slot0);
  v ← s_cells s !! slot0;
  s ← noteYoungRoot s v;
  fold_cells iterateFrame s (ef_frames e).

Definition iterateStackFrames (s : Scavenger) (entryFrames : list EntryStackFrame) : option Scavenger :=
  fold_cells iterateEntryFrame s entryFrames.

(** ** Exception handlers *)

Definition CONTEXT_SLOT : nat := 1.
(** Words of the bodies of [RawContext] and [RawExceptionHandler]. *)
Definition CONTEXT_FRAME : nat := 2.
Definition HANDLER_PARENT : nat := 1.
Definition HANDLER_CONTEXT : nat := 2.

Definition contextHasValidFrame (s : Scavenger) (context : Z) : option bool :=
  o ← s_mem s !! context;
  frame ← o_body o !! CONTEXT_FRAME;
  if frame =? 0 then Some false
  else
    fr ← e_frames env !! frame;
    n ← fr_slots fr !! CONTEXT_SLOT;
    v ← s_cells s !! n;
    Some (v =? tagPtr context).

(** The first handler of the chain whose frame is valid; 0 at its end. *)
Fixpoint validHandler (fuel : nat) (s : Scavenger) (handlerValue : Z) : option Z :=
  match fuel with
  | O => None
  | S fuel =>
      if handlerValue =? 0 then Some 0
      else
        handler ← asObject handlerValue;
        o ← s_mem s !! handler;
        c ← o_body o !! HANDLER_CONTEXT;
        context ← asObject c;
        valid ← contextHasValidFrame s context;
        if valid : bool then Some handlerValue
        else parent ← o_body o !! HANDLER_PARENT; validHandler fuel s parent
  end.

Definition iterateExceptionHandlerSlot (s : Scavenger) (slot : nat) : option Scavenger :=
  handlerValue ← s_cells s !! slot;
  h ← validHandler (depth s) s handlerValue;
  s ← write_slot s (Cell slot) h;
  if h =? 0 then Some s
  else
    '(_, s) ← visitTagged s (Cell slot);
    v ← s_cells s !! slot;
    noteYoungRoot s v.

Definition iterateUnwindHandlerSlot (s : Scavenger) (slot : nat) : option Scavenger :=
  v ← s_cells s !! slot;
  if v =? 0 then Some s
  else
    '(_, s) ← visitTagged s (Cell slot);
    v ← s_cells s !! slot;
    noteYoungRoot s v.

(** ** Handles *)

Definition visitScopeHandle (s : Scavenger) (n : nat) : option Scavenger :=
  '(obj, s) ← visit s (Cell n);
  Some (if isNewObject obj then set_young true s else s).

Definition iterateHandleScopes (s : Scavenger) (scopes : list (list nat)) : option Scavenger :=
  fold_cells (fold_cells visitScopeHandle) s scopes.

Definition visitHandle (s : Scavenger) (n : nat) : option Scavenger :=
  '(_, s) ← visit s (Cell n); Some s.

(** ** Fibers and mutators *)

Record FiberRoots := mkFiberRoots {
  f_handleScopes : list (list nat);
  f_stackFrames : list EntryStackFrame;
  f_context : nat;
  f_exceptionHandler : nat;
  f_unwindHandler : nat }.
Record Fiber := mkFiber { f_running : bool; f_entryBlock : nat; f_process : nat; f_roots : FiberRoots }.

(** [t_current] is [*schedCurrent], [None] outside for a mutator without a
    scheduler; [t_self] says that the thread is the collector. *)
Record Mutator := mkMutator {
  t_self : bool;
  t_handles : list nat;
  t_handleScopes : list (list nat);
  t_context : nat;
  t_stackFrames : list EntryStackFrame;
  t_exceptionHandler : option nat;
  t_unwindHandler : option nat;
  t_schedCurrent : option (option Fiber);
  t_codegenSites : list (list nat) }.

(** [if (valueTypeOf(x, VALUE_POINTER)) { processTaggedPointer(&x); noteYoungRoot(x); }] *)
Definition visitField (s : Scavenger) (n : nat) : option Scavenger :=
  v ← s_cells s !! n;
  if valueTypeOf v VALUE_POINTER then
    '(_, s) ← visitTagged s (Cell n);
    v ← s_cells s !! n;
    noteYoungRoot s v
  else Some s.

Definition iterateFiberRoots (s : Scavenger) (fiber : Fiber) : option Scavenger :=
  s ← visitField s (f_entryBlock fiber);
  s ← visitField s (f_process fiber);
  let r := f_roots fiber in
  s ← iterateStackFrames s (f_stackFrames r);
  s ← iterateExceptionHandlerSlot s (f_exceptionHandler r);
  s ← iterateUnwindHandlerSlot s (f_unwindHandler r);
  s ← iterateHandleScopes s (f_handleScopes r);
  context ← s_cells s !! f_context r;
  if context =? 0 then Some s
  else
    '(_, s) ← visitTagged s (Cell (f_context r));
    v ← s_cells s !! f_context r;
    noteYoungRoot s v.

(** The fiber the mutator runs, and whether its own roots are authoritative. *)
Definition currentFiber (m : Mutator) : option Fiber := match t_schedCurrent m with Some c => c | None => None end.
Definition live (m : Mutator) : bool :=
  match t_schedCurrent m with None => true | Some _ => false end ||
  match currentFiber m with Some _ => true | None => false end || t_self m.

Definition iterateMutatorCurrentRoots (s : Scavenger) (m : Mutator) : option Scavenger :=
  if negb (live m) then Some s
  else
    s ← match currentFiber m with
        | Some f => s ← visitField s (f_entryBlock f); visitField s (f_process f)
        | None => Some s
        end;
    s ← iterateStackFrames s (t_stackFrames m);
    s ← iterateHandleScopes s (t_handleScopes m);
    context ← s_cells s !! t_context m;
    s ← (if context =? 0 then Some s
         else '(_, s) ← visitTagged s (Cell (t_context m)); Some s);
    s ← match t_exceptionHandler m with Some n => iterateExceptionHandlerSlot s n | None => Some s end;
    match t_unwindHandler m with Some n => iterateUnwindHandlerSlot s n | None => Some s end.

(** ** Native code *)

(** A native code with the cells of its pointers and of the pointers baked
    into its instructions. *)
Record NativeCode := mkNative { n_free : bool; n_pointers : list nat; n_sites : list nat }.

Definition visitSite (s : Scavenger) (n : nat) : option Scavenger :=
  v ← s_cells s !! n;
  '(_, s) ← (if valueTypeOf v VALUE_POINTER then visitTagged s (Cell n) else visit s (Cell n));
  Some s.

(** [if (code->field != NULL) processPointer(&code->field);] *)
Definition visitCodeField (s : Scavenger) (n : nat) : option Scavenger :=
  v ← s_cells s !! n;
  if v =? 0 then Some s else visitHandle s n.

Definition processPointerSites (s : Scavenger) (sites : list nat) : option Scavenger :=
  fold_cells visitSite s sites.

Definition iterateCode (s : Scavenger) (code : NativeCode) : option Scavenger :=
  if n_free code then Some s
  else s ← fold_cells visitCodeField s (n_pointers code); processPointerSites s (n_sites code).

Definition iterateNativeCode (s : Scavenger) (codes : list NativeCode) (mutators : list Mutator) : option Scavenger :=
  s ← fold_cells iterateCode s codes;
  fold_cells (fun s m => fold_cells processPointerSites s (t_codegenSites m)) s mutators.

(** ** The remembered sets *)

(** [root->tags &= ~TAG_REMEMBERED; iterateObject(root);] *)
Definition rescan (s : Scavenger) (root : Z) : option Scavenger :=
  o ← s_mem s !! root;
  let s := set_mem (<[root := clear_tag TAG_REMEMBERED o]> (s_mem s)) s in
  iterateObject (depth s) s root.

(** [sets] are the detached sets of the mutators; the heap's own comes last. *)
Definition iterateRememberedSet (s : Scavenger) (sets : list (list Z)) : option Scavenger :=
  fold_cells (fold_cells rescan) (set_remembered [] s) (sets ++ [s_remembered s]).

(** ** The collection *)

(** The dirty fibers: those that are not running are scanned, and stay dirty
    while they have a young root. *)
Fixpoint iterateDirtyFibers (s : Scavenger) (fibers : list Fiber) : option (Scavenger * list Fiber) :=
  match fibers with
  | [] => Some (s, [])
  | f :: l =>
      if f_running f then '(s, l) ← iterateDirtyFibers s l; Some (s, f :: l)
      else
        s ← iterateFiberRoots (set_young false s) f;
        let dirty := s_fiberHasYoungRoot s in
        '(s, l) ← iterateDirtyFibers s l;
        Some (s, if dirty then f :: l else l)
  end.

(** The roots of a collection; [r_sched] are the dirty fibers, when there is a
    scheduler, and [r_sets] the remembered sets of the mutators. *)
Record Roots := mkRoots {
  r_mutators : list Mutator;
  r_sets : list (list Z);
  r_sched : option (list Fiber);
  r_codes : list NativeCode }.

(** The semispaces change places; allocation starts over in the empty one. *)
Definition swapSpaces (s : Scavenger) : Scavenger :=
  mkScavenger (s_mem s) (s_cells s) (s_size s) false (s_toSpace s) (s_fromSpace s)
    (Z.lor (s_toSpace s) NEW_SPACE_TAG) (s_toSpace s + s_size s) (s_survivorEnd s)
    (s_fiberHasYoungRoot s) (s_old s) (s_remembered s).

Definition scavengerScavenge (s : Scavenger) (r : Roots) : option (Scavenger * option (list Fiber)) :=
  let s := swapSpaces s in
  s ← iterateRememberedSet s (r_sets r);
  s ← fold_cells (fun s m => fold_cells visitHandle s (t_handles m)) s (r_mutators r);
  '(s, sched) ← match r_sched r with
                | Some fibers => '(s, l) ← iterateDirtyFibers s fibers; Some (s, Some l)
                | None => Some (s, None)
                end;
  s ← fold_cells iterateMutatorCurrentRoots s (r_mutators r);
  s ← iterateNativeCode s (r_codes r) (r_mutators r);
  Some (set_survivorEnd (s_top s) s, sched).
End Code.
