(* ===== verification/ScavengerProofs.v ===== *)
(** * ScavengerProofs

    What the scavenger does to the object graph.  [m0] and [c0] are the memory
    and the cells when the evacuation starts; the forwarding map [f] gives the
    new address of every object copied so far.  The invariant says that the
    source objects not yet copied are intact, that every other object is the
    original with some of its slots redirected by [f], and that the places
    still needed are free. *)
From S2P Require Import Prelude Endian Tagging.
From stdpp Require Import gmap.
From S2P Require Import FreeList HeapPage ObjectMemory Scavenger.
#[local] Open Scope Z_scope.

(** The unfolding equations of the recursion. *)
Lemma processPointer_S `{Target} `{OldSpace} fuel s p : processPointer (S fuel) s p = (
      object ← read_slot s p;
      if Z.land object SPACE_TAG =? OLD_SPACE_TAG then Some (object, s)
      else
        o ← s_mem s !! object;
        if has_tag TAG_FORWARDED o then
          _ ← ASSERT (isOldObject (o_class o) || ((s_fromSpace s <=? o_class o) && (o_class o <=? s_top s)));
          c ← s_mem s !! o_class o;
          _ ← ASSERT (negb (has_tag TAG_FORWARDED c));
          s ← write_slot s p (o_class o);
          Some (o_class o, s)
        else if scavengerIncludes s object then Some (object, s)
        else
          s ← forwardObject s object;
          o ← s_mem s !! object;
          c ← s_mem s !! o_class o;
          _ ← ASSERT (negb (has_tag TAG_FORWARDED c));
          let object := o_class o in
          s ← write_slot s p object;
          s ← iterateObject fuel s object;
          Some (object, s)).
Proof. reflexivity. Qed.

Lemma processTaggedPointer_S `{Target} `{OldSpace} fuel s p : processTaggedPointer (S fuel) s p = (
      v ← read_slot s p;
      object ← asObject v;
      if Z.land object SPACE_TAG =? OLD_SPACE_TAG then Some (object, s)
      else
        o ← s_mem s !! object;
        if has_tag TAG_FORWARDED o then
          _ ← ASSERT (isOldObject (o_class o) || ((s_fromSpace s <=? o_class o) && (o_class o <? s_top s)));
          s ← write_slot s p (tagPtr (o_class o));
          Some (o_class o, s)
        else if scavengerIncludes s object then Some (object, s)
        else
          s ← forwardObject s object;
          o ← s_mem s !! object;
          let object := o_class o in
          s ← write_slot s p (tagPtr object);
          s ← iterateObject fuel s object;
          Some (object, s)).
Proof. reflexivity. Qed.

Lemma iterateObject_S `{Target} `{OldSpace} fuel s root : iterateObject (S fuel) s root = (
      '(object, s) ← processPointer fuel s (ClassOf root);
      let remember := isNewObject object in
      o ← s_mem s !! root;
      shape ← instanceShape (s_mem s) (o_class o);
      size ← varsCount shape o;
      '(s, remember) ← for_up size 0 (fun i '(s, remember) =>
          let p := Var root (getRawObjectVars shape + i) in
          v ← read_slot s p;
          if valueTypeOf v VALUE_POINTER then
            '(object, s) ← processTaggedPointer fuel s p;
            Some (s, remember || isNewObject object)
          else Some (s, remember)) (s, remember);
      o ← s_mem s !! root;
      if remember && isOldObject root && negb (has_tag TAG_REMEMBERED o) then
        '(m, set) ← rememberObject (s_mem s) (s_remembered s) root;
        Some (set_remembered set (set_mem m s))
      else Some s).
Proof. reflexivity. Qed.

Section Graph.
Context `{Target} `{OldSpace}.
Context (m0 : Memory) (c0 : list Z) (raw : nat -> bool).

(** ** Slots and what they should hold *)

Definition move (f : gmap Z Z) (a : Z) : Z := default a (f !! a).
Definition movev (f : gmap Z Z) (v : Z) : Z := if valueTypeOf v VALUE_POINTER then tagPtr (move f (v - 1)) else v.

(** Slots are named by the address the object had at the start. *)
Definition locate (f : gmap Z Z) (p : Slot) : Slot :=
  match p with
  | ClassOf a => ClassOf (move f a)
  | Var a i => Var (move f a) i
  | Cell n => Cell n
  end.

(** Whether a slot holds an untagged address. *)
Definition slot_raw (p : Slot) : bool :=
  match p with ClassOf _ => true | Var _ _ => false | Cell n => raw n end.

Definition read0 (p : Slot) : option Z :=
  match p with
  | ClassOf a => o_class <$> m0 !! a
  | Var a i => o ← m0 !! a; o_body o !! i
  | Cell n => c0 !! n
  end.

Definition update (f : gmap Z Z) (p : Slot) (v : Z) : Z := if slot_raw p then move f v else movev f v.

(** The object a value in a slot leads to; 0 is a null pointer. *)
Definition target (p : Slot) (v : Z) : option Z :=
  if slot_raw p then (if v =? 0 then None else Some v) else if valueTypeOf v VALUE_POINTER then Some (v - 1) else None.

(** The words of an object the collector visits. *)
Definition in_vars (o : RawObject) (i : nat) : Prop :=
  exists shape n, instanceShape m0 (o_class o) = Some shape /\ varsCount shape o = Some n /\
    (getRawObjectVars shape <= i < getRawObjectVars shape + n)%nat.

(** The objects that are where they belong: old ones, and those copied. *)
Definition placed (f : gmap Z Z) (a : Z) : Prop := is_Some (m0 !! a) /\ (isNewObject a = true -> is_Some (f !! a)).

Definition valid (f : gmap Z Z) (p : Slot) : Prop :=
  match p with
  | ClassOf a => placed f a
  | Var a i => placed f a /\ exists o, m0 !! a = Some o /\ in_vars o i
  | Cell n => is_Some (c0 !! n)
  end.

(** The slot leads to an object that is placed. *)
Definition settled (f : gmap Z Z) (p : Slot) : Prop := forall v a, read0 p = Some v -> target p v = Some a -> placed f a.

Definition slot_done (f : gmap Z Z) (s : Scavenger) (p : Slot) : Prop :=
  settled f p /\ read_slot s (locate f p) = update f p <$> read0 p.

(** ** Well-formed heaps *)

Record object_wf (a : Z) (o : RawObject) : Prop := {
  w_addr : addr_ok a;
  w_class : is_Some (m0 !! o_class o);
  w_shape : exists shape n size, instanceShape m0 (o_class o) = Some shape /\ varsCount shape o = Some n /\
    (getRawObjectVars shape + n <= length (o_body o))%nat /\
    computeRawObjectSize m0 o = Some size /\ align size HEAP_OBJECT_ALIGN = HEADER_SIZE + 8 * Z.of_nat (length (o_body o));
  w_even : (HEADER_SIZE + 8 * Z.of_nat (length (o_body o))) mod HEAP_OBJECT_ALIGN = 0;
  w_indexed : forall shape, instanceShape m0 (o_class o) = Some shape -> 0 <= payloadSize shape /\
    (isIndexed shape = true -> is_Some (o_body o !! 0%nat));
  w_vars : forall i v, in_vars o i -> o_body o !! i = Some v -> valueTypeOf v VALUE_POINTER = true -> is_Some (m0 !! (v - 1));
  w_shape_word : forall c w, m0 !! o_class o = Some c -> o_body c !! SHAPE_WORD = Some w -> valueTypeOf w VALUE_POINTER = false;
  w_tags : has_tag TAG_FORWARDED o = false /\ (isNewObject a = true -> has_tag TAG_REMEMBERED o = false) }.

Definition heap_wf : Prop := forall a o, m0 !! a = Some o -> object_wf a o.

(** Cells hold pointers to objects. *)
Definition cell_wf (n : nat) : Prop := forall v a, c0 !! n = Some v -> target (Cell n) v = Some a -> is_Some (m0 !! a).

Definition bytes_of (o : RawObject) : Z := HEADER_SIZE + 8 * Z.of_nat (length (o_body o)).

(** The objects still to be copied. *)
Definition pending (f : gmap Z Z) : Memory := filter (fun '(a, _) => isNewObject a = true /\ f !! a = None) m0.
Definition bytes (m : Memory) : Z := map_fold (fun _ o n => bytes_of o + n) 0 m.

(** ** The invariant *)

(** [o] is [o0] with some of its slots redirected. *)
Record similar (f : gmap Z Z) (o0 o : RawObject) : Prop := {
  sm_class : o_class o = o_class o0 \/ o_class o = move f (o_class o0);
  sm_hash : o_hash o = o_hash o0;
  sm_payloadSize : o_payloadSize o = o_payloadSize o0;
  sm_varsSize : o_varsSize o = o_varsSize o0;
  sm_length : length (o_body o) = length (o_body o0);
  sm_body : forall i v0, o_body o0 !! i = Some v0 ->
    o_body o !! i = Some v0 \/ (in_vars o0 i /\ o_body o !! i = Some (movev f v0));
  sm_forwarded : has_tag TAG_FORWARDED o = false;
  sm_tags : Z.land (o_tags o) 219 = Z.land (o_tags o0) 219 }.

(** Where the objects of the destination start. *)
Abbreviation base s := (Z.lor (s_fromSpace s) NEW_SPACE_TAG).

(** The geometry of the two semispaces, which does not change. *)
Record spaces (s : Scavenger) : Prop := {
  sp_from : addr_ok (s_fromSpace s);
  sp_end : s_end s = s_fromSpace s + s_size s /\ s_end s < 2 ^ 63;
  sp_top : base s <= s_top s <= s_end s /\ s_top s mod 16 = 8;
  sp_source : forall a, is_Some (m0 !! a) -> isNewObject a = true -> s_toSpace s <= a <= s_toSpace s + s_size s;
  sp_dest : forall a, is_Some (m0 !! a) -> isNewObject a = true -> ~ (base s <= a < s_end s) }.

Definition in_dest (s : Scavenger) (b : Z) : Prop := isNewObject b = true -> base s <= b < s_top s.

Record inv (f : gmap Z Z) (s : Scavenger) : Prop := {
  i_spaces : spaces s;
  i_source : forall a o0, m0 !! a = Some o0 -> isNewObject a = true ->
    match f !! a with
    | None => s_mem s !! a = Some o0
    | Some b => exists o, s_mem s !! a = Some o /\ o_class o = b /\ has_tag TAG_FORWARDED o = true /\ o_body o = o_body o0
    end;
  i_placed : forall a o0, m0 !! a = Some o0 -> placed f a -> exists o, s_mem s !! move f a = Some o /\ similar f o0 o;
  i_map : forall a b, f !! a = Some b -> is_Some (m0 !! a) /\ isNewObject a = true /\ m0 !! b = None /\ addr_ok b /\ in_dest s b;
  i_inj : forall a a' b, f !! a = Some b -> f !! a' = Some b -> a = a';
  i_dom : forall b, is_Some (s_mem s !! b) -> is_Some (m0 !! b) \/ exists a, f !! a = Some b;
  i_old : forall b, is_Some (s_mem s !! b) -> isNewObject b = false -> b ∈ old_objects (s_old s);
  i_cells : length (s_cells s) = length c0 /\ forall n v0, c0 !! n = Some v0 ->
    s_cells s !! n = Some v0 \/ s_cells s !! n = Some (update f (Cell n) v0);
  i_room : bytes (pending f) <= s_end s - s_top s;
  i_old_room : exists n, bytes (pending f) <= n /\ old_room (s_old s) n }.

(** What never changes during the evacuation. *)
Definition same_spaces (s s' : Scavenger) : Prop :=
  s_fromSpace s' = s_fromSpace s /\ s_toSpace s' = s_toSpace s /\ s_size s' = s_size s /\
  s_end s' = s_end s /\ s_survivorEnd s' = s_survivorEnd s /\ s_top s <= s_top s'.

Lemma same_refl s : same_spaces s s.
Proof. unfold same_spaces. split_and!; done || lia. Qed.

Lemma same_trans s1 s2 s3 : same_spaces s1 s2 -> same_spaces s2 s3 -> same_spaces s1 s3.
Proof. unfold same_spaces. intros (? & ? & ? & ? & ? & ?) (? & ? & ? & ? & ? & ?). split_and!; congruence || lia. Qed.

(** ** Moving *)

Context (WF : heap_wf).
Context (CW : forall n v, c0 !! n = Some v -> 0 <= v < 2 ^ 64).

Lemma placed_old f a : is_Some (m0 !! a) -> isNewObject a = false -> placed f a.
Proof. intros Ha Hn. split; [done|]. congruence. Qed.

Lemma placed_mono f f' a : f ⊆ f' -> placed f a -> placed f' a.
Proof. intros Hf [Ha Hp]. split; [done|]. intros Hn. destruct (Hp Hn) as [b Hb]. exists b. by eapply lookup_weaken. Qed.

Lemma move_mono f f' a :
  f ⊆ f' -> (forall x, is_Some (f' !! x) -> isNewObject x = true) -> placed f a -> move f' a = move f a.
Proof.
  intros Hf Hn [Ha Hp]. unfold move. destruct (f !! a) as [b|] eqn:E.
  - by rewrite (lookup_weaken _ _ _ _ E Hf).
  - destruct (f' !! a) as [b|] eqn:E'; [|done]. destruct (isNewObject a) eqn:En.
    + by destruct (Hp eq_refl).
    + rewrite Hn in En; [done|by rewrite E'].
Qed.

Lemma inv_new f s a : inv f s -> is_Some (f !! a) -> isNewObject a = true.
Proof. intros I [b Hb]. by apply (i_map _ _ I a b). Qed.

(** A value that is settled is not redirected differently later. *)
Lemma update_mono f f' p v : f ⊆ f' -> (forall x, is_Some (f' !! x) -> isNewObject x = true) ->
  (forall a, target p v = Some a -> placed f a) -> update f' p v = update f p v.
Proof.
  intros Hf Hn Hp. unfold update, target, movev in *. destruct (slot_raw p).
  - destruct (Z.eqb_spec v 0) as [->|]; [|by apply move_mono; [..|apply Hp]].
    assert (f' !! 0 = None) as E' by (apply eq_None_not_Some; intros E; by apply Hn in E).
    unfold move. by rewrite E', (lookup_weaken_None _ _ _ E' Hf).
  - destruct (valueTypeOf v VALUE_POINTER); [|done]. f_equal. by apply move_mono; [..|apply Hp].
Qed.

Lemma locate_mono f f' s' p : f ⊆ f' -> inv f' s' -> valid f p -> locate f' p = locate f p.
Proof.
  intros Hf I V. destruct p as [a|a i|n]; cbn [locate]; [| |done]; f_equal;
    apply move_mono; try done; try (intros x; apply (inv_new _ _ _ I)); apply V.
Qed.

Lemma valid_mono f f' p : f ⊆ f' -> valid f p -> valid f' p.
Proof. intros Hf. destruct p; cbn [valid]; [by apply placed_mono|intros [Hp Hi]; split; [by eapply placed_mono|done]|done]. Qed.

(** ** Shapes are stable *)

Lemma move_inj f s a a' : inv f s -> placed f a -> placed f a' -> move f a = move f a' -> a = a'.
Proof.
  intros I [Ha _] [Ha' _]. unfold move. destruct (f !! a) as [b|] eqn:E, (f !! a') as [b'|] eqn:E'; cbn; intros Eq.
  - subst b'. by eapply (i_inj _ _ I).
  - subst b. destruct (i_map _ _ I _ _ E) as (_ & _ & Hn & _). rewrite Hn in Ha'. by destruct Ha'.
  - subst b'. destruct (i_map _ _ I _ _ E') as (_ & _ & Hn & _). rewrite Hn in Ha. by destruct Ha.
  - done.
Qed.

(** A place is never a source address. *)
Lemma move_not_source f s a x : inv f s -> placed f a -> is_Some (m0 !! x) -> isNewObject x = true -> move f a <> x.
Proof.
  intros I [Ha Hp] Hx Hn. unfold move. destruct (f !! a) as [b|] eqn:E; cbn.
  - intros ->. destruct (i_map _ _ I _ _ E) as (_ & _ & Hb & _). rewrite Hb in Hx. by destruct Hx.
  - intros ->. by destruct (Hp Hn).
Qed.

Lemma locate_inj f s p q : inv f s -> valid f p -> valid f q -> locate f p = locate f q -> p = q.
Proof.
  intros I. destruct p as [a|a i|n], q as [a'|a' i'|n']; cbn [valid locate]; try done; intros V V' E;
    injection E; intros; subst; f_equal; (eapply move_inj; [exact I|apply V|apply V'|done]).
Qed.

Lemma similar_refl f o : has_tag TAG_FORWARDED o = false -> similar f o o.
Proof. intros. constructor; auto. Qed.

Lemma movev_nonptr f v : valueTypeOf v VALUE_POINTER = false -> movev f v = v.
Proof. unfold movev. by intros ->. Qed.

Lemma similar_word f o0 o i :
  similar f o0 o -> (forall v, o_body o0 !! i = Some v -> in_vars o0 i -> valueTypeOf v VALUE_POINTER = false) ->
  o_body o !! i = o_body o0 !! i.
Proof.
  intros S Hv. destruct (o_body o0 !! i) as [v|] eqn:E.
  - destruct (sm_body _ _ _ S i v E) as [->|[Hi ->]]; [done|]. by rewrite movev_nonptr by by apply Hv.
  - apply lookup_ge_None. rewrite (sm_length _ _ _ S). by apply lookup_ge_None.
Qed.

(** The shape read through the class, at the old and at the new address. *)
Lemma shape_kept f s a o0 :
  inv f s -> m0 !! a = Some o0 -> instanceShape (s_mem s) (o_class o0) = instanceShape m0 (o_class o0).
Proof.
  intros I Ha. destruct (w_class _ _ (WF a o0 Ha)) as [oc Hc]. unfold instanceShape. rewrite Hc. cbn [mbind option_bind].
  pose proof (w_shape_word _ _ (WF a o0 Ha) oc) as Hw. destruct (isNewObject (o_class o0)) eqn:En.
  - pose proof (i_source _ _ I _ _ Hc En) as HS. destruct (f !! o_class o0).
    + destruct HS as (o & -> & _ & _ & Hb). cbn [mbind option_bind]. by rewrite Hb.
    + by rewrite HS.
  - assert (placed f (o_class o0)) as HP by (apply placed_old; [by eexists|done]).
    destruct (i_placed _ _ I _ _ Hc HP) as (o & Eo & S).
    assert (move f (o_class o0) = o_class o0) as Em.
    { unfold move. destruct (f !! o_class o0) eqn:Ef; [|done]. destruct (i_map _ _ I _ _ Ef) as (_ & ? & _). congruence. }
    rewrite Em in Eo. rewrite Eo. cbn [mbind option_bind]. rewrite (similar_word _ _ _ _ S); [done|].
    intros v Hv _. by apply Hw.
Qed.

Lemma shape_moved f s a o0 :
  inv f s -> m0 !! a = Some o0 -> placed f (o_class o0) ->
  instanceShape (s_mem s) (move f (o_class o0)) = instanceShape m0 (o_class o0).
Proof.
  intros I Ha HP. destruct (w_class _ _ (WF a o0 Ha)) as [oc Hc]. unfold instanceShape. rewrite Hc. cbn [mbind option_bind].
  destruct (i_placed _ _ I _ _ Hc HP) as (o & -> & S). cbn [mbind option_bind].
  rewrite (similar_word _ _ _ _ S); [done|]. intros v Hv _. by apply (w_shape_word _ _ (WF a o0 Ha) oc).
Qed.

Lemma size_word f a o0 o shape :
  m0 !! a = Some o0 -> similar f o0 o -> instanceShape m0 (o_class o0) = Some shape ->
  rawObjectSize shape o = rawObjectSize shape o0 /\ varsCount shape o = varsCount shape o0.
Proof.
  intros Ha S Hs. assert (rawObjectSize shape o = rawObjectSize shape o0) as E.
  { unfold rawObjectSize. destruct (isIndexed shape) eqn:Ei; [|done].
    apply (similar_word f); [done|]. intros v _ (sh & n & Hsh & _ & Hr). rewrite Hs in Hsh. injection Hsh as <-.
    destruct (w_indexed _ _ (WF a o0 Ha) shape Hs) as [Hp _]. unfold getRawObjectVars in Hr. rewrite Ei in Hr. cbn in Hr. lia. }
  split; [done|]. unfold varsCount. by rewrite E.
Qed.

(** ** Changing an object in place *)

Lemma put_object f s a o0 o :
  inv f s -> m0 !! a = Some o0 -> placed f a -> similar f o0 o -> inv f (set_mem (<[move f a := o]> (s_mem s)) s).
Proof.
  intros I Ha HP S. pose proof (i_placed _ _ I a o0 Ha HP) as (o1 & Eo1 & _).
  constructor; cbn [set_mem s_mem s_cells s_end s_top s_old]; try (by destruct I).
  - destruct (i_spaces _ _ I). by constructor.
  - intros x ox Hx Hn. rewrite lookup_insert_ne; [by apply (i_source _ _ I)|]. eapply move_not_source; eauto.
  - intros x ox Hx HPx. destruct (decide (move f a = move f x)) as [E|E].
    + assert (x = a) as -> by (eapply move_inj; eauto). rewrite Ha in Hx. injection Hx as <-.
      rewrite lookup_insert_eq. by exists o.
    + rewrite lookup_insert_ne by done. by apply (i_placed _ _ I).
  - intros b [ob Hb]. destruct (decide (b = move f a)) as [->|Hne].
    + apply (i_dom _ _ I). by eexists.
    + rewrite lookup_insert_ne in Hb by done. apply (i_dom _ _ I). by eexists.
  - intros b [ob Hb] Hn. destruct (decide (b = move f a)) as [->|Hne].
    + apply (i_old _ _ I); [by eexists|done].
    + rewrite lookup_insert_ne in Hb by done. apply (i_old _ _ I); [by eexists|done].
Qed.

(** What a step leaves alone: every other slot, the tags, the remembered set. *)
Definition kept (f : gmap Z Z) (s : Scavenger) (X : Slot -> Prop) (f' : gmap Z Z) (s' : Scavenger) : Prop :=
  forall p, valid f p -> ~ X p -> read_slot s' (locate f' p) = read_slot s (locate f p).
Definition tags_kept (f : gmap Z Z) (s : Scavenger) (X : Z -> Prop) (f' : gmap Z Z) (s' : Scavenger) : Prop :=
  forall a, placed f a -> ~ X a -> o_tags <$> s_mem s' !! move f' a = o_tags <$> s_mem s !! move f a.

Lemma update_body f a o0 o i v0 :
  m0 !! a = Some o0 -> similar f o0 o -> in_vars o0 i -> o_body o0 !! i = Some v0 ->
  similar f o0 (set_body (<[i := movev f v0]> (o_body o)) o).
Proof.
  intros Ha S Hi Hv. assert (i < length (o_body o))%nat as Hl.
  { rewrite (sm_length _ _ _ S). by eapply lookup_lt_Some. }
  destruct S. constructor; cbn [set_body o_class o_hash o_payloadSize o_varsSize o_body o_tags]; try done.
  - by rewrite length_insert.
  - intros j w0 Hw. destruct (decide (j = i)) as [->|Hne].
    + rewrite list_lookup_insert_eq by done. rewrite Hv in Hw. injection Hw as <-. by right.
    + rewrite list_lookup_insert_ne by done. by apply sm_body0.
Qed.

Lemma write_ok f s p v0 :
  inv f s -> valid f p -> read0 p = Some v0 -> settled f p ->
  exists s', write_slot s (locate f p) (update f p v0) = Some s' /\ inv f s' /\ slot_done f s' p /\
    kept f s (eq p) f s' /\ tags_kept f s (fun _ => False) f s' /\ same_spaces s s' /\ s_remembered s' = s_remembered s.
Proof.
  intros I V Hr Hst. unfold slot_done, update. destruct p as [a|a i|n]; cbn [locate write_slot slot_raw valid read0] in *.
  - destruct (m0 !! a) as [o0|] eqn:Ha; [|done]. injection Hr as <-.
    destruct (i_placed _ _ I a o0 Ha V) as (o & Eo & S). rewrite Eo. cbn [mbind option_bind]. eexists; split; [done|].
    split; [apply put_object with o0; [done..|destruct S; constructor; cbn; auto]|].
    split; [split; [done|]; cbn [read_slot set_mem s_mem]; by rewrite lookup_insert_eq|].
    split; [|split; [|split; [unfold same_spaces; cbn; split_and!; done || lia|done]]].
    + intros q Vq Hne. destruct q as [x|x j|m]; cbn [read_slot locate set_mem s_mem s_cells]; [| |done].
      * rewrite lookup_insert_ne; [done|]. intros E. apply Hne. f_equal. by eapply move_inj.
      * destruct (decide (move f a = move f x)) as [<-|E]; [|by rewrite lookup_insert_ne].
        by rewrite lookup_insert_eq, Eo.
    + intros x Vx _. cbn [set_mem s_mem]. destruct (decide (move f a = move f x)) as [<-|E]; [|by rewrite lookup_insert_ne].
      by rewrite lookup_insert_eq, Eo.
  - destruct V as [V (o0 & Ha & Hi)]. rewrite Ha in Hr. cbn [mbind option_bind] in Hr.
    destruct (i_placed _ _ I a o0 Ha V) as (o & Eo & S). rewrite Eo. cbn [mbind option_bind].
    assert (i < length (o_body o))%nat as Hl by (rewrite (sm_length _ _ _ S); by eapply lookup_lt_Some).
    rewrite put_Some by done. cbn [mbind option_bind]. eexists; split; [done|].
    split; [apply put_object with o0; [done..|by apply update_body with a]|].
    split; [split; [done|]; cbn [read_slot set_mem s_mem]; rewrite lookup_insert_eq; cbn [mbind option_bind set_body o_body]; rewrite list_lookup_insert_eq by done; by rewrite Ha; cbn [mbind option_bind]; rewrite Hr|].
    split; [|split; [|split; [unfold same_spaces; cbn; split_and!; done || lia|done]]].
    + intros q Vq Hne. destruct q as [x|x j|m]; cbn [read_slot locate set_mem s_mem s_cells]; [| |done].
      * destruct (decide (move f a = move f x)) as [<-|E]; [|by rewrite lookup_insert_ne]. by rewrite lookup_insert_eq, Eo.
      * destruct (decide (move f a = move f x)) as [E|E]; [|by rewrite lookup_insert_ne].
        assert (a = x) as <- by (eapply move_inj; [exact I|done|apply Vq|done]).
        rewrite lookup_insert_eq, Eo. cbn [mbind option_bind set_body o_body].
        rewrite list_lookup_insert_ne; [done|]. intros ->. by apply Hne.
    + intros x Vx _. cbn [set_mem s_mem]. destruct (decide (move f a = move f x)) as [<-|E]; [|by rewrite lookup_insert_ne].
      by rewrite lookup_insert_eq, Eo.
  - destruct (i_cells _ _ I) as [Hlen Hc]. pose proof (lookup_lt_Some _ _ _ Hr) as Hl. rewrite put_Some by lia.
    cbn [mbind option_bind]. eexists; split; [done|]. split; [|split; [|split; [|split; [|split; [unfold same_spaces; cbn; split_and!; done || lia|done]]]]].
    + constructor; cbn [set_cells s_mem s_cells s_end s_top s_old]; try (by destruct I).
      * destruct (i_spaces _ _ I). by constructor.
      * rewrite length_insert. split; [done|]. intros k w Hw. destruct (decide (k = n)) as [->|Hne].
        -- rewrite list_lookup_insert_eq by lia. rewrite Hr in Hw. injection Hw as <-. by right.
        -- rewrite list_lookup_insert_ne by done. by apply Hc.
    + split; [done|]. cbn [read_slot set_cells s_cells]. rewrite list_lookup_insert_eq by lia. by rewrite Hr.
    + intros q Vq Hne. destruct q as [x|x j|m]; cbn [read_slot locate set_cells s_mem s_cells]; [done..|].
      rewrite list_lookup_insert_ne; [done|]. intros ->. by apply Hne.
    + by intros x Vx _.
Qed.

(** ** Copying *)

Lemma bytes_delete m a o : m !! a = Some o -> bytes m = bytes_of o + bytes (delete a m).
Proof. intros Ha. unfold bytes. rewrite (map_fold_delete_L _ _ a o m); [done| |done]. intros. lia. Qed.

Lemma bytes_nonneg m : 0 <= bytes m.
Proof.
  unfold bytes. apply (map_fold_weak_ind (fun r _ => 0 <= r)); [done|]. intros. unfold bytes_of, HEADER_SIZE. lia.
Qed.

Lemma pending_lookup f a o : m0 !! a = Some o -> isNewObject a = true -> f !! a = None -> pending f !! a = Some o.
Proof. intros. unfold pending. by apply map_lookup_filter_Some. Qed.

Lemma pending_insert f a b : pending (<[a := b]> f) = delete a (pending f).
Proof.
  apply map_eq. intros x. apply option_eq. intros o. unfold pending.
  rewrite lookup_delete_Some, !map_lookup_filter_Some. destruct (decide (x = a)) as [->|Hne].
  - rewrite lookup_insert_eq. split; [intros (_ & _ & ?); done|by intros [? _]].
  - rewrite lookup_insert_ne by done. split; [by intros|by intros [_ ?]].
Qed.

Lemma mem_known f s b : inv f s -> s_mem s !! b = None -> m0 !! b = None.
Proof.
  intros I Hb. destruct (m0 !! b) as [o|] eqn:E; [|done]. exfalso. destruct (isNewObject b) eqn:En.
  - pose proof (i_source _ _ I b o E En) as HS. destruct (f !! b); [destruct HS as (? & HS & _)|]; congruence.
  - destruct (i_placed _ _ I b o E) as (o' & Eo & _); [apply placed_old; [by eexists|done]|].
    unfold move in Eo. destruct (f !! b) eqn:Ef; [|cbn in Eo; congruence].
    destruct (i_map _ _ I _ _ Ef) as (_ & ? & _). congruence.
Qed.

Lemma move_same (f f' : gmap Z Z) a : f ⊆ f' -> move f a = a \/ move f a = move f' a.
Proof.
  intros Hf. unfold move. destruct (f !! a) as [b|] eqn:E; [|by left]. right. by rewrite (lookup_weaken _ _ _ _ E Hf).
Qed.

Lemma movev_same (f f' : gmap Z Z) v : f ⊆ f' -> 0 <= v < 2 ^ 64 -> movev f v = v \/ movev f v = movev f' v.
Proof.
  intros Hf Hv. unfold movev. destruct (valueTypeOf v VALUE_POINTER); [|by left].
  destruct (move_same f f' (v - 1) Hf) as [->| ->]; [|by right]. left. unfold tagPtr. cbn [type_code].
  rewrite u64_id; lia.
Qed.

Lemma similar_mono f f' a o0 o : f ⊆ f' -> m0 !! a = Some o0 -> similar f o0 o -> similar f' o0 o.
Proof.
  intros Hf Ha S. destruct S as [Hc ? ? ? ? Hb ? ?]. constructor; try done.
  - destruct Hc as [->| ->]; [by left|]. by apply move_same.
  - intros i v0 Hv. destruct (Hb i v0 Hv) as [->|[Hi E]]; [by left|].
    destruct (valueTypeOf v0 VALUE_POINTER) eqn:Et; [|left; by rewrite E, movev_nonptr].
    destruct (w_vars _ _ (WF a o0 Ha) i v0 Hi Hv Et) as [ob Hob]. destruct (w_addr _ _ (WF _ _ Hob)) as [? _].
    rewrite E. destruct (movev_same f f' v0 Hf) as [->| ->]; [lia|by left|by right].
Qed.

Lemma cells_mono f f' n v0 v : f ⊆ f' -> c0 !! n = Some v0 ->
  v = v0 \/ v = update f (Cell n) v0 -> v = v0 \/ v = update f' (Cell n) v0.
Proof.
  intros Hf Hv [->| ->]; [by left|]. unfold update. destruct (slot_raw (Cell n)); [by apply move_same|].
  apply movev_same; [done|by eapply CW].
Qed.

(** A place for a copy. *)
Definition place (s : Scavenger) (object size : Z) : option (Z * Scavenger) :=
  if object <? s_survivorEnd s then promote s size
  else
    '(newObject, s) ← scavengerTryAllocate s size;
    _ ← ASSERT ((s_fromSpace s <=? newObject) && (newObject <=? s_fromSpace s + s_size s));
    Some (newObject, s).

Record allocated (f : gmap Z Z) (s : Scavenger) (size b : Z) (s' : Scavenger) : Prop := {
  al_addr : addr_ok b;
  al_mem : s_mem s' = s_mem s;
  al_cells : s_cells s' = s_cells s;
  al_remembered : s_remembered s' = s_remembered s;
  al_same : same_spaces s s';
  al_spaces : spaces s';
  al_fresh : s_mem s !! b = None;
  al_dest : in_dest s' b;
  al_old : forall x, x ∈ old_objects (s_old s) \/ (x = b /\ isNewObject b = false) -> x ∈ old_objects (s_old s');
  al_room : s_end s - s_top s - size <= s_end s' - s_top s';
  al_old_room : exists n, bytes (pending f) - size <= n /\ old_room (s_old s') n }.

Lemma promote_ok f s size n :
  inv f s -> 0 < size <= n -> size mod HEAP_OBJECT_ALIGN = 0 -> old_room (s_old s) n ->
  exists b s', promote s size = Some (b, s') /\ s_mem s' = s_mem s /\ s_cells s' = s_cells s /\
    s_remembered s' = s_remembered s /\ same_spaces s s' /\ s_top s' = s_top s /\
    0 < b < 2 ^ 63 /\ b mod HEAP_OBJECT_ALIGN = 0 /\ (b ∉ old_objects (s_old s)) /\
    old_objects (s_old s') = {[b]} ∪ old_objects (s_old s) /\ old_room (s_old s') (n - size).
Proof.
  intros I Hs Hm Hr. unfold promote.
  destruct (old_alloc_ok (s_old s) n size (s_hasPromotionFailure s) Hr Hs Hm) as (p & st & -> & Hp). cbn [mbind option_bind].
  destruct Hp as [(-> & _ & Ho & Hr')|(Hp & Hpm & Hpf & Ho & Hr')].
  - rewrite Z.eqb_refl. cbn [set_failure set_old s_old].
    destruct (old_alloc_ok st n size true Hr' Hs Hm) as (p & st2 & -> & [(_ & ? & _)|(Hp & Hpm & Hpf & Ho2 & Hr2)]); [done|].
    cbn [mbind option_bind]. eexists _, _. split; [done|]. rewrite Ho in *.
    do 3 (split; [done|]). split; [unfold same_spaces; cbn; split_and!; done || lia|]. split_and!; done || lia.
  - destruct (Z.eqb_spec p 0); [lia|]. eexists _, _. split; [done|].
    do 3 (split; [done|]). split; [unfold same_spaces; cbn; split_and!; done || lia|]. split_and!; done || lia.
Qed.

Lemma place_ok f s a size :
  inv f s -> 0 < size <= bytes (pending f) -> size mod HEAP_OBJECT_ALIGN = 0 ->
  exists b s', place s a size = Some (b, s') /\ allocated f s size b s'.
Proof.
  intros I Hs Hm. pose proof (i_room _ _ I). pose proof (i_spaces _ _ I) as SP. destruct (sp_top _ SP) as [Ht Htm].
  destruct (sp_end _ SP) as [He Heb]. destruct (sp_from _ SP) as [Hf Hfm]. pose proof (lor_new_le (s_fromSpace s)) as Hbase.
  unfold place. destruct (Z.ltb_spec a (s_survivorEnd s)) as [Hlt|Hge].
  - destruct (i_old_room _ _ I) as (n & Hn & Hr).
    destruct (promote_ok f s size n I ltac:(lia) Hm Hr) as (b & s' & -> & E1 & E2 & E3 & SS & Et & Hb & Hbm & Hbf & Ho & Hr').
    assert (addr_ok b) as Hab.
    { split; [done|]. unfold HEAP_OBJECT_ALIGN in Hbm. rewrite (Z.div_mod b 16), Hbm by lia. replace (16 * (b / 16) + 0) with ((2 * (b / 16)) * 8) by lia. apply Z.mod_mul. lia. }
    assert (isNewObject b = false) as Hbo.
    { rewrite isNew_mod by done. unfold HEAP_OBJECT_ALIGN in Hbm. by rewrite Hbm. }
    destruct SS as (S1 & S2 & S3 & S4 & S5 & S6).
    eexists _, _. split; [done|]. constructor; try done.
    + destruct SP. constructor; rewrite ?S1, ?S2, ?S3, ?S4, ?Et; done.
    + destruct (s_mem s !! b) eqn:Em; [|done]. exfalso. apply Hbf, (i_old _ _ I); [by eexists|done].
    + intros Hbn. congruence.
    + intros x Hx. rewrite Ho. apply elem_of_union; destruct Hx as [Hx|[-> _]]; [by right|left; by apply elem_of_singleton].
    + rewrite S4, Et. lia.
    + exists (n - size). split; [lia|done].
  - unfold scavengerTryAllocate, ASSERT. rewrite (proj2 (Z.eqb_eq _ _) Hm). cbn [mbind option_bind].
    rewrite u64_id by lia. destruct (Z.ltb_spec (s_end s - s_top s) size); [lia|].
    assert (addr_ok (s_top s)) as Hab.
    { split; [lia|]. rewrite (Z.div_mod (s_top s) 16), Htm by lia.
      replace (16 * (s_top s / 16) + 8) with ((2 * (s_top s / 16) + 1) * 8) by lia. apply Z.mod_mul. lia. }
    pose proof (isNew_mod _ Hab) as Hbn. rewrite Htm in Hbn. change (isNewObject (s_top s) = true) in Hbn.
    unfold isNewObject in Hbn. rewrite Hbn. cbn [mbind option_bind].
    rewrite (proj2 (Z.leb_le (s_fromSpace s) _)), (proj2 (Z.leb_le (s_top s) _)) by lia. cbn [andb mbind option_bind].
    cbn [set_top s_fromSpace s_size].
    rewrite (proj2 (Z.leb_le (s_fromSpace s) _)), (proj2 (Z.leb_le (s_top s) _)) by lia. cbn [andb mbind option_bind].
    eexists _, _. split; [done|]. constructor; cbn [set_top s_mem s_cells s_remembered s_old s_end s_top]; try done.
    + unfold same_spaces; cbn; split_and!; done || lia.
    + unfold HEAP_OBJECT_ALIGN in Hm. destruct SP. constructor; cbn [set_top s_fromSpace s_toSpace s_size s_end s_top]; try done.
      split; [lia|]. rewrite Z.add_mod, Htm, Hm by lia. done.
    + destruct (s_mem s !! s_top s) eqn:Em; [|done]. exfalso.
      destruct (i_dom _ _ I (s_top s)) as [HS|[x Hx]]; [by eexists| |].
      * apply (sp_dest _ SP _ HS Hbn). lia.
      * destruct (i_map _ _ I _ _ Hx) as (_ & _ & _ & _ & Hd). specialize (Hd Hbn). lia.
    + intros _. cbn. lia.
    + intros x [Hx|[-> Hx]]; [done|]. unfold isNewObject in Hx. congruence.
    + lia.
    + destruct (i_old_room _ _ I) as (n & Hn & Hr). exists n. split; [lia|done].
Qed.

Lemma forward_ok f s a o0 :
  inv f s -> m0 !! a = Some o0 -> isNewObject a = true -> f !! a = None ->
  exists b s', let f' := <[a := b]> f in
    forwardObject s a = Some s' /\ inv f' s' /\ f ⊆ f' /\ kept f s (fun _ => False) f' s' /\
    tags_kept f s (fun _ => False) f' s' /\ same_spaces s s' /\ s_remembered s' = s_remembered s /\
    (exists o, s_mem s' !! a = Some o /\ o_class o = b) /\
    s_mem s' !! b = Some (clear_tag TAG_MARKED o0).
Proof.
  intros I Ha Hn Hf. pose proof (WF a o0 Ha) as W. pose proof (i_spaces _ _ I) as SP.
  assert (s_mem s !! a = Some o0) as Hm by (pose proof (i_source _ _ I a o0 Ha Hn) as HS; by rewrite Hf in HS).
  destruct (w_shape _ _ W) as (shape & n & size & Hsh & Hn' & Hlen & Hsz & Hal).
  assert (computeRawObjectSize (s_mem s) o0 = Some size) as Hsz'.
  { unfold computeRawObjectSize in *. by rewrite (shape_kept f s a o0 I Ha). }
  destruct (place_ok f s a (bytes_of o0)) as (b & s1 & Epl & AL); [done| |exact (w_even _ _ W)|].
  { rewrite (bytes_delete _ a o0) by by apply pending_lookup. pose proof (bytes_nonneg (delete a (pending f))).
    unfold bytes_of, HEADER_SIZE. lia. }
  assert (m0 !! b = None) as Hb0 by (eapply mem_known; [exact I|apply AL]).
  assert (a <> b) as Hab by congruence.
  assert (f ⊆ <[a := b]> f) as Hsub by by apply insert_subseteq.
  assert (f ⊆ <[a := b]> f -> forall x, placed f x -> move (<[a := b]> f) x = move f x) as Hmv.
  { intros _ x HPx. apply move_mono; [done| |done]. intros y [c Hc]. destruct (decide (y = a)) as [->|Hne]; [done|].
    rewrite lookup_insert_ne in Hc by done. eapply inv_new; [exact I|by eexists]. }
  specialize (Hmv Hsub).
  assert (forall x, placed f x -> move f x <> a /\ move f x <> b) as Hloc.
  { intros x HPx. split; [eapply move_not_source; eauto; by eexists|]. intros E. destruct (proj1 HPx) as [ox Hox].
    destruct (i_placed _ _ I x ox Hox HPx) as (o & Eo & _). rewrite E in Eo. by rewrite (al_fresh _ _ _ _ _ AL) in Eo. }
  unfold forwardObject. rewrite Hm. cbn [mbind option_bind]. unfold ASSERT at 1. rewrite (proj1 (w_tags _ _ W)). cbn [negb mbind option_bind].
  destruct (sp_source _ SP a (mk_is_Some _ _ Ha) Hn) as [Hr1 Hr2]. unfold ASSERT at 1.
  rewrite (proj2 (Z.leb_le _ _) Hr1), (proj2 (Z.leb_le _ _) Hr2). cbn [andb mbind option_bind]. rewrite Hsz'. cbn [mbind option_bind].
  change (if a <? s_survivorEnd s then promote s (align size HEAP_OBJECT_ALIGN) else _) with (place s a (align size HEAP_OBJECT_ALIGN)).
  rewrite Hal. fold (bytes_of o0). rewrite Epl. cbn [mbind option_bind].
  destruct (al_addr _ _ _ _ _ AL) as [Hbp _]. unfold ASSERT. destruct (Z.eqb_spec b 0); [lia|]. cbn [negb mbind option_bind].
  change (length (o_body (clear_tag TAG_MARKED o0))) with (length (o_body o0)). fold (bytes_of o0).
  rewrite Z.eqb_refl. cbn [mbind option_bind]. rewrite (al_mem _ _ _ _ _ AL).
  exists b. eexists. cbn zeta. split; [done|].
  set (o1 := clear_tag TAG_MARKED o0). set (oF := set_class b (add_tag TAG_FORWARDED o1)).
  split; [|split; [done|split; [|split; [|split; [by destruct AL|split; [by destruct AL|split]]]]]].
  - constructor; cbn [set_mem s_mem s_cells s_end s_top s_old].
    + destruct (al_spaces _ _ _ _ _ AL). by constructor.
    + intros x ox Hx Hxn. destruct (decide (x = a)) as [->|Hne].
      * rewrite lookup_insert_eq. exists oF. rewrite lookup_insert_eq. split; [done|]. split; [done|].
        rewrite Ha in Hx. injection Hx as <-. split; [|done]. unfold oF.
        change (has_tag TAG_FORWARDED (set_class b (add_tag TAG_FORWARDED o1))) with (has_tag (2 ^ 3) (add_tag (2 ^ 3) o1)).
        by rewrite add_tag_bit by lia.
      * rewrite (lookup_insert_ne f) by done. rewrite !lookup_insert_ne by congruence. by apply (i_source _ _ I).
    + intros x ox Hx HPx. destruct (decide (x = a)) as [->|Hne].
      * unfold move. rewrite lookup_insert_eq. cbn [default]. rewrite lookup_insert_ne, lookup_insert_eq by done.
        rewrite Ha in Hx. injection Hx as <-. exists o1. split; [done|].
        constructor; cbn; try done; try (by left).
        -- change (has_tag TAG_FORWARDED o1) with (has_tag (2 ^ 3) (clear_tag (2 ^ 2) o0)). rewrite clear_tag_bit by lia.
           cbn. apply (w_tags _ _ W).
        -- rewrite <- Z.land_assoc. done.
      * assert (placed f x) as HPx'.
        { destruct HPx as [Hs Hp]. split; [done|]. intros E. specialize (Hp E). by rewrite lookup_insert_ne in Hp. }
        rewrite Hmv by done. destruct (Hloc x HPx') as [? ?]. rewrite !lookup_insert_ne by done.
        destruct (i_placed _ _ I x ox Hx HPx') as (o & Eo & S). exists o. split; [done|]. by eapply similar_mono.
    + intros x c Hc. destruct (decide (x = a)) as [->|Hne].
      * rewrite lookup_insert_eq in Hc. injection Hc as <-. split; [by eexists|]. split; [done|]. split; [done|]. split; apply AL.
      * rewrite lookup_insert_ne in Hc by done. destruct (i_map _ _ I x c Hc) as (? & ? & ? & ? & Hd). do 4 (split; [done|]).
        intros E. specialize (Hd E). destruct (al_same _ _ _ _ _ AL) as (Efs & _ & _ & _ & _ & ?). cbn. rewrite Efs. lia.
    + intros x x' c Hx Hx'.
      assert (forall y, f !! y = Some b -> False) as Hno.
      { intros y Hy. destruct (i_map _ _ I _ _ Hy) as (Hs & Hny & _).
        assert (placed f y) as HPy by (split; [done|intros _; by eexists]). destruct (Hloc _ HPy) as [_ HH]. apply HH.
        unfold move. by rewrite Hy. }
      apply lookup_insert_Some in Hx as [[-> <-]|[? Hx]], Hx' as [[-> Hc']|[? Hx']]; try done;
        [by destruct (Hno x')|subst c; by destruct (Hno x)|by eapply (i_inj _ _ I)].
    + intros c [oc Hc]. destruct (decide (c = a)) as [->|Hca]; [left; by eexists|]. rewrite lookup_insert_ne in Hc by done.
      destruct (decide (c = b)) as [->|Hcb]; [right; exists a; by rewrite lookup_insert_eq|]. rewrite lookup_insert_ne in Hc by done.
      destruct (i_dom _ _ I c) as [|[x Hx]]; [by eexists|by left|]. right. exists x. rewrite lookup_insert_ne; [done|]. congruence.
    + intros c [oc Hc] Hcn. apply (al_old _ _ _ _ _ AL). destruct (decide (c = a)) as [->|Hca]; [congruence|].
      rewrite lookup_insert_ne in Hc by done. destruct (decide (c = b)) as [->|Hcb]; [by right|]. left.
      rewrite lookup_insert_ne in Hc by done. apply (i_old _ _ I); [by eexists|done].
    + rewrite (al_cells _ _ _ _ _ AL). destruct (i_cells _ _ I) as [Hl Hc]. split; [done|]. intros k v0 Hv.
      destruct (Hc k v0 Hv) as [E|E]; rewrite E; [by left|].
      destruct (cells_mono f (<[a := b]> f) k v0 (update f (Cell k) v0) Hsub Hv) as [->| ->]; [by right|by left|by right].
    + rewrite pending_insert. pose proof (i_room _ _ I) as HR. rewrite (bytes_delete (pending f) a o0) in HR by by apply pending_lookup.
      pose proof (al_room _ _ _ _ _ AL). lia.
    + rewrite pending_insert. destruct (al_old_room _ _ _ _ _ AL) as (k & Hk & HR).
      rewrite (bytes_delete (pending f) a o0) in Hk by by apply pending_lookup. exists k. split; [lia|done].
  - intros p Vp _. destruct p as [x|x j|k]; cbn [locate valid read_slot set_mem s_mem s_cells] in *.
    + rewrite Hmv by done. destruct (Hloc x Vp) as [? ?]. by rewrite !lookup_insert_ne.
    + destruct Vp as [Vp _]. rewrite Hmv by done. destruct (Hloc x Vp) as [? ?]. by rewrite !lookup_insert_ne.
    + by rewrite (al_cells _ _ _ _ _ AL).
  - intros x Vx _. cbn [set_mem s_mem]. rewrite Hmv by done. destruct (Hloc x Vx) as [? ?]. by rewrite !lookup_insert_ne.
  - exists oF. cbn [set_mem s_mem]. by rewrite lookup_insert_eq.
  - cbn [set_mem s_mem]. by rewrite lookup_insert_ne, lookup_insert_eq.
Qed.

(** ** Steps of the evacuation *)

Definition owner (p : Slot) : option Z := match p with ClassOf a => Some a | Var a _ => Some a | Cell _ => None end.

(** A slot of the object that leads to a young one. *)
Definition young_slot (f : gmap Z Z) (s : Scavenger) (a : Z) : Prop :=
  exists p v t, owner p = Some a /\ valid f p /\ read_slot s (locate f p) = Some v /\ target p v = Some t /\ isNewObject t = true.

Definition tagged (f : gmap Z Z) (s : Scavenger) (a : Z) : Prop :=
  exists o, s_mem s !! move f a = Some o /\ has_tag TAG_REMEMBERED o = true.

Definition remembered_done (f : gmap Z Z) (s : Scavenger) (a : Z) : Prop :=
  isNewObject (move f a) = false -> young_slot f s a -> move f a ∈ s_remembered s /\ tagged f s a.

(** Every slot of the object is redirected, and it is remembered if it has to be. *)
Definition object_done (f : gmap Z Z) (s : Scavenger) (a : Z) : Prop :=
  (forall p, owner p = Some a -> valid f p -> slot_done f s p) /\ remembered_done f s a.

(** References between young objects, as the heap was at the start. *)
Definition young_edge (a b : Z) : Prop :=
  exists p v, owner p = Some a /\ (forall f, placed f a -> valid f p) /\ read0 p = Some v /\ target p v = Some b /\
    isNewObject a = true.

(** From [f] and [s] to [f'] and [s']: slots outside [X] and tags outside [Y]
    are as they were, what was copied is finished, and it was reached from [R]. *)
Record stepped (f : gmap Z Z) (s : Scavenger) (X : Slot -> Prop) (Y R : Z -> Prop) (f' : gmap Z Z) (s' : Scavenger) : Prop := {
  st_inv : inv f' s';
  st_sub : f ⊆ f';
  st_kept : kept f s X f' s';
  st_tags : tags_kept f s Y f' s';
  st_same : same_spaces s s';
  st_rem : forall b, b ∈ s_remembered s -> b ∈ s_remembered s';
  st_new : forall a, is_Some (f' !! a) -> f !! a = None -> object_done f' s' a;
  st_reach : forall a, is_Some (f' !! a) -> f !! a = None -> exists x, R x /\ rtc young_edge x a }.

Lemma move_later f s X Y R f' s' a : stepped f s X Y R f' s' -> placed f a -> move f' a = move f a.
Proof.
  intros ST. apply move_mono; [exact (st_sub _ _ _ _ _ _ _ ST)|]. intros x. apply (inv_new _ s'), (st_inv _ _ _ _ _ _ _ ST).
Qed.

Lemma locate_later f s X Y R f' s' p : stepped f s X Y R f' s' -> valid f p -> locate f' p = locate f p.
Proof. intros ST. eapply locate_mono; [exact (st_sub _ _ _ _ _ _ _ ST)|exact (st_inv _ _ _ _ _ _ _ ST)]. Qed.

Lemma owner_valid f p a : owner p = Some a -> valid f p -> placed f a.
Proof. destruct p; cbn; intros [= ->] V; [done|apply V]. Qed.

(** For a slot of a placed object, being a slot does not depend on the map. *)
Lemma valid_same f f' p a : owner p = Some a -> valid f' p -> placed f a -> valid f p.
Proof. destruct p; cbn; intros [= ->] V HP; [done|by split; [|apply V]]. Qed.

Lemma done_later f s X Y R f' s' p :
  stepped f s X Y R f' s' -> valid f p -> ~ X p -> slot_done f s p -> slot_done f' s' p.
Proof.
  intros ST V Hx [Hs Hr]. split.
  - intros v a Hv Ht. eapply placed_mono; [exact (st_sub _ _ _ _ _ _ _ ST)|]. by eapply Hs.
  - rewrite (st_kept _ _ _ _ _ _ _ ST p V Hx), Hr. destruct (read0 p) as [v|] eqn:Hv; [|done]. cbn. f_equal.
    symmetry. apply update_mono; [exact (st_sub _ _ _ _ _ _ _ ST)|intros x; apply (inv_new _ s'), (st_inv _ _ _ _ _ _ _ ST)|]. intros a. by apply Hs.
Qed.

Lemma object_later f s X Y R f' s' a :
  stepped f s X Y R f' s' -> placed f a -> (forall p, owner p = Some a -> ~ X p) -> ~ Y a ->
  object_done f s a -> object_done f' s' a.
Proof.
  intros ST HP HX HY [Hd Hr]. split.
  - intros p Ho V. pose proof (valid_same f f' p a Ho V HP) as V'. eapply done_later; [exact ST|done|by apply HX|by apply Hd].
  - unfold remembered_done, tagged. rewrite (move_later _ _ _ _ _ _ _ _ ST HP). intros Hn (p & v & t & Ho & V & Hv & Ht & Hy).
    pose proof (valid_same f f' p a Ho V HP) as V'. destruct Hr as [Hin (o & Eo & Hg)]; [done| |].
    + exists p, v, t. rewrite <- (st_kept _ _ _ _ _ _ _ ST p V' (HX p Ho)). done.
    + split; [by apply (st_rem _ _ _ _ _ _ _ ST)|]. pose proof (st_tags _ _ _ _ _ _ _ ST a HP HY) as Et.
      rewrite (move_later _ _ _ _ _ _ _ _ ST HP), Eo in Et.
      destruct (s_mem s' !! move f a) as [o'|]; [|done]. cbn in Et. exists o'. split; [done|]. injection Et as Et.
      unfold has_tag in *. by rewrite Et.
Qed.

Lemma stepped_refl f s X Y R : inv f s -> stepped f s X Y R f s.
Proof. intros I. constructor; try done; intros a [b Hb] Hn; congruence. Qed.

Lemma stepped_trans f s X Y R f1 s1 X' Y' R' f2 s2 :
  stepped f s X Y R f1 s1 -> stepped f1 s1 X' Y' R' f2 s2 ->
  (forall p, X' p -> valid f p) -> (forall a, Y' a -> placed f a) ->
  stepped f s (fun p => X p \/ X' p) (fun a => Y a \/ Y' a) (fun x => R x \/ R' x) f2 s2.
Proof.
  intros A B HX HY. constructor.
  - apply B.
  - transitivity f1; [apply A|apply B].
  - intros p V Hn. rewrite <- (st_kept _ _ _ _ _ _ _ A p V) by tauto.
    apply (st_kept _ _ _ _ _ _ _ B); [|tauto]. eapply valid_mono; [exact (st_sub _ _ _ _ _ _ _ A)|done].
  - intros a HP Hn. rewrite <- (st_tags _ _ _ _ _ _ _ A a HP) by tauto.
    apply (st_tags _ _ _ _ _ _ _ B); [|tauto]. eapply placed_mono; [exact (st_sub _ _ _ _ _ _ _ A)|done].
  - eapply same_trans; [exact (st_same _ _ _ _ _ _ _ A)|exact (st_same _ _ _ _ _ _ _ B)].
  - intros b Hb. by apply (st_rem _ _ _ _ _ _ _ B), (st_rem _ _ _ _ _ _ _ A).
  - intros a Ha2 Ha. destruct (f1 !! a) as [b|] eqn:E; [|by apply (st_new _ _ _ _ _ _ _ B)].
    assert (is_Some (m0 !! a) /\ isNewObject a = true) as [Hm Hn] by (by destruct (i_map _ _ (st_inv _ _ _ _ _ _ _ A) a b E) as (? & ? & _)).
    assert (~ placed f a) as HNP by (intros [_ HP]; destruct (HP Hn) as [? ?]; congruence).
    eapply object_later; [exact B| | | |apply (st_new _ _ _ _ _ _ _ A); [by rewrite E|done]].
    + split; [done|]. intros _. by rewrite E.
    + intros p Ho HXp. by apply HNP, (owner_valid f p), HX.
    + intros HYa. by apply HNP, HY.
  - intros a Ha2 Ha. destruct (f1 !! a) as [b|] eqn:E.
    + destruct (st_reach _ _ _ _ _ _ _ A a) as (x & ? & ?); [by rewrite E|done|]. exists x. tauto.
    + destruct (st_reach _ _ _ _ _ _ _ B a) as (x & ? & ?); [done|done|]. exists x. tauto.
Qed.

Lemma stepped_weaken f s X Y R X' Y' R' f' s' :
  stepped f s X Y R f' s' -> (forall p, X p -> X' p) -> (forall a, Y a -> Y' a) ->
  (forall x, R x -> exists y, R' y /\ rtc young_edge y x) -> stepped f s X' Y' R' f' s'.
Proof.
  intros A HX HY HR. destruct A. constructor; try done.
  - intros p V Hn. apply st_kept0; [done|]. by intros ?%HX.
  - intros a V Hn. apply st_tags0; [done|]. by intros ?%HY.
  - intros a H1 H2. destruct (st_reach0 a H1 H2) as (x & (y & Hy & Hyx)%HR & Hx). exists y. split; [done|]. by etrans.
Qed.

Lemma pending_size (f f' : gmap Z Z) : f ⊆ f' -> (base.size (pending f') <= base.size (pending f))%nat.
Proof.
  intros Hf. apply map_subseteq_size. unfold pending. apply map_filter_subseteq_ext.
  intros a o _ [Hn Hf']. split; [done|]. destruct (f !! a) as [b|] eqn:E; [|done].
  by rewrite (lookup_weaken _ _ _ _ E Hf) in Hf'.
Qed.

(** ** One slot *)

Lemma slot_cur f s p v0 : inv f s -> valid f p -> read0 p = Some v0 ->
  read_slot s (locate f p) = Some v0 \/ read_slot s (locate f p) = Some (update f p v0).
Proof.
  intros I V Hr. destruct p as [a|a i|n]; cbn [locate read_slot read0 valid] in *.
  - destruct (m0 !! a) as [o0|] eqn:Ha; [|done]. injection Hr as <-. destruct (i_placed _ _ I a o0 Ha V) as (o & -> & S).
    cbn. destruct (sm_class _ _ _ S) as [->| ->]; auto.
  - destruct V as [V (o0 & Ha & Hi)]. rewrite Ha in Hr. cbn [mbind option_bind] in Hr.
    destruct (i_placed _ _ I a o0 Ha V) as (o & -> & S). cbn [mbind option_bind].
    destruct (sm_body _ _ _ S i v0 Hr) as [->|[_ ->]]; auto.
  - destruct (i_cells _ _ I) as [_ Hc]. destruct (Hc n v0 Hr) as [->| ->]; auto.
Qed.

(** An address as the slot holds it. *)
Definition enc (p : Slot) (y : Z) : Z := if slot_raw p then y else y + 1.

Lemma target_enc p v x : target p v = Some x -> v = enc p x.
Proof.
  unfold target, enc. destruct (slot_raw p); [destruct (v =? 0); [done|by intros [= ->]]|].
  destruct (valueTypeOf v VALUE_POINTER); intros [= <-]. lia.
Qed.

Lemma enc_target p y : addr_ok y -> target p (enc p y) = Some y.
Proof.
  intros Hy. unfold target, enc. destruct (slot_raw p); [destruct (Z.eqb_spec y 0) as [->|]; [destruct Hy; lia|done]|]. rewrite pointer_addr by done. f_equal. lia.
Qed.

Lemma update_enc f p v x : target p v = Some x -> addr_ok (move f x) -> update f p v = enc p (move f x).
Proof.
  intros Ht Ha. unfold update, target, enc, movev in *. destruct (slot_raw p); [destruct (v =? 0); [done|by injection Ht as ->]|].
  destruct (valueTypeOf v VALUE_POINTER); [|done]. injection Ht as ->. by apply tagPtr_addr.
Qed.

Lemma move_addr f s a : inv f s -> is_Some (m0 !! a) -> addr_ok (move f a).
Proof.
  intros I [o Ha]. unfold move. destruct (f !! a) as [b|] eqn:E; [by apply (i_map _ _ I a b)|]. apply (w_addr _ _ (WF a o Ha)).
Qed.

(** [processPointer] or [processTaggedPointer], as the slot needs. *)
Definition process (p : Slot) (fuel : nat) (s : Scavenger) (q : Slot) : option (Z * Scavenger) :=
  if slot_raw p then processPointer fuel s q else processTaggedPointer fuel s q.

Definition slot_ok (fuel : nat) : Prop := forall f s p v0 x,
  inv f s -> valid f p -> read0 p = Some v0 -> target p v0 = Some x -> is_Some (m0 !! x) ->
  (2 * base.size (pending f) + 1 <= fuel)%nat ->
  exists f' s', process p fuel s (locate f p) = Some (move f' x, s') /\
    stepped f s (eq p) (fun _ => False) (eq x) f' s' /\ slot_done f' s' p.

Definition slots_of (a : Z) (p : Slot) : Prop := owner p = Some a /\ forall f, placed f a -> valid f p.
Definition referent (a b : Z) : Prop := exists p v, slots_of a p /\ read0 p = Some v /\ target p v = Some b.

Definition object_ok (fuel : nat) : Prop := forall f s a o0,
  inv f s -> m0 !! a = Some o0 -> placed f a -> (isNewObject (move f a) = false -> ~ tagged f s a) ->
  (2 * base.size (pending f) + 2 <= fuel)%nat ->
  exists f' s', iterateObject fuel s (move f a) = Some s' /\
    stepped f s (slots_of a) (eq a) (referent a) f' s' /\ object_done f' s' a.

(** The slot holds the address of an object that is where it belongs. *)
Lemma slot_settled f s p v0 x :
  inv f s -> valid f p -> read0 p = Some v0 -> target p v0 = Some x -> placed f x ->
  read_slot s (locate f p) = Some (update f p v0) -> slot_done f s p.
Proof.
  intros I V Hr Ht HP Hc. split; [|by rewrite Hc, Hr].
  intros v y Hv Hy. rewrite Hr in Hv. injection Hv as <-. rewrite Ht in Hy. by injection Hy as <-.
Qed.

Lemma process_read p fuel s q y :
  addr_ok y -> read_slot s q = Some (enc p y) -> isNewObject y = false -> process p (S fuel) s q = Some (y, s).
Proof.
  intros Ha Hr Hn. assert ((Z.land y SPACE_TAG =? OLD_SPACE_TAG) = true) as Ho.
  { change (isOldObject y = true). rewrite isOld_negb. by rewrite Hn. }
  unfold process, enc in *. destruct (slot_raw p); rewrite ?processPointer_S, ?processTaggedPointer_S, Hr; cbn [mbind option_bind].
  - by rewrite Ho.
  - rewrite asObject_addr by done. cbn [mbind option_bind]. by rewrite Ho.
Qed.

Lemma young_land y : isNewObject y = true -> (Z.land y SPACE_TAG =? OLD_SPACE_TAG) = false.
Proof. intros Hn. change (isOldObject y = false). rewrite isOld_negb. by rewrite Hn. Qed.

(** A copy made in this cycle is left alone. *)
Lemma process_copy p fuel s q y o :
  addr_ok y -> read_slot s q = Some (enc p y) -> isNewObject y = true -> s_mem s !! y = Some o ->
  has_tag TAG_FORWARDED o = false -> scavengerIncludes s y = true -> process p (S fuel) s q = Some (y, s).
Proof.
  intros Ha Hr Hn Hm Hf Hi. pose proof (young_land y Hn) as Ho.
  unfold process, enc in *. destruct (slot_raw p); rewrite ?processPointer_S, ?processTaggedPointer_S, Hr; cbn [mbind option_bind].
  - by rewrite Ho, Hm; cbn [mbind option_bind]; rewrite Hf, Hi.
  - rewrite asObject_addr by done. cbn [mbind option_bind]. by rewrite Ho, Hm; cbn [mbind option_bind]; rewrite Hf, Hi.
Qed.

(** The original of a copied object redirects the slot. *)
Lemma process_forwarded p fuel s q y o b c s' :
  addr_ok y -> read_slot s q = Some (enc p y) -> isNewObject y = true -> s_mem s !! y = Some o ->
  has_tag TAG_FORWARDED o = true -> o_class o = b -> addr_ok b -> in_dest s b -> s_mem s !! b = Some c ->
  has_tag TAG_FORWARDED c = false -> write_slot s q (enc p b) = Some s' -> process p (S fuel) s q = Some (b, s').
Proof.
  intros Ha Hr Hn Hm Hf Hc Hab Hd Hb Hcf Hw. pose proof (young_land y Hn) as Ho.
  assert (isOldObject b || ((s_fromSpace s <=? b) && (b <? s_top s)) = true) as Has.
  { rewrite isOld_negb. destruct (isNewObject b) eqn:Eb; [|done]. cbn. specialize (Hd Eb). pose proof (lor_new_le (s_fromSpace s)).
    rewrite (proj2 (Z.leb_le _ _)), (proj2 (Z.ltb_lt _ _)) by lia. done. }
  assert (isOldObject b || ((s_fromSpace s <=? b) && (b <=? s_top s)) = true) as Has'.
  { destruct (isOldObject b); [done|]. cbn in *. apply andb_prop in Has as [-> Hl]. apply Z.ltb_lt in Hl. apply Z.leb_le. lia. }
  unfold process, enc in *. destruct (slot_raw p); rewrite ?processPointer_S, ?processTaggedPointer_S, Hr; cbn [mbind option_bind].
  - rewrite Ho, Hm. cbn [mbind option_bind]. rewrite Hf, Hc. unfold ASSERT. rewrite Has'. cbn [mbind option_bind].
    rewrite Hb. cbn [mbind option_bind]. rewrite Hcf. cbn [negb mbind option_bind]. rewrite Hw. done.
  - rewrite asObject_addr by done. cbn [mbind option_bind]. rewrite Ho, Hm. cbn [mbind option_bind]. rewrite Hf, Hc.
    unfold ASSERT. rewrite Has. cbn [mbind option_bind]. rewrite tagPtr_addr by done. rewrite Hw. done.
Qed.

(** An object seen for the first time. *)
Lemma process_fresh p fuel s q y o s1 o1 b c s2 s3 :
  addr_ok y -> read_slot s q = Some (enc p y) -> isNewObject y = true -> s_mem s !! y = Some o ->
  has_tag TAG_FORWARDED o = false -> scavengerIncludes s y = false -> forwardObject s y = Some s1 ->
  s_mem s1 !! y = Some o1 -> o_class o1 = b -> addr_ok b -> s_mem s1 !! b = Some c -> has_tag TAG_FORWARDED c = false ->
  write_slot s1 q (enc p b) = Some s2 -> iterateObject fuel s2 b = Some s3 -> process p (S fuel) s q = Some (b, s3).
Proof.
  intros Ha Hr Hn Hm Hf Hi Hfw Hm1 Hc Hab Hb Hcf Hw Hit. pose proof (young_land y Hn) as Ho.
  unfold process, enc in *. destruct (slot_raw p); rewrite ?processPointer_S, ?processTaggedPointer_S, Hr; cbn [mbind option_bind].
  - rewrite Ho, Hm. cbn [mbind option_bind]. rewrite Hf, Hi, Hfw. cbn [mbind option_bind]. rewrite Hm1. cbn [mbind option_bind].
    rewrite Hc, Hb. cbn [mbind option_bind]. unfold ASSERT. rewrite Hcf. cbn [negb mbind option_bind]. rewrite Hw. cbn [mbind option_bind].
    by rewrite Hit.
  - rewrite asObject_addr by done. cbn [mbind option_bind]. rewrite Ho, Hm. cbn [mbind option_bind]. rewrite Hf, Hi, Hfw.
    cbn [mbind option_bind]. rewrite Hm1. cbn [mbind option_bind]. rewrite Hc, tagPtr_addr by done. rewrite Hw. cbn [mbind option_bind].
    by rewrite Hit.
Qed.

Lemma source_addr f s x o0 : inv f s -> m0 !! x = Some o0 -> isNewObject x = true -> scavengerIncludes s x = false.
Proof.
  intros I Hx Hn. unfold scavengerIncludes. pose proof (sp_dest _ (i_spaces _ _ I) x ltac:(by eexists) Hn) as Hd.
  destruct (sp_top _ (i_spaces _ _ I)) as [Ht _].
  destruct (Z.leb_spec (base s) x), (Z.ltb_spec x (s_top s)); try done. exfalso. apply Hd. lia.
Qed.

Lemma dest_included f s b : inv f s -> isNewObject b = true -> in_dest s b -> scavengerIncludes s b = true.
Proof.
  intros I Hn Hd. specialize (Hd Hn). unfold scavengerIncludes.
  rewrite (proj2 (Z.leb_le _ _)), (proj2 (Z.ltb_lt _ _)) by lia. done.
Qed.

Lemma write_stepped f s p v0 R :
  inv f s -> valid f p -> read0 p = Some v0 -> settled f p ->
  exists s', write_slot s (locate f p) (update f p v0) = Some s' /\
    stepped f s (eq p) (fun _ => False) R f s' /\ slot_done f s' p.
Proof.
  intros I V Hr Hs. destruct (write_ok f s p v0 I V Hr Hs) as (s' & E & I' & D & K & T & S & Rm).
  exists s'. split; [done|]. split; [|done]. constructor; try done; [by rewrite Rm|intros a [b Hb] Hn; congruence..].
Qed.

(** The new object of a copy step is finished once it is iterated. *)
Lemma copy_stepped f s x b s1 X Y R f' s' :
  let f1 := <[x := b]> f in
  isNewObject x = true -> is_Some (m0 !! x) -> f !! x = None -> f ⊆ f1 -> kept f s (fun _ => False) f1 s1 ->
  tags_kept f s (fun _ => False) f1 s1 -> same_spaces s s1 -> s_remembered s1 = s_remembered s ->
  stepped f1 s1 X Y R f' s' -> (forall p, X p -> valid f p \/ owner p = Some x) -> (forall a, Y a -> a = x) ->
  (forall y, R y -> exists z, x = z /\ rtc young_edge z y) -> object_done f' s' x ->
  stepped f s (fun p => X p /\ valid f p) (fun _ => False) (eq x) f' s'.
Proof.
  intros f1 Hn Hm Hf Hsub K T SS Rm ST HX HY HR HD. constructor.
  - apply ST.
  - transitivity f1; [done|apply ST].
  - intros p V Hx. rewrite (st_kept _ _ _ _ _ _ _ ST p); [apply K; [done|tauto]|by eapply valid_mono|]. intros Hp. by apply Hx.
  - intros a HP _. rewrite (st_tags _ _ _ _ _ _ _ ST a); [apply T; [done|tauto]|by eapply placed_mono|]. intros ->%HY.
    destruct HP as [_ HP]. destruct (HP Hn). congruence.
  - eapply same_trans; [done|apply ST].
  - intros c Hc. apply (st_rem _ _ _ _ _ _ _ ST). by rewrite Rm.
  - intros a Ha Hna. destruct (decide (a = x)) as [->|Hne]; [done|].
    apply (st_new _ _ _ _ _ _ _ ST); [done|]. unfold f1. by rewrite lookup_insert_ne.
  - intros a Ha Hna. destruct (decide (a = x)) as [->|Hne]; [by exists x|].
    destruct (st_reach _ _ _ _ _ _ _ ST a Ha) as (y & Hy & Hya); [unfold f1; by rewrite lookup_insert_ne|].
    destruct (HR y Hy) as (z & -> & Hz). exists z. split; [done|]. by etrans.
Qed.

Lemma slot_step fuel : object_ok fuel -> slot_ok (S fuel).
Proof.
  intros IH f s p v0 x I V Hr Ht [ox Hx] Hfuel. pose proof (w_addr _ _ (WF x ox Hx)) as Hax.
  pose proof (move_addr f s x I ltac:(by eexists)) as Ham. pose proof (target_enc _ _ _ Ht) as Ev0.
  pose proof (update_enc f p v0 x Ht Ham) as Eu. pose proof (slot_cur f s p v0 I V Hr) as Hcur.
  destruct (isNewObject x) eqn:Hn.
  2: { (* an old object *)
    assert (placed f x) as HP by (apply placed_old; [by eexists|done]).
    assert (move f x = x) as Em.
    { unfold move. destruct (f !! x) eqn:E; [|done]. destruct (i_map _ _ I _ _ E) as (_ & ? & _). congruence. }
    assert (read_slot s (locate f p) = Some (enc p x)) as Hc by (rewrite Em in Eu; destruct Hcur as [->| ->]; congruence).
    exists f, s. rewrite Em. split; [by apply process_read|]. split; [by apply stepped_refl|].
    eapply slot_settled; try done. rewrite Hc, Eu, Em. done. }
  destruct (f !! x) as [b|] eqn:Hfx.
  - (* already copied *)
    assert (move f x = b) as Em by (unfold move; by rewrite Hfx). rewrite Em in *.
    assert (placed f x) as HP by (split; [by eexists|intros _; by eexists]).
    destruct (i_map _ _ I x b Hfx) as (_ & _ & Hb0 & Hab & Hd).
    destruct (i_placed _ _ I x ox Hx HP) as (c & Hc & S). rewrite Em in Hc.
    destruct Hcur as [Hcur|Hcur].
    + assert (settled f p) as Hst.
      { intros v y Hv Hy. rewrite Hr in Hv. injection Hv as <-. rewrite Ht in Hy. by injection Hy as <-. }
      destruct (write_stepped f s p v0 (eq x) I V Hr Hst) as (s' & Hw & ST & D). rewrite Eu in Hw.
      pose proof (i_source _ _ I x ox Hx Hn) as HS. rewrite Hfx in HS. destruct HS as (o & Ho & Hcl & Hfw & _).
      exists f, s'. rewrite Em. split; [|done].
      eapply (process_forwarded p fuel s _ x o b c); try done; [by rewrite Hcur, <- Ev0|apply S].
    + rewrite Eu in Hcur. assert (slot_done f s p) as D by (eapply slot_settled; try done; by rewrite Eu).
      exists f, s. rewrite Em. split; [|split; [by apply stepped_refl|done]].
      destruct (isNewObject b) eqn:Hnb; [|by apply process_read].
      eapply process_copy; try done; [apply S|by eapply dest_included].
  - (* not copied yet *)
    assert (move f x = x) as Em by (unfold move; by rewrite Hfx). rewrite Em in *.
    assert (read_slot s (locate f p) = Some (enc p x)) as Hc by (destruct Hcur as [->| ->]; congruence).
    pose proof (i_source _ _ I x ox Hx Hn) as HS. rewrite Hfx in HS.
    destruct (forward_ok f s x ox I Hx Hn Hfx) as (b & s1 & Hfw & I1 & Hsub & K1 & T1 & SS1 & R1 & (o1 & Ho1 & Hcl) & Hcopy).
    cbn zeta in *. set (f1 := <[x := b]> f) in *.
    assert (move f1 x = b) as Em1 by (unfold move, f1; by rewrite lookup_insert_eq).
    assert (placed f1 x) as HP1 by (split; [by eexists|intros _; unfold f1; rewrite lookup_insert_eq; by eexists]).
    pose proof (move_addr f1 s1 x I1 ltac:(by eexists)) as Hab. rewrite Em1 in Hab.
    pose proof (valid_mono f f1 p Hsub V) as V1.
    assert (settled f1 p) as Hst1.
    { intros v y Hv Hy. rewrite Hr in Hv. injection Hv as <-. rewrite Ht in Hy. by injection Hy as <-. }
    destruct (write_stepped f1 s1 p v0 (fun _ => False) I1 V1 Hr Hst1) as (s2 & Hw & ST2 & D2).
    assert (update f1 p v0 = enc p b) as Eu1 by (rewrite (update_enc f1 p v0 x Ht), Em1; [done|by rewrite Em1]).
    rewrite Eu1 in Hw. assert (locate f1 p = locate f p) as Eloc by (eapply locate_mono; [exact Hsub|exact I1|done]).
    rewrite Eloc in Hw.
    assert (has_tag TAG_FORWARDED (clear_tag TAG_MARKED ox) = false) as Hcf.
    { change (has_tag (2 ^ 3) (clear_tag (2 ^ 2) ox) = false). rewrite clear_tag_bit by lia. apply (w_tags _ _ (WF x ox Hx)). }
    assert (~ tagged f1 s2 x) as Htag.
    { intros (o & Eo & Hg). pose proof (st_tags _ _ _ _ _ _ _ ST2 x HP1 ltac:(tauto)) as Et.
      rewrite Em1 in *. rewrite Eo, Hcopy in Et. injection Et as Et. unfold has_tag in Hg. rewrite Et in Hg.
      change (has_tag (2 ^ 5) (clear_tag (2 ^ 2) ox) = true) in Hg. rewrite clear_tag_bit in Hg by lia.
      cbn in Hg. destruct (w_tags _ _ (WF x ox Hx)) as [_ Hg']. specialize (Hg' Hn). change (has_tag (2 ^ 5) ox = false) in Hg'. congruence. }
    assert (base.size (pending f1) < base.size (pending f))%nat as Hsz.
    { unfold f1. rewrite pending_insert. pose proof (pending_lookup f x ox Hx Hn Hfx) as Hp.
      rewrite map_size_delete_Some by by eexists. pose proof (map_size_ne_0_lookup_2 (pending f) x ltac:(by eexists)). lia. }
    destruct (IH f1 s2 x ox (st_inv _ _ _ _ _ _ _ ST2) Hx HP1) as (f' & s' & Hit & ST' & HD); [done|lia|].
    rewrite Em1 in Hit.
    assert (slot_done f' s' p) as D'.
    { eapply done_later; [exact ST'|done| |exact D2]. intros [Ho _].
      pose proof (owner_valid f p x Ho V) as [_ HPx]. destruct (HPx Hn). congruence. }
    assert (move f' x = b) as Em' by (rewrite (move_later _ _ _ _ _ _ _ _ ST' HP1); done).
    exists f', s'. split; [|split; [|done]].
    + rewrite Em'. eapply (process_fresh p fuel s _ x ox s1 o1 b); try done; [apply (w_tags _ _ (WF x ox Hx))|by eapply source_addr].
    + eapply stepped_weaken.
      * eapply (copy_stepped f s x b s1 (fun q => p = q \/ slots_of x q) (fun a => False \/ x = a) (fun y => False \/ referent x y));
          try done; try by eexists.
        -- eapply stepped_trans; [exact ST2|exact ST'|intros q [_ Hq]; by apply Hq|by intros a <-].
        -- intros q [<-|[Ho _]]; [by left|by right].
        -- by intros a [[]| ->].
        -- intros y [[]|(q & v & [Ho Hv] & Hrd & Htg)]. exists x. split; [done|]. apply rtc_once. by exists q, v.
      * intros q [[<-|[Ho _]] Vq]; [done|]. pose proof (owner_valid f q x Ho Vq) as [_ HPx]. destruct (HPx Hn). congruence.
      * done.
      * intros y <-. by exists x.
Qed.
(** ** One object *)

(** The slot does not lead to a young object. *)
Definition quiet (f : gmap Z Z) (s : Scavenger) (p : Slot) : Prop :=
  forall v t, read_slot s (locate f p) = Some v -> target p v = Some t -> isNewObject t = false.

Lemma quiet_later f s X Y R f' s' p : stepped f s X Y R f' s' -> valid f p -> ~ X p -> quiet f s p -> quiet f' s' p.
Proof. intros ST V Hx HQ v t Hv. rewrite (st_kept _ _ _ _ _ _ _ ST p V Hx) in Hv. by apply HQ. Qed.

(** The object [a] has been visited up to the slots of [D]; [remember] is what
    the loop has noted. *)
Definition visited_to (f0 : gmap Z Z) (s0 : Scavenger) (a : Z) (D : Slot -> Prop) (remember : bool) (s : Scavenger) : Prop :=
  exists f, stepped f0 s0 (slots_of a) (fun _ => False) (referent a) f s /\
    forall p, D p -> slot_done f s p /\ (remember = false -> quiet f s p).

Lemma slots_valid f a p : slots_of a p -> placed f a -> valid f p.
Proof. intros [_ Hv]. apply Hv. Qed.

(** A slot that holds a pointer is processed. *)
Lemma visit_slot fuel f0 s0 a D remember s q v0 x :
  slot_ok fuel -> placed f0 a -> (2 * base.size (pending f0) + 1 <= fuel)%nat ->
  visited_to f0 s0 a D remember s -> (forall p, D p -> slots_of a p) -> slots_of a q ->
  read0 q = Some v0 -> target q v0 = Some x -> is_Some (m0 !! x) ->
  exists t s', process q fuel s (locate f0 q) = Some (t, s') /\
    visited_to f0 s0 a (fun p => p = q \/ D p) (remember || isNewObject t) s'.
Proof.
  intros SO HP Hfuel (f & ST & HD) HDa Hq Hr Ht Hx.
  pose proof (slots_valid _ _ _ Hq HP) as Vq0. pose proof (valid_mono _ _ _ (st_sub _ _ _ _ _ _ _ ST) Vq0) as Vq.
  pose proof (pending_size f0 f (st_sub _ _ _ _ _ _ _ ST)).
  destruct (SO f s q v0 x (st_inv _ _ _ _ _ _ _ ST) Vq Hr Ht Hx ltac:(lia)) as (f' & s' & Epr & ST' & Dq).
  exists (move f' x), s'. rewrite <- (locate_later _ _ _ _ _ _ _ _ ST Vq0). split; [done|]. exists f'. split.
  - eapply stepped_weaken; [eapply stepped_trans; [exact ST|exact ST'|by intros p <-|done]|..].
    + intros p [Hp| <-]; [done|exact Hq].
    + by intros y [[]|[]].
    + intros y [Hy| <-]; [by exists y|]. exists x. split; [|done]. by exists q, v0.
  - intros p Hp. destruct (decide (p = q)) as [->|Hne].
    + split; [done|]. intros Hrem. apply orb_false_iff in Hrem as [_ Hrem]. intros v t Hv Htv.
      destruct Dq as [_ Eq]. rewrite Hv, Hr in Eq. cbn in Eq. injection Eq as ->.
      pose proof (move_addr f' s' x (st_inv _ _ _ _ _ _ _ ST') Hx) as Ham.
      rewrite (update_enc f' q v0 x Ht Ham), enc_target in Htv by done. by injection Htv as <-.
    + destruct Hp as [Hp|Hp]; [done|]. destruct (HD p Hp) as [Dp Qp].
      pose proof (valid_mono _ _ _ (st_sub _ _ _ _ _ _ _ ST) (slots_valid _ _ _ (HDa p Hp) HP)) as Vp.
      assert (q <> p) as Hne' by congruence. split; [by eapply done_later|].
      intros Hrem. apply orb_false_iff in Hrem as [Hrem _]. eapply quiet_later; [exact ST'|done..|by apply Qp].
Qed.

Lemma movev_pointer f s a o0 i v0 : inv f s -> m0 !! a = Some o0 -> in_vars o0 i -> o_body o0 !! i = Some v0 ->
  valueTypeOf (movev f v0) VALUE_POINTER = valueTypeOf v0 VALUE_POINTER.
Proof.
  intros I Ha Hi Hv. unfold movev. destruct (valueTypeOf v0 VALUE_POINTER) eqn:E; [|done].
  pose proof (move_addr f s (v0 - 1) I (w_vars _ _ (WF a o0 Ha) i v0 Hi Hv E)) as Ham. rewrite tagPtr_addr by done. by apply pointer_addr.
Qed.

(** One turn of the loop over the variables. *)
Lemma visit_var fuel f0 s0 a o0 D remember s i v0 :
  slot_ok fuel -> placed f0 a -> m0 !! a = Some o0 -> (2 * base.size (pending f0) + 1 <= fuel)%nat ->
  visited_to f0 s0 a D remember s -> (forall p, D p -> slots_of a p) -> in_vars o0 i -> o_body o0 !! i = Some v0 ->
  exists s' remember', (v ← read_slot s (Var (move f0 a) i);
      if valueTypeOf v VALUE_POINTER then
        '(object, s) ← processTaggedPointer fuel s (Var (move f0 a) i);
        Some (s, remember || isNewObject object)
      else Some (s, remember)) = Some (s', remember') /\ visited_to f0 s0 a (fun p => p = Var a i \/ D p) remember' s'.
Proof.
  intros SO HP Ha Hfuel VT HDa Hi Hv. pose proof VT as (f & ST & HD).
  assert (slots_of a (Var a i)) as Hq by (split; [done|]; intros g Hg; split; [done|by exists o0]).
  pose proof (slots_valid _ _ _ Hq HP) as Vq0. pose proof (valid_mono _ _ _ (st_sub _ _ _ _ _ _ _ ST) Vq0) as Vq.
  assert (read0 (Var a i) = Some v0) as Hr by (cbn; rewrite Ha; done).
  pose proof (slot_cur f s (Var a i) v0 (st_inv _ _ _ _ _ _ _ ST) Vq Hr) as Hcur.
  rewrite (locate_later _ _ _ _ _ _ _ _ ST Vq0) in Hcur. change (locate f0 (Var a i)) with (Var (move f0 a) i) in Hcur.
  pose proof (movev_pointer f s a o0 i v0 (st_inv _ _ _ _ _ _ _ ST) Ha Hi Hv) as Ety.
  assert (exists v, read_slot s (Var (move f0 a) i) = Some v /\ valueTypeOf v VALUE_POINTER = valueTypeOf v0 VALUE_POINTER
    /\ (valueTypeOf v0 VALUE_POINTER = false -> v = v0)) as (v & -> & Ev & Ev0).
  { destruct Hcur as [->| ->]; eexists; (split; [done|]); [done|]. split; [done|]. intros E. by apply movev_nonptr. }
  cbn [mbind option_bind]. rewrite Ev. destruct (valueTypeOf v0 VALUE_POINTER) eqn:Et.
  - destruct (visit_slot fuel f0 s0 a D remember s (Var a i) v0 (v0 - 1)) as (t & s' & Epr & VT'); try done.
    + unfold target. cbn [slot_raw]. by rewrite Et.
    + by apply (w_vars _ _ (WF a o0 Ha) i v0).
    + change (process (Var a i) fuel s (locate f0 (Var a i))) with (processTaggedPointer fuel s (Var (move f0 a) i)) in Epr.
      rewrite Epr. cbn [mbind option_bind]. by eexists _, _.
  - eexists _, _. split; [done|]. exists f. split; [done|]. intros p [->|Hp]; [|by apply HD]. split.
    + split.
      * intros w x Hw. rewrite Hr in Hw. injection Hw as <-. unfold target. cbn [slot_raw]. by rewrite Et.
      * rewrite (locate_later _ _ _ _ _ _ _ _ ST Vq0), Hr. unfold update. cbn [slot_raw fmap option_fmap option_map]. rewrite movev_nonptr by done.
        change (locate f0 (Var a i)) with (Var (move f0 a) i).
        destruct Hcur as [->| ->]; [done|]. unfold update. cbn [slot_raw]. by rewrite movev_nonptr.
    + intros _ w t Hw. rewrite (locate_later _ _ _ _ _ _ _ _ ST Vq0) in Hw. change (locate f0 (Var a i)) with (Var (move f0 a) i) in Hw.
      assert (w = v0) as ->.
      { destruct Hcur as [E|E]; rewrite E in Hw; injection Hw as <-; [done|]. unfold update. cbn [slot_raw]. by apply movev_nonptr. }
      unfold target. cbn [slot_raw]. by rewrite Et.
Qed.
(** Other tags for a placed object, and more in the remembered set. *)
Lemma retag_stepped f s a o0 o t l R :
  inv f s -> m0 !! a = Some o0 -> placed f a -> s_mem s !! move f a = Some o ->
  has_tag TAG_FORWARDED (set_tags t o) = false -> Z.land t 219 = Z.land (o_tags o) 219 -> (forall b, b ∈ s_remembered s -> b ∈ l) ->
  stepped f s (fun _ => False) (eq a) R f (set_remembered l (set_mem (<[move f a := set_tags t o]> (s_mem s)) s)).
Proof.
  intros I Ha HP Ho Hfw Ht Hl. destruct (i_placed _ _ I a o0 Ha HP) as (o' & Eo & S). rewrite Ho in Eo. injection Eo as <-.
  assert (similar f o0 (set_tags t o)) as S' by (destruct S; constructor; try done; cbn; congruence).
  pose proof (put_object f s a o0 _ I Ha HP S') as I'. constructor.
  - destruct I' as [[]]. constructor; try done.
  - done.
  - intros p V _. destruct p as [x|x i|n]; cbn [read_slot locate set_remembered set_mem s_mem s_cells]; [| |done];
      (destruct (decide (move f a = move f x)) as [<-|E]; [by rewrite lookup_insert_eq, Ho|by rewrite lookup_insert_ne]).
  - intros x HPx Hne. cbn [set_remembered set_mem s_mem]. rewrite lookup_insert_ne; [done|]. intros E. by apply Hne, (move_inj f s).
  - unfold same_spaces. cbn. split_and!; done || lia.
  - intros b Hb. by apply Hl.
  - intros x [b Hb] Hn. congruence.
  - intros x [b Hb] Hn. congruence.
Qed.

(** Recording the object in the remembered set. *)
Lemma remember_stepped f s a o0 o R :
  inv f s -> m0 !! a = Some o0 -> placed f a -> s_mem s !! move f a = Some o ->
  stepped f s (fun _ => False) (eq a) R f
    (set_remembered (s_remembered s ++ [move f a]) (set_mem (<[move f a := add_tag TAG_REMEMBERED o]> (s_mem s)) s)).
Proof.
  intros I Ha HP Ho. destruct (i_placed _ _ I a o0 Ha HP) as (o' & Eo & S). rewrite Ho in Eo. injection Eo as <-.
  apply (retag_stepped f s a o0 o); try done.
  - change (has_tag (2 ^ 3) (add_tag (2 ^ 5) o) = false). rewrite add_tag_bit by lia. apply S.
  - rewrite Z.land_lor_distr_l. apply Z.lor_0_r.
  - intros b Hb. apply elem_of_app. by left.
Qed.

(** Taking it out before it is scanned again. *)
Lemma clear_stepped f s a o0 o R :
  inv f s -> m0 !! a = Some o0 -> placed f a -> s_mem s !! move f a = Some o ->
  stepped f s (fun _ => False) (eq a) R f (set_mem (<[move f a := clear_tag TAG_REMEMBERED o]> (s_mem s)) s).
Proof.
  intros I Ha HP Ho. destruct (i_placed _ _ I a o0 Ha HP) as (o' & Eo & S). rewrite Ho in Eo. injection Eo as <-.
  apply (retag_stepped f s a o0 o _ (s_remembered s)); try done.
  - change (has_tag (2 ^ 3) (clear_tag (2 ^ 5) o) = false). rewrite clear_tag_bit by lia. apply S.
  - rewrite <- Z.land_assoc. done.
Qed.

Lemma tag_kept_back f0 s0 X R f s a :
  stepped f0 s0 X (fun _ => False) R f s -> placed f0 a -> tagged f s a -> tagged f0 s0 a.
Proof.
  intros ST HP (o & Eo & Hg). pose proof (st_tags _ _ _ _ _ _ _ ST a HP ltac:(tauto)) as Et. rewrite Eo in Et.
  destruct (s_mem s0 !! move f0 a) as [o'|] eqn:Eo'; [|done]. injection Et as Et. exists o'. split; [done|].
  unfold has_tag in *. by rewrite <- Et.
Qed.

(** The end of [iterateObject]. *)
Lemma remember_step f0 s0 a o0 remember s :
  m0 !! a = Some o0 -> placed f0 a -> (isNewObject (move f0 a) = false -> ~ tagged f0 s0 a) ->
  visited_to f0 s0 a (slots_of a) remember s ->
  exists f' s', (o ← s_mem s !! move f0 a;
      if remember && isOldObject (move f0 a) && negb (has_tag TAG_REMEMBERED o) then
        '(m, set) ← rememberObject (s_mem s) (s_remembered s) (move f0 a);
        Some (set_remembered set (set_mem m s))
      else Some s) = Some s' /\
    stepped f0 s0 (slots_of a) (eq a) (referent a) f' s' /\ object_done f' s' a.
Proof.
  intros Ha HP Hnt (f & ST & HD). pose proof (move_later _ _ _ _ _ _ _ _ ST HP) as Em. rewrite <- Em.
  pose proof (st_inv _ _ _ _ _ _ _ ST) as I. pose proof (placed_mono _ _ _ (st_sub _ _ _ _ _ _ _ ST) HP) as HPf.
  destruct (i_placed _ _ I a o0 Ha HPf) as (o & Eo & S). rewrite Eo. cbn [mbind option_bind].
  assert (forall g p, owner p = Some a -> valid g p -> slots_of a p) as Hsl.
  { intros g p Hop Vp. split; [done|]. intros g' Hg'. by eapply valid_same. }
  assert (isNewObject (move f a) = false -> has_tag TAG_REMEMBERED o = false) as Hnt'.
  { intros Hn. destruct (has_tag TAG_REMEMBERED o) eqn:E; [|done]. exfalso. rewrite Em in Hn. apply (Hnt Hn).
    eapply tag_kept_back; [exact ST|done|]. by exists o. }
  rewrite isOld_negb. destruct (remember && negb (isNewObject (move f a))) eqn:Er.
  - apply andb_prop in Er as [-> Hn]. apply negb_true_iff in Hn. rewrite (Hnt' Hn). cbn [negb andb].
    unfold rememberObject. rewrite Eo. cbn [mbind option_bind]. unfold ASSERT. rewrite (Hnt' Hn). cbn [negb mbind option_bind].
    pose proof (remember_stepped f s a o0 o (fun _ => False) I Ha HPf Eo) as ST'. eexists f, _. split; [done|]. split.
    + eapply stepped_weaken; [eapply stepped_trans; [exact ST|exact ST'|done|by intros x <-]|..].
      * by intros p [Hp|[]].
      * by intros x [[]|<-].
      * intros x [Hx|[]]. by exists x.
    + split.
      * intros p Hop Vp. eapply done_later; [exact ST'|done|tauto|]. by apply HD, (Hsl f).
      * intros _ _. cbn [set_remembered set_mem s_remembered s_mem]. split; [apply elem_of_app; right; by left|].
        exists (add_tag TAG_REMEMBERED o). cbn [set_remembered set_mem s_mem]. rewrite lookup_insert_eq. split; [done|].
        change (has_tag (2 ^ 5) (add_tag (2 ^ 5) o) = true). by rewrite add_tag_bit by lia.
  - cbn [andb]. exists f, s. split; [done|]. split.
    + eapply stepped_weaken; [exact ST|done|done|]. intros x Hx. by exists x.
    + split.
      * intros p Hop Vp. by apply HD, (Hsl f).
      * intros Hn (p & v & t & Hop & Vp & Hv & Ht & Hy). rewrite Hn in Er. rewrite andb_true_r in Er.
        destruct (HD p (Hsl f p Hop Vp)) as [_ HQ]. by rewrite (HQ Er v t Hv Ht) in Hy.
Qed.

Lemma class_target a o0 : m0 !! a = Some o0 -> target (ClassOf a) (o_class o0) = Some (o_class o0).
Proof.
  intros Ha. destruct (w_class _ _ (WF a o0 Ha)) as [c Hc]. destruct (w_addr _ _ (WF _ _ Hc)) as [? _].
  unfold target. cbn [slot_raw]. destruct (Z.eqb_spec (o_class o0) 0); [lia|done].
Qed.

Lemma object_step fuel : slot_ok fuel -> object_ok (S fuel).
Proof.
  intros SO f s a o0 I Ha HP Hnt Hfuel. rewrite iterateObject_S. pose proof (WF a o0 Ha) as W.
  assert (slots_of a (ClassOf a)) as Hcl by by split.
  assert (visited_to f s a (fun _ => False) false s) as VT0 by (exists f; split; [by apply stepped_refl|done]).
  assert (read0 (ClassOf a) = Some (o_class o0)) as Hr0 by (cbn; by rewrite Ha).
  pose proof (class_target a o0 Ha) as Htc.
  destruct (visit_slot fuel f s a _ false s (ClassOf a) (o_class o0) (o_class o0) SO HP ltac:(lia) VT0 ltac:(done) Hcl Hr0 Htc (w_class _ _ W))
    as (c & s1 & Epr & VT1).
  change (process (ClassOf a) fuel s (locate f (ClassOf a))) with (processPointer fuel s (ClassOf (move f a))) in Epr.
  rewrite Epr. cbn [mbind option_bind]. cbn [orb] in VT1. pose proof VT1 as (f1 & ST1 & HD1).
  pose proof (st_inv _ _ _ _ _ _ _ ST1) as I1. pose proof (placed_mono _ _ _ (st_sub _ _ _ _ _ _ _ ST1) HP) as HP1.
  pose proof (move_later _ _ _ _ _ _ _ _ ST1 HP) as Em.
  destruct (i_placed _ _ I1 a o0 Ha HP1) as (o & Eo & S). rewrite Em in Eo. rewrite Eo. cbn [mbind option_bind].
  destruct (HD1 (ClassOf a) ltac:(by left)) as [[Hst Hrd] _].
  assert (o_class o = move f1 (o_class o0)) as Ecl.
  { cbn [read_slot locate read0] in Hrd. rewrite Em, Eo, Ha in Hrd. by injection Hrd as ->. }
  destruct (w_shape _ _ W) as (shape & n & size & Hsh & Hn & Hlen & _).
  rewrite Ecl, (shape_moved f1 s1 a o0 I1 Ha), Hsh by by apply (Hst (o_class o0)). cbn [mbind option_bind].
  destruct (size_word f1 a o0 o shape Ha S Hsh) as [_ ->]. rewrite Hn. cbn [mbind option_bind].
  set (base := getRawObjectVars shape) in *.
  set (D := fun k p => p = ClassOf a \/ exists j, (j < k)%nat /\ p = Var a (base + j)).
  assert (forall k, (k <= n)%nat -> forall p, D k p -> slots_of a p) as HDa.
  { intros k Hk p [->|(j & Hj & ->)]; [done|]. split; [done|]. intros g Hg. split; [done|]. exists o0. split; [done|].
    exists shape, n. repeat split; [done|done|lia|lia]. }
  match goal with |- context [for_up n 0 ?b ?st] =>
    destruct (for_up_rule (fun k '(s', r) => visited_to f s a (D k) r s') n 0 b st) as ([s2 r2] & E2 & VT2) end.
  - destruct VT1 as (g & STg & HDg). exists g. split; [done|]. intros p [->|(j & Hj & _)]; [apply HDg; by left|lia].
  - intros k [s' r'] [_ Hk] VT. assert (is_Some (o_body o0 !! (base + k)%nat)) as [v0 Hv] by (apply lookup_lt_is_Some; lia).
    destruct (visit_var fuel f s a o0 (D k) r' s' (base + k) v0 SO HP Ha ltac:(lia) VT) as (s'' & r'' & E & (g & STg & HDg)); try done.
    + apply HDa. lia.
    + exists shape, n. repeat split; [done|done|lia|lia].
    + exists (s'', r''). split; [exact E|]. exists g. split; [done|]. intros p [->|(j & Hj & ->)]; apply HDg; [by right; left|].
      destruct (decide (j = k)) as [->|Hne]; [by left|]. right. right. exists j. split; [lia|done].
  - cbn [Nat.add] in VT2. rewrite E2. cbn [mbind option_bind].
    apply (remember_step f s a o0 r2 s2 Ha HP Hnt). destruct VT2 as (g & STg & HDg). exists g. split; [done|].
    intros p [Hop Hp]. apply HDg. destruct p as [x|x i|m]; cbn in Hop; [left; congruence| |done]. injection Hop as ->.
    destruct (Hp f HP) as [_ (ox & Hox & sh & k & Hsh' & Hk & Hr)]. rewrite Ha in Hox. injection Hox as <-.
    rewrite Hsh in Hsh'. injection Hsh' as <-. rewrite Hn in Hk. injection Hk as <-.
    right. exists (i - base)%nat. split; [lia|]. f_equal. lia.
Qed.

(** ** The recursion *)

Lemma recursion_ok fuel : slot_ok fuel /\ object_ok fuel.
Proof.
  induction fuel as [|fuel [IHs IHo]]; [split; intros ?; intros; lia|].
  split; [by apply slot_step|by apply object_step].
Qed.
End Graph.
