(* ===== verification/ScavengerRoots.v ===== *)
(** * ScavengerRoots

    The roots of a collection.  [root_cells] lists the cells a collection
    visits, in the order it visits them, with what each may hold; [during] is
    the state of a collection that has visited some of them, and each walk of
    the scavenger is shown to take it from one such state to the next. *)
From S2P Require Import Prelude Endian Tagging.
From stdpp Require Import gmap.
From S2P Require Import FreeList HeapPage ObjectMemory Scavenger ScavengerProofs.
#[local] Open Scope Z_scope.

(** ** The recursion does not touch the young-root flag *)

Lemma for_up_kept {S} (P : S -> Prop) n i body (s s' : S) :
  (forall j t t', body j t = Some t' -> P t -> P t') -> for_up n i body s = Some s' -> P s -> P s'.
Proof.
  intros Hb. revert i s. induction n as [|n IH]; cbn; intros i s E HP; [by injection E as <-|].
  destruct (body i s) as [t|] eqn:Et; [|done]. cbn in E. eapply IH; [exact E|by eapply Hb].
Qed.

Lemma fmap_join {A B C} (k : B -> C) (g : A -> list B) l : k <$> mjoin (g <$> l) = mjoin ((fun x => k <$> g x) <$> l).
Proof.
  induction l as [|x l IH]; [done|].
  change (k <$> (g x ++ mjoin (g <$> l)) = (k <$> g x) ++ mjoin ((fun x => k <$> g x) <$> l)). by rewrite fmap_app, IH.
Qed.

Lemma join_join {A B} (g : A -> list (list B)) l : mjoin (mjoin (g <$> l)) = mjoin ((fun x => mjoin (g x)) <$> l).
Proof.
  induction l as [|x l IH]; [done|].
  change (mjoin (g x ++ mjoin (g <$> l)) = mjoin (g x) ++ mjoin ((fun x => mjoin (g x)) <$> l)). by rewrite join_app, IH.
Qed.

Section Flag.
Context `{Target} `{OldSpace}.
Abbreviation young := s_fiberHasYoungRoot.

Lemma write_young s p v s' : write_slot s p v = Some s' -> young s' = young s.
Proof. intros E. destruct p; cbn [write_slot] in E; unbind E; done. Qed.

Lemma promote_young s n b s' : promote s n = Some (b, s') -> young s' = young s.
Proof. unfold promote. intros E. unbind E; done. Qed.

Lemma allocate_young s n b s' : scavengerTryAllocate s n = Some (b, s') -> young s' = young s.
Proof. unfold scavengerTryAllocate. intros E. unbind E; done. Qed.

Lemma forward_young s a s' : forwardObject s a = Some s' -> young s' = young s.
Proof.
  unfold forwardObject. intros E. unbind E. cbn [set_mem young].
  match goal with E : (if _ then _ else _) = Some _ |- _ => unbind E end; [by eapply promote_young|by eapply allocate_young].
Qed.

Lemma recursion_young fuel :
  (forall s p t s', processPointer fuel s p = Some (t, s') -> young s' = young s) /\
  (forall s p t s', processTaggedPointer fuel s p = Some (t, s') -> young s' = young s) /\
  (forall s a s', iterateObject fuel s a = Some s' -> young s' = young s).
Proof.
  induction fuel as [|fuel (IHp & IHt & IHo)]; [done|]. split; [|split].
  - intros s p t s' E. rewrite processPointer_S in E. unbind E; subst; try done.
    + by eapply write_young.
    + etrans; [by eapply IHo|]. etrans; [by eapply write_young|]. by eapply forward_young.
  - intros s p t s' E. rewrite processTaggedPointer_S in E. unbind E; subst; try done.
    + by eapply write_young.
    + etrans; [by eapply IHo|]. etrans; [by eapply write_young|]. by eapply forward_young.
  - intros s a s' E. rewrite iterateObject_S in E. unbind E.
    all: match goal with E : for_up _ _ _ _ = Some (?s1, _) |- _ => assert (young s1 = young s) end;
      [match goal with E : for_up _ _ _ _ = Some _ |- _ => revert E end; apply IHp in E0|done]; intros E4.
    all: apply (for_up_kept (fun x => young (fst x) = young s)) in E4; [done| |done].
    all: intros j [t r1] [t' r'] Eb Et; cbn [fst] in *; unbind Eb; [|done].
    all: by etrans; [eapply IHt|].
Qed.
End Flag.

(** ** The roots *)

(** How a cell is visited:
    - [KHandle]: a handle, never null;
    - [KCode]: a field of a native code, perhaps null;
    - [KSite]: a pointer in an instruction, tagged or not;
    - [KExit]: the context an exit frame holds;
    - [KStack]: a stack slot, any value;
    - [KField]: a field of a fiber, any value;
    - [KHead]: the head of a chain or a context, perhaps 0;
    - [KHandler stack]: the head of the on:do: chain, after the cells of the
      stack were visited. *)
Inductive RootKind := KHandle | KCode | KSite | KExit | KStack | KField | KHead | KHandler (stack : list nat).
Abbreviation Root := (nat * RootKind)%type.

Definition frame_cells (fr : StackFrame) : option (list Root) :=
  slots ← mapped_slots fr;
  Some ((., KStack) <$> fr_args fr ++ slots).

Definition entry_cells (e : EntryStackFrame) : option (list Root) :=
  slot0 ← fr_slots (ef_exit e) !! 0%nat;
  l ← mapM frame_cells (ef_frames e);
  Some ((slot0, KExit) :: concat l).

Definition stack_cells (entryFrames : list EntryStackFrame) : option (list Root) := @concat _ <$> mapM entry_cells entryFrames.

Definition scope_cells (scopes : list (list nat)) : list Root := (., KHandle) <$> concat scopes.

Definition fiber_cells (f : Fiber) : option (list Root) :=
  let r := f_roots f in
  stack ← stack_cells (f_stackFrames r);
  Some ([(f_entryBlock f, KField); (f_process f, KField)] ++ stack ++
        [(f_exceptionHandler r, KHandler stack.*1); (f_unwindHandler r, KHead)] ++
        scope_cells (f_handleScopes r) ++ [(f_context r, KHead)]).

Definition mutator_cells (m : Mutator) : option (list Root) :=
  if negb (live m) then Some []
  else
    stack ← stack_cells (t_stackFrames m);
    Some (match currentFiber m with Some f => [(f_entryBlock f, KField); (f_process f, KField)] | None => [] end ++
          stack ++ scope_cells (t_handleScopes m) ++ [(t_context m, KHead)] ++
          match t_exceptionHandler m with Some n => [(n, KHandler stack.*1)] | None => [] end ++
          match t_unwindHandler m with Some n => [(n, KHead)] | None => [] end).

Definition code_cells (c : NativeCode) : list Root :=
  if n_free c then [] else ((., KCode) <$> n_pointers c) ++ ((., KSite) <$> n_sites c).

(** The dirty fibers that a collection scans. *)
Definition parked (r : Roots) : list Fiber := List.filter (fun f => negb (f_running f)) (default [] (r_sched r)).

Definition root_cells (r : Roots) : option (list Root) :=
  fibers ← mapM fiber_cells (parked r);
  mutators ← mapM mutator_cells (r_mutators r);
  Some (((., KHandle) <$> mjoin (t_handles <$> r_mutators r)) ++ concat fibers ++ concat mutators ++
        mjoin (code_cells <$> r_codes r) ++ ((., KSite) <$> mjoin (mjoin (t_codegenSites <$> r_mutators r)))).

Section Collection.
Context `{Target} `{OldSpace}.
Context (m0 : Memory) (c0 : list Z) (raw : nat -> bool) (env : Env).
Abbreviation inv := (inv m0 c0 raw).
Abbreviation stepped := (stepped m0 c0 raw).
Abbreviation slot_done := (slot_done m0 c0 raw).
Abbreviation object_done := (object_done m0 c0 raw).
Abbreviation target := (target raw).
Abbreviation quiet := (quiet raw).
Abbreviation young_edge := (young_edge m0 c0 raw).
Abbreviation young := s_fiberHasYoungRoot.

(** The handler [h] is found valid after the stack was visited: its context's
    frame is on that stack, and not both of them move. *)
Definition handler_ok (stack : list nat) (h : Z) : Prop :=
  exists o ctx oc frame fr n,
    m0 !! (h - 1) = Some o /\ in_vars m0 o HANDLER_CONTEXT /\ o_body o !! HANDLER_CONTEXT = Some (tagPtr ctx) /\
    m0 !! ctx = Some oc /\ o_body oc !! CONTEXT_FRAME = Some frame /\ frame <> 0 /\
    valueTypeOf frame VALUE_POINTER = false /\ e_frames env !! frame = Some fr /\
    fr_slots fr !! CONTEXT_SLOT = Some n /\ raw n = false /\ c0 !! n = Some (tagPtr ctx) /\ n ∈ stack /\
    (isNewObject (h - 1) = false \/ isNewObject ctx = false).

Definition kind_ok (n : nat) (v : Z) (k : RootKind) : Prop :=
  match k with
  | KHandle => raw n = true /\ v <> 0
  | KCode => raw n = true
  | KSite => raw n = negb (valueTypeOf v VALUE_POINTER) /\ v <> 0
  | KExit => raw n = false /\ valueTypeOf v VALUE_POINTER = true
  | KStack | KField => raw n = false
  | KHead => raw n = false /\ (v = 0 \/ valueTypeOf v VALUE_POINTER = true)
  | KHandler stack => raw n = false /\ (v = 0 \/ (valueTypeOf v VALUE_POINTER = true /\ handler_ok stack v))
  end.

Definition root_ok (c : Root) : Prop := exists v, c0 !! c.1 = Some v /\ cell_wf m0 c0 raw c.1 /\ kind_ok c.1 v c.2.

Context (WF : heap_wf m0).
Context (CW : forall n v, c0 !! n = Some v -> 0 <= v < 2 ^ 64).

(** [root] are the addresses the roots hold; [s1] is the state the evacuation
    starts from. *)
Context (root : Z -> Prop) (s1 : Scavenger).

(** Slots the collection may have changed: those of the remembered objects [Y]
    and the cells [X]. *)
Definition touched (Y : gset Z) (X : gset nat) (p : Slot) : Prop :=
  (exists n, p = Cell n /\ n ∈ X) \/ (exists a, a ∈ Y /\ slots_of m0 c0 a p).

(** The cells of [X] have been visited; if the flag is off those of [N] do not
    lead to young objects, and neither do those of [Q]. *)
Record during (f : gmap Z Z) (Y : gset Z) (X N Q : gset nat) (s : Scavenger) : Prop := {
  d_step : stepped ∅ s1 (touched Y X) (fun a => a ∈ Y) root f s;
  d_cells : forall n, n ∈ X -> slot_done f s (Cell n);
  d_objects : forall a, a ∈ Y -> object_done f s a;
  d_noted : young s = false -> forall n, n ∈ N -> quiet f s (Cell n);
  d_quiet : forall n, n ∈ Q -> quiet f s (Cell n);
  d_old : forall a, a ∈ Y -> is_Some (m0 !! a) /\ isNewObject a = false;
  d_range : forall n, n ∈ X -> is_Some (c0 !! n);
  d_cover : forall a b, is_Some (m0 !! a) -> isNewObject a = false -> a ∉ Y -> referent m0 c0 raw a b -> isNewObject b = false;
  d_sub : N ⊆ X /\ Q ⊆ X }.

Context (Hcells : s_cells s1 = c0).

(** The slots of an object hold what the heap promises. *)
Lemma target_known f p a v t : owner p = Some a -> valid m0 c0 f p -> read0 m0 c0 p = Some v -> target p v = Some t -> is_Some (m0 !! t).
Proof.
  destruct p as [x|x i|n]; cbn [owner valid read0]; intros [= ->] V Hr Ht.
  - destruct (m0 !! a) as [o|] eqn:Ho; [|done]. injection Hr as <-. rewrite (class_target _ _ WF a o Ho) in Ht. injection Ht as <-.
    apply (w_class _ _ _ (WF a o Ho)).
  - destruct V as [_ (o & Ho & Hi)]. rewrite Ho in Hr. cbn [mbind option_bind] in Hr. unfold ScavengerProofs.target in Ht. cbn [slot_raw] in Ht.
    destruct (valueTypeOf v VALUE_POINTER) eqn:E; [|done]. injection Ht as <-. by eapply (w_vars _ _ _ (WF a o Ho)).
Qed.

Lemma valid_reads f p a : owner p = Some a -> valid m0 c0 f p -> read0 m0 c0 p <> None.
Proof.
  destruct p as [x|x i|n]; cbn [owner valid read0]; intros [= ->] V.
  - destruct V as [[o ->] _]. done.
  - destruct V as [_ (o & Ho & sh & k & Hsh & Hk & Hi)]. rewrite Ho. cbn [mbind option_bind].
    destruct (w_shape _ _ _ (WF a o Ho)) as (sh' & k' & size & Hsh' & Hk' & Hl & _). rewrite Hsh in Hsh'. injection Hsh' as <-.
    rewrite Hk in Hk'. injection Hk' as <-. intros ?%lookup_ge_None. lia.
Qed.

Lemma during_inv f Y X N Q s : during f Y X N Q s -> inv f s.
Proof. intros D. exact (st_inv _ _ _ _ _ _ _ _ _ _ (d_step _ _ _ _ _ _ D)). Qed.

(** A cell that was not visited still holds what it held. *)
Lemma unvisited f Y X N Q s n : during f Y X N Q s -> n ∉ X -> is_Some (c0 !! n) -> s_cells s !! n = c0 !! n.
Proof.
  intros D Hn Hs. pose proof (st_kept _ _ _ _ _ _ _ _ _ _ (d_step _ _ _ _ _ _ D) (Cell n) Hs) as K. cbn in K.
  rewrite K, Hcells; [done|]. intros [(k & E & Hk)|(a & _ & E & _)]; [injection E as <-; done|done].
Qed.

(** The fuel at every call from the roots is enough. *)
Lemma depth_enough f s : inv f s -> (2 * base.size (pending m0 f) + 2 <= depth s)%nat.
Proof.
  intros I. unfold depth. assert (base.size (pending m0 f) <= base.size (s_mem s))%nat; [|lia].
  apply map_subseteq_size, map_subseteq_spec. intros a o Ha. unfold pending in Ha.
  apply map_lookup_filter_Some in Ha as [Ha [Hn Hf]]. pose proof (i_source _ _ _ _ _ I a o Ha Hn) as HS. by rewrite Hf in HS.
Qed.

(** One visited cell. *)
Lemma during_cell f Y X N Q s n x f' s' :
  during f Y X N Q s -> is_Some (c0 !! n) -> n ∉ X -> root x -> young s' = young s ->
  stepped f s (eq (Cell n)) (fun _ => False) (eq x) f' s' -> slot_done f' s' (Cell n) -> during f' Y ({[n]} ∪ X) N Q s'.
Proof.
  intros D Hs Hn Hx Hy ST Dn. pose proof D as [ST0 Dc Do Dnt Dq Dol Dr Dcv [DN DQ]].
  assert (forall k, k ∈ X -> Cell n <> Cell k) as Hne by (intros k Hk [= <-]; done).
  constructor.
  - eapply stepped_weaken; [eapply stepped_trans; [exact ST0|exact ST|by intros p <-|done]|..].
    + intros p [[(k & -> & Hk)|Hp]| <-]; [left; exists k; set_solver|by right|left; exists n; set_solver].
    + by intros a [Ha|[]].
    + intros y [Hy'| <-]; by eexists.
  - intros k [->%elem_of_singleton|Hk]%elem_of_union; [done|]. eapply done_later; [exact ST|by apply Dr|by apply Hne|by apply Dc].
  - intros a Ha. eapply object_later; [exact ST|by apply placed_old; apply Dol| |tauto|by apply Do]. intros p Ho <-. done.
  - rewrite Hy. intros Hyf k Hk. eapply quiet_later; [exact ST|apply Dr; set_solver|apply Hne; set_solver|by apply Dnt].
  - intros k Hk. eapply quiet_later; [exact ST|apply Dr; set_solver|apply Hne; set_solver|by apply Dq].
  - done.
  - intros k [->%elem_of_singleton|Hk]%elem_of_union; [done|by apply Dr].
  - done.
  - set_solver.
Qed.

(** A cell without a pointer needs no visit. *)
Lemma during_skip f Y X N Q s n v :
  during f Y X N Q s -> c0 !! n = Some v -> n ∉ X -> target (Cell n) v = None ->
  during f Y ({[n]} ∪ X) N Q s /\ quiet f s (Cell n).
Proof.
  intros D Hv Hn Ht. pose proof (unvisited _ _ _ _ _ _ n D Hn ltac:(by eexists)) as Hcur. rewrite Hv in Hcur.
  assert (slot_done f s (Cell n)) as Dn.
  { split.
    - intros w x Hw Hx. cbn in Hw. rewrite Hv in Hw. injection Hw as <-. congruence.
    - cbn [locate read_slot read0]. rewrite Hcur, Hv. cbn. f_equal. symmetry.
      unfold ScavengerProofs.target, update in *. destruct (slot_raw raw (Cell n)).
      + destruct (Z.eqb_spec v 0) as [->|]; [|done]. unfold move. destruct (f !! 0) eqn:E; [|done].
        by pose proof (inv_new _ _ _ _ _ 0 (during_inv _ _ _ _ _ _ D) ltac:(by eexists)).
      + destruct (valueTypeOf v VALUE_POINTER) eqn:E; [done|by apply movev_nonptr]. }
  destruct D as [ST0 Dc Do Dnt Dq Dol Dr Dcv [DN DQ]]. split.
  - constructor; try done.
    + eapply stepped_weaken; [exact ST0| |done|by intros; eexists].
      intros p [(k & -> & Hk)|Hp]; [left; exists k; set_solver|by right].
    + intros k [->%elem_of_singleton|Hk]%elem_of_union; [done|by apply Dc].
    + intros k [->%elem_of_singleton|Hk]%elem_of_union; [by eexists|by apply Dr].
    + set_solver.
  - intros w t Hw. cbn [locate read_slot] in Hw. rewrite Hcur in Hw. injection Hw as <-. congruence.
Qed.

Definition cell_root (n : nat) : Prop := forall v x, c0 !! n = Some v -> target (Cell n) v = Some x -> root x.

(** A cell with a pointer. *)
Lemma during_visit f Y X N Q s n v x :
  during f Y X N Q s -> c0 !! n = Some v -> n ∉ X -> cell_wf m0 c0 raw n -> cell_root n -> target (Cell n) v = Some x ->
  exists f' s', process raw (Cell n) (depth s) s (Cell n) = Some (move f' x, s') /\ during f' Y ({[n]} ∪ X) N Q s' /\
    s_cells s' !! n = Some (enc raw (Cell n) (move f' x)) /\ addr_ok (move f' x).
Proof.
  intros D Hv Hn Hw Hrt Ht. pose proof (during_inv _ _ _ _ _ _ D) as I. pose proof (depth_enough f s I) as Hd.
  destruct (proj1 (recursion_ok m0 c0 raw WF CW (depth s)) f s (Cell n) v x) as (f' & s' & E & ST & Dn);
    [done|by eexists|done|done|by eapply Hw|lia|].
  pose proof (move_addr _ _ _ WF _ _ x (st_inv _ _ _ _ _ _ _ _ _ _ ST) ltac:(by eapply Hw)) as Ha.
  exists f', s'. split; [done|]. split; [|split; [|done]].
  - eapply during_cell; [exact D|by eexists|done|by eapply Hrt| |exact ST|done].
    unfold process in E. destruct (recursion_young (depth s)) as (Hp & Htg & _). destruct (slot_raw raw (Cell n)); eauto.
  - destruct Dn as [_ Er]. cbn [locate read_slot read0] in Er. rewrite Er, Hv. cbn. by rewrite (update_enc _ _ _ _ x Ht Ha).
Qed.

Lemma stepped_young f s X Y R f' s' b : stepped f s X Y R f' s' -> stepped f s X Y R f' (set_young b s').
Proof. intros []. constructor; try done. destruct st_inv as [[]]. by constructor. Qed.

(** The flag: cleared before a fiber, set when a root is found to be young. *)
Lemma during_reset f Y X N Q s : during f Y X N Q s -> during f Y X ∅ Q (set_young false s).
Proof. intros []. constructor; try done; [by apply stepped_young|set_solver]. Qed.

Lemma during_keep f Y X N Q s : during f Y X N Q s -> young s = false -> during f Y X N (N ∪ Q) s.
Proof. intros [] Hy. constructor; try done; [|set_solver]. intros n [Hn|Hn]%elem_of_union; auto. Qed.

Lemma during_forget f Y X N Q s : during f Y X N Q s -> during f Y X ∅ Q s.
Proof. intros []. constructor; try done; set_solver. Qed.

Lemma during_note f Y X N Q s n (b : bool) :
  during f Y X N Q s -> n ∈ X -> (b = false -> quiet f s (Cell n)) ->
  during f Y X ({[n]} ∪ N) Q (if b then set_young true s else s).
Proof.
  intros D Hn Hb. pose proof D as []. destruct b; (constructor; try done; [..|set_solver]).
  - by apply stepped_young.
  - intros Hy k [->%elem_of_singleton|Hk]%elem_of_union; auto.
Qed.

Lemma noteYoungRoot_addr s y : addr_ok y -> noteYoungRoot s (y + 1) = Some (if isNewObject y then set_young true s else s).
Proof. intros Hy. unfold noteYoungRoot. by rewrite pointer_addr, asObject_addr by done. Qed.

Lemma quiet_enc f s n y : addr_ok y -> s_cells s !! n = Some (enc raw (Cell n) y) -> isNewObject y = false -> quiet f s (Cell n).
Proof. intros Hy Hc Hn v t Hv. cbn in Hv. rewrite Hc in Hv. injection Hv as <-. rewrite enc_target by done. by intros [= <-]. Qed.

(** A visit that notes what it finds. *)
Lemma visit_noted f Y X N Q s n v x :
  during f Y X N Q s -> c0 !! n = Some v -> n ∉ X -> cell_wf m0 c0 raw n -> cell_root n -> target (Cell n) v = Some x -> raw n = false ->
  exists f' s', ('(_, s) ← visitTagged s (Cell n); w ← s_cells s !! n; noteYoungRoot s w) = Some s' /\
    during f' Y ({[n]} ∪ X) ({[n]} ∪ N) Q s'.
Proof.
  intros D Hv Hn Hw Hrt Ht Hr. destruct (during_visit f Y X N Q s n v x) as (f' & s' & E & D' & Hc & Ha); try done.
  unfold process in E. cbn [slot_raw] in E. rewrite Hr in E. unfold visitTagged. rewrite E. cbn [mbind option_bind]. rewrite Hc.
  cbn [mbind option_bind]. unfold enc. cbn [slot_raw]. rewrite Hr, noteYoungRoot_addr by done.
  eexists f', _. split; [done|]. apply during_note; [done|set_solver|]. by apply quiet_enc.
Qed.

(** ** Visiting lists of cells *)

Record fresh (X : gset nat) (L : list Root) : Prop := {
  fr_ok : Forall root_ok L;
  fr_nodup : NoDup L.*1;
  fr_new : forall n, n ∈ L.*1 -> n ∉ X;
  fr_root : forall n, n ∈ L.*1 -> cell_root n }.

Definition cellset (L : list Root) : gset nat := list_to_set L.*1.

(** After the cells of [pre], the operation visits those of [L], and notes
    what they hold if [note] is set. *)
Definition ran (pre : gset nat) (op : Scavenger -> option Scavenger) (L : list Root) (note : bool) : Prop :=
  forall f Y X N Q s, pre ⊆ X -> fresh X L -> during f Y X N Q s ->
  exists f' s', op s = Some s' /\ during f' Y (cellset L ∪ X) (if note then cellset L ∪ N else N) Q s'.

Lemma fresh_app X L1 L2 : fresh X (L1 ++ L2) -> fresh X L1 /\ fresh (cellset L1 ∪ X) L2.
Proof.
  intros [Ho Hd Hn Hr]. rewrite fmap_app in *. apply Forall_app in Ho as [Ho1 Ho2]. apply NoDup_app in Hd as (Hd1 & Hd12 & Hd2).
  split; (constructor; try done).
  - intros n Hi. apply Hn, elem_of_app. by left.
  - intros n Hi. apply Hr, elem_of_app. by left.
  - intros n Hi [Hi'%elem_of_list_to_set|Hi']%elem_of_union; [by apply (Hd12 n)|].
    apply (Hn n); [apply elem_of_app; by right|done].
  - intros n Hi. apply Hr, elem_of_app. by right.
Qed.

Lemma cellset_app L1 L2 : cellset (L1 ++ L2) = cellset L1 ∪ cellset L2.
Proof. unfold cellset. by rewrite fmap_app, list_to_set_app_L. Qed.

Lemma ran_nil pre note : ran pre Some [] note.
Proof.
  intros f Y X N Q s _ _ D. exists f, s. split; [done|]. change (cellset []) with (∅ : gset nat).
  rewrite !(left_id_L ∅ (∪)). by destruct note.
Qed.

Lemma ran_seq pre op1 op2 L1 L2 note :
  ran pre op1 L1 note -> ran (cellset L1 ∪ pre) op2 L2 note -> ran pre (fun s => s ← op1 s; op2 s) (L1 ++ L2) note.
Proof.
  intros R1 R2 f Y X N Q s Hp [F1 F2]%fresh_app D. destruct (R1 f Y X N Q s Hp F1 D) as (f1 & s' & E1 & D1). rewrite E1. cbn [mbind option_bind].
  destruct (R2 f1 Y _ _ _ s' ltac:(by apply union_mono_l) F2 D1) as (f2 & s2 & E2 & D2). exists f2, s2. split; [done|].
  rewrite cellset_app. replace (cellset L1 ∪ cellset L2 ∪ X) with (cellset L2 ∪ (cellset L1 ∪ X)) by set_solver.
  destruct note; [|done]. by replace (cellset L1 ∪ cellset L2 ∪ N) with (cellset L2 ∪ (cellset L1 ∪ N)) by set_solver.
Qed.

Lemma ran_eq pre op op' L note : (forall s, op s = op' s) -> ran pre op' L note -> ran pre op L note.
Proof. intros E R f Y X N Q s Hp F D. rewrite E. exact (R f Y X N Q s Hp F D). Qed.

Lemma ran_pre pre pre' op L note : pre ⊆ pre' -> ran pre op L note -> ran pre' op L note.
Proof. intros Hs R f Y X N Q s Hp. refine (R f Y X N Q s _). by etrans. Qed.

Lemma during_note_less f Y X N N' Q s : during f Y X N Q s -> N' ⊆ N -> during f Y X N' Q s.
Proof. intros [] Hs. constructor; try done; [|set_solver]. intros Hy n Hn. by apply d_noted0, Hs. Qed.

Lemma ran_forget pre op L : ran pre op L true -> ran pre op L false.
Proof.
  intros R f Y X N Q s Hp F D. destruct (R f Y X N Q s Hp F D) as (f' & s' & E & D'). exists f', s'. split; [done|].
  eapply during_note_less; [exact D'|set_solver].
Qed.

Lemma ran_fold {A} pre (op : Scavenger -> A -> option Scavenger) l Ls note :
  Forall2 (fun x L => ran pre (fun s => op s x) L note) l Ls -> ran pre (fun s => fold_cells op s l) (concat Ls) note.
Proof.
  induction 1 as [|x L l Ls Hx Hl IH]; [apply ran_nil|]. cbn [concat].
  apply (ran_seq pre (fun s => op s x) (fun s => fold_cells op s l)); [done|]. eapply ran_pre; [|exact IH]. set_solver.
Qed.

(** The same where the cells are computed by a function that may fail. *)
Lemma ran_mapM {A} pre (op : Scavenger -> A -> option Scavenger) (g : A -> option (list Root)) l Ls note :
  (forall x L, g x = Some L -> ran pre (fun s => op s x) L note) -> mapM g l = Some Ls ->
  ran pre (fun s => fold_cells op s l) (concat Ls) note.
Proof. intros Hg Hl. apply ran_fold. apply mapM_Some in Hl. eapply Forall2_impl; [exact Hl|]. intros x L. apply Hg. Qed.

(** The same for a list of cells of one kind. *)
Lemma ran_cells pre (op : Scavenger -> nat -> option Scavenger) k l note :
  (forall n, ran pre (fun s => op s n) [(n, k)] note) -> ran pre (fun s => fold_cells op s l) ((., k) <$> l) note.
Proof.
  intros Hn. replace ((., k) <$> l) with (concat ((fun n => [(n, k)]) <$> l)).
  - apply ran_fold. rewrite Forall2_fmap_r. apply Forall_Forall2_diag, Forall_true. intros n. apply Hn.
  - induction l as [|n l IH]; cbn in *; [done|by rewrite IH].
Qed.

(** One cell. *)
Lemma ran_cell pre op n k (note : bool) :
  (forall f Y X N Q s v, pre ⊆ X -> during f Y X N Q s -> c0 !! n = Some v -> n ∉ X -> cell_wf m0 c0 raw n -> cell_root n ->
    kind_ok n v k -> s_cells s !! n = Some v ->
    exists f' s', op s = Some s' /\ during f' Y ({[n]} ∪ X) (if note then {[n]} ∪ N else N) Q s') ->
  ran pre op [(n, k)] note.
Proof.
  intros Hop f Y X N Q s Hp [Ho _ Hn Hr] D. rewrite Forall_singleton in Ho. destruct Ho as (v & Hv & Hw & Hk). cbn [fst snd] in *.
  assert (n ∉ X) as HnX by (apply Hn; by left). assert (cell_root n) as HrX by (apply Hr; by left).
  unfold cellset. cbn. rewrite !(right_id_L ∅ (∪)). apply (Hop f Y X N Q s v); try done.
  by rewrite (unvisited _ _ _ _ _ _ n D HnX ltac:(by eexists)).
Qed.

(** ** Cells that are visited as they are *)

Lemma ran_handle pre n : ran pre (fun s => visitHandle s n) [(n, KHandle)] false.
Proof.
  apply ran_cell. intros f Y X N Q s v _ D Hv Hn Hw Hr [Hk Hnz] _. unfold visitHandle, visit.
  assert (target (Cell n) v = Some v) as Ht by (unfold ScavengerProofs.target; cbn [slot_raw]; rewrite Hk; by destruct (Z.eqb_spec v 0)).
  destruct (during_visit f Y X N Q s n v v) as (f' & s' & E & D' & _); try done. unfold process in E. cbn [slot_raw] in E. rewrite Hk in E.
  rewrite E. by exists f', s'.
Qed.

Lemma ran_scope_handle pre n : ran pre (fun s => visitScopeHandle s n) [(n, KHandle)] true.
Proof.
  apply ran_cell. intros f Y X N Q s v _ D Hv Hn Hw Hr [Hk Hnz] _. unfold visitScopeHandle, visit.
  assert (target (Cell n) v = Some v) as Ht by (unfold ScavengerProofs.target; cbn [slot_raw]; rewrite Hk; by destruct (Z.eqb_spec v 0)).
  destruct (during_visit f Y X N Q s n v v) as (f' & s' & E & D' & Hc & Ha); try done. unfold process in E. cbn [slot_raw] in E. rewrite Hk in E.
  rewrite E. cbn [mbind option_bind]. eexists f', _. split; [done|]. apply during_note; [done|set_solver|]. by apply quiet_enc.
Qed.

Lemma ran_code_field pre n : ran pre (fun s => visitCodeField s n) [(n, KCode)] false.
Proof.
  apply ran_cell. intros f Y X N Q s v _ D Hv Hn Hw Hr Hk Hc. unfold visitCodeField. rewrite Hc. cbn [mbind option_bind].
  destruct (Z.eqb_spec v 0) as [->|Hnz].
  - exists f, s. split; [done|]. apply (during_skip _ _ _ _ _ _ _ 0); try done. unfold ScavengerProofs.target. cbn [slot_raw]. by rewrite Hk.
  - unfold visitHandle, visit.
    assert (target (Cell n) v = Some v) as Ht by (unfold ScavengerProofs.target; cbn [slot_raw]; rewrite Hk; by destruct (Z.eqb_spec v 0)).
    destruct (during_visit f Y X N Q s n v v) as (f' & s' & E & D' & _); try done. unfold process in E. cbn [slot_raw] in E. rewrite Hk in E.
    rewrite E. by exists f', s'.
Qed.

Lemma pointer_target n v : raw n = false -> target (Cell n) v = if valueTypeOf v VALUE_POINTER then Some (v - 1) else None.
Proof. intros Hr. unfold ScavengerProofs.target. cbn [slot_raw]. by rewrite Hr. Qed.

Lemma ran_site pre n : ran pre (fun s => visitSite s n) [(n, KSite)] false.
Proof.
  apply ran_cell. intros f Y X N Q s v _ D Hv Hn Hw Hr [Hk Hnz] Hc. unfold visitSite. rewrite Hc. cbn [mbind option_bind].
  assert (exists x, target (Cell n) v = Some x) as [x Ht].
  { unfold ScavengerProofs.target. cbn [slot_raw]. rewrite Hk. destruct (valueTypeOf v VALUE_POINTER); cbn; [by eexists|].
    destruct (Z.eqb_spec v 0); [done|by eexists]. }
  destruct (during_visit f Y X N Q s n v x) as (f' & s' & E & D' & _); try done. unfold process in E. cbn [slot_raw] in E. rewrite Hk in E.
  exists f', s'. unfold visit, visitTagged. destruct (valueTypeOf v VALUE_POINTER); cbn [negb] in E; by rewrite E.
Qed.

Lemma ran_field pre n : ran pre (fun s => visitField s n) [(n, KField)] true.
Proof.
  apply ran_cell. intros f Y X N Q s v _ D Hv Hn Hw Hr Hk Hc. cbn in Hk. unfold visitField. rewrite Hc. cbn [mbind option_bind].
  pose proof (pointer_target n v Hk) as Ht. destruct (valueTypeOf v VALUE_POINTER).
  - by apply (visit_noted f Y X N Q s n v (v - 1)).
  - destruct (during_skip _ _ _ _ _ _ n v D) as [D' HQ]; try done. exists f, s. split; [done|].
    apply (during_note f Y _ N Q s n false); [done|set_solver|done].
Qed.

Lemma ran_exit pre n :
  ran pre (fun s => '(_, s) ← visitTagged s (Cell n); v ← s_cells s !! n; noteYoungRoot s v) [(n, KExit)] true.
Proof.
  apply ran_cell. intros f Y X N Q s v _ D Hv Hn Hw Hr [Hk Hp] Hc. pose proof (pointer_target n v Hk) as Ht. rewrite Hp in Ht.
  by apply (visit_noted f Y X N Q s n v (v - 1)).
Qed.

Lemma zero_not_pointer : valueTypeOf 0 VALUE_POINTER = false.
Proof. done. Qed.

Lemma ran_unwind pre n : ran pre (fun s => iterateUnwindHandlerSlot s n) [(n, KHead)] true.
Proof.
  apply ran_cell. intros f Y X N Q s v _ D Hv Hn Hw Hr [Hk Hp] Hc. unfold iterateUnwindHandlerSlot. rewrite Hc. cbn [mbind option_bind].
  pose proof (pointer_target n v Hk) as Ht. destruct (Z.eqb_spec v 0) as [->|Hnz].
  - destruct (during_skip _ _ _ _ _ _ n 0 D) as [D' HQ]; try done. exists f, s. split; [done|].
    apply (during_note f Y _ N Q s n false); [done|set_solver|done].
  - destruct Hp as [|Hp]; [done|]. rewrite Hp in Ht. by apply (visit_noted f Y X N Q s n v (v - 1)).
Qed.

(** [if (context != 0) processTaggedPointer(&context);] *)
Lemma ran_context pre n :
  ran pre (fun s => v ← s_cells s !! n; if v =? 0 then Some s else '(_, s) ← visitTagged s (Cell n); Some s) [(n, KHead)] false.
Proof.
  apply ran_cell. intros f Y X N Q s v _ D Hv Hn Hw Hr [Hk Hp] Hc. rewrite Hc. cbn [mbind option_bind].
  pose proof (pointer_target n v Hk) as Ht. destruct (Z.eqb_spec v 0) as [->|Hnz].
  - exists f, s. split; [done|]. by apply (during_skip _ _ _ _ _ _ n 0).
  - destruct Hp as [|Hp]; [done|]. rewrite Hp in Ht. destruct (during_visit f Y X N Q s n v (v - 1)) as (f' & s' & E & D' & _); try done.
    unfold process in E. cbn [slot_raw] in E. rewrite Hk in E. unfold visitTagged. rewrite E. by exists f', s'.
Qed.

(** ** Stack slots *)

Context (Hto : s_toSpace s1 mod 8 = 0).

(** The check of a stack slot strips the space bit of a class before it asks
    whether the class is in a semispace; that is harmless if the classes of
    young objects and their own classes are old, or if the destination follows
    the source and none of them is at the start of the source. *)
Context (Hmeta : (s_toSpace s1 + s_size s1 = s_fromSpace s1 /\
  forall a o, m0 !! a = Some o -> isNewObject a = true ->
    o_class o <> s_toSpace s1 /\ forall c, m0 !! o_class o = Some c -> o_class c <> s_toSpace s1) \/
  forall a o, m0 !! a = Some o -> isNewObject a = true ->
    isNewObject (o_class o) = false /\ forall c, m0 !! o_class o = Some c -> isNewObject (o_class c) = false).

Lemma strip_space a : addr_ok a -> Z.ldiff a SPACE_TAG = (if isNewObject a then a - 8 else a) /\ Z.land (Z.ldiff a SPACE_TAG) (HEAP_OBJECT_ALIGN - 1) = 0.
Proof.
  intros Ha. rewrite (isNew_mod a Ha). destruct Ha as [Hr Hm].
  assert (Z.ldiff a SPACE_TAG = a - Z.land a 8) as E.
  { unfold SPACE_TAG. rewrite Z.sub_nocarry_ldiff; [|].
    - apply Z.bits_inj'. intros i Hi. rewrite !Z.ldiff_spec, Z.land_spec. by destruct (Z.testbit a i), (Z.testbit 8 i).
    - apply Z.bits_inj'. intros i Hi. rewrite Z.ldiff_spec, Z.land_spec, Z.bits_0. by destruct (Z.testbit a i), (Z.testbit 8 i). }
  assert (Z.land a 8 = if a mod 16 =? 8 then 8 else 0) as EL.
  { pose proof (isNew_mod a (conj Hr Hm)) as HN. unfold isNewObject, NEW_SPACE_TAG, SPACE_TAG in HN.
    change 8 with (2 ^ 3) in HN |- *. rewrite land_pow2 in * by lia. change (2 ^ 3) with 8 in *. rewrite <- HN.
    by destruct (Z.testbit a 3). }
  rewrite E, EL. unfold HEAP_OBJECT_ALIGN. change (16 - 1) with (Z.ones 4). rewrite Z.land_ones by lia. change (2 ^ 4) with 16.
  assert (a mod 16 = 0 \/ a mod 16 = 8) as [E0|E0].
  { change 16 with (8 * 2). rewrite (Z.rem_mul_r a 8 2), Hm by lia. pose proof (Z.mod_pos_bound (a / 8) 2). lia. }
  - rewrite E0. cbn [Z.eqb]. rewrite Z.sub_0_r. by split.
  - rewrite E0. cbn [Z.eqb Pos.eqb]. split; [done|]. rewrite Zminus_mod, E0. done.
Qed.

Lemma same_start f Y X N Q s : during f Y X N Q s -> s_fromSpace s = s_fromSpace s1 /\ s_toSpace s = s_toSpace s1 /\ s_size s = s_size s1.
Proof. intros D. by destruct (st_same _ _ _ _ _ _ _ _ _ _ (d_step _ _ _ _ _ _ D)) as (? & ? & ? & _). Qed.

Lemma old_included f s b : inv f s -> is_Some (s_mem s !! b) -> isNewObject b = false -> old_includes (s_old s) b = true.
Proof. intros I Hb Hn. by apply old_includes_ok, (i_old _ _ _ _ _ I). Qed.

Lemma mem_original f s x : inv f s -> is_Some (m0 !! x) -> is_Some (s_mem s !! x).
Proof. intros I Hx. destruct (s_mem s !! x) eqn:E; [by eexists|]. rewrite (mem_known _ _ _ _ _ _ I E) in Hx. by destruct Hx. Qed.

(** The address of a class, before or after it moved. *)
Lemma plausible_original f Y X N Q s x : during f Y X N Q s -> is_Some (m0 !! x) ->
  (isNewObject x = true -> x <> s_toSpace s1) -> plausibleClass s x = true.
Proof.
  intros D Hx Hx0. pose proof (during_inv _ _ _ _ _ _ D) as I. destruct (same_start _ _ _ _ _ _ D) as (E1 & E2 & E3).
  pose proof Hx as [o Ho]. pose proof (w_addr _ _ _ (WF x o Ho)) as Ha. destruct (strip_space x Ha) as [Es El].
  unfold plausibleClass. rewrite El, Z.eqb_refl, Es. cbn [andb]. unfold ptrInHeap. destruct (isNewObject x) eqn:Hn.
  - destruct (sp_source _ _ (i_spaces _ _ _ _ _ I) x Hx Hn) as [Hl Hu]. specialize (Hx0 eq_refl). destruct Ha as [_ Ha8].
    rewrite E2, E3 in *. assert (s_toSpace s1 <= x - 8) as Hl'.
    { pose proof (Z.div_mod x 8 ltac:(lia)). pose proof (Z.div_mod (s_toSpace s1) 8 ltac:(lia)). lia. }
    rewrite (proj2 (Z.leb_le _ _) Hl'), (proj2 (Z.leb_le (x - 8) _)) by lia. apply orb_true_r.
  - rewrite (old_included f s x I) by (done || by eapply mem_original). done.
Qed.

Lemma plausible_moved f Y X N Q s x : during f Y X N Q s -> is_Some (m0 !! x) -> placed m0 f x ->
  (isNewObject x = true -> x <> s_toSpace s1) -> (s_toSpace s1 + s_size s1 = s_fromSpace s1 \/ isNewObject x = false) -> plausibleClass s (move f x) = true.
Proof.
  intros D Hx HP Hx0 Hu. pose proof (during_inv _ _ _ _ _ _ D) as I. destruct (f !! x) as [b|] eqn:Hf.
  2: { replace (move f x) with x by (unfold move; by rewrite Hf). by eapply plausible_original. }
  destruct (i_map _ _ _ _ _ I x b Hf) as (_ & Hn & _ & Ha & Hd). destruct Hu as [Hu|Hu]; [|congruence].
  destruct (same_start _ _ _ _ _ _ D) as (E1 & E2 & E3). destruct (strip_space b Ha) as [Es El].
  replace (move f x) with b by (unfold move; by rewrite Hf). unfold plausibleClass. rewrite El, Z.eqb_refl, Es. cbn [andb].
  unfold ptrInHeap. destruct (isNewObject b) eqn:Hnb.
  - specialize (Hd Hnb). assert (scavengerIncludes s (b - 8) || ((s_toSpace s <=? b - 8) && (b - 8 <=? s_toSpace s + s_size s)) = true) as HI.
    { pose proof (isNew_mod b Ha) as Hm. rewrite Hnb in Hm. symmetry in Hm. apply Z.eqb_eq in Hm.
      destruct (sp_from _ _ (i_spaces _ _ _ _ _ I)) as [Hf0 Hfm].
      destruct (sp_top _ _ (i_spaces _ _ _ _ _ I)) as [Ht Htm]. pose proof (lor_new_le (s_fromSpace s)) as Hbase.
      destruct (decide (b = Z.lor (s_fromSpace s) NEW_SPACE_TAG)) as [->|Hne].
      - destruct (sp_end _ _ (i_spaces _ _ _ _ _ I)) as [He _].
        pose proof (Z.div_mod (s_top s) 16 ltac:(lia)). pose proof (Z.div_mod (Z.lor (s_fromSpace s) NEW_SPACE_TAG) 16 ltac:(lia)).
        rewrite E2, E3, E1 in *. apply orb_true_intro. right. rewrite (proj2 (Z.leb_le _ _)), (proj2 (Z.leb_le _ _)) by lia. done.
      - pose proof (lor_new_mod _ (sp_from _ _ (i_spaces _ _ _ _ _ I))) as Hbm. set (b0 := Z.lor _ _) in *. assert (b0 <= b - 8).
        { pose proof (Z.div_mod b 16 ltac:(lia)). pose proof (Z.div_mod b0 16 ltac:(lia)). lia. }
        unfold scavengerIncludes.
        rewrite (proj2 (Z.leb_le _ _)), (proj2 (Z.ltb_lt _ _)) by lia. done. }
    rewrite <- orb_assoc. rewrite HI. apply orb_true_r.
  - destruct Hx as [o Ho]. destruct (i_placed _ _ _ _ _ I x o Ho HP) as (o' & Eo & _). unfold move in Eo. rewrite Hf in Eo. cbn in Eo.
    rewrite (old_included f s b I) by (done || by eexists). done.
Qed.

Lemma align_bound v B : 0 <= v < 2 ^ 64 -> align v HEAP_OBJECT_ALIGN = B -> 16 <= B -> 0 < v <= B.
Proof.
  intros Hv E HB. destruct (Z.lt_ge_cases (v + 15) (2 ^ 64)) as [Hlt|Hge].
  - unfold HEAP_OBJECT_ALIGN in E. change 16 with (2 ^ 4) in E. rewrite align_pow2 in E by lia. change (2 ^ 4) with 16 in E.
    pose proof (Z.div_mod (v + 16 - 1) 16 ltac:(lia)). pose proof (Z.mod_pos_bound (v + 16 - 1) 16 ltac:(lia)). lia.
  - exfalso. unfold align, HEAP_OBJECT_ALIGN in E.
    assert (u64 (v + (16 - 1)) = v + 15 - 2 ^ 64) as Eu.
    { unfold u64. rewrite <- (Z.mod_unique (v + (16 - 1)) (2 ^ 64) 1 (v + 15 - 2 ^ 64)); lia. }
    rewrite Eu in E. replace (v + 15 - 2 ^ 64) with (Z.land (v + 15 - 2 ^ 64) (Z.ones 4)) in E
      by (rewrite Z.land_ones by lia; apply Z.mod_small; lia).
    rewrite <- Z.land_assoc in E. change (Z.land (Z.ones 4) (u64 (- (16)))) with 0 in E. rewrite Z.land_0_r in E. lia.
Qed.

(** Neither the class of a young object nor its class is at the start of the source. *)
Lemma class_past_start x o c : m0 !! x = Some o -> isNewObject x = true -> m0 !! o_class o = Some c ->
  (isNewObject (o_class o) = true -> o_class o <> s_toSpace s1) /\ (isNewObject (o_class c) = true -> o_class c <> s_toSpace s1).
Proof. intros Hx Hn Hc. destruct Hmeta as [[_ Hm]|Hm]; destruct (Hm x o Hx Hn) as [H1 H2]; specialize (H2 c Hc); split; congruence. Qed.

(** An object that was not copied passes the check. *)
Lemma plausible_source f Y X N Q s x o0 : during f Y X N Q s -> m0 !! x = Some o0 -> isNewObject x = true -> f !! x = None ->
  plausibleObject s x = Some true.
Proof.
  intros D Hx Hn Hf. pose proof (during_inv _ _ _ _ _ _ D) as I. pose proof (WF x o0 Hx) as W.
  pose proof (i_source _ _ _ _ _ I x o0 Hx Hn) as HS. rewrite Hf in HS.
  unfold plausibleObject. rewrite (proj2 (strip_space x (w_addr _ _ _ W))), Z.eqb_refl, HS. cbn [negb mbind option_bind].
  destruct (w_class _ _ _ W) as [c Hc]. destruct (class_past_start x o0 c Hx Hn Hc) as [Hp1 Hp2].
  rewrite (plausible_original _ _ _ _ _ _ _ D (w_class _ _ _ W) Hp1). cbn [negb]. destruct (w_class _ _ _ (WF _ _ Hc)) as [cc Hcc].
  assert (exists c', s_mem s !! o_class o0 = Some c' /\ plausibleClass s (o_class c') = true) as (c' & Ec & Hpc).
  { destruct (isNewObject (o_class o0)) eqn:Hcn.
    - destruct Hmeta as [[Hu _]|Hm]; [|by destruct (Hm x o0 Hx Hn); congruence].
      pose proof (i_source _ _ _ _ _ I _ c Hc Hcn) as HSc. destruct (f !! o_class o0) as [b|] eqn:Hfc.
      + destruct HSc as (o & Eo & <- & _). exists o. split; [done|].
        replace (o_class o) with (move f (o_class o0)) by (unfold move; by rewrite Hfc).
        eapply plausible_moved; [exact D|by eexists|split; [by eexists|intros _; by eexists]|intros _; by apply Hp1|by left].
      + exists c. split; [done|]. eapply plausible_original; [exact D|by eexists|done].
    - assert (placed m0 f (o_class o0)) as HP by (apply placed_old; [by eexists|done]).
      destruct (i_placed _ _ _ _ _ I _ c Hc HP) as (o & Eo & S).
      assert (move f (o_class o0) = o_class o0) as Em.
      { unfold move. destruct (f !! o_class o0) eqn:E; [|done]. destruct (i_map _ _ _ _ _ I _ _ E) as (_ & ? & _). congruence. }
      rewrite Em in Eo. exists o. split; [done|]. destruct (sm_class _ _ _ _ S) as [->| ->]; [eapply plausible_original; [exact D|by eexists|done]|].
      assert (f !! o_class c = None \/ is_Some (f !! o_class c)) as [E|E] by (destruct (f !! o_class c); eauto).
      + replace (move f (o_class c)) with (o_class c) by (unfold move; by rewrite E). eapply plausible_original; [exact D|by eexists|done].
      + eapply plausible_moved; [exact D|by eexists|by split; [by eexists|intros _]|done|].
        destruct Hmeta as [[Hu _]|Hm]; [by left|right]. by apply (Hm x o0 Hx Hn). }
  rewrite Ec. cbn [mbind option_bind]. rewrite Hpc. cbn [negb].
  destruct (w_shape _ _ _ W) as (shape & k & size & Hsh & _ & _ & Hsz & Hal).
  assert (computeRawObjectSize (s_mem s) o0 = Some size) as ->.
  { unfold computeRawObjectSize in *. by rewrite (shape_kept _ _ _ WF f s x o0 I Hx). }
  cbn [mbind option_bind]. f_equal.
  assert (0 <= size < 2 ^ 64) as Hsr.
  { unfold computeRawObjectSize in Hsz. rewrite Hsh in Hsz. cbn [mbind option_bind] in Hsz.
    destruct (rawObjectSize shape o0); [|done]. injection Hsz as <-. unfold computeInstanceSize, u64. apply Z.mod_pos_bound. lia. }
  destruct (align_bound size _ Hsr Hal) as [H1 H2]; [unfold HEADER_SIZE; lia|]. fold (bytes_of o0) in H2.
  pose proof (i_room _ _ _ _ _ I) as HR. rewrite (bytes_delete (pending m0 f) x o0) in HR by by apply pending_lookup.
  pose proof (bytes_nonneg (delete x (pending m0 f))). destruct (sp_top _ _ (i_spaces _ _ _ _ _ I)) as [Ht _].
  destruct (sp_end _ _ (i_spaces _ _ _ _ _ I)) as [He _]. pose proof (lor_new_le (s_fromSpace s)).
  rewrite (proj2 (Z.ltb_lt _ _)), (proj2 (Z.leb_le _ _)) by lia. done.
Qed.

Lemma ran_stack pre n : ran pre (fun s => visitStackCell env s n) [(n, KStack)] true.
Proof.
  apply ran_cell. intros f Y X N Q s v _ D Hv Hn Hw Hr Hk Hc. cbn in Hk. unfold visitStackCell. rewrite Hc. cbn [mbind option_bind].
  pose proof (pointer_target n v Hk) as Ht. destruct (valueTypeOf v VALUE_POINTER) eqn:Hp.
  2: { destruct (during_skip _ _ _ _ _ _ n v D) as [D' HQ]; try done. exists f, s. split; [done|].
    apply (during_note f Y _ N Q s n false); [done|set_solver|done]. }
  destruct (Hw v (v - 1) Hv Ht) as [o0 Ho]. pose proof (w_addr _ _ _ (WF _ _ Ho)) as Ha. pose proof (during_inv _ _ _ _ _ _ D) as I.
  destruct (visit_noted f Y X N Q s n v (v - 1)) as (f' & s' & E & D'); try done. exists f', s'. split; [|done].
  unfold scavengeStackSlot. rewrite Hc. cbn [mbind option_bind]. set (x := v - 1) in *. replace v with (x + 1) by lia.
  rewrite asObject_addr by done. cbn [mbind option_bind]. change (Z.land x SPACE_TAG =? OLD_SPACE_TAG) with (isOldObject x).
  rewrite isOld_negb, negb_involutive. destruct (isNewObject x) eqn:Hnx; [|exact E]. cbn [andb].
  destruct (sp_source _ _ (i_spaces _ _ _ _ _ I) x ltac:(by eexists) Hnx) as [Hl Hu].
  rewrite (proj2 (Z.leb_le _ _) Hl), (proj2 (Z.leb_le _ _) Hu). cbn [andb negb].
  pose proof (i_source _ _ _ _ _ I x o0 Ho Hnx) as HS. destruct (f !! x) as [b|] eqn:Hf.
  - destruct HS as (o & -> & Eb & Hfw & _). cbn [mbind option_bind]. rewrite Hfw, Eb.
    destruct (i_map _ _ _ _ _ I x b Hf) as (_ & _ & _ & _ & Hd).
    assert (isOldObject b || ((s_fromSpace s <=? b) && (b <? s_top s)) = true) as ->; [|exact E].
    rewrite isOld_negb. destruct (isNewObject b) eqn:Hnb; [|done]. cbn [negb orb]. specialize (Hd Hnb). pose proof (lor_new_le (s_fromSpace s)).
    rewrite (proj2 (Z.leb_le _ _)), (proj2 (Z.ltb_lt _ _)) by lia. done.
  - rewrite HS. cbn [mbind option_bind]. rewrite (proj1 (w_tags _ _ _ (WF _ _ Ho))), (plausible_source _ _ _ _ _ _ _ _ D Ho Hnx Hf). exact E.
Qed.

(** ** Handlers *)

(** An old object that was not remembered has nothing to redirect. *)
Lemma old_done f Y X N Q s a : during f Y X N Q s -> is_Some (m0 !! a) -> isNewObject a = false -> object_done f s a.
Proof.
  intros D Ha Hn. destruct (decide (a ∈ Y)) as [HY|HY]; [by apply (d_objects _ _ _ _ _ _ D)|].
  pose proof (during_inv _ _ _ _ _ _ D) as I. pose proof (placed_old _ f a Ha Hn) as HP.
  assert (forall p v t, owner p = Some a -> valid m0 c0 f p -> read0 m0 c0 p = Some v -> target p v = Some t ->
    isNewObject t = false /\ is_Some (m0 !! t) /\ move f t = t) as Hold.
  { intros p v t Ho V Hr Ht. assert (isNewObject t = false) as Htn.
    { apply (d_cover _ _ _ _ _ _ D a t Ha Hn HY). exists p, v. split; [|done]. split; [done|]. intros g Hg. by eapply valid_same. }
    split; [done|]. split; [by eapply target_known|]. unfold move. destruct (f !! t) eqn:E; [|done].
    destruct (i_map _ _ _ _ _ I _ _ E) as (_ & ? & _). congruence. }
  assert (forall p v, owner p = Some a -> valid m0 c0 f p -> read0 m0 c0 p = Some v -> read_slot s (locate f p) = Some v /\ update raw f p v = v) as Hcur.
  { intros p v Ho V Hr. assert (update raw f p v = v) as Eu; [|by destruct (slot_cur _ _ _ f s p v I V Hr) as [->| ->]; rewrite ?Eu].
    destruct (target p v) as [t|] eqn:Ht.
    - destruct (Hold p v t Ho V Hr Ht) as (_ & [ot Hot] & Em). rewrite (update_enc _ _ _ _ t Ht), Em by (rewrite Em; apply (w_addr _ _ _ (WF _ _ Hot))).
      symmetry. by apply (target_enc raw).
    - unfold update, ScavengerProofs.target in *. destruct (slot_raw raw p) eqn:Er; [|destruct (valueTypeOf v VALUE_POINTER) eqn:E; [done|by apply movev_nonptr]].
      destruct (Z.eqb_spec v 0) as [->|]; [|done]. unfold move. destruct (f !! 0) eqn:E; [|done].
      by pose proof (inv_new _ _ _ _ _ 0 I ltac:(by eexists)). }
  split.
  - intros p Ho V. destruct (read0 m0 c0 p) as [v|] eqn:Hr.
    + destruct (Hcur p v Ho V Hr) as [E Eu]. split; [|by rewrite E, Hr; cbn; rewrite Eu].
      intros w t Hw Ht. rewrite Hr in Hw. injection Hw as <-. destruct (Hold p v t Ho V Hr Ht) as (? & ? & _). by apply placed_old.
    + by destruct (valid_reads f p a Ho V).
  - intros _ (p & v & t & Ho & V & Hv & Ht & Hy). destruct (read0 m0 c0 p) as [w|] eqn:Hr; [|by destruct (valid_reads f p a Ho V)].
    destruct (Hcur p w Ho V Hr) as [E _]. rewrite E in Hv. injection Hv as ->. destruct (Hold p v t Ho V Hr Ht) as (? & _). congruence.
Qed.

(** The context a handler refers to, as the check reads it. *)
Lemma handler_context f Y X N Q s h o ctx oc : during f Y X N Q s ->
  m0 !! h = Some o -> in_vars m0 o HANDLER_CONTEXT -> o_body o !! HANDLER_CONTEXT = Some (tagPtr ctx) -> m0 !! ctx = Some oc ->
  (isNewObject h = false \/ isNewObject ctx = false) ->
  exists o', s_mem s !! h = Some o' /\ o_body o' !! HANDLER_CONTEXT = Some (move f ctx + 1) /\ addr_ok (move f ctx) /\ placed m0 f ctx.
Proof.
  intros D Hh Hi Hb Hctx Hor. pose proof (during_inv _ _ _ _ _ _ D) as I. pose proof (w_addr _ _ _ (WF _ _ Hctx)) as Hac.
  pose proof (move_addr _ _ _ WF _ _ ctx I ltac:(by eexists)) as Ham. rewrite tagPtr_addr in Hb by done.
  assert (target (Var h HANDLER_CONTEXT) (ctx + 1) = Some ctx) as Ht.
  { unfold ScavengerProofs.target. cbn [slot_raw]. rewrite pointer_addr by done. f_equal. lia. }
  destruct (isNewObject h) eqn:Hn.
  - destruct Hor as [|Hco]; [done|]. assert (placed m0 f ctx) as HP by (apply placed_old; [by eexists|done]).
    assert (move f ctx = ctx) as Em.
    { unfold move. destruct (f !! ctx) eqn:E; [|done]. destruct (i_map _ _ _ _ _ I _ _ E) as (_ & ? & _). congruence. }
    rewrite Em in *. pose proof (i_source _ _ _ _ _ I h o Hh Hn) as HS. destruct (f !! h).
    + destruct HS as (o' & Eo & _ & _ & Eb). exists o'. rewrite Eb. done.
    + by exists o.
  - destruct (old_done f Y X N Q s h D ltac:(by eexists) Hn) as [Hd _].
    assert (placed m0 f h) as HPh by (apply placed_old; [by eexists|done]).
    assert (move f h = h) as Emh.
    { unfold move. destruct (f !! h) eqn:E; [|done]. destruct (i_map _ _ _ _ _ I _ _ E) as (_ & ? & _). congruence. }
    destruct (Hd (Var h HANDLER_CONTEXT) eq_refl ltac:(split; [done|by exists o])) as [Hst Hrd].
    cbn [locate read_slot read0] in Hrd. rewrite Emh, Hh in Hrd. cbn [mbind option_bind] in Hrd. rewrite Hb in Hrd. cbn in Hrd.
    destruct (s_mem s !! h) as [o'|]; [|done]. exists o'. split; [done|]. cbn in Hrd. rewrite Hrd.
    assert (placed m0 f ctx) as HP by (eapply (Hst (ctx + 1) ctx); [cbn; by rewrite Hh|done]).
    unfold update, movev. cbn [slot_raw]. rewrite pointer_addr by done. replace (ctx + 1 - 1) with ctx by lia. by rewrite tagPtr_addr.
Qed.

Lemma ran_handler pre stack n : list_to_set stack ⊆ pre -> ran pre (fun s => iterateExceptionHandlerSlot env s n) [(n, KHandler stack)] true.
Proof.
  intros Hst. apply ran_cell. intros f Y X N Q s v Hpre D Hv Hn Hw Hr [Hk Hp] Hc. unfold iterateExceptionHandlerSlot. rewrite Hc. cbn [mbind option_bind].
  pose proof (pointer_target n v Hk) as Ht.
  assert (write_slot s (Cell n) v = Some s) as Ews.
  { cbn. rewrite put_Some by by eapply lookup_lt_Some. cbn. rewrite list_insert_id by done. by destruct s. }
  assert (exists k, depth s = S k) as [k Ek] by (unfold depth; eexists; done).
  destruct Hp as [->|[Hpt Hok]].
  - rewrite Ek. cbn [validHandler Z.eqb mbind option_bind]. rewrite Ews. cbn [mbind option_bind Z.eqb].
    destruct (during_skip _ _ _ _ _ _ n 0 D) as [D' HQ]; try done. exists f, s. split; [done|].
    apply (during_note f Y _ N Q s n false); [done|set_solver|done].
  - rewrite Hpt in Ht. pose proof (during_inv _ _ _ _ _ _ D) as I.
    destruct Hok as (o & ctx & oc & frame & fr & m & Hh & Hiv & Hhb & Hctx & Hfr & Hfnz & Hfnp & Hef & Hsl & Hrm & Hcm & Hms & Hor).
    pose proof (w_addr _ _ _ (WF _ _ Hh)) as Hah. assert (v <> 0) as Hnz by (destruct Hah; lia).
    destruct (handler_context f Y X N Q s (v - 1) o ctx oc) as (o' & Eo & Eb & Ham & HPc); try done.
    destruct (i_placed _ _ _ _ _ I ctx oc Hctx HPc) as (oc' & Eoc & S).
    assert (s_cells s !! m = Some (move f ctx + 1)) as Hcell.
    { destruct (d_cells _ _ _ _ _ _ D m) as [_ Em]; [set_solver|]. cbn [locate read_slot read0] in Em. rewrite Em, Hcm. cbn. f_equal.
      unfold update, movev. cbn [slot_raw]. rewrite Hrm. rewrite tagPtr_addr by by eapply (w_addr _ _ _ (WF _ _ Hctx)).
      rewrite pointer_addr by by eapply (w_addr _ _ _ (WF _ _ Hctx)). replace (ctx + 1 - 1) with ctx by lia. by rewrite tagPtr_addr. }
    assert (validHandler env (depth s) s v = Some v) as ->.
    { rewrite Ek. cbn [validHandler]. destruct (Z.eqb_spec v 0); [done|]. replace v with (v - 1 + 1) at 1 by lia.
      rewrite asObject_addr by done. cbn [mbind option_bind]. rewrite Eo. cbn [mbind option_bind]. rewrite Eb. cbn [mbind option_bind].
      rewrite asObject_addr by done. cbn [mbind option_bind]. unfold contextHasValidFrame. rewrite Eoc. cbn [mbind option_bind].
      rewrite (similar_word _ _ _ _ _ S), Hfr by (intros w Hw' _; congruence). cbn [mbind option_bind].
      destruct (Z.eqb_spec frame 0); [done|]. rewrite Hef. cbn [mbind option_bind]. rewrite Hsl. cbn [mbind option_bind]. rewrite Hcell.
      cbn [mbind option_bind]. rewrite tagPtr_addr, Z.eqb_refl by done. done. }
    cbn [mbind option_bind]. rewrite Ews. cbn [mbind option_bind]. destruct (Z.eqb_spec v 0); [done|].
    by apply (visit_noted f Y X N Q s n v (v - 1)).
Qed.

(** ** Frames, fibers, mutators, code *)

Lemma ran_frame pre fr L : frame_cells fr = Some L -> ran pre (fun s => iterateFrame env s fr) L true.
Proof.
  unfold frame_cells. intros E. unbind E. rewrite fmap_app. unfold iterateFrame.
  eapply ran_eq with (op' := fun s => s ← fold_cells (visitStackCell env) s (fr_args fr); fold_cells (visitStackCell env) s l);
    [intros s; by destruct (fold_cells _ _ _); cbn [mbind option_bind]; rewrite ?E0|].
  apply ran_seq with (op1 := fun s => fold_cells (visitStackCell env) s (fr_args fr)) (op2 := fun s => fold_cells (visitStackCell env) s l);
    apply ran_cells; intros n; apply ran_stack.
Qed.

Lemma ran_entry pre e L : entry_cells e = Some L -> ran pre (fun s => iterateEntryFrame env s e) L true.
Proof.
  unfold entry_cells. intros E. unbind E. change ((?a, KExit) :: ?l) with ([(a, KExit)] ++ l).
  eapply ran_eq with (op' := fun s => s ← ('(_, s) ← visitTagged s (Cell n); v ← s_cells s !! n; noteYoungRoot s v);
    fold_cells (iterateFrame env) s (ef_frames e)).
  - intros s. unfold iterateEntryFrame. rewrite E0. cbn [mbind option_bind]. destruct (visitTagged s (Cell n)) as [[z s']|]; [|done].
    cbn [mbind option_bind]. by destruct (s_cells s' !! n).
  - apply ran_seq with (op1 := fun s => '(_, s) ← visitTagged s (Cell n); v ← s_cells s !! n; noteYoungRoot s v)
      (op2 := fun s => fold_cells (iterateFrame env) s (ef_frames e)); [apply ran_exit|].
    eapply ran_mapM; [|exact E1]. intros fr L. apply ran_frame.
Qed.

Lemma ran_frames pre l L : stack_cells l = Some L -> ran pre (fun s => iterateStackFrames env s l) L true.
Proof.
  unfold stack_cells. destruct (mapM entry_cells l) as [Ls|] eqn:E; [|done]. cbn. intros [= <-].
  eapply ran_mapM; [|exact E]. intros e L. apply ran_entry.
Qed.

Lemma ran_scopes pre l : ran pre (fun s => iterateHandleScopes s l) (scope_cells l) true.
Proof.
  unfold scope_cells, iterateHandleScopes. replace ((., KHandle) <$> concat l) with (concat ((fun ns : list nat => (., KHandle) <$> ns) <$> l)).
  - apply ran_fold. rewrite Forall2_fmap_r. apply Forall_Forall2_diag, Forall_true. intros ns. apply ran_cells. intros n. apply ran_scope_handle.
  - induction l as [|ns l IH]; cbn; [done|]. rewrite fmap_app. f_equal. exact IH.
Qed.

Lemma ran_fiber f L : fiber_cells f = Some L -> ran ∅ (fun s => iterateFiberRoots env s f) L true.
Proof.
  unfold fiber_cells. intros E. unbind E. unfold iterateFiberRoots.
  match goal with |- ran _ _ ?L _ => change L with ([(f_entryBlock f, KField)] ++ [(f_process f, KField)] ++ l ++
    [(f_exceptionHandler (f_roots f), KHandler l.*1)] ++ [(f_unwindHandler (f_roots f), KHead)] ++
    scope_cells (f_handleScopes (f_roots f)) ++ [(f_context (f_roots f), KHead)]) end.
  apply (ran_seq ∅ (fun s => visitField s (f_entryBlock f))); [apply ran_field|].
  apply (ran_seq _ (fun s => visitField s (f_process f))); [apply ran_field|].
  apply (ran_seq _ (fun s => iterateStackFrames env s (f_stackFrames (f_roots f)))); [by apply ran_frames|].
  apply (ran_seq _ (fun s => iterateExceptionHandlerSlot env s (f_exceptionHandler (f_roots f)))); [apply ran_handler; set_solver|].
  apply (ran_seq _ (fun s => iterateUnwindHandlerSlot s (f_unwindHandler (f_roots f)))); [apply ran_unwind|].
  apply (ran_seq _ (fun s => iterateHandleScopes s (f_handleScopes (f_roots f)))); [apply ran_scopes|].
  apply (ran_unwind _ (f_context (f_roots f))).
Qed.

Lemma ran_mutator m L : mutator_cells m = Some L -> ran ∅ (fun s => iterateMutatorCurrentRoots env s m) L false.
Proof.
  unfold mutator_cells. intros E. unfold iterateMutatorCurrentRoots. destruct (negb (live m)); [injection E as <-; apply ran_nil|].
  unbind E.
  apply (ran_seq _ (fun s => match currentFiber m with Some f => s ← visitField s (f_entryBlock f); visitField s (f_process f) | None => Some s end)).
  { destruct (currentFiber m) as [f|]; [|apply ran_nil].
    apply (ran_seq _ (fun s => visitField s (f_entryBlock f)) (fun s => visitField s (f_process f)) [_] [_]); apply ran_forget, ran_field. }
  apply (ran_seq _ (fun s => iterateStackFrames env s (t_stackFrames m))); [by apply ran_forget, ran_frames|].
  apply (ran_seq _ (fun s => iterateHandleScopes s (t_handleScopes m))); [apply ran_forget, ran_scopes|].
  eapply ran_eq; [|apply (ran_seq _ (fun s => v ← s_cells s !! t_context m; if v =? 0 then Some s else '(_, s) ← visitTagged s (Cell (t_context m)); Some s)
     (fun s => s ← match t_exceptionHandler m with Some n => iterateExceptionHandlerSlot env s n | None => Some s end;
               match t_unwindHandler m with Some n => iterateUnwindHandlerSlot s n | None => Some s end)); [apply ran_context|]].
  { intros s. cbn beta. destruct (s_cells s !! t_context m); [|done]. cbn [mbind option_bind].
    reflexivity. }
  apply (ran_seq _ (fun s => match t_exceptionHandler m with Some n => iterateExceptionHandlerSlot env s n | None => Some s end)).
  - destruct (t_exceptionHandler m); [|apply ran_nil]. apply ran_forget, ran_handler. set_solver.
  - destruct (t_unwindHandler m); [|apply ran_nil]. apply ran_forget, ran_unwind.
Qed.

Lemma ran_code pre c : ran pre (fun s => iterateCode s c) (code_cells c) false.
Proof.
  unfold iterateCode, code_cells. destruct (n_free c); [apply ran_nil|].
  apply (ran_seq _ (fun s => fold_cells visitCodeField s (n_pointers c)) (fun s => processPointerSites s (n_sites c)));
    apply ran_cells; intros n; [apply ran_code_field|apply ran_site].
Qed.

(** A list of lists of cells of one kind. *)
Lemma ran_nested {A} pre (op : Scavenger -> A -> option Scavenger) (g : A -> list Root) l note :
  (forall x, ran pre (fun s => op s x) (g x) note) -> ran pre (fun s => fold_cells op s l) (mjoin (g <$> l)) note.
Proof.
  intros Hg. replace (mjoin (g <$> l)) with (concat (g <$> l)).
  - apply ran_fold. rewrite Forall2_fmap_r. by apply Forall_Forall2_diag, Forall_true.
  - induction l as [|x l IH]; cbn; [done|]. by rewrite IH.
Qed.

(** ** The dirty fibers *)

(** A fiber is kept, or none of its roots is young. *)
Lemma dirty_ok fibers : forall Ls f Y X N Q s,
  mapM fiber_cells (List.filter (fun f => negb (f_running f)) fibers) = Some Ls -> fresh X (concat Ls) -> during f Y X N Q s ->
  exists f' s' kept N' Q', iterateDirtyFibers env s fibers = Some (s', kept) /\ during f' Y (cellset (concat Ls) ∪ X) N' Q' s' /\ Q ⊆ Q' /\
    forall fb, fb ∈ fibers -> fb ∈ kept \/ (f_running fb = false /\ forall L, fiber_cells fb = Some L -> cellset L ⊆ Q').
Proof.
  induction fibers as [|fb fibers IH]; intros Ls f Y X N Q s HL F D; cbn [List.filter] in HL.
  - injection HL as <-. exists f, s, [], N, Q. split; [done|]. change (cellset (concat [])) with (∅ : gset nat).
    rewrite (left_id_L ∅ (∪)). split; [done|]. split; [done|]. by intros fb ?%elem_of_nil.
  - cbn [iterateDirtyFibers]. destruct (f_running fb) eqn:Hrun; cbn [negb] in HL.
    + destruct (IH Ls f Y X N Q s HL F D) as (f' & s' & kept & N' & Q' & E & D' & HQ & HK). rewrite E. cbn [mbind option_bind].
      exists f', s', (fb :: kept), N', Q'. split; [done|]. split; [done|]. split; [done|].
      intros fb' [->|Hin]%elem_of_cons; [left; by left|]. destruct (HK fb' Hin); [left; by right|by right].
    + cbn [mapM] in HL. destruct (fiber_cells fb) as [L|] eqn:EL; [|done]. cbn [mbind option_bind] in HL.
      destruct (mapM fiber_cells _) as [Ls'|] eqn:ELs; [|done]. injection HL as <-. cbn [concat] in *.
      apply fresh_app in F as [F1 F2]. rewrite cellset_app.
      destruct (ran_fiber fb L EL f Y X ∅ Q _ ltac:(set_solver) F1 (during_reset _ _ _ _ _ _ D)) as (f1 & s' & E & D1). rewrite E. cbn [mbind option_bind].
      set (Q1 := if young s' then Q else (cellset L ∪ ∅) ∪ Q).
      assert (during f1 Y (cellset L ∪ X) (cellset L ∪ ∅) Q1 s') as D1'.
      { unfold Q1. destruct (young s') eqn:Ey; [done|]. by apply during_keep. }
      destruct (IH Ls' f1 Y _ _ _ s' eq_refl F2 D1') as (f2 & s2 & kept & N' & Q' & E2 & D2 & HQ & HK). rewrite E2. cbn [mbind option_bind].
      eexists f2, s2, _, N', Q'. split; [done|]. split; [by replace (cellset L ∪ cellset (concat Ls') ∪ X) with (cellset (concat Ls') ∪ (cellset L ∪ X)) by set_solver|].
      assert (Q ⊆ Q1) as HQ1 by (unfold Q1; destruct (young s'); set_solver). split; [set_solver|].
      intros fb' [->|Hin]%elem_of_cons.
      * destruct (young s') eqn:Ey; [left; by left|]. right. split; [done|]. intros L' HL'. rewrite EL in HL'. injection HL' as <-.
        unfold Q1 in HQ. set_solver.
      * destruct (HK fb' Hin) as [Hk|Hk]; [|by right]. left. destruct (young s'); [by right|done].
Qed.

(** ** The remembered sets *)

Record scanned (f : gmap Z Z) (Y : gset Z) (s : Scavenger) : Prop := {
  sc_step : stepped ∅ s1 (touched Y ∅) (fun a => a ∈ Y) root f s;
  sc_objects : forall a, a ∈ Y -> object_done f s a;
  sc_old : forall a, a ∈ Y -> is_Some (m0 !! a) /\ isNewObject a = false }.

Lemma rescan_ok f Y s a : scanned f Y s -> is_Some (m0 !! a) -> isNewObject a = false -> (forall b, referent m0 c0 raw a b -> root b) ->
  exists f' s', rescan s a = Some s' /\ scanned f' ({[a]} ∪ Y) s'.
Proof.
  intros [ST HO HY] [o0 Ha] Hn Hr. pose proof (st_inv _ _ _ _ _ _ _ _ _ _ ST) as I.
  assert (forall g, placed m0 g a) as HP by (intros g; apply placed_old; [by eexists|done]).
  assert (move f a = a) as Em by (unfold move; destruct (f !! a) eqn:E; [destruct (i_map _ _ _ _ _ I _ _ E) as (_ & ? & _); congruence|done]).
  destruct (i_placed _ _ _ _ _ I a o0 Ha (HP f)) as (o & Eo & S).
  pose proof (clear_stepped _ _ _ f s a o0 o (fun _ => False) I Ha (HP f) Eo) as ST1. rewrite Em in *.
  unfold rescan. rewrite Eo. cbn [mbind option_bind].
  set (sc := set_mem _ _) in *. pose proof (st_inv _ _ _ _ _ _ _ _ _ _ ST1) as I1. pose proof (depth_enough f sc I1) as Hd.
  destruct (proj2 (recursion_ok m0 c0 raw WF CW (depth sc)) f sc a o0) as (f' & s' & E & ST2 & HD); [done|done|apply HP| |lia|].
  { intros _ (o' & Eo' & Hg). rewrite Em in Eo'. unfold sc in Eo'. cbn [set_mem s_mem] in Eo'. rewrite lookup_insert_eq in Eo'. injection Eo' as <-.
    change (has_tag (2 ^ 5) (clear_tag (2 ^ 5) o) = true) in Hg. by rewrite clear_tag_bit in Hg by lia. }
  rewrite Em in E. exists f', s'. split; [done|].
  assert (stepped f s (slots_of m0 c0 a) (eq a) (referent m0 c0 raw a) f' s') as ST3.
  { eapply stepped_weaken; [eapply stepped_trans; [exact ST1|exact ST2|intros p [_ Hp]; by apply Hp|by intros x <-]|..].
    - by intros p [[]|Hp].
    - by intros x [Hx|Hx].
    - intros x [[]|Hx]. by exists x. }
  constructor.
  - eapply stepped_weaken; [eapply stepped_trans; [exact ST|exact ST3|intros p [_ Hp]; by apply Hp|by intros x <-]|..].
    + intros p [[(n & _ & ?%not_elem_of_empty)|(x & Hx & Hp)]|Hp]; [done|right; exists x; set_solver|right; exists a; set_solver].
    + intros x [Hx| <-]; set_solver.
    + intros x [Hx|Hx]; exists x; [done|]. split; [by apply Hr|done].
  - intros x Hx. destruct (decide (x = a)) as [->|Hne]; [done|]. assert (x ∈ Y) as HxY by set_solver.
    eapply object_later; [exact ST3|by apply placed_old; apply HY| |congruence|by apply HO]. intros p Ho [Ho' _]. congruence.
  - intros x [->%elem_of_singleton|Hx]%elem_of_union; [by split; [eexists|]|by apply HY].
Qed.

Lemma rescan_list l : forall f Y s, scanned f Y s ->
  (forall a, a ∈ l -> is_Some (m0 !! a) /\ isNewObject a = false /\ forall b, referent m0 c0 raw a b -> root b) ->
  exists f' s', fold_cells rescan s l = Some s' /\ scanned f' (list_to_set l ∪ Y) s'.
Proof.
  induction l as [|a l IH]; intros f Y s SC Hl; cbn [fold_cells list_to_set].
  - exists f, s. split; [done|]. by rewrite (left_id_L ∅ (∪)).
  - destruct (Hl a ltac:(by left)) as (Ha & Hn & Hr). destruct (rescan_ok f Y s a SC Ha Hn Hr) as (f1 & s' & E1 & SC1). rewrite E1. cbn [mbind option_bind].
    destruct (IH f1 _ s' SC1) as (f2 & s2 & E2 & SC2); [intros x Hx; apply Hl; by right|]. exists f2, s2. split; [done|].
    by replace ({[a]} ∪ list_to_set l ∪ Y) with (list_to_set l ∪ ({[a]} ∪ Y)) by set_solver.
Qed.

Lemma rescan_sets sets : forall f Y s, scanned f Y s ->
  (forall a, a ∈ concat sets -> is_Some (m0 !! a) /\ isNewObject a = false /\ forall b, referent m0 c0 raw a b -> root b) ->
  exists f' s', fold_cells (fold_cells rescan) s sets = Some s' /\ scanned f' (list_to_set (concat sets) ∪ Y) s'.
Proof.
  induction sets as [|l sets IH]; intros f Y s SC Hl; cbn [fold_cells concat].
  - exists f, s. split; [done|]. cbn [list_to_set]. by rewrite (left_id_L ∅ (∪)).
  - cbn [concat] in Hl. destruct (rescan_list l f Y s SC) as (f1 & s' & E1 & SC1); [intros a Ha; apply Hl, elem_of_app; by left|].
    rewrite E1. cbn [mbind option_bind]. destruct (IH f1 _ s' SC1) as (f2 & s2 & E2 & SC2); [intros a Ha; apply Hl, elem_of_app; by right|].
    exists f2, s2. split; [done|]. rewrite list_to_set_app_L.
    by replace (list_to_set l ∪ list_to_set (concat sets) ∪ Y) with (list_to_set (concat sets) ∪ (list_to_set l ∪ Y)) by set_solver.
Qed.

(** ** All the roots *)

Lemma union_turn (A B C D : gset nat) : D ∪ (C ∪ (B ∪ (A ∪ ∅))) = A ∪ (B ∪ (C ∪ D)).
Proof. clear. set_solver. Qed.

Lemma roots_ok r Y f s L : root_cells r = Some L -> fresh ∅ L -> during f Y ∅ ∅ ∅ s ->
  exists f' s' sched Q, (
      s ← fold_cells (fun s m => fold_cells visitHandle s (t_handles m)) s (r_mutators r);
      '(s, sched) ← match r_sched r with
                    | Some fibers => '(s, l) ← iterateDirtyFibers env s fibers; Some (s, Some l)
                    | None => Some (s, None)
                    end;
      s ← fold_cells (iterateMutatorCurrentRoots env) s (r_mutators r);
      s ← iterateNativeCode s (r_codes r) (r_mutators r);
      Some (set_survivorEnd (s_top s) s, sched)) = Some (set_survivorEnd (s_top s') s', sched) /\
    during f' Y (cellset L) ∅ Q s' /\
    (forall fibers, r_sched r = Some fibers -> exists kept, sched = Some kept /\
      forall fb, fb ∈ fibers -> fb ∈ kept \/ (f_running fb = false /\ forall L, fiber_cells fb = Some L -> cellset L ⊆ Q)).
Proof.
  unfold root_cells. intros E F D. unbind E. apply fresh_app in F as [F1 F2]. apply fresh_app in F2 as [F2 F3].
  apply fresh_app in F3 as [F3 F4]. rewrite !cellset_app.
  assert (ran ∅ (fun s => fold_cells (fun s m => fold_cells visitHandle s (t_handles m)) s (r_mutators r))
    ((., KHandle) <$> mjoin (t_handles <$> r_mutators r)) false) as R1.
  { rewrite fmap_join. apply ran_nested. intros m. apply ran_cells. intros n. apply ran_handle. }
  destruct (R1 f Y ∅ ∅ ∅ s ltac:(done) F1 D) as (f1 & s' & -> & D1). cbn [mbind option_bind].
  assert (exists f2 s2 sched Q, match r_sched r with
      | Some fibers => '(s, l) ← iterateDirtyFibers env s' fibers; Some (s, Some l) | None => Some (s', None) end = Some (s2, sched) /\
    during f2 Y (cellset (concat l) ∪ (cellset ((., KHandle) <$> mjoin (t_handles <$> r_mutators r)) ∪ ∅)) ∅ Q s2 /\
    (forall fibers, r_sched r = Some fibers -> exists kept, sched = Some kept /\
      forall fb, fb ∈ fibers -> fb ∈ kept \/ (f_running fb = false /\ forall L, fiber_cells fb = Some L -> cellset L ⊆ Q)))
    as (f2 & s2 & sched & Q & -> & D2 & HK).
  { unfold parked in E0. destruct (r_sched r) as [fibers|]; cbn [default] in E0.
    - destruct (dirty_ok fibers l f1 Y _ _ _ s' E0 F2 D1) as (f2 & s2 & kept & N & Q & Ed & D2 & _ & HK). rewrite Ed. cbn [mbind option_bind].
      exists f2, s2, (Some kept), Q. split; [done|]. split; [by eapply during_forget|]. intros fibers' [= <-]. by exists kept.
    - cbn in E0. injection E0 as <-. exists f1, s', None, ∅. split; [done|]. split; [|done]. change (cellset (concat [])) with (∅ : gset nat).
      by rewrite (left_id_L ∅ (∪)). }
  cbn [mbind option_bind].
  assert (ran ∅ (fun s => fold_cells (iterateMutatorCurrentRoots env) s (r_mutators r)) (concat l0) false) as R3 by (eapply ran_mapM; [apply ran_mutator|done]).
  destruct (R3 f2 Y _ _ _ s2 (empty_subseteq _) F3 D2) as (f3 & s3 & -> & D3). cbn [mbind option_bind].
  assert (ran ∅ (fun s => iterateNativeCode s (r_codes r) (r_mutators r))
    (mjoin (code_cells <$> r_codes r) ++ ((., KSite) <$> mjoin (mjoin (t_codegenSites <$> r_mutators r)))) false) as R4.
  { apply (ran_seq _ (fun s => fold_cells iterateCode s (r_codes r))); [apply ran_nested; intros c; apply ran_code|].
    rewrite join_join, fmap_join. apply ran_nested. intros m.
    replace ((., KSite) <$> mjoin (t_codegenSites m)) with (mjoin ((fun l : list nat => (., KSite) <$> id l) <$> t_codegenSites m))
      by by rewrite <- fmap_join, list_fmap_id.
    apply ran_nested. intros l'. apply ran_cells. intros n. apply ran_site. }
  destruct (R4 f3 Y _ _ _ s3 (empty_subseteq _) F4 D3) as (f4 & s4 & -> & D4). cbn [mbind option_bind].
  exists f4, s4, sched, Q. split; [done|]. split; [|done].
  by rewrite <- union_turn, <- cellset_app.
Qed.
End Collection.
