(* ===== verification/ScavengerSound.v ===== *)
(** * ScavengerSound

    A whole collection: from a well-formed heap it returns, the survivors are
    exactly the young objects reachable from the roots, each is copied once,
    every slot that led to one leads to its copy, and the remembered set and
    the dirty fibers again cover every pointer into the young space.  The last
    section runs the code on small heaps: one that meets the hypotheses, and
    two that show what the handler check and the stack slot check drop. *)
From S2P Require Import Prelude Endian Tagging.
From stdpp Require Import gmap.
From S2P Require Import FreeList HeapPage ObjectMemory Scavenger ScavengerProofs ScavengerRoots.
#[local] Open Scope Z_scope.

Section Sound.
Context `{Target} `{OldSpace}.

(** The objects the roots lead to: [raw] says which cells hold untagged
    addresses. *)
Definition root_of (raw : nat -> bool) (s : Scavenger) (r : Roots) (L : list Root) (x : Z) : Prop :=
  (exists n v, n ∈ L.*1 /\ s_cells s !! n = Some v /\ target raw (Cell n) v = Some x) \/
  (exists a, a ∈ concat (r_sets r ++ [s_remembered s]) /\ referent (s_mem s) (s_cells s) raw a x).

(** ** When a collection may run *)

Record collectable (raw : nat -> bool) (env : Env) (s : Scavenger) (r : Roots) (L : list Root) : Prop := {
  cb_heap : heap_wf (s_mem s);
  cb_words : forall n v, s_cells s !! n = Some v -> 0 <= v < 2 ^ 64;
  (* the semispaces *)
  cb_from : s_fromSpace s mod 8 = 0;
  cb_to : 0 < s_toSpace s /\ s_toSpace s mod 8 = 0 /\ 8 <= s_size s /\ s_toSpace s + s_size s < 2 ^ 63;
  cb_disjoint : s_fromSpace s + s_size s <= s_toSpace s \/ s_toSpace s + s_size s <= s_fromSpace s;
  cb_young : forall a, is_Some (s_mem s !! a) -> isNewObject a = true -> s_fromSpace s <= a < s_fromSpace s + s_size s;
  cb_room : bytes (pending (s_mem s) ∅) <= s_toSpace s + s_size s - Z.lor (s_toSpace s) NEW_SPACE_TAG;
  (* old space *)
  cb_old : forall a, is_Some (s_mem s !! a) -> isNewObject a = false -> a ∈ old_objects (s_old s);
  cb_old_room : exists n, bytes (pending (s_mem s) ∅) <= n /\ old_room (s_old s) n;
  (* every old object with a young referent is remembered *)
  cb_remembered : forall a, a ∈ concat (r_sets r ++ [s_remembered s]) -> is_Some (s_mem s !! a) /\ isNewObject a = false;
  cb_cover : forall a b, is_Some (s_mem s !! a) -> isNewObject a = false -> referent (s_mem s) (s_cells s) raw a b ->
    isNewObject b = true -> a ∈ concat (r_sets r ++ [s_remembered s]);
  (* the roots *)
  cb_roots : root_cells r = Some L;
  cb_nodup : NoDup L.*1;
  cb_ok : Forall (root_ok (s_mem s) (s_cells s) raw env) L;
  (* what the check of the stack slots needs *)
  cb_classes : (s_fromSpace s + s_size s = s_toSpace s /\
    forall a o, s_mem s !! a = Some o -> isNewObject a = true ->
      o_class o <> s_fromSpace s /\ forall c, s_mem s !! o_class o = Some c -> o_class c <> s_fromSpace s) \/
    forall a o, s_mem s !! a = Some o -> isNewObject a = true ->
      isNewObject (o_class o) = false /\ forall c, s_mem s !! o_class o = Some c -> isNewObject (o_class c) = false }.

(** ** What it leaves *)

(** [o'] is [o] with its class and variables redirected; the other words and
    the tags but [TAG_MARKED] and [TAG_REMEMBERED] are as they were. *)
Record moved (m0 : Memory) (f : gmap Z Z) (o o' : RawObject) : Prop := {
  mv_class : o_class o' = move f (o_class o);
  mv_header : o_hash o' = o_hash o /\ o_payloadSize o' = o_payloadSize o /\ o_varsSize o' = o_varsSize o;
  mv_length : length (o_body o') = length (o_body o);
  mv_vars : forall i v, in_vars m0 o i -> o_body o !! i = Some v -> o_body o' !! i = Some (movev f v);
  mv_words : forall i v, ~ in_vars m0 o i -> o_body o !! i = Some v -> o_body o' !! i = Some v;
  mv_tags : Z.land (o_tags o') 219 = Z.land (o_tags o) 219 /\ has_tag TAG_FORWARDED o' = false }.

Record collected (raw : nat -> bool) (s : Scavenger) (r : Roots) (L : list Root) (f : gmap Z Z) (s' : Scavenger)
    (sched : option (list Fiber)) : Prop := {
  (* the survivors are the young objects that are reachable *)
  co_survivors : forall a, is_Some (f !! a) <->
    is_Some (s_mem s !! a) /\ isNewObject a = true /\
    exists x, root_of raw s r L x /\ rtc (young_edge (s_mem s) (s_cells s) raw) x a;
  (* each has a place of its own, in the new semispace or in old space *)
  co_injective : forall a a' b, f !! a = Some b -> f !! a' = Some b -> a = a';
  co_fresh : forall a b, f !! a = Some b -> s_mem s !! b = None /\
    (isNewObject b = true -> Z.lor (s_fromSpace s') NEW_SPACE_TAG <= b < s_top s') /\ (isNewObject b = false -> b ∈ old_objects (s_old s'));
  (* objects, and nothing else *)
  co_objects : forall a o, s_mem s !! a = Some o -> placed (s_mem s) f a ->
    exists o', s_mem s' !! move f a = Some o' /\ moved (s_mem s) f o o';
  co_closed : forall a b, placed (s_mem s) f a -> referent (s_mem s) (s_cells s) raw a b -> placed (s_mem s) f b;
  co_only : forall b, is_Some (s_mem s' !! b) -> is_Some (s_mem s !! b) \/ exists a, f !! a = Some b;
  (* cells *)
  co_cells : forall n v, s_cells s !! n = Some v ->
    s_cells s' !! n = Some (if decide (n ∈ L.*1) then update raw f (Cell n) v else v);
  co_roots : forall n v x, n ∈ L.*1 -> s_cells s !! n = Some v -> target raw (Cell n) v = Some x -> placed (s_mem s) f x;
  (* old objects with young referents are remembered *)
  co_remembered : forall a b, placed (s_mem s) f a -> referent (s_mem s) (s_cells s) raw a b ->
    isNewObject (move f a) = false -> isNewObject (move f b) = true -> move f a ∈ s_remembered s' /\ tagged f s' a;
  (* a fiber stays dirty, or has no young root *)
  co_fibers : forall fibers, r_sched r = Some fibers -> exists kept, sched = Some kept /\
    forall fb, fb ∈ fibers -> fb ∈ kept \/ (f_running fb = false /\
      forall K n v t, fiber_cells fb = Some K -> n ∈ K.*1 -> s_cells s' !! n = Some v -> target raw (Cell n) v = Some t ->
        isNewObject t = false);
  (* the semispaces changed places, and what survived is promoted next time *)
  co_spaces : s_fromSpace s' = s_toSpace s /\ s_toSpace s' = s_fromSpace s /\ s_size s' = s_size s /\
    s_end s' = s_toSpace s + s_size s /\ s_top s' <= s_end s' /\ s_survivorEnd s' = s_top s' }.

(** ** The start *)

Section Start.
Context (raw : nat -> bool) (env : Env) (s : Scavenger) (r : Roots) (L : list Root).
Context (CB : collectable raw env s r L).
Abbreviation m0 := (s_mem s).
Abbreviation c0 := (s_cells s).
Abbreviation s1 := (set_remembered [] (swapSpaces s)).
Abbreviation root := (root_of raw s r L).

Lemma start_inv : inv m0 c0 raw ∅ s1.
Proof.
  destruct CB. destruct cb_to0 as (Ht0 & Htm & Hsz & Hb).
  pose proof (lor_new_le (s_toSpace s)) as Hbase. assert (addr_ok (s_toSpace s)) as Hta by (split; [lia|done]).
  constructor; cbn [set_remembered swapSpaces s_mem s_cells s_end s_top s_old].
  - constructor; cbn [set_remembered swapSpaces s_fromSpace s_toSpace s_size s_end s_top].
    + done.
    + done.
    + split; [lia|by apply lor_new_mod].
    + intros a Ha Hn. specialize (cb_young0 a Ha Hn). lia.
    + intros a Ha Hn Hd. specialize (cb_young0 a Ha Hn). lia.
  - intros a o Ha Hn. by rewrite lookup_empty.
  - intros a o Ha _. exists o. unfold move. rewrite lookup_empty. split; [done|]. apply similar_refl, (w_tags _ _ _ (cb_heap0 a o Ha)).
  - intros a b. by rewrite lookup_empty.
  - intros a a' b. by rewrite lookup_empty.
  - intros b Hb'. by left.
  - done.
  - split; [done|]. intros n v Hv. by left.
  - lia.
  - done.
Qed.

Lemma start_fresh : fresh m0 c0 raw env root ∅ L.
Proof.
  destruct CB. constructor; [done|done|set_solver|]. intros n Hn v x Hv Hx. left. by exists n, v.
Qed.

(** After the remembered sets. *)
Lemma start_during : exists f s2 (Y : gset Z), iterateRememberedSet (swapSpaces s) (r_sets r) = Some s2 /\
  during m0 c0 raw root s1 f Y ∅ ∅ ∅ s2 /\ (forall a, a ∈ Y <-> a ∈ concat (r_sets r ++ [s_remembered s])).
Proof.
  pose proof start_inv as I. pose proof CB as [].
  assert (scanned m0 c0 raw root s1 ∅ ∅ s1) as SC.
  { constructor; [by apply stepped_refl|by intros a ?%not_elem_of_empty|by intros a ?%not_elem_of_empty]. }
  destruct (rescan_sets m0 c0 raw cb_heap0 cb_words0 root s1 eq_refl cb_from0 cb_classes0 (r_sets r ++ [s_remembered s]) ∅ ∅ s1 SC) as (f & s2 & E & SC2).
  { intros a Ha. destruct (cb_remembered0 a Ha) as [Hs Hn]. split; [done|]. split; [done|]. intros b Hb. right. by exists a. }
  rewrite (right_id_L ∅ (∪)) in SC2. exists f, s2, (list_to_set (concat (r_sets r ++ [s_remembered s]))). split; [done|].
  split; [|intros a; apply elem_of_list_to_set]. destruct SC2. constructor; try done.
  - intros a b Ha Hn HY Hr. destruct (isNewObject b) eqn:E'; [|done]. exfalso.
    apply HY, elem_of_list_to_set. by apply (cb_cover0 a b).
Qed.

(** ** The end *)

Context (f : gmap Z Z) (Y : gset Z) (Q : gset nat) (s' : Scavenger) (D : during m0 c0 raw root s1 f Y (cellset L) ∅ Q s').

Lemma end_done a : placed m0 f a -> object_done m0 c0 raw f s' a.
Proof.
  intros [Ha Hp]. destruct (isNewObject a) eqn:Hn.
  - apply (st_new _ _ _ _ _ _ _ _ _ _ (d_step _ _ _ _ _ _ _ _ _ _ _ D)); [by apply Hp|apply lookup_empty].
  - by apply (old_done _ _ _ (cb_heap _ _ _ _ _ CB) _ _ _ _ _ _ _ _ _ D).
Qed.

Lemma end_closed a b : placed m0 f a -> referent m0 c0 raw a b -> placed m0 f b.
Proof.
  intros HP (p & v & [Ho Hv] & Hr & Ht). destruct (end_done a HP) as [Hd _]. destruct (Hd p Ho (Hv f HP)) as [Hs _]. by eapply Hs.
Qed.

Lemma end_root n v x : n ∈ L.*1 -> c0 !! n = Some v -> target raw (Cell n) v = Some x -> placed m0 f x.
Proof.
  intros Hn Hv Hx. destruct (d_cells _ _ _ _ _ _ _ _ _ _ _ D n) as [Hs _]; [by apply elem_of_list_to_set|]. by eapply Hs.
Qed.

Lemma end_reachable x a : rtc (young_edge m0 c0 raw) x a -> placed m0 f x -> placed m0 f a.
Proof.
  induction 1 as [|x y a (p & v & Ho & Hv & Hr & Ht & Hn) _ IH]; [done|]. intros HP. apply IH.
  eapply end_closed; [exact HP|]. by exists p, v.
Qed.

Lemma end_object a o : m0 !! a = Some o -> placed m0 f a -> exists o', s_mem s' !! move f a = Some o' /\ moved m0 f o o'.
Proof.
  intros Ha HP. pose proof (during_inv _ _ _ _ _ _ _ _ _ _ _ D) as I. destruct (i_placed _ _ _ _ _ I a o Ha HP) as (o' & Eo & S).
  destruct (end_done a HP) as [Hd _]. exists o'. split; [done|]. pose proof S as []. constructor; try done.
  - destruct (Hd (ClassOf a) eq_refl HP) as [_ E]. cbn [locate read_slot read0] in E. rewrite Eo, Ha in E. by injection E.
  - intros i v Hi Hv. destruct (Hd (Var a i) eq_refl) as [_ E]; [split; [done|by exists o]|].
    cbn [locate read_slot read0] in E. rewrite Eo, Ha in E. cbn [mbind option_bind] in E. rewrite E, Hv. done.
  - intros i v Hi Hv. by destruct (sm_body i v Hv) as [|[? _]].
Qed.

Lemma end_remembered a b : placed m0 f a -> referent m0 c0 raw a b -> isNewObject (move f a) = false -> isNewObject (move f b) = true ->
  move f a ∈ s_remembered s' /\ tagged f s' a.
Proof.
  intros HP Hr Hn Hb. pose proof (during_inv _ _ _ _ _ _ _ _ _ _ _ D) as I. pose proof (end_closed a b HP Hr) as HPb.
  destruct Hr as (p & v & [Ho Hv] & Hr & Ht). destruct (end_done a HP) as [Hd Hrm]. apply Hrm; [done|].
  pose proof (move_addr _ _ _ (cb_heap _ _ _ _ _ CB) f s' b I (proj1 HPb)) as Ham.
  exists p, (enc raw p (move f b)), (move f b). split; [done|]. split; [by apply Hv|]. split; [|split; [by apply enc_target|done]].
  destruct (Hd p Ho (Hv f HP)) as [_ E]. rewrite E, Hr. cbn. f_equal. by apply update_enc.
Qed.
End Start.

(** C1. A scavenge returns, and is a correct collection, in every heap with:
    well-formed objects; two disjoint semispaces of one size, the young objects
    in the first and room for all of them in the second and in old space;
    remembered sets that hold every old object with a young referent; roots that
    lead to objects, each in one cell; every exception handler's context in the
    context slot of its frame on the stack, where not both the handler and the
    context are young; and the class and metaclass of every young object either
    old or, when the first semispace lies just below the second, not at its very
    start.  The last two conditions are needed: see [scavenge_drops_live_roots].
    Then the young objects that survive are exactly those reachable from the
    roots and the remembered objects; each gets one new place, in the empty
    semispace or in old space; every surviving object has the contents it had,
    with its class and variables redirected to the new places; every root is
    redirected and every other cell is untouched; every old object that leads to
    a young one is in the new remembered set and tagged; a fiber is dropped from
    the dirty list only if none of its roots is young. *)
Theorem scavengerScavenge_collects raw env s r L : collectable raw env s r L ->
  exists f s' sched, scavengerScavenge env s r = Some (s', sched) /\ collected raw s r L f s' sched.
Proof.
  intros CB. destruct (start_during raw env s r L CB) as (f1 & s2 & Y & E1 & D1 & HY). pose proof CB as [].
  destruct (roots_ok _ _ raw env cb_heap0 cb_words0 (root_of raw s r L) (set_remembered [] (swapSpaces s)) eq_refl cb_from0 cb_classes0 r Y f1 s2 L cb_roots0
    (start_fresh raw env s r L CB) D1) as (f & s3 & sched & Q & E2 & D & HK).
  exists f, (set_survivorEnd (s_top s3) s3), sched. split; [unfold scavengerScavenge; cbv zeta; rewrite E1; cbn [mbind option_bind]; exact E2|].
  pose proof (during_inv _ _ _ _ _ _ _ _ _ _ _ D) as I.
  destruct (same_start _ _ _ _ _ _ _ _ _ _ _ D) as (Ef & Et & Es).
  destruct (st_same _ _ _ _ _ _ _ _ _ _ (d_step _ _ _ _ _ _ _ _ _ _ _ D)) as (_ & _ & _ & Ee & _).
  constructor; cbn [set_survivorEnd s_mem s_cells s_fromSpace s_toSpace s_size s_end s_top s_survivorEnd s_old s_remembered].
  - intros a. split.
    + intros Ha. destruct (Ha) as [b Hb]. destruct (i_map _ _ _ _ _ I a b Hb) as (Hs & Hn & _). split; [done|]. split; [done|].
      apply (st_reach _ _ _ _ _ _ _ _ _ _ (d_step _ _ _ _ _ _ _ _ _ _ _ D)); [done|apply lookup_empty].
    + intros (Hs & Hn & x & Hx & Hxa). apply (end_reachable raw env s r L CB f Y Q s3 D x a Hxa); [|done].
      destruct Hx as [(n & v & Hi & Hv & Ht)|(c & Hc & Hr)]; [by eapply end_root|].
      destruct (cb_remembered0 c Hc) as [Hsc Hcn]. eapply end_closed; [exact CB|exact D|by apply placed_old|exact Hr].
  - apply (i_inj _ _ _ _ _ I).
  - intros a b Hb. destruct (i_map _ _ _ _ _ I a b Hb) as (Hs & Hn & Hm & _ & Hd). split; [done|]. split; [done|].
    intros Ho. destruct Hs as [o Ha]. destruct (i_placed _ _ _ _ _ I a o Ha) as (o' & Eo & _); [split; [by eexists|by eexists]|].
    unfold move in Eo. rewrite Hb in Eo. apply (i_old _ _ _ _ _ I); [by eexists|done].
  - intros a o. by eapply end_object.
  - intros a b. by eapply end_closed.
  - apply (i_dom _ _ _ _ _ I).
  - intros n v Hv. case_decide as Hi.
    + destruct (d_cells _ _ _ _ _ _ _ _ _ _ _ D n) as [_ E]; [by apply elem_of_list_to_set|]. cbn in E. rewrite E, Hv. done.
    + rewrite (unvisited _ _ _ _ (set_remembered [] (swapSpaces s)) eq_refl _ _ _ _ _ _ n D); [done|by intros ?%elem_of_list_to_set|by eexists].
  - intros n v x. by eapply end_root.
  - intros a b HP Hr Hn Hb. by eapply (end_remembered raw env s r L CB f Y Q s3 D a b).
  - intros fibers Hf. destruct (HK fibers Hf) as (kept & -> & Hk). exists kept. split; [done|]. intros fb Hfb.
    destruct (Hk fb Hfb) as [|[Hrun HQ]]; [by left|right]. split; [done|]. intros K n v t HKc Hn Hv Ht.
    apply (d_quiet _ _ _ _ _ _ _ _ _ _ _ D n) with v; [|done|done]. apply (HQ K HKc). by apply elem_of_list_to_set.
  - rewrite Ef, Et, Es, Ee. destruct (sp_top _ _ (i_spaces _ _ _ _ _ I)) as [Ht _]. rewrite Ee in Ht. cbn in *. split_and!; done || lia.
Qed.
End Sound.

(** ** Small heaps *)

Module ScavengeExamples.

(** An old space that allocates upwards. *)
Record Bump := mkBump { b_next : Z; b_objects : gset Z }.

Definition bump_room (st : Bump) (n : Z) : Prop :=
  0 < b_next st /\ b_next st mod HEAP_OBJECT_ALIGN = 0 /\ b_next st + n <= 2 ^ 62 /\ forall a, a ∈ b_objects st -> a < b_next st.

#[export] Program Instance bump : OldSpace := {|
  old_state := Bump;
  tryAllocateOld st size _ := Some (b_next st, mkBump (b_next st + size) ({[b_next st]} ∪ b_objects st));
  old_includes st a := bool_decide (a ∈ b_objects st);
  old_objects := b_objects;
  old_room := bump_room |}.
Next Obligation.
  intros st n size grow (Hp & Hm & Hn & Hb) Hs Hsm. eexists _, _. split; [done|]. right. cbn. unfold HEAP_OBJECT_ALIGN in *. split_and!; try lia.
  - intros Hin. specialize (Hb _ Hin). lia.
  - done.
  - unfold bump_room, HEAP_OBJECT_ALIGN. cbn. split_and!; [lia| |lia|].
    + rewrite Z.add_mod, Hm, Hsm by lia. done.
    + intros a [->%elem_of_singleton|Ha]%elem_of_union; [lia|]. specialize (Hb a Ha). lia.
Qed.
Next Obligation. intros st a Ha. by apply bool_decide_eq_true. Qed.

#[local] Instance little : Target := target_le.

(** A class whose instances have four variables; it is its own class. *)
Definition four : Z := 4 * 2 ^ 16 + 48 * 2 ^ 48.
Definition K : Z := 4096.
Definition instance (class tags : Z) (body : list Z) : Z -> Z * RawObject := fun a => (a, mkObject class 0 0 0 tags body).

(** Old: the class, nil, [R] and a handler [H], both remembered.  Young: [A]
    and [B], which refer to each other, a context [C] and the garbage [G]. *)
Definition R : Z := 4144.
Definition Hd : Z := 4192.
Definition N : Z := 4240.
Definition A : Z := 65544.
Definition B : Z := 65592.
Definition C : Z := 65640.
Definition G : Z := 65688.
Definition FRAME : Z := 28672.

Definition objects : list (Z * RawObject) :=
  [instance K 0 [0; 0; 0; four] K;
   instance K 32 [A + 1; 0; 0; 0] R;
   instance K 32 [0; 0; C + 1; 0] Hd;
   instance K 0 [0; 0; 0; 0] N;
   instance K 0 [B + 1; 0; 0; 0] A;
   instance K 0 [0; A + 1; 0; 0] B;
   instance K 0 [0; 0; FRAME; 0] C;
   instance K 0 [B + 1; 0; 0; 0] G].

Definition cells : list Z := [N; B; 0; R + 1; A + 1; 8; C + 1; Hd + 1; 0; B + 1; 8; 0; 0; 0; 0; A + 1].
Definition untagged (n : nat) : bool := bool_decide (n ∈ [0; 1; 14]%nat).

Definition frame : StackFrame := mkFrame [4%nat] [5; 6]%nat [true; true].
Definition env : Env := mkEnv 0 {[FRAME := frame]}.
Definition mutator : Mutator :=
  mkMutator true [0%nat] [[1%nat]] 2 [mkEntry (mkFrame [] [3%nat] []) [frame]] (Some 7%nat) (Some 8%nat) None [].
Definition fiber : Fiber := mkFiber false 9 10 (mkFiberRoots [] [] 11 12 13).
Definition roots : Roots := mkRoots [mutator] [[R]] (Some [fiber]) [mkNative false [14%nat] [15%nat]].

(** The lower semispace starts where objects of the young space may be, the
    upper one eight bytes before, as the two halves of a page do. *)
Definition LOW : Z := 65544.
Definition HIGH : Z := 66560.

Definition heap (m : list (Z * RawObject)) (cs : list Z) (from to survivorEnd : Z) (set : list Z) : Scavenger :=
  mkScavenger (list_to_map m) cs 1016 false from to (Z.lor from NEW_SPACE_TAG) (from + 1016) survivorEnd false
    (mkBump 8192 (list_to_set (List.filter (fun a => negb (isNewObject a)) m.*1))) set.

Definition start : Scavenger := heap objects cells LOW HIGH B [Hd].

(** [A] is promoted and remembered, [B] and [C] are copied, the handler is
    kept and remembered, the fiber stays dirty and [G] is gone. *)
Example start_run : option_map (fun '(s, sched) => (s_cells s, s_remembered s, option_map (@length _) sched))
    (scavengerScavenge env start roots) =
  Some ([N; 66568; 0; R + 1; 8193; 8; 66617; Hd + 1; 0; 66569; 8; 0; 0; 0; 0; 8193], [8192; Hd], Some 1%nat).
Proof. vm_compute. reflexivity. Qed.

(** *** The heap is well formed *)

Definition four_shape : InstanceShape :=
  {| tag := 0; payloadSize := 0; varsSize := 4; isIndexed := false; isBytes := false; valueType := 0; Tagging.size := 48 |}.

Abbreviation mem := (s_mem start).

Lemma known a : match mem !! a with Some _ => true | None => false end = true -> is_Some (mem !! a).
Proof. destruct (mem !! a); [by eexists|done]. Qed.

Lemma shape_K : instanceShape mem K = Some four_shape.
Proof. vm_compute. reflexivity. Qed.

Lemma four_vars tags body i : in_vars mem (mkObject K 0 0 0 tags body) i -> (i < 4)%nat.
Proof.
  intros (sh & n & Hsh & Hn & Hi). cbn [o_class] in Hsh. rewrite shape_K in Hsh. injection Hsh as <-.
  change (varsCount _ _) with (Some 4%nat) in Hn. injection Hn as <-. change (getRawObjectVars four_shape) with 0%nat in Hi. lia.
Qed.

Lemma four_wf a tags body : addr_ok a -> length body = 4%nat ->
  Forall (fun v => valueTypeOf v VALUE_POINTER = true -> is_Some (mem !! (v - 1))) body ->
  Z.testbit tags 3 = false -> (isNewObject a = true -> Z.testbit tags 5 = false) -> object_wf mem a (mkObject K 0 0 0 tags body).
Proof.
  intros Ha Hl Hb Ht3 Ht5. constructor; cbn [o_class o_body]; try done.
  - exists four_shape, 4%nat, 48. rewrite shape_K, Hl. by split_and!.
  - by rewrite Hl.
  - intros sh. rewrite shape_K. intros [= <-]. done.
  - intros i v _ Hv. rewrite Forall_forall in Hb. apply Hb. by eapply list_elem_of_lookup_2.
  - intros c w Hc. vm_compute in Hc. injection Hc as <-. cbn. intros [= <-]. done.
  - split; [change TAG_FORWARDED with (2 ^ 3)|intros Hn; change TAG_REMEMBERED with (2 ^ 5)]; rewrite has_tag_bit by lia; [done|by apply Ht5].
Qed.

Lemma start_objects (P : Z -> RawObject -> Prop) : Forall (fun '(a, o) => P a o) objects -> forall a o, mem !! a = Some o -> P a o.
Proof.
  intros HP a o Ha. apply elem_of_list_to_map_2 in Ha. rewrite Forall_forall in HP. by apply (HP (a, o)).
Qed.

(** Decides facts about the concrete heap. *)
Ltac each := unfold objects; repeat first [apply Forall_nil_2|apply Forall_cons_2].
Ltac concrete := solve [done | split; done | lia | (apply known; vm_compute; reflexivity) | (vm_compute; congruence)].

Lemma start_wf : heap_wf mem.
Proof.
  unfold heap_wf. apply start_objects.
  each; (apply four_wf; [by split|done| |done|done]);
    each; intros Hv; concrete.
Qed.

Lemma referent_four raw a tags body b : mem !! a = Some (mkObject K 0 0 0 tags body) -> referent mem cells raw a b ->
  b = K \/ exists v, v ∈ body /\ valueTypeOf v VALUE_POINTER = true /\ b = v - 1.
Proof.
  intros Ha (p & v & [Ho Hv] & Hr & Ht). destruct p as [x|x i|n]; cbn [owner] in Ho; [| |done]; injection Ho as ->; cbn [read0] in Hr; rewrite Ha in Hr.
  - injection Hr as <-. unfold target in Ht. cbn [slot_raw] in Ht. left. by injection Ht.
  - cbn [mbind option_bind o_body] in Hr. unfold target in Ht. cbn [slot_raw] in Ht. right.
    destruct (valueTypeOf v VALUE_POINTER) eqn:E; [|done]. injection Ht as <-. exists v. split; [by eapply list_elem_of_lookup_2|done].
Qed.

Definition start_cells : list Root := default [] (root_cells roots).

Lemma start_cell n v k : cells !! n = Some v -> (forall a, target untagged (Cell n) v = Some a -> is_Some (mem !! a)) ->
  kind_ok mem cells untagged env n v k -> root_ok mem cells untagged env (n, k).
Proof. intros Hv Ht Hk. exists v. split; [done|]. split; [|done]. intros w a Hw. cbn [fst] in *. rewrite Hv in Hw. injection Hw as <-. apply Ht. Qed.

Lemma start_handler : handler_ok mem cells untagged env [3; 4; 5; 6]%nat (Hd + 1).
Proof.
  eexists _, C, _, FRAME, frame, 6%nat. split; [vm_compute; reflexivity|]. split.
  { exists four_shape, 4%nat. split; [vm_compute; reflexivity|]. split; [done|]. by split; apply Nat.leb_le. }
  split; [done|]. split; [vm_compute; reflexivity|]. do 7 (split; [done|]). split; [by repeat constructor|]. by left.
Qed.

Lemma start_collectable : collectable untagged env start roots start_cells.
Proof.
  constructor.
  - exact start_wf.
  - intros n v Hv. apply list_elem_of_lookup_2 in Hv. revert v Hv. apply Forall_forall.
    each; unfold N, B, R, A, C, Hd; lia.
  - done.
  - by split_and!.
  - by left.
  - intros a [o Ha]. revert a o Ha. apply (start_objects (fun a _ => isNewObject a = true -> LOW <= a < LOW + 1016)).
    each; intros Hn; first [done|unfold LOW, A, B, C, G; lia].
  - vm_compute. congruence.
  - intros a [o Ha]. revert a o Ha. apply (start_objects (fun a _ => isNewObject a = false -> a ∈ old_objects (s_old start))).
    each; intros Hn; first [done|by apply (bool_decide_unpack _)].
  - exists 1000. split; [vm_compute; congruence|]. unfold old_room, bump_room. cbn. split_and!; try done.
    intros a Ha. apply elem_of_list_to_set in Ha. revert a Ha. apply Forall_forall. each; done.
  - apply Forall_forall. each; (split; [concrete|done]).
  - intros a b [o Ha] Hn Hr Hb. revert Ha Hn Hr. revert a o. apply (start_objects (fun a o => isNewObject a = false -> referent mem cells untagged a b -> a ∈ [R; Hd])).
    each; intros Hn Hr; try done; try (by left); try (by right; left).
    1: destruct (referent_four untagged K 0 [0; 0; 0; four] b ltac:(vm_compute; reflexivity) Hr) as [->|(v & Hv & Hp & ->)]; [done|].
    2: destruct (referent_four untagged N 0 [0; 0; 0; 0] b ltac:(vm_compute; reflexivity) Hr) as [->|(v & Hv & Hp & ->)]; [done|].
    all: repeat (apply elem_of_cons in Hv as [->|Hv]; [done|]); by apply elem_of_nil in Hv.
  - done.
  - apply (bool_decide_unpack _). vm_compute. exact I.
  - unfold start_cells. cbn. each; (eapply start_cell; [reflexivity|intros a Ha; vm_compute in Ha; first [done|injection Ha as <-; concrete]|]).
    all: first [done|split; done|split; [done|by right]|split; [done|by left]|idtac].
    split; [done|]. right. split; [done|exact start_handler].
  - left. split; [done|]. apply (start_objects (fun a o => isNewObject a = true ->
      o_class o <> LOW /\ forall c, mem !! o_class o = Some c -> o_class c <> LOW)).
    each; (intros _; split; [done|]; intros c Hc; vm_compute in Hc; injection Hc as <-; done).
Qed.

Lemma scavengerScavenge_collects_witness :
  collectable untagged env start roots start_cells /\
  exists f s' sched, scavengerScavenge env start roots = Some (s', sched) /\ collected untagged start roots start_cells f s' sched.
Proof. split; [exact start_collectable|]. exact (scavengerScavenge_collects untagged env start roots start_cells start_collectable). Defined.

(** *** What the checks drop *)

(** The heap above with a young handler in place of the old one. *)
Definition YH : Z := 65736.
Definition young_handler : Scavenger :=
  heap (instance K 0 [0; 0; C + 1; 0] YH :: objects) (<[7%nat := YH + 1]> cells) LOW HIGH B [].

(** A class [YK] that is young and the first object of the source semispace,
    with an instance [YI]; a handle holds the class and the
    destination semispace is the lower one. *)
Definition YK : Z := 66568.
Definition YI : Z := 66616.
Definition young_class : Scavenger :=
  heap [instance K 0 [0; 0; 0; four] K; instance K 0 [0; 0; 0; 0] N;
        instance K 0 [0; 0; 0; four] YK; instance YK 0 [0; 0; 0; 0] YI] [N; YK; 0; N + 1; YI + 1; 8; 8] HIGH LOW HIGH [].
Definition young_class_roots : Roots :=
  mkRoots [mkMutator true [0; 1]%nat [] 2 (t_stackFrames mutator) None None None []] [] None [].

(** C36. Two checks of the scavenger drop live roots.  In [young_handler] the
    head of the on:do: chain is a young handler whose context is the live
    context of [frame]; the stack is walked first, so the frame's slot already
    holds the context's new address when the handler's context, still the old
    address, is compared with it, and the chain is emptied.  In [young_class]
    a live object on the stack is an instance of a young class that was copied
    to the start of the lower semispace; the range check is made on the class's
    address without its space bit, which lies just below the range, and the
    slot is overwritten with nil. *)
Theorem scavenge_drops_live_roots :
  (exists s' sched, scavengerScavenge env young_handler roots = Some (s', sched) /\
     s_cells young_handler !! 7%nat = Some (tagPtr YH) /\ s_cells s' !! 7%nat = Some 0 /\
     exists c o, s_cells s' !! 6%nat = Some (tagPtr c) /\ s_mem s' !! c = Some o /\ o_body o !! CONTEXT_FRAME = Some FRAME) /\
  (exists s' sched, scavengerScavenge env young_class young_class_roots = Some (s', sched) /\
     s_cells young_class !! 4%nat = Some (tagPtr YI) /\ s_cells s' !! 4%nat = Some (tagPtr N)).
Proof.
  split.
  - assert (option_map (fun '(s, _) => (s_cells s !! 6%nat, s_cells s !! 7%nat, (o ← s_mem s !! 66616; o_body o !! CONTEXT_FRAME)))
      (scavengerScavenge env young_handler roots) = Some (Some (tagPtr 66616), Some 0, Some FRAME)) as E by (vm_compute; reflexivity).
    destruct (scavengerScavenge env young_handler roots) as [[s' sched]|]; [|done]. injection E as E6 E7 EC.
    exists s', sched. split; [done|]. split; [done|]. split; [done|].
    destruct (s_mem s' !! 66616) as [o|] eqn:Eo; [|done]. by exists 66616, o.
  - assert (option_map (fun '(s, _) => s_cells s !! 4%nat) (scavengerScavenge env young_class young_class_roots) = Some (Some (tagPtr N))) as E
      by (vm_compute; reflexivity).
    destruct (scavengerScavenge env young_class young_class_roots) as [[s' sched]|]; [|done]. injection E as E4. by exists s', sched.
Qed.
End ScavengeExamples.
