(* ===== verification/Safepoint.v ===== *)
(** * Stopping the world

    The handshake by which one mutator of a shared heap stops the others to
    collect it ([src/vm/memory/Heap.c]): [heapGcPoll], [heapGcBegin],
    [heapGcEnd], [heapGcEnterBlocked], [heapGcLeaveBlocked], the registration
    of mutators, the locks that are taken in the blocked state, and the young
    collection that uses them; with them the epoch by which a thread learns
    that its lookup cache is stale ([src/vm/core/Lookup.c]).

    A state has any number of threads; the threads interleave.  A section under
    [safepointLock] is one step, and so is each of the accesses outside such a
    section.  Waiting on the condition variable ends a section: the thread
    sleeps until a broadcast, then wants the lock again and tests its condition
    anew; it may also wake up by itself.  What managed code does between two
    calls is the choice of the next call. *)
From S2P Require Import Prelude.
From stdpp Require Import base list decidable functions.

(** ** State *)

(** The locks that a thread waits for in the blocked state. *)
Inductive LockId := Codegen | Symbols | Stripe (n : nat).
#[export] Instance LockId_eq_dec : EqDecision LockId.
Proof. solve_decision. Defined.

(** What a thread is in the blocked state for: a system call, the lock of the
    collectors (to collect, or to leave the heap), another lock. *)
Inductive Purpose := Syscall | Collect | Depart | Acquire (l : LockId).
#[export] Instance Purpose_eq_dec : EqDecision Purpose.
Proof. solve_decision. Defined.

(** Where a thread is.  [woken] is set once a sleeper is to test again. *)
Inductive Pc :=
  | Outside                                  (* not a mutator of the heap *)
  | Joining                                  (* heapAddMutator, before gcLock *)
  | Running                                  (* managed code *)
  | PollSlow                                 (* heapGcPoll, has seen the flag, before safepointLock *)
  | Parked (woken : bool)                    (* heapGcPoll, waiting *)
  | PollResumed                              (* heapGcPoll, before lookupCacheOnGcResume *)
  | Entering (w : Purpose)                   (* before heapGcEnterBlocked *)
  | Away (w : Purpose)                       (* blocked *)
  | Returning (w : Purpose)                  (* before heapGcLeaveBlocked *)
  | ReturnWait (w : Purpose) (woken : bool)  (* heapGcLeaveBlocked, waiting *)
  | Resumed (w : Purpose)                    (* heapGcLeaveBlocked, before lookupCacheOnGcResume *)
  | Deciding                                 (* heapCollectYoung, has gcLock *)
  | BeginWait (woken : bool)                 (* heapGcBegin, waiting *)
  | Collecting (stopped : bool)              (* scavengerScavenge, with or without a stop *)
  | Finishing                                (* heapCollectYoung, before lookupCacheOnGcResume *)
  | Departing.                               (* heapEndMutator, has gcLock *)

(** [gCodegenDepth], [gSymbolDepth] are per thread; [cacheFilled] is the epoch of
    the oldest entry of the thread's lookup cache. *)
Record Thread := mkThread {
  pc : Pc;
  spAtSafepoint : bool;
  spBlocked : bool;
  lookupCacheEpoch : nat;
  cacheFilled : option nat;
  codegenDepth : nat;
  symbolDepth : nat }.

Record State := mkState {
  safepointRequested : bool;
  gcLock : option nat;
  mutators : list nat;
  gcEpoch : nat;
  owner : LockId -> option nat;
  threads : nat -> Thread }.

Definition set_pc (p : Pc) (t : Thread) : Thread :=
  mkThread p (spAtSafepoint t) (spBlocked t) (lookupCacheEpoch t) (cacheFilled t) (codegenDepth t) (symbolDepth t).
Definition set_atSafepoint (b : bool) (t : Thread) : Thread :=
  mkThread (pc t) b (spBlocked t) (lookupCacheEpoch t) (cacheFilled t) (codegenDepth t) (symbolDepth t).
Definition set_blocked (b : bool) (t : Thread) : Thread :=
  mkThread (pc t) (spAtSafepoint t) b (lookupCacheEpoch t) (cacheFilled t) (codegenDepth t) (symbolDepth t).
Definition set_cache (e : nat) (c : option nat) (t : Thread) : Thread :=
  mkThread (pc t) (spAtSafepoint t) (spBlocked t) e c (codegenDepth t) (symbolDepth t).
Definition set_depth (l : LockId) (n : nat) (t : Thread) : Thread :=
  match l with
  | Codegen => mkThread (pc t) (spAtSafepoint t) (spBlocked t) (lookupCacheEpoch t) (cacheFilled t) n (symbolDepth t)
  | Symbols => mkThread (pc t) (spAtSafepoint t) (spBlocked t) (lookupCacheEpoch t) (cacheFilled t) (codegenDepth t) n
  | Stripe _ => t
  end.

Definition set_requested (b : bool) (s : State) : State :=
  mkState b (gcLock s) (mutators s) (gcEpoch s) (owner s) (threads s).
Definition set_gcLock (o : option nat) (s : State) : State :=
  mkState (safepointRequested s) o (mutators s) (gcEpoch s) (owner s) (threads s).
Definition set_mutators (l : list nat) (s : State) : State :=
  mkState (safepointRequested s) (gcLock s) l (gcEpoch s) (owner s) (threads s).
Definition set_epoch (e : nat) (s : State) : State :=
  mkState (safepointRequested s) (gcLock s) (mutators s) e (owner s) (threads s).
Definition set_owner (l : LockId) (o : option nat) (s : State) : State :=
  mkState (safepointRequested s) (gcLock s) (mutators s) (gcEpoch s) (<[l := o]> (owner s)) (threads s).
Definition set_thread (i : nat) (t : Thread) (s : State) : State :=
  mkState (safepointRequested s) (gcLock s) (mutators s) (gcEpoch s) (owner s) (<[i := t]> (threads s)).
Definition goto (i : nat) (p : Pc) (s : State) : State := set_thread i (set_pc p (threads s i)) s.

(** [osCondBroadcast(&heap->safepointCond)] *)
Definition wake_pc (p : Pc) : Pc :=
  match p with
  | Parked _ => Parked true
  | ReturnWait w _ => ReturnWait w true
  | BeginWait _ => BeginWait true
  | p => p
  end.
Definition broadcast (s : State) : State :=
  mkState (safepointRequested s) (gcLock s) (mutators s) (gcEpoch s) (owner s)
    (fun j => set_pc (wake_pc (pc (threads s j))) (threads s j)).

(** ** The code *)

Definition lookupCacheOnGcResume (s : State) (t : Thread) : Thread :=
  if lookupCacheEpoch t =? gcEpoch s then t else set_cache (gcEpoch s) None t.

(** [heapGcPoll]: the load before the lock. *)
Definition heapGcPoll (s : State) (i : nat) : State :=
  if safepointRequested s then goto i PollSlow s else s.

(** [heapGcPoll]: from the lock to the wait, or to the end. *)
Definition heapGcPoll_slow (s : State) (i : nat) : State :=
  if safepointRequested s then
    let s := set_thread i (set_atSafepoint true (threads s i)) s in
    goto i (Parked false) (broadcast s)
  else goto i PollResumed s.

(** [heapGcPoll]: the loop condition again. *)
Definition heapGcPoll_woken (s : State) (i : nat) : State :=
  if safepointRequested s then goto i (Parked false) s
  else goto i PollResumed (set_thread i (set_atSafepoint false (threads s i)) s).

Definition heapAllSafe (s : State) (exclude : nat) : bool :=
  forallb (fun j => (j =? exclude) || spAtSafepoint (threads s j) || spBlocked (threads s j)) (mutators s).

(** [heapGcBegin]: the loop, after the flag is set or after a wait. *)
Definition heapGcBegin_wait (s : State) (i : nat) : State :=
  if heapAllSafe s i then goto i (Collecting true) s else goto i (BeginWait false) s.
Definition heapGcBegin (s : State) (i : nat) : State := heapGcBegin_wait (set_requested true s) i.

Definition heapGcEnd (s : State) : State := broadcast (set_requested false s).

Definition heapGcEnterBlocked (s : State) (i : nat) (w : Purpose) : State :=
  goto i (Away w) (broadcast (set_thread i (set_blocked true (threads s i)) s)).

(** [heapGcLeaveBlocked], at the start and after a wait. *)
Definition heapGcLeaveBlocked (s : State) (i : nat) (w : Purpose) : State :=
  if safepointRequested s then goto i (ReturnWait w false) s
  else goto i (Resumed w) (set_thread i (set_blocked false (threads s i)) s).

Definition heapAddMutator (s : State) (i : nat) : State := goto i Running (set_mutators (i :: mutators s) s).

(** [heapEndMutator], once it has gcLock; the thread and its cache are gone. *)
Definition heapEndMutator (s : State) (i : nat) : State :=
  let s := set_mutators (filter (fun j => j <> i) (mutators s)) s in
  let s := set_gcLock None s in
  set_thread i (set_pc Outside (set_cache (lookupCacheEpoch (threads s i)) None (threads s i))) s.

Definition reentrant (l : LockId) : bool := match l with Stripe _ => false | _ => true end.
Definition depthOf (l : LockId) (t : Thread) : nat :=
  match l with Codegen => codegenDepth t | Symbols => symbolDepth t | Stripe _ => 0 end.

(** The body that the [...Enter] functions share: a counted lock is taken when
    the count leaves 0, a stripe always. *)
Definition lockEnter (s : State) (i : nat) (l : LockId) : State :=
  let t := threads s i in
  let s := set_thread i (set_depth l (S (depthOf l t)) t) s in
  if depthOf l t =? 0 then goto i (Entering (Acquire l)) s else s.

(** The body that the [...Leave] functions share. *)
Definition lockLeave (s : State) (i : nat) (l : LockId) : State :=
  let t := threads s i in
  let s := set_thread i (set_depth l (Nat.pred (depthOf l t)) t) s in
  if (Nat.pred (depthOf l t) =? 0) then set_owner l None s else s.

Definition heapCodegenLockEnter (s : State) (i : nat) : State := lockEnter s i Codegen.
Definition heapCodegenLockLeave (s : State) (i : nat) : State := lockLeave s i Codegen.
Definition heapSymbolLockEnter (s : State) (i : nat) : State := lockEnter s i Symbols.
Definition heapSymbolLockLeave (s : State) (i : nat) : State := lockLeave s i Symbols.
Definition heapMonitorEnterStripe (s : State) (i : nat) (n : nat) : State := lockEnter s i (Stripe n).
Definition heapMonitorExitStripe (s : State) (i : nat) (n : nat) : State := lockLeave s i (Stripe n).

Definition enterLock (s : State) (i : nat) (l : LockId) : State :=
  match l with
  | Codegen => heapCodegenLockEnter s i
  | Symbols => heapSymbolLockEnter s i
  | Stripe n => heapMonitorEnterStripe s i n
  end.
Definition leaveLock (s : State) (i : nat) (l : LockId) : State :=
  match l with
  | Codegen => heapCodegenLockLeave s i
  | Symbols => heapSymbolLockLeave s i
  | Stripe n => heapMonitorExitStripe s i n
  end.
Lemma enterLock_eq s i l : enterLock s i l = lockEnter s i l.
Proof. by destruct l. Qed.
Lemma leaveLock_eq s i l : leaveLock s i l = lockLeave s i l.
Proof. by destruct l. Qed.

(** [heapCollectYoung] with gcLock in hand; [needed] is the second look at the
    room left. *)
Definition heapCollectYoung (s : State) (i : nat) (needed : bool) : State :=
  match mutators s with
  | [] | [_] => goto i (Collecting false) s
  | _ => if needed then heapGcBegin s i else goto i Running (set_gcLock None s)
  end.

(** The end of the collection: the epoch, and the others are let go. *)
Definition finishCollection (s : State) (i : nat) (stopped : bool) : State :=
  let s := set_epoch (S (gcEpoch s)) s in
  let s := if stopped then heapGcEnd s else s in
  goto i Finishing s.

(** A lookup in managed code that misses fills an entry. *)
Definition fillCache (s : State) (i : nat) : State :=
  let t := threads s i in
  set_thread i (set_cache (lookupCacheEpoch t) (Some (default (gcEpoch s) (cacheFilled t))) t) s.

(** ** Steps *)

(** What a thread does next when it has a choice; [Go] where it has none, and
    [Wake] is a wakeup without a broadcast. *)
Inductive Action :=
  | Join | Poll | Block | Gc | Exit | Lock (l : LockId) | Unlock (l : LockId) | Lookup
  | Return | Decide (needed : bool) | Go | Wake.

(** After [lookupCacheOnGcResume]. *)
Definition continue (w : Purpose) : Pc := match w with Collect => Deciding | Depart => Departing | _ => Running end.

(** [osMutexLock(&heap->gcLock)], or another lock. *)
Definition take (s : State) (i : nat) (w : Purpose) : option State :=
  match w with
  | Syscall => None
  | Collect | Depart => if gcLock s then None else Some (goto i (Returning w) (set_gcLock (Some i) s))
  | Acquire l => if owner s l then None else Some (goto i (Returning w) (set_owner l (Some i) s))
  end.

Definition step (a : Action) (i : nat) (s : State) : option State :=
  let t := threads s i in
  match pc t, a with
  | Outside, Join => Some (goto i Joining s)
  | Joining, Go => if gcLock s then None else Some (heapAddMutator s i)
  | Running, Poll => Some (heapGcPoll s i)
  | Running, Block => Some (goto i (Entering Syscall) s)
  | Running, Gc => Some (goto i (Entering Collect) s)
  | Running, Exit =>
      if (codegenDepth t =? 0) && (symbolDepth t =? 0) then Some (goto i (Entering Depart) s) else None
  | Running, Lock l => Some (enterLock s i l)
  | Running, Unlock l => if decide (owner s l = Some i) then Some (leaveLock s i l) else None
  | Running, Lookup => Some (fillCache s i)
  | PollSlow, Go => Some (heapGcPoll_slow s i)
  | Parked true, Go => Some (heapGcPoll_woken s i)
  | PollResumed, Go => Some (set_thread i (set_pc Running (lookupCacheOnGcResume s t)) s)
  | Entering w, Go => Some (heapGcEnterBlocked s i w)
  | Away Syscall, Return => Some (goto i (Returning Syscall) s)
  | Away w, Go => take s i w
  | Returning w, Go => Some (heapGcLeaveBlocked s i w)
  | ReturnWait w true, Go => Some (heapGcLeaveBlocked s i w)
  | Resumed w, Go => Some (set_thread i (set_pc (continue w) (lookupCacheOnGcResume s t)) s)
  | Deciding, Decide needed => Some (heapCollectYoung s i needed)
  | BeginWait true, Go => Some (heapGcBegin_wait s i)
  | Collecting stopped, Go => Some (finishCollection s i stopped)
  | Finishing, Go => Some (set_gcLock None (set_thread i (set_pc Running (lookupCacheOnGcResume s t)) s))
  | Departing, Go => Some (heapEndMutator s i)
  | (Parked false | ReturnWait _ false | BeginWait false), Wake => Some (goto i (wake_pc (pc t)) s)
  | _, _ => None
  end.

(** A heap without mutators. *)
Definition initial (s : State) : Prop :=
  safepointRequested s = false /\ gcLock s = None /\ mutators s = [] /\ (forall l, owner s l = None) /\
  forall i, threads s i = mkThread Outside false false 0 None 0 0.

Inductive reachable : State -> Prop :=
  | reach_initial s : initial s -> reachable s
  | reach_step s a i s' : reachable s -> step a i s = Some s' -> reachable s'.

(** ** The invariant *)

Definition parked (p : Pc) : bool := match p with Parked _ => true | _ => false end.
Definition away (p : Pc) : bool := match p with Away _ | Returning _ | ReturnWait _ _ => true | _ => false end.

(** The thread is where a collection may run past it. *)
Definition safe (p : Pc) : bool := parked p || away p.

Definition holdsGc (p : Pc) : bool :=
  match p with
  | Returning (Collect | Depart) | ReturnWait (Collect | Depart) _ | Resumed (Collect | Depart) => true
  | Deciding | BeginWait _ | Collecting _ | Finishing | Departing => true
  | _ => false
  end.
Definition member (p : Pc) : bool := match p with Outside | Joining => false | _ => true end.
Definition stopping (p : Pc) : bool := match p with BeginWait _ | Collecting true => true | _ => false end.
Definition asleep (p : Pc) : bool := match p with Parked false | ReturnWait _ false => true | _ => false end.

(** The lookup cache may be used: no collection has passed since it was last
    checked. *)
Definition current (p : Pc) : bool := match p with PollResumed | Resumed _ | Finishing => false | p => negb (safe p) end.
Definition waitsFor (l : LockId) (p : Pc) : bool :=
  match p with Entering (Acquire l') | Away (Acquire l') => bool_decide (l = l') | _ => false end.

Record thread_ok (s : State) (i : nat) (t : Thread) : Prop := {
  t_at : spAtSafepoint t = parked (pc t);
  t_blocked : spBlocked t = away (pc t);
  t_gc : holdsGc (pc t) = true <-> gcLock s = Some i;
  t_asleep : asleep (pc t) = true -> safepointRequested s = true;
  t_stopping : stopping (pc t) = true -> safepointRequested s = true;
  t_member : i ∈ mutators s <-> member (pc t) = true;
  t_epoch : lookupCacheEpoch t <= gcEpoch s;
  t_filled : forall e, cacheFilled t = Some e -> lookupCacheEpoch t <= e <= gcEpoch s /\ (current (pc t) = true -> e = gcEpoch s);
  t_gone : member (pc t) = false -> cacheFilled t = None;
  t_depth : forall l, reentrant l = true ->
    if waitsFor l (pc t) then depthOf l t = 1 /\ owner s l <> Some i else (depthOf l t <> 0 <-> owner s l = Some i) }.

Record inv (s : State) : Prop := {
  g_threads : forall i, thread_ok s i (threads s i);
  g_nodup : NoDup (mutators s);
  g_request : safepointRequested s = true -> exists c, stopping (pc (threads s c)) = true;
  g_stopped : forall c j, pc (threads s c) = Collecting true -> j ∈ mutators s -> j <> c -> safe (pc (threads s j)) = true;
  g_alone : forall c j, pc (threads s c) = Collecting false -> j ∈ mutators s -> j = c;
  g_waits : forall c, pc (threads s c) = BeginWait false ->
    exists j, j ∈ mutators s /\ j <> c /\ safe (pc (threads s j)) = false }.

(** The threads matter one by one. *)
Lemma inv_ext s s' : safepointRequested s' = safepointRequested s /\ gcLock s' = gcLock s /\ mutators s' = mutators s /\
  gcEpoch s' = gcEpoch s /\ owner s' = owner s /\ (forall j, threads s' j = threads s j) -> inv s -> inv s'.
Proof.
  destruct s as [r g m e o th], s' as [r' g' m' e' o' th']; cbn. intros (-> & -> & -> & -> & -> & Ht) [GT GN GR GS GA GW]. constructor; cbn in *.
  - intros i. rewrite Ht. destruct (GT i). by constructor.
  - done.
  - intros Hr. destruct (GR Hr) as [c Hc]. exists c. by rewrite Ht.
  - intros c j. rewrite !Ht. apply GS.
  - intros c j. rewrite Ht. apply GA.
  - intros c. rewrite Ht. intros Hc. destruct (GW c Hc) as (j & Hj). exists j. by rewrite Ht.
Qed.

(** What other threads need of a change of the shared fields. *)
Lemma thread_frame s s' i t :
  thread_ok s i t -> (gcLock s' = Some i <-> gcLock s = Some i) ->
  (asleep (pc t) || stopping (pc t) = true -> safepointRequested s = true -> safepointRequested s' = true) ->
  (i ∈ mutators s' <-> i ∈ mutators s) -> gcEpoch s <= gcEpoch s' ->
  (gcEpoch s' = gcEpoch s \/ current (pc t) = false \/ cacheFilled t = None) ->
  (forall l, owner s' l = Some i <-> owner s l = Some i) -> thread_ok s' i t.
Proof.
  intros [] Hg Hr Hm He Hc Ho. constructor; try done.
  - by rewrite Hg.
  - intros Ha. apply Hr; [by rewrite Ha|auto].
  - intros Ha. apply Hr; [rewrite Ha; apply orb_true_r|auto].
  - by rewrite Hm.
  - lia.
  - intros e Hf. destruct (t_filled0 e Hf) as [? Hcur]. split; [lia|]. intros Hcu. specialize (Hcur Hcu).
    destruct Hc as [->|[Hc|Hc]]; [done|congruence|congruence].
  - intros l Hl. specialize (t_depth0 l Hl). destruct (waitsFor l (pc t)); by rewrite Ho.
Qed.

Lemma wake_ok s i t : thread_ok s i t -> thread_ok s i (set_pc (wake_pc (pc t)) t).
Proof.
  intros []. destruct t as [p ? ? ? ? ? ?]; cbn in *. constructor; cbn; try done; try (by destruct p); destruct p; cbn in *; try done.
  all: intros l Hl; specialize (t_depth0 l Hl); done.
Qed.

Lemma wake_same p : safe (wake_pc p) = safe p /\ stopping (wake_pc p) = stopping p /\ member (wake_pc p) = member p /\
  (forall b, wake_pc p = Collecting b -> p = Collecting b) /\ wake_pc p <> BeginWait false.
Proof. by destruct p. Qed.

Definition wake (t : Thread) : Thread := set_pc (wake_pc (pc t)) t.

(** One thread changes, and the others may be woken. *)
Lemma change (b : bool) s s' i : inv s ->
  (forall j, j <> i -> threads s' j = if b then wake (threads s j) else threads s j) ->
  thread_ok s' i (threads s' i) ->
  (forall j, j <> i -> thread_ok s' j (if b then wake (threads s j) else threads s j)) ->
  NoDup (mutators s') -> (forall j, j <> i -> j ∈ mutators s' <-> j ∈ mutators s) ->
  (safepointRequested s' = true -> stopping (pc (threads s' i)) = true \/
     exists c, c <> i /\ stopping (pc (threads s c)) = true) ->
  (forall c, c <> i -> pc (threads s c) = Collecting true -> i ∈ mutators s' -> safe (pc (threads s' i)) = true) ->
  (forall c, c <> i -> pc (threads s c) = Collecting false -> i ∉ mutators s') ->
  (pc (threads s' i) = Collecting true -> forall j, j ∈ mutators s' -> j <> i -> safe (pc (threads s j)) = true) ->
  (pc (threads s' i) = Collecting false -> forall j, j ∈ mutators s' -> j = i) ->
  (b = false -> forall c, c <> i -> pc (threads s c) = BeginWait false -> i ∈ mutators s -> safe (pc (threads s i)) = false ->
     i ∈ mutators s' /\ safe (pc (threads s' i)) = false) ->
  (pc (threads s' i) = BeginWait false -> exists j, j ∈ mutators s' /\ j <> i /\ safe (pc (threads s j)) = false) ->
  inv s'.
Proof.
  intros I Hj Hi Hf Hnd Hm Hr H1 H2 H3 H4 H5 H6.
  assert (forall j, j <> i -> safe (pc (threads s' j)) = safe (pc (threads s j)) /\
    stopping (pc (threads s' j)) = stopping (pc (threads s j)) /\
    (forall x, pc (threads s' j) = Collecting x -> pc (threads s j) = Collecting x) /\
    (pc (threads s' j) = BeginWait false -> b = false /\ pc (threads s j) = BeginWait false)) as Hpc.
  { intros j Hne. rewrite (Hj j Hne). destruct b; [|done]. destruct (wake_same (pc (threads s j))) as (? & ? & _ & ? & ?).
    unfold wake. cbn. split_and!; try done. }
  constructor.
  - intros j. destruct (decide (j = i)) as [->|Hne]; [done|]. rewrite (Hj j Hne). by apply Hf.
  - done.
  - intros Hreq. destruct (Hr Hreq) as [Hs|(c & Hne & Hs)]; [by exists i|]. exists c. by rewrite (proj1 (proj2 (Hpc c Hne))).
  - intros c j Hc Hjm Hne. destruct (decide (c = i)) as [->|Hci].
    + rewrite (proj1 (Hpc j Hne)). by apply H3.
    + apply Hpc in Hc; [|done]. destruct (decide (j = i)) as [->|Hji]; [by apply (H1 c)|].
      rewrite (proj1 (Hpc j Hji)). apply (g_stopped _ I c); [done|by apply Hm|done].
  - intros c j Hc Hjm. destruct (decide (c = i)) as [->|Hci]; [by apply H4|]. apply Hpc in Hc; [|done].
    destruct (decide (j = i)) as [->|Hji]; [by destruct (H2 c Hci Hc)|]. apply (g_alone _ I c); [done|by apply Hm].
  - intros c Hc. destruct (decide (c = i)) as [->|Hci].
    + destruct (H6 Hc) as (j & ? & Hne & Hs). exists j. by rewrite (proj1 (Hpc j Hne)).
    + apply Hpc in Hc as [Hb Hc]; [|done]. destruct (g_waits _ I c Hc) as (j & Hjm & Hjc & Hs).
      destruct (decide (j = i)) as [->|Hji]; [exists i; by destruct (H5 Hb c Hci Hc Hjm Hs)|].
      exists j. rewrite (proj1 (Hpc j Hji)). split_and!; [by apply Hm|done|done].
Qed.

(** Only one thread holds the lock of the collectors. *)
Lemma gc_unique s i c : inv s -> holdsGc (pc (threads s i)) = true -> holdsGc (pc (threads s c)) = true -> c = i.
Proof. intros I Hi Hc. apply (t_gc _ _ _ (g_threads _ I i)) in Hi. apply (t_gc _ _ _ (g_threads _ I c)) in Hc. congruence. Qed.

Lemma stopping_holds p : stopping p = true -> holdsGc p = true.
Proof. by destruct p as [| | | | | | | | | | | | |[]| |]. Qed.

(** Threads other than the collector, while it waits or collects. *)
Lemma not_collecting s c b : inv s -> safepointRequested s = false -> pc (threads s c) = Collecting b -> b = false.
Proof.
  intros I Hr Hc. destruct b; [|done]. pose proof (t_stopping _ _ _ (g_threads _ I c)) as Hs. rewrite Hc in Hs.
  specialize (Hs eq_refl). congruence.
Qed.

(** A collector that did not stop the others is the only mutator. *)
Lemma alone_not_member s i c : inv s -> c <> i -> pc (threads s c) = Collecting false -> i ∉ mutators s.
Proof. intros I Hne Hc Hi. by apply Hne, eq_sym, (g_alone _ I c). Qed.

(** A step that is neither the start nor the end of a collection, nor of a
    thread's time as a mutator. *)
Lemma local (b : bool) s s' i : inv s ->
  (forall j, j <> i -> threads s' j = if b then wake (threads s j) else threads s j) ->
  safepointRequested s' = safepointRequested s -> mutators s' = mutators s -> gcEpoch s' = gcEpoch s ->
  (forall j, j <> i -> gcLock s' = Some j <-> gcLock s = Some j) ->
  (forall j l, j <> i -> owner s' l = Some j <-> owner s l = Some j) ->
  thread_ok s' i (threads s' i) -> stopping (pc (threads s' i)) = stopping (pc (threads s i)) ->
  match pc (threads s' i) with Collecting _ | BeginWait false => False | _ => True end ->
  (safe (pc (threads s i)) = true -> safe (pc (threads s' i)) = true \/ safepointRequested s = false) ->
  (b = false -> safe (pc (threads s i)) = false -> safe (pc (threads s' i)) = false) -> inv s'.
Proof.
  intros I Hj Hr Hm He Hg Ho Hi Hst Hq Hs1 Hs2. apply (change b s s' i I Hj Hi).
  - intros j Hne. assert (thread_ok s' j (threads s j)) as T; [|destruct b; [by apply wake_ok|done]].
    eapply thread_frame; [apply (g_threads _ I)|by apply Hg|by rewrite Hr|by rewrite Hm|lia|by left|intros l; by apply Ho].
  - rewrite Hm. apply I.
  - intros j _. by rewrite Hm.
  - rewrite Hr. intros Hreq. destruct (g_request _ I Hreq) as [c Hc]. destruct (decide (c = i)) as [->|Hne]; [left; by rewrite Hst|right; by exists c].
  - intros c Hne Hc. rewrite Hm. intros Him. pose proof (g_stopped _ I c i Hc Him ltac:(done)) as Hsafe.
    destruct (Hs1 Hsafe) as [|Hreq]; [done|]. by apply (not_collecting s c true I Hreq) in Hc.
  - intros c Hne Hc. rewrite Hm. by eapply alone_not_member.
  - intros E. by rewrite E in Hq.
  - intros E. by rewrite E in Hq.
  - intros Hb c Hne Hc Him Hs. rewrite Hm. auto.
  - intros E. by rewrite E in Hq.
Qed.

Lemma insert_other (th : nat -> Thread) i t j : j <> i -> <[i := t]> th j = th j.
Proof. intros Hne. by apply fn_lookup_insert_ne. Qed.

(** Solves the obligations of [local] for a step of thread [i] that only changes
    its own record. *)
Ltac own_step I i :=
  match goal with Ep : pc (threads ?s i) = _ |- _ =>
    pose proof (g_threads _ I i) as TI; apply (local false s _ i I); cbn;
      [intros j Hne; by rewrite ?insert_other|done|done|done|done|done|..];
      rewrite ?fn_lookup_insert; cbn; rewrite ?Ep in *; try done
  end.

Lemma cache_ok s i t p : thread_ok s i t -> current p = true -> member p = true ->
  lookupCacheEpoch (lookupCacheOnGcResume s t) <= gcEpoch s /\
  forall e, cacheFilled (lookupCacheOnGcResume s t) = Some e ->
    lookupCacheEpoch (lookupCacheOnGcResume s t) <= e <= gcEpoch s /\ (current p = true -> e = gcEpoch s).
Proof.
  intros [] Hc Hm. unfold lookupCacheOnGcResume. destruct (Nat.eqb_spec (lookupCacheEpoch t) (gcEpoch s)) as [E|E].
  - split; [done|]. intros e He. destruct (t_filled0 e He). split; [done|]. lia.
  - cbn. split; [done|]. done.
Qed.

Lemma resume_same s t : let t' := lookupCacheOnGcResume s t in
  pc t' = pc t /\ spAtSafepoint t' = spAtSafepoint t /\ spBlocked t' = spBlocked t /\ forall l, depthOf l t' = depthOf l t.
Proof. unfold lookupCacheOnGcResume. destruct (_ =? _); split_and!; try done. Qed.

(** The thread goes on without a change of its fields. *)
Lemma goto_ok s i t p : thread_ok s i t -> parked p = parked (pc t) -> away p = away (pc t) -> holdsGc p = holdsGc (pc t) ->
  (asleep p || stopping p = true -> safepointRequested s = true) -> member p = member (pc t) ->
  (current p = true -> current (pc t) = true) -> (forall l, waitsFor l p = waitsFor l (pc t)) -> thread_ok s i (set_pc p t).
Proof.
  intros [] Hp Ha Hg Hs Hm Hc Hw. constructor; cbn.
  - by rewrite Hp.
  - by rewrite Ha.
  - by rewrite Hg.
  - intros E. apply Hs. by rewrite E.
  - intros E. apply Hs. rewrite E. apply orb_true_r.
  - by rewrite Hm.
  - done.
  - intros e He. destruct (t_filled0 e He). split; [done|]. auto.
  - rewrite Hm. done.
  - intros l Hl. rewrite Hw. destruct l; apply (t_depth0 _ Hl).
Qed.

(** Steps between two places that differ in nothing. *)
Lemma plain_step s i p : inv s ->
  parked p = parked (pc (threads s i)) -> away p = away (pc (threads s i)) -> holdsGc p = holdsGc (pc (threads s i)) ->
  (asleep p = true -> safepointRequested s = true) -> stopping p = stopping (pc (threads s i)) ->
  member p = member (pc (threads s i)) -> (current p = true -> current (pc (threads s i)) = true) ->
  (forall l, waitsFor l p = waitsFor l (pc (threads s i))) ->
  match p with Collecting _ | BeginWait false => False | _ => True end -> inv (goto i p s).
Proof.
  intros I Hp Ha Hg Has Hst Hm Hc Hw Hq. pose proof (g_threads _ I i) as TI.
  apply (local false s _ i I); cbn; try done.
  - intros j Hne. by rewrite insert_other.
  - rewrite fn_lookup_insert. eapply thread_frame; [apply (goto_ok s i _ p TI); try done|done|done|done|done|by left|done].
    intros E. apply orb_prop in E as [E|E]; [auto|]. rewrite Hst in E. by apply (t_stopping _ _ _ TI).
  - rewrite fn_lookup_insert. done.
  - rewrite fn_lookup_insert. done.
  - rewrite fn_lookup_insert. cbn. unfold safe. rewrite Hp, Ha. auto.
  - rewrite fn_lookup_insert. cbn. unfold safe. rewrite Hp, Ha. auto.
Qed.

(** [heapGcPoll] *)
Lemma poll_inv s i : inv s -> pc (threads s i) = Running -> inv (heapGcPoll s i).
Proof. intros I Ep. unfold heapGcPoll. destruct (safepointRequested s); [|done]. apply plain_step; rewrite ?Ep; done. Qed.

Lemma poll_slow_inv s i : inv s -> pc (threads s i) = PollSlow -> inv (heapGcPoll_slow s i).
Proof.
  intros I Ep. unfold heapGcPoll_slow. destruct (safepointRequested s) eqn:Hr; [|apply plain_step; rewrite ?Ep; done].
  pose proof (g_threads _ I i) as TI. apply (local true s _ i I); cbn; try done; rewrite ?fn_lookup_insert; cbn; rewrite ?Ep; try done.
  - intros j Hne. by rewrite !insert_other.
  - destruct TI. rewrite Ep in *. constructor; cbn; rewrite ?fn_lookup_insert; cbn; try done.
    + intros e He. by destruct (t_filled0 e He).
Qed.

Lemma poll_woken_inv s i : inv s -> pc (threads s i) = Parked true -> inv (heapGcPoll_woken s i).
Proof.
  intros I Ep. unfold heapGcPoll_woken. destruct (safepointRequested s) eqn:Hr; [apply plain_step; rewrite ?Ep; done|].
  pose proof (g_threads _ I i) as TI. apply (local false s _ i I); cbn; try done; rewrite ?fn_lookup_insert; cbn; rewrite ?Ep; try done; try (by right).
  - intros j Hne. by rewrite !insert_other.
  - destruct TI. rewrite Ep in *. constructor; cbn; rewrite ?fn_lookup_insert; cbn; try done.
Qed.

(** [lookupCacheOnGcResume] *)
Lemma resume_inv s i p : inv s -> pc (threads s i) = PollResumed /\ p = Running \/ (exists w, pc (threads s i) = Resumed w /\ p = continue w) ->
  inv (set_thread i (set_pc p (lookupCacheOnGcResume s (threads s i))) s).
Proof.
  intros I Hp. pose proof (g_threads _ I i) as TI. destruct (resume_same s (threads s i)) as (E1 & E2 & E3 & E4). cbv zeta in *.
  assert (parked (pc (threads s i)) = false /\ away (pc (threads s i)) = false /\ parked p = false /\ away p = false /\
    holdsGc p = holdsGc (pc (threads s i)) /\ asleep p = false /\ stopping p = false /\ stopping (pc (threads s i)) = false /\ member p = true /\
    member (pc (threads s i)) = true /\ current p = true /\ (forall l, waitsFor l p = false) /\ (forall l, waitsFor l (pc (threads s i)) = false) /\
    match p with Collecting _ | BeginWait false => False | _ => True end) as (A1 & A2 & A3 & A4 & A5 & A6 & A7 & A8 & A9 & A10 & A11 & A12 & A13 & A14).
  { destruct Hp as [[-> ->]|(w & -> & ->)]; [done|]. by destruct w. }
  destruct (cache_ok s i _ p TI A11 A9) as [C1 C2]. apply (local false s _ i I); cbn; try done; rewrite ?fn_lookup_insert; cbn; try done.
  - intros j Hne. by rewrite insert_other.
  - destruct TI. constructor; cbn; rewrite ?A3, ?A4, ?A5, ?A6, ?A7, ?A9; try done.
    + by rewrite E2, t_at0, A1.
    + by rewrite E3, t_blocked0, A2.
    + by rewrite t_member0, A10.
    + intros l Hl. specialize (t_depth0 l Hl). rewrite A13 in t_depth0. rewrite A12. specialize (E4 l). destruct l; cbn in *; [| |done]; by rewrite E4.
  - by rewrite A7, A8.
  - unfold safe. rewrite A1, A2. done.
  - unfold safe. rewrite A3, A4. done.
Qed.

(** [heapGcEnterBlocked] *)
Lemma enter_inv s i w : inv s -> pc (threads s i) = Entering w -> inv (heapGcEnterBlocked s i w).
Proof.
  intros I Ep. pose proof (g_threads _ I i) as TI. apply (local true s _ i I); cbn; try done; rewrite ?fn_lookup_insert; cbn; rewrite ?Ep; try done.
  - intros j Hne. by rewrite !insert_other.
  - destruct TI. rewrite Ep in *. constructor; cbn; rewrite ?fn_lookup_insert; cbn; rewrite ?Ep; try done.
    intros e He. by destruct (t_filled0 e He).
Qed.

(** [heapGcLeaveBlocked] *)
Lemma leave_inv s i w : inv s -> pc (threads s i) = Returning w \/ pc (threads s i) = ReturnWait w true -> inv (heapGcLeaveBlocked s i w).
Proof.
  intros I Ep. unfold heapGcLeaveBlocked. destruct (safepointRequested s) eqn:Hr; [destruct Ep as [Ep|Ep]; apply plain_step; rewrite ?Ep; done|].
  pose proof (g_threads _ I i) as TI. apply (local false s _ i I); cbn; try done; rewrite ?fn_lookup_insert; cbn; try done; try (by right); try (by destruct Ep as [-> | ->]).
  - intros j Hne. by rewrite !insert_other.
  - destruct TI. destruct Ep as [Ep|Ep]; rewrite Ep in *; (constructor; cbn; rewrite ?fn_lookup_insert; cbn; rewrite ?Ep; done).
Qed.

(** Taking a lock in the blocked state. *)
Lemma take_inv s i w s' : inv s -> pc (threads s i) = Away w -> take s i w = Some s' -> inv s'.
Proof.
  intros I Ep E. pose proof (g_threads _ I i) as TI. unfold take in E. destruct w as [| | |l]; [done|..].
  1, 2: destruct (gcLock s) eqn:Hg; [done|]; injection E as <-; apply (local false s _ i I); cbn; try done;
    rewrite ?fn_lookup_insert; cbn; rewrite ?Ep; try done; try (by left);
    [intros j Hne; by rewrite !insert_other|intros j Hne; rewrite Hg; split; congruence|
     destruct TI; rewrite Ep in *; by constructor].
  destruct (owner s l) as [o|] eqn:Ho; [done|]. injection E as <-.
  apply (local false s _ i I); cbn; try done; rewrite ?fn_lookup_insert; cbn; rewrite ?Ep; try done; try (by left).
  - intros j Hne. by rewrite !insert_other.
  - intros j k Hne. destruct (decide (k = l)) as [->|Hkl]; [rewrite fn_lookup_insert, Ho; split; congruence|by rewrite fn_lookup_insert_ne].
  - destruct TI. rewrite Ep in *. constructor; cbn; try done. intros k Hk. specialize (t_depth0 k Hk). cbn in t_depth0. case_bool_decide as Hkl.
    + subst k. destruct t_depth0 as [Hd _]. rewrite fn_lookup_insert. destruct l; cbn in *; [| |done]; rewrite Hd; split; [done|lia|done|lia].
    + rewrite fn_lookup_insert_ne by done. destruct k; cbn in *; done.
Qed.

(** The depth counters. *)
Lemma depth_set l k n t : reentrant k = true -> depthOf k (set_depth l n t) = if decide (k = l) then n else depthOf k t.
Proof. intros Hk. case_decide as E; [subst; by destruct l|]. destruct k, l; cbn in *; done || congruence. Qed.

Lemma set_depth_same l n t : pc (set_depth l n t) = pc t /\ spAtSafepoint (set_depth l n t) = spAtSafepoint t /\
  spBlocked (set_depth l n t) = spBlocked t /\ lookupCacheEpoch (set_depth l n t) = lookupCacheEpoch t /\ cacheFilled (set_depth l n t) = cacheFilled t.
Proof. by destruct l. Qed.

Lemma depth_pc l p t : depthOf l (set_pc p t) = depthOf l t.
Proof. by destruct l. Qed.

Lemma lock_enter_inv s i l : inv s -> pc (threads s i) = Running -> inv (lockEnter s i l).
Proof.
  intros I Ep. pose proof (g_threads _ I i) as TI. unfold lockEnter. set (t' := set_depth l _ _).
  destruct (set_depth_same l (S (depthOf l (threads s i))) (threads s i)) as (E1 & E2 & E3 & E4 & E5). fold t' in E1, E2, E3, E4, E5.
  destruct (Nat.eqb_spec (depthOf l (threads s i)) 0) as [Hd|Hd].
  - apply (local false s _ i I); cbn; try done; rewrite ?fn_lookup_insert; cbn; rewrite ?Ep; try done.
    + intros j Hne. by rewrite !insert_other.
    + destruct TI. rewrite Ep in *. constructor; cbn; rewrite ?E1, ?E2, ?E3, ?E4, ?E5; try done.
      intros k Hk. specialize (t_depth0 k Hk). cbn in t_depth0. rewrite depth_pc. unfold t'. rewrite depth_set by done. case_bool_decide as Hkl.
      * subst k. rewrite decide_True by done. split; [lia|]. intros Ho. by apply t_depth0 in Ho.
      * by rewrite decide_False.
  - apply (local false s _ i I); cbn; try done; rewrite ?fn_lookup_insert; cbn; rewrite ?E1, ?Ep; try done.
    + intros j Hne. by rewrite !insert_other.
    + destruct TI. rewrite Ep in *. constructor; cbn; rewrite ?E1, ?E2, ?E3, ?E4, ?E5, ?Ep; try done.
      intros k Hk. specialize (t_depth0 k Hk). cbn in *. unfold t'. rewrite depth_set by done. case_decide as Hkl; [|done].
      subst k. split; [intros _; by apply t_depth0|lia].
Qed.

Lemma lock_leave_inv s i l : inv s -> pc (threads s i) = Running -> owner s l = Some i -> inv (lockLeave s i l).
Proof.
  intros I Ep Ho. pose proof (g_threads _ I i) as TI. unfold lockLeave. set (t' := set_depth l _ _).
  destruct (set_depth_same l (Nat.pred (depthOf l (threads s i))) (threads s i)) as (E1 & E2 & E3 & E4 & E5). fold t' in E1, E2, E3, E4, E5.
  assert (forall k, reentrant k = true -> depthOf k t' = if decide (k = l) then Nat.pred (depthOf l (threads s i)) else depthOf k (threads s i)) as Ed
    by (intros k Hk; by apply depth_set).
  destruct (Nat.eqb_spec (Nat.pred (depthOf l (threads s i))) 0) as [Hd|Hd].
  - apply (local false s _ i I); cbn; try done; rewrite ?fn_lookup_insert; cbn; rewrite ?E1, ?Ep; try done.
    + intros j Hne. by rewrite !insert_other.
    + intros j k Hne. destruct (decide (k = l)) as [->|Hkl]; [rewrite fn_lookup_insert, Ho; split; congruence|by rewrite fn_lookup_insert_ne].
    + destruct TI. rewrite Ep in *. constructor; cbn; rewrite ?E1, ?E2, ?E3, ?E4, ?E5, ?Ep; try done.
      intros k Hk. specialize (t_depth0 k Hk). cbn in *. rewrite Ed by done. case_decide as Hkl.
      * subst k. rewrite fn_lookup_insert. split; [lia|done].
      * by rewrite fn_lookup_insert_ne.
  - apply (local false s _ i I); cbn; try done; rewrite ?fn_lookup_insert; cbn; rewrite ?E1, ?Ep; try done.
    + intros j Hne. by rewrite !insert_other.
    + destruct TI. rewrite Ep in *. constructor; cbn; rewrite ?E1, ?E2, ?E3, ?E4, ?E5, ?Ep; try done.
      intros k Hk. specialize (t_depth0 k Hk). cbn in *. rewrite Ed by done. case_decide as Hkl; [|done]. subst k. done.
Qed.

Lemma fill_inv s i : inv s -> pc (threads s i) = Running -> inv (fillCache s i).
Proof.
  intros I Ep. pose proof (g_threads _ I i) as TI. apply (local false s _ i I); cbn; try done; rewrite ?fn_lookup_insert; cbn; rewrite ?Ep; try done.
  - intros j Hne. by rewrite !insert_other.
  - destruct TI. constructor; cbn; rewrite ?Ep in *; try done.
    intros e [= <-]. destruct (cacheFilled (threads s i)) as [e|]; cbn; [|split; [lia|done]]. by destruct (t_filled0 e eq_refl).
Qed.

(** [heapAddMutator] *)
Lemma add_inv s i : inv s -> pc (threads s i) = Joining -> gcLock s = None -> inv (heapAddMutator s i).
Proof.
  intros I Ep Hg. pose proof (g_threads _ I i) as TI.
  assert (i ∉ mutators s) as Hi by (intros Hi; apply (t_member _ _ _ TI) in Hi; by rewrite Ep in Hi).
  assert (forall c, holdsGc (pc (threads s c)) = false) as Hno.
  { intros c. destruct (holdsGc (pc (threads s c))) eqn:E; [|done]. apply (t_gc _ _ _ (g_threads _ I c)) in E. congruence. }
  apply (change false s _ i I); cbn; rewrite ?fn_lookup_insert; cbn; try done.
  - intros j Hne. by rewrite insert_other.
  - destruct TI. rewrite Ep in *. constructor; cbn; try done.
    by rewrite elem_of_cons; split; [|left].
  - intros j Hne. eapply thread_frame; [apply (g_threads _ I)|done|done| |done|by left|done]. cbn. rewrite elem_of_cons. naive_solver.
  - constructor; [done|apply I].
  - intros j Hne. rewrite elem_of_cons. naive_solver.
  - intros Hr. destruct (g_request _ I Hr) as [c Hc]. apply stopping_holds in Hc. by rewrite Hno in Hc.
  - intros c _ Hc. specialize (Hno c). by rewrite Hc in Hno.
  - intros c _ Hc. specialize (Hno c). by rewrite Hc in Hno.
Qed.

(** [heapEndMutator] *)
Lemma end_inv s i : inv s -> pc (threads s i) = Departing -> inv (heapEndMutator s i).
Proof.
  intros I Ep. pose proof (g_threads _ I i) as TI.
  assert (gcLock s = Some i) as Hg by (apply (t_gc _ _ _ TI); by rewrite Ep).
  assert (forall c, c <> i -> holdsGc (pc (threads s c)) = false) as Hno.
  { intros c Hne. destruct (holdsGc (pc (threads s c))) eqn:E; [|done]. apply (t_gc _ _ _ (g_threads _ I c)) in E. congruence. }
  apply (change false s _ i I); cbn; rewrite ?fn_lookup_insert; cbn; try done.
  - intros j Hne. by rewrite insert_other.
  - destruct TI. rewrite Ep in *. constructor; cbn; try done. rewrite list_elem_of_filter. naive_solver.
  - intros j Hne. eapply thread_frame; [apply (g_threads _ I)| |done| |done|by left|done]; cbn; [|rewrite list_elem_of_filter; naive_solver].
    rewrite Hg. naive_solver.
  - apply list.NoDup_filter, I.
  - intros j Hne. rewrite list_elem_of_filter. naive_solver.
  - intros Hr. destruct (g_request _ I Hr) as [c Hc]. destruct (decide (c = i)) as [->|Hne]; [by rewrite Ep in Hc|].
    apply stopping_holds in Hc. by rewrite Hno in Hc.
  - intros c Hne Hc. specialize (Hno c Hne). by rewrite Hc in Hno.
  - intros c Hne Hc. specialize (Hno c Hne). by rewrite Hc in Hno.
  - intros _ c Hne Hc. specialize (Hno c Hne). by rewrite Hc in Hno.
Qed.

Lemma all_safe s i : inv s -> heapAllSafe s i = true <-> forall j, j ∈ mutators s -> j <> i -> safe (pc (threads s j)) = true.
Proof.
  intros I. unfold heapAllSafe. rewrite forallb_forall. setoid_rewrite <- list_elem_of_In.
  assert (forall j, ((j =? i)%nat || spAtSafepoint (threads s j) || spBlocked (threads s j)) = (j =? i)%nat || safe (pc (threads s j))) as E.
  { intros j. rewrite (t_at _ _ _ (g_threads _ I j)), (t_blocked _ _ _ (g_threads _ I j)). unfold safe. by rewrite orb_assoc. }
  split.
  - intros Ha j Hj Hne. specialize (Ha j Hj). rewrite E in Ha. by destruct (Nat.eqb_spec j i).
  - intros Ha j Hj. rewrite E. destruct (Nat.eqb_spec j i); [done|]. cbn. auto.
Qed.

Lemma all_safe_ext s s' i : mutators s' = mutators s -> (forall j, j <> i -> threads s' j = threads s j) -> heapAllSafe s' i = heapAllSafe s i.
Proof.
  intros Hm Ht. unfold heapAllSafe. rewrite Hm. clear Hm. induction (mutators s) as [|j l IH]; cbn; [done|]. rewrite IH.
  destruct (Nat.eqb_spec j i); [done|]. by rewrite Ht.
Qed.

Lemma not_all_safe s i : inv s -> heapAllSafe s i = false -> exists j, j ∈ mutators s /\ j <> i /\ safe (pc (threads s j)) = false.
Proof.
  intros I Hf. unfold heapAllSafe in Hf.
  assert (exists j, j ∈ mutators s /\ ((j =? i)%nat || spAtSafepoint (threads s j) || spBlocked (threads s j)) = false) as (j & Hj & E).
  { clear I. induction (mutators s) as [|j l IH]; [done|]. cbn in Hf. apply andb_false_iff in Hf as [Hf|Hf]; [exists j; by split; [left|]|].
    destruct (IH Hf) as (k & Hk & Ek). exists k. by split; [right|]. }
  exists j. split; [done|]. apply orb_false_iff in E as [E E3]. apply orb_false_iff in E as [E1 E2]. apply Nat.eqb_neq in E1. split; [done|].
  unfold safe. by rewrite <- (t_at _ _ _ (g_threads _ I j)), <- (t_blocked _ _ _ (g_threads _ I j)), E2, E3.
Qed.

(** [heapGcBegin] *)
Lemma begin_wait_inv s i : inv s -> pc (threads s i) = BeginWait true -> inv (heapGcBegin_wait s i).
Proof.
  intros I Ep. pose proof (g_threads _ I i) as TI. pose proof (t_stopping _ _ _ TI) as Hr. rewrite Ep in Hr. specialize (Hr eq_refl).
  assert (forall p, stopping p = true -> parked p = false -> away p = false -> holdsGc p = true -> member p = true -> current p = true ->
    (forall l, waitsFor l p = false) -> thread_ok (goto i p s) i (set_pc p (threads s i))) as Hok.
  { intros p H1 H2 H3 H4 H5 H6 H7. eapply thread_frame; [apply (goto_ok s i _ p TI); rewrite ?Ep; done|done..|by left|done]. }
  assert (forall c, c <> i -> holdsGc (pc (threads s c)) = false) as Hno.
  { intros c Hne. destruct (holdsGc (pc (threads s c))) eqn:E; [|done]. exfalso. apply Hne. eapply gc_unique; [exact I| |done]. by rewrite Ep. }
  unfold heapGcBegin_wait. destruct (heapAllSafe s i) eqn:Ha.
  - apply (change false s _ i I); cbn; rewrite ?fn_lookup_insert; cbn; try done.
    + intros j Hne. by rewrite insert_other.
    + by apply Hok.
    + intros j Hne. eapply thread_frame; [apply (g_threads _ I)|done..|by left|done].
    + apply I.
    + by left.
    + intros c Hne Hc. specialize (Hno c Hne). by rewrite Hc in Hno.
    + intros c Hne Hc. specialize (Hno c Hne). by rewrite Hc in Hno.
    + intros _ j Hj Hne. by apply (proj1 (all_safe s i I) Ha).
  - apply (change false s _ i I); cbn; rewrite ?fn_lookup_insert; cbn; try done.
    + intros j Hne. by rewrite insert_other.
    + by apply Hok.
    + intros j Hne. eapply thread_frame; [apply (g_threads _ I)|done..|by left|done].
    + apply I.
    + by left.
    + intros c Hne Hc. specialize (Hno c Hne). by rewrite Hc in Hno.
    + intros c Hne Hc. specialize (Hno c Hne). by rewrite Hc in Hno.
    + intros _. by apply not_all_safe.
Qed.

(** [heapCollectYoung], before the collection. *)
Lemma collect_inv s i needed : inv s -> pc (threads s i) = Deciding -> inv (heapCollectYoung s i needed).
Proof.
  intros I Ep. pose proof (g_threads _ I i) as TI.
  assert (gcLock s = Some i) as Hg by (apply (t_gc _ _ _ TI); by rewrite Ep).
  assert (i ∈ mutators s) as Him by (apply (t_member _ _ _ TI); by rewrite Ep).
  assert (forall c, c <> i -> holdsGc (pc (threads s c)) = false) as Hno.
  { intros c Hne. destruct (holdsGc (pc (threads s c))) eqn:E; [|done]. exfalso. apply Hne. eapply gc_unique; [exact I| |done]. by rewrite Ep. }
  assert ((forall j, j ∈ mutators s -> j = i) -> inv (goto i (Collecting false) s)) as Halone.
  { intros Hm. apply (change false s _ i I); cbn; rewrite ?fn_lookup_insert; cbn; try done.
    - intros j Hne. by rewrite insert_other.
    - eapply thread_frame; [apply (goto_ok s i _ (Collecting false) TI); rewrite ?Ep; done|done..|by left|done].
    - intros j Hne. eapply thread_frame; [apply (g_threads _ I)|done..|by left|done].
    - apply I.
    - intros Hr. destruct (g_request _ I Hr) as [c Hc]. right. exists c. split; [|done]. intros ->. by rewrite Ep in Hc.
    - intros c Hne Hc. specialize (Hno c Hne). by rewrite Hc in Hno.
    - intros c Hne Hc. specialize (Hno c Hne). by rewrite Hc in Hno. }
  unfold heapCollectYoung. destruct (mutators s) as [|j [|k l]] eqn:Hm.
  - apply Halone. by intros ? ?%elem_of_nil.
  - apply Halone. apply list_elem_of_singleton in Him as ->. by intros ? ?%list_elem_of_singleton.
  - clear Halone. destruct needed.
    + (* the flag is set, then as after a wait *)
      set (s0 := goto i (BeginWait true) (set_requested true s)).
      assert (inv s0) as I0.
      { apply (change false s _ i I); cbn; rewrite ?fn_lookup_insert; cbn; try done.
        - intros x Hne. by rewrite insert_other.
        - destruct TI. rewrite Ep in *. constructor; cbn; rewrite ?fn_lookup_insert; cbn; rewrite ?Ep; try done.
        - intros x Hne. eapply thread_frame; [apply (g_threads _ I)|done..|by left|done].
        - apply I.
        - by left.
        - intros c Hne Hc. specialize (Hno c Hne). by rewrite Hc in Hno.
        - intros c Hne Hc. specialize (Hno c Hne). by rewrite Hc in Hno. }
      assert (pc (threads s0 i) = BeginWait true) as E0 by (cbn; by rewrite fn_lookup_insert).
      pose proof (begin_wait_inv s0 i I0 E0) as I1. revert I1. apply inv_ext.
      unfold heapGcBegin, heapGcBegin_wait.
      assert (heapAllSafe s0 i = heapAllSafe (set_requested true s) i) as ->.
      { apply all_safe_ext; [done|]. intros x Hne. cbn. by rewrite insert_other. }
      destruct (heapAllSafe (set_requested true s) i); cbn; (split_and!; try done); intros x; (destruct (decide (x = i)) as [->|Hne];
        [by rewrite !fn_lookup_insert|by rewrite !insert_other]).
    + apply (local false s _ i I); cbn; try done; rewrite ?fn_lookup_insert; cbn; rewrite ?Ep; try done.
      * intros x Hne. by rewrite insert_other.
      * intros x Hne. rewrite Hg. naive_solver.
      * destruct TI. rewrite Ep in *. by constructor.
Qed.

(** The end of a collection. *)
Lemma finish_inv s i b : inv s -> pc (threads s i) = Collecting b -> inv (finishCollection s i b).
Proof.
  intros I Ep. pose proof (g_threads _ I i) as TI.
  assert (forall c, c <> i -> holdsGc (pc (threads s c)) = false) as Hno.
  { intros c Hne. destruct (holdsGc (pc (threads s c))) eqn:E; [|done]. exfalso. apply Hne. eapply gc_unique; [exact I| |done]. by rewrite Ep. }
  assert (forall j, j <> i -> stopping (pc (threads s j)) = false) as Hns.
  { intros j Hne. destruct (stopping (pc (threads s j))) eqn:E; [|done]. apply stopping_holds in E. by rewrite Hno in E. }
  assert (forall j, j <> i -> current (pc (threads s j)) = false \/ cacheFilled (threads s j) = None) as Hcur.
  { intros j Hne. pose proof (g_threads _ I j) as TJ. destruct (member (pc (threads s j))) eqn:Em; [|right; by apply (t_gone _ _ _ TJ)].
    apply (t_member _ _ _ TJ) in Em. left. destruct b; [|by apply (g_alone _ I i j Ep) in Em].
    pose proof (g_stopped _ I i j Ep Em Hne) as Hs. by destruct (pc (threads s j)). }
  unfold finishCollection. destruct b.
  - apply (change true s _ i I); cbn; rewrite ?fn_lookup_insert; cbn; try done.
    + intros j Hne. by rewrite insert_other.
    + destruct TI. rewrite Ep in *. constructor; cbn; rewrite ?Ep; try done; [lia|].
      intros e He. destruct (t_filled0 e He). split; [lia|done].
    + intros j Hne. destruct (wake_same (pc (threads s j))) as (E1 & E2 & _).
      eapply thread_frame; [apply wake_ok, (g_threads _ I)|done| |done|cbn; lia| |done]; cbn.
      * rewrite E2, Hns by done. by destruct (pc (threads s j)).
      * right. destruct (Hcur j Hne) as [Hc|Hc]; [left|by right]. by destruct (pc (threads s j)).
    + apply I.
    + intros c Hne Hc. specialize (Hno c Hne). by rewrite Hc in Hno.
    + intros c Hne Hc. specialize (Hno c Hne). by rewrite Hc in Hno.
  - assert (safepointRequested s = false) as Hr.
    { destruct (safepointRequested s) eqn:Hr; [|done]. destruct (g_request _ I Hr) as [c Hc]. destruct (decide (c = i)) as [->|Hne]; [by rewrite Ep in Hc|].
      by rewrite Hns in Hc. }
    apply (change false s _ i I); cbn; rewrite ?fn_lookup_insert; cbn; try done.
    + intros j Hne. by rewrite insert_other.
    + destruct TI. rewrite Ep in *. constructor; cbn; rewrite ?Ep; try done; [lia|].
      intros e He. destruct (t_filled0 e He). split; [lia|done].
    + intros j Hne. eapply thread_frame; [apply (g_threads _ I)|done|done|done|cbn; lia| |done]. right. by apply Hcur.
    + apply I.
    + by rewrite Hr.
    + intros c Hne Hc. specialize (Hno c Hne). by rewrite Hc in Hno.
    + intros c Hne Hc. specialize (Hno c Hne). by rewrite Hc in Hno.
Qed.

Lemma finishing_inv s i : inv s -> pc (threads s i) = Finishing ->
  inv (set_gcLock None (set_thread i (set_pc Running (lookupCacheOnGcResume s (threads s i))) s)).
Proof.
  intros I Ep. pose proof (g_threads _ I i) as TI. destruct (resume_same s (threads s i)) as (E1 & E2 & E3 & E4). cbv zeta in *.
  assert (gcLock s = Some i) as Hg by (apply (t_gc _ _ _ TI); by rewrite Ep).
  destruct (cache_ok s i _ Running TI eq_refl eq_refl) as [C1 C2].
  apply (local false s _ i I); cbn; try done; rewrite ?fn_lookup_insert; cbn; rewrite ?Ep; try done.
  - intros j Hne. by rewrite insert_other.
  - intros j Hne. rewrite Hg. naive_solver.
  - destruct TI. rewrite Ep in *. constructor; cbn; rewrite ?E2, ?E3; try done.
    intros l Hl. specialize (t_depth0 l Hl). cbn in *. specialize (E4 l). destruct l; cbn in *; [| |done]; by rewrite E4.
Qed.

Lemma step_inv a s i s' : inv s -> step a i s = Some s' -> inv s'.
Proof.
  intros I E. unfold step in E. destruct (pc (threads s i)) as [| | | |[]| |w|w|w|w []|w| |[]|b| |] eqn:Ep, a; try done.
  all: try (injection E as <-).
  all: try (by destruct w).
  all: try (apply plain_step; rewrite ?Ep; done).
  - destruct (gcLock s) eqn:Hg; [done|]. injection E as <-. by apply add_inv.
  - by apply poll_inv.
  - destruct (_ && _); [|done]. injection E as <-. apply plain_step; rewrite ?Ep; done.
  - rewrite enterLock_eq. by apply lock_enter_inv.
  - case_decide as Ho; [|done]. injection E as <-. rewrite leaveLock_eq. by apply lock_leave_inv.
  - by apply fill_inv.
  - by apply poll_slow_inv.
  - by apply poll_woken_inv.
  - apply resume_inv; [done|by left].
  - by apply enter_inv.
  - destruct w; try done. injection E as <-. apply plain_step; rewrite ?Ep; done.
  - assert (take s i w = Some s') as E' by (destruct w; done). by eapply take_inv.
  - apply leave_inv; [done|by left].
  - apply leave_inv; [done|by right].
  - apply resume_inv; [done|right; by exists w].
  - by apply collect_inv.
  - by apply begin_wait_inv.
  - by apply finish_inv.
  - by apply finishing_inv.
  - by apply end_inv.
Qed.

Lemma reachable_inv s : reachable s -> inv s.
Proof.
  induction 1 as [s (Hr & Hg & Hm & Ho & Ht)|s a i s' _ IH E]; [|by eapply step_inv].
  constructor; try (intros c; rewrite Ht; done).
  - intros i. rewrite Ht. constructor; cbn; try done; try lia.
    + by rewrite Hg.
    + rewrite Hm. split; [by intros ?%elem_of_nil|done].
    + intros l Hl. rewrite Ho. destruct l; cbn; (split; [intros Hz; by destruct Hz|done]).
  - rewrite Hm. constructor.
  - by rewrite Hr.
Qed.

(** ** Progress *)

(** Where a thread waits for nothing but the program. *)
Definition resting (p : Pc) : bool :=
  match p with Outside | Running | Away Syscall | Away (Acquire _) => true | _ => false end.

Lemma enabled s j : resting (pc (threads s j)) = false -> asleep (pc (threads s j)) = false -> pc (threads s j) <> BeginWait false ->
  (gcLock s = None \/ (pc (threads s j) <> Joining /\ forall w, pc (threads s j) <> Away w)) -> exists a s', step a j s = Some s' /\ a <> Wake.
Proof.
  intros Hr Ha Hb Hg. unfold step.
  destruct (pc (threads s j)) as [| | | |[]| |w|w|w|w []|w| |[]|b| |] eqn:Ep; try done; try (by exists Go; eexists).
  - exists Go. destruct Hg as [->|[? _]]; [by eexists|done].
  - destruct Hg as [Hg|[_ Hw]]; [|by destruct (Hw w)]. exists Go. destruct w; try done; cbn; rewrite Hg; by eexists.
  - exists (Decide true). by eexists.
Qed.

(** The collector that stops the world holds its lock. *)
Lemma stopper s : inv s -> safepointRequested s = true -> exists c, gcLock s = Some c /\ stopping (pc (threads s c)) = true.
Proof.
  intros I Hr. destruct (g_request _ I Hr) as [c Hc]. exists c. split; [|done]. apply (t_gc _ _ _ (g_threads _ I c)). by apply stopping_holds.
Qed.

Lemma awake_holder s h : inv s -> gcLock s = Some h -> asleep (pc (threads s h)) = false.
Proof.
  intros I Hg. destruct (asleep (pc (threads s h))) eqn:E; [|done]. pose proof (t_asleep _ _ _ (g_threads _ I h) E) as Hr.
  destruct (stopper s I Hr) as (c & Hc & Hs). assert (c = h) as -> by congruence. by destruct (pc (threads s h)).
Qed.

(** Some thread can go on: one inside the handshake, or a running one the
    collector waits for. *)
Lemma progress s i : inv s -> resting (pc (threads s i)) = false ->
  exists j a s', step a j s = Some s' /\ a <> Wake /\
    (resting (pc (threads s j)) = false \/ (a = Poll /\ pc (threads s j) = Running /\ safepointRequested s = true)).
Proof.
  intros I Hr. destruct (gcLock s) as [h|] eqn:Hg.
  - pose proof (awake_holder s h I Hg) as Haw. pose proof (proj2 (t_gc _ _ _ (g_threads _ I h)) Hg) as Hh.
    assert (resting (pc (threads s h)) = false) as Hrh by by destruct (pc (threads s h)) as [| | | | | | |[]| | | | | | | |].
    assert (pc (threads s h) <> Joining /\ forall w, pc (threads s h) <> Away w) as Hna by (destruct (pc (threads s h)); done).
    assert (pc (threads s h) = BeginWait false \/ pc (threads s h) <> BeginWait false) as [Hb|Hb]
      by (destruct (pc (threads s h)) as [| | | | | | | | | | | |[]| | |]; (by left) || by right).
    + destruct (g_waits _ I h Hb) as (j & Hj & Hjh & Hs).
      assert (holdsGc (pc (threads s j)) = false) as Hjg.
      { destruct (holdsGc (pc (threads s j))) eqn:E; [|done]. apply (t_gc _ _ _ (g_threads _ I j)) in E. congruence. }
      apply (t_member _ _ _ (g_threads _ I j)) in Hj. pose proof (t_stopping _ _ _ (g_threads _ I h)) as Hreq. rewrite Hb in Hreq.
      destruct (pc (threads s j)) as [| | | |[]| |w|w|w|w []|w| |[]|b| |] eqn:Ep; try done.
      * exists j, Poll. eexists. split; [unfold step; rewrite Ep; done|]. split; [done|right]. by split_and!; [|rewrite Ep|apply Hreq].
      * exists j, Go. eexists. split; [unfold step; rewrite Ep; done|]. split; [done|left]. by rewrite Ep.
      * exists j, Go. eexists. split; [unfold step; rewrite Ep; done|]. split; [done|left]. by rewrite Ep.
      * exists j, Go. eexists. split; [unfold step; rewrite Ep; done|]. split; [done|left]. by rewrite Ep.
      * exists j, Go. eexists. split; [unfold step; rewrite Ep; done|]. split; [done|left]. by rewrite Ep.
    + destruct (enabled s h Hrh Haw Hb ltac:(by right)) as (a & s' & E & Ha). exists h, a, s'. split_and!; [done|done|by left].
  - assert (safepointRequested s = false) as Hreq.
    { destruct (safepointRequested s) eqn:E; [|done]. destruct (stopper s I E) as (c & Hc & _). congruence. }
    destruct (enabled s i Hr) as (a & s' & E & Ha); [| |by left|exists i, a, s'; split_and!; [done|done|by left]].
    + destruct (asleep (pc (threads s i))) eqn:E; [|done]. pose proof (t_asleep _ _ _ (g_threads _ I i) E). congruence.
    + intros Hb. pose proof (t_stopping _ _ _ (g_threads _ I i)) as Hst. rewrite Hb in Hst. specialize (Hst eq_refl). congruence.
Qed.

(** ** What a step leaves alone *)

(** A step changes its own thread, and at most wakes the others. *)
Lemma step_other a i s s' j : step a i s = Some s' -> j <> i ->
  threads s' j = threads s j \/ threads s' j = wake (threads s j).
Proof.
  intros E Hne. unfold step in E. destruct (pc (threads s i)) as [| | | |[]| |w|w|w|w []|w| |[]|b| |] eqn:Ep, a; try done.
  all: rewrite ?enterLock_eq, ?leaveLock_eq in E.
  all: try (destruct w; try done; unfold take in E).
  all: unfold heapAddMutator, heapGcPoll, lockEnter, lockLeave, fillCache, heapGcPoll_slow, heapGcPoll_woken, heapGcEnterBlocked, heapGcLeaveBlocked,
    heapCollectYoung, heapGcBegin, heapGcBegin_wait, finishCollection, heapEndMutator, goto in E.
  all: repeat case_match; simplify_eq; cbn; rewrite ?insert_other by done; rewrite ?insert_other by done; (by left) || (by right).
Qed.

(** Mutators come and go with the lock of the collectors. *)
Lemma step_mutators a i s s' c : inv s -> step a i s = Some s' -> gcLock s = Some c -> i <> c -> mutators s' = mutators s /\ gcEpoch s' = gcEpoch s.
Proof.
  intros I E Hg Hne.
  assert (holdsGc (pc (threads s i)) = false) as Hh.
  { destruct (holdsGc (pc (threads s i))) eqn:Hi; [|done]. apply (t_gc _ _ _ (g_threads _ I i)) in Hi. congruence. }
  unfold step in E. destruct (pc (threads s i)) as [| | | |[]| |w|w|w|w []|w| |[]|b| |] eqn:Ep, a; try done.
  all: try (rewrite Hg in E; done).
  all: rewrite ?enterLock_eq, ?leaveLock_eq in E.
  all: try (destruct w; try done; unfold take in E).
  all: unfold heapGcPoll, lockEnter, lockLeave, fillCache, heapGcPoll_slow, heapGcPoll_woken, heapGcEnterBlocked, heapGcLeaveBlocked, goto in E.
  all: repeat case_match; simplify_eq; done.
Qed.

(** ** Theorems *)

(** C5. While a thread collects the shared heap, every other registered mutator
    is parked at a poll or in the blocked state, and no step of any other thread
    changes that: nobody returns to managed code, joins or leaves the heap, or
    ends the collection. *)
Theorem stop_the_world s c b k a s' :
  reachable s -> pc (threads s c) = Collecting b -> k <> c -> step a k s = Some s' ->
  pc (threads s' c) = Collecting b /\ mutators s' = mutators s /\ gcEpoch s' = gcEpoch s /\
  forall j, j ∈ mutators s -> j <> c -> b = true /\ safe (pc (threads s j)) = true /\ safe (pc (threads s' j)) = true.
Proof.
  intros R Hc Hne E. pose proof (reachable_inv s R) as I. pose proof (step_inv a s k s' I E) as I'.
  assert (gcLock s = Some c) as Hg by (apply (t_gc _ _ _ (g_threads _ I c)); by rewrite Hc).
  destruct (step_mutators a k s s' c I E Hg Hne) as [Hm He].
  assert (pc (threads s' c) = Collecting b) as Hc' by (destruct (step_other a k s s' c E ltac:(done)) as [-> | ->]; cbn; by rewrite Hc).
  split_and!; [done..|]. intros j Hj Hjc. destruct b.
  - split_and!; [done|by eapply (g_stopped _ I c)|]. eapply (g_stopped _ I' c); [done|by rewrite Hm|done].
  - by destruct Hjc, (g_alone _ I c j Hc Hj).
Qed.

(** C31. A thread that runs managed code (or holds the right to) never sees a
    lookup-cache entry made before the last collection: entries are keyed by
    addresses that a collection moves. *)
Theorem lookup_cache_fresh s i e :
  reachable s -> current (pc (threads s i)) = true -> cacheFilled (threads s i) = Some e -> e = gcEpoch s.
Proof. intros R Hc He. by apply (t_filled _ _ _ (g_threads _ (reachable_inv s R) i) e He). Qed.

(** Two threads are never both inside the re-entrant code generation lock, or
    both inside the symbol lock. *)
Lemma reentrant_exclusive s i j l : reachable s -> reentrant l = true ->
  depthOf l (threads s i) <> 0 -> waitsFor l (pc (threads s i)) = false ->
  depthOf l (threads s j) <> 0 -> waitsFor l (pc (threads s j)) = false -> i = j.
Proof.
  intros R Hl Hi Wi Hj Wj. pose proof (reachable_inv s R) as I.
  pose proof (t_depth _ _ _ (g_threads _ I i) l Hl) as Di. pose proof (t_depth _ _ _ (g_threads _ I j) l Hl) as Dj.
  rewrite Wi in Di. rewrite Wj in Dj. apply Di in Hi. apply Dj in Hj. congruence.
Qed.

(** C32. The handshake never deadlocks: while any thread is inside it (waiting to
    join, parked, waiting for the lock of the collectors, returning, collecting),
    some thread that is inside it can take a step that is not a spurious wakeup,
    or a running mutator can reach its poll and there is a request for it. *)
Theorem handshake_never_stuck s i :
  reachable s -> resting (pc (threads s i)) = false ->
  exists j a s', step a j s = Some s' /\ a <> Wake /\
    (resting (pc (threads s j)) = false \/ (a = Poll /\ pc (threads s j) = Running /\ safepointRequested s = true)).
Proof. intros R. apply progress. by apply reachable_inv. Qed.

(** ** Schedules *)

Definition start : State := mkState false None [] 0 (fun _ => None) (fun _ => mkThread Outside false false 0 None 0 0).

Fixpoint run (l : list (Action * nat)) (s : State) : option State :=
  match l with [] => Some s | (a, i) :: l => match step a i s with Some s => run l s | None => None end end.

Lemma run_reachable l s s' : reachable s -> run l s = Some s' -> reachable s'.
Proof.
  revert s. induction l as [|[a i] l IH]; intros s R E; cbn in E; [by simplify_eq|].
  destruct (step a i s) as [s1|] eqn:E1; [|done]. apply (IH s1); [by eapply reach_step|done].
Qed.

Definition after (l : list (Action * nat)) : State := default start (run l start).

Lemma after_reachable l : reachable (after l).
Proof.
  unfold after. assert (reachable start) as R by (apply reach_initial; done).
  destruct (run l start) eqn:E; cbn; [|done]. by eapply run_reachable.
Qed.

Lemma step_default a i s : is_Some (step a i s) -> step a i s = Some (default s (step a i s)).
Proof. by intros [s' ->]. Qed.

(** Thread 1 is in a system call; thread 2 runs and has a lookup cache; thread 0
    asks for a collection and waits for thread 2, which then polls. *)
Definition wait_schedule : list (Action * nat) :=
  [(Join, 0); (Go, 0); (Join, 1); (Go, 1); (Join, 2); (Go, 2); (Block, 1); (Go, 1); (Lookup, 2);
   (Gc, 0); (Go, 0); (Go, 0); (Go, 0); (Go, 0); (Decide true, 0)].
Definition stop_schedule : list (Action * nat) := wait_schedule ++ [(Poll, 2); (Go, 2); (Go, 0)].

Lemma stop_the_world_witness : pc (threads (after stop_schedule) 0) = Collecting true /\
  safe (pc (threads (default (after stop_schedule) (step Return 1 (after stop_schedule))) 1)) = true /\
  safe (pc (threads (after stop_schedule) 2)) = true.
Proof.
  assert (step Return 1 (after stop_schedule) = Some (default (after stop_schedule) (step Return 1 (after stop_schedule)))) as E
    by (apply step_default; vm_compute; eexists; reflexivity).
  destruct (stop_the_world (after stop_schedule) 0 true 1 Return _ (after_reachable _) eq_refl ltac:(done) E) as (_ & _ & _ & H).
  split; [reflexivity|]. split.
  - destruct (H 1) as (_ & _ & S1); [apply list_elem_of_In; vm_compute; tauto|done|exact S1].
  - destruct (H 2) as (_ & S2 & _); [apply list_elem_of_In; vm_compute; tauto|done|exact S2].
Defined.

Lemma lookup_cache_fresh_witness : cacheFilled (threads (after wait_schedule) 2) = Some 0 /\ 0 = gcEpoch (after wait_schedule).
Proof. split; [reflexivity|]. apply (lookup_cache_fresh (after wait_schedule) 2 0 (after_reachable _)); reflexivity. Defined.

Lemma handshake_never_stuck_witness : exists j a s', step a j (after wait_schedule) = Some s' /\ a <> Wake /\
  (resting (pc (threads (after wait_schedule) j)) = false \/
   (a = Poll /\ pc (threads (after wait_schedule) j) = Running /\ safepointRequested (after wait_schedule) = true)).
Proof. apply (handshake_never_stuck (after wait_schedule) 0 (after_reachable _)). reflexivity. Defined.

(** ** Deciding before the lock *)

(** [icInvalidateAllSends] ([src/vm/jit/InlineCache.c]) and [objectBecome]
    ([src/vm/core/Smalltalk.c]) count the mutators before they wait for the lock
    of the collectors, and stop the others if there were several. *)
Definition multiMutators (s : State) : bool := match mutators s with [] | [_] => false | _ => true end.

(** They then go on with the lock in hand; a pause without a stop is what a lone
    collector does. *)
Definition pauseDecided (multi : bool) (s : State) (i : nat) : State :=
  if multi then heapGcBegin s i else goto i (Collecting false) s.

Definition steps (l : list (Action * nat)) (s : State) : State := default s (run l s).

(** Thread 0 is the only mutator; thread 1 starts to join. *)
Definition lone_schedule : list (Action * nat) := [(Join, 0); (Go, 0); (Join, 1)].

(** Thread 0 waits for the lock in the blocked state, takes it and leaves the
    blocked state; thread 1 joins before thread 0 has the lock. *)
Definition join_schedule : list (Action * nat) := [(Gc, 0); (Go, 0); (Go, 1); (Go, 0); (Go, 0); (Go, 0)].

(** C37. A mutator that joins between the count and the lock is not stopped: the
    pause of [icInvalidateAllSends] and [objectBecome] then changes classes and
    the heap while that mutator runs managed code.  [heapCollectYoung], which
    counts under the lock, stops it. *)
Theorem count_before_lock_races :
  let before := after lone_schedule in
  let locked := steps join_schedule before in
  reachable before /\ reachable locked /\ multiMutators before = false /\ multiMutators locked = true /\
  pc (threads locked 0) = Deciding /\ gcLock locked = Some 0 /\
  (let s := pauseDecided (multiMutators before) locked 0 in
   pc (threads s 0) = Collecting false /\ 1 ∈ mutators s /\ pc (threads s 1) = Running) /\
  pc (threads (heapCollectYoung locked 0 true) 0) = BeginWait false.
Proof.
  cbv zeta. split; [apply after_reachable|]. split.
  { unfold steps. destruct (run join_schedule (after lone_schedule)) as [s|] eqn:E; cbn [default from_option id]; [|apply after_reachable].
    eapply run_reachable; [apply after_reachable|exact E]. }
  split; [vm_compute; reflexivity|]. split; [vm_compute; reflexivity|]. split; [vm_compute; reflexivity|]. split; [vm_compute; reflexivity|].
  split; [|vm_compute; reflexivity]. split; [vm_compute; reflexivity|]. split; [|vm_compute; reflexivity].
  apply list_elem_of_In. vm_compute. tauto.
Qed.
