(* ===== verification/SafepointLive.v ===== *)
(** * A requested stop is reached

    The liveness half of the handshake of [src/vm/memory/Heap.c]: once a
    collector has set [safepointRequested] and waits in [heapGcBegin], every way
    in which the mutators go on leads to the collection, however their steps
    interleave.  The measure counts how far each mutator still is from a safe
    place, and then the sleepers that have been woken and test in vain. *)
From S2P Require Import Prelude.
From stdpp Require Import base list decidable functions.
From S2P Require Import Safepoint.

(** ** Inevitability *)

(** A mutator goes on to the next place of its code.  A spurious wakeup does not
    count, nor does what managed code does between two such places. *)
Definition advance (s s' : State) : Prop :=
  exists a i, step a i s = Some s' /\ a <> Wake /\ i ∈ mutators s /\ pc (threads s' i) <> pc (threads s i).

(** Every sequence of steps of [R] reaches [P]. *)
Inductive inevitable (R : State -> State -> Prop) (P : State -> Prop) (s : State) : Prop :=
  | now : P s -> inevitable R P s
  | later : (exists s', R s s') -> (forall s', R s s' -> inevitable R P s') -> inevitable R P s.

(** ** The measure *)

(** How many places a thread passes before it is safe. *)
Definition distance (p : Pc) : nat :=
  match p with
  | PollResumed | Resumed _ => 5
  | Running => 4
  | PollSlow | Entering _ => 3
  | Away _ => 2
  | Returning _ => 1
  | _ => 0
  end.

(** It has been woken and will test its condition. *)
Definition testing (p : Pc) : nat := match p with Parked true | ReturnWait _ true | BeginWait true => 1 | _ => 0 end.

Definition total (f : Pc -> nat) (s : State) : nat := sum_list_with (fun j => f (pc (threads s j))) (mutators s).

Lemma sum_with_less (f g : nat -> nat) i l : NoDup l -> i ∈ l -> (forall j, j <> i -> g j = f j) -> g i < f i ->
  sum_list_with g l < sum_list_with f l.
Proof.
  intros Hnd Hi Hj Hlt. induction l as [|x l IH]; [by apply elem_of_nil in Hi|]. apply list.NoDup_cons in Hnd as [Hx Hnd]. cbn.
  destruct (decide (x = i)) as [->|Hne].
  - assert (sum_list_with g l = sum_list_with f l) as ->; [|lia].
    clear -Hx Hj. induction l as [|y l IH]; [done|]. cbn. apply not_elem_of_cons in Hx as [? ?]. rewrite Hj, IH; done.
  - rewrite Hj by done. apply list.elem_of_cons in Hi as [->|Hi]; [done|]. specialize (IH Hnd Hi). lia.
Qed.

Lemma sum_with_same (f g : nat -> nat) l : (forall j, g j = f j) -> sum_list_with g l = sum_list_with f l.
Proof. intros Hj. induction l as [|x l IH]; [done|]. cbn. by rewrite Hj, IH. Qed.

Lemma distance_wake t : distance (pc (wake t)) = distance (pc t).
Proof. by destruct t as [[] ? ? ? ? ? ?]. Qed.

(** Steps that wake nobody leave the other threads as they were. *)
Definition quiet (p : Pc) : bool := match p with PollSlow | Entering _ | Collecting _ => false | _ => true end.

Lemma quiet_other a i s s' j : step a i s = Some s' -> j <> i -> quiet (pc (threads s i)) = true -> threads s' j = threads s j.
Proof.
  intros E Hne Hq. unfold step in E. destruct (pc (threads s i)) as [| | | |[]| |w|w|w|w []|w| |[]|b| |] eqn:Ep, a; try done.
  all: rewrite ?enterLock_eq, ?leaveLock_eq in E.
  all: try (destruct w; try done; unfold take in E).
  all: unfold heapAddMutator, heapGcPoll, lockEnter, lockLeave, fillCache, heapGcPoll_slow, heapGcPoll_woken, heapGcLeaveBlocked,
    heapCollectYoung, heapGcBegin, heapGcBegin_wait, heapEndMutator, goto in E.
  all: repeat case_match; simplify_eq; cbn; rewrite ?insert_other by done; rewrite ?insert_other by done; done.
Qed.

(** ** Steps toward the stop *)

(** While [c] waits, a step of a mutator brings it closer to a safe place, or is
    a test in vain. *)
Lemma advance_closer s c w a i s' : inv s -> pc (threads s c) = BeginWait w ->
  step a i s = Some s' -> a <> Wake -> i ∈ mutators s -> pc (threads s' i) <> pc (threads s i) -> i <> c ->
  distance (pc (threads s' i)) < distance (pc (threads s i)) \/
  (quiet (pc (threads s i)) = true /\ distance (pc (threads s' i)) = distance (pc (threads s i)) /\
   testing (pc (threads s' i)) < testing (pc (threads s i))).
Proof.
  intros I Hc E Ha Hi Hpc Hne. assert (gcLock s = Some c) as Hg by (apply (t_gc _ _ _ (g_threads _ I c)); by rewrite Hc).
  assert (safepointRequested s = true) as Hr by (apply (t_stopping _ _ _ (g_threads _ I c)); by rewrite Hc).
  assert (holdsGc (pc (threads s i)) = false) as Hh.
  { destruct (holdsGc (pc (threads s i))) eqn:Hh; [|done]. apply (t_gc _ _ _ (g_threads _ I i)) in Hh. congruence. }
  apply (t_member _ _ _ (g_threads _ I i)) in Hi.
  unfold step in E. destruct (pc (threads s i)) as [| | | |[]| |p|p|p|p []|p| |[]|b| |] eqn:Ep, a; try done.
  all: rewrite ?enterLock_eq, ?leaveLock_eq in E.
  all: try (destruct p; try done; unfold take in E).
  all: unfold heapGcPoll, lockEnter, lockLeave, fillCache, heapGcPoll_slow, heapGcPoll_woken, heapGcEnterBlocked, heapGcLeaveBlocked, goto in E; rewrite ?Hr, ?Hg in E.
  all: repeat case_match; simplify_eq; cbn in *; rewrite ?fn_lookup_insert in *; cbn in *; try lia; try (rewrite ?Ep in *; done).
  all: destruct l; cbn in *; by rewrite Ep in Hpc.
Qed.

(** The collector itself tests, and sleeps again or goes on. *)
Lemma advance_collector s c w a s' : pc (threads s c) = BeginWait w -> step a c s = Some s' -> a <> Wake ->
  pc (threads s' c) = Collecting true \/ (w = true /\ pc (threads s' c) = BeginWait false).
Proof.
  intros Hc E Ha. unfold step in E. rewrite Hc in E. destruct w, a; try done. unfold heapGcBegin_wait, goto in E.
  case_match; simplify_eq; cbn; rewrite fn_lookup_insert; cbn; ((by left) || by right).
Qed.

(** Both counts go down in the order of their importance. *)
Lemma advance_decreases s s' c w : inv s -> pc (threads s c) = BeginWait w -> advance s s' ->
  pc (threads s' c) = Collecting true \/
  ((exists w', pc (threads s' c) = BeginWait w') /\
   (total distance s' < total distance s \/ (total distance s' = total distance s /\ total testing s' < total testing s))).
Proof.
  intros I Hc (a & i & E & Ha & Hi & Hpc). unfold total.
  assert (gcLock s = Some c) as Hg by (apply (t_gc _ _ _ (g_threads _ I c)); by rewrite Hc).
  destruct (decide (i = c)) as [->|Hne].
  - destruct (advance_collector s c w a s' Hc E Ha) as [?|[-> Hc']]; [by left|right]. split; [by eexists|right].
    assert (mutators s' = mutators s) as Hm.
    { unfold step in E. rewrite Hc in E. destruct a; try done. unfold heapGcBegin_wait, goto in E. by case_match; simplify_eq. }
    assert (forall j, j <> c -> threads s' j = threads s j) as Hj by (intros; eapply quiet_other; [done|done|by rewrite Hc]).
    rewrite Hm. split.
    + apply sum_with_same. intros j. destruct (decide (j = c)) as [->|]; [by rewrite Hc', Hc|by rewrite Hj].
    + apply (sum_with_less _ _ c); [apply I|done|intros; by rewrite Hj|rewrite Hc', Hc; cbn; lia].
  - right. destruct (step_mutators a i s s' c I E Hg Hne) as [Hm _]. rewrite Hm.
    split; [destruct (step_other a i s s' c E) as [-> | ->]; [done|rewrite Hc; by eexists|cbn; rewrite Hc; by eexists]|].
    destruct (advance_closer s c w a i s' I Hc E Ha Hi Hpc Hne) as [Hd|(Hq & Hd & Ht)]; [left|right].
    + apply (sum_with_less _ _ i); [apply I|done| |done]. intros j Hj. destruct (step_other a i s s' j E Hj) as [-> | ->]; [done|apply distance_wake].
    + assert (forall j, j <> i -> threads s' j = threads s j) as Hj by (intros; by eapply quiet_other). split.
      * apply sum_with_same. intros j. destruct (decide (j = i)) as [->|]; [done|by rewrite Hj].
      * apply (sum_with_less _ _ i); [apply I|done|intros; by rewrite Hj|done].
Qed.

(** Somebody can go on: the collector if it has been woken, else a mutator that
    is not safe yet. *)
Lemma advance_exists s c w : inv s -> pc (threads s c) = BeginWait w -> exists s', advance s s'.
Proof.
  intros I Hc. pose proof (g_threads _ I c) as TC. destruct w.
  - exists (heapGcBegin_wait s c), Go, c. split_and!; [unfold step; by rewrite Hc|done| |].
    + apply (t_member _ _ _ TC). by rewrite Hc.
    + unfold heapGcBegin_wait, goto. rewrite Hc. case_match; cbn; by rewrite fn_lookup_insert.
  - destruct (g_waits _ I c Hc) as (j & Hj & Hjc & Hs). pose proof (g_threads _ I j) as TJ.
    assert (gcLock s = Some c) as Hg by (apply (t_gc _ _ _ TC); by rewrite Hc).
    assert (safepointRequested s = true) as Hr by (apply (t_stopping _ _ _ TC); by rewrite Hc).
    assert (holdsGc (pc (threads s j)) = false) as Hh.
    { destruct (holdsGc (pc (threads s j))) eqn:E; [|done]. apply (t_gc _ _ _ TJ) in E. congruence. }
    pose proof (proj1 (t_member _ _ _ TJ) Hj) as Hm.
    destruct (pc (threads s j)) as [| | | |[]| |p|p|p|p []|p| |[]|b| |] eqn:Ep; try done.
    + exists (heapGcPoll s j), Poll, j. unfold step, heapGcPoll. rewrite Ep, Hr. cbn. rewrite fn_lookup_insert. by split_and!.
    + exists (heapGcPoll_slow s j), Go, j. unfold step, heapGcPoll_slow. rewrite Ep, Hr. cbn. rewrite fn_lookup_insert. by split_and!.
    + eexists _, Go, j. unfold step. rewrite Ep. split; [done|]. cbn. rewrite fn_lookup_insert. by split_and!.
    + exists (heapGcEnterBlocked s j p), Go, j. unfold step. rewrite Ep. cbn. rewrite fn_lookup_insert. by split_and!.
    + eexists _, Go, j. unfold step. rewrite Ep. split; [done|]. cbn. rewrite fn_lookup_insert. split_and!; [done..|by destruct p].
Qed.

(** C7. Once a collector waits in [heapGcBegin], the stop is inevitable: as long
    as it is not reached some mutator (or the collector) can go on in its code,
    and whichever does, every such sequence of steps ends with the collector
    past the handshake and collecting. *)
Theorem heapGcBegin_stops s c w : reachable s -> pc (threads s c) = BeginWait w ->
  inevitable advance (fun s => pc (threads s c) = Collecting true) s.
Proof.
  intros R. remember (total distance s) as n eqn:Hn. revert s w R Hn. induction (lt_wf n) as [n _ IHn]. intros s w R Hn.
  remember (total testing s) as m eqn:Hm. revert s w R Hn Hm. induction (lt_wf m) as [m _ IHm]. intros s w R Hn Hm Hc.
  pose proof (reachable_inv s R) as I. apply later; [by eapply advance_exists|]. intros s' A.
  assert (reachable s') as R' by (destruct A as (a & i & E & _); by eapply reach_step).
  destruct (advance_decreases s s' c w I Hc A) as [?|((w' & Hc') & [Hd|[Hd Ht]])]; [by apply now| |].
  - apply (IHn (total distance s')) with (w := w'); [lia|done|done|done].
  - apply (IHm (total testing s')) with (w := w'); [lia|done|lia|done|done].
Qed.

Lemma heapGcBegin_stops_witness : pc (threads (after wait_schedule) 0) = BeginWait false /\
  inevitable advance (fun s => pc (threads s 0) = Collecting true) (after wait_schedule).
Proof. split; [reflexivity|]. apply (heapGcBegin_stops (after wait_schedule) 0 false (after_reachable _)). reflexivity. Defined.
