(* ===== verification/Probing.v ===== *)
(** * Open addressing with linear probing

    The probe loop that the dictionaries ([src/vm/runtime/Dictionary.c]) and the
    symbol table ([src/vm/core/Smalltalk.c]) share: start at the slot the hash
    selects, go to the next slot around the end, stop at an empty slot or at an
    entry with the key.  An entry is found again as long as every slot between
    its home and its place is taken, and the loop ends as long as a slot is
    free. *)
From S2P Require Import Prelude.
From stdpp Require Import base list numbers.

#[local] Open Scope nat_scope.

(** [hash & size - 1] *)
Definition home (hash : Z) (size : nat) : nat := Z.to_nat (Z.land hash (Z.of_nat size - 1)).

(** [index == size - 1 ? 0 : index + 1] *)
Definition next (size i : nat) : nat := if i =? size - 1 then 0 else i + 1.

(** The loop.  [slots !! i] is the array; an empty slot holds nil. *)
Fixpoint probe {A} (fuel : nat) (stop : A -> bool) (slots : list (option A)) (i : nat) : option nat :=
  match fuel with
  | 0 => None
  | S fuel =>
      match slots !! i with
      | None => None
      | Some None => Some i
      | Some (Some a) => if stop a then Some i else probe fuel stop slots (next (length slots) i)
      end
  end.

Definition entries {A} (slots : list (option A)) : list A := omap id slots.

Definition power_of_two (n : nat) : Prop := exists k, n = 2 ^ k.

Lemma power_of_two_pos n : power_of_two n -> 0 < n.
Proof. intros [k ->]. induction k; cbn; lia. Qed.

Lemma power_of_two_double n : power_of_two n -> power_of_two (n * 2).
Proof. intros [k ->]. exists (S k). cbn. lia. Qed.

Lemma home_lt hash n : power_of_two n -> home hash n < n.
Proof.
  intros [k ->]. unfold home. replace (Z.of_nat (2 ^ k) - 1)%Z with (Z.ones (Z.of_nat k))
    by (rewrite Z.ones_equiv, Nat2Z.inj_pow; lia).
  rewrite Z.land_ones by lia. pose proof (Z.mod_pos_bound hash (2 ^ Z.of_nat k)%Z ltac:(apply Z.pow_pos_nonneg; lia)).
  apply Nat2Z.inj_lt. rewrite Z2Nat.id by lia. rewrite Nat2Z.inj_pow. lia.
Qed.

(** The slot after [d] steps. *)
Definition visit (n h d : nat) : nat := (h + d) mod n.

Lemma visit_lt n h d : 0 < n -> visit n h d < n.
Proof. intros. apply Nat.mod_upper_bound. lia. Qed.

Lemma visit_0 n h : h < n -> visit n h 0 = h.
Proof. intros. unfold visit. rewrite Nat.add_0_r. by apply Nat.mod_small. Qed.

Lemma visit_next n h d : 0 < n -> next n (visit n h d) = visit n h (S d).
Proof.
  intros Hn. unfold next, visit. replace (h + S d) with ((h + d) + 1) by lia. rewrite <- (Nat.Div0.add_mod_idemp_l (h + d) 1 n).
  pose proof (Nat.mod_upper_bound (h + d) n ltac:(lia)) as Hlt. destruct (Nat.eqb_spec ((h + d) mod n) (n - 1)) as [E|E].
  - rewrite E. replace (n - 1 + 1) with n by lia. by rewrite Nat.Div0.mod_same.
  - rewrite (Nat.mod_small (_ + 1)); lia.
Qed.

(** One round visits every slot. *)
Lemma visit_covers n h i : h < n -> i < n -> exists d, d < n /\ visit n h d = i.
Proof.
  intros Hh Hi. destruct (decide (h <= i)).
  - exists (i - h). split; [lia|]. unfold visit. replace (h + (i - h)) with i by lia. by apply Nat.mod_small.
  - exists (n - h + i). split; [lia|]. unfold visit. replace (h + (n - h + i)) with (i + 1 * n) by lia.
    rewrite Nat.Div0.mod_add. by apply Nat.mod_small.
Qed.

Section Probe.
Context {A : Type}.
Implicit Types (slots : list (option A)) (stop : A -> bool).

Definition halts stop slots (i : nat) : Prop :=
  slots !! i = Some None \/ exists a, slots !! i = Some (Some a) /\ stop a = true.

Definition passes stop slots (i : nat) : Prop := exists a, slots !! i = Some (Some a) /\ stop a = false.

Lemma halts_or_passes stop slots i : i < length slots -> halts stop slots i \/ passes stop slots i.
Proof.
  intros Hi. destruct (slots !! i) as [[a|]|] eqn:E; [|by left; left|apply lookup_ge_None in E; lia].
  destruct (stop a) eqn:S; [left; right|right]; by exists a.
Qed.

(** The loop stops at the first slot where it can. *)
Lemma probe_first stop slots h fuel d0 : h < length slots ->
  (exists d, d0 <= d < d0 + fuel /\ halts stop slots (visit (length slots) h d)) ->
  exists d, d0 <= d < d0 + fuel /\ probe fuel stop slots (visit (length slots) h d0) = Some (visit (length slots) h d) /\
    halts stop slots (visit (length slots) h d) /\ forall e, d0 <= e < d -> passes stop slots (visit (length slots) h e).
Proof.
  intros Hh. revert d0. induction fuel as [|fuel IH]; intros d0 (d & Hd & Hs); [lia|].
  destruct (halts_or_passes stop slots (visit (length slots) h d0)) as [H0|H0]; [apply visit_lt; lia| |].
  - exists d0. split_and!; [lia|lia| |done|lia]. cbn. by destruct H0 as [-> |(a & -> & ->)].
  - destruct (decide (d = d0)) as [->|Hne].
    { exfalso. destruct H0 as (a & Ea & Sa), Hs as [Hs|(b & Eb & Sb)]; congruence. }
    destruct (IH (S d0)) as (d' & ? & E & ? & Hp); [exists d; split; [lia|done]|].
    exists d'. split_and!; [lia|lia| |done|].
    + destruct H0 as (a & Ea & Sa). cbn. rewrite Ea, Sa, visit_next by lia. done.
    + intros e He. destruct (decide (e = d0)) as [->|]; [done|]. apply Hp. lia.
Qed.

(** Without a slot to stop at, no number of steps ends the loop. *)
Lemma probe_spins stop slots fuel i : i < length slots ->
  (forall j, j < length slots -> passes stop slots j) -> probe fuel stop slots i = None.
Proof.
  intros Hi Hp. revert i Hi. induction fuel as [|fuel IH]; intros i Hi; [done|]. cbn.
  destruct (Hp i Hi) as (a & -> & ->). apply IH. unfold next. destruct (Nat.eqb_spec i (length slots - 1)); lia.
Qed.

Lemma probe_ext stop stop' slots fuel i : (forall a, stop a = stop' a) -> probe fuel stop slots i = probe fuel stop' slots i.
Proof.
  intros E. revert i. induction fuel as [|fuel IH]; intros i; [done|]. cbn. destruct (slots !! i) as [[a|]|]; [|done|done].
  rewrite E. by destruct (stop' a).
Qed.

(** One round finds a slot to stop at, or no number of steps does. *)
Lemma probe_decides stop slots h : h < length slots ->
  ((exists i, probe (length slots) stop slots h = Some i) /\ exists i, halts stop slots i) \/
  ((forall i, ~ halts stop slots i) /\ forall fuel, probe fuel stop slots h = None).
Proof.
  intros Hh. destruct (decide (Exists (fun o => from_option stop true o = true) slots)) as [He|He].
  - left. assert (exists i, halts stop slots i) as Hy.
    { apply list.Exists_exists in He as (o & Ho & Hs). apply list_elem_of_lookup in Ho as [i Hi]. exists i.
      destruct o as [a|]; [right; by exists a|by left]. }
    split; [|done]. destruct Hy as (i & Hi).
    destruct (visit_covers (length slots) h i) as (d & Hd & <-); [done|destruct Hi as [Hi|(a & Hi & _)]; by eapply lookup_lt_Some|].
    destruct (probe_first stop slots h (length slots) 0) as (d' & _ & E & _); [done|exists d; split; [lia|done]|].
    rewrite visit_0 in E by done. by eexists.
  - right. assert (forall i, ~ halts stop slots i) as Hn.
    { intros i [Hi|(a & Hi & Ha)]; apply He, list.Exists_exists; [exists None|exists (Some a)]; (split; [by eapply list_elem_of_lookup_2|done]). }
    split; [done|]. intros fuel. apply probe_spins; [done|]. intros j Hj. by destruct (halts_or_passes stop slots j Hj) as [?%Hn|].
Qed.

(** ** Entries *)

Lemma elem_of_entries a slots : a ∈ entries slots <-> exists i, slots !! i = Some (Some a).
Proof.
  unfold entries. rewrite list_elem_of_omap. setoid_rewrite list_elem_of_lookup. split.
  - intros (o & (i & Hi) & E). exists i. cbn in E. by subst.
  - intros (i & Hi). exists (Some a). split; [by exists i|done].
Qed.

Lemma entries_le slots : length (entries slots) <= length slots.
Proof. unfold entries. induction slots as [|[a|] slots IH]; cbn; lia. Qed.

(** A slot is free when there are fewer entries than slots. *)
Lemma free_slot slots : length (entries slots) < length slots -> exists i, slots !! i = Some None.
Proof.
  unfold entries. induction slots as [|[a|] slots IH]; cbn; intros Hl; [lia| |by exists 0].
  destruct IH as [i Hi]; [lia|]. by exists (S i).
Qed.

Lemma entries_insert slots i a : slots !! i = Some None -> entries (<[i := Some a]> slots) ≡ₚ a :: entries slots.
Proof.
  revert i. induction slots as [|o slots IH]; intros i Hi; [done|]. destruct i as [|i]; cbn in Hi.
  - by injection Hi as ->.
  - unfold entries in *. cbn. destruct o as [b|]; cbn; [|by apply IH]. rewrite (IH i Hi). by constructor.
Qed.

Lemma entries_replicate n : entries (replicate n (@None A)) = [].
Proof. unfold entries. induction n; done. Qed.

(** ** Placement *)

Context {K : Type} (key : A -> K) (eqk : K -> K -> bool) (hash : K -> Z).

(** Keys that compare equal have the same hash. *)
Class KeyLaws : Prop := {
  eqk_refl k : eqk k k = true;
  eqk_sym k l : eqk k l = eqk l k;
  eqk_trans k l m : eqk k l = true -> eqk l m = true -> eqk k m = true;
  eqk_hash k l : eqk k l = true -> hash k = hash l }.

Definition start slots (k : K) : nat := home (hash k) (length slots).

(** Every slot between the home of the entry and its place is taken by an entry
    with another key. *)
Definition placed_at slots (i : nat) (a : A) : Prop :=
  exists d, d < length slots /\ i = visit (length slots) (start slots (key a)) d /\
    forall e, e < d -> passes (fun b => eqk (key b) (key a)) slots (visit (length slots) (start slots (key a)) e).

Definition placed slots : Prop := forall i a, slots !! i = Some (Some a) -> placed_at slots i a.

(** The key is that of no entry. *)
Definition absent slots (k : K) : Prop := forall a, a ∈ entries slots -> eqk (key a) k = false.

(** The place for a new entry: a free slot that the probe for its key reaches. *)
Definition vacancy slots (k : K) (i : nat) : Prop :=
  slots !! i = Some None /\ exists d, d < length slots /\ i = visit (length slots) (start slots k) d /\
    forall e, e < d -> passes (fun b => eqk (key b) k) slots (visit (length slots) (start slots k) e).

Lemma placed_replicate n : placed (replicate n None).
Proof. intros i a Hi. by apply lookup_replicate_1 in Hi as [? _]. Qed.

Lemma placed_insert slots i a k : placed slots -> vacancy slots k i -> key a = k ->
  placed (<[i := Some a]> slots).
Proof.
  intros P (Hi & d & Hd & Hid & Hp) Hk j b Hj.
  assert (forall stop x, passes stop slots x -> passes stop (<[i := Some a]> slots) x) as Hkeep.
  { intros stop x (c & Hc & Hs). exists c. split; [|done]. rewrite list_lookup_insert_ne; [done|]. intros ->. congruence. }
  unfold placed_at, start. rewrite length_insert. destruct (decide (i = j)) as [<-|Hne].
  - rewrite list_lookup_insert_eq in Hj by (by eapply lookup_lt_Some). injection Hj as <-. rewrite Hk.
    exists d. split_and!; [done|done|]. intros e He. by apply Hkeep, Hp.
  - rewrite list_lookup_insert_ne in Hj by done. destruct (P j b Hj) as (d' & ? & ? & Hp'). exists d'.
    split_and!; [done|done|]. intros e He. by apply Hkeep, Hp'.
Qed.

Context `{KeyLaws}.

(** The probe for a key finds its entry, or a vacancy for it. *)
Lemma probe_finds slots k : placed slots -> power_of_two (length slots) -> length (entries slots) < length slots ->
  exists i, probe (length slots) (fun a => eqk (key a) k) slots (start slots k) = Some i /\
    ((exists a, slots !! i = Some (Some a) /\ eqk (key a) k = true) \/ (vacancy slots k i /\ absent slots k)).
Proof.
  intros P Hpow Hfree. pose proof (home_lt (hash k) _ Hpow) as Hh. fold (start slots k) in Hh.
  destruct (free_slot slots Hfree) as [f Hf].
  destruct (visit_covers (length slots) (start slots k) f) as (df & Hdf & Ef); [done|by eapply lookup_lt_Some|].
  destruct (probe_first (fun a => eqk (key a) k) slots (start slots k) (length slots) 0) as (d & Hd & E & Hs & Hp);
    [done|exists df; split; [lia|left; by rewrite Ef]|].
  rewrite visit_0 in E by done. exists (visit (length slots) (start slots k) d). split; [done|].
  destruct Hs as [Hs|Hs]; [right|by left]. split.
  - split; [done|]. exists d. split_and!; [lia|done|]. intros e He. apply Hp. lia.
  - intros a (i & Hi)%elem_of_entries. destruct (eqk (key a) k) eqn:Ek; [|done]. exfalso.
    destruct (P i a Hi) as (d' & Hd' & Ei & Hp'). unfold start in Ei, Hp'. rewrite (eqk_hash _ _ Ek) in Ei, Hp'.
    fold (start slots k) in Ei, Hp'. destruct (decide (d' < d)) as [Hlt|Hge].
    + destruct (Hp d' ltac:(lia)) as (b & Hb & Eb). rewrite <- Ei in Hb. congruence.
    + destruct (decide (d' = d)) as [->|]; [congruence|]. destruct (Hp' d ltac:(lia)) as (b & Hb & _). congruence.
Qed.

(** No two entries have the same key. *)
Lemma placed_unique slots i j a b : placed slots -> slots !! i = Some (Some a) -> slots !! j = Some (Some b) ->
  eqk (key a) (key b) = true -> i = j.
Proof.
  intros P Hi Hj E. destruct (P i a Hi) as (d & Hd & Ei & Hp), (P j b Hj) as (d' & Hd' & Ej & Hp').
  unfold start in Ei, Hp. rewrite (eqk_hash _ _ E) in Ei, Hp. fold (start slots (key b)) in Ei, Hp.
  destruct (decide (d < d')) as [Hlt|]; [|destruct (decide (d' < d)) as [Hlt|]; [|by replace d' with d in * by lia; subst]].
  - destruct (Hp' d Hlt) as (c & Hc & Ec). rewrite <- Ei in Hc. congruence.
  - destruct (Hp d' Hlt) as (c & Hc & Ec). rewrite <- Ej in Hc. rewrite eqk_sym in E. congruence.
Qed.

(** A probe that no entry stops finds the vacancy of a key that is absent. *)
Lemma probe_vacancy stop slots k : power_of_two (length slots) -> length (entries slots) < length slots -> absent slots k ->
  (forall a, a ∈ entries slots -> stop a = false) ->
  exists i, probe (length slots) stop slots (start slots k) = Some i /\ vacancy slots k i.
Proof.
  intros Hpow Hfree Hab Hst. pose proof (home_lt (hash k) _ Hpow) as Hh. fold (start slots k) in Hh.
  destruct (free_slot slots Hfree) as [f Hf].
  destruct (visit_covers (length slots) (start slots k) f) as (df & Hdf & Ef); [done|by eapply lookup_lt_Some|].
  destruct (probe_first stop slots (start slots k) (length slots) 0) as (d & Hd & E & Hs & Hp);
    [done|exists df; split; [lia|left; by rewrite Ef]|].
  rewrite visit_0 in E by done. exists (visit (length slots) (start slots k) d). split; [done|].
  destruct Hs as [Hs|(a & Ha & Sa)]; [|rewrite Hst in Sa; [done|apply elem_of_entries; by eexists]].
  split; [done|]. exists d. split_and!; [lia|done|]. intros e He. destruct (Hp e ltac:(lia)) as (b & Hb & _). exists b.
  split; [done|]. apply Hab, elem_of_entries. by eexists.
Qed.

End Probe.
