(* ===== verification/Dictionary.v ===== *)
(** * Dictionaries

    The hash tables of the runtime ([src/vm/runtime/Dictionary.c]) and the
    functions of [src/vm/core/Class.c] that copy and merge method dictionaries.
    A table holds associations; growing it moves the associations themselves, so
    that code which refers to one still does.

    Objects are named by numbers that a collection does not change, as handles
    and slots of objects do not see it; what a collection does break is a raw
    [Value] in a C variable, so such a value carries the number of collections
    at which it was read.  Which allocations collect is a parameter, and so is
    [CityHash64]. *)
From S2P Require Import Prelude.
From stdpp Require Import base list gmap numbers.
From S2P Require Import Probing.

#[local] Open Scope nat_scope.

(** ** Memory *)

Inductive StringClass := ClassString | ClassSymbol | ClassOther.
#[export] Instance StringClass_eq_dec : EqDecision StringClass.
Proof. solve_decision. Defined.

Record RawString := mkString { sclass : StringClass; shash : Z; bytes : list Z }.

(** A [Value] word: an immediate integer, character or double (its bits), an
    object, or one of nil, true and false, which never move.  [Stale] is an
    address that no longer is the object's. *)
Inductive Value := Int (z : Z) | Chr (c : Z) | Flt (bits : Z) | Ref (p : nat) | Nil | Boolean (b : bool) | Stale.
#[export] Instance Value_eq_dec : EqDecision Value.
Proof. solve_decision. Defined.

Record RawAssociation := mkAssociation { akey : nat; avalue : Value }.

Record Memory := mkMemory {
  allocations : nat;
  epoch : nat;
  strings : gmap nat RawString;
  assocs : gmap nat RawAssociation }.

Record Dictionary := mkDictionary { contents : list (option nat); tally : Z }.

(** A [Value] in a C variable, read when there had been [stamp] collections. *)
Record Raw := mkRaw { stamp : nat; val : Value }.

Definition set_strings (f : gmap nat RawString -> gmap nat RawString) (m : Memory) : Memory :=
  mkMemory (allocations m) (epoch m) (f (strings m)) (assocs m).
Definition set_assocs (f : gmap nat RawAssociation -> gmap nat RawAssociation) (m : Memory) : Memory :=
  mkMemory (allocations m) (epoch m) (strings m) (f (assocs m)).

Definition raw (m : Memory) (v : Value) : Raw := mkRaw (epoch m) v.

(** What a raw value is when it is stored. *)
Definition settle (m : Memory) (r : Raw) : Value :=
  match val r with
  | Ref _ => if stamp r =? epoch m then val r else Stale
  | v => v
  end.

Definition bytesOf (m : Memory) (p : nat) : list Z := default [] (bytes <$> strings m !! p).
Definition classOf (m : Memory) (p : nat) : StringClass := default ClassOther (sclass <$> strings m !! p).
Definition objectGetHash (m : Memory) (p : nat) : Z := default 0%Z (shash <$> strings m !! p).
Definition keyOf (m : Memory) (a : nat) : nat := default 0 (akey <$> assocs m !! a).
Definition valueOf (m : Memory) (a : nat) : Value := default Nil (avalue <$> assocs m !! a).

Section Dictionary.
Context (collects : nat -> bool) (CityHash64 : list Z -> Z).

(** [newObject]: a new name, and perhaps a collection. *)
Definition newObject (m : Memory) : Memory * nat :=
  (mkMemory (S (allocations m)) (if collects (allocations m) then S (epoch m) else epoch m) (strings m) (assocs m), allocations m).

(** ** Strings as keys *)

(** [CityHash64(...) << 2 >> 2] *)
Definition computeRawStringHash (s : list Z) : Z := Z.shiftr (u64 (Z.shiftl (CityHash64 s) 2)) 2.
Definition computeStringHash (m : Memory) (p : nat) : Z := computeRawStringHash (bytesOf m p).

Definition stringEquals (m : Memory) (a b : nat) : bool :=
  (length (bytesOf m a) =? length (bytesOf m b)) && bool_decide (bytesOf m a = bytesOf m b).

Definition identityCmp (_ : Memory) (a b : nat) : bool := a =? b.
Definition stringCmp (m : Memory) (a b : nat) : bool := stringEquals m a b.

(** ** Dictionary.c *)

Definition newDictionary (m : Memory) (size : nat) : Memory * Dictionary :=
  let '(m, _) := newObject m in
  let '(m, _) := newObject m in
  (m, mkDictionary (replicate size None) 0).

Definition dictSize (dict : Dictionary) : Z := tally dict.

Definition findIndex (m : Memory) (contents : list (option nat)) (cmp : Memory -> nat -> nat -> bool) (key : nat) (hash : Z) : option nat :=
  probe (length contents) (fun a => cmp m (keyOf m a) key) contents (home hash (length contents)).

(** The place of an association in the new contents, by the class of its key. *)
Definition rehash (m : Memory) (newContents : list (option nat)) (assoc : nat) : option (list (option nat)) :=
  let key := keyOf m assoc in
  index ← match classOf m key with
          | ClassString => findIndex m newContents stringCmp key (computeStringHash m key)
          | ClassSymbol => findIndex m newContents identityCmp key (objectGetHash m key)
          | ClassOther => None
          end;
  put newContents index (Some assoc).

Fixpoint rehashAll (m : Memory) (contents : list (option nat)) (newContents : list (option nat)) : option (list (option nat)) :=
  match contents with
  | [] => Some newContents
  | None :: contents => rehashAll m contents newContents
  | Some assoc :: contents => newContents ← rehash m newContents assoc; rehashAll m contents newContents
  end.

Definition growDictionary (m : Memory) (dict : Dictionary) : option (Memory * Dictionary) :=
  let '(m, _) := newObject m in
  newContents ← rehashAll m (contents dict) (replicate (length (contents dict) * 2) None);
  Some (m, mkDictionary newContents (tally dict)).

(** A new association goes into the slot that was found; the table grows at
    three quarters. *)
Definition addAssoc (m : Memory) (dict : Dictionary) (index assoc : nat) : option (Memory * Dictionary) :=
  slots ← put (contents dict) index (Some assoc);
  let dict := mkDictionary slots (tally dict + 1) in
  if (Z.of_nat (length slots) * 3 <=? dictSize dict * 4)%Z then growDictionary m dict else Some (m, dict).

Definition createAssoc (m : Memory) (key : nat) (value : Value) : Memory * nat :=
  let '(m, assoc) := newObject m in
  (set_assocs (insert assoc (mkAssociation key value)) m, assoc).

(** The value is a raw one, and is stored after the allocation. *)
Definition dictAtPut (m : Memory) (dict : Dictionary) cmp (key : nat) (hash : Z) (value : Raw) : option (Memory * Dictionary * nat) :=
  index ← findIndex m (contents dict) cmp key hash;
  slot ← contents dict !! index;
  match slot with
  | None =>
      let '(m, assoc) := newObject m in
      let m := set_assocs (insert assoc (mkAssociation key (settle m value))) m in
      r ← addAssoc m dict index assoc; Some (r, assoc)
  | Some assoc => Some (set_assocs (insert assoc (mkAssociation (keyOf m assoc) (settle m value))) m, dict, assoc)
  end.

(** The value is a handle. *)
Definition dictAtPutObject (m : Memory) (dict : Dictionary) cmp (key : nat) (hash : Z) (value : Value) : option (Memory * Dictionary * nat) :=
  index ← findIndex m (contents dict) cmp key hash;
  slot ← contents dict !! index;
  match slot with
  | None => let '(m, assoc) := createAssoc m key value in r ← addAssoc m dict index assoc; Some (r, assoc)
  | Some assoc => Some (set_assocs (insert assoc (mkAssociation (keyOf m assoc) value)) m, dict, assoc)
  end.

(** The result [None] of the inner option is the nil handle. *)
Definition dictAssocAt (m : Memory) (dict : Dictionary) cmp (key : nat) (hash : Z) : option (option nat) :=
  index ← findIndex m (contents dict) cmp key hash;
  contents dict !! index.

Definition dictAt (m : Memory) (dict : Dictionary) cmp (key : nat) (hash : Z) : option Value :=
  slot ← dictAssocAt m dict cmp key hash;
  Some (match slot with Some assoc => valueOf m assoc | None => Nil end).

Definition symbolDictAtPut (m : Memory) (dict : Dictionary) (key : nat) (value : Raw) :=
  ASSERT (bool_decide (classOf m key = ClassSymbol)) ;; dictAtPut m dict identityCmp key (objectGetHash m key) value.
Definition symbolDictAtPutObject (m : Memory) (dict : Dictionary) (key : nat) (value : Value) :=
  ASSERT (bool_decide (classOf m key = ClassSymbol)) ;; dictAtPutObject m dict identityCmp key (objectGetHash m key) value.
Definition symbolDictAt (m : Memory) (dict : Dictionary) (key : nat) :=
  ASSERT (bool_decide (classOf m key = ClassSymbol)) ;; dictAt m dict identityCmp key (objectGetHash m key).
Definition symbolDictAssocAt (m : Memory) (dict : Dictionary) (key : nat) :=
  ASSERT (bool_decide (classOf m key = ClassSymbol)) ;; dictAssocAt m dict identityCmp key (objectGetHash m key).

Definition stringDictAtPut (m : Memory) (dict : Dictionary) (key : nat) (value : Raw) :=
  ASSERT (bool_decide (classOf m key = ClassString)) ;; dictAtPut m dict stringCmp key (computeStringHash m key) value.
Definition stringDictAtPutObject (m : Memory) (dict : Dictionary) (key : nat) (value : Value) :=
  ASSERT (bool_decide (classOf m key = ClassString)) ;; dictAtPutObject m dict stringCmp key (computeStringHash m key) value.
Definition stringDictAt (m : Memory) (dict : Dictionary) (key : nat) :=
  ASSERT (bool_decide (classOf m key = ClassString)) ;; dictAt m dict stringCmp key (computeStringHash m key).
Definition stringDictAssocAt (m : Memory) (dict : Dictionary) (key : nat) :=
  ASSERT (bool_decide (classOf m key = ClassString)) ;; dictAssocAt m dict stringCmp key (computeStringHash m key).

(** ** The two kinds of dictionaries *)

Inductive Kind := SymbolKeys | StringKeys.

Definition cmpOf (k : Kind) : Memory -> nat -> nat -> bool := match k with SymbolKeys => identityCmp | StringKeys => stringCmp end.
Definition hashOf (k : Kind) (m : Memory) (p : nat) : Z := match k with SymbolKeys => objectGetHash m p | StringKeys => computeStringHash m p end.
Definition keyClass (k : Kind) : StringClass := match k with SymbolKeys => ClassSymbol | StringKeys => ClassString end.

Definition atPut (k : Kind) := match k with SymbolKeys => symbolDictAtPut | StringKeys => stringDictAtPut end.
Definition atPutObject (k : Kind) := match k with SymbolKeys => symbolDictAtPutObject | StringKeys => stringDictAtPutObject end.
Definition at_ (k : Kind) := match k with SymbolKeys => symbolDictAt | StringKeys => stringDictAt end.
Definition assocAt (k : Kind) := match k with SymbolKeys => symbolDictAssocAt | StringKeys => stringDictAssocAt end.

Lemma stringEquals_spec m a b : stringEquals m a b = bool_decide (bytesOf m a = bytesOf m b).
Proof. unfold stringEquals. case_bool_decide as E; [by rewrite E, Nat.eqb_refl|by rewrite andb_false_r]. Qed.

#[global] Instance kind_laws k m : KeyLaws (cmpOf k m) (hashOf k m).
Proof using CityHash64.
  clear collects. destruct k; cbn; unfold identityCmp, stringCmp.
  - constructor; intros *; [apply Nat.eqb_refl|apply Nat.eqb_sym|rewrite !Nat.eqb_eq; congruence|].
    intros ->%Nat.eqb_eq. done.
  - constructor; intros *; rewrite ?stringEquals_spec; [by apply bool_decide_true| | |].
    + apply bool_decide_ext. naive_solver.
    + rewrite !bool_decide_eq_true. congruence.
    + rewrite bool_decide_eq_true. intros E. unfold hashOf, computeStringHash. by rewrite E.
Qed.

(** ** Well-formed dictionaries *)

Definition entry_ok (k : Kind) (m : Memory) (a : nat) : Prop :=
  a < allocations m /\ exists x, assocs m !! a = Some x /\ classOf m (akey x) = keyClass k.

Record dict_ok (k : Kind) (m : Memory) (dict : Dictionary) : Prop := {
  d_power : power_of_two (length (contents dict));
  d_placed : placed (keyOf m) (cmpOf k m) (hashOf k m) (contents dict);
  d_tally : tally dict = Z.of_nat (length (entries (contents dict)));
  d_load : (tally dict * 4 < Z.of_nat (length (contents dict)) * 3)%Z;
  d_entries : forall a, a ∈ entries (contents dict) -> entry_ok k m a }.

(** The value that a dictionary gives a key. *)
Definition content (k : Kind) (m : Memory) (dict : Dictionary) (key : nat) : option Value :=
  valueOf m <$> head (filter (fun a => cmpOf k m (keyOf m a) key = true) (entries (contents dict))).

Lemma content_entry k m dict a key : dict_ok k m dict -> a ∈ entries (contents dict) -> cmpOf k m (keyOf m a) key = true ->
  content k m dict key = Some (valueOf m a).
Proof.
  intros D Ha E. unfold content. destruct (filter _ (entries (contents dict))) as [|b l] eqn:F.
  - exfalso. assert (a ∈ (@nil nat)) as Hn by (rewrite <- F; by apply list_elem_of_filter). by apply elem_of_nil in Hn.
  - assert (b ∈ b :: l) as Hb by left. rewrite <- F in Hb. apply list_elem_of_filter in Hb as [Eb Hb]. cbn.
    apply elem_of_entries in Ha as [i Hi], Hb as [j Hj].
    assert (i = j) as ->; [|congruence]. eapply (placed_unique (keyOf m) (cmpOf k m) (hashOf k m)); [apply D|done|done|].
    apply (eqk_trans (cmpOf k m) (hashOf k m) _ key); [done|]. by rewrite (eqk_sym (cmpOf k m) (hashOf k m)).
Qed.

Lemma content_absent k m dict key : (forall a, a ∈ entries (contents dict) -> cmpOf k m (keyOf m a) key = false) -> content k m dict key = None.
Proof.
  intros Hab. unfold content. destruct (filter _ (entries (contents dict))) as [|b l] eqn:F; [done|].
  assert (b ∈ b :: l) as Hb by left. rewrite <- F in Hb. apply list_elem_of_filter in Hb as [Eb Hb]. rewrite Hab in Eb; done.
Qed.

Lemma content_inv k m dict key v : content k m dict key = Some v ->
  exists a, a ∈ entries (contents dict) /\ cmpOf k m (keyOf m a) key = true /\ valueOf m a = v.
Proof.
  unfold content. destruct (filter _ (entries (contents dict))) as [|b l] eqn:F; [done|]. cbn. intros [= <-].
  assert (b ∈ b :: l) as Hb by left. rewrite <- F in Hb. apply list_elem_of_filter in Hb as [Eb Hb]. by exists b.
Qed.

(** The contents with symbol keys are those of the associations in the table. *)
Lemma content_agree m m' dict key : (forall b, b ∈ entries (contents dict) -> assocs m' !! b = assocs m !! b) ->
  content SymbolKeys m' dict key = content SymbolKeys m dict key.
Proof.
  unfold content. cbn. induction (entries (contents dict)) as [|x l IH]; intros Hl; [done|]. rewrite !filter_cons.
  unfold keyOf, valueOf, identityCmp in *. rewrite !(Hl x) by (by left). case_decide; cbn; [by rewrite (Hl x) by (by left)|].
  apply IH. intros y Hy. apply Hl. by right.
Qed.

(** [findIndex] on a well-formed table. *)
Lemma findIndex_ok k m dict key : dict_ok k m dict ->
  exists i, findIndex m (contents dict) (cmpOf k) key (hashOf k m key) = Some i /\
    ((exists a, contents dict !! i = Some (Some a) /\ cmpOf k m (keyOf m a) key = true) \/
     (vacancy (keyOf m) (cmpOf k m) (hashOf k m) (contents dict) key i /\ absent (keyOf m) (cmpOf k m) (contents dict) key)).
Proof.
  intros D. apply (probe_finds (keyOf m) (cmpOf k m) (hashOf k m)); [apply D|apply D|].
  pose proof (d_load _ _ _ D). rewrite (d_tally _ _ _ D) in *. lia.
Qed.

Lemma dictAssocAt_ok k m dict key : dict_ok k m dict ->
  (exists a, dictAssocAt m dict (cmpOf k) key (hashOf k m key) = Some (Some a) /\ a ∈ entries (contents dict) /\ cmpOf k m (keyOf m a) key = true) \/
  (dictAssocAt m dict (cmpOf k) key (hashOf k m key) = Some None /\ content k m dict key = None).
Proof.
  intros D. unfold dictAssocAt. destruct (findIndex_ok k m dict key D) as (i & -> & [(a & Hi & E)|[[Hi _] Hab]]); cbn; rewrite Hi.
  - left. exists a. split_and!; [done|apply elem_of_entries; by eexists|done].
  - right. split; [done|]. by apply content_absent.
Qed.

Lemma dictAt_ok k m dict key : dict_ok k m dict ->
  dictAt m dict (cmpOf k) key (hashOf k m key) = Some (default Nil (content k m dict key)).
Proof.
  intros D. unfold dictAt. destruct (dictAssocAt_ok k m dict key D) as [(a & -> & Ha & E)|[-> ->]]; cbn; [|done].
  by rewrite (content_entry k m dict a key D Ha E).
Qed.

(** ** Memory that agrees on the keys *)

(** The associations of [l] keep their keys, and strings their contents. *)
Definition same_keys (m m' : Memory) (l : list nat) : Prop :=
  strings m' = strings m /\ allocations m <= allocations m' /\
  forall a, a ∈ l -> akey <$> assocs m' !! a = akey <$> assocs m !! a.

Lemma same_key m m' l a : same_keys m m' l -> a ∈ l -> keyOf m' a = keyOf m a.
Proof. intros (_ & _ & E) Ha. unfold keyOf. by rewrite E. Qed.

Lemma same_cmp k m m' : strings m' = strings m -> cmpOf k m' = cmpOf k m /\ hashOf k m' = hashOf k m /\ classOf m' = classOf m.
Proof.
  intros E. destruct k; cbn; unfold identityCmp, stringCmp, stringEquals, hashOf, computeStringHash, objectGetHash, classOf, bytesOf; by rewrite E.
Qed.

Lemma entry_ok_same k m m' l a : same_keys m m' l -> a ∈ l -> entry_ok k m a -> entry_ok k m' a.
Proof.
  intros E Ha (Hlt & x & Hx & Hc). pose proof E as (_ & Hle & Ek). split; [lia|]. specialize (Ek a Ha). rewrite Hx in Ek.
  destruct (assocs m' !! a) as [y|] eqn:Hy; [|done]. exists y. split; [done|]. injection Ek as ->. by rewrite (proj2 (proj2 (same_cmp k _ _ (proj1 E)))).
Qed.

Lemma placed_same k m m' slots : same_keys m m' (entries slots) ->
  placed (keyOf m) (cmpOf k m) (hashOf k m) slots -> placed (keyOf m') (cmpOf k m') (hashOf k m') slots.
Proof.
  intros E P i a Hi. destruct (same_cmp k _ _ (proj1 E)) as (-> & -> & _). destruct (P i a Hi) as (d & Hd & Ed & Hp).
  assert (a ∈ entries slots) as Ha by (apply elem_of_entries; by eexists).
  exists d. unfold start in *. rewrite (same_key _ _ _ a E Ha). split_and!; [done|done|].
  intros e He. destruct (Hp e He) as (b & Hb & Eb). exists b. split; [done|].
  rewrite (same_key _ _ _ b E); [done|]. apply elem_of_entries. by eexists.
Qed.

Lemma dict_ok_same k m m' dict : same_keys m m' (entries (contents dict)) -> dict_ok k m dict -> dict_ok k m' dict.
Proof.
  intros E []. constructor; [done|by eapply placed_same|done|done|]. intros a Ha. eapply entry_ok_same; [done|done|]. by apply d_entries0.
Qed.

(** ** Growth *)

Definition all_ok (k : Kind) (m : Memory) (slots : list (option nat)) : Prop := forall a, a ∈ entries slots -> entry_ok k m a.

(** The keys of the associations of [l] differ from each other and from those
    in [slots]. *)
Definition distinct_from (k : Kind) (m : Memory) (l : list (option nat)) (slots : list (option nat)) : Prop :=
  (forall i j a b, l !! i = Some (Some a) -> l !! j = Some (Some b) -> cmpOf k m (keyOf m a) (keyOf m b) = true -> i = j) /\
  forall a, a ∈ entries l -> absent (keyOf m) (cmpOf k m) slots (keyOf m a).

Lemma rehash_ok k m slots a : power_of_two (length slots) -> length (entries slots) < length slots ->
  placed (keyOf m) (cmpOf k m) (hashOf k m) slots -> entry_ok k m a -> absent (keyOf m) (cmpOf k m) slots (keyOf m a) ->
  exists i, rehash m slots a = Some (<[i := Some a]> slots) /\ slots !! i = Some None /\
    placed (keyOf m) (cmpOf k m) (hashOf k m) (<[i := Some a]> slots).
Proof.
  intros Hp Hf P (_ & x & Hx & Hc) Hab.
  destruct (probe_vacancy (keyOf m) (cmpOf k m) (hashOf k m) (fun b => cmpOf k m (keyOf m b) (keyOf m a)) slots (keyOf m a) Hp Hf Hab Hab)
    as (i & E & V). exists i. split; [|split; [apply V|by apply (placed_insert _ _ _ _ _ _ (keyOf m a))]].
  assert (classOf m (keyOf m a) = keyClass k) as Hcl by (unfold keyOf; by rewrite Hx).
  assert (findIndex m slots (cmpOf k) (keyOf m a) (hashOf k m (keyOf m a)) = Some i) as F by done.
  unfold rehash. rewrite Hcl. pose proof (lookup_lt_Some _ _ _ (proj1 V)) as Hi. cbn zeta.
  destruct k; cbn [keyClass cmpOf hashOf] in *; rewrite F; cbn; by apply put_Some.
Qed.

Lemma distinct_cons k m a l slots : distinct_from k m (Some a :: l) slots -> forall i, slots !! i = Some None ->
  distinct_from k m l (<[i := Some a]> slots).
Proof.
  intros [D1 D2] i Hi. split.
  - intros x y b c Hx Hy E. assert (S x = S y) as [= ->]; [|done]. by apply (D1 (S x) (S y) b c).
  - intros b Hb c Hc. rewrite (entries_insert slots i a Hi) in Hc. apply list.elem_of_cons in Hc as [->|Hc].
    + apply elem_of_entries in Hb as [j Hj]. destruct (cmpOf k m (keyOf m a) (keyOf m b)) eqn:E; [|done].
      by specialize (D1 0 (S j) a b eq_refl Hj E).
    + apply (D2 b); [|done]. unfold entries. cbn. by right.
Qed.

Lemma distinct_none k m l slots : distinct_from k m (None :: l) slots -> distinct_from k m l slots.
Proof.
  intros [D1 D2]. split; [|intros a Ha; by apply D2]. intros x y b c Hx Hy E. assert (S x = S y) as [= ->]; [|done]. by apply (D1 (S x) (S y) b c).
Qed.

Lemma rehashAll_ok k m l slots : power_of_two (length slots) -> length (entries slots) + length (entries l) < length slots ->
  placed (keyOf m) (cmpOf k m) (hashOf k m) slots -> all_ok k m l -> distinct_from k m l slots ->
  exists slots', rehashAll m l slots = Some slots' /\ length slots' = length slots /\ entries slots' ≡ₚ entries slots ++ entries l /\
    placed (keyOf m) (cmpOf k m) (hashOf k m) slots'.
Proof.
  revert slots. induction l as [|[a|] l IH]; intros slots Hp Hf P O D.
  - exists slots. unfold entries at 3. cbn. rewrite app_nil_r. done.
  - change (entries (Some a :: l)) with (a :: entries l) in *. cbn in Hf.
    destruct (rehash_ok k m slots a) as (i & E & Hi & P'); [done|lia|done|apply O; by left|apply D; by left|].
    cbn [rehashAll]. rewrite E. cbn [mbind option_bind].
    destruct (IH (<[i := Some a]> slots)) as (slots' & -> & Hl & Hperm & P'').
    + by rewrite length_insert.
    + rewrite (entries_insert slots i a Hi), length_insert. cbn. lia.
    + done.
    + intros b Hb. apply O. by right.
    + by apply distinct_cons.
    + exists slots'. split_and!; [done|by rewrite Hl, length_insert| |done].
      rewrite Hperm, (entries_insert slots i a Hi). change (entries (Some a :: l)) with (a :: entries l). by rewrite <- Permutation_middle.
  - cbn [rehashAll]. apply IH; try done. by apply distinct_none in D.
Qed.

Lemma newObject_same m l : same_keys m (fst (newObject m)) l.
Proof. split_and!; [done|cbn; lia|done]. Qed.

(** Growing keeps every association. *)
Lemma grow_ok k m dict : power_of_two (length (contents dict)) -> placed (keyOf m) (cmpOf k m) (hashOf k m) (contents dict) ->
  tally dict = Z.of_nat (length (entries (contents dict))) -> all_ok k m (contents dict) ->
  exists dict', growDictionary m dict = Some (fst (newObject m), dict') /\ dict_ok k (fst (newObject m)) dict' /\
    entries (contents dict') ≡ₚ entries (contents dict).
Proof.
  intros Hp P Ht O. unfold growDictionary. destruct (newObject m) as [m' x] eqn:E. cbn.
  assert (same_keys m m' (entries (contents dict))) as Sk by (change m' with (fst (m', x)); rewrite <- E; apply newObject_same).
  pose proof (power_of_two_pos _ Hp) as Hpos. pose proof (entries_le (contents dict)) as Hle.
  destruct (rehashAll_ok k m' (contents dict) (replicate (length (contents dict) * 2) None)) as (slots & -> & Hl & Hperm & P').
  - rewrite length_replicate. by apply power_of_two_double.
  - rewrite entries_replicate, length_replicate. cbn. lia.
  - apply placed_replicate.
  - intros a Ha. eapply entry_ok_same; [exact Sk|done|]. by apply O.
  - split.
    + intros i j a b Hi Hj Eq. assert (P2 := placed_same k _ _ _ Sk P). eapply placed_unique; [apply kind_laws|exact P2|done|done|done].
    + intros a _ b Hb. rewrite entries_replicate in Hb. by apply elem_of_nil in Hb.
  - rewrite entries_replicate in Hperm. cbn in Hperm. cbn. eexists. split; [done|]. split; [|done]. constructor; cbn.
    + rewrite Hl, length_replicate. by apply power_of_two_double.
    + done.
    + by rewrite Hperm.
    + rewrite Hl, length_replicate, Ht. lia.
    + intros a Ha. rewrite Hperm in Ha. eapply entry_ok_same; [exact Sk|done|]. by apply O.
Qed.

(** ** Stores *)

(** What a store of [v] at [key] through the association [a] does. *)
Record stored (k : Kind) (m : Memory) (dict : Dictionary) (key : nat) (v : Value) (m' : Memory) (dict' : Dictionary) (a : nat) : Prop := {
  st_ok : dict_ok k m' dict';
  st_in : a ∈ entries (contents dict');
  st_value : valueOf m' a = v;
  st_key : cmpOf k m (keyOf m' a) key = true;
  st_kept : forall b, b ∈ entries (contents dict) -> b ∈ entries (contents dict');
  st_only : forall b, b ∈ entries (contents dict') -> b = a \/ b ∈ entries (contents dict);
  st_old : a ∈ entries (contents dict) -> keyOf m' a = keyOf m a;
  st_frame : forall b, b <> a -> assocs m' !! b = assocs m !! b;
  st_strings : strings m' = strings m;
  st_new : a ∈ entries (contents dict) \/ (a = allocations m /\ keyOf m' a = key);
  st_alloc : allocations m <= allocations m';
  st_size : ((tally dict + 1) * 4 < Z.of_nat (length (contents dict)) * 3)%Z ->
    length (contents dict') = length (contents dict) /\ (tally dict' <= tally dict + 1)%Z;
  st_epoch : (forall n, collects n = false) -> epoch m' = epoch m }.

Lemma stored_content k m dict key v m' dict' a : dict_ok k m dict -> stored k m dict key v m' dict' a ->
  forall key', content k m' dict' key' = if cmpOf k m key key' then Some v else content k m dict key'.
Proof.
  intros D S key'. pose proof (st_ok _ _ _ _ _ _ _ _ S) as D'. destruct (same_cmp k m m' (st_strings _ _ _ _ _ _ _ _ S)) as (Ec & _ & _).
  pose proof (st_key _ _ _ _ _ _ _ _ S) as Ka.
  assert (forall b, b ∈ entries (contents dict) -> cmpOf k m (keyOf m' b) key' = cmpOf k m (keyOf m b) key' /\ (b <> a -> valueOf m' b = valueOf m b)) as Hb.
  { intros b Hb. destruct (decide (b = a)) as [->|Hne]; [by rewrite (st_old _ _ _ _ _ _ _ _ S Hb)|].
    unfold keyOf, valueOf. by rewrite (st_frame _ _ _ _ _ _ _ _ S b Hne). }
  destruct (cmpOf k m key key') eqn:E.
  - rewrite (content_entry k m' dict' a key' D'); [by rewrite (st_value _ _ _ _ _ _ _ _ S)|apply S|].
    rewrite Ec. by apply (eqk_trans (cmpOf k m) (hashOf k m) _ key).
  - assert (cmpOf k m (keyOf m' a) key' = false) as Na.
    { destruct (cmpOf k m (keyOf m' a) key') eqn:E'; [|done]. rewrite <- E. symmetry.
      apply (eqk_trans (cmpOf k m) (hashOf k m) _ (keyOf m' a)); [by rewrite (eqk_sym (cmpOf k m) (hashOf k m))|done]. }
    destruct (content k m dict key') as [w|] eqn:C.
    + destruct (content_inv _ _ _ _ _ C) as (b & Hin & Kb & <-). destruct (Hb b Hin) as [Eb Ev].
      assert (b <> a) as Hne by (intros ->; congruence).
      rewrite (content_entry k m' dict' b key' D'); [by rewrite Ev|by apply S|by rewrite Ec, Eb].
    + destruct (content k m' dict' key') as [w|] eqn:C'; [|done]. exfalso.
      destruct (content_inv _ _ _ _ _ C') as (b & Hin & Kb & _). rewrite Ec in Kb.
      destruct (st_only _ _ _ _ _ _ _ _ S b Hin) as [->|Hin']; [congruence|]. rewrite (proj1 (Hb b Hin')) in Kb.
      by rewrite (content_entry k m dict b key' D Hin' Kb) in C.
Qed.

(** A new association in a vacancy. *)
Lemma addAssoc_ok k m dict key i a : dict_ok k m dict -> entry_ok k m a -> keyOf m a = key -> a ∉ entries (contents dict) ->
  vacancy (keyOf m) (cmpOf k m) (hashOf k m) (contents dict) key i -> absent (keyOf m) (cmpOf k m) (contents dict) key ->
  exists m' dict', addAssoc m dict i a = Some (m', dict') /\ dict_ok k m' dict' /\ entries (contents dict') ≡ₚ a :: entries (contents dict) /\
    assocs m' = assocs m /\ strings m' = strings m /\ allocations m <= allocations m' /\
    (((tally dict + 1) * 4 < Z.of_nat (length (contents dict)) * 3)%Z ->
      length (contents dict') = length (contents dict) /\ tally dict' = tally dict + 1)%Z /\
    ((forall n, collects n = false) -> epoch m' = epoch m).
Proof.
  intros D O Hk Hn V Hab. pose proof (lookup_lt_Some _ _ _ (proj1 V)) as Hi. unfold addAssoc. rewrite put_Some by done. cbn [mbind option_bind].
  assert (placed (keyOf m) (cmpOf k m) (hashOf k m) (<[i := Some a]> (contents dict))) as P by (apply (placed_insert _ _ _ _ _ _ key); [apply D|done|done]).
  pose proof (entries_insert (contents dict) i a (proj1 V)) as Hperm.
  assert (all_ok k m (<[i := Some a]> (contents dict))) as O'.
  { intros b Hb. rewrite Hperm in Hb. apply list.elem_of_cons in Hb as [->|Hb]; [done|by apply D]. }
  assert (tally dict + 1 = Z.of_nat (length (entries (<[i := Some a]> (contents dict)))))%Z as Ht by (rewrite Hperm, (d_tally _ _ _ D); cbn; lia).
  case_match eqn:Hl.
  - destruct (grow_ok k m (mkDictionary (<[i := Some a]> (contents dict)) (tally dict + 1))) as (dict' & -> & D' & Hp'); try done.
    + cbn. rewrite length_insert. apply D.
    + eexists _, _. split; [done|]. split; [done|]. split; [by rewrite Hp'|]. split_and!; [done|done|cbn; lia| |intros Hno; cbn; by rewrite Hno].
      unfold dictSize in Hl. cbn in Hl. rewrite length_insert in Hl. lia.
  - eexists _, _. split; [done|]. split; [|split; [done|]].
    + constructor; cbn; try done; [rewrite length_insert; apply D|]. unfold dictSize in Hl. cbn in Hl. lia.
    + split_and!; [done|done|done| |done]. intros _. cbn. by rewrite length_insert.
Qed.

Lemma vacancy_same k m m' slots key i : same_keys m m' (entries slots) ->
  vacancy (keyOf m) (cmpOf k m) (hashOf k m) slots key i -> vacancy (keyOf m') (cmpOf k m') (hashOf k m') slots key i.
Proof.
  intros E (Hi & d & Hd & Ei & Hp). destruct (same_cmp k _ _ (proj1 E)) as (-> & -> & _). split; [done|]. exists d. split_and!; [done|done|].
  intros e He. destruct (Hp e He) as (b & Hb & Eb). exists b. split; [done|]. rewrite (same_key _ _ _ b E); [done|]. apply elem_of_entries. by eexists.
Qed.

Lemma absent_same k m m' slots key : same_keys m m' (entries slots) ->
  absent (keyOf m) (cmpOf k m) slots key -> absent (keyOf m') (cmpOf k m') slots key.
Proof. intros E Hab a Ha. destruct (same_cmp k _ _ (proj1 E)) as (-> & _). rewrite (same_key _ _ _ a E Ha). by apply Hab. Qed.

Lemma put_new k m dict key v i : dict_ok k m dict -> classOf m key = keyClass k ->
  vacancy (keyOf m) (cmpOf k m) (hashOf k m) (contents dict) key i -> absent (keyOf m) (cmpOf k m) (contents dict) key ->
  exists m' dict', addAssoc (set_assocs (insert (allocations m) (mkAssociation key v)) (fst (newObject m))) dict i (allocations m) = Some (m', dict') /\
    stored k m dict key v m' dict' (allocations m).
Proof.
  intros D Hc V Hab. set (a := allocations m). set (m1 := set_assocs _ _).
  assert (forall b, b ∈ entries (contents dict) -> b <> a) as Hne by (intros b Hb ->; destruct (d_entries _ _ _ D a Hb) as [? _]; unfold a in *; lia).
  assert (same_keys m m1 (entries (contents dict))) as Sk.
  { split_and!; [done|cbn; lia|]. intros b Hb. cbn. rewrite lookup_insert_ne; [done|]. intros <-. by apply (Hne a). }
  assert (assocs m1 !! a = Some (mkAssociation key v)) as Ha by (cbn; apply lookup_insert_eq).
  destruct (same_cmp k m m1 eq_refl) as (Ec & _ & Ecl).
  destruct (addAssoc_ok k m1 dict key i a) as (m' & dict' & E & D' & Hperm & Eas & Est & Hal & Hsz & Hep).
  - by eapply dict_ok_same.
  - split; [cbn; lia|]. eexists. split; [done|]. by rewrite Ecl.
  - unfold keyOf. by rewrite Ha.
  - intros Hin. by apply (Hne a).
  - by eapply vacancy_same.
  - by eapply absent_same.
  - exists m', dict'. split; [done|]. constructor; try done.
    + rewrite Hperm. by left.
    + unfold valueOf. by rewrite Eas, Ha.
    + unfold keyOf. rewrite Eas, Ha. apply (eqk_refl (cmpOf k m) (hashOf k m)).
    + intros b Hb. rewrite Hperm. by right.
    + intros b Hb. rewrite Hperm in Hb. by apply list.elem_of_cons in Hb.
    + intros Hin. by destruct (Hne a Hin).
    + intros b Hb. rewrite Eas. cbn. by rewrite lookup_insert_ne.
    + right. split; [done|]. unfold keyOf. by rewrite Eas, Ha.
    + cbn in Hal. lia.
    + intros Hs. destruct (Hsz Hs) as [? ->]. done.
    + intros Hno. rewrite Hep by done. cbn. by rewrite Hno.
Qed.

Lemma put_old k m dict key v a : dict_ok k m dict -> a ∈ entries (contents dict) -> cmpOf k m (keyOf m a) key = true ->
  stored k m dict key v (set_assocs (insert a (mkAssociation (keyOf m a) v)) m) dict a.
Proof.
  intros D Ha E. set (m' := set_assocs _ _). assert (assocs m' !! a = Some (mkAssociation (keyOf m a) v)) as Hm by (cbn; apply lookup_insert_eq).
  assert (keyOf m' a = keyOf m a) as Ek by (unfold keyOf at 1; by rewrite Hm).
  assert (same_keys m m' (entries (contents dict))) as Sk.
  { split_and!; [done|done|]. intros b Hb. destruct (decide (b = a)) as [->|Hne]; [|cbn; by rewrite lookup_insert_ne].
    rewrite Hm. destruct (d_entries _ _ _ D a Hb) as (_ & x & Hx & _). unfold keyOf. by rewrite Hx. }
  constructor; try done.
  - by eapply dict_ok_same.
  - unfold valueOf. by rewrite Hm.
  - by rewrite Ek.
  - by right.
  - intros b Hb. cbn. by rewrite lookup_insert_ne.
  - by left.
  - intros _. split; [done|lia].
Qed.

Lemma dictAtPutObject_ok k m dict key v : dict_ok k m dict -> classOf m key = keyClass k ->
  exists m' dict' a, dictAtPutObject m dict (cmpOf k) key (hashOf k m key) v = Some (m', dict', a) /\ stored k m dict key v m' dict' a.
Proof.
  intros D Hc. unfold dictAtPutObject. destruct (findIndex_ok k m dict key D) as (i & -> & [(a & Hi & E)|[V Hab]]); cbn [mbind option_bind].
  - rewrite Hi. cbn [mbind option_bind]. eexists _, _, a. split; [done|]. apply put_old; [done|apply elem_of_entries; by eexists|done].
  - rewrite (proj1 V). cbn [mbind option_bind]. unfold createAssoc.
    destruct (put_new k m dict key v i D Hc V Hab) as (m' & dict' & E & S). destruct (newObject m) as [m1 a] eqn:N. cbn [fst] in E.
    assert (a = allocations m) as -> by (by injection N). rewrite E. cbn. by eexists _, _, _.
Qed.

(** A raw value is stored as it was only if it is not a pointer, or no
    collection came between. *)
Lemma dictAtPut_ok k m dict key v : dict_ok k m dict -> classOf m key = keyClass k ->
  exists m' dict' a, dictAtPut m dict (cmpOf k) key (hashOf k m key) v = Some (m', dict', a) /\
    stored k m dict key (settle (if content k m dict key then m else fst (newObject m)) v) m' dict' a.
Proof.
  intros D Hc. unfold dictAtPut. destruct (findIndex_ok k m dict key D) as (i & -> & [(a & Hi & E)|[V Hab]]); cbn [mbind option_bind].
  - rewrite Hi. cbn [mbind option_bind]. assert (a ∈ entries (contents dict)) as Ha by (apply elem_of_entries; by eexists).
    rewrite (content_entry k m dict a key D Ha E). eexists _, _, a. split; [done|]. by apply put_old.
  - rewrite (proj1 V), (content_absent k m dict key Hab). cbn [mbind option_bind].
    destruct (newObject m) as [m1 a] eqn:N. destruct (put_new k m dict key (settle m1 v) i D Hc V Hab) as (m' & dict' & E & S).
    rewrite N in E. cbn [fst] in *. assert (a = allocations m) as -> by (by injection N). rewrite E. cbn. by eexists _, _, _.
Qed.

Lemma atPutObject_unfold k m dict key v : classOf m key = keyClass k ->
  atPutObject k m dict key v = dictAtPutObject m dict (cmpOf k) key (hashOf k m key) v.
Proof. intros E. destruct k; cbn in *; unfold symbolDictAtPutObject, stringDictAtPutObject; by rewrite E. Qed.
Lemma atPut_unfold k m dict key v : classOf m key = keyClass k ->
  atPut k m dict key v = dictAtPut m dict (cmpOf k) key (hashOf k m key) v.
Proof. intros E. destruct k; cbn in *; unfold symbolDictAtPut, stringDictAtPut; by rewrite E. Qed.
Lemma at_unfold k m dict key : classOf m key = keyClass k -> at_ k m dict key = dictAt m dict (cmpOf k) key (hashOf k m key).
Proof. intros E. destruct k; cbn in *; unfold symbolDictAt, stringDictAt; by rewrite E. Qed.
Lemma assocAt_unfold k m dict key : classOf m key = keyClass k -> assocAt k m dict key = dictAssocAt m dict (cmpOf k) key (hashOf k m key).
Proof. intros E. destruct k; cbn in *; unfold symbolDictAssocAt, stringDictAssocAt; by rewrite E. Qed.

Lemma stored_found k m dict key v m' dict' a : stored k m dict key v m' dict' a -> classOf m key = keyClass k ->
  at_ k m' dict' key = Some v /\ assocAt k m' dict' key = Some (Some a).
Proof.
  intros S Hc. pose proof (st_ok _ _ _ _ _ _ _ _ S) as D'. destruct (same_cmp k m m' (st_strings _ _ _ _ _ _ _ _ S)) as (Ec & Eh & Ecl).
  assert (cmpOf k m' (keyOf m' a) key = true) as Ka by (rewrite Ec; apply S).
  rewrite at_unfold, assocAt_unfold by (by rewrite Ecl). split.
  - rewrite (dictAt_ok k m' dict' key D'), (content_entry k m' dict' a key D' (st_in _ _ _ _ _ _ _ _ S) Ka). cbn. by rewrite (st_value _ _ _ _ _ _ _ _ S).
  - destruct (dictAssocAt_ok k m' dict' key D') as [(b & -> & Hb & Kb)|[_ C]].
    + pose proof (st_in _ _ _ _ _ _ _ _ S) as Ha. apply elem_of_entries in Ha as [i Hi], Hb as [j Hj].
      assert (i = j) as ->; [|congruence]. eapply (placed_unique (keyOf m') (cmpOf k m') (hashOf k m')); [apply D'|done|done|].
      apply (eqk_trans (cmpOf k m') (hashOf k m') _ key); [done|]. by rewrite (eqk_sym (cmpOf k m') (hashOf k m')).
    + by rewrite (content_entry k m' dict' a key D' (st_in _ _ _ _ _ _ _ _ S) Ka) in C.
Qed.

(** C12. A dictionary is a finite map, for symbol keys (compared by identity) and
    for string keys (compared by contents) alike: looking up a key answers its
    value or nil; storing always returns, answers the association that holds the
    value, changes the value of that key and of no other, and keeps the table
    well formed through any growth.  Every association that was in the table
    still is, as the same object, because compiled code refers to it. *)
Theorem dictionary_is_map k m dict key v : dict_ok k m dict -> classOf m key = keyClass k ->
  at_ k m dict key = Some (default Nil (content k m dict key)) /\
  exists m' dict' a, atPutObject k m dict key v = Some (m', dict', a) /\ dict_ok k m' dict' /\
    at_ k m' dict' key = Some v /\ assocAt k m' dict' key = Some (Some a) /\
    (forall key', content k m' dict' key' = if cmpOf k m key key' then Some v else content k m dict key') /\
    forall b, b ∈ entries (contents dict) -> b ∈ entries (contents dict') /\ (b <> a -> assocs m' !! b = assocs m !! b).
Proof.
  intros D Hc. split; [rewrite at_unfold by done; by apply dictAt_ok|].
  destruct (dictAtPutObject_ok k m dict key v D Hc) as (m' & dict' & a & E & S).
  destruct (stored_found _ _ _ _ _ _ _ _ S Hc) as [F1 F2].
  exists m', dict', a. rewrite atPutObject_unfold by done. split_and!; [done|apply S|done|done|by eapply stored_content|].
  intros b Hb. split; [by apply S|]. intros Hne. by apply (st_frame _ _ _ _ _ _ _ _ S).
Qed.

(** C23. The probe loop of [findIndex] ends exactly when the table has a free slot
    or an entry with the key, and then within one round; otherwise it never
    ends.  The load factor leaves a free slot in every well-formed dictionary,
    so every lookup in one ends. *)
Theorem findIndex_terminates m slots cmp key hash : power_of_two (length slots) ->
  ((exists i, findIndex m slots cmp key hash = Some i) <-> exists i, halts (fun a => cmp m (keyOf m a) key) slots i) /\
  (findIndex m slots cmp key hash = None -> forall fuel, probe fuel (fun a => cmp m (keyOf m a) key) slots (home hash (length slots)) = None) /\
  (forall k dict, dict_ok k m dict -> exists i, findIndex m (contents dict) (cmpOf k) key (hashOf k m key) = Some i).
Proof.
  intros Hp. pose proof (home_lt hash _ Hp) as Hh. set (stop := fun a => cmp m (keyOf m a) key). unfold findIndex. fold stop.
  split; [|split].
  - destruct (probe_decides stop slots _ Hh) as [[? ?]|[Hn E]]; [done|]. split; [rewrite E; by intros [? ?]|by intros [? ?%Hn]].
  - destruct (probe_decides stop slots _ Hh) as [[[i E] _]|[_ E]]; [congruence|done].
  - intros k dict D. destruct (findIndex_ok k m dict key D) as (i & E & _). by exists i.
Qed.

End Dictionary.

(** ** A small dictionary *)

Module DictionaryExamples.

Definition names : Memory :=
  mkMemory 100 0 {[1 := mkString ClassString 0 (bytes_of_string "key"); 2 := mkString ClassString 0 (bytes_of_string "key")]} ∅.
Definition empty8 : Dictionary := mkDictionary (replicate 8 None) 0.
Definition checksum (s : list Z) : Z := foldr Z.add 0%Z s.

Lemma empty8_ok k : dict_ok checksum k names empty8.
Proof. constructor; cbn [contents tally empty8]; [by exists 3|apply placed_replicate|done|done|by intros a ?%elem_of_nil]. Qed.

(** A value stored under one string is found under an equal one, also when
    every allocation collects. *)
Lemma dictionary_is_map_witness : exists m' dict' a,
  atPutObject (fun _ => true) checksum StringKeys names empty8 1 (Ref 50) = Some (m', dict', a) /\ content StringKeys m' dict' 2 = Some (Ref 50).
Proof.
  destruct (dictionary_is_map (fun _ => true) checksum StringKeys names empty8 1 (Ref 50) (empty8_ok _) eq_refl) as (_ & m' & dict' & a & E & _ & _ & _ & C & _).
  exists m', dict', a. split; [exact E|]. rewrite C. vm_compute. reflexivity.
Defined.

Lemma findIndex_terminates_witness : exists i, findIndex names (contents empty8) stringCmp 1 77 = Some i.
Proof. apply (findIndex_terminates checksum names (contents empty8) stringCmp 1 77); [by exists 3|]. exists 0. by left. Defined.

End DictionaryExamples.
