(* ===== verification/MethodLookup.v ===== *)
(** * Methods: lookup, its cache, and changes of method dictionaries

    [lookupSelector] walks the superclasses ([src/vm/core/Class.c]); the lookup
    cache remembers its results by the addresses of class and selector
    ([src/vm/core/Lookup.c], [src/vm/core/Lookup.h]); extending a class and
    removing a selector build a new method dictionary and swap it in
    ([src/vm/core/Class.c]); a name is resolved through a namespace, its imports
    and the core ([src/vm/core/Namespace.c]). *)
From S2P Require Import Prelude.
From stdpp Require Import base list gmap numbers.
From S2P Require Import Probing Dictionary.

#[local] Open Scope nat_scope.

(** ** Classes and namespaces *)

Record RawClass := mkClass { superClass : option nat; methodDictionary : Dictionary }.

(** A namespace; [imports] are the bindings of the imported ones, in order. *)
Record Namespace := mkNamespace { bindings : Dictionary; imports : list Dictionary }.

Definition LOOKUP_CACHE_SIZE : nat := Z.to_nat 4096.

(** NULL is [None]. *)
Record LookupTable := mkTable {
  classes : list (option Z);
  selectors : list (option Z);
  codes : list (option nat) }.

Definition lookupHash (classHash selectorHash : Z) : nat :=
  Z.to_nat (Z.land (Z.shiftr (Z.lxor classHash selectorHash) 4) (Z.of_nat LOOKUP_CACHE_SIZE - 1)).

(** [memset] of the first two arrays; the codes stay. *)
Definition flushLookupCache (t : LookupTable) : LookupTable :=
  mkTable (replicate LOOKUP_CACHE_SIZE None) (replicate LOOKUP_CACHE_SIZE None) (codes t).

(** ** Method dictionaries *)

(** The loop of [dictionaryCapacityFor]. *)
Fixpoint capacityLoop (fuel capacity entries : nat) : option nat :=
  match fuel with
  | 0 => None
  | S fuel => if capacity <? entries * 2 then capacityLoop fuel (capacity * 2) entries else Some capacity
  end.
Definition dictionaryCapacityFor (entries : nat) : option nat := capacityLoop (S entries) 16 entries.

Section Methods.
Context (collects : nat -> bool) (CityHash64 : list Z -> Z).

(** [skip] is the selector that is left out, in [classRemoveSelector]. *)
Fixpoint copyLoop (skip : option nat) (m : Memory) (fresh : Dictionary) (contents : list (option nat)) : option (Memory * Dictionary) :=
  match contents with
  | [] => Some (m, fresh)
  | None :: contents => copyLoop skip m fresh contents
  | Some assoc :: contents =>
      if bool_decide (skip = Some (keyOf m assoc)) then copyLoop skip m fresh contents
      else
        r ← symbolDictAtPut collects CityHash64 m fresh (keyOf m assoc) (raw m (valueOf m assoc));
        copyLoop skip (fst (fst r)) (snd (fst r)) contents
  end.

Definition dictionaryCopyInto (m : Memory) (fresh source : Dictionary) : option (Memory * Dictionary) :=
  copyLoop None m fresh (contents source).

Definition dictionaryMerging (m : Memory) (live : option Dictionary) (adds : Dictionary) : option (Memory * Dictionary) :=
  let total := Z.to_nat (match live with Some live => dictSize live | None => 0 end + dictSize adds + 8)%Z in
  capacity ← dictionaryCapacityFor total;
  let '(m, fresh) := newDictionary collects m capacity in
  r ← match live with Some live => dictionaryCopyInto m fresh live | None => Some (m, fresh) end;
  dictionaryCopyInto (fst r) (snd r) adds.

(** The result is the dictionary that replaces [live]; [None] inside when the
    selector is not defined there. *)
Definition classRemoveSelector (m : Memory) (live : Dictionary) (symbol : nat) : option (Memory * option Dictionary) :=
  old ← symbolDictAt m live symbol;
  if bool_decide (old = Nil) then Some (m, None)
  else
    capacity ← dictionaryCapacityFor (Z.to_nat (dictSize live + 8));
    let '(m, fresh) := newDictionary collects m capacity in
    r ← copyLoop (Some symbol) m fresh (contents live);
    Some (fst r, Some (snd r)).

(** ** Lookup *)

(** [None] inside is the NULL answer. *)
Fixpoint lookupSelector (fuel : nat) (m : Memory) (cs : gmap nat RawClass) (class selector : nat) : option (option Value) :=
  match fuel with
  | 0 => None
  | S fuel =>
      c ← cs !! class;
      method ← symbolDictAt m (methodDictionary c) selector;
      if bool_decide (method = Nil) then
        match superClass c with
        | None => Some None
        | Some super => lookupSelector fuel m cs super selector
        end
      else Some (Some method)
  end.

(** A name: the namespace's own bindings, its imports in order, the core. *)
Fixpoint resolveImports (m : Memory) (imports : list Dictionary) (symbol : nat) : option (option nat) :=
  match imports with
  | [] => Some None
  | d :: imports =>
      assoc ← symbolDictAssocAt m d symbol;
      match assoc with Some a => Some (Some a) | None => resolveImports m imports symbol end
  end.

(** [ns] is [None] for NULL and for the core namespace. *)
Definition namespaceResolveAssoc (m : Memory) (core : Dictionary) (ns : option Namespace) (symbol : nat) : option (option nat) :=
  match ns with
  | None => symbolDictAssocAt m core symbol
  | Some ns =>
      assoc ← symbolDictAssocAt m (bindings ns) symbol;
      match assoc with
      | Some a => Some (Some a)
      | None =>
          assoc ← resolveImports m (imports ns) symbol;
          match assoc with Some a => Some (Some a) | None => symbolDictAssocAt m core symbol end
      end
  end.

(** ** Native code and the cache *)

(** What a piece of native code runs. *)
Inductive Runs := RunsMethod (method : nat) | RunsDoesNotUnderstand (selector method : nat).

(** [nativeCode] is the field of that name of the compiled methods; [runs] says
    what was generated into a piece of code. *)
Record World := mkWorld {
  mem : Memory;
  classTable : gmap nat RawClass;
  nativeCode : gmap nat nat;
  runs : gmap nat Runs;
  LookupCache : LookupTable }.

(** The address of an object between two collections, and the symbol
    [doesNotUnderstand:]. *)
Context (address : nat -> nat -> Z) (doesNotUnderstandSymbol : nat).

Definition addr (w : World) (p : nat) : Z := address (epoch (mem w)) p.

(** Generating code allocates; after a collection the thread's cache is flushed. *)
Definition generate (w : World) (r : Runs) : World * nat :=
  let '(m, code) := newObject collects (mem w) in
  let table := if epoch m =? epoch (mem w) then LookupCache w else flushLookupCache (LookupCache w) in
  (mkWorld m (classTable w) (nativeCode w) (<[code := r]> (runs w)) table, code).

Definition getNativeCode (w : World) (method : nat) : World * nat :=
  match nativeCode w !! method with
  | Some code => (w, code)
  | None =>
      let '(w, code) := generate w (RunsMethod method) in
      (mkWorld (mem w) (classTable w) (<[method := code]> (nativeCode w)) (runs w) (LookupCache w), code)
  end.

Definition lookup (w : World) (class selector : nat) : option (option Value) :=
  lookupSelector (size (classTable w)) (mem w) (classTable w) class selector.

(** The code runs the method that the class has for [doesNotUnderstand:]. *)
Definition doesNotUnderstand (w : World) (class selector : nat) : option (World * nat) :=
  method ← lookup w class doesNotUnderstandSymbol;
  match method with
  | Some (Ref method) => Some (generate w (RunsDoesNotUnderstand selector method))
  | _ => None
  end.

Definition lookupNativeCode (w : World) (class selector : nat) : option (World * nat) :=
  method ← lookup w class selector;
  '(w, entry) ← match method with
                | None => doesNotUnderstand w class selector
                | Some (Ref method) => Some (getNativeCode w method)
                | Some _ => None
                end;
  let hash := lookupHash (addr w class) (addr w selector) in
  let t := LookupCache w in
  cs ← put (classes t) hash (Some (addr w class));
  ss ← put (selectors t) hash (Some (addr w selector));
  es ← put (codes t) hash (Some entry);
  Some (mkWorld (mem w) (classTable w) (nativeCode w) (runs w) (mkTable cs ss es), entry).

Definition cachedLookupNativeCode (w : World) (class selector : nat) : option (World * nat) :=
  let hash := lookupHash (addr w class) (addr w selector) in
  let t := LookupCache w in
  c ← classes t !! hash;
  s ← selectors t !! hash;
  if bool_decide (c = Some (addr w class) /\ s = Some (addr w selector)) then
    code ← codes t !! hash; code ← code; Some (w, code)
  else lookupNativeCode w class selector.

(** A change of method dictionaries: the cache is flushed in the same pause. *)
Definition install (w : World) (f : gmap nat RawClass -> gmap nat RawClass) : World :=
  mkWorld (mem w) (f (classTable w)) (nativeCode w) (runs w) (flushLookupCache (LookupCache w)).

(** ** The nearest definition *)

(** The classes from [c] up to the root. *)
Inductive chain (cs : gmap nat RawClass) : nat -> list nat -> Prop :=
  | chain_root c k : cs !! c = Some k -> superClass k = None -> chain cs c [c]
  | chain_step c k s l : cs !! c = Some k -> superClass k = Some s -> chain cs s l -> chain cs c (c :: l).

Definition own (m : Memory) (cs : gmap nat RawClass) (selector c : nat) : option Value :=
  k ← cs !! c; v ← content SymbolKeys m (methodDictionary k) selector; if bool_decide (v = Nil) then None else Some v.

(** The first class of the chain that defines the selector decides. *)
Fixpoint nearest (m : Memory) (cs : gmap nat RawClass) (selector : nat) (l : list nat) : option Value :=
  match l with
  | [] => None
  | c :: l => match own m cs selector c with Some v => Some v | None => nearest m cs selector l end
  end.

Definition class_ok (m : Memory) (cs : gmap nat RawClass) (c : nat) : Prop :=
  forall k, cs !! c = Some k -> dict_ok CityHash64 SymbolKeys m (methodDictionary k).

Lemma symbolDictAt_ok m d selector : dict_ok CityHash64 SymbolKeys m d -> classOf m selector = ClassSymbol ->
  symbolDictAt m d selector = Some (default Nil (content SymbolKeys m d selector)).
Proof.
  intros D Hs. change (symbolDictAt m d selector) with (at_ CityHash64 SymbolKeys m d selector).
  rewrite at_unfold by done. by apply dictAt_ok.
Qed.

Lemma lookupSelector_chain fuel m cs c selector l : chain cs c l -> length l <= fuel ->
  (forall d, d ∈ l -> class_ok m cs d) -> classOf m selector = ClassSymbol ->
  lookupSelector fuel m cs c selector = Some (nearest m cs selector l).
Proof.
  intros Hc. revert fuel. induction Hc as [c k Hk Hs|c k s l Hk Hs _ IH]; intros fuel Hf Ho Hsel.
  - destruct fuel as [|fuel]; [cbn in Hf; lia|]. cbn. rewrite Hk. cbn.
    rewrite symbolDictAt_ok by (done || by apply (Ho c (list_elem_of_here _ _))). unfold own. rewrite Hk. cbn.
    destruct (content SymbolKeys m (methodDictionary k) selector) as [v|]; cbn; [|by rewrite Hs]. case_bool_decide; [by rewrite Hs|done].
  - destruct fuel as [|fuel]; [cbn in Hf; lia|]. cbn in Hf. cbn. rewrite Hk. cbn.
    rewrite symbolDictAt_ok by (done || by apply (Ho c (list_elem_of_here _ _))). unfold own. rewrite Hk. cbn.
    assert (lookupSelector fuel m cs s selector = Some (nearest m cs selector l)) as E by (apply IH; [lia|intros; apply Ho; by right|done]).
    destruct (content SymbolKeys m (methodDictionary k) selector) as [v|]; cbn; [|by rewrite Hs]. case_bool_decide; [by rewrite Hs|done].
Qed.

Lemma chain_functional cs c l l' : chain cs c l -> chain cs c l' -> l = l'.
Proof.
  intros H. revert l'. induction H as [c k Hk Hs|c k s l Hk Hs _ IH]; intros l' H'; inversion H'; simplify_eq; [done|].
  f_equal. by apply IH.
Qed.

Lemma chain_suffix cs c l i d : chain cs c l -> l !! i = Some d -> chain cs d (drop i l).
Proof.
  intros H. revert i. induction H as [c k Hk Hs|c k s l Hk Hs Hl IH]; intros [|i] Hi; cbn in Hi; simplify_eq; cbn.
  - by eapply chain_root.
  - by eapply chain_step.
  - by apply IH.
Qed.

(** A chain that ends passes no class twice, so the number of classes is fuel
    enough. *)
Lemma chain_NoDup cs c l : chain cs c l -> NoDup l.
Proof.
  intros H. apply NoDup_alt. intros i j d Hi Hj.
  pose proof (chain_functional _ _ _ _ (chain_suffix _ _ _ _ _ H Hi) (chain_suffix _ _ _ _ _ H Hj)) as E.
  apply (f_equal length) in E. rewrite !length_drop in E. apply lookup_lt_Some in Hi, Hj. lia.
Qed.

Lemma superchain_in cs c l d : chain cs c l -> d ∈ l -> is_Some (cs !! d).
Proof. induction 1 as [c k Hk Hs|c k s l Hk Hs Hl IH]; intros Hd; apply list.elem_of_cons in Hd as [->|Hd]; eauto. by apply elem_of_nil in Hd. Qed.

Lemma chain_length cs c l : chain cs c l -> length l <= size cs.
Proof.
  intros H. assert (list_to_set l ⊆ dom cs) as Hs.
  { intros d Hd. apply elem_of_list_to_set in Hd. apply elem_of_dom. by eapply superchain_in. }
  apply subseteq_size in Hs. rewrite size_list_to_set, size_dom in Hs; [done|]. by eapply chain_NoDup.
Qed.

(** ** Worlds *)

Record world_ok (w : World) : Prop := {
  w_chain : forall c, is_Some (classTable w !! c) -> exists l, chain (classTable w) c l;
  w_dict : forall c, class_ok (mem w) (classTable w) c;
  w_methods : forall c k v s, classTable w !! c = Some k -> content SymbolKeys (mem w) (methodDictionary k) s = Some v ->
    v = Nil \/ exists method, v = Ref method;
  w_dnu : classOf (mem w) doesNotUnderstandSymbol = ClassSymbol;
  w_native : forall method code, nativeCode w !! method = Some code -> runs w !! code = Some (RunsMethod method);
  w_fresh : forall code, is_Some (runs w !! code) -> code < allocations (mem w);
  w_sizes : length (classes (LookupCache w)) = LOOKUP_CACHE_SIZE /\ length (selectors (LookupCache w)) = LOOKUP_CACHE_SIZE /\
    length (codes (LookupCache w)) = LOOKUP_CACHE_SIZE }.

(** What must run when an instance of [class] receives [selector]. *)
Definition answers (w : World) (class selector : nat) (r : Runs) : Prop :=
  exists l, chain (classTable w) class l /\
    match nearest (mem w) (classTable w) selector l with
    | Some v => exists method, v = Ref method /\ r = RunsMethod method
    | None => exists method, nearest (mem w) (classTable w) doesNotUnderstandSymbol l = Some (Ref method) /\
        r = RunsDoesNotUnderstand selector method
    end.

(** Every entry of the cache is right for the objects that have its addresses now. *)
Definition coherent (w : World) : Prop :=
  forall hash ca sa, classes (LookupCache w) !! hash = Some (Some ca) -> selectors (LookupCache w) !! hash = Some (Some sa) ->
    exists class selector code r, ca = addr w class /\ sa = addr w selector /\ codes (LookupCache w) !! hash = Some (Some code) /\
      runs w !! code = Some r /\ answers w class selector r.

Lemma lookupHash_lt c s : lookupHash c s < LOOKUP_CACHE_SIZE.
Proof. apply (home_lt (Z.shiftr (Z.lxor c s) 4)). by exists 12. Qed.

Lemma lookup_nearest w c l selector : world_ok w -> chain (classTable w) c l -> classOf (mem w) selector = ClassSymbol ->
  lookup w c selector = Some (nearest (mem w) (classTable w) selector l).
Proof. intros W Hc Hs. apply lookupSelector_chain; [done|by eapply chain_length|intros; apply W|done]. Qed.

Lemma nearest_method w selector l v : world_ok w -> nearest (mem w) (classTable w) selector l = Some v -> exists method, v = Ref method.
Proof.
  intros W. induction l as [|c l IH]; [done|]. cbn. destruct (own (mem w) (classTable w) selector c) as [u|] eqn:E; [|done].
  intros [= <-]. unfold own in E. destruct (classTable w !! c) as [k|] eqn:Hk; [|done]. cbn in E.
  destruct (content SymbolKeys (mem w) (methodDictionary k) selector) as [x|] eqn:Hx; [|done]. cbn in E. case_bool_decide; [done|].
  simplify_eq. by destruct (w_methods _ W c k u selector Hk Hx).
Qed.

(** Worlds with the same classes, and with the same contents of dictionaries. *)
Definition same_classes (w w' : World) : Prop :=
  classTable w' = classTable w /\ strings (mem w') = strings (mem w) /\ assocs (mem w') = assocs (mem w) /\
  allocations (mem w) <= allocations (mem w').

Lemma content_ext k m m' d s : strings m' = strings m -> assocs m' = assocs m -> content k m' d s = content k m d s.
Proof. destruct m, m'. cbn. intros -> ->. by destruct k. Qed.

Lemma nearest_ext w w' s l : same_classes w w' -> nearest (mem w') (classTable w') s l = nearest (mem w) (classTable w) s l.
Proof.
  intros (Ec & Es & Ea & _). induction l as [|c l IH]; [done|]. cbn. rewrite IH. unfold own. rewrite Ec.
  destruct (classTable w !! c); [|done]. cbn. by rewrite (content_ext SymbolKeys (mem w) (mem w')).
Qed.

Lemma answers_ext w w' c s r : same_classes w w' -> answers w c s r -> answers w' c s r.
Proof. intros E (l & Hl & H). exists l. rewrite !(nearest_ext w w' _ l E), (proj1 E). done. Qed.

Lemma dict_ok_ext k m m' d : strings m' = strings m -> assocs m' = assocs m -> allocations m <= allocations m' ->
  dict_ok CityHash64 k m d -> dict_ok CityHash64 k m' d.
Proof. intros Es Ea Hl. apply dict_ok_same. split_and!; [done|done|]. intros a _. by rewrite Ea. Qed.

Lemma world_ok_ext w w' : same_classes w w' -> world_ok w ->
  (forall method code, nativeCode w' !! method = Some code -> runs w' !! code = Some (RunsMethod method)) ->
  (forall code, is_Some (runs w' !! code) -> code < allocations (mem w')) ->
  length (classes (LookupCache w')) = LOOKUP_CACHE_SIZE /\ length (selectors (LookupCache w')) = LOOKUP_CACHE_SIZE /\
    length (codes (LookupCache w')) = LOOKUP_CACHE_SIZE -> world_ok w'.
Proof.
  intros (Ec & Es & Ea & Hl) [W1 W2 W3 W4 _ _ _] Hn Hr Hs. constructor; try done.
  - by rewrite Ec.
  - intros c k. rewrite Ec. intros Hk. apply (dict_ok_ext _ (mem w)); [done..|]. by apply (W2 c).
  - intros c k v s. rewrite Ec, (content_ext _ (mem w) (mem w')) by done. apply W3.
  - unfold classOf. by rewrite Es.
Qed.

Lemma generate_ok w r w' code : world_ok w -> coherent w -> generate w r = (w', code) ->
  world_ok w' /\ coherent w' /\ same_classes w w' /\ nativeCode w' = nativeCode w /\ runs w' !! code = Some r /\
  forall c x, runs w !! c = Some x -> runs w' !! c = Some x.
Proof.
  intros W C E. unfold generate in E. cbn in E. injection E as <- <-.
  assert (forall c x, runs w !! c = Some x -> <[allocations (mem w) := r]> (runs w) !! c = Some x) as Hkeep.
  { intros c x Hc. rewrite lookup_insert_ne; [done|]. pose proof (w_fresh _ W c ltac:(by eexists)). lia. }
  split_and!; cbn.
  - eapply (world_ok_ext w); [split_and!; cbn; try done; lia|done| | |].
    + intros method code Hm. apply Hkeep. by apply W.
    + intros code [x Hx]. cbn in *. destruct (decide (code = allocations (mem w))) as [->|Hne]; [lia|].
      rewrite lookup_insert_ne in Hx by done. pose proof (w_fresh _ W code ltac:(by eexists)). lia.
    + cbn. case_match; [apply W|]. cbn. rewrite !length_replicate. split_and!; try done. apply W.
  - intros hash ca sa Hc Hs. cbn [LookupCache mem epoch] in Hc, Hs. unfold addr. destruct (collects (allocations (mem w))) eqn:Hco.
    + rewrite (proj2 (Nat.eqb_neq (S (epoch (mem w))) (epoch (mem w)))) in Hc by lia. by apply lookup_replicate_1 in Hc as [? _].
    + rewrite Nat.eqb_refl in *. cbn. destruct (C hash ca sa Hc Hs) as (c & s & code & x & ? & ? & ? & Hx & Ha).
      exists c, s, code, x. split_and!; [done|done|done|by apply Hkeep|]. eapply answers_ext; [|done]. split_and!; cbn; try done; lia.
  - split_and!; cbn; try done; lia.
  - done.
  - by rewrite lookup_insert_eq.
  - done.
Qed.

Lemma getNativeCode_ok w method w' code : world_ok w -> coherent w -> getNativeCode w method = (w', code) ->
  world_ok w' /\ coherent w' /\ same_classes w w' /\ runs w' !! code = Some (RunsMethod method).
Proof.
  intros W C E. unfold getNativeCode in E. destruct (nativeCode w !! method) as [c|] eqn:Hm.
  - simplify_eq. split_and!; try done. by apply W.
  - destruct (generate w (RunsMethod method)) as [w1 c] eqn:G. destruct (generate_ok w _ w1 c W C G) as (W1 & C1 & S1 & N1 & R1 & _).
    simplify_eq. split_and!; try done; try apply S1.
    eapply world_ok_ext; [|exact W1| | |]; cbn; try apply W1; [by split_and!|].
    intros m' c'. destruct (decide (m' = method)) as [->|Hne]; [rewrite lookup_insert_eq; by intros [= <-]|].
    rewrite lookup_insert_ne by done. apply W1.
Qed.

(** The class understands [doesNotUnderstand:]. *)
Definition has_dnu (w : World) (class : nat) : Prop :=
  exists l method, chain (classTable w) class l /\ nearest (mem w) (classTable w) doesNotUnderstandSymbol l = Some (Ref method).

(** Filling the entry of a class and a selector. *)
Lemma fill_ok w class selector entry r : world_ok w -> coherent w -> runs w !! entry = Some r -> answers w class selector r ->
  let hash := lookupHash (addr w class) (addr w selector) in
  let t := LookupCache w in
  let w' := mkWorld (mem w) (classTable w) (nativeCode w) (runs w)
    (mkTable (<[hash := Some (addr w class)]> (classes t)) (<[hash := Some (addr w selector)]> (selectors t)) (<[hash := Some entry]> (codes t))) in
  world_ok w' /\ coherent w'.
Proof.
  intros W C Hr Ha hash t w'. pose proof (lookupHash_lt (addr w class) (addr w selector)) as Hh. fold hash in Hh.
  destruct (w_sizes _ W) as (L1 & L2 & L3). split.
  - eapply (world_ok_ext w); cbn; rewrite ?length_insert; [by split_and!|done|apply W|apply W|done].
  - intros h ca sa Hc Hs. cbn in Hc, Hs. destruct (decide (h = hash)) as [->|Hne].
    + rewrite list_lookup_insert_eq in Hc, Hs by (unfold t; lia). simplify_eq. exists class, selector, entry, r. split_and!; try done.
      cbn. rewrite list_lookup_insert_eq; [done|unfold t; lia].
    + rewrite list_lookup_insert_ne in Hc, Hs by done. destruct (C h ca sa Hc Hs) as (c & s & code & x & ? & ? & ? & ? & ?).
      exists c, s, code, x. split_and!; try done. cbn. by rewrite list_lookup_insert_ne.
Qed.

Lemma lookupNativeCode_ok w class selector : world_ok w -> coherent w -> classOf (mem w) selector = ClassSymbol -> has_dnu w class ->
  exists w' code r, lookupNativeCode w class selector = Some (w', code) /\ runs w' !! code = Some r /\ answers w class selector r /\
    world_ok w' /\ coherent w' /\ same_classes w w'.
Proof.
  intros W C Hs (l & dnu & Hl & Hd). unfold lookupNativeCode. rewrite (lookup_nearest w class l selector W Hl Hs). cbn [mbind option_bind].
  assert (exists w1 code r, match nearest (mem w) (classTable w) selector l with
      | None => doesNotUnderstand w class selector | Some (Ref method) => Some (getNativeCode w method) | Some _ => None end = Some (w1, code) /\
      runs w1 !! code = Some r /\ answers w class selector r /\ world_ok w1 /\ coherent w1 /\ same_classes w w1) as (w1 & code & r & E & Hr & Ha & W1 & C1 & S1).
  { destruct (nearest (mem w) (classTable w) selector l) as [v|] eqn:Hn.
    - destruct (nearest_method w selector l v W Hn) as [method ->]. destruct (getNativeCode w method) as [w1 code] eqn:G.
      destruct (getNativeCode_ok w method w1 code W C G) as (? & ? & ? & ?). exists w1, code, (RunsMethod method).
      split; [done|]. split; [done|]. split; [|done]. exists l. split; [done|]. rewrite Hn. by exists method.
    - unfold doesNotUnderstand. rewrite (lookup_nearest w class l _ W Hl (w_dnu _ W)), Hd. cbn [mbind option_bind].
      destruct (generate w (RunsDoesNotUnderstand selector dnu)) as [w1 code] eqn:G.
      destruct (generate_ok w _ w1 code W C G) as (? & ? & ? & _ & ? & _). exists w1, code, (RunsDoesNotUnderstand selector dnu).
      split; [done|]. split; [done|]. split; [|done]. exists l. split; [done|]. rewrite Hn. by exists dnu. }
  rewrite E. cbn [mbind option_bind]. destruct (w_sizes _ W1) as (L1 & L2 & L3).
  pose proof (lookupHash_lt (addr w1 class) (addr w1 selector)) as Hh.
  rewrite !put_Some by lia. cbn [mbind option_bind].
  destruct (fill_ok w1 class selector code r W1 C1 Hr (answers_ext _ _ _ _ _ S1 Ha)) as [W2 C2].
  eexists _, code, r. split; [done|]. split; [done|]. split; [done|]. split; [exact W2|]. split; [exact C2|exact S1].
Qed.

(** Two objects never have the same address between two collections. *)
Context (address_injective : forall e p q, address e p = address e q -> p = q).

(** C13. A lookup through the cache answers what the class hierarchy says at that
    moment: the code of the nearest method for the selector, or code that calls
    the nearest [doesNotUnderstand:].  It always returns, whether the entry hits,
    misses or has to be compiled, and although the slow path may collect and
    move the class; and the cache stays coherent, so every later lookup is
    right as well. *)
Theorem cachedLookup_answers w class selector : world_ok w -> coherent w -> classOf (mem w) selector = ClassSymbol -> has_dnu w class ->
  exists w' code r, cachedLookupNativeCode w class selector = Some (w', code) /\ runs w' !! code = Some r /\ answers w class selector r /\
    world_ok w' /\ coherent w' /\ same_classes w w'.
Proof.
  intros W C Hs Hd. unfold cachedLookupNativeCode. pose proof (lookupHash_lt (addr w class) (addr w selector)) as Hh.
  destruct (w_sizes _ W) as (L1 & L2 & _). set (hash := lookupHash _ _) in *.
  destruct (lookup_lt_is_Some_2 (classes (LookupCache w)) hash ltac:(lia)) as [c Hc]. rewrite Hc. cbn [mbind option_bind].
  destruct (lookup_lt_is_Some_2 (selectors (LookupCache w)) hash ltac:(lia)) as [s Hsel]. rewrite Hsel. cbn [mbind option_bind].
  case_bool_decide as Hit; [|by apply lookupNativeCode_ok]. destruct Hit as [-> ->].
  destruct (C hash _ _ Hc Hsel) as (c & s & code & r & Ec & Es & -> & Hr & Ha). apply address_injective in Ec as <-, Es as <-.
  cbn. exists w, code, r. split_and!; try done.
Qed.

(** After a change of method dictionaries no old answer is left in the cache. *)
Lemma install_coherent w f : coherent (install w f).
Proof. intros hash ca sa Hc _. cbn in Hc. by apply lookup_replicate_1 in Hc as [? _]. Qed.

(** ** Copying dictionaries *)

Abbreviation slots_content m l := (content SymbolKeys m (mkDictionary l 0%Z)).

Lemma slots_content_cons m a l key :
  slots_content m (Some a :: l) key = if keyOf m a =? key then Some (valueOf m a) else slots_content m l key.
Proof.
  unfold content. cbn [contents]. change (entries (Some a :: l)) with (a :: entries l). rewrite filter_cons. cbn. unfold identityCmp.
  case_decide as E; destruct (keyOf m a =? key); done.
Qed.

Lemma slots_content_agree m m' l key : (forall b, b ∈ entries l -> assocs m' !! b = assocs m !! b) ->
  slots_content m' l key = slots_content m l key.
Proof. intros H. by apply content_agree. Qed.

(** The keys in the slots differ. *)
Definition keys_differ (m : Memory) (l : list (option nat)) : Prop :=
  forall i j a b, l !! i = Some (Some a) -> l !! j = Some (Some b) -> keyOf m a = keyOf m b -> i = j.

Lemma keys_differ_tail m o l : keys_differ m (o :: l) -> keys_differ m l.
Proof. intros H i j a b Hi Hj E. assert (S i = S j) as [= ->]; [|done]. by apply (H (S i) (S j) a b). Qed.

Lemma keys_differ_agree m m' l : (forall b, b ∈ entries l -> assocs m' !! b = assocs m !! b) -> keys_differ m l -> keys_differ m' l.
Proof.
  intros H K i j a b Hi Hj E. apply (K i j a b Hi Hj). unfold keyOf in *.
  rewrite !H in E; [done|apply elem_of_entries; by eexists..].
Qed.

Lemma keys_differ_head m a l : keys_differ m (Some a :: l) -> slots_content m l (keyOf m a) = None.
Proof.
  intros K. destruct (slots_content m l (keyOf m a)) as [v|] eqn:C; [|done]. exfalso.
  destruct (content_inv _ _ _ _ _ C) as (b & Hb & E & _). apply Nat.eqb_eq in E. cbn in Hb. apply elem_of_entries in Hb as [j Hj].
  by specialize (K (S j) 0 b a Hj eq_refl E).
Qed.

(** What a copy of the slots [l] into [fresh] leaves. *)
Record copied (skip : option nat) (m : Memory) (fresh : Dictionary) (l : list (option nat)) (m' : Memory) (fresh' : Dictionary) : Prop := {
  c_ok : dict_ok CityHash64 SymbolKeys m' fresh';
  c_length : length (contents fresh') = length (contents fresh);
  c_tally : (tally fresh' <= tally fresh + Z.of_nat (length (entries l)))%Z;
  c_strings : strings m' = strings m;
  c_epoch : epoch m' = epoch m;
  c_alloc : allocations m <= allocations m';
  c_frame : forall b, b < allocations m -> b ∉ entries (contents fresh) -> assocs m' !! b = assocs m !! b;
  c_disjoint : forall b, b < allocations m -> b ∉ entries (contents fresh) -> b ∉ entries (contents fresh');
  c_content : forall key, content SymbolKeys m' fresh' key =
    if bool_decide (skip = Some key) then content SymbolKeys m fresh key
    else match slots_content m l key with Some v => Some v | None => content SymbolKeys m fresh key end }.

Lemma settle_raw m m' v : epoch m' = epoch m -> settle m' (raw m v) = v.
Proof. intros E. destruct v; cbn; try done. unfold settle. cbn. by rewrite E, Nat.eqb_refl. Qed.

Context (no_collection : forall n, collects n = false).

(** One association goes into the copy. *)
Lemma copy_one m fresh a : dict_ok CityHash64 SymbolKeys m fresh -> entry_ok SymbolKeys m a ->
  exists m' fresh' b, symbolDictAtPut collects CityHash64 m fresh (keyOf m a) (raw m (valueOf m a)) = Some (m', fresh', b) /\
    stored collects CityHash64 SymbolKeys m fresh (keyOf m a) (valueOf m a) m' fresh' b.
Proof.
  intros D (_ & x & Hx & Hc). assert (classOf m (keyOf m a) = ClassSymbol) as Hcl by (unfold keyOf; by rewrite Hx).
  destruct (dictAtPut_ok collects CityHash64 SymbolKeys m fresh (keyOf m a) (raw m (valueOf m a)) D Hcl) as (m' & fresh' & b & E & S).
  exists m', fresh', b. split; [by rewrite <- E, <- (atPut_unfold collects CityHash64 SymbolKeys)|].
  rewrite settle_raw in S; [done|]. case_match; [done|]. cbn. by rewrite no_collection.
Qed.

Lemma copyLoop_ok skip l m fresh : dict_ok CityHash64 SymbolKeys m fresh ->
  (forall a, a ∈ entries l -> entry_ok SymbolKeys m a) -> keys_differ m l -> (forall a, a ∈ entries l -> a ∉ entries (contents fresh)) ->
  ((tally fresh + Z.of_nat (length (entries l))) * 4 < Z.of_nat (length (contents fresh)) * 3)%Z ->
  exists m' fresh', copyLoop skip m fresh l = Some (m', fresh') /\ copied skip m fresh l m' fresh'.
Proof.
  revert m fresh. induction l as [|[a|] l IH]; intros m fresh D O K Dj L.
  - exists m, fresh. split; [done|]. constructor; try done; [lia|]. intros key. by case_bool_decide.
  - change (entries (Some a :: l)) with (a :: entries l) in *. cbn [length] in L. cbn [copyLoop]. case_bool_decide as Hskip.
    + destruct (IH m fresh) as (m' & fresh' & E & [C1 C2 C3 C4 C5 C6 C7 C8 C9]);
        [done|intros; apply O; by right|by eapply keys_differ_tail|intros; apply Dj; by right|lia|].
      exists m', fresh'. split; [done|]. constructor; try done; [change (entries (Some a :: l)) with (a :: entries l); cbn [length]; lia|].
      intros key. rewrite C9, slots_content_cons. case_bool_decide as Hk; [done|]. destruct (Nat.eqb_spec (keyOf m a) key) as [Ek|]; [congruence|done].
    + destruct (copy_one m fresh a D) as (m1 & fresh1 & b & -> & S); [apply O; by left|]. cbn [mbind option_bind fst snd].
      destruct (st_size _ _ _ _ _ _ _ _ _ _ S ltac:(lia)) as [L1 T1].
      pose proof (st_strings _ _ _ _ _ _ _ _ _ _ S) as Es. pose proof (st_alloc _ _ _ _ _ _ _ _ _ _ S) as Al.
      assert (forall x, x < allocations m -> x ∉ entries (contents fresh) -> x <> b) as Hb.
      { intros x Hx Hn ->. by destruct (st_new _ _ _ _ _ _ _ _ _ _ S) as [|[E _]]; [|lia]. }
      assert (forall x, x ∈ entries l -> assocs m1 !! x = assocs m !! x) as Hl.
      { intros x Hx. apply (st_frame _ _ _ _ _ _ _ _ _ _ S), Hb; [apply O; by right|apply Dj; by right]. }
      assert (forall x, x < allocations m -> x ∉ entries (contents fresh) -> x ∉ entries (contents fresh1)) as Hd.
      { intros x Hx Hn Hin. by destruct (st_only _ _ _ _ _ _ _ _ _ _ S x Hin) as [->|]; [destruct (Hb b Hx Hn)|]. }
      destruct (IH m1 fresh1) as (m' & fresh' & E & [C1 C2 C3 C4 C5 C6 C7 C8 C9]).
      * apply S.
      * intros x Hx. destruct (O x) as (Hlt & y & Hy & Hc); [by right|]. split; [lia|]. exists y. rewrite Hl by done. split; [done|].
        unfold classOf. by rewrite Es.
      * eapply keys_differ_agree; [exact Hl|]. by eapply keys_differ_tail.
      * intros x Hx. apply Hd; [apply O; by right|apply Dj; by right].
      * rewrite L1. lia.
      * exists m', fresh'. split; [done|]. constructor.
        -- done.
        -- by rewrite C2.
        -- change (entries (Some a :: l)) with (a :: entries l). cbn [length]. lia.
        -- by rewrite C4.
        -- rewrite C5. by apply S.
        -- lia.
        -- intros x Hx Hn. rewrite C7 by (try lia; by apply Hd). by apply (st_frame _ _ _ _ _ _ _ _ _ _ S), Hb.
        -- intros x Hx Hn. apply C8; [lia|by apply Hd].
        -- intros key. rewrite C9, (stored_content _ _ _ _ _ _ _ _ _ _ D S key), (slots_content_agree m m1 l key Hl), slots_content_cons. cbn. unfold identityCmp.
           destruct (Nat.eqb_spec (keyOf m a) key) as [<-|Hne]; [|done].
           rewrite (keys_differ_head m a l K). by case_bool_decide.
  - cbn [copyLoop]. destruct (IH m fresh) as (m' & fresh' & E & C); [done|done|by eapply keys_differ_tail|done|done|]. exists m', fresh'. split; [done|].
    destruct C. by constructor.
Qed.

Lemma capacityLoop_ok fuel capacity n : power_of_two capacity -> 16 <= capacity -> n * 2 <= capacity * 2 ^ fuel ->
  exists c, capacityLoop (S fuel) capacity n = Some c /\ power_of_two c /\ 16 <= c /\ n * 2 <= c.
Proof.
  revert capacity. induction fuel as [|fuel IH]; intros c Hp H16 Hn; cbn [capacityLoop]; destruct (Nat.ltb_spec c (n * 2)) as [Hlt|Hge].
  - cbn in Hn. lia.
  - by exists c.
  - apply IH; [by apply power_of_two_double|lia|]. cbn in Hn. lia.
  - by exists c.
Qed.

Lemma dictionaryCapacityFor_ok n : exists c, dictionaryCapacityFor n = Some c /\ power_of_two c /\ 16 <= c /\ n * 2 <= c.
Proof.
  apply capacityLoop_ok; [by exists 4|done|]. pose proof (Nat.pow_gt_lin_r 2 n ltac:(lia)). lia.
Qed.

(** A new dictionary is empty. *)
Lemma newDictionary_ok m n m' d : power_of_two n -> newDictionary collects m n = (m', d) ->
  dict_ok CityHash64 SymbolKeys m' d /\ length (contents d) = n /\ tally d = 0%Z /\ entries (contents d) = [] /\
  strings m' = strings m /\ assocs m' = assocs m /\ allocations m <= allocations m' /\ epoch m' = epoch m.
Proof.
  intros Hp E. unfold newDictionary in E. cbn in E. injection E as <- <-. cbn [contents tally strings assocs allocations epoch]. rewrite length_replicate, entries_replicate, !no_collection.
  pose proof (power_of_two_pos n Hp). split_and!; try done; [|lia].
  constructor; cbn [contents tally]; rewrite ?length_replicate, ?entries_replicate; [done|apply placed_replicate|done|lia|by intros a ?%elem_of_nil].
Qed.

Lemma dict_keys_differ m d : dict_ok CityHash64 SymbolKeys m d -> keys_differ m (contents d).
Proof.
  intros D i j a b Hi Hj E. eapply (placed_unique (keyOf m) _ _ (H := kind_laws CityHash64 SymbolKeys m)); [apply D|done|done|].
  cbn. unfold identityCmp. by apply Nat.eqb_eq.
Qed.

Lemma slots_content_dict m d key : slots_content m (contents d) key = content SymbolKeys m d key.
Proof. done. Qed.

(** A copy into a fresh dictionary of dictionaries that were there before. *)
Lemma copy_dict skip m0 m fresh d : dict_ok CityHash64 SymbolKeys m0 d -> dict_ok CityHash64 SymbolKeys m fresh ->
  strings m = strings m0 -> allocations m0 <= allocations m ->
  (forall b, b < allocations m0 -> b ∉ entries (contents fresh) /\ assocs m !! b = assocs m0 !! b) ->
  ((tally fresh + tally d) * 4 < Z.of_nat (length (contents fresh)) * 3)%Z ->
  exists m' fresh', copyLoop skip m fresh (contents d) = Some (m', fresh') /\ copied skip m fresh (contents d) m' fresh' /\
    forall key, slots_content m (contents d) key = content SymbolKeys m0 d key.
Proof.
  intros D F Es Al Hf L.
  assert (forall a, a ∈ entries (contents d) -> assocs m !! a = assocs m0 !! a) as Ha by (intros a Hin; apply Hf, D; done).
  destruct (copyLoop_ok skip (contents d) m fresh F) as (m' & fresh' & E & C).
  - intros a Hin. destruct (d_entries _ _ _ _ D a Hin) as (Hlt & x & Hx & Hc). split; [lia|]. exists x. rewrite Ha by done. split; [done|].
    unfold classOf in *. by rewrite Es.
  - eapply keys_differ_agree; [exact Ha|]. by apply dict_keys_differ.
  - intros a Hin. apply Hf. by apply D.
  - by rewrite <- (d_tally _ _ _ _ D).
  - exists m', fresh'. split_and!; [done|done|]. intros key. rewrite (slots_content_agree m0 m _ _ Ha). apply slots_content_dict.
Qed.

(** Without a collection in between, merging two method dictionaries answers
    a new well-formed dictionary that is their union, the additions taking
    precedence; its capacity is chosen so that it never grows while it is
    filled, and no association of an existing dictionary changes. *)
Theorem dictionaryMerging_unions m live adds :
  match live with Some d => dict_ok CityHash64 SymbolKeys m d | None => True end -> dict_ok CityHash64 SymbolKeys m adds ->
  exists m' d, dictionaryMerging m live adds = Some (m', d) /\ dict_ok CityHash64 SymbolKeys m' d /\
    dictionaryCapacityFor (Z.to_nat (match live with Some d => dictSize d | None => 0 end + dictSize adds + 8)) = Some (length (contents d)) /\
    (forall key, content SymbolKeys m' d key = match content SymbolKeys m adds key with
      | Some v => Some v
      | None => live ≫= fun d => content SymbolKeys m d key end) /\
    forall b, b < allocations m -> assocs m' !! b = assocs m !! b.
Proof.
  intros Dl Da. unfold dictionaryMerging, dictSize. set (nl := match live with Some d => tally d | None => 0%Z end).
  assert (0 <= nl)%Z as Hnl by (unfold nl; destruct live as [d|]; [rewrite (d_tally _ _ _ _ Dl); lia|done]).
  assert (0 <= tally adds)%Z as Hna by (rewrite (d_tally _ _ _ _ Da); lia).
  destruct (dictionaryCapacityFor_ok (Z.to_nat (nl + tally adds + 8))) as (cap & Hcap & Hp & _ & H2). rewrite Hcap. cbn [mbind option_bind].
  destruct (newDictionary collects m cap) as [m1 fresh] eqn:N. destruct (newDictionary_ok m cap m1 fresh Hp N) as (F & Fl & Ft & Fe & Es & Ea & Al & _).
  assert (forall key, content SymbolKeys m1 fresh key = None) as Fc by (intros; apply content_absent; intros a; rewrite Fe; by intros ?%elem_of_nil).
  assert (exists m2 f2, match live with Some live => dictionaryCopyInto m1 fresh live | None => Some (m1, fresh) end = Some (m2, f2) /\
    dict_ok CityHash64 SymbolKeys m2 f2 /\ length (contents f2) = cap /\ (tally f2 <= nl)%Z /\ strings m2 = strings m /\ allocations m <= allocations m2 /\
    (forall b, b < allocations m -> b ∉ entries (contents f2) /\ assocs m2 !! b = assocs m !! b) /\
    forall key, content SymbolKeys m2 f2 key = live ≫= fun d => content SymbolKeys m d key) as (m2 & f2 & -> & F2 & L2 & T2 & S2 & A2 & B2 & C2).
  { destruct live as [d|].
    - destruct (copy_dict None m m1 fresh d Dl F Es Al) as (m2 & f2 & E & [C1 C2 C3 C4 C5 C6 C7 C8 C9] & Hc).
      + intros b Hb. rewrite Fe, Ea. split; [by apply not_elem_of_nil|done].
      + rewrite Ft, Fl. lia.
      + exists m2, f2. split; [exact E|]. split; [done|]. split; [by rewrite C2|]. split; [unfold nl; rewrite (d_tally _ _ _ _ Dl); lia|].
        split; [by rewrite C4|]. split; [lia|]. split.
        * intros b Hb. assert (b ∉ entries (contents fresh)) by (rewrite Fe; by apply not_elem_of_nil). split; [apply C8; [lia|done]|]. rewrite C7 by (done || lia). by rewrite Ea.
        * intros key. rewrite C9, Hc, Fc. cbn. by destruct (content SymbolKeys m d key).
    - exists m1, fresh. rewrite Ea. split_and!; try done; [lia|]. intros b Hb. rewrite Fe. split; [by apply not_elem_of_nil|done]. }
  cbn [mbind option_bind fst snd]. destruct (copy_dict None m m2 f2 adds Da F2 S2 A2 B2) as (m3 & f3 & E & [C1 C2' C3 C4 C5 C6 C7 C8 C9] & Hc); [rewrite L2; lia|].
  exists m3, f3. split; [exact E|]. split; [done|]. split; [by rewrite C2', L2|]. split.
  - intros key. rewrite C9, Hc, C2. done.
  - intros b Hb. destruct (B2 b Hb) as [B2a B2b]. rewrite C7; [done|lia|done].
Qed.

(** Without a collection in between, removing a selector answers a
    dictionary without it and with every other selector as before; a selector
    that is not defined there (or has nil) leaves everything as it is. *)
Theorem classRemoveSelector_removes m live symbol : dict_ok CityHash64 SymbolKeys m live -> classOf m symbol = ClassSymbol ->
  match content SymbolKeys m live symbol with
  | None | Some Nil => classRemoveSelector m live symbol = Some (m, None)
  | Some _ => exists m' d, classRemoveSelector m live symbol = Some (m', Some d) /\ dict_ok CityHash64 SymbolKeys m' d /\
      forall key, content SymbolKeys m' d key = if key =? symbol then None else content SymbolKeys m live key
  end.
Proof.
  intros D Hs. unfold classRemoveSelector, dictSize. rewrite (symbolDictAt_ok m live symbol D Hs). cbn [mbind option_bind].
  assert (0 <= tally live)%Z as Ht by (rewrite (d_tally _ _ _ _ D); lia).
  assert (default Nil (content SymbolKeys m live symbol) <> Nil -> exists m' d, (capacity ← dictionaryCapacityFor (Z.to_nat (tally live + 8));
      let '(m, fresh) := newDictionary collects m capacity in r ← copyLoop (Some symbol) m fresh (contents live); Some (fst r, Some (snd r))) = Some (m', Some d) /\
    dict_ok CityHash64 SymbolKeys m' d /\ forall key, content SymbolKeys m' d key = if key =? symbol then None else content SymbolKeys m live key) as Hrem.
  { intros _. destruct (dictionaryCapacityFor_ok (Z.to_nat (tally live + 8))) as (cap & -> & Hp & _ & H2). cbn [mbind option_bind].
    destruct (newDictionary collects m cap) as [m1 fresh] eqn:N. destruct (newDictionary_ok m cap m1 fresh Hp N) as (F & Fl & Ft & Fe & Es & Ea & Al & _).
    destruct (copy_dict (Some symbol) m m1 fresh live D F Es Al) as (m2 & f2 & -> & [C1 C2 C3 C4 C5 C6 C7 C8 C9] & Hc).
    - intros b Hb. rewrite Fe, Ea. split; [by apply not_elem_of_nil|done].
    - rewrite Ft, Fl. lia.
    - exists m2, f2. split; [done|]. split; [done|]. intros key. rewrite C9, Hc.
      assert (content SymbolKeys m1 fresh key = None) as -> by (apply content_absent; intros a; rewrite Fe; by intros ?%elem_of_nil).
      destruct (Nat.eqb_spec key symbol) as [->|Hne]; [by rewrite bool_decide_true|]. rewrite bool_decide_false by congruence. by destruct (content SymbolKeys m live key). }
  destruct (content SymbolKeys m live symbol) as [[]|]; cbn [default from_option id] in *.
  all: try (rewrite bool_decide_true by done; done).
  all: rewrite bool_decide_false by done; by apply Hrem.
Qed.

End Methods.

(** ** A small image *)

Module MethodExamples.

(** Two symbols, 0 and 1, whose methods are 50 and 51. *)
Definition symbols : gmap nat RawString :=
  {[0 := mkString ClassSymbol 5 (bytes_of_string "run"); 1 := mkString ClassSymbol 13 (bytes_of_string "doesNotUnderstand:")]}.
Definition image : Memory :=
  mkMemory 100 0 symbols {[10 := mkAssociation 0 (Ref 50); 11 := mkAssociation 1 (Ref 51)]}.

(** Both symbols start at slot 5. *)
Definition methods : Dictionary := mkDictionary [None; None; None; None; None; Some 10; Some 11; None] 2.
Definition city (s : list Z) : Z := foldr Z.add 0%Z s.

Lemma methods_ok : dict_ok city SymbolKeys image methods.
Proof.
  constructor; cbn [contents methods].
  - by exists 3.
  - intros i a Hi. destruct i as [|[|[|[|[|[|[|[|i]]]]]]]]; cbn in Hi; try done; injection Hi as <-.
    + exists 0. split; [cbn; lia|]. split; [vm_compute; reflexivity|lia].
    + exists 1. split; [cbn; lia|]. split; [vm_compute; reflexivity|]. intros [|e] He; [|lia]. exists 10. split; vm_compute; reflexivity.
  - vm_compute. reflexivity.
  - vm_compute. reflexivity.
  - intros a Ha. apply list_elem_of_In in Ha. vm_compute in Ha. destruct Ha as [<-|[<-|[]]]; (split; [cbn; lia|]); eexists; split; vm_compute; reflexivity.
Qed.

Definition never (_ : nat) : bool := false.

Lemma dictionaryMerging_unions_witness : exists m' d, dictionaryMerging never city image (Some methods) methods = Some (m', d) /\
  content SymbolKeys m' d 0 = Some (Ref 50).
Proof.
  destruct (dictionaryMerging_unions never city (fun _ => eq_refl) image (Some methods) methods methods_ok methods_ok) as (m' & d & E & _ & _ & C & _).
  exists m', d. split; [exact E|]. rewrite C. vm_compute. reflexivity.
Defined.

Lemma classRemoveSelector_removes_witness : exists m' d, classRemoveSelector never city image methods 0 = Some (m', Some d) /\
  content SymbolKeys m' d 0 = None /\ content SymbolKeys m' d 1 = Some (Ref 51).
Proof.
  destruct (classRemoveSelector_removes never city (fun _ => eq_refl) image methods 0 methods_ok eq_refl) as (m' & d & E & _ & C).
  exists m', d. split; [exact E|]. rewrite !C. split; vm_compute; reflexivity.
Defined.

(** One class, 7, with these methods. *)
Definition where_ (e p : nat) : Z := 16 * (Z.of_nat p + 1 + 1024 * Z.of_nat e).
Definition world : World :=
  mkWorld image {[7 := mkClass None methods]} ∅ ∅
    (mkTable (replicate LOOKUP_CACHE_SIZE None) (replicate LOOKUP_CACHE_SIZE None) (replicate LOOKUP_CACHE_SIZE None)).

Lemma world_chain : chain (classTable world) 7 [7].
Proof. by eapply chain_root. Qed.

Lemma world_is_ok : world_ok city 1 world.
Proof.
  assert (forall c k, classTable world !! c = Some k -> c = 7 /\ k = mkClass None methods) as Hone.
  { intros c k Hk. cbn [world classTable] in Hk. apply lookup_singleton_Some in Hk as [<- <-]. done. }
  constructor.
  - intros c [k Hk]. destruct (Hone c k Hk) as [-> _]. exists [7]. exact world_chain.
  - intros c k Hk. destruct (Hone c k Hk) as [_ ->]. exact methods_ok.
  - intros c k v s Hk Hc. destruct (Hone c k Hk) as [_ ->]. destruct (content_inv _ _ _ _ _ Hc) as (a & Ha & _ & <-).
    apply list_elem_of_In in Ha. vm_compute in Ha. right. destruct Ha as [<-|[<-|[]]]; by eexists.
  - reflexivity.
  - done.
  - intros code [x Hx]. done.
  - cbn. rewrite !length_replicate. done.
Qed.

(** The first lookup compiles the method, the second one hits; a selector that
    the class does not have is sent to [doesNotUnderstand:]. *)
Lemma cachedLookup_answers_witness : exists w' code r, cachedLookupNativeCode never where_ 1 world 7 0 = Some (w', code) /\
  runs w' !! code = Some r /\ answers 1 world 7 0 r.
Proof.
  destruct (cachedLookup_answers never city where_ 1) with (w := world) (class := 7) (selector := 0) as (w' & code & r & E & R & A & _).
  - unfold where_. intros e p q Hpq. lia.
  - exact world_is_ok.
  - intros hash ca sa Hc _. cbn [world LookupCache classes] in Hc. by apply lookup_replicate_1 in Hc as [? _].
  - reflexivity.
  - exists [7], 51. split; [exact world_chain|]. vm_compute. reflexivity.
  - by exists w', code, r.
Defined.

(** The allocation of the first association of the copy collects. *)
Definition third (n : nat) : bool := n =? 102.

(** C38. The copy loops of [dictionaryCopyInto] and [classRemoveSelector] pass the
    method as a raw value to [symbolDictAtPut], which allocates before it
    stores it: if that allocation collects, the merged dictionary holds the
    address that the method had before. *)
Theorem merging_goes_stale : dict_ok city SymbolKeys image methods /\ content SymbolKeys image methods 0 = Some (Ref 50) /\
  (exists m' d, dictionaryMerging third city image None methods = Some (m', d) /\ content SymbolKeys m' d 0 = Some Stale) /\
  exists m' d, classRemoveSelector third city image methods 1 = Some (m', Some d) /\ content SymbolKeys m' d 0 = Some Stale.
Proof.
  split; [exact methods_ok|]. split; [vm_compute; reflexivity|]. split.
  - destruct (dictionaryMerging third city image None methods) as [[m' d]|] eqn:E; [|vm_compute in E; discriminate].
    exists m', d. split; [done|]. assert (option_map (fun r => content SymbolKeys (fst r) (snd r) 0) (dictionaryMerging third city image None methods) = Some (Some Stale)) as H
      by (vm_compute; reflexivity). rewrite E in H. cbn in H. congruence.
  - destruct (classRemoveSelector third city image methods 1) as [[m' [d|]]|] eqn:E; [|vm_compute in E; discriminate..].
    exists m', d. split; [done|]. assert (option_map (fun r => option_map (fun d => content SymbolKeys (fst r) d 0) (snd r)) (classRemoveSelector third city image methods 1) = Some (Some (Some Stale))) as H
      by (vm_compute; reflexivity). rewrite E in H. cbn in H. congruence.
Qed.

End MethodExamples.
