(* ===== verification/Symbols.v ===== *)
(** * Symbols

    Interning: [asSymbol] answers the one symbol with the given bytes, and makes
    it first when there is none.  The table of symbols is open-addressed and
    doubles at three quarters; growing it stores the new table in the global
    [SymbolTable], which interns that name, so [asSymbol] calls itself through
    [growSymbolTable] and the globals ([src/vm/core/Smalltalk.c],
    [src/vm/runtime/String.c]).  The lock around it is in [Safepoint]. *)
From S2P Require Import Prelude.
From stdpp Require Import base list gmap numbers.
From S2P Require Import Probing Dictionary.

#[local] Open Scope nat_scope.

(** The handles and counters of a heap; [tableObject] is the array itself, as a
    value. *)
Record Symbols := mkSymbols {
  smem : Memory;
  SymbolTable : list (option nat);
  tableObject : nat;
  symbolCount : nat;
  symbolCountValid : bool;
  Smalltalk : Dictionary }.

Definition MASK32 : Z := 4294967295.

Section Symbols.
Context (collects : nat -> bool) (CityHash64 : list Z -> Z).

(** [newString] and [memcpy] in [asString], [copyResizedObject] and the stores
    after it in [asSymbol]: a new object with these bytes. *)
Definition newStringObject (m : Memory) (s : RawString) : Memory * nat :=
  let '(m, p) := newObject collects m in
  (set_strings (insert p s) m, p).

Definition asString (m : Memory) (buffer : list Z) : Memory * nat := newStringObject m (mkString ClassString 0 buffer).

Definition symbolHash (b : list Z) : Z := Z.land (computeRawStringHash CityHash64 b) MASK32.

Definition symbolTableRecount (st : Symbols) : Symbols :=
  mkSymbols (smem st) (SymbolTable st) (tableObject st) (length (entries (SymbolTable st))) true (Smalltalk st).

(** The rehash loop of [growSymbolTable]; it looks for empty slots only. *)
Fixpoint rehashSymbols (m : Memory) (from newTable : list (option nat)) : option (list (option nat)) :=
  match from with
  | [] => Some newTable
  | None :: from => rehashSymbols m from newTable
  | Some rawSym :: from =>
      idx ← probe (length newTable) (fun _ => false) newTable (home (Z.land (objectGetHash m rawSym) MASK32) (length newTable));
      newTable ← put newTable idx (Some rawSym);
      rehashSymbols m from newTable
  end.

(** [intern] is [asSymbol], one level down. *)
Definition setGlobalObject (intern : Symbols -> nat -> option (Symbols * nat)) (st : Symbols) (key : list Z) (value : Value) : option Symbols :=
  let '(m, string) := asString (smem st) key in
  let st := mkSymbols m (SymbolTable st) (tableObject st) (symbolCount st) (symbolCountValid st) (Smalltalk st) in
  '(st, symbol) ← intern st string;
  '(m, globals, _) ← symbolDictAtPutObject collects CityHash64 (smem st) (Smalltalk st) symbol value;
  Some (mkSymbols m (SymbolTable st) (tableObject st) (symbolCount st) (symbolCountValid st) globals).

Definition growSymbolTable (intern : Symbols -> nat -> option (Symbols * nat)) (st : Symbols) : option Symbols :=
  let '(m, array) := newObject collects (smem st) in
  newTable ← rehashSymbols m (SymbolTable st) (replicate (length (SymbolTable st) * 2) None);
  let st := mkSymbols m newTable array (symbolCount st) (symbolCountValid st) (Smalltalk st) in
  setGlobalObject intern st (bytes_of_string "SymbolTable") (Ref array).

(** The new symbol goes into the slot, and is counted. *)
Definition addSymbol (st : Symbols) (string : nat) (hash : Z) (index : nat) : option (Symbols * nat) :=
  let '(m, newSymbol) := newStringObject (smem st) (mkString ClassSymbol hash (bytesOf (smem st) string)) in
  table ← put (SymbolTable st) index (Some newSymbol);
  Some (mkSymbols m table (tableObject st) (S (symbolCount st)) (symbolCountValid st) (Smalltalk st), newSymbol).

(** [fuel] bounds the nesting: interning, and interning the name of the table. *)
Fixpoint asSymbol (fuel : nat) (st : Symbols) (string : nat) : option (Symbols * nat) :=
  match fuel with
  | 0 => None
  | S fuel =>
      ASSERT (bool_decide (classOf (smem st) string = ClassString));;
      let st := if symbolCountValid st then st else symbolTableRecount st in
      let hash := Z.land (computeStringHash CityHash64 (smem st) string) MASK32 in
      let table := SymbolTable st in
      index ← probe (length table) (fun symbol => stringEquals (smem st) string symbol) table (home hash (length table));
      slot ← table !! index;
      match slot with
      | Some symbol => Some (st, symbol)
      | None =>
          if length table * 3 <=? (symbolCount st + 1) * 4 then
            st ← growSymbolTable (asSymbol fuel) st;
            let table := SymbolTable st in
            index ← probe (length table) (fun _ => false) table (home hash (length table));
            addSymbol st string hash index
          else addSymbol st string hash index
      end
  end.

Definition getSymbol (fuel : nat) (st : Symbols) (buffer : list Z) : option (Symbols * nat) :=
  let '(m, string) := asString (smem st) buffer in
  asSymbol fuel (mkSymbols m (SymbolTable st) (tableObject st) (symbolCount st) (symbolCountValid st) (Smalltalk st)) string.

(** ** The table *)

Definition same_bytes (a b : list Z) : bool := bool_decide (a = b).

#[local] Instance symbol_laws : KeyLaws same_bytes symbolHash.
Proof.
  constructor; unfold same_bytes; intros *; rewrite ?bool_decide_eq_true; [done| |congruence|congruence].
  apply bool_decide_ext. naive_solver.
Qed.

Definition symbol_ok (m : Memory) (s : nat) : Prop :=
  s < allocations m /\ exists b, strings m !! s = Some (mkString ClassSymbol (symbolHash b) b).

(** The table by itself: well placed, at most three quarters full, symbols only. *)
Record table_ok (m : Memory) (table : list (option nat)) : Prop := {
  ta_power : power_of_two (length table);
  ta_min : 4 <= length table;
  ta_placed : placed (bytesOf m) same_bytes symbolHash table;
  ta_load : length (entries table) * 4 < length table * 3;
  ta_symbols : forall s, s ∈ entries table -> symbol_ok m s }.

(** Memory that has grown: the strings that were there are as they were. *)
Definition extends (m m' : Memory) : Prop :=
  allocations m <= allocations m' /\ forall p, is_Some (strings m !! p) -> strings m' !! p = strings m !! p.

Lemma extends_refl m : extends m m.
Proof. done. Qed.

Lemma extends_trans m1 m2 m3 : extends m1 m2 -> extends m2 m3 -> extends m1 m3.
Proof. intros [L1 E1] [L2 E2]. split; [lia|]. intros p Hp. rewrite E2; [by apply E1|]. by rewrite E1. Qed.

Lemma extends_bytes m m' p : extends m m' -> is_Some (strings m !! p) -> bytesOf m' p = bytesOf m p /\ classOf m' p = classOf m p /\ objectGetHash m' p = objectGetHash m p.
Proof. intros [_ E] Hp. unfold bytesOf, classOf, objectGetHash. by rewrite (E p Hp). Qed.

Lemma symbol_ok_is_Some m s : symbol_ok m s -> is_Some (strings m !! s).
Proof. intros (_ & b & ->). by eexists. Qed.

Lemma symbol_ok_extends m m' s : extends m m' -> symbol_ok m s -> symbol_ok m' s.
Proof. intros [L E] (Hs & b & Hb). split; [lia|]. exists b. rewrite E; [done|by eexists]. Qed.

(** Placement depends on the keys of the entries only. *)
Lemma placed_keys {K} (key key' : nat -> K) (eqk : K -> K -> bool) (hash hash' : K -> Z) slots :
  (forall a, a ∈ entries slots -> key' a = key a /\ hash' (key a) = hash (key a)) ->
  placed key eqk hash slots -> placed key' eqk hash' slots.
Proof.
  intros E P i a Hi. destruct (P i a Hi) as (d & Hd & Ei & Hp). assert (a ∈ entries slots) as Ha by (apply elem_of_entries; by eexists).
  destruct (E a Ha) as [Ek Eh]. exists d. unfold start in *. rewrite Ek, Eh. split_and!; [done|done|].
  intros e He. destruct (Hp e He) as (b & Hb & Eb). exists b. split; [done|]. rewrite (proj1 (E b ltac:(apply elem_of_entries; by eexists))). done.
Qed.

Lemma table_ok_extends m m' table : extends m m' -> table_ok m table -> table_ok m' table.
Proof.
  intros E []. constructor; try done.
  - eapply placed_keys; [|done]. intros a Ha. split; [|done]. by apply extends_bytes, symbol_ok_is_Some, ta_symbols0.
  - intros s Hs. by eapply symbol_ok_extends, ta_symbols0.
Qed.

Lemma dict_ok_extends m m' d : extends m m' -> (forall a, a ∈ entries (contents d) -> assocs m' !! a = assocs m !! a) ->
  dict_ok CityHash64 SymbolKeys m d -> dict_ok CityHash64 SymbolKeys m' d.
Proof.
  intros E Ha []. assert (forall a, a ∈ entries (contents d) -> exists x, assocs m !! a = Some x /\ is_Some (strings m !! akey x)) as Hk.
  { intros a Hin. destruct (d_entries a Hin) as (_ & x & Hx & Hc). exists x. split; [done|]. unfold classOf in Hc.
    destruct (strings m !! akey x); [by eexists|done]. }
  constructor; try done.
  - apply (placed_keys (keyOf m) _ (cmpOf SymbolKeys m) (hashOf CityHash64 SymbolKeys m)); [|done]. intros a Hin.
    destruct (Hk a Hin) as (x & Hx & Hs). unfold keyOf. rewrite (Ha a Hin), Hx. split; [done|]. cbn. by apply extends_bytes.
  - intros a Hin. destruct (d_entries a Hin) as (Hlt & x & Hx & Hc). destruct (Hk a Hin) as (y & Hy & Hs). assert (y = x) as -> by congruence. split; [destruct E; lia|]. exists x.
    rewrite (Ha a Hin). split; [done|]. rewrite (proj1 (proj2 (extends_bytes m m' (akey x) E Hs))). done.
Qed.

(** Growing the table keeps the symbols. *)
Lemma rehashSymbols_ok m l slots : power_of_two (length slots) -> length (entries slots) + length (entries l) < length slots ->
  placed (bytesOf m) same_bytes symbolHash slots -> (forall s, s ∈ entries l -> symbol_ok m s) ->
  (forall i j a b, l !! i = Some (Some a) -> l !! j = Some (Some b) -> same_bytes (bytesOf m a) (bytesOf m b) = true -> i = j) ->
  (forall a, a ∈ entries l -> absent (bytesOf m) same_bytes slots (bytesOf m a)) ->
  exists slots', rehashSymbols m l slots = Some slots' /\ length slots' = length slots /\ entries slots' ≡ₚ entries slots ++ entries l /\
    placed (bytesOf m) same_bytes symbolHash slots'.
Proof.
  revert slots. induction l as [|[a|] l IH]; intros slots Hp Hf P O D1 D2.
  - exists slots. unfold entries at 3. cbn. rewrite app_nil_r. done.
  - change (entries (Some a :: l)) with (a :: entries l) in *. cbn [length] in Hf. cbn [rehashSymbols].
    destruct (probe_vacancy (bytesOf m) same_bytes symbolHash (fun _ => false) slots (bytesOf m a)) as (i & E & V); [done|lia|apply D2; by left|done|].
    assert (home (Z.land (objectGetHash m a) MASK32) (length slots) = start symbolHash slots (bytesOf m a)) as ->.
    { destruct (O a) as (_ & b & Hb); [by left|]. unfold start, objectGetHash, bytesOf. rewrite Hb. cbn. unfold symbolHash.
      by rewrite <- Z.land_assoc, Z.land_diag. }
    rewrite E. cbn [mbind option_bind]. pose proof (lookup_lt_Some _ _ _ (proj1 V)) as Hi. rewrite put_Some by done. cbn [mbind option_bind].
    pose proof (entries_insert slots i a (proj1 V)) as Hperm.
    destruct (IH (<[i := Some a]> slots)) as (slots' & -> & Hl & Hp' & P').
    + by rewrite length_insert.
    + rewrite Hperm, length_insert. cbn. lia.
    + by apply (placed_insert _ _ _ _ _ _ (bytesOf m a)).
    + intros s Hs. apply O. by right.
    + intros x y b c Hx Hy E'. assert (S x = S y) as [= ->]; [|done]. by apply (D1 (S x) (S y) b c).
    + intros b Hb c Hc. rewrite Hperm in Hc. apply list.elem_of_cons in Hc as [->|Hc]; [|apply (D2 b); [by right|done]].
      apply elem_of_entries in Hb as [j Hj]. destruct (same_bytes (bytesOf m a) (bytesOf m b)) eqn:E'; [|done].
      by specialize (D1 0 (S j) a b eq_refl Hj E').
    + exists slots'. split_and!; [done|by rewrite Hl, length_insert| |done]. rewrite Hp', Hperm. by rewrite <- Permutation_middle.
  - cbn [rehashSymbols]. apply IH; try done. intros x y b c Hx Hy E'. assert (S x = S y) as [= ->]; [|done]. by apply (D1 (S x) (S y) b c).
Qed.

Lemma growTable_ok m table : table_ok m table ->
  exists table', rehashSymbols m table (replicate (length table * 2) None) = Some table' /\ table_ok m table' /\
    length table' = length table * 2 /\ entries table' ≡ₚ entries table.
Proof.
  intros [T1 T2 T3 T4 T5]. destruct (rehashSymbols_ok m table (replicate (length table * 2) None)) as (table' & E & L & Hp & P).
  - rewrite length_replicate. by apply power_of_two_double.
  - rewrite entries_replicate, length_replicate. cbn. lia.
  - apply placed_replicate.
  - done.
  - intros i j a b Hi Hj Eb. by eapply (placed_unique (bytesOf m) same_bytes symbolHash).
  - intros a _ b Hb. rewrite entries_replicate in Hb. by apply elem_of_nil in Hb.
  - rewrite entries_replicate in Hp. cbn in Hp. rewrite length_replicate in L. exists table'. split_and!; [done| |done|done].
    constructor; rewrite ?L, ?Hp; try done; [by apply power_of_two_double|lia|lia|]. intros s Hs. rewrite Hp in Hs. by apply T5.
Qed.

(** ** Interning *)

Record symbols_ok (st : Symbols) : Prop := {
  sy_table : table_ok (smem st) (SymbolTable st);
  sy_count : symbolCountValid st = true -> symbolCount st = length (entries (SymbolTable st));
  sy_globals : dict_ok CityHash64 SymbolKeys (smem st) (Smalltalk st);
  sy_fresh : forall p, is_Some (strings (smem st) !! p) -> p < allocations (smem st) }.

(** [sym] is the symbol of [b]; the symbols that were there still are, and the
    only others have the bytes [b], or those of [extra]. *)
Record interns (st : Symbols) (b : list Z) (extra : list (list Z)) (st' : Symbols) (sym : nat) : Prop := {
  in_ok : symbols_ok st';
  in_symbol : sym ∈ entries (SymbolTable st');
  in_bytes : bytesOf (smem st') sym = b;
  in_kept : forall s, s ∈ entries (SymbolTable st) -> s ∈ entries (SymbolTable st');
  in_only : forall s, s ∈ entries (SymbolTable st') -> s ∈ entries (SymbolTable st) \/ bytesOf (smem st') s ∈ b :: extra;
  in_extends : extends (smem st) (smem st');
  in_assocs : forall a, a < allocations (smem st) -> extra = [] -> assocs (smem st') !! a = assocs (smem st) !! a;
  in_valid : symbolCountValid st' = true;
  in_count : length (entries (SymbolTable st')) <= S (length extra) + length (entries (SymbolTable st));
  in_size : extra = [] -> length (SymbolTable st') = length (SymbolTable st) /\ Smalltalk st' = Smalltalk st }.

Lemma probe_symbol m table string : table_ok m table ->
  exists i, probe (length table) (fun symbol => stringEquals m string symbol) table (home (Z.land (computeStringHash CityHash64 m string) MASK32) (length table)) = Some i /\
    ((exists s, table !! i = Some (Some s) /\ bytesOf m s = bytesOf m string) \/
     (vacancy (bytesOf m) same_bytes symbolHash table (bytesOf m string) i /\ absent (bytesOf m) same_bytes table (bytesOf m string))).
Proof.
  intros [T1 T2 T3 T4 T5]. destruct (probe_finds (bytesOf m) same_bytes symbolHash table (bytesOf m string) T3 T1 ltac:(lia)) as (i & E & H).
  exists i. split.
  - rewrite <- E. apply probe_ext. intros s. rewrite stringEquals_spec. apply bool_decide_ext. naive_solver.
  - destruct H as [(s & Hs & Eb)|H]; [left|by right]. exists s. split; [done|]. unfold same_bytes in Eb. by apply bool_decide_eq_true in Eb.
Qed.

Lemma newString_extends m s : (forall p, is_Some (strings m !! p) -> p < allocations m) ->
  extends m (fst (newStringObject m s)) /\ snd (newStringObject m s) = allocations m /\
  strings (fst (newStringObject m s)) !! allocations m = Some s /\ assocs (fst (newStringObject m s)) = assocs m /\
  forall p, is_Some (strings (fst (newStringObject m s)) !! p) -> p < allocations (fst (newStringObject m s)).
Proof.
  intros F. unfold newStringObject. cbn. split_and!; [split; cbn; [lia|]|done|by rewrite lookup_insert_eq|done|].
  - intros p Hp. rewrite lookup_insert_ne; [done|]. pose proof (F p Hp). lia.
  - intros p Hp. destruct (decide (p = allocations m)) as [->|]; [lia|]. rewrite lookup_insert_ne in Hp by done. pose proof (F p Hp). lia.
Qed.

Lemma addSymbol_ok st string i : symbols_ok st -> symbolCountValid st = true ->
  vacancy (bytesOf (smem st)) same_bytes symbolHash (SymbolTable st) (bytesOf (smem st) string) i ->
  (length (entries (SymbolTable st)) + 1) * 4 < length (SymbolTable st) * 3 ->
  exists st' sym, addSymbol st string (symbolHash (bytesOf (smem st) string)) i = Some (st', sym) /\ interns st (bytesOf (smem st) string) [] st' sym.
Proof.
  intros [ST SC SG SF] Hv V L. unfold addSymbol. set (b := bytesOf (smem st) string) in *. set (m := smem st) in *. set (table := SymbolTable st) in *.
  destruct (newString_extends m (mkString ClassSymbol (symbolHash b) b) SF) as (E & En & Es & Ea & F').
  destruct (newStringObject m (mkString ClassSymbol (symbolHash b) b)) as [m' sym] eqn:N. cbn [fst snd] in *. subst sym.
  pose proof (lookup_lt_Some _ _ _ (proj1 V)) as Hi. rewrite put_Some by done. cbn [mbind option_bind]. eexists _, _. split; [done|].
  pose proof (entries_insert table i (allocations m) (proj1 V)) as Hperm.
  assert (bytesOf m' (allocations m) = b) as Hb by (unfold bytesOf; by rewrite Es).
  assert (table_ok m' table) as T' by (by eapply table_ok_extends).
  assert (forall s, s ∈ entries table -> bytesOf m' s = bytesOf m s) as Hsame by (intros s Hs; by eapply extends_bytes, symbol_ok_is_Some, ta_symbols).
  assert (vacancy (bytesOf m') same_bytes symbolHash table b i) as V'.
  { destruct V as (V1 & d & Hd & Ei & Hp). split; [done|]. exists d. split_and!; [done|done|]. intros e He. destruct (Hp e He) as (c & Hc & Ec). exists c.
    split; [done|]. rewrite Hsame; [done|]. apply elem_of_entries. by eexists. }
  constructor; cbn; fold m; fold table.
  - constructor; cbn.
    + destruct T' as [T1 T2 T3 T4 T5]. constructor; rewrite ?length_insert; try done.
      * by apply (placed_insert _ _ _ _ _ _ b).
      * rewrite Hperm. cbn. lia.
      * intros s Hs. rewrite Hperm in Hs. apply list.elem_of_cons in Hs as [->|Hs]; [|by apply T5].
        split; [apply F'; by eexists|]. exists b. done.
    + intros _. fold table. rewrite Hperm. cbn. by rewrite SC.
    + eapply dict_ok_extends; [exact E| |done]. intros a _. by rewrite Ea.
    + done.
  - rewrite Hperm. by left.
  - done.
  - intros s Hs. rewrite Hperm. by right.
  - intros s Hs. rewrite Hperm in Hs. apply list.elem_of_cons in Hs as [->|Hs]; [right; rewrite Hb; by left|by left].
  - done.
  - intros a _ _. by rewrite Ea.
  - done.
  - rewrite Hperm. cbn. lia.
  - intros _. by rewrite length_insert.
Qed.

Definition counted (st : Symbols) : Symbols := if symbolCountValid st then st else symbolTableRecount st.

Lemma counted_ok st : symbols_ok st -> symbols_ok (counted st) /\ symbolCountValid (counted st) = true /\
  smem (counted st) = smem st /\ SymbolTable (counted st) = SymbolTable st /\ Smalltalk (counted st) = Smalltalk st.
Proof. intros O. unfold counted. destruct (symbolCountValid st) eqn:E; [done|]. split; [destruct O; by constructor|done]. Qed.

Lemma interns_counted st b extra st' sym : interns (counted st) b extra st' sym -> symbols_ok st -> interns st b extra st' sym.
Proof. intros [] O. destruct (counted_ok st O) as (_ & _ & Em & Et & Eg). rewrite Em, Et, Eg in *. by constructor. Qed.

(** A string whose symbol is in the table. *)
Lemma asSymbol_found fuel st string s : symbols_ok st -> classOf (smem st) string = ClassString ->
  s ∈ entries (SymbolTable st) -> bytesOf (smem st) s = bytesOf (smem st) string ->
  asSymbol (S fuel) st string = Some (counted st, s).
Proof.
  intros O Hc Hs Hb. cbn [asSymbol]. rewrite Hc. cbn [bool_decide decide ASSERT mbind option_bind]. fold (counted st).
  destruct (counted_ok st O) as (_ & _ & -> & -> & _). rewrite bool_decide_true by done. cbn [ASSERT mbind option_bind].
  destruct (probe_symbol (smem st) (SymbolTable st) string (sy_table _ O)) as (i & -> & [(s' & Hi & Hb')|[_ Hab]]).
  - cbn [mbind option_bind]. rewrite Hi. cbn [mbind option_bind]. apply elem_of_entries in Hs as [j Hj].
    assert (i = j) as ->; [|congruence]. eapply (placed_unique (bytesOf (smem st)) same_bytes symbolHash); [apply (sy_table _ O)|done|done|].
    unfold same_bytes. apply bool_decide_eq_true. congruence.
  - specialize (Hab s Hs). unfold same_bytes in Hab. by apply bool_decide_eq_false in Hab.
Qed.

Lemma interns_found st s : symbols_ok st -> s ∈ entries (SymbolTable st) -> interns st (bytesOf (smem st) s) [] (counted st) s.
Proof.
  intros O Hs. destruct (counted_ok st O) as (O' & V & Em & Et & Eg). constructor; rewrite ?Em, ?Et; try done; [by left|lia].
Qed.

(** A string without a symbol: the code from the empty slot on. *)
Lemma asSymbol_new fuel st string : symbols_ok st -> classOf (smem st) string = ClassString ->
  absent (bytesOf (smem st)) same_bytes (SymbolTable st) (bytesOf (smem st) string) ->
  exists i, vacancy (bytesOf (smem st)) same_bytes symbolHash (SymbolTable st) (bytesOf (smem st) string) i /\
  asSymbol (S fuel) st string =
    (if length (SymbolTable st) * 3 <=? (length (entries (SymbolTable st)) + 1) * 4 then
       st1 ← growSymbolTable (asSymbol fuel) (counted st);
       index ← probe (length (SymbolTable st1)) (fun _ => false) (SymbolTable st1) (home (symbolHash (bytesOf (smem st) string)) (length (SymbolTable st1)));
       addSymbol st1 string (symbolHash (bytesOf (smem st) string)) index
     else addSymbol (counted st) string (symbolHash (bytesOf (smem st) string)) i).
Proof.
  intros O Hc Hab. destruct (counted_ok st O) as (O' & V & Em & Et & Eg).
  destruct (probe_symbol (smem st) (SymbolTable st) string (sy_table _ O)) as (i & E & [(s' & Hi & Hb')|[Va _]]).
  { exfalso. assert (s' ∈ entries (SymbolTable st)) as Hs by (apply elem_of_entries; by eexists). specialize (Hab s' Hs).
    unfold same_bytes in Hab. by apply bool_decide_eq_false in Hab. }
  exists i. split; [done|]. cbn [asSymbol]. fold (counted st). rewrite bool_decide_true by done. cbn [ASSERT mbind option_bind].
  rewrite (sy_count _ O' V), Em, Et, E. cbn [mbind option_bind]. rewrite (proj1 Va). cbn [mbind option_bind]. done.
Qed.

(** Interning in a table with room. *)
Lemma asSymbol_room fuel st string : symbols_ok st -> classOf (smem st) string = ClassString ->
  (length (entries (SymbolTable st)) + 1) * 4 < length (SymbolTable st) * 3 ->
  exists st' sym, asSymbol (S fuel) st string = Some (st', sym) /\ interns st (bytesOf (smem st) string) [] st' sym.
Proof.
  intros O Hc L. destruct (counted_ok st O) as (O' & V & Em & Et & Eg).
  destruct (probe_symbol (smem st) (SymbolTable st) string (sy_table _ O)) as (i & _ & [(s & Hi & Hb)|[_ Hab]]).
  - assert (s ∈ entries (SymbolTable st)) as Hs by (apply elem_of_entries; by eexists).
    exists (counted st), s. split; [by apply asSymbol_found|]. rewrite <- Hb. by apply interns_found.
  - destruct (asSymbol_new fuel st string O Hc Hab) as (j & Va & ->). destruct (Nat.leb_spec (length (SymbolTable st) * 3) ((length (entries (SymbolTable st)) + 1) * 4)); [lia|].
    destruct (addSymbol_ok (counted st) string j O' V) as (st' & sym & E & I); [by rewrite Em, Et|by rewrite Et|].
    rewrite Em in E, I. exists st', sym. split; [done|]. by apply interns_counted.
Qed.

(** A state whose memory has grown. *)
Lemma symbols_ok_extends st m' : symbols_ok st -> extends (smem st) m' ->
  (forall a, a ∈ entries (contents (Smalltalk st)) -> assocs m' !! a = assocs (smem st) !! a) ->
  (forall p, is_Some (strings m' !! p) -> p < allocations m') ->
  symbols_ok (mkSymbols m' (SymbolTable st) (tableObject st) (symbolCount st) (symbolCountValid st) (Smalltalk st)).
Proof. intros [] E Ha Hf. constructor; cbn; [by eapply table_ok_extends|done|by eapply dict_ok_extends|done]. Qed.

(** What storing a global leaves: the table and its symbols, with the symbol of
    the name added if it was not there, and the global. *)
Lemma setGlobalObject_ok fuel st key value : symbols_ok st -> (length (entries (SymbolTable st)) + 1) * 4 < length (SymbolTable st) * 3 ->
  exists st' sym, setGlobalObject (asSymbol (S fuel)) st key value = Some st' /\ symbols_ok st' /\ symbolCountValid st' = true /\
    extends (smem st) (smem st') /\ length (SymbolTable st') = length (SymbolTable st) /\
    (forall s, s ∈ entries (SymbolTable st) -> s ∈ entries (SymbolTable st')) /\
    (forall s, s ∈ entries (SymbolTable st') -> s ∈ entries (SymbolTable st) \/ bytesOf (smem st') s = key) /\
    length (entries (SymbolTable st')) <= S (length (entries (SymbolTable st))) /\
    sym ∈ entries (SymbolTable st') /\ bytesOf (smem st') sym = key /\
    forall s, content SymbolKeys (smem st') (Smalltalk st') s = if sym =? s then Some value else content SymbolKeys (smem st) (Smalltalk st) s.
Proof.
  intros O L. unfold setGlobalObject, asString.
  destruct (newString_extends (smem st) (mkString ClassString 0 key) (sy_fresh _ O)) as (E & En & Es & Ea & F').
  destruct (newStringObject (smem st) (mkString ClassString 0 key)) as [m1 string] eqn:N. cbn [fst snd] in *. subst string.
  set (st1 := mkSymbols m1 _ _ _ _ _). assert (symbols_ok st1) as O1 by (apply symbols_ok_extends; [done|done|intros; by rewrite Ea|done]).
  assert (bytesOf m1 (allocations (smem st)) = key) as Hb by (unfold bytesOf; by rewrite Es).
  destruct (asSymbol_room fuel st1 (allocations (smem st)) O1) as (st2 & sym & E2 & I2); [unfold classOf; cbn; by rewrite Es|exact L|].
  rewrite E2. cbn [mbind option_bind]. destruct I2 as [O2 I2s I2b I2k I2o I2e I2a I2v I2c I2z]. cbn [st1 smem] in *. rewrite Hb in *.
  destruct (I2z eq_refl) as [Z1 Z2]. cbn [st1 SymbolTable Smalltalk] in *.
  destruct (ta_symbols _ _ (sy_table _ O2) sym I2s) as (Hlt & b & Hsym).
  assert (classOf (smem st2) sym = ClassSymbol) as Hcl by (unfold classOf; by rewrite Hsym).
  destruct (dictAtPutObject_ok collects CityHash64 SymbolKeys (smem st2) (Smalltalk st2) sym value (sy_globals _ O2) Hcl) as (m3 & globals & a & E3 & S3).
  rewrite <- (atPutObject_unfold collects CityHash64 SymbolKeys) in E3 by done. cbn [atPutObject] in E3. rewrite E3. cbn [mbind option_bind].
  pose proof (st_strings _ _ _ _ _ _ _ _ _ _ S3) as Es3. pose proof (st_alloc _ _ _ _ _ _ _ _ _ _ S3) as Al3.
  assert (extends (smem st2) m3) as Ex3 by (split; [done|intros; by rewrite Es3]).
  eexists _, sym. split; [done|]. cbn.
  assert (forall s, bytesOf m3 s = bytesOf (smem st2) s) as Hb3 by (intros; unfold bytesOf; by rewrite Es3).
  split_and!.
  - constructor; cbn; [eapply table_ok_extends; [exact Ex3|apply O2]|apply O2|apply S3|].
    intros p. rewrite Es3. intros Hp. pose proof (sy_fresh _ O2 p Hp). lia.
  - done.
  - eapply extends_trans; [exact E|]. by eapply extends_trans.
  - done.
  - done.
  - intros s Hs. rewrite Hb3. destruct (I2o s Hs) as [|Hx]; [by left|right]. by apply list_elem_of_singleton in Hx.
  - done.
  - done.
  - by rewrite Hb3.
  - intros s. rewrite (stored_content _ _ _ _ _ _ _ _ _ _ (sy_globals _ O2) S3 s). cbn. unfold identityCmp. destruct (sym =? s); [done|].
    rewrite Z2. apply content_agree. intros x Hx. destruct (d_entries _ _ _ _ (sy_globals _ O) x Hx) as [Hx' _].
    rewrite I2a; [by rewrite Ea|destruct E; lia|done].
Qed.

(** Growing: twice the slots, the symbols that were there, and the symbol of the
    name of the table. *)
Lemma growSymbolTable_ok fuel st : symbols_ok st -> symbolCountValid st = true ->
  exists st' name, growSymbolTable (asSymbol (S fuel)) st = Some st' /\ symbols_ok st' /\ symbolCountValid st' = true /\ extends (smem st) (smem st') /\
    (length (entries (SymbolTable st')) + 1) * 4 < length (SymbolTable st') * 3 /\
    (forall s, s ∈ entries (SymbolTable st) -> s ∈ entries (SymbolTable st')) /\
    (forall s, s ∈ entries (SymbolTable st') -> s ∈ entries (SymbolTable st) \/ bytesOf (smem st') s = bytes_of_string "SymbolTable") /\
    name ∈ entries (SymbolTable st') /\ bytesOf (smem st') name = bytes_of_string "SymbolTable".
Proof.
  intros O Hv. unfold growSymbolTable. destruct (newObject collects (smem st)) as [m array] eqn:N.
  assert (extends (smem st) m /\ assocs m = assocs (smem st) /\ strings m = strings (smem st)) as (E & Ea & Es) by (injection N as <- <-; split_and!; cbn; [split; cbn; [lia|done]|done|done]).
  destruct (growTable_ok m (SymbolTable st)) as (table & Et & T & Lt & Hp); [by eapply table_ok_extends, O|]. rewrite Et. cbn [mbind option_bind].
  set (st1 := mkSymbols m table array _ _ _).
  assert (symbols_ok st1) as O1.
  { constructor; cbn; [done|intros _; by rewrite Hp, (sy_count _ O)|eapply dict_ok_extends; [exact E|intros; by rewrite Ea|apply O]|].
    rewrite Es. intros p Hpp. pose proof (sy_fresh _ O p Hpp). destruct E; lia. }
  pose proof (ta_load _ _ (sy_table _ O)) as Hload. pose proof (ta_min _ _ (sy_table _ O)) as Hmin.
  destruct (setGlobalObject_ok fuel st1 (bytes_of_string "SymbolTable") (Ref array) O1) as (st2 & sym & E2 & O2 & V2 & X2 & L2 & K2 & N2 & C2 & I2 & B2 & _).
  { cbn [st1 SymbolTable]. rewrite Hp, Lt. lia. }
  rewrite E2. cbn [st1 smem SymbolTable] in *. rewrite Hp in C2. rewrite Lt in L2.
  exists st2, sym. split_and!; [done|done|done|by eapply extends_trans|rewrite L2; lia| | |done|done].
  - intros s Hs. apply K2. by rewrite Hp.
  - intros s Hs. destruct (N2 s Hs) as [Hs'|]; [left; by rewrite Hp in Hs'|by right].
Qed.

(** After growing there is a free slot on the path of every hash. *)
Lemma free_symbol_slot m table hash : table_ok m table -> exists i, probe (length table) (fun _ => false) table (home hash (length table)) = Some i /\ table !! i = Some None.
Proof.
  intros [T1 T2 T3 T4 T5].
  destruct (probe_vacancy (fun _ => tt) (fun _ _ => false) (fun _ => hash) (fun _ => false) table tt T1 ltac:(lia) ltac:(by intros ? ?) ltac:(done)) as (i & E & V).
  exists i. split; [exact E|apply V].
Qed.

(** A slot of the grown table for a name that is not in it. *)
Lemma grown_vacancy st st' string : symbols_ok st -> symbols_ok st' -> extends (smem st) (smem st') -> is_Some (strings (smem st) !! string) ->
  absent (bytesOf (smem st)) same_bytes (SymbolTable st) (bytesOf (smem st) string) ->
  bytesOf (smem st) string <> bytes_of_string "SymbolTable" ->
  (forall s, s ∈ entries (SymbolTable st') -> s ∈ entries (SymbolTable st) \/ bytesOf (smem st') s = bytes_of_string "SymbolTable") ->
  exists i, probe (length (SymbolTable st')) (fun _ => false) (SymbolTable st') (home (symbolHash (bytesOf (smem st) string)) (length (SymbolTable st'))) = Some i /\
    vacancy (bytesOf (smem st')) same_bytes symbolHash (SymbolTable st') (bytesOf (smem st') string) i.
Proof.
  intros O O2 X Hstr Hab Hne N2. assert (bytesOf (smem st') string = bytesOf (smem st) string) as Hb by (by eapply (extends_bytes (smem st))).
  pose proof (ta_load _ _ (sy_table _ O2)) as Hload. rewrite <- Hb.
  apply (probe_vacancy (bytesOf (smem st')) same_bytes symbolHash (fun _ => false) (SymbolTable st') (bytesOf (smem st') string)); [apply (sy_table _ O2)|lia| |done].
  intros s Hs. rewrite Hb. destruct (N2 s Hs) as [Hs'| ->]; [|apply bool_decide_eq_false; congruence].
  rewrite (proj1 (extends_bytes (smem st) (smem st') s X (symbol_ok_is_Some _ _ (ta_symbols _ _ (sy_table _ O) s Hs')))). by apply Hab.
Qed.

(** The one call that goes wrong: interning the name of the table itself, when
    it has no symbol yet and the table has to grow for it. *)
Definition grows_for_own_name (st : Symbols) (string : nat) : Prop :=
  bytesOf (smem st) string = bytes_of_string "SymbolTable" /\
  (forall s, s ∈ entries (SymbolTable st) -> bytesOf (smem st) s <> bytesOf (smem st) string) /\
  length (SymbolTable st) * 3 <= (length (entries (SymbolTable st)) + 1) * 4.

(** C14. Interning: the answer is the one symbol with the bytes of the string; it
    is made if there was none, and every symbol that was there stays in the
    table, with its identity and bytes.  No two symbols of the table have the same
    bytes, and interning an equal string again answers the same symbol.  This
    holds through the growth of the table, whose nested interning of the name
    [SymbolTable] never grows it again; the one exception is a call that
    interns the name [SymbolTable] itself for the first time and grows the
    table for it, see [asSymbol_duplicates]. *)
Theorem asSymbol_interns fuel st string : symbols_ok st -> classOf (smem st) string = ClassString ->
  ~ grows_for_own_name st string ->
  exists st' sym, asSymbol (S (S fuel)) st string = Some (st', sym) /\ symbols_ok st' /\
    sym ∈ entries (SymbolTable st') /\ bytesOf (smem st') sym = bytesOf (smem st) string /\ classOf (smem st') sym = ClassSymbol /\
    (forall s, s ∈ entries (SymbolTable st) -> s ∈ entries (SymbolTable st') /\ bytesOf (smem st') s = bytesOf (smem st) s) /\
    (forall s t, s ∈ entries (SymbolTable st') -> t ∈ entries (SymbolTable st') -> bytesOf (smem st') s = bytesOf (smem st') t -> s = t) /\
    forall fuel' other, classOf (smem st') other = ClassString -> bytesOf (smem st') other = bytesOf (smem st) string ->
      asSymbol (S fuel') st' other = Some (st', sym).
Proof.
  intros O Hc Hname. destruct (counted_ok st O) as (O' & V & Em & Et & Eg).
  assert (is_Some (strings (smem st) !! string)) as Hstr by (unfold classOf in Hc; destruct (strings (smem st) !! string); [by eexists|done]).
  assert (exists st' sym, asSymbol (S (S fuel)) st string = Some (st', sym) /\ symbols_ok st' /\ symbolCountValid st' = true /\
    sym ∈ entries (SymbolTable st') /\ bytesOf (smem st') sym = bytesOf (smem st) string /\ extends (smem st) (smem st') /\
    forall s, s ∈ entries (SymbolTable st) -> s ∈ entries (SymbolTable st')) as (st' & sym & E & O2 & V2 & Hin & Hb & X & K).
  { destruct (probe_symbol (smem st) (SymbolTable st) string (sy_table _ O)) as (i & _ & [(s & Hi & Hb)|[_ Hab]]).
    - assert (s ∈ entries (SymbolTable st)) as Hs by (apply elem_of_entries; by eexists). exists (counted st), s.
      rewrite Em, Et. split; [by apply asSymbol_found|]. done.
    - destruct (asSymbol_new (S fuel) st string O Hc Hab) as (j & Va & ->).
      destruct (Nat.leb_spec (length (SymbolTable st) * 3) ((length (entries (SymbolTable st)) + 1) * 4)) as [Hg|Hg].
      + assert (bytesOf (smem st) string <> bytes_of_string "SymbolTable") as Hne.
        { intros Hn. apply Hname. split_and!; [done| |done]. intros s Hs Hb. specialize (Hab s Hs). unfold same_bytes in Hab. by apply bool_decide_eq_false in Hab. }
        destruct (growSymbolTable_ok fuel (counted st) O' V) as (st1 & name & E1 & O1 & V1 & X1 & L1 & K1 & N1 & _). rewrite Em, Et in *.
        destruct (grown_vacancy st st1 string O O1 X1 Hstr Hab Hne N1) as (k & P1 & Va1).
        rewrite E1. cbn [mbind option_bind]. rewrite P1. cbn [mbind option_bind].
        assert (bytesOf (smem st1) string = bytesOf (smem st) string) as Hb1 by (by eapply extends_bytes).
        destruct (addSymbol_ok st1 string k O1 V1 Va1 L1) as (st' & sym & E' & [I1 I2 I3 I4 I5 I6 I7 I8 I9 I10]). rewrite Hb1 in *.
        exists st', sym. split_and!; try done; [by eapply extends_trans|]. intros s Hs. by apply I4, K1.
      + destruct (addSymbol_ok (counted st) string j O' V) as (st' & sym & E' & I); [by rewrite Em, Et|rewrite Et; lia|]. rewrite Em in E'.
        destruct I as [I1 I2 I3 I4 I5 I6 I7 I8 I9 I10]. rewrite Em, Et in *. by exists st', sym. }
  exists st', sym. split; [done|]. split; [done|]. split; [done|]. split; [done|].
  assert (forall s t, s ∈ entries (SymbolTable st') -> t ∈ entries (SymbolTable st') -> bytesOf (smem st') s = bytesOf (smem st') t -> s = t) as Huniq.
  { intros s t Hs Ht Eb. apply elem_of_entries in Hs as [i Hi], Ht as [j Hj]. assert (i = j) as ->; [|congruence].
    eapply (placed_unique (bytesOf (smem st')) same_bytes symbolHash); [apply (sy_table _ O2)|done|done|]. by apply bool_decide_eq_true. }
  split; [|split; [|split; [done|]]].
  - destruct (ta_symbols _ _ (sy_table _ O2) sym Hin) as (_ & b & Hs). unfold classOf. by rewrite Hs.
  - intros s Hs. split; [by apply K|]. eapply (extends_bytes (smem st)); [done|]. eapply symbol_ok_is_Some, ta_symbols; [apply O|done].
  - intros fuel' other Hco Hbo. rewrite (asSymbol_found fuel' st' other sym O2 Hco Hin) by congruence. unfold counted. by rewrite V2.
Qed.

(** C40. Interning the name [SymbolTable] for the first time, when the table has to
    grow for it, makes two symbols with the same bytes: growing interns the
    name, and the call that grew the table then takes the next empty slot
    without comparing again. *)
Theorem asSymbol_duplicates fuel st string : symbols_ok st -> classOf (smem st) string = ClassString -> grows_for_own_name st string ->
  exists st' sym name, asSymbol (S (S fuel)) st string = Some (st', sym) /\ sym <> name /\
    sym ∈ entries (SymbolTable st') /\ name ∈ entries (SymbolTable st') /\
    bytesOf (smem st') sym = bytes_of_string "SymbolTable" /\ bytesOf (smem st') name = bytes_of_string "SymbolTable".
Proof.
  intros O Hc (Hn & Hab & Hg). destruct (counted_ok st O) as (O' & V & Em & Et & Eg).
  assert (is_Some (strings (smem st) !! string)) as Hstr by (unfold classOf in Hc; destruct (strings (smem st) !! string); [by eexists|done]).
  destruct (asSymbol_new (S fuel) st string O Hc) as (j & _ & ->); [intros s Hs; apply bool_decide_eq_false; by apply Hab|].
  rewrite (proj2 (Nat.leb_le _ _) Hg).
  destruct (growSymbolTable_ok fuel (counted st) O' V) as (st1 & name & E1 & O1 & V1 & X1 & L1 & K1 & N1 & I1 & B1). rewrite Em in *.
  rewrite E1. cbn [mbind option_bind]. destruct (free_symbol_slot (smem st1) (SymbolTable st1) (symbolHash (bytesOf (smem st) string)) (sy_table _ O1)) as (i & -> & Hi).
  cbn [mbind option_bind]. unfold addSymbol.
  destruct (newString_extends (smem st1) (mkString ClassSymbol (symbolHash (bytesOf (smem st) string)) (bytesOf (smem st1) string)) (sy_fresh _ O1)) as (E & En & Es & _ & _).
  destruct (newStringObject (smem st1) _) as [m' sym]. cbn [fst snd] in *. subst sym.
  rewrite put_Some by (by eapply lookup_lt_Some). cbn [mbind option_bind]. destruct (ta_symbols _ _ (sy_table _ O1) name I1) as [Hlt Hname].
  pose proof (entries_insert _ _ (allocations (smem st1)) Hi) as Hperm.
  eexists _, _, name. split; [done|]. cbn [smem SymbolTable]. split_and!; [lia|rewrite Hperm; by left|rewrite Hperm; by right| |].
  - unfold bytesOf at 1. rewrite Es. cbn. by rewrite (proj1 (extends_bytes (smem st) (smem st1) string X1 Hstr)).
  - rewrite <- B1. eapply extends_bytes; [exact E|]. by destruct Hname as (b & ->).
Qed.

End Symbols.

(** ** A small table *)

Module SymbolExamples.

Definition checksum (s : list Z) : Z := foldr Z.add 0%Z s.

(** Two strings, and an empty table of four slots. *)
Definition strings2 : Memory :=
  mkMemory 100 0 {[1 := mkString ClassString 0 (bytes_of_string "at:put:"); 2 := mkString ClassString 0 (bytes_of_string "at:put:")]} ∅.
Definition table4 : Symbols := mkSymbols strings2 (replicate 4 None) 90 0 false (mkDictionary (replicate 8 None) 0).

Lemma table4_ok : symbols_ok checksum table4.
Proof.
  constructor; cbn [table4 smem SymbolTable Smalltalk symbolCountValid].
  - constructor; rewrite ?length_replicate, ?entries_replicate; [by exists 2|lia|apply placed_replicate|cbn; lia|by intros s ?%elem_of_nil].
  - done.
  - constructor; cbn [contents tally]; rewrite ?length_replicate, ?entries_replicate; [by exists 3|apply placed_replicate|done|done|by intros a ?%elem_of_nil].
  - intros p [x Hx]. cbn [strings strings2] in Hx. apply lookup_insert_Some in Hx as [[<- _]|[_ Hx]]; [cbn; lia|].
    apply lookup_singleton_Some in Hx as [<- _]. cbn. lia.
Qed.

Lemma asSymbol_interns_witness : exists st' sym, asSymbol (fun _ => true) checksum 2 table4 1 = Some (st', sym) /\
  bytesOf (smem st') sym = bytes_of_string "at:put:".
Proof.
  destruct (asSymbol_interns (fun _ => true) checksum 0 table4 1 table4_ok eq_refl) as (st' & sym & E & _ & _ & B & _).
  - intros (H & _). revert H. vm_compute. discriminate.
  - exists st', sym. split; [exact E|]. rewrite B. reflexivity.
Defined.

(** Two symbols in four slots, and the string that makes the table grow. *)
Definition named_strings : Memory :=
  mkMemory 100 0 {[1 := mkString ClassSymbol (symbolHash checksum [100]%Z) [100]%Z; 2 := mkString ClassSymbol (symbolHash checksum [101]%Z) [101]%Z;
    3 := mkString ClassString 0 (bytes_of_string "SymbolTable")]} ∅.
Definition named_table : Symbols := mkSymbols named_strings [Some 1; Some 2; None; None] 90 2 true (mkDictionary (replicate 8 None) 0).

Lemma named_table_ok : symbols_ok checksum named_table.
Proof.
  constructor; cbn [named_table smem SymbolTable Smalltalk symbolCountValid].
  - constructor; [by exists 2|cbn; lia| |cbn; lia|].
    + intros i a Hi. exists 0. destruct i as [|[|[|[|]]]]; try done; injection Hi as <-; (split; [cbn; lia|split; [by vm_compute|intros e ?; lia]]).
    + intros s Hs. cbn in Hs. apply list.elem_of_cons in Hs as [->|Hs]; [|apply list.elem_of_cons in Hs as [->|Hs]; [|by apply elem_of_nil in Hs]];
        (split; [cbn; lia|by eexists]).
  - done.
  - constructor; cbn [contents tally]; rewrite ?length_replicate, ?entries_replicate; [by exists 3|apply placed_replicate|done|done|by intros a ?%elem_of_nil].
  - intros p [x Hx]. cbn [strings named_strings] in Hx. repeat (apply lookup_insert_Some in Hx as [[<- _]|[_ Hx]]; [cbn; lia|]).
    apply lookup_singleton_Some in Hx as [<- _]. cbn. lia.
Qed.

Lemma named_table_grows : grows_for_own_name named_table 3.
Proof.
  split; [done|]. split; [|by cbn; lia]. intros s Hs. cbn in Hs.
  apply list.elem_of_cons in Hs as [->|Hs]; [|apply list.elem_of_cons in Hs as [->|Hs]; [|by apply elem_of_nil in Hs]]; by vm_compute.
Qed.

Lemma asSymbol_duplicates_witness : exists st' sym name, asSymbol (fun _ => false) checksum 2 named_table 3 = Some (st', sym) /\ sym <> name /\
  bytesOf (smem st') sym = bytesOf (smem st') name.
Proof.
  destruct (asSymbol_duplicates (fun _ => false) checksum 0 named_table 3 named_table_ok eq_refl named_table_grows) as (st' & sym & name & E & D & _ & _ & B1 & B2).
  exists st', sym, name. split; [exact E|]. split; [exact D|]. exact (eq_trans B1 (eq_sym B2)).
Defined.

End SymbolExamples.
