(* ===== verification/InlineCache.v ===== *)
(** * Inline caches

    The cells of the send sites ([src/vm/jit/InlineCache.c]): a cell points to
    an immutable state; a miss, or the retirement of replaced code, publishes a
    new state by one compare-and-swap, with the superseded one chained behind
    it; the sweep at a stop of the world frees the chains.  Threads interleave
    between the load of a state and the publication; [malloc] may answer any
    address that is not in use, so a freed address can come back.

    What a miss looks up is a parameter: [valid e cell class target] says that in
    epoch [e] the code [target] is right for receivers of [class] at the send
    site of [cell].  An epoch ends with each sweep. *)
From S2P Require Import Prelude.
From stdpp Require Import base list gmap numbers functions.

#[local] Open Scope nat_scope.

(** ** Data *)

Definition IC_PIC_CAPACITY : nat := 6.

Inductive IcKind := IC_KIND_UNLINKED | IC_KIND_MONO | IC_KIND_PIC | IC_KIND_MEGA.
#[export] Instance IcKind_eq_dec : EqDecision IcKind.
Proof. solve_decision. Defined.

(** A pointer to a state: one of the two sentinels, NULL, or [malloc]ed. *)
Inductive Ptr := gIcUnlinked | gIcMega | Null | At (n : nat).
#[export] Instance Ptr_eq_dec : EqDecision Ptr.
Proof. solve_decision. Defined.

Record IcWay := mkWay { wclass : Z; wtarget : nat }.
#[export] Instance IcWay_eq_dec : EqDecision IcWay.
Proof. solve_decision. Defined.

(** [class] 0 and [target] NULL are those of the sentinels; a way that [malloc]
    left unset is [None]. *)
Record IcState := mkState {
  iclass : Z;
  itarget : option nat;
  kind : IcKind;
  isize : nat;
  prev : Ptr;
  ways : list (option IcWay) }.

Definition icAllocState (k : IcKind) (size : nat) (p : Ptr) : IcState := mkState 0 None k size p (replicate size None).

(** What a thread is about: the miss handler, the retirement of the code
    [entry], the walk of the emitted probe; [seen] is the state it loaded. *)
Inductive Activity :=
  | Idle
  | Missing (cell : nat) (current : Z) (target : nat) (seen : Ptr)
  | Retiring (cell : nat) (entry : nat) (seen : Ptr)
  | Walking (cell : nat) (receiver : Z) (seen : Ptr).

Record Config := mkConfig {
  states : gmap nat IcState;
  cells : list Ptr;
  gcEpoch : nat;
  threads : nat -> Activity }.

(** Reading a state; [None] when the address is not in use. *)
Definition deref (st : gmap nat IcState) (p : Ptr) : option IcState :=
  match p with
  | gIcUnlinked => Some (mkState 0 None IC_KIND_UNLINKED 0 Null [])
  | gIcMega => Some (mkState 0 None IC_KIND_MEGA 0 Null [])
  | Null => None
  | At n => st !! n
  end.

(** ** The code *)

(** [inlineCacheMiss], from the load on: the state to publish, if any. *)
Definition inlineCacheMiss_fresh (seen : Ptr) (s : IcState) (current : Z) (target : nat) : option IcState :=
  if bool_decide (seen = gIcUnlinked) || bool_decide (kind s = IC_KIND_UNLINKED) then
    Some (mkState current (Some target) IC_KIND_MONO 1 (if bool_decide (seen = gIcUnlinked) then Null else seen) [None])
  else
    match kind s with
    | IC_KIND_MONO =>
        if (iclass s =? current)%Z then None
        else Some (mkState (iclass s) (itarget s) IC_KIND_PIC 2 seen
                     [mkWay (iclass s) <$> itarget s; Some (mkWay current target)])
    | IC_KIND_PIC =>
        if existsb (fun w => match w with Some w => (wclass w =? current)%Z | None => false end) (ways s) then None
        else if isize s <? IC_PIC_CAPACITY then
          Some (mkState (default 0%Z (wclass <$> (ways s !! 0 ≫= id))) (wtarget <$> (ways s !! 0 ≫= id)) IC_KIND_PIC (isize s + 1) seen
                  (ways s ++ [Some (mkWay current target)]))
        else Some (icAllocState IC_KIND_MEGA 0 seen)
    | _ => None
    end.

(** [icRetireCellsTargeting], one cell from the load on. *)
Definition icRetire_fresh (seen : Ptr) (s : IcState) (entry : nat) : option IcState :=
  if bool_decide (seen = gIcUnlinked) || bool_decide (seen = gIcMega) ||
     bool_decide (kind s = IC_KIND_UNLINKED) || bool_decide (kind s = IC_KIND_MEGA) then None
  else
    let targets := match kind s with
                   | IC_KIND_MONO => bool_decide (itarget s = Some entry)
                   | _ => existsb (fun w => match w with Some w => wtarget w =? entry | None => false end) (ways s)
                   end in
    if targets then Some (icAllocState IC_KIND_UNLINKED 0 seen) else None.

(** [icPublish]: the loser frees the state it made at [n].  The counters of
    [gIcStats] are left out: they are not atomic, and nothing reads them but the
    dump at exit. *)
Definition icPublish (c : Config) (cell : nat) (expected : Ptr) (n : nat) (fresh : IcState) : Config :=
  if bool_decide (cells c !! cell = Some expected) then
    mkConfig (<[n := fresh]> (states c)) (<[cell := At n]> (cells c)) (gcEpoch c) (threads c)
  else c.

(** The loop takes at most one step per state in use. *)
Fixpoint icFreeChain (fuel : nat) (st : gmap nat IcState) (p : Ptr) : option (gmap nat IcState) :=
  match p with
  | At n =>
      match fuel with
      | 0 => None
      | S fuel => s ← st !! n; icFreeChain fuel (delete n st) (prev s)
      end
  | _ => Some st
  end.

(** [icResetNativeCodeCells], one cell. *)
Definition icResetCell (st : gmap nat IcState) (p : Ptr) : option (gmap nat IcState * Ptr) :=
  match p with
  | gIcUnlinked | gIcMega => Some (st, p)
  | _ =>
      s ← deref st p;
      st ← icFreeChain (size st) st p;
      Some (st, if bool_decide (kind s = IC_KIND_MEGA) then gIcMega else gIcUnlinked)
  end.

Fixpoint icResetCells (st : gmap nat IcState) (l : list Ptr) : option (gmap nat IcState * list Ptr) :=
  match l with
  | [] => Some (st, [])
  | p :: l =>
      '(st, p) ← icResetCell st p;
      '(st, l) ← icResetCells st l;
      Some (st, p :: l)
  end.

(** The sweep over all code, at a stop of the world. *)
Definition icReset (c : Config) : option Config :=
  '(st, l) ← icResetCells (states c) (cells c);
  Some (mkConfig st l (S (gcEpoch c)) (threads c)).

(** The emitted probe: the pair in the header, then the ways. *)
Definition icHit (s : IcState) (receiver : Z) : option nat :=
  if (iclass s =? receiver)%Z then itarget s
  else match kind s with
       | IC_KIND_PIC => wtarget <$> (head (filter (fun w => wclass w = receiver) (omap id (ways s))))
       | _ => None
       end.

Definition set_thread (c : Config) (t : nat) (a : Activity) : Config :=
  mkConfig (states c) (cells c) (gcEpoch c) (<[t := a]> (threads c)).

Definition publish (c : Config) (cell : nat) (seen : Ptr) (n : nat) (fresh : option IcState) : Config :=
  match fresh with Some fresh => icPublish c cell seen n fresh | None => c end.

Section Steps.
Context (valid : nat -> nat -> Z -> nat -> Prop).

Inductive step : Config -> Config -> Prop :=
  | step_cell c : step c (mkConfig (states c) (cells c ++ [gIcUnlinked]) (gcEpoch c) (threads c))
  | step_walk c t cell receiver seen : threads c t = Idle -> cells c !! cell = Some seen ->
      step c (set_thread c t (Walking cell receiver seen))
  | step_walked c t cell receiver seen : threads c t = Walking cell receiver seen -> step c (set_thread c t Idle)
  | step_miss c t cell current target seen : threads c t = Idle -> cells c !! cell = Some seen ->
      current <> 0%Z -> valid (gcEpoch c) cell current target -> step c (set_thread c t (Missing cell current target seen))
  | step_bind c t cell current target seen s n : threads c t = Missing cell current target seen ->
      deref (states c) seen = Some s -> states c !! n = None ->
      step c (set_thread (publish c cell seen n (inlineCacheMiss_fresh seen s current target)) t Idle)
  | step_retire c t cell entry seen : threads c t = Idle -> cells c !! cell = Some seen ->
      step c (set_thread c t (Retiring cell entry seen))
  | step_retired c t cell entry seen s n : threads c t = Retiring cell entry seen ->
      deref (states c) seen = Some s -> states c !! n = None ->
      step c (set_thread (publish c cell seen n (icRetire_fresh seen s entry)) t Idle)
  | step_sweep c c' : (forall t, threads c t = Idle) -> icReset c = Some c' -> step c c'.

Definition initial (c : Config) : Prop := states c = ∅ /\ cells c = [] /\ forall t, threads c t = Idle.

Inductive reachable : Config -> Prop :=
  | reach_initial c : initial c -> reachable c
  | reach_step c c' : reachable c -> step c c' -> reachable c'.

(** ** Well-formed states *)

Definition way_ok (e cell : nat) (w : IcWay) : Prop := wclass w <> 0%Z /\ valid e cell (wclass w) (wtarget w).

(** The pairs of a state are right for its cell, the classes of a [pic] differ,
    and its first way is in the header. *)
Definition state_ok (e cell : nat) (s : IcState) : Prop :=
  match kind s with
  | IC_KIND_MONO => isize s = 1 /\ exists t, itarget s = Some t /\ way_ok e cell (mkWay (iclass s) t)
  | IC_KIND_PIC => exists w ws, ways s = Some <$> (w :: ws) /\ isize s = length (w :: ws) /\ 1 <= length ws < IC_PIC_CAPACITY /\
      NoDup (wclass <$> (w :: ws)) /\ Forall (way_ok e cell) (w :: ws) /\ iclass s = wclass w /\ itarget s = Some (wtarget w)
  | _ => iclass s = 0%Z /\ isize s = 0
  end.

Lemma omap_Some (l : list IcWay) : omap id (Some <$> l) = l.
Proof. induction l as [|w l IH]; [done|]. cbn. by f_equal. Qed.

Lemma icHit_ok e cell s r t : state_ok e cell s -> r <> 0%Z -> icHit s r = Some t -> valid e cell r t.
Proof.
  intros O Hr. unfold icHit, state_ok in *. destruct (Z.eqb_spec (iclass s) r) as [<-|Hne]; destruct (kind s); try done.
  - naive_solver.
  - destruct O as (_ & x & Hx & [_ V]). rewrite Hx. intros [= <-]. done.
  - destruct O as (w & ws & _ & _ & _ & _ & F & Hc & Ht). rewrite Ht. intros [= <-]. rewrite Hc. apply list.Forall_cons in F as [[_ V] _]. done.
  - naive_solver.
  - destruct O as (w & ws & Hw & _ & _ & _ & F & _). rewrite Hw.
    rewrite omap_Some.
    destruct (filter _ (w :: ws)) as [|x l] eqn:E; [done|]. cbn. intros [= <-].
    assert (x ∈ x :: l) as Hx by left. rewrite <- E in Hx. apply list_elem_of_filter in Hx as [<- Hx].
    rewrite list.Forall_forall in F. apply (F x Hx).
Qed.

Lemma existsb_ways (f : IcWay -> bool) ws : existsb (fun w => match w with Some w => f w | None => false end) (Some <$> ws) = existsb f ws.
Proof. induction ws as [|w ws IH]; cbn; [done|]. by rewrite IH. Qed.

(** What the handler publishes is right, and has the state it supersedes behind it. *)
Lemma miss_fresh_ok e cell seen s current target fresh : state_ok e cell s -> current <> 0%Z -> valid e cell current target ->
  inlineCacheMiss_fresh seen s current target = Some fresh ->
  state_ok e cell fresh /\ kind fresh <> IC_KIND_UNLINKED /\ prev fresh = (if bool_decide (seen = gIcUnlinked) then Null else seen).
Proof.
  intros O Hc V. unfold inlineCacheMiss_fresh. destruct (bool_decide (seen = gIcUnlinked) || bool_decide (kind s = IC_KIND_UNLINKED)) eqn:E.
  - intros [= <-]. split; [|done]. split; [done|]. by exists target.
  - apply orb_false_iff in E as [-> _]. unfold state_ok in O. destruct (kind s) eqn:K; try done.
    + destruct O as (_ & x & Hx & Wx). destruct (Z.eqb_spec (iclass s) current) as [|Hne]; [done|]. intros [= <-]. split; [|done].
      exists (mkWay (iclass s) x), [mkWay current target]. cbn. rewrite Hx. split_and!; try done; try (unfold IC_PIC_CAPACITY; lia).
      * apply list.NoDup_cons. split; [|apply list.NoDup_singleton]. intros ?%list_elem_of_singleton. done.
      * apply list.Forall_cons. split; [done|]. by apply list.Forall_singleton.
    + destruct O as (w & ws & Hw & Hs & Hl & N & F & Hcl & Ht). rewrite Hw, existsb_ways. destruct (existsb _ (w :: ws)) eqn:Ex; [done|].
      destruct (Nat.ltb_spec (isize s) IC_PIC_CAPACITY) as [Hlt|Hge].
      * intros [= <-]. split; [|done]. exists w, (ws ++ [mkWay current target]). cbn [kind ways isize iclass itarget]. split_and!.
        -- cbn. by rewrite fmap_app.
        -- rewrite Hs. cbn. rewrite length_app. cbn. lia.
        -- rewrite length_app. cbn. lia.
        -- rewrite length_app. cbn. rewrite Hs in Hlt. cbn in Hlt. lia.
        -- rewrite app_comm_cons, fmap_app. apply list.NoDup_app. split_and!; [done| |apply list.NoDup_singleton].
           intros x Hx Hx'%list_elem_of_singleton. apply list_elem_of_fmap in Hx as (v & Ev & Hv). cbn in Hx'.
           assert (existsb (fun w => (wclass w =? current)%Z) (w :: ws) = true) as H; [|congruence].
           apply existsb_exists. exists v. split; [by apply list_elem_of_In|apply Z.eqb_eq; congruence].
        -- rewrite app_comm_cons. apply list.Forall_app. split; [done|]. by apply list.Forall_singleton.
        -- done.
        -- done.
      * intros [= <-]. done.
Qed.

Lemma retire_fresh_ok e cell seen s entry fresh : icRetire_fresh seen s entry = Some fresh ->
  state_ok e cell fresh /\ seen <> gIcUnlinked /\ seen <> gIcMega /\ prev fresh = seen.
Proof.
  unfold icRetire_fresh. destruct (_ || _) eqn:E; [done|]. apply orb_false_iff in E as [E _]. apply orb_false_iff in E as [E _].
  apply orb_false_iff in E as [E1 E2]. apply bool_decide_eq_false in E1, E2. destruct (match kind s with IC_KIND_MONO => _ | _ => _ end); [|done].
  intros [= <-]. done.
Qed.

(** ** Who owns which state *)

(** The states that [icFreeChain] frees from [p] on. *)
Inductive is_chain (st : gmap nat IcState) : Ptr -> list nat -> Prop :=
  | chain_end p : (forall n, p <> At n) -> is_chain st p []
  | chain_state n s l : st !! n = Some s -> is_chain st (prev s) l -> is_chain st (At n) (n :: l).

(** The thread holds a state of the cell's chain, or a sentinel. *)
Definition held (own : list (list nat)) (cell : nat) (seen : Ptr) : Prop :=
  exists l, own !! cell = Some l /\ match seen with At n => n ∈ l | Null => False | _ => True end.

Definition activity_ok (e : nat) (own : list (list nat)) (a : Activity) : Prop :=
  match a with
  | Idle => True
  | Missing cell current target seen => held own cell seen /\ current <> 0%Z /\ valid e cell current target
  | Retiring cell _ seen | Walking cell _ seen => held own cell seen
  end.

(** The chains of the cells are disjoint and hold every state in use. *)
Record inv (c : Config) (own : list (list nat)) : Prop := {
  i_chains : Forall2 (is_chain (states c)) (cells c) own;
  i_nodup : NoDup (concat own);
  i_all : forall n, n ∈ concat own <-> is_Some (states c !! n);
  i_states : forall i l n, own !! i = Some l -> n ∈ l -> exists s, states c !! n = Some s /\ state_ok (gcEpoch c) i s;
  i_cells : forall i, cells c !! i <> Some Null;
  i_threads : forall t, activity_ok (gcEpoch c) own (threads c t) }.

Lemma is_chain_insert st p l n s : st !! n = None -> is_chain st p l -> is_chain (<[n := s]> st) p l.
Proof.
  intros Hn H. induction H as [p Hp|m x l Hm _ IH]; [by constructor|]. apply (chain_state _ m x); [|done].
  rewrite lookup_insert_ne; [done|]. intros ->. congruence.
Qed.

Lemma is_chain_in st p l n : is_chain st p l -> n ∈ l -> is_Some (st !! n).
Proof. induction 1 as [p Hp|m x l Hm _ IH]; intros Hn; [by apply elem_of_nil in Hn|]. apply list.elem_of_cons in Hn as [->|Hn]; [by eexists|auto]. Qed.

Lemma is_chain_delete st p l n : n ∉ l -> is_chain st p l -> is_chain (delete n st) p l.
Proof.
  intros Hn H. induction H as [p Hp|m x l Hm _ IH]; [by constructor|]. apply not_elem_of_cons in Hn as [Hne Hn].
  apply (chain_state _ m x); [by rewrite lookup_delete_ne|auto].
Qed.

Lemma concat_insert (own : list (list nat)) i l n : own !! i = Some l -> concat (<[i := n :: l]> own) ≡ₚ n :: concat own.
Proof.
  revert i. induction own as [|k own IH]; intros [|i] Hi; cbn in Hi; simplify_eq; cbn; [done|].
  rewrite (IH i Hi). by rewrite Permutation_middle.
Qed.

Lemma elem_of_concat_lookup (own : list (list nat)) i l n : own !! i = Some l -> n ∈ l -> n ∈ concat own.
Proof.
  intros Hi Hn. apply list_elem_of_In, in_concat. exists l. split; [apply list_elem_of_In; by eapply list_elem_of_lookup_2|by apply list_elem_of_In].
Qed.

Lemma held_insert own cell seen i l n : own !! i = Some l -> held own cell seen -> held (<[i := n :: l]> own) cell seen.
Proof.
  intros Hi (k & Hk & H). destruct (decide (cell = i)) as [->|Hne].
  - assert (k = l) as -> by congruence. exists (n :: l). split; [apply list_lookup_insert_eq; by eapply lookup_lt_Some|]. destruct seen; try done. by right.
  - exists k. by rewrite list_lookup_insert_ne.
Qed.

(** A compare-and-swap that wins. *)
Lemma publish_inv c own cell seen n fresh l : inv c own -> cells c !! cell = Some seen -> own !! cell = Some l -> states c !! n = None ->
  state_ok (gcEpoch c) cell fresh -> is_chain (states c) (prev fresh) l ->
  inv (mkConfig (<[n := fresh]> (states c)) (<[cell := At n]> (cells c)) (gcEpoch c) (threads c))
    (<[cell := n :: l]> own).
Proof.
  intros [I1 I2 I3 I4 I5 I7] Hc Hl Hn Hf Hp. pose proof (concat_insert own cell l n Hl) as Hperm.
  assert (n ∉ concat own) as Hnew by (intros [s Hs]%I3; congruence). constructor; cbn.
  - apply Forall2_insert; [|apply (chain_state _ n fresh); [by rewrite lookup_insert_eq|by apply is_chain_insert]].
    eapply list.Forall2_impl; [exact I1|]. intros p k Hk. by apply is_chain_insert.
  - rewrite Hperm. by apply list.NoDup_cons.
  - intros m. rewrite Hperm, list.elem_of_cons, I3. destruct (decide (m = n)) as [->|Hne]; [rewrite lookup_insert_eq; naive_solver|].
    rewrite lookup_insert_ne by done. naive_solver.
  - intros i k m Hi Hm. destruct (decide (m = n)) as [->|Hmn].
    + exists fresh. rewrite lookup_insert_eq. split; [done|]. destruct (decide (i = cell)) as [->|Hne]; [done|].
      rewrite list_lookup_insert_ne in Hi by done. destruct Hnew. by eapply elem_of_concat_lookup.
    + rewrite lookup_insert_ne by done. destruct (decide (i = cell)) as [->|Hne].
      * rewrite list_lookup_insert_eq in Hi by (by eapply lookup_lt_Some). simplify_eq. apply list.elem_of_cons in Hm as [?|Hm]; [done|]. by eapply I4.
      * rewrite list_lookup_insert_ne in Hi by done. by eapply I4.
  - intros i. destruct (decide (i = cell)) as [->|Hne]; [|by rewrite list_lookup_insert_ne].
    rewrite list_lookup_insert_eq; [done|]. by eapply lookup_lt_Some.
  - intros t. specialize (I7 t). destruct (threads c t); cbn in *; [done| |by apply held_insert..]. destruct I7 as (? & ? & ?). split_and!; [by apply held_insert|done|done].
Qed.

Lemma set_thread_inv c own t a : inv c own -> activity_ok (gcEpoch c) own a -> inv (set_thread c t a) own.
Proof.
  intros [] Ha. constructor; cbn; try done. intros t'. destruct (decide (t' = t)) as [->|Hne]; [by rewrite fn_lookup_insert|by rewrite fn_lookup_insert_ne].
Qed.

Lemma cell_chain c own cell seen : inv c own -> cells c !! cell = Some seen -> exists l, own !! cell = Some l /\ is_chain (states c) seen l /\ held own cell seen.
Proof.
  intros I Hc. destruct (Forall2_lookup_l _ _ _ _ _ (i_chains _ _ I) Hc) as (l & Hl & H). exists l. split_and!; [done|done|]. exists l. split; [done|].
  destruct seen; try done; [by apply (i_cells _ _ I cell)|]. inversion H; simplify_eq; [naive_solver|by left].
Qed.

(** A state that a thread holds is there, and right. *)
Lemma held_ok c own cell seen : inv c own -> held own cell seen -> exists s, deref (states c) seen = Some s /\ state_ok (gcEpoch c) cell s.
Proof.
  intros I (l & Hl & H). destruct seen; cbn; [by eexists|by eexists|done|]. by eapply i_states.
Qed.

Lemma publish_step_inv c own cell seen n fresh : inv c own -> states c !! n = None -> cells c !! cell <> Some Null ->
  (forall f, fresh = Some f -> state_ok (gcEpoch c) cell f /\ seen <> gIcMega /\ prev f = (if bool_decide (seen = gIcUnlinked) then Null else seen)) ->
  exists own', inv (publish c cell seen n fresh) own' /\ gcEpoch (publish c cell seen n fresh) = gcEpoch c.
Proof.
  intros I Hn Hnull Hf. unfold publish. destruct fresh as [f|]; [|by exists own]. unfold icPublish.
  destruct (bool_decide (cells c !! cell = Some seen)) eqn:Hc; [apply bool_decide_eq_true in Hc|by exists own].
  destruct (Hf f eq_refl) as (Ok & Hm & Hp). destruct (cell_chain c own cell seen I Hc) as (l & Hl & Hch & _).
  exists (<[cell := n :: l]> own). split; [|done]. apply (publish_inv c own cell seen); try done. rewrite Hp. case_bool_decide as Hs; [|done].
  subst seen. inversion Hch; simplify_eq. by constructor.
Qed.

(** ** The sweep *)

Fixpoint remove (l : list nat) (st : gmap nat IcState) : gmap nat IcState :=
  match l with [] => st | n :: l => remove l (delete n st) end.

Lemma remove_lookup l st n : remove l st !! n = if bool_decide (n ∈ l) then None else st !! n.
Proof.
  revert st. induction l as [|m l IH]; intros st; cbn; [by rewrite bool_decide_false by (by apply not_elem_of_nil)|].
  rewrite IH. destruct (decide (n = m)) as [->|Hne].
  - rewrite (bool_decide_true (m ∈ m :: l)) by (by left). rewrite lookup_delete_eq. by case_bool_decide.
  - rewrite lookup_delete_ne by done. rewrite (bool_decide_ext (n ∈ m :: l) (n ∈ l)); [done|]. rewrite list.elem_of_cons. naive_solver.
Qed.

Lemma remove_app l l' st : remove (l ++ l') st = remove l' (remove l st).
Proof. revert st. induction l as [|n l IH]; intros st; [done|]. apply IH. Qed.

Lemma is_chain_remove st p l k : (forall n, n ∈ k -> n ∉ l) -> is_chain st p l -> is_chain (remove k st) p l.
Proof.
  revert st. induction k as [|n k IH]; intros st Hd H; [done|]. cbn. apply IH; [intros m Hm; apply Hd; by right|].
  apply is_chain_delete; [apply Hd; by left|done].
Qed.

(** Every state of the chain is freed once. *)
Lemma icFreeChain_ok fuel st p l : is_chain st p l -> NoDup l -> length l <= fuel -> icFreeChain fuel st p = Some (remove l st).
Proof.
  revert st p l. induction fuel as [|fuel IH]; intros st p l H; inversion H as [q Hq|n s k Hs Hk]; subst; intros Hn Hl.
  - by destruct p; try done; destruct (Hq n).
  - cbn in Hl. lia.
  - by destruct p; try done; destruct (Hq n).
  - cbn [icFreeChain]. rewrite Hs. cbn [mbind option_bind]. apply list.NoDup_cons in Hn as [Hn Hd]. cbn in Hl.
    by rewrite (IH _ _ k); [|by apply is_chain_delete|done|lia].
Qed.

Lemma chain_fits st p l : is_chain st p l -> NoDup l -> length l <= size st.
Proof.
  intros H Hn. assert (list_to_set l ⊆ dom st) as Hs.
  { intros n Hin. apply elem_of_list_to_set in Hin. apply elem_of_dom. by eapply is_chain_in. }
  apply subseteq_size in Hs. by rewrite size_list_to_set, size_dom in Hs.
Qed.

(** What the sweep leaves in a cell. *)
Definition swept (st : gmap nat IcState) (p : Ptr) : Ptr :=
  if bool_decide (kind <$> deref st p = Some IC_KIND_MEGA) then gIcMega else gIcUnlinked.

Lemma icResetCell_ok st p l : is_chain st p l -> NoDup l -> p <> Null ->
  icResetCell st p = Some (remove l st, swept st p).
Proof.
  intros H Hn Hp. unfold icResetCell, swept. destruct p as [| | |n]; try done.
  - by inversion H; subst.
  - by inversion H; subst.
  - inversion H as [q Hq|n' s k Hs Hk]; subst; [by destruct (Hq n)|]. cbn [deref]. rewrite Hs. cbn [mbind option_bind].
    rewrite (icFreeChain_ok (size st) st (At n) (n :: k) H Hn) by (by apply (chain_fits st (At n))). cbn [mbind option_bind].
    rewrite (bool_decide_ext (kind <$> Some s = Some IC_KIND_MEGA) (kind s = IC_KIND_MEGA)); [done|]. split; [by intros [=]|by cbn; intros ->].
Qed.

Lemma icResetCells_ok st ps own : Forall2 (is_chain st) ps own -> NoDup (concat own) -> (forall i, ps !! i <> Some Null) ->
  icResetCells st ps = Some (remove (concat own) st, swept st <$> ps).
Proof.
  intros H. revert st own H. induction ps as [|p ps IH]; intros st own H Hn Hp; inversion H as [|? l ? own' Hl Hrest]; subst; cbn [concat] in *.
  - done.
  - apply list.NoDup_app in Hn as (N1 & N2 & N3). cbn [icResetCells]. rewrite (icResetCell_ok st p l Hl N1) by (intros ->; by apply (Hp 0)).
    cbn [mbind option_bind].
    assert (Forall2 (is_chain (remove l st)) ps own') as H'.
    { apply Forall2_same_length_lookup. split; [by eapply Forall2_length|]. intros i q k Hq Hk. apply is_chain_remove.
      - intros n Hn Hk'. apply (N2 n Hn). by eapply elem_of_concat_lookup.
      - by eapply Forall2_lookup_lr. }
    rewrite (IH _ _ H' N3) by (intros i; apply (Hp (S i))). cbn [mbind option_bind]. rewrite remove_app. cbn [fmap list_fmap].
    assert (swept (remove l st) <$> ps = swept st <$> ps) as ->.
    { apply list_eq. intros i. rewrite !list_lookup_fmap. destruct (ps !! i) as [q|] eqn:Hq; [|done]. cbn. f_equal. unfold swept.
      destruct q as [| | |n]; try done. cbn [deref]. rewrite remove_lookup, (bool_decide_false (n ∈ l)); [done|].
      destruct (Forall2_lookup_l _ _ _ _ _ Hrest Hq) as (k & Hk & Hc). intros Hn. apply (N2 n Hn). eapply elem_of_concat_lookup; [exact Hk|].
      inversion Hc; simplify_eq; [naive_solver|by left]. }
    done.
Qed.

Lemma icReset_ok c own : inv c own -> (forall t, threads c t = Idle) ->
  icReset c = Some (mkConfig ∅ (swept (states c) <$> cells c) (S (gcEpoch c)) (threads c)).
Proof.
  intros [I1 I2 I3 I4 I5 I7] Hidle. unfold icReset. rewrite (icResetCells_ok _ _ own I1 I2 I5). cbn [mbind option_bind].
  do 2 f_equal. apply map_eq. intros n. rewrite remove_lookup, lookup_empty. case_bool_decide as Hn; [done|].
  destruct (states c !! n) eqn:E; [|done]. destruct Hn. apply I3. by eexists.
Qed.

Lemma swept_inv c own : inv c own -> (forall t, threads c t = Idle) ->
  inv (mkConfig ∅ (swept (states c) <$> cells c) (S (gcEpoch c)) (threads c)) (replicate (length (cells c)) []).
Proof.
  intros I Hidle. assert (forall n, concat (replicate n (@nil nat)) = []) as Hc by (induction n; done).
  assert (forall st p m, swept st p <> At m /\ swept st p <> Null) as Hs by (intros; unfold swept; by case_bool_decide).
  constructor; cbn; rewrite ?Hc; try done.
  - apply Forall2_same_length_lookup. split; [by rewrite length_fmap, length_replicate|]. intros i p l Hp Hl.
    apply lookup_replicate_1 in Hl as [-> _]. apply list_lookup_fmap_Some in Hp as (q & -> & _). constructor. intros n. by apply Hs.
  - apply NoDup_nil_2.
  - intros n. split; [by intros ?%elem_of_nil|]. rewrite lookup_empty. by intros [? ?].
  - intros i l n Hl Hn. apply lookup_replicate_1 in Hl as [-> _]. by apply elem_of_nil in Hn.
  - intros i Hi. apply list_lookup_fmap_Some in Hi as (q & Hq & _). by destruct (Hs (states c) q 0) as [_ []].
  - intros t. by rewrite Hidle.
Qed.

(** A new send site. *)
Lemma cell_inv c own : inv c own ->
  inv (mkConfig (states c) (cells c ++ [gIcUnlinked]) (gcEpoch c) (threads c)) (own ++ [[]]).
Proof.
  intros [I1 I2 I3 I4 I5 I7]. assert (concat (own ++ [[]]) = concat own) as Hc by (rewrite concat_app; cbn; apply app_nil_r).
  assert (forall cell seen, held own cell seen -> held (own ++ [[]]) cell seen) as Hh.
  { intros cell seen (l & Hl & H). exists l. split; [by apply lookup_app_l_Some|done]. }
  constructor; cbn; rewrite ?Hc; try done.
  - apply Forall2_app; [done|]. constructor; [|constructor]. by constructor.
  - intros i l n Hl Hn. apply lookup_app_Some in Hl as [Hl|[_ Hl]]; [by eapply I4|]. apply list_lookup_singleton_Some in Hl as [_ <-]. by apply elem_of_nil in Hn.
  - intros i Hi. apply lookup_app_Some in Hi as [Hi|[_ Hi]]; [by apply (I5 i)|]. by apply list_lookup_singleton_Some in Hi as [_ ?].
  - intros t. specialize (I7 t). destruct (threads c t); cbn in *; naive_solver.
Qed.

Lemma ic_step_inv c c' own : inv c own -> step c c' -> exists own', inv c' own'.
Proof.
  intros I H. destruct H as [c|c t cell r seen Ht Hc|c t cell r seen Ht|c t cell cur tgt seen Ht Hc Hz Hv|c t cell cur tgt seen s n Ht Hs Hn
    |c t cell entry seen Ht Hc|c t cell entry seen s n Ht Hs Hn|c c' Hidle E].
  - eexists. by apply cell_inv.
  - exists own. apply set_thread_inv; [done|]. by destruct (cell_chain c own cell seen I Hc) as (l & _ & _ & ?).
  - exists own. by apply set_thread_inv.
  - exists own. apply set_thread_inv; [done|]. by destruct (cell_chain c own cell seen I Hc) as (l & _ & _ & ?).
  - pose proof (i_threads _ _ I t) as A. rewrite Ht in A. destruct A as (Hh & Hz & Hv). destruct (held_ok c own cell seen I Hh) as (s' & Hs' & Ok).
    assert (s' = s) as -> by congruence.
    destruct (publish_step_inv c own cell seen n (inlineCacheMiss_fresh seen s cur tgt) I Hn (i_cells _ _ I cell)) as (own' & I' & _).
    + intros f Hf. destruct (miss_fresh_ok _ _ _ _ _ _ _ Ok Hz Hv Hf) as (? & _ & ?). split_and!; [done| |done].
      intros ->. cbn in Hs. injection Hs as <-. done.
    + exists own'. by apply set_thread_inv.
  - exists own. apply set_thread_inv; [done|]. by destruct (cell_chain c own cell seen I Hc) as (l & _ & _ & ?).
  - destruct (publish_step_inv c own cell seen n (icRetire_fresh seen s entry) I Hn (i_cells _ _ I cell)) as (own' & I' & _).
    + intros f Hf. destruct (retire_fresh_ok (gcEpoch c) cell _ _ _ _ Hf) as (? & ? & ? & ?). split_and!; [done|done|]. by rewrite bool_decide_false.
    + exists own'. by apply set_thread_inv.
  - rewrite (icReset_ok c own I Hidle) in E. injection E as <-. eexists. by eapply swept_inv.
Qed.

Lemma ic_reachable_inv c : reachable c -> exists own, inv c own.
Proof.
  induction 1 as [c (Hs & Hc & Ht)|c c' _ [own I] S]; [|by eapply ic_step_inv].
  exists []. constructor; rewrite ?Hs, ?Hc; try done.
  - constructor.
  - intros n. split; [by intros ?%elem_of_nil|]. rewrite lookup_empty. by intros [? ?].
  - intros t. by rewrite Ht.
Qed.

(** ** Theorems *)

(** C8. A send never runs code that is wrong for its receiver: in every
    interleaving of misses, retirements, walks and sweeps, the state that a
    probe has loaded is still in memory when it is read, and if it hits on the
    class of the receiver, the target is right for that class at that site.  The
    same holds for every state a handler is about to supersede. *)
Theorem inline_cache_sound c t : reachable c ->
  match threads c t with
  | Idle => True
  | Walking cell receiver seen => exists s, deref (states c) seen = Some s /\
      forall target, receiver <> 0%Z -> icHit s receiver = Some target -> valid (gcEpoch c) cell receiver target
  | Missing cell _ _ seen | Retiring cell _ seen => exists s, deref (states c) seen = Some s /\
      forall class target, class <> 0%Z -> icHit s class = Some target -> valid (gcEpoch c) cell class target
  end.
Proof.
  intros R. destruct (ic_reachable_inv c R) as [own I]. pose proof (i_threads _ _ I t) as A. destruct (threads c t) as [|cell cur tgt seen|cell entry seen|cell r seen]; [done|..].
  - destruct (held_ok c own cell seen I (proj1 A)) as (s & Hs & Ok). exists s. split; [done|]. intros class target Hz. by apply icHit_ok.
  - destruct (held_ok c own cell seen I A) as (s & Hs & Ok). exists s. split; [done|]. intros class target Hz. by apply icHit_ok.
  - destruct (held_ok c own cell seen I A) as (s & Hs & Ok). exists s. split; [done|]. intros target Hz. by apply icHit_ok.
Qed.

(** The sweep at a stop of the world frees every state exactly once: it never
    reads an address that is not in use, leaves no state behind, returns every cell to the unlinked sentinel, and leaves
    the megamorphic cells megamorphic. *)
Theorem icReset_frees_all c : reachable c -> (forall t, threads c t = Idle) ->
  exists c', icReset c = Some c' /\ states c' = ∅ /\ length (cells c') = length (cells c) /\
    forall i p, cells c !! i = Some p ->
      cells c' !! i = Some (if bool_decide (kind <$> deref (states c) p = Some IC_KIND_MEGA) then gIcMega else gIcUnlinked).
Proof.
  intros R Hidle. destruct (ic_reachable_inv c R) as [own I]. eexists. split; [by eapply icReset_ok|]. cbn. split_and!; [done|by rewrite length_fmap|].
  intros i p Hi. by rewrite list_lookup_fmap, Hi.
Qed.

(** A megamorphic site stays megamorphic, whatever happens to its cell. *)
Theorem mega_is_permanent c c' i p : reachable c -> step c c' -> cells c !! i = Some p -> kind <$> deref (states c) p = Some IC_KIND_MEGA ->
  exists p', cells c' !! i = Some p' /\ kind <$> deref (states c') p' = Some IC_KIND_MEGA.
Proof.
  intros R H Hi Hk. destruct (ic_reachable_inv c R) as [own I].
  assert (forall cell seen n fresh, states c !! n = None -> (seen = p -> fresh = None) ->
    exists p', cells (publish c cell seen n fresh) !! i = Some p' /\ kind <$> deref (states (publish c cell seen n fresh)) p' = Some IC_KIND_MEGA) as Hpub.
  { intros cell seen n fresh Hn Hf. unfold publish. destruct fresh as [f|]; [|by exists p]. unfold icPublish.
    destruct (bool_decide (cells c !! cell = Some seen)) eqn:Hc; [apply bool_decide_eq_true in Hc|by exists p]. cbn.
    destruct (decide (i = cell)) as [->|Hne]; [assert (seen = p) as Hs by congruence; by specialize (Hf Hs)|].
    exists p. rewrite list_lookup_insert_ne by done. split; [done|]. destruct p as [| | |m]; try done. cbn in *. rewrite lookup_insert_ne; [done|]. by intros ->; rewrite Hn in Hk. }
  destruct H as [c|c t cell r seen Ht Hc|c t cell r seen Ht|c t cell cur tgt seen Ht Hc Hz Hv|c t cell cur tgt seen s n Ht Hs Hn
    |c t cell entry seen Ht Hc|c t cell entry seen s n Ht Hs Hn|c c' Hidle E]; try (by exists p).
  - exists p. cbn. split; [by apply lookup_app_l_Some|done].
  - apply Hpub; [done|]. intros ->. rewrite Hs in Hk. cbn in Hk. injection Hk as Hk. unfold inlineCacheMiss_fresh. rewrite Hk.
    rewrite bool_decide_false; [done|]. intros ->. cbn in Hs. injection Hs as <-. done.
  - apply Hpub; [done|]. intros ->. rewrite Hs in Hk. cbn in Hk. injection Hk as Hk. unfold icRetire_fresh. rewrite Hk. by rewrite !orb_true_r.
  - rewrite (icReset_ok c own I Hidle) in E. injection E as <-. cbn. rewrite list_lookup_fmap, Hi. cbn. eexists. split; [done|]. unfold swept. by rewrite bool_decide_true.
Qed.

End Steps.

(** ** One send site *)

Module InlineCacheExamples.

(** The code [n] is for class [n + 1]. *)
Definition right_code (e cell : nat) (class : Z) (target : nat) : Prop := class = (Z.of_nat target + 1)%Z.

Definition site : Config := mkConfig ∅ [gIcUnlinked] 0 (fun _ => Idle).

Lemma site_reachable : reachable right_code site.
Proof. apply (reach_step _ (mkConfig ∅ [] 0 (fun _ => Idle))); [by apply reach_initial|]. apply (step_cell _ (mkConfig ∅ [] 0 (fun _ => Idle))). Qed.

(** Thread 0 misses at the site on class [k + 1]; [malloc] answers [k]. *)
Definition miss (c : Config) (k : nat) : Config :=
  match cells c !! 0 with
  | None => c
  | Some seen =>
      match deref (states c) seen with
      | None => c
      | Some s =>
          let c := set_thread c 0 (Missing 0 (Z.of_nat k + 1) k seen) in
          set_thread (publish c 0 seen k (inlineCacheMiss_fresh seen s (Z.of_nat k + 1) k)) 0 Idle
      end
  end.

Lemma miss_reachable c k : reachable right_code c -> threads c 0 = Idle -> states c !! k = None -> reachable right_code (miss c k).
Proof.
  intros R Ht Hk. unfold miss. destruct (cells c !! 0) as [seen|] eqn:Hc; [|done]. destruct (deref (states c) seen) as [s|] eqn:Hs; [|done].
  eapply reach_step; [|eapply step_bind; [apply fn_lookup_insert|done|done]]. eapply reach_step; [exact R|].
  apply (step_miss right_code c 0 0 (Z.of_nat k + 1) k seen Ht Hc); [lia|done].
Qed.

Definition misses (n : nat) : Config := foldl miss site (seq 0 n).

Lemma misses_S n : misses (S n) = miss (misses n) n.
Proof. unfold misses. rewrite seq_S, foldl_app. done. Qed.

Lemma misses_reachable n : (forall k, k < n -> threads (misses k) 0 = Idle /\ states (misses k) !! k = None) -> reachable right_code (misses n).
Proof.
  induction n as [|n IH]; intros H; [exact site_reachable|]. rewrite misses_S. destruct (H n ltac:(lia)).
  apply miss_reachable; [apply IH; intros; apply H; lia|done|done].
Qed.

Lemma misses_8 n : n <= 8 -> reachable right_code (misses n).
Proof. intros Hn. apply misses_reachable. intros k Hk. do 8 (destruct k as [|k]; [split; vm_compute; reflexivity|]). lia. Qed.

(** Three classes, then a walk for the second one. *)
Lemma inline_cache_sound_witness : exists s, deref (states (misses 3)) (At 2) = Some s /\ icHit s 2 = Some 1 /\ right_code 0 0 2 1.
Proof.
  assert (reachable right_code (set_thread (misses 3) 1 (Walking 0 2 (At 2)))) as R.
  { eapply reach_step; [apply (misses_8 3); lia|]. apply step_walk; vm_compute; reflexivity. }
  pose proof (inline_cache_sound right_code (set_thread (misses 3) 1 (Walking 0 2 (At 2))) 1 R) as H. cbn [set_thread threads] in H.
  rewrite fn_lookup_insert in H. destruct H as (s & Hs & H). exists s. split; [exact Hs|].
  assert (icHit s 2 = Some 1) as Hit by (vm_compute in Hs; injection Hs as <-; reflexivity). split; [exact Hit|]. apply H; [lia|exact Hit].
Defined.

Lemma idle_threads n t : threads (misses n) t = Idle.
Proof.
  induction n as [|n IH]; [done|]. rewrite misses_S. unfold miss. destruct (cells (misses n) !! 0); [|done]. destruct (deref _ _); [|done].
  cbn. unfold publish, icPublish. destruct (inlineCacheMiss_fresh _ _ _ _); cbn; [case_bool_decide; cbn|];
    (destruct (decide (t = 0)) as [->|Hne]; [by rewrite fn_lookup_insert|by rewrite !fn_lookup_insert_ne]).
Qed.

Lemma icReset_frees_all_witness : exists c', icReset (misses 8) = Some c' /\ states c' = ∅ /\ cells c' = [gIcMega].
Proof.
  destruct (icReset_frees_all right_code (misses 8) (misses_8 8 ltac:(lia)) (idle_threads 8)) as (c' & E & Hs & Hl & Hc). exists c'. split; [exact E|]. split; [exact Hs|].
  specialize (Hc 0 (At 6) ltac:(vm_compute; reflexivity)).
  assert ((if bool_decide (kind <$> deref (states (misses 8)) (At 6) = Some IC_KIND_MEGA) then gIcMega else gIcUnlinked) = gIcMega) as Hm by (vm_compute; reflexivity).
  rewrite Hm in Hc. assert (length (cells (misses 8)) = 1) as H1 by (vm_compute; reflexivity). rewrite H1 in Hl. clear Hm H1 E Hs.
  destruct (cells c') as [|p [|q l]]; [done| |done]. cbn in Hc. congruence.
Defined.

(** After seven classes the site is megamorphic; the next miss leaves it so. *)
Definition eighth : Config := set_thread (misses 7) 0 (Missing 0 8 7 (At 6)).

Lemma mega_is_permanent_witness : exists c' p', step right_code eighth c' /\ cells c' !! 0 = Some p' /\ kind <$> deref (states c') p' = Some IC_KIND_MEGA.
Proof.
  assert (reachable right_code eighth) as R.
  { eapply reach_step; [apply (misses_8 7); lia|]. apply step_miss; [vm_compute; reflexivity|vm_compute; reflexivity|lia|reflexivity]. }
  assert (exists s, deref (states eighth) (At 6) = Some s) as (s & Hs) by (eexists; vm_compute; reflexivity).
  assert (step right_code eighth (set_thread (publish eighth 0 (At 6) 7 (inlineCacheMiss_fresh (At 6) s 8 7)) 0 Idle)) as H
    by (apply (step_bind right_code eighth 0 0 8 7 (At 6) s 7); [vm_compute; reflexivity|exact Hs|vm_compute; reflexivity]).
  destruct (mega_is_permanent right_code eighth _ 0 (At 6) R H) as (p' & Hp & Hk); [vm_compute; reflexivity|vm_compute; reflexivity|].
  exists (set_thread (publish eighth 0 (At 6) 7 (inlineCacheMiss_fresh (At 6) s 8 7)) 0 Idle), p'. split; [exact H|]. split; [exact Hp|exact Hk].
Defined.

End InlineCacheExamples.
