(* ===== verification/Collections.v ===== *)
(** * Collections

    Arrays, ordered collections and their iterators
    ([src/vm/runtime/Collection.c], [src/vm/runtime/Iterator.c]) over a store of
    named objects, so that an iterator and a collection that grows share the
    array that both refer to.  The elements of a collection are a sequence, and
    the operations are those of a sequence as long as nothing was taken from
    its front: the C functions grow by the number of elements and copy from the
    start of the array.

    Indices are below the size of an object, so the tagging of the two index
    variables is not repeated here. *)
From S2P Require Import Prelude.
From stdpp Require Import base list gmap numbers.
From S2P Require Import Dictionary.

#[local] Open Scope nat_scope.

(** ** The store *)

Record RawOrderedCollection := mkOrdColl { cl_contents : nat; cl_firstIndex : Z; cl_lastIndex : Z }.

Record Store := mkStore {
  st_names : Memory;
  st_arrays : gmap nat (list Value);
  st_colls : gmap nat RawOrderedCollection;
  st_dicts : gmap nat Dictionary;
  st_floats : gmap nat Z }.

Definition set_names (m : Memory) (h : Store) : Store := mkStore m (st_arrays h) (st_colls h) (st_dicts h) (st_floats h).
Definition set_array (p : nat) (vars : list Value) (h : Store) : Store :=
  mkStore (st_names h) (<[p := vars]> (st_arrays h)) (st_colls h) (st_dicts h) (st_floats h).
Definition set_coll (p : nat) (c : RawOrderedCollection) (h : Store) : Store :=
  mkStore (st_names h) (st_arrays h) (<[p := c]> (st_colls h)) (st_dicts h) (st_floats h).
Definition set_dict (p : nat) (d : Dictionary) (h : Store) : Store :=
  mkStore (st_names h) (st_arrays h) (st_colls h) (<[p := d]> (st_dicts h)) (st_floats h).
Definition set_float (p : nat) (bits : Z) (h : Store) : Store :=
  mkStore (st_names h) (st_arrays h) (st_colls h) (st_dicts h) (<[p := bits]> (st_floats h)).

Section Collections.
Context (collects : nat -> bool).

Definition allocate (h : Store) : Store * nat :=
  let '(m, p) := newObject collects (st_names h) in (set_names m h, p).

(** [asObject] of a value that is a pointer. *)
Definition is_pointer (v : Value) : bool := match v with Ref _ | Nil | Boolean _ | Stale => true | _ => false end.
Definition scopeObject (v : Value) : option Value := _ ← ASSERT (is_pointer v); Some v.

(** An index into [vars]. *)
Definition var_at (vars : list Value) (index : Z) : option Value := if (index <? 0)%Z then None else vars !! Z.to_nat index.
Definition put_var (vars : list Value) (index : Z) (v : Value) : option (list Value) :=
  if (index <? 0)%Z then None else put vars (Z.to_nat index) v.

(** ** Arrays *)

Definition newArray (h : Store) (size : nat) : Store * nat :=
  let '(h, p) := allocate h in (set_array p (replicate size Nil) h, p).

Definition arrayObjectAt (h : Store) (array : nat) (index : Z) : option Value :=
  vars ← st_arrays h !! array; v ← var_at vars index; scopeObject v.

Definition arrayAtPutObject (h : Store) (array : nat) (index : Z) (object : Value) : option Store :=
  vars ← st_arrays h !! array; vars ← put_var vars index object; Some (set_array array vars h).

(** ** Ordered collections *)

Definition newOrdColl (h : Store) (size : nat) : Store * nat :=
  let '(h, collection) := allocate h in
  let '(h, contents) := allocate h in
  (set_coll collection (mkOrdColl contents 1 0) (set_array contents (replicate size Nil) h), collection).

Definition ordCollGetContents (h : Store) (collection : nat) : option (nat * list Value) :=
  c ← st_colls h !! collection; vars ← st_arrays h !! cl_contents c; Some (cl_contents c, vars).

Definition ordCollGetFirstIndex (h : Store) (collection : nat) : option Z := c ← st_colls h !! collection; Some (cl_firstIndex c).
Definition ordCollGetLastIndex (h : Store) (collection : nat) : option Z := c ← st_colls h !! collection; Some (cl_lastIndex c).

(** The difference is a [size_t]. *)
Definition ordCollSize (h : Store) (collection : nat) : option Z :=
  last ← ordCollGetLastIndex h collection; first ← ordCollGetFirstIndex h collection; Some (u64 (last - first + 1)).

(** Storing a new contents array, and the new last index. *)
Definition set_contents (h : Store) (collection contents : nat) : option Store :=
  c ← st_colls h !! collection; Some (set_coll collection (mkOrdColl contents (cl_firstIndex c) (cl_lastIndex c)) h).
Definition set_lastIndex (h : Store) (collection : nat) (last : Z) : option Store :=
  c ← st_colls h !! collection; Some (set_coll collection (mkOrdColl (cl_contents c) (cl_firstIndex c) last) h).

(** The contents are full: a new array of [size + extra] with the first [size]
    variables of the old one. *)
Definition regrow (h : Store) (collection : nat) (contents : list Value) (size newSize : Z) : option (Store * nat) :=
  let '(h, newContents) := newArray h (Z.to_nat newSize) in
  vars ← memcpy (replicate (Z.to_nat newSize) Nil) 0 contents 0 (Z.to_nat size);
  h ← set_contents (set_array newContents vars h) collection newContents;
  Some (h, newContents).

(** [ordCollAdd] and [ordCollAddObject] differ in the kind of store only. *)
Definition ordCollAdd (h : Store) (collection : nat) (value : Value) : option Store :=
  '(array, contents) ← ordCollGetContents h collection;
  size ← ordCollSize h collection;
  '(h, array) ← (if (size =? Z.of_nat (length contents))%Z then regrow h collection contents size (size + 8) else Some (h, array));
  lastIndex ← ordCollGetLastIndex h collection;
  h ← arrayAtPutObject h array lastIndex value;
  set_lastIndex h collection (lastIndex + 1).

Definition ordCollAddObject (h : Store) (collection : nat) (object : Value) : option Store := ordCollAdd h collection object.

Definition ordCollRemoveLast (h : Store) (collection : nat) : option Store :=
  '(array, _) ← ordCollGetContents h collection;
  lastIndex ← ordCollGetLastIndex h collection;
  let index := (lastIndex - 1)%Z in
  h ← arrayAtPutObject h array index Nil;
  set_lastIndex h collection index.

Definition ordCollAt (h : Store) (collection : nat) (index : Z) : option Value :=
  '(_, contents) ← ordCollGetContents h collection;
  first ← ordCollGetFirstIndex h collection;
  var_at contents (first + index - 1).

Definition ordCollObjectAt (h : Store) (collection : nat) (index : Z) : option Value :=
  v ← ordCollAt h collection index; scopeObject v.

(** [memcpy] from the start of the contents. *)
Definition ordCollAsArray (h : Store) (collection : nat) : option (Store * nat) :=
  size ← ordCollSize h collection;
  let '(h, array) := newArray h (Z.to_nat size) in
  '(_, contents) ← ordCollGetContents h collection;
  vars ← memcpy (replicate (Z.to_nat size) Nil) 0 contents 0 (Z.to_nat size);
  Some (set_array array vars h, array).

Definition arrayAsOrdColl (h : Store) (array : nat) : option (Store * nat) :=
  vars ← st_arrays h !! array;
  let size := length vars in
  let '(h, ordColl) := newOrdColl h size in
  '(contents, target) ← ordCollGetContents h ordColl;
  vars ← st_arrays h !! array;
  target ← for_up size 0 (fun i target => v ← vars !! i; put target i v) target;
  last ← ordCollGetLastIndex h ordColl;
  h ← set_lastIndex (set_array contents target h) ordColl (last + Z.of_nat size);
  Some (h, ordColl).

(** ** Iterators *)

Record Iterator := mkIterator { it_array : nat; it_base : Z; it_index : Z; it_limit : Z }.

Definition initArrayIterator (h : Store) (array : nat) (from to : Z) : option Iterator :=
  vars ← st_arrays h !! array; Some (mkIterator array from from (Z.of_nat (length vars) + to)).

Definition initOrdCollIterator (h : Store) (ordColl : nat) (from to : Z) : option Iterator :=
  '(array, _) ← ordCollGetContents h ordColl;
  first ← ordCollGetFirstIndex h ordColl;
  size ← ordCollSize h ordColl;
  let base := (first + from - 1)%Z in
  Some (mkIterator array base base (base + size + to)).

Definition iteratorIndex (it : Iterator) : Z := (it_index it - it_base it)%Z.
Definition iteratorHasNext (it : Iterator) : bool := (it_index it <? it_limit it)%Z.

(** The array is read again at every step. *)
Definition iteratorNext (h : Store) (it : Iterator) : option (Value * Iterator) :=
  vars ← st_arrays h !! it_array it;
  v ← var_at vars (it_index it);
  Some (v, mkIterator (it_array it) (it_base it) (it_index it + 1) (it_limit it)).

Definition iteratorNextObject (h : Store) (it : Iterator) : option (Value * Iterator) :=
  '(v, it) ← iteratorNext h it; v ← scopeObject v; Some (v, it).

(** ** Adding what is not there *)

(** Identical, or equal strings. *)
Definition compareValues (h : Store) (object value : Value) : bool :=
  bool_decide (object = value) ||
  match object, value with
  | Ref p, Ref q =>
      bool_decide (classOf (st_names h) p = ClassString) && bool_decide (classOf (st_names h) q = ClassString) &&
      stringEquals (st_names h) p q
  | _, _ => false
  end.

(** [while (iteratorHasNext(&iterator))]: the index of an equal element. *)
Fixpoint findEqual (fuel : nat) (h : Store) (object : Value) (it : Iterator) : option (option Z) :=
  match fuel with
  | O => None
  | S fuel =>
      if iteratorHasNext it then
        '(value, it) ← iteratorNext h it;
        if compareValues h object value then Some (Some (iteratorIndex it - 1)%Z) else findEqual fuel h object it
      else Some None
  end.

Definition ordCollAddObjectIfNotExists (h : Store) (collection : nat) (object : Value) : option (Store * Z) :=
  it ← initOrdCollIterator h collection 0 0;
  found ← findEqual (S (Z.to_nat (it_limit it - it_index it))) h object it;
  match found with
  | Some index => Some (h, index)
  | None => h ← ordCollAddObject h collection object; size ← ordCollSize h collection; Some (h, (size - 1)%Z)
  end.

(** ** A collection is a sequence *)

(** [l] are the elements of [c], which start at the front of its array. *)
Record coll_ok (h : Store) (c : nat) (array : nat) (l : list Value) : Prop := {
  co_coll : st_colls h !! c = Some (mkOrdColl array 1 (Z.of_nat (length l)));
  co_array : exists vars, st_arrays h !! array = Some vars /\ l `prefix_of` vars;
  co_size : (Z.of_nat (length l) < 2 ^ 62)%Z }.

(** Names are given out in order. *)
Definition named (h : Store) : Prop :=
  (forall p, is_Some (st_arrays h !! p) -> p < allocations (st_names h)) /\
  (forall p, is_Some (st_colls h !! p) -> p < allocations (st_names h)).

(** What an append to [c], whose array was [array], leaves as it was. *)
Record appended (h : Store) (c array array' : nat) (h' : Store) : Prop := {
  ap_names : strings (st_names h') = strings (st_names h) /\ assocs (st_names h') = assocs (st_names h);
  ap_alloc : allocations (st_names h) <= allocations (st_names h');
  ap_dicts : st_dicts h' = st_dicts h /\ st_floats h' = st_floats h;
  ap_colls : forall p, p <> c -> st_colls h' !! p = st_colls h !! p;
  ap_arrays : forall p, p <> array -> p < allocations (st_names h) -> st_arrays h' !! p = st_arrays h !! p;
  ap_fresh : array' = array \/ array' = allocations (st_names h) }.

Lemma newOrdColl_ok h size : named h ->
  let '(h', c) := newOrdColl h size in
  c = allocations (st_names h) /\ coll_ok h' c (S c) [] /\ named h' /\ allocations (st_names h') = S (S c) /\
  strings (st_names h') = strings (st_names h) /\ assocs (st_names h') = assocs (st_names h) /\
  st_dicts h' = st_dicts h /\ st_floats h' = st_floats h /\
  forall p, p < c -> st_colls h' !! p = st_colls h !! p /\ st_arrays h' !! p = st_arrays h !! p.
Proof.
  intros [NA NC]. cbn. split_and!; try done.
  - constructor; cbn; [by rewrite lookup_insert_eq| |done]. eexists. split; [by rewrite lookup_insert_eq|apply prefix_nil].
  - split; cbn; intros p [x Hx]; apply lookup_insert_Some in Hx as [[<- _]|[_ Hx]]; [lia| |lia|].
    + specialize (NA p (mk_is_Some _ _ Hx)). lia.
    + specialize (NC p (mk_is_Some _ _ Hx)). lia.
  - intros p Hp. by rewrite !lookup_insert_ne by lia.
Qed.

Lemma size_ok h c array l : coll_ok h c array l -> ordCollSize h c = Some (Z.of_nat (length l)).
Proof.
  intros []. unfold ordCollSize, ordCollGetLastIndex, ordCollGetFirstIndex. rewrite co_coll0. cbn. rewrite u64_id by lia. f_equal. lia.
Qed.

Lemma put_var_prefix l v (vars : list Value) : l `prefix_of` vars -> length l < length vars ->
  exists vars', put_var vars (Z.of_nat (length l)) v = Some vars' /\ (l ++ [v]) `prefix_of` vars' /\ length vars' = length vars /\
    forall i, i <> length l -> vars' !! i = vars !! i.
Proof.
  intros [k ->] Hl. rewrite length_app in Hl. unfold put_var. destruct (Z.ltb_spec (Z.of_nat (length l)) 0); [lia|].
  rewrite Nat2Z.id, put_Some by (rewrite length_app; lia). eexists. split; [done|]. destruct k as [|x k]; [cbn in Hl; lia|].
  rewrite insert_app_r_alt, Nat.sub_diag by lia. cbn. split_and!.
  - exists k. by rewrite <- app_assoc.
  - rewrite !length_app. done.
  - intros i Hi. destruct (decide (i < length l)); [by rewrite !lookup_app_l|]. rewrite !lookup_app_r by lia.
    destruct (i - length l) eqn:E; [lia|done].
Qed.

(** A collection with room, or whose array has been replaced. *)
Lemma append_room h c array l v vars : st_colls h !! c = Some (mkOrdColl array 1 (Z.of_nat (length l))) ->
  st_arrays h !! array = Some vars -> l `prefix_of` vars -> length l < length vars -> (Z.of_nat (length l) + 1 < 2 ^ 62)%Z ->
  exists vars', (lastIndex ← ordCollGetLastIndex h c; h ← arrayAtPutObject h array lastIndex v; set_lastIndex h c (lastIndex + 1)) =
    Some (set_coll c (mkOrdColl array 1 (Z.of_nat (length (l ++ [v])))) (set_array array vars' h)) /\
    (l ++ [v]) `prefix_of` vars' /\ length vars' = length vars /\ forall i, i <> length l -> vars' !! i = vars !! i.
Proof.
  intros Hc Ha Hp Hl Hb. destruct (put_var_prefix l v vars Hp Hl) as (vars' & E & P & L & F). exists vars'. split; [|done].
  unfold ordCollGetLastIndex. rewrite Hc. cbn. unfold arrayAtPutObject. rewrite Ha. cbn. rewrite E. cbn.
  unfold set_lastIndex. cbn. rewrite Hc. cbn. rewrite length_app. cbn. repeat f_equal. lia.
Qed.

Lemma regrow_ok h c array l vars newSize : coll_ok h c array l -> st_arrays h !! array = Some vars -> length vars = length l ->
  (Z.of_nat (length l) <= newSize)%Z ->
  regrow h c vars (Z.of_nat (length l)) newSize =
    Some (set_coll c (mkOrdColl (allocations (st_names h)) 1 (Z.of_nat (length l)))
           (set_array (allocations (st_names h)) (l ++ replicate (Z.to_nat newSize - length l) Nil) (fst (newArray h (Z.to_nat newSize)))),
          allocations (st_names h)).
Proof.
  intros [Hc (vars' & Ha & Hp) Hb] Ha' Hl Hn. rewrite Ha in Ha'. injection Ha' as ->.
  assert (vars = l) as -> by (destruct Hp as [k ->]; rewrite length_app in Hl; destruct k; [apply app_nil_r|cbn in Hl; lia]).
  unfold regrow. cbn [newArray allocate newObject]. unfold memcpy. rewrite Nat2Z.id, slice_Some by lia. cbn [mbind option_bind].
  rewrite drop_0, firstn_all, blit_Some by (rewrite length_replicate; lia). cbn [mbind option_bind take].
  rewrite drop_replicate. cbn [app]. rewrite Nat.add_0_l. unfold set_contents. cbn. rewrite Hc. done.
Qed.

(** Appending with any rule of growth. *)
Definition append_by (grow : Z -> Z) (h : Store) (collection : nat) (value : Value) : option Store :=
  '(array, contents) ← ordCollGetContents h collection;
  size ← ordCollSize h collection;
  '(h, array) ← (if (size =? Z.of_nat (length contents))%Z then regrow h collection contents size (grow size) else Some (h, array));
  lastIndex ← ordCollGetLastIndex h collection;
  h ← arrayAtPutObject h array lastIndex value;
  set_lastIndex h collection (lastIndex + 1).

Lemma append_by_ok grow h c array l v : (forall n, (0 <= n)%Z -> (n < grow n)%Z) -> named h -> coll_ok h c array l ->
  (Z.of_nat (length l) + 1 < 2 ^ 62)%Z ->
  exists h' array', append_by grow h c v = Some h' /\ coll_ok h' c array' (l ++ [v]) /\ named h' /\ appended h c array array' h' /\
    (forall vars, st_arrays h !! array = Some vars -> exists vars', st_arrays h' !! array = Some vars' /\
       length vars' = length vars /\ forall i, i <> length l -> vars' !! i = vars !! i).
Proof.
  intros G [NA NC] C Hb. pose proof C as [Hc (vars & Ha & Hp) _]. pose proof (size_ok _ _ _ _ C) as Hs.
  assert (array < allocations (st_names h)) as Hna by (apply NA; by eexists).
  assert (c < allocations (st_names h)) as Hnc by (apply NC; by eexists).
  unfold append_by, ordCollGetContents. rewrite Hc. cbn [mbind option_bind cl_contents]. rewrite Ha. cbn [mbind option_bind]. rewrite Hs.
  cbn [mbind option_bind]. destruct (Z.eqb_spec (Z.of_nat (length l)) (Z.of_nat (length vars))) as [E|E].
  - rewrite (regrow_ok h c array l vars (grow (Z.of_nat (length l))) C Ha ltac:(lia)) by (specialize (G (Z.of_nat (length l)) ltac:(lia)); lia).
    cbn [mbind option_bind]. set (h1 := set_coll _ _ _). specialize (G (Z.of_nat (length l)) ltac:(lia)).
    destruct (append_room h1 c (allocations (st_names h)) l v (l ++ replicate (Z.to_nat (grow (Z.of_nat (length l))) - length l) Nil))
      as (vars' & -> & P & _); [by unfold h1; cbn; rewrite lookup_insert_eq|by unfold h1; cbn; rewrite lookup_insert_eq|by eexists|
       rewrite length_app, length_replicate; lia|done|].
    eexists _, _. split; [done|]. unfold h1. split_and!.
    + constructor; cbn; [by rewrite lookup_insert_eq|exists vars'; split; [by rewrite lookup_insert_eq|done]|rewrite length_app; cbn; lia].
    + split; cbn; intros p [x Hx].
      * destruct (decide (p = allocations (st_names h))) as [->|]; [lia|]. rewrite !lookup_insert_ne in Hx by done.
        specialize (NA p (mk_is_Some _ _ Hx)). lia.
      * destruct (decide (p = c)) as [->|]; [lia|]. rewrite !lookup_insert_ne in Hx by done. specialize (NC p (mk_is_Some _ _ Hx)). lia.
    + constructor; cbn; try done; [lia| | |by right].
      * intros p Hp'. by rewrite !lookup_insert_ne.
      * intros p _ Hp'. by rewrite !lookup_insert_ne by lia.
    + intros w [= <-]. cbn. rewrite !lookup_insert_ne by lia. by exists vars.
  - assert (length l < length vars) as Hl by (destruct Hp as [k ->]; rewrite length_app in *; lia).
    cbn [mbind option_bind]. destruct (append_room h c array l v vars Hc Ha Hp Hl Hb) as (vars' & -> & P & L & F).
    eexists _, _. split; [done|]. split_and!.
    + constructor; cbn; [by rewrite lookup_insert_eq|exists vars'; split; [by rewrite lookup_insert_eq|done]|rewrite length_app; cbn; lia].
    + split; cbn; intros p [x Hx].
      * destruct (decide (p = array)) as [->|]; [lia|]. rewrite !lookup_insert_ne in Hx by done. apply NA. by eexists.
      * destruct (decide (p = c)) as [->|]; [lia|]. rewrite !lookup_insert_ne in Hx by done. apply NC. by eexists.
    + constructor; cbn; try done; [| |by left].
      * intros p Hp'. by rewrite !lookup_insert_ne.
      * intros p Hp' _. by rewrite !lookup_insert_ne.
    + intros w [= <-]. cbn. rewrite lookup_insert_eq. by exists vars'.
Qed.

(** ** Iteration *)

(** The iterator is at [d] in the array, with [l] before it and to come. *)
Definition views (h : Store) (it : Iterator) (l : list Value) : Prop :=
  it_base it = 0%Z /\ it_limit it = Z.of_nat (length l) /\ (0 <= it_index it <= it_limit it)%Z /\
  exists vars, st_arrays h !! it_array it = Some vars /\ l `prefix_of` vars.

(** What a loop over the iterator sees. *)
Fixpoint iterate (fuel : nat) (h : Store) (it : Iterator) : option (list Value) :=
  match fuel with
  | O => None
  | S fuel =>
      if iteratorHasNext it then '(v, it) ← iteratorNext h it; l ← iterate fuel h it; Some (v :: l) else Some []
  end.

Lemma init_views h c array l : coll_ok h c array l -> exists it, initOrdCollIterator h c 0 0 = Some it /\ views h it l /\
  it_index it = 0%Z /\ it_array it = array.
Proof.
  intros C. pose proof C as [Hc (vars & Ha & Hp) Hb]. unfold initOrdCollIterator, ordCollGetContents, ordCollGetFirstIndex.
  rewrite Hc. cbn. rewrite Ha. cbn. rewrite (size_ok _ _ _ _ C). cbn. eexists. split; [done|]. split; [|done].
  unfold views. cbn. split_and!; [done|lia|lia|lia|by exists vars].
Qed.

Lemma next_views h it l : views h it l -> iteratorHasNext it = true ->
  exists v it', iteratorNext h it = Some (v, it') /\ l !! Z.to_nat (it_index it) = Some v /\ views h it' l /\ it_index it' = (it_index it + 1)%Z.
Proof.
  intros (Hb & Hl & Hi & vars & Ha & Hp) Hn. apply Z.ltb_lt in Hn. unfold iteratorNext. rewrite Ha. cbn. unfold var_at.
  destruct (Z.ltb_spec (it_index it) 0); [lia|]. destruct (lookup_lt_is_Some_2 l (Z.to_nat (it_index it))) as [v Hv]; [lia|].
  rewrite (prefix_lookup_Some _ _ _ _ Hv Hp). cbn. eexists _, _. split; [done|]. split_and!; [done| |done].
  unfold views. cbn. split_and!; [done|done|lia|lia|by exists vars].
Qed.

Lemma iterate_views fuel h it l : views h it l -> Z.to_nat (it_limit it - it_index it) < fuel ->
  iterate fuel h it = Some (drop (Z.to_nat (it_index it)) l).
Proof.
  revert it. induction fuel as [|fuel IH]; intros it V Hf; [lia|]. cbn. destruct (iteratorHasNext it) eqn:Hn.
  - destruct (next_views h it l V Hn) as (v & it' & -> & Hv & V' & Ei). cbn. apply Z.ltb_lt in Hn. pose proof V as (_ & El & Hi & _).
    pose proof V' as (_ & El' & _). rewrite IH; [|done|lia]. cbn. rewrite (drop_S _ _ _ Hv). do 2 f_equal.
    rewrite Ei. f_equal. lia.
  - apply Z.ltb_ge in Hn. destruct V as (_ & El & Hi & _). rewrite drop_ge; [done|lia].
Qed.

(** Any number of appends. *)
Fixpoint ordCollAddAll (h : Store) (c : nat) (vs : list Value) : option Store :=
  match vs with [] => Some h | v :: vs => h ← ordCollAdd h c v; ordCollAddAll h c vs end.

Lemma addAll_ok h c array l vs : named h -> coll_ok h c array l -> (Z.of_nat (length l + length vs) < 2 ^ 62)%Z ->
  exists h' array', ordCollAddAll h c vs = Some h' /\ coll_ok h' c array' (l ++ vs) /\ named h' /\
    forall it k, k `prefix_of` l -> views h it k -> views h' it k.
Proof.
  revert h array l. induction vs as [|v vs IH]; intros h array l N C Hb.
  { exists h, array. rewrite app_nil_r. by split_and!. }
  cbn [length] in Hb. destruct (append_by_ok (fun n => n + 8)%Z h c array l v) as (h1 & a1 & E & C1 & N1 & A1 & F); [lia|done|done|lia|].
  destruct (IH h1 a1 (l ++ [v]) N1 C1) as (h' & array' & E' & C' & N' & V'); [rewrite length_app; cbn; lia|].
  exists h', array'. cbn [ordCollAddAll]. change (ordCollAdd h c v) with (append_by (fun n => n + 8)%Z h c v). rewrite E. cbn [mbind option_bind].
  rewrite <- app_assoc in C'. split_and!; [done|done|done|]. intros it k Hk V. apply V'; [by apply prefix_app_r|].
  destruct V as (Hb' & Hl & Hi & vars & Ha & Hp). split_and!; [done|done|lia|lia|].
  destruct (decide (it_array it = array)) as [Ea|Ea].
  - rewrite Ea in *. destruct (F vars Ha) as (vars' & Ha' & Hlen & Hsame). exists vars'. split; [done|].
    destruct Hp as [r ->]. exists (drop (length k) vars'). rewrite <- (take_drop (length k) vars') at 1. f_equal.
    apply list_eq. intros i. destruct (decide (i < length k)).
    + rewrite lookup_take_lt by done. destruct Hk as [z ->]. rewrite length_app in Hsame. rewrite Hsame by lia. by rewrite lookup_app_l.
    + rewrite lookup_take_ge by lia. symmetry. apply lookup_ge_None. lia.
  - exists vars. split; [|done]. rewrite (ap_arrays _ _ _ _ _ A1); [done|done|]. apply (proj1 N). by eexists.
Qed.

(** An ordered collection whose first index is 1 (the code never moves it)
    is a sequence: appending makes the sequence longer by the value, whether or not the array is replaced by a larger one, an
    index reads the element, and an iterator made before any number of appends
    still sees exactly the elements the collection had when it was made. *)
Theorem ordColl_is_sequence h c array l vs : named h -> coll_ok h c array l -> (Z.of_nat (length l + length vs) < 2 ^ 62)%Z ->
  exists it h' array', initOrdCollIterator h c 0 0 = Some it /\ ordCollAddAll h c vs = Some h' /\ coll_ok h' c array' (l ++ vs) /\
    ordCollSize h' c = Some (Z.of_nat (length (l ++ vs))) /\
    (forall i, i < length (l ++ vs) -> ordCollAt h' c (Z.of_nat i) = (l ++ vs) !! i) /\
    iterate (S (length l)) h' it = Some l.
Proof.
  intros N C Hb. destruct (init_views h c array l C) as (it & Ei & V & E0 & _).
  destruct (addAll_ok h c array l vs N C Hb) as (h' & array' & E & C' & N' & V').
  exists it, h', array'. split_and!; [done|done|done|by eapply size_ok| |].
  - intros i Hi. pose proof C' as [Hc (vars & Ha & Hp) _]. unfold ordCollAt, ordCollGetContents, ordCollGetFirstIndex. rewrite Hc. cbn. rewrite Ha. cbn.
    unfold var_at. destruct (Z.ltb_spec (1 + Z.of_nat i - 1) 0); [lia|]. replace (Z.to_nat (1 + Z.of_nat i - 1)) with i by lia.
    destruct (lookup_lt_is_Some_2 (l ++ vs) i Hi) as [v Hv]. rewrite Hv. by eapply prefix_lookup_Some.
  - specialize (V' it l (reflexivity l) V). pose proof V' as (_ & Hl & _). rewrite (iterate_views _ _ _ l V') by (rewrite E0; lia). by rewrite E0.
Qed.

(** ** Searching and converting *)

Lemma findEqual_ok fuel h object it l : views h it l -> Z.to_nat (it_limit it - it_index it) < fuel ->
  match findEqual fuel h object it with
  | None => False
  | Some (Some i) => (it_index it <= i)%Z /\ (exists v, l !! Z.to_nat i = Some v /\ compareValues h object v = true) /\
      forall j v, (it_index it <= Z.of_nat j < i)%Z -> l !! j = Some v -> compareValues h object v = false
  | Some None => forall j v, (it_index it <= Z.of_nat j)%Z -> l !! j = Some v -> compareValues h object v = false
  end.
Proof.
  revert it. induction fuel as [|fuel IH]; intros it V Hf; [lia|]. cbn [findEqual]. destruct (iteratorHasNext it) eqn:Hn.
  2: { apply Z.ltb_ge in Hn. destruct V as (_ & El & Hi & _). intros j v Hj Hv. apply lookup_lt_Some in Hv. lia. }
  destruct (next_views h it l V Hn) as (v & it' & -> & Hv & V' & Ei). cbn [mbind option_bind]. apply Z.ltb_lt in Hn.
  pose proof V as (Hb & El & Hi & _). pose proof V' as (Hb' & El' & _).
  destruct (compareValues h object v) eqn:Ec.
  - unfold iteratorIndex. rewrite Ei, Hb'. replace (it_index it + 1 - 0 - 1)%Z with (it_index it) by lia.
    split_and!; [lia|by exists v|]. intros j w Hj. lia.
  - specialize (IH it' V' ltac:(lia)). destruct (findEqual fuel h object it') as [[i|]|]; [| |done].
    + destruct IH as (H1 & H2 & H3). split_and!; [lia|done|]. intros j w Hj Hw.
      destruct (decide (Z.of_nat j = it_index it)) as [E|E]; [|apply (H3 j w); [lia|done]].
      rewrite <- E, Nat2Z.id in Hv. congruence.
    + intros j w Hj Hw. destruct (decide (Z.of_nat j = it_index it)) as [E|E]; [|apply (IH j w); [lia|done]].
      rewrite <- E, Nat2Z.id in Hv. congruence.
Qed.

(** Adding what is not there: the index that is answered is that of the first
    element identical to the object, or equal to it if both are strings; if
    there is none the object is appended, and nothing changes otherwise. *)
Lemma addIfNotExists_index h c array l object : named h -> coll_ok h c array l -> (Z.of_nat (length l) + 1 < 2 ^ 62)%Z ->
  exists h' array' l' i, ordCollAddObjectIfNotExists h c object = Some (h', i) /\ coll_ok h' c array' l' /\ (0 <= i)%Z /\
    (exists v, l' !! Z.to_nat i = Some v /\ compareValues h object v = true) /\
    (forall j v, (Z.of_nat j < i)%Z -> l' !! j = Some v -> compareValues h object v = false) /\
    ((h' = h /\ l' = l) \/ (l' = l ++ [object] /\ i = Z.of_nat (length l))).
Proof.
  intros N C Hb. destruct (init_views h c array l C) as (it & Ei & V & E0 & _). unfold ordCollAddObjectIfNotExists. rewrite Ei. cbn [mbind option_bind].
  pose proof (findEqual_ok (S (Z.to_nat (it_limit it - it_index it))) h object it l V ltac:(lia)) as F.
  destruct (findEqual _ h object it) as [[i|]|]; [| |done]; cbn [mbind option_bind].
  - destruct F as (H1 & H2 & H3). exists h, array, l, i. split_and!; [done|done|lia|done| |by left].
    intros j v Hj. apply H3. lia.
  - destruct (append_by_ok (fun n => n + 8)%Z h c array l object) as (h' & a' & E & C' & _); [lia|done|done|done|].
    unfold ordCollAddObject. change (ordCollAdd h c object) with (append_by (fun n => n + 8)%Z h c object). rewrite E. cbn [mbind option_bind].
    rewrite (size_ok _ _ _ _ C'). cbn [mbind option_bind]. rewrite length_app. cbn [length].
    exists h', a', (l ++ [object]), (Z.of_nat (length l + 1) - 1)%Z. split_and!; [done|done|lia| | |right; split; [done|lia]].
    + exists object. replace (Z.to_nat (Z.of_nat (length l + 1) - 1)) with (length l) by lia. rewrite lookup_app_r, Nat.sub_diag by lia. split; [done|].
      unfold compareValues. by rewrite bool_decide_true.
    + intros j v Hj. rewrite lookup_app_l by lia. apply F. lia.
Qed.

Lemma asArray_ok h c array l : named h -> coll_ok h c array l ->
  exists h' a, ordCollAsArray h c = Some (h', a) /\ st_arrays h' !! a = Some l /\ coll_ok h' c array l /\ named h'.
Proof.
  intros [NA NC] C. pose proof C as [Hc (vars & Ha & Hp) Hb]. unfold ordCollAsArray. rewrite (size_ok _ _ _ _ C). cbn [mbind option_bind newArray allocate newObject].
  assert (array < allocations (st_names h)) as Hna by (apply NA; by eexists).
  unfold ordCollGetContents. cbn. rewrite Hc. cbn. rewrite lookup_insert_ne, Ha by lia. cbn. rewrite Nat2Z.id.
  destruct Hp as [k ->]. unfold memcpy. rewrite slice_Some by (rewrite length_app; lia). cbn [mbind option_bind].
  rewrite drop_0, take_app_length, blit_Some by (rewrite length_replicate; lia). cbn.
  rewrite drop_replicate, Nat.sub_diag. cbn. rewrite app_nil_r. eexists _, _. split; [done|]. split_and!.
  - cbn. by rewrite lookup_insert_eq.
  - constructor; cbn; [done| |done]. exists (l ++ k). rewrite !lookup_insert_ne by lia. split; [done|by eexists].
  - split; cbn; intros p [x Hx].
    + destruct (decide (p = allocations (st_names h))) as [->|]; [lia|]. rewrite !lookup_insert_ne in Hx by done. specialize (NA p (mk_is_Some _ _ Hx)). lia.
    + specialize (NC p (mk_is_Some _ _ Hx)). lia.
Qed.

Lemma copy_vars (vars target : list Value) : length target = length vars ->
  for_up (length vars) 0 (fun i target => v ← vars !! i; put target i v) target = Some vars.
Proof.
  intros Hl. destruct (for_up_rule (fun i t => length t = length vars /\ forall j, j < i -> t !! j = vars !! j) (length vars) 0
    (fun i target => v ← vars !! i; put target i v) target) as (t & E & Ht & Hs).
  - split; [done|lia].
  - intros i t Hi [Ht Hs]. destruct (lookup_lt_is_Some_2 vars i) as [v Hv]; [lia|]. rewrite Hv. cbn. rewrite put_Some by lia.
    eexists. split; [done|]. split; [by rewrite length_insert|]. intros j Hj. destruct (decide (i = j)) as [->|].
    + rewrite list_lookup_insert_eq by lia. done.
    + rewrite list_lookup_insert_ne by done. apply Hs. lia.
  - rewrite E. f_equal. apply list_eq. intros j. destruct (decide (j < length vars)); [apply Hs; lia|]. rewrite !lookup_ge_None_2 by lia. done.
Qed.

(** An array becomes a collection with its elements. *)
Lemma arrayAsOrdColl_ok h array vars : named h -> st_arrays h !! array = Some vars -> (Z.of_nat (length vars) < 2 ^ 62)%Z ->
  exists h' c a, arrayAsOrdColl h array = Some (h', c) /\ coll_ok h' c a vars /\ named h'.
Proof.
  intros N Ha Hb. unfold arrayAsOrdColl. rewrite Ha. cbn [mbind option_bind]. pose proof (newOrdColl_ok h (length vars) N) as H.
  assert (array < allocations (st_names h)) as Hlt by (apply (proj1 N); by eexists).
  destruct (newOrdColl h (length vars)) as [h1 c] eqn:E. destruct H as (-> & C1 & N1 & Al & _ & _ & _ & _ & F).
  assert (exists target, ordCollGetContents h1 (allocations (st_names h)) = Some (S (allocations (st_names h)), target) /\ length target = length vars) as (target & Et & Hl).
  { unfold newOrdColl, allocate, newObject in E. cbn in E. injection E as <-. unfold ordCollGetContents. cbn. rewrite lookup_insert_eq. cbn.
    rewrite lookup_insert_eq. cbn. eexists. split; [done|]. by rewrite length_replicate. }
  rewrite Et. cbn [mbind option_bind]. rewrite (proj2 (F array Hlt)), Ha. cbn [mbind option_bind]. rewrite (copy_vars vars target Hl). cbn [mbind option_bind].
  pose proof (co_coll _ _ _ _ C1) as Hc. unfold ordCollGetLastIndex. rewrite Hc. cbn [mbind option_bind cl_lastIndex]. unfold set_lastIndex. cbn [set_array st_colls]. rewrite Hc.
  cbn [mbind option_bind]. eexists _, _, _. split; [done|]. split.
  - constructor; cbn; [by rewrite lookup_insert_eq|exists vars; split; [by rewrite lookup_insert_eq|done]|done].
  - destruct N1 as [NA NC]. split; cbn; intros p [x Hx].
    + destruct (decide (p = S (allocations (st_names h)))) as [->|]; [lia|]. rewrite lookup_insert_ne in Hx by done. apply NA. by eexists.
    + destruct (decide (p = allocations (st_names h))) as [->|]; [lia|]. rewrite lookup_insert_ne in Hx by done. apply NC. by eexists.
Qed.
End Collections.

Module CollectionExamples.
(** A collection of three with no room left. *)
Definition full : Store :=
  mkStore (mkMemory 10 0 ∅ ∅) {[2 := [Int 5; Int 6; Nil]]} {[1 := mkOrdColl 2 1 3]} ∅ ∅.

Lemma full_named : named full.
Proof. split; intros p [x E]; cbn in E; apply lookup_singleton_Some in E as [<- _]; cbn; lia. Qed.

Lemma full_ok : coll_ok full 1 2 [Int 5; Int 6; Nil].
Proof. constructor; [done| |done]. by eexists. Qed.

Lemma ordColl_is_sequence_witness : exists it h' array', initOrdCollIterator full 1 0 0 = Some it /\ ordCollAddAll (fun _ => false) full 1 [Int 7; Int 8] = Some h' /\
  coll_ok h' 1 array' [Int 5; Int 6; Nil; Int 7; Int 8] /\ iterate 4 h' it = Some [Int 5; Int 6; Nil].
Proof.
  destruct (ordColl_is_sequence (fun _ => false) full 1 2 [Int 5; Int 6; Nil] [Int 7; Int 8] full_named full_ok eq_refl) as (it & h' & a & H1 & H2 & H3 & _ & _ & H4).
  exists it, h', a. split; [exact H1|]. split; [exact H2|]. split; [exact H3|exact H4].
Defined.
End CollectionExamples.
