(* ===== verification/Json.v ===== *)
(** * Json

    The JSON runtime ([src/vm/runtime/Json.c]): the strict parser, which copies
    its input, decodes strings through one scratch buffer and builds
    dictionaries, collections and strings in the store of [Collections], and the
    encoder of the core types.

    [None] stands for a read or write out of bounds and for a loop that does not
    end; a function that returns 0 answers [Fail] and a failed assertion is
    [Abort].  What the C library does with decimal numbers is the class [Libc].
    The memory that [malloc] and [realloc] are asked for is there. *)
From S2P Require Import Prelude Tagging.
From stdpp Require Import base list gmap numbers.
From S2P Require Import Dictionary Collections.

#[local] Open Scope nat_scope.

(** ** Outcomes *)

Inductive Outcome (A : Type) := Ok (a : A) | Fail | Abort.
Arguments Ok {A} a.
Arguments Fail {A}.
Arguments Abort {A}.

(** ** The C library *)

(** A double is its bits.  [strtod] reads the longest number at the front;
    [format_e n] is [%.*e] and [format_f n] is [%.*f]; [exponent10] is
    [floor(log10(fabs(x)))]. *)
Class Libc := {
  strtod : list Z -> Z;
  format_e : nat -> Z -> list Z;
  format_f : nat -> Z -> list Z;
  exponent10 : Z -> Z }.

Definition JSON_MAX_DEPTH : nat := 128.

Definition isWs (c : Z) : bool := (c =? chr " ")%Z || (c =? 9)%Z || (c =? 10)%Z || (c =? 13)%Z.
Definition isDigit (c : Z) : bool := (chr "0" <=? c)%Z && (c <=? chr "9")%Z.

(** The bytes a string holds as they are. *)
Definition QUOTE : Z := 34.
Definition BACKSLASH : Z := 92.
Definition isPlain (c : Z) : bool := (32 <=? c)%Z && negb (c =? QUOTE)%Z && negb (c =? BACKSLASH)%Z.

Definition hexDigit (c : Z) : option Z :=
  if isDigit c then Some (c - chr "0")%Z
  else if (chr "a" <=? c)%Z && (c <=? chr "f")%Z then Some (c - chr "a" + 10)%Z
  else if (chr "A" <=? c)%Z && (c <=? chr "F")%Z then Some (c - chr "A" + 10)%Z
  else None.

(** The bytes written at [dst]; a [char] is a byte. *)
Definition utf8Encode (cp : Z) : list Z :=
  if (cp <? 0x80)%Z then [cp]
  else if (cp <? 0x800)%Z then [u8 (Z.lor 0xC0 (Z.shiftr cp 6)); u8 (Z.lor 0x80 (Z.land cp 0x3F))]
  else if (cp <? 0x10000)%Z then
    [u8 (Z.lor 0xE0 (Z.shiftr cp 12)); u8 (Z.lor 0x80 (Z.land (Z.shiftr cp 6) 0x3F)); u8 (Z.lor 0x80 (Z.land cp 0x3F))]
  else
    [u8 (Z.lor 0xF0 (Z.shiftr cp 18)); u8 (Z.lor 0x80 (Z.land (Z.shiftr cp 12) 0x3F));
     u8 (Z.lor 0x80 (Z.land (Z.shiftr cp 6) 0x3F)); u8 (Z.lor 0x80 (Z.land cp 0x3F))].

(** The [switch] on the character after a backslash, but [u]. *)
Definition simpleEscape (c : Z) : option Z :=
  if (c =? QUOTE)%Z then Some QUOTE
  else if (c =? BACKSLASH)%Z then Some BACKSLASH
  else if (c =? chr "/")%Z then Some (chr "/")
  else if (c =? chr "n")%Z then Some 10%Z
  else if (c =? chr "t")%Z then Some 9%Z
  else if (c =? chr "r")%Z then Some 13%Z
  else if (c =? chr "b")%Z then Some 8%Z
  else if (c =? chr "f")%Z then Some 12%Z
  else None.

(** [cap *= 2] until it is enough. *)
Definition double_until (cap need : nat) : option nat :=
  loop (S need) (fun cap => Some (if cap <? need then inl (cap * 2) else inr cap)) cap.

Section Json.
Context `{Libc} (collects : nat -> bool) (CityHash64 : list Z -> Z).

(** ** The parser *)

Section Parsing.
(** The input; the parser reads the copy, with a NUL after it. *)
Context (input : list Z).
Abbreviation copy := (input ++ [0%Z]).
Abbreviation end_ := (length input).

(** The cursor and the scratch buffer. *)
Record JsonParser := mkParser { jp : nat; scratch : list Z }.

Definition char_at (p : nat) : option Z := copy !! p.

(** [while (p < end && P( *p )) p++] *)
Definition skip_while (P : Z -> bool) (p : nat) : option nat :=
  loop (S (S end_)) (fun p => if p <? end_ then c ← char_at p; Some (if P c then inl (S p) else inr p) else Some (inr p)) p.

(** [while (P( *p )) p++]: the NUL ends it. *)
Definition skip_run (P : Z -> bool) (p : nat) : option nat :=
  loop (S (S end_)) (fun p => c ← char_at p; Some (if P c then inl (S p) else inr p)) p.

Definition skipWs (j : JsonParser) : option JsonParser := p ← skip_while isWs (jp j); Some (mkParser p (scratch j)).

(** [realloc] keeps the bytes and leaves the others as they are. *)
Definition scratchEnsure (buffer : list Z) (need : nat) : option (list Z) :=
  if need <=? length buffer then Some buffer
  else
    cap ← double_until (if length buffer =? 0 then 64 else length buffer) need;
    Some (buffer ++ replicate (cap - length buffer) 0%Z).

(** Writing [bytes] at [len], after making room for [need]. *)
Definition scratchWrite (buffer : list Z) (len need : nat) (bytes : list Z) : option (list Z) :=
  buffer ← scratchEnsure buffer need; blit buffer len bytes.

Definition parseLiteral (j : JsonParser) (word : list Z) : option (Outcome unit * JsonParser) :=
  if end_ - jp j <? length word then Some (Fail, j)
  else
    bytes ← slice copy (jp j) (length word);
    if bool_decide (bytes = word) then Some (Ok tt, mkParser (jp j + length word) (scratch j)) else Some (Fail, j).

Fixpoint hexLoop (n : nat) (p : nat) (code : Z) : option (Outcome Z) :=
  match n with
  | O => Some (Ok code)
  | S n =>
      c ← char_at p;
      match hexDigit c with
      | Some digit => hexLoop n (S p) (Z.lor (u32 (Z.shiftl code 4)) digit)
      | None => Some Fail
      end
  end.

Definition readHex4 (p : nat) : option (Outcome Z) := if end_ - p <? 4 then Some Fail else hexLoop 4 p 0.

(** The code point after [\u], and the cursor after it. *)
Definition readEscape (p : nat) : option (Outcome (Z * nat)) :=
  r ← readHex4 p;
  match r with
  | Ok cp =>
      let p := p + 4 in
      if (0xD800 <=? cp)%Z && (cp <=? 0xDBFF)%Z then
        if end_ - p <? 6 then Some Fail
        else
          a ← char_at p; b ← char_at (p + 1);
          if negb (a =? BACKSLASH)%Z || negb (b =? chr "u")%Z then Some Fail
          else
            r ← readHex4 (p + 2);
            match r with
            | Ok lo =>
                if (lo <? 0xDC00)%Z || (0xDFFF <? lo)%Z then Some Fail
                else Some (Ok ((0x10000 + Z.shiftl (cp - 0xD800) 10 + (lo - 0xDC00))%Z, p + 6))
            | Fail => Some Fail
            | Abort => Some Abort
            end
      else if (0xDC00 <=? cp)%Z && (cp <=? 0xDFFF)%Z then Some Fail
      else Some (Ok (cp, p))
  | Fail => Some Fail
  | Abort => Some Abort
  end.

(** One turn of [for (;;)] in [parseString]: the cursor, [len] and the scratch
    buffer, or the end. *)
Definition stringTurn (st : nat * nat * list Z) : option ((nat * nat * list Z) + (Outcome (nat * nat) * list Z)) :=
  let '(run, len, buffer) := st in
  p ← skip_while isPlain run;
  '(len, buffer) ← (if run <? p then
    bytes ← slice copy run (p - run);
    buffer ← scratchWrite buffer len (len + (p - run)) bytes;
    Some (len + (p - run), buffer) else Some (len, buffer));
  if end_ <=? p then Some (inr (Fail, buffer))
  else
    c ← char_at p;
    if (c =? QUOTE)%Z then Some (inr (Ok (S p, len), buffer))
    else if (c <? 32)%Z then Some (inr (Fail, buffer))
    else
      let p := S p in
      if end_ <=? p then Some (inr (Fail, buffer))
      else
        c ← char_at p;
        let p := S p in
        if (c =? chr "u")%Z then
          r ← readEscape p;
          match r with
          | Ok (cp, p) =>
              let bytes := utf8Encode cp in
              buffer ← scratchWrite buffer len (len + 4) bytes;
              Some (inl (p, len + length bytes, buffer))
          | Fail => Some (inr (Fail, buffer))
          | Abort => Some (inr (Abort, buffer))
          end
        else
          match simpleEscape c with
          | Some simple =>
              buffer ← scratchWrite buffer len (len + 1) [simple];
              Some (inl (p, len + 1, buffer))
          | None => Some (inr (Fail, buffer))
          end.

Definition newStringWith (h : Store) (bytes : list Z) : Store * nat :=
  let '(h, p) := allocate collects h in
  (set_names (set_strings (insert p (mkString ClassString 0 bytes)) (st_names h)) h, p).

Definition parseString (j : JsonParser) (h : Store) : option (Outcome nat * JsonParser * Store) :=
  '(r, buffer) ← loop (S (S end_)) stringTurn (S (jp j), 0, scratch j);
  match r with
  | Ok (p, len) =>
      bytes ← slice buffer 0 len;
      let '(h, s) := newStringWith h bytes in
      Some (Ok s, mkParser p buffer, h)
  | Fail => Some (Fail, mkParser (jp j) buffer, h)
  | Abort => Some (Abort, mkParser (jp j) buffer, h)
  end.

(** The strict grammar of a number: its end, and whether it is a float. *)
Definition scanNumber (start : nat) : option (Outcome (nat * bool)) :=
  c ← char_at start;
  let p := if (c =? chr "-")%Z then S start else start in
  c ← char_at p;
  if negb (isDigit c) then Some Fail
  else
    r ← (if (c =? chr "0")%Z then
           c ← char_at (S p);
           Some (if isDigit c then None else Some (S p))
         else q ← skip_run isDigit p; Some (Some q));
    match r with
    | None => Some Fail
    | Some p =>
        c ← char_at p;
        r ← (if (c =? chr ".")%Z then
               c ← char_at (S p);
               if negb (isDigit c) then Some None else q ← skip_run isDigit (S p); Some (Some (q, true))
             else Some (Some (p, false)));
        match r with
        | None => Some Fail
        | Some (p, isFloat) =>
            c ← char_at p;
            if (c =? chr "e")%Z || (c =? chr "E")%Z then
              c ← char_at (S p);
              let p := if (c =? chr "+")%Z || (c =? chr "-")%Z then S (S p) else S p in
              c ← char_at p;
              if negb (isDigit c) then Some Fail else q ← skip_run isDigit p; Some (Ok (q, true))
            else Some (Ok (p, isFloat))
        end
    end.

Definition LIMIT : Z := 0x3FFFFFFFFFFFFFFF.

(** [for (; q < p; q++)]: the value, or [Fail] beyond the limit. *)
Fixpoint accumulate (n : nat) (q : nat) (acc : Z) : option (Outcome Z) :=
  match n with
  | O => Some (Ok acc)
  | S n =>
      c ← char_at q;
      let digit := u32 (c - chr "0") in
      if (Z.quot (LIMIT - digit) 10 <? acc)%Z then Some Fail else accumulate n (S q) (acc * 10 + digit)%Z
  end.

Definition newFloat (h : Store) (bits : Z) : Store * nat :=
  let '(h, p) := allocate collects h in (set_float p bits h, p).

(** A parsed node: [isImmediate] and [immediate], or [object]. *)
Inductive JsonValue := Immediate (v : Value) | Object_ (v : Value).

Definition valueOfNode (v : JsonValue) : Value := match v with Immediate v => v | Object_ v => v end.

Definition parseNumber (j : JsonParser) (h : Store) : option (Outcome JsonValue * JsonParser * Store) :=
  let start := jp j in
  first ← char_at start;
  let negative := (first =? chr "-")%Z in
  r ← scanNumber start;
  match r with
  | Ok (p, true) =>
      let d := strtod (drop start copy) in
      if smallFloatFits d then
        match tagFloat d with
        | Some _ => Some (Ok (Immediate (Flt d)), mkParser p (scratch j), h)
        | None => Some (Abort, j, h)
        end
      else let '(h, f) := newFloat h d in Some (Ok (Object_ (Ref f)), mkParser p (scratch j), h)
  | Ok (p, false) =>
      let q := if negative then S start else start in
      r ← accumulate (p - q) q 0;
      match r with
      | Ok acc =>
          let i := if negative then (- acc)%Z else acc in
          match tagInt i with
          | Some _ => Some (Ok (Immediate (Int i)), mkParser p (scratch j), h)
          | None => Some (Abort, mkParser p (scratch j), h)
          end
      | Fail => Some (Fail, j, h)
      | Abort => Some (Abort, j, h)
      end
  | Fail => Some (Fail, j, h)
  | Abort => Some (Abort, j, h)
  end.

(** [ordCollAddObject] with geometric growth. *)
Definition jsonOrdCollAppend (h : Store) (collection : nat) (v : JsonValue) : option Store :=
  '(array, contents) ← ordCollGetContents h collection;
  size ← ordCollSize h collection;
  '(h, array) ← (if (size =? Z.of_nat (length contents))%Z then
     let grown := if (size <? 8)%Z then 8%Z else (size * 2)%Z in regrow collects h collection contents size grown
   else Some (h, array));
  lastIndex ← ordCollGetLastIndex h collection;
  h ← arrayAtPutObject h array lastIndex (valueOfNode v);
  set_lastIndex h collection (lastIndex + 1).

Definition newDictObject (h : Store) (size : nat) : Store * nat :=
  let dict := allocations (st_names h) in
  let '(m, d) := newDictionary collects (st_names h) size in
  (set_dict dict d (set_names m h), dict).

(** Storing a member: an immediate as a raw value, an object through a handle. *)
Definition putMember (h : Store) (dict key : nat) (v : JsonValue) : option Store :=
  d ← st_dicts h !! dict;
  '(m, d, _) ← match v with
               | Immediate v => stringDictAtPut collects CityHash64 (st_names h) d key (raw (st_names h) v)
               | Object_ v => stringDictAtPutObject collects CityHash64 (st_names h) d key v
               end;
  Some (set_dict dict d (set_names m h)).

(** [j->p < j->end ? *j->p : 0] *)
Definition peek (j : JsonParser) : option Z := if jp j <? end_ then char_at (jp j) else Some 0%Z.

Definition advance (j : JsonParser) : JsonParser := mkParser (S (jp j)) (scratch j).

Abbreviation Parsed A := (option (Outcome A * JsonParser * Store)).

(** The bodies of [parseValue] with [parseObject] and [parseArray], and of the
    [for (;;)] of the last two, with the recursive calls as arguments. *)
Definition valueBody (objectLoop arrayLoop : JsonParser -> Store -> nat -> nat -> Parsed unit)
    (j : JsonParser) (h : Store) (depth : nat) : Parsed JsonValue :=
  if JSON_MAX_DEPTH <? depth then Some (Fail, j, h)
  else
    j ← skipWs j;
    if end_ <=? jp j then Some (Fail, j, h)
    else
      c ← char_at (jp j);
      if (c =? chr "{")%Z then
        let '(h, dict) := newDictObject h 8 in
        j ← skipWs (advance j);
        c ← char_at (jp j);
        if (c =? chr "}")%Z then Some (Ok (Object_ (Ref dict)), advance j, h)
        else
          '(r, j, h) ← objectLoop j h depth dict;
          Some (match r with Ok _ => Ok (Object_ (Ref dict)) | Fail => Fail | Abort => Abort end, j, h)
      else if (c =? chr "[")%Z then
        let '(h, array) := newOrdColl collects h 8 in
        j ← skipWs (advance j);
        c ← char_at (jp j);
        if (c =? chr "]")%Z then Some (Ok (Object_ (Ref array)), advance j, h)
        else
          '(r, j, h) ← arrayLoop j h depth array;
          Some (match r with Ok _ => Ok (Object_ (Ref array)) | Fail => Fail | Abort => Abort end, j, h)
      else if (c =? QUOTE)%Z then
        '(r, j, h) ← parseString j h;
        Some (match r with Ok s => Ok (Object_ (Ref s)) | Fail => Fail | Abort => Abort end, j, h)
      else if (c =? chr "t")%Z then
        '(r, j) ← parseLiteral j (bytes_of_string "true");
        Some (match r with Ok _ => Ok (Object_ (Boolean true)) | Fail => Fail | Abort => Abort end, j, h)
      else if (c =? chr "f")%Z then
        '(r, j) ← parseLiteral j (bytes_of_string "false");
        Some (match r with Ok _ => Ok (Object_ (Boolean false)) | Fail => Fail | Abort => Abort end, j, h)
      else if (c =? chr "n")%Z then
        '(r, j) ← parseLiteral j (bytes_of_string "null");
        Some (match r with Ok _ => Ok (Object_ Nil) | Fail => Fail | Abort => Abort end, j, h)
      else if (c =? chr "-")%Z || isDigit c then parseNumber j h
      else Some (Fail, j, h).

Definition objectBody (parseValue : JsonParser -> Store -> nat -> Parsed JsonValue) (again : JsonParser -> Store -> nat -> nat -> Parsed unit)
    (j : JsonParser) (h : Store) (depth dict : nat) : Parsed unit :=
  j ← skipWs j;
  c ← char_at (jp j);
  if negb (c =? QUOTE)%Z then Some (Fail, j, h)
  else
    '(r, j, h) ← parseString j h;
    match r with
    | Fail => Some (Fail, j, h)
    | Abort => Some (Abort, j, h)
    | Ok key =>
        j ← skipWs j;
        c ← char_at (jp j);
        if negb (c =? chr ":")%Z then Some (Fail, j, h)
        else
          '(r, j, h) ← parseValue (advance j) h (S depth);
          match r with
          | Fail => Some (Fail, j, h)
          | Abort => Some (Abort, j, h)
          | Ok val =>
              h ← putMember h dict key val;
              j ← skipWs j;
              c ← peek j;
              if (c =? chr "}")%Z then Some (Ok tt, advance j, h)
              else if negb (c =? chr ",")%Z then Some (Fail, j, h)
              else again (advance j) h depth dict
          end
    end.

Definition arrayBody (parseValue : JsonParser -> Store -> nat -> Parsed JsonValue) (again : JsonParser -> Store -> nat -> nat -> Parsed unit)
    (j : JsonParser) (h : Store) (depth array : nat) : Parsed unit :=
  '(r, j, h) ← parseValue j h (S depth);
  match r with
  | Fail => Some (Fail, j, h)
  | Abort => Some (Abort, j, h)
  | Ok val =>
      h ← jsonOrdCollAppend h array val;
      j ← skipWs j;
      c ← peek j;
      if (c =? chr "]")%Z then Some (Ok tt, advance j, h)
      else if negb (c =? chr ",")%Z then Some (Fail, j, h)
      else again (advance j) h depth array
  end.

Fixpoint parseValue (fuel : nat) : JsonParser -> Store -> nat -> Parsed JsonValue :=
  match fuel with
  | O => fun _ _ _ => None
  | S fuel => valueBody (fun j => objectLoop fuel j) (fun j => arrayLoop fuel j)
  end
with objectLoop (fuel : nat) : JsonParser -> Store -> nat -> nat -> Parsed unit :=
  match fuel with
  | O => fun _ _ _ _ => None
  | S fuel => objectBody (fun j => parseValue fuel j) (fun j => objectLoop fuel j)
  end
with arrayLoop (fuel : nat) : JsonParser -> Store -> nat -> nat -> Parsed unit :=
  match fuel with
  | O => fun _ _ _ _ => None
  | S fuel => arrayBody (fun j => parseValue fuel j) (fun j => arrayLoop fuel j)
  end.

Definition parse_fuel : nat := 2 * end_ + 3.

Definition jsonParse (h : Store) : option (Outcome Value * Store) :=
  '(r, j, h) ← parseValue parse_fuel (mkParser 0 []) h 0;
  match r with
  | Fail => Some (Fail, h)
  | Abort => Some (Abort, h)
  | Ok v => j ← skipWs j; Some (if jp j =? end_ then Ok (valueOfNode v) else Fail, h)
  end.
End Parsing.
End Json.
