(* ===== verification/JsonGrammar.v ===== *)
(** * JsonGrammar

    The grammar of JSON texts (RFC 8259, with surrogates in pairs only) as an
    inductive relation between a text and the value it denotes, with character
    classes, escapes and UTF-8 of its own, and a reader of lists that follows
    [src/vm/runtime/Json.c] without its buffers and objects.  The reader accepts a text exactly if the grammar does, within the limits on
    nesting and integers, and answers the value. *)
From S2P Require Import Prelude Tagging.
From stdpp Require Import base list gmap numbers.
From S2P Require Import Dictionary Collections Json.

#[local] Open Scope nat_scope.

Inductive Json :=
| JNull
| JBool (b : bool)
| JInt (z : Z)
| JFloat (bits : Z)
| JString (s : list Z)
| JArray (l : list Json)
| JObject (l : list (list Z * Json)).

(** ** Limits *)

Fixpoint fits (depth : nat) (t : Json) : bool :=
  (depth <=? JSON_MAX_DEPTH) &&
  match t with
  | JArray l => forallb (fits (S depth)) l
  | JObject l => forallb (fun '(_, t) => fits (S depth) t) l
  | _ => true
  end.

(** Every integer is a SmallInteger. *)
Fixpoint tame (t : Json) : bool :=
  match t with
  | JInt z => bool_decide (small z)
  | JArray l => forallb tame l
  | JObject l => forallb (fun '(_, t) => tame t) l
  | _ => true
  end.

(** ** Pieces of text *)

Definition hd0 (l : list Z) : Z := default 0%Z (head l).

(** The character classes of the grammar, by their code points. *)
Definition between (lo hi c : Z) : bool := (lo <=? c)%Z && (c <=? hi)%Z.
Definition white_byte (c : Z) : bool := (c =? 0x20)%Z || (c =? 0x09)%Z || (c =? 0x0A)%Z || (c =? 0x0D)%Z.
Definition digit_byte (c : Z) : bool := between 0x30 0x39 c.

(** A text is a row of bytes, and those of characters beyond ASCII stand for
    themselves. *)
Definition unescaped (c : Z) : bool := between 0x20 0x21 c || between 0x23 0x5B c || (0x5D <=? c)%Z.

(** What a backslash and a character stand for, [\u] apart. *)
Definition escapes : list (Z * Z) :=
  [(0x22, 0x22); (0x5C, 0x5C); (0x2F, 0x2F); (0x62, 0x08); (0x66, 0x0C); (0x6E, 0x0A); (0x72, 0x0D); (0x74, 0x09)]%Z.
Definition escape_byte (e : Z) : option Z := snd <$> find (fun '(x, _) => (x =? e)%Z) escapes.

Definition hexdig (c : Z) : option Z :=
  if between 0x30 0x39 c then Some (c - 0x30)%Z
  else if between 0x41 0x46 c then Some (c - 0x41 + 10)%Z
  else if between 0x61 0x66 c then Some (c - 0x61 + 10)%Z
  else None.

(** UTF-8 (RFC 3629): six bits of the code point in each byte but the first. *)
Definition utf8_bytes (cp : Z) : list Z :=
  if (cp <=? 0x7F)%Z then [cp]
  else if (cp <=? 0x7FF)%Z then [0xC0 + cp / 64; 0x80 + cp mod 64]%Z
  else if (cp <=? 0xFFFF)%Z then [0xE0 + cp / 64 / 64; 0x80 + cp / 64 mod 64; 0x80 + cp mod 64]%Z
  else [0xF0 + cp / 64 / 64 / 64; 0x80 + cp / 64 / 64 mod 64; 0x80 + cp / 64 mod 64; 0x80 + cp mod 64]%Z.

Definition hexValue (l : list Z) : option Z :=
  match l with
  | [a; b; c; d] => a ← hexdig a; b ← hexdig b; c ← hexdig c; d ← hexdig d; Some (((a * 16 + b) * 16 + c) * 16 + d)%Z
  | _ => None
  end.

Definition surrogate_hi (c : Z) : bool := (0xD800 <=? c)%Z && (c <=? 0xDBFF)%Z.
Definition surrogate_lo (c : Z) : bool := (0xDC00 <=? c)%Z && (c <=? 0xDFFF)%Z.

(** The inside of a string, and the bytes it stands for. *)
Inductive chars : list Z -> list Z -> Prop :=
| chars_nil : chars [] []
| chars_plain c t s : unescaped c = true -> chars t s -> chars (c :: t) (c :: s)
| chars_simple e c t s : escape_byte e = Some c -> chars t s -> chars (BACKSLASH :: e :: t) (c :: s)
| chars_code x cp t s : hexValue x = Some cp -> surrogate_hi cp = false -> surrogate_lo cp = false -> chars t s ->
    chars (BACKSLASH :: chr "u" :: x ++ t) (utf8_bytes cp ++ s)
| chars_pair x y hi lo t s : hexValue x = Some hi -> hexValue y = Some lo -> surrogate_hi hi = true -> surrogate_lo lo = true -> chars t s ->
    chars (BACKSLASH :: chr "u" :: x ++ BACKSLASH :: chr "u" :: y ++ t) (utf8_bytes (0x10000 + (hi - 0xD800) * 1024 + (lo - 0xDC00)) ++ s).

Definition digits (l : list Z) : Prop := Forall (fun c => digit_byte c = true) l.

Definition sign_part (s : list Z) : Prop := s = [] \/ s = [chr "-"].
Definition int_part (i : list Z) : Prop := i = [chr "0"] \/ exists c r, i = c :: r /\ digit_byte c = true /\ c <> chr "0" /\ digits r.
Definition frac_part (f : list Z) : Prop := f = [] \/ exists r, f = chr "." :: r /\ r <> [] /\ digits r.
Definition exp_part (e : list Z) : Prop := e = [] \/ exists m s r, e = m :: s ++ r /\ (m = chr "e" \/ m = chr "E") /\
  (s = [] \/ s = [chr "+"] \/ s = [chr "-"]) /\ r <> [] /\ digits r.

(** The value of a row of digits. *)
Definition decimal (l : list Z) : Z := fold_left (fun acc c => (acc * 10 + (c - chr "0"))%Z) l 0%Z.
Definition signed (s : list Z) (n : Z) : Z := if decide (s = []) then n else (- n)%Z.

Definition ws (w : list Z) : Prop := Forall (fun c => white_byte c = true) w.

Section Grammar.
Context `{Libc}.

(** ** The grammar *)

Inductive value : list Z -> Json -> Prop :=
| v_null : value (bytes_of_string "null") JNull
| v_true : value (bytes_of_string "true") (JBool true)
| v_false : value (bytes_of_string "false") (JBool false)
| v_int s i : sign_part s -> int_part i -> value (s ++ i) (JInt (signed s (decimal i)))
| v_float s i f e : sign_part s -> int_part i -> frac_part f -> exp_part e -> f ++ e <> [] ->
    value (s ++ i ++ f ++ e) (JFloat (strtod (s ++ i ++ f ++ e)))
| v_string t s : chars t s -> value (QUOTE :: t ++ [QUOTE]) (JString s)
| v_array_empty w : ws w -> value (chr "[" :: w ++ [chr "]"]) (JArray [])
| v_array t l : elements t l -> value (chr "[" :: t ++ [chr "]"]) (JArray l)
| v_object_empty w : ws w -> value (chr "{" :: w ++ [chr "}"]) (JObject [])
| v_object t l : members t l -> value (chr "{" :: t ++ [chr "}"]) (JObject l)
with elements : list Z -> list Json -> Prop :=
| e_one w t v w' : ws w -> value t v -> ws w' -> elements (w ++ t ++ w') [v]
| e_more w t v w' u l : ws w -> value t v -> ws w' -> elements u l -> elements (w ++ t ++ w' ++ chr "," :: u) (v :: l)
with members : list Z -> list (list Z * Json) -> Prop :=
| m_one w k s w' w'' t v w3 : ws w -> chars k s -> ws w' -> ws w'' -> value t v -> ws w3 ->
    members (w ++ QUOTE :: k ++ QUOTE :: w' ++ chr ":" :: w'' ++ t ++ w3) [(s, v)]
| m_more w k s w' w'' t v w3 u l : ws w -> chars k s -> ws w' -> ws w'' -> value t v -> ws w3 -> members u l ->
    members (w ++ QUOTE :: k ++ QUOTE :: w' ++ chr ":" :: w'' ++ t ++ w3 ++ chr "," :: u) ((s, v) :: l).

Scheme value_rect := Minimality for value Sort Prop
with elements_rect := Minimality for elements Sort Prop
with members_rect := Minimality for members Sort Prop.
Combined Scheme grammar_ind from value_rect, elements_rect, members_rect.

Definition document (text : list Z) (t : Json) : Prop := exists w u w', text = w ++ u ++ w' /\ ws w /\ value u t /\ ws w'.

(** ** The reader *)

Fixpoint span (P : Z -> bool) (l : list Z) : list Z * list Z :=
  match l with
  | c :: l' => if P c then let '(a, b) := span P l' in (c :: a, b) else ([], l)
  | [] => ([], [])
  end.

Definition dropWs (l : list Z) : list Z := snd (span white_byte l).

(** Up to the closing quote. *)
Fixpoint readChars (l : list Z) : option (list Z * list Z) :=
  match l with
  | [] => None
  | c :: l =>
      if unescaped c then '(s, l) ← readChars l; Some (c :: s, l)
      else if (c =? QUOTE)%Z then Some ([], l)
      else if (c <? 32)%Z then None
      else
        match l with
        | [] => None
        | e :: l =>
            if (e =? chr "u")%Z then
              match l with
              | x1 :: x2 :: x3 :: x4 :: l =>
                  hi ← hexValue [x1; x2; x3; x4];
                  if surrogate_hi hi then
                    match l with
                    | b :: u :: y1 :: y2 :: y3 :: y4 :: l =>
                        if (b =? BACKSLASH)%Z && (u =? chr "u")%Z then
                          lo ← hexValue [y1; y2; y3; y4];
                          if surrogate_lo lo then
                            '(s, l) ← readChars l; Some (utf8_bytes (0x10000 + (hi - 0xD800) * 1024 + (lo - 0xDC00)) ++ s, l)
                          else None
                        else None
                    | _ => None
                    end
                  else if surrogate_lo hi then None
                  else '(s, l) ← readChars l; Some (utf8_bytes hi ++ s, l)
              | _ => None
              end
            else c ← escape_byte e; '(s, l) ← readChars l; Some (c :: s, l)
        end
  end.

(** The parts of a number, and what follows. *)
Definition readNumber (l : list Z) : option (list Z * list Z * list Z * list Z * list Z) :=
  let '(s, l) := if (hd0 l =? chr "-")%Z then ([chr "-"], tail l) else ([], l) in
  if negb (digit_byte (hd0 l)) then None
  else
    '(i, l) ← (if (hd0 l =? chr "0")%Z then (if digit_byte (hd0 (tail l)) then None else Some ([chr "0"], tail l)) else Some (span digit_byte l));
    '(f, l) ← (if (hd0 l =? chr ".")%Z then
                 (if negb (digit_byte (hd0 (tail l))) then None else let '(a, b) := span digit_byte (tail l) in Some (chr "." :: a, b))
               else Some ([], l));
    if (hd0 l =? chr "e")%Z || (hd0 l =? chr "E")%Z then
      let m := hd0 l in
      let '(s', l) := if (hd0 (tail l) =? chr "+")%Z || (hd0 (tail l) =? chr "-")%Z then ([hd0 (tail l)], tail (tail l)) else ([], tail l) in
      if negb (digit_byte (hd0 l)) then None else let '(a, b) := span digit_byte l in Some (s, i, f, m :: s' ++ a, b)
    else Some (s, i, f, [], l).

Definition readScalar (l : list Z) : Outcome (Json * list Z) :=
  match readNumber l with
  | None => Fail
  | Some (s, i, f, e, rest) =>
      if decide (f ++ e = []) then
        if (LIMIT <? decimal i)%Z then Fail
        else if decide (small (signed s (decimal i))) then Ok (JInt (signed s (decimal i)), rest) else Abort
      else Ok (JFloat (strtod (l ++ [0%Z])), rest)
  end.

Definition readWord (word : list Z) (t : Json) (l : list Z) : Outcome (Json * list Z) :=
  if bool_decide (take (length word) l = word) then Ok (t, drop (length word) l) else Fail.

Fixpoint readValue (fuel depth : nat) (l : list Z) : option (Outcome (Json * list Z)) :=
  match fuel with
  | O => None
  | S fuel =>
      if JSON_MAX_DEPTH <? depth then Some Fail
      else
        let l := dropWs l in
        match l with
        | [] => Some Fail
        | c :: rest =>
            if (c =? chr "{")%Z then
              let l := dropWs rest in
              if (hd0 l =? chr "}")%Z then Some (Ok (JObject [], tail l))
              else r ← readMembers fuel depth l; Some (match r with Ok (ms, l) => Ok (JObject ms, l) | Fail => Fail | Abort => Abort end)
            else if (c =? chr "[")%Z then
              let l := dropWs rest in
              if (hd0 l =? chr "]")%Z then Some (Ok (JArray [], tail l))
              else r ← readElements fuel depth l; Some (match r with Ok (vs, l) => Ok (JArray vs, l) | Fail => Fail | Abort => Abort end)
            else if (c =? QUOTE)%Z then Some (match readChars rest with Some (s, l) => Ok (JString s, l) | None => Fail end)
            else if (c =? chr "t")%Z then Some (readWord (bytes_of_string "true") (JBool true) l)
            else if (c =? chr "f")%Z then Some (readWord (bytes_of_string "false") (JBool false) l)
            else if (c =? chr "n")%Z then Some (readWord (bytes_of_string "null") JNull l)
            else if (c =? chr "-")%Z || digit_byte c then Some (readScalar l)
            else Some Fail
        end
  end
with readMembers (fuel depth : nat) (l : list Z) : option (Outcome (list (list Z * Json) * list Z)) :=
  match fuel with
  | O => None
  | S fuel =>
      let l := dropWs l in
      if negb (hd0 l =? QUOTE)%Z then Some Fail
      else
        match readChars (tail l) with
        | None => Some Fail
        | Some (key, l) =>
            let l := dropWs l in
            if negb (hd0 l =? chr ":")%Z then Some Fail
            else
              r ← readValue fuel (S depth) (tail l);
              match r with
              | Ok (v, l) =>
                  let l := dropWs l in
                  if (hd0 l =? chr "}")%Z then Some (Ok ([(key, v)], tail l))
                  else if negb (hd0 l =? chr ",")%Z then Some Fail
                  else r ← readMembers fuel depth (tail l); Some (match r with Ok (ms, l) => Ok ((key, v) :: ms, l) | Fail => Fail | Abort => Abort end)
              | Fail => Some Fail
              | Abort => Some Abort
              end
        end
  end
with readElements (fuel depth : nat) (l : list Z) : option (Outcome (list Json * list Z)) :=
  match fuel with
  | O => None
  | S fuel =>
      r ← readValue fuel (S depth) l;
      match r with
      | Ok (v, l) =>
          let l := dropWs l in
          if (hd0 l =? chr "]")%Z then Some (Ok ([v], tail l))
          else if negb (hd0 l =? chr ",")%Z then Some Fail
          else r ← readElements fuel depth (tail l); Some (match r with Ok (vs, l) => Ok (v :: vs, l) | Fail => Fail | Abort => Abort end)
      | Fail => Some Fail
      | Abort => Some Abort
      end
  end.

Definition readDocument (text : list Z) : option (Outcome Json) :=
  r ← readValue (2 * length text + 3) 0 text;
  Some (match r with Ok (t, l) => if decide (dropWs l = []) then Ok t else Fail | Fail => Fail | Abort => Abort end).

(** ** Pieces *)

Lemma span_spec P l a b : span P l = (a, b) -> l = a ++ b /\ Forall (fun c => P c = true) a /\ (b = [] \/ P (hd0 b) = false).
Proof.
  revert a b. induction l as [|c l IH]; intros a b; cbn.
  - intros [= <- <-]. split_and!; [done|done|by left].
  - destruct (P c) eqn:E.
    + destruct (span P l) as [a' b'] eqn:S. intros [= <- <-]. destruct (IH a' b' eq_refl) as (-> & Ha & Hb). split_and!; [done|by constructor|done].
    + intros [= <- <-]. split_and!; [done|done|by right].
Qed.

Lemma span_app P a b : Forall (fun c => P c = true) a -> (b = [] \/ P (hd0 b) = false) -> span P (a ++ b) = (a, b).
Proof.
  intros Ha Hb. induction Ha as [|c a Hc Ha IH]; cbn; [|by rewrite Hc, IH]. destruct b as [|c b]; [done|]. cbn. destruct Hb as [|Hb]; [done|].
  cbn in Hb. by rewrite Hb.
Qed.

Lemma dropWs_spec l : exists w, ws w /\ l = w ++ dropWs l /\ (dropWs l = [] \/ white_byte (hd0 (dropWs l)) = false).
Proof.
  unfold dropWs. destruct (span white_byte l) as [w b] eqn:S. destruct (span_spec _ _ _ _ S) as (-> & Hw & Hb). exists w. by split_and!.
Qed.

Lemma dropWs_app w l : ws w -> (l = [] \/ white_byte (hd0 l) = false) -> dropWs (w ++ l) = l.
Proof. intros Hw Hl. unfold dropWs. by rewrite (span_app _ w l Hw Hl). Qed.

Lemma dropWs_ws w : ws w -> dropWs w = [].
Proof. intros Hw. rewrite <- (app_nil_r w). by apply dropWs_app; [|left]. Qed.

Lemma hd0_cons (c : Z) l : hd0 l = c -> c <> 0%Z -> l = c :: tail l.
Proof. destruct l as [|x l]; cbn; [by intros <-|by intros <-]. Qed.

Lemma hexValue_inv x v : hexValue x = Some v -> exists a b c d, x = [a; b; c; d].
Proof. destruct x as [|a [|b [|c [|d [|]]]]]; cbn; try done. intros _. by exists a, b, c, d. Qed.

Lemma not_plain c : unescaped c = false -> (c =? QUOTE)%Z = false -> (c <? 32)%Z = false -> c = BACKSLASH.
Proof.
  unfold unescaped, between, BACKSLASH, QUOTE. intros Hp Hq%Z.eqb_neq Hc%Z.ltb_ge.
  rewrite !orb_false_iff, !andb_false_iff, !Z.leb_gt in Hp. lia.
Qed.

Lemma readChars_sound l s l' : readChars l = Some (s, l') -> exists t, l = t ++ QUOTE :: l' /\ chars t s.
Proof.
  remember (length l) as n eqn:En. revert l s l' En. induction (lt_wf n) as [n _ IH]. intros l s l' -> Hr.
  destruct l as [|c l]; [done|]. cbn [readChars] in Hr. destruct (unescaped c) eqn:Hp.
  { destruct (readChars l) as [[s' r]|] eqn:E; [|done]. cbn [mbind option_bind] in Hr. injection Hr as <- <-.
    destruct (IH (length l) ltac:(cbn; lia) l s' r eq_refl E) as (t & -> & Ht). exists (c :: t). split; [done|by constructor]. }
  destruct (c =? QUOTE)%Z eqn:Hq; [apply Z.eqb_eq in Hq as ->; injection Hr as <- <-; exists []; split; [done|constructor]|].
  destruct (c <? 32)%Z eqn:Hc; [done|]. pose proof (not_plain c Hp Hq Hc) as ->. destruct l as [|e l]; [done|].
  destruct (e =? chr "u")%Z eqn:Eu.
  2: { destruct (escape_byte e) as [x|] eqn:Es; [|done]. cbn [mbind option_bind] in Hr. destruct (readChars l) as [[s' r]|] eqn:E; [|done]. cbn [mbind option_bind] in Hr. injection Hr as <- <-.
    destruct (IH (length l) ltac:(cbn; lia) l s' r eq_refl E) as (t & -> & Ht). exists (BACKSLASH :: e :: t). split; [done|by constructor]. }
  apply Z.eqb_eq in Eu as ->. destruct l as [|x1 [|x2 [|x3 [|x4 l]]]]; try done.
  destruct (hexValue [x1; x2; x3; x4]) as [hi|] eqn:Ex; cbn [mbind option_bind] in Hr; [|done]. destruct (surrogate_hi hi) eqn:Eh.
  - destruct l as [|b [|u [|y1 [|y2 [|y3 [|y4 l]]]]]]; try done. destruct (b =? BACKSLASH)%Z eqn:Eb; [|done]. destruct (u =? chr "u")%Z eqn:Eu; [|done].
    apply Z.eqb_eq in Eb as ->, Eu as ->. cbn [andb] in Hr.
    destruct (hexValue [y1; y2; y3; y4]) as [lo|] eqn:Ey; cbn [mbind option_bind] in Hr; [|done]. destruct (surrogate_lo lo) eqn:El; [|done].
    destruct (readChars l) as [[s' r]|] eqn:E; [|done]. cbn [mbind option_bind] in Hr. injection Hr as <- <-.
    destruct (IH (length l) ltac:(cbn; lia) l s' r eq_refl E) as (t & -> & Ht).
    exists (BACKSLASH :: chr "u" :: [x1; x2; x3; x4] ++ BACKSLASH :: chr "u" :: [y1; y2; y3; y4] ++ t). split; [done|by constructor].
  - destruct (surrogate_lo hi) eqn:El; [done|]. destruct (readChars l) as [[s' r]|] eqn:E; [|done]. cbn [mbind option_bind] in Hr. injection Hr as <- <-.
    destruct (IH (length l) ltac:(cbn; lia) l s' r eq_refl E) as (t & -> & Ht).
    exists (BACKSLASH :: chr "u" :: [x1; x2; x3; x4] ++ t). split; [done|by constructor].
Qed.

Lemma readChars_complete t s l : chars t s -> readChars (t ++ QUOTE :: l) = Some (s, l).
Proof.
  induction 1 as [|c t s Hc _ IH|e c t s He _ IH|x cp t s Hx Hh Hl _ IH|x y hi lo t s Hx Hy Hh Hl _ IH].
  - done.
  - cbn. by rewrite Hc, IH.
  - cbn [app readChars]. change (unescaped BACKSLASH) with false. change (BACKSLASH =? QUOTE)%Z with false. change (BACKSLASH <? 32)%Z with false. cbv iota.
    destruct (Z.eqb_spec e (chr "u")) as [->|]; [done|]. rewrite He. cbn [mbind option_bind]. by rewrite IH.
  - destruct (hexValue_inv _ _ Hx) as (a & b & c & d & ->). cbn [app readChars].
    change (unescaped BACKSLASH) with false. change (BACKSLASH =? QUOTE)%Z with false. change (BACKSLASH <? 32)%Z with false. rewrite Z.eqb_refl. cbv iota.
    rewrite Hx. cbn [mbind option_bind]. rewrite Hh, Hl, IH. done.
  - destruct (hexValue_inv _ _ Hx) as (a & b & c & d & ->), (hexValue_inv _ _ Hy) as (a' & b' & c' & d' & ->). cbn [app readChars].
    change (unescaped BACKSLASH) with false. change (BACKSLASH =? QUOTE)%Z with false. change (BACKSLASH <? 32)%Z with false. rewrite !Z.eqb_refl. cbv iota.
    rewrite Hx. cbn [mbind option_bind andb]. rewrite Hh. cbn [andb]. rewrite Hy. cbn [mbind option_bind]. rewrite Hl, IH. done.
Qed.

(** ** Numbers *)

(** What may follow a number: nothing that would go on with it. *)
Definition ends_number (f e rest : list Z) : Prop :=
  digit_byte (hd0 rest) = false /\ (e = [] -> hd0 rest <> chr "e" /\ hd0 rest <> chr "E") /\ (f ++ e = [] -> hd0 rest <> chr ".").

Lemma digit_span l a b : digit_byte (hd0 l) = true -> span digit_byte l = (a, b) ->
  l = a ++ b /\ digits a /\ digit_byte (hd0 b) = false /\ exists c r, a = c :: r /\ c = hd0 l /\ digits r.
Proof.
  intros Hd S. destruct (span_spec _ _ _ _ S) as (-> & Ha & Hb). split_and!; [done|done|by destruct Hb as [->|]|].
  destruct a as [|c r].
  - cbn in Hd. destruct Hb as [->|Hb]; [done|congruence].
  - exists c, r. split_and!; [done|done|]. by inversion Ha.
Qed.

Lemma digits_span a b : digits a -> digit_byte (hd0 b) = false -> span digit_byte (a ++ b) = (a, b).
Proof. intros Ha Hb. apply span_app; [done|by right]. Qed.

Lemma readNumber_sound l s i f e rest : readNumber l = Some (s, i, f, e, rest) ->
  l = s ++ i ++ f ++ e ++ rest /\ sign_part s /\ int_part i /\ frac_part f /\ exp_part e /\ ends_number f e rest.
Proof.
  unfold readNumber. intros Hr.
  assert (exists s' l', (if (hd0 l =? chr "-")%Z then ([chr "-"], tail l) else ([], l)) = (s', l') /\ l = s' ++ l' /\ sign_part s') as (s' & l1 & E1 & El & Hs).
  { destruct (Z.eqb_spec (hd0 l) (chr "-")) as [E|]; eexists _, _; (split; [done|]); [|by split; [|left]].
    split; [by apply hd0_cons|by right]. }
  rewrite E1 in Hr. clear E1. destruct (digit_byte (hd0 l1)) eqn:Hd; cbn [negb] in Hr; [|done].
  assert (forall r, (if (hd0 l1 =? chr "0")%Z then if digit_byte (hd0 (tail l1)) then None else Some ([chr "0"], tail l1) else Some (span digit_byte l1)) = Some r ->
    l1 = r.1 ++ r.2 /\ int_part r.1 /\ digit_byte (hd0 r.2) = false) as Hi.
  { intros [i' l2]. destruct (Z.eqb_spec (hd0 l1) (chr "0")) as [E|E].
    - destruct (digit_byte (hd0 (tail l1))) eqn:Hd'; [done|]. intros [= <- <-]. cbn. split_and!; [by apply hd0_cons|by left|done].
    - intros [= S]. destruct (digit_span _ _ _ Hd S) as (-> & Ha & Hb & c & r & -> & Hc & Hr'). cbn [fst snd]. split_and!; [done| |done].
      right. exists c, r. inversion Ha; subst. split_and!; [done|done|done|done]. }
  destruct (if (hd0 l1 =? chr "0")%Z then _ else _) as [[i' l2]|] eqn:Ei; cbn [mbind option_bind] in Hr; [|done].
  destruct (Hi _ eq_refl) as (El1 & Hip & Hd2). cbn [fst snd] in *. clear Hi Ei.
  assert (forall r, (if (hd0 l2 =? chr ".")%Z then if negb (digit_byte (hd0 (tail l2))) then None else let '(a, b) := span digit_byte (tail l2) in Some (chr "." :: a, b)
     else Some ([], l2)) = Some r -> l2 = r.1 ++ r.2 /\ frac_part r.1 /\ digit_byte (hd0 r.2) = false /\ (r.1 = [] -> hd0 r.2 <> chr ".")) as Hf.
  { intros [f' l3]. destruct (Z.eqb_spec (hd0 l2) (chr ".")) as [E|E].
    - destruct (digit_byte (hd0 (tail l2))) eqn:Hd'; [|done]. cbn [negb]. destruct (span digit_byte (tail l2)) as [a b] eqn:S. intros [= <- <-].
      destruct (digit_span _ _ _ Hd' S) as (Et & Ha & Hb & c & r & Ea & _). cbn. split_and!; [| |done|done].
      + rewrite (hd0_cons _ l2 E ltac:(done)), Et. done.
      + right. exists a. split_and!; [done|by rewrite Ea|done].
    - intros [= <- <-]. cbn. split_and!; [done|by left|done|done]. }
  destruct (if (hd0 l2 =? chr ".")%Z then _ else _) as [[f' l3]|] eqn:Ef; cbn [mbind option_bind] in Hr; [|done].
  destruct (Hf _ eq_refl) as (El2 & Hfp & Hd3 & Hdot). cbn [fst snd] in *. clear Hf Ef. subst l l1 l2.
  destruct ((hd0 l3 =? chr "e")%Z || (hd0 l3 =? chr "E")%Z) eqn:Ee.
  - assert (exists x l4, (if (hd0 (tail l3) =? chr "+")%Z || (hd0 (tail l3) =? chr "-")%Z then ([hd0 (tail l3)], tail (tail l3)) else ([], tail l3)) = (x, l4) /\
      tail l3 = x ++ l4 /\ (x = [] \/ x = [chr "+"] \/ x = [chr "-"])) as (x & l4 & E4 & Et & Hx).
    { destruct (Z.eqb_spec (hd0 (tail l3)) (chr "+")) as [E|E]; [|destruct (Z.eqb_spec (hd0 (tail l3)) (chr "-")) as [E'|E']]; cbn [orb];
        eexists _, _; (split; [done|]).
      - rewrite E. split; [by apply hd0_cons|by right; left].
      - rewrite E'. split; [by apply hd0_cons|by right; right].
      - by split; [|left]. }
    rewrite E4 in Hr. destruct (digit_byte (hd0 l4)) eqn:Hd4; cbn [negb] in Hr; [|done]. destruct (span digit_byte l4) as [a b] eqn:S.
    injection Hr as <- <- <- <- <-. destruct (digit_span _ _ _ Hd4 S) as (-> & Ha & Hb & c & r & Ea & _).
    apply orb_true_iff in Ee. rewrite !Z.eqb_eq in Ee.
    assert (l3 = hd0 l3 :: tail l3) as E3 by (apply hd0_cons; [done|destruct Ee as [-> | ->]; done]).
    split_and!; [|done|done|done| |].
    + rewrite E3 at 1. rewrite Et. cbn [app]. rewrite <- !app_assoc. done.
    + right. exists (hd0 l3), x, a. split_and!; [done|done|done|by rewrite Ea|done].
    + split_and!; [done|done|]. by destruct f'.
  - injection Hr as <- <- <- <- <-. apply orb_false_iff in Ee. rewrite !Z.eqb_neq in Ee. split_and!; [by cbn|done|done|done|by left|].
    split_and!; [done|by intros _|]. rewrite app_nil_r. done.
Qed.

Lemma int_part_digits i : int_part i -> exists c r, i = c :: r /\ digit_byte c = true /\ digits r.
Proof.
  intros [->|(c & r & -> & Hc & _ & Hr)]; [|by exists c, r]. exists (chr "0"), []. split_and!; [done|done|constructor].
Qed.

Lemma digit_not c x : digit_byte c = true -> digit_byte x = false -> c <> x.
Proof. intros H1 H2 ->. congruence. Qed.

Lemma frac_tail f e rest : frac_part f -> exp_part e -> ends_number f e rest -> digit_byte (hd0 (f ++ e ++ rest)) = false.
Proof.
  intros [->|(r & -> & _)] He (Hd & _); [|done]. destruct He as [->|(m & s & r & -> & Hm & _)]; [done|]. cbn. by destruct Hm as [-> | ->].
Qed.

Lemma exp_tail f e rest : exp_part e -> ends_number f e rest -> digit_byte (hd0 (e ++ rest)) = false /\ (f = [] -> hd0 (e ++ rest) <> chr ".").
Proof.
  intros [->|(m & s & r & -> & Hm & _)] (Hd & _ & Hdot); cbn.
  - split; [done|]. intros ->. by apply Hdot.
  - destruct Hm as [-> | ->]; by split.
Qed.

Lemma readNumber_complete s i f e rest : sign_part s -> int_part i -> frac_part f -> exp_part e -> ends_number f e rest ->
  readNumber (s ++ i ++ f ++ e ++ rest) = Some (s, i, f, e, rest).
Proof.
  intros Hs Hi Hf He Hend. destruct (int_part_digits i Hi) as (c & r & Ei & Hc & Hr). unfold readNumber.
  assert ((if (hd0 (s ++ i ++ f ++ e ++ rest) =? chr "-")%Z then ([chr "-"], tail (s ++ i ++ f ++ e ++ rest)) else ([], s ++ i ++ f ++ e ++ rest)) =
    (s, i ++ f ++ e ++ rest)) as ->.
  { destruct Hs as [->| ->]; [|done]. rewrite Ei. cbn [app]. change (hd0 (c :: r ++ f ++ e ++ rest)) with c.
    by rewrite (proj2 (Z.eqb_neq _ _) (digit_not c (chr "-") Hc eq_refl)). }
  assert (hd0 (i ++ f ++ e ++ rest) = c) as Eh by (by rewrite Ei). rewrite Eh, Hc. cbn [negb].
  pose proof (frac_tail _ _ _ Hf He Hend) as Hd2.
  assert ((if (c =? chr "0")%Z then if digit_byte (hd0 (tail (i ++ f ++ e ++ rest))) then None else Some ([chr "0"], tail (i ++ f ++ e ++ rest))
     else Some (span digit_byte (i ++ f ++ e ++ rest))) = Some (i, f ++ e ++ rest)) as ->.
  { destruct (Z.eqb_spec c (chr "0")) as [->|Hne].
    - destruct Hi as [->|(c' & r' & E' & _ & Hz & _)]; [|rewrite Ei in E'; injection E' as <- _; done]. cbn. cbn in Hd2. by rewrite Hd2.
    - f_equal. apply digits_span; [|done]. rewrite Ei. by constructor. }
  cbn [mbind option_bind]. destruct (exp_tail _ _ _ He Hend) as [Hd3 Hdot].
  assert ((if (hd0 (f ++ e ++ rest) =? chr ".")%Z then if negb (digit_byte (hd0 (tail (f ++ e ++ rest)))) then None else
      let '(a, b) := span digit_byte (tail (f ++ e ++ rest)) in Some (chr "." :: a, b) else Some ([], f ++ e ++ rest)) = Some (f, e ++ rest)) as ->.
  { destruct Hf as [->|(a & -> & Ha & Hda)].
    - cbn [app]. destruct (Z.eqb_spec (hd0 (e ++ rest)) (chr ".")) as [E|]; [|done]. by destruct (Hdot eq_refl).
    - cbn [app hd0 tail]. change (hd0 (chr "." :: a ++ e ++ rest) =? chr ".")%Z with true. destruct a as [|d a]; [done|].
      cbn [app hd0]. change (hd0 (d :: a ++ e ++ rest)) with d. inversion Hda as [|? ? Hd' Ha' E1]; subst. rewrite Hd'. cbn [negb].
      change (d :: a ++ e ++ rest) with ((d :: a) ++ e ++ rest). by rewrite digits_span. }
  cbn [mbind option_bind]. destruct Hend as (Hd & Hee & _). destruct He as [->|(m & x & a & -> & Hm & Hx & Ha & Hda)].
  - cbn [app]. destruct (Hee eq_refl) as [H1 H2]. rewrite (proj2 (Z.eqb_neq _ _) H1), (proj2 (Z.eqb_neq _ _) H2). done.
  - cbn [app]. change (hd0 (m :: (x ++ a) ++ rest)) with m. cbn [tail].
    assert (((m =? chr "e")%Z || (m =? chr "E")%Z) = true) as -> by (destruct Hm as [-> | ->]; done).
    destruct a as [|d a]; [done|]. inversion Hda as [|? ? Hd' Ha' E1]; subst.
    assert ((if (hd0 ((x ++ d :: a) ++ rest) =? chr "+")%Z || (hd0 ((x ++ d :: a) ++ rest) =? chr "-")%Z
      then ([hd0 ((x ++ d :: a) ++ rest)], tail ((x ++ d :: a) ++ rest)) else ([], (x ++ d :: a) ++ rest)) = (x, (d :: a) ++ rest)) as ->.
    { destruct Hx as [->|[-> | ->]]; [|done|done]. cbn [app]. change (hd0 (d :: a ++ rest)) with d.
      by rewrite (proj2 (Z.eqb_neq _ _) (digit_not d (chr "+") Hd' eq_refl)), (proj2 (Z.eqb_neq _ _) (digit_not d (chr "-") Hd' eq_refl)). }
    change (hd0 ((d :: a) ++ rest)) with d. rewrite Hd'. cbn [negb]. rewrite digits_span by done. done.
Qed.

(** ** The reader is right *)

(** [strtod] stops at the end of the number. *)
Class StrtodOk : Prop := strtod_prefix : forall s i f e rest, sign_part s -> int_part i -> frac_part f -> exp_part e -> f ++ e <> [] ->
  ends_number f e rest -> strtod (s ++ i ++ f ++ e ++ rest) = strtod (s ++ i ++ f ++ e).

Context `{!StrtodOk}.

Lemma ends_number_nul f e rest : ends_number f e rest -> ends_number f e (rest ++ [0%Z]).
Proof. destruct rest; [|done]. by intros (_ & _ & _). Qed.

Lemma readScalar_sound l t l' : readScalar l = Ok (t, l') -> exists u, l = u ++ l' /\ value u t /\ tame t = true /\ forall depth, fits depth t = (depth <=? JSON_MAX_DEPTH).
Proof.
  unfold readScalar. destruct (readNumber l) as [[[[[s i] f] e] rest]|] eqn:E; [|done].
  destruct (readNumber_sound _ _ _ _ _ _ E) as (-> & Hs & Hi & Hf & He & Hend). case_decide as Hfe.
  - destruct (LIMIT <? decimal i)%Z; [done|]. case_decide as Hsm; [|done]. intros [= <- <-]. apply app_eq_nil in Hfe as [-> ->].
    exists (s ++ i). cbn [app]. rewrite <- app_assoc. split_and!; [done|by constructor|by apply bool_decide_true|intros; cbn; by rewrite andb_true_r].
  - intros [= <- <-]. exists (s ++ i ++ f ++ e). rewrite <- !app_assoc. split_and!; [done| |done|intros; cbn; by rewrite andb_true_r].
    rewrite strtod_prefix by (done || by apply ends_number_nul). by constructor.
Qed.

Lemma readWord_sound word t l t' l' : readWord word t l = Ok (t', l') -> t' = t /\ l = word ++ l'.
Proof.
  unfold readWord. case_bool_decide as E; [|done]. intros [= <- <-]. split; [done|]. rewrite <- E at 1. by rewrite take_drop.
Qed.

Lemma cons_of_hd0 l c : (hd0 l =? c)%Z = true -> c <> 0%Z -> l = c :: tail l.
Proof. intros E%Z.eqb_eq Hc. by apply hd0_cons. Qed.

Definition value_read (fuel : nat) : Prop := forall depth l t l', readValue fuel depth l = Some (Ok (t, l')) ->
  exists w u, l = w ++ u ++ l' /\ ws w /\ value u t /\ fits depth t = true /\ tame t = true.
Definition members_read (fuel : nat) : Prop := forall depth l ms l', readMembers fuel depth l = Some (Ok (ms, l')) ->
  exists u, l = u ++ chr "}" :: l' /\ members u ms /\ forallb (fun '(_, t) => fits (S depth) t) ms = true /\ forallb (fun '(_, t) => tame t) ms = true.
Definition elements_read (fuel : nat) : Prop := forall depth l vs l', readElements fuel depth l = Some (Ok (vs, l')) ->
  exists u, l = u ++ chr "]" :: l' /\ elements u vs /\ forallb (fits (S depth)) vs = true /\ forallb tame vs = true.

Lemma members_ws w u ms : ws w -> members u ms -> members (w ++ u) ms.
Proof. intros Hw Hm. inversion Hm; subst; rewrite app_assoc; constructor; try done; by apply Forall_app. Qed.

Lemma elements_ws w u vs : ws w -> elements u vs -> elements (w ++ u) vs.
Proof. intros Hw He. inversion He; subst; rewrite app_assoc; constructor; try done; by apply Forall_app. Qed.

Lemma readMembers_step fuel : value_read fuel -> members_read fuel -> members_read (S fuel).
Proof.
  intros IHv IHm depth l ms l' Hr. cbn [readMembers] in Hr.
  destruct (dropWs_spec l) as (w & Hw & El & _). set (l1 := dropWs l) in *. destruct (hd0 l1 =? QUOTE)%Z eqn:Hq; [|done]. cbn [negb] in Hr.
  pose proof (cons_of_hd0 l1 _ Hq ltac:(done)) as E1. destruct (readChars (tail l1)) as [[key l2]|] eqn:Ek; [|done].
  destruct (readChars_sound _ _ _ Ek) as (k & E2 & Hk). destruct (dropWs_spec l2) as (w' & Hw' & El2 & _). set (l3 := dropWs l2) in *.
  destruct (hd0 l3 =? chr ":")%Z eqn:Hc; [|done]. cbn [negb] in Hr. pose proof (cons_of_hd0 l3 _ Hc ltac:(done)) as E3.
  destruct (readValue fuel (S depth) (tail l3)) as [[[v l4]| |]|] eqn:Ev; cbn [mbind option_bind] in Hr; try done.
  destruct (IHv _ _ _ _ Ev) as (w'' & u & E4 & Hw'' & Hv & Hfit & Htame). destruct (dropWs_spec l4) as (w3 & Hw3 & El4 & _). set (l5 := dropWs l4) in *.
  destruct (hd0 l5 =? chr "}")%Z eqn:Hb.
  - injection Hr as <- <-. pose proof (cons_of_hd0 l5 _ Hb ltac:(done)) as E5.
    exists (w ++ QUOTE :: k ++ QUOTE :: w' ++ chr ":" :: w'' ++ u ++ w3). split_and!.
    + rewrite El, E1, E2, El2, E3, E4, El4, E5. repeat (rewrite <- ?app_assoc; cbn [app]). done.
    + by constructor.
    + cbn. by rewrite Hfit.
    + cbn. by rewrite Htame.
  - destruct (hd0 l5 =? chr ",")%Z eqn:Hcm; [|done]. cbn [negb] in Hr. pose proof (cons_of_hd0 l5 _ Hcm ltac:(done)) as E5.
    destruct (readMembers fuel depth (tail l5)) as [[[ms' l6]| |]|] eqn:Em; cbn [mbind option_bind] in Hr; try done. injection Hr as <- <-.
    destruct (IHm _ _ _ _ Em) as (u' & E6 & Hm & Hfit' & Htame').
    exists (w ++ QUOTE :: k ++ QUOTE :: w' ++ chr ":" :: w'' ++ u ++ w3 ++ chr "," :: u'). split_and!.
    + rewrite El, E1, E2, El2, E3, E4, El4, E5, E6. repeat (rewrite <- ?app_assoc; cbn [app]). done.
    + by constructor.
    + cbn. by rewrite Hfit.
    + cbn. by rewrite Htame.
Qed.

Lemma readElements_step fuel : value_read fuel -> elements_read fuel -> elements_read (S fuel).
Proof.
  intros IHv IHe depth l vs l' Hr. cbn [readElements] in Hr.
  destruct (readValue fuel (S depth) l) as [[[v l1]| |]|] eqn:Ev; cbn [mbind option_bind] in Hr; try done.
  destruct (IHv _ _ _ _ Ev) as (w & u & El & Hw & Hv & Hfit & Htame). destruct (dropWs_spec l1) as (w' & Hw' & El1 & _). set (l2 := dropWs l1) in *.
  destruct (hd0 l2 =? chr "]")%Z eqn:Hb.
  - injection Hr as <- <-. pose proof (cons_of_hd0 l2 _ Hb ltac:(done)) as E2. exists (w ++ u ++ w'). split_and!.
    + rewrite El, El1, E2. repeat (rewrite <- ?app_assoc; cbn [app]). done.
    + by constructor.
    + cbn. by rewrite Hfit.
    + cbn. by rewrite Htame.
  - destruct (hd0 l2 =? chr ",")%Z eqn:Hcm; [|done]. cbn [negb] in Hr. pose proof (cons_of_hd0 l2 _ Hcm ltac:(done)) as E2.
    destruct (readElements fuel depth (tail l2)) as [[[vs' l3]| |]|] eqn:Em; cbn [mbind option_bind] in Hr; try done. injection Hr as <- <-.
    destruct (IHe _ _ _ _ Em) as (u' & E3 & Hm & Hfit' & Htame'). exists (w ++ u ++ w' ++ chr "," :: u'). split_and!.
    + rewrite El, El1, E2, E3. repeat (rewrite <- ?app_assoc; cbn [app]). done.
    + by constructor.
    + cbn. by rewrite Hfit.
    + cbn. by rewrite Htame.
Qed.

Lemma readValue_step fuel : members_read fuel -> elements_read fuel -> value_read (S fuel).
Proof.
  intros IHm IHe depth l t l' Hr. cbn [readValue] in Hr. destruct (Nat.ltb_spec JSON_MAX_DEPTH depth) as [|Hd]; [done|].
  destruct (dropWs_spec l) as (w & Hw & El & _). destruct (dropWs l) as [|c rest] eqn:E1; [done|]. exists w.
  assert (forall t', match t' with JArray _ | JObject _ => False | _ => True end -> fits depth t' = true) as Hscalar.
  { intros t' Ht. destruct t'; try done; cbn; rewrite andb_true_r; by apply Nat.leb_le. }
  destruct (Z.eqb_spec c (chr "{")) as [->|_].
  { destruct (dropWs_spec rest) as (w' & Hw' & Er & _). set (l2 := dropWs rest) in *. destruct (hd0 l2 =? chr "}")%Z eqn:Hb.
    - injection Hr as <- <-. pose proof (cons_of_hd0 l2 _ Hb ltac:(done)) as E2. exists (chr "{" :: w' ++ [chr "}"]).
      split_and!; [|done|by constructor|cbn; rewrite andb_true_r; by apply Nat.leb_le|done].
      rewrite El, Er, E2 at 1. repeat (rewrite <- ?app_assoc; cbn [app]). done.
    - destruct (readMembers fuel depth l2) as [[[ms l3]| |]|] eqn:Em; cbn [mbind option_bind] in Hr; try done. injection Hr as <- <-.
      destruct (IHm _ _ _ _ Em) as (u & E3 & Hm & Hfit & Htame). exists (chr "{" :: (w' ++ u) ++ [chr "}"]). split_and!.
      + rewrite El, Er, E3. repeat (rewrite <- ?app_assoc; cbn [app]). done.
      + done.
      + constructor. by apply members_ws.
      + cbn. rewrite (proj2 (Nat.leb_le _ _) Hd). exact Hfit.
      + exact Htame. }
  destruct (Z.eqb_spec c (chr "[")) as [->|_].
  { destruct (dropWs_spec rest) as (w' & Hw' & Er & _). set (l2 := dropWs rest) in *. destruct (hd0 l2 =? chr "]")%Z eqn:Hb.
    - injection Hr as <- <-. pose proof (cons_of_hd0 l2 _ Hb ltac:(done)) as E2. exists (chr "[" :: w' ++ [chr "]"]).
      split_and!; [|done|by constructor|cbn; rewrite andb_true_r; by apply Nat.leb_le|done].
      rewrite El, Er, E2 at 1. repeat (rewrite <- ?app_assoc; cbn [app]). done.
    - destruct (readElements fuel depth l2) as [[[vs l3]| |]|] eqn:Em; cbn [mbind option_bind] in Hr; try done. injection Hr as <- <-.
      destruct (IHe _ _ _ _ Em) as (u & E3 & Hm & Hfit & Htame). exists (chr "[" :: (w' ++ u) ++ [chr "]"]). split_and!.
      + rewrite El, Er, E3. repeat (rewrite <- ?app_assoc; cbn [app]). done.
      + done.
      + constructor. by apply elements_ws.
      + cbn. rewrite (proj2 (Nat.leb_le _ _) Hd). exact Hfit.
      + exact Htame. }
  destruct (Z.eqb_spec c QUOTE) as [->|_].
  { destruct (readChars rest) as [[s l2]|] eqn:Ek; [|done]. injection Hr as <- <-. destruct (readChars_sound _ _ _ Ek) as (k & E2 & Hk).
    exists (QUOTE :: k ++ [QUOTE]). split_and!; [|done|by constructor|by apply Hscalar|done].
    rewrite El, E2. repeat (rewrite <- ?app_assoc; cbn [app]). done. }
  destruct (Z.eqb_spec c (chr "t")) as [->|_].
  { injection Hr as Hr. destruct (readWord_sound _ _ _ _ _ Hr) as [-> E2]. eexists. split_and!; [by rewrite El, E2|done|constructor|by apply Hscalar|done]. }
  destruct (Z.eqb_spec c (chr "f")) as [->|_].
  { injection Hr as Hr. destruct (readWord_sound _ _ _ _ _ Hr) as [-> E2]. eexists. split_and!; [by rewrite El, E2|done|constructor|by apply Hscalar|done]. }
  destruct (Z.eqb_spec c (chr "n")) as [->|_].
  { injection Hr as Hr. destruct (readWord_sound _ _ _ _ _ Hr) as [-> E2]. eexists. split_and!; [by rewrite El, E2|done|constructor|by apply Hscalar|done]. }
  destruct ((c =? chr "-")%Z || digit_byte c); [|done]. injection Hr as Hr. destruct (readScalar_sound _ _ _ Hr) as (u & E2 & Hv & Ht & Hfit).
  exists u. split_and!; [by rewrite El, E2|done|done|rewrite Hfit; by apply Nat.leb_le|done].
Qed.

Lemma read_sound fuel : value_read fuel /\ members_read fuel /\ elements_read fuel.
Proof.
  induction fuel as [|fuel (IHv & IHm & IHe)]; [by split_and!; intros ?|].
  split_and!; [by apply readValue_step|by apply readMembers_step|by apply readElements_step].
Qed.

(** ** It reads whatever the grammar allows *)

Lemma dropWs_idem l : dropWs (dropWs l) = dropWs l.
Proof. destruct (dropWs_spec l) as (w & Hw & _ & Hl). rewrite <- (app_nil_l (dropWs l)) at 1. by apply dropWs_app; [constructor|]. Qed.

Lemma readValue_dropWs fuel depth l : readValue fuel depth (dropWs l) = readValue fuel depth l.
Proof. destruct fuel; [done|]. cbn [readValue]. by rewrite dropWs_idem. Qed.
Lemma readMembers_dropWs fuel depth l : readMembers fuel depth (dropWs l) = readMembers fuel depth l.
Proof. destruct fuel; [done|]. cbn [readMembers]. by rewrite dropWs_idem. Qed.
Lemma readElements_dropWs fuel depth l : readElements fuel depth (dropWs l) = readElements fuel depth l.
Proof. destruct fuel; [done|]. cbn [readElements]. by rewrite readValue_dropWs. Qed.

(** What may follow a value. *)
Definition follow (l : list Z) : Prop := digit_byte (hd0 l) = false /\ hd0 l <> chr "e" /\ hd0 l <> chr "E" /\ hd0 l <> chr ".".

Lemma follow_ends l f e : follow l -> ends_number f e l.
Proof. intros (H1 & H2 & H3 & H4). by split_and!. Qed.

Lemma ws_follow c : white_byte c = true -> digit_byte c = false /\ c <> chr "e" /\ c <> chr "E" /\ c <> chr ".".
Proof.
  unfold white_byte. rewrite !orb_true_iff, !Z.eqb_eq. intros [[[-> | ->]| ->]| ->]; by split_and!.
Qed.

Lemma follow_ws w l : ws w -> follow l -> follow (w ++ l).
Proof. intros [|c w' Hc _] Hl; [done|]. cbn. by apply ws_follow. Qed.

(** The first character decides. *)
Lemma value_head u t : value u t -> exists c r, u = c :: r /\ white_byte c = false /\ c <> chr "]" /\ c <> chr "}".
Proof.
  assert (forall i r, int_part i -> exists c r', i ++ r = c :: r' /\ white_byte c = false /\ c <> chr "]" /\ c <> chr "}") as Hint.
  { intros i r Hi. destruct (int_part_digits i Hi) as (c & r' & -> & Hc & _). exists c, (r' ++ r). split; [done|].
    unfold digit_byte in Hc. apply andb_true_iff in Hc as [H1%Z.leb_le H2%Z.leb_le]. change (chr "0") with 48%Z in H1. change (chr "9") with 57%Z in H2.
    change (chr "]") with 93%Z. change (chr "}") with 125%Z. unfold white_byte. change (chr " ") with 32%Z.
    rewrite !(proj2 (Z.eqb_neq _ _)) by lia. split_and!; [done|lia|lia]. }
  destruct 1 as [ | | |s i Hs Hi|s i f e Hs Hi _ _ _| | | | | ]; try (eexists _, _; by split_and!).
  - destruct Hs as [->| ->]; [|eexists _, _; by split_and!]. cbn [app]. rewrite <- (app_nil_r i). by apply (Hint i []).
  - destruct Hs as [->| ->]; [|eexists _, _; by split_and!]. by apply (Hint i (f ++ e)).
Qed.

Lemma scalar_dispatch fuel depth w s i f e l' : ws w -> sign_part s -> int_part i -> frac_part f -> exp_part e -> follow l' -> depth <= JSON_MAX_DEPTH ->
  readValue (S fuel) depth (w ++ s ++ i ++ f ++ e ++ l') = Some (readScalar (s ++ i ++ f ++ e ++ l')).
Proof.
  intros Hw Hs Hi Hf He Hl Hd. cbn [readValue]. destruct (Nat.ltb_spec JSON_MAX_DEPTH depth); [lia|].
  destruct (int_part_digits i Hi) as (c & r & Ei & Hc & Hr).
  assert (exists c' r', s ++ i ++ f ++ e ++ l' = c' :: r' /\ (c' = chr "-" \/ digit_byte c' = true)) as (c' & r' & E & Hc').
  { destruct Hs as [->| ->]; [|eexists _, _; split; [done|by left]]. rewrite Ei. eexists _, _. split; [done|by right]. }
  assert (48 <= c' <= 57 \/ c' = 45)%Z as Hrange.
  { destruct Hc' as [->|Hc']; [by right|left]. unfold digit_byte in Hc'. by apply andb_true_iff in Hc' as [?%Z.leb_le ?%Z.leb_le]. }
  rewrite dropWs_app; [|done|].
  2: { right. rewrite E. cbn. unfold white_byte. change (chr " ") with 32%Z. rewrite !(proj2 (Z.eqb_neq _ _)) by lia. done. }
  rewrite E. change (chr "{") with 123%Z. change (chr "[") with 91%Z. change (chr "t") with 116%Z. change (chr "f") with 102%Z. change (chr "n") with 110%Z. unfold QUOTE.
  rewrite !(proj2 (Z.eqb_neq c' _)) by lia.
  destruct Hc' as [->|Hc']; [done|]. rewrite Hc', orb_true_r. done.
Qed.

Lemma fits_depth depth t : fits depth t = true -> depth <= JSON_MAX_DEPTH.
Proof. intros Hf. destruct t; cbn in Hf; apply andb_true_iff in Hf as [H1%Nat.leb_le _]; done. Qed.

Lemma hd0_app_cons (c : Z) l r : hd0 ((c :: l) ++ r) = c.
Proof. done. Qed.

(** The words. *)
Lemma word_dispatch fuel depth w word t l' : ws w -> depth <= JSON_MAX_DEPTH ->
  (word, t) ∈ [(bytes_of_string "true", JBool true); (bytes_of_string "false", JBool false); (bytes_of_string "null", JNull)] ->
  readValue (S fuel) depth (w ++ word ++ l') = Some (Ok (t, l')).
Proof.
  intros Hw Hd Ht. cbn [readValue]. destruct (Nat.ltb_spec JSON_MAX_DEPTH depth); [lia|].
  repeat (apply list.elem_of_cons in Ht as [Ht|Ht]; [injection Ht as -> ->; rewrite dropWs_app by (done || by right);
    cbn [bytes_of_string]; unfold readWord; rewrite <- ?app_comm_cons; cbn; by rewrite drop_0|]).
  by apply elem_of_nil in Ht.
Qed.

Definition value_reads (u : list Z) (t : Json) : Prop := forall w l' depth fuel, ws w -> follow l' -> fits depth t = true -> tame t = true ->
  2 * length u <= fuel -> readValue fuel depth (w ++ u ++ l') = Some (Ok (t, l')).
Definition elements_reads (u : list Z) (vs : list Json) : Prop := forall l' depth fuel, forallb (fits (S depth)) vs = true -> forallb tame vs = true ->
  2 * length u + 1 <= fuel -> readElements fuel depth (u ++ chr "]" :: l') = Some (Ok (vs, l')).
Definition members_reads (u : list Z) (ms : list (list Z * Json)) : Prop := forall l' depth fuel,
  forallb (fun '(_, t) => fits (S depth) t) ms = true -> forallb (fun '(_, t) => tame t) ms = true ->
  2 * length u + 1 <= fuel -> readMembers fuel depth (u ++ chr "}" :: l') = Some (Ok (ms, l')).

Lemma open_dispatch fuel depth w c rest : ws w -> depth <= JSON_MAX_DEPTH -> c = chr "[" \/ c = chr "{" ->
  readValue (S fuel) depth (w ++ c :: rest) =
    if decide (c = chr "{") then
      let l := dropWs rest in
      if (hd0 l =? chr "}")%Z then Some (Ok (JObject [], tail l))
      else r ← readMembers fuel depth l; Some (match r with Ok (ms, l) => Ok (JObject ms, l) | Fail => Fail | Abort => Abort end)
    else
      let l := dropWs rest in
      if (hd0 l =? chr "]")%Z then Some (Ok (JArray [], tail l))
      else r ← readElements fuel depth l; Some (match r with Ok (vs, l) => Ok (JArray vs, l) | Fail => Fail | Abort => Abort end).
Proof.
  intros Hw Hd Hc. cbn [readValue]. destruct (Nat.ltb_spec JSON_MAX_DEPTH depth); [lia|].
  rewrite dropWs_app; [|done|right; by destruct Hc as [-> | ->]]. by destruct Hc as [-> | ->].
Qed.

Lemma elements_head u vs l : elements u vs -> hd0 (dropWs (u ++ l)) <> chr "]".
Proof.
  intros He. destruct He as [w t v w' Hw Hv Hw'|w t v w' u l' Hw Hv Hw' He]; destruct (value_head _ _ Hv) as (c & r & -> & Hc & H1 & _);
    rewrite <- app_assoc, dropWs_app; try done; by right.
Qed.

Lemma members_head u ms l : members u ms -> hd0 (dropWs (u ++ l)) <> chr "}".
Proof.
  intros He. destruct He; rewrite <- app_assoc, dropWs_app; try done; by right.
Qed.

(** Reading a member up to its value. *)
Lemma member_prefix fuel depth w k s w' w'' t v l' : ws w -> chars k s -> ws w' ->
  ws w'' -> value_reads t v -> fits (S depth) v = true -> tame v = true -> 2 * length t <= fuel -> follow l' ->
  readMembers (S fuel) depth (w ++ QUOTE :: k ++ QUOTE :: w' ++ chr ":" :: w'' ++ t ++ l') =
    (let l := dropWs l' in
     if (hd0 l =? chr "}")%Z then Some (Ok ([(s, v)], tail l))
     else if negb (hd0 l =? chr ",")%Z then Some Fail
     else r ← readMembers fuel depth (tail l); Some (match r with Ok (ms, l) => Ok ((s, v) :: ms, l) | Fail => Fail | Abort => Abort end)).
Proof.
  intros Hw Hk Hw' Hw'' IH Hf Ht Hfuel Hfo. cbn [readMembers]. rewrite dropWs_app by (done || by right).
  change (hd0 (QUOTE :: ?x)) with QUOTE. rewrite Z.eqb_refl. cbn [negb tail]. rewrite (readChars_complete k s _ Hk).
  rewrite dropWs_app by (done || by right). change (hd0 (chr ":" :: ?x)) with (chr ":"). rewrite Z.eqb_refl. cbn [negb tail].
  rewrite (IH w'' l' (S depth) fuel Hw'' Hfo Hf Ht Hfuel). done.
Qed.

Lemma grammar_reads : (forall u t, value u t -> value_reads u t) /\ (forall u vs, elements u vs -> elements_reads u vs) /\
  (forall u ms, members u ms -> members_reads u ms).
Proof.
  apply grammar_ind.
  1-3: intros w l' depth fuel Hw _ Hf _ Hfuel; destruct fuel as [|fuel]; [cbn in Hfuel; lia|];
    apply word_dispatch; [done|by apply fits_depth in Hf|set_solver].
  - intros s i Hs Hi w l' depth fuel Hw Hl Hf Ht Hfuel. destruct (int_part_digits i Hi) as (c & r & Ei & _).
    destruct fuel as [|fuel]; [rewrite length_app, Ei in Hfuel; cbn in Hfuel; lia|].
    pose proof (scalar_dispatch fuel depth w s i [] [] l' Hw Hs Hi (or_introl eq_refl) (or_introl eq_refl) Hl (fits_depth _ _ Hf)) as E. cbn [app] in E.
    rewrite <- app_assoc, E. unfold readScalar. pose proof (readNumber_complete s i [] [] l' Hs Hi (or_introl eq_refl) (or_introl eq_refl) (follow_ends _ _ _ Hl)) as En.
    cbn [app] in En. rewrite En. cbn [app]. rewrite decide_True by done. cbn in Ht. apply bool_decide_eq_true in Ht.
    destruct (Z.ltb_spec LIMIT (decimal i)) as [Hlt|]; [|by rewrite decide_True].
    exfalso. unfold small, signed, LIMIT in *. case_decide; lia.
  - intros s i f e Hs Hi Hf He Hne w l' depth fuel Hw Hl Hfit _ Hfuel. destruct (int_part_digits i Hi) as (c & r & Ei & _).
    destruct fuel as [|fuel]; [rewrite !length_app, Ei in Hfuel; cbn in Hfuel; lia|].
    rewrite <- !app_assoc, (scalar_dispatch fuel depth w s i f e l' Hw Hs Hi Hf He Hl (fits_depth _ _ Hfit)). unfold readScalar.
    rewrite (readNumber_complete s i f e l' Hs Hi Hf He (follow_ends _ _ _ Hl)), decide_False by done.
    rewrite <- !app_assoc, strtod_prefix by (done || by apply ends_number_nul, follow_ends). done.
  - intros t s Hk w l' depth fuel Hw _ Hf _ Hfuel. destruct fuel as [|fuel]; [cbn in Hfuel; lia|]. cbn [readValue].
    apply fits_depth in Hf. destruct (Nat.ltb_spec JSON_MAX_DEPTH depth); [lia|]. rewrite dropWs_app by (done || by right).
    cbn [app]. change (QUOTE =? chr "{")%Z with false. change (QUOTE =? chr "[")%Z with false. rewrite Z.eqb_refl, <- app_assoc. cbv iota. cbn [app].
    by rewrite (readChars_complete t s l' Hk).
  - intros w0 Hw0 w l' depth fuel Hw _ Hf _ Hfuel. destruct fuel as [|fuel]; [cbn in Hfuel; lia|].
    cbn [app]. rewrite open_dispatch; [|done|by apply fits_depth in Hf|by left]. rewrite decide_False by done. cbv zeta.
    rewrite <- app_assoc, dropWs_app by (done || by right). done.
  - intros t l Hl IH w l' depth fuel Hw _ Hf Ht Hfuel. destruct fuel as [|fuel]; [cbn in Hfuel; lia|].
    cbn [app]. rewrite open_dispatch; [|done|by apply fits_depth in Hf|by left]. rewrite decide_False by done. cbv zeta.
    rewrite <- app_assoc. cbn [app]. rewrite (proj2 (Z.eqb_neq _ _) (elements_head t l _ Hl)), readElements_dropWs.
    cbn in Hf, Hfuel. apply andb_true_iff in Hf as [_ Hf]. rewrite length_app in Hfuel. cbn in Hfuel. by rewrite (IH l' depth fuel Hf Ht ltac:(lia)).
  - intros w0 Hw0 w l' depth fuel Hw _ Hf _ Hfuel. destruct fuel as [|fuel]; [cbn in Hfuel; lia|].
    cbn [app]. rewrite open_dispatch; [|done|by apply fits_depth in Hf|by right]. rewrite decide_True by done. cbv zeta.
    rewrite <- app_assoc, dropWs_app by (done || by right). done.
  - intros t l Hl IH w l' depth fuel Hw _ Hf Ht Hfuel. destruct fuel as [|fuel]; [cbn in Hfuel; lia|].
    cbn [app]. rewrite open_dispatch; [|done|by apply fits_depth in Hf|by right]. rewrite decide_True by done. cbv zeta.
    rewrite <- app_assoc. cbn [app]. rewrite (proj2 (Z.eqb_neq _ _) (members_head t l _ Hl)), readMembers_dropWs.
    cbn in Hf, Hfuel. apply andb_true_iff in Hf as [_ Hf]. rewrite length_app in Hfuel. cbn in Hfuel. by rewrite (IH l' depth fuel Hf Ht ltac:(lia)).
  - intros w t v w' Hw Hv IH Hw' l' depth fuel Hf Ht Hfuel. destruct fuel as [|fuel]; [lia|]. cbn [readElements].
    cbn in Hf, Ht. rewrite andb_true_r in Hf, Ht. rewrite !length_app in Hfuel.
    rewrite <- !app_assoc, (IH w (w' ++ chr "]" :: l') (S depth) fuel Hw) by (done || lia || by apply follow_ws). cbn [mbind option_bind].
    rewrite dropWs_app by (done || by right). done.
  - intros w t v w' u l Hw Hv IH Hw' Hu IHu l' depth fuel Hf Ht Hfuel. destruct fuel as [|fuel]; [lia|]. cbn [readElements].
    cbn in Hf, Ht. apply andb_true_iff in Hf as [Hf Hf'], Ht as [Ht Ht']. rewrite !length_app in Hfuel. cbn [length] in Hfuel.
    rewrite <- !app_assoc. cbn [app]. rewrite (IH w (w' ++ chr "," :: u ++ chr "]" :: l') (S depth) fuel Hw) by (done || lia || by apply follow_ws). cbn [mbind option_bind].
    rewrite dropWs_app by (done || by right). change (hd0 (chr "," :: ?x)) with (chr ","). change (chr "," =? chr "]")%Z with false. rewrite Z.eqb_refl. cbn [negb tail].
    rewrite (IHu l' depth fuel Hf' Ht' ltac:(lia)). done.
  - intros w k s w' w'' t v w3 Hw Hk Hw' Hw'' Hv IH Hw3 l' depth fuel Hf Ht Hfuel. destruct fuel as [|fuel]; [lia|].
    cbn in Hf, Ht. rewrite andb_true_r in Hf, Ht. repeat (rewrite ?length_app in Hfuel; cbn [length] in Hfuel).
    pose proof (member_prefix fuel depth w k s w' w'' t v (w3 ++ chr "}" :: l') Hw Hk Hw' Hw'' IH Hf Ht ltac:(lia) ltac:(by apply follow_ws)) as E.
    repeat (rewrite <- ?app_assoc; cbn [app]). rewrite E. cbv zeta. rewrite dropWs_app by (done || by right). done.
  - intros w k s w' w'' t v w3 u l Hw Hk Hw' Hw'' Hv IH Hw3 Hu IHu l' depth fuel Hf Ht Hfuel. destruct fuel as [|fuel]; [lia|].
    cbn in Hf, Ht. apply andb_true_iff in Hf as [Hf Hf'], Ht as [Ht Ht']. repeat (rewrite ?length_app in Hfuel; cbn [length] in Hfuel).
    pose proof (member_prefix fuel depth w k s w' w'' t v (w3 ++ chr "," :: u ++ chr "}" :: l') Hw Hk Hw' Hw'' IH Hf Ht ltac:(lia) ltac:(by apply follow_ws)) as E.
    repeat (rewrite <- ?app_assoc; cbn [app]). rewrite E. cbv zeta. rewrite dropWs_app by (done || by right).
    change (hd0 (chr "," :: ?x)) with (chr ","). change (chr "," =? chr "}")%Z with false. rewrite Z.eqb_refl. cbn [negb tail].
    rewrite (IHu l' depth fuel Hf' Ht' ltac:(lia)). done.
Qed.

(** ** It always answers *)

Lemma dropWs_length l : length (dropWs l) <= length l.
Proof. destruct (dropWs_spec l) as (w & _ & E & _). rewrite E at 2. rewrite length_app. lia. Qed.

Lemma readChars_length l s l' : readChars l = Some (s, l') -> length l' < length l.
Proof. intros E. destruct (readChars_sound _ _ _ E) as (t & -> & _). rewrite length_app. cbn. lia. Qed.

Lemma readValue_length fuel depth l t l' : readValue fuel depth l = Some (Ok (t, l')) -> length l' <= length l.
Proof. intros E. destruct (proj1 (read_sound fuel) _ _ _ _ E) as (w & u & -> & _). rewrite !length_app. lia. Qed.

Lemma tail_length {A} (l : list A) : length (tail l) = length l - 1.
Proof. destruct l; cbn; lia. Qed.

Lemma read_total fuel : (forall depth l, 2 * length l + 1 <= fuel -> is_Some (readValue fuel depth l)) /\
  (forall depth l, 2 * length l + 2 <= fuel -> is_Some (readMembers fuel depth l)) /\
  (forall depth l, 2 * length l + 2 <= fuel -> is_Some (readElements fuel depth l)).
Proof.
  induction fuel as [|fuel (IHv & IHm & IHe)]; [split_and!; intros; lia|]. split_and!; intros depth l Hf.
  - cbn [readValue]. destruct (JSON_MAX_DEPTH <? depth); [done|]. pose proof (dropWs_length l) as Hl. destruct (dropWs l) as [|c rest]; [done|].
    cbn in Hl. pose proof (dropWs_length rest).
    repeat match goal with |- context [if ?b then _ else _] => destruct b end; try done.
    + destruct (IHm depth (dropWs rest)) as [r ->]; [lia|done].
    + destruct (IHe depth (dropWs rest)) as [r ->]; [lia|done].
  - cbn [readMembers]. pose proof (dropWs_length l). destruct (negb _); [done|]. destruct (readChars (tail (dropWs l))) as [[k l1]|] eqn:Ek; [|done].
    apply readChars_length in Ek. rewrite tail_length in Ek. pose proof (dropWs_length l1). destruct (negb _); [done|].
    destruct (IHv (S depth) (tail (dropWs l1))) as [r Er]; [rewrite tail_length; lia|]. rewrite Er. cbn [mbind option_bind].
    destruct r as [[v l2]| |]; [|done|done]. apply readValue_length in Er. rewrite tail_length in Er. pose proof (dropWs_length l2).
    destruct (_ =? _)%Z; [done|]. destruct (negb _); [done|]. destruct (IHm depth (tail (dropWs l2))) as [r ->]; [rewrite tail_length; lia|done].
  - cbn [readElements]. destruct (IHv (S depth) l) as [r Er]; [lia|]. rewrite Er. cbn [mbind option_bind].
    destruct r as [[v l2]| |]; [|done|done]. pose proof (dropWs_length l2). destruct (_ =? _)%Z; [done|].
    destruct (hd0 (dropWs l2) =? chr ",")%Z eqn:Hc; cbn [negb]; [|done]. pose proof (cons_of_hd0 _ _ Hc ltac:(done)) as Ec.
    apply readValue_length in Er. apply (f_equal length) in Ec. cbn [length] in Ec.
    destruct (IHe depth (tail (dropWs l2))) as [r ->]; [lia|done].
Qed.

(** The reader answers, and answers a value exactly if the text is one of the
    grammar within the limits. *)
Lemma readDocument_exact text : exists r, readDocument text = Some r /\
  forall t, r = Ok t <-> document text t /\ fits 0 t = true /\ tame t = true.
Proof.
  unfold readDocument. destruct (proj1 (read_total (2 * length text + 3)) 0 text ltac:(lia)) as [r Er]. rewrite Er. cbn [mbind option_bind].
  eexists. split; [done|]. intros t. split.
  - destruct r as [[t' l]| |]; [|done|done]. case_decide as El; [|done]. intros [= ->].
    destruct (proj1 (read_sound _) _ _ _ _ Er) as (w & u & -> & Hw & Hv & Hf & Ht). split_and!; [|done|done].
    destruct (dropWs_spec l) as (w' & Hw' & E & _). rewrite El, app_nil_r in E. subst l. exists w, u, w'. by split_and!.
  - intros ((w & u & w' & -> & Hw & Hv & Hw') & Hf & Ht).
    rewrite (proj1 grammar_reads u t Hv w w' 0 _ Hw) in Er; [|rewrite <- (app_nil_r w'); by apply follow_ws|done|done|rewrite !length_app; lia].
    injection Er as <-. by rewrite dropWs_ws, decide_True.
Qed.
End Grammar.
