(* ===== verification/JsonScan.v ===== *)
(** * JsonScan

    The scanning functions of the JSON parser against the reader of
    [JsonGrammar]: white space, words, strings through the scratch buffer, and
    numbers, at a cursor of the NUL-terminated copy.  None of them reads or
    writes out of bounds. *)
From S2P Require Import Prelude Tagging.
From stdpp Require Import base list gmap numbers.
From S2P Require Import Dictionary Collections Json JsonGrammar.

#[local] Open Scope nat_scope.

(** ** The tables of the code are those of the grammar *)

Ltac by_ranges := repeat match goal with
  | |- context [(?a <=? ?b)%Z] => destruct (Z.leb_spec a b)
  | |- context [(?a <? ?b)%Z] => destruct (Z.ltb_spec a b)
  | |- context [(?a =? ?b)%Z] => destruct (Z.eqb_spec a b) end; cbn [andb orb negb]; try done; try lia.

Lemma isWs_white c : isWs c = white_byte c.
Proof. done. Qed.

Lemma isDigit_digit c : isDigit c = digit_byte c.
Proof. done. Qed.

Lemma isPlain_unescaped c : isPlain c = unescaped c.
Proof. unfold isPlain, unescaped, between, QUOTE, BACKSLASH. by_ranges. Qed.

Lemma simpleEscape_escape e : simpleEscape e = escape_byte e.
Proof.
  unfold escape_byte, escapes. cbn [find]. repeat match goal with |- context [(?a =? e)%Z] => destruct (Z.eqb_spec a e) as [<-|]; [reflexivity|] end.
  unfold simpleEscape. by rewrite !(proj2 (Z.eqb_neq e _)) by (intros ->; done).
Qed.

Lemma hexDigit_hexdig c : hexDigit c = hexdig c.
Proof.
  unfold hexDigit, hexdig. change (isDigit c) with (between 0x30 0x39 c). destruct (between 0x30 0x39 c); [done|]. unfold between.
  change (chr "a") with 97%Z. change (chr "f") with 102%Z. change (chr "A") with 65%Z. change (chr "F") with 70%Z. by_ranges.
Qed.

Lemma low_six_bits x : (0 <= x)%Z -> Z.land x 0x3F = (x mod 64)%Z.
Proof. intros Hx. change 0x3F%Z with (Z.ones 6). by rewrite Z.land_ones by lia. Qed.

Lemma lead_byte base k x : base = Z.shiftl (Z.shiftr base k) k -> (0 <= k)%Z -> (0 <= x < 2 ^ k)%Z -> Z.lor base x = (base + x)%Z.
Proof.
  intros E Hk Hx. rewrite E. rewrite Z.shiftl_mul_pow2 by done. by apply lor_mul_add.
Qed.

Lemma utf8Encode_utf8 cp : (0 <= cp < 0x110000)%Z -> utf8Encode cp = utf8_bytes cp.
Proof.
  intros Hc. unfold utf8Encode, utf8_bytes.
  change (Z.shiftr cp 12) with (Z.shiftr cp (6 + 6)). change (Z.shiftr cp 18) with (Z.shiftr cp (6 + 6 + 6)).
  rewrite <- !Z.shiftr_shiftr, !Z.shiftr_div_pow2 by lia. change (2 ^ 6)%Z with 64%Z.
  assert (0 <= cp / 64)%Z by (apply Z.div_pos; lia). assert (0 <= cp / 64 / 64)%Z by (apply Z.div_pos; lia).
  rewrite !low_six_bits by lia.
  pose proof (Z.mod_pos_bound cp 64 ltac:(lia)). pose proof (Z.mod_pos_bound (cp / 64) 64 ltac:(lia)). pose proof (Z.mod_pos_bound (cp / 64 / 64) 64 ltac:(lia)).
  rewrite !(lead_byte 0x80 6) by (done || lia).
  destruct (Z.ltb_spec cp 0x80), (Z.leb_spec cp 0x7F); try lia; [done|].
  destruct (Z.ltb_spec cp 0x800), (Z.leb_spec cp 0x7FF); try lia.
  { rewrite (lead_byte 0xC0 6) by (done || (Z.to_euclidean_division_equations; lia)). by rewrite !u8_id by (Z.to_euclidean_division_equations; lia). }
  destruct (Z.ltb_spec cp 0x10000), (Z.leb_spec cp 0xFFFF); try lia.
  { rewrite (lead_byte 0xE0 5) by (done || (Z.to_euclidean_division_equations; lia)). by rewrite !u8_id by (Z.to_euclidean_division_equations; lia). }
  rewrite (lead_byte 0xF0 4) by (done || (Z.to_euclidean_division_equations; lia)). by rewrite !u8_id by (Z.to_euclidean_division_equations; lia).
Qed.

Section Scan.
Context (input : list Z).
Abbreviation end_ := (length input).

(** The cursor [p] is in front of [l]. *)
Definition at_ (p : nat) (l : list Z) : Prop := p <= end_ /\ drop p input = l.

Lemma at_length p l : at_ p l -> p + length l = end_.
Proof. intros [Hp <-]. rewrite length_drop. lia. Qed.

Lemma at_next p c l : at_ p (c :: l) -> at_ (S p) l.
Proof.
  intros A. pose proof (at_length _ _ A) as Hl. destruct A as [Hp E]. cbn in Hl. split; [lia|].
  replace (S p) with (p + 1) by lia. by rewrite <- drop_drop, E.
Qed.

Lemma at_app p a l : at_ p (a ++ l) -> at_ (p + length a) l.
Proof.
  intros A. pose proof (at_length _ _ A) as Hl. destruct A as [Hp E]. rewrite length_app in Hl. split; [lia|].
  by rewrite <- drop_drop, E, drop_app_length.
Qed.

Lemma at_char p l : at_ p l -> char_at input p = Some (hd0 l).
Proof.
  intros A. pose proof (at_length _ _ A) as Hl. destruct A as [Hp E]. unfold char_at. destruct l as [|c l].
  - cbn in Hl. rewrite lookup_app_r by lia. by replace (p - end_) with 0 by lia.
  - cbn in Hl. rewrite lookup_app_l by lia. pose proof (lookup_drop input p 0) as Hd. rewrite E in Hd. cbn in Hd. by rewrite Nat.add_0_r in Hd.
Qed.

Lemma at_slice p a l : at_ p (a ++ l) -> slice (input ++ [0%Z]) p (length a) = Some a.
Proof.
  intros A. pose proof (at_length _ _ A) as Hl. destruct A as [Hp E]. rewrite length_app in Hl.
  rewrite slice_Some by (rewrite length_app; cbn; lia). rewrite drop_app_le, E by lia. f_equal.
  rewrite <- app_assoc. apply take_app_length.
Qed.

Lemma at_end p : at_ p [] -> p = end_.
Proof. intros A%at_length. cbn in A. lia. Qed.

Lemma at_ltb p l : at_ p l -> (p <? end_) = negb (bool_decide (l = [])).
Proof.
  intros A%at_length. destruct l; [rewrite bool_decide_true by done|rewrite bool_decide_false by done]; cbn in *.
  - apply Nat.ltb_ge. lia.
  - apply Nat.ltb_lt. lia.
Qed.

Lemma at_leb p l : at_ p l -> (end_ <=? p) = bool_decide (l = []).
Proof. intros A. rewrite Nat.leb_antisym, (at_ltb p l A). by rewrite negb_involutive. Qed.

(** ** Runs *)

Lemma skip_loop fuel (P : Z -> bool) (body : nat -> option (nat + nat)) p l :
  (forall p l, at_ p l -> body p = Some (match l with c :: _ => if P c then inl (S p) else inr p | [] => inr p end : nat + nat)) ->
  at_ p l -> length l < fuel -> loop fuel body p = Some (p + length (span P l).1) /\ at_ (p + length (span P l).1) (span P l).2.
Proof.
  intros Hb. revert p l. induction fuel as [|fuel IH]; intros p l A Hf; [lia|]. cbn [loop]. rewrite (Hb p l A). cbn [mbind option_bind].
  destruct l as [|c l].
  - cbn. rewrite Nat.add_0_r. by split.
  - cbn [span]. destruct (P c) eqn:Ec.
    + cbn in Hf. destruct (IH (S p) l (at_next _ _ _ A) ltac:(lia)) as [-> A']. destruct (span P l) as [a b]. cbn in *.
      replace (p + S (length a)) with (S (p + length a)) by lia. by split.
    + cbn. rewrite Nat.add_0_r. by split.
Qed.

Lemma skip_while_ok (P Q : Z -> bool) p l : (forall c, P c = Q c) -> at_ p l ->
  exists p', skip_while input P p = Some p' /\ p' = p + length (span Q l).1 /\ at_ p' (span Q l).2.
Proof.
  intros HQ A. assert (forall k, span Q k = span P k) as -> by (induction k as [|c k IH]; [done|]; cbn; by rewrite HQ, IH). pose proof (at_length _ _ A). unfold skip_while.
  destruct (skip_loop (S (S end_)) P (fun p => if p <? end_ then c ← char_at input p; Some (if P c then inl (S p) else inr p) else Some (inr p)) p l) as [E A'];
    [|done|lia|by eexists].
  intros q k Aq. rewrite (at_ltb q k Aq). destruct k as [|c k]; [by rewrite bool_decide_true|]. rewrite bool_decide_false by done. cbn [negb].
  by rewrite (at_char q (c :: k) Aq).
Qed.

(** The NUL stops a run that the end does not. *)
Lemma skip_run_ok P p l : P 0%Z = false -> at_ p l ->
  exists p', skip_run input P p = Some p' /\ p' = p + length (span P l).1 /\ at_ p' (span P l).2.
Proof.
  intros Hz A. pose proof (at_length _ _ A). unfold skip_run.
  destruct (skip_loop (S (S end_)) P (fun p => c ← char_at input p; Some (if P c then inl (S p) else inr p)) p l) as [E A']; [|done|lia|by eexists].
  intros q k Aq. rewrite (at_char q k Aq). cbn [mbind option_bind]. destruct k as [|c k]; [|done]. cbn. by rewrite Hz.
Qed.

Lemma skipWs_ok j l : at_ (jp j) l -> exists j', skipWs input j = Some j' /\ at_ (jp j') (dropWs l) /\ scratch j' = scratch j.
Proof.
  intros A. unfold skipWs. destruct (skip_while_ok isWs white_byte _ _ isWs_white A) as (p' & -> & _ & A'). cbn. eexists. by split.
Qed.

Lemma peek_ok j l : at_ (jp j) l -> peek input j = Some (hd0 l).
Proof.
  intros A. unfold peek. rewrite (at_ltb _ _ A). destruct l; [by rewrite bool_decide_true|]. rewrite bool_decide_false by done. by apply at_char.
Qed.

(** ** Words *)

Lemma parseLiteral_ok j l word t : at_ (jp j) l ->
  match readWord word t l with
  | Ok (_, l') => exists j', parseLiteral input j word = Some (Ok tt, j') /\ at_ (jp j') l'
  | _ => exists j', parseLiteral input j word = Some (Fail, j')
  end.
Proof.
  intros A. pose proof (at_length _ _ A) as Hl. unfold readWord, parseLiteral. case_bool_decide as E.
  - assert (l = word ++ drop (length word) l) as El by (rewrite <- E at 1; by rewrite take_drop). rewrite El in A.
    apply (f_equal length) in El. rewrite length_app in El. destruct (Nat.ltb_spec (end_ - jp j) (length word)); [lia|].
    rewrite (at_slice _ _ _ A). cbn. rewrite bool_decide_true by done. eexists. split; [done|]. by apply at_app.
  - destruct (Nat.ltb_spec (end_ - jp j) (length word)) as [|Hge]; [by eexists|].
    rewrite <- (take_drop (length word) l) in A.
    assert (length (take (length word) l) = length word) as Ht by (rewrite length_take; lia).
    pose proof (at_slice _ _ _ A) as Es. rewrite Ht in Es. rewrite Es. cbn. rewrite bool_decide_false by done. by eexists.
Qed.

(** ** The scratch buffer *)

Lemma double_until_ok cap need : 0 < cap -> exists cap', double_until cap need = Some cap' /\ need <= cap' /\ cap <= cap'.
Proof.
  intros Hc. unfold double_until. destruct (loop_rule (fun c => cap <= c) (fun c => need <= c /\ cap <= c) (fun c => need - c) (S need)
    (fun cap => Some (if cap <? need then inl (cap * 2) else inr cap)) cap) as (q & E & Hq); [done| |lia|by exists q].
  intros c Hle. eexists. split; [done|]. destruct (Nat.ltb_spec c need); lia.
Qed.

(** [acc] is what the buffer holds so far. *)
Definition holds (buffer acc : list Z) : Prop := acc `prefix_of` buffer.

Lemma scratchWrite_ok buffer acc need bytes : holds buffer acc -> length acc + length bytes <= need ->
  exists buffer', scratchWrite buffer (length acc) need bytes = Some buffer' /\ holds buffer' (acc ++ bytes).
Proof.
  intros [k ->] Hn. unfold scratchWrite.
  assert (exists k', scratchEnsure (acc ++ k) need = Some (acc ++ k') /\ need <= length (acc ++ k')) as (k' & -> & Hk).
  { unfold scratchEnsure. destruct (Nat.leb_spec need (length (acc ++ k))); [by exists k|].
    destruct (double_until_ok (if length (acc ++ k) =? 0 then 64 else length (acc ++ k)) need) as (cap & -> & H1 & H2).
    { destruct (Nat.eqb_spec (length (acc ++ k)) 0); lia. }
    cbn. exists (k ++ replicate (cap - length (acc ++ k)) 0%Z). rewrite app_assoc. split; [done|]. rewrite (length_app (acc ++ k)), length_replicate. lia. }
  cbn. rewrite length_app in Hk. rewrite blit_Some by (rewrite length_app; lia). eexists. split; [done|].
  rewrite take_app_length, app_assoc. apply prefix_app_r. done.
Qed.

(** ** Escapes *)

Lemma hexdig_range c d : hexdig c = Some d -> (0 <= d < 16)%Z.
Proof.
  unfold hexdig, between. intros E.
  repeat match type of E with context [(?a <=? ?b)%Z] => destruct (Z.leb_spec a b) end; cbn [andb] in E; try done; injection E as <-; lia.
Qed.

Lemma hexValue_range l v : hexValue l = Some v -> (0 <= v < 0x10000)%Z.
Proof.
  destruct l as [|a [|b [|c [|d [|]]]]]; cbn; try done. intros E.
  destruct (hexdig a) as [x1|] eqn:E1; [|done]. destruct (hexdig b) as [x2|] eqn:E2; [|done].
  destruct (hexdig c) as [x3|] eqn:E3; [|done]. destruct (hexdig d) as [x4|] eqn:E4; [|done]. injection E as <-.
  apply hexdig_range in E1, E2, E3, E4. lia.
Qed.

Lemma hex_step code d : (0 <= code < 2 ^ 24)%Z -> (0 <= d < 16)%Z -> Z.lor (u32 (Z.shiftl code 4)) d = (code * 16 + d)%Z.
Proof. intros Hc Hd. rewrite Z.shiftl_mul_pow2 by lia. change (2 ^ 4)%Z with 16%Z. rewrite u32_id by lia. by apply (lor_mul_add code d 4). Qed.

Lemma readHex4_short p l : at_ p l -> length l < 4 -> readHex4 input p = Some Fail.
Proof. intros A Hl. pose proof (at_length _ _ A). unfold readHex4. destruct (Nat.ltb_spec (end_ - p) 4); [done|lia]. Qed.

Lemma readHex4_ok p a b c d l : at_ p (a :: b :: c :: d :: l) ->
  readHex4 input p = Some (match hexValue [a; b; c; d] with Some v => Ok v | None => Fail end).
Proof.
  intros A. pose proof (at_length _ _ A) as Hl. cbn in Hl. unfold readHex4. destruct (Nat.ltb_spec (end_ - p) 4); [lia|].
  pose proof (at_next _ _ _ A) as A1. pose proof (at_next _ _ _ A1) as A2. pose proof (at_next _ _ _ A2) as A3.
  unfold hexLoop, hexValue. rewrite (at_char _ _ A), (at_char _ _ A1), (at_char _ _ A2), (at_char _ _ A3). cbn [mbind option_bind].
  repeat match goal with |- context [hd0 (?x :: ?y)] => change (hd0 (x :: y)) with x end. rewrite !hexDigit_hexdig.
  destruct (hexdig a) as [x1|] eqn:E1; [|done]. cbn [mbind option_bind]. apply hexdig_range in E1. rewrite hex_step by lia.
  destruct (hexdig b) as [x2|] eqn:E2; [|done]. cbn [mbind option_bind]. apply hexdig_range in E2. rewrite hex_step by lia.
  destruct (hexdig c) as [x3|] eqn:E3; [|done]. cbn [mbind option_bind]. apply hexdig_range in E3. rewrite hex_step by lia.
  destruct (hexdig d) as [x4|] eqn:E4; [|done]. cbn [mbind option_bind]. apply hexdig_range in E4. rewrite hex_step by lia.
  done.
Qed.

(** The code point after [\u] and what follows it. *)
Definition escapeAt (l : list Z) : option (Z * list Z) :=
  match l with
  | x1 :: x2 :: x3 :: x4 :: l =>
      hi ← hexValue [x1; x2; x3; x4];
      if surrogate_hi hi then
        match l with
        | b :: u :: y1 :: y2 :: y3 :: y4 :: l =>
            if (b =? BACKSLASH)%Z && (u =? chr "u")%Z then
              lo ← hexValue [y1; y2; y3; y4];
              if surrogate_lo lo then Some ((0x10000 + (hi - 0xD800) * 1024 + (lo - 0xDC00))%Z, l) else None
            else None
        | _ => None
        end
      else if surrogate_lo hi then None else Some (hi, l)
  | _ => None
  end.

Lemma escapeAt_range l cp l' : escapeAt l = Some (cp, l') -> (0 <= cp < 0x110000)%Z.
Proof.
  unfold escapeAt. destruct l as [|x1 [|x2 [|x3 [|x4 l]]]]; try done. destruct (hexValue _) as [hi|] eqn:E1; [|done]. cbn [mbind option_bind].
  apply hexValue_range in E1. destruct (surrogate_hi hi) eqn:Eh.
  - destruct l as [|b [|u [|y1 [|y2 [|y3 [|y4 l]]]]]]; try done. destruct (_ && _); [|done]. destruct (hexValue _) as [lo|]; [|done]. cbn [mbind option_bind].
    destruct (surrogate_lo lo) eqn:El; [|done]. unfold surrogate_hi, surrogate_lo in *. rewrite andb_true_iff, !Z.leb_le in Eh, El. intros [= <- _]. lia.
  - destruct (surrogate_lo hi); [done|]. intros [= <- _]. lia.
Qed.

Lemma readChars_escape l : readChars (BACKSLASH :: chr "u" :: l) = '(cp, l) ← escapeAt l; '(s, l) ← readChars l; Some (utf8_bytes cp ++ s, l).
Proof.
  cbn [readChars]. change (unescaped BACKSLASH) with false. change (BACKSLASH =? QUOTE)%Z with false. change (BACKSLASH <? 32)%Z with false. rewrite Z.eqb_refl. cbv iota.
  unfold escapeAt. destruct l as [|x1 [|x2 [|x3 [|x4 l]]]]; try done. destruct (hexValue _) as [hi|]; [|done]. cbn [mbind option_bind].
  destruct (surrogate_hi hi).
  - destruct l as [|b [|u [|y1 [|y2 [|y3 [|y4 l]]]]]]; try done. destruct (_ && _); [|done]. destruct (hexValue _) as [lo|]; [|done]. cbn [mbind option_bind].
    by destruct (surrogate_lo lo).
  - by destruct (surrogate_lo hi).
Qed.

Lemma readEscape_ok p l : at_ p l ->
  match escapeAt l with
  | Some (cp, l') => exists p', readEscape input p = Some (Ok (cp, p')) /\ at_ p' l'
  | None => readEscape input p = Some Fail
  end.
Proof.
  intros A. unfold escapeAt, readEscape. destruct l as [|x1 [|x2 [|x3 [|x4 l]]]]; try (by rewrite (readHex4_short _ _ A) by (cbn; lia)).
  rewrite (readHex4_ok _ _ _ _ _ _ A). cbn [mbind option_bind]. destruct (hexValue [x1; x2; x3; x4]) as [hi|]; [|done]. cbn [mbind option_bind].
  assert (at_ (p + 4) l) as A4 by (by apply (at_app p [x1; x2; x3; x4] l)). pose proof (at_length _ _ A4) as Hl. fold (surrogate_hi hi) (surrogate_lo hi).
  destruct (surrogate_hi hi).
  2: { destruct (surrogate_lo hi); [done|]. by eexists. }
  destruct l as [|b [|u [|y1 [|y2 [|y3 [|y4 l]]]]]]; cbn [length] in Hl;
    try (destruct (Nat.ltb_spec (length input - (p + 4)) 6); [done|lia]).
  destruct (Nat.ltb_spec (length input - (p + 4)) 6); [lia|]. rewrite (at_char _ _ A4). cbn [mbind option_bind].
  pose proof (at_next _ _ _ A4) as A5. replace (p + 4 + 1) with (S (p + 4)) by lia. rewrite (at_char _ _ A5). cbn [mbind option_bind].
  change (hd0 (b :: _)) with b. change (hd0 (u :: _)) with u.
  destruct (b =? BACKSLASH)%Z; [|done]. destruct (u =? chr "u")%Z; [|done]. cbn [negb orb andb].
  assert (at_ (p + 4 + 2) (y1 :: y2 :: y3 :: y4 :: l)) as A6 by (by apply (at_app (p + 4) [b; u])).
  rewrite (readHex4_ok _ _ _ _ _ _ A6). cbn [mbind option_bind]. destruct (hexValue [y1; y2; y3; y4]) as [lo|]; [|done]. cbn [mbind option_bind].
  assert ((lo <? 0xDC00)%Z || (0xDFFF <? lo)%Z = negb (surrogate_lo lo)) as ->.
  { unfold surrogate_lo. by rewrite negb_andb, <- !Z.ltb_antisym. }
  destruct (surrogate_lo lo); [|done]. cbn [negb]. eexists. split; [by rewrite Z.shiftl_mul_pow2 by lia|].
  by apply (at_app (p + 4) [b; u; y1; y2; y3; y4]).
Qed.

(** ** Strings *)

Lemma readChars_run a b : Forall (fun c => unescaped c = true) a -> readChars (a ++ b) = '(s, l) ← readChars b; Some (a ++ s, l).
Proof.
  induction 1 as [|c a Hc _ IH]; cbn [app].
  - by destruct (readChars b) as [[]|].
  - cbn [readChars]. rewrite Hc, IH. by destruct (readChars b) as [[]|].
Qed.

Lemma utf8_length cp : length (utf8_bytes cp) <= 4.
Proof. unfold utf8_bytes. repeat (case_match; cbn; try lia). Qed.

(** What one turn decodes: the bytes and the rest, and whether it goes on. *)
Definition turnAt (l : list Z) : option (bool * list Z * list Z) :=
  let '(a, b) := span unescaped l in
  match b with
  | [] => None
  | c :: b =>
      if (c =? QUOTE)%Z then Some (false, a, b)
      else if (c <? 32)%Z then None
      else
        match b with
        | [] => None
        | e :: b =>
            if (e =? chr "u")%Z then '(cp, l) ← escapeAt b; Some (true, a ++ utf8_bytes cp, l)
            else x ← escape_byte e; Some (true, a ++ [x], b)
        end
  end.

Lemma readChars_turn l : readChars l =
  '(more, bs, l) ← turnAt l; if more : bool then '(s, l) ← readChars l; Some (bs ++ s, l) else Some (bs, l).
Proof.
  unfold turnAt. destruct (span unescaped l) as [a b] eqn:S. destruct (span_spec _ _ _ _ S) as (-> & Ha & Hb). rewrite (readChars_run a b Ha).
  destruct b as [|c b]; [done|]. destruct Hb as [|Hc]; [done|]. change (hd0 (c :: b)) with c in Hc.
  destruct (Z.eqb_spec c QUOTE) as [->|Hq]; [cbn; by rewrite app_nil_r|]. destruct (c <? 32)%Z eqn:E32.
  { cbn [readChars]. by rewrite Hc, (proj2 (Z.eqb_neq _ _) Hq), E32. }
  pose proof (not_plain c Hc (proj2 (Z.eqb_neq _ _) Hq) E32) as ->. destruct b as [|e b]; [done|].
  destruct (Z.eqb_spec e (chr "u")) as [->|Hu].
  - rewrite readChars_escape. destruct (escapeAt b) as [[cp l']|]; [|done]. cbn [mbind option_bind].
    destruct (readChars l') as [[s r]|]; [|done]. cbn [mbind option_bind]. by rewrite app_assoc.
  - cbn [readChars]. change (unescaped BACKSLASH) with false. change (BACKSLASH =? QUOTE)%Z with false. change (BACKSLASH <? 32)%Z with false. cbv iota.
    rewrite (proj2 (Z.eqb_neq _ _) Hu). destruct (escape_byte e); [|done]. cbn [mbind option_bind].
    destruct (readChars b) as [[s r]|]; [|done]. cbn [mbind option_bind]. by rewrite <- app_assoc.
Qed.

Lemma stringTurn_ok p l acc buffer : at_ p l -> holds buffer acc ->
  exists buffer', match turnAt l with
  | Some (more, bs, l') => exists p', stringTurn input (p, length acc, buffer) =
        Some (if more : bool then inl (p', length (acc ++ bs), buffer') else inr (Ok (p', length (acc ++ bs)), buffer')) /\
      at_ p' l' /\ holds buffer' (acc ++ bs)
  | None => stringTurn input (p, length acc, buffer) = Some (inr (Fail, buffer'))
  end.
Proof.
  intros A Hb. unfold turnAt, stringTurn. destruct (skip_while_ok isPlain unescaped p l isPlain_unescaped A) as (p1 & E1 & Hp1 & A1).
  destruct (span unescaped l) as [a b] eqn:S. cbn [fst snd] in *. destruct (span_spec _ _ _ _ S) as (-> & Ha & Hb0).
  assert (exists buffer1, (if p <? p1 then bytes ← slice (input ++ [0%Z]) p (p1 - p); buffer ← scratchWrite buffer (length acc) (length acc + (p1 - p)) bytes;
     Some (length acc + (p1 - p), buffer) else Some (length acc, buffer)) = Some (length (acc ++ a), buffer1) /\ holds buffer1 (acc ++ a)) as (buffer1 & E2 & Hb1).
  { destruct (Nat.ltb_spec p p1).
    - replace (p1 - p) with (length a) by lia. rewrite (at_slice _ _ _ A). cbn [mbind option_bind].
      destruct (scratchWrite_ok buffer acc (length acc + length a) a Hb ltac:(lia)) as (buffer1 & -> & Hb1). cbn. rewrite length_app. by eexists.
    - destruct a; [|cbn in Hp1; lia]. exists buffer. by rewrite app_nil_r. }
  rewrite E1. cbn [mbind option_bind]. rewrite E2. cbn [mbind option_bind]. rewrite (at_leb _ _ A1).
  destruct b as [|c b]; [by exists buffer1; rewrite bool_decide_true|]. rewrite bool_decide_false by done.
  rewrite (at_char _ _ A1). cbn [mbind option_bind]. change (hd0 (c :: b)) with c.
  destruct (c =? QUOTE)%Z; [exists buffer1; eexists; split; [done|]; split; [by eapply at_next|done]|].
  destruct (c <? 32)%Z; [by exists buffer1|]. pose proof (at_next _ _ _ A1) as A2. rewrite (at_leb _ _ A2).
  destruct b as [|e b]; [by exists buffer1; rewrite bool_decide_true|]. rewrite bool_decide_false by done.
  rewrite (at_char _ _ A2). cbn [mbind option_bind]. change (hd0 (e :: b)) with e. pose proof (at_next _ _ _ A2) as A3.
  destruct (e =? chr "u")%Z.
  - pose proof (readEscape_ok _ _ A3) as Ho. destruct (escapeAt b) as [[cp l']|] eqn:Ee; [|exists buffer1; by rewrite Ho].
    destruct Ho as (p4 & -> & A4). cbn [mbind option_bind]. rewrite (utf8Encode_utf8 cp) by (by eapply escapeAt_range).
    destruct (scratchWrite_ok buffer1 (acc ++ a) (length (acc ++ a) + 4) (utf8_bytes cp) Hb1) as (buffer2 & -> & Hb2); [pose proof (utf8_length cp); lia|].
    exists buffer2, p4. cbn [mbind option_bind]. rewrite <- length_app. by rewrite <- !app_assoc in *.
  - rewrite simpleEscape_escape. destruct (escape_byte e) as [x|]; [|by exists buffer1]. cbn [mbind option_bind].
    destruct (scratchWrite_ok buffer1 (acc ++ a) (length (acc ++ a) + 1) [x] Hb1) as (buffer2 & -> & Hb2); [cbn; lia|].
    exists buffer2. eexists. cbn [mbind option_bind]. replace (length (acc ++ a) + 1) with (length ((acc ++ a) ++ [x])) by (by rewrite (length_app (acc ++ a))).
    by rewrite <- !app_assoc in *.
Qed.

Lemma turnAt_length l bs l' : turnAt l = Some (true, bs, l') -> length l' < length l.
Proof.
  unfold turnAt. destruct (span unescaped l) as [a b] eqn:S. destruct (span_spec _ _ _ _ S) as (-> & _). rewrite length_app.
  destruct b as [|c b]; [done|]. destruct (c =? QUOTE)%Z; [done|]. destruct (c <? 32)%Z; [done|]. destruct b as [|e b]; [done|].
  destruct (e =? chr "u")%Z.
  - unfold escapeAt. destruct b as [|x1 [|x2 [|x3 [|x4 b]]]]; try done. destruct (hexValue _) as [z|]; [|done]. cbn [mbind option_bind].
    destruct (surrogate_hi z).
    + destruct b as [|? [|? [|? [|? [|? [|? b]]]]]]; try done. destruct (_ && _); [|done]. destruct (hexValue _); [|done]. cbn [mbind option_bind].
      destruct (surrogate_lo _); [|done]. intros [= _ <-]. cbn. lia.
    + destruct (surrogate_lo z); [done|]. intros [= _ <-]. cbn. lia.
  - destruct (escape_byte e); [|done]. intros [= _ <-]. cbn. lia.
Qed.

Lemma stringLoop_ok fuel p l acc buffer : at_ p l -> holds buffer acc -> length l < fuel ->
  exists buffer', match readChars l with
  | Some (s, l') => exists p', loop fuel (stringTurn input) (p, length acc, buffer) = Some (Ok (p', length (acc ++ s)), buffer') /\
      at_ p' l' /\ holds buffer' (acc ++ s)
  | None => loop fuel (stringTurn input) (p, length acc, buffer) = Some (Fail, buffer')
  end.
Proof.
  revert p l acc buffer. induction fuel as [|fuel IH]; intros p l acc buffer A Hb Hf; [lia|]. cbn [loop]. rewrite readChars_turn.
  destruct (stringTurn_ok p l acc buffer A Hb) as (buffer1 & T). destruct (turnAt l) as [[[more bs] l']|] eqn:Et; [|exists buffer1; by rewrite T].
  destruct T as (p1 & -> & A1 & Hb1). cbn [mbind option_bind]. destruct more; [|exists buffer1; by exists p1].
  destruct (IH p1 l' (acc ++ bs) buffer1 A1 Hb1) as (buffer2 & T); [apply turnAt_length in Et; lia|].
  exists buffer2. destruct (readChars l') as [[s r]|]; cbn [mbind option_bind]; [|done]. by rewrite <- !app_assoc in *.
Qed.

(** ** Numbers *)

Lemma at_tail p l c : at_ p l -> hd0 l = c -> c <> 0%Z -> at_ (S p) (tail l).
Proof. intros A E Hc. rewrite (hd0_cons c l E Hc) in A. by eapply at_next. Qed.

Lemma digit_nonzero c : digit_byte c = true -> c <> 0%Z.
Proof. by intros E ->. Qed.

Lemma digit_run p l : at_ p l -> exists p', skip_run input digit_byte p = Some p' /\ at_ p' (span digit_byte l).2 /\ p' = p + length (span digit_byte l).1.
Proof. intros A. destruct (skip_run_ok digit_byte p l eq_refl A) as (p' & -> & -> & A'). by eexists. Qed.

(** The cursor after each part. *)
Lemma scanNumber_ok start l : at_ start l ->
  match readNumber l with
  | Some (s, i, f, e, rest) => exists p, scanNumber input start = Some (Ok (p, negb (bool_decide (f ++ e = [])))) /\ at_ p rest
  | None => scanNumber input start = Some Fail
  end.
Proof.
  intros A. unfold readNumber, scanNumber. change isDigit with digit_byte. rewrite (at_char _ _ A). cbn [mbind option_bind].
  assert (exists s l1 p1, (if (hd0 l =? chr "-")%Z then ([chr "-"], tail l) else ([], l)) = (s, l1) /\
    (if (hd0 l =? chr "-")%Z then S start else start) = p1 /\ at_ p1 l1) as (s & l1 & p1 & -> & -> & A1).
  { destruct (Z.eqb_spec (hd0 l) (chr "-")) as [E|]; eexists _, _, _; (split; [done|]; split; [done|]); [by eapply at_tail|done]. }
  rewrite (at_char _ _ A1). cbn [mbind option_bind]. destruct (digit_byte (hd0 l1)) eqn:Hd; [|done]. cbn [negb].
  pose proof (digit_nonzero _ Hd) as Hnz.
  assert (match (if (hd0 l1 =? chr "0")%Z then if digit_byte (hd0 (tail l1)) then None else Some ([chr "0"], tail l1) else Some (span digit_byte l1)) with
    | Some (_, l2) => exists p2, (if (hd0 l1 =? chr "0")%Z then c ← char_at input (S p1); Some (if digit_byte c then None else Some (S p1))
        else q ← skip_run input digit_byte p1; Some (Some q)) = Some (Some p2) /\ at_ p2 l2
    | None => (if (hd0 l1 =? chr "0")%Z then c ← char_at input (S p1); Some (if digit_byte c then None else Some (S p1))
        else q ← skip_run input digit_byte p1; Some (Some q)) = Some None end) as Hi.
  { destruct (hd0 l1 =? chr "0")%Z.
    - pose proof (at_tail _ _ _ A1 eq_refl Hnz) as A2. rewrite (at_char _ _ A2). cbn [mbind option_bind]. destruct (digit_byte (hd0 (tail l1))); [done|by eexists].
    - destruct (digit_run _ _ A1) as (p2 & -> & A2 & _). destruct (span digit_byte l1) as [x y]. by exists p2. }
  destruct (if (hd0 l1 =? chr "0")%Z then _ else Some (span digit_byte l1)) as [[i l2]|]; [|rewrite Hi; done].
  destruct Hi as (p2 & -> & A2). cbn [mbind option_bind]. rewrite (at_char _ _ A2). cbn [mbind option_bind].
  assert (match (if (hd0 l2 =? chr ".")%Z then if negb (digit_byte (hd0 (tail l2))) then None else let '(a, b) := span digit_byte (tail l2) in Some (chr "." :: a, b)
      else Some ([], l2)) with
    | Some (f, l3) => exists p3, (if (hd0 l2 =? chr ".")%Z then c ← char_at input (S p2); if negb (digit_byte c) then Some None else q ← skip_run input digit_byte (S p2); Some (Some (q, true))
        else Some (Some (p2, false))) = Some (Some (p3, negb (bool_decide (f = [])))) /\ at_ p3 l3
    | None => (if (hd0 l2 =? chr ".")%Z then c ← char_at input (S p2); if negb (digit_byte c) then Some None else q ← skip_run input digit_byte (S p2); Some (Some (q, true))
        else Some (Some (p2, false))) = Some None end) as Hf.
  { destruct (Z.eqb_spec (hd0 l2) (chr ".")) as [E|E]; [|by exists p2].
    pose proof (at_tail _ _ _ A2 E ltac:(done)) as A3. rewrite (at_char _ _ A3). cbn [mbind option_bind]. destruct (digit_byte (hd0 (tail l2))); [|done]. cbn [negb].
    destruct (digit_run _ _ A3) as (p3 & -> & A3' & _). destruct (span digit_byte (tail l2)) as [x y]. by exists p3. }
  destruct (if (hd0 l2 =? chr ".")%Z then _ else Some ([], l2)) as [[f l3]|]; [|rewrite Hf; done].
  destruct Hf as (p3 & -> & A3). cbn [mbind option_bind]. rewrite (at_char _ _ A3). cbn [mbind option_bind].
  destruct ((hd0 l3 =? chr "e")%Z || (hd0 l3 =? chr "E")%Z) eqn:Ee; [|exists p3; rewrite app_nil_r; by split].
  assert (hd0 l3 <> 0%Z) as Hnz3 by (intros E; rewrite E in Ee; done).
  pose proof (at_tail _ _ _ A3 eq_refl Hnz3) as A4. rewrite (at_char _ _ A4). cbn [mbind option_bind].
  assert (exists x l4 p4, (if (hd0 (tail l3) =? chr "+")%Z || (hd0 (tail l3) =? chr "-")%Z then ([hd0 (tail l3)], tail (tail l3)) else ([], tail l3)) = (x, l4) /\
    (if (hd0 (tail l3) =? chr "+")%Z || (hd0 (tail l3) =? chr "-")%Z then S (S p3) else S p3) = p4 /\ at_ p4 l4) as (x & l4 & p4 & -> & -> & A5).
  { destruct ((hd0 (tail l3) =? chr "+")%Z || (hd0 (tail l3) =? chr "-")%Z) eqn:Es; eexists _, _, _; (split; [done|]; split; [done|]); [|done].
    eapply at_tail; [done|done|]. intros E. rewrite E in Es. done. }
  rewrite (at_char _ _ A5). cbn [mbind option_bind]. destruct (digit_byte (hd0 l4)); [|done]. cbn [negb].
  destruct (digit_run _ _ A5) as (p5 & -> & A6 & _). destruct (span digit_byte l4) as [x' y]. exists p5. split; [|done]. cbn [mbind option_bind].
  rewrite bool_decide_false; [done|]. destruct f; done.
Qed.

(** The limit is exact. *)
Lemma decimal_from i acc : fold_left (fun acc c => (acc * 10 + (c - chr "0"))%Z) i acc = (acc * 10 ^ Z.of_nat (length i) + decimal i)%Z.
Proof.
  unfold decimal. revert acc. induction i as [|c i IH]; intros acc; cbn [fold_left length]; [rewrite Z.pow_0_r; lia|].
  rewrite IH, (IH (0 * 10 + _)%Z). rewrite Nat2Z.inj_succ, Z.pow_succ_r by lia. ring.
Qed.

Lemma digit_byte_value c : digit_byte c = true -> (0 <= c - chr "0" <= 9)%Z.
Proof. unfold digit_byte, between. rewrite andb_true_iff, !Z.leb_le. change (chr "0") with 48%Z. lia. Qed.

Lemma decimal_is_nonneg i : digits i -> (0 <= decimal i)%Z.
Proof.
  intros Hd. unfold decimal. cut (forall acc, 0 <= acc -> 0 <= fold_left (fun acc c => (acc * 10 + (c - chr "0"))) i acc)%Z; [intros Hf; by apply Hf|].
  induction Hd as [|c i Hc _ IH]; intros acc Ha; [done|]. cbn [fold_left]. apply IH.
  apply digit_byte_value in Hc. lia.
Qed.

Lemma accumulate_ok q i rest acc : at_ q (i ++ rest) -> digits i -> (0 <= acc <= LIMIT)%Z ->
  accumulate input (length i) q acc =
    Some (let n := fold_left (fun acc c => (acc * 10 + (c - chr "0"))%Z) i acc in if (LIMIT <? n)%Z then Fail else Ok n).
Proof.
  revert q acc. induction i as [|c i IH]; intros q acc A Hd Ha.
  { cbn. destruct (Z.ltb_spec LIMIT acc); [lia|done]. }
  inversion Hd as [|? ? Hc Hd' E]; subst. cbn [app length accumulate] in *. rewrite (at_char _ _ A). cbn [mbind option_bind]. change (hd0 (c :: _)) with c.
  assert (0 <= c - chr "0" <= 9)%Z as Hr.
  { by apply digit_byte_value in Hc. }
  rewrite u32_id by lia. set (d := (c - chr "0")%Z) in *. cbn [fold_left]. fold d.
  assert ((Z.quot (LIMIT - d) 10 <? acc)%Z = (LIMIT <? acc * 10 + d)%Z) as ->.
  { unfold LIMIT in *. rewrite Z.quot_div_nonneg by lia. apply Bool.eq_iff_eq_true. rewrite !Z.ltb_lt.
    pose proof (Z.div_mod (4611686018427387903 - d) 10 ltac:(lia)). pose proof (Z.mod_pos_bound (4611686018427387903 - d) 10 ltac:(lia)). lia. }
  destruct (Z.ltb_spec LIMIT (acc * 10 + d)) as [Hlt|Hle].
  - rewrite decimal_from. pose proof (decimal_is_nonneg i Hd'). pose proof (Z.pow_pos_nonneg 10 (Z.of_nat (length i)) ltac:(lia) ltac:(lia)).
    destruct (Z.ltb_spec LIMIT ((acc * 10 + d) * 10 ^ Z.of_nat (length i) + decimal i)); [done|]. unfold LIMIT in *. nia.
  - apply IH; [by eapply at_next|done|lia].
Qed.
End Scan.
