(* ===== verification/JsonParse.v ===== *)
(** * JsonParse

    The JSON parser builds what the reader of [JsonGrammar] reads: a
    simulation between the two, with the objects that the parser makes.  The
    objects of a value have names in an interval of their own, so that filling
    one container leaves the others alone. *)
From S2P Require Import Prelude Tagging.
From stdpp Require Import base list gmap numbers.
From S2P Require Import Probing Dictionary Collections Json JsonGrammar JsonScan.

#[local] Open Scope nat_scope.

(** ** Objects by name *)

(** The objects named [lo] to [hi] are the same in both stores. *)
Definition same_on (lo hi : nat) (h h' : Store) : Prop := forall p, lo <= p < hi ->
  strings (st_names h') !! p = strings (st_names h) !! p /\ assocs (st_names h') !! p = assocs (st_names h) !! p /\
  st_arrays h' !! p = st_arrays h !! p /\ st_colls h' !! p = st_colls h !! p /\
  st_dicts h' !! p = st_dicts h !! p /\ st_floats h' !! p = st_floats h !! p.

Lemma same_on_refl lo hi h : same_on lo hi h h.
Proof. by intros p _. Qed.

Lemma same_on_trans lo hi h1 h2 h3 : same_on lo hi h1 h2 -> same_on lo hi h2 h3 -> same_on lo hi h1 h3.
Proof.
  intros S1 S2 p Hp. destruct (S1 p Hp) as (? & ? & ? & ? & ? & ?). destruct (S2 p Hp) as (? & ? & ? & ? & ? & ?). split_and!; congruence.
Qed.

Lemma same_on_sub lo hi lo' hi' h h' : same_on lo hi h h' -> lo <= lo' -> hi' <= hi -> same_on lo' hi' h h'.
Proof. intros S H1 H2 p Hp. apply S. lia. Qed.

Abbreviation next h := (allocations (st_names h)).

(** No object has a name that was not given out. *)
Record store_ok (h : Store) : Prop := {
  so_named : named h;
  so_strings : forall p, is_Some (strings (st_names h) !! p) -> p < next h;
  so_assocs : forall p, is_Some (assocs (st_names h) !! p) -> p < next h;
  so_dicts : forall p, is_Some (st_dicts h !! p) -> p < next h;
  so_floats : forall p, is_Some (st_floats h !! p) -> p < next h }.

(** ** Dictionaries by the bytes of a key *)

Definition lookup_at (m : Memory) (d : Dictionary) (k : list Z) : option Value :=
  valueOf m <$> head (filter (fun a => bytesOf m (keyOf m a) = k) (entries (contents d))).

Lemma content_lookup m d key : content StringKeys m d key = lookup_at m d (bytesOf m key).
Proof.
  unfold content, lookup_at. f_equal. f_equal. apply list_filter_iff. intros a. cbn. unfold stringCmp.
  rewrite stringEquals_spec. apply bool_decide_eq_true.
Qed.

(** The value of a key in a list of members: the last one counts. *)
Fixpoint binding (k : list Z) (l : list (list Z * Json)) : option Json :=
  match l with
  | [] => None
  | (k', t) :: l => match binding k l with Some t' => Some t' | None => if decide (k = k') then Some t else None end
  end.

Lemma binding_snoc k l k' t : binding k (l ++ [(k', t)]) = if decide (k = k') then Some t else binding k l.
Proof.
  induction l as [|[k0 t0] l IH]; cbn; [done|]. rewrite IH. by destruct (decide (k = k')).
Qed.

Section Build.
Context `{Libc} (collects : nat -> bool) (CityHash64 : list Z -> Z).
Abbreviation dok m d := (dict_ok CityHash64 StringKeys m d).

(** A dictionary depends on its associations and their keys. *)
Lemma dict_ok_frame m m' d : (forall a, a ∈ entries (contents d) -> assocs m' !! a = assocs m !! a /\ strings m' !! keyOf m a = strings m !! keyOf m a) ->
  allocations m <= allocations m' -> dok m d -> dok m' d.
Proof.
  intros S Hal [Hp Hpl Ht Hl He].
  assert (forall a, a ∈ entries (contents d) -> keyOf m' a = keyOf m a /\ bytesOf m' (keyOf m a) = bytesOf m (keyOf m a) /\ classOf m' (keyOf m a) = classOf m (keyOf m a)) as Sk.
  { intros a Ha. destruct (S a Ha) as [Ea Es]. unfold keyOf, bytesOf, classOf in *. rewrite Ea, Es. by split_and!. }
  constructor; try done.
  - intros i a Hi. destruct (Hpl i a Hi) as (dist & Hd & Ed & Hb). assert (a ∈ entries (contents d)) as Ha by (apply elem_of_entries; by eexists).
    destruct (Sk a Ha) as (E1 & E2 & _). exists dist. unfold start in *. cbn in *. unfold computeStringHash in *. rewrite E1, E2. split_and!; [done|done|].
    intros e He'. destruct (Hb e He') as (b & Hb1 & Hb2). exists b. split; [done|]. assert (b ∈ entries (contents d)) as Hbe by (apply elem_of_entries; by eexists).
    destruct (Sk b Hbe) as (F1 & F2 & _). unfold stringCmp in *. rewrite stringEquals_spec in *. by rewrite F1, F2, E2.
  - intros a Ha. destruct (He a Ha) as (Hlt & x & Hx & Hc). split; [lia|]. exists x. rewrite (proj1 (S a Ha)). split; [done|].
    destruct (Sk a Ha) as (_ & _ & E). unfold keyOf in E. rewrite Hx in E. cbn in E. by rewrite E.
Qed.

Lemma lookup_frame m m' d k : (forall a, a ∈ entries (contents d) -> assocs m' !! a = assocs m !! a /\ strings m' !! keyOf m a = strings m !! keyOf m a) ->
  lookup_at m' d k = lookup_at m d k.
Proof.
  unfold lookup_at. induction (entries (contents d)) as [|a l IH]; intros S; [done|]. rewrite !filter_cons.
  destruct (S a ltac:(by left)) as [Ea Es].
  assert (keyOf m' a = keyOf m a) as Ek by (unfold keyOf; by rewrite Ea). assert (bytesOf m' (keyOf m a) = bytesOf m (keyOf m a)) as Eb by (unfold bytesOf; by rewrite Es).
  rewrite Ek, Eb. case_decide; [cbn; unfold valueOf; by rewrite Ea|]. apply IH. intros b Hb. apply S. by right.
Qed.

(** ** What a value denotes *)

Inductive denotes (h : Store) (lo hi : nat) : Value -> Json -> Prop :=
| dn_null : denotes h lo hi Nil JNull
| dn_bool b : denotes h lo hi (Boolean b) (JBool b)
| dn_int z : denotes h lo hi (Int z) (JInt z)
| dn_flt bits : smallFloatFits bits = true -> denotes h lo hi (Flt bits) (JFloat bits)
| dn_float p bits : smallFloatFits bits = false -> lo <= p < hi -> st_floats h !! p = Some bits -> denotes h lo hi (Ref p) (JFloat bits)
| dn_string p s : lo <= p < hi -> strings (st_names h) !! p = Some (mkString ClassString 0 s) -> denotes h lo hi (Ref p) (JString s)
| dn_array c array vs l : lo <= c < hi -> lo <= array < hi -> coll_ok h c array vs -> Forall2 (denotes h lo hi) vs l ->
    denotes h lo hi (Ref c) (JArray l)
| dn_object c d l : lo <= c < hi -> st_dicts h !! c = Some d -> dok (st_names h) d ->
    (forall a, a ∈ entries (contents d) -> lo <= a < hi /\ lo <= keyOf (st_names h) a < hi) ->
    (forall k t, binding k l = Some t -> exists v, lookup_at (st_names h) d k = Some v /\ denotes h lo hi v t) ->
    (forall k, binding k l = None -> lookup_at (st_names h) d k = None) ->
    denotes h lo hi (Ref c) (JObject l).

(** Induction over a value with its parts. *)
Lemma json_induction (P : Json -> Prop) :
  P JNull -> (forall b, P (JBool b)) -> (forall z, P (JInt z)) -> (forall bits, P (JFloat bits)) -> (forall s, P (JString s)) ->
  (forall l, Forall P l -> P (JArray l)) -> (forall l, Forall (fun m => P m.2) l -> P (JObject l)) -> forall t, P t.
Proof.
  intros H1 H2 H3 H4 H5 H6 H7. fix IH 1. intros [ |b|z|bits|s|l|l]; [done|done|done|done|done| |].
  - apply H6. induction l as [|t l IHl]; constructor; [apply IH|done].
  - apply H7. induction l as [|[k t] l IHl]; constructor; [apply IH|done].
Qed.

Lemma binding_in k l t : binding k l = Some t -> exists k', (k', t) ∈ l.
Proof.
  induction l as [|[k' t'] l IH]; [done|]. cbn. destruct (binding k l) as [u|].
  - intros [= <-]. destruct (IH eq_refl) as (k'' & Hin). exists k''. by right.
  - case_decide; [|done]. intros [= <-]. exists k'. by left.
Qed.

(** A value only depends on the objects of its interval, which may grow. *)
Lemma denotes_frame h h' lo hi lo' hi' v t : lo' <= lo -> hi <= hi' -> next h <= next h' -> same_on lo hi h h' ->
  denotes h lo hi v t -> denotes h' lo' hi' v t.
Proof.
  intros Hlo Hhi Hn S. revert v. induction t as [ |b|z|bits|s|l IH|l IH] using json_induction; intros v D;
    inversion D as [|? E1|? E1|? F1|p ? F1 Hp Hf|p ? Hp Hs|c array vs ? Hc Ha C F|c d ? Hc Hd Hok He Hb Hno]; subst; try (by constructor).
  - apply dn_float; [done|lia|]. by destruct (S p ltac:(lia)) as (_ & _ & _ & _ & _ & ->).
  - apply dn_string; [lia|]. by destruct (S p ltac:(lia)) as (-> & _).
  - apply (dn_array _ _ _ c array vs); [lia|lia| |].
    + destruct C as [Hc' (vars & Ha' & Hp) Hb]. constructor; [|exists vars; split; [|done]|done].
      * by destruct (S c ltac:(lia)) as (_ & _ & _ & -> & _).
      * by destruct (S array ltac:(lia)) as (_ & _ & -> & _).
    + clear -F IH. induction F as [|v t vs l D1 F IHF]; [constructor|]. inversion IH; subst. constructor; [by eauto|by apply IHF].
  - assert (forall a, a ∈ entries (contents d) -> assocs (st_names h') !! a = assocs (st_names h) !! a /\
      strings (st_names h') !! keyOf (st_names h) a = strings (st_names h) !! keyOf (st_names h) a) as Se.
    { intros a Ha. destruct (He a Ha) as [H1 H2]. split; [by destruct (S a H1) as (_ & -> & _)|by destruct (S _ H2) as (-> & _)]. }
    apply (dn_object _ _ _ c d); [lia|by destruct (S c ltac:(lia)) as (_ & _ & _ & _ & -> & _)|by eapply dict_ok_frame| | |].
    + intros a Ha. assert (keyOf (st_names h') a = keyOf (st_names h) a) as -> by (unfold keyOf; by rewrite (proj1 (Se a Ha))).
      destruct (He a Ha). lia.
    + intros k t Hk. destruct (Hb k t Hk) as (v & Hv & Dv). exists v. rewrite (lookup_frame _ _ _ _ Se). split; [done|].
      destruct (binding_in _ _ _ Hk) as (k' & Hin). rewrite list.Forall_forall in IH. by apply (IH (k', t) Hin).
    + intros k Hk. rewrite (lookup_frame _ _ _ _ Se). auto.
Qed.

(** ** Steps of the store *)

(** [h'] has more objects than [h]. *)
Record grows (h h' : Store) : Prop := {
  gr_ok : store_ok h';
  gr_next : next h <= next h';
  gr_same : same_on 0 (next h) h h' }.

Lemma store_grows_refl h : store_ok h -> grows h h.
Proof. intros O. constructor; [done|done|apply same_on_refl]. Qed.

Lemma store_grows_trans h1 h2 h3 : grows h1 h2 -> grows h2 h3 -> grows h1 h3.
Proof.
  intros [] []. constructor; [done|lia|]. eapply same_on_trans; [done|]. eapply same_on_sub; [done|lia|lia].
Qed.

(** A value made before is still there. *)
Lemma grows_denotes h h' lo hi v t : grows h h' -> hi <= next h -> denotes h lo hi v t -> denotes h' lo hi v t.
Proof. intros [] Hh. apply denotes_frame; [lia|lia|done|]. eapply same_on_sub; [done|lia|lia]. Qed.

(** Proves that the names of a store that was changed at one place are in order. *)
Ltac in_order := intros ? [? Hlook];
  repeat (apply lookup_insert_Some in Hlook as [[<- _]|[_ Hlook]]; [lia|]);
  match goal with F : forall p, is_Some (?m !! p) -> p < _ |- _ => specialize (F _ (mk_is_Some _ _ Hlook)); cbn in *; lia end.

Lemma newString_grows h bytes : store_ok h -> let '(h', p) := newStringWith collects h bytes in
  p = next h /\ next h' = S (next h) /\ grows h h' /\ strings (st_names h') !! p = Some (mkString ClassString 0 bytes).
Proof.
  intros [[NA NC] NS NAs ND NF]. cbn. split_and!; [done|done| |by rewrite lookup_insert_eq]. constructor; cbn; [|lia|].
  - constructor; [split|..]; cbn; in_order.
  - intros p Hp. cbn. rewrite !lookup_insert_ne by lia. by split_and!.
Qed.

Lemma newFloat_grows h bits : store_ok h -> let '(h', p) := newFloat collects h bits in
  p = next h /\ next h' = S (next h) /\ grows h h' /\ st_floats h' !! p = Some bits.
Proof.
  intros [[NA NC] NS NAs ND NF]. cbn. split_and!; [done|done| |by rewrite lookup_insert_eq]. constructor; cbn; [|lia|].
  - constructor; [split|..]; cbn; in_order.
  - intros p Hp. cbn. rewrite !lookup_insert_ne by lia. by split_and!.
Qed.

(** ** Filling an array *)

(** [lo] is where the names of the array start; [vs] are its elements and [l]
    what they denote, each in an interval without the array itself. *)
Record filling (lo : nat) (h : Store) (c array : nat) (vs : list Value) (l : list Json) : Prop := {
  fl_ok : store_ok h;
  fl_names : lo <= c < next h /\ lo <= array < next h;
  fl_coll : coll_ok h c array vs;
  fl_elements : Forall2 (fun v t => exists a b, lo <= a /\ b <= next h /\ ~ (a <= c < b) /\ ~ (a <= array < b) /\ denotes h a b v t) vs l }.

Lemma newOrdColl_filling h : store_ok h -> let '(h', c) := newOrdColl collects h 8 in
  c = next h /\ grows h h' /\ filling (next h) h' c (S c) [] [].
Proof.
  intros [N NS NAs ND NF]. pose proof (newOrdColl_ok collects h 8 N) as E. destruct (newOrdColl collects h 8) as [h' c].
  destruct E as (-> & C & N' & Al & Es & Ea & Ed & Ef & F).
  assert (store_ok h') as O'.
  { constructor; [done|..]; rewrite ?Es, ?Ea, ?Ed, ?Ef, Al; intros p Hp; [specialize (NS p Hp)|specialize (NAs p Hp)|specialize (ND p Hp)|specialize (NF p Hp)]; lia. }
  split; [done|]. split.
  - constructor; [done|lia|]. intros p Hp. destruct (F p ltac:(lia)) as [-> ->]. rewrite Es, Ea, Ed, Ef. by split_and!.
  - constructor; [done|lia|done|constructor].
Qed.

Lemma filling_grows lo h h' c array vs l : filling lo h c array vs l -> grows h h' -> filling lo h' c array vs l.
Proof.
  intros [O (Hc & Ha) C F] G. pose proof G as [O' Hn S]. constructor; [done|lia| |].
  - destruct C as [H1 (vars & H2 & H3) H4]. constructor; [|exists vars; split; [|done]|done].
    + by destruct (S c ltac:(lia)) as (_ & _ & _ & -> & _).
    + by destruct (S array ltac:(lia)) as (_ & _ & -> & _).
  - eapply list.Forall2_impl; [exact F|]. intros v t (a & b & H1 & H2 & H3 & H4 & D). exists a, b. split_and!; [lia|lia|done|done|]. by eapply grows_denotes.
Qed.

(** The next element. *)
Lemma array_step lo h h1 c array vs l v t : filling lo h c array vs l -> grows h h1 -> denotes h1 (next h) (next h1) (valueOfNode v) t ->
  (Z.of_nat (length vs) + 1 < 2 ^ 62)%Z ->
  exists h2 array', jsonOrdCollAppend collects h1 c v = Some h2 /\ filling lo h2 c array' (vs ++ [valueOfNode v]) (l ++ [t]) /\
    next h1 <= next h2 /\ same_on 0 lo h1 h2.
Proof.
  intros Fl G D Hb. pose proof (filling_grows _ _ _ _ _ _ _ Fl G) as Fl1. destruct Fl1 as [O1 (Hc & Ha) C F].
  pose proof Fl as [_ (Hc0 & Ha0) _ _].
  destruct (append_by_ok collects (fun n => if (n <? 8)%Z then 8%Z else (n * 2)%Z) h1 c array vs (valueOfNode v)) as (h2 & array' & E & C' & N' & AP & _);
    [intros n Hn; destruct (Z.ltb_spec n 8); lia|apply O1|done|done|].
  assert (forall a b, b <= next h1 -> ~ (a <= c < b) -> ~ (a <= array < b) -> same_on a b h1 h2) as S2.
  { intros a b Hbn H1 H2 p Hp. destruct AP as [[Es Ea] Hal [Ed Ef] HC HA _]. rewrite Es, Ea, Ed, Ef, (HC p), (HA p) by lia. by split_and!. }
  pose proof (ap_alloc _ _ _ _ _ AP) as Hal.
  exists h2, array'. split; [exact E|]. split_and!; [|done|apply S2; lia].
  assert (lo <= array' < next h2) as Ha'.
  { pose proof C' as [_ (vars & Hv & _) _]. pose proof (proj1 N' array' (mk_is_Some _ _ Hv)). destruct (ap_fresh _ _ _ _ _ AP) as [->| ->]; lia. }
  constructor.
  - destruct O1 as [N1 NS NAs ND NF]. destruct AP as [[Es Ea] _ [Ed Ef] _ _ _].
    constructor; [done|..]; rewrite ?Es, ?Ea, ?Ed, ?Ef; intros p Hp; [specialize (NS p Hp)|specialize (NAs p Hp)|specialize (ND p Hp)|specialize (NF p Hp)]; lia.
  - lia.
  - done.
  - apply Forall2_app.
    + eapply list.Forall2_impl; [exact F|]. intros w u (a & b & H1 & H2 & H3 & H4 & Dw). exists a, b. split_and!; [done|lia|done| |].
      * destruct (ap_fresh _ _ _ _ _ AP) as [->| ->]; [done|lia].
      * eapply denotes_frame; [| | | |exact Dw]; [lia|lia|done|by apply S2].
    + constructor; [|done]. exists (next h), (next h1). split_and!; [lia|lia|lia| |].
      * destruct (ap_fresh _ _ _ _ _ AP) as [->| ->]; lia.
      * eapply denotes_frame; [| | | |exact D]; [lia|lia|done|apply S2; lia].
Qed.

Lemma filling_denotes lo h c array vs l : filling lo h c array vs l -> denotes h lo (next h) (Ref c) (JArray l).
Proof.
  intros [O (Hc & Ha) C F]. eapply dn_array; [lia|exact Ha|exact C|]. eapply list.Forall2_impl; [exact F|].
  intros v t (a & b & H1 & H2 & _ & _ & D). eapply denotes_frame; [done|done|done|apply same_on_refl|exact D].
Qed.

(** ** Filling a dictionary *)

Record filling_dict (lo : nat) (h : Store) (c : nat) (d : Dictionary) (l : list (list Z * Json)) : Prop := {
  fd_ok : store_ok h;
  fd_name : lo <= c < next h;
  fd_dict : st_dicts h !! c = Some d /\ dok (st_names h) d;
  fd_entries : forall a, a ∈ entries (contents d) -> lo <= a < next h /\ lo <= keyOf (st_names h) a < next h;
  fd_members : forall k t, binding k l = Some t -> exists v x y, lookup_at (st_names h) d k = Some v /\ lo <= x /\ y <= next h /\
    ~ (x <= c < y) /\ (forall a, a ∈ entries (contents d) -> ~ (x <= a < y)) /\ denotes h x y v t;
  fd_absent : forall k, binding k l = None -> lookup_at (st_names h) d k = None }.

Lemma newDict_filling h : store_ok h -> let '(h', c) := newDictObject collects h 8 in
  c = next h /\ grows h h' /\ filling_dict (next h) h' c (mkDictionary (replicate 8 None) 0) [].
Proof.
  intros [[NA NC] NS NAs ND NF]. cbn. split; [done|].
  assert (store_ok (set_dict (next h) (mkDictionary (replicate 8 None) 0)
    (set_names (newObject collects (newObject collects (st_names h)).1).1 h))) as O'.
  { constructor; [split|..]; cbn; in_order. }
  split.
  - constructor; [exact O'|cbn; lia|]. intros p Hp. cbn. rewrite !lookup_insert_ne by lia. by split_and!.
  - constructor; [exact O'|cbn; lia| | |done|done].
    + cbn. split; [by rewrite lookup_insert_eq|]. constructor; cbn; [by exists 3|apply (placed_replicate _ _ _ 8)|done|done|by intros a ?%elem_of_nil].
    + by intros a ?%elem_of_nil.
Qed.

Lemma filling_dict_grows lo h h' c d l : filling_dict lo h c d l -> grows h h' -> filling_dict lo h' c d l.
Proof.
  intros [O Hc [Hd Hok] He Hm Ha] G. pose proof G as [O' Hn S].
  assert (forall a, a ∈ entries (contents d) -> assocs (st_names h') !! a = assocs (st_names h) !! a /\
    strings (st_names h') !! keyOf (st_names h) a = strings (st_names h) !! keyOf (st_names h) a) as Se.
  { intros a Hin. destruct (He a Hin) as [H1 H2]. split; [by destruct (S a ltac:(lia)) as (_ & -> & _)|by destruct (S (keyOf (st_names h) a) ltac:(lia)) as (-> & _)]. }
  constructor; [done|lia| | | |].
  - split; [by destruct (S c ltac:(lia)) as (_ & _ & _ & _ & -> & _)|by eapply dict_ok_frame].
  - intros a Hin. assert (keyOf (st_names h') a = keyOf (st_names h) a) as -> by (unfold keyOf; by rewrite (proj1 (Se a Hin))).
    destruct (He a Hin). lia.
  - intros k t Hk. destruct (Hm k t Hk) as (v & x & y & H1 & H2 & H3 & H4 & H5 & D). exists v, x, y. rewrite (lookup_frame _ _ _ _ Se).
    split_and!; [done|done|lia|done|done|]. by eapply grows_denotes.
  - intros k Hk. rewrite (lookup_frame _ _ _ _ Se). by apply Ha.
Qed.

(** A store by the bytes of the key. *)
Lemma stored_lookup m d key v m' d' a k : dok m d -> stored collects CityHash64 StringKeys m d key v m' d' a ->
  lookup_at m' d' k = if decide (k = bytesOf m key) then Some v else lookup_at m d k.
Proof.
  intros D S. pose proof (stored_content collects CityHash64 _ _ _ _ _ _ _ _ D S) as C. pose proof (st_strings _ _ _ _ _ _ _ _ _ _ S) as Es.
  assert (forall q, bytesOf m' q = bytesOf m q) as Eb by (intros q; unfold bytesOf; by rewrite Es).
  assert (forall q, bytesOf m q = k -> lookup_at m' d' k = if decide (k = bytesOf m key) then Some v else lookup_at m d k) as Hq.
  { intros q <-. specialize (C q). rewrite !content_lookup, Eb in C. rewrite C. cbn. unfold stringCmp. rewrite stringEquals_spec.
    destruct (decide (bytesOf m q = bytesOf m key)) as [E|E]; [by rewrite bool_decide_true|by rewrite bool_decide_false by congruence]. }
  case_decide as Ek; [by apply (Hq key)|].
  assert (forall m0 d0 w, lookup_at m0 d0 k = Some w -> exists q, bytesOf m0 q = k) as Hex.
  { intros m0 d0 w. unfold lookup_at. destruct (filter _ _) as [|b l] eqn:F; [done|]. intros _. exists (keyOf m0 b).
    assert (b ∈ b :: l) as Hb by left. rewrite <- F in Hb. by apply list_elem_of_filter in Hb as [? _]. }
  destruct (lookup_at m' d' k) as [w|] eqn:E1; [destruct (Hex _ _ _ E1) as (q & Eq); rewrite Eb in Eq; by apply (Hq q)|].
  destruct (lookup_at m d k) as [w|] eqn:E2; [|done]. destruct (Hex _ _ _ E2) as (q & Eq). by apply (Hq q).
Qed.

(** An immediate is no pointer. *)
Definition node_ok (v : JsonValue) : Prop := match v with Immediate (Int _) | Immediate (Flt _) => True | Immediate _ => False | Object_ _ => True end.

(** The two ways to store a member do the same to a well-made node. *)
Lemma member_stored m d key v : dok m d -> classOf m key = ClassString -> node_ok v ->
  exists m' d' a, match v with
    | Immediate v => stringDictAtPut collects CityHash64 m d key (raw m v)
    | Object_ v => stringDictAtPutObject collects CityHash64 m d key v
    end = Some (m', d', a) /\ stored collects CityHash64 StringKeys m d key (valueOfNode v) m' d' a.
Proof.
  intros D Hc Hv. destruct v as [v|v].
  - destruct (dictAtPut_ok collects CityHash64 StringKeys m d key (raw m v) D Hc) as (m' & d' & a & E & S).
    exists m', d', a. split; [unfold stringDictAtPut; by rewrite Hc|]. by destruct v.
  - destruct (dictAtPutObject_ok collects CityHash64 StringKeys m d key v D Hc) as (m' & d' & a & E & S).
    exists m', d', a. split; [unfold stringDictAtPutObject; by rewrite Hc|done].
Qed.

(** The next member: a key of the bytes [k] and its value. *)
Lemma json_object_step lo h h1 c d l key k v t : filling_dict lo h c d l -> grows h h1 ->
  next h <= key < next h1 -> strings (st_names h1) !! key = Some (mkString ClassString 0 k) ->
  (exists x, S key <= x /\ denotes h1 x (next h1) (valueOfNode v) t) -> node_ok v ->
  exists h2 d', putMember collects CityHash64 h1 c key v = Some h2 /\ filling_dict lo h2 c d' (l ++ [(k, t)]) /\
    next h1 <= next h2 /\ same_on 0 lo h1 h2.
Proof.
  intros Fd G Hk Hs (x & Hx & D) Hv. pose proof (filling_dict_grows _ _ _ _ _ _ Fd G) as Fd1. pose proof (fd_name _ _ _ _ _ Fd) as Hc0.
  pose proof (fd_entries _ _ _ _ _ Fd) as He0. destruct Fd1 as [O1 Hc [Hd Hok] He Hm Ha].
  assert (classOf (st_names h1) key = ClassString) as Hcl by (unfold classOf; by rewrite Hs).
  assert (bytesOf (st_names h1) key = k) as Hbk by (unfold bytesOf; by rewrite Hs).
  destruct (member_stored (st_names h1) d key v Hok Hcl Hv) as (m' & d' & a & E & S).
  unfold putMember. rewrite Hd. cbn [mbind option_bind]. rewrite E. cbn [mbind option_bind]. clear E.
  set (h2 := set_dict c d' (set_names m' h1)). exists h2, d'. split; [done|].
  pose proof (st_alloc _ _ _ _ _ _ _ _ _ _ S) as Hal. pose proof (st_strings _ _ _ _ _ _ _ _ _ _ S) as Est.
  assert (a < next h2 /\ (a ∈ entries (contents d) \/ a = next h1 /\ keyOf m' a = key)) as (Hlt & Hnew).
  { split; [|apply S]. by destruct (d_entries _ _ _ _ (st_ok _ _ _ _ _ _ _ _ _ _ S) a (st_in _ _ _ _ _ _ _ _ _ _ S)) as [? _]. }
  assert (forall y z, z <= next h1 -> ~ (y <= c < z) -> (a ∈ entries (contents d) -> ~ (y <= a < z)) -> same_on y z h1 h2) as S2.
  { intros y z Hz Hnc Hna p Hp. unfold h2. cbn. rewrite Est, lookup_insert_ne by lia. split_and!; try done.
    apply (st_frame _ _ _ _ _ _ _ _ _ _ S). intros ->. destruct Hnew as [Hin|[-> _]]; [by apply Hna|lia]. }
  assert (store_ok h2) as O2.
  { destruct O1 as [[NA NC] NS NAs ND NF]. unfold h2. constructor; [split|..]; cbn.
    - intros p Hp. specialize (NA p Hp). lia.
    - intros p Hp. specialize (NC p Hp). lia.
    - rewrite Est. intros p Hp. specialize (NS p Hp). lia.
    - intros p Hp. destruct (decide (p = a)) as [->|Hne]; [done|]. rewrite (st_frame _ _ _ _ _ _ _ _ _ _ S p Hne) in Hp. specialize (NAs p Hp). lia.
    - in_order.
    - intros p Hp. specialize (NF p Hp). lia. }
  assert (forall b, b ∈ entries (contents d') -> lo <= b < next h2 /\ lo <= keyOf (st_names h2) b < next h2) as He2.
  { intros b Hb. destruct (d_entries _ _ _ _ (st_ok _ _ _ _ _ _ _ _ _ _ S) b Hb) as (Hblt & _). cbn [h2 st_names set_dict set_names].
    destruct (decide (b = a)) as [->|Hne].
    - destruct Hnew as [Hin|[-> ->]]; [|cbn; lia]. rewrite (st_old _ _ _ _ _ _ _ _ _ _ S Hin). destruct (He a Hin). cbn. lia.
    - destruct (st_only _ _ _ _ _ _ _ _ _ _ S b Hb) as [|Hin]; [done|]. destruct (He b Hin) as [H1 H2].
      unfold keyOf. rewrite (st_frame _ _ _ _ _ _ _ _ _ _ S b Hne). fold (keyOf (st_names h1) b). cbn. lia. }
  assert (forall y z, z <= next h1 -> (forall b, b ∈ entries (contents d) -> ~ (y <= b < z)) -> forall b, b ∈ entries (contents d') -> ~ (y <= b < z)) as Hex.
  { intros y z Hz Hold b Hb. destruct (st_only _ _ _ _ _ _ _ _ _ _ S b Hb) as [->|Hin]; [|by apply Hold]. destruct Hnew as [Hin|[-> _]]; [by apply Hold|lia]. }
  split_and!; [|done|].
  - constructor; [done|cbn; lia|unfold h2; cbn; split; [by rewrite lookup_insert_eq|apply S]|done| |].
    + intros k' t'. rewrite binding_snoc. cbn [h2 st_names set_dict set_names]. rewrite (stored_lookup _ _ _ _ _ _ _ k' Hok S), Hbk. case_decide as Ek.
      * intros [= <-]. exists (valueOfNode v), x, (next h1). split_and!; [done|lia|cbn; lia|lia| |].
        -- apply Hex; [done|]. intros b Hb. destruct (He0 b Hb). lia.
        -- eapply denotes_frame; [| | | |exact D]; [done|done|cbn; lia|]. apply S2; [done|lia|]. intros Hin. destruct (He0 a Hin). lia.
      * intros Hk'. destruct (Hm k' t' Hk') as (w & y & z & H1 & H2 & H3 & H4 & H5 & Dw). exists w, y, z.
        split_and!; [done|done|cbn; lia|done|by apply Hex|]. eapply denotes_frame; [| | | |exact Dw]; [done|done|cbn; lia|]. apply S2; [done|done|apply H5].
    + intros k'. rewrite binding_snoc. cbn [h2 st_names set_dict set_names]. rewrite (stored_lookup _ _ _ _ _ _ _ k' Hok S), Hbk. case_decide; [done|apply Ha].
  - apply S2; [lia|lia|]. intros Hin. destruct (He a Hin). lia.
Qed.

Lemma filling_dict_denotes lo h c d l : filling_dict lo h c d l -> denotes h lo (next h) (Ref c) (JObject l).
Proof.
  intros [O Hc [Hd Hok] He Hm Ha]. eapply dn_object; [lia|exact Hd|exact Hok|done| |done]. intros k t Hk.
  destruct (Hm k t Hk) as (v & x & y & H1 & H2 & H3 & _ & _ & D). exists v. split; [done|]. eapply denotes_frame; [done|done|done|apply same_on_refl|exact D].
Qed.

(** ** The simulation *)

Context `{!StrtodOk} (input : list Z).
Context (Hinput : (Z.of_nat (length input) + 1 < 2 ^ 62)%Z).
Abbreviation cursor j l := (at_ input (jp j) l).

Lemma parseString_ok j h l : at_ input (S (jp j)) l ->
  match readChars l with
  | Some (s, l') => exists j', parseString collects input j h = Some (Ok (newStringWith collects h s).2, j', (newStringWith collects h s).1) /\ cursor j' l'
  | None => exists j', parseString collects input j h = Some (Fail, j', h)
  end.
Proof.
  intros A. pose proof (at_length _ _ _ A). unfold parseString.
  destruct (stringLoop_ok input (S (S (length input))) _ l [] (scratch j) A (prefix_nil _) ltac:(lia)) as (buffer & R).
  destruct (readChars l) as [[s l']|].
  - destruct R as (p' & E & A' & [k ->]). cbn [length app] in E. rewrite E. cbn [mbind option_bind]. rewrite slice_Some by (rewrite length_app; cbn; lia).
    rewrite drop_0. change ([] ++ s) with s. rewrite take_app_length. cbn [mbind option_bind]. eexists. split; [done|]. done.
  - cbn [length] in R. rewrite R. cbn. by eexists.
Qed.

(** What a parse function does when the reader answers [r]. *)
Definition sim (h : Store) (r : Outcome (Json * list Z)) (code : option (Outcome JsonValue * JsonParser * Store)) : Prop :=
  exists o j' h', code = Some (o, j', h') /\ grows h h' /\
  match r, o with
  | Ok (t, l'), Ok v => cursor j' l' /\ denotes h' (next h) (next h') (valueOfNode v) t /\ node_ok v
  | Fail, Fail | Abort, Abort => True
  | _, _ => False
  end.

Lemma parseNumber_ok j h l : store_ok h -> cursor j l -> sim h (readScalar l) (parseNumber collects input j h).
Proof.
  intros O A. unfold readScalar, parseNumber. rewrite (at_char _ _ _ A). cbn [mbind option_bind]. pose proof (scanNumber_ok input _ _ A) as Hs.
  pose proof (store_grows_refl h O) as G. destruct (readNumber l) as [[[[[s i] f] e] rest]|] eqn:En.
  2: { rewrite Hs. cbn. by eexists _, _, _. }
  destruct Hs as (p & -> & Ap). cbn [mbind option_bind]. destruct (readNumber_sound _ _ _ _ _ _ En) as (El & Hsp & Hip & _).
  case_decide as Hfe; [rewrite bool_decide_true by done|rewrite bool_decide_false by done]; cbn [negb].
  - apply app_eq_nil in Hfe as [-> ->]. cbn [app] in El.
    assert (exists q, (if (hd0 l =? chr "-")%Z then S (jp j) else jp j) = q /\ at_ input q (i ++ rest) /\ (hd0 l =? chr "-")%Z = negb (bool_decide (s = []))) as (q & -> & Aq & ->).
    { destruct (int_part_digits i Hip) as (c & r & Ei & Hc & _). rewrite El in A |- *. destruct Hsp as [->| ->].
      - rewrite Ei in *. cbn [app]. change (hd0 (c :: _)) with c. rewrite (proj2 (Z.eqb_neq _ _) (digit_not c (chr "-") Hc eq_refl)). by eexists.
      - cbn [app] in *. change (hd0 (chr "-" :: _)) with (chr "-"). rewrite Z.eqb_refl. eexists. split; [done|]. split; [by eapply at_next|done]. }
    assert (p - q = length i) as ->.
    { pose proof (at_length _ _ _ Aq). pose proof (at_length _ _ _ Ap). rewrite length_app in *. lia. }
    destruct (int_part_digits i Hip) as (c & r & Ei & Hc & Hr).
    rewrite (accumulate_ok input q i rest 0 Aq); [|rewrite Ei; by constructor|unfold LIMIT; lia]. cbn [mbind option_bind]. fold (decimal i).
    destruct (LIMIT <? decimal i)%Z; [by eexists _, _, _|].
    assert ((if negb (bool_decide (s = [])) then (- decimal i)%Z else decimal i) = signed s (decimal i)) as ->.
    { unfold signed. destruct (decide (s = [])); [by rewrite bool_decide_true|by rewrite bool_decide_false]. }
    pose proof (tagInt_asCInt (signed s (decimal i))) as T. destruct (tagInt (signed s (decimal i))) as [w|].
    + rewrite decide_True by apply T. eexists _, _, _. split; [done|]. split; [done|]. split_and!; [done|constructor|done].
    + rewrite decide_False by done. by eexists _, _, _.
  - assert (drop (jp j) (input ++ [0%Z]) = l ++ [0%Z]) as ->.
    { destruct A as [Hp El']. rewrite drop_app_le by done. by rewrite El'. }
    set (d := strtod (l ++ [0%Z])). destruct (smallFloatFits d) eqn:Ef.
    + assert (is_Some (tagFloat d)) as [w ->].
      { unfold tagFloat. unfold smallFloatFits in Ef. destruct (float_is_zero d); [by eexists|]. rewrite Ef. by eexists. }
      eexists _, _, _. split; [done|]. split; [done|]. split_and!; [done|by constructor|done].
    + pose proof (newFloat_grows h d O) as N. destruct (newFloat collects h d) as [h' p']. destruct N as (-> & En' & G' & Hf).
      eexists _, _, _. split; [done|]. split; [done|]. split_and!; [done|apply dn_float; [done|lia|done]|done].
Qed.

(** The same for a loop that fills a container with names from [lo] on. *)
Definition sim_loop {A} (lo : nat) (h : Store) (r : Outcome (A * list Z)) (code : option (Outcome unit * JsonParser * Store))
    (filled : Store -> A -> Prop) : Prop :=
  exists o j' h', code = Some (o, j', h') /\ store_ok h' /\ next h <= next h' /\ same_on 0 lo h h' /\
  match r, o with
  | Ok (a, l'), Ok _ => cursor j' l' /\ filled h' a
  | Fail, Fail | Abort, Abort => True
  | _, _ => False
  end.

Definition value_sim (fuel : nat) : Prop := forall depth j h l r, store_ok h -> cursor j l -> readValue fuel depth l = Some r ->
  sim h r (parseValue collects CityHash64 input fuel j h depth).
Definition elements_sim (fuel : nat) : Prop := forall depth lo j h l c array vs ts r, filling lo h c array vs ts -> cursor j l -> length vs <= jp j ->
  readElements fuel depth l = Some r ->
  sim_loop lo h r (arrayLoop collects CityHash64 input fuel j h depth c) (fun h' ts' => exists array' vs', filling lo h' c array' vs' (ts ++ ts')).
Definition members_sim (fuel : nat) : Prop := forall depth lo j h l c d ms r, filling_dict lo h c d ms -> cursor j l ->
  readMembers fuel depth l = Some r ->
  sim_loop lo h r (objectLoop collects CityHash64 input fuel j h depth c) (fun h' ms' => exists d', filling_dict lo h' c d' (ms ++ ms')).

(** A loop that goes on from a later store. *)
Lemma sim_loop_later {A} lo h h1 (r : Outcome (A * list Z)) code F : next h <= next h1 -> same_on 0 lo h h1 -> sim_loop lo h1 r code F -> sim_loop lo h r code F.
Proof.
  intros Hn S (o & j & h' & E & O & Hn' & S' & M). exists o, j, h'. split_and!; [done|done|lia|by eapply same_on_trans|done].
Qed.

Lemma grows_within h h' lo : grows h h' -> lo <= next h -> store_ok h' /\ next h <= next h' /\ same_on 0 lo h h'.
Proof. intros [] Hlo. split_and!; [done|done|]. eapply same_on_sub; [done|lia|done]. Qed.

Lemma elements_step fuel : value_sim fuel -> elements_sim fuel -> elements_sim (S fuel).
Proof.
  intros IHv IHe depth lo j h l c array vs ts r Fl A Hl Hr. cbn [readElements] in Hr.
  change (arrayLoop _ _ _ (S fuel)) with (arrayBody collects input (parseValue collects CityHash64 input fuel) (arrayLoop collects CityHash64 input fuel)). unfold arrayBody.
  pose proof (fl_names _ _ _ _ _ _ Fl) as [Hc _]. pose proof (at_length _ _ _ A) as Hpos.
  destruct (readValue fuel (S depth) l) as [rv|] eqn:Ev; [|done]. cbn [mbind option_bind] in Hr.
  destruct (IHv _ j h l rv (fl_ok _ _ _ _ _ _ Fl) A Ev) as (o & j1 & h1 & -> & G & M). cbn [mbind option_bind].
  destruct (grows_within h h1 lo G ltac:(lia)) as (O1 & Hn1 & S1).
  destruct rv as [[t l1]| |], o as [v| |]; try done; [|injection Hr as <-; by eexists _, _, _|injection Hr as <-; by eexists _, _, _].
  destruct M as (A1 & D & Hv). destruct (array_step lo h h1 c array vs ts v t Fl G D ltac:(lia)) as (h2 & array2 & -> & Fl2 & Hn2 & S2).
  cbn [mbind option_bind]. destruct (skipWs_ok input j1 l1 A1) as (j2 & -> & A2 & _). cbn [mbind option_bind]. rewrite (peek_ok input j2 _ A2). cbn [mbind option_bind].
  assert (same_on 0 lo h h2) as S02 by (by eapply same_on_trans). pose proof (fl_ok _ _ _ _ _ _ Fl2) as O2.
  destruct (hd0 (dropWs l1) =? chr "]")%Z eqn:Hb.
  - injection Hr as <-. eexists _, _, _. split; [done|]. split_and!; [done|lia|done| |by exists array2, (vs ++ [valueOfNode v])].
    apply Z.eqb_eq in Hb. by eapply at_tail.
  - destruct (hd0 (dropWs l1) =? chr ",")%Z eqn:Hcm; cbn [negb] in Hr |- *; [|injection Hr as <-; eexists _, _, _; split; [done|]; split_and!; done || lia].
    apply Z.eqb_eq in Hcm. pose proof (at_tail _ _ _ _ A2 Hcm ltac:(done)) as A3.
    destruct (readElements fuel depth (tail (dropWs l1))) as [re|] eqn:Ee; [|done]. cbn [mbind option_bind] in Hr. injection Hr as <-.
    assert (sim_loop lo h2 re (arrayLoop collects CityHash64 input fuel (advance j2) h2 depth c)
      (fun h' ts' => exists array' vs', filling lo h' c array' vs' ((ts ++ [t]) ++ ts'))) as R.
    { apply (IHe depth lo (advance j2) h2 _ c array2 (vs ++ [valueOfNode v]) (ts ++ [t]) re Fl2 A3); [|done].
      apply readValue_length in Ev. pose proof (dropWs_length l1). apply hd0_cons in Hcm; [|done]. apply (f_equal length) in Hcm.
      pose proof (at_length _ _ _ A3) as Hpos3. cbn [advance jp] in *. rewrite length_app. cbn [length] in *. lia. }
    apply (sim_loop_later lo h h2); [lia|done|]. destruct R as (o & j' & h' & E & R). exists o, j', h'. split; [exact E|].
    destruct R as (O' & Hn' & S' & M). split_and!; [done|done|done|]. destruct re as [[ts' l']| |], o; try done.
    destruct M as (A' & F'). split; [done|]. by rewrite <- app_assoc in F'.
Qed.

Lemma members_step fuel : value_sim fuel -> members_sim fuel -> members_sim (S fuel).
Proof.
  intros IHv IHm depth lo j h l c d ms r Fd A Hr. cbn [readMembers] in Hr.
  change (objectLoop _ _ _ (S fuel)) with (objectBody collects CityHash64 input (parseValue collects CityHash64 input fuel) (objectLoop collects CityHash64 input fuel)).
  unfold objectBody.
  pose proof (fd_name _ _ _ _ _ Fd) as Hc. pose proof (fd_ok _ _ _ _ _ Fd) as O.
  destruct (skipWs_ok input j l A) as (j1 & -> & A1 & _). cbn [mbind option_bind]. rewrite (at_char _ _ _ A1). cbn [mbind option_bind].
  destruct (hd0 (dropWs l) =? QUOTE)%Z eqn:Hq; cbn [negb] in Hr |- *; [|injection Hr as <-; eexists _, _, _; split; [done|]; split_and!; done || apply same_on_refl].
  apply Z.eqb_eq in Hq. pose proof (at_tail _ _ _ _ A1 Hq ltac:(done)) as A2. pose proof (parseString_ok j1 h _ A2) as Ps.
  destruct (readChars (tail (dropWs l))) as [[k l1]|] eqn:Ek.
  2: { destruct Ps as (j' & ->). injection Hr as <-. eexists _, _, _. split; [done|]. split_and!; done || apply same_on_refl. }
  destruct Ps as (j2 & -> & A3). cbn [mbind option_bind]. pose proof (newString_grows h k O) as Ns.
  destruct (newStringWith collects h k) as [h1 key]. destruct Ns as (-> & En1 & G1 & Hs). cbn [fst snd].
  destruct (grows_within h h1 lo G1 ltac:(lia)) as (O1 & Hn1 & S1).
  destruct (skipWs_ok input j2 l1 A3) as (j3 & -> & A4 & _). cbn [mbind option_bind]. rewrite (at_char _ _ _ A4). cbn [mbind option_bind].
  destruct (hd0 (dropWs l1) =? chr ":")%Z eqn:Hcl; cbn [negb] in Hr |- *; [|injection Hr as <-; by eexists _, _, _].
  apply Z.eqb_eq in Hcl. pose proof (at_tail _ _ _ _ A4 Hcl ltac:(done)) as A5.
  destruct (readValue fuel (S depth) (tail (dropWs l1))) as [rv|] eqn:Ev; [|done]. cbn [mbind option_bind] in Hr.
  destruct (IHv (S depth) (advance j3) h1 _ rv O1 A5 Ev) as (o & j4 & h2 & -> & G2 & M). cbn [mbind option_bind].
  pose proof (store_grows_trans _ _ _ G1 G2) as G. destruct (grows_within h h2 lo G ltac:(lia)) as (O2 & Hn2 & S2).
  destruct rv as [[t l2]| |], o as [v| |]; try done; [|injection Hr as <-; by eexists _, _, _|injection Hr as <-; by eexists _, _, _].
  destruct M as (A6 & D & Hv). pose proof (gr_next _ _ G2) as Hn12.
  destruct (json_object_step lo h h2 c d ms (next h) k v t Fd G) as (h3 & d3 & -> & Fd3 & Hn3 & S3); [lia| |exists (next h1); split; [lia|done]|done|].
  { by destruct (gr_same _ _ G2 (next h) ltac:(lia)) as (-> & _). }
  cbn [mbind option_bind]. destruct (skipWs_ok input j4 l2 A6) as (j5 & -> & A7 & _). cbn [mbind option_bind]. rewrite (peek_ok input j5 _ A7). cbn [mbind option_bind].
  assert (same_on 0 lo h h3) as S03 by (by eapply same_on_trans). pose proof (fd_ok _ _ _ _ _ Fd3) as O3.
  destruct (hd0 (dropWs l2) =? chr "}")%Z eqn:Hb.
  - injection Hr as <-. eexists _, _, _. split; [done|]. split_and!; [done|lia|done| |by exists d3]. apply Z.eqb_eq in Hb. by eapply at_tail.
  - destruct (hd0 (dropWs l2) =? chr ",")%Z eqn:Hcm; cbn [negb] in Hr |- *; [|injection Hr as <-; eexists _, _, _; split; [done|]; split_and!; done || lia].
    apply Z.eqb_eq in Hcm. pose proof (at_tail _ _ _ _ A7 Hcm ltac:(done)) as A8.
    destruct (readMembers fuel depth (tail (dropWs l2))) as [re|] eqn:Ee; [|done]. cbn [mbind option_bind] in Hr. injection Hr as <-.
    pose proof (IHm depth lo (advance j5) h3 _ c d3 (ms ++ [(k, t)]) re Fd3 A8 Ee) as (o & j' & h' & E & O' & Hn' & S' & M).
    exists o, j', h'. split_and!; [exact E|done|lia|by eapply same_on_trans|]. destruct re as [[ms' l']| |], o; try done.
    destruct M as (A' & F'). split; [done|]. by rewrite <- app_assoc in F'.
Qed.

(** A word. *)
Lemma word_sim j h l word t v : store_ok h -> cursor j l -> denotes h (next h) (next h) v t ->
  sim h (readWord word t l) ('(r, j) ← parseLiteral input j word;
    Some (match r with Ok _ => Ok (Object_ v) | Fail => Fail | Abort => Abort end, j, h)).
Proof.
  intros O A D. pose proof (parseLiteral_ok input j l word t A) as P. pose proof (store_grows_refl h O) as G.
  assert (forall t' l', readWord word t l = Ok (t', l') -> t' = t) as Ht by (intros t' l' E; by apply readWord_sound in E as [-> _]).
  destruct (readWord word t l) as [[t' l']| |] eqn:E.
  - destruct P as (j' & -> & A'). cbn. eexists _, _, _. split; [done|]. split; [done|]. rewrite (Ht t' l' eq_refl). by split_and!.
  - destruct P as (j' & ->). cbn. by eexists _, _, _.
  - unfold readWord in E. by case_bool_decide.
Qed.

(** A container: the answer of its loop. *)
Lemma container_sim {A} h h1 (mk : A -> Json) c (r : Outcome (A * list Z)) code F :
  grows h h1 -> sim_loop (next h) h1 r code F -> (forall h' a, store_ok h' -> F h' a -> denotes h' (next h) (next h') (Ref c) (mk a)) ->
  sim h (match r with Ok (a, l) => Ok (mk a, l) | Fail => Fail | Abort => Abort end)
    ('(r, j, h) ← code; Some (match r with Ok _ => Ok (Object_ (Ref c)) | Fail => Fail | Abort => Abort end, j, h)).
Proof.
  intros [O1 Hn S] (o & j' & h' & -> & O' & Hn' & S' & M) Hd. cbn [mbind option_bind]. eexists _, j', h'. split; [done|].
  split; [constructor; [done|lia|by eapply same_on_trans]|]. destruct r as [[a l']| |], o; try done. destruct M as [A' F'].
  split_and!; [done|by apply Hd|done].
Qed.

Lemma value_step fuel : members_sim fuel -> elements_sim fuel -> value_sim (S fuel).
Proof.
  intros IHm IHe depth j h l r O A Hr. cbn [readValue] in Hr.
  change (parseValue _ _ _ (S fuel)) with (valueBody collects input (objectLoop collects CityHash64 input fuel) (arrayLoop collects CityHash64 input fuel)).
  unfold valueBody. pose proof (store_grows_refl h O) as G.
  destruct (JSON_MAX_DEPTH <? depth); [injection Hr as <-; by eexists _, _, _|].
  destruct (skipWs_ok input j l A) as (j1 & -> & A1 & _). cbn [mbind option_bind]. rewrite (at_leb _ _ _ A1).
  destruct (dropWs l) as [|c rest]; [rewrite bool_decide_true by done; injection Hr as <-; by eexists _, _, _|]. rewrite bool_decide_false by done.
  rewrite (at_char _ _ _ A1). cbn [mbind option_bind]. change (hd0 (c :: rest)) with c. pose proof (at_next _ _ _ _ A1) as A2.
  destruct (c =? chr "{")%Z.
  { pose proof (newDict_filling h O) as N. destruct (newDictObject collects h 8) as [h1 dict]. destruct N as (-> & G1 & Fd).
    destruct (skipWs_ok input (advance j1) rest A2) as (j2 & -> & A3 & _). cbn [mbind option_bind]. rewrite (at_char _ _ _ A3). cbn [mbind option_bind].
    destruct (hd0 (dropWs rest) =? chr "}")%Z eqn:Hb.
    - injection Hr as <-. apply Z.eqb_eq in Hb. eexists _, _, _. split; [done|]. split; [done|]. split_and!; [by eapply at_tail|by eapply filling_dict_denotes|done].
    - destruct (readMembers fuel depth (dropWs rest)) as [rm|] eqn:Em; [|done]. cbn [mbind option_bind] in Hr. injection Hr as <-.
      eapply container_sim; [exact G1|by eapply IHm|]. cbn. intros h' a _ (d' & F). by eapply filling_dict_denotes. }
  destruct (c =? chr "[")%Z.
  { pose proof (newOrdColl_filling h O) as N. destruct (newOrdColl collects h 8) as [h1 array]. destruct N as (-> & G1 & Fl).
    destruct (skipWs_ok input (advance j1) rest A2) as (j2 & -> & A3 & _). cbn [mbind option_bind]. rewrite (at_char _ _ _ A3). cbn [mbind option_bind].
    destruct (hd0 (dropWs rest) =? chr "]")%Z eqn:Hb.
    - injection Hr as <-. apply Z.eqb_eq in Hb. eexists _, _, _. split; [done|]. split; [done|]. split_and!; [by eapply at_tail|by eapply filling_denotes|done].
    - destruct (readElements fuel depth (dropWs rest)) as [rm|] eqn:Em; [|done]. cbn [mbind option_bind] in Hr. injection Hr as <-.
      eapply container_sim; [exact G1|eapply IHe; [exact Fl|done|cbn; lia|done]|]. cbn. intros h' a _ (array' & vs' & F). by eapply filling_denotes. }
  destruct (c =? QUOTE)%Z.
  { pose proof (parseString_ok j1 h rest A2) as Ps. destruct (readChars rest) as [[s l']|]; injection Hr as <-.
    - destruct Ps as (j' & -> & A'). cbn [mbind option_bind]. pose proof (newString_grows h s O) as N. destruct (newStringWith collects h s) as [h' p].
      destruct N as (-> & En & G' & Hs). cbn [fst snd]. eexists _, _, _. split; [done|]. split; [done|]. split_and!; [done|apply dn_string; [lia|done]|done].
    - destruct Ps as (j' & ->). cbn. by eexists _, _, _. }
  destruct (c =? chr "t")%Z; [injection Hr as <-; apply word_sim; [done|done|constructor]|].
  destruct (c =? chr "f")%Z; [injection Hr as <-; apply word_sim; [done|done|constructor]|].
  destruct (c =? chr "n")%Z; [injection Hr as <-; apply word_sim; [done|done|constructor]|].
  rewrite isDigit_digit in *. destruct ((c =? chr "-")%Z || digit_byte c); injection Hr as <-; [by apply parseNumber_ok|by eexists _, _, _].
Qed.

Lemma parser_sim fuel : value_sim fuel /\ members_sim fuel /\ elements_sim fuel.
Proof.
  induction fuel as [|fuel (IHv & IHm & IHe)]; [by split_and!; intros ?|].
  split_and!; [by apply value_step|by apply members_step|by apply elements_step].
Qed.

(** The parser does what the reader does. *)
Lemma jsonParse_refines h r : store_ok h -> readDocument input = Some r ->
  exists o h', jsonParse collects CityHash64 input h = Some (o, h') /\ grows h h' /\
  match r, o with
  | Ok t, Ok v => denotes h' (next h) (next h') v t
  | Fail, Fail | Abort, Abort => True
  | _, _ => False
  end.
Proof.
  intros O Hr. unfold readDocument in Hr. unfold jsonParse, parse_fuel. destruct (readValue _ 0 input) as [rv|] eqn:Ev; [|done]. cbn [mbind option_bind] in Hr. injection Hr as <-.
  assert (cursor (mkParser 0 []) input) as A0 by (by split; [cbn; lia|]).
  destruct (proj1 (parser_sim (2 * length input + 3)) 0 (mkParser 0 []) h input rv O A0 Ev) as (o & j' & h' & -> & G & M). cbn [mbind option_bind].
  destruct rv as [[t l]| |], o as [v| |]; try done; [|by eexists _, _|by eexists _, _].
  destruct M as (A & D & _). destruct (skipWs_ok input j' l A) as (j2 & -> & A2 & _). cbn [mbind option_bind]. eexists _, h'. split; [done|]. split; [done|].
  pose proof (at_length _ _ _ A2) as Hl. case_decide as E.
  - rewrite E in Hl. cbn in Hl. by rewrite (proj2 (Nat.eqb_eq _ _)) by lia.
  - rewrite (proj2 (Nat.eqb_neq _ _)); [done|]. destruct (dropWs l); [done|]. cbn in Hl. lia.
Qed.

Lemma jsonParse_exact_lemma h : store_ok h ->
  exists o h', jsonParse collects CityHash64 input h = Some (o, h') /\ grows h h' /\
    (forall v, o = Ok v -> exists t, document input t /\ fits 0 t = true /\ tame t = true /\ denotes h' (next h) (next h') v t) /\
    (forall t, document input t -> fits 0 t = true -> tame t = true -> exists v, o = Ok v /\ denotes h' (next h) (next h') v t).
Proof.
  intros O. destruct (readDocument_exact input) as (r & Er & Hx). destruct (jsonParse_refines h r O Er) as (o & h' & E & G & M).
  exists o, h'. split_and!; [done|done| |].
  - intros v ->. destruct r as [t| |]; try done. exists t. destruct (proj1 (Hx t) eq_refl) as (? & ? & ?). by split_and!.
  - intros t Hd Hf Ht. assert (r = Ok t) as -> by (by apply Hx). destruct o as [v| |]; try done. by exists v.
Qed.

(** C19. The JSON parser accepts exactly the texts of the grammar of RFC 8259
    (with surrogates in pairs; bytes beyond ASCII are taken as they are) whose
    nesting is at most [JSON_MAX_DEPTH], 128, and whose integers are
    SmallIntegers, and builds the value: dictionaries, collections, strings and
    floats that are new objects, with the last of several members of one name.
    It always ends, never reads outside its copy of the text or writes outside
    its buffer, and does not touch the objects that were there. *)
Theorem jsonParse_exact h : store_ok h ->
  exists o h', jsonParse collects CityHash64 input h = Some (o, h') /\ grows h h' /\
    (forall v, o = Ok v -> exists t, document input t /\ fits 0 t = true /\ tame t = true /\ denotes h' (next h) (next h') v t) /\
    (forall t, document input t -> fits 0 t = true -> tame t = true -> exists v, o = Ok v /\ denotes h' (next h) (next h') v t).
Proof. apply jsonParse_exact_lemma. Qed.
End Build.

Lemma readDocument_beyond `{Libc} s i : sign_part s -> int_part i -> ~ small (signed s (decimal i)) ->
  readDocument (s ++ i) = Some (if (decimal i <=? LIMIT)%Z then Abort else Fail).
Proof.
  intros Hs Hi Hn. unfold readDocument. replace (2 * length (s ++ i) + 3) with (S (2 * length (s ++ i) + 2)) by lia.
  assert (follow []) as Hf by (by left || done).
  pose proof (scalar_dispatch (2 * length (s ++ i) + 2) 0 [] s i [] [] [] ltac:(constructor) Hs Hi (or_introl eq_refl) (or_introl eq_refl) Hf ltac:(lia)) as E.
  cbn [app] in E. rewrite !app_nil_r in E. rewrite E. cbn [mbind option_bind]. unfold readScalar.
  pose proof (readNumber_complete s i [] [] [] Hs Hi (or_introl eq_refl) (or_introl eq_refl) (follow_ends _ _ _ Hf)) as En.
  cbn [app] in En. rewrite !app_nil_r in En. rewrite En. cbn [app]. rewrite decide_True by done.
  rewrite Z.leb_antisym. destruct (LIMIT <? decimal i)%Z; [done|]. by rewrite decide_False.
Qed.

(** The integers between the SmallIntegers and the limit that the parser
    tests, 2^61 to 2^62 - 1 in magnitude, are integers of the grammar that it
    neither builds nor rejects: it hands them to [tagInt], whose assertion
    fails.  An integer beyond the limit is rejected, and the caller promotes
    it. *)
Theorem jsonParse_integer_limit `{!Libc, !StrtodOk} collects CityHash64 s i h : store_ok h -> sign_part s -> int_part i ->
  (Z.of_nat (length (s ++ i)) + 1 < 2 ^ 62)%Z -> ~ small (signed s (decimal i)) ->
  document (s ++ i) (JInt (signed s (decimal i))) /\
  exists h', jsonParse collects CityHash64 (s ++ i) h = Some (if (decimal i <=? LIMIT)%Z then Abort else Fail, h').
Proof.
  intros O Hs Hi Hlen Hn. split; [exists [], (s ++ i), []; rewrite app_nil_r; split_and!; [done|constructor|by constructor|constructor]|].
  destruct (jsonParse_refines collects CityHash64 (s ++ i) Hlen h _ O (readDocument_beyond s i Hs Hi Hn)) as (o & h' & E & _ & M).
  exists h'. rewrite E. by destruct (_ <=? _)%Z, o.
Qed.
