(* ===== verification/JsonEncode.v ===== *)
(** * JsonEncode

    The JSON encoder ([src/vm/runtime/Json.c]) over the same store: the growing
    byte buffer, strings with their escapes, numbers, dictionaries in the order
    of their slots and the two kinds of sequences.  The text it writes is one
    of the grammar that denotes the value, so the parser reads it back. *)
From S2P Require Import Prelude Tagging.
From stdpp Require Import base list gmap numbers.
From S2P Require Import Probing Dictionary Collections Json JsonGrammar JsonScan JsonParse.

#[local] Open Scope nat_scope.

(** ** The buffer *)

(** [buf] is the whole allocation. *)
Record JsonBuf := mkBuf { buf : list Z; len : nat }.

Definition bufEnsure (b : JsonBuf) (need : nat) : option JsonBuf :=
  if len b + need <=? length (buf b) then Some b
  else
    cap ← double_until (length (buf b)) (len b + need);
    Some (mkBuf (buf b ++ replicate (cap - length (buf b)) 0%Z) (len b)).

Definition bufWrite (b : JsonBuf) (src : list Z) : option JsonBuf :=
  b ← bufEnsure b (length src);
  bytes ← blit (buf b) (len b) src;
  Some (mkBuf bytes (len b + length src)).

Definition bufByte (b : JsonBuf) (c : Z) : option JsonBuf :=
  b ← bufEnsure b 1;
  bytes ← put (buf b) (len b) c;
  Some (mkBuf bytes (S (len b))).

(** ** Numbers *)

(** [%lld] *)
Fixpoint showDigits (fuel : nat) (n : Z) (acc : list Z) : list Z :=
  match fuel with
  | O => acc
  | S fuel => if (n <? 10)%Z then (chr "0" + n)%Z :: acc else showDigits fuel (n / 10) ((chr "0" + n mod 10)%Z :: acc)
  end.

Definition showInt (z : Z) : list Z := if (z <? 0)%Z then chr "-" :: showDigits 20 (- z) [] else showDigits 20 z [].

(** [isnan(x) || isinf(x)] *)
Definition notFinite (bits : Z) : bool := (Z.land (Z.shiftr bits 52) 0x7FF =? 0x7FF)%Z.

(** [snprintf(buf, 64, ...)] *)
Definition snprintf64 (l : list Z) : list Z := take 63 l.

Section Encoder.
Context `{Libc} (collects : nat -> bool).

(** The shortest number of digits that round-trips, from [s] on. *)
Fixpoint significant (n s : nat) (x : Z) : nat :=
  match n with
  | O => 17
  | S n => if (strtod (snprintf64 (format_e (s - 1) x)) =? x)%Z then s else significant n (S s) x
  end.

(** Equality of doubles is that of their bits here: [x] is finite and not 0. *)
Definition jsonFormatDouble (x : Z) : option (list Z) :=
  if float_is_zero x then Some (if Z.testbit x 63 then bytes_of_string "-0.0" else bytes_of_string "0.0")
  else
    let sig := significant 17 1 x in
    let exp10 := exponent10 x in
    let buf :=
      if (-4 <=? exp10)%Z && (exp10 <? 16)%Z then
        let frac := Z.to_nat (Z.of_nat sig - 1 - exp10) in
        let buf := snprintf64 (format_f frac x) in
        if negb (strtod buf =? x)%Z then snprintf64 (format_e (sig - 1) x) else buf
      else snprintf64 (format_e (sig - 1) x) in
    if existsb (fun c => (c =? chr ".")%Z || (c =? chr "e")%Z || (c =? chr "E")%Z) buf then Some buf
    else if length buf <=? 61 then Some (buf ++ bytes_of_string ".0") else None.

(** ** Strings *)

(** [jsonEscapeTable]: 0 is no escape. *)
Definition jsonEscapeTable (c : Z) : Z :=
  if (c =? QUOTE)%Z then QUOTE
  else if (c =? BACKSLASH)%Z then BACKSLASH
  else if (c =? 10)%Z then chr "n"
  else if (c =? 13)%Z then chr "r"
  else if (c =? 9)%Z then chr "t"
  else if (c =? 8)%Z then chr "b"
  else if (c =? 12)%Z then chr "f"
  else if (0 <=? c)%Z && (c <? 32)%Z then chr "u"
  else 0%Z.

Definition hexChar (n : Z) : Z := default 0%Z (bytes_of_string "0123456789ABCDEF" !! Z.to_nat n).

(** [while (p < end)], from [p] on. *)
Fixpoint escapeLoop (fuel : nat) (b : JsonBuf) (s : list Z) : option JsonBuf :=
  match fuel with
  | O => None
  | S fuel =>
      match s with
      | [] => Some b
      | _ =>
          let '(run, rest) := span (fun c => (jsonEscapeTable c =? 0)%Z) s in
          b ← (if 0 <? length run then bufWrite b run else Some b);
          match rest with
          | [] => Some b
          | c :: rest =>
              let esc := jsonEscapeTable c in
              b ← (if (esc =? chr "u")%Z then
                     bufWrite b [BACKSLASH; chr "u"; chr "0"; chr "0"; hexChar (Z.shiftr c 4); hexChar (Z.land c 15)]
                   else bufWrite b [BACKSLASH; esc]);
              escapeLoop fuel b rest
          end
      end
  end.

Definition encodeStringBody (b : JsonBuf) (s : list Z) : option JsonBuf :=
  b ← bufByte b QUOTE;
  b ← escapeLoop (S (length s)) b s;
  bufByte b QUOTE.

(** ** Values *)

Abbreviation Encoded := (option (Outcome JsonBuf)).

(** Going on with the buffer of a step that returned 1. *)
Definition andThen (r : Encoded) (k : JsonBuf -> Encoded) : Encoded :=
  o ← r; match o with Ok b => k b | Fail => Some Fail | Abort => Some Abort end.

Definition ok (r : option JsonBuf) : Encoded := b ← r; Some (Ok b).

Section Bodies.
Context (encodeValue : JsonBuf -> Value -> nat -> Encoded).

(** [for (i = 0; i < contents->size; i++)] *)
Fixpoint encodeMembers (h : Store) (b : JsonBuf) (slots : list (option nat)) (first : bool) (depth : nat) : Encoded :=
  match slots with
  | [] => Some (Ok b)
  | None :: slots => encodeMembers h b slots first depth
  | Some assoc :: slots =>
      a ← assocs (st_names h) !! assoc;
      match classOf (st_names h) (akey a) with
      | ClassOther => Some Fail
      | _ =>
          b ← (if first then Some b else bufByte b (chr ","));
          b ← encodeStringBody b (bytesOf (st_names h) (akey a));
          b ← bufByte b (chr ":");
          andThen (encodeValue b (avalue a) (S depth)) (fun b => encodeMembers h b slots false depth)
      end
  end.

Definition encodeDictBody (h : Store) (b : JsonBuf) (d : Dictionary) (depth : nat) : Encoded :=
  b ← bufByte b (chr "{");
  andThen (encodeMembers h b (contents d) true depth) (fun b => ok (bufByte b (chr "}"))).

Fixpoint encodeElements (b : JsonBuf) (vars : list Value) (first : bool) (depth : nat) : Encoded :=
  match vars with
  | [] => Some (Ok b)
  | v :: vars =>
      b ← (if first then Some b else bufByte b (chr ","));
      andThen (encodeValue b v (S depth)) (fun b => encodeElements b vars false depth)
  end.

Definition encodeSpan (b : JsonBuf) (vars : list Value) (depth : nat) : Encoded :=
  b ← bufByte b (chr "[");
  andThen (encodeElements b vars true depth) (fun b => ok (bufByte b (chr "]"))).

Definition encodeDouble (b : JsonBuf) (x : Z) : Encoded := num ← jsonFormatDouble x; ok (bufWrite b num).

Definition encodeObject (h : Store) (b : JsonBuf) (p : nat) (depth : nat) : Encoded :=
  match classOf (st_names h) p with
  | ClassString | ClassSymbol => ok (encodeStringBody b (bytesOf (st_names h) p))
  | ClassOther =>
      match st_floats h !! p, st_dicts h !! p, st_colls h !! p, st_arrays h !! p with
      | Some x, _, _, _ => if notFinite x then Some Fail else encodeDouble b x
      | None, Some d, _, _ => encodeDictBody h b d depth
      | None, None, Some c, _ =>
          contents ← st_arrays h !! cl_contents c;
          if (cl_firstIndex c <? 1)%Z || (cl_lastIndex c <? cl_firstIndex c - 1)%Z then None
          else
            vars ← slice contents (Z.to_nat (cl_firstIndex c - 1)) (Z.to_nat (cl_lastIndex c - cl_firstIndex c + 1));
            encodeSpan b vars depth
      | None, None, None, Some vars => encodeSpan b vars depth
      | None, None, None, None => Some Fail
      end
  end.

Definition encodeBody (h : Store) (b : JsonBuf) (v : Value) (depth : nat) : Encoded :=
  if JSON_MAX_DEPTH <? depth then Some Fail
  else
    match v with
    | Int z => ok (bufWrite b (showInt z))
    | Flt bits => encodeDouble b bits
    | Chr _ => Some Fail
    | Nil => ok (bufWrite b (bytes_of_string "null"))
    | Boolean true => ok (bufWrite b (bytes_of_string "true"))
    | Boolean false => ok (bufWrite b (bytes_of_string "false"))
    | Ref p => encodeObject h b p depth
    | Stale => None
    end.
End Bodies.

Fixpoint encodeValue (fuel : nat) (h : Store) : JsonBuf -> Value -> nat -> Encoded :=
  match fuel with
  | O => fun _ _ _ => None
  | S fuel => encodeBody (encodeValue fuel h) h
  end.

(** The nesting is limited, so this is enough. *)
Definition encode_fuel : nat := JSON_MAX_DEPTH + 2.

Definition jsonEncode (h : Store) (object : Value) : option (Outcome nat * Store) :=
  r ← encodeValue encode_fuel h (mkBuf (replicate 512 0%Z) 0) object 0;
  match r with
  | Ok b => bytes ← slice (buf b) 0 (len b); let '(h, s) := newStringWith collects h bytes in Some (Ok s, h)
  | Fail => Some (Fail, h)
  | Abort => Some (Abort, h)
  end.
End Encoder.

(** ** The buffer holds what was written *)

Definition wrote (b : JsonBuf) (out : list Z) : Prop := out `prefix_of` buf b /\ len b = length out /\ 0 < length (buf b).

Lemma bufEnsure_ok b out need : wrote b out -> exists b', bufEnsure b need = Some b' /\ wrote b' out /\ len b' = len b /\ len b + need <= length (buf b').
Proof.
  intros W. pose proof W as ([k E] & Hl & Hc). unfold bufEnsure. destruct (Nat.leb_spec (len b + need) (length (buf b))); [by exists b|].
  destruct (double_until_ok (length (buf b)) (len b + need) Hc) as (cap & -> & H1 & H2). cbn. eexists. split; [done|].
  unfold wrote. cbn. rewrite length_app, length_replicate. split_and!; [|done|lia|done|lia]. rewrite E, <- app_assoc. by eexists.
Qed.

Lemma bufWrite_ok b out src : wrote b out -> exists b', bufWrite b src = Some b' /\ wrote b' (out ++ src).
Proof.
  intros W. unfold bufWrite. destruct (bufEnsure_ok b out (length src) W) as (b1 & -> & ([k E] & Hl & Hc) & El & Hr). cbn [mbind option_bind].
  rewrite blit_Some by lia. cbn [mbind option_bind]. eexists. split; [done|]. unfold wrote. cbn [buf len]. rewrite Hl, E.
  rewrite take_app_length, !length_app. rewrite E, length_app in Hr, Hc. split_and!; [|done|].
  - rewrite app_assoc. by eexists.
  - rewrite length_drop, length_app. lia.
Qed.

Lemma bufByte_ok b out c : wrote b out -> exists b', bufByte b c = Some b' /\ wrote b' (out ++ [c]).
Proof.
  intros W. unfold bufByte. destruct (bufEnsure_ok b out 1 W) as (b1 & -> & ([k E] & Hl & Hc) & El & Hr). cbn [mbind option_bind].
  rewrite put_Some by lia. cbn [mbind option_bind]. eexists. split; [done|]. unfold wrote. cbn [buf len]. rewrite Hl, E.
  rewrite E, length_app in Hr. rewrite insert_app_r_alt, Nat.sub_diag by lia. destruct k as [|x k]; [cbn in Hr; lia|]. cbn [list_insert insert].
  rewrite !length_app. cbn [length]. split_and!; [|lia|lia]. exists k. by rewrite <- app_assoc.
Qed.

(** ** Strings *)

Definition byte_list (s : list Z) : Prop := Forall (fun c => 0 <= c < 256)%Z s.

Definition escapeOf (c : Z) : list Z :=
  let esc := jsonEscapeTable c in
  if (esc =? 0)%Z then [c]
  else if (esc =? chr "u")%Z then [BACKSLASH; chr "u"; chr "0"; chr "0"; hexChar (Z.shiftr c 4); hexChar (Z.land c 15)]
  else [BACKSLASH; esc].

Definition escaped (s : list Z) : list Z := concat (map escapeOf s).

Lemma escapeLoop_ok fuel b out s : wrote b out -> length s < fuel -> exists b', escapeLoop fuel b s = Some b' /\ wrote b' (out ++ escaped s).
Proof.
  revert b out s. induction fuel as [|fuel IH]; intros b out s W Hf; [lia|]. cbn [escapeLoop].
  destruct s as [|c0 s0]; [exists b; cbn; by rewrite app_nil_r|]. remember (c0 :: s0) as s eqn:Es. clear Es c0 s0.
  destruct (span _ s) as [run rest] eqn:S. destruct (span_spec _ _ _ _ S) as (-> & Hr & Hrest).
  assert (escaped (run ++ rest) = run ++ escaped rest) as ->.
  { clear -Hr. induction Hr as [|c run Hc _ IHr]; [done|]. unfold escaped in *. cbn [app map concat]. rewrite IHr. unfold escapeOf at 1. by rewrite Hc. }
  assert (exists b1, (if 0 <? length run then bufWrite b run else Some b) = Some b1 /\ wrote b1 (out ++ run)) as (b1 & -> & W1).
  { destruct run as [|x run]; [exists b; by rewrite app_nil_r|]. by apply bufWrite_ok. }
  cbn [mbind option_bind]. destruct rest as [|c rest]; [exists b1; unfold escaped; cbn; by rewrite app_nil_r|].
  destruct Hrest as [|Hc]; [done|]. change (hd0 (c :: rest)) with c in Hc. rewrite length_app in Hf. cbn [length] in Hf.
  assert (exists b2, (if (jsonEscapeTable c =? chr "u")%Z then
     bufWrite b1 [BACKSLASH; chr "u"; chr "0"; chr "0"; hexChar (Z.shiftr c 4); hexChar (Z.land c 15)] else bufWrite b1 [BACKSLASH; jsonEscapeTable c]) = Some b2 /\
     wrote b2 ((out ++ run) ++ escapeOf c)) as (b2 & -> & W2).
  { unfold escapeOf. rewrite Hc. destruct (jsonEscapeTable c =? chr "u")%Z; by apply bufWrite_ok. }
  cbn [mbind option_bind]. destruct (IH b2 _ rest W2 ltac:(lia)) as (b3 & -> & W3). exists b3. split; [done|].
  unfold escaped in *. cbn [map concat]. by rewrite <- !app_assoc in *.
Qed.

(** A control character is written as its code. *)
Lemma escape_control : Forall (fun c => match jsonEscapeTable c with
    | esc => if (esc =? chr "u")%Z then hexValue [chr "0"; chr "0"; hexChar (Z.shiftr c 4); hexChar (Z.land c 15)] = Some c else escape_byte esc = Some c end)
  (seqZ 0 32).
Proof. repeat (constructor; [vm_compute; reflexivity|]). constructor. Qed.

Lemma escapeOf_chars c t s : (0 <= c < 256)%Z -> chars t s -> chars (escapeOf c ++ t) (c :: s).
Proof.
  intros Hr Ht. destruct (Z.lt_ge_cases c 32) as [Hc|Hc].
  - pose proof escape_control as E. rewrite list.Forall_forall in E. specialize (E c ltac:(apply elem_of_seqZ; lia)). unfold escapeOf.
    assert ((jsonEscapeTable c =? 0)%Z = false) as ->.
    { clear E. unfold jsonEscapeTable. rewrite (proj2 (Z.leb_le 0 c)), (proj2 (Z.ltb_lt c 32)) by lia.
      repeat (case_match; [done|]); done. }
    destruct (jsonEscapeTable c =? chr "u")%Z.
    + pose proof (chars_code _ c t s E) as C. cbn [app] in C. unfold utf8_bytes in C. rewrite (proj2 (Z.leb_le c 0x7F)) in C by lia. apply C; [| |done].
      * unfold surrogate_hi. by rewrite (proj2 (Z.leb_gt 0xD800 c)) by lia.
      * unfold surrogate_lo. by rewrite (proj2 (Z.leb_gt 0xDC00 c)) by lia.
    + by apply chars_simple.
  - unfold escapeOf, jsonEscapeTable. destruct (Z.eqb_spec c QUOTE) as [->|Hq]; [by apply (chars_simple QUOTE)|].
    destruct (Z.eqb_spec c BACKSLASH) as [->|Hb]; [by apply (chars_simple BACKSLASH)|].
    rewrite !(proj2 (Z.eqb_neq c _)) by lia. rewrite (proj2 (Z.ltb_ge c 32)), andb_false_r by lia. cbn. apply chars_plain; [|done].
    rewrite <- isPlain_unescaped. unfold isPlain. by rewrite (proj2 (Z.leb_le 32 c)), (proj2 (Z.eqb_neq _ _) Hq), (proj2 (Z.eqb_neq _ _) Hb) by lia.
Qed.

Lemma escaped_chars s : byte_list s -> chars (escaped s) s.
Proof. induction 1 as [|c s Hc _ IH]; [constructor|]. unfold escaped in *. cbn [map concat]. by apply escapeOf_chars. Qed.

Lemma encodeString_ok b out s : wrote b out -> exists b', encodeStringBody b s = Some b' /\ wrote b' (out ++ QUOTE :: escaped s ++ [QUOTE]).
Proof.
  intros W. unfold encodeStringBody. destruct (bufByte_ok b out QUOTE W) as (b1 & -> & W1). cbn [mbind option_bind].
  destruct (escapeLoop_ok (S (length s)) b1 _ s W1 ltac:(lia)) as (b2 & -> & W2). cbn [mbind option_bind].
  destruct (bufByte_ok b2 _ QUOTE W2) as (b3 & -> & W3). exists b3. split; [done|]. by rewrite <- !app_assoc in W3.
Qed.

(** ** Integers *)

Lemma decimal_app a b : decimal (a ++ b) = (decimal a * 10 ^ Z.of_nat (length b) + decimal b)%Z.
Proof. unfold decimal at 1. rewrite fold_left_app. apply decimal_from. Qed.

Lemma digit_char d : (0 <= d < 10)%Z -> digit_byte (chr "0" + d) = true.
Proof. intros Hd. unfold digit_byte, between. change (chr "0") with 48%Z. apply andb_true_iff. rewrite !Z.leb_le. lia. Qed.

Lemma showDigits_ok fuel n acc : (0 <= n < 10 ^ Z.of_nat fuel)%Z -> 0 < fuel ->
  exists ds, showDigits fuel n acc = ds ++ acc /\ decimal ds = n /\ int_part ds.
Proof.
  revert n acc. induction fuel as [|fuel IH]; intros n acc Hn Hf; [lia|]. cbn [showDigits].
  destruct (Z.ltb_spec n 10) as [Hlt|Hge].
  - exists [(chr "0" + n)%Z]. split; [done|]. split; [unfold decimal; cbn [fold_left]; lia|].
    destruct (decide (n = 0)%Z) as [->|Hne]; [by left|right]. eexists _, []. split; [done|]. split_and!; [apply digit_char; lia|lia|constructor].
  - rewrite Nat2Z.inj_succ, Z.pow_succ_r in Hn by lia. pose proof (Z.div_mod n 10 ltac:(lia)). pose proof (Z.mod_pos_bound n 10 ltac:(lia)).
    destruct (IH (n / 10)%Z ((chr "0" + n mod 10)%Z :: acc)) as (ds & -> & Hd & Hi).
    { split; [apply Z.div_pos; lia|apply Z.div_lt_upper_bound; lia]. }
    { destruct fuel; [cbn in Hn; lia|lia]. }
    exists (ds ++ [(chr "0" + n mod 10)%Z]). rewrite <- app_assoc. split; [done|]. split.
    + rewrite decimal_app, Hd. cbn [length]. unfold decimal. cbn [fold_left]. change (10 ^ Z.of_nat 1)%Z with 10%Z. lia.
    + right. destruct Hi as [->|(c & r & -> & H1 & H2 & H3)].
      * exfalso. unfold decimal in Hd. cbn [fold_left] in Hd. lia.
      * eexists _, _. split; [done|]. split_and!; [done|done|]. apply Forall_app. split; [done|]. constructor; [apply digit_char; lia|constructor].
Qed.

Lemma showInt_value `{Libc} z : small z -> value (showInt z) (JInt z).
Proof.
  intros Hz. unfold small in Hz. assert (2 ^ 61 < 10 ^ Z.of_nat 20)%Z as Hp by done. unfold showInt. destruct (Z.ltb_spec z 0) as [Hlt|Hge].
  - destruct (showDigits_ok 20 (- z) []) as (ds & -> & Hd & Hi); [lia|lia|]. rewrite app_nil_r.
    pose proof (v_int [chr "-"] ds (or_intror eq_refl) Hi) as V. unfold signed in V. rewrite decide_False, Hd in V by done.
    by rewrite Z.opp_involutive in V.
  - destruct (showDigits_ok 20 z []) as (ds & -> & Hd & Hi); [lia|lia|]. rewrite app_nil_r.
    pose proof (v_int [] ds (or_introl eq_refl) Hi) as V. unfold signed in V. by rewrite decide_True, Hd in V.
Qed.

Section Encoding.
Context `{Libc} (collects : nat -> bool) (CityHash64 : list Z -> Z).

(** ** Doubles *)

(** What the C library promises of a finite double that is not 0: both formats
    are numbers that fit the buffer, 17 significant digits are enough to read
    it back, and a fraction of zeros does not change a number. *)
Class FormatOk : Prop := {
  format_e_shape : forall n x, n <= 16 -> float_is_zero x = false -> notFinite x = false ->
    exists s i f e, format_e n x = s ++ i ++ f ++ e /\ sign_part s /\ int_part i /\ frac_part f /\ exp_part e /\ e <> [] /\ length (format_e n x) <= 63;
  format_f_shape : forall n x, n <= 20 -> float_is_zero x = false -> notFinite x = false -> (-4 <= exponent10 x < 16)%Z ->
    exists s i f, format_f n x = s ++ i ++ f /\ sign_part s /\ int_part i /\ frac_part f /\ length (format_f n x) <= 61;
  format_e_exact : forall x, (0 <= x < 2 ^ 64)%Z -> float_is_zero x = false -> notFinite x = false -> strtod (format_e 16 x) = x;
  strtod_point : forall s i, sign_part s -> int_part i -> strtod (s ++ i ++ bytes_of_string ".0") = strtod (s ++ i);
  strtod_zero : strtod (bytes_of_string "0.0") = 0%Z /\ strtod (bytes_of_string "-0.0") = (2 ^ 63)%Z }.

Context `{!FormatOk}.

Lemma significant_ok x n s : (0 <= x < 2 ^ 64)%Z -> float_is_zero x = false -> notFinite x = false -> 0 < s -> s + n <= 18 ->
  strtod (format_e (significant n s x - 1) x) = x /\ 0 < significant n s x <= 17.
Proof.
  intros Hr Hz Hf. revert s. induction n as [|n IH]; intros s Hs Hn; cbn [significant]; [split; [by apply format_e_exact|lia]|].
  destruct (Z.eqb_spec (strtod (snprintf64 (format_e (s - 1) x))) x) as [E|E]; [|apply IH; lia]. split; [|lia].
  destruct (format_e_shape (s - 1) x ltac:(lia) Hz Hf) as (? & ? & ? & ? & _ & _ & _ & _ & _ & _ & Hl). unfold snprintf64 in E. by rewrite take_ge in E by lia.
Qed.

Definition marked_float (c : Z) : bool := (c =? chr ".")%Z || (c =? chr "e")%Z || (c =? chr "E")%Z.

Lemma digits_unmarked l : digits l -> existsb marked_float l = false.
Proof.
  induction 1 as [|c l Hc _ IH]; [done|]. cbn. rewrite IH, orb_false_r. unfold marked_float.
  by rewrite (proj2 (Z.eqb_neq _ _) (digit_not c (chr ".") Hc eq_refl)), (proj2 (Z.eqb_neq _ _) (digit_not c (chr "e") Hc eq_refl)),
    (proj2 (Z.eqb_neq _ _) (digit_not c (chr "E") Hc eq_refl)).
Qed.

Lemma int_unmarked s i : sign_part s -> int_part i -> existsb marked_float (s ++ i) = false.
Proof.
  intros Hs Hi. destruct (int_part_digits i Hi) as (c & r & -> & Hc & Hr). rewrite existsb_app.
  rewrite (digits_unmarked (c :: r)) by (by constructor). by destruct Hs as [->| ->].
Qed.

(** A text that is a number and reads as [x], with a mark or made to have one. *)
Lemma marked_value x s i f e : sign_part s -> int_part i -> frac_part f -> exp_part e -> strtod (s ++ i ++ f ++ e) = x -> length (s ++ i ++ f ++ e) <= 61 \/ f ++ e <> [] ->
  exists tok, (if existsb marked_float (s ++ i ++ f ++ e) then Some (s ++ i ++ f ++ e)
    else if length (s ++ i ++ f ++ e) <=? 61 then Some ((s ++ i ++ f ++ e) ++ bytes_of_string ".0") else None) = Some tok /\ value tok (JFloat x).
Proof.
  intros Hs Hi Hf He Ex Hl. rewrite app_assoc, existsb_app, (int_unmarked s i Hs Hi), <- app_assoc. cbn [orb].
  destruct (decide (f ++ e = [])) as [E|E].
  - rewrite E. cbn [existsb]. destruct Hl as [Hl|]; [|done]. rewrite E in *. rewrite (proj2 (Nat.leb_le _ _) Hl). eexists. split; [done|]. rewrite app_nil_r in *.
    rewrite <- Ex, <- app_assoc, <- (strtod_point s i Hs Hi). apply (v_float s i (bytes_of_string ".0") []); [done|done| |by left|done].
    right. exists [chr "0"]. split_and!; [done|done|]. by constructor.
  - assert (existsb marked_float (f ++ e) = true) as ->.
    { rewrite existsb_app. destruct Hf as [->|(r & -> & _)]; [|done]. destruct He as [->|(m & s' & r & -> & Hm & _)]; [done|]. cbn. by destruct Hm as [-> | ->]. }
    eexists. split; [done|]. rewrite <- Ex. by constructor.
Qed.

Lemma formatDouble_value x : (0 <= x < 2 ^ 64)%Z -> notFinite x = false -> exists tok, jsonFormatDouble x = Some tok /\ value tok (JFloat x).
Proof.
  intros Hr Hf. unfold jsonFormatDouble. destruct (float_is_zero x) eqn:Hz.
  - destruct strtod_zero as [E0 E1]. apply float_is_zero_iff in Hz. pose proof (Z.div_mod x (2 ^ 63) ltac:(lia)) as Hd. rewrite Hz in Hd.
    assert (Z.testbit x 63 = (x =? 2 ^ 63)%Z) as ->.
    { rewrite testbit_lt by lia. apply Bool.eq_iff_eq_true. rewrite Z.leb_le, Z.eqb_eq. lia. }
    assert (frac_part [chr "."; chr "0"]) as F0 by (right; exists [chr "0"]; split_and!; [done|done|by constructor]).
    destruct (Z.eqb_spec x (2 ^ 63)) as [->|Hne]; eexists; (split; [done|]).
    + pose proof (v_float [chr "-"] [chr "0"] [chr "."; chr "0"] [] (or_intror eq_refl) (or_introl eq_refl) F0 (or_introl eq_refl) ltac:(done)) as V.
      change ([chr "-"] ++ [chr "0"] ++ [chr "."; chr "0"] ++ []) with (bytes_of_string "-0.0") in V. by rewrite E1 in V.
    + assert (x = 0)%Z as -> by lia. pose proof (v_float [] [chr "0"] [chr "."; chr "0"] [] (or_introl eq_refl) (or_introl eq_refl) F0 (or_introl eq_refl) ltac:(done)) as V.
      change ([] ++ [chr "0"] ++ [chr "."; chr "0"] ++ []) with (bytes_of_string "0.0") in V. by rewrite E0 in V.
  - destruct (significant_ok x 17 1 Hr Hz Hf ltac:(lia) ltac:(lia)) as [Es Hs]. set (sig := significant 17 1 x) in *.
    assert (exists tok, (if existsb marked_float (snprintf64 (format_e (sig - 1) x)) then Some (snprintf64 (format_e (sig - 1) x))
      else if length (snprintf64 (format_e (sig - 1) x)) <=? 61 then Some (snprintf64 (format_e (sig - 1) x) ++ bytes_of_string ".0") else None) = Some tok /\
      value tok (JFloat x)) as He.
    { destruct (format_e_shape (sig - 1) x ltac:(lia) Hz Hf) as (s & i & f & e & E & H1 & H2 & H3 & H4 & H5 & H6). unfold snprintf64.
      rewrite take_ge by lia. rewrite E in *. assert (f ++ e <> []) as Hne by (by destruct f). by apply marked_value; [..|right]. }
    cbv zeta. destruct ((-4 <=? exponent10 x)%Z && (exponent10 x <? 16)%Z) eqn:Ep; [|exact He].
    apply andb_true_iff in Ep as [E1%Z.leb_le E2%Z.ltb_lt].
    destruct (format_f_shape (Z.to_nat (Z.of_nat sig - 1 - exponent10 x)) x ltac:(lia) Hz Hf ltac:(lia)) as (s & i & f & E & H1 & H2 & H3 & H4).
    assert (snprintf64 (format_f (Z.to_nat (Z.of_nat sig - 1 - exponent10 x)) x) = format_f (Z.to_nat (Z.of_nat sig - 1 - exponent10 x)) x) as ->
      by (unfold snprintf64; apply take_ge; lia).
    destruct (Z.eqb_spec (strtod (format_f (Z.to_nat (Z.of_nat sig - 1 - exponent10 x)) x)) x) as [Ex|]; cbn [negb]; [|exact He].
    rewrite E in *. rewrite <- (app_nil_r f) in *. apply marked_value; [done|done|by rewrite app_nil_r in H3|by left|done|by left].
Qed.

(** ** What can be encoded *)

(** No string, double, dictionary or collection is named [p]. *)
Definition plain_name (h : Store) (p : nat) : Prop := classOf (st_names h) p = ClassOther.

(** A graph of the core types, as the tree it is read as: a dictionary lists
    its members in the order of its slots. *)
Inductive shows (h : Store) : Value -> Json -> Prop :=
| sh_null : shows h Nil JNull
| sh_bool b : shows h (Boolean b) (JBool b)
| sh_int z : small z -> shows h (Int z) (JInt z)
| sh_flt bits : (0 <= bits < 2 ^ 64)%Z -> smallFloatFits bits = true -> shows h (Flt bits) (JFloat bits)
| sh_float p bits : plain_name h p -> st_floats h !! p = Some bits -> (0 <= bits < 2 ^ 64)%Z -> notFinite bits = false -> shows h (Ref p) (JFloat bits)
| sh_string p : classOf (st_names h) p <> ClassOther -> byte_list (bytesOf (st_names h) p) -> shows h (Ref p) (JString (bytesOf (st_names h) p))
| sh_array p vars l : plain_name h p -> st_floats h !! p = None -> st_dicts h !! p = None -> st_colls h !! p = None ->
    st_arrays h !! p = Some vars -> Forall2 (shows h) vars l -> shows h (Ref p) (JArray l)
| sh_coll p c contents vars l : plain_name h p -> st_floats h !! p = None -> st_dicts h !! p = None -> st_colls h !! p = Some c ->
    st_arrays h !! cl_contents c = Some contents -> (1 <= cl_firstIndex c <= cl_lastIndex c + 1)%Z ->
    slice contents (Z.to_nat (cl_firstIndex c - 1)) (Z.to_nat (cl_lastIndex c - cl_firstIndex c + 1)) = Some vars ->
    Forall2 (shows h) vars l -> shows h (Ref p) (JArray l)
| sh_dict p d l : plain_name h p -> st_floats h !! p = None -> st_dicts h !! p = Some d ->
    Forall2 (fun a m => exists x, assocs (st_names h) !! a = Some x /\ classOf (st_names h) (akey x) <> ClassOther /\
      bytesOf (st_names h) (akey x) = m.1 /\ byte_list m.1 /\ shows h (avalue x) m.2) (entries (contents d)) l ->
    shows h (Ref p) (JObject l).

(** ** Texts of containers *)

Fixpoint joined (first : bool) (ps : list (list Z)) : list Z :=
  match ps with [] => [] | p :: ps => (if first then [] else [chr ","]) ++ p ++ joined false ps end.

Lemma joined_more p q ps : joined true (p :: q :: ps) = p ++ chr "," :: joined true (q :: ps).
Proof. done. Qed.

Lemma elements_joined p ps v l : value p v -> Forall2 value ps l -> elements (joined true (p :: ps)) (v :: l).
Proof.
  intros Hv Hf. revert p v Hv. induction Hf as [|q u ps l Hq Hf IH]; intros p v Hv.
  - cbn. rewrite app_nil_r. pose proof (e_one [] p v [] (Forall_nil_2 _) Hv (Forall_nil_2 _)) as E. by rewrite app_nil_r in E.
  - rewrite joined_more. apply (e_more [] p v [] _ _ (Forall_nil_2 _) Hv (Forall_nil_2 _)). by apply IH.
Qed.

Definition member_text (p : list Z) (m : list Z * Json) : Prop :=
  exists k t, p = QUOTE :: k ++ QUOTE :: chr ":" :: t /\ chars k m.1 /\ value t m.2.

Lemma members_joined p ps m l : member_text p m -> Forall2 member_text ps l -> members (joined true (p :: ps)) (m :: l).
Proof.
  intros Hv Hf. revert p m Hv. induction Hf as [|q u ps l Hq Hf IH]; intros p [s v] (k & t & -> & Hk & Ht); cbn [fst snd] in *.
  - cbn. rewrite app_nil_r. pose proof (m_one [] k s [] [] t v [] (Forall_nil_2 _) Hk (Forall_nil_2 _) (Forall_nil_2 _) Ht (Forall_nil_2 _)) as E.
    cbn in E. by rewrite app_nil_r in E.
  - rewrite joined_more. pose proof (m_more [] k s [] [] t v [] _ _ (Forall_nil_2 _) Hk (Forall_nil_2 _) (Forall_nil_2 _) Ht (Forall_nil_2 _) (IH q u Hq)) as E.
    cbn [app] in E. rewrite <- app_comm_cons, <- app_assoc. cbn [app]. exact E.
Qed.

Lemma array_text ps l : Forall2 value ps l -> value (chr "[" :: joined true ps ++ [chr "]"]) (JArray l).
Proof.
  intros [|p v ps' l' Hv Hf]; [apply (v_array_empty []); constructor|]. apply v_array. by apply elements_joined.
Qed.

Lemma object_text ps l : Forall2 member_text ps l -> value (chr "{" :: joined true ps ++ [chr "}"]) (JObject l).
Proof.
  intros [|p v ps' l' Hv Hf]; [apply (v_object_empty []); constructor|]. apply v_object. by apply members_joined.
Qed.

(** ** The encoder *)

(** [code] appends a text for [t]. *)
Definition encodes (code : JsonBuf -> option (Outcome JsonBuf)) (t : Json) : Prop :=
  forall b out, wrote b out -> exists b' text, code b = Some (Ok b') /\ wrote b' (out ++ text) /\ value text t.

Lemma encodes_text t text : value text t -> encodes (fun b => ok (bufWrite b text)) t.
Proof.
  intros V b out W. destruct (bufWrite_ok b out text W) as (b' & E & W'). exists b', text. unfold ok. by rewrite E.
Qed.

Lemma encodes_double x : (0 <= x < 2 ^ 64)%Z -> notFinite x = false -> encodes (fun b => encodeDouble b x) (JFloat x).
Proof.
  intros Hr Hf b out W. destruct (formatDouble_value x Hr Hf) as (tok & Ef & V). unfold encodeDouble. rewrite Ef. cbn [mbind option_bind]. by apply encodes_text.
Qed.

Lemma encodes_string s : byte_list s -> encodes (fun b => ok (encodeStringBody b s)) (JString s).
Proof.
  intros Hs b out W. destruct (encodeString_ok b out s W) as (b' & E & W'). exists b', (QUOTE :: escaped s ++ [QUOTE]). unfold ok. rewrite E.
  split_and!; [done|done|]. constructor. by apply escaped_chars.
Qed.

(** The comma before all but the first. *)
Lemma comma_ok b out first : wrote b out -> exists b', (if first : bool then Some b else bufByte b (chr ",")) = Some b' /\ wrote b' (out ++ if first then [] else [chr ","]).
Proof. intros W. destruct first; [exists b; by rewrite app_nil_r|]. by apply bufByte_ok. Qed.

Lemma encodeElements_ok enc depth vars l first b out : Forall2 (fun v t => encodes (fun b => enc b v (S depth)) t) vars l -> wrote b out ->
  exists b' ps, encodeElements enc b vars first depth = Some (Ok b') /\ wrote b' (out ++ joined first ps) /\ Forall2 value ps l.
Proof.
  intros F. revert first b out. induction F as [|v t vars l Hv F IH]; intros first b out W.
  { exists b, []. cbn. rewrite app_nil_r. by split_and!. }
  cbn [encodeElements]. destruct (comma_ok b out first W) as (b1 & -> & W1). cbn [mbind option_bind].
  destruct (Hv b1 _ W1) as (b2 & text & -> & W2 & V). unfold andThen. cbn [mbind option_bind].
  destruct (IH false b2 _ W2) as (b3 & ps & E & W3 & Fp). exists b3, (text :: ps). split_and!; [done| |by constructor].
  cbn [joined]. by rewrite <- !app_assoc in *.
Qed.

Lemma encodeSpan_ok enc depth vars l : Forall2 (fun v t => encodes (fun b => enc b v (S depth)) t) vars l -> encodes (fun b => encodeSpan enc b vars depth) (JArray l).
Proof.
  intros F b out W. unfold encodeSpan. destruct (bufByte_ok b out (chr "[") W) as (b1 & -> & W1). cbn [mbind option_bind].
  destruct (encodeElements_ok enc depth vars l true b1 _ F W1) as (b2 & ps & -> & W2 & Fp). unfold andThen, ok. cbn [mbind option_bind].
  destruct (bufByte_ok b2 _ (chr "]") W2) as (b3 & -> & W3). exists b3, (chr "[" :: joined true ps ++ [chr "]"]). cbn [mbind option_bind].
  split_and!; [done|by rewrite <- !app_assoc in W3|by apply array_text].
Qed.

Lemma encodeMembers_ok enc h depth slots l first b out :
  Forall2 (fun a m => exists x, assocs (st_names h) !! a = Some x /\ classOf (st_names h) (akey x) <> ClassOther /\ bytesOf (st_names h) (akey x) = m.1 /\
    byte_list m.1 /\ encodes (fun b => enc b (avalue x) (S depth)) m.2) (entries slots) l -> wrote b out ->
  exists b' ps, encodeMembers enc h b slots first depth = Some (Ok b') /\ wrote b' (out ++ joined first ps) /\ Forall2 member_text ps l.
Proof.
  revert l first b out. induction slots as [|[a|] slots IH]; intros l first b out F W; cbn [encodeMembers].
  - inversion F; subst. exists b, []. cbn. rewrite app_nil_r. by split_and!.
  - change (entries (Some a :: slots)) with (a :: entries slots) in F. inversion F as [|? m ? l' (x & Ha & Hc & Hb & Hby & Hv) F' E1 E2]; subst.
    rewrite Ha. cbn [mbind option_bind]. destruct (comma_ok b out first W) as (b1 & E1 & W1).
    destruct (encodeString_ok b1 _ (bytesOf (st_names h) (akey x)) W1) as (b2 & E2 & W2). destruct (bufByte_ok b2 _ (chr ":") W2) as (b3 & E3 & W3).
    destruct (Hv b3 _ W3) as (b4 & text & E4 & W4 & V).
    destruct (IH l' false b4 _ F' W4) as (b5 & ps & E5 & W5 & Fp).
    exists b5, ((QUOTE :: escaped m.1 ++ QUOTE :: chr ":" :: text) :: ps). split_and!.
    + destruct (classOf (st_names h) (akey x)); [| |done]; rewrite E1; cbn [mbind option_bind]; rewrite E2; cbn [mbind option_bind]; rewrite E3; cbn [mbind option_bind];
        unfold andThen; rewrite E4; exact E5.
    + cbn [joined]. rewrite Hb in W5. repeat (rewrite <- ?app_assoc in W5; cbn [app] in W5). repeat (rewrite <- ?app_assoc; cbn [app]). exact W5.
    + constructor; [|done]. eexists _, _. split; [done|]. split; [by apply escaped_chars|done].
  - apply IH; [exact F|done].
Qed.

Lemma encodeDict_ok enc h depth d l :
  Forall2 (fun a m => exists x, assocs (st_names h) !! a = Some x /\ classOf (st_names h) (akey x) <> ClassOther /\ bytesOf (st_names h) (akey x) = m.1 /\
    byte_list m.1 /\ encodes (fun b => enc b (avalue x) (S depth)) m.2) (entries (contents d)) l -> encodes (fun b => encodeDictBody enc h b d depth) (JObject l).
Proof.
  intros F b out W. unfold encodeDictBody. destruct (bufByte_ok b out (chr "{") W) as (b1 & -> & W1). cbn [mbind option_bind].
  destruct (encodeMembers_ok enc h depth (contents d) l true b1 _ F W1) as (b2 & ps & -> & W2 & Fp). unfold andThen, ok. cbn [mbind option_bind].
  destruct (bufByte_ok b2 _ (chr "}") W2) as (b3 & -> & W3). exists b3, (chr "{" :: joined true ps ++ [chr "}"]). cbn [mbind option_bind].
  split_and!; [done|by rewrite <- !app_assoc in W3|by apply object_text].
Qed.

(** An immediate double is finite. *)
Lemma small_finite bits : (0 <= bits < 2 ^ 64)%Z -> smallFloatFits bits = true -> notFinite bits = false.
Proof.
  intros Hr Hs. apply (smallFloatFits_spec bits Hr) in Hs. unfold notFinite. rewrite Z.shiftr_div_pow2 by lia.
  change 0x7FF%Z with (Z.ones 11). rewrite Z.land_ones by lia. fold (exponent bits). apply Z.eqb_neq. change (Z.ones 11) with 2047%Z. lia.
Qed.

(** The elements of a sequence, one level down. *)
Lemma elements_encode fuel h depth vars l :
  Forall (fun t => forall fuel v depth, shows h v t -> fits depth t = true -> JSON_MAX_DEPTH + 1 < fuel + depth -> encodes (fun b => encodeValue fuel h b v depth) t) l ->
  Forall2 (shows h) vars l -> forallb (fits (S depth)) l = true -> JSON_MAX_DEPTH + 1 < fuel + S depth ->
  Forall2 (fun v t => encodes (fun b => encodeValue fuel h b v (S depth)) t) vars l.
Proof.
  intros IH F Hf Hfuel. induction F as [|v t vars l Hv F IHF]; [constructor|]. inversion IH as [|? ? It IHl]; subst. cbn in Hf. apply andb_true_iff in Hf as [Hf Hf'].
  constructor; [by apply It|by apply IHF].
Qed.

Lemma encodeValue_ok t fuel h v depth : shows h v t -> fits depth t = true -> JSON_MAX_DEPTH + 1 < fuel + depth ->
  encodes (fun b => encodeValue fuel h b v depth) t.
Proof.
  revert fuel v depth. induction t as [ |x|z|bits|s|l IH|l IH] using json_induction; intros fuel v depth Sh Hf Hfuel;
    pose proof (fits_depth _ _ Hf) as Hd; (destruct fuel as [|fuel]; [lia|]);
    change (encodeValue (S fuel) h) with (encodeBody (encodeValue fuel h) h); unfold encodeBody;
    rewrite (proj2 (Nat.ltb_ge JSON_MAX_DEPTH depth)) by lia;
    inversion Sh as [|?|? Hz|? Hr Hs|p ? Hp Hfl Hr Hs|p Hp Hb|p vars ? Hp H1 H2 H3 H4 F|p c cs vars ? Hp H1 H2 H3 H4 H5 H6 F|p d ? Hp H1 H2 F]; subst.
  - apply encodes_text. constructor.
  - destruct x; apply encodes_text; constructor.
  - by apply encodes_text, showInt_value.
  - apply encodes_double; [done|by apply small_finite].
  - unfold encodeObject. rewrite Hp, Hfl. rewrite Hs. by apply encodes_double.
  - unfold encodeObject. destruct (classOf (st_names h) p); [by apply encodes_string|by apply encodes_string|done].
  - unfold encodeObject. rewrite Hp, H1, H2, H3, H4. apply encodeSpan_ok. cbn in Hf. apply andb_true_iff in Hf as [_ Hf]. apply elements_encode; [done|done|done|lia].
  - unfold encodeObject. rewrite Hp, H1, H2, H3, H4. cbn [mbind option_bind]. rewrite (proj2 (Z.ltb_ge _ 1)), (proj2 (Z.ltb_ge _ _)) by lia. cbn [orb].
    rewrite H6. cbn [mbind option_bind]. apply encodeSpan_ok. cbn in Hf. apply andb_true_iff in Hf as [_ Hf]. apply elements_encode; [done|done|done|lia].
  - unfold encodeObject. rewrite Hp, H1, H2. apply encodeDict_ok. cbn in Hf. apply andb_true_iff in Hf as [_ Hf].
    clear -IH F Hf Hfuel. induction F as [|a m as' l (x & Hx & Hc & Hb & Hby & Hv) F IHF]; [constructor|]. inversion IH; subst. cbn in Hf. destruct m as [k u].
    apply andb_true_iff in Hf as [Hf Hf']. constructor; [|by apply IHF]. exists x. split_and!; [done|done|done|done|].
    match goal with I : forall fuel v depth, _ |- _ => apply I; [done|done|lia] end.
Qed.

Lemma shows_tame h v t : shows h v t -> tame t = true.
Proof.
  revert v. induction t as [ |x|z|bits|s|l IH|l IH] using json_induction; intros v Sh; try done;
    inversion Sh as [|?|? Hz|? Hr Hs|p ? Hp Hfl Hr Hs|p Hp Hb|p vars ? Hp H1 H2 H3 H4 F|p c cs vars ? Hp H1 H2 H3 H4 H5 H6 F|p d ? Hp H1 H2 F]; subst.
  - by apply bool_decide_true.
  - cbn. clear -IH F. induction F as [|v t vars l Hv F IHF]; [done|]. inversion IH as [|? ? It IHl]; subst. cbn. by rewrite (It _ Hv), IHF.
  - cbn. clear -IH F. induction F as [|v t vars l Hv F IHF]; [done|]. inversion IH as [|? ? It IHl]; subst. cbn. by rewrite (It _ Hv), IHF.
  - cbn. clear -IH F. induction F as [|a [k u] as' l (x & _ & _ & _ & _ & Hv) F IHF]; [done|]. inversion IH as [|? ? It IHl]; subst. cbn [snd] in It. cbn. by rewrite (It _ Hv), IHF.
Qed.

(** C20. Encoding and parsing are inverse: a graph of strings, symbols, integers,
    finite doubles, booleans, nil, sequences and dictionaries with names as
    keys, nested no deeper than the limit, is encoded as a JSON text that
    denotes it, and parsing that text, in any store, answers a value that
    denotes the same. *)
Theorem jsonEncode_reads_back `{!StrtodOk} h v t : shows h v t -> fits 0 t = true -> store_ok h ->
  exists p h1 text, jsonEncode collects h v = Some (Ok p, h1) /\ grows h h1 /\
    strings (st_names h1) !! p = Some (mkString ClassString 0 text) /\ document text t /\
    forall h2, store_ok h2 -> (Z.of_nat (length text) + 1 < 2 ^ 62)%Z ->
      exists v' h3, jsonParse collects CityHash64 text h2 = Some (Ok v', h3) /\ denotes CityHash64 h3 (next h2) (next h3) v' t.
Proof.
  intros Sh Hf O. unfold jsonEncode.
  destruct (encodeValue_ok t encode_fuel h v 0 Sh Hf ltac:(unfold encode_fuel; lia) (mkBuf (replicate 512 0%Z) 0) []) as (b & text & -> & ([k E] & Hl & _) & V).
  { split_and!; [apply prefix_nil|done|cbn; lia]. }
  cbn [mbind option_bind app] in *. rewrite E, Hl, slice_Some by (rewrite length_app; lia). rewrite drop_0, take_app_length. cbn [mbind option_bind].
  pose proof (newString_grows collects h text O) as N. destruct (newStringWith collects h text) as [h1 p]. destruct N as (-> & _ & G & Hs).
  assert (document text t) as D.
  { exists [], text, []. rewrite app_nil_r. split_and!; [done|constructor|done|constructor]. }
  exists (next h), h1, text. split_and!; [done|done|done|done|]. intros h2 O2 Hlen.
  destruct (jsonParse_exact_lemma collects CityHash64 text Hlen h2 O2) as (o & h3 & Ep & _ & _ & Hc).
  destruct (Hc t D Hf (shows_tame _ _ _ Sh)) as (v' & -> & Dn). by exists v', h3.
Qed.
End Encoding.
