(* ===== verification/JsonExamples.v ===== *)
(** * JsonExamples

    A C library for concrete runs of the JSON runtime, with the laws that
    [JsonGrammar.StrtodOk] and [JsonEncode.FormatOk] ask for, the theorems of
    [JsonParse] and [JsonEncode] at concrete texts and graphs, and the integers
    the parser cannot represent. *)
From S2P Require Import Prelude Tagging.
From stdpp Require Import base list gmap numbers.
From S2P Require Import Dictionary Collections Json JsonGrammar JsonScan JsonParse JsonEncode.

#[local] Open Scope nat_scope.

(** ** A C library *)

(** Twenty decimal digits. *)
Fixpoint fixed_digits (n : nat) (x : Z) : list Z :=
  match n with O => [] | S n => fixed_digits n (x / 10) ++ [chr "0" + x mod 10]%Z end.

(** The numbers this library prints have the bits of the double as their
    fraction; a negative number is read as -0.0. *)
Definition fraction_bits (l : list Z) : Z :=
  match readNumber l with
  | Some (s, _, f, _, _) => if decide (s = []) then decimal (tail f) else (2 ^ 63)%Z
  | None => 0%Z
  end.

#[local] Instance fraction_libc : Libc := {|
  strtod := fraction_bits;
  format_e _ x := bytes_of_string "1." ++ fixed_digits 20 x ++ bytes_of_string "e0";
  format_f _ _ := bytes_of_string "0";
  exponent10 _ := 100%Z |}.

Lemma fixed_digits_shape n x : length (fixed_digits n x) = n /\ digits (fixed_digits n x).
Proof.
  revert x. induction n as [|n IH]; intros x; cbn; [by split; [|constructor]|]. destruct (IH (x / 10)%Z) as [Hl Hd]. split.
  - rewrite length_app, Hl. cbn. lia.
  - apply Forall_app. split; [done|]. constructor; [|done]. pose proof (Z.mod_pos_bound x 10). unfold digit_byte, between. vm_compute (chr "0").
    apply andb_true_iff. split; apply Z.leb_le; lia.
Qed.

Lemma fixed_digits_value n x : (0 <= x < 10 ^ Z.of_nat n)%Z -> decimal (fixed_digits n x) = x.
Proof.
  revert x. induction n as [|n IH]; intros x Hx; [change (10 ^ Z.of_nat 0)%Z with 1%Z in Hx; cbn; lia|]. cbn [fixed_digits].
  rewrite Nat2Z.inj_succ, Z.pow_succ_r in Hx by lia. rewrite decimal_app, IH.
  - cbn. vm_compute (chr "0"). pose proof (Z.div_mod x 10). lia.
  - split; [apply Z.div_pos; lia|]. apply Z.div_lt_upper_bound; lia.
Qed.

Lemma fraction_read s i f e rest : sign_part s -> int_part i -> frac_part f -> exp_part e -> ends_number f e rest ->
  fraction_bits (s ++ i ++ f ++ e ++ rest) = if decide (s = []) then decimal (tail f) else (2 ^ 63)%Z.
Proof. intros. unfold fraction_bits. by rewrite readNumber_complete. Qed.

Lemma ends_nil f e : ends_number f e [].
Proof. by split_and!. Qed.

Lemma printed_parts x : exists f e, bytes_of_string "1." ++ fixed_digits 20 x ++ bytes_of_string "e0" = [] ++ [chr "1"] ++ f ++ e /\
  f = chr "." :: fixed_digits 20 x /\ e = bytes_of_string "e0" /\ frac_part f /\ exp_part e.
Proof.
  destruct (fixed_digits_shape 20 x) as [Hl Hd]. eexists _, _. split_and!; [|done|done| |].
  - done.
  - right. eexists. split_and!; [done| |done]. intros E. by rewrite E in Hl.
  - right. exists (chr "e"), [], [chr "0"]. split_and!; [done|by left|by left|done|by constructor].
Qed.

Lemma one_int_part : int_part [chr "1"].
Proof. right. exists (chr "1"), []. split_and!; [done|done|done|constructor]. Qed.

#[local] Instance fraction_strtod : StrtodOk.
Proof.
  intros s i f e rest Hs Hi Hf He _ Hr. unfold strtod, fraction_libc. rewrite fraction_read by done.
  pose proof (fraction_read s i f e [] Hs Hi Hf He (ends_nil f e)) as E. by rewrite app_nil_r in E.
Qed.

#[local] Instance fraction_format : FormatOk.
Proof.
  constructor.
  - intros n x _ _ _. destruct (printed_parts x) as (f & e & E & Ef & Ee & Hf & He). exists [], [chr "1"], f, e. cbn [format_e fraction_libc].
    split_and!; [done|by left|apply one_int_part|done|done|by rewrite Ee|]. rewrite E, Ef, Ee, !length_app. cbn [length].
    rewrite (proj1 (fixed_digits_shape 20 x)). cbn. lia.
  - intros n x _ _ _ Hx. cbn in Hx. lia.
  - intros x Hx _ _. destruct (printed_parts x) as (f & e & E & Ef & Ee & Hf & He). cbn [strtod format_e fraction_libc]. rewrite E.
    pose proof (fraction_read [] [chr "1"] f e [] ltac:(by left) one_int_part Hf He (ends_nil f e)) as R. rewrite app_nil_r in R. rewrite R, Ef. cbn [decide].
    rewrite decide_True by done. apply fixed_digits_value. split; [lia|]. assert (2 ^ 64 < 10 ^ Z.of_nat 20)%Z by done. lia.
  - intros s i Hs Hi. cbn [strtod fraction_libc].
    pose proof (fraction_read s i [] [] [] Hs Hi ltac:(by left) ltac:(by left) (ends_nil _ _)) as R1.
    pose proof (fraction_read s i (bytes_of_string ".0") [] [] Hs Hi ltac:(right; exists [chr "0"]; split_and!; [done|done|by constructor]) ltac:(by left) (ends_nil _ _)) as R2.
    rewrite !app_nil_r in R1, R2. by rewrite R1, R2.
  - by split.
Qed.

(** ** Concrete runs *)

Definition empty_store : Store := mkStore (mkMemory 10 0 ∅ ∅) ∅ ∅ ∅ ∅.

Lemma empty_store_ok : store_ok empty_store.
Proof. constructor; [split|..]; intros p [? E]; discriminate (eq_trans (eq_sym (lookup_empty p)) E). Qed.

Definition no_collection (_ : nat) : bool := false.
Definition sum_hash (l : list Z) : Z := fold_right Z.add 0%Z l.

Definition jparse (s : list Z) := jsonParse no_collection sum_hash s empty_store.

Definition accepts (s : list Z) : bool := match jparse s with Some (Ok _, _) => true | _ => false end.

Example accepts_texts : forallb accepts [bytes_of_string "[1, -23, [], true]"; bytes_of_string " {} "; bytes_of_string "null"; bytes_of_string "-2305843009213693952"; bytes_of_string "1.5e3"; bytes_of_string "[[[0]]]"] = true.
Proof. by vm_compute. Qed.

Example rejects_texts : existsb accepts [bytes_of_string ""; bytes_of_string "01"; bytes_of_string "[1,]"; bytes_of_string "[1 2]"; bytes_of_string "nul"; bytes_of_string "1."; bytes_of_string "-"; bytes_of_string "{1:2}"; bytes_of_string "1 1"; bytes_of_string "+1"] = false.
Proof. by vm_compute. Qed.

(** An object: the member [a] is [[1, 0.0]] and the member [a\n] the two bytes of an e with an accent. *)
Definition sample : list Z := bytes_of_string "{" ++ [34; 97; 34]%Z ++ bytes_of_string ": [1, 0.0], " ++ [34; 97; 92; 110; 34]%Z ++ bytes_of_string ":" ++ [34; 195; 169; 34]%Z ++ bytes_of_string "}".

Lemma jsonParse_exact_witness : store_ok empty_store /\ accepts sample = true /\
  exists o h', jparse sample = Some (o, h') /\ grows empty_store h' /\
    (forall v, o = Ok v -> exists t, document sample t /\ fits 0 t = true /\ tame t = true /\ denotes sum_hash h' 10 (next h') v t).
Proof.
  split; [exact empty_store_ok|]. split; [by vm_compute|].
  destruct (jsonParse_exact no_collection sum_hash sample eq_refl empty_store empty_store_ok) as (o & h' & E & G & S & _).
  exists o, h'. split; [exact E|]. split; [exact G|exact S].
Defined.

(** 2^61, the first integer past the SmallIntegers. *)
Lemma jsonParse_integer_limit_witness :
  document (bytes_of_string "2305843009213693952") (JInt (2 ^ 61)) /\
  exists h', jparse (bytes_of_string "2305843009213693952") = Some (Abort, h').
Proof.
  destruct (jsonParse_integer_limit no_collection sum_hash [] (bytes_of_string "2305843009213693952") empty_store) as [D A].
  - exact empty_store_ok.
  - by left.
  - right. exists (chr "2"), (bytes_of_string "305843009213693952"). split; [done|]. split; [done|]. split; [done|]. repeat (eapply List.Forall_cons; [reflexivity|]). apply List.Forall_nil.
  - done.
  - unfold small. vm_compute. intros [_ ?]. done.
  - split; [exact D|]. exact A.
Defined.

(** A dictionary with one member, the array of 1, true, 1.5 and its own key. *)
Definition graph : Store := mkStore
  (mkMemory 10 0 {[2 := mkString ClassString 0 (bytes_of_string "key")]} {[3 := mkAssociation 2 (Ref 1)]})
  {[1 := [Int 1; Boolean true; Flt 0x3FF8000000000000; Ref 2]]} ∅ {[4 := mkDictionary [None; Some 3] 1]} ∅.

Definition graph_tree : Json :=
  JObject [(bytes_of_string "key", JArray [JInt 1; JBool true; JFloat 0x3FF8000000000000; JString (bytes_of_string "key")])].

Lemma graph_ok : store_ok graph.
Proof.
  constructor; [split|..]; intros p [x E]; cbn in E; try discriminate (eq_trans (eq_sym (lookup_empty p)) E);
    apply lookup_singleton_Some in E as [<- _]; cbn; lia.
Qed.

Lemma graph_shows : shows graph (Ref 4) graph_tree.
Proof.
  eapply sh_dict; [by vm_compute|done|done|]. constructor; [|constructor]. eexists. split; [done|]. split; [done|]. split; [done|].
  split; [by repeat constructor|]. eapply sh_array; [by vm_compute|done|done|done|done|].
  apply List.Forall2_cons; [by apply sh_int|]. apply List.Forall2_cons; [constructor|]. apply List.Forall2_cons; [by apply sh_flt|].
  apply List.Forall2_cons; [|constructor]. apply (sh_string graph 2); [done|by repeat constructor].
Qed.

Lemma jsonEncode_reads_back_witness : shows graph (Ref 4) graph_tree /\ fits 0 graph_tree = true /\
  exists p h1 text, jsonEncode no_collection graph (Ref 4) = Some (Ok p, h1) /\ grows graph h1 /\
    strings (st_names h1) !! p = Some (mkString ClassString 0 text) /\ document text graph_tree /\
    forall h2, store_ok h2 -> (Z.of_nat (length text) + 1 < 2 ^ 62)%Z ->
      exists v' h3, jsonParse no_collection sum_hash text h2 = Some (Ok v', h3) /\ denotes sum_hash h3 (next h2) (next h3) v' graph_tree.
Proof.
  split; [exact graph_shows|]. split; [reflexivity|].
  exact (jsonEncode_reads_back no_collection sum_hash graph (Ref 4) graph_tree graph_shows eq_refl graph_ok).
Defined.
