(* ===== verification/Marking.v ===== *)
(** * Marking

    The mark phase of the old-space collector
    ([src/vm/memory/GarbageCollector.c], [gcMarkRoots]): every object that the
    roots lead to is tagged, through an explicit queue, and the heap's
    remembered set is rebuilt from the edges seen on the way.

    The roots are the records and cells of the scavenger's model ([Scavenger]);
    marking reads them and never writes them.  The cells of old space that are
    not objects are free chunks ([g_free]), whose header overlays an object's:
    a stale stack slot may still lead to one.  The inline caches that the walk
    over native code resets are a component of their own ([InlineCache]).

    The main result: from a heap whose reachable part is well formed, marking
    returns, tags exactly the reachable objects, each once, leaves every other
    object as it was, and the remembered set has exactly the reachable old
    objects with a young referent. *)
From S2P Require Import Prelude Endian Tagging.
From stdpp Require Import gmap.
From S2P Require Import FreeList HeapPage ObjectMemory Scavenger ScavengerProofs ScavengerRoots.
#[local] Open Scope Z_scope.

(** ** The queue *)

Definition QUEUE_INIT_SIZE : nat := 1024.

(** The allocated array and the number of entries in use. *)
Record MarkingQueue := mkQueue { q_objects : list Z; q_index : nat }.

Definition newQueue : MarkingQueue := mkQueue (replicate QUEUE_INIT_SIZE 0) 0.

Definition markingQueueAdd (q : MarkingQueue) (object : Z) : option MarkingQueue :=
  let objects := if (length (q_objects q) =? q_index q)%nat
                 then q_objects q ++ replicate QUEUE_INIT_SIZE 0 else q_objects q in
  objects ← put objects (q_index q) object;
  Some (mkQueue objects (S (q_index q))).

(** [objects[-1]] is outside the array. *)
Definition markingQueuePop (q : MarkingQueue) : option (Z * MarkingQueue) :=
  match q_index q with
  | O => None
  | S index => object ← q_objects q !! index; Some (object, mkQueue (q_objects q) index)
  end.

Definition markingQueueIsEmpty (q : MarkingQueue) : bool := (q_index q =? 0)%nat.

(** ** Marking an object *)

(** What the collector changes: the objects, the queue, the heap's remembered
    set and [LastGCStats.marked]. *)
Record Marker := mkMarker { k_mem : Memory; k_queue : MarkingQueue; k_remembered : list Z; k_marked : Z }.

(** What it reads: the young space, the old space with its free chunks, and
    the cells of the roots. *)
Record Heap := mkHeap {
  g_fromSpace : Z;
  g_size : Z;
  g_pages : PageSpace;
  g_free : gmap Z FreeSpace;
  g_cells : list Z }.

Section Code.
Context `{Target} (heap : Heap).

Definition youngIncludes (addr : Z) : bool := (g_fromSpace heap <=? addr) && (addr <=? g_fromSpace heap + g_size heap).

Definition markObject (s : Marker) (object : Z) : option Marker :=
  _ ← ASSERT (isOldObject object || youngIncludes object);
  o ← k_mem s !! object;
  if has_tag TAG_MARKED o then Some s
  else
    queue ← markingQueueAdd (k_queue s) object;
    Some (mkMarker (<[object := add_tag TAG_MARKED o]> (k_mem s)) queue (k_remembered s) (u64 (k_marked s + 1))).

(** [if (valueTypeOf(value, VALUE_POINTER)) markObject(asObject(value));] *)
Definition markPointer (s : Marker) (v : Z) : option Marker :=
  if valueTypeOf v VALUE_POINTER then object ← asObject v; markObject s object else Some s.

Definition iterateObject (s : Marker) (root : Z) : option Marker :=
  o ← k_mem s !! root;
  let remember := isNewObject (o_class o) in
  s ← markObject s (o_class o);
  o ← k_mem s !! root;
  shape ← instanceShape (k_mem s) (o_class o);
  size ← varsCount shape o;
  '(s, remember) ← for_up size 0 (fun i '(s, remember) =>
      o ← k_mem s !! root;
      v ← o_body o !! (getRawObjectVars shape + i)%nat;
      if valueTypeOf v VALUE_POINTER then
        object ← asObject v;
        s ← markObject s object;
        Some (s, remember || isNewObject object)
      else Some (s, remember)) (s, remember);
  o ← k_mem s !! root;
  let s := mkMarker (<[root := clear_tag TAG_REMEMBERED o]> (k_mem s)) (k_queue s) (k_remembered s) (k_marked s) in
  if remember && isOldObject root then
    '(m, set) ← rememberObject (k_mem s) (k_remembered s) root;
    Some (mkMarker m (k_queue s) set (k_marked s))
  else Some s.

(** [while (!markingQueueIsEmpty(&queue)) iterateObject(markingQueuePop(&queue));] *)
Definition drain (fuel : nat) (s : Marker) : option Marker :=
  loop fuel (fun s =>
    if markingQueueIsEmpty (k_queue s) then Some (inr s)
    else
      '(object, queue) ← markingQueuePop (k_queue s);
      s ← iterateObject (mkMarker (k_mem s) queue (k_remembered s) (k_marked s)) object;
      Some (inl s)) s.

(** ** Stack slots *)

(** The tags of the cell at an address, an object or a free chunk. *)
Definition tags_at (s : Marker) (a : Z) : option Z :=
  match k_mem s !! a with
  | Some o => Some (o_tags o)
  | None => fs_tags <$> g_free heap !! a
  end.

(** [class] without its space bit is aligned and in old or young space. *)
Definition mappedClass (class : Z) : option bool :=
  let class := Z.ldiff class SPACE_TAG in
  if negb (Z.land class (HEAP_OBJECT_ALIGN - 1) =? 0) then Some false
  else
    old ← pageSpaceIncludes (g_pages heap) class;
    Some (old || youngIncludes class).

Definition plausibleOldMarkRoot (s : Marker) (object : Z) : option bool :=
  if negb (Z.land (Z.ldiff object SPACE_TAG) (HEAP_OBJECT_ALIGN - 1) =? 0) then Some false
  else
    mapped ← pageSpaceIncludes (g_pages heap) object;
    if negb mapped then Some false
    else
      tags ← tags_at s object;
      if negb (Z.land tags (Z.lor TAG_FREESPACE TAG_FORWARDED) =? 0) then Some false
      else
        o ← k_mem s !! object;
        class ← mappedClass (o_class o);
        if negb class then Some false
        else
          c ← k_mem s !! o_class o;
          metaclass ← mappedClass (o_class c);
          if negb metaclass then Some false
          else
            size ← computeRawObjectSize (k_mem s) o;
            Some ((0 <? size) && (size <=? 2 ^ 30)).

Definition markStackSlot (s : Marker) (v : Z) : option Marker :=
  object ← asObject v;
  ok ← (if isOldObject object then plausibleOldMarkRoot s object else Some true);
  if ok : bool then markObject s object else Some s.

(** ** The roots *)

Fixpoint fold_marks {A} (f : Marker -> A -> option Marker) (s : Marker) (l : list A) : option Marker :=
  match l with
  | [] => Some s
  | x :: l => s ← f s x; fold_marks f s l
  end.

(** The chains of on:do: and of unwind handlers are linked alike. *)
Fixpoint iterateHandlerChain (fuel : nat) (s : Marker) (handlerValue : Z) : option Marker :=
  match fuel with
  | O => None
  | S fuel =>
      if handlerValue =? 0 then Some s
      else
        handler ← asObject handlerValue;
        s ← markObject s handler;
        o ← k_mem s !! handler;
        parent ← o_body o !! HANDLER_PARENT;
        iterateHandlerChain fuel s parent
  end.

(** No chain is longer than there are objects. *)
Definition markHandlers (s : Marker) (n : nat) : option Marker :=
  v ← g_cells heap !! n;
  iterateHandlerChain (S (base.size (k_mem s))) s v.

Definition markStackCell (s : Marker) (n : nat) : option Marker :=
  v ← g_cells heap !! n;
  if valueTypeOf v VALUE_POINTER then markStackSlot s v else Some s.

Definition markField (s : Marker) (n : nat) : option Marker :=
  v ← g_cells heap !! n; markPointer s v.

Definition markFrame (s : Marker) (fr : StackFrame) : option Marker :=
  s ← fold_marks markStackCell s (fr_args fr);
  slots ← mapped_slots fr;
  fold_marks markStackCell s slots.

Definition markEntryFrame (s : Marker) (e : EntryStackFrame) : option Marker :=
  slot0 ← fr_slots (ef_exit e) !! 0%nat;
  s ← markField s slot0;
  fold_marks markFrame s (ef_frames e).

Definition iterateStackFrames (s : Marker) (entryFrames : list EntryStackFrame) : option Marker :=
  fold_marks markEntryFrame s entryFrames.

Definition iterateFiberStack (s : Marker) (fiber : Fiber) : option Marker :=
  s ← markField s (f_entryBlock fiber);
  s ← markField s (f_process fiber);
  s ← iterateStackFrames s (f_stackFrames (f_roots fiber));
  s ← markHandlers s (f_exceptionHandler (f_roots fiber));
  markHandlers s (f_unwindHandler (f_roots fiber)).

Definition iterateMutatorCurrentStack (s : Marker) (m : Mutator) : option Marker :=
  if negb (live m) then Some s
  else
    s ← match currentFiber m with
        | Some f => s ← markField s (f_entryBlock f); markField s (f_process f)
        | None => Some s
        end;
    s ← iterateStackFrames s (t_stackFrames m);
    s ← match t_exceptionHandler m with Some n => markHandlers s n | None => Some s end;
    match t_unwindHandler m with Some n => markHandlers s n | None => Some s end.

(** The fibers of the registry that no worker runs. *)
Definition iterateStack (s : Marker) (r : Roots) : option Marker :=
  s ← fold_marks iterateFiberStack s (parked r);
  fold_marks iterateMutatorCurrentStack s (r_mutators r).

(** [handle->raw] *)
Definition markHandle (s : Marker) (n : nat) : option Marker :=
  object ← g_cells heap !! n; markObject s object.

Definition iterateHandleScopes (s : Marker) (scopes : list (list nat)) : option Marker :=
  fold_marks (fold_marks markHandle) s scopes.

Definition markContext (s : Marker) (n : nat) : option Marker :=
  context ← g_cells heap !! n;
  if context =? 0 then Some s else object ← asObject context; markObject s object.

Definition iterateFiberHandles (s : Marker) (fiber : Fiber) : option Marker :=
  s ← iterateHandleScopes s (f_handleScopes (f_roots fiber));
  markContext s (f_context (f_roots fiber)).

Definition iterateMutatorCurrentHandles (s : Marker) (m : Mutator) : option Marker :=
  if negb (live m) then Some s
  else
    s ← iterateHandleScopes s (t_handleScopes m);
    markContext s (t_context m).

Definition iterateHandles (s : Marker) (r : Roots) : option Marker :=
  s ← fold_marks (fun s m => fold_marks markHandle s (t_handles m)) s (r_mutators r);
  s ← fold_marks iterateFiberHandles s (parked r);
  fold_marks iterateMutatorCurrentHandles s (r_mutators r).

(** [if (code->field != NULL) markObject(code->field);] *)
Definition markCodeField (s : Marker) (n : nat) : option Marker :=
  object ← g_cells heap !! n;
  if object =? 0 then Some s else markObject s object.

Definition markSite (s : Marker) (n : nat) : option Marker :=
  v ← g_cells heap !! n;
  if valueTypeOf v VALUE_POINTER then object ← asObject v; markObject s object else markObject s v.

Definition markCode (s : Marker) (code : NativeCode) : option Marker :=
  if n_free code then Some s
  else s ← fold_marks markCodeField s (n_pointers code); fold_marks markSite s (n_sites code).

Definition iterateNativeCode (s : Marker) (r : Roots) : option Marker :=
  s ← fold_marks markCode s (r_codes r);
  fold_marks (fun s m => fold_marks (fold_marks markSite) s (t_codegenSites m)) s (r_mutators r).

(** Each turn of the loop scans another object. *)
Definition gcMarkRoots (m : Memory) (set : list Z) (marked : Z) (r : Roots) : option Marker :=
  let s := mkMarker m newQueue set marked in
  s ← iterateStack s r;
  s ← iterateHandles s r;
  s ← iterateNativeCode s r;
  drain (S (base.size m)) s.
End Code.

(** ** The graph *)

(** The class of an object and the objects its variables lead to. *)
Definition edge `{Target} (m : Memory) (a b : Z) : Prop :=
  exists o, m !! a = Some o /\
    (b = o_class o \/ exists i v, in_vars m o i /\ o_body o !! i = Some v /\ valueTypeOf v VALUE_POINTER = true /\ b = v - 1).

Definition young_referent `{Target} (m : Memory) (a : Z) : Prop := exists b, edge m a b /\ isNewObject b = true.

(** [o] is [o0] but for the two tags that marking changes. *)
Definition retagged (o0 o : RawObject) : Prop :=
  o_class o = o_class o0 /\ o_hash o = o_hash o0 /\ o_payloadSize o = o_payloadSize o0 /\
  o_varsSize o = o_varsSize o0 /\ o_body o = o_body o0 /\ Z.land (o_tags o) 219 = Z.land (o_tags o0) 219.

#[export] Instance retagged_preorder : PreOrder retagged.
Proof.
  split; [by intros o|]. intros o1 o2 o3 (A1 & A2 & A3 & A4 & A5 & A6) (B1 & B2 & B3 & B4 & B5 & B6).
  split_and!; congruence.
Qed.

Lemma retagged_add t o : Z.land t 219 = 0 -> retagged o (add_tag t o).
Proof. intros Ht. split_and!; try done. cbn [add_tag set_tags o_tags]. by rewrite Z.land_lor_distr_l, Ht, Z.lor_0_r. Qed.

Lemma retagged_clear t o : Z.land (Z.lxor 255 t) 219 = 219 -> retagged o (clear_tag t o).
Proof. intros Ht. split_and!; try done. cbn [clear_tag set_tags o_tags]. by rewrite <- Z.land_assoc, Ht. Qed.

Lemma marked_tags o : has_tag TAG_MARKED (add_tag TAG_MARKED o) = true /\
  has_tag TAG_REMEMBERED (add_tag TAG_MARKED o) = has_tag TAG_REMEMBERED o.
Proof.
  change (has_tag (2 ^ 2) (add_tag (2 ^ 2) o) = true /\ has_tag (2 ^ 5) (add_tag (2 ^ 2) o) = has_tag (2 ^ 5) o).
  by rewrite !add_tag_bit by lia.
Qed.

Lemma forgotten_tags o : has_tag TAG_MARKED (clear_tag TAG_REMEMBERED o) = has_tag TAG_MARKED o /\
  has_tag TAG_REMEMBERED (clear_tag TAG_REMEMBERED o) = false.
Proof.
  change (has_tag (2 ^ 2) (clear_tag (2 ^ 5) o) = has_tag (2 ^ 2) o /\ has_tag (2 ^ 5) (clear_tag (2 ^ 5) o) = false).
  by rewrite !clear_tag_bit by lia.
Qed.

Lemma remembered_tags o : has_tag TAG_MARKED (add_tag TAG_REMEMBERED o) = has_tag TAG_MARKED o /\
  has_tag TAG_REMEMBERED (add_tag TAG_REMEMBERED o) = true.
Proof.
  change (has_tag (2 ^ 2) (add_tag (2 ^ 5) o) = has_tag (2 ^ 2) o /\ has_tag (2 ^ 5) (add_tag (2 ^ 5) o) = true).
  by rewrite !add_tag_bit by lia.
Qed.

(** ** The queue holds a list *)

Definition queue_holds (q : MarkingQueue) (l : list Z) : Prop :=
  (q_index q <= length (q_objects q))%nat /\ take (q_index q) (q_objects q) = l.

Lemma queue_add q l x : queue_holds q l -> exists q', markingQueueAdd q x = Some q' /\ queue_holds q' (l ++ [x]).
Proof.
  intros [Hi Hl]. unfold markingQueueAdd. set (objects := if (length _ =? _)%nat then _ else _).
  assert (q_index q < length objects)%nat as Hlt.
  { unfold objects. destruct (Nat.eqb_spec (length (q_objects q)) (q_index q)); [rewrite length_app, length_replicate; unfold QUEUE_INIT_SIZE|]; lia. }
  assert (take (q_index q) objects = l) as Ht by (unfold objects; destruct (_ =? _)%nat; [by rewrite take_app_le by lia|done]).
  rewrite put_Some by done. eexists; split; [done|]. split; cbn [q_index q_objects]; [rewrite length_insert; lia|].
  rewrite (take_S_r _ _ x) by (by apply list_lookup_insert_eq). by rewrite take_insert_ge, Ht by lia.
Qed.

Lemma queue_pop q l x : queue_holds q (l ++ [x]) -> exists q', markingQueuePop q = Some (x, q') /\ queue_holds q' l.
Proof.
  intros [Hi Hl]. pose proof (f_equal length Hl) as Hn. rewrite length_take_le, length_app in Hn by lia. cbn [length] in Hn.
  unfold markingQueuePop. destruct (q_index q) as [|i]; [lia|].
  assert (length l = i) as E by lia. assert (q_objects q !! i = Some x) as Hx.
  { rewrite <- (lookup_take_lt _ (S i)) by lia. by rewrite Hl, lookup_app_r, E, Nat.sub_diag by lia. }
  rewrite Hx. cbn [mbind option_bind]. eexists; split; [done|]. split; cbn [q_index q_objects]; [lia|].
  rewrite (take_S_r _ _ x Hx) in Hl. by apply app_inj_tail in Hl as [? _].
Qed.

Lemma queue_empty q l : queue_holds q l -> markingQueueIsEmpty q = bool_decide (l = []).
Proof.
  intros [Hi <-]. unfold markingQueueIsEmpty. apply eq_true_iff_eq. rewrite Nat.eqb_eq, bool_decide_eq_true.
  rewrite <- length_zero_iff_nil, length_take_le by done. done.
Qed.

(** ** The invariant *)

Section Marks.
Context `{Target} (heap : Heap) (m0 : Memory) (root : Z -> Prop).

Definition reachable (b : Z) : Prop := exists a, root a /\ rtc (edge m0) a b.

(** What the reachable part of the heap must be. *)
Record live_wf (a : Z) (o : RawObject) : Prop := {
  lv_object : object_wf m0 a o;
  lv_unmarked : has_tag TAG_MARKED o = false;
  lv_object_tag : has_tag TAG_FREESPACE o = false;
  lv_old : isNewObject a = false -> pageSpaceIncludes (g_pages heap) a = Some true;
  lv_young : isNewObject a = true -> g_fromSpace heap mod 8 = 0 /\ g_fromSpace heap <= a <= g_fromSpace heap + g_size heap }.

Context (WF : forall a, reachable a -> exists o, m0 !! a = Some o /\ live_wf a o).

(** [M]: the marked objects; [C]: the one being scanned; [B]: those scanned. *)
Record marking (M C B : list Z) (s : Marker) : Prop := {
  mk_white : forall a, a ∉ M -> k_mem s !! a = m0 !! a;
  mk_marked : forall a, a ∈ M -> reachable a /\ exists o0 o, m0 !! a = Some o0 /\ k_mem s !! a = Some o /\
    retagged o0 o /\ has_tag TAG_MARKED o = true /\ (a ∈ B -> has_tag TAG_REMEMBERED o = true <-> a ∈ k_remembered s);
  mk_nodup : NoDup M;
  mk_queue : exists Q, queue_holds (k_queue s) Q /\ M ≡ₚ Q ++ C ++ B;
  mk_black : forall a b, a ∈ B -> edge m0 a b -> b ∈ M;
  mk_set : NoDup (k_remembered s) /\
    forall a, a ∈ k_remembered s <-> a ∈ B /\ isOldObject a = true /\ young_referent m0 a;
  mk_count : k_marked s = u64 (Z.of_nat (length M)) }.

Lemma reach_edge a b : reachable a -> edge m0 a b -> reachable b.
Proof. intros (r & Hr & Hp) He. exists r. split; [done|]. by eapply rtc_r. Qed.

Lemma edge_class a o : m0 !! a = Some o -> edge m0 a (o_class o).
Proof. intros Ha. exists o. split; [done|by left]. Qed.

(** Every object is there, as it was but for its tags. *)
Lemma mem_at M C B s a o0 : marking M C B s -> m0 !! a = Some o0 -> exists o, k_mem s !! a = Some o /\ retagged o0 o.
Proof.
  intros I Ha. destruct (decide (a ∈ M)) as [Hin|Hin].
  - destruct (mk_marked _ _ _ _ I a Hin) as (_ & o0' & o & E & Ho & R & _). rewrite Ha in E. injection E as <-. by exists o.
  - exists o0. by rewrite (mk_white _ _ _ _ I a Hin).
Qed.

Lemma mem_none M C B s a : marking M C B s -> m0 !! a = None -> k_mem s !! a = None.
Proof.
  intros I Ha. destruct (decide (a ∈ M)) as [Hin|Hin].
  - destruct (mk_marked _ _ _ _ I a Hin) as (_ & o0 & _ & E & _). congruence.
  - by rewrite (mk_white _ _ _ _ I a Hin).
Qed.

Lemma mem_size M C B s : marking M C B s -> base.size (k_mem s) = base.size m0.
Proof.
  intros I. rewrite <- !size_dom. f_equal. apply leibniz_equiv. intros a. rewrite !elem_of_dom.
  destruct (m0 !! a) as [o0|] eqn:Ha.
  - destruct (mem_at _ _ _ _ _ _ I Ha) as (o & -> & _). done.
  - by rewrite (mem_none _ _ _ _ _ I Ha).
Qed.

Lemma shape_at M C B s c : marking M C B s -> instanceShape (k_mem s) c = instanceShape m0 c.
Proof.
  intros I. unfold instanceShape. destruct (m0 !! c) as [o0|] eqn:Hc.
  - destruct (mem_at _ _ _ _ _ _ I Hc) as (o & -> & (_ & _ & _ & _ & E & _)). cbn [mbind option_bind]. by rewrite E.
  - by rewrite (mem_none _ _ _ _ _ I Hc).
Qed.

Lemma count_at shape o0 o : retagged o0 o -> varsCount shape o = varsCount shape o0.
Proof. intros (_ & _ & _ & _ & E & _). unfold varsCount, rawObjectSize. by rewrite E. Qed.

(** ** Marking one object *)

Lemma markObject_ok M C B s x : marking M C B s -> reachable x ->
  exists M' s', markObject heap s x = Some s' /\ marking M' C B s' /\ M ⊆ M' /\ x ∈ M'.
Proof.
  intros I Hx. destruct (WF x Hx) as (o0 & Hx0 & W). unfold markObject.
  assert (isOldObject x || youngIncludes heap x = true) as ->.
  { rewrite isOld_negb. destruct (isNewObject x) eqn:En; [|done]. destruct (lv_young _ _ W En) as (_ & ? & ?). unfold youngIncludes. cbn [negb orb].
    apply andb_true_iff. rewrite !Z.leb_le. lia. }
  cbn [ASSERT mbind option_bind]. destruct (decide (x ∈ M)) as [Hin|Hin].
  { destruct (mk_marked _ _ _ _ I x Hin) as (_ & o0' & o & _ & Ho & _ & Hm & _). rewrite Ho. cbn [mbind option_bind].
    rewrite Hm. by exists M, s. }
  rewrite (mk_white _ _ _ _ I x Hin), Hx0. cbn [mbind option_bind]. rewrite (lv_unmarked _ _ W).
  destruct (mk_queue _ _ _ _ I) as (Q & HQ & HM). destruct (queue_add _ _ x HQ) as (q & -> & Hq). cbn [mbind option_bind].
  eexists (x :: M), _. split; [done|]. split; [|split; [set_solver|left]].
  assert (x ∉ B) as HxB by (intros HB; apply Hin; rewrite HM; set_solver).
  constructor; cbn [k_mem k_queue k_remembered k_marked].
  - intros a Ha. rewrite lookup_insert_ne by set_solver. apply (mk_white _ _ _ _ I). set_solver.
  - intros a [->|Ha]%elem_of_cons.
    + split; [done|]. exists o0, (add_tag TAG_MARKED o0). rewrite lookup_insert_eq. split; [done|]. split; [done|].
      split; [by apply retagged_add|]. split; [apply marked_tags|done].
    + rewrite lookup_insert_ne by congruence. by apply (mk_marked _ _ _ _ I).
  - constructor; [done|apply (mk_nodup _ _ _ _ I)].
  - exists (Q ++ [x]). split; [done|]. rewrite HM. by rewrite <- Permutation_cons_append.
  - intros a b Ha Hb. right. by apply (mk_black _ _ _ _ I a).
  - apply (mk_set _ _ _ _ I).
  - rewrite (mk_count _ _ _ _ I). cbn [length]. unfold u64. rewrite Zplus_mod_idemp_l. f_equal. lia.
Qed.

(** A pointer value, as the object it leads to. *)
Lemma asObject_reach v : reachable (v - 1) -> asObject v = Some (v - 1).
Proof.
  intros Hr. destruct (WF _ Hr) as (o & _ & W). replace v with (v - 1 + 1) at 1 by lia.
  apply asObject_addr, (w_addr _ _ _ (lv_object _ _ W)).
Qed.

(** ** Scanning one object *)

(** The edges of [a] seen after [k] of its variables. *)
Definition seen (o : RawObject) (base k : nat) (b : Z) : Prop :=
  b = o_class o \/ exists j v, (j < k)%nat /\ o_body o !! (base + j)%nat = Some v /\ valueTypeOf v VALUE_POINTER = true /\ b = v - 1.

Lemma seen_all a o shape n b : m0 !! a = Some o -> instanceShape m0 (o_class o) = Some shape -> varsCount shape o = Some n ->
  edge m0 a b <-> seen o (getRawObjectVars shape) n b.
Proof.
  intros Ha Hs Hn. unfold edge, seen. split.
  - intros (o' & E & [->|(i & v & (sh & k & Hsh & Hk & Hi) & Hv & Hp & ->)]); rewrite Ha in E; injection E as <-; [by left|right].
    rewrite Hs in Hsh. injection Hsh as <-. rewrite Hn in Hk. injection Hk as <-.
    exists (i - getRawObjectVars shape)%nat, v. replace (getRawObjectVars shape + (i - getRawObjectVars shape))%nat with i by lia.
    split; [lia|done].
  - intros [->|(j & v & Hj & Hv & Hp & ->)]; exists o; (split; [done|]); [by left|right].
    exists (getRawObjectVars shape + j)%nat, v. split; [|done]. exists shape, n. split_and!; done || lia.
Qed.

Lemma seen_S o base k b v : o_body o !! (base + k)%nat = Some v ->
  seen o base (S k) b <-> seen o base k b \/ (valueTypeOf v VALUE_POINTER = true /\ b = v - 1).
Proof.
  intros Hv. unfold seen. split.
  - intros [->|(j & w & Hj & Hw & Hp & ->)]; [by left; left|]. destruct (decide (j = k)) as [->|Hne].
    + rewrite Hv in Hw. injection Hw as <-. by right.
    + left. right. exists j, w. split; [lia|done].
  - intros [[->|(j & w & Hj & Hw & Hp & ->)]|[Hp ->]]; [by left| |]; right; [exists j, w|exists k, v]; (split; [lia|done]).
Qed.

(** The state while [a] is scanned: what was seen is marked, and [r] says
    whether any of it is young. *)
Definition scanning (M0 B : list Z) (a : Z) (o0 : RawObject) (base k : nat) (s : Marker) (r : bool) : Prop :=
  exists M, marking M [a] B s /\ M0 ⊆ M /\ (forall b, seen o0 base k b -> b ∈ M) /\
    (r = true <-> exists b, seen o0 base k b /\ isNewObject b = true).

Lemma scan_var M0 B a o0 base k s r v :
  m0 !! a = Some o0 -> reachable a -> o_body o0 !! (base + k)%nat = Some v ->
  (valueTypeOf v VALUE_POINTER = true -> edge m0 a (v - 1)) -> scanning M0 B a o0 base k s r ->
  exists s' r', (o ← k_mem s !! a; w ← o_body o !! (base + k)%nat;
      if valueTypeOf w VALUE_POINTER then object ← asObject w; s ← markObject heap s object; Some (s, r || isNewObject object)
      else Some (s, r)) = Some (s', r') /\ scanning M0 B a o0 base (S k) s' r'.
Proof.
  intros Ha Hr Hv He (M & I & Hsub & Hseen & Hnew). destruct (mem_at _ _ _ _ _ _ I Ha) as (o & -> & (_ & _ & _ & _ & Eb & _)).
  cbn [mbind option_bind]. rewrite Eb, Hv. cbn [mbind option_bind].
  destruct (valueTypeOf v VALUE_POINTER) eqn:Ev.
  - pose proof (reach_edge _ _ Hr (He eq_refl)) as Hrv. rewrite (asObject_reach v Hrv). cbn [mbind option_bind].
    destruct (markObject_ok M [a] B s (v - 1) I Hrv) as (M' & s' & -> & I' & Hsub' & Hin). cbn [mbind option_bind].
    eexists _, _. split; [done|]. exists M'. split; [done|]. split; [set_solver|]. setoid_rewrite (seen_S _ _ _ _ _ Hv). split.
    + intros b [Hb|[_ ->]]; [by apply Hsub', Hseen|done].
    + rewrite orb_true_iff, Hnew. split.
      * intros [(b & Hb & Hn)|Hn]; [exists b; split; [by left|done]|exists (v - 1); split; [by right|done]].
      * intros (b & [Hb|[_ ->]] & Hn); [left; by exists b|by right].
  - eexists _, _. split; [done|]. exists M. split; [done|]. split; [done|]. setoid_rewrite (seen_S _ _ _ _ _ Hv). split.
    + intros b [Hb|[Hp _]]; [by apply Hseen|congruence].
    + rewrite Hnew. split; intros (b & Hb & Hn); exists b; (split; [|done]); [by left|]. by destruct Hb as [|[? _]]; [|congruence].
Qed.

(** [a] is scanned: its tag and the set are as they should be. *)
Lemma scan_end M B a o s set t :
  marking M [a] B s -> k_mem s !! a = Some o -> (forall b, edge m0 a b -> b ∈ M) ->
  set = (if bool_decide (t = true) then k_remembered s ++ [a] else k_remembered s) ->
  (t = true <-> isOldObject a = true /\ young_referent m0 a) -> forall o',
  retagged o o' -> has_tag TAG_MARKED o' = has_tag TAG_MARKED o -> has_tag TAG_REMEMBERED o' = t ->
  marking M [] (a :: B) (mkMarker (<[a := o']> (k_mem s)) (k_queue s) set (k_marked s)).
Proof.
  intros I Ho Hb Es Ht o' R Hm Hg. destruct (mk_queue _ _ _ _ I) as (Q & HQ & HM). pose proof (mk_nodup _ _ _ _ I) as ND.
  pose proof ND as ND'. rewrite HM in ND'. cbn [app] in ND'. apply NoDup_app in ND' as (_ & _ & [HaB NDB]%NoDup_cons).
  assert (a ∈ M) as HaM by (rewrite HM; set_solver).
  destruct (mk_marked _ _ _ _ I a HaM) as (Hra & o0 & o1 & Ho0 & Ho1 & R1 & Hm1 & _). rewrite Ho in Ho1. injection Ho1 as <-.
  destruct (mk_set _ _ _ _ I) as (NDn & Hn). assert (a ∉ k_remembered s) as Han by (rewrite Hn; tauto).
  assert (forall b, b ∈ set <-> b ∈ k_remembered s \/ (t = true /\ b = a)) as Hset.
  { intros b. rewrite Es. destruct t; cbn [bool_decide]; [rewrite bool_decide_eq_true_2 by done|rewrite bool_decide_eq_false_2 by done]; set_solver. }
  constructor; cbn [k_mem k_queue k_remembered k_marked].
  - intros b Hbn. rewrite lookup_insert_ne by congruence. by apply (mk_white _ _ _ _ I).
  - intros b HbM. destruct (decide (b = a)) as [->|Hne].
    + split; [done|]. exists o0, o'. rewrite lookup_insert_eq. split; [done|]. split; [done|]. split; [by transitivity o|].
      split; [congruence|]. intros _. rewrite Hg, Hset. split; [by right|]. by intros [HH|[? _]].
    + rewrite lookup_insert_ne by done. destruct (mk_marked _ _ _ _ I b HbM) as (H1 & p0 & p & H2 & H3 & H4 & H5 & H6).
      split; [done|]. exists p0, p. split_and!; try done. intros [->|HbB]%elem_of_cons; [done|]. rewrite Hset. rewrite (H6 HbB).
      split; [by left|]. intros [|[_ ->]]; done.
  - done.
  - exists Q. split; [done|]. by rewrite HM.
  - intros b c [->|HbB]%elem_of_cons He; [by apply Hb|by apply (mk_black _ _ _ _ I b)].
  - destruct t; rewrite Es.
    + rewrite bool_decide_eq_true_2 by done. split.
      * apply NoDup_app. split; [done|]. split; [set_solver|apply NoDup_singleton].
      * intros b. rewrite elem_of_app, Hn, list_elem_of_singleton, elem_of_cons. split; [|tauto].
        intros [(? & ? & ?)| ->]; [tauto|]. split; [by left|by apply Ht].
    + rewrite bool_decide_eq_false_2 by done. split; [done|]. intros b. rewrite Hn, elem_of_cons. split; [tauto|].
      intros ([->|?] & ? & ?); [|tauto]. by assert (false = true) by (apply Ht; tauto).
  - apply (mk_count _ _ _ _ I).
Qed.

Lemma iterateObject_ok M B s a : marking M [a] B s ->
  exists M' s', iterateObject heap s a = Some s' /\ marking M' [] (a :: B) s' /\ M ⊆ M'.
Proof.
  intros I. assert (a ∈ M) as HaM by (destruct (mk_queue _ _ _ _ I) as (Q & _ & ->); set_solver).
  destruct (mk_marked _ _ _ _ I a HaM) as (Hra & o0 & o & Ho0 & Ho & R & _). destruct (WF a Hra) as (o0' & E & W).
  rewrite Ho0 in E. injection E as <-. destruct (w_shape _ _ _ (lv_object _ _ W)) as (shape & n & _ & Hsh & Hn & Hlen & _).
  unfold iterateObject. rewrite Ho. cbn [mbind option_bind]. destruct R as (Ec & _). rewrite Ec.
  pose proof (edge_class _ _ Ho0) as Hec. pose proof (reach_edge _ _ Hra Hec) as Hrc.
  destruct (markObject_ok M [a] B s _ I Hrc) as (M1 & s1 & -> & I1 & Hsub1 & Hin1). cbn [mbind option_bind].
  destruct (mem_at _ _ _ _ _ _ I1 Ho0) as (o1 & -> & R1). cbn [mbind option_bind]. pose proof R1 as (-> & _).
  rewrite (shape_at _ _ _ _ _ I1), Hsh. cbn [mbind option_bind]. rewrite (count_at shape _ _ R1), Hn. cbn [mbind option_bind].
  pose proof (seen_all a o0 shape n) as Hse. set (base := getRawObjectVars shape) in *.
  match goal with |- context [for_up n 0 ?b ?st] =>
    destruct (for_up_rule (fun k '(s', r) => scanning M B a o0 base k s' r) n 0 b st) as ([s2 r2] & E2 & SC) end.
  - exists M1. split; [done|]. split; [done|]. unfold seen. split.
    + intros b [->|(j & v & Hj & _)]; [done|lia].
    + split; [intros Hb; exists (o_class o0); split; [by left|done]|]. by intros (b & [->|(j & v & Hj & _)] & Hb); [|lia].
  - intros k [s' r'] [_ Hk] SC. assert (is_Some (o_body o0 !! (base + k)%nat)) as [v Hv] by (apply lookup_lt_is_Some; lia).
    destruct (scan_var M B a o0 base k s' r' v Ho0 Hra Hv) as (s'' & r'' & E & SC'); [|done|by exists (s'', r'')].
    intros Hp. apply Hse; [done..|]. right. exists k, v. split; [lia|done].
  - rewrite E2. cbn [mbind option_bind Nat.add] in *. destruct SC as (M2 & I2 & Hsub2 & Hseen & Hnew).
    destruct (mem_at _ _ _ _ _ _ I2 Ho0) as (o2 & Ho2 & R2). rewrite Ho2. cbn [mbind option_bind]. unfold rememberObject.
    cbn [k_mem k_queue k_remembered k_marked].
    assert (forall b, edge m0 a b -> b ∈ M2) as Hall by (intros b Hb; by apply Hseen, Hse).
    assert (r2 = true <-> young_referent m0 a) as Hy.
    { rewrite Hnew. unfold young_referent. by setoid_rewrite (Hse _ Ho0 Hsh Hn). }
    destruct (forgotten_tags o2) as [Hm Hg]. assert (retagged o2 (clear_tag TAG_REMEMBERED o2)) as Rc by by apply retagged_clear.
    exists M2. destruct (r2 && isOldObject a) eqn:Er.
    + rewrite lookup_insert_eq. cbn [mbind option_bind]. rewrite Hg. cbn [negb ASSERT mbind option_bind]. rewrite insert_insert_eq.
      eexists. split; [done|]. split; [|done]. apply (scan_end _ _ _ o2 _ _ true); try done.
      * apply andb_true_iff in Er. tauto.
      * etransitivity; [exact Rc|by apply retagged_add].
      * by rewrite (proj1 (remembered_tags _)).
      * apply remembered_tags.
    + eexists. split; [done|]. split; [|done]. apply (scan_end _ _ _ o2 _ _ false); try done.
      split; [done|]. intros [Ho' Hy']. apply Hy in Hy'. by rewrite Hy', Ho' in Er.
Qed.

(** ** Emptying the queue *)

Lemma scanned_bound M C B s : marking M C B s -> (length M <= base.size m0)%nat.
Proof.
  intros I. rewrite <- size_dom. pose proof (mk_nodup _ _ _ _ I) as ND.
  rewrite <- (size_list_to_set (C := gset Z) M ND). apply subseteq_size. intros a Ha%elem_of_list_to_set.
  destruct (mk_marked _ _ _ _ I a Ha) as (_ & o0 & _ & E & _). apply elem_of_dom. by eexists.
Qed.

Lemma queue_last q Q : queue_holds q Q -> Q = [] \/ exists Q' x, Q = Q' ++ [x].
Proof. intros _. destruct Q as [|x l _] using rev_ind; [by left|right]. by exists l, x. Qed.

(** Each turn scans an object that was not scanned before. *)
Lemma drain_ok fuel M B s : marking M [] B s -> (base.size m0 < fuel + length B)%nat ->
  exists M' s', drain heap fuel s = Some s' /\ marking M' [] M' s' /\ M ⊆ M'.
Proof.
  revert M B s. induction fuel as [|fuel IH]; intros M B s I Hf; pose proof (scanned_bound _ _ _ _ I) as Hb;
    destruct (mk_queue _ _ _ _ I) as (Q & HQ & HM); pose proof (Permutation_length HM) as HL; rewrite length_app in HL; cbn [app] in HM, HL.
  { lia. }
  unfold drain. cbn [loop]. rewrite (queue_empty _ _ HQ). destruct (queue_last _ _ HQ) as [->|(Q' & x & ->)].
  - cbn [mbind option_bind]. exists M, s. split; [done|]. split; [|done]. cbn [app] in HM. destruct I. constructor; try done.
    + intros a Ha. destruct (mk_marked0 a Ha) as (H1 & p0 & p & H2 & H3 & H4 & H5 & H6). split; [done|]. exists p0, p. split_and!; try done.
      intros _. apply H6. by rewrite <- HM.
    + by exists [].
    + intros a b. rewrite HM at 1. by apply mk_black0.
    + destruct mk_set0 as (H2 & H3). split; [done|]. intros a. by rewrite HM.
  - rewrite bool_decide_eq_false_2 by (by destruct Q'). destruct (queue_pop _ _ _ HQ) as (q & -> & Hq). cbn [mbind option_bind].
    assert (marking M [x] B (mkMarker (k_mem s) q (k_remembered s) (k_marked s))) as I1.
    { destruct I. constructor; try done. exists Q'. split; [done|]. rewrite HM, <- app_assoc. done. }
    destruct (iterateObject_ok _ _ _ _ I1) as (M' & s' & -> & I' & Hs). cbn [mbind option_bind].
    destruct (IH _ _ _ I') as (M'' & s'' & E & I'' & Hs'); [cbn [length]; lia|]. exists M'', s''. split; [exact E|]. split; [done|]. set_solver.
Qed.

(** At the end exactly the reachable objects are marked. *)
Lemma marked_all M s : marking M [] M s -> (forall x, root x -> x ∈ M) -> forall a, a ∈ M <-> reachable a.
Proof.
  intros I HR a. split; [intros Ha; by apply (mk_marked _ _ _ _ I)|]. intros (x & Hx & Hp). apply HR in Hx.
  induction Hp as [|x y z He _ IH]; [done|]. apply IH. by apply (mk_black _ _ _ _ I x).
Qed.

(** ** Plausible roots *)

Context (IX : index_ok (g_pages heap)).

(** An old address that is no object any more: misaligned, in a page that was
    unmapped, or a free chunk. *)
Definition stale (x : Z) : Prop :=
  isOldObject x = true /\
  (Z.land (Z.ldiff x SPACE_TAG) (HEAP_OBJECT_ALIGN - 1) <> 0 \/ pageSpaceIncludes (g_pages heap) x = Some false \/
   (m0 !! x = None /\ exists fs, g_free heap !! x = Some fs /\ fs_tags fs = TAG_FREESPACE)).

(** What the check of a stack slot lets through: objects up to a gigabyte.
    It strips the space bit of the class and of its class, so that neither may
    be the very first place of a young space that starts at an odd word. *)
Record passes (x : Z) : Prop := {
  ps_size : forall o size, m0 !! x = Some o -> computeRawObjectSize m0 o = Some size -> size <= 2 ^ 30;
  ps_class : forall o, m0 !! x = Some o -> o_class o <> g_fromSpace heap;
  ps_metaclass : forall o c, m0 !! x = Some o -> m0 !! o_class o = Some c -> o_class c <> g_fromSpace heap }.

Lemma includes_some x : exists b, pageSpaceIncludes (g_pages heap) x = Some b.
Proof. rewrite (includes_find _ _ IX). by eexists. Qed.

Lemma mapped_live a : reachable a -> a <> g_fromSpace heap -> mappedClass heap a = Some true.
Proof.
  intros Hr Hne. destruct (WF a Hr) as (o & Ho & W). destruct (strip_space a (w_addr _ _ _ (lv_object _ _ W))) as [Es El].
  unfold mappedClass. rewrite El, Z.eqb_refl, Es. cbn [negb]. destruct (isNewObject a) eqn:En.
  - destruct (includes_some (a - 8)) as (b & ->). cbn [mbind option_bind]. destruct (lv_young _ _ W En) as (Hm & ? & ?).
    unfold youngIncludes. assert (g_fromSpace heap <= a - 8).
    { pose proof (proj2 (w_addr _ _ _ (lv_object _ _ W))). pose proof (Z.div_mod a 8 ltac:(lia)). pose proof (Z.div_mod (g_fromSpace heap) 8 ltac:(lia)). lia. }
    destruct (Z.leb_spec (g_fromSpace heap) (a - 8)); [|lia]. destruct (Z.leb_spec (a - 8) (g_fromSpace heap + g_size heap)); [|lia].
    by rewrite orb_true_r.
  - by rewrite (lv_old _ _ W En).
Qed.

Lemma size_at M C B s o0 o : marking M C B s -> retagged o0 o -> computeRawObjectSize (k_mem s) o = computeRawObjectSize m0 o0.
Proof.
  intros I (Ec & _ & _ & _ & Eb & _). unfold computeRawObjectSize, rawObjectSize. by rewrite Ec, Eb, (shape_at _ _ _ _ _ I).
Qed.

Lemma plain_tags o0 o : retagged o0 o -> has_tag TAG_FREESPACE o0 = false -> has_tag TAG_FORWARDED o0 = false ->
  Z.land (o_tags o) (Z.lor TAG_FREESPACE TAG_FORWARDED) = 0.
Proof.
  intros (_ & _ & _ & _ & _ & E) H1%negb_false_iff%Z.eqb_eq H2%negb_false_iff%Z.eqb_eq.
  rewrite Z.land_lor_distr_r. unfold TAG_FREESPACE, TAG_FORWARDED in *.
  change 1 with (Z.land 219 1). change 8 with (Z.land 219 8). rewrite !Z.land_assoc, E, <- !Z.land_assoc.
  change (Z.land 219 1) with 1. change (Z.land 219 8) with 8. by rewrite H1, H2.
Qed.

(** An object passes the check, a stale address does not. *)
Lemma plausible_live M C B s x : marking M C B s -> reachable x -> isOldObject x = true -> passes x ->
  plausibleOldMarkRoot heap s x = Some true.
Proof.
  intros I Hr Ho Hz. destruct (WF x Hr) as (o0 & Hx & W). pose proof (lv_object _ _ W) as OW.
  rewrite isOld_negb in Ho. apply negb_true_iff in Ho. unfold plausibleOldMarkRoot.
  rewrite (proj2 (strip_space x (w_addr _ _ _ OW))), Z.eqb_refl, (lv_old _ _ W Ho). cbn [negb mbind option_bind]. unfold tags_at.
  destruct (mem_at _ _ _ _ _ _ I Hx) as (o & -> & R). cbn [mbind option_bind].
  rewrite (plain_tags _ _ R (lv_object_tag _ _ W) (proj1 (w_tags _ _ _ OW))). cbn [Z.eqb negb].
  pose proof (reach_edge _ _ Hr (edge_class _ _ Hx)) as Hrc. destruct (WF _ Hrc) as (c0 & Hc & _).
  pose proof (reach_edge _ _ Hrc (edge_class _ _ Hc)) as Hrm. rewrite (size_at _ _ _ _ _ _ I R). pose proof R as (-> & _).
  rewrite (mapped_live _ Hrc (ps_class _ Hz _ Hx)). cbn [mbind option_bind negb]. destruct (mem_at _ _ _ _ _ _ I Hc) as (c & -> & (Ec & _)).
  cbn [mbind option_bind]. rewrite Ec, (mapped_live _ Hrm (ps_metaclass _ Hz _ _ Hx Hc)). cbn [mbind option_bind negb].
  destruct (w_shape _ _ _ OW) as (shape & n & size & _ & _ & _ & Hs & Ha). rewrite Hs. cbn [mbind option_bind].
  pose proof (ps_size _ Hz o0 size Hx Hs) as Hz'. assert (0 <= size) as H0.
  { unfold computeRawObjectSize in Hs. destruct (instanceShape m0 (o_class o0)) as [sh|]; [|done]. cbn [mbind option_bind] in Hs.
    destruct (rawObjectSize sh o0) as [k|]; [|done]. cbn [mbind option_bind] in Hs. injection Hs as <-. apply u64_range. }
  assert (size <> 0) by (intros ->; change (align 0 HEAP_OBJECT_ALIGN) with 0 in Ha; unfold HEADER_SIZE in Ha; lia).
  destruct (Z.ltb_spec 0 size); [|lia]. by destruct (Z.leb_spec size (2 ^ 30)); [|lia].
Qed.

Lemma plausible_stale M C B s x : marking M C B s -> stale x -> plausibleOldMarkRoot heap s x = Some false.
Proof.
  intros I [Ho Hs]. unfold plausibleOldMarkRoot. destruct (Z.eqb_spec (Z.land (Z.ldiff x SPACE_TAG) (HEAP_OBJECT_ALIGN - 1)) 0) as [E|]; [|done].
  cbn [negb]. destruct (includes_some x) as ([] & Eb); rewrite Eb; cbn [mbind option_bind negb]; [|done].
  destruct Hs as [|[|(Hm & fs & Hf & Ht)]]; [done|congruence|]. unfold tags_at. rewrite (mem_none _ _ _ _ _ I Hm), Hf.
  cbn [fmap option_fmap option_map mbind option_bind]. by rewrite Ht.
Qed.

(** ** The roots *)

Context (CW : forall n v, g_cells heap !! n = Some v -> 0 <= v < 2 ^ 64).

(** The object that a cell of each kind leads to. *)
Definition names (k : RootKind) (v x : Z) : Prop :=
  match k with
  | KHandle => x = v
  | KCode => v <> 0 /\ x = v
  | KSite => x = if valueTypeOf v VALUE_POINTER then v - 1 else v
  | KExit | KField => valueTypeOf v VALUE_POINTER = true /\ x = v - 1
  | KStack => valueTypeOf v VALUE_POINTER = true /\ x = v - 1 /\ ~ stale x
  | KHead | KHandler _ => v <> 0 /\ x = v - 1
  end.

(** A stack slot holds an object or a stale address; the head of a chain a
    pointer or 0. *)
Definition cell_ok (c : Root) : Prop :=
  exists v, g_cells heap !! c.1 = Some v /\
    match c.2 with
    | KStack => valueTypeOf v VALUE_POINTER = true -> isNewObject (v - 1) = true \/ stale (v - 1) \/ (~ stale (v - 1) /\ passes (v - 1))
    | _ => True
    end.

(** The chain of handlers from [v]. *)
Fixpoint handler_chain (v : Z) (l : list Z) : Prop :=
  match l with
  | [] => v = 0
  | h :: l => v <> 0 /\ h = v - 1 /\ exists o p, m0 !! h = Some o /\ in_vars m0 o HANDLER_PARENT /\
      o_body o !! HANDLER_PARENT = Some p /\ (p = 0 \/ valueTypeOf p VALUE_POINTER = true) /\ handler_chain p l
  end.

Definition chain_ok (n : nat) : Prop := exists v l, g_cells heap !! n = Some v /\ handler_chain v l /\ NoDup l.

Context (cell : Root -> Prop) (CO : forall c, cell c -> cell_ok c).
Context (RO : forall n k v x, cell (n, k) -> g_cells heap !! n = Some v -> names k v x -> root x).

(** [f] marks what the cells in [K] lead to. *)
Definition covers (f : Marker -> option Marker) (K : Root -> Prop) : Prop :=
  forall M s, marking M [] [] s -> exists M' s', f s = Some s' /\ marking M' [] [] s' /\ M ⊆ M' /\
    forall n k v x, K (n, k) -> g_cells heap !! n = Some v -> names k v x -> x ∈ M'.

Lemma covers_nothing (K : Root -> Prop) : (forall c, ~ K c) -> covers Some K.
Proof. intros HK M s I. exists M, s. split_and!; try done. intros n k v x Hc. by destruct (HK (n, k)). Qed.

Lemma covers_seq f g K1 K2 : covers f K1 -> covers g K2 -> covers (fun s => s ← f s; g s) (fun c => K1 c \/ K2 c).
Proof.
  intros Hf Hg M s I. destruct (Hf M s I) as (M1 & s1 & -> & I1 & S1 & C1). cbn [mbind option_bind].
  destruct (Hg M1 s1 I1) as (M2 & s2 & -> & I2 & S2 & C2). exists M2, s2. split; [done|]. split; [done|]. split; [set_solver|].
  intros n k v x [Hk|Hk] Hv Hn; [apply S2; by apply (C1 n k v)|by apply (C2 n k v)].
Qed.

Lemma covers_weaken f (K K' : Root -> Prop) : (forall c, K' c -> K c) -> covers f K -> covers f K'.
Proof.
  intros HK Hf M s I. destruct (Hf M s I) as (M' & s' & E & I' & S & C). exists M', s'. split_and!; try done.
  intros n k v x Hk. apply C. by apply HK.
Qed.

Lemma covers_fold {A} (f : Marker -> A -> option Marker) (K : A -> Root -> Prop) (l : list A) :
  (forall a, a ∈ l -> covers (fun s => f s a) (K a)) -> covers (fun s => fold_marks f s l) (fun c => exists a, a ∈ l /\ K a c).
Proof.
  induction l as [|a l IH]; intros Hf.
  - apply covers_nothing. intros c (a & Ha & _). by apply not_elem_of_nil in Ha.
  - eapply covers_weaken; [|apply (covers_seq (fun s => f s a) (fun s => fold_marks f s l)); [apply Hf; left|apply IH; intros; apply Hf; by right]].
    intros c (b & [->|Hb]%elem_of_cons & Hk); [by left|right; by exists b].
Qed.

(** One cell: reading it and marking what it leads to. *)
Lemma covers_mark n k (f : Marker -> Z -> option Marker) : cell (n, k) ->
  (forall M s v, marking M [] [] s -> g_cells heap !! n = Some v -> (forall x, names k v x -> reachable x) ->
     exists M' s', f s v = Some s' /\ marking M' [] [] s' /\ M ⊆ M' /\ forall x, names k v x -> x ∈ M') ->
  covers (fun s => v ← g_cells heap !! n; f s v) (eq (n, k)).
Proof.
  intros Hc Hf M s I. destruct (CO _ Hc) as (v & Hv & _). cbn [fst] in Hv. rewrite Hv. cbn [mbind option_bind].
  destruct (Hf M s v I Hv) as (M' & s' & E & I' & S & C).
  { intros x Hx. exists x. split; [by eapply RO|done]. }
  exists M', s'. split_and!; try done. intros n' k' v' x [= <- <-] Hv' Hx. rewrite Hv in Hv'. injection Hv' as <-. by apply C.
Qed.

Lemma mark_named M s k v x f : marking M [] [] s -> reachable x -> (forall y, names k v y -> y = x) -> f = markObject heap s x ->
  exists M' s', f = Some s' /\ marking M' [] [] s' /\ M ⊆ M' /\ forall y, names k v y -> y ∈ M'.
Proof.
  intros I Hr Hn ->. destruct (markObject_ok M [] [] s x I Hr) as (M' & s' & E & I' & S & Hin). exists M', s'. split_and!; try done.
  intros y Hy. by rewrite (Hn y Hy).
Qed.

Lemma mark_nothing M s k v : marking M [] [] s -> (forall y, ~ names k v y) ->
  exists M' s', Some s = Some s' /\ marking M' [] [] s' /\ M ⊆ M' /\ forall y, names k v y -> y ∈ M'.
Proof. intros I Hn. exists M, s. split_and!; try done. intros y Hy. by destruct (Hn y). Qed.

Lemma covers_handle n : cell (n, KHandle) -> covers (fun s => markHandle heap s n) (eq (n, KHandle)).
Proof.
  intros Hc. apply covers_mark; [done|]. intros M s v I Hv Hr. by eapply mark_named; [done|apply (Hr v)|by intros y ->|].
Qed.

Lemma covers_codeField n : cell (n, KCode) -> covers (fun s => markCodeField heap s n) (eq (n, KCode)).
Proof.
  intros Hc. apply covers_mark; [done|]. intros M s v I Hv Hr. destruct (Z.eqb_spec v 0) as [->|Hne].
  - apply mark_nothing; [done|]. by intros y [].
  - by eapply mark_named; [done|by apply (Hr v)|by intros y [_ ->]|].
Qed.

Lemma covers_site n : cell (n, KSite) -> covers (fun s => markSite heap s n) (eq (n, KSite)).
Proof.
  intros Hc. apply covers_mark; [done|]. intros M s v I Hv Hr. cbn [names] in Hr. destruct (valueTypeOf v VALUE_POINTER) eqn:Ev.
  - rewrite (asObject_reach v) by by apply Hr. cbn [mbind option_bind].
    by eapply mark_named; [done|by apply (Hr (v - 1))|cbn [names]; rewrite Ev; by intros y ->|].
  - by eapply mark_named; [done|by apply (Hr v)|cbn [names]; rewrite Ev; by intros y ->|].
Qed.

Lemma covers_field k n : k = KExit \/ k = KField -> cell (n, k) -> covers (fun s => markField heap s n) (eq (n, k)).
Proof.
  intros Hk Hc. apply covers_mark; [done|]. intros M s v I Hv Hr. unfold markPointer.
  assert (forall y, names k v y <-> valueTypeOf v VALUE_POINTER = true /\ y = v - 1) as Hnm by by destruct Hk as [-> | ->].
  destruct (valueTypeOf v VALUE_POINTER) eqn:Ev.
  - assert (reachable (v - 1)) as Hrv by by apply Hr, Hnm. rewrite (asObject_reach v Hrv). cbn [mbind option_bind].
    eapply mark_named; [done|exact Hrv|by intros y [_ ->]%Hnm|done].
  - apply mark_nothing; [done|]. by intros y [? _]%Hnm.
Qed.

Lemma covers_context n : cell (n, KHead) -> covers (fun s => markContext heap s n) (eq (n, KHead)).
Proof.
  intros Hc. apply covers_mark; [done|]. intros M s v I Hv Hr. destruct (Z.eqb_spec v 0) as [->|Hne].
  - apply mark_nothing; [done|]. by intros y [].
  - assert (reachable (v - 1)) as Hrv by by apply Hr. rewrite (asObject_reach v Hrv). cbn [mbind option_bind].
    by eapply mark_named; [done|exact Hrv|by intros y [_ ->]|].
Qed.

Lemma asObject_word v : 0 <= v < 2 ^ 64 -> valueTypeOf v VALUE_POINTER = true -> asObject v = Some (v - 1).
Proof.
  intros Hv Hp. pose proof Hp as Hm%valueTypeOf_iff. cbn [type_code] in Hm. unfold asObject. unfold valueTypeOf in Hp. rewrite Hp.
  cbn [ASSERT mbind option_bind]. rewrite u64_id; [done|]. destruct (Z.eq_dec v 0) as [->|]; [done|lia].
Qed.

Lemma covers_stack n : cell (n, KStack) -> covers (fun s => markStackCell heap s n) (eq (n, KStack)).
Proof.
  intros Hc. apply covers_mark; [done|]. intros M s v I Hv Hr. destruct (CO _ Hc) as (v' & Hv' & Hok). cbn [fst snd] in *.
  rewrite Hv in Hv'. injection Hv' as <-. destruct (valueTypeOf v VALUE_POINTER) eqn:Ev.
  2: { apply mark_nothing; [done|]. intros y [? _]. congruence. }
  unfold markStackSlot. rewrite (asObject_word v (CW _ _ Hv) Ev). cbn [mbind option_bind].
  destruct (Hok eq_refl) as [Hn|[Hs|[Hs Hz]]].
  - assert (~ stale (v - 1)) as Hns by (intros [Ho _]; rewrite isOld_negb, Hn in Ho; done).
    rewrite isOld_negb, Hn. cbn [negb mbind option_bind]. eapply mark_named; [done| |by intros y (_ & -> & _)|done]. by apply Hr.
  - rewrite (proj1 Hs), (plausible_stale _ _ _ _ _ I Hs). cbn [mbind option_bind]. apply mark_nothing; [done|].
    intros y (_ & -> & Hy). by apply Hy.
  - assert (reachable (v - 1)) as Hrv by by apply Hr.
    assert ((if isOldObject (v - 1) then plausibleOldMarkRoot heap s (v - 1) else Some true) = Some true) as ->.
    { destruct (isOldObject (v - 1)) eqn:Eo; [|done]. by apply (plausible_live _ _ _ _ _ I). }
    cbn [mbind option_bind]. eapply mark_named; [done|exact Hrv|by intros y (_ & -> & _)|done].
Qed.

(** ** Handler chains *)

Lemma chain_length_bound v l : handler_chain v l -> NoDup l -> (length l <= base.size m0)%nat.
Proof.
  intros Hc ND. rewrite <- size_dom, <- (size_list_to_set (C := gset Z) l ND). apply subseteq_size. intros a Ha%elem_of_list_to_set.
  clear ND. revert v Hc. induction l as [|h l IH]; intros v Hc; [by apply not_elem_of_nil in Ha|].
  destruct Hc as (_ & _ & o & p & Ho & _ & _ & _ & Hp). apply elem_of_cons in Ha as [->|Ha]; [apply elem_of_dom; by eexists|by eapply IH].
Qed.

Lemma chain_marks l : forall fuel v M s, handler_chain v l -> (length l < fuel)%nat -> marking M [] [] s -> (v <> 0 -> reachable (v - 1)) ->
  exists M' s', iterateHandlerChain heap fuel s v = Some s' /\ marking M' [] [] s' /\ M ⊆ M' /\ (v <> 0 -> v - 1 ∈ M').
Proof.
  induction l as [|h l IH]; intros [|fuel] v M s Hc Hf I Hr; cbn [length] in Hf; try lia; cbn [handler_chain iterateHandlerChain] in *.
  - subst v. cbn [Z.eqb]. by exists M, s.
  - destruct Hc as (Hv & -> & o0 & p & Ho & Hin & Hp & Hz & Hc). destruct (Z.eqb_spec v 0); [done|]. specialize (Hr Hv).
    rewrite (asObject_reach v Hr). cbn [mbind option_bind].
    destruct (markObject_ok M [] [] s _ I Hr) as (M1 & s1 & -> & I1 & S1 & Hin1). cbn [mbind option_bind].
    destruct (mem_at _ _ _ _ _ _ I1 Ho) as (o & -> & (_ & _ & _ & _ & Eb & _)). cbn [mbind option_bind]. rewrite Eb, Hp. cbn [mbind option_bind].
    destruct (IH fuel p M1 s1 Hc ltac:(lia) I1) as (M2 & s2 & E & I2 & S2 & _).
    { intros Hp0. destruct Hz as [|Hz]; [done|]. eapply reach_edge; [exact Hr|]. exists o0. split; [done|]. right. by exists HANDLER_PARENT, p. }
    exists M2, s2. split_and!; [done|done|set_solver|]. intros _. by apply S2.
Qed.

Lemma covers_handlers n k : k = KHead \/ (exists stack, k = KHandler stack) -> cell (n, k) -> chain_ok n ->
  covers (fun s => markHandlers heap s n) (eq (n, k)).
Proof.
  intros Hk Hc (v0 & l & Hv0 & Hch & ND). apply covers_mark; [done|]. intros M s v I Hv Hr. rewrite Hv0 in Hv. injection Hv as <-.
  assert (forall y, names k v0 y <-> v0 <> 0 /\ y = v0 - 1) as Hnm by by destruct Hk as [-> |[stack ->]].
  rewrite (mem_size _ _ _ _ I).
  destruct (chain_marks l (S (base.size m0)) v0 M s Hch) as (M' & s' & E & I' & S & Hin); [pose proof (chain_length_bound _ _ Hch ND); lia|done| |].
  { intros Hne. by apply Hr, Hnm. }
  exists M', s'. split_and!; try done. intros y [Hne ->]%Hnm. by apply Hin.
Qed.

(** ** Frames, fibers, mutators and native code *)

(** The cells that [g] gives for [a]. *)
Definition cells_in {A} (g : A -> option (list Root)) (a : A) (c : Root) : Prop := exists l, g a = Some l /\ c ∈ l.

Lemma mapM_cells {A} (g : A -> option (list Root)) l ls : mapM g l = Some ls ->
  (forall a, a ∈ l -> exists k, g a = Some k) /\ forall c, c ∈ concat ls <-> exists a, a ∈ l /\ cells_in g a c.
Proof.
  intros HF%mapM_Some. split.
  - intros a Ha. apply list_elem_of_lookup in Ha as [i Hi]. destruct (Forall2_lookup_l _ _ _ _ _ HF Hi) as (k & _ & Hk). by exists k.
  - intros c. rewrite list_elem_of_In, List.in_concat. setoid_rewrite <- list_elem_of_In. split.
    + intros (k & Hk & Hc). apply list_elem_of_lookup in Hk as [i Hi]. destruct (Forall2_lookup_r _ _ _ _ _ HF Hi) as (a & Ha & E).
      exists a. split; [by eapply list_elem_of_lookup_2|]. by exists k.
    + intros (a & Ha & k & E & Hc). apply list_elem_of_lookup in Ha as [i Hi]. destruct (Forall2_lookup_l _ _ _ _ _ HF Hi) as (k' & Hk & E').
      rewrite E in E'. injection E' as <-. exists k. split; [by eapply list_elem_of_lookup_2|done].
Qed.

Lemma kind_cell (k : RootKind) n (l : list nat) : n ∈ l -> (n, k) ∈ (., k) <$> l.
Proof. intros Hn. apply list_elem_of_fmap. by exists n. Qed.

Lemma covers_list k (f : Marker -> nat -> option Marker) (l : list nat) :
  (forall n, n ∈ l -> covers (fun s => f s n) (eq (n, k))) -> covers (fun s => fold_marks f s l) (fun c => c ∈ (., k) <$> l).
Proof.
  intros Hf. eapply covers_weaken; [|apply (covers_fold f (fun n => eq (n, k)) l Hf)].
  intros c (n & -> & Hn)%list_elem_of_fmap. by exists n.
Qed.

Lemma covers_frame fr : (exists l, frame_cells fr = Some l) -> (forall c, cells_in frame_cells fr c -> cell c) ->
  covers (fun s => markFrame heap s fr) (cells_in frame_cells fr).
Proof.
  intros (l & Hl) Hc. unfold cells_in in *. rewrite Hl in *. unfold frame_cells, markFrame in *.
  destruct (mapped_slots fr) as [slots|]; [|done]. cbn [mbind option_bind] in *. injection Hl as <-.
  assert (forall n, n ∈ fr_args fr ++ slots -> cell (n, KStack)) as Hn by (intros n Hn; apply Hc; eexists; split; [done|by apply kind_cell]).
  eapply covers_weaken; [|apply (covers_seq (fun s => fold_marks (markStackCell heap) s (fr_args fr)) (fun s => fold_marks (markStackCell heap) s slots));
    apply (covers_list KStack); intros n Hi; apply covers_stack, Hn, elem_of_app; tauto].
  intros c (k & [= <-] & Hk). rewrite fmap_app, elem_of_app in Hk. done.
Qed.

Lemma covers_entry e : (exists l, entry_cells e = Some l) -> (forall c, cells_in entry_cells e c -> cell c) ->
  covers (fun s => markEntryFrame heap s e) (cells_in entry_cells e).
Proof.
  intros (l & Hl) Hc. unfold cells_in in Hc. rewrite Hl in Hc. pose proof Hl as Hl'. unfold entry_cells in Hl'. unfold markEntryFrame.
  destruct (fr_slots (ef_exit e) !! 0%nat) as [slot0|]; [|done]. cbn [mbind option_bind] in *.
  destruct (mapM frame_cells (ef_frames e)) as [ls|] eqn:Em; [|done]. cbn [mbind option_bind] in Hl'. injection Hl' as <-.
  destruct (mapM_cells _ _ _ Em) as [Hs Hin].
  eapply covers_weaken; [|apply (covers_seq (fun s => markField heap s slot0) (fun s => fold_marks (markFrame heap) s (ef_frames e))
    (eq (slot0, KExit)) (fun c => exists fr, fr ∈ ef_frames e /\ cells_in frame_cells fr c))].
  - intros c (k & Hk & Hck). rewrite Hl in Hk. injection Hk as <-. apply elem_of_cons in Hck as [->|Hck]; [by left|right]. by apply Hin.
  - apply covers_field; [by left|]. apply Hc. eexists. split; [done|left].
  - apply covers_fold. intros fr Hfr. apply covers_frame; [by apply Hs|]. intros c Hcf. apply Hc. eexists. split; [done|]. right. apply Hin. by exists fr.
Qed.

Lemma covers_frames es : (exists l, stack_cells es = Some l) -> (forall c, cells_in stack_cells es c -> cell c) ->
  covers (fun s => iterateStackFrames heap s es) (cells_in stack_cells es).
Proof.
  intros (l & Hl) Hc. unfold cells_in in Hc. rewrite Hl in Hc. unfold stack_cells in Hl.
  destruct (mapM entry_cells es) as [ls|] eqn:Em; [|done]. injection Hl as <-. destruct (mapM_cells _ _ _ Em) as [Hs Hin].
  eapply covers_weaken; [|apply (covers_fold (markEntryFrame heap) (cells_in entry_cells))].
  - intros c (k & Hk & Hck). unfold stack_cells in Hk. rewrite Em in Hk. injection Hk as <-. by apply Hin.
  - intros e He. apply covers_entry; [by apply Hs|]. intros c Hce. apply Hc. eexists. split; [done|]. apply Hin. by exists e.
Qed.

Lemma covers_scopes scopes : (forall c, c ∈ scope_cells scopes -> cell c) ->
  covers (fun s => iterateHandleScopes heap s scopes) (fun c => c ∈ scope_cells scopes).
Proof.
  intros Hc. unfold scope_cells in *.
  eapply covers_weaken; [|apply (covers_fold (fold_marks (markHandle heap)) (fun l c => c ∈ (., KHandle) <$> l))].
  - intros c (n & -> & Hn)%list_elem_of_fmap. apply list_elem_of_In, List.in_concat in Hn as (l & Hl & Hn). apply list_elem_of_In in Hl, Hn.
    exists l. split; [done|]. by apply kind_cell.
  - intros l Hl. apply covers_list. intros n Hn. apply covers_handle, Hc, kind_cell, list_elem_of_In, List.in_concat.
    exists l. by rewrite <- !list_elem_of_In.
Qed.

Definition fiber_stack (f : Fiber) (c : Root) : Prop := exists stack, stack_cells (f_stackFrames (f_roots f)) = Some stack /\
  (c = (f_entryBlock f, KField) \/ c = (f_process f, KField) \/ c ∈ stack \/
   c = (f_exceptionHandler (f_roots f), KHandler stack.*1) \/ c = (f_unwindHandler (f_roots f), KHead)).

Definition fiber_handles (f : Fiber) (c : Root) : Prop :=
  c ∈ scope_cells (f_handleScopes (f_roots f)) \/ c = (f_context (f_roots f), KHead).

Lemma fiber_split f l : fiber_cells f = Some l ->
  (exists stack, stack_cells (f_stackFrames (f_roots f)) = Some stack) /\ forall c, c ∈ l <-> fiber_stack f c \/ fiber_handles f c.
Proof.
  unfold fiber_cells, fiber_stack, fiber_handles. destruct (stack_cells _) as [stack|]; [|done]. cbn [mbind option_bind]. intros [= <-].
  split; [by eexists|]. intros c. repeat (rewrite elem_of_cons || rewrite elem_of_app). rewrite elem_of_nil. split.
  - intros Hc. destruct_or! Hc; try done; try (left; exists stack; tauto); right; tauto.
  - intros [(st & [= <-] & Hc)|Hc]; tauto.
Qed.

Lemma covers_fiberStack f : (exists stack, stack_cells (f_stackFrames (f_roots f)) = Some stack) -> (forall c, fiber_stack f c -> cell c) ->
  chain_ok (f_exceptionHandler (f_roots f)) -> chain_ok (f_unwindHandler (f_roots f)) ->
  covers (fun s => iterateFiberStack heap s f) (fiber_stack f).
Proof.
  intros (stack & Hs) Hc C1 C2. unfold iterateFiberStack. eapply covers_weaken; cycle 1.
  - eapply (covers_seq (fun s => markField heap s (f_entryBlock f))); [|eapply (covers_seq (fun s => markField heap s (f_process f)));
      [|eapply (covers_seq (fun s => iterateStackFrames heap s _)); [|eapply (covers_seq (fun s => markHandlers heap s _))]]].
    + apply (covers_field KField); [by right|]. apply Hc. exists stack. tauto.
    + apply (covers_field KField); [by right|]. apply Hc. exists stack. tauto.
    + apply covers_frames; [by exists stack|]. intros c (l & Hl & Hcl). apply Hc. exists l. tauto.
    + apply (covers_handlers _ (KHandler stack.*1)); [right; by eexists| |done]. apply Hc. exists stack. tauto.
    + apply (covers_handlers _ KHead); [by left| |done]. apply Hc. exists stack. tauto.
  - intros c (st & Hst & [->|[->|[Hcs|[->| ->]]]]); try tauto; cbv beta.
    + right. right. left. by exists st.
    + rewrite Hs in Hst. injection Hst as <-. tauto.
Qed.

Lemma covers_fiberHandles f : (forall c, fiber_handles f c -> cell c) -> covers (fun s => iterateFiberHandles heap s f) (fiber_handles f).
Proof.
  intros Hc. apply (covers_seq (fun s => iterateHandleScopes heap s _) (fun s => markContext heap s _)).
  - apply covers_scopes. intros c Hcs. apply Hc. by left.
  - eapply covers_weaken; [|apply covers_context, Hc; by right]. by intros c ->.
Qed.

Definition mutator_stack (m : Mutator) (c : Root) : Prop := live m = true /\ exists stack, stack_cells (t_stackFrames m) = Some stack /\
  ((exists f, currentFiber m = Some f /\ (c = (f_entryBlock f, KField) \/ c = (f_process f, KField))) \/ c ∈ stack \/
   (exists n, t_exceptionHandler m = Some n /\ c = (n, KHandler stack.*1)) \/ (exists n, t_unwindHandler m = Some n /\ c = (n, KHead))).

Definition mutator_handles (m : Mutator) (c : Root) : Prop :=
  live m = true /\ (c ∈ scope_cells (t_handleScopes m) \/ c = (t_context m, KHead)).

Lemma mutator_split m l : mutator_cells m = Some l ->
  (live m = true -> exists stack, stack_cells (t_stackFrames m) = Some stack) /\ forall c, c ∈ l <-> mutator_stack m c \/ mutator_handles m c.
Proof.
  unfold mutator_cells, mutator_stack, mutator_handles. destruct (live m); cbn [negb].
  2: { intros [= <-]. split; [done|]. intros c. rewrite elem_of_nil. naive_solver. }
  destruct (stack_cells _) as [stack|]; [|done]. cbn [mbind option_bind]. intros [= <-]. split; [by eexists|].
  intros c. repeat (rewrite elem_of_app || rewrite elem_of_cons). split.
  - intros [Hc|[Hc|[Hc|[Hc|[Hc|Hc]]]]]; try (right; tauto); left; (split; [done|]); exists stack; (split; [done|]); [left|by right; left|right; right; left|right; right; right].
    + destruct (currentFiber m) as [f|]; [|by apply not_elem_of_nil in Hc]. exists f. set_solver.
    + destruct (t_exceptionHandler m) as [n|]; [|by apply not_elem_of_nil in Hc]. exists n. set_solver.
    + destruct (t_unwindHandler m) as [n|]; [|by apply not_elem_of_nil in Hc]. exists n. set_solver.
  - intros [(_ & st & [= <-] & [(f & -> & Hc)|[Hc|[(n & -> & ->)|(n & -> & ->)]]])|(_ & [Hc| ->])]; set_solver.
Qed.

Lemma covers_option {A} (o : option A) (f : A -> Marker -> option Marker) (K : A -> Root -> Prop) :
  (forall a, o = Some a -> covers (f a) (K a)) ->
  covers (fun s => match o with Some a => f a s | None => Some s end) (fun c => exists a, o = Some a /\ K a c).
Proof.
  intros Hf. destruct o as [a|].
  - eapply covers_weaken; [|by apply Hf]. by intros c (b & [= <-] & Hc).
  - apply covers_nothing. by intros c (b & ? & _).
Qed.

Lemma covers_mutatorStack m : (live m = true -> exists stack, stack_cells (t_stackFrames m) = Some stack) ->
  (forall c, mutator_stack m c -> cell c) ->
  (live m = true -> forall n, t_exceptionHandler m = Some n \/ t_unwindHandler m = Some n -> chain_ok n) ->
  covers (fun s => iterateMutatorCurrentStack heap s m) (mutator_stack m).
Proof.
  intros Hst Hc Hch. unfold iterateMutatorCurrentStack. unfold mutator_stack in *. destruct (live m); cbn [negb].
  2: { apply covers_nothing. by intros c [? _]. }
  destruct (Hst eq_refl) as (stack & Hs). specialize (Hch eq_refl). eapply covers_weaken; cycle 1.
  - eapply (covers_seq (fun s => match currentFiber m with Some f => s ← markField heap s (f_entryBlock f); markField heap s (f_process f) | None => Some s end));
      [|eapply (covers_seq (fun s => iterateStackFrames heap s _)); [|eapply (covers_seq (fun s => match t_exceptionHandler m with Some n => markHandlers heap s n | None => Some s end))]].
    + apply (covers_option (currentFiber m) (fun f s => s ← markField heap s (f_entryBlock f); markField heap s (f_process f))). intros f Hf.
      apply (covers_seq (fun s => markField heap s _) (fun s => markField heap s _)); apply (covers_field KField); try (by right); apply Hc; split; try done;
        exists stack; (split; [done|]); left; exists f; tauto.
    + apply covers_frames; [by exists stack|]. intros c (l & Hl & Hcl). apply Hc. split; [done|]. exists l. tauto.
    + apply (covers_option (t_exceptionHandler m) (fun n s => markHandlers heap s n) (fun n => eq (n, KHandler stack.*1))). intros n Hn.
      apply covers_handlers; [right; by eexists| |apply Hch; by left]. apply Hc. split; [done|]. exists stack. split; [done|]. right. right. left. by exists n.
    + apply (covers_option (t_unwindHandler m) (fun n s => markHandlers heap s n) (fun n => eq (n, KHead))). intros n Hn.
      apply covers_handlers; [by left| |apply Hch; by right]. apply Hc. split; [done|]. exists stack. split; [done|]. right. right. right. by exists n.
  - intros c (_ & st & Hst' & Hcc). cbv beta. rewrite Hs in Hst'. injection Hst' as <-. unfold cells_in. naive_solver.
Qed.

Lemma covers_mutatorHandles m : (forall c, mutator_handles m c -> cell c) ->
  covers (fun s => iterateMutatorCurrentHandles heap s m) (mutator_handles m).
Proof.
  unfold mutator_handles. intros Hc. unfold iterateMutatorCurrentHandles. destruct (live m); cbn [negb].
  2: { apply covers_nothing. by intros c [? _]. }
  eapply covers_weaken; cycle 1.
  - eapply (covers_seq (fun s => iterateHandleScopes heap s _)).
    + apply covers_scopes. intros c Hcs. apply Hc. tauto.
    + apply covers_context, Hc. tauto.
  - intros c (_ & [Hcs| ->]); [by left|by right].
Qed.

Lemma covers_code code : (forall c, c ∈ code_cells code -> cell c) -> covers (fun s => markCode heap s code) (fun c => c ∈ code_cells code).
Proof.
  intros Hc. unfold code_cells, markCode in *. destruct (n_free code).
  { apply covers_nothing. intros c. apply not_elem_of_nil. }
  eapply covers_weaken; [intros c; apply elem_of_app|].
  apply (covers_seq (fun s => fold_marks (markCodeField heap) s (n_pointers code)) (fun s => fold_marks (markSite heap) s (n_sites code)));
    apply covers_list; intros n Hn; [apply covers_codeField|apply covers_site]; apply Hc, elem_of_app; [left|right]; by apply kind_cell.
Qed.

(** ** All of them *)

(** The cells that head a chain of handlers. *)
Definition handler_cell (r : Roots) (n : nat) : Prop :=
  (exists f, f ∈ parked r /\ (n = f_exceptionHandler (f_roots f) \/ n = f_unwindHandler (f_roots f))) \/
  (exists m, m ∈ r_mutators r /\ live m = true /\ (t_exceptionHandler m = Some n \/ t_unwindHandler m = Some n)).

Lemma join_in {A B} (g : A -> list B) l c : c ∈ mjoin (g <$> l) <-> exists a, a ∈ l /\ c ∈ g a.
Proof. rewrite list_elem_of_join. setoid_rewrite list_elem_of_fmap. naive_solver. Qed.

Lemma sites_in r n : n ∈ mjoin (mjoin (t_codegenSites <$> r_mutators r)) <->
  exists m, m ∈ r_mutators r /\ exists sites, sites ∈ t_codegenSites m /\ n ∈ sites.
Proof. rewrite list_elem_of_join. setoid_rewrite join_in. naive_solver. Qed.

Section AllRoots.
Context (r : Roots) (HC : forall n, handler_cell r n -> chain_ok n).
Context (HF : forall f, f ∈ parked r -> (exists stack, stack_cells (f_stackFrames (f_roots f)) = Some stack) /\
  forall c, fiber_stack f c \/ fiber_handles f c -> cell c).
Context (HM : forall m, m ∈ r_mutators r -> (live m = true -> exists stack, stack_cells (t_stackFrames m) = Some stack) /\
  forall c, mutator_stack m c \/ mutator_handles m c -> cell c).

Lemma covers_stacks : covers (fun s => iterateStack heap s r)
  (fun c => (exists f, f ∈ parked r /\ fiber_stack f c) \/ exists m, m ∈ r_mutators r /\ mutator_stack m c).
Proof.
  unfold iterateStack. apply (covers_seq (fun s => fold_marks (iterateFiberStack heap) s (parked r)) (fun s => fold_marks (iterateMutatorCurrentStack heap) s (r_mutators r))).
  - apply covers_fold. intros f Hf. destruct (HF f Hf) as [Hs Hc]. apply covers_fiberStack; [done| | |].
    + intros c Hcf. apply Hc. by left.
    + apply HC. left. exists f. tauto.
    + apply HC. left. exists f. tauto.
  - apply covers_fold. intros m Hm. destruct (HM m Hm) as [Hs Hc]. apply covers_mutatorStack; [done| |].
    + intros c Hcm. apply Hc. by left.
    + intros Hl n Hn. apply HC. right. by exists m.
Qed.

Lemma covers_handles : (forall m n, m ∈ r_mutators r -> n ∈ t_handles m -> cell (n, KHandle)) ->
  covers (fun s => iterateHandles heap s r) (fun c => (exists m, m ∈ r_mutators r /\ c ∈ (., KHandle) <$> t_handles m) \/
    (exists f, f ∈ parked r /\ fiber_handles f c) \/ exists m, m ∈ r_mutators r /\ mutator_handles m c).
Proof.
  intros Hh. unfold iterateHandles. apply (covers_seq (fun s => fold_marks (fun s m => fold_marks (markHandle heap) s (t_handles m)) s (r_mutators r))).
  { apply (covers_fold (fun s m => fold_marks (markHandle heap) s (t_handles m)) (fun m c => c ∈ (., KHandle) <$> t_handles m)).
    intros m Hm. apply covers_list. intros n Hn. by apply covers_handle, (Hh m). }
  apply (covers_seq (fun s => fold_marks (iterateFiberHandles heap) s (parked r)) (fun s => fold_marks (iterateMutatorCurrentHandles heap) s (r_mutators r))).
  - apply covers_fold. intros f Hf. apply covers_fiberHandles. intros c Hcf. apply (HF f Hf). by right.
  - apply covers_fold. intros m Hm. apply covers_mutatorHandles. intros c Hcm. apply (HM m Hm). by right.
Qed.

Lemma covers_native : (forall code c, code ∈ r_codes r -> c ∈ code_cells code -> cell c) ->
  (forall m sites n, m ∈ r_mutators r -> sites ∈ t_codegenSites m -> n ∈ sites -> cell (n, KSite)) ->
  covers (fun s => iterateNativeCode heap s r) (fun c => (exists code, code ∈ r_codes r /\ c ∈ code_cells code) \/
    exists m, m ∈ r_mutators r /\ exists sites, sites ∈ t_codegenSites m /\ c ∈ (., KSite) <$> sites).
Proof.
  intros Hcode Hsite. unfold iterateNativeCode. apply (covers_seq (fun s => fold_marks (markCode heap) s (r_codes r))
    (fun s => fold_marks (fun s m => fold_marks (fold_marks (markSite heap)) s (t_codegenSites m)) s (r_mutators r))).
  - apply (covers_fold (markCode heap) (fun code c => c ∈ code_cells code)). intros code Hk. apply covers_code. intros c. by apply Hcode.
  - apply (covers_fold (fun s m => fold_marks (fold_marks (markSite heap)) s (t_codegenSites m))
      (fun m c => exists sites, sites ∈ t_codegenSites m /\ c ∈ (., KSite) <$> sites)). intros m Hm.
    apply (covers_fold (fold_marks (markSite heap)) (fun sites c => c ∈ (., KSite) <$> sites)). intros sites Hs.
    apply covers_list. intros n Hn. by apply covers_site, (Hsite m sites).
Qed.
End AllRoots.

Lemma roots_cover r L : root_cells r = Some L -> (forall c, c ∈ L -> cell c) -> (forall n, handler_cell r n -> chain_ok n) ->
  covers (fun s => s ← iterateStack heap s r; s ← iterateHandles heap s r; iterateNativeCode heap s r) (fun c => c ∈ L).
Proof.
  unfold root_cells. intros HL Hc Hch.
  destruct (mapM fiber_cells (parked r)) as [fs|] eqn:Ef; [|done]. cbn [mbind option_bind] in HL.
  destruct (mapM mutator_cells (r_mutators r)) as [ms|] eqn:Em; [|done]. cbn [mbind option_bind] in HL. injection HL as <-.
  destruct (mapM_cells _ _ _ Ef) as [Hf1 Hf2]. destruct (mapM_cells _ _ _ Em) as [Hm1 Hm2]. setoid_rewrite elem_of_app in Hc.
  setoid_rewrite elem_of_app in Hc. setoid_rewrite elem_of_app in Hc. setoid_rewrite elem_of_app in Hc.
  assert (forall f, f ∈ parked r -> (exists stack, stack_cells (f_stackFrames (f_roots f)) = Some stack) /\
    forall c, fiber_stack f c \/ fiber_handles f c -> cell c /\ c ∈ concat fs) as HF.
  { intros f Hf. destruct (Hf1 f Hf) as (l & Hl). destruct (fiber_split f l Hl) as [Hs Hin]. split; [done|]. intros c Hcf%Hin.
    assert (c ∈ concat fs) by (apply Hf2; exists f; split; [done|]; by exists l). split; [apply Hc|]; tauto. }
  assert (forall m, m ∈ r_mutators r -> (live m = true -> exists stack, stack_cells (t_stackFrames m) = Some stack) /\
    forall c, mutator_stack m c \/ mutator_handles m c -> cell c /\ c ∈ concat ms) as HMu.
  { intros m Hm. destruct (Hm1 m Hm) as (l & Hl). destruct (mutator_split m l Hl) as [Hs Hin]. split; [done|]. intros c Hcm%Hin.
    assert (c ∈ concat ms) by (apply Hm2; exists m; split; [done|]; by exists l). split; [apply Hc|]; tauto. }
  pose proof (join_in code_cells (r_codes r)) as Hcode. pose proof (join_in t_handles (r_mutators r)) as Hhand.
  pose proof (sites_in r) as Hsite.
  eapply covers_weaken; cycle 1.
  - eapply (covers_seq (fun s => iterateStack heap s r)); [|eapply (covers_seq (fun s => iterateHandles heap s r))].
    + apply covers_stacks; [done| |].
      * intros f Hf. split; [by apply HF|]. intros c Hcf. by apply (HF f Hf).
      * intros m Hm. split; [by apply HMu|]. intros c Hcm. by apply (HMu m Hm).
    + apply covers_handles.
      * intros f Hf. split; [by apply HF|]. intros c Hcf. by apply (HF f Hf).
      * intros m Hm. split; [by apply HMu|]. intros c Hcm. by apply (HMu m Hm).
      * intros m n Hm Hn. apply Hc. left. apply kind_cell, Hhand. by exists m.
    + apply covers_native.
      * intros code c Hk Hcc. apply Hc. do 3 right. left. apply Hcode. by exists code.
      * intros m sites n Hm Hs Hn. apply Hc. do 4 right. apply kind_cell, Hsite. exists m. split; [done|]. by exists sites.
  - intros c Hin. cbv beta. repeat rewrite elem_of_app in Hin.
    destruct Hin as [(n & -> & (m & Hm & Hn)%Hhand)%list_elem_of_fmap|[Hin|[Hin|[Hin|(n & -> & (m & Hm & sites & Hs & Hn)%Hsite)%list_elem_of_fmap]]]].
    + right. left. left. exists m. split; [done|]. by apply kind_cell.
    + apply Hf2 in Hin as (f & Hf & l & Hl & Hcl). apply (fiber_split f l Hl) in Hcl as [Hcl|Hcl]; [left; left; by exists f|right; left; right; left; by exists f].
    + apply Hm2 in Hin as (m & Hm & l & Hl & Hcl). apply (mutator_split m l Hl) in Hcl as [Hcl|Hcl]; [left; right; by exists m|right; left; right; right; by exists m].
    + apply Hcode in Hin. right. right. by left.
    + right. right. right. exists m. split; [done|]. exists sites. split; [done|]. by apply kind_cell.
Qed.
End Marks.

(** ** The mark phase *)

(** The objects that the cells lead to. *)
Definition mark_root `{Target} (heap : Heap) (m : Memory) (L : list Root) (x : Z) : Prop :=
  exists n k v, (n, k) ∈ L /\ g_cells heap !! n = Some v /\ names heap m k v x.

Definition live_object `{Target} (heap : Heap) (m : Memory) (L : list Root) (a : Z) : Prop := reachable m (mark_root heap m L) a.

(** When marking may run. *)
Record markable `{Target} (heap : Heap) (m : Memory) (r : Roots) (L : list Root) : Prop := {
  ma_roots : root_cells r = Some L;
  ma_cells : Forall (cell_ok heap m) L;
  ma_chains : forall n, handler_cell r n -> chain_ok heap m n;
  ma_words : forall n v, g_cells heap !! n = Some v -> 0 <= v < 2 ^ 64;
  ma_index : index_ok (g_pages heap);
  ma_live : forall a, live_object heap m L a -> exists o, m !! a = Some o /\ live_wf heap m a o }.

(** What it leaves. *)
Record marked `{Target} (heap : Heap) (m : Memory) (L : list Root) (s : Marker) : Prop := {
  md_live : forall a, live_object heap m L a -> exists o o', m !! a = Some o /\ k_mem s !! a = Some o' /\ retagged o o' /\
    has_tag TAG_MARKED o' = true /\ (has_tag TAG_REMEMBERED o' = true <-> isOldObject a = true /\ young_referent m a);
  md_dead : forall a, ~ live_object heap m L a -> k_mem s !! a = m !! a;
  md_set : NoDup (k_remembered s) /\
    forall a, a ∈ k_remembered s <-> live_object heap m L a /\ isOldObject a = true /\ young_referent m a;
  md_count : exists M, NoDup M /\ (forall a, a ∈ M <-> live_object heap m L a) /\ k_marked s = u64 (Z.of_nat (length M)) }.

(** Marking returns, and marks the objects the roots lead to. *)
Lemma gcMarkRoots_ok `{Target} heap m r L : markable heap m r L ->
  exists s, gcMarkRoots heap m [] 0 r = Some s /\ marked heap m L s.
Proof.
  intros MA. pose proof MA as [HL HC HH HW HI HV]. set (root := mark_root heap m L) in *.
  assert (marking m root [] [] [] (mkMarker m newQueue [] 0)) as I0.
  { constructor; cbn [k_mem k_queue k_remembered k_marked]; try done; try (intros a ?%not_elem_of_nil; done).
    - constructor.
    - exists []. split; [|done]. split; [cbn; lia|done].
    - intros a b ?%not_elem_of_nil; done.
    - split; [constructor|]. intros a. rewrite elem_of_nil. tauto. }
  assert (covers heap m root (fun s => s ← iterateStack heap s r; s ← iterateHandles heap s r; iterateNativeCode heap s r) (fun c => c ∈ L)) as HCV.
  { apply (roots_cover heap m root HV HI HW (fun c => c ∈ L)); try done.
    - intros c Hc. rewrite Forall_forall in HC. by apply HC.
    - intros n k v x Hc Hv Hn. by exists n, k, v. }
  destruct (HCV _ _ I0) as (M1 & s1 & E1 & I1 & _ & C1).
  destruct (drain_ok heap m root HV (S (base.size m)) M1 [] s1 I1) as (M2 & s2 & E2 & I2 & S2); [cbn [length]; lia|].
  exists s2. split.
  { unfold gcMarkRoots. cbv zeta. destruct (iterateStack _ _ r) as [sa|]; [|done]. cbn [mbind option_bind] in *.
    destruct (iterateHandles _ sa r) as [sb|]; [|done]. cbn [mbind option_bind] in *. by rewrite E1. }
  assert (forall a, a ∈ M2 <-> live_object heap m L a) as HM.
  { apply (marked_all m root M2 s2 I2). intros x (n & k & v & Hc & Hv & Hn). apply S2. by apply (C1 n k v x). }
  destruct (mk_set _ _ _ _ _ _ I2) as [NDs Hset]. setoid_rewrite HM in Hset. constructor.
  - intros a Ha%HM. destruct (mk_marked _ _ _ _ _ _ I2 a Ha) as (_ & o & o' & H1 & H2 & H3 & H4 & H5). exists o, o'. split_and!; try done.
    rewrite (H5 Ha), Hset. apply HM in Ha. tauto.
  - intros a Ha. apply (mk_white _ _ _ _ _ _ I2). by rewrite HM.
  - done.
  - exists M2. split; [apply (mk_nodup _ _ _ _ _ _ I2)|]. split; [done|apply (mk_count _ _ _ _ _ _ I2)].
Qed.
