(* ===== verification/Sweep.v ===== *)
(** * Sweep

    The sweep phase ([src/vm/memory/GarbageCollector.c], [gcSweep]) and the
    collection of the old space ([src/vm/memory/Heap.c], [markAndSweep]).  The
    pages of old space are walked cell by cell: marked objects lose their mark,
    dead ones with a finalizer are kept once more, and the rest is merged with
    the free chunks around it into runs that make up a new free list.  A page
    without a survivor is given back, except for the first.

    The objects and the headers of the free chunks share the address space;
    what lies inside a run is gone once the run is on the free list, and what
    lies in a page once the page is unmapped, although the C code would still
    find most of it there: an access to it is [None] here.  The messages to the
    objects with finalizers are the list [w_finalize]; what their methods do is
    not modelled.  Of the statistics only the number of marked objects is.

    The main result: a collection of a well-formed heap returns, keeps exactly
    the reachable objects and the dead ones with a finalizer, and leaves pages
    that are tiled by survivors and maximal free chunks, which are the chunks of
    a well-formed free list. *)
From S2P Require Import Prelude.
From stdpp Require Import gmap.
From S2P Require Import Dictionary MethodLookup.
From S2P Require Import Endian Tagging FreeList HeapPage ObjectMemory Scavenger ScavengerProofs ScavengerRoots Marking.
#[local] Open Scope Z_scope.

(** ** The code *)

Record Sweep := mkSweep {
  w_mem : Memory;
  w_free : gmap Z FreeSpace;
  w_list : FreeList;
  w_pages : PageSpace;
  w_run : option (Z * Z);          (* runStart and runSize; NULL is [None] *)
  w_finalize : list Z;
  w_released : list (Z * Z) }.     (* what osPageRelease was called with *)

Definition set_run (r : option (Z * Z)) (s : Sweep) : Sweep :=
  mkSweep (w_mem s) (w_free s) (w_list s) (w_pages s) r (w_finalize s) (w_released s).
Definition set_object (a : Z) (o : RawObject) (s : Sweep) : Sweep :=
  mkSweep (<[a := o]> (w_mem s)) (w_free s) (w_list s) (w_pages s) (w_run s) (w_finalize s) (w_released s).

(** The entries of a map outside the addresses from [lo] to [hi]. *)
Definition outside {A} (lo hi : Z) (m : gmap Z A) : gmap Z A := filter (fun '(a, _) => ~ (lo <= a < hi)) m.

(** What [hasFinalizer] looks a method up in: the classes by address. *)
Record Classes := mkClasses {
  c_memory : Dictionary.Memory;
  c_table : gmap nat MethodLookup.RawClass;
  c_handle : Z -> nat;
  finalizeSymbol : nat }.

Section Code.
Context `{Target} (osPageSize : Z) (classes : Classes).

Definition hasFinalizer (o : RawObject) : option bool :=
  method ← lookupSelector (base.size (c_table classes)) (c_memory classes) (c_table classes)
             (c_handle classes (o_class o)) (finalizeSymbol classes);
  Some (match method with Some _ => true | None => false end).

(** The physical pages inside a large run that are handed back. *)
Definition releasable (runStart runSize : Z) : list (Z * Z) :=
  if 256 * 1024 <=? runSize then
    let pageMask := osPageSize - 1 in
    let lo := Z.land (u64 (runStart + HEADER_SIZE + pageMask)) (u64 (Z.lnot pageMask)) in
    let hi := Z.land (u64 (runStart + runSize)) (u64 (Z.lnot pageMask)) in
    if lo <? hi then [(lo, hi - lo)] else []
  else [].

(** [FLUSH_RUN()] *)
Definition flushRun (s : Sweep) : option Sweep :=
  match w_run s with
  | None => Some s
  | Some (runStart, runSize) =>
      free ← createFreeSpace (outside runStart (runStart + runSize) (w_free s)) runStart runSize;
      '(free, fl) ← freeListAddFreeSpace free (w_list s) runStart;
      Some (mkSweep (outside runStart (runStart + runSize) (w_mem s)) free fl (w_pages s) None (w_finalize s)
              (w_released s ++ releasable runStart runSize))
  end.

(** A free cell: it extends the run, or starts another. *)
Definition freeRegion (s : Sweep) (object objSize : Z) : option Sweep :=
  match w_run s with
  | Some (runStart, runSize) =>
      if object =? runStart + runSize then Some (set_run (Some (runStart, runSize + objSize)) s)
      else s ← flushRun s; Some (set_run (Some (object, objSize)) s)
  | None => Some (set_run (Some (object, objSize)) s)
  end.

(** One cell; the answers are its size and whether it stays. *)
Definition sweepCell (s : Sweep) (p : Z) : option (Sweep * Z * bool) :=
  match w_mem s !! p with
  | None =>
      fs ← w_free s !! p;
      _ ← ASSERT (negb (Z.land (fs_tags fs) TAG_FREESPACE =? 0));
      let objSize := align (fs_size fs) HEAP_OBJECT_ALIGN in
      s ← freeRegion s p objSize;
      Some (s, objSize, false)
  | Some o =>
      _ ← ASSERT (negb (has_tag TAG_FREESPACE o));
      size ← computeRawObjectSize (w_mem s) o;
      let objSize := align size HEAP_OBJECT_ALIGN in
      if has_tag TAG_MARKED o then
        s ← flushRun s;
        Some (set_object p (set_tags (Z.lxor (o_tags o) TAG_MARKED) o) s, objSize, true)
      else
        finalizable ← (if has_tag TAG_FINALIZED o then Some false else hasFinalizer o);
        if finalizable : bool then
          s ← flushRun s;
          let s := mkSweep (w_mem s) (w_free s) (w_list s) (w_pages s) (w_run s) (w_finalize s ++ [p]) (w_released s) in
          Some (set_object p (set_tags (Z.lor (Z.lxor (o_tags o) TAG_MARKED) TAG_FINALIZED) o) s, objSize, true)
        else
          s ← freeRegion s p objSize;
          Some (s, objSize, false)
  end.

(** [while (p < pageEnd)] *)
Definition sweepPage (s : Sweep) (page : HeapPage) : option (Sweep * bool) :=
  let pageEnd := body page + bodySize page in
  loop (S (Z.to_nat (bodySize page))) (fun '(s, p, pageHasLive) =>
    if p <? pageEnd then
      '(s, objSize, kept) ← sweepCell s p;
      Some (inl (s, p + objSize, pageHasLive || kept))
    else Some (inr (s, pageHasLive))) (set_run None s, align (body page) HEAP_OBJECT_ALIGN, false).

(** [unmapHeapPage], for a page that is off the list already. *)
Definition dropPage (s : Sweep) (page : HeapPage) : option Sweep :=
  ps ← pageSpaceIndexRemove (w_pages s) page;
  let lo := pg_addr page in
  let hi := pg_addr page + pg_size page in
  Some (mkSweep (outside lo hi (w_mem s)) (outside lo hi (w_free s)) (w_list s) ps None (w_finalize s) (w_released s)).

(** The loop over the pages; [head] is [prev == NULL].  The answer has the
    pages that stay. *)
Fixpoint sweepPages (s : Sweep) (head : bool) (l : list HeapPage) : option (Sweep * list HeapPage) :=
  match l with
  | [] => Some (s, [])
  | page :: next =>
      '(s, pageHasLive) ← sweepPage s page;
      if pageHasLive || head then
        s ← flushRun s;
        '(s, kept) ← sweepPages s false next;
        Some (s, page :: kept)
      else
        s ← dropPage s page;
        sweepPages s head next
  end.

Definition emptyFreeList : FreeList :=
  {| freeSpaces := replicate (S FREE_LIST_SIZE) 0; freeMap := replicate FREE_MAP_SIZE 0 |}.

(** The answer has the objects that are sent [finalize]. *)
Definition gcSweep (m : Memory) (free : gmap Z FreeSpace) (ps : PageSpace) : option Sweep :=
  '(s, kept) ← sweepPages (mkSweep m free emptyFreeList ps None [] []) true (pages ps);
  Some (mkSweep (w_mem s) (w_free s) (w_list s) (with_pages (w_pages s) kept) (w_run s) (w_finalize s) (w_released s)).

(** A remembered set as the list of its entries; [RememberedSet.reset_holds] is
    the block chain's version. *)
Definition resetEntries (set : list Z) : list Z := [].

(** [sets] are the remembered sets of the mutators and [set] is the heap's: all
    are emptied, and marking fills the heap's anew. *)
Definition markAndSweep (heap : Heap) (m : Memory) (r : Roots) (sets : list (list Z)) (set : list Z) : option (Sweep * list (list Z) * list Z) :=
  let sets := map resetEntries sets in
  let set := resetEntries set in
  s ← gcMarkRoots heap m set 0 r;
  w ← gcSweep (k_mem s) (g_free heap) (g_pages heap);
  Some (w, sets, k_remembered s).
End Code.

(** ** Tiles *)

(** A cell of a page: an object or a free chunk. *)
Record Tile := mkTile { t_addr : Z; t_size : Z; t_object : bool }.

Definition tile_ok `{Target} (m : Memory) (free : gmap Z FreeSpace) (t : Tile) : Prop :=
  16 <= t_size t /\ t_size t mod 16 = 0 /\
  if t_object t then
    free !! t_addr t = None /\ exists o size, m !! t_addr t = Some o /\ has_tag TAG_FREESPACE o = false /\
      computeRawObjectSize m o = Some size /\ align size HEAP_OBJECT_ALIGN = t_size t
  else m !! t_addr t = None /\ exists fs, free !! t_addr t = Some fs /\ fs_tags fs = TAG_FREESPACE /\ fs_size fs = t_size t.

(** Tiles back to back from [p] to [e]. *)
Fixpoint back_to_back (p : Z) (l : list Tile) (e : Z) : Prop :=
  match l with
  | [] => p = e
  | t :: l => t_addr t = p /\ back_to_back (p + t_size t) l e
  end.

(** No free chunk follows another. *)
Fixpoint coalesced (l : list Tile) : Prop :=
  match l with
  | t :: ((u :: _) as l') => (t_object t = true \/ t_object u = true) /\ coalesced l'
  | _ => True
  end.

Definition page_start (page : HeapPage) : Z := pg_addr page + 48.
Definition page_end (page : HeapPage) : Z := pg_addr page + pg_size page.
Definition in_page (page : HeapPage) (a : Z) : Prop := page_start page <= a < page_end page.

(** The page is tiled by [l], and holds nothing else. *)
Record page_tiles `{Target} (m : Memory) (free : gmap Z FreeSpace) (page : HeapPage) (l : list Tile) : Prop := {
  pt_ok : Forall (tile_ok m free) l;
  pt_seq : back_to_back (page_start page) l (page_end page);
  pt_only : forall a, in_page page a -> is_Some (m !! a) \/ is_Some (free !! a) -> a ∈ t_addr <$> l }.

(** The chunks of the free tiles. *)
Definition chunks_of (l : list Tile) : list (Z * Z) := (fun t => (t_addr t, t_size t)) <$> List.filter (fun t => negb (t_object t)) l.

Lemma back_app p l1 l2 e : back_to_back p (l1 ++ l2) e <-> exists q, back_to_back p l1 q /\ back_to_back q l2 e.
Proof.
  revert p. induction l1 as [|t l1 IH]; intros p; cbn [app back_to_back].
  - split; [intros Hb; by exists p|by intros (q & -> & Hb)].
  - rewrite IH. naive_solver.
Qed.

Lemma back_le p l e : Forall (fun t => 16 <= t_size t) l -> back_to_back p l e -> p <= e.
Proof.
  revert p. induction l as [|t l IH]; intros p HF Hb; cbn [back_to_back] in Hb; [lia|].
  apply Forall_cons_1 in HF as [Ht HF]. destruct Hb as [_ Hb]. specialize (IH _ HF Hb). lia.
Qed.

(** Where a tile lies. *)
Lemma tile_range p l e t : Forall (fun t => 16 <= t_size t) l -> back_to_back p l e -> t ∈ l -> p <= t_addr t /\ t_addr t + t_size t <= e.
Proof.
  revert p. induction l as [|u l IH]; intros p HF Hb Ht; [by apply not_elem_of_nil in Ht|].
  apply Forall_cons_1 in HF as [Hu HF]. destruct Hb as [Hp Hb]. apply elem_of_cons in Ht as [->|Ht].
  - pose proof (back_le _ _ _ HF Hb). lia.
  - destruct (IH _ HF Hb Ht). lia.
Qed.

(** Tiles do not overlap. *)
Lemma tiles_apart p l e t u : Forall (fun t => 16 <= t_size t) l -> back_to_back p l e -> t ∈ l -> u ∈ l ->
  t = u \/ t_addr t + t_size t <= t_addr u \/ t_addr u + t_size u <= t_addr t.
Proof.
  revert p. induction l as [|x l IH]; intros p HF Hb Ht Hu; [by apply not_elem_of_nil in Ht|].
  apply Forall_cons_1 in HF as [Hx HF]. destruct Hb as [Hp Hb].
  apply elem_of_cons in Ht as [->|Ht]; apply elem_of_cons in Hu as [->|Hu]; [by left| | |by eapply IH].
  - destruct (tile_range _ _ _ u HF Hb Hu). right. left. lia.
  - destruct (tile_range _ _ _ t HF Hb Ht). right. right. lia.
Qed.

(** There is nothing inside a tile. *)
Lemma tile_interior `{Target} m free page l t a : page_tiles m free page l -> t ∈ l -> t_addr t < a < t_addr t + t_size t ->
  m !! a = None /\ free !! a = None.
Proof.
  intros [HF Hb Hon] Ht Ha. assert (Forall (fun t => 16 <= t_size t) l) as HF' by (eapply Forall_impl; [exact HF|by intros u [? _]]).
  destruct (tile_range _ _ _ t HF' Hb Ht) as [H1 H2].
  assert (~ (is_Some (m !! a) \/ is_Some (free !! a))) as Hn.
  { intros Hs. apply Hon in Hs; [|unfold in_page; lia]. apply list_elem_of_fmap in Hs as (u & -> & Hu).
    rewrite Forall_forall in HF'. pose proof (HF' u Hu). destruct (tiles_apart _ _ _ t u (proj2 (Forall_forall _ _) HF') Hb Ht Hu) as [<-|]; lia. }
  destruct (m !! a), (free !! a); try done; exfalso; apply Hn; [left|left|right]; by eexists.
Qed.

Lemma chunks_app l1 l2 : chunks_of (l1 ++ l2) = chunks_of l1 ++ chunks_of l2.
Proof. unfold chunks_of. by rewrite List.filter_app, fmap_app. Qed.

Lemma chunks_in l x : x ∈ chunks_of l <-> exists t, t ∈ l /\ t_object t = false /\ x = (t_addr t, t_size t).
Proof.
  unfold chunks_of. rewrite list_elem_of_fmap. setoid_rewrite list_elem_of_In. setoid_rewrite filter_In. setoid_rewrite negb_true_iff. naive_solver.
Qed.

(** The last tile is an object. *)
Definition ends_live (l : list Tile) : Prop := l = [] \/ exists l' u, l = l' ++ [u] /\ t_object u = true.

Lemma coalesced_app l k : coalesced l -> ends_live l -> coalesced k -> coalesced (l ++ k).
Proof.
  intros Hl [->|(l' & u & -> & Hu)] Hk; [done|]. revert Hl. induction l' as [|x l' IH]; intros Hl.
  - cbn [app]. destruct k as [|y k]; [done|]. cbn. split; [by left|done].
  - cbn [app] in *. destruct (l' ++ [u]) as [|y l] eqn:E; [by destruct l'|]. cbn [app coalesced] in *. destruct Hl as [H1 H2].
    split; [done|]. by apply IH.
Qed.

(** ** Free lists *)

Lemma outside_lookup {A} lo hi (m : gmap Z A) a : outside lo hi m !! a = if bool_decide (lo <= a < hi) then None else m !! a.
Proof.
  unfold outside. case_bool_decide as E.
  - apply map_lookup_filter_None. right. intros x _ Hn. by apply Hn.
  - destruct (m !! a) as [x|] eqn:Ea; [by apply map_lookup_filter_Some|]. apply map_lookup_filter_None. by left.
Qed.

Lemma empty_list_inv free : free_inv free emptyFreeList (replicate (S FREE_LIST_SIZE) []).
Proof.
  constructor; cbn [emptyFreeList freeSpaces freeMap].
  - apply length_replicate.
  - apply length_replicate.
  - split; [apply length_replicate|]. apply Forall_replicate. lia.
  - intros i l [-> Hi]%lookup_replicate. exists 0. split; [by apply lookup_replicate_2|done].
  - intros i l [-> _]%lookup_replicate. constructor.
  - by rewrite concat_nils.
  - intros i l Hlt [-> _]%lookup_replicate. rewrite bool_decide_eq_true_2 by done. unfold map_bit.
    destruct (replicate FREE_MAP_SIZE 0 !! (i / 8)%nat) eqn:E; [|done]. apply lookup_replicate in E as [-> _]. by rewrite Z.bits_0.
Qed.

(** The header of a chunk on the list. *)
Lemma chunk_header mem fl bins a s : free_inv mem fl bins -> (a, s) ∈ concat bins ->
  exists fs, mem !! a = Some fs /\ fs_tags fs = TAG_FREESPACE /\ fs_size fs = s.
Proof.
  intros I Hx. apply list_elem_of_In, List.in_concat in Hx as (l & Hl & Hx). apply list_elem_of_In in Hl, Hx.
  apply list_elem_of_lookup in Hl as [i Hi]. destruct (inv_chain _ _ _ I i l Hi) as (p & _ & Hc). clear Hi.
  revert p Hc. induction l as [|[b t] l IH]; intros p Hc; [by apply not_elem_of_nil in Hx|].
  destruct Hc as (-> & next & Hb & Hc). apply elem_of_cons in Hx as [[= -> ->]|Hx]; [by eexists|by eapply IH].
Qed.

(** The list does not look at what is not a header of one of its chunks. *)
Lemma free_inv_change mem mem' fl bins : free_inv mem fl bins -> (forall a, a ∈ (concat bins).*1 -> mem' !! a = mem !! a) -> free_inv mem' fl bins.
Proof.
  intros I Hm. constructor; try apply I. intros i l Hi. destruct (inv_chain _ _ _ I i l Hi) as (p & Hp & Hc). exists p. split; [done|].
  assert (forall a, a ∈ l.*1 -> mem' !! a = mem !! a) as Hl.
  { intros a (x & -> & Hx)%list_elem_of_fmap. apply Hm, list_elem_of_fmap_2. by apply (concat_lookup bins i l). }
  clear Hp Hi. revert p Hc. induction l as [|[b t] l IH]; intros p Hc; [done|]. destruct Hc as (-> & next & Hb & Hc). split; [done|].
  exists next. split; [by rewrite Hl by (cbn; left)|]. apply IH; [|done]. intros a Ha. apply Hl. cbn. by right.
Qed.

(** ** The sweep of a heap *)

Section Sweeping.
Context `{Target} (osPageSize : Z) (classes : Classes).
(** The heap at the start, and the classes whose instances have a finalizer. *)
Context (m0 : Memory) (fr0 : gmap Z FreeSpace) (pages0 : list HeapPage) (finalizer : Z -> bool).

(** A dead object that is kept for its finalizer. *)
Definition condemned (o : RawObject) : bool :=
  negb (has_tag TAG_MARKED o) && negb (has_tag TAG_FINALIZED o) && finalizer (o_class o).

(** What becomes of an object. *)
Definition survivor (o : RawObject) : option RawObject :=
  if has_tag TAG_MARKED o then Some (set_tags (Z.lxor (o_tags o) TAG_MARKED) o)
  else if condemned o then Some (set_tags (Z.lor (Z.lxor (o_tags o) TAG_MARKED) TAG_FINALIZED) o)
  else None.

Definition in_old (a : Z) : Prop := Exists (fun page => in_page page a) pages0.

(** When a sweep may run.  The class of an object must outlive the sweep: the
    sizes of dead objects are read through it. *)
Record sweepable : Prop := {
  sa_pages : Forall page_ok pages0;
  sa_disjoint : forall i j p q, pages0 !! i = Some p -> pages0 !! j = Some q -> i <> j ->
    page_end p <= pg_addr q \/ page_end q <= pg_addr p;
  sa_headers : forall page a, page ∈ pages0 -> pg_addr page <= a < page_start page -> m0 !! a = None;
  sa_tiles : forall page, page ∈ pages0 -> exists l, page_tiles m0 fr0 page l;
  sa_free : forall a, is_Some (fr0 !! a) -> in_old a;
  sa_classes : forall a o, m0 !! a = Some o -> in_old a ->
    exists c, m0 !! o_class o = Some c /\ (is_Some (survivor c) \/ ~ in_old (o_class o));
  sa_lookup : forall a o, m0 !! a = Some o -> in_old a -> hasFinalizer classes o = Some (finalizer (o_class o));
  sa_pageSize : exists k, 12 <= k < 54 /\ osPageSize = 2 ^ k }.

Context (SA : sweepable).

#[local] Instance in_page_dec page a : Decision (in_page page a).
Proof. unfold in_page. apply _. Defined.

(** The addresses that were swept: the pages [P], and the current one from
    [lo] to [q]. *)
Definition done_to (P : list HeapPage) (lo q a : Z) : Prop := Exists (fun page => in_page page a) P \/ lo <= a < q.

#[local] Instance done_to_dec P lo q a : Decision (done_to P lo q a).
Proof. unfold done_to. apply _. Defined.

Lemma survivor_same o o' : survivor o = Some o' -> o_class o' = o_class o /\ o_body o' = o_body o.
Proof. unfold survivor. destruct (has_tag TAG_MARKED o); [by intros [= <-]|]. by destruct (condemned o); [intros [= <-]|]. Qed.

Record swept (P : list HeapPage) (lo q : Z) (chunks : list (Z * Z)) (s : Sweep) : Prop := {
  sw_done : forall a, done_to P lo q a -> w_mem s !! a = m0 !! a ≫= survivor /\ (is_Some (w_free s !! a) -> a ∈ chunks.*1);
  sw_rest : forall a, ~ done_to P lo q a -> w_mem s !! a = m0 !! a /\ w_free s !! a = fr0 !! a;
  sw_list : exists bins, free_inv (w_free s) (w_list s) bins /\ concat bins ≡ₚ chunks;
  sw_chunks : forall x, x ∈ chunks -> (exists page, page ∈ P /\ page_start page <= x.1 /\ x.1 + x.2 <= page_end page) \/ (lo <= x.1 /\ x.1 + x.2 <= q);
  sw_dead : forall x, x ∈ chunks -> m0 !! x.1 ≫= survivor = None;
  sw_finalize : NoDup (w_finalize s) /\
    forall a, a ∈ w_finalize s <-> done_to P lo q a /\ exists o, m0 !! a = Some o /\ condemned o = true;
  sw_released : forall r, r ∈ w_released s -> exists x, x ∈ chunks /\ x.1 + HEADER_SIZE <= r.1 /\ r.1 + r.2 <= x.1 + x.2 }.

(** What was swept stays as it is when the frontier moves over nothing. *)
Lemma swept_shape P lo q chunks s a o : incl P pages0 -> (forall b, lo <= b < q -> in_old b) ->
  swept P lo q chunks s -> m0 !! a = Some o -> in_old a -> computeRawObjectSize (w_mem s) o = computeRawObjectSize m0 o.
Proof.
  intros HP Hq S Ha Hin. destruct (sa_classes SA a o Ha Hin) as (c & Hc & Hk).
  assert (exists c', w_mem s !! o_class o = Some c' /\ o_body c' = o_body c) as (c' & Hc' & Eb).
  { destruct (decide (done_to P lo q (o_class o))) as [Hd|Hd].
    - rewrite (proj1 (sw_done _ _ _ _ _ S _ Hd)), Hc. cbn [mbind option_bind].
      assert (in_old (o_class o)) as Hold.
      { destruct Hd as [Hd|Hd]; [|by apply Hq]. apply Exists_exists in Hd as (page & Hp & Hd). apply Exists_exists. exists page.
        split; [|done]. apply list_elem_of_In, HP, list_elem_of_In. done. }
      destruct Hk as [[c' Ec]|Hn]; [|done]. exists c'. split; [done|]. by apply survivor_same in Ec as [_ ->].
    - exists c. by rewrite (proj1 (sw_rest _ _ _ _ _ S _ Hd)). }
  unfold computeRawObjectSize, instanceShape. rewrite Hc, Hc'. cbn [mbind option_bind]. by rewrite Eb.
Qed.

Lemma swept_min P lo q chunks s x : swept P lo q chunks s -> x ∈ chunks -> 16 <= x.2.
Proof.
  intros S Hx. destruct (sw_list _ _ _ _ _ S) as (bins & I & HB). rewrite <- HB in Hx.
  destruct (inv_sizes _ _ _ x I Hx) as (i & _ & _ & _ & Hs & _). lia.
Qed.

(** A dead region has no condemned object. *)
Lemma dead_region a o : m0 !! a ≫= survivor = None -> m0 !! a = Some o -> condemned o = true -> False.
Proof. intros Hd Ho Hc. rewrite Ho in Hd. cbn [mbind option_bind] in Hd. unfold survivor in Hd. rewrite Hc in Hd. by destruct (has_tag TAG_MARKED o). Qed.

(** ** Runs *)

Lemma land_le x y : 0 <= x -> 0 <= y -> Z.land x y <= x.
Proof. intros Hx Hy. rewrite <- (Z2N.id x), <- (Z2N.id y), <- N2Z.inj_land by done. pose proof (N.land_le_l (Z.to_N x) (Z.to_N y)). lia. Qed.

Lemma release_inside st sz r : 0 < st -> 0 < sz -> st + sz < 2 ^ 63 -> r ∈ releasable osPageSize st sz ->
  st + HEADER_SIZE <= r.1 /\ r.1 + r.2 <= st + sz.
Proof.
  intros Hst Hsz Hlt. destruct (sa_pageSize SA) as (k & Hk & Ek). unfold releasable. destruct (Z.leb_spec (256 * 1024) sz); [|by intros ?%not_elem_of_nil].
  assert (0 < 2 ^ k) by (apply Z.pow_pos_nonneg; lia). assert (2 ^ k <= 2 ^ 53) by (apply Z.pow_le_mono_r; lia).
  rewrite Ek. replace (Z.lnot (2 ^ k - 1)) with (- 2 ^ k) by (unfold Z.lnot; lia).
  fold (align (st + HEADER_SIZE) (2 ^ k)). rewrite align_pow2 by (unfold HEADER_SIZE; lia).
  set (lo := (st + HEADER_SIZE + 2 ^ k - 1) / 2 ^ k * 2 ^ k). assert (st + HEADER_SIZE <= lo) as Hlo.
  { unfold lo. pose proof (Z.div_mod (st + HEADER_SIZE + 2 ^ k - 1) (2 ^ k) ltac:(lia)).
    pose proof (Z.mod_pos_bound (st + HEADER_SIZE + 2 ^ k - 1) (2 ^ k) ltac:(lia)). lia. }
  set (hi := Z.land (u64 (st + sz)) (u64 (- 2 ^ k))). assert (hi <= st + sz) as Hhi.
  { unfold hi. rewrite (u64_id (st + sz)) by lia. apply land_le; [lia|apply u64_range]. }
  destruct (Z.ltb_spec lo hi); [|by intros ?%not_elem_of_nil]. intros ->%list_elem_of_singleton. cbn [fst snd]. lia.
Qed.

(** A run that ends where the walk is goes on the free list. *)
Lemma flush_ok P lo q p chunks s :
  swept P lo q chunks s -> w_run s = Some (q, p - q) -> lo <= q -> 0 < q -> q mod 16 = 0 -> p mod 16 = 0 -> q < p -> p - q < 2 ^ 56 -> p < 2 ^ 63 ->
  (forall a, q <= a < p -> m0 !! a ≫= survivor = None) -> (forall page, page ∈ P -> page_end page <= q \/ p <= page_start page) ->
  exists s', flushRun osPageSize s = Some s' /\ swept P lo p ((q, p - q) :: chunks) s' /\ w_run s' = None /\ w_pages s' = w_pages s.
Proof.
  intros S Er Hlo Hq0 Hq Hp Hlt Hsz Hmax Hdead HP. unfold flushRun. rewrite Er. replace (q + (p - q)) with p by lia.
  assert ((p - q) mod 16 = 0) as Hm by (rewrite Zminus_mod, Hp, Hq; done).
  assert (16 <= p - q) as H16 by (pose proof (Z.div_mod (p - q) 16 ltac:(lia)); lia).
  unfold createFreeSpace, HEAP_OBJECT_ALIGN. rewrite Hq, Hm. cbn [Z.eqb ASSERT mbind option_bind].
  destruct (Z.leb_spec 16 (p - q)); [|lia]. cbn [ASSERT mbind option_bind]. rewrite (Z.mod_small (p - q)) by lia.
  destruct (sw_list _ _ _ _ _ S) as (bins & I & HB).
  assert (forall x, x ∈ chunks -> 16 <= x.2) as Hmin by (intros x; by apply (swept_min P lo q chunks s)).
  assert (forall x, x ∈ chunks -> disj (q, p - q) x) as Hdj.
  { intros x Hx. specialize (Hmin x Hx). unfold disj. cbn [fst snd]. destruct (sw_chunks _ _ _ _ _ S x Hx) as [(page & Hpg & H1 & H2)|[H1 H2]]; [|lia].
    destruct (HP page Hpg); lia. }
  set (free1 := <[q := _]> (outside q p (w_free s))).
  assert (free_inv free1 (w_list s) bins) as I1.
  { apply (free_inv_change _ _ _ _ I). intros a (x & -> & Hx)%list_elem_of_fmap. rewrite HB in Hx. specialize (Hmin x Hx). specialize (Hdj x Hx).
    unfold disj in Hdj. cbn [fst snd] in Hdj. unfold free1. rewrite lookup_insert_ne, outside_lookup, bool_decide_eq_false_2 by lia. done. }
  destruct (add_spec free1 (w_list s) bins q (p - q) 0 (indexForSize (p - q)) I1) as (free2 & fl2 & bins2 & -> & I2 & HB2 & Hother).
  { unfold free1. by rewrite lookup_insert_eq. }
  { unfold chunk_ok, HEAP_OBJECT_ALIGN. cbn [fst snd]. split_and!; done || lia. }
  { apply Forall_forall. intros x Hx. rewrite HB in Hx. by apply Hdj. }
  cbn [mbind option_bind]. eexists. split; [done|]. split; [|done].
  assert (forall a, a <> q -> free2 !! a = if bool_decide (q <= a < p) then None else w_free s !! a) as Hfree.
  { intros a Ha. rewrite Hother by done. unfold free1. by rewrite lookup_insert_ne, outside_lookup by done. }
  constructor; cbn [w_mem w_free w_list w_finalize w_released].
  - intros a Hd. rewrite outside_lookup. destruct (decide (q <= a < p)) as [Hr|Hr].
    + rewrite bool_decide_eq_true_2 by done. split; [symmetry; by apply Hdead|]. destruct (decide (a = q)) as [->|Hne]; [left|].
      rewrite Hfree, bool_decide_eq_true_2 by done. by intros [? ?].
    + rewrite bool_decide_eq_false_2 by done. assert (done_to P lo q a) as Hd' by (destruct Hd as [Hd|Hd]; [by left|right; lia]).
      destruct (sw_done _ _ _ _ _ S a Hd') as [-> Hf]. split; [done|]. rewrite Hfree, bool_decide_eq_false_2 by (done || lia). intros Hs. right. by apply Hf.
  - intros a Hd. assert (~ done_to P lo q a) as Hd' by (intros [Hd'|Hd']; apply Hd; [by left|right; lia]).
    assert (~ q <= a < p) as Hr by (intros Hr; apply Hd; right; lia). destruct (sw_rest _ _ _ _ _ S a Hd') as [E1 E2].
    rewrite outside_lookup, Hfree, !bool_decide_eq_false_2 by (done || lia). done.
  - exists bins2. split; [done|]. by rewrite HB2, HB.
  - intros x [->|Hx]%elem_of_cons; [right; cbn [fst snd]; lia|]. destruct (sw_chunks _ _ _ _ _ S x Hx) as [|[? ?]]; [by left|right; lia].
  - intros x [->|Hx]%elem_of_cons; [apply Hdead; cbn [fst]; lia|by apply (sw_dead _ _ _ _ _ S)].
  - destruct (sw_finalize _ _ _ _ _ S) as [ND Hin]. split; [done|]. intros a. rewrite Hin. split.
    + intros [[Hd|Hd] Ho]; (split; [|done]); [by left|right; lia].
    + intros [Hd (o & Ho & Hc)]. split; [|by exists o]. destruct Hd as [Hd|Hd]; [by left|]. destruct (decide (a < q)); [right; lia|].
      by destruct (dead_region a o (Hdead a ltac:(lia)) Ho Hc).
  - intros r [Hr|Hr]%elem_of_app.
    + destruct (sw_released _ _ _ _ _ S r Hr) as (x & Hx & Hrx). exists x. split; [by right|done].
    + exists (q, p - q). split; [left|]. apply release_inside in Hr; cbn [fst snd]; lia.
Qed.

Lemma swept_perm P lo q chunks chunks' s : chunks ≡ₚ chunks' -> swept P lo q chunks s -> swept P lo q chunks' s.
Proof.
  intros Hp []. constructor; try done.
  - intros a Ha. destruct (sw_done0 a Ha). by rewrite <- Hp.
  - destruct sw_list0 as (bins & I & HB). exists bins. split; [done|]. by rewrite HB.
  - intros x. rewrite <- Hp. apply sw_chunks0.
  - intros x. rewrite <- Hp. apply sw_dead0.
  - intros r Hr. destruct (sw_released0 r Hr) as (x & Hx). exists x. by rewrite <- Hp.
Qed.

Lemma swept_run P lo q chunks s r : swept P lo q chunks s -> swept P lo q chunks (set_run r s).
Proof. by intros []. Qed.

(** The frontier moves over an object that stays. *)
Lemma keep_ok P lo p e chunks s o o' :
  swept P lo p chunks s -> lo <= p < e -> m0 !! p = Some o -> survivor o = Some o' -> fr0 !! p = None ->
  (forall a, p < a < e -> m0 !! a = None /\ fr0 !! a = None) -> (forall a, p <= a < e -> ~ Exists (fun page => in_page page a) P) ->
  swept P lo e chunks (set_object p o' (mkSweep (w_mem s) (w_free s) (w_list s) (w_pages s) (w_run s)
    (if condemned o then w_finalize s ++ [p] else w_finalize s) (w_released s))).
Proof.
  intros S Hpe Ho Hs Hf Hin HP.
  assert (forall a, done_to P lo e a -> done_to P lo p a \/ p <= a < e) as Hdone.
  { intros a [Hd|Hd]; [left; by left|]. destruct (decide (a < p)); [left; right; lia|right; lia]. }
  assert (forall a, p <= a < e -> ~ done_to P lo p a) as Hnot by (intros a Ha [Hd|Hd]; [by apply (HP a)|lia]).
  assert (forall a, done_to P lo p a -> done_to P lo e a) as Hmono by (intros a [Hd|Hd]; [by left|right; lia]).
  constructor; cbn [set_object w_mem w_free w_list w_finalize w_released].
  - intros a Hd. destruct (Hdone a Hd) as [Hd'|Ha].
    + rewrite lookup_insert_ne by (intros <-; by apply (Hnot p); [lia|]). by apply (sw_done _ _ _ _ _ S).
    + destruct (sw_rest _ _ _ _ _ S a (Hnot a Ha)) as [E1 E2]. destruct (decide (a = p)) as [->|Hne].
      * rewrite lookup_insert_eq, Ho, E2, Hf. split; [done|]. by intros [? ?].
      * destruct (Hin a ltac:(lia)) as [H1 H2]. rewrite lookup_insert_ne, E1, E2, H1, H2 by done. split; [done|]. by intros [? ?].
  - intros a Hd. assert (~ done_to P lo p a) as Hd' by (intros Hd'; by apply Hd, Hmono).
    rewrite lookup_insert_ne; [by apply (sw_rest _ _ _ _ _ S)|]. intros <-. apply Hd. right. lia.
  - apply (sw_list _ _ _ _ _ S).
  - intros x Hx. destruct (sw_chunks _ _ _ _ _ S x Hx) as [|[? ?]]; [by left|right; lia].
  - apply (sw_dead _ _ _ _ _ S).
  - destruct (sw_finalize _ _ _ _ _ S) as [ND Hfi].
    assert (forall a, (done_to P lo e a /\ exists o, m0 !! a = Some o /\ condemned o = true) <->
      (done_to P lo p a /\ exists o, m0 !! a = Some o /\ condemned o = true) \/ (a = p /\ condemned o = true)) as Heq.
    { intros a. split.
      - intros [Hd (x & Hx & Hc)]. destruct (Hdone a Hd) as [Hd'|Ha]; [left; split; [done|by exists x]|]. destruct (decide (a = p)) as [->|Hne].
        + right. split; [done|]. congruence.
        + destruct (Hin a ltac:(lia)). congruence.
      - intros [[Hd Hx]|[-> Hc]]; [split; [by apply Hmono|done]|]. split; [right; lia|]. by exists o. }
    destruct (condemned o) eqn:Ec.
    + split; [|intros a; rewrite Heq, elem_of_app, Hfi, list_elem_of_singleton; tauto]. apply NoDup_app. split; [done|].
      split; [|apply NoDup_singleton]. intros a Ha ->%list_elem_of_singleton. apply Hfi in Ha as [Hd _]. by apply (Hnot p); [lia|].
    + split; [done|]. intros a. rewrite Heq, Hfi. naive_solver.
  - apply (sw_released _ _ _ _ _ S).
Qed.

(** ** One page *)

(** A tile of a page after the sweep, told by the heap before it. *)
Definition left_tile (t : Tile) : Prop :=
  16 <= t_size t /\ t_size t mod 16 = 0 /\
  if t_object t then
    exists o o' size, m0 !! t_addr t = Some o /\ survivor o = Some o' /\ has_tag TAG_FREESPACE o = false /\ fr0 !! t_addr t = None /\
      computeRawObjectSize m0 o = Some size /\ align size HEAP_OBJECT_ALIGN = t_size t
  else forall a, t_addr t <= a < t_addr t + t_size t -> m0 !! a ≫= survivor = None.

Section Page.
Context (P : list HeapPage) (page : HeapPage) (tiles : list Tile) (G : list (Z * Z)) (ps : PageSpace).
Context (HP : forall p, p ∈ P -> p ∈ pages0) (Hpage : page ∈ pages0) (PT : page_tiles m0 fr0 page tiles).
Context (Hapart : forall p, p ∈ P -> page_end p <= page_start page \/ page_end page <= page_start p).

(** The walk is at [p]; [T] are the tiles it leaves up to [q], and from [q] to
    [p] everything is dead. *)
Record walking (q p : Z) (T : list Tile) (live : bool) (s : Sweep) : Prop := {
  wk_swept : swept P (page_start page) q (chunks_of T ++ G) s;
  wk_pages : w_pages s = ps;
  wk_run : (w_run s = None /\ q = p) \/ (w_run s = Some (q, p - q) /\ q < p);
  wk_dead : forall a, q <= a < p -> m0 !! a ≫= survivor = None;
  wk_seq : back_to_back (page_start page) T q;
  wk_tiles : Forall left_tile T;
  wk_coalesced : coalesced T;
  wk_last : ends_live T;
  wk_live : live = true <-> T <> [];
  wk_bounds : page_start page <= q <= p /\ p <= page_end page;
  wk_align : q mod 16 = 0 /\ p mod 16 = 0 }.

Lemma page_bounds : 0 < page_start page /\ page_start page mod 16 = 0 /\ page_end page < 2 ^ 63 /\ page_end page - page_start page < 2 ^ 54.
Proof.
  pose proof (sa_pages SA) as HF. rewrite Forall_forall in HF. destruct (HF page Hpage) as (H1 & H2 & H3 & H4 & H5 & _). unfold page_start, page_end.
  rewrite <- Zplus_mod_idemp_l, H2. split_and!; done || lia.
Qed.

Lemma page_old a : in_page page a -> in_old a.
Proof. intros Ha. apply Exists_exists. by exists page. Qed.

Lemma page_fresh lo q a : in_page page a -> q <= a -> ~ done_to P lo q a.
Proof.
  intros Ha Hq [Hd|Hd]; [|lia]. apply Exists_exists in Hd as (p & Hp & Hd). unfold in_page in *. destruct (Hapart p Hp); lia.
Qed.

Lemma align_size v : 0 <= v < 2 ^ 63 -> v mod 16 = 0 -> align v HEAP_OBJECT_ALIGN = v.
Proof.
  intros Hv Hm. change HEAP_OBJECT_ALIGN with (2 ^ 4). rewrite align_pow2 by lia. change (2 ^ 4) with 16.
  pose proof (Z.div_mod v 16 ltac:(lia)) as E. rewrite Hm in E. replace (v + 16 - 1) with (15 + v / 16 * 16) by lia.
  rewrite Z.div_add by lia. change (15 / 16) with 0. lia.
Qed.

(** The dead region grows by a tile. *)
Lemma region_ok q p T live s t :
  walking q p T live s -> t ∈ tiles -> t_addr t = p -> 16 <= t_size t -> t_size t mod 16 = 0 -> m0 !! p ≫= survivor = None ->
  exists s', freeRegion osPageSize s p (t_size t) = Some s' /\ walking q (p + t_size t) T live s'.
Proof.
  intros W Ht Ea Hs Hm Hd. pose proof (wk_bounds _ _ _ _ _ W) as Hb. pose proof (wk_align _ _ _ _ _ W) as Hal.
  assert (forall r, r = Some (q, p + t_size t - q) -> walking q (p + t_size t) T live (set_run r s)) as HW.
  { intros r ->. constructor; try apply W.
    - apply swept_run, W.
    - right. cbn [set_run w_run]. split; [done|lia].
    - intros a Ha. destruct (decide (a < p)) as [Hlt|Hge]; [apply (wk_dead _ _ _ _ _ W); lia|]. destruct (decide (a = p)) as [->|Hne]; [done|].
      destruct (tile_interior m0 fr0 page tiles t a PT Ht ltac:(lia)) as [-> _]. done.
    - assert (Forall (fun t => 16 <= t_size t) tiles) as HF by (eapply Forall_impl; [apply (pt_ok _ _ _ _ PT)|by intros u [? _]]).
      destruct (tile_range _ _ _ t HF (pt_seq _ _ _ _ PT) Ht). lia.
    - rewrite Z.add_mod by lia. split; [apply W|]. by rewrite Hm, (proj2 Hal). }
  unfold freeRegion. destruct (wk_run _ _ _ _ _ W) as [[-> ->]|[-> Hlt]].
  - eexists. split; [done|]. apply HW. do 2 f_equal. lia.
  - destruct (Z.eqb_spec p (q + (p - q))); [|lia]. eexists. split; [done|]. apply HW. do 2 f_equal. lia.
Qed.

(** Closing the region: a chunk, or nothing. *)
Lemma close_ok q p T live s : walking q p T live s ->
  exists s' c, flushRun osPageSize s = Some s' /\ swept P (page_start page) p (chunks_of (T ++ c) ++ G) s' /\ w_run s' = None /\
    w_pages s' = ps /\ back_to_back (page_start page) (T ++ c) p /\ Forall left_tile (T ++ c) /\
    (c = [] /\ q = p \/ exists f, c = [f] /\ t_object f = false).
Proof.
  intros W. pose proof (wk_bounds _ _ _ _ _ W) as Hb. pose proof (wk_align _ _ _ _ _ W) as [Hq Hp]. pose proof page_bounds as (B1 & B2 & B3 & B4).
  destruct (wk_run _ _ _ _ _ W) as [[Er ->]|[Er Hlt]].
  - exists s, []. rewrite !app_nil_r. split; [unfold flushRun; by rewrite Er|]. split_and!; try apply W; [done|by left].
  - destruct (flush_ok P (page_start page) q p _ s (wk_swept _ _ _ _ _ W) Er) as (s' & E & S & Er' & Ep); try done; try lia.
    { apply W. }
    { intros x Hx. destruct (Hapart x Hx); lia. }
    exists s', [mkTile q (p - q) false]. split; [done|]. split; [|split; [done|split; [rewrite Ep; apply W|]]].
    + eapply swept_perm; [|exact S]. rewrite chunks_app. change (chunks_of [mkTile q (p - q) false]) with [(q, p - q)].
      rewrite <- app_assoc. by rewrite Permutation_middle.
    + split; [|split; [|right; by eexists]].
      * apply back_app. exists q. split; [apply W|]. cbn [back_to_back t_addr t_size]. split; [done|lia].
      * apply Forall_app. split; [apply W|]. constructor; [|constructor]. unfold left_tile. cbn [t_addr t_size t_object].
        assert ((p - q) mod 16 = 0) as Hm by (rewrite Zminus_mod, Hp, Hq; done). split; [pose proof (Z.div_mod (p - q) 16 ltac:(lia)); lia|].
        split; [done|]. intros a Ha. apply (wk_dead _ _ _ _ _ W). lia.
Qed.

(** An object stays. *)
Lemma survive_ok q p T live s t o o' size :
  walking q p T live s -> t ∈ tiles -> t_addr t = p -> 16 <= t_size t -> t_size t mod 16 = 0 ->
  m0 !! p = Some o -> survivor o = Some o' -> has_tag TAG_FREESPACE o = false -> fr0 !! p = None ->
  computeRawObjectSize m0 o = Some size -> align size HEAP_OBJECT_ALIGN = t_size t ->
  exists s1 T', flushRun osPageSize s = Some s1 /\ walking (p + t_size t) (p + t_size t) T' true
    (set_object p o' (mkSweep (w_mem s1) (w_free s1) (w_list s1) (w_pages s1) (w_run s1)
      (if condemned o then w_finalize s1 ++ [p] else w_finalize s1) (w_released s1))).
Proof.
  intros W Ht Ea Hs Hm Ho Hsu Hfs Hfr Hsz Hal. pose proof (wk_bounds _ _ _ _ _ W) as Hb.
  assert (Forall (fun t => 16 <= t_size t) tiles) as HF by (eapply Forall_impl; [apply (pt_ok _ _ _ _ PT)|by intros u [? _]]).
  destruct (tile_range _ _ _ t HF (pt_seq _ _ _ _ PT) Ht) as [R1 R2].
  destruct (close_ok q p T live s W) as (s1 & c & E & S & Er & Ep & Hseq & Htl & Hc). set (u := mkTile p (t_size t) true). exists s1, ((T ++ c) ++ [u]). split; [done|].
  assert (chunks_of ((T ++ c) ++ [u]) = chunks_of (T ++ c)) as Ech by (rewrite chunks_app; apply app_nil_r).
  constructor; cbn [set_object w_pages w_run].
  - rewrite Ech. apply keep_ok; try done; [lia| |].
    + intros a Ha. apply (tile_interior m0 fr0 page tiles t a PT Ht). lia.
    + intros a Ha Hd. apply (page_fresh (page_start page) p a); [unfold in_page; lia|lia|by left].
  - done.
  - by left.
  - intros a Ha. lia.
  - apply back_app. exists p. split; [done|]. cbn [back_to_back u t_addr t_size]. done.
  - apply Forall_app. split; [done|]. constructor; [|constructor]. unfold left_tile. cbn [u t_addr t_size t_object]. split; [done|]. split; [done|].
    by exists o, o', size.
  - rewrite <- app_assoc. apply coalesced_app; [apply W|apply W|]. destruct Hc as [[-> _]|(f & -> & _)]; cbn; tauto.
  - right. by exists (T ++ c), u.
  - split; [|done]. intros _. by destruct (T ++ c).
  - lia.
  - rewrite Z.add_mod, (proj2 (wk_align _ _ _ _ _ W)), Hm by lia. done.
Qed.

(** One cell. *)
Lemma cell_step q p T live s t : walking q p T live s -> t ∈ tiles -> t_addr t = p ->
  exists s' kept q' T', sweepCell osPageSize classes s p = Some (s', t_size t, kept) /\ walking q' (p + t_size t) T' (live || kept) s'.
Proof.
  intros W Ht Ea. pose proof (pt_ok _ _ _ _ PT) as HF. rewrite Forall_forall in HF. destruct (HF t Ht) as (Hs & Hm & Hk). rewrite Ea in Hk.
  pose proof (wk_bounds _ _ _ _ _ W) as Hb. pose proof page_bounds as (B1 & B2 & B3 & B4).
  assert (Forall (fun t => 16 <= t_size t) tiles) as HF' by (apply Forall_forall; intros u Hu; by apply HF).
  destruct (tile_range _ _ _ t HF' (pt_seq _ _ _ _ PT) Ht) as [R1 R2].
  assert (in_page page p) as Hin by (unfold in_page; lia).
  destruct (sw_rest _ _ _ _ _ (wk_swept _ _ _ _ _ W) p) as [E1 E2]; [apply page_fresh; [done|lia]|]. unfold sweepCell. rewrite E1, E2.
  destruct (t_object t).
  2: { destruct Hk as [Hmp (fs & -> & Htag & Efs)]. rewrite Hmp. cbn [mbind option_bind]. rewrite Htag, Efs. cbn [ASSERT mbind option_bind].
       rewrite align_size by (done || lia). destruct (region_ok q p T live s t W Ht Ea Hs Hm) as (s' & -> & W'); [by rewrite Hmp|].
       cbn [mbind option_bind]. exists s', false, q, T. by rewrite orb_false_r. }
  destruct Hk as (Hfr & o & size & Ho & Hfs & Hsz & Hal). rewrite Ho. cbn [mbind option_bind]. rewrite Hfs. cbn [negb ASSERT mbind option_bind].
  rewrite (swept_shape P (page_start page) q (chunks_of T ++ G) s p o), Hsz; try done; [|intros x Hx; apply list_elem_of_In, HP, list_elem_of_In, Hx| |apply W|by apply page_old].
  2: { intros b Hbq. apply page_old. unfold in_page. lia. }
  cbn [mbind option_bind]. rewrite Hal.
  assert (forall o', survivor o = Some o' -> exists s1 T', flushRun osPageSize s = Some s1 /\ walking (p + t_size t) (p + t_size t) T' true
    (set_object p o' (mkSweep (w_mem s1) (w_free s1) (w_list s1) (w_pages s1) (w_run s1)
      (if condemned o then w_finalize s1 ++ [p] else w_finalize s1) (w_released s1)))) as HS
    by (intros o' Ho'; by apply (survive_ok q p T live s t o o' size)).
  unfold survivor in HS. pose proof (sa_lookup SA p o Ho (page_old p Hin)) as Hl. unfold condemned in HS.
  destruct (has_tag TAG_MARKED o) eqn:Emk; cbn [negb andb] in HS.
  - destruct (HS _ eq_refl) as (s1 & T' & -> & W'). cbn [mbind option_bind]. destruct s1. eexists _, true, _, T'. split; [done|]. by rewrite orb_true_r.
  - assert ((if has_tag TAG_FINALIZED o then Some false else hasFinalizer classes o) = Some (negb (has_tag TAG_FINALIZED o) && finalizer (o_class o))) as ->
      by (rewrite Hl; by destruct (has_tag TAG_FINALIZED o)).
    cbn [mbind option_bind]. destruct (negb (has_tag TAG_FINALIZED o) && finalizer (o_class o)) eqn:Ec.
    + destruct (HS _ eq_refl) as (s1 & T' & -> & W'). cbn [mbind option_bind]. eexists _, true, _, T'. split; [done|]. by rewrite orb_true_r.
    + destruct (region_ok q p T live s t W Ht Ea Hs Hm) as (s' & -> & W'); [rewrite Ho; cbn [mbind option_bind]; unfold survivor, condemned; rewrite Emk; cbn [negb andb]; by rewrite Ec|].
      cbn [mbind option_bind]. exists s', false, q, T. by rewrite orb_false_r.
Qed.

(** The whole page: the tiles it leaves, up to a last region of dead cells. *)
Lemma page_walk s : swept P (page_start page) (page_start page) G s -> w_pages s = ps ->
  exists q T live s', sweepPage osPageSize classes s page = Some (s', live) /\ walking q (page_end page) T live s'.
Proof.
  intros S Ep. pose proof page_bounds as (B1 & B2 & B3 & B4). pose proof (sa_pages SA) as HPG. rewrite Forall_forall in HPG.
  destruct (HPG page Hpage) as (Q1 & Q2 & Q3 & Q4 & Q5 & Q6 & Q7).
  assert (align (body page) HEAP_OBJECT_ALIGN = page_start page) as Est.
  { change HEAP_OBJECT_ALIGN with (2 ^ 4). rewrite align_pow2, Q6 by (rewrite ?Q6; lia). change (2 ^ 4) with 16. unfold page_start.
    pose proof (Z.div_mod (pg_addr page) 16 ltac:(lia)) as E. rewrite Q2 in E. rewrite E.
    replace (16 * (pg_addr page / 16) + 0 + 40 + 16 - 1) with (7 + (pg_addr page / 16 + 3) * 16) by lia. rewrite Z.div_add by lia.
    change (7 / 16) with 0. lia. }
  assert (Forall (fun t => 16 <= t_size t) tiles) as HF by (eapply Forall_impl; [apply (pt_ok _ _ _ _ PT)|by intros u [? _]]).
  unfold sweepPage. rewrite Est.
  match goal with |- context [loop ?fu ?b ?st] =>
    destruct (loop_rule (fun '(s, p, live) => exists q T l1 l2, walking q p T live s /\ tiles = l1 ++ l2 /\ back_to_back p l2 (page_end page))
      (fun '(s, live) => exists q T, walking q (page_end page) T live s) (fun '(s, p, live) => Z.to_nat (page_end page - p)) fu b st)
      as ([s' live'] & E & q & T & W) end.
  - exists (page_start page), [], [], tiles. split; [|split; [done|apply (pt_seq _ _ _ _ PT)]]. constructor; try done.
    + apply swept_run, S.
    + by left.
    + intros a Ha. lia.
    + by left.
    + pose proof (back_le _ _ _ HF (pt_seq _ _ _ _ PT)). lia.
  - intros [[s1 p1] live1] (q & T & l1 & l2 & W & El & Hb). rewrite Q6, Q7. unfold page_end in *.
    destruct l2 as [|t l2]; cbn [back_to_back] in Hb.
    + subst p1. destruct (Z.ltb_spec (pg_addr page + pg_size page) (pg_addr page + 40 + (pg_size page - 48))); [lia|]. eexists. split; [done|]. by exists q, T.
    + destruct Hb as [Ea Hb]. assert (t ∈ tiles) as Ht by (rewrite El; set_solver). destruct (tile_range _ _ _ t HF (pt_seq _ _ _ _ PT) Ht) as [R1 R2].
      pose proof HF as HF'. rewrite Forall_forall in HF'. specialize (HF' t Ht). unfold page_end in R2.
      destruct (Z.ltb_spec p1 (pg_addr page + 40 + (pg_size page - 48))); [|lia].
      destruct (cell_step q p1 T live1 s1 t W Ht Ea) as (s2 & kept & q2 & T2 & -> & W2). cbn [mbind option_bind].
      eexists. split; [done|]. split; [|lia]. exists q2, T2, (l1 ++ [t]), l2. split; [done|]. by rewrite <- app_assoc.
  - unfold page_start, page_end in *. rewrite Q7. lia.
  - exists q, T, live', s'. by split.
Qed.
End Page.

(** ** All pages *)

(** Nothing of the current page is left to do. *)
Lemma page_finished P page chunks s : swept P (page_start page) (page_end page) chunks s -> swept (P ++ [page]) 0 0 chunks s.
Proof.
  assert (forall a, done_to (P ++ [page]) 0 0 a <-> done_to P (page_start page) (page_end page) a) as Heq.
  { intros a. unfold done_to. rewrite Exists_app, Exists_cons, Exists_nil. unfold in_page. split; [|tauto].
    intros [[?|[?|[]]]|?]; [by left|by right|lia]. }
  intros []. constructor; try done.
  - intros a Ha%Heq. by apply sw_done0.
  - intros a Ha. apply sw_rest0. by rewrite <- Heq.
  - intros x Hx. left. destruct (sw_chunks0 x Hx) as [(p & Hp & Hx')|Hx']; [exists p|exists page]; (split; [|done]); set_solver.
  - destruct sw_finalize0 as [? Hf]. split; [done|]. intros a. by rewrite Hf, Heq.
Qed.

Lemma page_begin P lo chunks s : swept P 0 0 chunks s -> swept P lo lo chunks s.
Proof.
  assert (forall a, done_to P lo lo a <-> done_to P 0 0 a) as Heq by (intros a; unfold done_to; split; (intros [?|?]; [by left|lia])).
  intros S. pose proof (fun x => swept_min P 0 0 chunks s x S) as Hmin. destruct S. constructor; try done.
  - intros a Ha%Heq. by apply sw_done0.
  - intros a Ha. apply sw_rest0. by rewrite <- Heq.
  - intros x Hx. specialize (Hmin x Hx). destruct (sw_chunks0 x Hx) as [|[? ?]]; [by left|lia].
  - destruct sw_finalize0 as [? Hf]. split; [done|]. intros a. by rewrite Hf, Heq.
Qed.

(** The tiles a page is left with. *)
Definition page_left (page : HeapPage) (T : list Tile) : Prop :=
  back_to_back (page_start page) T (page_end page) /\ Forall left_tile T /\ coalesced T.

Definition has_survivor (page : HeapPage) : Prop := exists a, in_page page a /\ is_Some (m0 !! a ≫= survivor).

Lemma keep_page P page G ps q T live s :
  (forall p, p ∈ P -> page_end p <= page_start page \/ page_end page <= page_start p) -> page ∈ pages0 ->
  walking P page G ps q (page_end page) T live s ->
  exists s' T', flushRun osPageSize s = Some s' /\ swept (P ++ [page]) 0 0 (chunks_of T' ++ G) s' /\ w_pages s' = ps /\ page_left page T'.
Proof.
  intros Hap Hpg W. destruct (close_ok P page G ps Hpg Hap _ _ _ _ _ W) as (s' & c & E & S & Er & Ep & Hb & Htl & Hc).
  exists s', (T ++ c). split; [done|]. split; [by apply page_finished|]. split; [done|]. split; [done|]. split; [done|].
  apply coalesced_app; [apply W|apply W|]. by destruct Hc as [[-> _]|(f & -> & _)].
Qed.

Lemma walk_survivors P page G ps q T live s : walking P page G ps q (page_end page) T live s -> live = true <-> has_survivor page.
Proof.
  intros W. rewrite (wk_live _ _ _ _ _ _ _ _ _ W). pose proof (wk_bounds _ _ _ _ _ _ _ _ _ W) as Hb. split.
  - intros Hne. destruct (wk_last _ _ _ _ _ _ _ _ _ W) as [|(T' & u & -> & Hu)]; [done|].
    pose proof (wk_tiles _ _ _ _ _ _ _ _ _ W) as HF. assert (Forall (fun t => 16 <= t_size t) (T' ++ [u])) as HF' by (eapply Forall_impl; [exact HF|by intros x [? _]]).
    assert (u ∈ T' ++ [u]) as Hin by set_solver. destruct (tile_range _ _ _ u HF' (wk_seq _ _ _ _ _ _ _ _ _ W) Hin).
    rewrite Forall_forall in HF. destruct (HF u Hin) as (Hs & _ & Hk). rewrite Hu in Hk. destruct Hk as (o & o' & sz & Ho & Hsv & _).
    exists (t_addr u). split; [unfold in_page; lia|]. rewrite Ho. cbn [mbind option_bind]. rewrite Hsv. by eexists.
  - intros (a & Ha & Hs) ->. pose proof (wk_seq _ _ _ _ _ _ _ _ _ W) as Eq. cbn [back_to_back] in Eq. subst q.
    rewrite (wk_dead _ _ _ _ _ _ _ _ _ W a) in Hs by (unfold in_page in Ha; lia). by destruct Hs.
Qed.

(** *** The index of the pages *)

Definition indexed (ps : PageSpace) (R : list HeapPage) : Prop := exists l, index_holds ps l /\ l ≡ₚ page_range <$> R.

Lemma same_base l r r' : ranges_sorted l -> r ∈ l -> r' ∈ l -> rbase r = rbase r' -> r = r'.
Proof.
  intros Hs Hr Hr' E. apply list_elem_of_lookup in Hr as [i Hi]. apply list_elem_of_lookup in Hr' as [j Hj].
  pose proof (sorted_range _ _ _ Hs Hi). pose proof (sorted_range _ _ _ Hs Hj).
  destruct (Nat.lt_trichotomy i j) as [Hlt|[->|Hlt]]; [|congruence|].
  - pose proof (sorted_lookup _ _ _ _ _ Hs Hi Hj Hlt). lia.
  - pose proof (sorted_lookup _ _ _ _ _ Hs Hj Hi Hlt). lia.
Qed.

Lemma index_drop ps page R R' : indexed ps R -> R ≡ₚ page :: R' ->
  exists ps', pageSpaceIndexRemove ps page = Some ps' /\ indexed ps' R' /\ pages ps' = pages ps.
Proof.
  intros (l & Hh & Hl) HR. rewrite HR in Hl. cbn [fmap list_fmap] in Hl.
  destruct (index_remove ps l page Hh) as (ps' & l' & E & Hh' & Ep & Hc). exists ps'. split; [done|]. split; [|done].
  assert (page_range page ∈ l) as Hin by (rewrite Hl; left). exists l'. split; [done|]. destruct Hc as [(r & Hb & Hr & _)|[Hn _]].
  - assert (r = page_range page) as ->.
    { apply (same_base l); [apply Hh|rewrite Hr; left|done|]. by rewrite Hb. }
    rewrite Hl in Hr. by apply (Permutation_cons_inv (a := page_range page)).
  - by destruct (Hn _ Hin).
Qed.

(** A page without survivors is given back. *)
Lemma drop_page P page G q T s R R' :
  (forall p, p ∈ P -> page_end p <= pg_addr page \/ page_end page <= pg_addr p) ->
  (forall p a, p ∈ pages0 -> in_page p a -> pg_addr page <= a < page_start page -> False) -> page ∈ pages0 ->
  indexed (w_pages s) R -> R ≡ₚ page :: R' -> walking P page G (w_pages s) q (page_end page) T false s ->
  exists s', dropPage s page = Some s' /\ swept (P ++ [page]) 0 0 G s' /\ indexed (w_pages s') R' /\ pages (w_pages s') = pages (w_pages s).
Proof.
  intros Hap Hhd Hpg HI HR W. assert (T = []) as ->.
  { destruct T as [|u T]; [done|]. by assert (false = true) by (by apply (wk_live _ _ _ _ _ _ _ _ _ W)). }
  pose proof (wk_seq _ _ _ _ _ _ _ _ _ W) as Eq. cbn [back_to_back] in Eq. subst q.
  unfold dropPage. destruct (index_drop _ page R R' HI HR) as (ps' & -> & HI' & Ep). cbn [mbind option_bind]. eexists. split; [done|].
  split; [|done]. apply page_finished. change (pg_addr page + pg_size page) with (page_end page).
  pose proof (wk_swept _ _ _ _ _ _ _ _ _ W) as S. cbn [chunks_of List.filter fmap list_fmap app] in S.
  assert (pg_addr page < page_start page) as Hps by (unfold page_start; lia).
  assert (forall a, pg_addr page <= a < page_end page -> ~ Exists (fun p => in_page p a) P) as Hno.
  { intros a Ha He. apply Exists_exists in He as (p & Hp & Hin). unfold in_page, page_start in Hin. destruct (Hap p Hp); lia. }
  assert (forall a, pg_addr page <= a < page_start page -> w_mem s !! a = None /\ w_free s !! a = None) as Hheader.
  { intros a Ha. destruct (sw_rest _ _ _ _ _ S a) as [-> ->]. { intros [Hd|Hd]; [apply (Hno a); [|done]|]; pose proof (wk_bounds _ _ _ _ _ _ _ _ _ W); lia. }
    split; [by apply (sa_headers SA page)|]. destruct (fr0 !! a) eqn:Ef; [|done]. exfalso.
    destruct (proj1 (Exists_exists _ _) (sa_free SA a ltac:(by eexists))) as (p & Hp & Hin). by apply (Hhd p a). }
  assert (forall a, page_start page <= a < page_end page -> m0 !! a ≫= survivor = None) as Hdead by apply W.
  constructor; cbn [w_mem w_free w_list w_finalize w_released].
  - intros a Hd. rewrite !outside_lookup. destruct (decide (pg_addr page <= a < page_end page)) as [Hr|Hr].
    + rewrite !bool_decide_eq_true_2 by done. split; [|by intros [? ?]]. symmetry. apply Hdead. destruct Hd as [Hd|Hd]; [|done]. by destruct (Hno a Hr).
    + rewrite !bool_decide_eq_false_2 by done. apply (sw_done _ _ _ _ _ S). destruct Hd as [Hd|Hd]; [by left|lia].
  - intros a Hd. assert (~ done_to P (page_start page) (page_start page) a) as Hd' by (intros [?|?]; [apply Hd; by left|lia]).
    rewrite !outside_lookup. case_bool_decide as Hr; [|by apply (sw_rest _ _ _ _ _ S)].
    destruct (decide (a < page_start page)) as [Hlt|Hge]; [|exfalso; apply Hd; right; lia].
    destruct (Hheader a ltac:(lia)) as [H1 H2]. destruct (sw_rest _ _ _ _ _ S a Hd') as [<- <-]. by rewrite H1, H2.
  - destruct (sw_list _ _ _ _ _ S) as (bins & I & HB). exists bins. split; [|done]. apply (free_inv_change _ _ _ _ I).
    intros a (x & -> & Hx)%list_elem_of_fmap. rewrite outside_lookup, bool_decide_eq_false_2; [done|]. intros Hr.
    rewrite HB in Hx. pose proof (swept_min _ _ _ _ _ x S Hx).
    destruct (sw_chunks _ _ _ _ _ S x Hx) as [(p & Hp & H1 & H2)|[H1 H2]]; [|lia]. apply (Hno x.1 Hr), Exists_exists. exists p. split; [done|]. unfold in_page. lia.
  - intros x Hx. destruct (sw_chunks _ _ _ _ _ S x Hx) as [|[? ?]]; [by left|]. pose proof (swept_min _ _ _ _ _ x S Hx). lia.
  - apply (sw_dead _ _ _ _ _ S).
  - destruct (sw_finalize _ _ _ _ _ S) as [ND Hf]. split; [done|]. intros a. rewrite Hf. split.
    + intros [[Hd|Hd] Ho]; [|lia]. split; [by left|done].
    + intros [[Hd|Hd] (o & Ho & Hc)]; [split; [by left|by exists o]|]. by destruct (dead_region a o (Hdead a Hd) Ho Hc).
  - apply (sw_released _ _ _ _ _ S).
Qed.

(** Nothing of another page lies in the header of one. *)
Lemma header_apart P page l p a : pages0 = P ++ page :: l -> p ∈ pages0 -> in_page p a -> pg_addr page <= a < page_start page -> False.
Proof.
  intros E0 Hp Ha Hh. assert (page ∈ pages0) as Hpg by (rewrite E0; set_solver). apply list_elem_of_lookup in Hp as [i Hi].
  assert (pages0 !! length P = Some page) as Hpi by (rewrite E0; by rewrite list_lookup_middle).
  destruct (decide (i = length P)) as [->|Hne]; [rewrite Hpi in Hi; injection Hi as <-; unfold in_page in Ha; lia|].
  pose proof (sa_pages SA) as HPG. rewrite Forall_forall in HPG. destruct (HPG page Hpg) as (_ & _ & _ & ? & _).
  unfold in_page in Ha. destruct (sa_disjoint SA i (length P) p page Hi Hpi Hne); unfold page_start, page_end in *; lia.
Qed.

Lemma pages_ok l : forall P hd s G R, pages0 = P ++ l -> swept P 0 0 G s -> indexed (w_pages s) R -> (exists K, R ≡ₚ K ++ l) ->
  exists s' kept Ts, sweepPages osPageSize classes s hd l = Some (s', kept) /\
    swept pages0 0 0 (concat (chunks_of <$> Ts) ++ G) s' /\ Forall2 page_left kept Ts /\
    (forall K, R ≡ₚ K ++ l -> indexed (w_pages s') (K ++ kept)) /\ kept `sublist_of` l /\
    (forall page, page ∈ l -> has_survivor page -> page ∈ kept) /\
    (hd = true -> head kept = head l) /\
    (forall page, page ∈ kept -> has_survivor page \/ (hd = true /\ head l = Some page)).
Proof.
  induction l as [|page l IH]; intros P hd s G R E0 S HI (K & HK); cbn [sweepPages].
  - exists s, [], []. split; [done|]. rewrite app_nil_r in E0. rewrite E0. cbn [fmap list_fmap concat app]. split_and!; try done; try (by intros p ?%not_elem_of_nil).
    intros K' HK'. destruct HI as (x & Hx & Hp). exists x. split; [done|]. by rewrite Hp, HK'.
  - assert (page ∈ pages0) as Hpg by (rewrite E0; set_solver).
    assert (forall p, p ∈ P -> page_end p <= pg_addr page \/ page_end page <= pg_addr p) as Hap.
    { intros p Hp. apply list_elem_of_lookup in Hp as [i Hi]. pose proof (lookup_lt_Some _ _ _ Hi) as Hlt.
      apply (sa_disjoint SA i (length P)); [rewrite E0; by rewrite lookup_app_l|rewrite E0; by rewrite list_lookup_middle|lia]. }
    assert (forall p, p ∈ P -> page_end p <= page_start page \/ page_end page <= page_start p) as Hap'
      by (intros p Hp; unfold page_start; destruct (Hap p Hp); lia).
    destruct (sa_tiles SA page Hpg) as (tiles & PT).
    destruct (page_walk P page tiles G (w_pages s) ltac:(intros p Hp; rewrite E0; set_solver) Hpg PT Hap' s (page_begin _ _ _ _ S) eq_refl)
      as (q & T & live & s1 & -> & W). cbn [mbind option_bind]. pose proof (walk_survivors _ _ _ _ _ _ _ _ W) as Hsv.
    destruct (live || hd) eqn:Ek.
    + destruct (keep_page P page G _ q T live s1 Hap' Hpg W) as (s2 & T' & -> & S2 & Ep & HL). cbn [mbind option_bind].
      destruct (IH (P ++ [page]) false s2 _ R ltac:(by rewrite <- app_assoc) S2 ltac:(by rewrite Ep)) as (s3 & kept & Ts & -> & S3 & HF & HX & Hsub & Hall & _ & Hon).
      { exists (K ++ [page]). by rewrite <- app_assoc. }
      cbn [mbind option_bind]. exists s3, (page :: kept), (T' :: Ts). split; [done|]. split.
      { eapply swept_perm; [|exact S3]. cbn [fmap list_fmap concat]. rewrite app_assoc. f_equiv. by rewrite Permutation_app_comm. }
      split; [by constructor|]. split; [|split; [by constructor|split; [|split; [done|]]]].
      * intros K' HK'. specialize (HX (K' ++ [page])). rewrite <- !app_assoc in HX. by apply HX.
      * intros p [->|Hp]%elem_of_cons Hs; [left|right; by apply Hall].
      * intros p [->|Hp]%elem_of_cons; [|left; by destruct (Hon p Hp) as [|[? _]]].
        apply orb_true_iff in Ek as [Ek|Ek]; [left; by apply Hsv|right; by rewrite Ek].
    + apply orb_false_iff in Ek as [-> ->]. pose proof (wk_pages _ _ _ _ _ _ _ _ _ W) as Ew.
      assert (R ≡ₚ page :: K ++ l) as HR by (by rewrite HK, Permutation_middle).
      destruct (drop_page P page G q T s1 R (K ++ l) Hap) as (s2 & -> & S2 & HI2 & _); try done.
      { intros p a Hp. by apply (header_apart P page l). }
      { by rewrite Ew. }
      { by rewrite Ew. }
      cbn [mbind option_bind].
      destruct (IH (P ++ [page]) false s2 G (K ++ l) ltac:(by rewrite <- app_assoc) S2 HI2 ltac:(by exists K)) as (s3 & kept & Ts & E3 & S3 & HF & HX & Hsub & Hall & _ & Hon).
      exists s3, kept, Ts. split; [done|]. split; [done|]. split; [done|]. split; [|split; [by apply sublist_cons|split; [|split; [done|]]]].
      * intros K' HK'. apply HX. apply (Permutation_cons_inv (a := page)). by rewrite <- HR, HK', Permutation_middle.
      * intros p [->|Hp]%elem_of_cons Hs; [by apply Hsv in Hs|by apply Hall].
      * intros p Hp. left. by destruct (Hon p Hp) as [|[? _]].
Qed.

(** ** What a sweep leaves *)

(** Two pages that share an address are one. *)
Lemma page_unique i j p q a : pages0 !! i = Some p -> pages0 !! j = Some q -> in_page p a -> in_page q a -> i = j.
Proof.
  intros Hi Hj Hp Hq. destruct (decide (i = j)) as [|Hne]; [done|]. unfold in_page, page_start, page_end in *.
  destruct (sa_disjoint SA i j p q Hi Hj Hne); unfold page_end in *; lia.
Qed.

Lemma pages_nodup : NoDup pages0.
Proof.
  apply NoDup_alt. intros i j p Hi Hj. apply (page_unique i j p p (page_start p) Hi Hj);
    (pose proof (sa_pages SA) as HPG; rewrite Forall_forall in HPG; destruct (HPG p ltac:(by eapply list_elem_of_lookup_2)) as (_ & _ & _ & ? & _);
     unfold in_page, page_start, page_end; lia).
Qed.

(** The tile that an address lies in. *)
Lemma tile_at p T e a : back_to_back p T e -> p <= a < e -> exists t, t ∈ T /\ t_addr t <= a < t_addr t + t_size t.
Proof.
  revert p. induction T as [|t T IH]; intros p Hb Ha; cbn [back_to_back] in Hb; [lia|]. destruct Hb as [Et Hb].
  destruct (decide (a < p + t_size t)) as [Hlt|Hge]; [exists t; split; [left|lia]|].
  destruct (IH _ Hb ltac:(lia)) as (u & Hu & Hr). exists u. split; [by right|done].
Qed.

Lemma survivor_tag o o' : survivor o = Some o' -> has_tag TAG_FREESPACE o' = has_tag TAG_FREESPACE o.
Proof.
  assert (forall t, (t = Z.lxor (o_tags o) TAG_MARKED \/ t = Z.lor (Z.lxor (o_tags o) TAG_MARKED) TAG_FINALIZED) ->
    has_tag TAG_FREESPACE (set_tags t o) = has_tag TAG_FREESPACE o) as Ht.
  { intros t Ht. change TAG_FREESPACE with (2 ^ 0). rewrite !has_tag_bit by lia. cbn [set_tags o_tags].
    destruct Ht as [-> | ->]; rewrite ?Z.lor_spec, Z.lxor_spec; by destruct (Z.testbit (o_tags o) 0). }
  unfold survivor. destruct (has_tag TAG_MARKED o); [intros [= <-]; apply Ht; by left|].
  destruct (condemned o); [|done]. intros [= <-]. apply Ht. by right.
Qed.

Lemma done_all a : done_to pages0 0 0 a <-> in_old a.
Proof. unfold done_to, in_old. split; [intros [?|?]; [done|lia]|by left]. Qed.

(** An object tile that is left has nothing inside. *)
Lemma left_interior page t a : page ∈ pages0 -> left_tile t -> t_object t = true -> in_page page (t_addr t) ->
  t_addr t < a < t_addr t + t_size t -> m0 !! a = None.
Proof.
  intros Hp (_ & _ & Hk) Ht Hin Ha. rewrite Ht in Hk. destruct Hk as (o & o' & size & Ho & _ & _ & _ & Hsz & Hal).
  destruct (sa_tiles SA page Hp) as (tiles & PT). pose proof (pt_only _ _ _ _ PT (t_addr t) Hin ltac:(left; by rewrite Ho)) as (u & Eu & Hu)%list_elem_of_fmap.
  pose proof (pt_ok _ _ _ _ PT) as HF. rewrite Forall_forall in HF. destruct (HF u Hu) as (_ & _ & Hku). rewrite <- Eu in Hku.
  destruct (t_object u); [|destruct Hku; congruence]. destruct Hku as (_ & o1 & size1 & Ho1 & _ & Hsz1 & Hal1).
  apply (tile_interior m0 fr0 page tiles u a PT Hu). rewrite <- Eu. assert (t_size u = t_size t) by congruence. lia.
Qed.

(** The header of a chunk in a page is one of its tiles. *)
Lemma header_tile kept Ts i page T a : kept `sublist_of` pages0 -> Forall2 page_left kept Ts -> kept !! i = Some page -> Ts !! i = Some T ->
  in_page page a -> a ∈ (concat (chunks_of <$> Ts)).*1 -> a ∈ t_addr <$> T.
Proof.
  intros Hsub HL Hi HT Ha (x & -> & Hx)%list_elem_of_fmap. apply list_elem_of_In, List.in_concat in Hx as (c & Hc & Hx). apply list_elem_of_In in Hc, Hx.
  apply list_elem_of_fmap in Hc as (U & -> & HU). apply list_elem_of_lookup in HU as [j Hj]. apply chunks_in in Hx as (u & Hu & _ & ->). cbn [fst] in *.
  destruct (Forall2_lookup_r _ _ _ _ _ HL Hj) as (page' & Hj' & Hb & HF & _).
  assert (in_page page' (t_addr u)) as Hin.
  { assert (Forall (fun t => 16 <= t_size t) U) as HF16 by (eapply Forall_impl; [exact HF|by intros t [? _]]).
    destruct (tile_range _ _ _ u HF16 Hb Hu). rewrite Forall_forall in HF16. specialize (HF16 u Hu). unfold in_page. lia. }
  assert (forall p, p ∈ kept -> exists k, pages0 !! k = Some p) as Hk.
  { intros p Hp. apply list_elem_of_lookup. eapply elem_of_submseteq; [exact Hp|by apply sublist_submseteq]. }
  destruct (Hk page) as [k1 Hk1]; [by eapply list_elem_of_lookup_2|]. destruct (Hk page') as [k2 Hk2]; [by eapply list_elem_of_lookup_2|].
  pose proof (page_unique k1 k2 page page' _ Hk1 Hk2 Ha Hin) as ->. rewrite Hk1 in Hk2. injection Hk2 as <-.
  pose proof (sublist_NoDup _ _ pages_nodup Hsub) as ND. assert (i = j) as <- by by eapply NoDup_lookup.
  rewrite HT in Hj. injection Hj as <-. by apply list_elem_of_fmap_2.
Qed.

Lemma left_page_tiles kept Ts s i page T : kept `sublist_of` pages0 -> Forall2 page_left kept Ts ->
  swept pages0 0 0 (concat (chunks_of <$> Ts)) s -> kept !! i = Some page -> Ts !! i = Some T -> page_tiles (w_mem s) (w_free s) page T.
Proof.
  intros Hsub HL S Hi HT. pose proof (Forall2_lookup_lr _ _ _ _ _ _ HL Hi HT) as (Hb & HF & _).
  assert (forall p, p ∈ kept -> p ∈ pages0) as Hin by (intros p Hp; eapply elem_of_submseteq; [exact Hp|by apply sublist_submseteq]).
  assert (page ∈ pages0) as Hpg by by apply Hin, (list_elem_of_lookup_2 _ i).
  assert (Forall (fun t => 16 <= t_size t) T) as HF16 by (eapply Forall_impl; [exact HF|by intros t [? _]]).
  assert (forall a, in_page page a -> in_old a) as Hold by (intros a Ha; apply Exists_exists; by exists page).
  assert (forall a, in_page page a -> w_mem s !! a = m0 !! a ≫= survivor /\ (is_Some (w_free s !! a) -> a ∈ (concat (chunks_of <$> Ts)).*1)) as Hdone
    by (intros a Ha; apply (sw_done _ _ _ _ _ S), done_all, Hold, Ha).
  assert (forall t, t ∈ T -> in_page page (t_addr t)) as Htin.
  { intros t Ht. destruct (tile_range _ _ _ t HF16 Hb Ht). rewrite Forall_forall in HF16. specialize (HF16 t Ht). unfold in_page. lia. }
  constructor; [|done|].
  - apply Forall_forall. intros t Ht. rewrite Forall_forall in HF. destruct (HF t Ht) as (H1 & H2 & Hk). split; [done|]. split; [done|].
    destruct (Hdone _ (Htin t Ht)) as [Em Ef]. rewrite Em. destruct (t_object t) eqn:Eo.
    + destruct Hk as (o & o' & size & Ho & Hsv & Hfs & _ & Hsz & Hal). rewrite Ho. cbn [mbind option_bind]. rewrite Hsv. split.
      * destruct (w_free s !! t_addr t) eqn:E; [|done]. exfalso. destruct (proj1 (list_elem_of_fmap _ _ _) (Ef ltac:(by eexists))) as (x & Ex & Hx).
        pose proof (sw_dead _ _ _ _ _ S x Hx) as Hd. rewrite <- Ex, Ho in Hd. cbn [mbind option_bind] in Hd. congruence.
      * exists o', size. split; [done|]. split; [by rewrite (survivor_tag o o')|]. split; [|done]. rewrite <- Hsz.
        rewrite <- (swept_shape pages0 0 0 (concat (chunks_of <$> Ts)) s (t_addr t) o); [|apply incl_refl|intros b Hb'; lia|exact S|done|by apply Hold, Htin].
        destruct (survivor_same o o' Hsv) as [Ec Eb]. unfold computeRawObjectSize, rawObjectSize. by rewrite Ec, Eb.
    + split; [apply Hk; lia|]. destruct (sw_list _ _ _ _ _ S) as (bins & I & HB). apply (chunk_header _ _ _ _ _ I). rewrite HB.
      apply list_elem_of_In, List.in_concat. exists (chunks_of T). rewrite <- !list_elem_of_In. split; [by apply list_elem_of_fmap_2, (list_elem_of_lookup_2 _ i)|].
      apply chunks_in. by exists t.
  - intros a Ha. destruct (Hdone a Ha) as [Em Ef]. rewrite Em. intros [Hs|Hs].
    + destruct (tile_at _ _ _ a Hb Ha) as (t & Ht & Hr). apply list_elem_of_fmap. exists t. split; [|done]. rewrite Forall_forall in HF.
      pose proof (HF t Ht) as HLt. destruct (t_object t) eqn:Eo.
      * destruct (decide (a = t_addr t)) as [|Hne]; [done|]. exfalso. rewrite (left_interior page t a Hpg HLt Eo (Htin t Ht) ltac:(lia)) in Hs. by destruct Hs.
      * destruct HLt as (_ & _ & Hk). rewrite Eo in Hk. rewrite (Hk a Hr) in Hs. by destruct Hs.
    + by apply (header_tile kept Ts i page), Ef.
Qed.

(** The state after a sweep: the survivors in old space and everything outside
    of it, pages tiled by objects and maximal chunks, a free list of exactly
    these chunks, and the first page together with the pages that hold a
    survivor. *)
Record reclaimed (s : Sweep) : Prop := {
  rc_old : forall a, in_old a -> w_mem s !! a = m0 !! a ≫= survivor;
  rc_other : forall a, ~ in_old a -> w_mem s !! a = m0 !! a;
  rc_space : exists bins Ts, space_ok (w_free s) (w_list s) (w_pages s) bins /\ concat bins ≡ₚ concat (chunks_of <$> Ts) /\
    Forall2 (fun page T => page_tiles (w_mem s) (w_free s) page T /\ coalesced T) (pages (w_pages s)) Ts;
  rc_headers : forall a, is_Some (w_free s !! a) -> Exists (fun page => in_page page a) (pages (w_pages s));
  rc_pages : pages (w_pages s) `sublist_of` pages0 /\ head (pages (w_pages s)) = head pages0 /\
    forall page, page ∈ pages0 -> page ∈ pages (w_pages s) <-> has_survivor page \/ head pages0 = Some page;
  rc_finalize : NoDup (w_finalize s) /\ forall a, a ∈ w_finalize s <-> in_old a /\ exists o, m0 !! a = Some o /\ condemned o = true;
  rc_released : forall r, r ∈ w_released s -> exists a, in_old a /\ w_mem s !! a = None /\
    exists fs, w_free s !! a = Some fs /\ a + HEADER_SIZE <= r.1 /\ r.1 + r.2 <= a + fs_size fs }.

(** A chunk lies in the page it is a tile of. *)
Lemma chunk_page kept Ts x : Forall2 page_left kept Ts -> x ∈ concat (chunks_of <$> Ts) ->
  exists page, page ∈ kept /\ page_start page <= x.1 /\ x.1 + x.2 <= page_end page.
Proof.
  intros HL Hx. apply list_elem_of_In, List.in_concat in Hx as (c & Hc & Hx). apply list_elem_of_In in Hc, Hx.
  apply list_elem_of_fmap in Hc as (T & -> & HT). apply list_elem_of_lookup in HT as [j Hj]. apply chunks_in in Hx as (u & Hu & _ & ->).
  destruct (Forall2_lookup_r _ _ _ _ _ HL Hj) as (page & Hp & Hb & HF & _). exists page. split; [by eapply list_elem_of_lookup_2|].
  apply (tile_range _ T); [eapply Forall_impl; [exact HF|by intros t [? _]]|done|done].
Qed.

Lemma gcSweep_ok ps : pages ps = pages0 -> index_ok ps -> exists s, gcSweep osPageSize classes m0 fr0 ps = Some s /\ reclaimed s.
Proof.
  intros Eps HI. unfold gcSweep. rewrite Eps. set (s0 := mkSweep _ _ _ _ _ _ _).
  assert (swept [] 0 0 [] s0) as S0.
  { constructor; cbn [s0 w_mem w_free w_list w_finalize w_released].
    - intros a [?%Exists_nil|?]; [done|lia].
    - done.
    - exists (replicate (S FREE_LIST_SIZE) []). split; [apply empty_list_inv|by rewrite concat_nils].
    - intros x ?%not_elem_of_nil. done.
    - intros x ?%not_elem_of_nil. done.
    - split; [constructor|]. intros a. rewrite elem_of_nil. split; [done|]. intros [[?%Exists_nil|?] _]; [done|lia].
    - intros x ?%not_elem_of_nil. done. }
  destruct (pages_ok pages0 [] true s0 [] pages0 eq_refl S0) as (s & kept & Ts & -> & S & HL & HX & Hsub & Hall & Hhd & Hon).
  { destruct HI as (l & Hl). exists l. by rewrite <- Eps. }
  { by exists []. }
  cbn [mbind option_bind]. eexists. split; [done|]. rewrite app_nil_r in S. specialize (HX [] (reflexivity _)). cbn [app] in HX.
  assert (forall p, p ∈ kept -> p ∈ pages0) as Hin by (intros p Hp; eapply elem_of_submseteq; [exact Hp|by apply sublist_submseteq]).
  pose proof (fun x => swept_min _ _ _ _ _ x S) as Hmin.
  constructor; cbn [w_mem w_free w_list w_pages w_finalize w_released with_pages pages].
  - intros a Ha. apply (sw_done _ _ _ _ _ S). by apply done_all.
  - intros a Ha. apply (sw_rest _ _ _ _ _ S). by rewrite done_all.
  - destruct (sw_list _ _ _ _ _ S) as (bins & I & HB). exists bins, Ts. split; [|split; [done|]].
    + split; [done|]. split; [done|]. split.
      * apply Forall_forall. intros p Hp%Hin. pose proof (sa_pages SA) as HPG. rewrite Forall_forall in HPG. by apply HPG.
      * rewrite HB. apply Forall_forall. intros x Hx. destruct (chunk_page _ _ x HL Hx) as (page & Hp & H1 & H2). exists page. done.
    + apply Forall2_same_length_lookup. split; [by eapply Forall2_length|]. intros i page T Hi HT. split; [by eapply left_page_tiles|].
      by destruct (Forall2_lookup_lr _ _ _ _ _ _ HL Hi HT) as (_ & _ & ?).
  - intros a Ha. destruct (decide (done_to pages0 0 0 a)) as [Hd|Hd].
    + apply (sw_done _ _ _ _ _ S a Hd) in Ha as (x & -> & Hx)%list_elem_of_fmap. destruct (chunk_page _ _ x HL Hx) as (page & Hp & H1 & H2).
      apply Exists_exists. exists page. split; [done|]. specialize (Hmin x Hx). unfold in_page. lia.
    + destruct (sw_rest _ _ _ _ _ S a Hd) as [_ E]. rewrite E in Ha. by destruct Hd; apply done_all, (sa_free SA).
  - split; [done|]. split; [by apply Hhd|]. intros page Hp. split; [intros Hk; destruct (Hon page Hk) as [|[_ ?]]; tauto|].
    intros [Hs|Hh]; [by apply Hall|]. rewrite <- (Hhd eq_refl) in Hh. destruct kept as [|x k]; [done|]. injection Hh as ->. left.
  - destruct (sw_finalize _ _ _ _ _ S) as [ND Hf]. split; [done|]. intros a. by rewrite Hf, done_all.
  - intros r Hr. destruct (sw_released _ _ _ _ _ S r Hr) as ([a n] & Hx & H1 & H2). cbn [fst snd] in *. exists a.
    destruct (chunk_page _ _ _ HL Hx) as (page & Hp & H3 & H4). specialize (Hmin _ Hx). cbn [fst snd] in *.
    assert (in_old a) as Hold by (apply Exists_exists; exists page; split; [by apply Hin|unfold in_page; lia]). split; [done|].
    rewrite (proj1 (sw_done _ _ _ _ _ S a (proj2 (done_all a) Hold))). split; [by apply (sw_dead _ _ _ _ _ S _ Hx)|].
    destruct (sw_list _ _ _ _ _ S) as (bins & I & HB). rewrite <- HB in Hx. destruct (chunk_header _ _ _ _ _ I Hx) as (fs & Hfs & _ & <-). by exists fs.
Qed.
End Sweeping.

(** ** The collection *)

Section Collect.
Context `{Target} (osPageSize : Z) (classes : Classes) (finalizer : Z -> bool).
Context (heap : Heap) (m : Memory) (r : Roots) (L : list Root).

Abbreviation live := (live_object heap m L).
Abbreviation old := (in_old (pages (g_pages heap))).

(** What the old space must be like: its pages are tiled, and the class of
    every object in it is alive or elsewhere. *)
Record old_wf : Prop := {
  ow_pages : Forall page_ok (pages (g_pages heap));
  ow_disjoint : forall i j p q, pages (g_pages heap) !! i = Some p -> pages (g_pages heap) !! j = Some q -> i <> j ->
    page_end p <= pg_addr q \/ page_end q <= pg_addr p;
  ow_headers : forall page a, page ∈ pages (g_pages heap) -> pg_addr page <= a < page_start page -> m !! a = None;
  ow_tiles : forall page, page ∈ pages (g_pages heap) -> exists l, page_tiles m (g_free heap) page l;
  ow_free : forall a, is_Some (g_free heap !! a) -> old a;
  ow_classes : forall a o, m !! a = Some o -> old a -> is_Some (m !! o_class o) /\ (live (o_class o) \/ ~ old (o_class o));
  ow_lookup : forall a o, m !! a = Some o -> old a -> hasFinalizer classes o = Some (finalizer (o_class o));
  ow_pageSize : exists k, 12 <= k < 54 /\ osPageSize = 2 ^ k }.

(** What the collection leaves of the objects; [set] is the new remembered
    set. *)
Record collected (w : Sweep) (set : list Z) : Prop := {
  cl_live : forall a, live a -> exists o o', m !! a = Some o /\ w_mem w !! a = Some o' /\ retagged o o' /\
    (old a -> has_tag TAG_MARKED o' = false) /\ (has_tag TAG_REMEMBERED o' = true <-> isOldObject a = true /\ young_referent m a);
  cl_closed : forall a b, live a -> edge m a b -> is_Some (w_mem w !! b);
  cl_dead : forall a o, m !! a = Some o -> old a -> ~ live a -> w_mem w !! a = survivor finalizer o;
  cl_other : forall a, ~ old a -> ~ live a -> w_mem w !! a = m !! a;
  cl_set : NoDup set /\ forall a, a ∈ set <-> live a /\ isOldObject a = true /\ young_referent m a;
  cl_space : exists bins Ts, space_ok (w_free w) (w_list w) (w_pages w) bins /\ concat bins ≡ₚ concat (chunks_of <$> Ts) /\
    Forall2 (fun page T => page_tiles (w_mem w) (w_free w) page T /\ coalesced T) (pages (w_pages w)) Ts;
  cl_pages : pages (w_pages w) `sublist_of` pages (g_pages heap) /\
    forall page, page ∈ pages (g_pages heap) -> page ∈ pages (w_pages w) <->
      (exists a, in_page page a /\ is_Some (w_mem w !! a)) \/ head (pages (g_pages heap)) = Some page;
  cl_finalize : NoDup (w_finalize w) /\
    forall a, a ∈ w_finalize w <-> old a /\ ~ live a /\ exists o, m !! a = Some o /\ condemned finalizer o = true }.

Context (MA : markable heap m r L) (OW : old_wf) (s : Marker) (MD : marked heap m L s).

Lemma live_or_not a : live a \/ ~ live a.
Proof. destruct (md_count _ _ _ _ MD) as (M & _ & HM & _). rewrite <- HM. destruct (decide (a ∈ M)); tauto. Qed.

(** Marking changes nothing but two tags. *)
Lemma marked_at a o : m !! a = Some o -> exists o', k_mem s !! a = Some o' /\ retagged o o' /\
  (live a /\ has_tag TAG_MARKED o' = true /\ (has_tag TAG_REMEMBERED o' = true <-> isOldObject a = true /\ young_referent m a) \/ ~ live a /\ o' = o).
Proof.
  intros Ho. destruct (live_or_not a) as [Hl|Hl].
  - destruct (md_live _ _ _ _ MD a Hl) as (o1 & o' & H1 & H2 & H3 & H4 & H5). rewrite Ho in H1. injection H1 as <-. exists o'. tauto.
  - exists o. rewrite (md_dead _ _ _ _ MD a Hl). split; [done|]. split; [done|]. by right.
Qed.

Lemma marked_none a : m !! a = None -> k_mem s !! a = None.
Proof.
  intros Ha. destruct (live_or_not a) as [Hl|Hl]; [|by rewrite (md_dead _ _ _ _ MD a Hl)].
  destruct (md_live _ _ _ _ MD a Hl) as (o & _ & Ho & _). congruence.
Qed.

Lemma marked_back a o' : k_mem s !! a = Some o' -> exists o, m !! a = Some o.
Proof. intros Ho. destruct (m !! a) as [o|] eqn:E; [by exists o|]. by rewrite (marked_none a E) in Ho. Qed.

Lemma marked_shape c : instanceShape (k_mem s) c = instanceShape m c.
Proof.
  unfold instanceShape. destruct (m !! c) as [o|] eqn:Hc; [|by rewrite (marked_none c Hc)].
  destruct (marked_at c o Hc) as (o' & -> & (_ & _ & _ & _ & E & _) & _). cbn [mbind option_bind]. by rewrite E.
Qed.

Lemma marked_size o o' : retagged o o' -> computeRawObjectSize (k_mem s) o' = computeRawObjectSize m o.
Proof. intros (Ec & _ & _ & _ & Eb & _). unfold computeRawObjectSize, rawObjectSize. by rewrite Ec, Eb, marked_shape. Qed.

Lemma retagged_free o o' : retagged o o' -> has_tag TAG_FREESPACE o' = has_tag TAG_FREESPACE o.
Proof.
  intros (_ & _ & _ & _ & _ & E). unfold has_tag. do 2 f_equal. change TAG_FREESPACE with (Z.land 219 1). by rewrite !Z.land_assoc, E.
Qed.

Lemma marked_tiles page l : page_tiles m (g_free heap) page l -> page_tiles (k_mem s) (g_free heap) page l.
Proof.
  intros [HF Hb Ho]. constructor; [|done|].
  - eapply Forall_impl; [exact HF|]. intros t (H1 & H2 & Hk). split; [done|]. split; [done|]. destruct (t_object t).
    + destruct Hk as (Hf & o & size & Ht & Htag & Hs & Ha). split; [done|]. destruct (marked_at _ o Ht) as (o' & Ho' & R & _). exists o', size.
      by rewrite (retagged_free o o' R), (marked_size o o' R).
    + destruct Hk as [Hm Hf]. split; [by apply marked_none|done].
  - intros a Ha [[o' Hs]|Hs]; apply Ho; try done; [left|by right]. destruct (marked_back a o' Hs) as (o & ->). by eexists.
Qed.

Lemma marked_survives c : live c -> exists c', k_mem s !! c = Some c' /\ is_Some (survivor finalizer c').
Proof.
  intros Hl. destruct (md_live _ _ _ _ MD c Hl) as (o & o' & _ & Ho & _ & Hm & _). exists o'. split; [done|]. unfold survivor. rewrite Hm. by eexists.
Qed.

Lemma marked_sweepable : sweepable osPageSize classes (k_mem s) (g_free heap) (pages (g_pages heap)) finalizer.
Proof.
  constructor; try apply OW.
  - intros page a Hp Ha. apply marked_none. by apply (ow_headers OW page).
  - intros page Hp. destruct (ow_tiles OW page Hp) as (l & Hl). exists l. by apply marked_tiles.
  - intros a o' Ho' Hin. destruct (marked_back a o' Ho') as (o & Ho). destruct (marked_at a o Ho) as (o2 & E & (Ec & _) & _).
    rewrite Ho' in E. injection E as <-. rewrite Ec. destruct (ow_classes OW a o Ho Hin) as [[c Hc] [Hl|Hn]].
    + destruct (marked_survives _ Hl) as (c' & Hc' & Hs). exists c'. split; [done|by left].
    + destruct (marked_at _ c Hc) as (c' & Hc' & _). exists c'. split; [done|by right].
  - intros a o' Ho' Hin. destruct (marked_back a o' Ho') as (o & Ho). destruct (marked_at a o Ho) as (o2 & E & (Ec & _) & _).
    rewrite Ho' in E. injection E as <-. pose proof (ow_lookup OW a o Ho Hin) as Hl. unfold hasFinalizer in *. by rewrite Ec.
Qed.

(** Clearing the mark. *)
Lemma unmark o o' o'' : retagged o o' -> has_tag TAG_MARKED o' = true -> survivor finalizer o' = Some o'' ->
  retagged o o'' /\ has_tag TAG_MARKED o'' = false /\ has_tag TAG_REMEMBERED o'' = has_tag TAG_REMEMBERED o'.
Proof.
  intros R Hm. unfold survivor. rewrite Hm. intros [= <-]. split_and!.
  - transitivity o'; [done|]. split_and!; try done. cbn [set_tags o_tags]. unfold TAG_MARKED. apply Z.bits_inj'. intros i Hi.
    rewrite !Z.land_spec, Z.lxor_spec. change 4 with (2 ^ 2). rewrite Z.pow2_bits_eqb by lia. destruct (Z.eqb_spec 2 i) as [<-|]; [|by rewrite xorb_false_r].
    change (Z.testbit 219 2) with false. by rewrite !andb_false_r.
  - change TAG_MARKED with (2 ^ 2) in *. rewrite has_tag_bit in * by lia. cbn [set_tags o_tags]. by rewrite Z.lxor_spec, Hm.
  - change TAG_REMEMBERED with (2 ^ 5). rewrite !has_tag_bit by lia. cbn [set_tags o_tags]. rewrite Z.lxor_spec. change (Z.testbit TAG_MARKED 5) with false.
    apply xorb_false_r.
Qed.

Lemma collect_result w : reclaimed (k_mem s) (pages (g_pages heap)) finalizer w -> collected w (k_remembered s).
Proof.
  intros RC. assert (forall a, old a \/ ~ old a) as Hdec.
  { intros a. unfold in_old. destruct (decide (Exists (fun page => page_start page <= a < page_end page) (pages (g_pages heap)))); tauto. }
  assert (forall a, live a -> exists o o', m !! a = Some o /\ w_mem w !! a = Some o' /\ retagged o o' /\
    (old a -> has_tag TAG_MARKED o' = false) /\ (has_tag TAG_REMEMBERED o' = true <-> isOldObject a = true /\ young_referent m a)) as HL.
  { intros a Hl. destruct (md_live _ _ _ _ MD a Hl) as (o & o' & Ho & Ho' & R & Hm & Hr). exists o. destruct (Hdec a) as [Hi|Hi].
    - pose proof (rc_old _ _ _ _ RC a Hi) as E. rewrite Ho' in E. cbn [mbind option_bind] in E.
      destruct (survivor finalizer o') as [o''|] eqn:Es; [|unfold survivor in Es; by rewrite Hm in Es].
      destruct (unmark o o' o'' R Hm Es) as (R2 & Hm2 & Hr2). exists o''. by rewrite Hr2.
    - exists o'. rewrite (rc_other _ _ _ _ RC a Hi). by split_and!. }
  constructor; try done.
  - intros a b Hl He. destruct (HL b) as (o & o' & _ & Ho' & _); [by eapply reach_edge|by eexists].
  - intros a o Ho Hi Hl. rewrite (rc_old _ _ _ _ RC a Hi), (md_dead _ _ _ _ MD a Hl), Ho. done.
  - intros a Hi Hl. by rewrite (rc_other _ _ _ _ RC a Hi), (md_dead _ _ _ _ MD a Hl).
  - apply (md_set _ _ _ _ MD).
  - apply (rc_space _ _ _ _ RC).
  - destruct (rc_pages _ _ _ _ RC) as (H1 & _ & H3). split; [done|]. intros page Hp. rewrite (H3 page Hp). unfold has_survivor.
    f_equiv. apply exist_proper. intros a. split; intros [Ha Hs]; (split; [done|]);
      pose proof (rc_old _ _ _ _ RC a ltac:(apply Exists_exists; by exists page)) as E; by rewrite E in *.
  - destruct (rc_finalize _ _ _ _ RC) as [ND Hf]. split; [done|]. intros a. rewrite Hf. split.
    2: { intros (Hi & Hl & o & Ho & Hc). split; [done|]. exists o. by rewrite (md_dead _ _ _ _ MD a Hl). }
    intros (Hi & o' & Ho' & Hc). split; [done|].
    destruct (marked_back a o' Ho') as (o & Ho). destruct (marked_at a o Ho) as (o2 & E & _ & [(Hl & Hm & _)|[Hl ->]]); rewrite Ho' in E; injection E as <-.
    + unfold condemned in Hc. by rewrite Hm in Hc.
    + split; [done|]. by exists o'.
Qed.
End Collect.

Lemma markAndSweep_ok `{Target} osPageSize classes finalizer heap m r L sets set :
  markable heap m r L -> old_wf osPageSize classes finalizer heap m L ->
  exists w sets' set', markAndSweep osPageSize classes heap m r sets set = Some (w, sets', set') /\
    concat sets' = [] /\ length sets' = length sets /\ collected finalizer heap m L w set'.
Proof.
  intros MA OW. destruct (gcMarkRoots_ok heap m r L MA) as (s & E & MD).
  pose proof (marked_sweepable osPageSize classes finalizer heap m L OW s MD) as SA.
  destruct (gcSweep_ok osPageSize classes (k_mem s) (g_free heap) _ finalizer SA (g_pages heap) eq_refl (ma_index _ _ _ _ MA)) as (w & Ew & RC).
  exists w, (map resetEntries sets), (k_remembered s). unfold markAndSweep, resetEntries at 2. rewrite E. cbn [mbind option_bind]. rewrite Ew.
  split; [done|]. split; [by induction sets|]. split; [apply length_map|]. by apply collect_result.
Qed.


(** C39. Finalizers run too late.  In every heap of the kind of C2: a dead object
    of old space whose class has a finalizer, neither marked nor finalized
    before, is kept and sent [finalize] after the sweep, with its variables as
    they were; but an object it refers to is freed by the same sweep if that is
    a dead, unmarked object of old space that is not itself due for
    finalization: the variable dangles when the method runs.  The kept object is
    also left marked, since the sweep flips a mark that was not set. *)
Theorem finalizer_dangles `{Target} osPageSize classes finalizer heap m r L sets set a o i b ob :
  markable heap m r L -> old_wf osPageSize classes finalizer heap m L ->
  m !! a = Some o -> in_old (pages (g_pages heap)) a -> ~ live_object heap m L a -> condemned finalizer o = true ->
  o_body o !! i = Some (tagPtr b) ->
  m !! b = Some ob -> in_old (pages (g_pages heap)) b -> ~ live_object heap m L b -> has_tag TAG_MARKED ob = false -> condemned finalizer ob = false ->
  exists w sets' set' o', markAndSweep osPageSize classes heap m r sets set = Some (w, sets', set') /\
    a ∈ w_finalize w /\ w_mem w !! a = Some o' /\ o_body o' !! i = Some (tagPtr b) /\ has_tag TAG_MARKED o' = true /\ w_mem w !! b = None.
Proof.
  intros MA OW Ha Oa Da Fa Hi Hb Ob Db Mb Fb.
  destruct (markAndSweep_ok osPageSize classes finalizer heap m r L sets set MA OW) as (w & sets' & set' & E & _ & _ & CL).
  pose proof (cl_dead _ _ _ _ _ _ CL a o Ha Oa Da) as Ea. pose proof (cl_dead _ _ _ _ _ _ CL b ob Hb Ob Db) as Eb.
  unfold survivor in Ea, Eb. rewrite Mb, Fb in Eb. rewrite Fa in Ea.
  assert (has_tag TAG_MARKED o = false) as Mo by (unfold condemned in Fa; by destruct (has_tag TAG_MARKED o)). rewrite Mo in Ea.
  eexists w, sets', set', _. split; [done|]. split; [|split; [exact Ea|]].
  - apply (cl_finalize _ _ _ _ _ _ CL). split; [done|]. split; [done|]. by exists o.
  - split; [done|]. split; [|done]. clear -Mo. unfold TAG_FINALIZED. change TAG_MARKED with (2 ^ 2) in *. rewrite has_tag_bit in * by lia. cbn [set_tags o_tags].
    rewrite Z.lor_spec, Z.lxor_spec, Mo, Z.pow2_bits_true by lia. done.
Qed.

(** ** Small heaps *)

Module SweepExamples.

#[local] Instance little : Target := target_le.

(** Two pages and a young space.  The class [K] describes objects of four
    variables, itself included; [KF] is such a class whose instances have a
    finalizer.  [R] is live, [D] and [E] are dead, [Z] is a dead instance of
    [KF] that refers to [C], which is dead too. *)
Definition four : Z := 4 * 2 ^ 16 + 48 * 2 ^ 48.
Definition K : Z := 65584.
Definition KF : Z := 65632.
Definition R : Z := 65680.
Definition D : Z := 65728.
Definition Zb : Z := 65776.
Definition C : Z := 65824.
Definition F : Z := 65872.
Definition E : Z := 131120.
Definition F2 : Z := 131168.
Definition Y : Z := 262152.

Definition object (class : Z) (body : list Z) : RawObject := mkObject class 0 0 0 0 body.
Definition objects : list (Z * RawObject) :=
  [(K, object K [0; 0; 0; four]); (KF, object K [0; 0; 0; four]); (R, object K [Y + 1; KF + 1; 0; 0]);
   (D, object K [R + 1; 0; 0; 0]); (Zb, object KF [C + 1; 0; 0; 0]); (C, object K [0; 0; 0; 0]);
   (E, object K [D + 1; 0; 0; 0]); (Y, object K [R + 1; 0; 0; 0])].
Definition mem : Memory := list_to_map objects.

Definition chunk (size : Z) : FreeSpace := {| fs_next := 0; fs_size := size; fs_tags := TAG_FREESPACE |}.
Definition free : gmap Z FreeSpace := {[F := chunk 3760; F2 := chunk 4000]}.

Definition page (a : Z) : HeapPage := {| pg_addr := a; isExecutable := false; pg_size := 4096; bodySize := 4048; body := a + 40 |}.
Definition space : PageSpace :=
  {| pages := [page 65536; page 131072]; ranges := [page_range (page 65536); page_range (page 131072)]; rangeCount := 2; totalBytes := 8096 |}.

(** A handle on [R], a stack with [Y] and a stale slot. *)
Definition cells : list Z := [R; Y + 1; F + 1; 0; 8; 0; 0].
Definition mutator : Mutator :=
  mkMutator true [0%nat] [] 3 [mkEntry (mkFrame [] [4%nat] []) [mkFrame [1%nat] [2%nat] [true]]] (Some 5%nat) (Some 6%nat) None [].
Definition roots : Roots := mkRoots [mutator] [] None [].
Definition heap : Heap := mkHeap 262144 1024 space free cells.

(** [#finalize] is the symbol 0; class 1 has a method for it. *)
Definition classes : Classes :=
  mkClasses (mkMemory 100 0 {[0%nat := mkString ClassSymbol 5 (bytes_of_string "finalize")]} {[10%nat := mkAssociation 0 (Ref 50)]})
    {[0%nat := mkClass None (mkDictionary (replicate 8 None) 0);
      1%nat := mkClass None (mkDictionary [None; None; None; None; None; Some 10%nat; None; None] 1)]}
    (fun c => if c =? KF then 1%nat else 0%nat) 0.

Definition finalizer (c : Z) : bool := c =? KF.

(** The collection keeps [K], [KF], [R] and [Y], and [Zb] for its finalizer;
    the second page is gone, and the first has two chunks. *)
Example collection_run :
  option_map (fun '(w, sets, set) => ((map_to_list (w_mem w)).*1, (fun x => (x.1, fs_size x.2)) <$> map_to_list (w_free w), pages (w_pages w), w_finalize w, sets, set))
    (markAndSweep 4096 classes heap mem roots [[D]; []] [R; E]) =
  Some ([Y; Zb; K; R; KF], [(C, 3808); (D, 48)], [page 65536], [Zb], [[]; []], [R]).
Proof. vm_compute. reflexivity. Qed.

(** *** The heap is well formed *)

Lemma heap_objects (P : Z -> RawObject -> Prop) : Forall (fun '(a, o) => P a o) objects -> forall a o, mem !! a = Some o -> P a o.
Proof. intros HP a o Ha. apply elem_of_list_to_map_2 in Ha. rewrite Forall_forall in HP. by apply (HP (a, o)). Qed.

Lemma known_object a : match mem !! a with Some _ => true | None => false end = true -> is_Some (mem !! a).
Proof. destruct (mem !! a); [by eexists|done]. Qed.

Ltac each := repeat first [apply Forall_nil_2|apply Forall_cons_2].

Definition four_shape : InstanceShape :=
  {| tag := 0; payloadSize := 0; varsSize := 4; isIndexed := false; isBytes := false; valueType := 0; Tagging.size := 48 |}.

Lemma shape_of c : c = K \/ c = KF -> instanceShape mem c = Some four_shape.
Proof. intros [-> | ->]; vm_compute; reflexivity. Qed.

Lemma four_object_wf a c body : c = K \/ c = KF -> addr_ok a -> length body = 4%nat ->
  Forall (fun v => valueTypeOf v VALUE_POINTER = true -> is_Some (mem !! (v - 1))) body -> object_wf mem a (object c body).
Proof.
  intros Hc Ha Hl Hb. pose proof (shape_of c Hc) as Hsh. constructor; cbn [o_class o_body object]; try done.
  - destruct Hc as [-> | ->]; apply known_object; vm_compute; reflexivity.
  - exists four_shape, 4%nat, 48. unfold computeRawObjectSize. cbn [o_class object o_body]. rewrite Hsh, Hl. by split_and!.
  - by rewrite Hl.
  - intros sh. rewrite Hsh. intros [= <-]. done.
  - intros i v _ Hv. rewrite Forall_forall in Hb. apply Hb. by eapply list_elem_of_lookup_2.
  - intros k w Hk. destruct Hc as [-> | ->]; vm_compute in Hk; injection Hk as <-; cbn; by intros [= <-].
Qed.

Lemma edge_four a c body b : mem !! a = Some (object c body) -> edge mem a b -> b = c \/ exists v, v ∈ body /\ valueTypeOf v VALUE_POINTER = true /\ b = v - 1.
Proof.
  intros Ha (o & Ho & [->|(i & v & _ & Hv & Hp & ->)]); rewrite Ha in Ho; injection Ho as <-; [by left|right]. exists v.
  split; [by eapply list_elem_of_lookup_2|done].
Qed.

Definition rootCells : list Root := default [] (root_cells roots).

Lemma stale_F : stale heap mem F.
Proof. split; [done|]. right. right. split; [vm_compute; reflexivity|]. exists (chunk 3760). split; [vm_compute; reflexivity|done]. Qed.

(** The live objects. *)
Lemma live_only a : live_object heap mem rootCells a -> a ∈ [K; KF; R; Y].
Proof.
  intros (x & (n & k & v & Hc & Hv & Hn) & Hp). assert (x ∈ [K; KF; R; Y]) as Hx.
  { revert Hc. unfold rootCells. cbn. intros Hc. repeat (apply elem_of_cons in Hc as [[= -> ->]|Hc]; [cbn in Hv; injection Hv as <-; cbn [names] in Hn|]).
    - subst. apply (bool_decide_unpack _). vm_compute. exact I.
    - by destruct Hn as [? _].
    - destruct Hn as (_ & -> & _). apply (bool_decide_unpack _). vm_compute. exact I.
    - destruct Hn as (_ & -> & Hs). by destruct Hs; apply stale_F.
    - by destruct Hn as [? _].
    - by destruct Hn as [? _].
    - by destruct Hn as [? _].
    - by apply not_elem_of_nil in Hc. }
  clear n k v Hc Hv Hn. induction Hp as [|x y z He _ IH]; [done|]. apply IH. clear IH.
  assert (forall c body, mem !! x = Some (object c body) -> c ∈ [K; KF; R; Y] ->
    Forall (fun v => valueTypeOf v VALUE_POINTER = true -> v - 1 ∈ [K; KF; R; Y]) body -> y ∈ [K; KF; R; Y]) as Hstep.
  { intros c body Hm Hcl Hb. destruct (edge_four x c body y Hm He) as [->|(w & Hw & Hpw & ->)]; [done|]. rewrite Forall_forall in Hb. by apply Hb. }
  repeat (apply elem_of_cons in Hx as [->|Hx];
    [eapply Hstep; [vm_compute; reflexivity|apply (bool_decide_unpack _); vm_compute; exact I|each; intros Hpv;
       first [done|apply (bool_decide_unpack _); vm_compute; exact I]]|]).
  by apply not_elem_of_nil in Hx.
Qed.

Lemma index_space : index_ok space.
Proof. exists (ranges space). split; [|done]. split; [cbn; lia|]. split; [done|]. cbn. split_and!; try done; try lia. each. cbn. lia. Qed.

Lemma heap_markable : markable heap mem roots rootCells.
Proof.
  constructor.
  - reflexivity.
  - unfold rootCells. cbn. each; eexists; (split; [reflexivity|]); cbn [snd]; try done.
    + intros _. by left.
    + intros _. right. left. apply stale_F.
  - assert (forall n, n = 5%nat \/ n = 6%nat -> chain_ok heap mem n) as Hch.
    { intros n Hn. exists 0, []. split; [by destruct Hn as [-> | ->]|]. split; [done|constructor]. }
    intros n [(f & Hf & _)|(m & Hm & _ & Hn)]; [by apply not_elem_of_nil in Hf|]. apply list_elem_of_singleton in Hm as ->. apply Hch.
    destruct Hn as [[= <-]|[= <-]]; tauto.
  - intros n v Hv. apply list_elem_of_lookup_2 in Hv. revert v Hv. apply Forall_forall. each; unfold R, Y, F; lia.
  - apply index_space.
  - intros a Ha%live_only. repeat (apply elem_of_cons in Ha as [->|Ha]; [eexists; split; [vm_compute; reflexivity|]; constructor;
      [apply four_object_wf; [tauto|split; [unfold K, KF, R, Y; lia|done]|done|each; intros Hv; first [done|apply known_object; vm_compute; reflexivity]]
      |done|done|first [done|intros _; vm_compute; reflexivity]|first [done|intros _; cbn; unfold Y; lia]]|]).
    by apply not_elem_of_nil in Ha.
Qed.

Lemma free_known a : is_Some (free !! a) -> a = F \/ a = F2.
Proof.
  intros [fs Hfs]. unfold free in Hfs. apply lookup_insert_Some in Hfs as [[<- _]|[_ Hfs]]; [by left|]. apply lookup_singleton_Some in Hfs as [<- _]. by right.
Qed.

Definition tiles1 : list Tile :=
  [mkTile K 48 true; mkTile KF 48 true; mkTile R 48 true; mkTile D 48 true; mkTile Zb 48 true; mkTile C 48 true; mkTile F 3760 false].
Definition tiles2 : list Tile := [mkTile E 48 true; mkTile F2 4000 false].

Ltac tile := split; [cbn; lia|]; split; [done|]; cbn [t_object t_addr]; (split; [vm_compute; reflexivity|]);
  first [eexists _, 48; do 3 (split; [vm_compute; reflexivity|]); vm_compute; reflexivity
        |eexists; do 2 (split; [vm_compute; reflexivity|]); vm_compute; reflexivity].

Lemma tiled_pages p : p ∈ pages space -> exists l, page_tiles mem free p l.
Proof.
  intros Hp. cbn [space pages] in Hp. apply elem_of_cons in Hp as [->|Hp%list_elem_of_singleton]; [exists tiles1|subst p; exists tiles2];
    (constructor; [each; tile|cbn; by split_and!|]); intros a Ha [[o Ho]|[->| ->]%free_known].
  - revert a o Ho Ha. apply (heap_objects (fun a _ => in_page (page 65536) a -> a ∈ t_addr <$> tiles1)).
    each; intros Ha; unfold in_page, page_start, page_end in Ha; cbn in Ha; first [apply (bool_decide_unpack _); vm_compute; exact I|unfold E, Y in Ha; lia].
  - apply (bool_decide_unpack _); vm_compute; exact I.
  - unfold in_page, page_start, page_end, F2 in Ha. cbn in Ha. lia.
  - revert a o Ho Ha. apply (heap_objects (fun a _ => in_page (page 131072) a -> a ∈ t_addr <$> tiles2)).
    each; intros Ha; unfold in_page, page_start, page_end in Ha; cbn in Ha;
      first [apply (bool_decide_unpack _); vm_compute; exact I|unfold K, KF, R, D, Zb, C, Y in Ha; lia].
  - unfold in_page, page_start, page_end, F in Ha. cbn in Ha. lia.
  - apply (bool_decide_unpack _); vm_compute; exact I.
Qed.

Lemma live_R : live_object heap mem rootCells R.
Proof.
  exists R. split; [|done]. exists 0%nat, KHandle, R. split; [|by split]. unfold rootCells. cbn. left.
Qed.

Lemma live_K : live_object heap mem rootCells K.
Proof. eapply reach_edge; [exact live_R|]. by apply (edge_class mem R (object K [Y + 1; KF + 1; 0; 0])). Qed.

Lemma live_KF : live_object heap mem rootCells KF.
Proof.
  eapply reach_edge; [exact live_R|]. exists (object K [Y + 1; KF + 1; 0; 0]). split; [done|]. right. exists 1%nat, (KF + 1). split_and!; try done.
  exists four_shape, 4%nat. split; [by apply shape_of; left|]. split; [done|]. change (getRawObjectVars four_shape) with 0%nat. lia.
Qed.

Lemma heap_old_wf : old_wf 4096 classes finalizer heap mem rootCells.
Proof.
  constructor.
  - cbn. each; unfold page_ok; cbn; by split_and!.
  - intros i j p q Hi Hj Hne. destruct i as [|[|i]], j as [|[|j]]; cbn in Hi, Hj; try done; injection Hi as <-; injection Hj as <-; unfold page_end; cbn; lia.
  - intros p a Hp Ha. destruct (mem !! a) as [o|] eqn:Ho; [|done]. exfalso. revert a o Ho Ha.
    apply (heap_objects (fun a _ => pg_addr p <= a < page_start p -> False)). cbn in Hp. unfold page_start.
    apply elem_of_cons in Hp as [->|Hp%list_elem_of_singleton]; [|subst p]; cbn; each; unfold K, KF, R, D, Zb, C, E, Y; lia.
  - apply tiled_pages.
  - intros a [-> | ->]%free_known; apply Exists_exists; [exists (page 65536)|exists (page 131072)];
      (split; [apply list_elem_of_In; cbn; tauto|]); unfold in_page, page_start, page_end, F, F2; cbn; lia.
  - apply (heap_objects (fun a o => in_old (pages (g_pages heap)) a -> is_Some (mem !! o_class o) /\
      (live_object heap mem rootCells (o_class o) \/ ~ in_old (pages (g_pages heap)) (o_class o)))).
    each; intros _; cbn [o_class object]; (split; [apply known_object; vm_compute; reflexivity|left]); first [exact live_K|exact live_KF].
  - apply (heap_objects (fun a o => in_old (pages (g_pages heap)) a -> hasFinalizer classes o = Some (finalizer (o_class o)))).
    each; intros _; vm_compute; reflexivity.
  - exists 12. split; [lia|done].
Qed.


(** *** Finalizers *)

(** The heap after that collection, with the finalized object in the handle
    and another object, allocated since, in its variable. *)
Definition again : Memory := list_to_map
  [(K, object K [0; 0; 0; four]); (KF, object K [0; 0; 0; four]); (R, mkObject K 0 0 0 32 [Y + 1; KF + 1; 0; 0]);
   (Zb, mkObject KF 0 0 0 20 [C + 1; 0; 0; 0]); (C, object K [0; 0; 0; 0]); (Y, object K [R + 1; 0; 0; 0])].
Definition heap_again : Heap := mkHeap 262144 1024
  {| pages := [page 65536]; ranges := [page_range (page 65536)]; rangeCount := 1; totalBytes := 4048 |}
  {[D := chunk 48; F := chunk 3760]} [Zb; Y + 1; F + 1; 0; 8; 0; 0].

(** [Zb] is kept and sent [finalize], and its first variable leads to [C], which
    is gone. *)
Lemma finalizer_dangles_witness :
  exists w sets' set' o', markAndSweep 4096 classes heap mem roots [] [] = Some (w, sets', set') /\
    Zb ∈ w_finalize w /\ w_mem w !! Zb = Some o' /\ o_body o' !! 0%nat = Some (tagPtr C) /\ has_tag TAG_MARKED o' = true /\ w_mem w !! C = None.
Proof.
  assert (forall a, a ∉ [K; KF; R; Y] -> ~ live_object heap mem rootCells a) as Hdead by (intros a Ha Hl; apply Ha; by apply live_only).
  assert (forall a, (page_start (page 65536) <=? a) && (a <? page_end (page 65536)) = true -> in_old (pages (g_pages heap)) a) as Hold.
  { intros a Ha. apply andb_true_iff in Ha as [?%Z.leb_le ?%Z.ltb_lt]. left. by split. }
  refine (finalizer_dangles 4096 classes finalizer heap mem roots rootCells [] [] Zb (object KF [C + 1; 0; 0; 0]) 0 C (object K [0; 0; 0; 0])
    heap_markable heap_old_wf _ _ _ _ _ _ _ _ _ _).
  - vm_compute. reflexivity.
  - apply Hold. vm_compute. reflexivity.
  - apply Hdead. apply (bool_decide_unpack _). vm_compute. exact I.
  - vm_compute. reflexivity.
  - vm_compute. reflexivity.
  - vm_compute. reflexivity.
  - apply Hold. vm_compute. reflexivity.
  - apply Hdead. apply (bool_decide_unpack _). vm_compute. exact I.
  - vm_compute. reflexivity.
  - vm_compute. reflexivity.
Defined.

(** If the method stores the object where the roots lead to it, with a fresh
    referent, the next collection takes the mark that is left for its own, does
    not scan the object, and frees that referent too. *)
Example finalized_not_scanned : exists w sets set o, markAndSweep 4096 classes heap_again again roots [] [] = Some (w, sets, set) /\
  g_cells heap_again !! 0%nat = Some Zb /\ w_mem w !! Zb = Some o /\ o_body o !! 0%nat = Some (C + 1) /\ w_mem w !! C = None.
Proof. do 4 eexists. split; [vm_compute; reflexivity|]. split_and!; vm_compute; reflexivity. Qed.

(** *** Classes that die with their instances *)

(** A dead class alone in the second page, a dead instance of it in the third:
    the sweep gives the second page back, and then asks for the size of the
    instance. *)
Definition doomed : Memory := list_to_map
  [(K, object K [0; 0; 0; four]); (KF, object K [0; 0; 0; 0]); (E, object K [0; 0; 0; four]); (196656, object E [0; 0; 0; 0])].
Definition heap_doomed : Heap := mkHeap 262144 1024
  {| pages := [page 65536; page 131072; page 196608];
     ranges := [page_range (page 65536); page_range (page 131072); page_range (page 196608)]; rangeCount := 3; totalBytes := 12144 |}
  {[R := chunk 3952; F2 := chunk 4000; 196704 := chunk 4000]} [KF; 0; 0; 0; 8; 0; 0].

Example dead_class_unmapped :
  (exists s, gcMarkRoots heap_doomed doomed [] 0 roots = Some s) /\ markAndSweep 4096 classes heap_doomed doomed roots [] [] = None.
Proof. split; [eexists|]; vm_compute; reflexivity. Qed.

(** *** Objects of more than a gigabyte *)

(** An array of [2 ^ 28] elements that only a stack slot leads to is taken for
    a stale slot. *)
Definition array_shape : Z := 1 * 2 ^ 24 + 24 * 2 ^ 48.
Definition large : Memory := list_to_map [(K, object K [0; 0; 0; array_shape]); (KF, object K [2 ^ 28])].

Example large_root_skipped : plausibleOldMarkRoot heap (mkMarker large newQueue [] 0) KF = Some false /\
  computeRawObjectSize large (object K [2 ^ 28]) = Some (24 + 2 ^ 31).
Proof. split; vm_compute; reflexivity. Qed.
End SweepExamples.
