(* ===== verification/IntegerLiteral.v ===== *)
(** * Number literals

    The values of number literals (src/vm/compiler/Parser.c,
    [buildIntegerLiteral] and [buildScaledDecimalLiteral]).  An integer literal
    of any size is accumulated in 16-bit limbs, repacked into the 32-bit limbs
    of a LargeInteger and demoted to a SmallInteger when it fits.  The source
    insists that this demotion agree with [largeIntResult] of the primitives;
    the theorem here says that a literal is exactly the object the primitives
    answer for the same integer. *)
From S2P Require Import Prelude BigIntCore BigIntMul BigIntRadix Tagging LargeInteger Tokenizer.
From stdpp Require Import list.
#[local] Open Scope Z_scope.

(** ** buildIntegerLiteral *)

(** The digit a character stands for; [None] where the loop continues. *)
Definition literal_digit (c base : Z) : option Z :=
  let d := if (chr "0" <=? c) && (c <=? chr "9") then Some (c - chr "0")
           else if (chr "A" <=? c) && (c <=? chr "Z") then Some (c - chr "A" + 10)
           else if (chr "a" <=? c) && (c <=? chr "z") then Some (c - chr "a" + 10)
           else None in
  d ← d; if base <=? d then None else Some d.

(** [v = limbs[j] * base + carry] over the limbs in use. *)
Definition literal_scale (base : Z) (j : nat) (st : list Z * Z) : option (list Z * Z) :=
  let '(limbs, carry) := st in
  x ← limbs !! j;
  let v := u32 (u32 (x * u32 base) + carry) in
  limbs ← put limbs j (u16 (Z.land v 0xFFFF));
  Some (limbs, Z.shiftr v 16).

(** [while (carry != 0)] *)
Definition literal_carry (st : list Z * nat * Z) : option (list Z * nat * Z + list Z * nat) :=
  let '(limbs, len, carry) := st in
  if carry =? 0 then Some (inr (limbs, len))
  else
    limbs ← put limbs len (u16 (Z.land carry 0xFFFF));
    Some (inl (limbs, S len, Z.shiftr carry 16)).

Definition literal_char (str : list Z) (base : Z) (i : nat) (st : list Z * nat) : option (list Z * nat) :=
  let '(limbs, len) := st in
  c ← str !! i;
  match literal_digit c base with
  | None => Some (limbs, len)
  | Some d =>
      '(limbs, carry) ← for_up len 0 (literal_scale base) (limbs, u32 d);
      loop 3 literal_carry (limbs, len, carry)
  end.

(** [while (len > 1 && limbs[len - 1] == 0) len--;] *)
Fixpoint literal_trim (limbs : list Z) (len : nat) : option nat :=
  match len with
  | S (S _ as k) => x ← limbs !! k; if x =? 0 then literal_trim limbs k else Some len
  | _ => Some len
  end.

(** [wide[j / 2] |= (uint32_t) limbs[j] << (16 * (j % 2))] *)
Definition literal_pack (limbs : list Z) (j : nat) (wide : list Z) : option (list Z) :=
  x ← limbs !! j;
  w ← wide !! (j / 2)%nat;
  put wide (j / 2) (Z.lor w (u32 (Z.shiftl x (16 * Z.of_nat (j mod 2))))).

(** The magnitude of at most two limbs. *)
Definition literal_magnitude (wide : list Z) (n : nat) : option Z :=
  magnitude ← (if (1 <=? n)%nat then w0 ← wide !! 0%nat; Some (Z.lor 0 w0) else Some 0);
  if (n =? 2)%nat then w1 ← wide !! 1%nat; Some (Z.lor magnitude (u64 (Z.shiftl w1 32))) else Some magnitude.

Section Literals.
Context `{NativeOrder}.

(** The kernel's classes, as [getClass] finds them. *)
Context (LargePositiveInteger LargeNegativeInteger ScaledDecimal : RawClass).

Definition buildIntegerLiteral (str : list Z) (base : Z) (negative : bool) : option Value :=
  let n := length str in
  '(limbs, len) ← for_up n 0 (literal_char str base) (replicate (n + 2) 0, 1%nat);
  len ← literal_trim limbs len;
  let limbs32 := ((len + 1) / 2)%nat in
  wide ← for_up len 0 (literal_pack limbs) (replicate (limbs32 + 1) 0);
  limbs32 ← bigIntNormalize wide limbs32;
  fits ← (if (limbs32 <=? 2)%nat then
            magnitude ← literal_magnitude wide limbs32;
            let limit := Z.shiftl 1 61 in
            Some (if if negative then magnitude <=? limit else magnitude <? limit then Some magnitude else None)
          else Some None);
  match fits with
  | Some magnitude => tag_small (if negative then - i64 magnitude else i64 magnitude)
  | None =>
      seg ← slice wide 0 limbs32;
      Some (VPointer (mkObject (if negative then LargeNegativeInteger else LargePositiveInteger)
                        (BBytes (bytes_of_limbs seg))))
  end.

(** ** buildScaledDecimalLiteral *)

Definition MANTISSA_SIZE : nat := 256.

(** The loop over [str]: the mantissa's digits, the number of them after the
    point, and the text where it stopped. *)
Fixpoint scaled_scan (str mantissa : list Z) (fracDigits : nat) (inFraction : bool) : list Z * nat * list Z :=
  match str with
  | [] => (mantissa, fracDigits, [])
  | c :: rest =>
      if (c =? chr "s") || negb (length mantissa <? MANTISSA_SIZE - 1)%nat then (mantissa, fracDigits, str)
      else if c =? chr "." then scaled_scan rest mantissa fracDigits true
      else scaled_scan rest (mantissa ++ [c]) (if inFraction then S fracDigits else fracDigits) inFraction
  end.

(** [strtoul] of a run of decimal digits, which is all the tokenizer lets
    follow the suffix. *)
Definition strtoul (ds : list Z) : Z := Z.min (decimal ds) (2 ^ 64 - 1).

Definition buildScaledDecimalLiteral (str : list Z) (negative : bool) : option Value :=
  let '(mantissa, fracDigits, p) := scaled_scan str [] 0 false in
  let scale := match p with
               | c :: d :: ds => if c =? chr "s" then strtoul (d :: ds) else Z.of_nat fracDigits
               | _ => Z.of_nat fracDigits
               end in
  denStr ← (if decide (fracDigits + 1 < MANTISSA_SIZE)%nat
            then Some (chr "1" :: replicate fracDigits (chr "0")) else None);
  num ← buildIntegerLiteral mantissa 10 negative;
  den ← buildIntegerLiteral denStr 10 false;
  scale ← tag_small (i64 scale);
  Some (VPointer (mkObject ScaledDecimal (BVars [num; den; scale]))).
End Literals.

(** ** The value of 16-bit limbs *)

Definition W (i : nat) : Z := 2 ^ (16 * Z.of_nat i).

Fixpoint v16 (l : list Z) : Z :=
  match l with
  | [] => 0
  | x :: l => x + 2 ^ 16 * v16 l
  end.

Definition limb16 (x : Z) : Prop := 0 <= x < 2 ^ 16.

(** The number a digit string denotes, its other characters skipped. *)
Definition digits_value (base : Z) (str : list Z) : Z :=
  fold_left (fun n c => match literal_digit c base with Some d => n * base + d | None => n end) str 0.

Lemma W_0 : W 0 = 1.
Proof. done. Qed.

Lemma W_S i : W (S i) = 2 ^ 16 * W i.
Proof. unfold W. rewrite <- Z.pow_add_r by lia. f_equal. lia. Qed.

Lemma W_pos i : 0 < W i.
Proof. unfold W. apply Z.pow_pos_nonneg; lia. Qed.

Lemma v16_app l k : v16 (l ++ k) = v16 l + W (length l) * v16 k.
Proof.
  induction l as [|x l IH]; cbn [app v16 length]; [unfold W; cbn; lia|]. rewrite IH, W_S. ring.
Qed.

Lemma v16_take_S l i x : l !! i = Some x -> v16 (take (S i) l) = v16 (take i l) + W i * x.
Proof.
  intros Hx. rewrite (take_S_r _ _ _ Hx), v16_app, length_take_le; [cbn; lia|].
  apply lookup_lt_Some in Hx. lia.
Qed.

Lemma v16_take_put l i x : (i < length l)%nat -> v16 (take (S i) (<[i := x]> l)) = v16 (take i l) + W i * x.
Proof.
  intros Hi. rewrite (v16_take_S _ i x) by (by apply list_lookup_insert_eq). by rewrite take_insert_ge by lia.
Qed.

Lemma v16_bound l : Forall limb16 l -> 0 <= v16 l < W (length l).
Proof.
  induction 1 as [|x l Hx Hl IH]; [cbn; unfold W; cbn; lia|]. cbn [v16 length]. rewrite W_S. unfold limb16 in Hx. lia.
Qed.

Lemma literal_digit_range c base d : literal_digit c base = Some d -> 0 <= d < base.
Proof.
  unfold literal_digit. cbn [chr bytes_of_string]. intros Hd.
  change (chr "0") with 48 in Hd. change (chr "9") with 57 in Hd. change (chr "A") with 65 in Hd.
  change (chr "Z") with 90 in Hd. change (chr "a") with 97 in Hd. change (chr "z") with 122 in Hd.
  repeat case_match; simplify_eq/=; repeat case_match; simplify_eq; lia.
Qed.

Lemma digits_value_snoc base str c :
  digits_value base (str ++ [c]) =
    match literal_digit c base with Some d => digits_value base str * base + d | None => digits_value base str end.
Proof. unfold digits_value. by rewrite fold_left_app. Qed.

Lemma digits_value_nonneg base str : 0 <= base -> 0 <= digits_value base str.
Proof.
  intros Hb. induction str as [|c str IH] using rev_ind; [done|]. rewrite digits_value_snoc.
  destruct (literal_digit c base) as [d|] eqn:E; [|done]. apply literal_digit_range in E. nia.
Qed.

(** ** The accumulation *)

Section Accumulation.
Context (base : Z) (Hbase : 0 <= base <= 2 ^ 16).

(** [len] limbs in use hold [v]. *)
Definition holds16 (limbs : list Z) (len : nat) (v : Z) : Prop :=
  (len <= length limbs)%nat /\ Forall limb16 limbs /\ v16 (take len limbs) = v.

Lemma scale_step x carry :
  limb16 x -> limb16 carry ->
  let v := u32 (u32 (x * u32 base) + carry) in
  limb16 (u16 (Z.land v 0xFFFF)) /\ limb16 (Z.shiftr v 16) /\
  u16 (Z.land v 0xFFFF) + 2 ^ 16 * Z.shiftr v 16 = x * base + carry.
Proof.
  unfold limb16. intros Hx Hc. rewrite (u32_id base) by lia.
  assert (0 <= x * base <= 65535 * 65536) by nia. rewrite (u32_id (x * base)) by lia. rewrite u32_id by lia.
  cbv zeta. change 0xFFFF with (Z.ones 16). rewrite Z.land_ones, Z.shiftr_div_pow2 by lia.
  set (v := x * base + carry). assert (0 <= v < 2 ^ 32) by (unfold v; lia).
  pose proof (Z.mod_pos_bound v (2 ^ 16) ltac:(lia)). rewrite u16_id by lia.
  pose proof (Z.div_mod v (2 ^ 16) ltac:(lia)).
  assert (0 <= v / 2 ^ 16 < 2 ^ 16) by (split; [apply Z.div_pos; lia|apply Z.div_lt_upper_bound; lia]). lia.
Qed.

Lemma literal_scale_spec limbs len v d :
  holds16 limbs len v -> limb16 d ->
  exists limbs' carry, for_up len 0 (literal_scale base) (limbs, d) = Some (limbs', carry) /\
    length limbs' = length limbs /\ Forall limb16 limbs' /\ limb16 carry /\
    v16 (take len limbs') + W len * carry = v * base + d.
Proof.
  intros (Hl & Hf & Hv) Hd.
  destruct (for_up_rule (fun j '(l, c) => length l = length limbs /\ Forall limb16 l /\ limb16 c /\
      (forall k, (j <= k)%nat -> l !! k = limbs !! k) /\ v16 (take j l) + W j * c = v16 (take j limbs) * base + d) len 0
      (literal_scale base) (limbs, d)) as ([l c] & E & E1 & E2 & E3 & _ & E4).
  - split_and!; try done. rewrite W_0, !take_0. cbn [v16]. lia.
  - intros j [l c] Hj (E1 & E2 & E3 & E4 & E5). destruct (lookup_Some_lt limbs j) as [x Hx]; [lia|].
    assert (l !! j = Some x) as Hx' by (by rewrite E4).
    unfold literal_scale. rewrite Hx'. cbn [mbind option_bind].
    pose proof (proj1 (Forall_lookup _ _) Hf j x Hx) as Hlx.
    destruct (scale_step x c Hlx E3) as (S1 & S2 & S3). cbv zeta in S1, S2, S3 |- *.
    rewrite put_Some by lia. cbn [mbind option_bind]. eexists. split; [done|]. cbn [fst snd].
    split_and!; [by rewrite length_insert|by apply Forall_insert|done| |].
    + intros k Hk. rewrite list_lookup_insert_ne by lia. apply E4. lia.
    + rewrite v16_take_put by lia. rewrite W_S, (v16_take_S _ _ _ Hx). nia.
  - exists l, c. rewrite Nat.add_0_l in E4. rewrite E4, Hv. by split_and!.
Qed.

Lemma char_spec str i limbs len v :
  (i < length str)%nat -> holds16 limbs len v -> (len <= S i)%nat -> length limbs = (length str + 2)%nat ->
  exists limbs' len', literal_char str base i (limbs, len) = Some (limbs', len') /\
    (forall c, str !! i = Some c ->
       holds16 limbs' len' (match literal_digit c base with Some d => v * base + d | None => v end)) /\
    (1 <= len -> 1 <= len')%nat /\ (len' <= S (S i))%nat /\ length limbs' = length limbs.
Proof.
  intros Hi Hh Hlen Hcap. destruct (lookup_Some_lt str i Hi) as [c Hc]. unfold literal_char. rewrite Hc. cbn [mbind option_bind].
  destruct (literal_digit c base) as [d|] eqn:Ed.
  2:{ exists limbs, len. split_and!; try done; [|lia]. intros c' [= <-]. by rewrite Ed. }
  pose proof (literal_digit_range _ _ _ Ed) as Hd. rewrite u32_id by lia.
  destruct (literal_scale_spec limbs len v d Hh) as (l & k & E & E1 & E2 & E3 & E4); [unfold limb16; lia|].
  rewrite E. cbn [mbind option_bind]. destruct (Z.eqb_spec k 0) as [->|Hk].
  - exists l, len. cbn. split_and!; try done; [|lia]. intros c' [= <-]. rewrite Ed. split; [destruct Hh; lia|]. split; [done|lia].
  - unfold limb16 in E3. assert (u16 (Z.land k 0xFFFF) = k) as Ek.
    { change 0xFFFF with (Z.ones 16). rewrite Z.land_ones by lia. rewrite (Z.mod_small k) by lia. by rewrite u16_id. }
    exists (<[len := k]> l), (S len). cbn [loop literal_carry mbind option_bind].
    rewrite (proj2 (Z.eqb_neq k 0) Hk), Ek, put_Some by lia. cbn [mbind option_bind].
    rewrite Z.shiftr_div_pow2, Z.div_small by lia. cbn. split_and!; try done; try lia; [|by rewrite length_insert].
    intros c' [= <-]. rewrite Ed. split; [rewrite length_insert; lia|]. split; [by apply Forall_insert|].
    rewrite v16_take_put by lia. lia.
Qed.

Lemma accumulate_spec str :
  exists limbs len, for_up (length str) 0 (literal_char str base) (replicate (length str + 2) 0, 1%nat) = Some (limbs, len) /\
    holds16 limbs len (digits_value base str) /\ (1 <= len)%nat /\ length limbs = (length str + 2)%nat.
Proof.
  destruct (for_up_rule (fun i '(l, n) => holds16 l n (digits_value base (take i str)) /\ (1 <= n <= S i)%nat /\
      length l = (length str + 2)%nat) (length str) 0 (literal_char str base) (replicate (length str + 2) 0, 1%nat))
    as ([l n] & E & E1 & E2 & E3).
  - split_and!; try lia; [|by rewrite length_replicate]. split; [rewrite length_replicate; lia|].
    split; [apply Forall_replicate; by unfold limb16|]. by rewrite Nat.add_comm.
  - intros i [l n] Hi (E1 & E2 & E3). destruct (char_spec str i l n _ ltac:(lia) E1 ltac:(lia) E3) as (l' & n' & E & A & B & C & D).
    exists (l', n'). split; [done|]. destruct (lookup_Some_lt str i ltac:(lia)) as [c Hc].
    rewrite (take_S_r _ _ _ Hc), digits_value_snoc. split; [by apply A|]. split; [lia|congruence].
  - exists l, n. rewrite Nat.add_0_l, firstn_all in E1. split_and!; try done; lia.
Qed.

Lemma trim_spec limbs len v :
  holds16 limbs len v -> (1 <= len)%nat ->
  exists len', literal_trim limbs len = Some len' /\ holds16 limbs len' v /\ (1 <= len')%nat.
Proof.
  intros Hh. induction len as [|[|k] IH]; [lia|intros; by exists 1%nat|]. intros _. cbn [literal_trim].
  destruct Hh as (Hl & Hf & Hv). destruct (lookup_Some_lt limbs (S k)) as [x Hx]; [lia|]. rewrite Hx. cbn [mbind option_bind].
  destruct (Z.eqb_spec x 0) as [->|]; [|exists (S (S k)); split_and!; done || lia].
  destruct IH as (n & IH); [|lia|by exists n]. rewrite (v16_take_S _ _ _ Hx) in Hv. split; [lia|]. split; [done|lia].
Qed.
End Accumulation.

(** ** The repacking *)

Lemma W_Bp j : W j = Bp (j / 2) * 2 ^ (16 * Z.of_nat (j mod 2)).
Proof.
  unfold W. rewrite Bp_pow2, <- Z.pow_add_r by lia. f_equal. pose proof (Nat.div_mod_eq j 2). lia.
Qed.

(** One limb added to its half of a word. *)
Lemma pack_word j x w :
  limb16 x -> limb_ok w -> ((j mod 2)%nat = O -> w = 0) -> w < 2 ^ 16 ->
  let w' := Z.lor w (u32 (Z.shiftl x (16 * Z.of_nat (j mod 2)))) in
  w' = w + x * 2 ^ (16 * Z.of_nat (j mod 2)) /\ limb_ok w'.
Proof.
  unfold limb16, limb_ok, BASE. intros Hx Hw H0 H1. cbv zeta.
  assert (j mod 2 = 0 \/ j mod 2 = 1)%nat as [E|E] by (pose proof (Nat.mod_upper_bound j 2); lia); rewrite E in *; cbn [Z.of_nat Z.mul].
  - rewrite (H0 eq_refl) in *. rewrite Z.lor_0_l, Z.shiftl_0_r, u32_id by lia. lia.
  - change (16 * Z.of_nat 1) with 16. rewrite u32_id by (rewrite Z.shiftl_mul_pow2; lia).
    rewrite Z.lor_comm, lor_shiftl_add by lia. lia.
Qed.

Lemma pack_spec limbs len :
  (len <= length limbs)%nat -> Forall limb16 limbs ->
  exists wide, for_up len 0 (literal_pack limbs) (replicate ((len + 1) / 2 + 1) 0) = Some wide /\
    mag wide ((len + 1) / 2) (v16 (take len limbs)).
Proof.
  intros Hl Hf. set (M := ((len + 1) / 2)%nat).
  destruct (for_up_rule (fun j w => length w = S M /\ u32buf w /\ pv w M = v16 (take j limbs) /\
      forall k y, w !! k = Some y -> ((j + 1) / 2 <= k)%nat /\ y = 0 \/ (k < j / 2)%nat \/ k = (j / 2)%nat /\ (j mod 2 = 1)%nat /\ y < 2 ^ 16)
      len 0 (literal_pack limbs) (replicate (M + 1) 0)) as (wide & E & E1 & E2 & E3 & _).
  - split_and!; [rewrite length_replicate; lia|apply u32buf_replicate| |].
    + unfold pv. by rewrite take_replicate, bval_zeros.
    + intros k y Hy. apply lookup_replicate in Hy as [-> _]. left. split; [cbn; lia|done].
  - intros j w Hj (E1 & E2 & E3 & E4). destruct (lookup_Some_lt limbs j) as [x Hx]; [lia|].
    assert (j / 2 < M)%nat as HM.
    { unfold M. pose proof (Nat.div_mod_eq j 2). pose proof (Nat.div_mod_eq (len + 1) 2).
      pose proof (Nat.mod_upper_bound j 2). pose proof (Nat.mod_upper_bound (len + 1) 2). lia. }
    destruct (lookup_Some_lt w (j / 2)) as [y Hy]; [lia|]. unfold literal_pack. rewrite Hx. cbn [mbind option_bind].
    rewrite Hy. cbn [mbind option_bind]. rewrite put_Some by lia. eexists. split; [done|].
    pose proof (proj1 (Forall_lookup _ _) Hf j x Hx) as Hlx. pose proof (u32buf_lookup _ _ _ E2 Hy) as Hly.
    assert (((j mod 2)%nat = O -> y = 0) /\ y < 2 ^ 16) as [Y0 Y1].
    { pose proof (Nat.div_mod_eq j 2). pose proof (Nat.div_mod_eq (j + 1) 2). pose proof (Nat.mod_upper_bound j 2).
      pose proof (Nat.mod_upper_bound (j + 1) 2). pose proof (E4 _ _ Hy). split; [intros|]; lia. }
    destruct (pack_word j x y Hlx Hly Y0 Y1) as [P1 P2]. cbv zeta in P1, P2.
    split_and!; [by rewrite length_insert|by apply u32buf_insert| |].
    + rewrite (pv_insert _ _ _ y) by done. rewrite E3, (v16_take_S _ _ _ Hx), W_Bp, P1. lia.
    + intros k z Hz. pose proof (Nat.div_mod_eq j 2). pose proof (Nat.mod_upper_bound j 2).
      pose proof (Nat.div_mod_eq (S j) 2). pose proof (Nat.mod_upper_bound (S j) 2).
      pose proof (Nat.div_mod_eq (S j + 1) 2). pose proof (Nat.mod_upper_bound (S j + 1) 2).
      pose proof (Nat.div_mod_eq (j + 1) 2). pose proof (Nat.mod_upper_bound (j + 1) 2).
      destruct (decide (k = j / 2)%nat) as [->|Hne].
      * rewrite list_lookup_insert_eq in Hz by lia. simplify_eq. right.
        destruct (decide (j mod 2 = 0)%nat) as [Em|]; [right|left; lia]. split; [lia|]. split; [lia|].
        rewrite P1, Em, Y0 by done. cbn. unfold limb16 in Hlx. lia.
      * rewrite list_lookup_insert_ne in Hz by done. destruct (E4 _ _ Hz) as [[? ->]|[?|(? & ? & ?)]]; [left|right; left|]; lia.
  - exists wide. split; [done|]. rewrite Nat.add_0_l in E3. split; [lia|]. by split.
Qed.

(** ** The literal *)

Section LiteralSpec.
Context `{NativeOrder} (pos neg : RawClass).

Lemma magnitude_spec wide n m : nmag wide n m -> (n <= 2)%nat -> literal_magnitude wide n = Some m.
Proof.
  intros Hn Hle. unfold literal_magnitude. destruct (Nat.eqb_spec n 0) as [->|H0].
  - cbn. f_equal. symmetry. by apply (nmag_zero _ _ _ Hn).
  - destruct (low_limbs _ _ _ Hn ltac:(lia)) as (l0 & L0 & L). rewrite (proj2 (Nat.leb_le 1 n)) by lia. rewrite L0.
    cbn [mbind option_bind]. rewrite Z.lor_0_l. destruct (n =? 2)%nat; [|congruence].
    destruct L as (l1 & L1 & L). rewrite L1. cbn [mbind option_bind]. congruence.
Qed.

Lemma large_spec wide n m s :
  nmag wide n m -> ~ small (signed s m) ->
  (seg ← slice wide 0 n; Some (VPointer (mkObject (if s then neg else pos) (BBytes (bytes_of_limbs seg)))))
    = Some (integer_object pos neg (signed s m)).
Proof.
  intros Hn Hs. unfold integer_object. rewrite decide_False by done. pose proof (mag_range _ _ _ (proj1 Hn)) as Hr.
  assert (0 < m) by (unfold small, signed in Hs; destruct s; lia).
  pose proof Hn as [(Hl & _) _]. rewrite (slice_Some wide 0 n) by lia. cbn [mbind option_bind].
  rewrite drop_0, (nmag_limbs _ _ _ Hn). replace (Z.abs (signed s m)) with m by (unfold signed; destruct s; lia).
  replace (signed s m <? 0) with s by (unfold signed; destruct s; case_bool; lia || done). by destruct s.
Qed.

Lemma buildIntegerLiteral_spec str base negative :
  0 <= base <= 2 ^ 16 ->
  buildIntegerLiteral pos neg str base negative
    = Some (integer_object pos neg (signed negative (digits_value base str))).
Proof.
  intros Hb. unfold buildIntegerLiteral.
  destruct (accumulate_spec base Hb str) as (limbs & len & E & Hh & Hlen & _). rewrite E. cbn [mbind option_bind].
  destruct (trim_spec limbs len _ Hh Hlen) as (k & Ek & (Hk & Hf & Hv) & _). rewrite Ek. cbn [mbind option_bind].
  destruct (pack_spec limbs k Hk Hf) as (wide & Ew & (Hl & Hu & Hp)). rewrite Ew. cbn [mbind option_bind].
  destruct (bigIntNormalize_spec _ _ Hl Hu) as (n & En & _ & Hn). rewrite En, Hp, Hv in *. cbn [mbind option_bind].
  set (m := digits_value base str) in *. pose proof (mag_range _ _ _ (proj1 Hn)) as Hr.
  pose proof (fits_spec wide n m negative Hn) as Hfit.
  destruct (Nat.leb_spec n 2) as [H2|H2].
  - rewrite (magnitude_spec _ _ _ Hn H2). cbn [mbind option_bind].
    assert ((if negative then m <=? Z.shiftl 1 61 else m <? Z.shiftl 1 61) = bool_decide (small (signed negative m))) as ->.
    { change (Z.shiftl 1 61) with (2 ^ 61). destruct (decide (small (signed negative m))) as [Hs|Hs];
        [rewrite bool_decide_eq_true_2 by done|rewrite bool_decide_eq_false_2 by done];
        unfold small, signed in Hs; destruct negative; lia. }
    destruct (decide (small (signed negative m))) as [Hs|Hs].
    + rewrite bool_decide_eq_true_2 by done. rewrite i64_id by (unfold small, signed in Hs; destruct negative; lia).
      unfold integer_object. rewrite decide_True by done. by apply tag_small_spec.
    + rewrite bool_decide_eq_false_2 by done. by apply large_spec.
  - cbn [mbind option_bind]. apply large_spec; [done|]. intros Hs. rewrite bool_decide_eq_true_2 in Hfit by done.
    unfold largeIntFitsSmall in Hfit. destruct (Nat.ltb_spec 2 n); [done|lia].
Qed.

(** The character [c] is the digit [d], whatever the base: ten figures, then the
    letters in either case. *)
Definition digit_char (c d : Z) : Prop := (0 <= d <= 9 /\ c = 48 + d) \/ (10 <= d <= 35 /\ (c = 55 + d \/ c = 87 + d)).

(** [str] is a numeral of the base with this value. *)
Inductive numeral (base : Z) : list Z -> Z -> Prop :=
| numeral_digit c d : digit_char c d -> d < base -> numeral base [c] d
| numeral_snoc str v c d : numeral base str v -> digit_char c d -> d < base -> numeral base (str ++ [c]) (v * base + d).

Lemma literal_digit_char base c d : digit_char c d -> d < base -> literal_digit c base = Some d.
Proof.
  unfold digit_char, literal_digit. change (chr "0") with 48. change (chr "9") with 57. change (chr "A") with 65. change (chr "Z") with 90.
  change (chr "a") with 97. change (chr "z") with 122. intros [[Hd ->]|[Hd [-> | ->]]] Hb.
  - rewrite !(proj2 (Z.leb_le _ _)) by lia. cbn [andb mbind option_bind]. replace (48 + d - 48) with d by lia. by rewrite (proj2 (Z.leb_gt _ _)) by lia.
  - rewrite (proj2 (Z.leb_gt (55 + d) 57)), andb_false_r, !(proj2 (Z.leb_le _ _)) by lia. cbn [andb mbind option_bind].
    replace (55 + d - 65 + 10) with d by lia. by rewrite (proj2 (Z.leb_gt _ _)) by lia.
  - rewrite (proj2 (Z.leb_gt (87 + d) 57)), (proj2 (Z.leb_gt (87 + d) 90)), !andb_false_r, !(proj2 (Z.leb_le _ _)) by lia. cbn [andb mbind option_bind].
    replace (87 + d - 97 + 10) with d by lia. by rewrite (proj2 (Z.leb_gt _ _)) by lia.
Qed.

Lemma numeral_value base str v : numeral base str v -> digits_value base str = v.
Proof.
  induction 1 as [c d Hc Hd|str v c d _ IH Hc Hd].
  - change [c] with ([] ++ [c]). rewrite digits_value_snoc, (literal_digit_char _ _ d Hc Hd). cbn. lia.
  - by rewrite digits_value_snoc, (literal_digit_char _ _ d Hc Hd), IH.
Qed.

(** C24. A numeral of any length, in a base from 2 to 36 and with letters of
    either case, is built without leaving a buffer as the object the
    LargeInteger primitives answer for its value: a SmallInteger exactly when
    the value, with the sign, fits 62 bits, else an object of the sign's class
    with the value's limbs.  The sign is the one before the literal; a sign
    between the radix and the digits, which the grammar allows, is not part of
    a numeral here (see [radix_sign_ignored]). *)
Theorem integer_literal_value str base v negative :
  2 <= base <= 36 -> numeral base str v ->
  buildIntegerLiteral pos neg str base negative = Some (integer_object pos neg (signed negative v)).
Proof. intros Hb Hn. rewrite buildIntegerLiteral_spec by lia. by rewrite (numeral_value base str v Hn). Qed.

(** ** Scaled decimals *)

Definition decimal_digit (c : Z) : Prop := 48 <= c <= 57.

Lemma scan_digits ds rest m k b :
  Forall decimal_digit ds -> (length m + length ds <= MANTISSA_SIZE - 1)%nat ->
  scaled_scan (ds ++ rest) m k b = scaled_scan rest (m ++ ds) (if b then k + length ds else k)%nat b.
Proof.
  intros Hd. revert m k. induction Hd as [|c ds Hc Hd IH]; intros m k Hl; cbn [app length] in *.
  - rewrite app_nil_r, Nat.add_0_r. by destruct b.
  - cbn [scaled_scan]. unfold decimal_digit in Hc. change (chr "s") with 115. change (chr ".") with 46.
    rewrite (proj2 (Z.eqb_neq c 115)), (proj2 (Z.eqb_neq c 46)), (proj2 (Nat.ltb_lt _ _)) by lia. cbn [orb negb].
    rewrite IH, <- (assoc_L (++)) by (rewrite length_app; cbn [length]; lia). cbn [app]. f_equal. destruct b; lia.
Qed.

Lemma scan_stop m k b rest : scaled_scan (chr "s" :: rest) m k b = (m, k, chr "s" :: rest).
Proof. done. Qed.

Lemma digits_value_power n : digits_value 10 (chr "1" :: replicate n (chr "0")) = 10 ^ Z.of_nat n.
Proof.
  induction n as [|n IH]; [done|]. rewrite replicate_S_end, app_comm_cons, digits_value_snoc, IH.
  cbn [literal_digit]. change (literal_digit (chr "0") 10) with (Some 0). cbn [mbind option_bind].
  rewrite Nat2Z.inj_succ, Z.pow_succ_r by lia. lia.
Qed.

Lemma decimal_nonneg ds : Forall decimal_digit ds -> 0 <= decimal ds.
Proof.
  unfold decimal. induction ds as [|c ds IH] using rev_ind; [done|]. intros Hd. rewrite fold_left_app. cbn [fold_left].
  apply Forall_app in Hd as [Hd Hc]. inversion_clear Hc as [|? ? Hc' _]. unfold decimal_digit in Hc'. specialize (IH Hd). lia.
Qed.

(** The digits of a scaled decimal with a point: numerator, a power of ten
    under it, and the print scale.  Up to 254 digits. *)
Theorem scaled_literal_value ScaledDecimal ds fs ss negative :
  Forall decimal_digit ds -> Forall decimal_digit fs ->
  (length ds + length fs < MANTISSA_SIZE - 1)%nat -> (ss <> [] -> strtoul ss < 2 ^ 61) -> Forall decimal_digit ss ->
  buildScaledDecimalLiteral pos neg ScaledDecimal (ds ++ chr "." :: fs ++ chr "s" :: ss) negative =
    Some (VPointer (mkObject ScaledDecimal (BVars
      [integer_object pos neg (signed negative (digits_value 10 (ds ++ fs)));
       integer_object pos neg (10 ^ Z.of_nat (length fs));
       VInt (match ss with [] => Z.of_nat (length fs) | _ => strtoul ss end)]))).
Proof.
  intros Hd Hf Hl Hs Hss. unfold buildScaledDecimalLiteral. rewrite scan_digits by (done || cbn [length]; lia).
  assert (scaled_scan (chr "." :: fs ++ chr "s" :: ss) ([] ++ ds) 0 false = (ds ++ fs, length fs, chr "s" :: ss)) as ->.
  { cbn [app scaled_scan]. change (chr "." =? chr "s") with false. change (chr "." =? chr ".") with true.
    rewrite (proj2 (Nat.ltb_lt _ _)) by lia. cbn [orb negb]. rewrite scan_digits by (done || cbn [length]; lia). by rewrite scan_stop. }
  rewrite decide_True by (unfold MANTISSA_SIZE in *; lia). cbn [mbind option_bind].
  rewrite !buildIntegerLiteral_spec by lia. cbn [mbind option_bind]. rewrite digits_value_power.
  set (scale := match ss with [] => _ | _ => _ end).
  replace (match ss with [] => Z.of_nat (length fs) | d :: ds0 => _ end) with scale by (unfold scale; by destruct ss).
  assert (0 <= scale < 2 ^ 61) as Hsc.
  { unfold scale. destruct ss as [|s ss]; [unfold MANTISSA_SIZE in *; lia|]. split; [|by apply Hs].
    unfold strtoul. apply Z.min_glb; [by apply decimal_nonneg|lia]. }
  rewrite i64_id by lia. rewrite tag_small_spec by (unfold small; lia). done.
Qed.
End LiteralSpec.

(** ** Examples *)

Module LiteralExamples.
Notation build := (buildIntegerLiteral (byte_class 1) (byte_class 2)).

(** [-16rFf...]: seventy-two bits, negative. *)
Lemma integer_literal_value_witness :
  build (bytes_of_string "FfFfFfFfFfFfFfFfFf") 16 true = Some (integer_object (byte_class 1) (byte_class 2) (- (2 ^ 72 - 1))).
Proof.
  refine (integer_literal_value (byte_class 1) (byte_class 2) (bytes_of_string "FfFfFfFfFfFfFfFfFf") 16 (2 ^ 72 - 1) true _ _); [lia|].
  assert (digit_char (chr "F") 15) as H1 by (right; vm_compute; split; [split; discriminate|by left]).
  assert (digit_char (chr "f") 15) as H2 by (right; vm_compute; split; [split; discriminate|by right]).
  exact (numeral_snoc 16 _ _ _ 15 (numeral_snoc 16 _ _ _ 15 (numeral_snoc 16 _ _ _ 15 (numeral_snoc 16 _ _ _ 15 (numeral_snoc 16 _ _ _ 15 (numeral_snoc 16 _ _ _ 15
    (numeral_snoc 16 _ _ _ 15 (numeral_snoc 16 _ _ _ 15 (numeral_snoc 16 _ _ _ 15 (numeral_snoc 16 _ _ _ 15 (numeral_snoc 16 _ _ _ 15 (numeral_snoc 16 _ _ _ 15
    (numeral_snoc 16 _ _ _ 15 (numeral_snoc 16 _ _ _ 15 (numeral_snoc 16 _ _ _ 15 (numeral_snoc 16 _ _ _ 15 (numeral_snoc 16 _ _ _ 15 (numeral_digit 16 _ 15 H1 eq_refl)
    H2 eq_refl) H1 eq_refl) H2 eq_refl) H1 eq_refl) H2 eq_refl) H1 eq_refl) H2 eq_refl) H1 eq_refl) H2 eq_refl) H1 eq_refl) H2 eq_refl) H1 eq_refl) H2 eq_refl)
    H1 eq_refl) H2 eq_refl) H1 eq_refl) H2 eq_refl).
Defined.

(** The tokenizer accepts a sign after the radix and the grammar in the source
    lists one, but the accumulation skips it: [16r-FF] is 255. *)
Theorem radix_sign_ignored : build (bytes_of_string "-FF") 16 false = Some (VInt 255).
Proof. vm_compute. reflexivity. Qed.

(** The mantissa's buffer stops the scan of a scaled decimal: the literal of
    256 digits [7] with the suffix [s] has a numerator of 255 digits. *)
Theorem scaled_literal_truncates :
  buildScaledDecimalLiteral (byte_class 1) (byte_class 2) (byte_class 5) (replicate 256 (chr "7") ++ [chr "s"]) false =
  buildScaledDecimalLiteral (byte_class 1) (byte_class 2) (byte_class 5) (replicate 255 (chr "7") ++ [chr "s"]) false.
Proof. vm_compute. reflexivity. Qed.
End LiteralExamples.
