(* ===== verification/Parser.v ===== *)
(** * Parser

    The recursive-descent parser (src/vm/compiler/Parser.c, Parser.h) and the
    nodes it builds (src/vm/compiler/Ast.h).

    The parser sees the tokenizer as a cursor into the sequence of tokens of
    the source, which is what TokenStream.v proves the tokenizer to be: the
    state holds the token before the current one, the tokens from the current
    one on, and the end-of-input token that follows them for ever.  A parse
    function returns a pointer (an [option]: [None] is NULL) and the error is
    a separate flag of the parser, as in the code: [CATCH] tests the flag, not
    the pointer, so the two can disagree.  Using a NULL pointer is [Fault].

    The mutual recursion runs through [parsePrimary] (for expressions),
    [parseLiteral] (for arrays) and [parseClass] (for namespaces); the other
    functions take these as arguments.  A loop runs on the number of tokens
    left, which every iteration lowers; ParserTotal.v proves that no loop and
    no recursion ever runs out.  Handle scopes are left out: they only keep
    objects alive. *)
From S2P Require Import Prelude Tagging LargeInteger Tokenizer Lexemes IntegerLiteral.
From stdpp Require Import list.
#[local] Open Scope nat_scope.

(** ** Nodes *)

Inductive SourceCodeClass := SourceCodeKind | FileSourceCodeKind.

Record SourceCode := mkSourceCode {
  sourceOrFileName : list Z;
  sourceCodeClass : SourceCodeClass;
  sourcePosition : nat;
  sourceSize : option Z;
  sourceLine : nat;
  sourceColumn : nat }.

Inductive LiteralClass :=
| NilNode | TrueNode | FalseNode | VariableNode | IntegerNode | SymbolNode | StringNode | CharacterNode.

(** The value of a literal: a String object, or a tagged or boxed value. *)
Inductive LiteralValue :=
| StringValue (s : list Z)
| RawLiteral (v : Value).

(** A node; [Field] is what its [sourceCode] slot holds. *)
Inductive Node :=
| LiteralNode (class : LiteralClass) (value : LiteralValue) (source : Field)
| ArrayNode (items : list Node) (source : Field)
| BlockNode (args tempVars expressions : list Node) (source : Field)
| ExpressionNode (returns : bool) (assigments : list Node) (receiver : Node) (messageExpressions : list Node)
    (source : Field)
| MessageExpressionNode (selector : list Z) (args : list Node) (source : Field)
with Field :=
| NilField
| SourceField (s : SourceCode)
| CollectionField (items : list Node).

Record MethodNode := mkMethodNode {
  methodClassName : option (list Z);
  methodSelector : list Z;
  methodPragmas : list Node;
  methodBody : Node;
  methodSource : SourceCode }.

(** [None] is nil: an extension has no superclass, a namespace no pragmas,
    variables or methods, and only a namespace has members. *)
Inductive ClassNode := mkClassNode {
  className : Node;
  classSuperName : option Node;
  classPragmas : option (list Node);
  classVars : option (list Node);
  classMethods : option (list MethodNode);
  classSource : SourceCode;
  classIsExtension : bool;
  classMembers : option (list ClassNode) }.

(** ** The parser's state *)

Record Tok := mkTok {
  tok_type : TokenType;
  tok_content : list Z;
  tok_position : nat;
  tok_line : nat;
  tok_column : nat;
  tok_separated : bool }.

Record Parser := mkParser {
  before : Tok;
  tokens : list Tok;
  endToken : Tok;
  fileName : list Z;
  fileClass : SourceCodeClass;
  error : option (list TokenType) }.

Definition currentToken (p : Parser) : Tok := hd (endToken p) (tokens p).
Definition prevToken (p : Parser) : Tok := before p.
Definition peekToken (p : Parser) : Tok := hd (endToken p) (tl (tokens p)).

(** The token it returns is the new current one. *)
Definition nextToken (p : Parser) : Parser :=
  mkParser (currentToken p) (tl (tokens p)) (endToken p) (fileName p) (fileClass p) (error p).

Definition currentType (p : Parser) : TokenType := tok_type (currentToken p).
Definition peekType (p : Parser) : TokenType := tok_type (peekToken p).

Definition set_error (e : list TokenType) (p : Parser) : Parser :=
  mkParser (before p) (tokens p) (endToken p) (fileName p) (fileClass p) (Some e).

Definition errorExpected (expected : list TokenType) (p : Parser) : Parser := set_error expected p.

(** [type & mask] for a mask written as the list of its token types. *)
Definition isOneOf (t : TokenType) (mask : list TokenType) : bool := bool_decide (t ∈ mask).

Definition is_some {A} (o : option A) : bool := match o with Some _ => true | None => false end.

(** ** Control *)

(** A parse function: the pointer it returns and the state it leaves. *)
Definition P (A : Type) : Type := Parser -> Run (option A * Parser).

Definition CATCH {A B} (parseFce : P A) (k : option A -> P B) : P B := fun p =>
  '(a, p) ← parseFce p;
  if is_some (error p) then Done (None, p) else k a p.

Definition EXPECT_TOKEN {B} (mask : list TokenType) (k : P B) : P B := fun p =>
  if isOneOf (currentType p) mask then k p else Done (None, errorExpected mask p).

Definition SKIP_TOKEN {B} (mask : list TokenType) (k : P B) : P B :=
  EXPECT_TOKEN mask (fun p => k (nextToken p)).

Definition NEXT_EXPECT_TOKEN {B} (mask : list TokenType) (k : P B) : P B := fun p =>
  EXPECT_TOKEN mask k (nextToken p).

(** [ordCollAddObject]: appends; dereferences the object. *)
Definition ordCollAddObject {A} (coll : list A) (object : option A) : Run (list A) :=
  object ← unchecked object; Done (coll ++ [object]).

(** The fuel of a loop that consumes a token each time round. *)
Definition rounds (p : Parser) : nat := S (length (tokens p)).

(** ** Source positions *)

Definition createSourceCode (p : Parser) (computeSize : bool) : SourceCode :=
  let token := currentToken p in
  mkSourceCode (fileName p) (fileClass p) (tok_position token)
    (if computeSize then Some (Z.of_nat (length (tok_content token))) else None)
    (tok_line token) (tok_column token).

Definition computeSourceCodeSize (source : SourceCode) (p : Parser) : SourceCode :=
  let token := prevToken p in
  mkSourceCode (sourceOrFileName source) (sourceCodeClass source) (sourcePosition source)
    (Some (Z.of_nat (tok_position token) - Z.of_nat (sourcePosition source) + Z.of_nat (length (tok_content token)))%Z)
    (sourceLine source) (sourceColumn source).

(** The slot after [value], whatever the object is: for a block that slot is
    [tempVars], for an expression [assigments]. *)
Definition literalNodeGetSourceCode (literal : Node) : Field :=
  match literal with
  | LiteralNode _ _ source | ArrayNode _ source => source
  | BlockNode _ tempVars _ _ => CollectionField tempVars
  | ExpressionNode _ assigments _ _ _ => CollectionField assigments
  | MessageExpressionNode _ args _ => CollectionField args
  end.

(** ** Selectors

    Keywords are gathered in a String of 64 bytes that grows by what is needed
    and 64 more; the number of bytes in use is kept beside it. *)

Definition newString (n : nat) : list Z := replicate n 0%Z.
Definition copyResizedObject (s : list Z) (n : nat) : list Z := resize n 0%Z s.

Definition appendKeyword (content : list Z) (st : list Z * nat) : Run (list Z * nat) :=
  let '(selector, size) := st in
  let contentSize := length content in
  let size := size + contentSize in
  let selector := if length selector <? size then copyResizedObject selector (size + 64) else selector in
  selector ← unchecked (blit selector (size - contentSize) content);
  Done (selector, size).

(** ** Token sets *)

Definition SPECIAL_CHARS_TOKENS : list TokenType :=
  [TOKEN_SPECIAL_CHARS; TOKEN_VERTICAL_BAR; TOKEN_MINUS; TOKEN_LESS_THAN; TOKEN_GREATER_THAN].

Definition isMethodFirstToken (token : Tok) : bool :=
  isOneOf (tok_type token) ([TOKEN_IDENTIFIER] ++ SPECIAL_CHARS_TOKENS ++ [TOKEN_KEYWORD]).

Definition isExpression (token : Tok) : bool :=
  match tok_type token with
  | TOKEN_RETURN | TOKEN_DIGIT | TOKEN_IDENTIFIER | TOKEN_SYMBOL_START | TOKEN_CHAR | TOKEN_STRING
  | TOKEN_ARRAY_OPEN_BRACKET | TOKEN_OPEN_BRACKET | TOKEN_OPEN_SQUARE_BRACKET | TOKEN_MINUS => true
  | _ => false
  end.

Definition isArrayLiteral (token : Tok) : bool :=
  match tok_type token with
  | TOKEN_DIGIT | TOKEN_MINUS | TOKEN_SYMBOL_START | TOKEN_STRING | TOKEN_CHAR
  | TOKEN_ARRAY_OPEN_BRACKET | TOKEN_OPEN_BRACKET => true
  | _ => false
  end.

Definition parserAtEnd (p : Parser) : bool := bool_decide (currentType p = TOKEN_END_OF_INPUT).

(** ** Variables *)

(** The class of a name; [None] for a plain variable. *)
Definition constantClass (content : list Z) : option LiteralClass :=
  if decide (content = bytes_of_string "nil") then Some NilNode
  else if decide (content = bytes_of_string "true") then Some TrueNode
  else if decide (content = bytes_of_string "false") then Some FalseNode
  else None.

Definition parseVariable (p : Parser) : Node * Parser :=
  let content := tok_content (currentToken p) in
  let class := default VariableNode (constantClass content) in
  (LiteralNode class (StringValue content) (SourceField (createSourceCode p true)), nextToken p).

(** ** Literals *)

(** The text from the first [c] on. *)
Fixpoint strchr (s : list Z) (c : Z) : option (list Z) :=
  match s with
  | [] => None
  | x :: s' => if (x =? c)%Z then Some s else strchr s' c
  end.

Definition strpbrk (s set : list Z) : option (list Z) := list_find (fun c => bool_decide (c ∈ set) = true) s ≫= fun '(i, _) => Some (drop i s).

(** [atoi] and [strtol] of a token's content: the digits they start with. *)
Definition atoiContent (content : list Z) : Run Z := atoi (fst (run_of isNumeric content)).

(** [strtol(s, NULL, base)]: an optional sign and the longest run of digits,
    kept within [long]; base 0 takes the prefix for octal. *)
Definition strtol (s : list Z) (base : Z) : Z :=
  let negative := (first s =? chr "-")%Z in
  let s := if negative || (first s =? chr "+")%Z then tl s else s in
  let base := if (base =? 0)%Z then if (first s =? chr "0")%Z then 8%Z else 10%Z else base in
  if (base =? 1)%Z || (36 <? base)%Z then 0%Z
  else
    let ds := fst (run_of (fun c => is_some (literal_digit c base)) s) in
    let v := digits_value base ds in
    if negative then Z.max (- v) (- 2 ^ 63) else Z.min v (2 ^ 63 - 1).

Section Literals.
Context `{NativeOrder} (LargePositiveInteger LargeNegativeInteger ScaledDecimal BoxedFloat64 : RawClass).

(** The C library's conversion of a decimal fraction, as the 64 bits of the
    double it answers, and a double's bytes in memory. *)
Context (strtod : list Z -> Z) (double_bytes : Z -> list Z).

Definition literalNode (class : LiteralClass) (v : LiteralValue) (source : SourceCode) : Node :=
  LiteralNode class v (SourceField source).

(** A fitting double is immediate, another one is boxed. *)
Definition floatLiteral (value : Z) : Run Value :=
  if smallFloatFits value then _ ← unchecked (tagFloat value); Done (VFloat value)
  else Done (VPointer (mkObject BoxedFloat64 (BBytes (double_bytes value)))).

(** The value of a literal without a radix: scaled, with a fraction or an
    exponent, or an integer. *)
Definition decimalLiteral (content : list Z) (negative : bool) : Run Value :=
  if is_some (strchr content (chr "s")) then
    unchecked (buildScaledDecimalLiteral LargePositiveInteger LargeNegativeInteger ScaledDecimal content negative)
  else if is_some (strpbrk content (bytes_of_string ".eE")) then
    let value := strtod content in
    floatLiteral (if negative then Z.lxor value (2 ^ 63) else value)
  else unchecked (buildIntegerLiteral LargePositiveInteger LargeNegativeInteger content 10 negative).

Definition parseNumber (negative : bool) : P Node := fun p =>
  let source := createSourceCode p true in
  let content := tok_content (currentToken p) in
  match strchr content (chr "r") with
  | Some r =>
      base ← atoiContent content;
      let digits := tl r in
      match digits with
      | [] => Done (None, errorExpected [TOKEN_DIGIT] p)
      | _ =>
          let p := nextToken p in
          v ← unchecked (buildIntegerLiteral LargePositiveInteger LargeNegativeInteger digits base negative);
          Done (Some (literalNode IntegerNode (RawLiteral v) source), p)
      end
  | None =>
      let p := nextToken p in
      v ← decimalLiteral content negative;
      Done (Some (literalNode IntegerNode (RawLiteral v) source), p)
  end.

(** Answers a number, not a pointer: 0 with the error flag set. *)
Definition parseInteger : P Z := fun p =>
  let content := tok_content (currentToken p) in
  match strchr content (chr "r") with
  | Some r =>
      base ← atoiContent content;
      match tl r with
      | [] => Done (Some 0%Z, errorExpected [TOKEN_DIGIT] p)
      | ch => Done (Some (strtol ch (u8 base)), nextToken p)
      end
  | None => Done (Some (strtol content 10), nextToken p)
  end.

(** [do ... while (token->type == TOKEN_KEYWORD && !token->isSeparated)] *)
Fixpoint symbolKeywords (fuel : nat) (st : list Z * nat) (p : Parser) : Run (list Z * nat * Parser) :=
  match fuel with
  | O => NoFuel
  | S fuel =>
      st ← appendKeyword (tok_content (currentToken p)) st;
      let p := nextToken p in
      if bool_decide (currentType p = TOKEN_KEYWORD) && negb (tok_separated (currentToken p))
      then symbolKeywords fuel st p else Done (st, p)
  end.

Definition parseSymbol : P Node :=
  NEXT_EXPECT_TOKEN ([TOKEN_IDENTIFIER; TOKEN_KEYWORD] ++ SPECIAL_CHARS_TOKENS ++ [TOKEN_STRING]) (fun p =>
    let source := createSourceCode p true in
    if decide (currentType p = TOKEN_KEYWORD) then
      '(symbol, size, p) ← symbolKeywords (rounds p) (newString 64, 0) p;
      Done (Some (literalNode SymbolNode (StringValue (copyResizedObject symbol size)) source), p)
    else
      Done (Some (literalNode SymbolNode (StringValue (tok_content (currentToken p))) source), nextToken p)).

Definition parseString : P Node := fun p =>
  Done (Some (literalNode StringNode (StringValue (tok_content (currentToken p))) (createSourceCode p true)), nextToken p).

(** [content[1]] of a character token is its terminator when the source ends
    after the dollar. *)
Definition parseChar : P Node := fun p =>
  let token := currentToken p in
  let source := createSourceCode p true in
  if bool_decide (tok_content token = bytes_of_string "$<") && bool_decide (peekType p = TOKEN_DIGIT) then
    CATCH parseInteger (fun value =>
      SKIP_TOKEN [TOKEN_GREATER_THAN] (fun p =>
        value ← unchecked value;
        Done (Some (literalNode CharacterNode (RawLiteral (VChar (u8 value))) source), p))) (nextToken p)
  else
    Done (Some (literalNode CharacterNode (RawLiteral (VChar (u8 (nth 1 (tok_content token) 0%Z)))) source), nextToken p).

Section Arrays.
Context (parseLiteral : P Node).

Definition parseArrayLiteral : P Node := fun p =>
  let token := currentToken p in
  if decide (tok_type token = TOKEN_IDENTIFIER) then
    match constantClass (tok_content token) with
    | Some class =>
        Done (Some (literalNode class (StringValue (tok_content token)) (createSourceCode p true)), nextToken p)
    | None => Done (None, p)
    end
  else if isArrayLiteral token then parseLiteral p
  else Done (None, p).

(** The [do] loop: NULL ends it, whether or not the error flag is set. *)
Fixpoint arrayItems (fuel : nat) (array : list Node) (p : Parser) : Run (list Node * Parser) :=
  match fuel with
  | O => NoFuel
  | S fuel =>
      '(literal, p) ← parseArrayLiteral p;
      match literal with
      | None => Done (array, p)
      | Some literal => arrayItems fuel (array ++ [literal]) p
      end
  end.

Definition parseArray : P Node := fun p =>
  let sourceCode := createSourceCode p false in
  let p := nextToken p in
  '(array, p) ← arrayItems (rounds p) [] p;
  SKIP_TOKEN [TOKEN_CLOSE_BRACKET] (fun p =>
    Done (Some (ArrayNode array (SourceField (computeSourceCodeSize sourceCode p))), p)) p.
End Arrays.

Fixpoint parseLiteralIn (fuel : nat) : P Node := fun p =>
  match fuel with
  | O => NoFuel
  | S fuel =>
      match currentType p with
      | TOKEN_MINUS => EXPECT_TOKEN [TOKEN_DIGIT] (parseNumber true) (nextToken p)
      | TOKEN_DIGIT => parseNumber false p
      | TOKEN_SYMBOL_START => parseSymbol p
      | TOKEN_STRING => parseString p
      | TOKEN_CHAR => parseChar p
      | TOKEN_ARRAY_OPEN_BRACKET | TOKEN_OPEN_BRACKET => parseArray (parseLiteralIn fuel) p
      | _ => Done (None, errorExpected
               [TOKEN_DIGIT; TOKEN_SYMBOL_START; TOKEN_STRING; TOKEN_CHAR; TOKEN_ARRAY_OPEN_BRACKET] p)
      end
  end.

Definition parseLiteral : P Node := fun p => parseLiteralIn (rounds p) p.

(** ** Expressions *)

(** Appends to [error.expected] where an error was set. *)
Definition alsoExpected (more : list TokenType) (p : Parser) : Parser :=
  match error p with Some e => set_error (e ++ more) p | None => p end.

Definition convertToExpression (literal messageExpression : Node) : Node :=
  ExpressionNode false [] literal [messageExpression] (literalNodeGetSourceCode literal).

Definition createMessageExpressionNode (selector : list Z) (args : list Node) (source : SourceCode) : Node :=
  MessageExpressionNode selector args (SourceField source).

Definition parseUnaryExpression : P Node := fun p =>
  let source := createSourceCode p false in
  let selector := tok_content (currentToken p) in
  let p := nextToken p in
  Done (Some (createMessageExpressionNode selector [] (computeSourceCodeSize source p)), p).

Section Expressions.
Context (parsePrimary : P Node).

Fixpoint unaryMessages (fuel : nat) (literal : Node) : P Node := fun p =>
  match fuel with
  | O => NoFuel
  | S fuel =>
      if decide (currentType p = TOKEN_IDENTIFIER) then
        CATCH parseUnaryExpression (fun tmp p =>
          tmp ← unchecked tmp; unaryMessages fuel (convertToExpression literal tmp) p) p
      else Done (Some literal, p)
  end.

Definition parseUnaryObject : P Node :=
  CATCH parsePrimary (fun literal p =>
    literal ← unchecked literal; unaryMessages (rounds p) literal p).

Definition parseBinaryExpression : P Node := fun p =>
  let selector := tok_content (currentToken p) in
  let source := createSourceCode p false in
  CATCH parseUnaryObject (fun tmp p =>
    args ← ordCollAddObject [] tmp;
    Done (Some (createMessageExpressionNode selector args (computeSourceCodeSize source p)), p)) (nextToken p).

Fixpoint binaryMessages (fuel : nat) (literal : Node) : P Node := fun p =>
  match fuel with
  | O => NoFuel
  | S fuel =>
      if isOneOf (currentType p) SPECIAL_CHARS_TOKENS then
        CATCH parseBinaryExpression (fun tmp p =>
          tmp ← unchecked tmp; binaryMessages fuel (convertToExpression literal tmp) p) p
      else Done (Some literal, p)
  end.

Definition parseBinaryObject : P Node :=
  CATCH parseUnaryObject (fun literal p =>
    literal ← unchecked literal; binaryMessages (rounds p) literal p).

Fixpoint keywordPairs (fuel : nat) (st : list Z * nat) (args : list Node) : P (list Z * nat * list Node) := fun p =>
  match fuel with
  | O => NoFuel
  | S fuel =>
      if decide (currentType p = TOKEN_KEYWORD) then
        st ← appendKeyword (tok_content (currentToken p)) st;
        CATCH parseBinaryObject (fun tmp p =>
          args ← ordCollAddObject args tmp; keywordPairs fuel st args p) (nextToken p)
      else Done (Some (st, args), p)
  end.

Definition parseKeywordExpression : P Node := fun p =>
  let source := createSourceCode p false in
  '(pairs, p) ← keywordPairs (rounds p) (newString 64, 0) [] p;
  match pairs with
  | None => Done (None, p)
  | Some (selector, size, args) =>
      Done (Some (createMessageExpressionNode (copyResizedObject selector size) args (computeSourceCodeSize source p)), p)
  end.

Definition parseCascadeExpression : P Node := fun p =>
  let p := nextToken p in
  match currentType p with
  | TOKEN_IDENTIFIER => parseUnaryExpression p
  | TOKEN_SPECIAL_CHARS | TOKEN_VERTICAL_BAR | TOKEN_MINUS | TOKEN_LESS_THAN | TOKEN_GREATER_THAN =>
      parseBinaryExpression p
  | TOKEN_KEYWORD => parseKeywordExpression p
  | _ => Done (None, errorExpected ([TOKEN_IDENTIFIER] ++ SPECIAL_CHARS_TOKENS ++ [TOKEN_VERTICAL_BAR; TOKEN_KEYWORD]) p)
  end.

Fixpoint cascades (fuel : nat) (messageExpressions : list Node) : P (list Node) := fun p =>
  match fuel with
  | O => NoFuel
  | S fuel =>
      if decide (currentType p = TOKEN_SEMICOLON) then
        CATCH parseCascadeExpression (fun tmp p =>
          messageExpressions ← ordCollAddObject messageExpressions tmp; cascades fuel messageExpressions p) p
      else Done (Some messageExpressions, p)
  end.

(** [while (token->type == TOKEN_IDENTIFIER && peekToken(..)->type == TOKEN_ASSIGN)] *)
Fixpoint assigmentNames (fuel : nat) (assigments : list Node) (p : Parser) : Run (list Node * Parser) :=
  match fuel with
  | O => NoFuel
  | S fuel =>
      if bool_decide (currentType p = TOKEN_IDENTIFIER) && bool_decide (peekType p = TOKEN_ASSIGN) then
        let '(variable, p) := parseVariable p in
        assigmentNames fuel (assigments ++ [variable]) (nextToken p)
      else Done (assigments, p)
  end.

Definition parseAssigments : P (list Node) := fun p =>
  '(assigments, p) ← assigmentNames (rounds p) [] p; Done (Some assigments, p).

(** The receiver and the messages of a statement whose first operand is
    [receiver]: a keyword message is sent to it as it is; otherwise an
    expression is taken apart. *)
Definition statementMessages (receiver : Node) : P (Node * list Node) := fun p =>
  if decide (currentType p = TOKEN_KEYWORD) then
    CATCH parseKeywordExpression (fun tmp p =>
      messageExpressions ← ordCollAddObject [] tmp; Done (Some (receiver, messageExpressions), p)) p
  else
    match receiver with
    | ExpressionNode _ _ inner messageExpressions _ => Done (Some (inner, messageExpressions), p)
    | _ => Done (Some (receiver, []), p)
    end.

Definition parseExpression : P Node := fun p =>
  let sourceCode := createSourceCode p false in
  let returns := bool_decide (currentType p = TOKEN_RETURN) in
  CATCH parseAssigments (fun assigments =>
    CATCH parseBinaryObject (fun receiver p =>
      receiver ← unchecked receiver;
      CATCH (statementMessages receiver) (fun pair p =>
        '(receiver, messageExpressions) ← unchecked pair;
        CATCH (cascades (rounds p) messageExpressions) (fun messageExpressions p =>
          messageExpressions ← unchecked messageExpressions;
          assigments ← unchecked assigments;
          Done (Some (ExpressionNode returns assigments receiver messageExpressions
                        (SourceField (computeSourceCodeSize sourceCode p))), p)) p) p))
    (if returns then nextToken p else p).

Definition expressionNodeReturns (expression : Node) : bool :=
  match expression with ExpressionNode returns _ _ _ _ => returns | _ => false end.

Fixpoint statements (fuel : nat) (expressions : list Node) : P (list Node) := fun p =>
  match fuel with
  | O => NoFuel
  | S fuel =>
      if isExpression (currentToken p) then
        CATCH parseExpression (fun expression p =>
          expression ← unchecked expression;
          let expressions := expressions ++ [expression] in
          if decide (currentType p = TOKEN_DOT) then
            let p := nextToken p in
            if expressionNodeReturns expression then Done (Some expressions, p) else statements fuel expressions p
          else Done (Some expressions, p)) p
      else Done (Some expressions, p)
  end.

Definition parseExpressions : P (list Node) := fun p => statements (rounds p) [] p.

Fixpoint variables (fuel : nat) (vars : list Node) (p : Parser) : Run (list Node * Parser) :=
  match fuel with
  | O => NoFuel
  | S fuel =>
      if decide (currentType p = TOKEN_IDENTIFIER) then
        let '(variable, p) := parseVariable p in variables fuel (vars ++ [variable]) p
      else Done (vars, p)
  end.

Definition parseTempVars : P (list Node) := fun p =>
  if decide (currentType p = TOKEN_VERTICAL_BAR) then
    let p := nextToken p in
    '(tempVars, p) ← variables (rounds p) [] p;
    SKIP_TOKEN [TOKEN_VERTICAL_BAR] (fun p => Done (Some tempVars, p)) p
  else Done (Some [], p).

Fixpoint blockArgs (fuel : nat) (args : list Node) : P (list Node) := fun p =>
  match fuel with
  | O => NoFuel
  | S fuel =>
      if decide (currentType p = TOKEN_COLON) then
        NEXT_EXPECT_TOKEN [TOKEN_IDENTIFIER] (fun p =>
          let '(variable, p) := parseVariable p in blockArgs fuel (args ++ [variable]) p) p
      else SKIP_TOKEN [TOKEN_VERTICAL_BAR] (fun p => Done (Some args, p)) p
  end.

Definition parseBlockArgs : P (list Node) := fun p =>
  if decide (currentType p = TOKEN_COLON) then blockArgs (rounds p) [] p else Done (Some [], p).

Definition parseBlockWith : P Node := fun p =>
  let sourceCode := createSourceCode p false in
  SKIP_TOKEN [TOKEN_OPEN_SQUARE_BRACKET]
    (CATCH parseBlockArgs (fun args =>
      CATCH parseTempVars (fun tempVars =>
        CATCH parseExpressions (fun expressions =>
          SKIP_TOKEN [TOKEN_CLOSE_SQUARE_BRACKET] (fun p =>
            args ← unchecked args; tempVars ← unchecked tempVars; expressions ← unchecked expressions;
            Done (Some (BlockNode args tempVars expressions (SourceField (computeSourceCodeSize sourceCode p))), p)))))) p.

Definition parseBracketedStatement : P Node :=
  SKIP_TOKEN [TOKEN_OPEN_BRACKET]
    (CATCH parseExpression (fun expression =>
      SKIP_TOKEN [TOKEN_CLOSE_BRACKET] (fun p => Done (expression, p)))).
End Expressions.

Fixpoint parsePrimaryIn (fuel : nat) : P Node := fun p =>
  match fuel with
  | O => NoFuel
  | S fuel =>
      match currentType p with
      | TOKEN_IDENTIFIER => let '(variable, p) := parseVariable p in Done (Some variable, p)
      | TOKEN_OPEN_SQUARE_BRACKET => parseBlockWith (parsePrimaryIn fuel) p
      | TOKEN_OPEN_BRACKET => parseBracketedStatement (parsePrimaryIn fuel) p
      | _ =>
          '(literal, p) ← parseLiteral p;
          if is_some (error p)
          then Done (None, alsoExpected [TOKEN_IDENTIFIER; TOKEN_OPEN_SQUARE_BRACKET; TOKEN_OPEN_BRACKET] p)
          else Done (literal, p)
      end
  end.

Definition parsePrimary : P Node := fun p => parsePrimaryIn (rounds p) p.

Definition parseBlock : P Node := fun p => parseBlockWith (parsePrimaryIn (rounds p)) p.

(** ** Pragmas *)

(** The value of an argument is not checked before it is added. *)
Fixpoint pragmaPairs (fuel : nat) (st : list Z * nat) (args : list Node) (p : Parser)
    : Run (list Z * nat * list Node * Parser) :=
  match fuel with
  | O => NoFuel
  | S fuel =>
      if decide (currentType p = TOKEN_KEYWORD) then
        st ← appendKeyword (tok_content (currentToken p)) st;
        let p := nextToken p in
        if decide (currentType p = TOKEN_IDENTIFIER) then
          let '(variable, p) := parseVariable p in
          pragmaPairs fuel st (args ++ [variable]) p
        else
          '(literal, p) ← parseLiteral p;
          args ← ordCollAddObject args literal;
          pragmaPairs fuel st args p
      else Done (st, args, p)
  end.

Definition parsePragma : P Node := fun p =>
  let source := createSourceCode p false in
  '(selector, size, args, p) ← pragmaPairs (rounds p) (newString 64, 0) [] p;
  Done (Some (createMessageExpressionNode (copyResizedObject selector size) args (computeSourceCodeSize source p)), p).

Fixpoint pragmaList (fuel : nat) (pragmas : list Node) : P (list Node) := fun p =>
  match fuel with
  | O => NoFuel
  | S fuel =>
      if bool_decide (currentType p = TOKEN_LESS_THAN) && bool_decide (peekType p = TOKEN_KEYWORD) then
        CATCH parsePragma (fun pragma =>
          SKIP_TOKEN [TOKEN_GREATER_THAN] (fun p =>
            pragmas ← ordCollAddObject pragmas pragma; pragmaList fuel pragmas p)) (nextToken p)
      else Done (Some pragmas, p)
  end.

Definition parsePragmas : P (list Node) := fun p => pragmaList (rounds p) [] p.

(** ** Methods *)

(** The pattern functions answer the selector and add to [args]. *)
Definition parseUnaryMessagePattern : P (list Z * list Node) := fun p =>
  Done (Some (tok_content (currentToken p), []), nextToken p).

Definition parseBinaryMessagePattern : P (list Z * list Node) := fun p =>
  let selector := tok_content (currentToken p) in
  NEXT_EXPECT_TOKEN [TOKEN_IDENTIFIER] (fun p =>
    let '(variable, p) := parseVariable p in Done (Some (selector, [variable]), p)) p.

Fixpoint patternPairs (fuel : nat) (st : list Z * nat) (args : list Node) : P (list Z * nat * list Node) := fun p =>
  match fuel with
  | O => NoFuel
  | S fuel =>
      if decide (currentType p = TOKEN_KEYWORD) then
        st ← appendKeyword (tok_content (currentToken p)) st;
        NEXT_EXPECT_TOKEN [TOKEN_IDENTIFIER] (fun p =>
          let '(variable, p) := parseVariable p in patternPairs fuel st (args ++ [variable]) p) p
      else Done (Some (st, args), p)
  end.

Definition parseKeywordMessagePattern : P (list Z * list Node) := fun p =>
  '(pairs, p) ← patternPairs (rounds p) (newString 64, 0) [] p;
  match pairs with
  | None => Done (None, p)
  | Some (selector, size, args) => Done (Some (copyResizedObject selector size, args), p)
  end.

Definition parseMessagePattern : P (list Z * list Node) := fun p =>
  match currentType p with
  | TOKEN_IDENTIFIER => parseUnaryMessagePattern p
  | TOKEN_SPECIAL_CHARS | TOKEN_VERTICAL_BAR | TOKEN_MINUS | TOKEN_LESS_THAN | TOKEN_GREATER_THAN =>
      parseBinaryMessagePattern p
  | TOKEN_KEYWORD => parseKeywordMessagePattern p
  | _ => Done (None, errorExpected ([TOKEN_IDENTIFIER] ++ SPECIAL_CHARS_TOKENS ++ [TOKEN_VERTICAL_BAR; TOKEN_KEYWORD]) p)
  end.

(** The body's block has no source position of its own. *)
Definition parseMethod : P MethodNode := fun p =>
  let sourceCode := createSourceCode p false in
  let qualified := bool_decide (currentType p = TOKEN_IDENTIFIER) && isMethodFirstToken (peekToken p) in
  let className := if qualified then Some (tok_content (currentToken p)) else None in
  CATCH parseMessagePattern (fun pattern =>
    SKIP_TOKEN [TOKEN_OPEN_SQUARE_BRACKET]
      (CATCH parsePragmas (fun pragmas =>
        CATCH parseTempVars (fun tempVars =>
          CATCH (parseExpressions parsePrimary) (fun expressions =>
            SKIP_TOKEN [TOKEN_CLOSE_SQUARE_BRACKET] (fun p =>
              '(selector, args) ← unchecked pattern; pragmas ← unchecked pragmas;
              tempVars ← unchecked tempVars; expressions ← unchecked expressions;
              Done (Some (mkMethodNode className selector pragmas (BlockNode args tempVars expressions NilField)
                            (computeSourceCodeSize sourceCode p)), p)))))))
    (if qualified then nextToken p else p).

Fixpoint methodList (fuel : nat) (methods : list MethodNode) : P (list MethodNode) := fun p =>
  match fuel with
  | O => NoFuel
  | S fuel =>
      if isMethodFirstToken (currentToken p) then
        CATCH parseMethod (fun method p => methods ← ordCollAddObject methods method; methodList fuel methods p) p
      else Done (Some methods, p)
  end.

Definition parseMethods : P (list MethodNode) := fun p => methodList (rounds p) [] p.

(** ** Classes *)

Section Classes.
Context (parseClass : P ClassNode).

Fixpoint memberList (fuel : nat) (members : list ClassNode) : P (list ClassNode) := fun p =>
  match fuel with
  | O => NoFuel
  | S fuel =>
      if decide (currentType p = TOKEN_IDENTIFIER) then
        CATCH parseClass (fun member p => members ← ordCollAddObject members member; memberList fuel members p) p
      else Done (Some members, p)
  end.

(** [Name extend [ methods ]], from its bracket on. *)
Definition parseExtension (name : Node) (sourceCode : SourceCode) : P ClassNode :=
  SKIP_TOKEN [TOKEN_OPEN_SQUARE_BRACKET]
    (CATCH parseMethods (fun methods =>
      SKIP_TOKEN [TOKEN_CLOSE_SQUARE_BRACKET] (fun p =>
        methods ← unchecked methods;
        Done (Some (mkClassNode name None (Some []) (Some []) (Some methods)
                      (computeSourceCodeSize sourceCode p) true None), p)))).

(** [Name := Namespace [ classes ]], from its bracket on. *)
Definition parseNamespace (name superName : Node) (sourceCode : SourceCode) : P ClassNode :=
  SKIP_TOKEN [TOKEN_OPEN_SQUARE_BRACKET] (fun p =>
    CATCH (memberList (rounds p) []) (fun members =>
      SKIP_TOKEN [TOKEN_CLOSE_SQUARE_BRACKET] (fun p =>
        members ← unchecked members;
        Done (Some (mkClassNode name (Some superName) None None None
                      (computeSourceCodeSize sourceCode p) false (Some members)), p))) p).

(** [Name := Super [ pragmas vars methods ]], from its bracket on. *)
Definition parseClassBody (name superName : Node) (sourceCode : SourceCode) : P ClassNode :=
  SKIP_TOKEN [TOKEN_OPEN_SQUARE_BRACKET]
    (CATCH parsePragmas (fun pragmas =>
      CATCH parseTempVars (fun vars =>
        CATCH parseMethods (fun methods =>
          SKIP_TOKEN [TOKEN_CLOSE_SQUARE_BRACKET] (fun p =>
            pragmas ← unchecked pragmas; vars ← unchecked vars; methods ← unchecked methods;
            Done (Some (mkClassNode name (Some superName) (Some pragmas) (Some vars) (Some methods)
                          (computeSourceCodeSize sourceCode p) false None), p)))))).

Definition literalNodeGetStringValue (literal : Node) : list Z :=
  match literal with LiteralNode _ (StringValue s) _ => s | _ => [] end.

Definition parseClassWith : P ClassNode := fun p =>
  let sourceCode := createSourceCode p false in
  EXPECT_TOKEN [TOKEN_IDENTIFIER] (fun p =>
    let '(name, p) := parseVariable p in
    if bool_decide (currentType p = TOKEN_IDENTIFIER) && bool_decide (tok_content (currentToken p) = bytes_of_string "extend")
    then parseExtension name sourceCode (nextToken p)
    else
      SKIP_TOKEN [TOKEN_ASSIGN] (EXPECT_TOKEN [TOKEN_IDENTIFIER] (fun p =>
        let '(superName, p) := parseVariable p in
        if decide (literalNodeGetStringValue superName = bytes_of_string "Namespace")
        then parseNamespace name superName sourceCode p
        else parseClassBody name superName sourceCode p)) p) p.
End Classes.

Fixpoint parseClassIn (fuel : nat) : P ClassNode := fun p =>
  match fuel with
  | O => NoFuel
  | S fuel => parseClassWith (parseClassIn fuel) p
  end.

Definition parseClass : P ClassNode := fun p => parseClassIn (rounds p) p.
End Literals.

(** ** The tokens of a source *)

(** The token that shows a lexeme of [text]. *)
Definition tokOf (text : list Z) (l : Lexeme) : Tok :=
  let offset := length text - length (lx_start l) in
  let at_ := place (take (S offset) (text ++ [0%Z])) in
  mkTok (lx_type l) (lx_text l) (S offset) at_.1 (at_.2 - 1) (lx_separated l).

(** The lexemes up to the end of input, and the end-of-input token. *)
Fixpoint lexAll (fuel : nat) (text s : list Z) : Run (list Tok * Tok) :=
  match fuel with
  | O => NoFuel
  | S fuel =>
      l ← lexeme (S (length s)) TOKEN_BUFFER_SIZE false s;
      if decide (lx_type l = TOKEN_END_OF_INPUT) then Done ([], tokOf text l)
      else '(ts, e) ← lexAll fuel text (lx_rest l); Done (tokOf text l :: ts, e)
  end.

(** [initParser] on a source held in memory, up to the tokens it will read. *)
Definition initParser (text : list Z) : Run Parser :=
  '(ts, e) ← lexAll (S (length text)) text text;
  Done (mkParser e ts e text SourceCodeKind None).
