(* ===== verification/AstShape.v ===== *)
(** * The shape of a syntax tree

    What a well-formed tree is (src/vm/compiler/Ast.h read with the callers of
    its accessors in mind): the class of the nodes each slot may hold, the
    number of arguments a selector takes, and which tokens the tokenizer
    makes.  [computeArguments] (src/vm/runtime/String.c), by which the code
    generators count the arguments of a message nobody understands, is
    compared with the number the parser puts in the tree. *)
From S2P Require Import Prelude Tagging LargeInteger Tokenizer Lexemes IntegerLiteral Parser.
From stdpp Require Import list.
#[local] Open Scope nat_scope.

(** ** Selectors *)

Definition colon : Z := 58.

(** How many arguments a selector takes: its colons when it ends in one, none
    for a word, one for an operator. *)
Definition arity (selector : list Z) : nat :=
  if decide (last selector = Some colon) then length (filter (.= colon) selector)
  else if isIdentifierBegining (first selector) then 0 else 1.

(** [pad] is the byte in memory after the selector's contents. *)
Definition computeArguments (pad : Z) (selector : list Z) : option nat :=
  final ← last selector;
  if (final =? chr ":")%Z then Some (length (filter (.= chr ":") selector))
  else
    let s0 := nth 0 selector pad in
    let s1 := nth 1 selector pad in
    Some (if ((s0 <? chr "A") || (s0 >? chr "Z"))%Z && ((s0 <? chr "a") || (s1 >? chr "z"))%Z then 1 else 0).

(** ** Tokens *)

(** The number literals whose value the parser can build: a radix of at most
    65536; at most 254 fraction digits and a print scale within a
    SmallInteger. *)
Definition number_ok (content : list Z) : Prop :=
  match strchr content (chr "r") with
  | Some _ => (decimal (fst (run_of isNumeric content)) <= 2 ^ 16)%Z
  | None =>
      is_some (strchr content (chr "s")) = true ->
      let '(_, fracDigits, p) := scaled_scan content [] 0 false in
      fracDigits + 1 < MANTISSA_SIZE /\ small (strtoul (tl p))
  end.

Definition word (c : list Z) : Prop := isIdentifierBegining (first c) = true /\ last c <> Some colon.
Definition keyword (c : list Z) : Prop := exists w, c = w ++ [colon] /\ colon ∉ w.
Definition operator (c : list Z) : Prop := isIdentifierBegining (first c) = false /\ last c <> Some colon.

Definition token_ok (t : Tok) : Prop :=
  match tok_type t with
  | TOKEN_IDENTIFIER => word (tok_content t)
  | TOKEN_KEYWORD => keyword (tok_content t)
  | TOKEN_SPECIAL_CHARS | TOKEN_VERTICAL_BAR | TOKEN_MINUS | TOKEN_LESS_THAN | TOKEN_GREATER_THAN =>
      operator (tok_content t)
  | TOKEN_DIGIT => number_ok (tok_content t)
  | _ => True
  end.

Lemma arity_word c : word c -> arity c = 0.
Proof. intros [H1 H2]. unfold arity. by rewrite decide_False, H1. Qed.

Lemma arity_operator c : operator c -> arity c = 1.
Proof. intros [H1 H2]. unfold arity. by rewrite decide_False, H1. Qed.

Lemma colons_absent w : colon ∉ w -> filter (.= colon) w = [].
Proof.
  induction w as [|x w IH]; intros Hw; [done|]. rewrite list.not_elem_of_cons in Hw. destruct Hw as [Hx Hw].
  rewrite filter_cons_False by congruence. by apply IH.
Qed.

Lemma last_keywords ks : ks <> [] -> Forall keyword ks -> last (concat ks) = Some colon.
Proof.
  intros Hne Hk. destruct (exists_last Hne) as (l & k & ->).
  apply Forall_app in Hk as [_ Hk]. inversion_clear Hk as [|? ? (w & -> & _) _].
  rewrite concat_app. cbn [concat]. rewrite app_nil_r, (assoc_L (++)). by rewrite last_snoc.
Qed.

Lemma arity_keywords ks :
  ks <> [] -> Forall keyword ks -> arity (concat ks) = length ks.
Proof.
  intros Hne Hk. unfold arity.
  assert (forall ks, Forall keyword ks -> length (filter (.= colon) (concat ks)) = length ks) as Hc.
  { clear. induction 1 as [|k ks (w & -> & Hw) Hk IH]; [done|]. cbn [concat length].
    rewrite !filter_app, !length_app, IH, (colons_absent w Hw). done. }
  rewrite decide_True; [by apply Hc|by apply last_keywords].
Qed.

(** ** Trees *)

#[global] Instance LiteralClass_eq_dec : EqDecision LiteralClass.
Proof. solve_decision. Defined.

Definition literal_shape (class : LiteralClass) (v : LiteralValue) : bool :=
  match class, v with
  | (NilNode | TrueNode | FalseNode), StringValue s => bool_decide (constantClass s = Some class)
  | VariableNode, StringValue s => bool_decide (constantClass s = None)
  | (SymbolNode | StringNode), StringValue _ => true
  | (IntegerNode | CharacterNode), RawLiteral _ => true
  | _, _ => false
  end.


Definition isExpressionNode (n : Node) : bool := match n with ExpressionNode _ _ _ _ _ => true | _ => false end.

Definition variable (n : Node) : bool :=
  match n with
  | LiteralNode ((NilNode | TrueNode | FalseNode | VariableNode) as c) v _ => literal_shape c v
  | _ => false
  end.

(** What a literal array holds. *)
Fixpoint literal (n : Node) : bool :=
  match n with
  | LiteralNode c v _ => negb (bool_decide (c = VariableNode)) && literal_shape c v
  | ArrayNode items _ => forallb literal items
  | _ => false
  end.

Definition nonempty {A} (l : list A) : bool := match l with [] => false | _ => true end.

(** All but the last do not return. *)
Fixpoint returns_last (expressions : list Node) : bool :=
  match expressions with
  | [] | [_] => true
  | e :: es => negb (expressionNodeReturns e) && returns_last es
  end.

(** An operand: a literal, a variable, an array, a block or an expression.  An
    expression without messages is never the receiver of another. *)
Fixpoint value (n : Node) : bool :=
  match n with
  | LiteralNode c v _ => literal_shape c v
  | ArrayNode items _ => forallb literal items
  | BlockNode args tempVars expressions _ =>
      forallb variable args && forallb variable tempVars &&
      forallb (fun e => isExpressionNode e && value e) expressions && returns_last expressions
  | ExpressionNode _ assigments receiver messages _ =>
      forallb variable assigments && value receiver &&
      forallb (fun m => match m with
                        | MessageExpressionNode selector args _ =>
                            (arity selector =? length args) && forallb value args
                        | _ => false
                        end) messages &&
      (negb (isExpressionNode receiver) || nonempty messages)
  | MessageExpressionNode _ _ _ => false
  end.

Definition statement (n : Node) : bool := isExpressionNode n && value n.

Definition message (m : Node) : bool :=
  match m with
  | MessageExpressionNode selector args _ => (arity selector =? length args) && forallb value args
  | _ => false
  end.

(** A pragma: keywords, and arguments that are literals or variables. *)
Definition pragma (m : Node) : bool :=
  match m with
  | MessageExpressionNode selector args _ =>
      bool_decide (last selector = Some colon) && (arity selector =? length args) &&
      forallb (fun a => variable a || literal a) args
  | _ => false
  end.

Definition method (m : MethodNode) : bool :=
  forallb pragma (methodPragmas m) &&
  match methodBody m with
  | BlockNode args _ _ _ => (arity (methodSelector m) =? length args) && value (methodBody m)
  | _ => false
  end.

Definition opt_forallb {A} (f : A -> bool) (o : option (list A)) : bool :=
  match o with Some l => forallb f l | None => false end.

Definition opt_nonempty {A} (o : option (list A)) : bool := match o with Some l => nonempty l | None => false end.

(** A superclass is named, and named [Namespace] exactly when [b]. *)
Definition super_named (b : bool) (c : ClassNode) : bool :=
  match classSuperName c with
  | Some s => variable s && bool_decide (bool_decide (literalNodeGetStringValue s = bytes_of_string "Namespace") = b)
  | None => false
  end.

(** The three forms of a class definition. *)
Fixpoint class (c : ClassNode) : bool :=
  variable (className c) &&
  match classMembers c with
  | Some members =>
      negb (classIsExtension c) && super_named true c && negb (is_some (classPragmas c)) &&
      negb (is_some (classVars c)) && negb (is_some (classMethods c)) && forallb class members
  | None =>
      opt_forallb pragma (classPragmas c) && opt_forallb variable (classVars c) && opt_forallb method (classMethods c) &&
      (if classIsExtension c then negb (opt_nonempty (classPragmas c)) && negb (opt_nonempty (classVars c))
            && negb (is_some (classSuperName c))
       else super_named false c)
  end.

(** A tree without its source positions. *)
Fixpoint strip (n : Node) : Node :=
  match n with
  | LiteralNode c v _ => LiteralNode c v NilField
  | ArrayNode items _ => ArrayNode (strip <$> items) NilField
  | BlockNode args tempVars expressions _ =>
      BlockNode (strip <$> args) (strip <$> tempVars) (strip <$> expressions) NilField
  | ExpressionNode returns assigments receiver messages _ =>
      ExpressionNode returns (strip <$> assigments) (strip receiver) (strip <$> messages) NilField
  | MessageExpressionNode selector args _ => MessageExpressionNode selector (strip <$> args) NilField
  end.

(** ** computeArguments against the tree *)

Lemma letters c :
  (0 <= c <= 122)%Z -> c <> 95%Z ->
  isIdentifierBegining c = negb (((c <? chr "A") || (c >? chr "Z"))%Z && (c <? chr "a")%Z).
Proof.
  intros Hc Hn.
  assert (forallb (fun k => let c := Z.of_nat k in (c =? 95)%Z ||
      Bool.eqb (isIdentifierBegining c) (negb (((c <? chr "A") || (c >? chr "Z"))%Z && (c <? chr "a")%Z))) (seq 0 123) = true) as H
    by (vm_compute; reflexivity).
  rewrite forallb_forall in H. specialize (H (Z.to_nat c)). cbv zeta in H. rewrite Z2Nat.id in H by lia.
  specialize (H ltac:(apply in_seq; lia)). apply orb_true_iff in H as [H|H]; [lia|]. by apply Bool.eqb_prop in H.
Qed.

(** On selectors of letters, digits and the usual operator characters the two
    counts agree. *)
Theorem computeArguments_arity pad selector :
  selector <> [] -> Forall (fun c => 0 <= c <= 122)%Z selector -> (0 <= pad <= 122)%Z -> first selector <> 95%Z ->
  computeArguments pad selector = Some (arity selector).
Proof.
  intros Hne Hc Hp Hu. unfold computeArguments, arity. destruct (last selector) as [x|] eqn:Hx.
  2:{ by apply last_None in Hx. }
  cbn [mbind option_bind]. change (chr ":") with colon. destruct (Z.eqb_spec x colon) as [->|Hxc]; [by rewrite decide_True|].
  rewrite decide_False by congruence. destruct selector as [|c s]; [done|]. cbn [first hd nth] in *.
  inversion_clear Hc as [|? ? Hc0 Hcs]. rewrite letters by done.
  assert ((nth 0 s pad >? chr "z") = false)%Z as ->.
  { change (chr "z") with 122%Z. destruct s as [|d s]; cbn [nth]; [lia|]. inversion_clear Hcs as [|? ? Hd _]. lia. }
  rewrite orb_false_r. by destruct (_ && _).
Qed.

(** The comparison of [s[1]] with ['z'] where [s[0]] is meant: the operator
    [~=] is taken for a unary message, and the test leaves the underscore out:
    [_x] is taken for a binary one. *)
Theorem computeArguments_miscounts :
  computeArguments 0 (bytes_of_string "~=") = Some 0 /\ arity (bytes_of_string "~=") = 1 /\
  computeArguments 0 (bytes_of_string "_x") = Some 1 /\ arity (bytes_of_string "_x") = 0.
Proof. by vm_compute. Qed.
