(* ===== verification/ParserTotal.v ===== *)
(** * The parser returns, and returns well-formed trees

    Every parse function is shown to return on every sequence of tokens: the
    tokens left are a suffix of the tokens there were, each round of a loop
    and each level of nesting takes one, so the fuel of the model is never
    used up.  A NULL pointer comes with the error flag set, and a tree that is
    returned without an error has the shape of AstShape.v.  The one exception
    is the argument of a pragma, which [parsePragma] uses without a check: the
    proposition [C] stands for "a pragma may occur", and only then can a run
    end in [Fault]. *)
From S2P Require Import Prelude Tagging LargeInteger Tokenizer Lexemes IntegerLiteral Parser AstShape.
From stdpp Require Import list.
#[local] Open Scope nat_scope.

(** ** States *)

Definition left_ (p : Parser) : nat := length (tokens p).
Definition failed (p : Parser) : Prop := is_some (error p) = true.

(** What the tokens promise: the end marker ends them, words and keywords are
    as the tokenizer makes them, and numbers can be built. *)
Definition ready (p : Parser) : Prop :=
  tok_type (endToken p) = TOKEN_END_OF_INPUT /\ Forall token_ok (tokens p).

Definition live (p : Parser) : Prop := ready p /\ ~ failed p.

(** [p'] is a later state than [p]. *)
Definition follows (p p' : Parser) : Prop :=
  suffix (tokens p') (tokens p) /\ endToken p' = endToken p /\ (failed p -> failed p').

#[global] Instance follows_preorder : PreOrder follows.
Proof.
  split; [by intros p|]. intros p q r (A1 & B1 & C1) (A2 & B2 & C2).
  split; [by etrans|]. split; [congruence|tauto].
Qed.

Lemma follows_left p p' : follows p p' -> left_ p' <= left_ p.
Proof. intros [H _]. by apply suffix_length. Qed.

Lemma follows_ready p p' : follows p p' -> ready p -> ready p'.
Proof.
  intros ([k Hk] & He & _) [H1 H2]. split; [congruence|]. rewrite Hk in H2. by apply Forall_app in H2 as [_ H2].
Qed.

Lemma follows_next p : follows p (nextToken p).
Proof. split; [|done]. cbn. destruct (tokens p) as [|t l]; [done|]. by exists [t]. Qed.

Lemma follows_error p e : follows p (errorExpected e p).
Proof. by split. Qed.

Lemma failed_error e p : failed (errorExpected e p).
Proof. done. Qed.

Lemma ready_next p : ready p -> ready (nextToken p).
Proof. apply follows_ready, follows_next. Qed.

Lemma live_next p : live p -> live (nextToken p).
Proof. intros [Hr Hf]. split; [|done]. by apply ready_next. Qed.

(** A token that is not the end marker can be taken. *)
Lemma next_left p : ready p -> currentType p <> TOKEN_END_OF_INPUT -> S (left_ (nextToken p)) = left_ p.
Proof.
  intros [He _] Ht. unfold left_, currentType, currentToken in *. cbn. destruct (tokens p) as [|t l]; [done|]. cbn. lia.
Qed.

Lemma current_ok p : ready p -> currentType p <> TOKEN_END_OF_INPUT -> token_ok (currentToken p).
Proof.
  intros [He Hf] Ht. unfold currentType, currentToken in *. destruct (tokens p) as [|t l]; [done|]. by inversion_clear Hf.
Qed.

Lemma isOneOf_elem t mask : isOneOf t mask = true <-> t ∈ mask.
Proof. unfold isOneOf. apply bool_decide_eq_true. Qed.

Lemma not_failed p : ~ failed p -> is_some (error p) = false.
Proof. unfold failed. by destruct (is_some (error p)). Qed.

(** ** What a run promises *)

(** A run from [p0]: a node with [Q] and no error, after at least one token
    where [strict]; or NULL and an error; or, where [C] allows, a crash. *)
Definition good {A} (C : Prop) (Q : A -> Prop) (strict : Prop) (p0 : Parser) (r : Run (option A * Parser)) : Prop :=
  match r with
  | Done (Some x, p) => follows p0 p /\ ~ failed p /\ Q x /\ (strict -> left_ p < left_ p0)
  | Done (None, p) => follows p0 p /\ failed p
  | Fault => C
  | NoFuel => False
  end.

(** The same for a literal, which may be built although an error is set. *)
Definition lit {A} (Q : A -> Prop) (p0 : Parser) (r : Run (option A * Parser)) : Prop :=
  match r with
  | Done (Some x, p) => follows p0 p /\ Q x /\ left_ p < left_ p0
  | Done (None, p) => follows p0 p /\ failed p
  | _ => False
  end.

Lemma good_weaken {A} C (Q R : A -> Prop) (s s' : Prop) p0 r :
  good C Q s p0 r -> (forall x, Q x -> R x) -> (s' -> s) -> good C R s' p0 r.
Proof. intros H HQ Hs. destruct r as [[[x|] p]| |]; cbn in *; [|done..]. destruct H as (?&?&?&?). eauto 10. Qed.

Lemma good_base {A} C (Q : A -> Prop) (s : Prop) p0 p r :
  follows p0 p -> (s -> left_ p < left_ p0) -> good C Q False p r -> good C Q s p0 r.
Proof.
  intros H Hs G. destruct r as [[[x|] q]| |]; cbn in *; [|destruct G; split; [by etrans|done]|done..].
  destruct G as (G1 & G2 & G3 & _). split_and!; [by etrans|done|done|]. intros S. apply Hs in S. apply follows_left in G1. lia.
Qed.

Lemma good_catch {A B} C (Q : A -> Prop) (s : Prop) (R : B -> Prop) (t : Prop) p0 p f k :
  good C Q s p (f p) -> follows p0 p -> ready p ->
  (forall x p', Q x -> follows p p' -> live p' -> (s -> left_ p' < left_ p) -> good C R t p0 (k (Some x) p')) ->
  good C R t p0 (CATCH f k p).
Proof.
  intros G H Hr Hk. unfold CATCH. destruct (f p) as [[[x|] q]| |]; cbn in G; [|..]; cbn [mbind run_bind]; [| |done..].
  - destruct G as (G1 & G2 & G3 & G4). rewrite not_failed by done. apply Hk; [done|done| |done].
    split; [by eapply follows_ready|done].
  - destruct G as [G1 G2]. pose proof G2 as G2'. unfold failed in G2'. rewrite G2'. cbn. split; [by etrans|done].
Qed.

Lemma good_expect {B} C (R : B -> Prop) (t : Prop) p0 p mask k :
  follows p0 p ->
  (currentType p ∈ mask -> good C R t p0 (k p)) ->
  good C R t p0 (EXPECT_TOKEN mask k p).
Proof.
  intros H Hk. unfold EXPECT_TOKEN. destruct (isOneOf (currentType p) mask) eqn:E; [by apply Hk, isOneOf_elem|].
  cbn. split; [|done]. etrans; [done|apply follows_error].
Qed.

Lemma good_skip {B} C (R : B -> Prop) (t : Prop) p0 p mask k :
  follows p0 p -> live p -> TOKEN_END_OF_INPUT ∉ mask ->
  (forall q, q = nextToken p -> follows p q -> live q -> S (left_ q) = left_ p -> good C R t p0 (k q)) ->
  good C R t p0 (SKIP_TOKEN mask k p).
Proof.
  intros H [Hr Hf] Hm Hk. apply good_expect; [done|]. intros E. apply Hk; [done|apply follows_next|by apply live_next|].
  apply next_left; [done|]. congruence.
Qed.

Lemma good_next_expect {B} C (R : B -> Prop) (t : Prop) p0 p mask k :
  follows p0 p -> live p ->
  (forall q, q = nextToken p -> follows p q -> live q -> currentType q ∈ mask -> good C R t p0 (k q)) ->
  good C R t p0 (NEXT_EXPECT_TOKEN mask k p).
Proof.
  intros H Hl Hk. unfold NEXT_EXPECT_TOKEN. apply good_expect; [etrans; [done|apply follows_next]|].
  intros E. apply Hk; [done|apply follows_next|by apply live_next|done].
Qed.

Lemma not_end ty : ty <> TOKEN_END_OF_INPUT -> TOKEN_END_OF_INPUT ∉ [ty].
Proof. intros Hn Hi. apply list_elem_of_singleton in Hi. congruence. Qed.

(** A plain answer. *)
Lemma good_ret {A} C (Q : A -> Prop) (t : Prop) p0 p x :
  follows p0 p -> live p -> Q x -> (t -> left_ p < left_ p0) -> good C Q t p0 (Done (Some x, p)).
Proof. intros H [_ Hf] HQ Ht. by split_and!. Qed.

Lemma good_fail {A} C (Q : A -> Prop) (t : Prop) p0 p e :
  follows p0 p -> good C Q t p0 (Done (None, errorExpected e p)).
Proof. intros H. cbn. split; [|done]. etrans; [done|apply follows_error]. Qed.

(** ** Selectors *)

(** The first [size] bytes of the buffer are [acc]. *)
Definition holds (st : list Z * nat) (acc : list Z) : Prop :=
  snd st = length acc /\ take (snd st) (fst st) = acc /\ snd st <= length (fst st).

Lemma holds_new : holds (newString 64, 0) [].
Proof. split_and!; [done|done|cbn; lia]. Qed.

Lemma appendKeyword_ok content st acc :
  holds st acc -> exists st', appendKeyword content st = Done st' /\ holds st' (acc ++ content).
Proof.
  destruct st as [buf size]. intros (Hn & Ht & Hl). cbn [fst snd] in *. unfold appendKeyword. cbn [fst snd].
  set (buf' := if length buf <? size + length content then _ else buf).
  assert (size + length content <= length buf' /\ take size buf' = acc) as [Hb Ha].
  { unfold buf', copyResizedObject. destruct (Nat.ltb_spec (length buf) (size + length content)); [|done].
    rewrite length_resize. split; [lia|]. rewrite resize_ge by lia. rewrite take_app_le by lia. done. }
  replace (size + length content - length content) with size by lia. rewrite blit_Some by done.
  cbn [unchecked mbind run_bind]. eexists. split; [done|]. rewrite Ha. split_and!; cbn [fst snd].
  - rewrite length_app. lia.
  - rewrite (assoc_L (++)), take_app_length'; [done|]. rewrite length_app. lia.
  - rewrite !length_app, length_drop. lia.
Qed.

Lemma holds_resized st acc : holds st acc -> copyResizedObject (fst st) (snd st) = acc.
Proof. intros (Hn & Ht & Hl). unfold copyResizedObject. by rewrite resize_le. Qed.

(** ** Literals *)

Lemma constant_shape s : literal_shape (default VariableNode (constantClass s)) (StringValue s) = true.
Proof.
  unfold constantClass. repeat case_decide; cbn; subst; try (apply bool_decide_eq_true_2); try done.
  unfold constantClass. by rewrite !decide_False.
Qed.

Lemma parseVariable_shape p : variable (fst (parseVariable p)) = true.
Proof.
  cbn. pose proof (constant_shape (tok_content (currentToken p))) as H. unfold constantClass in *.
  repeat case_decide; cbn in *; done.
Qed.

Lemma variable_value n : variable n = true -> value n = true.
Proof. destruct n as [c v ?| | | |]; try done. by destruct c. Qed.

Lemma literal_value n : literal n = true -> value n = true.
Proof. destruct n as [c v ?| | | |]; try done. cbn. by destruct (negb _). Qed.

Section Literals.
Context `{NativeOrder} (LargePositiveInteger LargeNegativeInteger ScaledDecimal BoxedFloat64 : RawClass).
Context (strtod : list Z -> Z) (double_bytes : Z -> list Z).

#[local] Notation parseNumber := (parseNumber LargePositiveInteger LargeNegativeInteger ScaledDecimal BoxedFloat64 strtod double_bytes).
#[local] Notation parseLiteralIn := (parseLiteralIn LargePositiveInteger LargeNegativeInteger ScaledDecimal BoxedFloat64 strtod double_bytes).
#[local] Notation parseLiteral := (parseLiteral LargePositiveInteger LargeNegativeInteger ScaledDecimal BoxedFloat64 strtod double_bytes).

Lemma tagFloat_fits bits : smallFloatFits bits = true -> exists v, tagFloat bits = Some v.
Proof.
  unfold smallFloatFits, tagFloat. destruct (float_is_zero bits); [by eexists|]. intros ->. by eexists.
Qed.

Lemma floatLiteral_ok v : exists x, floatLiteral BoxedFloat64 double_bytes v = Done x.
Proof.
  unfold floatLiteral. destruct (smallFloatFits v) eqn:E; [|by eexists]. destruct (tagFloat_fits v E) as [w ->]. by eexists.
Qed.

Lemma isNumeric_range c : isNumeric c = true -> decimal_digit c.
Proof.
  unfold isNumeric, decimal_digit. intros Hc.
  assert (forallb (fun k => negb (nth k Characters 0 =? NUM)%Z || ((48 <=? k) && (k <=? 57))) (seq 0 256) = true) as T
    by (vm_compute; reflexivity).
  rewrite forallb_forall in T. specialize (T (Z.to_nat c)).
  destruct (decide (Z.to_nat c < 256)) as [Hl|Hl].
  - specialize (T ltac:(apply in_seq; lia)). cbv beta in T. rewrite Hc in T. cbn [negb orb] in T.
    apply andb_true_iff in T as [T1 T2]. apply Nat.leb_le in T1, T2. lia.
  - rewrite nth_overflow in Hc by (change (length Characters) with 256; lia). done.
Qed.

Lemma leading_digits_nonneg s : (0 <= decimal (fst (run_of isNumeric s)))%Z.
Proof.
  apply decimal_nonneg. induction s as [|c s IH]; cbn [run_of]; [done|].
  destruct (isNumeric c) eqn:E; [|done]. destruct (run_of isNumeric s) as [a b]. constructor; [by apply isNumeric_range|done].
Qed.

Lemma decimalLiteral_ok content n :
  (is_some (strchr content (chr "s")) = true ->
   let '(_, k, r) := scaled_scan content [] 0 false in k + 1 < MANTISSA_SIZE /\ small (strtoul (tl r))) ->
  exists v, decimalLiteral LargePositiveInteger LargeNegativeInteger ScaledDecimal BoxedFloat64 strtod double_bytes
              content n = Done v.
Proof.
  intros Hok. unfold decimalLiteral. destruct (is_some (strchr content (chr "s"))).
  - unfold buildScaledDecimalLiteral. specialize (Hok eq_refl).
    destruct (scaled_scan content [] 0 false) as [[m k] r]. destruct Hok as [Hk Hs].
    rewrite decide_True by done. cbn [mbind option_bind]. rewrite !buildIntegerLiteral_spec by lia. cbn [mbind option_bind].
    set (scale := match r with [] => _ | _ => _ end).
    assert (small scale) as Hsc.
    { unfold scale. unfold MANTISSA_SIZE in Hk. destruct r as [|c [|d ds]]; [unfold small; lia..|].
      destruct (c =? chr "s")%Z; [done|unfold small; lia]. }
    rewrite i64_id by (unfold small in Hsc; lia). rewrite tag_small_spec by done. by eexists.
  - destruct (is_some (strpbrk _ _)); [apply floatLiteral_ok|]. rewrite buildIntegerLiteral_spec by lia. by eexists.
Qed.

(** A literal from a state where a token can be taken. *)
Lemma lit_number n p :
  ready p -> currentType p = TOKEN_DIGIT -> lit (fun x => literal x = true) p (parseNumber n p).
Proof.
  intros Hr Ht. pose proof (current_ok p Hr ltac:(congruence)) as Hok. unfold currentType in Ht.
  unfold token_ok in Hok. rewrite Ht in Hok.
  assert (left_ (nextToken p) < left_ p) as Hl
    by (rewrite <- (next_left p Hr ltac:(unfold currentType; congruence)); lia).
  unfold Parser.parseNumber. unfold number_ok in Hok. destruct (strchr (tok_content (currentToken p)) (chr "r")) as [r|].
  - unfold atoiContent, atoi. pose proof (leading_digits_nonneg (tok_content (currentToken p))).
    rewrite (proj2 (Z.ltb_lt _ _)) by lia. cbn [mbind run_bind].
    destruct (tl r) as [|c ds]; [cbn; split; [apply follows_error|done]|].
    rewrite buildIntegerLiteral_spec by lia. cbn. split_and!; [apply follows_next|done|done].
  - destruct (decimalLiteral_ok (tok_content (currentToken p)) n Hok) as [v ->].
    cbn. split_and!; [apply follows_next|done|done].
Qed.

Lemma symbolKeywords_ok fuel st acc p :
  ready p -> currentType p = TOKEN_KEYWORD -> left_ p <= fuel -> holds st acc ->
  exists st' acc' p', symbolKeywords fuel st p = Done (st', p') /\ holds st' acc' /\ follows p p' /\ left_ p' < left_ p.
Proof.
  revert st acc p. induction fuel as [|fuel IH]; intros st acc p Hr Ht Hl Hs;
    pose proof (next_left p Hr ltac:(congruence)) as Hn; [lia|].
  cbn [symbolKeywords]. destruct (appendKeyword_ok (tok_content (currentToken p)) st acc Hs) as (st1 & E1 & H1). rewrite E1.
  cbn [mbind run_bind]. destruct (bool_decide _ && _) eqn:Eb.
  - apply andb_true_iff in Eb as [Eb _]. apply bool_decide_eq_true in Eb.
    destruct (IH st1 _ (nextToken p) (ready_next p Hr) Eb ltac:(lia) H1) as (st' & acc' & p' & E & A & B & D).
    exists st', acc', p'. split_and!; [done|done| |lia]. etrans; [apply follows_next|done].
  - eexists _, _, _. split_and!; [done|done|apply follows_next|lia].
Qed.

Lemma lit_symbol p : ready p -> currentType p = TOKEN_SYMBOL_START -> lit (fun x => literal x = true) p (parseSymbol p).
Proof.
  intros Hr Ht. pose proof (next_left p Hr ltac:(congruence)) as Hn. pose proof (ready_next p Hr) as Hr'.
  unfold parseSymbol, NEXT_EXPECT_TOKEN, EXPECT_TOKEN. destruct (isOneOf _ _) eqn:E.
  2:{ cbn. split; [|done]. etrans; [apply follows_next|apply follows_error]. }
  assert (currentType (nextToken p) <> TOKEN_END_OF_INPUT) as He by (intros E'; by rewrite E' in E).
  case_decide as Hk.
  - destruct (symbolKeywords_ok (rounds (nextToken p)) (newString 64, 0) [] (nextToken p) Hr' Hk) as (st & acc & q & Eq & _ & F & L);
      [unfold rounds, left_; lia|apply holds_new|]. rewrite Eq. destruct st as [buf size]. cbn.
    split_and!; [by etrans; [apply follows_next|]|done|lia].
  - cbn [lit]. split_and!; [by etrans; [apply follows_next|apply follows_next]|done|].
    pose proof (next_left _ Hr' He). lia.
Qed.

Lemma lit_string p : ready p -> currentType p = TOKEN_STRING -> lit (fun x => literal x = true) p (parseString p).
Proof.
  intros Hr Ht. cbn [parseString lit]. pose proof (next_left p Hr ltac:(congruence)). split_and!; [apply follows_next|done|lia].
Qed.

Lemma parseInteger_ok p :
  ready p -> currentType p = TOKEN_DIGIT ->
  exists v p', parseInteger p = Done (Some v, p') /\ follows p p'.
Proof.
  intros Hr Ht. pose proof (current_ok p Hr ltac:(congruence)) as Hok. unfold currentType in Ht.
  unfold token_ok, number_ok in Hok. rewrite Ht in Hok. unfold parseInteger.
  destruct (strchr _ _) as [r|]; [|eexists _, _; split; [done|apply follows_next]].
  unfold atoiContent, atoi. rewrite (proj2 (Z.ltb_lt _ _)) by lia. cbn [mbind run_bind].
  destruct (tl r); eexists _, _; split; done || apply follows_error || apply follows_next.
Qed.

Lemma lit_char p : ready p -> currentType p = TOKEN_CHAR -> lit (fun x => literal x = true) p (parseChar p).
Proof.
  intros Hr Ht. pose proof (next_left p Hr ltac:(congruence)) as Hn. unfold parseChar. destruct (_ && _) eqn:E.
  2:{ cbn [lit]. split_and!; [apply follows_next|done|lia]. }
  apply andb_true_iff in E as [_ E]. apply bool_decide_eq_true in E.
  assert (currentType (nextToken p) = TOKEN_DIGIT) as Ed by done.
  destruct (parseInteger_ok (nextToken p) (ready_next p Hr) Ed) as (v & q & Eq & F).
  assert (follows p q) as F' by (etrans; [apply follows_next|done]). unfold CATCH. rewrite Eq. cbn [mbind run_bind].
  destruct (is_some (error q)) eqn:Ef; [by split|]. unfold SKIP_TOKEN, EXPECT_TOKEN.
  destruct (isOneOf _ _) eqn:Eo; [|cbn; split; [by etrans; [|apply follows_error]|done]].
  cbn [unchecked mbind run_bind lit]. pose proof (follows_left _ _ F). pose proof (follows_left _ _ (follows_next q)).
  split_and!; [by etrans; [|apply follows_next]|done|lia].
Qed.

(** One item of an array; NULL is no error when the array ends. *)
Lemma arrayLiteral_ok f p :
  ready p -> (isArrayLiteral (currentToken p) = true -> lit (fun x => literal x = true) p (f p)) ->
  exists a q, parseArrayLiteral f p = Done (a, q) /\ follows p q /\
    match a with Some x => literal x = true /\ left_ q < left_ p | None => True end.
Proof.
  intros Hr Hf. unfold parseArrayLiteral. case_decide as Ht.
  - destruct (constantClass _) as [c|] eqn:Ec; [|by eexists _, _].
    eexists _, _. split; [done|]. split; [apply follows_next|].
    pose proof (next_left p Hr ltac:(unfold currentType; congruence)).
    split; [|lia]. pose proof (constant_shape (tok_content (currentToken p))) as Hs. rewrite Ec in Hs. cbn in *.
    unfold constantClass in Ec. rewrite Hs. repeat case_decide; by simplify_eq.
  - destruct (isArrayLiteral _); [|by eexists _, _]. specialize (Hf eq_refl).
    destruct (f p) as [[[x|] q]| |]; cbn in Hf; [| |done..]; eexists _, _; (split; [done|]).
    + by destruct Hf as (? & ? & ?).
    + by destruct Hf.
Qed.

Lemma arrayItems_ok f fuel items p :
  ready p -> left_ p < fuel -> forallb literal items = true ->
  (forall q, follows p q -> isArrayLiteral (currentToken q) = true -> lit (fun x => literal x = true) q (f q)) ->
  exists items' q, arrayItems f fuel items p = Done (items', q) /\ follows p q /\ forallb literal items' = true.
Proof.
  revert items p. induction fuel as [|fuel IH]; intros items p Hr Hl Hi Hf; [lia|]. cbn [arrayItems].
  destruct (arrayLiteral_ok f p Hr (Hf p ltac:(done))) as (a & q & E & F & Ha). rewrite E. cbn [mbind run_bind].
  destruct a as [x|]; [|by exists items, q]. destruct Ha as [Hx Hlt].
  destruct (IH (items ++ [x]) q) as (its & r & E1 & F1 & H1); [by eapply follows_ready|lia| | |].
  - rewrite forallb_app. cbn. by rewrite Hi, Hx.
  - intros r Fr. apply Hf. by etrans.
  - exists its, r. split_and!; [done|by etrans|done].
Qed.

Lemma lit_literal fuel p :
  ready p -> left_ p < fuel ->
  lit (fun x => literal x = true) p (parseLiteralIn fuel p).
Proof.
  revert p. induction fuel as [|fuel IH]; intros p Hr Hl; [lia|]. cbn [Parser.parseLiteralIn].
  assert (forall mask, lit (fun x => literal x = true) p (Done (None, errorExpected mask p))) as Hbad
    by (intros mask; split; [apply follows_error|done]).
  assert (currentType p <> TOKEN_END_OF_INPUT -> lit (fun x => literal x = true) p (parseArray (parseLiteralIn fuel) p)) as Harr.
  { intros He. pose proof (next_left p Hr He) as Hn. unfold parseArray.
    destruct (arrayItems_ok (parseLiteralIn fuel) (rounds (nextToken p)) [] (nextToken p)) as (items & q & E & F & Hi);
      [by apply ready_next|unfold rounds, left_; lia|done| |].
    - intros q Fq _. apply IH; [by eapply follows_ready, ready_next|]. apply follows_left in Fq. lia.
    - rewrite E. cbn [mbind run_bind]. assert (follows p q) as F' by (etrans; [apply follows_next|done]).
      unfold SKIP_TOKEN, EXPECT_TOKEN. destruct (isOneOf _ _); [|split; [by etrans; [|apply follows_error]|done]].
      cbn [lit]. pose proof (follows_left _ _ F). pose proof (follows_left _ _ (follows_next q)).
      split_and!; [by etrans; [|apply follows_next]|done|lia]. }
  destruct (currentType p) eqn:Et; try apply Hbad; try (by apply Harr).
  - by apply lit_number.
  - by apply lit_symbol.
  - by apply lit_char.
  - by apply lit_string.
  - pose proof (next_left p Hr ltac:(congruence)) as Hn. unfold EXPECT_TOKEN.
    destruct (isOneOf _ _) eqn:Ei; [|split; [etrans; [apply follows_next|apply follows_error]|done]].
    assert (currentType (nextToken p) = TOKEN_DIGIT) as Ed
      by (apply isOneOf_elem in Ei; by apply list_elem_of_singleton in Ei).
    pose proof (lit_number true (nextToken p) (ready_next p Hr) Ed) as G.
    destruct (parseNumber true (nextToken p)) as [[[x|] q]| |]; cbn in G |- *; [| |done..].
    + destruct G as (G1 & G2 & G3). unfold left_ in *. cbn in *. split_and!; [by etrans; [apply follows_next|]|done|lia].
    + destruct G as (G1 & G2). split; [by etrans; [apply follows_next|]|done].
Qed.
End Literals.

(** ** Expressions *)

Lemma value_convert a m : value a = true -> message m = true -> value (convertToExpression a m) = true.
Proof. intros Ha Hm. cbn. rewrite Ha. unfold message in Hm. rewrite Hm. cbn. by rewrite orb_true_r. Qed.

Section Expressions.
Context (C : Prop) (prim : P Node) (n : nat).
Context (Hprim : forall p, live p -> left_ p < n -> good C (fun x => value x = true) True p (prim p)).

#[local] Notation Val := (fun x => value x = true).
#[local] Notation Msg := (fun x => message x = true).

Lemma good_unaryExpression p :
  live p -> currentType p = TOKEN_IDENTIFIER -> good C Msg True p (parseUnaryExpression p).
Proof.
  intros [Hr Hf] Ht. pose proof (current_ok p Hr ltac:(congruence)) as Hok. unfold token_ok in Hok. unfold currentType in Ht.
  rewrite Ht in Hok. pose proof (next_left p Hr ltac:(unfold currentType; congruence)). unfold parseUnaryExpression. cbn [good].
  split_and!; [apply follows_next|done| |lia]. cbn. by rewrite arity_word.
Qed.

Lemma good_unaryMessages fuel a p :
  live p -> left_ p < fuel -> value a = true -> good C Val False p (unaryMessages fuel a p).
Proof.
  revert a p. induction fuel as [|fuel IH]; intros a p Hp Hl Ha; [lia|]. cbn [unaryMessages].
  case_decide as Ht; [|by apply good_ret].
  eapply (good_catch _ Msg True); [by apply good_unaryExpression|done|apply Hp|].
  intros x q Hx F Hq Hlt. cbn [unchecked mbind run_bind]. specialize (Hlt I).
  eapply good_base; [done|done|]. apply IH; [done|lia|by apply value_convert].
Qed.

Lemma good_unaryObject p : live p -> left_ p < n -> good C Val True p (parseUnaryObject prim p).
Proof.
  intros Hp Hl. eapply (good_catch _ Val True); [by apply Hprim|done|apply Hp|].
  intros x q Hx F Hq Hlt. cbn [unchecked mbind run_bind]. eapply good_base; [done|done|].
  apply good_unaryMessages; [done|unfold rounds, left_; lia|done].
Qed.

Lemma special_type t : isOneOf t SPECIAL_CHARS_TOKENS = true -> t <> TOKEN_END_OF_INPUT.
Proof. by intros H ->. Qed.

Lemma special_ok p : ready p -> isOneOf (currentType p) SPECIAL_CHARS_TOKENS = true -> arity (tok_content (currentToken p)) = 1.
Proof.
  intros Hr Ht. pose proof (current_ok p Hr (special_type _ Ht)) as Hok. apply arity_operator. unfold token_ok in Hok.
  unfold currentType in Ht. by destruct (tok_type (currentToken p)).
Qed.

Lemma good_binaryExpression p :
  live p -> left_ p < n -> isOneOf (currentType p) SPECIAL_CHARS_TOKENS = true ->
  good C Msg True p (parseBinaryExpression prim p).
Proof.
  intros Hp Hl Ht. pose proof (next_left p (proj1 Hp) (special_type _ Ht)) as Hn. unfold parseBinaryExpression.
  eapply (good_catch _ Val True); [apply good_unaryObject; [by apply live_next|lia]|apply follows_next|apply ready_next, Hp|].
  intros x q Hx F Hq Hlt. specialize (Hlt I). cbn [ordCollAddObject unchecked mbind run_bind app].
  apply good_ret; [by etrans; [apply follows_next|]|done| |lia].
  cbn. rewrite special_ok by (apply Hp || done). cbn. by rewrite Hx.
Qed.

Lemma good_binaryMessages fuel a p :
  live p -> left_ p < fuel -> left_ p < n -> value a = true -> good C Val False p (binaryMessages prim fuel a p).
Proof.
  revert a p. induction fuel as [|fuel IH]; intros a p Hp Hl Hn Ha; [lia|]. cbn [binaryMessages].
  destruct (isOneOf _ _) eqn:Ht; [|by apply good_ret].
  eapply (good_catch _ Msg True); [by apply good_binaryExpression|done|apply Hp|].
  intros x q Hx F Hq Hlt. cbn [unchecked mbind run_bind]. specialize (Hlt I).
  eapply good_base; [done|done|]. apply IH; [done|lia|lia|by apply value_convert].
Qed.

Lemma good_binaryObject p : live p -> left_ p < n -> good C Val True p (parseBinaryObject prim p).
Proof.
  intros Hp Hl. eapply (good_catch _ Val True); [by apply good_unaryObject|done|apply Hp|].
  intros x q Hx F Hq Hlt. specialize (Hlt I). cbn [unchecked mbind run_bind]. eapply good_base; [done|done|].
  apply good_binaryMessages; [done|unfold rounds, left_; lia|lia|done].
Qed.

(** The keywords read so far, with one argument for each. *)
Definition pairs (st : list Z * nat) (args : list Node) (ok : Node -> bool) : Prop :=
  exists ks, Forall keyword ks /\ holds st (concat ks) /\ length ks = length args /\ forallb ok args = true.

Lemma pairs_step ok st args k st' x :
  pairs st args ok -> keyword k -> ok x = true ->
  (forall acc, holds st acc -> holds st' (acc ++ k)) -> pairs st' (args ++ [x]) ok.
Proof.
  intros (ks & H1 & H2 & H3 & H4) Hk Hx Hst. exists (ks ++ [k]). split_and!.
  - apply Forall_app. split; [done|]. by constructor.
  - rewrite concat_app. cbn. rewrite app_nil_r. by apply Hst.
  - rewrite !length_app. cbn. lia.
  - rewrite forallb_app. cbn. by rewrite H4, Hx.
Qed.

Lemma pairs_arity ok st args :
  pairs st args ok -> args <> [] ->
  arity (copyResizedObject (fst st) (snd st)) = length args /\ forallb ok args = true /\
  last (copyResizedObject (fst st) (snd st)) = Some colon.
Proof.
  intros (ks & H1 & H2 & H3 & H4) Hne. rewrite (holds_resized _ _ H2).
  assert (ks <> []) as Hk by (intros ->; by destruct args).
  split_and!; [rewrite <- H3; by apply arity_keywords|done|by apply last_keywords].
Qed.

(** Adding a keyword: the buffer grows as needed. *)
Lemma appendKeyword_step content st :
  (exists acc, holds st acc) ->
  exists st', appendKeyword content st = Done st' /\ forall acc, holds st acc -> holds st' (acc ++ content).
Proof.
  intros [acc H]. destruct (appendKeyword_ok content st acc H) as (st' & E & H'). exists st'. split; [done|].
  intros acc' Ha. destruct (appendKeyword_ok content st acc' Ha) as (st2 & E2 & H2).
  rewrite E in E2. by injection E2 as ->.
Qed.

Lemma keyword_ok p : ready p -> currentType p = TOKEN_KEYWORD -> keyword (tok_content (currentToken p)).
Proof.
  intros Hr Ht. pose proof (current_ok p Hr ltac:(congruence)) as Hok. unfold token_ok in Hok. unfold currentType in Ht.
  by rewrite Ht in Hok.
Qed.

Lemma pairs_holds ok st args : pairs st args ok -> exists acc, holds st acc.
Proof. intros (ks & _ & H & _). by exists (concat ks). Qed.

Lemma good_keywordPairs fuel st args p :
  live p -> left_ p < fuel -> left_ p < n -> pairs st args value ->
  good C (fun r => pairs (fst r) (snd r) value /\ (currentType p = TOKEN_KEYWORD \/ args <> [] -> snd r <> []))
    (currentType p = TOKEN_KEYWORD) p (keywordPairs prim fuel st args p).
Proof.
  revert st args p. induction fuel as [|fuel IH]; intros st args p Hp Hl Hn Hst; [lia|]. cbn [keywordPairs].
  case_decide as Ht; [|apply good_ret; [done|done| |done]; split; [done|tauto]].
  destruct (appendKeyword_step (tok_content (currentToken p)) st (pairs_holds _ _ _ Hst)) as (st1 & E1 & H1). rewrite E1.
  cbn [mbind run_bind]. pose proof (next_left p (proj1 Hp) ltac:(congruence)) as Hnx.
  eapply (good_catch _ Val True); [apply good_binaryObject; [by apply live_next|lia]|apply follows_next|apply ready_next, Hp|].
  intros x q Hx F Hq Hlt. specialize (Hlt I). cbn [ordCollAddObject unchecked mbind run_bind].
  eapply good_base; [by etrans; [apply follows_next|]|intros _; lia|].
  eapply good_weaken; [apply IH; [done|lia|lia|]| |done].
  - eapply (pairs_step _ _ _ (tok_content (currentToken p))); [done|apply keyword_ok; [apply Hp|done]|done|done].
  - intros [st' args'] [A B]. split; [done|]. intros _. apply B. right. by destruct args.
Qed.

Lemma good_keywordExpression p :
  live p -> left_ p < n -> currentType p = TOKEN_KEYWORD -> good C Msg True p (parseKeywordExpression prim p).
Proof.
  intros Hp Hn Ht. unfold parseKeywordExpression.
  assert (pairs (newString 64, 0) [] value) as H0 by (exists []; split_and!; [done|apply holds_new|done|done]).
  pose proof (good_keywordPairs (rounds p) (newString 64, 0) [] p Hp ltac:(unfold rounds, left_; lia) Hn H0) as G.
  destruct (keywordPairs _ _ _ _ _) as [[[[[buf size] args]|] q]| |]; cbn [mbind run_bind]; [|done..].
  destruct G as (G1 & G2 & [G3 G4] & G5). cbn [fst snd] in *. specialize (G4 (or_introl Ht)).
  cbn [good]. split_and!; [done|done| |tauto]. destruct (pairs_arity _ _ _ G3 G4) as (A & B & _). cbn [fst snd] in A.
  unfold message, createMessageExpressionNode. by rewrite A, Nat.eqb_refl, B.
Qed.

Lemma good_cascadeExpression p :
  live p -> left_ p < n -> currentType p = TOKEN_SEMICOLON -> good C Msg True p (parseCascadeExpression prim p).
Proof.
  intros Hp Hn Ht. pose proof (next_left p (proj1 Hp) ltac:(congruence)) as Hnx. unfold parseCascadeExpression.
  assert (forall r, good C Msg True (nextToken p) r -> good C Msg True p r) as Hb.
  { intros r G. eapply good_base; [apply follows_next|lia|]. by eapply good_weaken. }
  pose proof (live_next p Hp) as Hp'. assert (left_ (nextToken p) < n) as Hn' by lia.
  destruct (currentType (nextToken p)) eqn:E;
    try (apply good_fail, follows_next);
    apply Hb; first [by apply good_unaryExpression|by apply good_keywordExpression|apply good_binaryExpression; [done..|by rewrite E]].
Qed.

Lemma good_cascades fuel ms p :
  live p -> left_ p < fuel -> left_ p < n -> forallb message ms = true ->
  good C (fun r => forallb message r = true /\ (nonempty ms = true -> nonempty r = true) /\ (nonempty r = false -> ms = [])) False p
    (cascades prim fuel ms p).
Proof.
  revert ms p. induction fuel as [|fuel IH]; intros ms p Hp Hl Hn Hm; [lia|]. cbn [cascades].
  case_decide as Ht.
  2:{ apply good_ret; [done|done| |done]. split_and!; [done|done|]. by destruct ms. }
  eapply (good_catch _ Msg True); [by apply good_cascadeExpression|done|apply Hp|].
  intros x q Hx F Hq Hlt. specialize (Hlt I). cbn [ordCollAddObject unchecked mbind run_bind].
  eapply good_base; [done|done|]. eapply good_weaken; [apply IH; [done|lia|lia|]| |done].
  - rewrite forallb_app, Hm. cbn. by rewrite Hx.
  - intros r (A & B & D). assert (nonempty r = true) as E by (apply B; by destruct ms).
    split_and!; [done|done|congruence].
Qed.

Lemma assigmentNames_ok fuel vars p :
  live p -> left_ p < fuel -> forallb variable vars = true ->
  exists vars' q, assigmentNames fuel vars p = Done (vars', q) /\ follows p q /\ live q /\ forallb variable vars' = true.
Proof.
  revert vars p. induction fuel as [|fuel IH]; intros vars p Hp Hl Hv; [lia|]. cbn [assigmentNames].
  destruct (_ && _) eqn:E; [|by eexists _, _].
  apply andb_true_iff in E as [E _]. apply bool_decide_eq_true in E.
  pose proof (next_left p (proj1 Hp) ltac:(congruence)) as Hn. pose proof (parseVariable_shape p) as Hs.
  destruct (parseVariable p) as [v q] eqn:Ev. assert (q = nextToken p) as -> by (unfold parseVariable in Ev; congruence).
  cbn [fst] in Hs. pose proof (follows_next (nextToken p)) as F. apply follows_left in F as Fl.
  destruct (IH (vars ++ [v]) (nextToken (nextToken p))) as (vs & r & A & B & D & G).
  - by apply live_next, live_next.
  - lia.
  - rewrite forallb_app, Hv. cbn. by rewrite Hs.
  - exists vs, r. split_and!; [done| |done|done]. etrans; [apply follows_next|]. by etrans.
Qed.

Lemma good_assigments p : live p -> good C (fun l => forallb variable l = true) False p (parseAssigments p).
Proof.
  intros Hp. unfold parseAssigments.
  destruct (assigmentNames_ok (rounds p) [] p Hp ltac:(unfold rounds, left_; lia) eq_refl) as (vs & q & -> & F & Hq & Hv).
  cbn [mbind run_bind]. by apply good_ret.
Qed.

(** The receiver and messages of a statement, before its cascades. *)
Definition split_ok (r : Node * list Node) : Prop :=
  value (fst r) = true /\ forallb message (snd r) = true /\ (isExpressionNode (fst r) = true -> nonempty (snd r) = true).

Lemma value_parts ret assigments receiver messages s :
  value (ExpressionNode ret assigments receiver messages s) = true <->
  forallb variable assigments = true /\ value receiver = true /\ forallb message messages = true /\
  (isExpressionNode receiver = true -> nonempty messages = true).
Proof.
  cbn [value]. change (fun m => match m with MessageExpressionNode selector args _ => _ | _ => false end) with message.
  rewrite !andb_true_iff, orb_true_iff, negb_true_iff. destruct (isExpressionNode receiver), (nonempty messages); naive_solver.
Qed.

Lemma good_statementMessages a p :
  live p -> left_ p < n -> value a = true -> good C split_ok False p (statementMessages prim a p).
Proof.
  intros Hp Hn Ha. unfold statementMessages. case_decide as Ht.
  - eapply (good_catch _ Msg True); [by apply good_keywordExpression|done|apply Hp|].
    intros x q Hx F Hq Hlt. cbn [ordCollAddObject unchecked mbind run_bind app].
    apply good_ret; [done|done| |done]. split_and!; [done|cbn; by rewrite Hx|done].
  - destruct a as [c v s|l s|b1 b2 b3 s|r asg rcv ms s|sel args s]; try (by apply good_ret).
    apply value_parts in Ha as (_ & A & B & D). apply good_ret; [done|done|done|done].
Qed.

Lemma good_expression p : live p -> left_ p < n -> good C (fun x => statement x = true) True p (parseExpression prim p).
Proof.
  intros Hp Hn. unfold parseExpression. set (ret := bool_decide _).
  set (p1 := if ret then nextToken p else p).
  assert (follows p p1 /\ live p1) as [F1 Hp1].
  { unfold p1. destruct ret; [split; [apply follows_next|by apply live_next]|done]. }
  pose proof (follows_left _ _ F1) as L1.
  eapply good_catch; [by apply good_assigments|done|apply Hp1|]. intros vs p2 Hvs F2 Hp2 _. pose proof (follows_left _ _ F2).
  eapply good_catch; [apply good_binaryObject; [done|lia]|by etrans|apply Hp2|]. intros a p3 Ha F3 Hp3 L3.
  specialize (L3 I). cbn [unchecked mbind run_bind].
  assert (follows p p3) as F by (etrans; [done|by etrans]).
  eapply good_catch; [apply good_statementMessages; [done|lia|done]|done|apply Hp3|].
  intros [rcv ms] p4 (A1 & A2 & A3) F4 Hp4 _. cbn [fst snd unchecked mbind run_bind] in *. pose proof (follows_left _ _ F4).
  eapply good_catch; [apply (good_cascades (rounds p4) ms); [done|unfold rounds, left_; lia|lia|done]|by etrans|apply Hp4|].
  intros ms' p5 (B1 & B2 & B3) F5 Hp5 _. cbn [unchecked mbind run_bind]. pose proof (follows_left _ _ F5).
  apply good_ret; [etrans; [done|by etrans]|done| |lia].
  unfold statement. cbn [isExpressionNode andb]. apply value_parts. by split_and!; [| | |auto].
Qed.

Lemma isExpression_type p : isExpression (currentToken p) = true -> currentType p <> TOKEN_END_OF_INPUT.
Proof. unfold isExpression, currentType. by destruct (tok_type (currentToken p)). Qed.

Definition body_ok (es : list Node) : Prop := forallb statement es = true /\ returns_last es = true.

Lemma returns_last_snoc es e : returns_last es = true -> forallb (fun e => negb (expressionNodeReturns e)) es = true ->
  returns_last (es ++ [e]) = true.
Proof.
  induction es as [|x es IH]; [done|]. cbn. intros H1 [H2 H3]%andb_true_iff. destruct es as [|y es]; cbn in *; [by rewrite H2|].
  apply andb_true_iff in H1 as [_ H1]. rewrite H2. by apply IH.
Qed.

Lemma no_return_last es : forallb (fun e => negb (expressionNodeReturns e)) es = true -> returns_last es = true.
Proof.
  induction es as [|x [|y es] IH]; [done..|]. intros H. cbn [forallb] in H. apply andb_true_iff in H as [H1 H2].
  cbn [returns_last]. rewrite H1. by apply IH.
Qed.

Lemma good_statements fuel es p :
  live p -> left_ p < fuel -> left_ p < n -> forallb statement es = true ->
  forallb (fun e => negb (expressionNodeReturns e)) es = true ->
  good C body_ok False p (statements prim fuel es p).
Proof.
  revert es p. induction fuel as [|fuel IH]; intros es p Hp Hl Hn He Hr; [lia|]. cbn [statements].
  pose proof (no_return_last es Hr) as Hrl.
  destruct (isExpression (currentToken p)) eqn:Ht; [|by apply good_ret].
  eapply good_catch; [by apply good_expression|done|apply Hp|]. intros e q Hs F Hq L. specialize (L I).
  cbn [unchecked mbind run_bind]. cbv zeta.
  assert (forallb statement (es ++ [e]) = true) as Hes by (rewrite forallb_app, He; cbn; by rewrite Hs).
  assert (body_ok (es ++ [e])) as Hb by (split; [done|by apply returns_last_snoc]).
  case_decide as Hd; [|by apply good_ret].
  pose proof (next_left q (proj1 Hq) ltac:(congruence)) as Hnx.
  destruct (expressionNodeReturns e) eqn:Er.
  - apply good_ret; [by etrans; [|apply follows_next]|by apply live_next|done|done].
  - eapply good_base; [by etrans; [|apply follows_next]|done|]. apply IH; [by apply live_next|lia|lia|done|].
    rewrite forallb_app, Hr. cbn. by rewrite Er.
Qed.

Lemma good_expressions p : live p -> left_ p < n -> good C body_ok False p (parseExpressions prim p).
Proof. intros Hp Hn. apply good_statements; [done|unfold rounds, left_; lia|done|done|done]. Qed.

Lemma variables_ok fuel vars p :
  live p -> left_ p < fuel -> forallb variable vars = true ->
  exists vars' q, variables fuel vars p = Done (vars', q) /\ follows p q /\ live q /\ forallb variable vars' = true.
Proof.
  revert vars p. induction fuel as [|fuel IH]; intros vars p Hp Hl Hv; [lia|]. cbn [variables].
  case_decide as E; [|by eexists _, _].
  pose proof (next_left p (proj1 Hp) ltac:(congruence)) as Hn. pose proof (parseVariable_shape p) as Hs.
  destruct (parseVariable p) as [v q] eqn:Ev. assert (q = nextToken p) as -> by (unfold parseVariable in Ev; congruence).
  destruct (IH (vars ++ [v]) (nextToken p)) as (vs & r & A & B & D & G); [by apply live_next|lia| |].
  - rewrite forallb_app, Hv. cbn. cbn in Hs. by rewrite Hs.
  - exists vs, r. split_and!; [done| |done|done]. by etrans; [apply follows_next|].
Qed.

Lemma good_tempVars p : live p -> good C (fun l => forallb variable l = true) False p (parseTempVars p).
Proof.
  intros Hp. unfold parseTempVars. case_decide; [|by apply good_ret].
  destruct (variables_ok (rounds (nextToken p)) [] (nextToken p) (live_next p Hp) ltac:(unfold rounds, left_; lia) eq_refl)
    as (vs & q & -> & F & Hq & Hv).
  cbn [mbind run_bind]. apply good_skip; [by etrans; [apply follows_next|]|done|by apply not_end|].
  intros r -> F' Hr _. apply good_ret; [etrans; [apply follows_next|by etrans]|done|done|done].
Qed.

Lemma good_blockArgs_loop fuel vars p :
  live p -> left_ p < fuel -> forallb variable vars = true ->
  good C (fun l => forallb variable l = true) False p (blockArgs fuel vars p).
Proof.
  revert vars p. induction fuel as [|fuel IH]; intros vars p Hp Hl Hv; [lia|]. cbn [blockArgs].
  case_decide as E.
  - pose proof (next_left p (proj1 Hp) ltac:(congruence)) as Hn. apply good_next_expect; [done|done|].
    intros q -> F Hq Ht. apply list_elem_of_singleton in Ht. pose proof (next_left _ (proj1 Hq) ltac:(congruence)) as Hn2.
    pose proof (parseVariable_shape (nextToken p)) as Hs.
    destruct (parseVariable (nextToken p)) as [v q] eqn:Ev.
    assert (q = nextToken (nextToken p)) as -> by (unfold parseVariable in Ev; congruence).
    eapply good_base; [by etrans; [|apply follows_next]|done|]. apply IH; [by apply live_next|lia|].
    rewrite forallb_app, Hv. cbn. cbn in Hs. by rewrite Hs.
  - apply good_skip; [done|done|by apply not_end|]. intros q -> F Hq _. by apply good_ret.
Qed.

Lemma good_blockArgs p : live p -> good C (fun l => forallb variable l = true) False p (parseBlockArgs p).
Proof.
  intros Hp. unfold parseBlockArgs. case_decide; [|by apply good_ret].
  apply good_blockArgs_loop; [done|unfold rounds, left_; lia|done].
Qed.

Lemma value_block args tempVars es s :
  forallb variable args = true -> forallb variable tempVars = true -> body_ok es -> value (BlockNode args tempVars es s) = true.
Proof. intros H1 H2 [H3 H4]. cbn [value]. rewrite H1, H2, H4. cbn [andb]. by rewrite andb_true_r. Qed.

Lemma good_block p : live p -> left_ p <= n -> good C Val True p (parseBlockWith prim p).
Proof.
  intros Hp Hn. unfold parseBlockWith. apply good_skip; [done|done|by apply not_end|]. intros p1 -> F1 Hp1 L1.
  eapply good_catch; [by apply good_blockArgs|done|apply Hp1|]. intros args p2 Ha F2 Hp2 _. pose proof (follows_left _ _ F2).
  eapply good_catch; [by apply good_tempVars|by etrans|apply Hp2|]. intros vars p3 Hv F3 Hp3 _. pose proof (follows_left _ _ F3).
  eapply good_catch; [apply good_expressions; [done|lia]|etrans; [done|by etrans]|apply Hp3|].
  intros es p4 He F4 Hp4 _. pose proof (follows_left _ _ F4).
  apply good_skip; [etrans; [done|etrans; [done|by etrans]]|done|by apply not_end|]. intros p5 -> F5 Hp5 L5.
  cbn [unchecked mbind run_bind]. apply good_ret; [|done|by apply value_block|lia].
  etrans; [done|]. etrans; [done|]. etrans; [done|]. by etrans.
Qed.

Lemma good_bracketed p : live p -> left_ p <= n -> good C Val True p (parseBracketedStatement prim p).
Proof.
  intros Hp Hn. unfold parseBracketedStatement. apply good_skip; [done|done|by apply not_end|]. intros p1 -> F1 Hp1 L1.
  eapply good_catch; [apply good_expression; [done|lia]|done|apply Hp1|]. intros e p2 He F2 Hp2 L2. specialize (L2 I).
  apply good_skip; [by etrans|done|by apply not_end|]. intros p3 -> F3 Hp3 L3.
  apply good_ret; [etrans; [done|by etrans]|done| |lia]. unfold statement in He. by apply andb_true_iff in He as [_ He].
Qed.
End Expressions.

(** ** Primaries *)

Section Program.
Context `{NativeOrder} (LargePositiveInteger LargeNegativeInteger ScaledDecimal BoxedFloat64 : RawClass).
Context (strtod : list Z -> Z) (double_bytes : Z -> list Z).
Context (C : Prop).

#[local] Notation parseLiteral := (parseLiteral LargePositiveInteger LargeNegativeInteger ScaledDecimal BoxedFloat64 strtod double_bytes).
#[local] Notation parsePrimaryIn := (parsePrimaryIn LargePositiveInteger LargeNegativeInteger ScaledDecimal BoxedFloat64 strtod double_bytes).
#[local] Notation parsePrimary := (parsePrimary LargePositiveInteger LargeNegativeInteger ScaledDecimal BoxedFloat64 strtod double_bytes).
#[local] Notation parseBlock := (parseBlock LargePositiveInteger LargeNegativeInteger ScaledDecimal BoxedFloat64 strtod double_bytes).
#[local] Notation pragmaPairs := (pragmaPairs LargePositiveInteger LargeNegativeInteger ScaledDecimal BoxedFloat64 strtod double_bytes).
#[local] Notation parsePragma := (parsePragma LargePositiveInteger LargeNegativeInteger ScaledDecimal BoxedFloat64 strtod double_bytes).
#[local] Notation pragmaList := (pragmaList LargePositiveInteger LargeNegativeInteger ScaledDecimal BoxedFloat64 strtod double_bytes).
#[local] Notation parsePragmas := (parsePragmas LargePositiveInteger LargeNegativeInteger ScaledDecimal BoxedFloat64 strtod double_bytes).
#[local] Notation parseMethod := (parseMethod LargePositiveInteger LargeNegativeInteger ScaledDecimal BoxedFloat64 strtod double_bytes).
#[local] Notation methodList := (methodList LargePositiveInteger LargeNegativeInteger ScaledDecimal BoxedFloat64 strtod double_bytes).
#[local] Notation parseMethods := (parseMethods LargePositiveInteger LargeNegativeInteger ScaledDecimal BoxedFloat64 strtod double_bytes).
#[local] Notation parseExtension := (parseExtension LargePositiveInteger LargeNegativeInteger ScaledDecimal BoxedFloat64 strtod double_bytes).
#[local] Notation parseClassBody := (parseClassBody LargePositiveInteger LargeNegativeInteger ScaledDecimal BoxedFloat64 strtod double_bytes).
#[local] Notation parseClassWith := (parseClassWith LargePositiveInteger LargeNegativeInteger ScaledDecimal BoxedFloat64 strtod double_bytes).
#[local] Notation parseClassIn := (parseClassIn LargePositiveInteger LargeNegativeInteger ScaledDecimal BoxedFloat64 strtod double_bytes).
#[local] Notation parseClass := (parseClass LargePositiveInteger LargeNegativeInteger ScaledDecimal BoxedFloat64 strtod double_bytes).

Lemma lit_parseLiteral p : ready p -> lit (fun x => literal x = true) p (parseLiteral p).
Proof. intros Hr. apply lit_literal; [done|unfold rounds, left_; lia]. Qed.

Lemma good_literal p :
  live p -> good C (fun x => value x = true) True p
    ('(literal, p) ← parseLiteral p;
     if is_some (error p) then Done (None, alsoExpected [TOKEN_IDENTIFIER; TOKEN_OPEN_SQUARE_BRACKET; TOKEN_OPEN_BRACKET] p)
     else Done (literal, p)).
Proof.
  intros [Hr Hf]. pose proof (lit_parseLiteral p Hr) as G. destruct (parseLiteral p) as [[a q]| |]; [|by destruct G..].
  cbn [mbind run_bind]. assert (follows p q) as F by (destruct a; by destruct G).
  destruct (is_some (error q)) eqn:E.
  - unfold alsoExpected. destruct (error q) as [e|] eqn:Eq; [|done]. cbn. split; [|done].
    etrans; [done|apply follows_error].
  - destruct a as [x|]; [|destruct G as [_ G]; unfold failed in G; congruence].
    destruct G as (_ & G1 & G2). cbn. split_and!; [done|unfold failed; congruence|by apply literal_value|done].
Qed.

Lemma good_primary fuel p :
  live p -> left_ p < fuel -> good C (fun x => value x = true) True p (parsePrimaryIn fuel p).
Proof.
  revert p. induction fuel as [|fuel IH]; intros p Hp Hl; [lia|]. cbn [Parser.parsePrimaryIn].
  destruct (currentType p) eqn:E; try (by apply good_literal).
  - pose proof (parseVariable_shape p) as Hs. destruct (parseVariable p) as [v q] eqn:Ev.
    assert (q = nextToken p) as -> by (unfold parseVariable in Ev; congruence).
    pose proof (next_left p (proj1 Hp) ltac:(congruence)).
    apply good_ret; [apply follows_next|by apply live_next|by apply variable_value|lia].
  - eapply good_bracketed; [exact IH|done|lia].
  - eapply good_block; [exact IH|done|lia].
Qed.

Lemma good_parsePrimary p : live p -> good C (fun x => value x = true) True p (parsePrimary p).
Proof. intros Hp. apply good_primary; [done|unfold rounds, left_; lia]. Qed.

Lemma good_parseBlock p : live p -> good C (fun x => value x = true) True p (parseBlock p).
Proof.
  intros Hp. unfold Parser.parseBlock. eapply good_block; [intros q Hq Hl; by apply good_primary|done|unfold rounds, left_; lia].
Qed.

(** ** Pragmas *)

(** A [<] directly before a keyword. *)
Fixpoint has_pragma (ts : list Tok) : bool :=
  match ts with
  | a :: ((b :: _) as r) =>
      bool_decide (tok_type a = TOKEN_LESS_THAN) && bool_decide (tok_type b = TOKEN_KEYWORD) || has_pragma r
  | _ => false
  end.

(** A crash is allowed, or no pragma is left. *)
Definition may (p : Parser) : Prop := has_pragma (tokens p) = true -> C.

Lemma has_pragma_suffix ts ts' : suffix ts' ts -> has_pragma ts' = true -> has_pragma ts = true.
Proof.
  intros [k ->] H'. induction k as [|a k IH]; [done|]. cbn. destruct (k ++ ts') as [|b r]; [done|]. by rewrite IH, orb_true_r.
Qed.

Lemma may_follows p q : may p -> follows p q -> may q.
Proof. intros Hm [Hs _] Hq. apply Hm. by eapply has_pragma_suffix. Qed.

Lemma at_pragma p :
  ready p -> currentType p = TOKEN_LESS_THAN -> peekType p = TOKEN_KEYWORD -> has_pragma (tokens p) = true.
Proof.
  intros [He _] Hc Hp. unfold currentType, currentToken, peekType, peekToken in *. destruct (tokens p) as [|a [|b r]]; cbn in *; [congruence..|].
  rewrite Hc, Hp. cbn. by rewrite bool_decide_eq_true_2, bool_decide_eq_true_2.
Qed.

Notation pragma_arg := (fun a => variable a || literal a).

Lemma pragmaPairs_ok fuel st args p :
  C -> ready p -> left_ p < fuel -> pairs st args pragma_arg ->
  match pragmaPairs fuel st args p with
  | Done (st', args', q) => follows p q /\ pairs st' args' pragma_arg /\
      (currentType p = TOKEN_KEYWORD -> left_ q < left_ p) /\
      (currentType p = TOKEN_KEYWORD \/ args <> [] -> args' <> [])
  | Fault => True
  | NoFuel => False
  end.
Proof.
  intros HC. revert st args p. induction fuel as [|fuel IH]; intros st args p Hr Hl Hst; [lia|]. cbn [Parser.pragmaPairs].
  case_decide as Ht; [|by split_and!; [| |done|tauto]].
  destruct (appendKeyword_step (tok_content (currentToken p)) st (pairs_holds _ _ _ Hst)) as (st1 & E1 & H1). rewrite E1.
  cbn [mbind run_bind]. pose proof (next_left p Hr ltac:(congruence)) as Hn. pose proof (ready_next p Hr) as Hr'.
  assert (forall x q, pragma_arg x = true -> follows (nextToken p) q ->
    match pragmaPairs fuel st1 (args ++ [x]) q with
    | Done (st', args', r) => follows p r /\ pairs st' args' pragma_arg /\
        (currentType p = TOKEN_KEYWORD -> left_ r < left_ p) /\ (currentType p = TOKEN_KEYWORD \/ args <> [] -> args' <> [])
    | Fault => True
    | NoFuel => False
    end) as Hstep.
  { intros x q Hx F. pose proof (follows_left _ _ F).
    assert (pairs st1 (args ++ [x]) pragma_arg) as Hp1
      by (eapply (pairs_step _ _ _ (tok_content (currentToken p))); [done|by apply keyword_ok|done|done]).
    pose proof (IH st1 (args ++ [x]) q ltac:(by eapply follows_ready) ltac:(lia) Hp1) as G.
    destruct (pragmaPairs fuel st1 (args ++ [x]) q) as [[[st' args'] r]| |]; [|done..].
    destruct G as (G1 & G2 & G3 & G4). pose proof (follows_left _ _ G1). split_and!; [|done|lia|].
    - etrans; [apply follows_next|by etrans].
    - intros _. apply G4. right. by destruct args. }
  case_decide as Hi.
  - pose proof (parseVariable_shape (nextToken p)) as Hs. destruct (parseVariable (nextToken p)) as [v q] eqn:Ev.
    assert (q = nextToken (nextToken p)) as -> by (unfold parseVariable in Ev; congruence). cbn [fst] in Hs.
    apply Hstep; [by rewrite Hs|apply follows_next].
  - pose proof (lit_parseLiteral (nextToken p) Hr') as G.
    destruct (parseLiteral (nextToken p)) as [[[x|] q]| |]; cbn in G; [|cbn; done|done..].
    destruct G as (G1 & G2 & _). cbn [mbind run_bind ordCollAddObject unchecked]. apply Hstep; [by rewrite G2, orb_true_r|done].
Qed.

Lemma good_pragmaList fuel ps p :
  may p -> live p -> left_ p < fuel -> forallb pragma ps = true ->
  good C (fun l => forallb pragma l = true) False p (pragmaList fuel ps p).
Proof.
  revert ps p. induction fuel as [|fuel IH]; intros ps p Hm Hp Hl Hps; [lia|]. cbn [Parser.pragmaList].
  destruct (_ && _) eqn:E; [|by apply good_ret].
  apply andb_true_iff in E as [E1 E2]. apply bool_decide_eq_true in E1, E2.
  pose proof (Hm (at_pragma p (proj1 Hp) E1 E2)) as HC. pose proof (next_left p (proj1 Hp) ltac:(congruence)) as Hn.
  pose proof (ready_next p (proj1 Hp)) as Hr. assert (currentType (nextToken p) = TOKEN_KEYWORD) as Hk by exact E2.
  assert (pairs (newString 64, 0) [] pragma_arg) as H0 by (exists []; split_and!; [done|apply holds_new|done|done]).
  pose proof (pragmaPairs_ok (rounds (nextToken p)) (newString 64, 0) [] (nextToken p) HC Hr ltac:(unfold rounds, left_; lia) H0) as G.
  unfold CATCH, Parser.parsePragma.
  destruct (pragmaPairs (rounds (nextToken p)) (newString 64, 0) [] (nextToken p)) as [[[[buf size] args] q]| |];
    cbn [mbind run_bind]; [|done..].
  destruct G as (G1 & G2 & G3 & G4). specialize (G3 Hk). specialize (G4 (or_introl Hk)).
  assert (follows p q) as F by (etrans; [apply follows_next|done]).
  destruct (is_some (error q)) eqn:Ef; [cbn; by split|].
  assert (live q) as Hq by (split; [by eapply (follows_ready (nextToken p))|unfold failed; congruence]).
  apply good_skip; [done|done|by apply not_end|]. intros r -> Fr Hr' Lr. cbn [ordCollAddObject unchecked mbind run_bind].
  assert (follows p (nextToken q)) as F' by by etrans.
  eapply good_base; [done|done|]. apply IH; [by eapply may_follows|done|lia|].
  rewrite forallb_app, Hps. destruct (pairs_arity _ _ _ G2 G4) as (A & B & D). cbn [fst snd] in A, D.
  cbn [forallb andb]. unfold pragma, createMessageExpressionNode. by rewrite (bool_decide_eq_true_2 _ D), A, Nat.eqb_refl, B.
Qed.

Lemma good_pragmas p : may p -> live p -> good C (fun l => forallb pragma l = true) False p (parsePragmas p).
Proof. intros Hm Hp. apply good_pragmaList; [done|done|unfold rounds, left_; lia|done]. Qed.

(** ** Methods *)

Definition pattern_ok (r : list Z * list Node) : Prop := arity (fst r) = length (snd r) /\ forallb variable (snd r) = true.

Lemma good_patternPairs fuel st args p :
  live p -> left_ p < fuel -> pairs st args variable ->
  good C (fun r => pairs (fst r) (snd r) variable /\ (currentType p = TOKEN_KEYWORD \/ args <> [] -> snd r <> []))
    (currentType p = TOKEN_KEYWORD) p (patternPairs fuel st args p).
Proof.
  revert st args p. induction fuel as [|fuel IH]; intros st args p Hp Hl Hst; [lia|]. cbn [patternPairs].
  case_decide as Ht; [|apply good_ret; [done|done| |done]; split; [done|tauto]].
  destruct (appendKeyword_step (tok_content (currentToken p)) st (pairs_holds _ _ _ Hst)) as (st1 & E1 & H1). rewrite E1.
  cbn [mbind run_bind]. pose proof (next_left p (proj1 Hp) ltac:(congruence)) as Hn.
  apply good_next_expect; [done|done|]. intros q -> F Hq Hi. apply list_elem_of_singleton in Hi.
  pose proof (next_left _ (proj1 Hq) ltac:(congruence)) as Hn2. pose proof (parseVariable_shape (nextToken p)) as Hs.
  destruct (parseVariable (nextToken p)) as [v q] eqn:Ev.
  assert (q = nextToken (nextToken p)) as -> by (unfold parseVariable in Ev; congruence).
  eapply good_base; [by etrans; [|apply follows_next]|intros _; lia|].
  eapply good_weaken; [apply IH; [by apply live_next|lia|]| |done].
  - eapply (pairs_step _ _ _ (tok_content (currentToken p))); [done|apply keyword_ok; [apply Hp|done]|done|done].
  - intros [st' args'] [A B]. split; [done|]. intros _. apply B. right. by destruct args.
Qed.

Lemma good_messagePattern p : live p -> good C pattern_ok True p (parseMessagePattern p).
Proof.
  intros Hp. unfold parseMessagePattern.
  assert (isOneOf (currentType p) SPECIAL_CHARS_TOKENS = true -> good C pattern_ok True p (parseBinaryMessagePattern p)) as Hbin.
  { intros Ht. pose proof (next_left p (proj1 Hp) (special_type _ Ht)) as Hn. unfold parseBinaryMessagePattern.
    apply good_next_expect; [done|done|]. intros q -> F Hq Hi. pose proof (parseVariable_shape (nextToken p)) as Hs.
    destruct (parseVariable (nextToken p)) as [v q] eqn:Ev.
    assert (q = nextToken (nextToken p)) as -> by (unfold parseVariable in Ev; congruence).
    pose proof (follows_left _ _ (follows_next (nextToken p))).
    apply good_ret; [by etrans; [|apply follows_next]|by apply live_next| |lia].
    split; cbn [fst snd]; [by rewrite (special_ok p (proj1 Hp) Ht)|cbn; cbn in Hs; by rewrite Hs]. }
  destruct (currentType p) eqn:E; try (apply good_fail; done); try (by apply Hbin).
  - pose proof (next_left p (proj1 Hp) ltac:(congruence)).
    apply good_ret; [apply follows_next|by apply live_next| |lia]. split; [|done]. cbn [fst snd length].
    pose proof (current_ok p (proj1 Hp) ltac:(congruence)) as Hok. unfold token_ok in Hok. unfold currentType in E.
    rewrite E in Hok. by apply arity_word.
  - unfold parseKeywordMessagePattern.
    assert (pairs (newString 64, 0) [] variable) as H0 by (exists []; split_and!; [done|apply holds_new|done|done]).
    pose proof (good_patternPairs (rounds p) (newString 64, 0) [] p Hp ltac:(unfold rounds, left_; lia) H0) as G.
    destruct (patternPairs _ _ _ _) as [[[[[buf size] args]|] q]| |]; cbn [mbind run_bind]; [|done..].
    destruct G as (G1 & G2 & [G3 G4] & G5). specialize (G4 (or_introl E)). cbn [good].
    split_and!; [done|done| |tauto]. destruct (pairs_arity _ _ _ G3 G4) as (A & B & _). by split.
Qed.

Lemma good_parseMethod p : may p -> live p -> good C (fun m => method m = true) True p (parseMethod p).
Proof.
  intros Hm Hp. unfold Parser.parseMethod. set (qualified := _ && _). set (cn := if qualified then Some _ else None).
  set (p1 := if qualified then nextToken p else p).
  assert (follows p p1 /\ live p1) as [F1 Hp1].
  { unfold p1. destruct qualified; [split; [apply follows_next|by apply live_next]|done]. }
  pose proof (follows_left _ _ F1).
  eapply good_catch; [by apply good_messagePattern|done|apply Hp1|]. intros [sel args] p2 [A1 A2] F2 Hp2 L2. specialize (L2 I).
  cbn [fst snd] in *. assert (follows p p2) as F by by etrans.
  apply good_skip; [done|done|by apply not_end|]. intros p3 -> F3 Hp3 L3. assert (follows p (nextToken p2)) as F' by by etrans.
  eapply good_catch; [apply good_pragmas; [by eapply may_follows|done]|done|apply Hp3|]. intros ps p4 Hps F4 Hp4 _.
  pose proof (follows_left _ _ F4). assert (follows p p4) as F'' by by etrans.
  eapply good_catch; [by apply good_tempVars|done|apply Hp4|]. intros vs p5 Hvs F5 Hp5 _.
  pose proof (follows_left _ _ F5). assert (follows p p5) as F5' by by etrans.
  eapply good_catch; [eapply (good_expressions C parsePrimary (S (left_ p5)))|done|apply Hp5|].
  { intros q Hq _. by apply good_parsePrimary. } { done. } { lia. }
  intros es p6 Hes F6 Hp6 _. pose proof (follows_left _ _ F6). assert (follows p p6) as F6' by by etrans.
  apply good_skip; [done|done|by apply not_end|]. intros p7 -> F7 Hp7 L7. cbn [unchecked mbind run_bind].
  apply good_ret; [by etrans|done| |lia]. unfold method. cbn [methodPragmas methodBody methodSelector].
  rewrite Hps, A1, Nat.eqb_refl. by apply value_block.
Qed.

Lemma methodFirst_type p : isMethodFirstToken (currentToken p) = true -> currentType p <> TOKEN_END_OF_INPUT.
Proof. unfold isMethodFirstToken, currentType. by intros E1 E2; rewrite E2 in E1. Qed.

Lemma good_methodList fuel ms p :
  may p -> live p -> left_ p < fuel -> forallb method ms = true ->
  good C (fun l => forallb method l = true) False p (methodList fuel ms p).
Proof.
  revert ms p. induction fuel as [|fuel IH]; intros ms p Hm Hp Hl Hms; [lia|]. cbn [Parser.methodList].
  destruct (isMethodFirstToken _); [|by apply good_ret].
  eapply good_catch; [by apply good_parseMethod|done|apply Hp|]. intros m q Hmt F Hq L. specialize (L I).
  cbn [ordCollAddObject unchecked mbind run_bind]. eapply good_base; [done|done|].
  apply IH; [by eapply may_follows|done|lia|]. rewrite forallb_app, Hms. cbn. by rewrite Hmt.
Qed.

Lemma good_methods p : may p -> live p -> good C (fun l => forallb method l = true) False p (parseMethods p).
Proof. intros Hm Hp. apply good_methodList; [done|done|unfold rounds, left_; lia|done]. Qed.

(** ** Classes *)

Lemma good_extension name s p :
  may p -> live p -> variable name = true -> good C (fun c => class c = true) True p (parseExtension name s p).
Proof.
  intros Hm Hp Hn. unfold Parser.parseExtension. apply good_skip; [done|done|by apply not_end|]. intros p1 -> F1 Hp1 L1.
  eapply good_catch; [apply good_methods; [by eapply may_follows|done]|done|apply Hp1|]. intros ms p2 Hms F2 Hp2 _.
  pose proof (follows_left _ _ F2).
  apply good_skip; [by etrans|done|by apply not_end|]. intros p3 -> F3 Hp3 L3. cbn [unchecked mbind run_bind].
  apply good_ret; [etrans; [done|by etrans]|done| |lia]. cbn. rewrite Hn, Hms. done.
Qed.

Lemma good_classBody name super s p :
  may p -> live p -> variable name = true -> variable super = true ->
  literalNodeGetStringValue super <> bytes_of_string "Namespace" ->
  good C (fun c => class c = true) True p (parseClassBody name super s p).
Proof.
  intros Hm Hp Hn Hsup Hns. unfold Parser.parseClassBody. apply good_skip; [done|done|by apply not_end|]. intros p1 -> F1 Hp1 L1.
  eapply good_catch; [apply good_pragmas; [by eapply may_follows|done]|done|apply Hp1|]. intros ps p2 Hps F2 Hp2 _.
  pose proof (follows_left _ _ F2). assert (follows p p2) as F2' by by etrans.
  eapply good_catch; [by apply good_tempVars|done|apply Hp2|]. intros vs p3 Hvs F3 Hp3 _.
  pose proof (follows_left _ _ F3). assert (follows p p3) as F3' by by etrans.
  eapply good_catch; [apply good_methods; [by eapply may_follows|done]|done|apply Hp3|]. intros ms p4 Hms F4 Hp4 _.
  pose proof (follows_left _ _ F4). assert (follows p p4) as F4' by by etrans.
  apply good_skip; [done|done|by apply not_end|]. intros p5 -> F5 Hp5 L5. cbn [unchecked mbind run_bind].
  apply good_ret; [by etrans|done| |lia].
  cbn [class className classMembers classPragmas classVars classMethods classIsExtension opt_forallb].
  rewrite Hn, Hps, Hvs, Hms. unfold super_named. cbn [classSuperName]. rewrite Hsup, (bool_decide_eq_false_2 _ Hns). done.
Qed.

Lemma good_memberList f n fuel cs p :
  (forall q, may q -> live q -> left_ q < n -> good C (fun c => class c = true) True q (f q)) ->
  may p -> live p -> left_ p < fuel -> left_ p < n -> forallb class cs = true ->
  good C (fun l => forallb class l = true) False p (memberList f fuel cs p).
Proof.
  intros Hf. revert cs p. induction fuel as [|fuel IH]; intros cs p Hm Hp Hl Hn Hcs; [lia|]. cbn [memberList].
  case_decide as Ht; [|by apply good_ret].
  eapply good_catch; [by apply Hf|done|apply Hp|]. intros c q Hc F Hq L. specialize (L I).
  cbn [ordCollAddObject unchecked mbind run_bind]. eapply good_base; [done|done|].
  apply IH; [by eapply may_follows|done|lia|lia|]. rewrite forallb_app, Hcs. cbn. by rewrite Hc.
Qed.

Lemma good_namespace f n name super s p :
  (forall q, may q -> live q -> left_ q < n -> good C (fun c => class c = true) True q (f q)) ->
  may p -> live p -> left_ p <= n -> variable name = true -> variable super = true ->
  literalNodeGetStringValue super = bytes_of_string "Namespace" ->
  good C (fun c => class c = true) True p (parseNamespace f name super s p).
Proof.
  intros Hf Hm Hp Hle Hn Hsup Hns. unfold parseNamespace. apply good_skip; [done|done|by apply not_end|]. intros p1 -> F1 Hp1 L1.
  eapply good_catch; [eapply good_memberList; [done|by eapply may_follows|done|unfold rounds, left_; lia|lia|done]|done|apply Hp1|].
  intros cs p2 Hcs F2 Hp2 _. pose proof (follows_left _ _ F2).
  apply good_skip; [by etrans|done|by apply not_end|]. intros p3 -> F3 Hp3 L3. cbn [unchecked mbind run_bind].
  apply good_ret; [etrans; [done|by etrans]|done| |lia].
  cbn [class className classMembers classPragmas classVars classMethods classIsExtension is_some].
  rewrite Hn, Hcs. unfold super_named. cbn [classSuperName]. by rewrite Hsup, (bool_decide_eq_true_2 _ Hns).
Qed.

Lemma good_class f n p :
  (forall q, may q -> live q -> left_ q < n -> good C (fun c => class c = true) True q (f q)) ->
  may p -> live p -> left_ p <= n -> good C (fun c => class c = true) True p (parseClassWith f p).
Proof.
  intros Hf Hm Hp Hle. unfold Parser.parseClassWith. apply good_expect; [done|]. intros Ht. apply list_elem_of_singleton in Ht.
  pose proof (next_left p (proj1 Hp) ltac:(congruence)) as L1. pose proof (parseVariable_shape p) as Hs.
  destruct (parseVariable p) as [name p1] eqn:Ev. assert (p1 = nextToken p) as -> by (unfold parseVariable in Ev; congruence).
  pose proof (live_next p Hp) as Hp1. pose proof (follows_next p) as F1. cbn [fst] in Hs.
  destruct (_ && _) eqn:Ee.
  - pose proof (follows_left _ _ (follows_next (nextToken p))).
    assert (follows p (nextToken (nextToken p))) as F by (by etrans; [|apply follows_next]).
    eapply good_base; [done|lia|]. eapply good_weaken; [apply good_extension; [by eapply may_follows|by apply live_next|done]|done|done].
  - apply good_skip; [done|done|by apply not_end|]. intros p2 -> F2 Hp2 L2. assert (follows p (nextToken (nextToken p))) as F2' by by etrans.
    apply good_expect; [done|]. intros Ht2. pose proof (parseVariable_shape (nextToken (nextToken p))) as Hs2.
    destruct (parseVariable (nextToken (nextToken p))) as [super p3] eqn:Ev2.
    assert (p3 = nextToken (nextToken (nextToken p))) as -> by (unfold parseVariable in Ev2; congruence). cbn [fst] in Hs2.
    pose proof (follows_left _ _ (follows_next (nextToken (nextToken p)))).
    assert (follows p (nextToken (nextToken (nextToken p)))) as F3 by (by etrans; [|apply follows_next]).
    eapply good_base; [done|lia|].
    destruct (decide (literalNodeGetStringValue super = bytes_of_string "Namespace")) as [Hns|Hns].
    + eapply good_weaken; [eapply good_namespace; [done|by eapply may_follows|by apply live_next|lia|done|done|done]|done|done].
    + eapply good_weaken; [apply good_classBody; [by eapply may_follows|by apply live_next|done|done|done]|done|done].
Qed.

Lemma good_classIn fuel p :
  may p -> live p -> left_ p < fuel -> good C (fun c => class c = true) True p (parseClassIn fuel p).
Proof.
  revert p. induction fuel as [|fuel IH]; intros p Hm Hp Hl; [lia|]. cbn [Parser.parseClassIn].
  eapply (good_class _ fuel); [exact IH|done|done|lia].
Qed.

Lemma good_parseClass p : may p -> live p -> good C (fun c => class c = true) True p (parseClass p).
Proof. intros Hm Hp. apply good_classIn; [done|done|unfold rounds, left_; lia]. Qed.
End Program.
