(* ===== verification/ParserSound.v ===== *)
(** * The parser on a source text

    The tokenizer and the parser put together: the tokens the parser runs on
    are the lexemes of the source in order, they have the form the parser
    relies on, and so the results of ParserTotal.v hold for every text that
    can be read.  The last part exhibits what the code does wrong: the crash
    on a bad pragma argument, the assignments lost in brackets, and the slot
    that [convertToExpression] reads from a node of another class. *)
From S2P Require Import Prelude Tagging LargeInteger Tokenizer Lexemes TokenStream IntegerLiteral Parser AstShape ParserTotal.
From stdpp Require Import list.
#[local] Open Scope nat_scope.

(** ** Tokens are lexemes *)

Lemma lexAll_lexemes fuel text s j ts e :
  lexAll fuel text s = Done (ts, e) -> after j text = Done s ->
  (forall k t, ts !! k = Some t -> exists l, lexeme_no text (j + k) = Done l /\ t = tokOf text l) /\
  exists l, lexeme_no text (j + length ts) = Done l /\ e = tokOf text l /\ lx_type l = TOKEN_END_OF_INPUT.
Proof.
  revert s j ts e. induction fuel as [|fuel IH]; intros s j ts e; [done|]. cbn [lexAll]. intros E Hj.
  destruct (lexeme (S (length s)) TOKEN_BUFFER_SIZE false s) as [l| |] eqn:El; [|done..]. cbn [mbind run_bind] in E.
  assert (lexeme_no text j = Done l) as Hl by (unfold lexeme_no; by rewrite Hj).
  case_decide as Ht.
  - injection E as <- <-. split; [done|]. exists l. by rewrite Nat.add_0_r.
  - destruct (lexAll fuel text (lx_rest l)) as [[ts' e']| |] eqn:Er; [|done..]. cbn [mbind run_bind] in E. injection E as <- <-.
    destruct (IH _ (S j) _ _ Er) as [A B]; [cbn [after]; rewrite Hj; cbn [mbind run_bind]; by rewrite El|]. split.
    + intros [|k] t; cbn [lookup]; [intros [= <-]; exists l; by rewrite Nat.add_0_r|].
      rewrite <- Nat.add_succ_comm. apply A.
    + cbn [length]. by rewrite <- Nat.add_succ_comm.
Qed.

(** The tokens the parser is given are what the tokenizer's cursor shows. *)
Theorem initParser_tokens text p :
  initParser text = Done p ->
  (forall k t, tokens p !! k = Some t -> exists l, lexeme_no text k = Done l /\ t = tokOf text l) /\
  tok_type (endToken p) = TOKEN_END_OF_INPUT /\ ~ failed p.
Proof.
  unfold initParser. intros E. destruct (lexAll (S (length text)) text text) as [[ts e]| |] eqn:El; [|done..].
  injection E as <-. destruct (lexAll_lexemes _ _ _ 0 _ _ El eq_refl) as [A (l & _ & -> & B)]. cbn. by split_and!.
Qed.

(** ** The form of tokens *)

Lemma table_disjoint c : isIdentifier c = true \/ isSpecial c = true \/ isIdentifierBegining c = true -> c <> colon.
Proof. intros H ->. by destruct H as [H|[H|H]]; vm_compute in H. Qed.

Lemma run_of_all p s a b : run_of p s = (a, b) -> Forall (fun c => p c = true) a.
Proof.
  revert a b. induction s as [|c s IH]; intros a b; cbn [run_of]; [by intros [= <- <-]|].
  destruct (p c) eqn:Ep; [|by intros [= <- <-]]. destruct (run_of p s) as [a' b'] eqn:E. intros [= <- <-].
  constructor; [done|by eapply IH].
Qed.

Lemma last_not_colon (P : Z -> Prop) c l : (forall x, P x -> x <> colon) -> P c -> Forall P l -> last (c :: l) <> Some colon.
Proof.
  intros HP Hc Hl E. apply last_Some_elem_of in E. assert (Forall P (c :: l)) as Ha by by constructor.
  rewrite Forall_forall in Ha. apply Ha in E. by apply HP in E.
Qed.

(** The form of one token, by its type. *)
Definition formed (ty : TokenType) (text : list Z) : Prop :=
  match ty with
  | TOKEN_IDENTIFIER => word text
  | TOKEN_KEYWORD => keyword text
  | TOKEN_SPECIAL_CHARS | TOKEN_VERTICAL_BAR | TOKEN_MINUS | TOKEN_LESS_THAN | TOKEN_GREATER_THAN => operator text
  | _ => True
  end.

Lemma single_operator c x b : (c =? x)%Z && b = true -> operator [x] -> operator [c].
Proof. intros [E _]%andb_true_iff Ho. apply Z.eqb_eq in E. by subst. Qed.

Lemma lex_word c s name r :
  isIdentifierBegining c = true -> run_of isIdentifier s = (name, r) -> word (c :: name) /\ colon ∉ c :: name.
Proof.
  intros Hc Hn. pose proof (run_of_all _ _ _ _ Hn) as Ha. split.
  - split; [done|]. apply (last_not_colon (fun c => isIdentifier c = true \/ isIdentifierBegining c = true)).
    + intros x [H|H]; apply table_disjoint; auto.
    + by right.
    + eapply list.Forall_impl; [done|]. by left.
  - rewrite list.elem_of_cons. intros [<-|Hi]; [by vm_compute in Hc|].
    rewrite Forall_forall in Ha. apply Ha in Hi. by vm_compute in Hi.
Qed.

Lemma lex_token_formed cap s ty text r : lex_token cap s = Some (ty, text, r) -> formed ty text.
Proof.
  unfold lex_token. destruct s as [|c s]; [by intros [= <- <- <-]|]. cbn [first second hd tl].
  repeat (match goal with
    | |- (if ?b then Some (TOKEN_MINUS, _, _) else _) = _ -> _ => destruct b eqn:E;
        [intros [= <- <- <-]; eapply single_operator; [exact E|split; [done|by vm_compute]]|clear E]
    | |- (if ?b then Some (TOKEN_LESS_THAN, _, _) else _) = _ -> _ => destruct b eqn:E;
        [intros [= <- <- <-]; eapply single_operator; [exact E|split; [done|by vm_compute]]|clear E]
    | |- (if ?b then Some (TOKEN_GREATER_THAN, _, _) else _) = _ -> _ => destruct b eqn:E;
        [intros [= <- <- <-]; eapply single_operator; [exact E|split; [done|by vm_compute]]|clear E]
    | |- (if ?b then Some (TOKEN_VERTICAL_BAR, _, _) else _) = _ -> _ => destruct b eqn:E;
        [intros [= <- <- <-]; eapply single_operator; [exact E|split; [done|by vm_compute]]|clear E]
    | |- (if ?b then Some _ else _) = _ -> _ => destruct b; [by intros [= <- <- <-]|]
    end).
  destruct (c =? chr "$")%Z; [destruct s; [done|by intros [= <- <- <-]]|].
  destruct (_ && _); [by intros [= <- <- <-]|]. destruct (c =? chr "#")%Z; [by intros [= <- <- <-]|].
  destruct (c =? chr "'")%Z.
  { destruct (quoted _ s) as [a b]. intros [= <- <- <-]. by destruct b. }
  destruct (isNumeric c).
  { destruct (lex_number _ _) as [[a b]|]; cbn; [|done]. by intros [= <- <- <-]. }
  destruct (isIdentifierBegining c) eqn:Ei.
  { destruct (run_of isIdentifier s) as [name b] eqn:En. destruct (lex_word c s name b Ei En) as [W N].
    destruct (_ && _); intros [= <- <- <-]; [|done]. exists (c :: name). by split. }
  destruct (isSpecial c) eqn:Es; [|by intros [= <- <- <-]].
  destruct (run_of isSpecial s) as [op b] eqn:Eo. intros [= <- <- <-]. split; [done|].
  apply (last_not_colon (fun c => isSpecial c = true)); [|done|by eapply run_of_all]. intros x Hx. apply table_disjoint; auto.
Qed.

Lemma lexeme_formed fuel cap separated s l : lexeme fuel cap separated s = Done l -> formed (lx_type l) (lx_text l).
Proof.
  revert separated s. induction fuel as [|fuel IH]; intros separated s; [done|]. cbn [lexeme].
  destruct (_ =? dquote)%Z.
  - destruct (quoted _ _) as [text r]. destruct r; [destruct (_ <=? _); [by intros [= <-]|done]|apply IH].
  - destruct (lex_token _ _) as [[[ty text] r]|] eqn:E; [|done]. cbn. intros [= <-]. by eapply lex_token_formed.
Qed.

Lemma formed_ok text l : formed (lx_type l) (lx_text l) -> lx_type l <> TOKEN_DIGIT -> token_ok (tokOf text l).
Proof. unfold token_ok, formed. cbn. by destruct (lx_type l). Qed.

(** The numbers of a token sequence are within the bounds of [number_ok]. *)
Definition numbers_ok (ts : list Tok) : Prop :=
  Forall (fun t => tok_type t = TOKEN_DIGIT -> number_ok (tok_content t)) ts.

(** The tokens of a text are the ones the parser is proved for. *)
Lemma initParser_live text p : initParser text = Done p -> numbers_ok (tokens p) -> live p.
Proof.
  intros Hi Hn. destruct (initParser_tokens text p Hi) as (A & B & D). split; [|done]. split; [done|].
  apply Forall_lookup. intros k t Hk. destruct (A k t Hk) as (l & Hl & ->).
  unfold numbers_ok in Hn. rewrite Forall_lookup in Hn. specialize (Hn k _ Hk).
  unfold lexeme_no in Hl. destruct (after k text) as [s| |]; [|done..]. cbn [mbind run_bind] in Hl. apply lexeme_formed in Hl.
  destruct (decide (lx_type l = TOKEN_DIGIT)) as [Ed|]; [|by apply formed_ok].
  unfold token_ok. cbn in Hn |- *. rewrite Ed. by apply Hn.
Qed.

(** ** Every source is parsed *)

(** A node comes without an error and well-formed, NULL comes with one. *)
Definition contract {A} (shape : A -> bool) (a : option A) (q : Parser) : Prop :=
  match a with
  | Some x => error q = None /\ shape x = true
  | None => error q <> None
  end.

Lemma good_contract {A} C (shape : A -> bool) s p r a q :
  good C (fun x => shape x = true) s p r -> r = Done (a, q) -> contract shape a q.
Proof.
  intros G ->. destruct a as [x|]; cbn in *; unfold failed in *.
  - destruct G as (_ & F & Hx & _). split; [|done]. by destruct (error q).
  - destruct G as (_ & F). intros E. by rewrite E in F.
Qed.

Lemma good_returns {A} (Q : A -> Prop) s p r : good False Q s p r -> exists a q, r = Done (a, q).
Proof. intros G. destruct r as [[a q]| |]; [by eexists _, _|done..]. Qed.

Section Sources.
Context `{NativeOrder} (LargePositiveInteger LargeNegativeInteger ScaledDecimal BoxedFloat64 : RawClass).
Context (strtod : list Z -> Z) (double_bytes : Z -> list Z).

#[local] Notation parseBlock := (parseBlock LargePositiveInteger LargeNegativeInteger ScaledDecimal BoxedFloat64 strtod double_bytes).
#[local] Notation parseMethod := (parseMethod LargePositiveInteger LargeNegativeInteger ScaledDecimal BoxedFloat64 strtod double_bytes).
#[local] Notation parseClass := (parseClass LargePositiveInteger LargeNegativeInteger ScaledDecimal BoxedFloat64 strtod double_bytes).

(** C22. On every source that the tokenizer can read and whose number literals
    have a radix of at most 65536, at most 254 fraction digits before an [s] and
    a print scale below 2^61, the parser terminates: no recursion and no loop
    goes on for ever.  It returns (does not crash) for every block, and for every
    method and class in whose source no pragma occurs.  A larger scale fails the
    assertion of [tagInt], see [large_scale_faults]. *)
Theorem parser_terminates text p :
  initParser text = Done p -> numbers_ok (tokens p) ->
  parseMethod p <> NoFuel /\ parseClass p <> NoFuel /\
  (exists a q, parseBlock p = Done (a, q)) /\
  (has_pragma (tokens p) = false ->
   (exists a q, parseMethod p = Done (a, q)) /\ (exists a q, parseClass p = Done (a, q))).
Proof.
  intros Hi Hn. pose proof (initParser_live text p Hi Hn) as Hp.
  assert (may True p) as Ht by done. split_and!.
  - intros E. pose proof (good_parseMethod LargePositiveInteger LargeNegativeInteger ScaledDecimal BoxedFloat64 strtod double_bytes
      True p Ht Hp) as G. by rewrite E in G.
  - intros E. pose proof (good_parseClass LargePositiveInteger LargeNegativeInteger ScaledDecimal BoxedFloat64 strtod double_bytes
      True p Ht Hp) as G. by rewrite E in G.
  - eapply good_returns. by apply good_parseBlock.
  - intros Hno. assert (may False p) as Hf by (unfold may; congruence).
    split; eapply good_returns; [by apply good_parseMethod|by apply good_parseClass].
Qed.

(** C9. What the parser returns is what its callers rely on: a non-NULL result
    comes without an error and is a well-formed tree - variables where names
    belong, literals in literal arrays, a [^] only on the last statement, as
    many arguments as the selector takes in every message, pragma and method
    pattern, one of the three forms of a class - and NULL comes with an error.
    The number literals are those of [numbers_ok]. *)
Theorem parsed_trees_are_typed text p :
  initParser text = Done p -> numbers_ok (tokens p) ->
  (forall a q, parseBlock p = Done (a, q) -> contract value a q) /\
  (forall a q, parseMethod p = Done (a, q) -> contract method a q) /\
  (forall a q, parseClass p = Done (a, q) -> contract class a q).
Proof.
  intros Hi Hn. pose proof (initParser_live text p Hi Hn) as Hp. assert (may True p) as Ht by done.
  split_and!; intros a q E; (eapply good_contract; [|exact E]).
  - by apply (good_parseBlock _ _ _ _ _ _ True).
  - by apply (good_parseMethod _ _ _ _ _ _ True).
  - by apply (good_parseClass _ _ _ _ _ _ True).
Qed.
End Sources.

(** ** Examples *)

Module ParserExamples.
Notation with_kernel f := (f (byte_class 1) (byte_class 2) (byte_class 3) (byte_class 4) (fun _ => 0%Z) (fun _ => [])).

Definition method_of (source : String.string) : Run (option MethodNode * Parser) :=
  p ← initParser (bytes_of_string source); with_kernel parseMethod p.

Definition body_of (source : String.string) : option Node :=
  match method_of source with Done (Some m, _) => Some (strip (methodBody m)) | _ => None end.

Arguments method_of _%_string_scope.
Arguments body_of _%_string_scope.

Definition sample_class : list Z :=
  bytes_of_string "Foo := Object [ |a b| at: i put: x [ ^a := (x foo; bar: 16rFF) + [:y | y] ] ]".

Definition state_of (text : list Z) : option Parser := match initParser text with Done p => Some p | _ => None end.

Lemma sample_parser : exists p, initParser sample_class = Done p /\ has_pragma (tokens p) = false /\ numbers_ok (tokens p).
Proof.
  destruct (initParser sample_class) as [p| |] eqn:E; [|exfalso; by vm_compute in E..]. exists p. split; [done|].
  assert (Some p = state_of sample_class) as Hp by (unfold state_of; by rewrite E).
  vm_compute in Hp. injection Hp as ->. split; [by vm_compute|].
  unfold numbers_ok. cbn [tokens]. repeat (constructor; [first [by intros H'; vm_compute in H'|intros _; vm_compute; discriminate]|]). constructor.
Qed.

Lemma parser_terminates_witness :
  exists p, initParser sample_class = Done p /\ exists a q, with_kernel parseClass p = Done (a, q).
Proof.
  destruct sample_parser as (p & Hp & Hno & Hn). exists p. split; [done|].
  by apply (parser_terminates _ _ _ _ _ _ sample_class p Hp Hn).
Defined.

Lemma parsed_trees_are_typed_witness :
  exists p a q, initParser sample_class = Done p /\ with_kernel parseClass p = Done (a, q) /\ contract class a q.
Proof.
  destruct sample_parser as (p & Hp & Hno & Hn).
  assert (may False p) as Hm by (unfold may; congruence). pose proof (initParser_live _ _ Hp Hn) as Hl.
  destruct (good_returns _ _ _ _ (with_kernel good_parseClass False p Hm Hl)) as (a & q & E).
  exists p, a, q. split_and!; [done|done|]. by apply (with_kernel parsed_trees_are_typed sample_class p Hp Hn).
Defined.

(** The sample is in fact accepted. *)
Lemma sample_accepted :
  match (p ← initParser sample_class; with_kernel parseClass p) with Done (Some c, q) => error q = None /\ tokens q = [] | _ => False end.
Proof. vm_compute. done. Qed.

(** A print scale beyond the SmallIntegers fails the assertion of [tagInt]. *)
Example large_scale_faults :
  (p ← initParser (bytes_of_string "[1s4611686018427387904]"); with_kernel parseBlock p) = Fault /\
  match (p ← initParser (bytes_of_string "[1s4]"); with_kernel parseBlock p) with Done (Some _, _) => True | _ => False end.
Proof. vm_compute. done. Qed.

(** The pragma of this method has neither a literal nor a name for its argument,
    and the parser crashes: [parsePragma] adds the NULL that [parseLiteral] returns to the collection of arguments
    before anything looks at the error flag. *)
Example pragma_argument_crashes : method_of "foo [ <primitive: ]> ]" = Fault.
Proof. vm_compute. reflexivity. Qed.

(** In these methods an assignment in brackets, to whose value nothing is sent,
    is lost: [parseExpression] takes the inner expression apart and keeps only its
    receiver and its messages. *)
Example bracketed_assignment_lost :
  body_of "foo [ y := (x := 3) ]" = body_of "foo [ y := 3 ]" /\ body_of "foo [ y := 3 ]" <> None /\
  body_of "foo [ (x := y foo) ]" = body_of "foo [ y foo ]".
Proof. vm_compute. done. Qed.

(** [convertToExpression] reads the source position of a receiver that is an
    expression through a cast to LiteralNode, whose second slot is the
    expression's assignments: the receiver of [baz] in [a foo bar baz] has a
    collection for its source position. *)
Example source_slot_confused :
  match method_of "foo [ a foo bar baz ]" with
  | Done (Some m, _) =>
      match methodBody m with
      | BlockNode _ _ [ExpressionNode _ _ (ExpressionNode _ _ _ _ source) _ _] _ => source = CollectionField []
      | _ => False
      end
  | _ => False
  end.
Proof. vm_compute. reflexivity. Qed.
End ParserExamples.
