(* ===== verification/ParserRound.v ===== *)
(** * Reading back a tree

    A tree is written as a sequence of tokens - every operand that is an
    expression in brackets, characters by their code, integers in decimal -
    and the parser reads the same tree from it, source positions aside.  The
    theorem covers every tree of the shape of AstShape.v, which is every tree
    the parser makes (ParserSound.v), whose number literals are integers. *)
From S2P Require Import Prelude BigIntCore Tagging LargeInteger Tokenizer Lexemes IntegerLiteral Parser AstShape ParserTotal.
From stdpp Require Import list.
#[local] Open Scope nat_scope.

(** ** Tokens of a tree *)

Notation Word := (TokenType * list Z)%type (only parsing).

(** The digits of a number, most significant first. *)
Fixpoint digits_rev (fuel : nat) (v : Z) : list Z :=
  match fuel with
  | O => []
  | S fuel => (48 + v mod 10)%Z :: if (v <? 10)%Z then [] else digits_rev fuel (v / 10)
  end.

Definition digits (v : Z) : list Z := reverse (digits_rev (S (S (Z.to_nat (Z.log2 v)))) v).

Arguments digits : simpl never.

(** The keywords of a selector: it is cut after every colon. *)
Fixpoint keywords (selector : list Z) : list (list Z) :=
  match selector with
  | [] => []
  | c :: s =>
      if (c =? colon)%Z then [c] :: keywords s
      else match keywords s with k :: ks => (c :: k) :: ks | [] => [[c]] end
  end.

(** The token of an operator. *)
Definition op_type (selector : list Z) : TokenType :=
  if decide (selector = [chr "|"]) then TOKEN_VERTICAL_BAR
  else if decide (selector = [chr "-"]) then TOKEN_MINUS
  else if decide (selector = [chr "<"]) then TOKEN_LESS_THAN
  else if decide (selector = [chr ">"]) then TOKEN_GREATER_THAN
  else TOKEN_SPECIAL_CHARS.

Fixpoint all {A} (P : A -> Prop) (l : list A) : Prop :=
  match l with [] => True | x :: l => P x /\ all P l end.

Section Unparse.
Context `{NativeOrder} (pos neg : RawClass).

(** The integer an object stands for. *)
Definition int_value (v : Value) : Z :=
  match v with
  | VInt i => i
  | VPointer (mkObject c (BBytes bytes)) => signed (class_id c =? class_id neg)%Z (bval (limbs_of_bytes bytes))
  | _ => 0%Z
  end.

Definition name_word (n : Node) : Word := (TOKEN_IDENTIFIER, literalNodeGetStringValue n).

Definition number_words (z : Z) : list Word :=
  (if (z <? 0)%Z then [(TOKEN_MINUS, [chr "-"])] else []) ++ [(TOKEN_DIGIT, digits (Z.abs z))].

Definition literal_words (class : LiteralClass) (v : LiteralValue) : list Word :=
  match class, v with
  | (NilNode | TrueNode | FalseNode | VariableNode), StringValue s => [(TOKEN_IDENTIFIER, s)]
  | SymbolNode, StringValue s => [(TOKEN_SYMBOL_START, [chr "#"]); (TOKEN_STRING, s)]
  | StringNode, StringValue s => [(TOKEN_STRING, s)]
  | IntegerNode, RawLiteral v => number_words (int_value v)
  | CharacterNode, RawLiteral (VChar c) =>
      [(TOKEN_CHAR, bytes_of_string "$<"); (TOKEN_DIGIT, digits c); (TOKEN_GREATER_THAN, [chr ">"])]
  | _, _ => []
  end.

Definition open_ : Word := (TOKEN_OPEN_BRACKET, [chr "("]).
Definition close_ : Word := (TOKEN_CLOSE_BRACKET, [chr ")"]).
Definition open_square : Word := (TOKEN_OPEN_SQUARE_BRACKET, [chr "["]).
Definition close_square : Word := (TOKEN_CLOSE_SQUARE_BRACKET, [chr "]"]).
Definition bar : Word := (TOKEN_VERTICAL_BAR, [chr "|"]).
Definition semicolon : Word := (TOKEN_SEMICOLON, [chr ";"]).
Definition dot : Word := (TOKEN_DOT, [chr "."]).
Definition assign : Word := (TOKEN_ASSIGN, bytes_of_string ":=").

(** Block arguments with their bar, and declared variables between bars. *)
Definition args_words (args : list Node) : list Word :=
  match args with [] => [] | _ => concat ((fun a => [(TOKEN_COLON, [colon]); name_word a]) <$> args) ++ [bar] end.
Definition vars_words (vars : list Node) : list Word :=
  match vars with [] => [] | _ => bar :: (name_word <$> vars) ++ [bar] end.

(** Words with a separator between them. *)
Fixpoint separated (sep : Word) (ws : list (list Word)) : list Word :=
  match ws with
  | [] => []
  | [w] => w
  | w :: ws => w ++ sep :: separated sep ws
  end.

(** An expression is written without brackets of its own, a message with its
    arguments. *)
Fixpoint words (n : Node) : list Word :=
  let operand a := match a with ExpressionNode _ _ _ _ _ => open_ :: words a ++ [close_] | _ => words a end in
  match n with
  | LiteralNode class v _ => literal_words class v
  | ArrayNode items _ => (TOKEN_ARRAY_OPEN_BRACKET, bytes_of_string "#(") :: concat (words <$> items) ++ [close_]
  | BlockNode args tempVars expressions _ =>
      open_square :: args_words args ++ vars_words tempVars ++ separated dot (words <$> expressions) ++ [close_square]
  | ExpressionNode returns assigments receiver messages _ =>
      (if returns then [(TOKEN_RETURN, [chr "^"])] else []) ++
      concat ((fun a => [name_word a; assign]) <$> assigments) ++
      operand receiver ++ separated semicolon (words <$> messages)
  | MessageExpressionNode selector args _ =>
      if decide (last selector = Some colon) then
        concat (zip_with (fun a k => (TOKEN_KEYWORD, k) :: operand a) args (keywords selector))
      else if isIdentifierBegining (first selector) then [(TOKEN_IDENTIFIER, selector)]
      else (op_type selector, selector) :: concat (operand <$> args)
  end.

Definition operand (a : Node) : list Word :=
  match a with ExpressionNode _ _ _ _ _ => open_ :: words a ++ [close_] | _ => words a end.

(** The number literals are integers and the characters are bytes. *)
Definition leaf (class : LiteralClass) (v : LiteralValue) : Prop :=
  match class, v with
  | IntegerNode, RawLiteral v => v = integer_object pos neg (int_value v)
  | CharacterNode, RawLiteral (VChar c) => (0 <= c < 256)%Z
  | CharacterNode, _ => False
  | _, _ => True
  end.

Fixpoint leaves (n : Node) : Prop :=
  match n with
  | LiteralNode class v _ => leaf class v
  | ArrayNode items _ => all leaves items
  | BlockNode _ _ expressions _ => all leaves expressions
  | ExpressionNode _ _ receiver messages _ => leaves receiver /\ all leaves messages
  | MessageExpressionNode _ args _ => all leaves args
  end.
End Unparse.

(** ** Reading words *)

Definition word_of (t : Tok) : Word := (tok_type t, tok_content t).

(** The tokens left in [p] show the words [l], and no error is set. *)
Definition at_ (p : Parser) (l : list Word) : Prop :=
  word_of <$> tokens p = l /\ tok_type (endToken p) = TOKEN_END_OF_INPUT /\ error p = None.

(** The type of the next word. *)
Definition next_type (l : list Word) : TokenType := match l with [] => TOKEN_END_OF_INPUT | w :: _ => w.1 end.

Lemma at_type p l : at_ p l -> currentType p = next_type l.
Proof.
  intros (H1 & H2 & _). unfold currentType, currentToken. destruct (tokens p) as [|t ts]; cbn in H1; subst l; done.
Qed.

Lemma at_cons p w l :
  at_ p (w :: l) -> tok_content (currentToken p) = w.2 /\ currentType p = w.1 /\ at_ (nextToken p) l /\
  peekType p = next_type l /\ left_ p = S (length l).
Proof.
  intros (H1 & H2 & H3). destruct (tokens p) as [|t [|u ts]] eqn:E; cbn in H1; [done|..]; injection H1 as <- <-;
    unfold currentToken, currentType, peekType, peekToken, currentToken, left_, at_, nextToken; rewrite E; cbn;
    rewrite ?length_fmap; done.
Qed.

Lemma at_left p l : at_ p l -> left_ p = length l.
Proof. intros [<- _]. unfold left_. by rewrite length_fmap. Qed.

(** A run that leaves the words [r] and answers something with [Q]. *)
Definition yields {A} (run : Run (option A * Parser)) (r : list Word) (Q : A -> Prop) : Prop :=
  exists x q, run = Done (Some x, q) /\ Q x /\ at_ q r.

Lemma yields_ret {A} (x : A) q r (Q : A -> Prop) : Q x -> at_ q r -> yields (Done (Some x, q)) r Q.
Proof. intros. by exists x, q. Qed.

Lemma yields_weaken {A} run r (Q R : A -> Prop) : yields run r Q -> (forall x, Q x -> R x) -> yields run r R.
Proof. intros (x & q & E & HQ & Hq) H. exists x, q. auto. Qed.

Lemma yields_catch {A B} (f : P A) (k : option A -> P B) p r1 r Q R :
  yields (f p) r1 Q -> (forall x q, Q x -> at_ q r1 -> yields (k (Some x) q) r R) -> yields (CATCH f k p) r R.
Proof.
  intros (x & q & E & HQ & Hq) Hk. unfold CATCH. rewrite E. cbn [mbind run_bind]. pose proof Hq as (_ & _ & ->). by apply Hk.
Qed.

Lemma yields_expect {B} mask (k : P B) p w l r R :
  at_ p (w :: l) -> isOneOf w.1 mask = true -> yields (k p) r R -> yields (EXPECT_TOKEN mask k p) r R.
Proof. intros Hp Hm Hk. unfold EXPECT_TOKEN. destruct (at_cons p w l Hp) as (_ & -> & _). by rewrite Hm. Qed.

Lemma yields_skip {B} mask (k : P B) p w l r R :
  at_ p (w :: l) -> isOneOf w.1 mask = true -> (forall q, at_ q l -> yields (k q) r R) -> yields (SKIP_TOKEN mask k p) r R.
Proof. intros Hp Hm Hk. eapply yields_expect; [done|done|]. apply Hk. by destruct (at_cons p w l Hp) as (_ & _ & ? & _). Qed.

Lemma yields_next_expect {B} mask (k : P B) p w v l r R :
  at_ p (w :: v :: l) -> isOneOf v.1 mask = true -> (forall q, at_ q (v :: l) -> yields (k q) r R) ->
  yields (NEXT_EXPECT_TOKEN mask k p) r R.
Proof.
  intros Hp Hm Hk. destruct (at_cons p w _ Hp) as (_ & _ & Hq & _). unfold NEXT_EXPECT_TOKEN.
  eapply yields_expect; [done|done|]. by apply Hk.
Qed.

(** The same tree but for its source positions. *)
Definition same (x e : Node) : Prop := strip x = strip e.

Lemma parseVariable_at p s l n :
  at_ p ((TOKEN_IDENTIFIER, s) :: l) -> variable n = true -> literalNodeGetStringValue n = s ->
  exists x, parseVariable p = (x, nextToken p) /\ same x n /\ at_ (nextToken p) l.
Proof.
  intros Hp Hn Hs. destruct (at_cons _ _ _ Hp) as (Ec & _ & Hq & _). cbn in Ec. unfold parseVariable. rewrite Ec.
  eexists. split; [done|]. split; [|done]. destruct n as [c v src| | | |]; try done.
  destruct c, v; try done; cbn in Hn, Hs; subst; apply bool_decide_eq_true in Hn; rewrite Hn; done.
Qed.

(** ** Digits *)

Lemma digits_rev_value fuel v :
  (0 <= v < 2 ^ Z.of_nat fuel)%Z ->
  digits_value 10 (reverse (digits_rev (S fuel) v)) = v /\ Forall decimal_digit (digits_rev (S fuel) v).
Proof.
  revert v. induction fuel as [|fuel IH]; intros v Hv; cbn [digits_rev]; rewrite reverse_cons, digits_value_snoc;
    pose proof (Z.mod_pos_bound v 10 ltac:(lia)) as Hm;
    (assert (literal_digit (48 + v mod 10) 10 = Some (v mod 10)%Z) as -> by
      (unfold literal_digit; change (chr "0") with 48%Z; change (chr "9") with 57%Z;
       rewrite (proj2 (Z.leb_le _ _)), (proj2 (Z.leb_le _ _)) by lia; cbn [andb mbind option_bind];
       rewrite (proj2 (Z.leb_gt _ _)) by lia; f_equal; lia)).
  - assert (v = 0)%Z as -> by (cbn in Hv; lia). cbn. split; [done|]. constructor; [unfold decimal_digit; lia|done].
  - destruct (Z.ltb_spec v 10) as [Hl|Hl].
    + cbn. rewrite Z.mod_small by lia. split; [lia|]. constructor; [unfold decimal_digit; lia|done].
    + pose proof (Z.div_mod v 10 ltac:(lia)). pose proof (Z.div_pos v 10 ltac:(lia) ltac:(lia)).
      rewrite Nat2Z.inj_succ, Z.pow_succ_r in Hv by lia.
      destruct (IH (v / 10)%Z) as [A B]; [lia|]. cbn [digits_rev] in A, B. rewrite A.
      split; [lia|]. constructor; [unfold decimal_digit; lia|done].
Qed.

Lemma digits_ok v : (0 <= v)%Z -> digits_value 10 (digits v) = v /\ Forall decimal_digit (digits v).
Proof.
  intros Hv. destruct (digits_rev_value (S (Z.to_nat (Z.log2 v))) v) as [A B].
  - split; [done|]. rewrite Nat2Z.inj_succ, Z2Nat.id by apply Z.log2_nonneg.
    destruct (decide (v = 0)%Z) as [->|]; [cbn; lia|]. apply Z.log2_spec. lia.
  - split; [done|]. by apply Forall_reverse.
Qed.

Lemma digits_no c ds : Forall decimal_digit ds -> ~ decimal_digit c -> strchr ds c = None.
Proof.
  intros Hd Hc. induction Hd as [|d ds Hd1 Hd IH]; [done|]. cbn. rewrite (proj2 (Z.eqb_neq d c)) by (intros ->; done). done.
Qed.

Lemma digits_plain ds : Forall decimal_digit ds -> strpbrk ds (bytes_of_string ".eE") = None.
Proof.
  intros Hd. unfold strpbrk. destruct (list_find _ ds) as [[i x]|] eqn:E; [|done]. exfalso.
  apply list_find_Some in E as (Hx & Hb & _). rewrite Forall_lookup in Hd. specialize (Hd i x Hx).
  apply bool_decide_eq_true in Hb. unfold decimal_digit in Hd. vm_compute in Hb.
  repeat (apply list.elem_of_cons in Hb as [->|Hb]; [lia|]). by apply list.not_elem_of_nil in Hb.
Qed.

(** ** Literals *)

Lemma all_forall {A} (P : A -> Prop) l : all P l <-> Forall P l.
Proof.
  induction l as [|x l IH]; [done|]. cbn. rewrite IH. split; [by intros []; constructor|]. intros Hl. by inversion_clear Hl.
Qed.

Section Reading.
Context `{NativeOrder} (pos neg sd bf : RawClass) (strtod : list Z -> Z) (double_bytes : Z -> list Z).

#[local] Notation words := (words neg).
#[local] Notation operand := (operand neg).
#[local] Notation leaf := (leaf pos neg).
#[local] Notation leaves := (leaves pos neg).
#[local] Notation int_value := (int_value neg).
#[local] Notation parseNumber := (parseNumber pos neg sd bf strtod double_bytes).
#[local] Notation parseLiteralIn := (parseLiteralIn pos neg sd bf strtod double_bytes).
#[local] Notation parseLiteral := (parseLiteral pos neg sd bf strtod double_bytes).

Lemma read_number b z p r :
  at_ p ((TOKEN_DIGIT, digits z) :: r) -> (0 <= z)%Z ->
  yields (parseNumber b p) r (fun x => strip x = LiteralNode IntegerNode (RawLiteral (integer_object pos neg (signed b z))) NilField).
Proof.
  intros Hp Hz. destruct (at_cons _ _ _ Hp) as (Ec & _ & Hq & _). cbn in Ec. destruct (digits_ok z Hz) as [Hv Hd].
  unfold Parser.parseNumber. rewrite Ec. rewrite (digits_no _ _ Hd) by (unfold decimal_digit; vm_compute; intuition discriminate).
  unfold decimalLiteral. rewrite (digits_no _ _ Hd) by (unfold decimal_digit; vm_compute; intuition discriminate).
  rewrite (digits_plain _ Hd). cbn [is_some]. rewrite buildIntegerLiteral_spec, Hv by lia. cbn [unchecked mbind run_bind].
  by apply yields_ret.
Qed.

Lemma read_integer v p r fuel s :
  leaf IntegerNode (RawLiteral v) -> at_ p (literal_words neg IntegerNode (RawLiteral v) ++ r) ->
  yields (parseLiteralIn (S fuel) p) r (fun x => same x (LiteralNode IntegerNode (RawLiteral v) s)).
Proof.
  cbn [ParserRound.leaf literal_words]. intros Hv Hp. unfold number_words in Hp.
  assert (signed (int_value v <? 0)%Z (Z.abs (int_value v)) = int_value v) as Hs by (unfold signed; case_bool; lia).
  destruct (int_value v <? 0)%Z; cbn [app] in Hp.
  - destruct (at_cons _ _ _ Hp) as (_ & Et & Hq & _). cbn [Parser.parseLiteralIn]. rewrite Et. cbn [fst].
    eapply yields_expect; [done|done|]. eapply yields_weaken; [apply (read_number _ (Z.abs (int_value v))); [exact Hq|lia]|].
    intros x Hx. unfold same. cbn [strip]. rewrite Hx. congruence.
  - destruct (at_cons _ _ _ Hp) as (_ & Et & _). cbn [Parser.parseLiteralIn]. rewrite Et. cbn [fst].
    eapply yields_weaken; [apply (read_number _ (Z.abs (int_value v))); [exact Hp|lia]|]. intros x Hx. unfold same. cbn [strip]. rewrite Hx. congruence.
Qed.

Lemma strtol_digits z : (0 <= z < 256)%Z -> strtol (digits z) 10 = z.
Proof.
  intros Hz. destruct (digits_ok z) as [Hv Hd]; [lia|]. unfold strtol.
  assert (forall ds, Forall decimal_digit ds -> run_of (fun c => is_some (literal_digit c 10)) ds = (ds, [])) as Hr.
  { clear. induction 1 as [|c ds Hc Hd IH]; [done|]. cbn [run_of].
    assert (is_some (literal_digit c 10) = true) as ->.
    { unfold literal_digit, decimal_digit in *. change (chr "0") with 48%Z. change (chr "9") with 57%Z.
      rewrite (proj2 (Z.leb_le _ _)), (proj2 (Z.leb_le _ _)) by lia. cbn [andb mbind option_bind].
      by rewrite (proj2 (Z.leb_gt _ _)) by lia. }
    by rewrite IH. }
  assert ((first (digits z) =? chr "-")%Z = false /\ (first (digits z) =? chr "+")%Z = false) as [-> ->].
  { destruct (digits z) as [|c ds]; [done|]. inversion_clear Hd as [|? ? Hc _]. unfold decimal_digit in Hc. cbn [first hd].
    change (chr "-") with 45%Z. change (chr "+") with 43%Z. lia. }
  cbn [orb]. change (10 =? 0)%Z with false. cbn [orb]. change ((10 =? 1)%Z || (36 <? 10)%Z) with false.
  rewrite (Hr _ Hd). cbn [fst]. rewrite Hv. lia.
Qed.

Lemma read_char c p r fuel s :
  (0 <= c < 256)%Z -> at_ p (literal_words neg CharacterNode (RawLiteral (VChar c)) ++ r) ->
  yields (parseLiteralIn (S fuel) p) r (fun x => same x (LiteralNode CharacterNode (RawLiteral (VChar c)) s)).
Proof.
  cbn [literal_words app]. intros Hc Hp. destruct (at_cons _ _ _ Hp) as (Ec & Et & Hq & Ek & _).
  cbn [Parser.parseLiteralIn]. rewrite Et. cbn [fst]. unfold parseChar. rewrite Ec, Ek. cbn [snd next_type fst].
  change (bool_decide (bytes_of_string "$<" = bytes_of_string "$<")) with true. cbn [andb bool_decide].
  rewrite (bool_decide_eq_true_2 (TOKEN_DIGIT = TOKEN_DIGIT)) by done. cbn [andb].
  destruct (digits_ok c) as [_ Hd]; [lia|]. destruct (at_cons _ _ _ Hq) as (Ec2 & _ & Hq2 & _). cbn [snd] in Ec2.
  eapply yields_catch.
  - unfold parseInteger. rewrite Ec2.
    rewrite (digits_no _ _ Hd) by (unfold decimal_digit; vm_compute; intuition discriminate).
    apply (yields_ret _ _ _ (fun v => v = c)); [by apply strtol_digits|done].
  - intros v q -> Hv. eapply yields_skip; [done|done|]. intros q2 Hq3. cbn [unchecked mbind run_bind].
    apply yields_ret; [|done]. unfold same. cbn. by rewrite u8_id by lia.
Qed.

(** The constants may stand in an array but do not start a literal. *)
Definition constant (n : Node) : bool :=
  match n with LiteralNode (NilNode | TrueNode | FalseNode) _ _ => true | _ => false end.

Lemma read_leaf class v s p r fuel :
  literal (LiteralNode class v s) = true -> constant (LiteralNode class v s) = false -> leaf class v ->
  at_ p (literal_words neg class v ++ r) ->
  yields (parseLiteralIn (S fuel) p) r (fun x => same x (LiteralNode class v s)).
Proof.
  intros Hl Hc Hv Hp.
  destruct class, v as [str|[i|o|c|b]]; try done; try (by eapply read_integer); try (by eapply read_char).
  - destruct (at_cons _ _ _ Hp) as (_ & Et & _). cbn [Parser.parseLiteralIn]. rewrite Et. cbn [fst].
    unfold parseSymbol. eapply yields_next_expect; [exact Hp|done|]. intros q Hq. destruct (at_cons _ _ _ Hq) as (Ec & Et2 & Hq2 & _).
    rewrite Et2. cbn [fst]. rewrite decide_False by done. apply yields_ret; [|done]. rewrite Ec. done.
  - destruct (at_cons _ _ _ Hp) as (Ec & Et & Hq & _). cbn [Parser.parseLiteralIn]. rewrite Et. cbn [fst].
    apply yields_ret; [|done]. rewrite Ec. done.
Qed.

(** The words of an array item. *)
Lemma words_literal n :
  literal n = true -> leaves n ->
  if constant n then exists c s src, n = LiteralNode c (StringValue s) src /\ constantClass s = Some c /\ words n = [(TOKEN_IDENTIFIER, s)]
  else exists w l, words n = w :: l /\ isArrayLiteral (mkTok w.1 w.2 0 0 0 false) = true.
Proof.
  destruct n as [c v src|items src| | |]; [|by intros; eexists _, _|done..].
  intros Hl Hv. destruct c, v as [s|[i|o|ch|b]]; try done; cbn in Hl;
    try (apply bool_decide_eq_true in Hl; by eexists _, _, _); cbn [constant]; try (by eexists _, _);
    unfold words; cbn [ParserRound.words literal_words]; unfold number_words; destruct (_ <? 0)%Z; by eexists _, _.
Qed.

Lemma isArrayLiteral_type p w l :
  at_ p (w :: l) -> isArrayLiteral (currentToken p) = isArrayLiteral (mkTok w.1 w.2 0 0 0 false) /\
  (isArrayLiteral (currentToken p) = true -> currentType p <> TOKEN_IDENTIFIER).
Proof.
  intros Hp. destruct (at_cons _ _ _ Hp) as (_ & Et & _). unfold isArrayLiteral, currentType in *. rewrite Et. cbn.
  split; [done|]. by destruct w.1.
Qed.

Lemma read_item n p r fuel :
  literal n = true -> leaves n -> at_ p (words n ++ r) ->
  (constant n = false -> yields (parseLiteralIn fuel p) r (fun x => same x n)) ->
  exists x q, parseArrayLiteral (parseLiteralIn fuel) p = Done (Some x, q) /\ same x n /\ at_ q r.
Proof.
  intros Hl Hv Hp Hrec. pose proof (words_literal n Hl Hv) as Hw. unfold parseArrayLiteral. destruct (constant n).
  - destruct Hw as (c & s & src & -> & Hc & Hw). rewrite Hw in Hp. destruct (at_cons _ _ _ Hp) as (Ec & Et & Hq & _).
    rewrite decide_True by exact Et. rewrite Ec. cbn [snd]. rewrite Hc. by eexists _, _.
  - destruct Hw as (w & l & Hw & Ha). rewrite Hw in Hp. destruct (isArrayLiteral_type _ _ _ Hp) as [Et Hn]. rewrite Et, Ha in *.
    rewrite decide_False by (by apply Hn). by destruct (Hrec eq_refl) as (x & q & E & A & B); exists x, q.
Qed.

Lemma read_items items items0 p r fuel n :
  Forall (fun e => literal e = true /\ leaves e) items -> at_ p (concat (words <$> items) ++ close_ :: r) -> left_ p < n ->
  (forall e q r', e ∈ items -> constant e = false -> at_ q (words e ++ r') ->
     yields (parseLiteralIn fuel q) r' (fun x => same x e)) ->
  exists xs q, arrayItems (parseLiteralIn fuel) n items0 p = Done (items0 ++ xs, q) /\
    strip <$> xs = strip <$> items /\ at_ q (close_ :: r).
Proof.
  intros Hi. revert items0 p n. induction Hi as [|e items [He Hv] Hi IH]; intros items0 p n Hp Hn Hrec; (destruct n as [|n]; [lia|]); cbn [arrayItems].
  - exists [], p. cbn in Hp. destruct (at_cons _ _ _ Hp) as (_ & Et & _). unfold parseArrayLiteral.
    unfold currentType in Et. rewrite decide_False by (by rewrite Et).
    replace (isArrayLiteral (currentToken p)) with false by (unfold isArrayLiteral; by rewrite Et).
    cbn. rewrite app_nil_r. done.
  - cbn [fmap list_fmap concat] in Hp. rewrite <- (assoc_L (++)) in Hp.
    destruct (read_item e p _ fuel He Hv Hp) as (x & q & -> & Hx & Hq).
    { intros Hc. eapply Hrec; [left|done|done]. }
    cbn [mbind run_bind]. pose proof (at_left _ _ Hp) as L1. pose proof (at_left _ _ Hq) as L2.
    assert (0 < length (words e)) as L0.
    { pose proof (words_literal e He Hv) as Hw. destruct (constant e);
        [destruct Hw as (? & ? & ? & _ & _ & ->)|destruct Hw as (? & ? & -> & _)]; cbn; lia. }
    rewrite length_app in L1.
    destruct (IH (items0 ++ [x]) q n Hq) as (xs & q' & E & A & B); [lia| |].
    { intros e' q' r' He' Hc Hq'. eapply Hrec; [by right|done|done]. }
    exists (x :: xs), q'. rewrite E, <- (assoc_L (++)). split; [done|]. split; [|done]. cbn. by rewrite A, Hx.
Qed.

Lemma item_length (f : Node -> list Word) e items : e ∈ items -> length (f e) <= length (concat (f <$> items)).
Proof.
  induction items as [|x items IH]; intros He; [by apply list.not_elem_of_nil in He|].
  apply list.elem_of_cons in He as [->|He]; cbn [fmap list_fmap concat]; rewrite length_app; [lia|]. specialize (IH He). cbn in *. lia.
Qed.

Lemma read_literal fuel n p r :
  literal n = true -> constant n = false -> leaves n -> length (words n) <= fuel -> at_ p (words n ++ r) ->
  yields (parseLiteralIn fuel p) r (fun x => same x n).
Proof.
  revert n p r. induction fuel as [|fuel IH]; intros n p r Hl Hc Hv Hle Hp.
  { pose proof (words_literal n Hl Hv) as Hw. rewrite Hc in Hw. destruct Hw as (w & l & Hw & _). rewrite Hw in Hle. cbn in Hle. lia. }
  destruct n as [c v s|items s| | |]; [by apply read_leaf| |done..].
  cbn [ParserRound.words app] in Hp, Hle. cbn [length] in Hle. rewrite length_app in Hle. cbn [length] in Hle.
  destruct (at_cons _ _ _ Hp) as (_ & Et & Hq & _). cbn [Parser.parseLiteralIn]. rewrite Et. cbn [fst]. unfold parseArray.
  rewrite <- (assoc_L (++)) in Hq. cbn [app] in Hq.
  assert (Forall (fun e => literal e = true /\ leaves e) items) as Hi.
  { cbn [literal ParserRound.leaves] in Hl, Hv. rewrite all_forall in Hv. rewrite forallb_forall in Hl.
    rewrite Forall_forall in Hv |- *. intros e He. split; [|by apply Hv]. apply Hl. by apply list_elem_of_In. }
  destruct (read_items items [] (nextToken p) r fuel (rounds (nextToken p)) Hi Hq) as (xs & q & E & A & B).
  - unfold rounds, left_. lia.
  - intros e q r' He Hce Hq'. pose proof (item_length words e items He) as Hlen.
    rewrite Forall_forall in Hi. destruct (Hi e He) as [H1 H2]. apply IH; [done|done|done|lia|done].
  - rewrite E. cbn [mbind run_bind app]. eapply yields_skip; [done|done|]. intros q2 Hq2. apply yields_ret; [|done].
    unfold same. cbn. by rewrite A.
Qed.
End Reading.

(** ** Selectors *)

Lemma keywords_concat s : concat (keywords s) = s.
Proof.
  induction s as [|c s IH]; [done|]. cbn [keywords]. destruct (c =? colon)%Z; [cbn; by rewrite IH|].
  destruct (keywords s) as [|k ks]; cbn in *; [by rewrite <- IH|by rewrite IH].
Qed.

Lemma keywords_length s : last s = Some colon -> length (keywords s) = arity s /\ keywords s <> [].
Proof.
  intros Hl. unfold arity. rewrite decide_True by done. induction s as [|c s IH]; [done|]. cbn [keywords].
  destruct s as [|d s].
  - cbn in Hl. injection Hl as ->. done.
  - change (last (d :: s) = Some colon) in Hl. destruct (IH Hl) as [IH1 IH2]. destruct (Z.eqb_spec c colon) as [->|Hc].
    + rewrite filter_cons_True by done. cbn [length]. by rewrite IH1.
    + rewrite filter_cons_False by done. destruct (keywords (d :: s)); [done|]. by rewrite <- IH1.
Qed.

Lemma op_type_special s : isOneOf (op_type s) SPECIAL_CHARS_TOKENS = true.
Proof. unfold op_type. by repeat case_decide. Qed.

(** What may not come next, for an operand or a statement to end here. *)
Definition ends_unary (r : list Word) : Prop := next_type r <> TOKEN_IDENTIFIER.
Definition ends_binary (r : list Word) : Prop := ends_unary r /\ isOneOf (next_type r) SPECIAL_CHARS_TOKENS = false.
Definition ends_keyword (r : list Word) : Prop := ends_binary r /\ next_type r <> TOKEN_KEYWORD.
Definition ends_statement (r : list Word) : Prop :=
  ends_keyword r /\ next_type r <> TOKEN_SEMICOLON /\ next_type r <> TOKEN_ASSIGN.

Section Sends.
Context `{NativeOrder} (pos neg : RawClass).

#[local] Notation words := (words neg).
#[local] Notation operand := (operand neg).
#[local] Notation leaves := (leaves pos neg).

(** The first word of an operand: one that starts an expression, and a name
    only when it is the whole operand. *)
Definition starts (w : Word) : bool :=
  isExpression (mkTok w.1 w.2 0 0 0 false) && negb (bool_decide (w.1 = TOKEN_RETURN)).

Lemma operand_first a :
  value a = true -> leaves a ->
  exists w l, operand a = w :: l /\ starts w = true /\ (w.1 = TOKEN_IDENTIFIER -> l = []).
Proof.
  intros Ha Hv. destruct a as [c v s|items s|args vs es s|ret asg rcv ms s|sel args s]; [|by eexists _, _..|done].
  cbn [ParserRound.operand ParserRound.words]. destruct c, v as [str|[i|o|ch|b]]; try done; cbn [literal_words];
    try (by eexists _, _); unfold number_words; destruct (_ <? 0)%Z; by eexists _, _.
Qed.

(** A message and the sizes of its arguments. *)
Definition fits (n : nat) (args : list Node) : Prop :=
  Forall (fun a => value a = true /\ leaves a /\ length (operand a) <= n) args.

Definition pair_words (args : list Node) (ks : list (list Z)) : list Word :=
  concat (zip_with (fun a k => (TOKEN_KEYWORD, k) :: operand a) args ks).

Lemma message_cases m :
  message m = true -> leaves m ->
  exists sel args s, m = MessageExpressionNode sel args s /\ Forall (fun a => value a = true /\ leaves a) args /\
  ( (last sel = Some colon /\ length args = length (keywords sel) /\ keywords sel <> [] /\
     words m = pair_words args (keywords sel))
  \/ (args = [] /\ words m = [(TOKEN_IDENTIFIER, sel)])
  \/ (exists a, args = [a] /\ words m = (op_type sel, sel) :: operand a)).
Proof.
  destruct m as [| | | |sel args s]; try done. cbn [message]. intros [Ha Hv]%andb_true_iff Hl. apply Nat.eqb_eq in Ha.
  exists sel, args, s. split; [done|]. split.
  { cbn [ParserRound.leaves] in Hl. rewrite all_forall in Hl. rewrite forallb_forall in Hv. rewrite Forall_forall in Hl |- *.
    intros a Hin. split; [apply Hv; by apply list_elem_of_In|by apply Hl]. }
  cbn [ParserRound.words]. destruct (decide (last sel = Some colon)) as [Hc|Hc].
  - left. destruct (keywords_length sel Hc) as [K1 K2]. split_and!; [done|congruence|done|done].
  - right. unfold arity in Ha. rewrite decide_False in Ha by done. destruct (isIdentifierBegining (first sel)).
    + left. split; [by destruct args|done].
    + right. destruct args as [|a [|]]; [done| |done]. exists a. split; [done|]. cbn. by rewrite app_nil_r.
Qed.

Lemma pair_length args ks a :
  length args = length ks -> a ∈ args -> length (operand a) <= length (pair_words args ks).
Proof.
  intros Hl. revert ks Hl. induction args as [|b args IH]; intros ks Hl Ha; [by apply list.not_elem_of_nil in Ha|].
  destruct ks as [|k ks]; [done|]. unfold pair_words. cbn [zip_with concat]. rewrite length_app. cbn [length].
  apply list.elem_of_cons in Ha as [->|Ha]; [lia|]. injection Hl as Hl. specialize (IH ks Hl Ha). unfold pair_words in IH. lia.
Qed.

Lemma message_fits n m sel args s :
  m = MessageExpressionNode sel args s -> message m = true -> leaves m -> length (words m) <= n -> fits n args.
Proof.
  intros -> Hm Hl Hn. destruct (message_cases _ Hm Hl) as (sel' & args' & s' & E & Hf & Hc). injection E as <- <- <-.
  unfold fits. rewrite Forall_forall in Hf |- *. intros a Ha. destruct (Hf a Ha) as [H1 H2]. split_and!; [done|done|].
  destruct Hc as [(_ & Hlen & _ & Hw)|[(-> & _)|(b & -> & Hw)]].
  - pose proof (pair_length args (keywords sel) a Hlen Ha). rewrite Hw in Hn. lia.
  - by apply list.not_elem_of_nil in Ha.
  - apply list_elem_of_singleton in Ha as ->. rewrite Hw in Hn. cbn in Hn. lia.
Qed.

(** ** Sends *)

Context (prim : P Node) (n : nat).
Context (Hprim : forall a p r, value a = true -> leaves a -> length (operand a) <= n -> at_ p (operand a ++ r) ->
  yields (prim p) r (fun x => same x a)).

Lemma read_unaryObject a p r :
  value a = true -> leaves a -> length (operand a) <= n -> ends_unary r -> at_ p (operand a ++ r) ->
  yields (parseUnaryObject prim p) r (fun x => same x a).
Proof.
  intros Ha Hv Hn Hr Hp. eapply yields_catch; [by apply Hprim|]. intros x q Hx Hq. cbn [unchecked mbind run_bind].
  unfold rounds. cbn [unaryMessages]. rewrite decide_False by (by rewrite (at_type _ _ Hq)). by apply yields_ret.
Qed.

Lemma read_binaryObject a p r :
  value a = true -> leaves a -> length (operand a) <= n -> ends_binary r -> at_ p (operand a ++ r) ->
  yields (parseBinaryObject prim p) r (fun x => same x a).
Proof.
  intros Ha Hv Hn [Hr Hs] Hp. eapply yields_catch; [by apply read_unaryObject|]. intros x q Hx Hq. cbn [unchecked mbind run_bind].
  unfold rounds. cbn [binaryMessages]. rewrite (at_type _ _ Hq), Hs. by apply yields_ret.
Qed.

Lemma read_unaryExpression sel p r :
  at_ p ((TOKEN_IDENTIFIER, sel) :: r) ->
  yields (parseUnaryExpression p) r (fun x => strip x = MessageExpressionNode sel [] NilField).
Proof.
  intros Hp. destruct (at_cons _ _ _ Hp) as (Ec & _ & Hq & _). unfold parseUnaryExpression. apply yields_ret; [|done].
  rewrite Ec. done.
Qed.

Lemma read_binaryExpression sel a p r :
  value a = true -> leaves a -> length (operand a) <= n -> ends_unary r -> at_ p ((op_type sel, sel) :: operand a ++ r) ->
  yields (parseBinaryExpression prim p) r (fun x => strip x = MessageExpressionNode sel [strip a] NilField).
Proof.
  intros Ha Hv Hn Hr Hp. destruct (at_cons _ _ _ Hp) as (Ec & _ & Hq & _). unfold parseBinaryExpression.
  eapply yields_catch; [by apply read_unaryObject|]. intros x q Hx Hq'. cbn [ordCollAddObject unchecked mbind run_bind app].
  apply yields_ret; [|done]. rewrite Ec. cbn. by rewrite Hx.
Qed.

Lemma read_keywordPairs args ks args0 st acc p r fuel :
  length args = length ks -> fits n args -> ends_keyword r -> holds st acc -> left_ p < fuel ->
  at_ p (pair_words args ks ++ r) ->
  yields (keywordPairs prim fuel st args0 p) r
    (fun x => holds (fst x) (acc ++ concat ks) /\ exists xs, snd x = args0 ++ xs /\ strip <$> xs = strip <$> args).
Proof.
  revert ks args0 st acc p fuel. induction args as [|a args IH]; intros ks args0 st acc p fuel Hlen Hf Hr Hst Hfu Hp;
    (destruct ks as [|k ks]; [|]; try done); (destruct fuel as [|fuel]; [lia|]); cbn [keywordPairs].
  - cbn in Hp. rewrite decide_False by (rewrite (at_type _ _ Hp); apply Hr). apply yields_ret; [|done].
    cbn. rewrite app_nil_r. split; [done|]. exists []. by rewrite app_nil_r.
  - injection Hlen as Hlen. apply list.Forall_cons in Hf as [(Ha & Hv & Hn) Hf'].
    unfold pair_words in Hp. cbn [zip_with concat app] in Hp. rewrite <- (assoc_L (++)) in Hp.
    destruct (at_cons _ _ _ Hp) as (Ec & Et & Hq & _ & Hlp). rewrite Et, Ec. cbn [fst snd]. rewrite decide_True by done.
    destruct (appendKeyword_ok k st acc Hst) as (st' & E & Hst'). rewrite E. cbn [mbind run_bind].
    fold (pair_words args ks) in Hq.
    assert (ends_binary (pair_words args ks ++ r)) as Hb.
    { destruct args as [|b args], ks as [|k' ks]; try done. apply Hr. }
    eapply yields_catch; [by apply (read_binaryObject a)|].
    intros x q Hx Hq'. cbn [ordCollAddObject unchecked mbind run_bind].
    pose proof (at_left _ _ Hq') as L2. rewrite length_app in Hlp.
    eapply yields_weaken; [apply (IH ks (args0 ++ [x]) st' (acc ++ k) q fuel Hlen Hf' Hr Hst'); [|done]|].
    + fold (pair_words args ks) in Hlp. lia.
    + intros [st2 args2] (A & xs & B & D). cbn [fst snd] in *. cbn [concat]. rewrite (assoc_L (++)). split; [done|].
      exists (x :: xs). rewrite B, <- (assoc_L (++)). split; [done|]. cbn. by rewrite D, Hx.
Qed.

Lemma read_keywordExpression sel args p r :
  length args = length (keywords sel) -> fits n args -> ends_keyword r ->
  at_ p (pair_words args (keywords sel) ++ r) ->
  yields (parseKeywordExpression prim p) r (fun x => strip x = MessageExpressionNode sel (strip <$> args) NilField).
Proof.
  intros Hlen Hf Hr Hp. unfold parseKeywordExpression.
  destruct (read_keywordPairs args (keywords sel) [] (newString 64, 0) [] p r (rounds p) Hlen Hf Hr holds_new
    ltac:(unfold rounds, left_; lia) Hp) as ([[buf size] xs] & q & E & (A & ys & B & D) & Hq).
  rewrite E. cbn [mbind run_bind]. apply yields_ret; [|done]. cbn [fst snd] in *. subst xs.
  pose proof (holds_resized (buf, size) _ A) as R. cbn [fst snd app] in R. rewrite keywords_concat in R.
  unfold createMessageExpressionNode. cbn [strip app]. by rewrite R, D.
Qed.

(** One message, wherever it may stand. *)
Lemma read_cascadeExpression m p r :
  message m = true -> leaves m -> length (words m) <= n -> ends_keyword r -> at_ p (semicolon :: words m ++ r) ->
  yields (parseCascadeExpression prim p) r (fun x => same x m).
Proof.
  intros Hm Hl Hn Hr Hp. destruct (message_cases m Hm Hl) as (sel & args & s & E & Hf & Hc).
  pose proof (message_fits n m sel args s E Hm Hl Hn) as Hfit. destruct (at_cons _ _ _ Hp) as (_ & _ & Hq & _).
  unfold parseCascadeExpression. rewrite (at_type _ _ Hq). unfold same. subst m. cbn [strip].
  destruct Hc as [(Hcol & Hlen & Hne & Hw)|[(-> & Hw)|(a & -> & Hw)]]; rewrite Hw in Hq |- *.
  - assert (next_type (pair_words args (keywords sel) ++ r) = TOKEN_KEYWORD) as ->
      by (by destruct args, (keywords sel)).
    by apply read_keywordExpression.
  - cbn [app next_type fst]. by apply read_unaryExpression.
  - cbn [app next_type fst]. apply list.Forall_cons in Hfit as [(H1 & H2 & H3) _].
    pose proof (op_type_special sel) as Hs. eapply (read_binaryExpression sel a _ _ H1 H2 H3) in Hq; [|apply Hr].
    by destruct (op_type sel).
Qed.

Lemma read_cascades ms ms0 p r fuel :
  Forall (fun m => message m = true /\ leaves m /\ length (words m) <= n) ms -> ends_statement r -> left_ p < fuel ->
  at_ p (concat ((fun m => semicolon :: words m) <$> ms) ++ r) ->
  yields (cascades prim fuel ms0 p) r (fun xs => exists ys, xs = ms0 ++ ys /\ strip <$> ys = strip <$> ms).
Proof.
  revert ms0 p fuel. induction ms as [|m ms IH]; intros ms0 p fuel Hms Hr Hfu Hp; (destruct fuel as [|fuel]; [lia|]); cbn [cascades].
  - cbn in Hp. rewrite decide_False by (rewrite (at_type _ _ Hp); apply Hr). apply yields_ret; [|done].
    exists []. by rewrite app_nil_r.
  - cbn [fmap list_fmap concat app] in Hp. rewrite <- (assoc_L (++)) in Hp. apply list.Forall_cons in Hms as [(H1 & H2 & H3) Hms].
    destruct (at_cons _ _ _ Hp) as (_ & Et & _ & _ & Hl). rewrite decide_True by exact Et.
    eapply yields_catch; [apply (read_cascadeExpression m); try done|].
    + destruct ms as [|m' ms']; [cbn; apply Hr|by split].
    + intros x q Hx Hq. cbn [ordCollAddObject unchecked mbind run_bind]. pose proof (at_left _ _ Hq) as L2.
      rewrite length_app in Hl.
      eapply yields_weaken; [apply (IH (ms0 ++ [x]) q fuel Hms Hr); [lia|done]|].
      intros xs (ys & -> & E). exists (x :: ys). rewrite <- (assoc_L (++)). split; [done|]. cbn. by rewrite E, Hx.
Qed.

Lemma separated_semicolon m ms :
  separated semicolon (words <$> m :: ms) = words m ++ concat ((fun m => semicolon :: words m) <$> ms).
Proof.
  revert m. induction ms as [|m' ms IH]; intros m; [cbn; by rewrite app_nil_r|].
  change (separated semicolon (words <$> m :: m' :: ms)) with (words m ++ semicolon :: separated semicolon (words <$> m' :: ms)).
  rewrite IH. done.
Qed.

Lemma unaryMessages_stop fuel a p r : at_ p r -> ends_unary r -> 0 < fuel -> unaryMessages fuel a p = Done (Some a, p).
Proof. intros Hp Hr Hf. destruct fuel; [lia|]. cbn. by rewrite decide_False by (by rewrite (at_type _ _ Hp)). Qed.

Lemma binaryMessages_stop fuel a p r : at_ p r -> ends_binary r -> 0 < fuel -> binaryMessages prim fuel a p = Done (Some a, p).
Proof. intros Hp Hr Hf. destruct fuel; [lia|]. cbn. by rewrite (at_type _ _ Hp), (proj2 Hr). Qed.

(** An operand followed by a unary message, and by a binary one. *)
Lemma read_unarySend rcv sel p r :
  value rcv = true -> leaves rcv -> length (operand rcv) <= n -> ends_binary r ->
  at_ p (operand rcv ++ (TOKEN_IDENTIFIER, sel) :: r) ->
  yields (parseBinaryObject prim p) r (fun x => exists y z s, x = ExpressionNode false [] y [z] s /\ same y rcv /\
    strip z = MessageExpressionNode sel [] NilField).
Proof.
  intros Hv Hl Hn Hr Hp.
  eapply (yields_catch _ _ _ r _ (fun x => exists y z s, x = ExpressionNode false [] y [z] s /\ same y rcv /\
    strip z = MessageExpressionNode sel [] NilField)).
  - eapply yields_catch; [by apply (Hprim rcv)|]. intros y q Hy Hq. cbn [unchecked mbind run_bind].
    destruct (at_cons _ _ _ Hq) as (_ & Et & _ & _ & Hlq). unfold rounds. unfold left_ in Hlq. rewrite Hlq.
    assert (0 < S (length r)) as Hfuel by lia. revert Hfuel. generalize (S (length r)) as fuel. intros fuel Hfuel. cbn [unaryMessages].
    rewrite decide_True by exact Et. eapply yields_catch; [by apply read_unaryExpression|].
    intros z q2 Hz Hq2. cbn [unchecked mbind run_bind].
    rewrite (unaryMessages_stop _ _ q2 r) by (done || apply Hr || lia). apply yields_ret; [|done]. by eexists _, _, _.
  - intros x q Hx Hq. cbn [unchecked mbind run_bind]. rewrite (binaryMessages_stop _ _ q r) by (done || unfold rounds; lia).
    by apply yields_ret.
Qed.

Lemma read_binarySend rcv sel a p r :
  value rcv = true -> leaves rcv -> length (operand rcv) <= n -> ends_binary r ->
  value a = true -> leaves a -> length (operand a) <= n ->
  at_ p (operand rcv ++ (op_type sel, sel) :: operand a ++ r) ->
  yields (parseBinaryObject prim p) r (fun x => exists y z s, x = ExpressionNode false [] y [z] s /\ same y rcv /\
    strip z = MessageExpressionNode sel [strip a] NilField).
Proof.
  intros Hv Hl Hn Hr Ha1 Ha2 Ha3 Hp. eapply yields_catch.
  - apply (read_unaryObject rcv); try done. pose proof (op_type_special sel) as Hs. unfold ends_unary. cbn.
    by intros E; rewrite E in Hs.
  - intros y q Hy Hq. cbn [unchecked mbind run_bind]. destruct (at_cons _ _ _ Hq) as (_ & Et & _ & _ & Hlq).
    unfold rounds. unfold left_ in Hlq. rewrite Hlq.
    assert (0 < S (length (operand a ++ r))) as Hfuel by lia. revert Hfuel. generalize (S (length (operand a ++ r))) as fuel.
    intros fuel Hfuel. cbn [binaryMessages]. rewrite Et. cbn [fst]. rewrite op_type_special.
    eapply yields_catch; [apply (read_binaryExpression sel a); try done; apply Hr|].
    intros z q2 Hz Hq2. cbn [unchecked mbind run_bind].
    rewrite (binaryMessages_stop _ _ q2 r) by (done || lia). apply yields_ret; [|done]. by eexists _, _, _.
Qed.

Lemma same_expression x e : same x e -> isExpressionNode x = isExpressionNode e.
Proof. unfold same. by destruct x, e. Qed.

(** The receiver and first message of a statement, up to its cascades. *)
Lemma reads_message_send {B} rcv ms p r (k : option (Node * list Node) -> P B) R :
  value rcv = true -> leaves rcv -> length (operand rcv) <= n ->
  Forall (fun m => message m = true /\ leaves m /\ length (words m) <= n) ms ->
  (isExpressionNode rcv = true -> nonempty ms = true) -> ends_statement r ->
  at_ p (operand rcv ++ separated semicolon (words <$> ms) ++ r) ->
  (forall y zs q, same y rcv -> strip <$> zs = strip <$> take 1 ms ->
     at_ q (concat ((fun m => semicolon :: words m) <$> drop 1 ms) ++ r) -> yields (k (Some (y, zs)) q) r R) ->
  yields (CATCH (parseBinaryObject prim) (fun receiver p =>
            receiver ← unchecked receiver; CATCH (statementMessages prim receiver) k p) p) r R.
Proof.
  intros Hv Hl Hn Hms Hne Hr Hp Hk. destruct ms as [|m ms].
  { cbn [fmap list_fmap separated app] in Hp. eapply yields_catch; [apply (read_binaryObject rcv); try done; apply Hr|].
    intros x q Hx Hq. cbn [unchecked mbind run_bind].
    assert (statementMessages prim x q = Done (Some (x, []), q)) as E.
    { unfold statementMessages. rewrite decide_False by (rewrite (at_type _ _ Hq); apply Hr).
      pose proof (same_expression _ _ Hx) as Hi. destruct x; try done. symmetry in Hi. by specialize (Hne Hi). }
    eapply (yields_catch _ _ _ r _ (fun y => y = (x, []))); [rewrite E; by apply yields_ret|]. intros y q' -> Hq'. by apply Hk. }
  rewrite separated_semicolon, <- !(assoc_L (++)) in Hp. apply list.Forall_cons in Hms as [(H1 & H2 & H3) Hms].
  cbn [drop] in Hk. set (rest := concat ((fun m => semicolon :: words m) <$> ms) ++ r) in *.
  assert (ends_keyword rest) as Hkw by (unfold rest; destruct ms as [|m' ms']; [cbn; apply Hr|by split]).
  destruct (message_cases m H1 H2) as (sel & args & s & -> & Hf & Hc).
  pose proof (message_fits n _ sel args s eq_refl H1 H2 H3) as Hfit.
  assert (forall x, (exists y z s', x = ExpressionNode false [] y [z] s' /\ same y rcv /\
      strip z = MessageExpressionNode sel (strip <$> args) NilField) -> forall q, at_ q rest ->
      yields (CATCH (statementMessages prim x) k q) r R) as Hflat.
  { intros x (y & z & s' & -> & Hy & Hz) q Hq.
    eapply (yields_catch _ _ _ rest _ (fun u => u = (y, [z]))).
    - unfold statementMessages. rewrite decide_False by (rewrite (at_type _ _ Hq); apply Hkw). by apply yields_ret.
    - intros u q' -> Hq'. apply Hk; [done| |done]. cbn. by rewrite Hz. }
  destruct Hc as [(Hcol & Hlen & Hkn & Hw)|[(-> & Hw)|(a & -> & Hw)]]; rewrite Hw in Hp.
  - eapply yields_catch; [apply (read_binaryObject rcv); try done; by destruct args, (keywords sel)|].
    intros x q Hx Hq. cbn [unchecked mbind run_bind].
    eapply (yields_catch _ _ _ rest _ (fun u => exists z, u = (x, [z]) /\ strip z = MessageExpressionNode sel (strip <$> args) NilField)).
    + unfold statementMessages. rewrite decide_True by (rewrite (at_type _ _ Hq); by destruct args, (keywords sel)).
      eapply yields_catch; [by apply (read_keywordExpression sel args)|]. intros z q' Hz Hq'.
      cbn [ordCollAddObject unchecked mbind run_bind app]. apply yields_ret; [by exists z|done].
    + intros u q' (z & -> & Hz) Hq'. apply Hk; [done| |done]. cbn. by rewrite Hz.
  - eapply yields_catch; [apply (read_unarySend rcv sel); try done; apply Hkw|].
    intros x q Hx Hq. cbn [unchecked mbind run_bind]. by apply Hflat.
  - apply list.Forall_cons in Hfit as [(F1 & F2 & F3) _].
    eapply yields_catch; [apply (read_binarySend rcv sel a); try done; apply Hkw|].
    intros x q Hx Hq. cbn [unchecked mbind run_bind]. by apply Hflat.
Qed.

(** ** Statements and blocks *)

Lemma read_assigmentNames vars vars0 p l fuel :
  forallb variable vars = true -> left_ p < fuel ->
  at_ p (concat ((fun a => [name_word a; assign]) <$> vars) ++ l) ->
  ~ (next_type l = TOKEN_IDENTIFIER /\ next_type (tl l) = TOKEN_ASSIGN) ->
  exists xs q, assigmentNames fuel vars0 p = Done (vars0 ++ xs, q) /\ strip <$> xs = strip <$> vars /\ at_ q l.
Proof.
  revert vars0 p fuel. induction vars as [|v vars IH]; intros vars0 p fuel Hv Hfu Hp Hl; (destruct fuel as [|fuel]; [lia|]); cbn [assigmentNames].
  - cbn in Hp. exists [], p. rewrite app_nil_r. split; [|done].
    destruct (bool_decide (currentType p = _)) eqn:E1; [|done]. destruct (bool_decide (peekType p = _)) eqn:E2; [|done].
    exfalso. apply bool_decide_eq_true in E1, E2. apply Hl. rewrite (at_type _ _ Hp) in E1. split; [done|].
    destruct l as [|w l]; [done|]. destruct (at_cons _ _ _ Hp) as (_ & _ & _ & Ek & _). cbn [tl]. congruence.
  - cbn [forallb] in Hv. apply andb_true_iff in Hv as [H1 H2]. cbn [fmap list_fmap concat app] in Hp.
    destruct (at_cons _ _ _ Hp) as (_ & Et & _ & Ek & Hlen). rewrite Et, Ek. cbn [next_type fst name_word assign bool_decide].
    rewrite !bool_decide_eq_true_2 by done. cbn [andb].
    destruct (parseVariable_at p _ _ v Hp H1 eq_refl) as (x & -> & Hx & Hq).
    destruct (at_cons _ _ _ Hq) as (_ & _ & Hq2 & _ & Hlen2). pose proof (at_left _ _ Hq2). cbn [length] in Hlen.
    destruct (IH (vars0 ++ [x]) (nextToken (nextToken p)) fuel H2 ltac:(lia) Hq2 Hl) as (xs & q & E & A & B).
    exists (x :: xs), q. rewrite E, <- (assoc_L (++)). split; [done|]. split; [|done]. cbn. by rewrite A, Hx.
Qed.

Lemma message_length m ms : m ∈ ms -> length (words m) <= length (separated semicolon (words <$> ms)).
Proof.
  induction ms as [|x ms IH]; intros Hm; [by apply list.not_elem_of_nil in Hm|]. destruct ms as [|y ms].
  - apply list_elem_of_singleton in Hm as ->. done.
  - change (separated semicolon (words <$> x :: y :: ms)) with (words x ++ semicolon :: separated semicolon (words <$> y :: ms)).
    rewrite length_app. cbn [length]. apply list.elem_of_cons in Hm as [->|Hm]; [lia|]. specialize (IH Hm). lia.
Qed.

Lemma message_first m : message m = true -> leaves m ->
  exists w l, words m = w :: l /\ w.1 <> TOKEN_ASSIGN.
Proof.
  intros Hm Hl. destruct (message_cases m Hm Hl) as (sel & args & s & _ & _ & [(_ & Hlen & Hne & ->)|[(_ & ->)|(a & _ & ->)]]).
  - destruct args as [|a args], (keywords sel) as [|k ks]; try done. by eexists _, _.
  - by eexists _, _.
  - eexists _, _. split; [done|]. pose proof (op_type_special sel) as Hs. by intros E; cbn in E; rewrite E in Hs.
Qed.

Lemma read_expression e p r :
  statement e = true -> leaves e -> length (words e) <= n -> ends_statement r -> at_ p (words e ++ r) ->
  yields (parseExpression prim p) r (fun x => same x e).
Proof.
  unfold statement. intros [Hi He]%andb_true_iff Hl Hn Hr Hp. destruct e as [| | |ret asg rcv ms s|]; try done.
  apply value_parts in He as (Ha & Hv & Hms & Hne). cbn [ParserRound.leaves] in Hl. destruct Hl as [Hlr Hlm].
  cbn [ParserRound.words] in Hn, Hp. fold (operand rcv) in Hn, Hp. rewrite !length_app in Hn.
  rewrite <- !(assoc_L (++)) in Hp.
  set (rest := operand rcv ++ separated semicolon (words <$> ms) ++ r) in *.
  destruct (operand_first rcv Hv Hlr) as (w & l & Hw & Hst & Hid).
  assert (Forall (fun m => message m = true /\ leaves m /\ length (words m) <= n) ms) as HM.
  { rewrite all_forall in Hlm. rewrite forallb_forall in Hms. rewrite Forall_forall in Hlm |- *. intros m Hm.
    pose proof (message_length m ms Hm). split_and!; [apply Hms; by apply list_elem_of_In|by apply Hlm|lia]. }
  assert (~ (next_type rest = TOKEN_IDENTIFIER /\ next_type (tl rest) = TOKEN_ASSIGN)) as Hstop.
  { unfold rest. rewrite Hw. cbn [app next_type tl]. intros [E1 E2]. specialize (Hid E1). subst l. cbn [app] in E2.
    destruct ms as [|m ms]; [cbn in E2; by apply Hr in E2|]. rewrite separated_semicolon in E2.
    apply list.Forall_cons in HM as [(M1 & M2 & _) _]. destruct (message_first m M1 M2) as (w' & l' & Hw' & Hna).
    rewrite Hw' in E2. done. }
  set (names := concat ((fun a => [name_word a; assign]) <$> asg)) in *.
  assert (bool_decide (currentType p = TOKEN_RETURN) = ret /\ at_ (if ret then nextToken p else p) (names ++ rest)) as [Eret Hp1].
  { destruct ret.
    - destruct (at_cons _ _ _ Hp) as (_ & Et & Hq & _). by rewrite Et.
    - split; [|done]. rewrite (at_type _ _ Hp). apply bool_decide_eq_false_2. cbn [app]. unfold names.
      destruct asg as [|v asg]; [|done]. cbn [fmap list_fmap concat app]. unfold rest. rewrite Hw. cbn [app next_type].
      unfold starts in Hst. apply andb_true_iff in Hst as [_ Hst]. apply negb_true_iff in Hst. by apply bool_decide_eq_false in Hst. }
  unfold parseExpression. rewrite Eret. eapply yields_catch.
  - unfold parseAssigments.
    destruct (read_assigmentNames asg [] (if ret then nextToken p else p) rest (rounds (if ret then nextToken p else p)) Ha)
      as (xs & q & E & A & B); [unfold rounds, left_; lia|done|done|].
    rewrite E. cbn [mbind run_bind app]. apply (yields_ret _ _ _ (fun xs => strip <$> xs = strip <$> asg)); done.
  - intros xs q Hxs Hq. eapply reads_message_send; try done; [lia|]. intros y zs q2 Hy Hzs Hq2. cbn [unchecked mbind run_bind].
    eapply yields_catch; [apply (read_cascades (drop 1 ms) zs); [by apply Forall_drop|done|unfold rounds, left_; lia|done]|].
    intros us q3 (vs & -> & Hus) Hq3. cbn [unchecked mbind run_bind]. apply yields_ret; [|done].
    unfold same. cbn [strip]. rewrite Hxs, Hy, fmap_app, Hzs, Hus, <- fmap_app, take_drop. done.
Qed.

(** The first word of a statement starts an expression. *)
Lemma statement_first e :
  statement e = true -> leaves e -> exists w l, words e = w :: l /\ isExpression (mkTok w.1 w.2 0 0 0 false) = true.
Proof.
  unfold statement. intros [Hi He]%andb_true_iff Hl. destruct e as [| | |ret asg rcv ms s|]; try done.
  apply value_parts in He as (Ha & Hv & _ & _). destruct Hl as [Hlr _]. cbn [ParserRound.words]. fold (operand rcv).
  destruct ret; [by eexists _, _|]. destruct asg as [|v asg]; [|by eexists _, _]. cbn [fmap list_fmap concat app].
  destruct (operand_first rcv Hv Hlr) as (w & l & -> & Hst & _). eexists _, _. split; [done|].
  unfold starts in Hst. by apply andb_true_iff in Hst as [Hst _].
Qed.

Lemma isExpression_at p w l : at_ p (w :: l) -> isExpression (currentToken p) = isExpression (mkTok w.1 w.2 0 0 0 false).
Proof. intros Hp. destruct (at_cons _ _ _ Hp) as (_ & Et & _). unfold isExpression, currentType in *. by rewrite Et. Qed.

Lemma read_statements es es0 p r fuel :
  forallb statement es = true -> returns_last es = true -> all leaves es ->
  length (separated dot (words <$> es)) <= n -> left_ p < fuel ->
  at_ p (separated dot (words <$> es) ++ close_square :: r) ->
  yields (statements prim fuel es0 p) (close_square :: r) (fun xs => exists ys, xs = es0 ++ ys /\ strip <$> ys = strip <$> es).
Proof.
  revert es0 p fuel. induction es as [|e es IH]; intros es0 p fuel Hs Hr Hl Hn Hfu Hp; (destruct fuel as [|fuel]; [lia|]); cbn [statements].
  - cbn in Hp. rewrite (isExpression_at _ _ _ Hp). apply yields_ret; [|done]. exists []. by rewrite app_nil_r.
  - cbn [forallb] in Hs. apply andb_true_iff in Hs as [He Hs]. destruct Hl as [Hle Hl].
    destruct (statement_first e He Hle) as (w & l & Hw & Hx).
    assert (isExpression (currentToken p) = true) as ->.
    { destruct es; cbn [fmap list_fmap separated] in Hp; rewrite Hw in Hp; by rewrite (isExpression_at _ _ _ Hp). }
    destruct es as [|e2 es].
    + cbn [fmap list_fmap separated] in Hp, Hn. eapply yields_catch; [apply (read_expression e); try done; by split_and!|].
      intros x q Hxe Hq. cbn [unchecked mbind run_bind]. cbv zeta. rewrite decide_False by (by rewrite (at_type _ _ Hq)).
      apply yields_ret; [|done]. exists [x]. split; [done|]. cbn. by rewrite Hxe.
    + change (separated dot (words <$> e :: e2 :: es)) with (words e ++ dot :: separated dot (words <$> e2 :: es)) in Hp, Hn.
      rewrite <- (assoc_L (++)) in Hp. cbn [app] in Hp. rewrite length_app in Hn. cbn [length] in Hn.
      eapply yields_catch; [apply (read_expression e); try done; [lia|by split_and!]|].
      intros x q Hxe Hq. cbn [unchecked mbind run_bind]. cbv zeta. destruct (at_cons _ _ _ Hq) as (_ & Et & Hq2 & _ & Hlq).
      rewrite decide_True by exact Et. cbn [returns_last] in Hr. apply andb_true_iff in Hr as [Hre Hr].
      assert (expressionNodeReturns x = false) as ->.
      { apply negb_true_iff in Hre. unfold same in Hxe. destruct x, e; try done. cbn in *. congruence. }
      pose proof (at_left _ _ Hp) as Lp. pose proof (at_left _ _ Hq2) as Lq. rewrite length_app in Lp. cbn [length] in Lp.
      eapply yields_weaken; [apply (IH (es0 ++ [x]) (nextToken q) fuel Hs Hr Hl); [lia|lia|done]|].
      intros xs (ys & -> & E). exists (x :: ys). rewrite <- (assoc_L (++)). split; [done|]. cbn [fmap list_fmap]. by rewrite E, Hxe.
Qed.

Lemma read_variables vars vars0 p l fuel :
  forallb variable vars = true -> left_ p < fuel -> at_ p ((name_word <$> vars) ++ l) -> ends_unary l ->
  exists xs q, variables fuel vars0 p = Done (vars0 ++ xs, q) /\ strip <$> xs = strip <$> vars /\ at_ q l.
Proof.
  revert vars0 p fuel. induction vars as [|v vars IH]; intros vars0 p fuel Hv Hfu Hp Hl; (destruct fuel as [|fuel]; [lia|]); cbn [variables].
  - cbn in Hp. rewrite decide_False by (by rewrite (at_type _ _ Hp)). exists [], p. by rewrite app_nil_r.
  - cbn [forallb] in Hv. apply andb_true_iff in Hv as [H1 H2]. cbn [fmap list_fmap app] in Hp.
    destruct (at_cons _ _ _ Hp) as (_ & Et & _ & _ & Hlen). rewrite decide_True by exact Et.
    destruct (parseVariable_at p _ _ v Hp H1 eq_refl) as (x & -> & Hx & Hq). pose proof (at_left _ _ Hq).
    destruct (IH (vars0 ++ [x]) (nextToken p) fuel H2 ltac:(lia) Hq Hl) as (xs & q & E & A & B).
    exists (x :: xs), q. rewrite E, <- (assoc_L (++)). split; [done|]. split; [|done]. cbn. by rewrite A, Hx.
Qed.

(** Variables between bars, written even when there are none. *)
Lemma read_barred vars p l :
  forallb variable vars = true -> at_ p (bar :: (name_word <$> vars) ++ bar :: l) ->
  yields (parseTempVars p) l (fun xs => strip <$> xs = strip <$> vars).
Proof.
  intros Hv Hp. destruct (at_cons _ _ _ Hp) as (_ & Et & Hq & _). unfold parseTempVars. rewrite decide_True by exact Et.
  destruct (read_variables vars [] (nextToken p) (bar :: l) (rounds (nextToken p)) Hv) as (xs & q & -> & A & B);
    [unfold rounds, left_; lia|done|done|].
  cbn [mbind run_bind app]. eapply yields_skip; [done|done|]. intros q2 Hq2. by apply yields_ret.
Qed.

Lemma read_tempVars vars p l :
  forallb variable vars = true -> next_type l <> TOKEN_VERTICAL_BAR -> at_ p (vars_words vars ++ l) ->
  yields (parseTempVars p) l (fun xs => strip <$> xs = strip <$> vars).
Proof.
  intros Hv Hl Hp. destruct vars as [|v vars].
  - cbn in Hp. unfold parseTempVars. rewrite decide_False by (by rewrite (at_type _ _ Hp)). by apply yields_ret.
  - unfold vars_words in Hp. cbn [app] in Hp. rewrite <- (assoc_L (++)) in Hp. by apply read_barred.
Qed.

Lemma read_blockArgs_loop args args0 p l fuel :
  forallb variable args = true -> left_ p < fuel ->
  at_ p (concat ((fun a => [(TOKEN_COLON, [colon]); name_word a]) <$> args) ++ bar :: l) ->
  yields (blockArgs fuel args0 p) l (fun xs => exists ys, xs = args0 ++ ys /\ strip <$> ys = strip <$> args).
Proof.
  revert args0 p fuel. induction args as [|v args IH]; intros args0 p fuel Hv Hfu Hp; (destruct fuel as [|fuel]; [lia|]); cbn [blockArgs].
  - cbn in Hp. rewrite decide_False by (by rewrite (at_type _ _ Hp)). eapply yields_skip; [done|done|].
    intros q Hq. apply yields_ret; [|done]. exists []. by rewrite app_nil_r.
  - cbn [forallb] in Hv. apply andb_true_iff in Hv as [H1 H2]. cbn [fmap list_fmap concat app] in Hp.
    destruct (at_cons _ _ _ Hp) as (_ & Et & _ & _ & Hlen). rewrite decide_True by exact Et.
    eapply yields_next_expect; [done|done|]. intros q Hq.
    destruct (parseVariable_at q _ _ v Hq H1 eq_refl) as (x & -> & Hx & Hq2). pose proof (at_left _ _ Hq2). cbn [length] in Hlen.
    eapply yields_weaken; [apply (IH (args0 ++ [x]) (nextToken q) fuel H2); [lia|done]|].
    intros xs (ys & -> & E). exists (x :: ys). rewrite <- (assoc_L (++)). split; [done|]. cbn. by rewrite E, Hx.
Qed.

Lemma read_blockArgs args p l :
  forallb variable args = true -> next_type l <> TOKEN_COLON -> at_ p (args_words args ++ l) ->
  yields (parseBlockArgs p) l (fun xs => strip <$> xs = strip <$> args).
Proof.
  intros Hv Hl Hp. unfold parseBlockArgs. destruct args as [|v args].
  - cbn in Hp. rewrite decide_False by (by rewrite (at_type _ _ Hp)). by apply yields_ret.
  - unfold args_words in Hp. rewrite <- (assoc_L (++)) in Hp. cbn [app] in Hp.
    rewrite decide_True by (by rewrite (at_type _ _ Hp)).
    eapply yields_weaken; [apply (read_blockArgs_loop (v :: args) [] p l (rounds p) Hv); [unfold rounds, left_; lia|done]|].
    by intros xs (ys & -> & E).
Qed.

(** The type of the first word of a body, which no [|], [:] or [<] starts. *)
Lemma body_first es r :
  forallb statement es = true -> all leaves es ->
  let l := separated dot (words <$> es) ++ close_square :: r in
  next_type l <> TOKEN_VERTICAL_BAR /\ next_type l <> TOKEN_COLON /\ next_type l <> TOKEN_LESS_THAN.
Proof.
  intros Hs Hl. destruct es as [|e es]; [done|]. cbn [forallb] in Hs. apply andb_true_iff in Hs as [He _]. destruct Hl as [Hle _].
  destruct (statement_first e He Hle) as (w & l & Hw & Hx).
  assert (next_type (separated dot (words <$> e :: es) ++ close_square :: r) = w.1) as E
    by (destruct es; cbn [fmap list_fmap separated]; rewrite Hw; done).
  cbv zeta. rewrite E. unfold isExpression in Hx. cbn in Hx. by destruct w.1.
Qed.

Lemma vars_first vars l ty :
  next_type l <> ty -> ty <> TOKEN_VERTICAL_BAR -> next_type (vars_words vars ++ l) <> ty.
Proof. intros H1 H2. destruct vars; cbn; congruence. Qed.

Lemma read_block args vars es s p r :
  value (BlockNode args vars es s) = true -> leaves (BlockNode args vars es s) ->
  length (words (BlockNode args vars es s)) <= S n -> at_ p (words (BlockNode args vars es s) ++ r) ->
  yields (parseBlockWith prim p) r (fun x => same x (BlockNode args vars es s)).
Proof.
  cbn [value ParserRound.leaves ParserRound.words]. intros [[[Ha Hv]%andb_true_iff Hs]%andb_true_iff Hrl]%andb_true_iff Hl Hn Hp.
  change (forallb statement es = true) in Hs. cbn [app length] in Hp, Hn. rewrite !length_app in Hn. cbn [length] in Hn.
  rewrite <- !(assoc_L (++)) in Hp. cbn [app] in Hp.
  destruct (body_first es r Hs Hl) as (B1 & B2 & _).
  unfold parseBlockWith. eapply yields_skip; [done|done|]. intros p1 Hp1.
  eapply yields_catch; [apply (read_blockArgs args); [done| |done]; by apply vars_first|]. intros xs p2 Hxs Hp2.
  eapply yields_catch; [by apply (read_tempVars vars)|]. intros ys p3 Hys Hp3.
  eapply yields_catch; [apply (read_statements es [] p3 r (rounds p3)); try done; [lia|unfold rounds, left_; lia]|].
  intros zs p4 (us & -> & Hzs) Hp4. eapply yields_skip; [done|done|]. intros p5 Hp5. cbn [unchecked mbind run_bind app].
  apply yields_ret; [|done]. unfold same. cbn [strip]. by rewrite Hxs, Hys, Hzs.
Qed.

Lemma read_bracketed e p r :
  isExpressionNode e = true -> value e = true -> leaves e -> length (operand e) <= S n -> at_ p (operand e ++ r) ->
  yields (parseBracketedStatement prim p) r (fun x => same x e).
Proof.
  intros Hi He Hl Hn Hp. destruct e; try done. cbn [ParserRound.operand] in Hp, Hn. cbn [app length] in Hp, Hn.
  rewrite <- (assoc_L (++)) in Hp. rewrite length_app in Hn. cbn [length] in Hn.
  unfold parseBracketedStatement. eapply yields_skip; [done|done|]. intros p1 Hp1.
  eapply yields_catch; [eapply read_expression; [by apply andb_true_iff|done|lia| |exact Hp1]; by split_and!|].
  intros x p2 Hx Hp2. eapply yields_skip; [done|done|]. intros p3 Hp3. by apply yields_ret.
Qed.
End Sends.

(** ** Programs *)

Definition nowhere : SourceCode := mkSourceCode [] SourceCodeKind 0 None 0 0.

Definition strip_method (m : MethodNode) : MethodNode :=
  mkMethodNode (methodClassName m) (methodSelector m) (strip <$> methodPragmas m) (strip (methodBody m)) nowhere.

Fixpoint strip_class (c : ClassNode) : ClassNode :=
  mkClassNode (strip (className c)) (strip <$> classSuperName c) ((fun l : list Node => strip <$> l) <$> classPragmas c)
    ((fun l : list Node => strip <$> l) <$> classVars c) ((fun l : list MethodNode => strip_method <$> l) <$> classMethods c) nowhere (classIsExtension c)
    (match classMembers c with Some l => Some (strip_class <$> l) | None => None end).

Section Programs.
Context `{NativeOrder} (pos neg sd bf : RawClass) (strtod : list Z -> Z) (double_bytes : Z -> list Z).

#[local] Notation words := (words neg).
#[local] Notation operand := (operand neg).
#[local] Notation leaves := (leaves pos neg).
#[local] Notation pair_words := (pair_words neg).
#[local] Notation parseLiteral := (parseLiteral pos neg sd bf strtod double_bytes).
#[local] Notation parsePrimaryIn := (parsePrimaryIn pos neg sd bf strtod double_bytes).
#[local] Notation parsePrimary := (parsePrimary pos neg sd bf strtod double_bytes).
#[local] Notation parseBlock := (parseBlock pos neg sd bf strtod double_bytes).
#[local] Notation pragmaPairs := (pragmaPairs pos neg sd bf strtod double_bytes).
#[local] Notation pragmaList := (pragmaList pos neg sd bf strtod double_bytes).
#[local] Notation parsePragmas := (parsePragmas pos neg sd bf strtod double_bytes).
#[local] Notation parseMethod := (parseMethod pos neg sd bf strtod double_bytes).
#[local] Notation methodList := (methodList pos neg sd bf strtod double_bytes).
#[local] Notation parseMethods := (parseMethods pos neg sd bf strtod double_bytes).
#[local] Notation parseClassWith := (parseClassWith pos neg sd bf strtod double_bytes).
#[local] Notation parseClassIn := (parseClassIn pos neg sd bf strtod double_bytes).
#[local] Notation parseClass := (parseClass pos neg sd bf strtod double_bytes).

Definition pragma_words (m : Node) : list Word := (TOKEN_LESS_THAN, [chr "<"]) :: words m ++ [(TOKEN_GREATER_THAN, [chr ">"])].

(** The arguments of a method are those of its body. *)
Definition body_parts (b : Node) : list Node * list Node * list Node :=
  match b with BlockNode args tempVars expressions _ => (args, tempVars, expressions) | _ => ([], [], []) end.

Definition method_words (m : MethodNode) : list Word :=
  let '(args, tempVars, expressions) := body_parts (methodBody m) in
  (match methodClassName m with Some cn => [(TOKEN_IDENTIFIER, cn)] | None => [] end) ++
  words (MessageExpressionNode (methodSelector m) args NilField) ++
  open_square :: concat (pragma_words <$> methodPragmas m) ++ vars_words tempVars ++
  separated dot (words <$> expressions) ++ [close_square].

Definition barred_words (vars : list Node) : list Word := bar :: (name_word <$> vars) ++ [bar].

(** A class is written with the bars of its variables even when it has none:
    a first method named [|] would otherwise be taken for them. *)
Fixpoint class_words (c : ClassNode) : list Word :=
  name_word (className c) ::
  match classMembers c, classSuperName c with
  | Some members, Some s => assign :: name_word s :: open_square :: concat (class_words <$> members) ++ [close_square]
  | None, Some s =>
      assign :: name_word s :: open_square :: concat (pragma_words <$> default [] (classPragmas c)) ++
      barred_words (default [] (classVars c)) ++ concat (method_words <$> default [] (classMethods c)) ++ [close_square]
  | _, None =>
      (TOKEN_IDENTIFIER, bytes_of_string "extend") :: open_square ::
      concat (method_words <$> default [] (classMethods c)) ++ [close_square]
  end.

Definition method_leaves (m : MethodNode) : Prop := all leaves (methodPragmas m) /\ leaves (methodBody m).

Fixpoint class_leaves (c : ClassNode) : Prop :=
  all leaves (default [] (classPragmas c)) /\ all method_leaves (default [] (classMethods c)) /\
  match classMembers c with Some l => all class_leaves l | None => True end.

Lemma value_literal c v s :
  value (LiteralNode c v s) = true -> variable (LiteralNode c v s) = false ->
  literal (LiteralNode c v s) = true /\ constant (LiteralNode c v s) = false.
Proof. intros Ha Ev. destruct c, v; cbn in Ha, Ev; try congruence; done. Qed.

Lemma read_primary fuel a p r :
  value a = true -> leaves a -> length (operand a) <= fuel -> at_ p (operand a ++ r) ->
  yields (parsePrimaryIn fuel p) r (fun x => same x a).
Proof.
  revert a p r. induction fuel as [|fuel IH]; intros a p r Ha Hl Hn Hp;
    destruct (operand_first pos neg a Ha Hl) as (w & l & Hw & Hst & Hid); [rewrite Hw in Hn; cbn in Hn; lia|].
  cbn [Parser.parsePrimaryIn]. destruct (isExpressionNode a) eqn:Hi.
  { destruct (at_cons p open_ (match operand a with _ :: t => t | [] => [] end ++ r)) as (_ & Et & _); [by destruct a|].
    rewrite Et. cbn [open_ fst]. by eapply read_bracketed. }
  assert (operand a = words a) as Eo by (by destruct a). rewrite Eo in *.
  destruct a as [c v s|items s|args vs es s| |]; try done.
  - destruct (variable (LiteralNode c v s)) eqn:Ev.
    + destruct c, v as [str|]; try done; cbn [ParserRound.words literal_words app] in Hp;
        destruct (at_cons _ _ _ Hp) as (_ & Et & _); rewrite Et; cbn [fst];
        destruct (parseVariable_at p str r _ Hp Ev eq_refl) as (x & -> & Hx & Hq); by apply yields_ret.
    + assert (yields (parseLiteral p) r (fun x => same x (LiteralNode c v s))) as (x & q & E & Hx & Hq).
      { destruct (value_literal c v s Ha Ev) as [V1 V2]. apply read_literal; [done|done|done| |done]. unfold rounds. pose proof (at_left _ _ Hp) as Lp.
        unfold left_ in Lp. rewrite Lp, length_app. lia. }
      assert (yields ('(literal, p) ← parseLiteral p; if is_some (error p)
         then Done (None, alsoExpected [TOKEN_IDENTIFIER; TOKEN_OPEN_SQUARE_BRACKET; TOKEN_OPEN_BRACKET] p)
         else Done (literal, p)) r (fun x => same x (LiteralNode c v s))) as G.
      { rewrite E. cbn [mbind run_bind]. pose proof Hq as (_ & _ & ->). by apply yields_ret. }
      rewrite (at_type _ _ Hp), Hw. cbn [app next_type]. unfold starts in Hst.
      assert (w.1 <> TOKEN_IDENTIFIER /\ w.1 <> TOKEN_OPEN_SQUARE_BRACKET /\ w.1 <> TOKEN_OPEN_BRACKET) as (W1 & W2 & W3).
      { clear -Hw Ev Ha Hl. destruct c, v as [str|[i|o|ch|b]]; cbn in Ha, Ev; try congruence; try done;
          cbn [ParserRound.words literal_words] in Hw; try (injection Hw as <- _; done); unfold number_words in Hw; destruct (_ <? 0)%Z; injection Hw as <- _; done. }
      by destruct w.1.
  - assert (yields (parseLiteral p) r (fun x => same x (ArrayNode items s))) as (x & q & E & Hx & Hq).
    { apply read_literal; [done|done|done| |done]. unfold rounds. pose proof (at_left _ _ Hp) as Lp.
      unfold left_ in Lp. rewrite Lp, length_app. lia. }
    destruct (at_cons p (TOKEN_ARRAY_OPEN_BRACKET, bytes_of_string "#(") ((concat (words <$> items) ++ [close_]) ++ r) Hp) as (_ & Et & _).
    rewrite Et. cbn [fst]. rewrite E. cbn [mbind run_bind]. pose proof Hq as (_ & _ & ->). by apply yields_ret.
  - destruct (at_cons p open_square ((args_words args ++ vars_words vs ++ separated dot (words <$> es) ++ [close_square]) ++ r) Hp)
      as (_ & Et & _).
    rewrite Et. cbn [open_square fst]. by eapply read_block.
Qed.

Lemma read_parsePrimary a p r :
  value a = true -> leaves a -> at_ p (operand a ++ r) -> yields (parsePrimary p) r (fun x => same x a).
Proof.
  intros Ha Hl Hp. apply read_primary; [done|done| |done]. pose proof (at_left _ _ Hp) as Lp. unfold left_ in Lp. unfold rounds.
  rewrite Lp, length_app. lia.
Qed.

(** ** Pragmas *)

Notation pragma_arg := (fun a => variable a || literal a).

Lemma pragma_arg_operand a : pragma_arg a = true -> operand a = words a.
Proof. by destruct a. Qed.

(** The argument of a pragma, by the branch that reads it. *)
Lemma read_pragma_arg a p r :
  pragma_arg a = true -> leaves a -> at_ p (operand a ++ r) ->
  if decide (currentType p = TOKEN_IDENTIFIER)
  then exists x q, parseVariable p = (x, q) /\ same x a /\ at_ q r
  else yields (parseLiteral p) r (fun x => same x a).
Proof.
  intros Ha Hl Hp. rewrite (pragma_arg_operand a Ha) in Hp. destruct (variable a) eqn:Ev.
  - destruct a as [c v s| | | |]; try done.
    destruct c, v as [str|]; try done; cbn [ParserRound.words literal_words app] in Hp;
      (rewrite decide_True by (by rewrite (at_type _ _ Hp)));
      destruct (parseVariable_at p str r _ Hp Ev eq_refl) as (x & E & Hx & Hq); by exists x, (nextToken p).
  - cbn [orb] in Ha. rewrite Ev in Ha. cbn [orb] in Ha.
    assert (constant a = false) as Hc.
    { destruct a as [c v s| | | |]; try done. destruct c; try done; cbn in Ha, Ev; apply andb_true_iff in Ha as [_ Ha]; congruence. }
    pose proof (words_literal pos neg a Ha Hl) as Hw. rewrite Hc in Hw. destruct Hw as (w & l & Hw & Hx).
    rewrite decide_False.
    + apply read_literal; [done|done|done| |done]. unfold rounds. pose proof (at_left _ _ Hp) as Lp. unfold left_ in Lp.
      rewrite Lp, length_app. lia.
    + rewrite Hw in Hp. destruct (isArrayLiteral_type p w (l ++ r) Hp) as [E1 E2]. apply E2. by rewrite E1.
Qed.

Lemma read_pragmaPairs args ks args0 st acc p r fuel :
  length args = length ks -> Forall (fun a => pragma_arg a = true /\ leaves a) args -> next_type r <> TOKEN_KEYWORD ->
  holds st acc -> left_ p < fuel -> at_ p (pair_words args ks ++ r) ->
  exists st' xs q, pragmaPairs fuel st args0 p = Done (st', args0 ++ xs, q) /\ holds st' (acc ++ concat ks) /\
    strip <$> xs = strip <$> args /\ at_ q r.
Proof.
  revert ks args0 st acc p fuel. induction args as [|a args IH]; intros ks args0 st acc p fuel Hlen Hf Hr Hst Hfu Hp;
    (destruct ks as [|k ks]; [|]; try done); (destruct fuel as [|fuel]; [lia|]); cbn [Parser.pragmaPairs].
  - cbn in Hp. rewrite decide_False by (by rewrite (at_type _ _ Hp)). exists st, [], p. cbn. by rewrite !app_nil_r.
  - injection Hlen as Hlen. apply list.Forall_cons in Hf as [[Ha Hv] Hf'].
    unfold ParserRound.pair_words in Hp. cbn [zip_with concat app] in Hp. rewrite <- (assoc_L (++)) in Hp.
    destruct (at_cons _ _ _ Hp) as (Ec & Et & Hq & _ & Hlp). rewrite Et, Ec. cbn [fst snd]. rewrite decide_True by done.
    destruct (appendKeyword_ok k st acc Hst) as (st' & E & Hst'). rewrite E. cbn [mbind run_bind].
    fold (pair_words args ks) in Hq, Hlp. rewrite length_app in Hlp.
    assert (forall x q, same x a -> at_ q (pair_words args ks ++ r) ->
      exists st'' xs q', pragmaPairs fuel st' (args0 ++ [x]) q = Done (st'', args0 ++ xs, q') /\ holds st'' (acc ++ concat (k :: ks)) /\
        strip <$> xs = strip <$> a :: args /\ at_ q' r) as Hnext.
    { intros x q Hx Hq'. pose proof (at_left _ _ Hq') as Lq.
      destruct (IH ks (args0 ++ [x]) st' (acc ++ k) q fuel Hlen Hf' Hr Hst' ltac:(lia) Hq') as (st2 & xs & q' & E2 & A & B & D).
      exists st2, (x :: xs), q'. rewrite E2, <- !(assoc_L (++)) in *. split_and!; [done|done| |done]. cbn. by rewrite B, Hx. }
    pose proof (read_pragma_arg a _ _ Ha Hv Hq) as Harg.
    destruct (decide (currentType (nextToken p) = TOKEN_IDENTIFIER)) as [Hi|Hi].
    + destruct Harg as (x & q & -> & Hx & Hq'). by apply Hnext.
    + destruct Harg as (x & q & -> & Hx & Hq'). cbn [ordCollAddObject unchecked mbind run_bind]. by apply Hnext.
Qed.

Lemma pragma_cases m :
  pragma m = true -> leaves m ->
  exists sel args s, m = MessageExpressionNode sel args s /\ length args = length (keywords sel) /\ keywords sel <> [] /\
    Forall (fun a => pragma_arg a = true /\ leaves a) args /\ words m = pair_words args (keywords sel).
Proof.
  destruct m as [| | | |sel args s]; try done. cbn [pragma]. intros [[Hc Ha]%andb_true_iff Hv]%andb_true_iff Hl.
  apply bool_decide_eq_true in Hc. apply Nat.eqb_eq in Ha. destruct (keywords_length sel Hc) as [K1 K2].
  exists sel, args, s. split_and!; [done|congruence|done| |cbn [ParserRound.words]; by rewrite decide_True].
  cbn [ParserRound.leaves] in Hl. rewrite all_forall in Hl. rewrite forallb_forall in Hv. rewrite Forall_forall in Hl |- *.
  intros a Hin. split; [apply Hv; by apply list_elem_of_In|by apply Hl].
Qed.

Lemma read_pragmas ps ps0 p l fuel :
  forallb pragma ps = true -> all leaves ps -> next_type l <> TOKEN_LESS_THAN -> left_ p < fuel ->
  at_ p (concat (pragma_words <$> ps) ++ l) ->
  yields (pragmaList fuel ps0 p) l (fun xs => exists ys, xs = ps0 ++ ys /\ strip <$> ys = strip <$> ps).
Proof.
  revert ps0 p fuel. induction ps as [|m ps IH]; intros ps0 p fuel Hps Hl Hn Hfu Hp; (destruct fuel as [|fuel]; [lia|]); cbn [Parser.pragmaList].
  - cbn in Hp. rewrite (bool_decide_eq_false_2 (currentType p = _)) by (by rewrite (at_type _ _ Hp)). cbn [andb].
    apply yields_ret; [|done]. exists []. by rewrite app_nil_r.
  - cbn [forallb] in Hps. apply andb_true_iff in Hps as [Hm Hps]. destruct Hl as [Hlm Hl].
    destruct (pragma_cases m Hm Hlm) as (sel & args & s & -> & Hlen & Hne & Hf & Hw).
    cbn [fmap list_fmap concat] in Hp. unfold pragma_words at 1 in Hp. rewrite Hw in Hp. cbn [app] in Hp.
    rewrite <- !(assoc_L (++)) in Hp. cbn [app] in Hp. fold (list_fmap) in Hp.
    destruct (at_cons _ _ _ Hp) as (_ & Et & Hq & Ek & Hlp). rewrite Et, Ek. cbn [fst].
    assert (next_type (pair_words args (keywords sel) ++ (TOKEN_GREATER_THAN, [chr ">"]) :: concat (pragma_words <$> ps) ++ l)
      = TOKEN_KEYWORD) as Hk by (by destruct args, (keywords sel)).
    rewrite Hk, !bool_decide_eq_true_2 by done. cbn [andb].
    eapply (yields_catch _ _ _ ((TOKEN_GREATER_THAN, [chr ">"]) :: concat (pragma_words <$> ps) ++ l) _
      (fun x => same x (MessageExpressionNode sel args s))).
    + unfold parsePragma.
      destruct (read_pragmaPairs args (keywords sel) [] (newString 64, 0) [] (nextToken p)
        ((TOKEN_GREATER_THAN, [chr ">"]) :: concat (pragma_words <$> ps) ++ l) (rounds (nextToken p)) Hlen Hf ltac:(done) holds_new
        ltac:(unfold rounds, left_; lia) Hq) as ([buf size] & xs & q & E & A & B & D).
      rewrite E. cbn [mbind run_bind app]. apply yields_ret; [|done].
      pose proof (holds_resized (buf, size) _ A) as R. cbn [fst snd app] in R. rewrite keywords_concat in R.
      unfold same, createMessageExpressionNode. cbn [strip app]. by rewrite R, B.
    + intros x q Hx Hq'. eapply yields_skip; [done|done|]. intros q2 Hq2. cbn [ordCollAddObject unchecked mbind run_bind].
      pose proof (at_left _ _ Hq2) as L2. rewrite length_app in Hlp. cbn [length] in Hlp.
      eapply yields_weaken; [apply (IH (ps0 ++ [x]) q2 fuel Hps Hl Hn); [lia|done]|].
      intros xs (ys & -> & E). exists (x :: ys). rewrite <- (assoc_L (++)). split; [done|]. cbn. by rewrite E, Hx.
Qed.

(** ** Methods *)

Lemma variable_leaves v : variable v = true -> leaves v /\ value v = true /\ operand v = [name_word v].
Proof.
  intros Hv. split; [|split; [by apply variable_value|]]; (destruct v as [c w s| | | |]; [|done..]); destruct c; try done; by destruct w.
Qed.

Lemma pattern_message sel args :
  arity sel = length args -> forallb variable args = true ->
  message (MessageExpressionNode sel args NilField) = true /\ leaves (MessageExpressionNode sel args NilField).
Proof.
  intros Ha Hv. rewrite forallb_forall in Hv. split.
  - cbn [message]. rewrite Ha, Nat.eqb_refl. cbn [andb]. apply forallb_forall. intros v Hin. by apply variable_value, Hv.
  - cbn [ParserRound.leaves]. apply all_forall, Forall_forall. intros v Hin. apply variable_leaves, Hv. by apply list_elem_of_In.
Qed.

Lemma read_patternPairs args ks args0 st acc p r fuel :
  length args = length ks -> forallb variable args = true -> next_type r <> TOKEN_KEYWORD -> holds st acc -> left_ p < fuel ->
  at_ p (pair_words args ks ++ r) ->
  yields (patternPairs fuel st args0 p) r
    (fun x => holds (fst x) (acc ++ concat ks) /\ exists xs, snd x = args0 ++ xs /\ strip <$> xs = strip <$> args).
Proof.
  revert ks args0 st acc p fuel. induction args as [|a args IH]; intros ks args0 st acc p fuel Hlen Hf Hr Hst Hfu Hp;
    (destruct ks as [|k ks]; [|]; try done); (destruct fuel as [|fuel]; [lia|]); cbn [patternPairs].
  - cbn in Hp. rewrite decide_False by (by rewrite (at_type _ _ Hp)). apply yields_ret; [|done].
    cbn. rewrite app_nil_r. split; [done|]. exists []. by rewrite app_nil_r.
  - injection Hlen as Hlen. cbn [forallb] in Hf. apply andb_true_iff in Hf as [Ha Hf'].
    destruct (variable_leaves a Ha) as (_ & _ & Ho).
    unfold ParserRound.pair_words in Hp. cbn [zip_with concat app] in Hp. rewrite Ho in Hp. cbn [app] in Hp.
    fold (pair_words args ks) in Hp.
    destruct (at_cons _ _ _ Hp) as (Ec & Et & Hq & _ & Hlp). rewrite Et, Ec. cbn [fst snd]. rewrite decide_True by done.
    destruct (appendKeyword_ok k st acc Hst) as (st' & E & Hst'). rewrite E. cbn [mbind run_bind].
    eapply yields_next_expect; [done|done|]. intros q Hq2. destruct (parseVariable_at q _ _ a Hq2 Ha eq_refl) as (x & -> & Hx & Hq3).
    pose proof (at_left _ _ Hq3) as L3. cbn [length] in Hlp.
    eapply yields_weaken; [apply (IH ks (args0 ++ [x]) st' (acc ++ k) (nextToken q) fuel Hlen Hf' Hr Hst'); [lia|done]|].
    intros [st2 args2] (A & xs & B & D). cbn [fst snd] in *. cbn [concat]. rewrite (assoc_L (++)). split; [done|].
    exists (x :: xs). rewrite B, <- (assoc_L (++)). split; [done|]. cbn. by rewrite D, Hx.
Qed.

Lemma read_pattern sel args p r :
  arity sel = length args -> forallb variable args = true -> next_type r <> TOKEN_KEYWORD ->
  at_ p (words (MessageExpressionNode sel args NilField) ++ r) ->
  yields (parseMessagePattern p) r (fun x => fst x = sel /\ strip <$> snd x = strip <$> args).
Proof.
  intros Ha Hv Hr Hp. destruct (pattern_message sel args Ha Hv) as [Hm Hl].
  destruct (message_cases pos neg _ Hm Hl) as (sel' & args' & s & E & _ & Hc). injection E as <- <- <-.
  unfold parseMessagePattern. rewrite (at_type _ _ Hp).
  destruct Hc as [(_ & Hlen & Hne & Hw)|[(-> & Hw)|(a & -> & Hw)]]; rewrite Hw in Hp |- *.
  - assert (next_type (pair_words args (keywords sel) ++ r) = TOKEN_KEYWORD) as -> by (by destruct args, (keywords sel)).
    unfold parseKeywordMessagePattern.
    destruct (read_patternPairs args (keywords sel) [] (newString 64, 0) [] p r (rounds p) Hlen Hv Hr holds_new
      ltac:(unfold rounds, left_; lia) Hp) as ([[buf size] xs] & q & E & (A & ys & B & D) & Hq).
    rewrite E. cbn [mbind run_bind]. apply yields_ret; [|done]. cbn [fst snd] in *. subst xs. cbn [app].
    pose proof (holds_resized (buf, size) _ A) as R. cbn [fst snd app] in R. rewrite keywords_concat in R. by split.
  - destruct (at_cons _ _ _ Hp) as (Ec & _ & Hq & _). cbn [app next_type fst]. apply yields_ret; [|done].
    by rewrite Ec.
  - destruct (at_cons _ _ _ Hp) as (Ec & _ & Hq & _). cbn [forallb] in Hv. rewrite andb_true_r in Hv.
    destruct (variable_leaves a Hv) as (_ & _ & Ho). rewrite Ho in Hp. cbn [app] in Hp.
    assert (yields (parseBinaryMessagePattern p) r (fun x => fst x = sel /\ strip <$> snd x = strip <$> [a])) as G.
    { unfold parseBinaryMessagePattern. eapply yields_next_expect; [done|done|]. intros q Hq2.
      destruct (parseVariable_at q _ _ a Hq2 Hv eq_refl) as (x & -> & Hx & Hq3). apply yields_ret; [|done].
      cbn. by rewrite Ec, Hx. }
    cbn [app next_type fst]. pose proof (op_type_special sel) as Hs. by destruct (op_type sel).
Qed.

(** The first words of a pattern, and what the test for a class name sees. *)
Lemma pattern_first sel args :
  arity sel = length args -> forallb variable args = true ->
  exists w l, words (MessageExpressionNode sel args NilField) = w :: l /\
    isMethodFirstToken (mkTok w.1 w.2 0 0 0 false) = true /\ (w.1 = TOKEN_IDENTIFIER -> l = []).
Proof.
  intros Ha Hv. destruct (pattern_message sel args Ha Hv) as [Hm Hl].
  destruct (message_cases pos neg _ Hm Hl) as (sel' & args' & s & E & _ & Hc). injection E as <- <- <-.
  destruct Hc as [(_ & Hlen & Hne & Hw)|[(-> & Hw)|(a & -> & Hw)]]; rewrite Hw.
  - destruct args as [|a args], (keywords sel) as [|k ks]; try done. by eexists _, _.
  - by eexists _, _.
  - eexists _, _. split; [done|]. unfold isMethodFirstToken. cbn [fst tok_type]. pose proof (op_type_special sel) as Hs.
    split; [by destruct (op_type sel)|]. intros E. by rewrite E in Hs.
Qed.

Lemma methodFirst_at p w l : at_ p (w :: l) -> isMethodFirstToken (currentToken p) = isMethodFirstToken (mkTok w.1 w.2 0 0 0 false).
Proof. intros Hp. destruct (at_cons _ _ _ Hp) as (_ & Et & _). unfold isMethodFirstToken, currentType in *. by rewrite Et. Qed.

Lemma peekFirst_at p w l :
  at_ p (w :: l) -> isMethodFirstToken (peekToken p) = isMethodFirstToken (mkTok (next_type l) [] 0 0 0 false).
Proof.
  intros Hp. destruct (at_cons _ _ _ Hp) as (_ & _ & _ & Ek & _). unfold isMethodFirstToken. unfold peekType in Ek. by rewrite Ek.
Qed.

Lemma read_method m p r :
  method m = true -> method_leaves m -> at_ p (method_words m ++ r) ->
  yields (parseMethod p) r (fun x => strip_method x = strip_method m).
Proof.
  destruct m as [cn sel ps b src]. unfold method, method_leaves, method_words.
  cbn [methodPragmas methodBody methodSelector methodClassName]. intros [Hps Hb]%andb_true_iff [Hlp Hlb] Hp.
  destruct b as [| |args vs es s| |]; try done. apply andb_true_iff in Hb as [Ha Hb]. apply Nat.eqb_eq in Ha.
  cbn [body_parts] in Hp. cbn [value] in Hb. apply andb_true_iff in Hb as [Hb Hrl]. apply andb_true_iff in Hb as [Hb Hes].
  apply andb_true_iff in Hb as [Hargs Hvs]. change (forallb statement es = true) in Hes. cbn [ParserRound.leaves] in Hlb.
  rewrite <- !(assoc_L (++)) in Hp. cbn [app] in Hp. rewrite <- !(assoc_L (++)) in Hp. cbn [app] in Hp.
  set (body := concat (pragma_words <$> ps) ++ vars_words vs ++ separated dot (words <$> es) ++ close_square :: r) in *.
  remember (words (MessageExpressionNode sel args NilField)) as pat eqn:Epat.
  destruct (pattern_first sel args Ha Hargs) as (w & l & Hw & Hmf & Hid). rewrite <- Epat in Hw.
  set (qual := bool_decide (currentType p = TOKEN_IDENTIFIER) && isMethodFirstToken (peekToken p)).
  assert (qual = is_some cn /\ (if qual then Some (tok_content (currentToken p)) else None) = cn /\
    at_ (if qual then nextToken p else p) (pat ++ open_square :: body)) as (_ & Ecn & Hp1).
  { unfold qual. destruct cn as [c|]; cbn [app] in Hp.
    - destruct (at_cons _ _ _ Hp) as (Ec & Et & Hq & _). rewrite Et, (peekFirst_at _ _ _ Hp), Hw. cbn [app next_type fst snd] in *.
      rewrite (bool_decide_eq_true_2 (TOKEN_IDENTIFIER = TOKEN_IDENTIFIER)) by done.
      change (isMethodFirstToken (mkTok w.1 [] 0 0 0 false)) with (isMethodFirstToken (mkTok w.1 w.2 0 0 0 false)).
      rewrite Hmf. cbn [andb is_some]. rewrite Ec. rewrite Hw in Hq. done.
    - rewrite Hw in Hp. destruct (at_cons _ _ _ Hp) as (_ & Et & _). rewrite Et.
      destruct (bool_decide (w.1 = TOKEN_IDENTIFIER)) eqn:Ew; [|cbn [andb is_some]; by rewrite Hw].
      apply bool_decide_eq_true in Ew. rewrite (peekFirst_at _ _ _ Hp), (Hid Ew).
      change (isMethodFirstToken _) with false. cbn [andb is_some]. by rewrite Hw. }
  destruct (body_first pos neg es r Hes Hlb) as (B1 & _ & B3).
  unfold Parser.parseMethod. fold qual. rewrite Ecn.
  rewrite Epat in Hp1. eapply yields_catch; [eapply (read_pattern sel args _ (open_square :: body)); [exact Ha|exact Hargs|done|exact Hp1]|]. intros [sel' args'] p2 [E1 E2] Hp2. cbn [fst snd] in E1, E2. subst sel'.
  eapply yields_skip; [done|done|]. intros p3 Hp3.
  eapply yields_catch; [apply (read_pragmas ps [] p3 (vars_words vs ++ separated dot (words <$> es) ++ close_square :: r) (rounds p3));
    [exact Hps|exact Hlp|by apply vars_first|unfold rounds, left_; lia|exact Hp3]|].
  intros xs p4 (ys & -> & Eps) Hp4. eapply yields_catch; [by apply (read_tempVars vs)|]. intros ts p5 Ets Hp5.
  assert (forall a q r', value a = true -> leaves a -> length (operand a) <= length (separated dot (words <$> es)) ->
    at_ q (operand a ++ r') -> yields (parsePrimary q) r' (fun x => same x a)) as Hprim
    by (intros a q r' V1 V2 _ V3; by apply read_parsePrimary).
  eapply yields_catch; [apply (read_statements pos neg parsePrimary _ Hprim es [] p5 r (rounds p5));
    [exact Hes|exact Hrl|exact Hlb|done|unfold rounds, left_; lia|exact Hp5]|].
  intros zs p6 (us & -> & Ees) Hp6. eapply yields_skip; [done|done|]. intros p7 Hp7. cbn [unchecked mbind run_bind app].
  apply yields_ret; [|done]. unfold strip_method. cbn. by rewrite Eps, E2, Ets, Ees.
Qed.

Lemma method_words_first m : method m = true ->
  exists w l, method_words m = w :: l /\ isMethodFirstToken (mkTok w.1 w.2 0 0 0 false) = true.
Proof.
  destruct m as [cn sel ps b src]. unfold method, method_words. cbn [methodPragmas methodBody methodSelector methodClassName].
  intros [_ Hb]%andb_true_iff. destruct b as [| |args vs es s| |]; try done. apply andb_true_iff in Hb as [Ha Hb].
  apply Nat.eqb_eq in Ha. cbn [value] in Hb. apply andb_true_iff in Hb as [Hb _]. apply andb_true_iff in Hb as [Hb _].
  apply andb_true_iff in Hb as [Hargs _]. cbn [body_parts]. destruct cn as [c|]; [by eexists _, _|].
  destruct (pattern_first sel args Ha Hargs) as (w & l & -> & Hw & _). by eexists _, _.
Qed.

Lemma read_methods ms ms0 p r fuel :
  forallb method ms = true -> all method_leaves ms -> left_ p < fuel ->
  at_ p (concat (method_words <$> ms) ++ close_square :: r) ->
  yields (methodList fuel ms0 p) (close_square :: r)
    (fun xs => exists ys, xs = ms0 ++ ys /\ strip_method <$> ys = strip_method <$> ms).
Proof.
  revert ms0 p fuel. induction ms as [|m ms IH]; intros ms0 p fuel Hms Hl Hfu Hp; (destruct fuel as [|fuel]; [lia|]); cbn [Parser.methodList].
  - cbn in Hp. rewrite (methodFirst_at _ _ _ Hp). apply yields_ret; [|done]. exists []. by rewrite app_nil_r.
  - cbn [forallb] in Hms. apply andb_true_iff in Hms as [Hm Hms]. destruct Hl as [Hlm Hl].
    cbn [fmap list_fmap concat] in Hp. rewrite <- (assoc_L (++)) in Hp.
    destruct (method_words_first m Hm) as (w & l & Hw & Hf).
    assert (isMethodFirstToken (currentToken p) = true) as ->.
    { pose proof Hp as Hp'. rewrite Hw in Hp'. by rewrite (methodFirst_at _ _ _ Hp'). }
    eapply yields_catch; [by apply (read_method m)|]. intros x q Hx Hq. cbn [ordCollAddObject unchecked mbind run_bind].
    pose proof (at_left _ _ Hp) as L1. pose proof (at_left _ _ Hq) as L2. rewrite length_app, Hw in L1. cbn [length] in L1.
    eapply yields_weaken; [apply (IH (ms0 ++ [x]) q fuel Hms Hl); [cbn [fmap] in *; lia|done]|].
    intros xs (ys & -> & E). exists (x :: ys). rewrite <- (assoc_L (++)). split; [done|]. cbn. by rewrite E, Hx.
Qed.

(** ** Classes *)

Definition reads_class (f : P ClassNode) (c : ClassNode) : Prop :=
  forall p r, at_ p (class_words c ++ r) -> yields (f p) r (fun x => strip_class x = strip_class c).

Lemma class_words_first c : exists l, class_words c = name_word (className c) :: l.
Proof. destruct c. by eexists. Qed.

Lemma read_members f cs cs0 p r fuel :
  Forall (reads_class f) cs -> left_ p < fuel -> at_ p (concat (class_words <$> cs) ++ close_square :: r) ->
  yields (memberList f fuel cs0 p) (close_square :: r)
    (fun xs => exists ys, xs = cs0 ++ ys /\ strip_class <$> ys = strip_class <$> cs).
Proof.
  revert cs0 p fuel. induction cs as [|c cs IH]; intros cs0 p fuel Hcs Hfu Hp; (destruct fuel as [|fuel]; [lia|]); cbn [memberList].
  - cbn in Hp. rewrite decide_False by (by rewrite (at_type _ _ Hp)). apply yields_ret; [|done]. exists []. by rewrite app_nil_r.
  - apply list.Forall_cons in Hcs as [Hc Hcs]. cbn [fmap list_fmap concat] in Hp. rewrite <- (assoc_L (++)) in Hp.
    destruct (class_words_first c) as [l Hw].
    rewrite decide_True by (rewrite (at_type _ _ Hp), Hw; done).
    eapply yields_catch; [by apply Hc|]. intros x q Hx Hq. cbn [ordCollAddObject unchecked mbind run_bind].
    pose proof (at_left _ _ Hp) as L1. pose proof (at_left _ _ Hq) as L2. rewrite length_app, Hw in L1. cbn [length] in L1.
    eapply yields_weaken; [apply (IH (cs0 ++ [x]) q fuel Hcs); [cbn [fmap] in *; lia|done]|].
    intros xs (ys & -> & E). exists (x :: ys). rewrite <- (assoc_L (++)). split; [done|]. cbn. by rewrite E, Hx.
Qed.

(** The name and the [:= Super] of a class. *)
Lemma read_header {f : P ClassNode} name super p l r R :
  variable name = true -> variable super = true ->
  at_ p (name_word name :: assign :: name_word super :: l) ->
  (forall x y s q, same x name -> same y super -> at_ q l ->
     yields (if decide (literalNodeGetStringValue super = bytes_of_string "Namespace")
             then parseNamespace f x y s q else parseClassBody pos neg sd bf strtod double_bytes x y s q) r R) ->
  yields (parseClassWith f p) r R.
Proof.
  intros Hn Hs Hp Hk. unfold Parser.parseClassWith. eapply yields_expect; [done|done|].
  destruct (parseVariable_at p _ _ name Hp Hn eq_refl) as (x & -> & Hx & Hq).
  destruct (at_cons _ _ _ Hq) as (_ & Et & _). rewrite Et. cbn [assign fst].
  rewrite (bool_decide_eq_false_2 (TOKEN_ASSIGN = TOKEN_IDENTIFIER)) by done. cbn [andb].
  eapply yields_skip; [done|done|]. intros q2 Hq2. eapply yields_expect; [done|done|].
  destruct (parseVariable_at q2 _ _ super Hq2 Hs eq_refl) as (y & -> & Hy & Hq3).
  assert (literalNodeGetStringValue y = literalNodeGetStringValue super) as Ey.
  { unfold same in Hy. destruct y as [? [] ?| | | |], super as [? [] ?| | | |]; try done; cbn in *; congruence. }
  rewrite Ey. by apply Hk.
Qed.

Lemma read_class f c :
  class c = true -> class_leaves c ->
  (forall l, classMembers c = Some l -> Forall (reads_class f) l) -> reads_class (parseClassWith f) c.
Proof.
  destruct c as [name super ps vs ms src ext mem]. intros Hc Hl Hmem p r Hp. cbn [class className classMembers classPragmas
    classVars classMethods classIsExtension] in Hc. cbn [class_leaves classPragmas classMethods classMembers] in Hl.
  destruct Hl as (Hlp & Hlm & _). apply andb_true_iff in Hc as [Hn Hc]. cbn [classMembers] in Hmem.
  cbn [class_words className classMembers classSuperName classPragmas classVars classMethods] in Hp.
  destruct mem as [members|].
  - unfold super_named in Hc. cbn [classSuperName] in Hc.
    repeat (apply andb_true_iff in Hc as [Hc ?]). apply negb_true_iff in Hc. destruct super as [s|]; [|done].
    destruct ps; [done|]. destruct vs; [done|]. destruct ms; [done|].
    match goal with H : variable s && _ = true |- _ => apply andb_true_iff in H as [Hs Hns] end.
    apply bool_decide_eq_true, bool_decide_eq_true in Hns. cbn [app] in Hp. rewrite <- !(assoc_L (++)) in Hp. cbn [app] in Hp.
    eapply (read_header (f := f) name s); [done|done|done|]. intros x y src' q Hx Hy Hq. rewrite decide_True by done.
    unfold parseNamespace. eapply yields_skip; [done|done|]. intros q2 Hq2.
    eapply yields_catch; [apply (read_members f members [] q2 r (rounds q2) (Hmem _ eq_refl)); [unfold rounds, left_; lia|done]|].
    intros xs q3 (ys & -> & E) Hq3. eapply yields_skip; [done|done|]. intros q4 Hq4. cbn [unchecked mbind run_bind app].
    apply yields_ret; [|done]. cbn. by rewrite Hx, Hy, E, Hc.
  - apply andb_true_iff in Hc as [Hc Hform]. apply andb_true_iff in Hc as [Hc Hms]. apply andb_true_iff in Hc as [Hps Hvs].
    destruct ps as [ps|]; [|done]. destruct vs as [vs|]; [|done]. destruct ms as [ms|]; [|done].
    cbn [opt_forallb default] in *. destruct ext.
    + apply andb_true_iff in Hform as [Hform Hsup]. apply andb_true_iff in Hform as [Hps0 Hvs0].
      destruct super; [done|]. destruct ps; [|done]. destruct vs; [|done]. cbn [app] in Hp. rewrite <- !(assoc_L (++)) in Hp. cbn [app] in Hp.
      unfold Parser.parseClassWith. eapply yields_expect; [done|done|].
      destruct (parseVariable_at p _ _ name Hp Hn eq_refl) as (x & -> & Hx & Hq).
      destruct (at_cons _ _ _ Hq) as (Ec & Et & Hq2 & _). rewrite Ec, Et. cbn [fst snd]. rewrite !bool_decide_eq_true_2 by done.
      cbn [andb]. unfold parseExtension. eapply yields_skip; [done|done|]. intros q3 Hq3.
      eapply yields_catch; [apply (read_methods ms [] q3 r (rounds q3)); [done|done|unfold rounds, left_; lia|done]|].
      intros xs q4 (ys & -> & E) Hq4. eapply yields_skip; [done|done|]. intros q5 Hq5. cbn [unchecked mbind run_bind app].
      apply yields_ret; [|done]. cbn. by rewrite Hx, E.
    + unfold super_named in Hform. cbn [classSuperName] in Hform. destruct super as [s|]; [|done].
      apply andb_true_iff in Hform as [Hs Hns]. apply bool_decide_eq_true, bool_decide_eq_false in Hns.
      cbn [app] in Hp. rewrite <- !(assoc_L (++)) in Hp. cbn [app] in Hp. unfold barred_words in Hp.
      cbn [app] in Hp. rewrite <- !(assoc_L (++)) in Hp. cbn [app] in Hp.
      eapply (read_header (f := f) name s); [done|done|done|]. intros x y src' q Hx Hy Hq. rewrite decide_False by done.
      unfold parseClassBody. eapply yields_skip; [done|done|]. intros q2 Hq2.
      eapply yields_catch; [eapply (read_pragmas ps [] q2 _ (rounds q2)); [done|done| |unfold rounds, left_; lia|exact Hq2]; done|].
      intros xs q3 (ys & -> & E) Hq3. eapply yields_catch; [by apply (read_barred vs)|]. intros zs q4 E2 Hq4.
      eapply yields_catch; [apply (read_methods ms [] q4 r (rounds q4)); [done|done|unfold rounds, left_; lia|done]|].
      intros ts q5 (us & -> & E3) Hq5. eapply yields_skip; [done|done|]. intros q6 Hq6. cbn [unchecked mbind run_bind app].
      apply yields_ret; [|done]. cbn. by rewrite Hx, Hy, E, E2, E3.
Qed.

Lemma class_member c l d :
  class c = true -> class_leaves c -> classMembers c = Some l -> d ∈ l ->
  class d = true /\ class_leaves d /\ length (class_words d) < length (class_words c).
Proof.
  destruct c as [name super ps vs ms src ext mem]. cbn [classMembers]. intros Hc Hl -> Hd.
  cbn [class className classMembers classPragmas classVars classMethods classIsExtension] in Hc.
  cbn [class_leaves classPragmas classMethods classMembers] in Hl. destruct Hl as (_ & _ & Hl).
  apply andb_true_iff in Hc as [_ Hc]. apply andb_true_iff in Hc as [Hc Hm]. rewrite forallb_forall in Hm.
  rewrite all_forall, Forall_forall in Hl.
  split; [apply Hm; by apply list_elem_of_In|]. split; [by apply Hl|].
  unfold super_named in Hc. cbn [classSuperName] in Hc. destruct super as [s|].
  2:{ repeat (apply andb_true_iff in Hc as [Hc ?]). done. }
  cbn [class_words className classMembers classSuperName length]. rewrite length_app. cbn [length].
  assert (length (class_words d) <= length (concat (class_words <$> l))); [|lia].
  clear -Hd. induction l as [|x l IH]; [by apply list.not_elem_of_nil in Hd|]. cbn [fmap list_fmap concat]. rewrite length_app.
  apply list.elem_of_cons in Hd as [->|Hd]; [lia|]. specialize (IH Hd). cbn [fmap] in IH. lia.
Qed.

Lemma read_classIn fuel c :
  class c = true -> class_leaves c -> length (class_words c) <= fuel -> reads_class (parseClassIn fuel) c.
Proof.
  revert c. induction fuel as [|fuel IH]; intros c Hc Hl Hn.
  { destruct (class_words_first c) as [l Hw]. rewrite Hw in Hn. cbn in Hn. lia. }
  cbn [Parser.parseClassIn]. apply read_class; [done|done|]. intros l Hm. apply Forall_forall. intros d Hd.
  destruct (class_member c l d Hc Hl Hm Hd) as (D1 & D2 & D3). apply IH; [done|done|lia].
Qed.

(** C10. Every well-formed class definition - extensions, namespaces, ordinary
    classes, with their pragmas, variables and methods, and in these every
    statement, block, cascade, message and literal (numbers that are not
    integers apart) - is read back by the parser from the tokens it is written
    as: the whole input is consumed, no error is set, and the tree is the same
    but for source positions. *)
Theorem class_reads_back c p :
  class c = true -> class_leaves c ->
  word_of <$> tokens p = class_words c -> tok_type (endToken p) = TOKEN_END_OF_INPUT -> error p = None ->
  exists c' q, parseClass p = Done (Some c', q) /\ strip_class c' = strip_class c /\ tokens q = [] /\ error q = None.
Proof.
  intros Hc Hl Hw He Hn. assert (at_ p (class_words c ++ [])) as Hp by (rewrite app_nil_r; done).
  destruct (read_classIn (rounds p) c Hc Hl) with (p := p) (r := @nil Word) as (c' & q & E & Hs & (H1 & _ & H3)); [|done|].
  - unfold rounds. rewrite <- Hw, length_fmap. lia.
  - exists c', q. split_and!; [done|done| |done]. by destruct (tokens q).
Qed.
End Programs.

(** ** Example *)

Module RoundExamples.
Notation node_var s := (LiteralNode VariableNode (StringValue (bytes_of_string s)) NilField).

(** [Foo := Object [ |a| at: i put: x [ ^a := (x foo: 3 bar: $A) baz; + #(1 nil) ] ]] *)
Definition sample : ClassNode :=
  mkClassNode (node_var "Foo") (Some (node_var "Object")) (Some []) (Some [node_var "a"])
    (Some [mkMethodNode None (bytes_of_string "at:put:") []
       (BlockNode [node_var "i"; node_var "x"] []
          [ExpressionNode true [node_var "a"]
             (ExpressionNode false [] (node_var "x")
                [MessageExpressionNode (bytes_of_string "foo:bar:")
                   [LiteralNode IntegerNode (RawLiteral (VInt 3)) NilField;
                    LiteralNode CharacterNode (RawLiteral (VChar 65)) NilField] NilField] NilField)
             [MessageExpressionNode (bytes_of_string "baz") [] NilField;
              MessageExpressionNode (bytes_of_string "+")
                [ArrayNode [LiteralNode IntegerNode (RawLiteral (VInt 1)) NilField;
                            LiteralNode NilNode (StringValue (bytes_of_string "nil")) NilField] NilField] NilField] NilField]
          NilField) nowhere])
    nowhere false None.

Definition end_tok : Tok := mkTok TOKEN_END_OF_INPUT [] 0 0 0 false.

Definition sample_parser : Parser :=
  mkParser end_tok ((fun w => mkTok w.1 w.2 0 0 0 false) <$> class_words (byte_class 2) sample) end_tok [] SourceCodeKind None.

Lemma sample_leaves : class_leaves (byte_class 1) (byte_class 2) sample.
Proof.
  split; [done|]. split; [|done]. split; [|done]. split; [done|]. split; [|done]. cbn. by split_and!.
Qed.

Lemma class_reads_back_witness :
  exists c' q, parseClass (byte_class 1) (byte_class 2) (byte_class 3) (byte_class 4) (fun _ => 0%Z) (fun _ => []) sample_parser
      = Done (Some c', q) /\ strip_class c' = strip_class sample /\ tokens q = [] /\ error q = None.
Proof.
  apply (class_reads_back (byte_class 1) (byte_class 2) (byte_class 3) (byte_class 4) (fun _ => 0%Z) (fun _ => []) sample sample_parser).
  - vm_compute. reflexivity.
  - exact sample_leaves.
  - vm_compute. reflexivity.
  - reflexivity.
  - reflexivity.
Defined.
End RoundExamples.
